(* ===== verification/_CoqProject ===== *)
-Q . S2P
Prelude.v
Domains.v
IR.v
Samples.v
Reader.v
Codec.v
Utf8.v
Transport.v
Envelope.v
Types.v
Layout.v
Index.v
Instructions.v
InstructionSafety.v
InstructionTyping.v
Catalog.v
Functions.v
Dominance.v
Cfg.v
Ssa.v
Execution.v
Roots.v
RootSpec.v
Modules.v
ModuleSafety.v
Pipeline.v
Requirements.v
Regions.v
Mangling.v
ManglingSpec.v
ClassLayout.v
ClassSafety.v
ClassSpec.v
Chains.v
Storage.v
Slabs.v
Memory.v
StorageSafety.v
Sweep.v
Heap.v
Text.v
TextSpec.v
Marking.v
Collector.v
HeapInvariant.v
Collection.v
RuntimeApi.v
Strings.v
HostApi.v
Payloads.v
ApiSafety.v
AllocationSafety.v
NativeSafety.v
RegionSafety.v
Isolation.v
StringSafety.v
StringSpec.v
HostSafety.v
HostCalls.v
Descriptors.v
DescriptorSpec.v
RuntimeSamples.v
Negotiation.v
RuntimeSpec.v
HostSpec.v
WorkerPool.v
WorkerInvariant.v
WorkerSafety.v
WorkerSteps.v
WorkerSpec.v
WorkerHandles.v
TaskExecutor.v
TaskSafety.v
TaskSpec.v
Llvm.v
Lowered.v
LoweredSafety.v
LoweredTyping.v
LoweredSpec.v
