(* ===== verification/Prelude.v ===== *)
(** * Neri native back end and runtime: verification development

    Neri compiles a program to an intermediate representation (IR), which a front end
    written in Neri itself serializes.  The C++ sources under [src/native] do the rest:
    [neri-codegen] reads and verifies an IR module and lowers it with LLVM, and the
    runtime library, linked into every program, provides managed memory, strings,
    tasks and sessions.  This library models the trusted core of both in Rocq and proves
    what makes it correct.

    ** The parts and how they interact

    A module arrives as bytes.  [read_verified_module] (ir_reader.cpp) checks the
    envelope and its digest, reads the payload into the data model of ir.h, and hands
    the module to [verify_supported_module] (ir_verifier.cpp).  Lowering only ever sees
    accepted modules and relies on what the verifier established: it lays out classes,
    emits the descriptors and trace callbacks the collector reads, gives functions their link
    names, plans which references each function roots, and translates the instructions.  For
    a program it emits the runtime requirements, which the runtime checks when the program
    starts.  The program then calls the runtime: managed memory (runtime.cpp on the storage
    of managed_storage.cpp), strings and host functions, parallel ranges (task_executor.cpp)
    and worker pools (worker_pool.cpp).

    ** Which file models what

    - Prelude.v: results, exceptions, loops, little-endian words, shared lemmas.
    - Domains.v (ir_domains.h, ir_features.h, ir_protocol.h, ir_transport.h,
      numeric_types.h, scalar_metadata.h): enumerations, wire numbers, feature contracts.
      IR.v (codegen/ir.h): one record per struct.  Samples.v: a program for witnesses.
    - Reader.v (ir_reader.cpp): the bounded cursor and every [read_] routine.  Codec.v
      pairs readers with encoders; Utf8.v (identities), Transport.v (the payload is read
      exactly as it was written) and Envelope.v (header and digest) use it.  Pipeline.v
      composes reader and verifier.  [llvm::SHA256] and [llvm::isLegalUTF8String] are
      parameters.
    - Types.v, Layout.v (native_layout.h), Index.v, Instructions.v, Functions.v and
      Modules.v (ir_verifier.cpp): the verifier, in the order of the source.
      InstructionSafety.v, InstructionTyping.v, Dominance.v, Cfg.v, Ssa.v, Execution.v and
      ModuleSafety.v prove what acceptance means.  Catalog.v (abi_catalog.h,
      abi_runtime_imports.h): the runtime functions a module may import.
    - Requirements.v, Negotiation.v (llvm_lowering.cpp, [emit_program_requirements]) and
      Regions.v (allocation_regions.cpp).
    - The lowering (llvm_lowering.cpp): Roots.v, root planning, with RootSpec.v; Mangling.v,
      link names, with ManglingSpec.v; ClassLayout.v, fields and method tables, with
      ClassSafety.v and ClassSpec.v; Descriptors.v, type descriptors and trace callbacks,
      with DescriptorSpec.v, which shows that they satisfy what the runtime assumes of a
      program; Lowered.v (and llvm_numeric.h), the instructions that compute values and the
      terminators.  Llvm.v is the interface to LLVM's builder, whose calls stand for what
      the appended instruction computes, so that Lowered.v is the meaning of the generated
      code; LoweredSafety.v, LoweredTyping.v and LoweredSpec.v prove it.
    - Storage.v (managed_storage.h, managed_storage.cpp): slabs, entry tables, large
      allocations.  Chains.v (intrusive lists), Slabs.v, Memory.v, StorageSafety.v,
      Sweep.v proves its operations.
    - Heap.v (runtime.cpp): contexts, lookups, tracing and [collect_impl].  Marking.v and
      Collector.v show that the trace marks exactly what is reachable; HeapInvariant.v
      states the invariant [world_ok] of the whole runtime; Collection.v composes trace
      and sweep.
    - RuntimeApi.v (runtime.cpp): the entry points, each the whole function.  Payloads.v,
      ApiSafety.v, AllocationSafety.v, NativeSafety.v and RegionSafety.v show that each
      keeps the invariant; Isolation.v puts them into runs of a program (a step relation over
      operations with contracts) and compares states along a run; RuntimeSamples.v is a host
      and a program; RuntimeSpec.v states the results.
    - Text.v and TextSpec.v (runtime.cpp): UTF-8, integers and floats as text.  Strings.v
      (string objects) and HostApi.v (arrays, console, files, paths, processes), the
      functions behind the standard library; StringSafety.v, StringSpec.v, HostSafety.v and
      HostCalls.v prove them; HostSpec.v states the results.
    - WorkerPool.v (worker_pool.cpp): pools of worker threads with their two job queues, each
      critical section of the pool's mutex one definition.  WorkerInvariant.v proves the
      queues; WorkerSafety.v has the mailbox a pool implements and its labelled actions;
      WorkerSteps.v has the calls of owner and threads as events with their effects on the
      mailbox; WorkerSpec.v states the refinement; WorkerHandles.v covers the handles.
    - TaskExecutor.v (task_executor.cpp): parallel ranges, the threads of a pool as a step
      relation; TaskSafety.v and TaskSpec.v prove it.

    ** How code becomes definitions

    A [throw] or a panic is a value of [exn]; undefined behaviour of C++ (an index out of
    range, a dangling or null pointer, a failed [assert]) is the exception [undefined],
    which the safety theorems exclude.  A pointer is an address, an object graph is a
    finite map from addresses; intrusive lists are walked through those maps, so that
    aliasing and unlinking are as in the source.  Integers are [N] or [Z] with the
    wrap-around of their C++ type written out where it can occur.  Storage addresses come
    from a host (type classes [HostMemory], [RuntimeHost]) that may refuse; its laws say
    that what it returns is fresh and aligned.  Further parameters, each a type class with
    laws that state documented behaviour and a concrete instance: LLVM's [DataLayout], its
    [IRBuilder] and the decoding of doubles ([FloatBits]), the addresses a linker gives
    ([LinkedImage]), the conversions between doubles and text ([FloatLibrary]), automatic
    storage ([LocalStorage]), and the answers of the operating system ([HostSystem]).

    Loops run on fuel that is shown to be enough: the number of mapped elements plus one
    for walks of intrusive lists ([list_fuel]) and for draining the mark worklist, edges
    plus one for block discovery, blocks squared plus one for dominance, functions plus
    one for region selection, blocks times values plus one for root planning (each pass but
    the last adds a live value), classes plus one for class layouts (the depth of the
    hierarchy), the number of jobs for emptying a queue of a pool, 129 for type layouts (the
    source's own depth limit).  The theorems that state a result include that it is returned.

    ** What the theorems show

    - Modules: accepted bytes are exactly the encodings of supported modules; reading and
      verifying never runs into undefined behaviour; accepted functions are in SSA form
      and their executions read computed values only; dominators, block order, subclass
      walks and layouts agree with their definitions; calls, virtual dispatch, field
      accesses and foreign calls are type safe; unsafe instructions hold a capability.
    - Compiled code: values stay within their types and no undefined operation of LLVM is
      reached; checked arithmetic and conversions are exact or panic; optionals give back
      what was put into them; what is live is rooted wherever a collection can happen;
      fields are aligned, disjoint and where subclasses expect them; a virtual call reaches
      the nearest implementation; link names are unique; descriptors are lawful and the
      runtime accepts the allocations.
    - Program and runtime: the requirements cover what the program uses, and the runtime
      of the same release accepts them.
    - Storage: allocation, sweep and adoption are exact and keep storages consistent.
    - Runtime: the invariant holds after every run; no call is undefined; collection keeps
      exactly the reachable objects; allocation keeps everything reachable; stores change
      one slot; regions cannot be observed from outside; frames, borrows, foreign entries
      and shutdown give back what they took.
    - Strings and host functions: they are safe whatever the operating system answers;
      concatenation, slices, UTF-8 validation and the conversions of numbers are exact.
    - Worker pools implement a mailbox: every call has exactly its effect on the jobs, and is
      granted exactly when it can be; a stopped pool loses no outcome; nothing is undefined.
    - Parallel ranges: chunks partition the range, every index is executed exactly once
      however threads interleave, and some thread can always go on.

    ** Not modelled

    Of the lowering, the instructions on memory, calls, tasks and adapters, and debug
    information: their code only has meaning in LLVM's own memory model.  Emission, the
    driver, the object cache and the session linker (llvm_emitter.cpp, main.cpp,
    object_cache.cpp, object_linker.cpp), and the platform, window and tool code, which drive
    LLVM and the operating system.  Of the runtime, task heaps, sessions and continuations,
    the opt-in memory profile, the process entry, math wrappers and test hooks; the storage
    is built without AddressSanitizer.  The heap is modelled for one thread and its chain of
    contexts; worker pools and parallel ranges for all their threads, where a wait is having
    no step.  The front end under [compiler] and the standard library are Neri programs,
    not C++. *)

From Stdlib Require Export Strings.Byte String.
From stdpp Require Export base prelude strings list numbers gmap sorting pretty.

(** ** Exceptions and results

    Every [throw] of the modelled C++ is a value of [exn], and so is a runtime
    panic, which ends the process with a report.  [undefined] marks
    what the language leaves undefined (an out-of-range [operator[]], a
    dereferenced null pointer or empty [optional], a zero divisor): it is never
    thrown by the program, and the safety theorems show it is not reached. *)

Inductive reader_error_kind :=
| incompatible_major
| unsupported_minor
| unsupported_feature
| malformed_module
| invalid_reference
| invalid_type
| invalid_control_flow
| invalid_ssa
| invalid_safety
| invalid_source.

#[export] Instance reader_error_kind_eq_dec : EqDecision reader_error_kind.
Proof. solve_decision. Defined.

Inductive exn :=
| reader_error (code : reader_error_kind) (message : string) (byte_offset : N)
| lowering_error (message : string)
| invalid_argument (message : string)
| out_of_range (what : string)
| panic (code : N) (message : string)
| undefined (what : string).

#[export] Instance exn_eq_dec : EqDecision exn.
Proof. solve_decision. Defined.

Inductive result (A : Type) :=
| Ok (value : A)
| Throw (error : exn).
Arguments Ok {_} _.
Arguments Throw {_} _.

#[export] Instance result_ret : MRet result := λ A a, Ok a.
#[export] Instance result_bind : MBind result := λ A B k m,
  match m with Ok a => k a | Throw e => Throw e end.
#[export] Instance result_fmap : FMap result := λ A B f m,
  match m with Ok a => Ok (f a) | Throw e => Throw e end.

(** [when c e] is the source's [if (c) throw e;]. *)
Definition when (c : bool) (e : exn) : result unit := if c then Throw e else Ok tt.

(** A result that carries a defined outcome: a value or a C++ exception. *)
Definition defined {A} (m : result A) : Prop := ∀ what, m ≠ Throw (undefined what).

Definition is_ok {A} (m : result A) : bool := match m with Ok _ => true | _ => false end.

Section result_lemmas.
Context {A B : Type}.
Implicit Types (m : result A) (k : A → result B).

Lemma bind_Ok_inv m k b : m ≫= k = Ok b → ∃ a, m = Ok a ∧ k a = Ok b.
Proof. destruct m; simpl; [eauto|discriminate]. Qed.

Lemma bind_Ok_iff m k b : m ≫= k = Ok b ↔ ∃ a, m = Ok a ∧ k a = Ok b.
Proof. split; [apply bind_Ok_inv|]. by intros (a & -> & ?). Qed.

Lemma bind_Ok (a : A) k : Ok a ≫= k = k a.
Proof. done. Qed.

Lemma defined_bind m k :
  defined m → (∀ a, m = Ok a → defined (k a)) → defined (m ≫= k).
Proof.
  intros Hm Hk what. destruct m as [a|e]; simpl; [by apply (Hk a)|].
  intros [= ->]. by apply (Hm what).
Qed.

Lemma defined_Ok (a : A) : defined (Ok a).
Proof. intros what; discriminate. Qed.

Lemma defined_reader_error code msg off :
  defined (Throw (A:=A) (reader_error code msg off)).
Proof. intros what; discriminate. Qed.
End result_lemmas.

(** Statement sequences. *)
Lemma seq_Ok_iff {B} (m : result unit) (k : unit → result B) b :
  m ≫= k = Ok b ↔ m = Ok tt ∧ k tt = Ok b.
Proof. rewrite bind_Ok_iff. split; [by intros ([] & ? & ?)|eauto]. Qed.

Lemma when_Ok c e u : when c e = Ok u ↔ c = false.
Proof. destruct c, u; simpl; split; congruence. Qed.

Lemma defined_when c code msg off : defined (when c (reader_error code msg off)).
Proof. intros what; destruct c; discriminate. Qed.

(** The hints [defined_db] close the safety side of most branches. *)
Create HintDb defined_db.
#[export] Hint Resolve defined_Ok defined_reader_error defined_when defined_bind : defined_db.

(** Inverts every [_ ≫= _ = Ok _] and [when _ _ = Ok _] in the context. *)
Ltac inv_ok :=
  repeat match goal with
  | H : (_ ≫= _) = Ok _ |- _ =>
      let a := fresh "a" in let H1 := fresh "H" in let H2 := fresh "H" in
      apply bind_Ok_inv in H as (a & H1 & H2)
  | H : when _ _ = Ok _ |- _ => apply when_Ok in H
  | H : Ok _ = Ok _ |- _ => injection H as H
  | H : mret _ = Ok _ |- _ => injection H as H
  | H : Throw _ = Ok _ |- _ => discriminate H
  | H : _ || _ = false |- _ => apply orb_false_iff in H as [??]
  | H : negb _ = false |- _ => apply negb_false_iff in H
  | H : negb _ = true |- _ => apply negb_true_iff in H
  | H : _ && _ = true |- _ => apply andb_true_iff in H as [??]
  | u : unit |- _ => destruct u
  end.

(** Splits a definedness goal along the syntax of the computation. *)
Ltac defined_step :=
  match goal with
  | |- defined (mbind _ _) => apply defined_bind; [|intros ? ?]
  | |- defined (match ?x with _ => _ end) => destruct x eqn:?
  | |- defined _ => solve [auto with defined_db]
  end.

(** ** Loops

    [for_each] is a range-[for] whose body may throw; [for_state] threads the
    variables the body assigns. *)
Fixpoint for_each {A} (l : list A) (body : A → result unit) : result unit :=
  match l with
  | [] => Ok tt
  | x :: l => body x ≫= λ _, for_each l body
  end.

Fixpoint for_state {A S} (l : list A) (s : S) (body : A → S → result S) : result S :=
  match l with
  | [] => Ok s
  | x :: l => body x s ≫= λ s, for_state l s body
  end.

Lemma for_each_Ok {A} (l : list A) body u :
  for_each l body = Ok u ↔ Forall (λ x, body x = Ok tt) l.
Proof.
  destruct u. induction l as [|x l IH]; simpl; [by split|].
  rewrite Forall_cons. split.
  - intros H. inv_ok. by rewrite <-IH.
  - intros [-> ?]. simpl. by apply IH.
Qed.

Lemma for_each_defined {A} (l : list A) body :
  Forall (λ x, defined (body x)) l → defined (for_each l body).
Proof. induction 1; simpl; auto with defined_db. Qed.

(** Invariant rule of a loop with state. *)
Lemma for_state_inv {A S} (I : list A → S → Prop) body :
  (∀ x l s s', I (x :: l) s → body x s = Ok s' → I l s') →
  ∀ l s s', I l s → for_state l s body = Ok s' → I [] s'.
Proof.
  intros Hstep l. induction l as [|x l IH]; intros s s' HI Hrun; simpl in Hrun.
  - by injection Hrun as <-.
  - inv_ok. eauto.
Qed.

Lemma for_state_app {A S} (l1 l2 : list A) (s : S) body :
  for_state (l1 ++ l2) s body = (for_state l1 s body ≫= λ s, for_state l2 s body).
Proof.
  revert s. induction l1 as [|x l1 IH]; intros s; simpl; [done|].
  destruct (body x s); simpl; [apply IH|done].
Qed.

Lemma for_state_defined {A S} (I : S → Prop) (l : list A) body :
  (∀ x s, x ∈ l → I s → defined (body x s) ∧ ∀ s', body x s = Ok s' → I s') →
  ∀ s, I s → defined (for_state l s body).
Proof.
  induction l as [|x l IH]; intros Hstep s HI; simpl; [apply defined_Ok|].
  destruct (Hstep x s) as [Hd HI']; [set_solver|done|].
  apply defined_bind; [done|]. intros s' Hs'. apply IH; eauto.
  intros y s0 Hy. apply Hstep. set_solver.
Qed.

(** ** Partial correctness with definedness

    [ensures m Q]: [m] has no undefined behaviour, and a value it returns
    satisfies [Q]. *)
Definition ensures {A} (m : result A) (Q : A → Prop) : Prop :=
  defined m ∧ ∀ a, m = Ok a → Q a.

Section ensures_lemmas.
Context {A B : Type}.
Implicit Types (m : result A) (Q : A → Prop).

Lemma ensures_Ok (a : A) Q : Q a → ensures (Ok a) Q.
Proof. intros HQ. split; [apply defined_Ok|by intros ? [= <-]]. Qed.

Lemma ensures_reader_error code msg off Q : ensures (Throw (reader_error code msg off)) Q.
Proof. by split. Qed.

Lemma ensures_weaken m P Q : ensures m P → (∀ a, P a → Q a) → ensures m Q.
Proof. intros [Hd HP] HPQ. split; eauto. Qed.

Lemma ensures_bind m (k : A → result B) P (R : B → Prop) :
  ensures m P → (∀ a, P a → ensures (k a) R) → ensures (m ≫= k) R.
Proof.
  intros [Hd HP] Hk. split.
  - apply defined_bind; [done|]. intros a Ha. by apply Hk, HP.
  - intros b (a & Ha & Hb)%bind_Ok_inv. by apply (Hk a (HP a Ha)).
Qed.

Lemma ensures_true m : defined m → ensures m (λ _, True).
Proof. by split. Qed.

Lemma ensures_defined m Q : ensures m Q → defined m.
Proof. by intros [? _]. Qed.
End ensures_lemmas.

Lemma ensures_when c code msg off : ensures (when c (reader_error code msg off)) (λ _, c = false).
Proof. split; [apply defined_when|]. intros u. apply when_Ok. Qed.

Lemma ensures_for_state {A S} (I : S → Prop) (l : list A) body :
  (∀ x s, x ∈ l → I s → ensures (body x s) I) → ∀ s, I s → ensures (for_state l s body) I.
Proof.
  induction l as [|x l IH]; intros Hstep s HI; simpl; [by apply ensures_Ok|].
  eapply ensures_bind; [apply Hstep; [set_solver|done]|]. intros s' HI'. apply IH; [|done].
  intros y s0 Hy. apply Hstep. set_solver.
Qed.

Lemma ensures_for_each {A} (l : list A) body :
  (∀ x, x ∈ l → defined (body x)) →
  ensures (for_each l body) (λ _, Forall (λ x, body x = Ok tt) l).
Proof.
  intros Hd. split; [by apply for_each_defined, Forall_forall|]. intros [] H. by apply for_each_Ok in H.
Qed.

(** ** Computations that return

    [m] returns a value, and the value satisfies [Q]. *)
Definition returns {A} (m : result A) (Q : A → Prop) : Prop := ∃ a, m = Ok a ∧ Q a.

Section returns_lemmas.
Context {A B : Type}.
Implicit Types (m : result A).

Lemma returns_Ok (a : A) (Q : A → Prop) : Q a → returns (Ok a) Q.
Proof. by exists a. Qed.

Lemma returns_weaken m P Q : returns m P → (∀ a, P a → Q a) → returns m Q.
Proof. intros (a & -> & HP) HPQ. exists a. auto. Qed.

Lemma returns_bind m (k : A → result B) P (R : B → Prop) :
  returns m P → (∀ a, P a → returns (k a) R) → returns (m ≫= k) R.
Proof. intros (a & -> & HP) Hk. simpl. by apply Hk. Qed.
End returns_lemmas.

(** A loop that establishes a fact of the items done so far. *)
Lemma returns_loop_split {A S} (I : list A → S → Prop) (l : list A) body s :
  (∀ done x rest s, l = done ++ x :: rest → I done s → returns (body x s) (I (done ++ [x]))) →
  I [] s → returns (for_state l s body) (I l).
Proof.
  intros Hstep HI.
  enough (∀ rest done s, l = done ++ rest → I done s → returns (for_state rest s body) (I l)) as H
    by by apply (H l []).
  clear HI s. induction rest as [|x rest IH]; intros done s Hl HI; simpl.
  - apply returns_Ok. by rewrite Hl, app_nil_r.
  - eapply returns_bind; [by eapply Hstep|]. intros s' HI'.
    apply (IH (done ++ [x])); [by rewrite Hl, <-app_assoc|done].
Qed.

Lemma returns_loop {A S} (I : list A → S → Prop) (l : list A) body s :
  (∀ done x s, x ∈ l → I done s → returns (body x s) (I (done ++ [x]))) →
  I [] s → returns (for_state l s body) (I l).
Proof.
  intros Hstep. apply returns_loop_split. intros done x rest s' -> HI. apply Hstep; [set_solver|done].
Qed.

Lemma returns_for_state {A S} (I : S → Prop) (l : list A) body s :
  (∀ x s, x ∈ l → I s → returns (body x s) I) → I s → returns (for_state l s body) I.
Proof. intros Hstep HI. apply (returns_loop (λ _, I)); [|done]. intros _ x s' Hx. by apply Hstep. Qed.

(** ** Machine words and bytes *)

#[export] Instance byte_eq_dec : EqDecision byte := Byte.byte_eq_dec.

Definition u16_max : N := 65535.
Definition u32_max : N := 4294967295.
Definition u64_max : N := 18446744073709551615.
Definition i32_max : N := 2147483647.

Definition length_N {A} (l : list A) : N := N.of_nat (length l).

Lemma length_N_app {A} (l k : list A) : length_N (l ++ k) = (length_N l + length_N k)%N.
Proof. unfold length_N. rewrite length_app. lia. Qed.

(** [static_cast<std::uint8_t>(n)]. *)
Definition byte_of (n : N) : byte := default x00 (Byte.of_N (n mod 256)%N).

Lemma byte_of_to (b : byte) : byte_of (Byte.to_N b) = b.
Proof. by destruct b. Qed.

Lemma to_N_lt (b : byte) : (Byte.to_N b < 256)%N.
Proof. pose proof (Byte.to_N_bounded b). lia. Qed.

Lemma to_byte_of (n : N) : Byte.to_N (byte_of n) = (n mod 256)%N.
Proof.
  unfold byte_of. pose proof (N.mod_lt n 256 ltac:(done)) as Hlt.
  destruct (Byte.of_N _) as [b|] eqn:Hb; simpl.
  - by apply Byte.to_of_N in Hb.
  - apply Byte.of_N_None_iff in Hb. lia.
Qed.

(** Little-endian words: [le_combine] is what the readers compute and
    [le_split] its inverse on [n] bytes. *)
Fixpoint le_combine (l : list byte) : N :=
  match l with
  | [] => 0%N
  | b :: l => N.lor (Byte.to_N b) (N.shiftl (le_combine l) 8)
  end.

Fixpoint le_split (n : nat) (w : N) : list byte :=
  match n with
  | O => []
  | S n => byte_of w :: le_split n (w / 256)
  end.

Lemma lor_shift_add (a b : N) : (a < 256)%N → N.lor a (N.shiftl b 8) = (a + 256 * b)%N.
Proof.
  intros Ha. rewrite <-N.lxor_lor.
  - rewrite <-N.add_nocarry_lxor; [rewrite N.shiftl_mul_pow2; lia|].
    apply N.bits_inj_0. intros i. rewrite N.land_spec.
    destruct (decide (i < 8)%N).
    + rewrite N.shiftl_spec_low by done. apply andb_false_r.
    + rewrite (N.testbit_eqb a). rewrite N.div_small; [done|].
      eapply N.lt_le_trans; [apply Ha|]. change 256%N with (2^8)%N.
      apply N.pow_le_mono_r; lia.
  - apply N.bits_inj_0. intros i. rewrite N.land_spec.
    destruct (decide (i < 8)%N).
    + rewrite N.shiftl_spec_low by done. apply andb_false_r.
    + rewrite (N.testbit_eqb a). rewrite N.div_small; [done|].
      eapply N.lt_le_trans; [apply Ha|]. change 256%N with (2^8)%N.
      apply N.pow_le_mono_r; lia.
Qed.

Lemma le_combine_cons b l : le_combine (b :: l) = (Byte.to_N b + 256 * le_combine l)%N.
Proof. simpl. apply lor_shift_add, to_N_lt. Qed.

Lemma length_le_split n w : length (le_split n w) = n.
Proof. revert w; induction n; intros; simpl; auto. Qed.

Lemma le_combine_split n w : (w < 256 ^ N.of_nat n)%N → le_combine (le_split n w) = w.
Proof.
  revert w. induction n as [|n IH]; intros w Hw.
  - simpl in *. lia.
  - cbn [le_split]. rewrite le_combine_cons, to_byte_of, IH.
    + pose proof (N.div_mod w 256). lia.
    + apply N.Div0.div_lt_upper_bound.
      by rewrite <-N.pow_succ_r', <-Nat2N.inj_succ.
Qed.

Lemma le_split_combine l : le_split (length l) (le_combine l) = l.
Proof.
  induction l as [|b l IH]; [done|].
  cbn [length le_split]. rewrite le_combine_cons.
  pose proof (to_N_lt b) as Hb.
  assert ((Byte.to_N b + 256 * le_combine l) / 256 = le_combine l)%N as ->.
  { rewrite (N.mul_comm 256), N.div_add, N.div_small by lia. lia. }
  rewrite IH. f_equal. transitivity (byte_of (Byte.to_N b)); [|apply byte_of_to].
  unfold byte_of. by rewrite (N.mul_comm 256), N.Div0.mod_add.
Qed.

Lemma le_combine_lt l : (le_combine l < 256 ^ length_N l)%N.
Proof.
  unfold length_N. induction l as [|b l IH]; [done|].
  rewrite le_combine_cons. simpl length. rewrite Nat2N.inj_succ, N.pow_succ_r'.
  pose proof (to_N_lt b). nia.
Qed.
