(* ===== verification/Domains.v ===== *)
(** * Wire domains of the Neri IR

    The enumerations of [native/include/neri/ir_domains.h], the semantic
    features of [ir_features.h], the effect bits of [abi_catalog.h], the protocol
    constants of [ir_protocol.h] and [ir_transport.h], and the scalar metadata of
    [scalar_metadata.h] with the predicates of [codegen/numeric_types.h]. *)

From S2P Require Import Prelude.

Local Open Scope N_scope.

(** A C enumeration with explicit values, as it travels on the wire. *)
Class WireTag (T : Type) := {
  tag_to_N : T → N;
  tag_all : list T;
  tag_find_to_N : ∀ t, find (λ u, tag_to_N u =? tag_to_N t) tag_all = Some t;
}.

(** [static_cast<T>(n)] restricted to the declared enumerators. *)
Definition tag_of_N {T} `{!WireTag T} (n : N) : option T := find (λ u, tag_to_N u =? n) tag_all.

Section wire_tag.
Context {T : Type} `{!WireTag T}.

Lemma tag_of_to_N (t : T) : tag_of_N (tag_to_N t) = Some t.
Proof. apply tag_find_to_N. Qed.

Lemma tag_to_of_N (n : N) (t : T) : tag_of_N n = Some t → tag_to_N t = n.
Proof. intros H. apply find_some in H as [_ H]. by apply N.eqb_eq. Qed.

#[export] Instance tag_to_N_inj : Inj (=) (=) (tag_to_N (T:=T)).
Proof. intros t u H. apply (inj Some). by rewrite <-!tag_of_to_N, H. Qed.

#[export] Instance tag_eq_dec : EqDecision T.
Proof.
  refine (λ t u, cast_if (decide (tag_to_N t = tag_to_N u))); [by apply (inj tag_to_N)|congruence].
Defined.

(** [tag == other] on enumerators. *)
Definition tag_eqb (t u : T) : bool := tag_to_N t =? tag_to_N u.

Lemma tag_eqb_eq (t u : T) : tag_eqb t u = true ↔ t = u.
Proof.
  unfold tag_eqb. rewrite N.eqb_eq. split; [apply (inj tag_to_N)|congruence].
Qed.

Lemma tag_eqb_refl (t : T) : tag_eqb t t = true.
Proof. by apply tag_eqb_eq. Qed.

Lemma tag_eqb_neq (t u : T) : tag_eqb t u = false ↔ t ≠ u.
Proof. rewrite <-tag_eqb_eq. by destruct (tag_eqb t u). Qed.
End wire_tag.

Inductive neri_ir_symbol_kind_v1 :=
| NERI_IR_SYMBOL_CLASS_V1
| NERI_IR_SYMBOL_FIELD_V1
| NERI_IR_SYMBOL_METHOD_V1
| NERI_IR_SYMBOL_FUNCTION_V1
| NERI_IR_SYMBOL_PARAMETER_V1
| NERI_IR_SYMBOL_LOCAL_V1
| NERI_IR_SYMBOL_LIBRARY_FUNCTION_V1
| NERI_IR_SYMBOL_INTRINSIC_V1
| NERI_IR_SYMBOL_GLOBAL_V1
| NERI_IR_SYMBOL_NATIVE_RECORD_V1.

#[export] Program Instance neri_ir_symbol_kind_v1_tag : WireTag neri_ir_symbol_kind_v1 := {|
  tag_to_N t := match t with
    | NERI_IR_SYMBOL_CLASS_V1 => 1
    | NERI_IR_SYMBOL_FIELD_V1 => 2
    | NERI_IR_SYMBOL_METHOD_V1 => 3
    | NERI_IR_SYMBOL_FUNCTION_V1 => 4
    | NERI_IR_SYMBOL_PARAMETER_V1 => 5
    | NERI_IR_SYMBOL_LOCAL_V1 => 6
    | NERI_IR_SYMBOL_LIBRARY_FUNCTION_V1 => 7
    | NERI_IR_SYMBOL_INTRINSIC_V1 => 8
    | NERI_IR_SYMBOL_GLOBAL_V1 => 9
    | NERI_IR_SYMBOL_NATIVE_RECORD_V1 => 10
    end;
  tag_all := [NERI_IR_SYMBOL_CLASS_V1; NERI_IR_SYMBOL_FIELD_V1; NERI_IR_SYMBOL_METHOD_V1; NERI_IR_SYMBOL_FUNCTION_V1; NERI_IR_SYMBOL_PARAMETER_V1; NERI_IR_SYMBOL_LOCAL_V1; NERI_IR_SYMBOL_LIBRARY_FUNCTION_V1; NERI_IR_SYMBOL_INTRINSIC_V1; NERI_IR_SYMBOL_GLOBAL_V1; NERI_IR_SYMBOL_NATIVE_RECORD_V1];
|}.
Next Obligation. by intros []. Qed.

Inductive neri_ir_access_v1 :=
| NERI_IR_ACCESS_PUBLIC_V1
| NERI_IR_ACCESS_PRIVATE_V1
| NERI_IR_ACCESS_PROTECTED_V1
| NERI_IR_ACCESS_INTERNAL_V1.

#[export] Program Instance neri_ir_access_v1_tag : WireTag neri_ir_access_v1 := {|
  tag_to_N t := match t with
    | NERI_IR_ACCESS_PUBLIC_V1 => 1
    | NERI_IR_ACCESS_PRIVATE_V1 => 2
    | NERI_IR_ACCESS_PROTECTED_V1 => 3
    | NERI_IR_ACCESS_INTERNAL_V1 => 4
    end;
  tag_all := [NERI_IR_ACCESS_PUBLIC_V1; NERI_IR_ACCESS_PRIVATE_V1; NERI_IR_ACCESS_PROTECTED_V1; NERI_IR_ACCESS_INTERNAL_V1];
|}.
Next Obligation. by intros []. Qed.

Inductive neri_ir_global_linkage_v1 :=
| NERI_IR_GLOBAL_INTERNAL_V1
| NERI_IR_GLOBAL_EXPORTED_V1.

#[export] Program Instance neri_ir_global_linkage_v1_tag : WireTag neri_ir_global_linkage_v1 := {|
  tag_to_N t := match t with
    | NERI_IR_GLOBAL_INTERNAL_V1 => 1
    | NERI_IR_GLOBAL_EXPORTED_V1 => 2
    end;
  tag_all := [NERI_IR_GLOBAL_INTERNAL_V1; NERI_IR_GLOBAL_EXPORTED_V1];
|}.
Next Obligation. by intros []. Qed.

Inductive neri_ir_import_kind_v1 :=
| NERI_IR_IMPORT_RUNTIME_V1
| NERI_IR_IMPORT_C_ABI_V1.

#[export] Program Instance neri_ir_import_kind_v1_tag : WireTag neri_ir_import_kind_v1 := {|
  tag_to_N t := match t with
    | NERI_IR_IMPORT_RUNTIME_V1 => 1
    | NERI_IR_IMPORT_C_ABI_V1 => 2
    end;
  tag_all := [NERI_IR_IMPORT_RUNTIME_V1; NERI_IR_IMPORT_C_ABI_V1];
|}.
Next Obligation. by intros []. Qed.

Inductive neri_ir_function_kind_v1 :=
| NERI_IR_FUNCTION_V1
| NERI_IR_STATIC_METHOD_V1
| NERI_IR_INSTANCE_METHOD_V1
| NERI_IR_CONSTRUCTOR_V1
| NERI_IR_DEFAULT_ADAPTER_V1.

#[export] Program Instance neri_ir_function_kind_v1_tag : WireTag neri_ir_function_kind_v1 := {|
  tag_to_N t := match t with
    | NERI_IR_FUNCTION_V1 => 1
    | NERI_IR_STATIC_METHOD_V1 => 2
    | NERI_IR_INSTANCE_METHOD_V1 => 3
    | NERI_IR_CONSTRUCTOR_V1 => 4
    | NERI_IR_DEFAULT_ADAPTER_V1 => 5
    end;
  tag_all := [NERI_IR_FUNCTION_V1; NERI_IR_STATIC_METHOD_V1; NERI_IR_INSTANCE_METHOD_V1; NERI_IR_CONSTRUCTOR_V1; NERI_IR_DEFAULT_ADAPTER_V1];
|}.
Next Obligation. by intros []. Qed.

Inductive neri_ir_dispatch_kind_v1 :=
| NERI_IR_DISPATCH_STATIC_V1
| NERI_IR_DISPATCH_DIRECT_V1
| NERI_IR_DISPATCH_VIRTUAL_V1.

#[export] Program Instance neri_ir_dispatch_kind_v1_tag : WireTag neri_ir_dispatch_kind_v1 := {|
  tag_to_N t := match t with
    | NERI_IR_DISPATCH_STATIC_V1 => 1
    | NERI_IR_DISPATCH_DIRECT_V1 => 2
    | NERI_IR_DISPATCH_VIRTUAL_V1 => 3
    end;
  tag_all := [NERI_IR_DISPATCH_STATIC_V1; NERI_IR_DISPATCH_DIRECT_V1; NERI_IR_DISPATCH_VIRTUAL_V1];
|}.
Next Obligation. by intros []. Qed.

Inductive neri_ir_comparison_v1 :=
| NERI_IR_COMPARISON_EQUAL_V1
| NERI_IR_COMPARISON_NOT_EQUAL_V1
| NERI_IR_COMPARISON_LESS_V1
| NERI_IR_COMPARISON_LESS_OR_EQUAL_V1
| NERI_IR_COMPARISON_GREATER_V1
| NERI_IR_COMPARISON_GREATER_OR_EQUAL_V1.

#[export] Program Instance neri_ir_comparison_v1_tag : WireTag neri_ir_comparison_v1 := {|
  tag_to_N t := match t with
    | NERI_IR_COMPARISON_EQUAL_V1 => 1
    | NERI_IR_COMPARISON_NOT_EQUAL_V1 => 2
    | NERI_IR_COMPARISON_LESS_V1 => 3
    | NERI_IR_COMPARISON_LESS_OR_EQUAL_V1 => 4
    | NERI_IR_COMPARISON_GREATER_V1 => 5
    | NERI_IR_COMPARISON_GREATER_OR_EQUAL_V1 => 6
    end;
  tag_all := [NERI_IR_COMPARISON_EQUAL_V1; NERI_IR_COMPARISON_NOT_EQUAL_V1; NERI_IR_COMPARISON_LESS_V1; NERI_IR_COMPARISON_LESS_OR_EQUAL_V1; NERI_IR_COMPARISON_GREATER_V1; NERI_IR_COMPARISON_GREATER_OR_EQUAL_V1];
|}.
Next Obligation. by intros []. Qed.

Inductive neri_ir_type_tag_v1 :=
| NERI_IR_TYPE_VOID_V1
| NERI_IR_TYPE_BOOL_V1
| NERI_IR_TYPE_BYTE_V1
| NERI_IR_TYPE_INT_V1
| NERI_IR_TYPE_FLOAT_V1
| NERI_IR_TYPE_STRING_V1
| NERI_IR_TYPE_INT32_V1
| NERI_IR_TYPE_UINT32_V1
| NERI_IR_TYPE_UINT64_V1
| NERI_IR_TYPE_FLOAT32_V1
| NERI_IR_TYPE_ARRAY_V1
| NERI_IR_TYPE_CLASS_V1
| NERI_IR_TYPE_OPTIONAL_V1
| NERI_IR_TYPE_POINTER_V1
| NERI_IR_TYPE_NATIVE_RECORD_V1
| NERI_IR_TYPE_FIXED_ARRAY_V1
| NERI_IR_TYPE_C_FUNCTION_V1
| NERI_IR_TYPE_UNSAFE_CAPABILITY_V1
| NERI_IR_TYPE_BORROW_CAPABILITY_V1.

#[export] Program Instance neri_ir_type_tag_v1_tag : WireTag neri_ir_type_tag_v1 := {|
  tag_to_N t := match t with
    | NERI_IR_TYPE_VOID_V1 => 1
    | NERI_IR_TYPE_BOOL_V1 => 2
    | NERI_IR_TYPE_BYTE_V1 => 3
    | NERI_IR_TYPE_INT_V1 => 4
    | NERI_IR_TYPE_FLOAT_V1 => 5
    | NERI_IR_TYPE_STRING_V1 => 6
    | NERI_IR_TYPE_INT32_V1 => 7
    | NERI_IR_TYPE_UINT32_V1 => 8
    | NERI_IR_TYPE_UINT64_V1 => 9
    | NERI_IR_TYPE_FLOAT32_V1 => 10
    | NERI_IR_TYPE_ARRAY_V1 => 16
    | NERI_IR_TYPE_CLASS_V1 => 17
    | NERI_IR_TYPE_OPTIONAL_V1 => 18
    | NERI_IR_TYPE_POINTER_V1 => 19
    | NERI_IR_TYPE_NATIVE_RECORD_V1 => 20
    | NERI_IR_TYPE_FIXED_ARRAY_V1 => 21
    | NERI_IR_TYPE_C_FUNCTION_V1 => 22
    | NERI_IR_TYPE_UNSAFE_CAPABILITY_V1 => 32
    | NERI_IR_TYPE_BORROW_CAPABILITY_V1 => 33
    end;
  tag_all := [NERI_IR_TYPE_VOID_V1; NERI_IR_TYPE_BOOL_V1; NERI_IR_TYPE_BYTE_V1; NERI_IR_TYPE_INT_V1; NERI_IR_TYPE_FLOAT_V1; NERI_IR_TYPE_STRING_V1; NERI_IR_TYPE_INT32_V1; NERI_IR_TYPE_UINT32_V1; NERI_IR_TYPE_UINT64_V1; NERI_IR_TYPE_FLOAT32_V1; NERI_IR_TYPE_ARRAY_V1; NERI_IR_TYPE_CLASS_V1; NERI_IR_TYPE_OPTIONAL_V1; NERI_IR_TYPE_POINTER_V1; NERI_IR_TYPE_NATIVE_RECORD_V1; NERI_IR_TYPE_FIXED_ARRAY_V1; NERI_IR_TYPE_C_FUNCTION_V1; NERI_IR_TYPE_UNSAFE_CAPABILITY_V1; NERI_IR_TYPE_BORROW_CAPABILITY_V1];
|}.
Next Obligation. by intros []. Qed.

Inductive neri_ir_constant_tag_v1 :=
| NERI_IR_CONSTANT_BOOL_V1
| NERI_IR_CONSTANT_BYTE_V1
| NERI_IR_CONSTANT_INT_V1
| NERI_IR_CONSTANT_FLOAT_V1
| NERI_IR_CONSTANT_OPTIONAL_NONE_V1
| NERI_IR_CONSTANT_OPTIONAL_SOME_V1
| NERI_IR_CONSTANT_STRING_GLOBAL_V1
| NERI_IR_CONSTANT_STRING_UTF8_V1.

#[export] Program Instance neri_ir_constant_tag_v1_tag : WireTag neri_ir_constant_tag_v1 := {|
  tag_to_N t := match t with
    | NERI_IR_CONSTANT_BOOL_V1 => 1
    | NERI_IR_CONSTANT_BYTE_V1 => 2
    | NERI_IR_CONSTANT_INT_V1 => 3
    | NERI_IR_CONSTANT_FLOAT_V1 => 4
    | NERI_IR_CONSTANT_OPTIONAL_NONE_V1 => 5
    | NERI_IR_CONSTANT_OPTIONAL_SOME_V1 => 6
    | NERI_IR_CONSTANT_STRING_GLOBAL_V1 => 7
    | NERI_IR_CONSTANT_STRING_UTF8_V1 => 8
    end;
  tag_all := [NERI_IR_CONSTANT_BOOL_V1; NERI_IR_CONSTANT_BYTE_V1; NERI_IR_CONSTANT_INT_V1; NERI_IR_CONSTANT_FLOAT_V1; NERI_IR_CONSTANT_OPTIONAL_NONE_V1; NERI_IR_CONSTANT_OPTIONAL_SOME_V1; NERI_IR_CONSTANT_STRING_GLOBAL_V1; NERI_IR_CONSTANT_STRING_UTF8_V1];
|}.
Next Obligation. by intros []. Qed.

Inductive neri_ir_terminator_tag_v1 :=
| NERI_IR_TERMINATOR_BRANCH_V1
| NERI_IR_TERMINATOR_CONDITIONAL_BRANCH_V1
| NERI_IR_TERMINATOR_RETURN_V1
| NERI_IR_TERMINATOR_PANIC_V1.

#[export] Program Instance neri_ir_terminator_tag_v1_tag : WireTag neri_ir_terminator_tag_v1 := {|
  tag_to_N t := match t with
    | NERI_IR_TERMINATOR_BRANCH_V1 => 1
    | NERI_IR_TERMINATOR_CONDITIONAL_BRANCH_V1 => 2
    | NERI_IR_TERMINATOR_RETURN_V1 => 3
    | NERI_IR_TERMINATOR_PANIC_V1 => 4
    end;
  tag_all := [NERI_IR_TERMINATOR_BRANCH_V1; NERI_IR_TERMINATOR_CONDITIONAL_BRANCH_V1; NERI_IR_TERMINATOR_RETURN_V1; NERI_IR_TERMINATOR_PANIC_V1];
|}.
Next Obligation. by intros []. Qed.

Inductive neri_ir_opcode_v1 :=
| NERI_IR_OPCODE_CONSTANT_V1
| NERI_IR_OPCODE_INT_NEG_CHECKED_V1
| NERI_IR_OPCODE_INT_ADD_CHECKED_V1
| NERI_IR_OPCODE_INT_SUB_CHECKED_V1
| NERI_IR_OPCODE_INT_MUL_CHECKED_V1
| NERI_IR_OPCODE_INT_DIV_CHECKED_V1
| NERI_IR_OPCODE_FLOAT_NEG_V1
| NERI_IR_OPCODE_FLOAT_ADD_V1
| NERI_IR_OPCODE_FLOAT_SUB_V1
| NERI_IR_OPCODE_FLOAT_MUL_V1
| NERI_IR_OPCODE_FLOAT_DIV_V1
| NERI_IR_OPCODE_BOOL_NOT_V1
| NERI_IR_OPCODE_BOOL_AND_V1
| NERI_IR_OPCODE_BOOL_OR_V1
| NERI_IR_OPCODE_COMPARE_V1
| NERI_IR_OPCODE_CAST_INT_TO_FLOAT_V1
| NERI_IR_OPCODE_CAST_FLOAT_TO_INT_CHECKED_V1
| NERI_IR_OPCODE_CAST_INT_TO_BYTE_CHECKED_V1
| NERI_IR_OPCODE_CAST_BYTE_TO_INT_V1
| NERI_IR_OPCODE_CLASS_UPCAST_V1
| NERI_IR_OPCODE_OPTIONAL_NONE_V1
| NERI_IR_OPCODE_OPTIONAL_SOME_V1
| NERI_IR_OPCODE_OPTIONAL_IS_SOME_V1
| NERI_IR_OPCODE_OPTIONAL_GET_CHECKED_V1
| NERI_IR_OPCODE_STRING_CONCAT_V1
| NERI_IR_OPCODE_STRING_EQUAL_V1
| NERI_IR_OPCODE_STRING_NOT_EQUAL_V1
| NERI_IR_OPCODE_CALL_V1
| NERI_IR_OPCODE_CALL_DIRECT_V1
| NERI_IR_OPCODE_CALL_VIRTUAL_V1
| NERI_IR_OPCODE_CALL_IMPORT_V1
| NERI_IR_OPCODE_CALL_UNSAFE_V1
| NERI_IR_OPCODE_CALL_C_ABI_V1
| NERI_IR_OPCODE_ARRAY_NEW_V1
| NERI_IR_OPCODE_ARRAY_LENGTH_V1
| NERI_IR_OPCODE_ARRAY_LOAD_CHECKED_V1
| NERI_IR_OPCODE_ARRAY_STORE_CHECKED_V1
| NERI_IR_OPCODE_OBJECT_ALLOC_V1
| NERI_IR_OPCODE_FIELD_LOAD_V1
| NERI_IR_OPCODE_FIELD_STORE_V1
| NERI_IR_OPCODE_UNSAFE_BEGIN_V1
| NERI_IR_OPCODE_UNSAFE_END_V1
| NERI_IR_OPCODE_STACK_ALLOC_V1
| NERI_IR_OPCODE_POINTER_LOAD_V1
| NERI_IR_OPCODE_POINTER_STORE_V1
| NERI_IR_OPCODE_POINTER_OFFSET_V1
| NERI_IR_OPCODE_POINTER_DIFFERENCE_V1
| NERI_IR_OPCODE_POINTER_COMPARE_V1
| NERI_IR_OPCODE_POINTER_CAST_V1
| NERI_IR_OPCODE_NATIVE_ALLOC_V1
| NERI_IR_OPCODE_NATIVE_REALLOC_V1
| NERI_IR_OPCODE_NATIVE_FREE_V1
| NERI_IR_OPCODE_BORROW_BEGIN_V1
| NERI_IR_OPCODE_BORROW_END_V1
| NERI_IR_OPCODE_STRING_FROM_INT_V1
| NERI_IR_OPCODE_STRING_FROM_BYTE_V1
| NERI_IR_OPCODE_STRING_FROM_FLOAT_V1
| NERI_IR_OPCODE_NUMERIC_CAST_CHECKED_V1
| NERI_IR_OPCODE_NATIVE_FIELD_ADDRESS_V1
| NERI_IR_OPCODE_NATIVE_INDEX_ADDRESS_CHECKED_V1
| NERI_IR_OPCODE_TASK_GENERATE_V1
| NERI_IR_OPCODE_C_FUNCTION_ADDRESS_V1
| NERI_IR_OPCODE_CALL_C_INDIRECT_V1
| NERI_IR_OPCODE_ARRAY_GENERATE_V1
| NERI_IR_OPCODE_WORKER_ENTRY_V1
| NERI_IR_OPCODE_CLASS_CHECKED_CAST_V1.

#[export] Program Instance neri_ir_opcode_v1_tag : WireTag neri_ir_opcode_v1 := {|
  tag_to_N t := match t with
    | NERI_IR_OPCODE_CONSTANT_V1 => 1
    | NERI_IR_OPCODE_INT_NEG_CHECKED_V1 => 2
    | NERI_IR_OPCODE_INT_ADD_CHECKED_V1 => 3
    | NERI_IR_OPCODE_INT_SUB_CHECKED_V1 => 4
    | NERI_IR_OPCODE_INT_MUL_CHECKED_V1 => 5
    | NERI_IR_OPCODE_INT_DIV_CHECKED_V1 => 6
    | NERI_IR_OPCODE_FLOAT_NEG_V1 => 7
    | NERI_IR_OPCODE_FLOAT_ADD_V1 => 8
    | NERI_IR_OPCODE_FLOAT_SUB_V1 => 9
    | NERI_IR_OPCODE_FLOAT_MUL_V1 => 10
    | NERI_IR_OPCODE_FLOAT_DIV_V1 => 11
    | NERI_IR_OPCODE_BOOL_NOT_V1 => 12
    | NERI_IR_OPCODE_BOOL_AND_V1 => 13
    | NERI_IR_OPCODE_BOOL_OR_V1 => 14
    | NERI_IR_OPCODE_COMPARE_V1 => 15
    | NERI_IR_OPCODE_CAST_INT_TO_FLOAT_V1 => 16
    | NERI_IR_OPCODE_CAST_FLOAT_TO_INT_CHECKED_V1 => 17
    | NERI_IR_OPCODE_CAST_INT_TO_BYTE_CHECKED_V1 => 18
    | NERI_IR_OPCODE_CAST_BYTE_TO_INT_V1 => 19
    | NERI_IR_OPCODE_CLASS_UPCAST_V1 => 20
    | NERI_IR_OPCODE_OPTIONAL_NONE_V1 => 21
    | NERI_IR_OPCODE_OPTIONAL_SOME_V1 => 22
    | NERI_IR_OPCODE_OPTIONAL_IS_SOME_V1 => 23
    | NERI_IR_OPCODE_OPTIONAL_GET_CHECKED_V1 => 24
    | NERI_IR_OPCODE_STRING_CONCAT_V1 => 25
    | NERI_IR_OPCODE_STRING_EQUAL_V1 => 26
    | NERI_IR_OPCODE_STRING_NOT_EQUAL_V1 => 27
    | NERI_IR_OPCODE_CALL_V1 => 28
    | NERI_IR_OPCODE_CALL_DIRECT_V1 => 29
    | NERI_IR_OPCODE_CALL_VIRTUAL_V1 => 30
    | NERI_IR_OPCODE_CALL_IMPORT_V1 => 31
    | NERI_IR_OPCODE_CALL_UNSAFE_V1 => 32
    | NERI_IR_OPCODE_CALL_C_ABI_V1 => 33
    | NERI_IR_OPCODE_ARRAY_NEW_V1 => 34
    | NERI_IR_OPCODE_ARRAY_LENGTH_V1 => 35
    | NERI_IR_OPCODE_ARRAY_LOAD_CHECKED_V1 => 36
    | NERI_IR_OPCODE_ARRAY_STORE_CHECKED_V1 => 37
    | NERI_IR_OPCODE_OBJECT_ALLOC_V1 => 38
    | NERI_IR_OPCODE_FIELD_LOAD_V1 => 39
    | NERI_IR_OPCODE_FIELD_STORE_V1 => 40
    | NERI_IR_OPCODE_UNSAFE_BEGIN_V1 => 41
    | NERI_IR_OPCODE_UNSAFE_END_V1 => 42
    | NERI_IR_OPCODE_STACK_ALLOC_V1 => 43
    | NERI_IR_OPCODE_POINTER_LOAD_V1 => 44
    | NERI_IR_OPCODE_POINTER_STORE_V1 => 45
    | NERI_IR_OPCODE_POINTER_OFFSET_V1 => 46
    | NERI_IR_OPCODE_POINTER_DIFFERENCE_V1 => 47
    | NERI_IR_OPCODE_POINTER_COMPARE_V1 => 48
    | NERI_IR_OPCODE_POINTER_CAST_V1 => 49
    | NERI_IR_OPCODE_NATIVE_ALLOC_V1 => 50
    | NERI_IR_OPCODE_NATIVE_REALLOC_V1 => 51
    | NERI_IR_OPCODE_NATIVE_FREE_V1 => 52
    | NERI_IR_OPCODE_BORROW_BEGIN_V1 => 53
    | NERI_IR_OPCODE_BORROW_END_V1 => 54
    | NERI_IR_OPCODE_STRING_FROM_INT_V1 => 55
    | NERI_IR_OPCODE_STRING_FROM_BYTE_V1 => 56
    | NERI_IR_OPCODE_STRING_FROM_FLOAT_V1 => 57
    | NERI_IR_OPCODE_NUMERIC_CAST_CHECKED_V1 => 58
    | NERI_IR_OPCODE_NATIVE_FIELD_ADDRESS_V1 => 59
    | NERI_IR_OPCODE_NATIVE_INDEX_ADDRESS_CHECKED_V1 => 60
    | NERI_IR_OPCODE_TASK_GENERATE_V1 => 61
    | NERI_IR_OPCODE_C_FUNCTION_ADDRESS_V1 => 62
    | NERI_IR_OPCODE_CALL_C_INDIRECT_V1 => 63
    | NERI_IR_OPCODE_ARRAY_GENERATE_V1 => 64
    | NERI_IR_OPCODE_WORKER_ENTRY_V1 => 65
    | NERI_IR_OPCODE_CLASS_CHECKED_CAST_V1 => 66
    end;
  tag_all := [NERI_IR_OPCODE_CONSTANT_V1; NERI_IR_OPCODE_INT_NEG_CHECKED_V1; NERI_IR_OPCODE_INT_ADD_CHECKED_V1; NERI_IR_OPCODE_INT_SUB_CHECKED_V1; NERI_IR_OPCODE_INT_MUL_CHECKED_V1; NERI_IR_OPCODE_INT_DIV_CHECKED_V1; NERI_IR_OPCODE_FLOAT_NEG_V1; NERI_IR_OPCODE_FLOAT_ADD_V1; NERI_IR_OPCODE_FLOAT_SUB_V1; NERI_IR_OPCODE_FLOAT_MUL_V1; NERI_IR_OPCODE_FLOAT_DIV_V1; NERI_IR_OPCODE_BOOL_NOT_V1; NERI_IR_OPCODE_BOOL_AND_V1; NERI_IR_OPCODE_BOOL_OR_V1; NERI_IR_OPCODE_COMPARE_V1; NERI_IR_OPCODE_CAST_INT_TO_FLOAT_V1; NERI_IR_OPCODE_CAST_FLOAT_TO_INT_CHECKED_V1; NERI_IR_OPCODE_CAST_INT_TO_BYTE_CHECKED_V1; NERI_IR_OPCODE_CAST_BYTE_TO_INT_V1; NERI_IR_OPCODE_CLASS_UPCAST_V1; NERI_IR_OPCODE_OPTIONAL_NONE_V1; NERI_IR_OPCODE_OPTIONAL_SOME_V1; NERI_IR_OPCODE_OPTIONAL_IS_SOME_V1; NERI_IR_OPCODE_OPTIONAL_GET_CHECKED_V1; NERI_IR_OPCODE_STRING_CONCAT_V1; NERI_IR_OPCODE_STRING_EQUAL_V1; NERI_IR_OPCODE_STRING_NOT_EQUAL_V1; NERI_IR_OPCODE_CALL_V1; NERI_IR_OPCODE_CALL_DIRECT_V1; NERI_IR_OPCODE_CALL_VIRTUAL_V1; NERI_IR_OPCODE_CALL_IMPORT_V1; NERI_IR_OPCODE_CALL_UNSAFE_V1; NERI_IR_OPCODE_CALL_C_ABI_V1; NERI_IR_OPCODE_ARRAY_NEW_V1; NERI_IR_OPCODE_ARRAY_LENGTH_V1; NERI_IR_OPCODE_ARRAY_LOAD_CHECKED_V1; NERI_IR_OPCODE_ARRAY_STORE_CHECKED_V1; NERI_IR_OPCODE_OBJECT_ALLOC_V1; NERI_IR_OPCODE_FIELD_LOAD_V1; NERI_IR_OPCODE_FIELD_STORE_V1; NERI_IR_OPCODE_UNSAFE_BEGIN_V1; NERI_IR_OPCODE_UNSAFE_END_V1; NERI_IR_OPCODE_STACK_ALLOC_V1; NERI_IR_OPCODE_POINTER_LOAD_V1; NERI_IR_OPCODE_POINTER_STORE_V1; NERI_IR_OPCODE_POINTER_OFFSET_V1; NERI_IR_OPCODE_POINTER_DIFFERENCE_V1; NERI_IR_OPCODE_POINTER_COMPARE_V1; NERI_IR_OPCODE_POINTER_CAST_V1; NERI_IR_OPCODE_NATIVE_ALLOC_V1; NERI_IR_OPCODE_NATIVE_REALLOC_V1; NERI_IR_OPCODE_NATIVE_FREE_V1; NERI_IR_OPCODE_BORROW_BEGIN_V1; NERI_IR_OPCODE_BORROW_END_V1; NERI_IR_OPCODE_STRING_FROM_INT_V1; NERI_IR_OPCODE_STRING_FROM_BYTE_V1; NERI_IR_OPCODE_STRING_FROM_FLOAT_V1; NERI_IR_OPCODE_NUMERIC_CAST_CHECKED_V1; NERI_IR_OPCODE_NATIVE_FIELD_ADDRESS_V1; NERI_IR_OPCODE_NATIVE_INDEX_ADDRESS_CHECKED_V1; NERI_IR_OPCODE_TASK_GENERATE_V1; NERI_IR_OPCODE_C_FUNCTION_ADDRESS_V1; NERI_IR_OPCODE_CALL_C_INDIRECT_V1; NERI_IR_OPCODE_ARRAY_GENERATE_V1; NERI_IR_OPCODE_WORKER_ENTRY_V1; NERI_IR_OPCODE_CLASS_CHECKED_CAST_V1];
|}.
Next Obligation. by intros []. Qed.

(** ** Semantic features ([ir_features.h]) *)

Inductive ir_feature :=
| AutomaticRegions
| CInterop
| DebugScopes
| ExtendedScalars
| IsolatedWorkers
| NativeLibraries
| NativeRecords
| NativeStrings
| RetainedModules
| ScopedTasks
| SequentialArrays
| SessionModule
| StringData.

#[export] Instance ir_feature_eq_dec : EqDecision ir_feature.
Proof. solve_decision. Defined.

Record ir_feature_contract := {
  fc_feature : ir_feature;
  fc_name : string;
  fc_transport_minor : N;
  fc_runtime_minor : N;
  fc_runtime_features : N;
  fc_transport_diagnostic : string;
}.

Definition ir_feature_contracts : list ir_feature_contract := [
  {| fc_feature := AutomaticRegions; fc_name := "automatic-regions-v1"; fc_transport_minor := 1;
     fc_runtime_minor := 36; fc_runtime_features := 0;
     fc_transport_diagnostic := "Automatic regions require IR transport 1.1." |};
  {| fc_feature := CInterop; fc_name := "c-interop-v1"; fc_transport_minor := 8;
     fc_runtime_minor := 27; fc_runtime_features := 0;
     fc_transport_diagnostic := "C interoperability requires IR transport 1.8." |};
  {| fc_feature := DebugScopes; fc_name := "debug-scopes-v1"; fc_transport_minor := 6;
     fc_runtime_minor := 1; fc_runtime_features := 0;
     fc_transport_diagnostic := "Debug scopes require IR transport 1.6." |};
  {| fc_feature := ExtendedScalars; fc_name := "extended-scalars-v1"; fc_transport_minor := 2;
     fc_runtime_minor := 9; fc_runtime_features := 512;
     fc_transport_diagnostic := "Extended scalars require transport 1.2." |};
  {| fc_feature := IsolatedWorkers; fc_name := "isolated-workers-v1"; fc_transport_minor := 9;
     fc_runtime_minor := 32; fc_runtime_features := 1073741824;
     fc_transport_diagnostic := "Isolated workers require IR transport 1.9." |};
  {| fc_feature := NativeLibraries; fc_name := "native-libraries-v1"; fc_transport_minor := 2;
     fc_runtime_minor := 1; fc_runtime_features := 0;
     fc_transport_diagnostic := "Native libraries require IR transport 1.2." |};
  {| fc_feature := NativeRecords; fc_name := "native-records-v1"; fc_transport_minor := 3;
     fc_runtime_minor := 1; fc_runtime_features := 0;
     fc_transport_diagnostic := "Native records require transport 1.3." |};
  {| fc_feature := NativeStrings; fc_name := "native-strings-v1"; fc_transport_minor := 1;
     fc_runtime_minor := 2; fc_runtime_features := 64;
     fc_transport_diagnostic := "Native strings require IR transport 1.1." |};
  {| fc_feature := RetainedModules; fc_name := "retained-modules-v1"; fc_transport_minor := 7;
     fc_runtime_minor := 1; fc_runtime_features := 0;
     fc_transport_diagnostic := "Retained modules require IR transport 1.7." |};
  {| fc_feature := ScopedTasks; fc_name := "scoped-tasks-v1"; fc_transport_minor := 4;
     fc_runtime_minor := 10; fc_runtime_features := 16384;
     fc_transport_diagnostic := "Scoped tasks require IR transport 1.4." |};
  {| fc_feature := SequentialArrays; fc_name := "sequential-arrays-v1"; fc_transport_minor := 8;
     fc_runtime_minor := 35; fc_runtime_features := 536870912;
     fc_transport_diagnostic := "Sequential array generation requires IR transport 1.8." |};
  {| fc_feature := SessionModule; fc_name := "session-module-v1"; fc_transport_minor := 5;
     fc_runtime_minor := 19; fc_runtime_features := 8388608;
     fc_transport_diagnostic := "Session modules require transport 1.5." |};
  {| fc_feature := StringData; fc_name := "string-data-v1"; fc_transport_minor := 1;
     fc_runtime_minor := 1; fc_runtime_features := 0;
     fc_transport_diagnostic := "String data require IR transport 1.1." |}
].

Definition ir_feature_metadata (feature : ir_feature) : ir_feature_contract :=
  let contract i := nth i ir_feature_contracts (Build_ir_feature_contract feature "" 0 0 0 "") in
  match feature with
  | AutomaticRegions => contract 0%nat
  | CInterop => contract 1%nat
  | DebugScopes => contract 2%nat
  | ExtendedScalars => contract 3%nat
  | IsolatedWorkers => contract 4%nat
  | NativeLibraries => contract 5%nat
  | NativeRecords => contract 6%nat
  | NativeStrings => contract 7%nat
  | RetainedModules => contract 8%nat
  | ScopedTasks => contract 9%nat
  | SequentialArrays => contract 10%nat
  | SessionModule => contract 11%nat
  | StringData => contract 12%nat
  end.

Definition ir_feature_from_name (name : string) : option ir_feature :=
  fc_feature <$> find (λ contract, String.eqb (fc_name contract) name) ir_feature_contracts.

Definition ir_feature_name (feature : ir_feature) : string :=
  fc_name (ir_feature_metadata feature).

Definition ir_feature_eqb (f g : ir_feature) : bool := bool_decide (f = g).

(** [std::ranges::find(features, f) != features.end()]. *)
Definition has_feature (features : list ir_feature) (f : ir_feature) : bool :=
  existsb (ir_feature_eqb f) features.

Lemma ir_feature_from_name_name f : ir_feature_from_name (ir_feature_name f) = Some f.
Proof. by destruct f. Qed.

Lemma ir_feature_name_from_name name f :
  ir_feature_from_name name = Some f → ir_feature_name f = name.
Proof.
  unfold ir_feature_from_name. intros (c & Hc & ->)%fmap_Some_1.
  apply find_some in Hc as [Hin Hc]. apply String.eqb_eq in Hc as <-.
  unfold ir_feature_contracts in Hin. simpl in Hin.
  by repeat (destruct Hin as [<-|Hin]; [reflexivity|]).
Qed.

(** ** Effect bits ([abi_catalog.h], [neri_ir_effect_v1]) *)
Definition NERI_IR_EFFECT_READ_V1 : N := 1.
Definition NERI_IR_EFFECT_WRITE_V1 : N := 2.
Definition NERI_IR_EFFECT_MAY_PANIC_V1 : N := 4.
Definition NERI_IR_EFFECT_MANAGED_ALLOCATE_V1 : N := 8.
Definition NERI_IR_EFFECT_NATIVE_ALLOCATE_V1 : N := 16.
Definition NERI_IR_EFFECT_SAFEPOINT_V1 : N := 32.
Definition NERI_IR_EFFECT_UNSAFE_V1 : N := 64.
Definition NERI_IR_EFFECT_NO_RETURN_V1 : N := 128.

(** The runtime ABI this catalog describes ([abi_catalog.h]). *)
Definition NERI_RUNTIME_ABI_MAJOR : N := 1.
Definition NERI_RUNTIME_ABI_MINOR : N := 36.

(** ** Protocol constants ([ir_protocol.h], [ir_transport.h]) *)
Definition NERI_IR_SEMANTIC_MAJOR_V1 : N := 1.
Definition NERI_IR_SEMANTIC_MINOR_V1 : N := 0.
Definition NERI_IR_TRANSPORT_MAJOR_V1 : N := 1.
Definition NERI_IR_TRANSPORT_MINOR_V1 : N := 9.
Definition NERI_IR_HEADER_SIZE_V1 : N := 56.
Definition NERI_IR_VERSION_MAJOR_OFFSET_V1 : N := 8.
Definition NERI_IR_VERSION_MINOR_OFFSET_V1 : N := 10.
Definition NERI_IR_FLAGS_OFFSET_V1 : N := 12.
Definition NERI_IR_PAYLOAD_LENGTH_OFFSET_V1 : N := 16.
Definition NERI_IR_DIGEST_OFFSET_V1 : N := 24.
Definition NERI_IR_DIGEST_SIZE_V1 : N := 32.
Definition NERI_IR_MAGIC_V1 : list byte := [x4e; x45; x52; x49; x52; x0d; x0a; x1a].

(** ** Scalars ([scalar_metadata.h], [numeric_types.h]) *)
Record scalar_metadata := {
  integer_representation : bool;
  arithmetic_integer : bool;
  floating : bool;
  is_unsigned : bool;
  extended : bool;
  semantic_bits : N;
  c_bits : N;
  c_name : string;
  runtime_kind : N;
}.

Definition scalar_properties (tag : neri_ir_type_tag_v1) : scalar_metadata :=
  match tag with
  | NERI_IR_TYPE_BOOL_V1 =>
      Build_scalar_metadata false false false false false 1 8 "uint8_t" 1
  | NERI_IR_TYPE_BYTE_V1 =>
      Build_scalar_metadata true false false true false 8 8 "uint8_t" 2
  | NERI_IR_TYPE_INT_V1 =>
      Build_scalar_metadata true true false false false 64 64 "int64_t" 3
  | NERI_IR_TYPE_FLOAT_V1 =>
      Build_scalar_metadata false false true false false 64 64 "double" 4
  | NERI_IR_TYPE_INT32_V1 =>
      Build_scalar_metadata true true false false true 32 32 "int32_t" 5
  | NERI_IR_TYPE_UINT32_V1 =>
      Build_scalar_metadata true true false true true 32 32 "uint32_t" 6
  | NERI_IR_TYPE_UINT64_V1 =>
      Build_scalar_metadata true true false true true 64 64 "uint64_t" 7
  | NERI_IR_TYPE_FLOAT32_V1 =>
      Build_scalar_metadata false false true false true 32 32 "float" 8
  | _ => Build_scalar_metadata false false false false false 0 0 "" 0
  end.

Definition extended_scalar (tag : neri_ir_type_tag_v1) : bool := extended (scalar_properties tag).
Definition floating_scalar (tag : neri_ir_type_tag_v1) : bool := floating (scalar_properties tag).
Definition integer_scalar (tag : neri_ir_type_tag_v1) : bool :=
  integer_representation (scalar_properties tag).
Definition unsigned_scalar (tag : neri_ir_type_tag_v1) : bool := is_unsigned (scalar_properties tag).
Definition scalar_width (tag : neri_ir_type_tag_v1) : N :=
  let scalar := scalar_properties tag in
  if integer_representation scalar || floating scalar then semantic_bits scalar else 64.
