(* ===== verification/IR.v ===== *)
(** * The IR module data model ([native/include/neri/codegen/ir.h])

    One record per C++ [struct]; field names carry the struct as a prefix.
    [std::uint16_t], [std::uint32_t] and [std::uint64_t] members are [N],
    [std::string] is [string] (its bytes), [std::vector] is [list] and
    [std::optional] is [option]. *)

From S2P Require Import Prelude Domains.

Local Open Scope N_scope.

Record version := mk_version { v_major : N; v_minor : N }.

Record symbol_id := mk_symbol {
  sym_module : string;
  sym_kind : neri_ir_symbol_kind_v1;
  sym_semantic_name : string;
}.

#[export] Instance symbol_id_eq_dec : EqDecision symbol_id.
Proof. solve_decision. Defined.

Record source_location := mk_location {
  loc_source : string;
  loc_utf8_start : N;
  loc_utf8_length : N;
}.

Inductive type := mk_type {
  ty_tag : neri_ir_type_tag_v1;
  ty_symbol : option symbol_id;
  ty_arguments : list type;
  ty_element_count : N;
}.

Inductive constant := mk_constant {
  c_tag : neri_ir_constant_tag_v1;
  c_value_bits : N;
  c_types : list type;
  c_nested : list constant;
  c_symbol : option symbol_id;
  c_text : string;
}.

Record source := mk_source { src_id : string; src_utf8 : list byte }.

Record field := mk_field {
  fld_id : symbol_id;
  fld_value_type : type;
  fld_access : neri_ir_access_v1;
  fld_location : option source_location;
}.

Record method := mk_method {
  mth_function_id : symbol_id;
  mth_dispatch : neri_ir_dispatch_kind_v1;
  mth_dispatch_slot : option symbol_id;
  mth_location : option source_location;
}.

Record class_declaration := mk_class {
  cls_id : symbol_id;
  cls_base : option symbol_id;
  cls_access : neri_ir_access_v1;
  cls_retained : bool;
  cls_fields : list field;
  cls_methods : list method;
  cls_location : option source_location;
}.

Record native_record := mk_native_record {
  nr_id : symbol_id;
  nr_is_union : bool;
  nr_fields : list field;
}.

Record global_declaration := mk_global {
  glb_id : symbol_id;
  glb_value_type : type;
  glb_initializer : constant;
  glb_linkage : neri_ir_global_linkage_v1;
  glb_location : option source_location;
}.

Record runtime_requirement := mk_requirement {
  rr_abi_major : N;
  rr_abi_minor : N;
  rr_feature_bits : N;
}.

Record import_declaration := mk_import {
  imp_id : symbol_id;
  imp_parameter_types : list type;
  imp_result_type : type;
  imp_kind : neri_ir_import_kind_v1;
  imp_link_name : string;
  imp_native_library : string;
  imp_effects : N;
  imp_minimum_runtime : option runtime_requirement;
  imp_location : option source_location;
}.

Record value_definition := mk_value { val_id : N; val_value_type : type }.

Record block_parameter := mk_parameter {
  par_id : N;
  par_value_type : type;
  par_location : option source_location;
}.

Record edge := mk_edge { edge_target : N; edge_arguments : list N }.

Record instruction := mk_instruction {
  ins_opcode : neri_ir_opcode_v1;
  ins_results : list value_definition;
  ins_operands : list N;
  ins_type_arguments : list type;
  ins_symbol : option symbol_id;
  ins_constant_value : option constant;
  ins_predicate : option neri_ir_comparison_v1;
  ins_flag : bool;
  ins_location : option source_location;
  ins_debug_scope_id : N;
}.

Record terminator := mk_terminator {
  trm_tag : neri_ir_terminator_tag_v1;
  trm_condition : option N;
  trm_edges : list edge;
  trm_return_value : option N;
  trm_panic_code : string;
  trm_panic_message : string;
  trm_location : option source_location;
  trm_debug_scope_id : N;
}.

Record block := mk_block {
  blk_id : N;
  blk_parameters : list block_parameter;
  blk_instructions : list instruction;
  blk_ending : terminator;
}.

Record debug_local := mk_debug_local {
  dl_name : string;
  dl_value : N;
  dl_scope_id : N;
  dl_location : source_location;
}.

Record debug_scope := mk_debug_scope {
  ds_id : N;
  ds_parent_id : N;
  ds_location : source_location;
}.

Record function := mk_function {
  fn_id : symbol_id;
  fn_parameter_types : list type;
  fn_result_type : type;
  fn_kind : neri_ir_function_kind_v1;
  fn_effects : N;
  fn_unsafe_call : bool;
  fn_retained : bool;
  fn_export_name : string;
  fn_entry_block : N;
  fn_unsafe_root : option value_definition;
  fn_declaring_class : option symbol_id;
  fn_dispatch_slot : option symbol_id;
  fn_location : option source_location;
  fn_blocks : list block;
  fn_debug_scopes : list debug_scope;
  fn_debug_locals : list debug_local;
}.

Record session_export := mk_session {
  ses_entry : symbol_id;
  ses_source_type : type;
  ses_target_type : type;
  ses_artifact_identity : string;
}.

Record ir_module := mk_module {
  mod_semantic_version : version;
  mod_id : string;
  mod_required_features : list ir_feature;
  mod_sources : list source;
  mod_classes : list class_declaration;
  mod_globals : list global_declaration;
  mod_imports : list import_declaration;
  mod_functions : list function;
  mod_native_records : list native_record;
  mod_session : option session_export;
}.

(** [type{tag, std::nullopt, arguments}] (the element count is zero). *)
Definition plain_type (tag : neri_ir_type_tag_v1) (arguments : list type) : type :=
  mk_type tag None arguments 0.

(** ** Structural induction through the nested vectors *)
Section nested_induction.
Lemma type_nested_ind (P : type → Prop) :
  (∀ tag symbol arguments count,
      Forall P arguments → P (mk_type tag symbol arguments count)) →
  ∀ t, P t.
Proof.
  intros Hstep. fix IH 1. intros [tag symbol arguments count]. apply Hstep.
  induction arguments as [|t arguments IHl]; constructor; [apply IH|apply IHl].
Qed.

Lemma constant_nested_ind (P : constant → Prop) :
  (∀ tag bits types nested symbol text,
      Forall P nested → P (mk_constant tag bits types nested symbol text)) →
  ∀ c, P c.
Proof.
  intros Hstep. fix IH 1. intros [tag bits types nested symbol text]. apply Hstep.
  induction nested as [|c nested IHl]; constructor; [apply IH|apply IHl].
Qed.
End nested_induction.
