(* ===== verification/Samples.v ===== *)
(** * A sample program

    A small module that uses the parts of the IR the theorems speak of: a class
    hierarchy with a virtual method, a string global, a native record, a runtime
    and a foreign import, arithmetic, branches, a loop that allocates and an unsafe function.  The
    witnesses of the other files evaluate on it. *)

From S2P Require Import Prelude Domains IR.

Local Open Scope string_scope.
Local Open Scope list_scope.
Local Open Scope N_scope.

Module Sample.
Definition symbol (kind : neri_ir_symbol_kind_v1) (name : string) : symbol_id :=
  mk_symbol "app" kind name.

Definition base_class : symbol_id := symbol NERI_IR_SYMBOL_CLASS_V1 "Base".
Definition derived_class : symbol_id := symbol NERI_IR_SYMBOL_CLASS_V1 "Derived".
Definition count_field : symbol_id := symbol NERI_IR_SYMBOL_FIELD_V1 "Base.count".
Definition get_slot : symbol_id := symbol NERI_IR_SYMBOL_METHOD_V1 "Base.get".
Definition derived_get : symbol_id := symbol NERI_IR_SYMBOL_METHOD_V1 "Derived.get".
Definition add_id : symbol_id := symbol NERI_IR_SYMBOL_FUNCTION_V1 "add".
Definition fill_id : symbol_id := symbol NERI_IR_SYMBOL_FUNCTION_V1 "fill".
Definition load_id : symbol_id := symbol NERI_IR_SYMBOL_FUNCTION_V1 "load".
Definition main_id : symbol_id := symbol NERI_IR_SYMBOL_FUNCTION_V1 "main".
Definition max_id : symbol_id := symbol NERI_IR_SYMBOL_INTRINSIC_V1 "max".
Definition hypot_id : symbol_id := symbol NERI_IR_SYMBOL_FUNCTION_V1 "hypot".
Definition greeting_id : symbol_id := symbol NERI_IR_SYMBOL_GLOBAL_V1 "greeting".
Definition point_id : symbol_id := symbol NERI_IR_SYMBOL_NATIVE_RECORD_V1 "Point".

Definition int : type := plain_type NERI_IR_TYPE_INT_V1 [].
Definition bool : type := plain_type NERI_IR_TYPE_BOOL_V1 [].
Definition float : type := plain_type NERI_IR_TYPE_FLOAT_V1 [].
Definition text : type := plain_type NERI_IR_TYPE_STRING_V1 [].
Definition capability : type := plain_type NERI_IR_TYPE_UNSAFE_CAPABILITY_V1 [].
Definition class (id : symbol_id) : type := mk_type NERI_IR_TYPE_CLASS_V1 (Some id) [] 0.
Definition pointer : type := plain_type NERI_IR_TYPE_POINTER_V1 [int].

Definition here : option source_location := Some (mk_location "main.neri" 0 2).

Definition instr (opcode : neri_ir_opcode_v1) (results : list value_definition) (operands : list N)
    (symbol : option symbol_id) : instruction :=
  mk_instruction opcode results operands [] symbol None None false here 0.

Definition constant_true : instruction :=
  mk_instruction NERI_IR_OPCODE_CONSTANT_V1 [mk_value 10 bool] [] []
    None (Some (mk_constant NERI_IR_CONSTANT_BOOL_V1 1 [] [] None "")) None false None 0.

Definition returning (v : N) : terminator :=
  mk_terminator NERI_IR_TERMINATOR_RETURN_V1 None [] (Some v) "" "" None 0.

Definition plain_function (id : symbol_id) (parameters : list type) (kind : neri_ir_function_kind_v1)
    (effects : N) (blocks : list block) : function :=
  mk_function id parameters int kind effects false false "" 0 None None None here blocks [] [].

(** [add(a, b) = a + b]. *)
Definition add_instruction : instruction :=
  instr NERI_IR_OPCODE_INT_ADD_CHECKED_V1 [mk_value 3 int] [1; 2] None.

Definition add_function : function :=
  plain_function add_id [int; int] NERI_IR_FUNCTION_V1 NERI_IR_EFFECT_MAY_PANIC_V1
    [mk_block 0 [mk_parameter 1 int None; mk_parameter 2 int None] [add_instruction] (returning 3)].

(** [get()] reads the field [count]; [Derived] overrides it. *)
Definition load_count : instruction :=
  instr NERI_IR_OPCODE_FIELD_LOAD_V1 [mk_value 2 int] [1] (Some count_field).

Definition get_function (id class_id : symbol_id) : function :=
  mk_function id [class class_id] int NERI_IR_INSTANCE_METHOD_V1 NERI_IR_EFFECT_READ_V1
    false false "" 0 None (Some class_id) (Some get_slot) here
    [mk_block 0 [mk_parameter 1 (class class_id) None] [load_count] (returning 2)] [] [].

(** [unsafe load(p) = *p], with the capability root as value 9. *)
Definition load_pointer : instruction :=
  mk_instruction NERI_IR_OPCODE_POINTER_LOAD_V1 [mk_value 2 int] [9; 1] [int]
    None None None false here 0.

Definition load_function : function :=
  mk_function load_id [pointer] int NERI_IR_FUNCTION_V1
    (N.lor NERI_IR_EFFECT_UNSAFE_V1 NERI_IR_EFFECT_READ_V1) true false "" 0
    (Some (mk_value 9 capability)) None None here
    [mk_block 0 [mk_parameter 1 pointer None] [load_pointer] (returning 2)] [] [].

(** [main(o, n)]: a diamond that calls [add] on one side, [o.get()] on the other. *)
Definition call_add : instruction :=
  instr NERI_IR_OPCODE_CALL_V1 [mk_value 11 int] [2; 2] (Some add_id).
Definition call_get : instruction :=
  instr NERI_IR_OPCODE_CALL_VIRTUAL_V1 [mk_value 12 int] [1] (Some get_slot).

Definition branch (target : N) (arguments : list N) : terminator :=
  mk_terminator NERI_IR_TERMINATOR_BRANCH_V1 None [mk_edge target arguments] None "" "" None 0.

Definition main_function : function :=
  plain_function main_id [class base_class; int] NERI_IR_FUNCTION_V1
    (N.lor NERI_IR_EFFECT_MAY_PANIC_V1 NERI_IR_EFFECT_READ_V1)
    [mk_block 0 [mk_parameter 1 (class base_class) None; mk_parameter 2 int None] [constant_true]
       (mk_terminator NERI_IR_TERMINATOR_CONDITIONAL_BRANCH_V1 (Some 10)
          [mk_edge 1 []; mk_edge 2 []] None "" "" None 0);
     mk_block 1 [] [call_add] (branch 3 [11]);
     mk_block 2 [] [call_get] (branch 3 [12]);
     mk_block 3 [mk_parameter 13 int None] [] (returning 13)].

(** [fill(n)]: a loop that allocates an object in each round. *)
Definition alloc_base : instruction :=
  instr NERI_IR_OPCODE_OBJECT_ALLOC_V1 [mk_value 3 (class base_class)] [] (Some base_class).

Definition fill_function : function :=
  plain_function fill_id [int] NERI_IR_FUNCTION_V1 44
    [mk_block 0 [mk_parameter 1 int None] [constant_true] (branch 1 [1]);
     mk_block 1 [mk_parameter 2 int None] [alloc_base]
       (mk_terminator NERI_IR_TERMINATOR_CONDITIONAL_BRANCH_V1 (Some 10)
          [mk_edge 1 [2]; mk_edge 2 []] None "" "" None 0);
     mk_block 2 [] [] (returning 2)].

Definition greeting : global_declaration :=
  mk_global greeting_id text
    (mk_constant NERI_IR_CONSTANT_STRING_UTF8_V1 0 [] [] None "hi")
    NERI_IR_GLOBAL_INTERNAL_V1 None.

Definition max_import : import_declaration :=
  mk_import max_id [int; int] int NERI_IR_IMPORT_RUNTIME_V1 "neri_rt_v1_math_max" "" 0
    (Some (mk_requirement 1 4 0)) None.

Definition hypot_import : import_declaration :=
  mk_import hypot_id [float; float] float NERI_IR_IMPORT_C_ABI_V1 "hypot" "" 127 None None.

Definition classes : list class_declaration :=
  [mk_class base_class None NERI_IR_ACCESS_PUBLIC_V1 false
     [mk_field count_field int NERI_IR_ACCESS_PUBLIC_V1 None]
     [mk_method get_slot NERI_IR_DISPATCH_VIRTUAL_V1 (Some get_slot) None] None;
   mk_class derived_class (Some base_class) NERI_IR_ACCESS_PUBLIC_V1 false []
     [mk_method derived_get NERI_IR_DISPATCH_VIRTUAL_V1 (Some get_slot) None] None].

Definition point : native_record :=
  mk_native_record point_id false
    [mk_field (symbol NERI_IR_SYMBOL_FIELD_V1 "Point.x") float NERI_IR_ACCESS_PUBLIC_V1 None;
     mk_field (symbol NERI_IR_SYMBOL_FIELD_V1 "Point.y") float NERI_IR_ACCESS_PUBLIC_V1 None].

Definition app : ir_module :=
  mk_module (mk_version 1 0) "app" [NativeRecords; NativeStrings; StringData]
    [mk_source "main.neri" (list_byte_of_string "ok")] classes [greeting]
    [hypot_import; max_import]
    [get_function get_slot base_class; get_function derived_get derived_class;
     add_function; fill_function; load_function; main_function] [point] None.
End Sample.
