(* ===== verification/Reader.v ===== *)
(** * The bounded payload reader ([native/codegen/ir_reader.cpp])

    [cursor] walks the payload span; [payload_reader] decodes a module from it.
    A C++ member function of either class that reads input is a computation of
    the monad [reader]: it threads the cursor and may throw.  The LLVM routine
    [llvm::isLegalUTF8String] is a parameter of the section. *)

From S2P Require Import Prelude Domains IR.

Local Open Scope string_scope.
Local Open Scope N_scope.

(** [std::to_string] of an unsigned integer. *)
Definition to_string (n : N) : string := pretty n.

(** ** Span access: [operator[]] is undefined out of range. *)
Definition span_at (bytes : list byte) (index : N) : result N :=
  match bytes !! N.to_nat index with
  | Some b => Ok (Byte.to_N b)
  | None => Throw (undefined "span index out of range")
  end.

Definition subspan (bytes : list byte) (offset count : N) : list byte :=
  take (N.to_nat count) (drop (N.to_nat offset) bytes).

Definition read_u16 (bytes : list byte) (offset : N) : result N :=
  low ← span_at bytes offset;
  high ← span_at bytes (offset + 1);
  Ok (N.lor low (N.shiftl high 8)).

(** The loop shared by [read_u32] and [read_u64]: or in byte [index] shifted by
    [index * CHAR_BIT]. *)
Definition read_words (width : nat) (bytes : list byte) (offset : N) : result N :=
  for_state (seq 0 width) 0 (λ index result,
    b ← span_at bytes (offset + N.of_nat index);
    Ok (N.lor result (N.shiftl b (N.of_nat index * 8)))).

Definition read_u32 (bytes : list byte) (offset : N) : result N := read_words 4 bytes offset.

Definition read_u64 (bytes : list byte) (offset : N) : result N := read_words 8 bytes offset.

(** ** Identities *)

Definition decode_scalar (bytes : list byte) (index : N) : result (N * N) :=
  first ← span_at bytes index;
  let index := index + 1 in
  if first <? 0x80 then Ok (first, index)
  else
    let '(value, continuation_count) :=
      if N.land first 0xe0 =? 0xc0 then (N.land first 0x1f, 1%nat)
      else if N.land first 0xf0 =? 0xe0 then (N.land first 0x0f, 2%nat)
      else (N.land first 0x07, 3%nat) in
    for_state (seq 0 continuation_count) (value, index) (λ _ '(value, index),
      b ← span_at bytes index;
      Ok (N.lor (N.shiftl value 6) (N.land b 0x3f), index + 1)).

Definition unicode_whitespace (value : N) : bool :=
  (value =? 0x0009) || (value =? 0x000a) || (value =? 0x000b) || (value =? 0x000c) ||
  (value =? 0x000d) || (value =? 0x0020) || (value =? 0x0085) || (value =? 0x00a0) ||
  (value =? 0x1680) || ((0x2000 <=? value) && (value <=? 0x200a)) ||
  (value =? 0x2028) || (value =? 0x2029) || (value =? 0x202f) || (value =? 0x205f) ||
  (value =? 0x3000).

(** The control characters [validate_identity] refuses. *)
Definition control_scalar (scalar : N) : bool :=
  (scalar <=? 0x001f) || ((0x007f <=? scalar) && (scalar <=? 0x009f)).

Fixpoint validate_identity_loop (fuel : nat) (bytes : list byte) (description : string)
    (offset index : N) (non_whitespace : bool) : result bool :=
  if index <? length_N bytes then
    match fuel with
    | O => Throw (undefined "out of fuel")
    | S fuel =>
        '(scalar, index) ← decode_scalar bytes index;
        if control_scalar scalar then
          Throw (reader_error malformed_module
                   (description +:+ " cannot contain control characters.") offset)
        else
          validate_identity_loop fuel bytes description offset index
            (non_whitespace || negb (unicode_whitespace scalar))
    end
  else Ok non_whitespace.

Definition validate_identity (value : string) (description : string) (offset : N) : result unit :=
  let bytes := list_byte_of_string value in
  non_whitespace ← validate_identity_loop (length bytes) bytes description offset 0 false;
  when (negb non_whitespace)
    (reader_error malformed_module (description +:+ " cannot be empty.") offset).

(** ** Reader limits *)

Record reader_options := mk_options {
  max_input_bytes : N;
  max_string_bytes : N;
  max_collection_count : N;
  max_nesting_depth : N;
}.

Definition default_options : reader_options :=
  mk_options (256 * 1024 * 1024) (16 * 1024 * 1024) 1000000 64.

Definition validate_options (options : reader_options) : result unit :=
  when ((max_input_bytes options <? NERI_IR_HEADER_SIZE_V1) ||
        (max_string_bytes options =? 0) ||
        (max_input_bytes options <? max_string_bytes options) ||
        (max_collection_count options =? 0) || (max_nesting_depth options =? 0))
    (invalid_argument "Neri IR reader limits are inconsistent or non-positive.").

(** ** The cursor *)

Record cursor := mk_cursor {
  input_ : list byte;
  options_ : reader_options;
  base_offset_ : N;
  offset_ : N;
}.

Definition cursor_offset (c : cursor) : N := base_offset_ c + offset_ c.
Definition cursor_remaining (c : cursor) : N := length_N (input_ c) - offset_ c.

(** Member functions that read: the cursor is threaded, exceptions propagate. *)
Definition reader (A : Type) : Type := cursor → result (A * cursor).

#[export] Instance reader_ret : MRet reader := λ A a c, Ok (a, c).
#[export] Instance reader_bind : MBind reader := λ A B k m c, '(a, c) ← m c; k a c.

Definition fail {A} (code : reader_error_kind) (message : string) (offset : N) : reader A :=
  λ _, Throw (reader_error code message offset).
Definition lift {A} (m : result A) : reader A := λ c, a ← m; Ok (a, c).
Definition offset : reader N := λ c, Ok (cursor_offset c, c).
Definition remaining : reader N := λ c, Ok (cursor_remaining c, c).
Definition options : reader reader_options := λ c, Ok (options_ c, c).

(** [if (condition) fail(...)]. *)
Definition fail_if (condition : bool) (code : reader_error_kind) (message : string)
    (offset : N) : reader unit :=
  if condition then fail code message offset else mret tt.

Definition bytes (length : N) : reader (list byte) := λ c,
  if cursor_remaining c <? length then
    Throw (reader_error malformed_module
      ("Unexpected end of payload while reading " +:+ to_string length +:+ " byte(s).")
      (cursor_offset c))
  else
    Ok (subspan (input_ c) (offset_ c) length,
        mk_cursor (input_ c) (options_ c) (base_offset_ c) (offset_ c + length)).

Definition u8 : reader N := b ← bytes 1; lift (span_at b 0).
Definition u16 : reader N := b ← bytes 2; lift (read_u16 b 0).
Definition u32 : reader N := b ← bytes 4; lift (read_u32 b 0).
Definition u64 : reader N := b ← bytes 8; lift (read_u64 b 0).

Definition boolean : reader bool :=
  field_offset ← offset;
  value ← u8;
  fail_if (1 <? value) malformed_module
    ("Boolean byte must be 0 or 1, found " +:+ to_string value +:+ ".") field_offset;;
  mret (value =? 1).

Definition model_id (description : string) : reader N :=
  field_offset ← offset;
  value ← u32;
  fail_if (i32_max <? value) malformed_module
    (description +:+ " " +:+ to_string value +:+
     " exceeds transport v1's signed model range.") field_offset;;
  mret value.

Definition count (description : string) : reader N :=
  field_offset ← offset;
  value ← u32;
  opts ← options;
  fail_if (max_collection_count opts <? value) malformed_module
    (description +:+ " count " +:+ to_string value +:+ " exceeds reader limit " +:+
     to_string (max_collection_count opts) +:+ ".") field_offset;;
  left ← remaining;
  fail_if (left <? value) malformed_module
    (description +:+ " count " +:+ to_string value +:+ " cannot fit in the remaining " +:+
     to_string left +:+ " bytes.") field_offset;;
  mret value.

Definition length_field (description : string) : reader N :=
  field_offset ← offset;
  value ← u32;
  opts ← options;
  fail_if (max_string_bytes opts <? value) malformed_module
    (description +:+ " length " +:+ to_string value +:+ " exceeds reader limit " +:+
     to_string (max_string_bytes opts) +:+ ".") field_offset;;
  left ← remaining;
  fail_if (left <? value) malformed_module
    (description +:+ " length " +:+ to_string value +:+ " exceeds remaining payload " +:+
     to_string left +:+ ".") field_offset;;
  mret value.

Definition blob : reader (list byte) :=
  size ← length_field "byte field";
  bytes size.

Definition require_end : reader unit :=
  left ← remaining;
  here ← offset;
  fail_if (negb (left =? 0)) malformed_module
    ("Payload has " +:+ to_string left +:+ " trailing corruption byte(s).") here.

(** ** Generic readers *)

(** [count] successive calls of [read]. *)
Fixpoint read_n {A} (n : nat) (read : reader A) : reader (list A) :=
  match n with
  | O => mret []
  | S n => x ← read; l ← read_n n read; mret (x :: l)
  end.

Definition read_vector {A} (description : string) (read : reader A) : reader (list A) :=
  n ← count description;
  read_n (N.to_nat n) read.

Definition read_optional {A} (read : reader A) : reader (option A) :=
  present ← boolean;
  if present : bool then (x ← read; mret (Some x)) else mret None.

Definition decode_contiguous_tag {Tag} `{!WireTag Tag} (tag : N) (first last : Tag)
    (description : string) (offset : N) : result Tag :=
  when ((tag <? tag_to_N first) || (tag_to_N last <? tag))
    (reader_error unsupported_feature
       ("Unknown " +:+ description +:+ " tag '" +:+ to_string tag +:+ "'.") offset);;
  match tag_of_N tag with
  | Some value => Ok value
  | None => Throw (undefined "enumeration value out of range")
  end.

Definition decode_type_tag (tag offset : N) : result neri_ir_type_tag_v1 :=
  match tag_of_N tag with
  | Some value => Ok value
  | None => Throw (reader_error unsupported_feature
      ("Unknown semantic type tag '" +:+ to_string tag +:+ "'.") offset)
  end.

(** A one-byte tag of a contiguous domain: [decode_contiguous_tag(input_.u8(), ...)]. *)
Definition read_tag8 {Tag} `{!WireTag Tag} (first last : Tag) (description : string)
    : reader Tag :=
  tag_offset ← offset;
  tag ← u8;
  lift (decode_contiguous_tag tag first last description tag_offset).

(** ** The payload reader *)

Record payload_reader := mk_payload_reader {
  transport_minor_ : N;
  native_libraries_ : bool;
  native_records_ : bool;
  session_module_ : bool;
  retained_modules_ : bool;
  c_interop_ : bool;
}.

(** [transport_minor_ >= ir_feature_metadata(feature).transport_minor]. *)
Definition supports (r : payload_reader) (feature : ir_feature) : bool :=
  fc_transport_minor (ir_feature_metadata feature) <=? transport_minor_ r.

Definition all_effects : N :=
  N.lor NERI_IR_EFFECT_READ_V1 (N.lor NERI_IR_EFFECT_WRITE_V1
  (N.lor NERI_IR_EFFECT_MAY_PANIC_V1 (N.lor NERI_IR_EFFECT_MANAGED_ALLOCATE_V1
  (N.lor NERI_IR_EFFECT_NATIVE_ALLOCATE_V1 (N.lor NERI_IR_EFFECT_SAFEPOINT_V1
  (N.lor NERI_IR_EFFECT_UNSAFE_V1 NERI_IR_EFFECT_NO_RETURN_V1)))))).

Definition read_effects : reader N :=
  effects_offset ← offset;
  effects ← u32;
  let unknown := N.ldiff effects all_effects in
  fail_if (negb (unknown =? 0)) unsupported_feature
    ("Unknown effect bits '" +:+ to_string unknown +:+ "'.") effects_offset;;
  mret effects.

(** Feature identifiers: lower-case letters, digits and single inner dashes. *)
Definition feature_character (b : byte) : bool :=
  let character := Byte.to_N b in
  ((0x61 <=? character) && (character <=? 0x7a)) ||
  ((0x30 <=? character) && (character <=? 0x39)) || (character =? 0x2d).

Fixpoint has_double_dash (l : list byte) : bool :=
  match l with
  | x2d :: (x2d :: _) => true
  | _ :: l => has_double_dash l
  | [] => false
  end.

Definition canonical_feature_name (name : string) : bool :=
  let l := list_byte_of_string name in
  negb (bool_decide (l = []) || bool_decide (head l = Some x2d) || bool_decide (last l = Some x2d) ||
        negb (forallb feature_character l) || has_double_dash l).

Section payload_reader.
(** [llvm::isLegalUTF8String] on a non-empty span. *)
Variable isLegalUTF8String : list byte → bool.

Definition strict_utf8 (bytes : list byte) : bool :=
  if bool_decide (bytes = []) then true else isLegalUTF8String bytes.

Definition utf8 : reader string :=
  byte_count ← length_field "UTF-8 field";
  field_offset ← offset;
  contents ← bytes byte_count;
  fail_if (negb (strict_utf8 contents)) invalid_source "Field is not strict UTF-8." field_offset;;
  mret (string_of_list_byte contents).

Definition read_feature : reader ir_feature :=
  here ← offset;
  name ← utf8;
  fail_if (negb (canonical_feature_name name)) malformed_module
    ("Required feature '" +:+ name +:+ "' is not a canonical feature identifier.") here;;
  match ir_feature_from_name name with
  | Some feature => mret feature
  | None => fail unsupported_feature
              ("Unknown required semantic feature '" +:+ name +:+ "'.") here
  end.

Definition identity (description : string) : reader string :=
  field_offset ← offset;
  value ← utf8;
  lift (validate_identity value description field_offset);;
  mret value.

Definition read_symbol : reader symbol_id :=
  module ← identity "Symbol module identity";
  kind ← read_tag8 NERI_IR_SYMBOL_CLASS_V1 NERI_IR_SYMBOL_NATIVE_RECORD_V1 "symbol-kind";
  semantic_name ← identity "Symbol semantic identity";
  mret (mk_symbol module kind semantic_name).

Definition read_location : reader (option source_location) :=
  read_optional (
    source ← identity "Source identity";
    start ← model_id "source byte start";
    len ← model_id "source byte length";
    mret (mk_location source start len)).

Section nested.
Variable r : payload_reader.

(** The [switch] of [read_type] on the decoded tag; [nested] reads a type one
    level deeper. *)
Definition read_type_body (nested : reader type) (tag : neri_ir_type_tag_v1)
    (tag_offset : N) : reader type :=
  match tag with
  | NERI_IR_TYPE_VOID_V1 | NERI_IR_TYPE_BOOL_V1 | NERI_IR_TYPE_BYTE_V1
  | NERI_IR_TYPE_INT_V1 | NERI_IR_TYPE_FLOAT_V1 | NERI_IR_TYPE_STRING_V1
  | NERI_IR_TYPE_UNSAFE_CAPABILITY_V1 =>
      mret (mk_type tag None [] 0)
  | NERI_IR_TYPE_INT32_V1 | NERI_IR_TYPE_UINT32_V1 | NERI_IR_TYPE_UINT64_V1
  | NERI_IR_TYPE_FLOAT32_V1 =>
      fail_if (negb (supports r ExtendedScalars)) unsupported_feature
        "Extended scalars require transport 1.2." tag_offset;;
      mret (mk_type tag None [] 0)
  | NERI_IR_TYPE_CLASS_V1 =>
      symbol ← read_symbol;
      mret (mk_type tag (Some symbol) [] 0)
  | NERI_IR_TYPE_NATIVE_RECORD_V1 =>
      fail_if (negb (supports r NativeRecords)) unsupported_feature
        "Native records require transport 1.3." tag_offset;;
      symbol ← read_symbol;
      mret (mk_type tag (Some symbol) [] 0)
  | NERI_IR_TYPE_FIXED_ARRAY_V1 =>
      fail_if (negb (supports r NativeRecords)) unsupported_feature
        "Fixed arrays require transport 1.3." tag_offset;;
      element_count ← u32;
      element ← nested;
      mret (mk_type tag None [element] element_count)
  | NERI_IR_TYPE_C_FUNCTION_V1 =>
      fail_if (negb (c_interop_ r)) unsupported_feature
        "C function types require c-interop-v1." tag_offset;;
      n ← count "C function parameters";
      result ← nested;
      parameters ← read_n (N.to_nat n) nested;
      mret (mk_type tag None (result :: parameters) 0)
  | NERI_IR_TYPE_ARRAY_V1 | NERI_IR_TYPE_OPTIONAL_V1 | NERI_IR_TYPE_POINTER_V1
  | NERI_IR_TYPE_BORROW_CAPABILITY_V1 =>
      argument ← nested;
      mret (mk_type tag None [argument] 0)
  end.

Fixpoint read_type_at (fuel : nat) (depth : N) : reader type :=
  match fuel with
  | O => lift (Throw (undefined "out of fuel"))
  | S fuel =>
      opts ← options;
      here ← offset;
      fail_if (max_nesting_depth opts <? depth) malformed_module
        ("Semantic type nesting exceeds reader limit " +:+
         to_string (max_nesting_depth opts) +:+ ".") here;;
      tag_offset ← offset;
      tag8 ← u8;
      tag ← lift (decode_type_tag tag8 tag_offset);
      read_type_body (read_type_at fuel (depth + 1)) tag tag_offset
  end.

(** Depths [0 .. max_nesting_depth + 1] are entered, the last one throws. *)
Definition nesting_fuel (opts : reader_options) : nat := S (S (N.to_nat (max_nesting_depth opts))).

Definition read_type_from (depth : N) : reader type :=
  opts ← options;
  read_type_at (nesting_fuel opts) depth.

Definition read_type : reader type := read_type_from 0.

(** The [switch] of [read_constant]. *)
Definition read_constant_body (nested_type : reader type) (nested_constant : reader constant)
    (tag : neri_ir_constant_tag_v1) : reader constant :=
  match tag with
  | NERI_IR_CONSTANT_BOOL_V1 =>
      b ← boolean;
      mret (mk_constant tag (if b : bool then 1 else 0) [] [] None "")
  | NERI_IR_CONSTANT_BYTE_V1 =>
      bits ← u8;
      mret (mk_constant tag bits [] [] None "")
  | NERI_IR_CONSTANT_INT_V1 | NERI_IR_CONSTANT_FLOAT_V1 =>
      bits ← u64;
      mret (mk_constant tag bits [] [] None "")
  | NERI_IR_CONSTANT_OPTIONAL_NONE_V1 =>
      t ← nested_type;
      mret (mk_constant tag 0 [t] [] None "")
  | NERI_IR_CONSTANT_OPTIONAL_SOME_V1 =>
      t ← nested_type;
      nested ← nested_constant;
      mret (mk_constant tag 0 [t] [nested] None "")
  | NERI_IR_CONSTANT_STRING_GLOBAL_V1 =>
      symbol ← read_symbol;
      mret (mk_constant tag 0 [] [] (Some symbol) "")
  | NERI_IR_CONSTANT_STRING_UTF8_V1 =>
      text ← utf8;
      mret (mk_constant tag 0 [] [] None text)
  end.

Fixpoint read_constant_at (fuel : nat) (depth : N) : reader constant :=
  match fuel with
  | O => lift (Throw (undefined "out of fuel"))
  | S fuel =>
      opts ← options;
      here ← offset;
      fail_if (max_nesting_depth opts <? depth) malformed_module
        ("Constant nesting exceeds reader limit " +:+
         to_string (max_nesting_depth opts) +:+ ".") here;;
      tag ← read_tag8 NERI_IR_CONSTANT_BOOL_V1 NERI_IR_CONSTANT_STRING_UTF8_V1 "constant";
      read_constant_body (read_type_from (depth + 1)) (read_constant_at fuel (depth + 1)) tag
  end.

Definition read_constant : reader constant :=
  opts ← options;
  read_constant_at (nesting_fuel opts) 0.
End nested.

Definition read_source : reader source :=
  id ← identity "Source identity";
  contents ← blob;
  mret (mk_source id contents).

Definition read_access : reader neri_ir_access_v1 :=
  read_tag8 NERI_IR_ACCESS_PUBLIC_V1 NERI_IR_ACCESS_INTERNAL_V1 "access-modifier".

Definition read_field (r : payload_reader) : reader field :=
  id ← read_symbol;
  value_type ← read_type r;
  access ← read_access;
  location ← read_location;
  mret (mk_field id value_type access location).

Definition read_method : reader method :=
  function_id ← read_symbol;
  dispatch ← read_tag8 NERI_IR_DISPATCH_STATIC_V1 NERI_IR_DISPATCH_VIRTUAL_V1 "dispatch-kind";
  dispatch_slot ← read_optional read_symbol;
  location ← read_location;
  mret (mk_method function_id dispatch dispatch_slot location).

Definition read_class (r : payload_reader) : reader class_declaration :=
  id ← read_symbol;
  base ← read_optional read_symbol;
  access ← read_access;
  retained ← (if retained_modules_ r then boolean else mret false);
  fields ← read_vector "class fields" (read_field r);
  methods ← read_vector "class methods" read_method;
  location ← read_location;
  mret (mk_class id base access retained fields methods location).

Definition read_global (r : payload_reader) : reader global_declaration :=
  id ← read_symbol;
  value_type ← read_type r;
  initializer ← read_constant r;
  linkage ← read_tag8 NERI_IR_GLOBAL_INTERNAL_V1 NERI_IR_GLOBAL_EXPORTED_V1 "global-linkage";
  location ← read_location;
  mret (mk_global id value_type initializer linkage location).

Definition read_requirement : reader runtime_requirement :=
  major ← u16;
  minor ← u16;
  features ← u64;
  mret (mk_requirement major minor features).

Definition read_import (r : payload_reader) : reader import_declaration :=
  id ← read_symbol;
  parameter_types ← read_vector "import parameters" (read_type r);
  result_type ← read_type r;
  kind ← read_tag8 NERI_IR_IMPORT_RUNTIME_V1 NERI_IR_IMPORT_C_ABI_V1 "import-kind";
  link_name ← utf8;
  effects ← read_effects;
  minimum_runtime ← read_optional read_requirement;
  location ← read_location;
  native_library ← (if native_libraries_ r then utf8 else mret "");
  mret (mk_import id parameter_types result_type kind link_name native_library effects
          minimum_runtime location).

Definition read_value_definition (r : payload_reader) : reader value_definition :=
  id ← model_id "value ID";
  value_type ← read_type r;
  mret (mk_value id value_type).

Definition read_block_parameter (r : payload_reader) : reader block_parameter :=
  id ← model_id "value ID";
  value_type ← read_type r;
  location ← read_location;
  mret (mk_parameter id value_type location).

Definition read_edge : reader edge :=
  target ← model_id "block ID";
  arguments ← read_vector "edge arguments" (model_id "value ID");
  mret (mk_edge target arguments).

(** The debug scope identifier a transport that has debug scopes carries. *)
Definition read_scope_id (r : payload_reader) (description : string) : reader N :=
  if supports r DebugScopes then model_id description else mret 0.

Definition c_function_opcode (opcode : neri_ir_opcode_v1) : bool :=
  (tag_to_N NERI_IR_OPCODE_C_FUNCTION_ADDRESS_V1 <=? tag_to_N opcode) &&
  (tag_to_N opcode <=? tag_to_N NERI_IR_OPCODE_CALL_C_INDIRECT_V1).

Definition read_instruction (r : payload_reader) : reader instruction :=
  opcode_offset ← offset;
  opcode16 ← u16;
  opcode ← lift (decode_contiguous_tag opcode16 NERI_IR_OPCODE_CONSTANT_V1
                   NERI_IR_OPCODE_CLASS_CHECKED_CAST_V1 "opcode" opcode_offset);
  fail_if (c_function_opcode opcode && negb (c_interop_ r)) unsupported_feature
    "C function instructions require c-interop-v1." opcode_offset;;
  results ← read_vector "instruction results" (read_value_definition r);
  operands ← read_vector "instruction operands" (model_id "value ID");
  type_arguments ← read_vector "instruction type arguments" (read_type r);
  symbol ← read_optional read_symbol;
  constant_value ← read_optional (read_constant r);
  predicate ← read_optional
    (read_tag8 NERI_IR_COMPARISON_EQUAL_V1 NERI_IR_COMPARISON_GREATER_OR_EQUAL_V1
       "comparison-predicate");
  flag ← boolean;
  location ← read_location;
  debug_scope_id ← read_scope_id r "instruction debug scope";
  mret (mk_instruction opcode results operands type_arguments symbol constant_value
          predicate flag location debug_scope_id).

(** The fields that follow the terminator tag, by tag. *)
Definition read_terminator_body (tag : neri_ir_terminator_tag_v1)
    : reader (option N * list edge * option N * string * string) :=
  match tag with
  | NERI_IR_TERMINATOR_BRANCH_V1 =>
      e ← read_edge;
      mret (None, [e], None, "", "")
  | NERI_IR_TERMINATOR_CONDITIONAL_BRANCH_V1 =>
      condition ← model_id "value ID";
      e1 ← read_edge;
      e2 ← read_edge;
      mret (Some condition, [e1; e2], None, "", "")
  | NERI_IR_TERMINATOR_RETURN_V1 =>
      return_value ← read_optional (model_id "value ID");
      mret (None, [], return_value, "", "")
  | NERI_IR_TERMINATOR_PANIC_V1 =>
      code ← utf8;
      message ← utf8;
      mret (None, [], None, code, message)
  end.

Definition read_terminator (r : payload_reader) : reader terminator :=
  tag ← read_tag8 NERI_IR_TERMINATOR_BRANCH_V1 NERI_IR_TERMINATOR_PANIC_V1 "terminator";
  '(condition, edges, return_value, code, message) ← read_terminator_body tag;
  location ← read_location;
  debug_scope_id ← read_scope_id r "terminator debug scope";
  mret (mk_terminator tag condition edges return_value code message location debug_scope_id).

Definition read_block (r : payload_reader) : reader block :=
  id ← model_id "block ID";
  parameters ← read_vector "block parameters" (read_block_parameter r);
  instructions ← read_vector "block instructions" (read_instruction r);
  ending ← read_terminator r;
  mret (mk_block id parameters instructions ending).

(** A location that must be present. *)
Definition require_location (message : string) : reader source_location :=
  location ← read_location;
  here ← offset;
  match location with
  | Some l => mret l
  | None => fail malformed_module message here
  end.

Definition read_debug_scope : reader debug_scope :=
  id ← model_id "debug scope ID";
  parent_id ← model_id "debug scope parent";
  location ← require_location "Debug scope requires a source location.";
  mret (mk_debug_scope id parent_id location).

Definition read_debug_local (r : payload_reader) : reader debug_local :=
  name ← utf8;
  value ← model_id "debug local value";
  scope_id ← read_scope_id r "debug local scope";
  location ← require_location "Debug local requires a source location.";
  mret (mk_debug_local name value scope_id location).

Definition read_function (r : payload_reader) : reader function :=
  id ← read_symbol;
  parameter_types ← read_vector "function parameters" (read_type r);
  result_type ← read_type r;
  kind ← read_tag8 NERI_IR_FUNCTION_V1 NERI_IR_DEFAULT_ADAPTER_V1 "function-kind";
  effects ← read_effects;
  unsafe_call ← boolean;
  retained ← (if retained_modules_ r then boolean else mret false);
  export_name ← (if c_interop_ r then utf8 else mret "");
  entry_block ← model_id "block ID";
  unsafe_root ← read_optional (read_value_definition r);
  declaring_class ← read_optional read_symbol;
  dispatch_slot ← read_optional read_symbol;
  location ← read_location;
  blocks ← read_vector "function blocks" (read_block r);
  debug_scopes ← (if supports r DebugScopes
                  then read_vector "debug scopes" read_debug_scope else mret []);
  debug_locals ← (if 1 <=? transport_minor_ r
                  then read_vector "debug locals" (read_debug_local r) else mret []);
  mret (mk_function id parameter_types result_type kind effects unsafe_call retained
          export_name entry_block unsafe_root declaring_class dispatch_slot location
          blocks debug_scopes debug_locals).

Definition read_native_record (r : payload_reader) : reader native_record :=
  id ← read_symbol;
  is_union ← boolean;
  fields ← read_vector "native fields" (read_field r);
  mret (mk_native_record id is_union fields).

Definition read_session (r : payload_reader) : reader session_export :=
  entry ← read_symbol;
  source_type ← read_type r;
  target_type ← read_type r;
  artifact ← (if retained_modules_ r then identity "Session artifact identity" else mret "");
  mret (mk_session entry source_type target_type artifact).

(** One iteration of the loop over the required features. *)
Definition enable_feature (feature : ir_feature) (r : payload_reader) (here : N)
    : result payload_reader :=
  let contract := ir_feature_metadata feature in
  when (transport_minor_ r <? fc_transport_minor contract)
    (reader_error unsupported_feature (fc_transport_diagnostic contract) here);;
  Ok (mk_payload_reader (transport_minor_ r)
        (native_libraries_ r || ir_feature_eqb feature NativeLibraries)
        (native_records_ r || ir_feature_eqb feature NativeRecords)
        (session_module_ r || ir_feature_eqb feature SessionModule)
        (retained_modules_ r || ir_feature_eqb feature RetainedModules)
        (c_interop_ r || ir_feature_eqb feature CInterop)).

(** [std::ranges::is_sorted(features, {}, ir_feature_name)]. *)
Fixpoint features_sorted (features : list ir_feature) : bool :=
  match features with
  | f :: ((g :: _) as rest) =>
      negb (String.ltb (ir_feature_name g) (ir_feature_name f)) && features_sorted rest
  | _ => true
  end.

(** [std::adjacent_find(features) != end]. *)
Fixpoint adjacent_duplicate (features : list ir_feature) : bool :=
  match features with
  | f :: ((g :: _) as rest) => ir_feature_eqb f g || adjacent_duplicate rest
  | _ => false
  end.

Definition read_features (r : payload_reader) : reader (list ir_feature * payload_reader) :=
  required_features ← read_vector "required features" read_feature;
  here ← offset;
  r ← lift (for_state required_features r (λ feature r, enable_feature feature r here));
  fail_if (negb (features_sorted required_features) || adjacent_duplicate required_features)
    malformed_module "Required features are not in unique canonical order." here;;
  mret (required_features, r).

(** [payload_reader::read] up to its final [require_end]. *)
Definition read_module_fields (r : payload_reader) : reader ir_module :=
  major ← u16;
  minor ← u16;
  id ← identity "Module identity";
  '(required_features, r) ← read_features r;
  sources ← read_vector "sources" read_source;
  classes ← read_vector "classes" (read_class r);
  globals ← read_vector "globals" (read_global r);
  imports ← read_vector "imports" (read_import r);
  functions ← read_vector "functions" (read_function r);
  native_records ← (if native_records_ r
                    then read_vector "native records" (read_native_record r) else mret []);
  session ← (if session_module_ r then (s ← read_session r; mret (Some s)) else mret None);
  mret (mk_module (mk_version major minor) id required_features sources classes globals
          imports functions native_records session).

Definition read_module (r : payload_reader) : reader ir_module :=
  result ← read_module_fields r;
  require_end;;
  mret result.

(** [payload_reader(payload, options, transport_minor).read()]. *)
Definition read_payload (opts : reader_options) (transport_minor : N) (payload : list byte)
    : result ir_module :=
  '(m, _) ← read_module (mk_payload_reader transport_minor false false false false false)
              (mk_cursor payload opts NERI_IR_HEADER_SIZE_V1 0);
  Ok m.
End payload_reader.
