(* ===== verification/Codec.v ===== *)
(** * Codecs: readers paired with the encoding they invert

    A [Codec p enc wf] relates a reader to an encoding: whatever [p] accepts is
    a well-formed value followed by nothing but unread input, every well-formed
    value is read back from its encoding, and [p] has a defined outcome on every
    input.  The lemmas below compose codecs along the monadic structure of the
    readers, so that the codec of a record is a list of its fields. *)

From S2P Require Import Prelude Domains IR Reader.

Local Open Scope string_scope.
Local Open Scope list_scope.
Local Open Scope N_scope.

Definition cursor_ok (o : reader_options) (c : cursor) : Prop :=
  options_ c = o ∧ offset_ c <= length_N (input_ c).

Definition rest (c : cursor) : list byte := drop (N.to_nat (offset_ c)) (input_ c).

Definition advance (c : cursor) (n : N) : cursor :=
  mk_cursor (input_ c) (options_ c) (base_offset_ c) (offset_ c + n).

Lemma advance_advance c n m : advance (advance c n) m = advance c (n + m).
Proof. unfold advance; simpl. f_equal. lia. Qed.

Lemma advance_0 c : advance c 0 = c.
Proof. destruct c; unfold advance; simpl. f_equal. lia. Qed.

Lemma remaining_rest o c : cursor_ok o c → cursor_remaining c = length_N (rest c).
Proof.
  intros [_ Hc]. unfold cursor_remaining, rest, length_N in *. rewrite length_drop. lia.
Qed.

Lemma rest_advance o c l tl :
  cursor_ok o c → rest c = l ++ tl →
  cursor_ok o (advance c (length_N l)) ∧ rest (advance c (length_N l)) = tl.
Proof.
  intros [Ho Hc] Hrest. unfold cursor_ok, rest, advance, length_N in *; simpl.
  assert (Hlen := f_equal length Hrest). rewrite length_drop, length_app in Hlen.
  split; [split; [done|lia]|].
  rewrite N2Nat.inj_add, Nat2N.id, <-drop_drop, Hrest.
  by rewrite drop_app_length.
Qed.

Record Codec {A} (o : reader_options) (p : reader A) (enc : A → list byte) (wf : A → Prop) := {
  codec_decode c a c' : cursor_ok o c → p c = Ok (a, c') →
    wf a ∧ ∃ tl, rest c = enc a ++ tl ∧ c' = advance c (length_N (enc a));
  codec_encode c a tl : cursor_ok o c → rest c = enc a ++ tl → wf a →
    p c = Ok (a, advance c (length_N (enc a)));
  codec_safe c : cursor_ok o c → defined (p c);
}.
Arguments codec_decode {_ _ _ _ _} _.
Arguments codec_encode {_ _ _ _ _} _.
Arguments codec_safe {_ _ _ _ _} _.

Create HintDb codec_db.

#[local] Arguments cursor_remaining : simpl never.
#[local] Arguments cursor_offset : simpl never.
#[local] Arguments N.ltb : simpl never.
#[local] Arguments le_split : simpl never.
#[local] Arguments advance : simpl never.

Section combinators.
Context {o : reader_options}.

Lemma codec_ext {A} (p q : reader A) enc wf :
  (∀ c, p c = q c) → Codec o q enc wf → Codec o p enc wf.
Proof.
  intros Heq [H1 H2 H3]. split.
  - intros c a c' Hc. rewrite Heq. eauto.
  - intros c a tl. rewrite Heq. eauto.
  - intros c. rewrite Heq. eauto.
Qed.

(** A codec up to a pointwise equal encoding and an equivalent domain. *)
Lemma codec_iff {A} (p : reader A) enc enc' wf wf' :
  (∀ a, wf a ↔ wf' a) → (∀ a, wf' a → enc a = enc' a) →
  Codec o p enc wf → Codec o p enc' wf'.
Proof.
  intros Hwf Henc [H1 H2 H3]. split; [| |done].
  - intros c a c' Hc Hp. destruct (H1 _ _ _ Hc Hp) as [Ha Htl].
    rewrite <-Henc by by apply Hwf. split; [by apply Hwf|done].
  - intros c a tl Hc Hrest Ha. rewrite <-Henc in * by done.
    eapply H2; [done..|by apply Hwf].
Qed.

Lemma codec_start {A} (p : reader A) enc wf :
  Codec o p enc (λ a, wf a ∧ True) → Codec o p enc wf.
Proof. apply codec_iff; naive_solver. Qed.

Lemma codec_ret {A} (a0 : A) Q :
  (∀ a, Q a ↔ a = a0) → Codec o (mret a0) (λ _, []) (λ a, True ∧ Q a).
Proof.
  intros HQ. split.
  - intros c a c' Hc [= <- <-]. rewrite HQ, advance_0. eauto.
  - intros c a tl Hc Hrest [_ ->%HQ]. by rewrite advance_0.
  - intros c _ what. discriminate.
Qed.

(** Sequencing: [proj] recovers the first value from the final one, [Q] is what
    earlier reads already fixed. *)
Lemma codec_bind {A B} (proj : B → A) (p : reader A) (k : A → reader B) encA encB wfA wfB Q :
  Codec o p encA wfA →
  (∀ a, wfA a → Codec o (k a) encB (λ b, wfB b ∧ (proj b = a ∧ Q b))) →
  Codec o (p ≫= k) (λ b, encA (proj b) ++ encB b) (λ b, (wfA (proj b) ∧ wfB b) ∧ Q b).
Proof.
  intros Hp Hk. split.
  - intros c b c' Hc Hrun. unfold mbind, reader_bind in Hrun.
    apply bind_Ok_inv in Hrun as ([a c1] & Hpa & Hkb).
    destruct (codec_decode Hp _ _ _ Hc Hpa) as (Ha & tl & Hrest & ->).
    destruct (rest_advance _ _ _ _ Hc Hrest) as [Hc1 Hrest1].
    destruct (codec_decode (Hk a Ha) _ _ _ Hc1 Hkb) as ((Hb & Hproj & HQ) & tl' & Hrest' & ->).
    subst a. split; [done|]. exists tl'. rewrite length_N_app, advance_advance.
    split; [|done]. by rewrite Hrest, <-app_assoc, <-Hrest', Hrest1.
  - intros c b tl Hc Hrest [[Ha Hb] HQ]. rewrite <-app_assoc in Hrest.
    destruct (rest_advance _ _ _ _ Hc Hrest) as [Hc1 Hrest1].
    unfold mbind, reader_bind. rewrite (codec_encode Hp _ _ _ Hc Hrest Ha). simpl.
    rewrite (codec_encode (Hk _ Ha) _ _ _ Hc1 Hrest1) by done.
    by rewrite advance_advance, length_N_app.
  - intros c Hc. apply defined_bind; [by apply (codec_safe Hp)|].
    intros [a c1] Hpa. destruct (codec_decode Hp _ _ _ Hc Hpa) as (Ha & tl & Hrest & ->).
    destruct (rest_advance _ _ _ _ Hc Hrest) as [Hc1 _]. by apply (codec_safe (Hk a Ha)).
Qed.

Lemma codec_last {A B} (proj : B → A) (p : reader A) (f : A → B) encA wfA Q :
  Codec o p encA wfA → (∀ a b, (proj b = a ∧ Q b) ↔ b = f a) →
  Codec o (x ← p; mret (f x)) (λ b, encA (proj b)) (λ b, wfA (proj b) ∧ Q b).
Proof.
  intros Hp Hf. eapply codec_iff; [| |eapply (codec_bind proj _ _ encA (λ _, []) wfA (λ _, True) Q)].
  - naive_solver.
  - intros b _. simpl. apply app_nil_r.
  - done.
  - intros a _. apply codec_ret. intros b. apply Hf.
Qed.

Lemma codec_assoc {A B C} (p : reader A) (f : A → reader B) (k : B → reader C) enc wf :
  Codec o ((x ← p; f x) ≫= k) enc wf → Codec o (x ← p; f x ≫= k) enc wf.
Proof.
  apply codec_ext. intros c. unfold mbind, reader_bind. by destruct (p c) as [[a c1]|e].
Qed.

(** Position, limits and guards read no input. *)
Lemma codec_offset {A} (k : N → reader A) enc wf :
  (∀ n, Codec o (k n) enc wf) → Codec o (offset ≫= k) enc wf.
Proof.
  intros Hk. split.
  - intros c a c' Hc. apply (codec_decode (Hk _)); done.
  - intros c a tl. apply (codec_encode (Hk _)).
  - intros c Hc. apply (codec_safe (Hk _) c Hc).
Qed.

Lemma codec_options {A} (k : reader_options → reader A) enc wf :
  Codec o (k o) enc wf → Codec o (options ≫= k) enc wf.
Proof.
  intros Hk. split.
  - intros c a c' Hc. pose proof Hc as [Ho _]. unfold mbind, reader_bind, options. simpl.
    rewrite Ho. by apply (codec_decode Hk).
  - intros c a tl Hc. pose proof Hc as [Ho _]. unfold mbind, reader_bind, options. simpl.
    rewrite Ho. by apply (codec_encode Hk).
  - intros c Hc. pose proof Hc as [Ho _]. unfold mbind, reader_bind, options. simpl.
    rewrite Ho. by apply (codec_safe Hk).
Qed.

Lemma codec_fail_if {A} (b : bool) code msg off (p : reader A) enc wf Q :
  (b = false → Codec o p enc (λ a, wf a ∧ Q a)) →
  Codec o (fail_if b code msg off;; p) enc (λ a, (b = false ∧ wf a) ∧ Q a).
Proof.
  intros Hp. destruct b; simpl.
  - split; [done|naive_solver|]. intros c _ what. discriminate.
  - eapply codec_iff; [| |apply codec_ext with (q := p); [done|by apply Hp]]; naive_solver.
Qed.

(** A check after which the value is returned. *)
Lemma codec_check {A} (p : reader A) enc wf (bad : A → bool) code (msg : A → string) off :
  Codec o p enc wf →
  Codec o (x ← p; fail_if (bad x) code (msg x) off;; mret x) enc (λ a, wf a ∧ bad a = false).
Proof.
  intros Hp. eapply codec_iff; [| |eapply (codec_bind (λ a, a) p _ enc (λ _, []) wf
    (λ a, bad a = false) (λ _, True))]; [naive_solver|intros; apply app_nil_r|done|].
  intros a Ha. eapply codec_iff; [| |eapply codec_fail_if with (wf := λ _, True)
    (Q := λ b, b = a)]; [naive_solver|naive_solver|].
  intros _. apply codec_ret. naive_solver.
Qed.

Lemma codec_lift_guard {A} (a0 : A) (m : result unit) Q :
  defined m → (∀ a, Q a ↔ a = a0) →
  Codec o (lift m;; mret a0) (λ _, []) (λ a, m = Ok tt ∧ Q a).
Proof.
  intros Hd HQ. destruct m as [[]|e].
  - eapply codec_iff; [| |apply codec_ret; exact HQ]; naive_solver.
  - split; [done|naive_solver|]. intros c _ what. simpl. intros [= ->]. by apply (Hd what).
Qed.

Lemma codec_if {A} (b : bool) (p q : reader A) enc1 enc2 wf1 wf2 :
  Codec o p enc1 wf1 → Codec o q enc2 wf2 →
  Codec o (if b then p else q) (if b then enc1 else enc2) (if b then wf1 else wf2).
Proof. by destruct b. Qed.
End combinators.

(** ** Fixed-width fields *)

Section primitives.
Context {o : reader_options}.

Lemma codec_bytes n : Codec o (bytes n) (λ l, l) (λ l, length_N l = n).
Proof.
  split.
  - intros c l c' Hc. unfold bytes. rewrite (remaining_rest o c Hc).
    destruct (N.ltb_spec (length_N (rest c)) n) as [|Hle]; [done|].
    intros [= <- <-]. unfold subspan. fold (rest c).
    assert (length_N (take (N.to_nat n) (rest c)) = n) as Hn.
    { unfold length_N in *. rewrite length_take. lia. }
    split; [done|]. exists (drop (N.to_nat n) (rest c)).
    by rewrite take_drop, Hn.
  - intros c l tl Hc Hrest <-. unfold bytes. rewrite (remaining_rest o c Hc), Hrest.
    rewrite length_N_app. destruct (N.ltb_spec (length_N l + length_N tl) (length_N l)); [lia|].
    unfold subspan. fold (rest c). rewrite Hrest.
    unfold length_N. rewrite Nat2N.id, take_app_length. done.
  - intros c _ what. unfold bytes. by destruct (_ <? _).
Qed.

Lemma codec_word n (f : list byte → result N) :
  (∀ l, length l = n → f l = Ok (le_combine l)) →
  Codec o (b ← bytes (N.of_nat n); lift (f b)) (le_split n) (λ w, w < 256 ^ N.of_nat n).
Proof.
  intros Hf. assert (∀ l : list byte, length_N l = N.of_nat n → length l = n) as Hlen.
  { unfold length_N. lia. }
  split.
  - intros c w c' Hc Hrun. unfold mbind, reader_bind in Hrun.
    apply bind_Ok_inv in Hrun as ([l c1] & Hl & Hw).
    destruct (codec_decode (codec_bytes _) _ _ _ Hc Hl) as (Hn & tl & Hrest & ->).
    unfold lift in Hw. rewrite Hf in Hw by eauto. simplify_eq/=.
    apply Hlen in Hn. subst n.
    split; [apply le_combine_lt|]. exists tl. by rewrite le_split_combine.
  - intros c w tl Hc Hrest Hw. unfold mbind, reader_bind.
    assert (length_N (le_split n w) = N.of_nat n) as Hn.
    { unfold length_N. by rewrite length_le_split. }
    rewrite (codec_encode (codec_bytes (N.of_nat n)) c _ tl Hc Hrest Hn). simpl.
    unfold lift. rewrite Hf by eauto. simpl. by rewrite le_combine_split.
  - intros c Hc. apply defined_bind; [by apply (codec_safe (codec_bytes _))|].
    intros [l c1] Hl. destruct (codec_decode (codec_bytes _) _ _ _ Hc Hl) as (Hn & _).
    unfold lift. rewrite Hf by eauto. apply defined_Ok.
Qed.

Lemma read_u16_combine l : length l = 2%nat → read_u16 l 0 = Ok (le_combine l).
Proof.
  destruct l as [|b0 [|b1 [|]]]; [done..|intros _|done].
  cbn -[N.lor N.shiftl Byte.to_N]. by rewrite N.shiftl_0_l, N.lor_0_r.
Qed.

Lemma span_at_next l1 b l2 :
  span_at (l1 ++ b :: l2) (0 + N.of_nat (length l1)) = Ok (Byte.to_N b).
Proof. unfold span_at. by rewrite N.add_0_l, Nat2N.id, list_lookup_middle. Qed.

(** The word loop accumulates byte [i] at weight [256 ^ i]. *)
Lemma read_words_combine n l : length l = n → read_words n l 0 = Ok (le_combine l).
Proof.
  intros Hn. unfold read_words.
  enough (∀ k done tl acc, l = done ++ tl → length tl = k → acc = le_combine done →
    for_state (seq (length done) k) acc (λ index result,
      b ← span_at l (0 + N.of_nat index);
      Ok (N.lor result (N.shiftl b (N.of_nat index * 8)))) = Ok (le_combine l)) as Hgen.
  { by apply (Hgen n [] l 0). }
  induction k as [|k IH]; intros done tl acc Hl Htl ->.
  - destruct tl; [|done]. by rewrite Hl, app_nil_r.
  - destruct tl as [|b tl]; [done|]. simpl for_state.
    rewrite Hl at 1. rewrite span_at_next. simpl.
    replace (S (length done)) with (length (done ++ [b])) by (rewrite length_app; simpl; lia).
    apply (IH (done ++ [b]) tl); [by rewrite <-app_assoc|naive_solver|].
    clear. induction done as [|d done IH]; simpl; [by rewrite N.shiftl_0_r, N.shiftl_0_l, N.lor_0_r|].
    rewrite <-IH, <-N.lor_assoc. f_equal. rewrite N.shiftl_lor, N.shiftl_shiftl.
    do 2 f_equal. lia.
Qed.

Lemma codec_u8 : Codec o u8 (le_split 1) (λ w, w < 256).
Proof.
  apply (codec_word 1 (λ b, span_at b 0)). intros [|b [|]]; [done| |done].
  intros _. simpl. by rewrite N.shiftl_0_l, N.lor_0_r.
Qed.

Lemma codec_u16 : Codec o u16 (le_split 2) (λ w, w <= u16_max).
Proof.
  eapply codec_iff; [| |apply (codec_word 2), read_u16_combine]; [|done].
  intros w. change (256 ^ N.of_nat 2) with 65536. unfold u16_max. lia.
Qed.

Lemma codec_u32 : Codec o u32 (le_split 4) (λ w, w <= u32_max).
Proof.
  eapply codec_iff; [| |apply (codec_word 4), read_words_combine]; [|done].
  intros w. change (256 ^ N.of_nat 4) with 4294967296. unfold u32_max. lia.
Qed.

Lemma codec_u64 : Codec o u64 (le_split 8) (λ w, w <= u64_max).
Proof.
  eapply codec_iff; [| |apply (codec_word 8), read_words_combine]; [|done].
  intros w. change (256 ^ N.of_nat 8) with 18446744073709551616. unfold u64_max. lia.
Qed.

Definition enc_bool (b : bool) : list byte := [if b then x01 else x00].

Lemma codec_boolean : Codec o boolean enc_bool (λ _, True).
Proof.
  apply codec_offset. intros off. split.
  - intros c b c' Hc Hrun. unfold mbind, reader_bind in Hrun.
    apply bind_Ok_inv in Hrun as ([w c1] & Hw & Hb).
    destruct (codec_decode codec_u8 _ _ _ Hc Hw) as (_ & tl & Hrest & ->).
    unfold fail_if in Hb. destruct (N.ltb_spec 1 w) as [|Hle]; [done|].
    injection Hb as <- <-. split; [done|]. exists tl. rewrite Hrest.
    by assert (w = 0 ∨ w = 1) as [-> | ->] by lia.
  - intros c b tl Hc Hrest _. unfold mbind, reader_bind.
    rewrite (codec_encode codec_u8 c (if b then 1 else 0) tl Hc) by (by destruct b).
    by destruct b.
  - intros c Hc. apply defined_bind; [by apply (codec_safe codec_u8)|].
    intros [w c1] _ what. simpl. by destruct (_ <? _).
Qed.

Lemma codec_model_id d : Codec o (model_id d) (le_split 4) (λ w, w <= i32_max).
Proof.
  apply codec_offset. intros off.
  eapply codec_iff; [| |apply (codec_check u32 (le_split 4) (λ w, w <= u32_max) (λ w, i32_max <? w)), codec_u32]; [|done].
  intros w. unfold i32_max, u32_max. rewrite N.ltb_ge. lia.
Qed.

Lemma codec_effects :
  Codec o read_effects (le_split 4) (λ w, w <= u32_max ∧ N.ldiff w all_effects = 0).
Proof.
  apply codec_offset. intros off.
  eapply codec_iff; [| |apply (codec_check u32 (le_split 4) (λ w, w <= u32_max) (λ w, negb (N.ldiff w all_effects =? 0))), codec_u32];
    [|done].
  intros w. cbv beta. by rewrite negb_false_iff, N.eqb_eq.
Qed.
End primitives.

(** ** Length-prefixed fields *)

#[local] Opaque le_split.

Section prefixed.
Context {o : reader_options}.

(** A 32-bit length that may exceed neither its limit nor what is left. *)
Record Prefix (p : reader N) (limit : N) := {
  prefix_decode c n c' : cursor_ok o c → p c = Ok (n, c') →
    n <= limit ∧ n <= u32_max ∧ n <= length_N (rest c') ∧
    ∃ tl, rest c = le_split 4 n ++ tl ∧ c' = advance c 4;
  prefix_encode c n tl : cursor_ok o c → rest c = le_split 4 n ++ tl →
    n <= limit → n <= u32_max → n <= length_N tl → p c = Ok (n, advance c 4);
  prefix_safe c : cursor_ok o c → defined (p c);
}.

Lemma prefix_bounded (limit : reader_options → N) code (msg1 : N → reader_options → string)
    (msg2 : N → N → string) :
  Prefix (field_offset ← offset; value ← u32; opts ← options;
          fail_if (limit opts <? value) code (msg1 value opts) field_offset;;
          left ← remaining;
          fail_if (left <? value) code (msg2 value left) field_offset;;
          mret value) (limit o).
Proof.
  assert (∀ n, length_N (le_split 4 n) = 4) as Hlen.
  { intros. unfold length_N. by rewrite length_le_split. }
  split.
  - intros c n c' Hc Hrun. unfold mbind, reader_bind, offset, options, remaining in Hrun.
    simpl in Hrun. apply bind_Ok_inv in Hrun as ([w c1] & Hw & Hrun).
    destruct (codec_decode codec_u32 _ _ _ Hc Hw) as (Hw32 & tl & Hrest & ->).
    rewrite Hlen in *.
    destruct (rest_advance o c (le_split 4 w) tl Hc Hrest) as [Hc1 Hrest1].
    rewrite Hlen in *. pose proof Hc1 as [Ho _].
    rewrite Ho in Hrun. unfold fail_if in Hrun.
    destruct (N.ltb_spec (limit o) w); [done|]. simpl in Hrun.
    rewrite (remaining_rest o) in Hrun by done.
    destruct (N.ltb_spec (length_N (rest (advance c 4))) w); [done|].
    injection Hrun as <- <-. split_and!; [done..|]. eauto.
  - intros c n tl Hc Hrest H1 H2 H3. unfold mbind, reader_bind, offset, options, remaining, fail_if.
    simpl. rewrite (codec_encode codec_u32 c n tl Hc Hrest H2). simpl.
    destruct (rest_advance o c (le_split 4 n) tl Hc Hrest) as [Hc1 Hrest1].
    rewrite Hlen in *. pose proof Hc as [Ho _]. rewrite Ho.
    destruct (N.ltb_spec (limit o) n); [lia|]. simpl.
    rewrite (remaining_rest o), Hrest1 by done.
    destruct (N.ltb_spec (length_N tl) n); [lia|]. done.
  - intros c Hc. unfold mbind, reader_bind, offset, options, remaining, fail_if. simpl.
    apply defined_bind; [exact (codec_safe codec_u32 c Hc)|].
    intros [w c1] _ what. simpl. destruct (_ <? _); simpl; [done|]. by destruct (_ <? _).
Qed.

Lemma prefix_count d : Prefix (count d) (max_collection_count o).
Proof.
  exact (prefix_bounded max_collection_count malformed_module
    (λ value opts, d +:+ " count " +:+ to_string value +:+ " exceeds reader limit " +:+
       to_string (max_collection_count opts) +:+ ".")
    (λ value left, d +:+ " count " +:+ to_string value +:+ " cannot fit in the remaining " +:+
       to_string left +:+ " bytes.")).
Qed.

Lemma prefix_length d : Prefix (length_field d) (max_string_bytes o).
Proof.
  exact (prefix_bounded max_string_bytes malformed_module
    (λ value opts, d +:+ " length " +:+ to_string value +:+ " exceeds reader limit " +:+
       to_string (max_string_bytes opts) +:+ ".")
    (λ value left, d +:+ " length " +:+ to_string value +:+ " exceeds remaining payload " +:+
       to_string left +:+ ".")).
Qed.

Lemma codec_prefixed {B} p limit (k : N → reader B) (size : B → N) encB wfB Q :
  Prefix p limit →
  (∀ n, Codec o (k n) encB (λ b, wfB b ∧ (size b = n ∧ Q b))) →
  (∀ b, wfB b → Q b → size b <= length_N (encB b)) →
  Codec o (p ≫= k) (λ b, le_split 4 (size b) ++ encB b)
    (λ b, ((size b <= limit ∧ size b <= u32_max) ∧ wfB b) ∧ Q b).
Proof.
  intros Hp Hk Hsize.
  assert (∀ n, length_N (le_split 4 n) = 4) as Hlen.
  { intros. unfold length_N. by rewrite length_le_split. }
  split.
  - intros c b c' Hc Hrun. unfold mbind, reader_bind in Hrun.
    apply bind_Ok_inv in Hrun as ([n c1] & Hn & Hb).
    destruct (prefix_decode _ _ Hp _ _ _ Hc Hn) as (H1 & H2 & H3 & tl & Hrest & ->).
    destruct (rest_advance _ _ _ _ Hc Hrest) as [Hc1 Hrest1]. rewrite Hlen in *.
    destruct (codec_decode (Hk n) _ _ _ Hc1 Hb) as ((Hwf & Hsz & HQ) & tl' & Hrest' & ->).
    subst n. split; [done|]. exists tl'. rewrite length_N_app, advance_advance, Hlen.
    by rewrite Hrest, <-app_assoc, <-Hrest', Hrest1.
  - intros c b tl Hc Hrest [[[H1 H2] Hwf] HQ]. rewrite <-app_assoc in Hrest.
    destruct (rest_advance _ _ _ _ Hc Hrest) as [Hc1 Hrest1]. rewrite Hlen in *.
    unfold mbind, reader_bind. rewrite (prefix_encode _ _ Hp c (size b) _ Hc Hrest H1 H2).
    + simpl. rewrite (codec_encode (Hk _) _ _ _ Hc1 Hrest1) by done.
      by rewrite advance_advance, length_N_app, Hlen.
    + rewrite length_N_app. specialize (Hsize b Hwf HQ). lia.
  - intros c Hc. apply defined_bind; [by apply (prefix_safe _ _ Hp)|].
    intros [n c1] Hn. destruct (prefix_decode _ _ Hp _ _ _ Hc Hn) as (H1 & H2 & H3 & tl & Hrest & ->).
    destruct (rest_advance _ _ _ _ Hc Hrest) as [Hc1 Hrest1]. rewrite Hlen in *.
    by apply (codec_safe (Hk n)).
Qed.

(** Vectors *)

Lemma codec_read_n {A} (p : reader A) enc wf n :
  Codec o p enc wf →
  Codec o (read_n n p) (λ l, concat (map enc l)) (λ l, Forall wf l ∧ length l = n).
Proof.
  intros Hp. induction n as [|n IH].
  - eapply codec_iff; [| |apply (codec_ret [] (λ l, l = []))]; [|by intros [|] [_ ?]|done].
    intros [|]; simpl; naive_solver.
  - split.
    + intros c l c' Hc Hrun. simpl in Hrun. unfold mbind, reader_bind in Hrun.
      apply bind_Ok_inv in Hrun as ([x c1] & Hx & Hrun).
      apply bind_Ok_inv in Hrun as ([l' c2] & Hl & Hrun). injection Hrun as <- <-.
      destruct (codec_decode Hp _ _ _ Hc Hx) as (Hwf & tl & Hrest & ->).
      destruct (rest_advance _ _ _ _ Hc Hrest) as [Hc1 Hrest1].
      destruct (codec_decode IH _ _ _ Hc1 Hl) as ((Hall & Hlen) & tl' & Hrest' & ->).
      split; [split; [by constructor|by f_equal/=]|]. exists tl'. simpl.
      rewrite length_N_app, advance_advance. split; [|done].
      by rewrite Hrest, <-app_assoc, <-Hrest', Hrest1.
    + intros c [|x l] tl Hc Hrest [Hall Hlen]; [done|]. simpl in *.
      apply Forall_cons in Hall as [Hx Hall]. rewrite <-app_assoc in Hrest.
      destruct (rest_advance _ _ _ _ Hc Hrest) as [Hc1 Hrest1].
      unfold mbind, reader_bind. rewrite (codec_encode Hp _ _ _ Hc Hrest Hx). simpl.
      rewrite (codec_encode IH _ _ _ Hc1 Hrest1) by (split; [done|lia]).
      simpl. by rewrite advance_advance, length_N_app.
    + intros c Hc. simpl. apply defined_bind; [by apply (codec_safe Hp)|].
      intros [x c1] Hx. destruct (codec_decode Hp _ _ _ Hc Hx) as (Hwf & tl & Hrest & ->).
      destruct (rest_advance _ _ _ _ Hc Hrest) as [Hc1 Hrest1].
      apply defined_bind; [by apply (codec_safe IH)|]. intros [l c2] _ what. done.
Qed.

Definition enc_vector {A} (enc : A → list byte) (l : list A) : list byte :=
  le_split 4 (length_N l) ++ concat (map enc l).

Definition wf_vector {A} (wf : A → Prop) (l : list A) : Prop :=
  (length_N l <= max_collection_count o ∧ length_N l <= u32_max) ∧ Forall wf l.

Lemma concat_length_ge {A} (enc : A → list byte) (wf : A → Prop) l :
  (∀ a, wf a → enc a ≠ []) → Forall wf l → length_N l <= length_N (concat (map enc l)).
Proof.
  intros Hne. unfold length_N. induction 1 as [|x l Hx _ IH]; simpl; [lia|].
  rewrite length_app. specialize (Hne x Hx). destruct (enc x); simpl in *; [done|lia].
Qed.

Lemma codec_vector {A} d (p : reader A) enc wf :
  Codec o p enc wf → (∀ a, wf a → enc a ≠ []) →
  Codec o (read_vector d p) (enc_vector enc) (wf_vector wf).
Proof.
  intros Hp Hne. apply codec_start.
  apply (codec_prefixed _ _ _ length_N (λ l, concat (map enc l)) (Forall wf) (λ _, True)
           (prefix_count d)).
  - intros n. eapply codec_iff; [| |apply (codec_read_n _ enc wf), Hp]; [|done].
    intros l. unfold length_N. split; [|naive_solver lia]. intros [??]. split; [done|]. split; [lia|done].
  - intros l Hl _. by apply (concat_length_ge enc wf).
Qed.

(** Byte strings *)

Definition enc_blob (l : list byte) : list byte := le_split 4 (length_N l) ++ l.
Definition wf_blob (l : list byte) : Prop :=
  length_N l <= max_string_bytes o ∧ length_N l <= u32_max.

Lemma codec_sized_bytes d :
  Codec o (n ← length_field d; bytes n) enc_blob wf_blob.
Proof.
  eapply codec_iff; [| |apply (codec_prefixed _ _ bytes length_N (λ l, l) (λ _, True) (λ _, True)
           (prefix_length d))]; [unfold wf_blob; naive_solver|done| |intros; lia].
  intros n. eapply codec_iff; [| |apply codec_bytes]; naive_solver.
Qed.

Lemma codec_blob : Codec o blob enc_blob wf_blob.
Proof. apply codec_sized_bytes. Qed.

(** Optional values *)

Definition enc_option {A} (enc : A → list byte) (x : option A) : list byte :=
  match x with Some a => x01 :: enc a | None => [x00] end.

Definition wf_option {A} (wf : A → Prop) (x : option A) : Prop :=
  match x with Some a => wf a | None => True end.

Lemma codec_optional {A} (p : reader A) enc wf :
  Codec o p enc wf → Codec o (read_optional p) (enc_option enc) (wf_option wf).
Proof.
  intros Hp. apply codec_start. eapply codec_iff; [| |eapply (codec_bind
    (λ x : option A, bool_decide (is_Some x)) boolean _ enc_bool
    (λ x, match x with Some a => enc a | None => [] end) (λ _, True) (wf_option wf) (λ _, True))];
    [naive_solver|by intros [a|]|apply codec_boolean|].
  intros [|] _.
  - split.
    + intros c x c' Hc Hrun. unfold mbind, reader_bind in Hrun.
      apply bind_Ok_inv in Hrun as ([a c1] & Ha & Hrun). injection Hrun as <- <-.
      destruct (codec_decode Hp _ _ _ Hc Ha) as (Hwf & tl & Hrest & ->). naive_solver.
    + intros c [a|] tl Hc Hrest (Hwf & Hb & _); [|done]. unfold mbind, reader_bind.
      by rewrite (codec_encode Hp _ _ _ Hc Hrest Hwf).
    + intros c Hc. apply defined_bind; [by apply (codec_safe Hp)|]. by intros [a c1] _ what.
  - eapply codec_iff; [| |apply (codec_ret None (λ x, x = None))]; [|by intros [|] (? & ? & ?)|done].
    intros [a|]; simpl; naive_solver.
Qed.
End prefixed.
Arguments Prefix : clear implicits.

(** ** Enumerations *)

Section tags.
Context {o : reader_options} {Tag : Type} `{!WireTag Tag}.

(** Every value from [first] to [last] is an enumerator and conversely; checked
    by computation for each domain. *)
Definition contiguous (first last : Tag) : bool :=
  forallb (λ n, bool_decide (is_Some (tag_of_N (T:=Tag) (N.of_nat n))))
    (seq (N.to_nat (tag_to_N first)) (S (N.to_nat (tag_to_N last - tag_to_N first)))) &&
  forallb (λ t, (tag_to_N first <=? tag_to_N t) && (tag_to_N t <=? tag_to_N last)) tag_all &&
  (tag_to_N last <=? 255).

Lemma contiguous_spec first last :
  contiguous first last = true →
  (∀ n, tag_to_N first <= n → n <= tag_to_N last → is_Some (tag_of_N (T:=Tag) n)) ∧
  (∀ t : Tag, tag_to_N first <= tag_to_N t ∧ tag_to_N t <= tag_to_N last ∧ tag_to_N t <= 255).
Proof.
  unfold contiguous. rewrite !andb_true_iff, !forallb_forall. intros [[H1 H2] H3%N.leb_le]. split.
  - intros n Hf Hl. specialize (H1 (N.to_nat n)). rewrite N2Nat.id, bool_decide_eq_true in H1.
    apply H1. apply in_seq. lia.
  - intros t. specialize (H2 t). rewrite andb_true_iff, !N.leb_le in H2.
    destruct H2 as [? ?]; [|lia].
    pose proof (tag_of_to_N t) as Ht. by apply find_some in Ht as [Ht _].
Qed.

Lemma decode_contiguous_tag_spec first last d off n t :
  contiguous first last = true →
  decode_contiguous_tag n first last d off = Ok t ↔ n = tag_to_N t.
Proof.
  intros [Hsome Hall]%contiguous_spec. unfold decode_contiguous_tag.
  destruct (N.ltb_spec n (tag_to_N first)), (N.ltb_spec (tag_to_N last) n); simpl;
    try (split; [done|intros ->; specialize (Hall t); lia]).
  destruct (Hsome n) as [u Hu]; [done..|]. rewrite Hu. apply tag_to_of_N in Hu as <-.
  split; [by intros [= ->]|intros H'%(inj tag_to_N); by subst].
Qed.

Lemma decode_contiguous_tag_defined first last d off n :
  contiguous first last = true → defined (decode_contiguous_tag n first last d off).
Proof.
  intros [Hsome _]%contiguous_spec what. unfold decode_contiguous_tag.
  destruct (N.ltb_spec n (tag_to_N first)), (N.ltb_spec (tag_to_N last) n); simpl; try done.
  destruct (Hsome n) as [u ->]; done.
Qed.

Definition enc_tag (width : nat) (t : Tag) : list byte := le_split width (tag_to_N t).

(** A tag decoded from a word by any total decision procedure for the domain. *)
Lemma codec_tag (p : reader N) width (wf : N → Prop) (f : N → result Tag) :
  Codec o p (le_split width) wf →
  (∀ n t, f n = Ok t ↔ n = tag_to_N t) → (∀ n, defined (f n)) → (∀ t, wf (tag_to_N t)) →
  Codec o (n ← p; lift (f n)) (enc_tag width) (λ _, True).
Proof.
  intros Hp Hf Hd Hwf. split.
  - intros c t c' Hc Hrun. unfold mbind, reader_bind in Hrun.
    apply bind_Ok_inv in Hrun as ([n c1] & Hn & Hrun).
    destruct (codec_decode Hp _ _ _ Hc Hn) as (_ & tl & Hrest & ->).
    unfold lift in Hrun. destruct (f n) as [t'|] eqn:Ht; [|done]. simplify_eq/=.
    apply Hf in Ht as ->. eauto.
  - intros c t tl Hc Hrest _. unfold mbind, reader_bind.
    rewrite (codec_encode Hp c (tag_to_N t) tl Hc Hrest (Hwf t)). simpl.
    unfold lift. by rewrite (proj2 (Hf _ t) eq_refl).
  - intros c Hc. apply defined_bind; [by apply (codec_safe Hp)|].
    intros [n c1] _. apply defined_bind; [apply Hd|]. intros t _ what. done.
Qed.

Lemma codec_tag8 first last d :
  contiguous first last = true → Codec o (read_tag8 first last d) (enc_tag 1) (λ _ : Tag, True).
Proof.
  intros H. apply codec_offset. intros off. apply (codec_tag u8 1 (λ w, w < 256)).
  - apply codec_u8.
  - intros n t. by apply decode_contiguous_tag_spec.
  - intros n. by apply decode_contiguous_tag_defined.
  - intros t. apply contiguous_spec in H as [_ Hall]. specialize (Hall t). lia.
Qed.
End tags.

Lemma enc_tag_not_nil {Tag} `{!WireTag Tag} n (t : Tag) : enc_tag (S n) t ≠ [].
Proof. done. Qed.

#[export] Hint Resolve codec_u8 codec_u16 codec_u32 codec_u64 codec_boolean codec_model_id
  codec_effects codec_blob codec_optional : codec_db.
#[export] Hint Extern 2 (Codec _ (read_tag8 _ _ _) _ _) =>
  apply codec_tag8; reflexivity : codec_db.
