(* ===== verification/Utf8.v ===== *)
(** * Identities and UTF-8

    A reference definition of UTF-8 ([encode_scalar], Unicode chapter 3) and the
    behaviour of [decode_scalar] and [validate_identity] on well-formed text. *)

From S2P Require Import Prelude Domains IR Reader.

Local Open Scope string_scope.
Local Open Scope list_scope.
Local Open Scope N_scope.

(** [lia] sees through division and remainder in this file. *)
#[local] Ltac Zify.zify_post_hook ::= Z.to_euclidean_division_equations.

(** ** Reference encoding *)

Definition unicode_scalar (s : N) : Prop := s <= 0xd7ff ∨ (0xe000 <= s ∧ s <= 0x10ffff).

Definition encode_scalar (s : N) : list byte :=
  if s <? 0x80 then [byte_of s]
  else if s <? 0x800 then [byte_of (0xc0 + s / 64); byte_of (0x80 + s mod 64)]
  else if s <? 0x10000 then
    [byte_of (0xe0 + s / 4096); byte_of (0x80 + (s / 64) mod 64); byte_of (0x80 + s mod 64)]
  else
    [byte_of (0xf0 + s / 262144); byte_of (0x80 + (s / 4096) mod 64);
     byte_of (0x80 + (s / 64) mod 64); byte_of (0x80 + s mod 64)].

Definition encode_scalars (ss : list N) : list byte := concat (map encode_scalar ss).

(** Well-formed UTF-8 is the encoding of a sequence of scalar values. *)
Definition well_formed_utf8 (bs : list byte) : Prop :=
  ∃ ss, Forall unicode_scalar ss ∧ bs = encode_scalars ss.

(** Texts [validate_identity] should accept: no control characters and at least
    one scalar that is not white space. *)
Definition identity_text (v : string) : Prop :=
  ∃ ss, Forall unicode_scalar ss ∧ list_byte_of_string v = encode_scalars ss ∧
        Forall (λ s, control_scalar s = false) ss ∧
        Exists (λ s, unicode_whitespace s = false) ss.

Lemma encode_scalar_length s : (1 <= length (encode_scalar s))%nat.
Proof. unfold encode_scalar. repeat case_match; simpl; lia. Qed.

Lemma encode_scalars_length ss : (length ss <= length (encode_scalars ss))%nat.
Proof.
  unfold encode_scalars. induction ss as [|s ss IH]; simpl; [lia|].
  rewrite length_app. pose proof (encode_scalar_length s). lia.
Qed.

(** ** Decoding one scalar *)

Lemma span_at_middle l1 b l2 i :
  i = length_N l1 → span_at (l1 ++ b :: l2) i = Ok (Byte.to_N b).
Proof. intros ->. unfold span_at, length_N. by rewrite Nat2N.id, list_lookup_middle. Qed.

Lemma to_byte_of_small n : n < 256 → Byte.to_N (byte_of n) = n.
Proof. intros H. by rewrite to_byte_of, N.mod_small. Qed.

(** Lead bytes of multi-byte forms, by enumeration of their payload. *)
Lemma lead_byte_table :
  forallb (λ k, (N.land (0xc0 + k) 0xe0 =? 0xc0) && (N.land (0xc0 + k) 0x1f =? k))
    (map N.of_nat (seq 0 32)) = true ∧
  forallb (λ k, negb (N.land (0xe0 + k) 0xe0 =? 0xc0) && (N.land (0xe0 + k) 0xf0 =? 0xe0) &&
                (N.land (0xe0 + k) 0x0f =? k)) (map N.of_nat (seq 0 16)) = true ∧
  forallb (λ k, negb (N.land (0xf0 + k) 0xe0 =? 0xc0) && negb (N.land (0xf0 + k) 0xf0 =? 0xe0) &&
                (N.land (0xf0 + k) 0x07 =? k)) (map N.of_nat (seq 0 8)) = true ∧
  forallb (λ k, N.land (0x80 + k) 0x3f =? k) (map N.of_nat (seq 0 64)) = true.
Proof. by vm_compute. Qed.

Lemma forallb_below (f : N → bool) n k :
  forallb f (map N.of_nat (seq 0 n)) = true → k < N.of_nat n → f k = true.
Proof.
  intros H Hk. rewrite forallb_forall in H. apply H, in_map_iff.
  exists (N.to_nat k). rewrite in_seq. lia.
Qed.

Lemma lead2 k : k < 32 →
  (N.land (0xc0 + k) 0xe0 =? 0xc0) = true ∧ N.land (0xc0 + k) 0x1f = k.
Proof.
  intros Hk. destruct lead_byte_table as (H & _).
  by apply (forallb_below _ _ k) in H as [? ?%N.eqb_eq]%andb_true_iff.
Qed.

Lemma lead3 k : k < 16 →
  (N.land (0xe0 + k) 0xe0 =? 0xc0) = false ∧ (N.land (0xe0 + k) 0xf0 =? 0xe0) = true ∧
  N.land (0xe0 + k) 0x0f = k.
Proof.
  intros Hk. destruct lead_byte_table as (_ & H & _).
  by apply (forallb_below _ _ k) in H as [[?%negb_true_iff ?]%andb_true_iff ?%N.eqb_eq]%andb_true_iff.
Qed.

Lemma lead4 k : k < 8 →
  (N.land (0xf0 + k) 0xe0 =? 0xc0) = false ∧ (N.land (0xf0 + k) 0xf0 =? 0xe0) = false ∧
  N.land (0xf0 + k) 0x07 = k.
Proof.
  intros Hk. destruct lead_byte_table as (_ & _ & H & _).
  by apply (forallb_below _ _ k) in H
    as [[?%negb_true_iff ?%negb_true_iff]%andb_true_iff ?%N.eqb_eq]%andb_true_iff.
Qed.

Lemma continuation_step v k :
  k < 64 → N.lor (N.shiftl v 6) (N.land (0x80 + k) 0x3f) = 64 * v + k.
Proof.
  intros Hk. destruct lead_byte_table as (_ & _ & _ & H).
  apply (forallb_below _ _ k) in H; [|done]. apply N.eqb_eq in H as ->.
  rewrite N.lor_comm. rewrite <-N.lxor_lor; [rewrite <-N.add_nocarry_lxor|];
    [rewrite N.shiftl_mul_pow2; lia| |].
  all: apply N.bits_inj_0; intros i; rewrite N.land_spec;
    destruct (decide (i < 6)); [rewrite N.shiftl_spec_low by done; apply andb_false_r|].
  all: rewrite (N.testbit_eqb k), N.div_small; [done|];
    eapply N.lt_le_trans; [apply Hk|]; change 64 with (2^6); apply N.pow_le_mono_r; lia.
Qed.

Lemma span_at_lead pre b post : span_at (pre ++ b :: post) (length_N pre) = Ok (Byte.to_N b).
Proof. by apply span_at_middle. Qed.

Lemma decode_continuation pre b post value i k :
  i = length_N pre → b = byte_of (0x80 + k) → k < 64 →
  (x ← span_at (pre ++ b :: post) i;
   Ok (N.lor (N.shiftl value 6) (N.land x 0x3f), i + 1)) = Ok (64 * value + k, i + 1).
Proof.
  intros Hi -> Hk. rewrite span_at_middle by done. simpl.
  rewrite to_byte_of_small by lia. by rewrite continuation_step.
Qed.

Ltac shift_prefix :=
  match goal with
  | |- context [?pre ++ ?b :: ?x :: ?post] =>
      replace (pre ++ b :: x :: post) with ((pre ++ [b]) ++ x :: post)
        by (by rewrite <-(assoc_L (++)))
  end.

Lemma decode_scalar_encode pre s post :
  unicode_scalar s →
  decode_scalar (pre ++ encode_scalar s ++ post) (length_N pre) =
  Ok (s, length_N pre + length_N (encode_scalar s)).
Proof.
  intros Hs.
  assert (s < 0x110000) as Hmax by (unfold unicode_scalar in Hs; lia).
  unfold encode_scalar. unfold decode_scalar.
  destruct (N.ltb_spec s 0x80) as [Hlt|H80].
  { simpl app. rewrite span_at_lead. simpl. rewrite to_byte_of_small by lia.
    destruct (N.ltb_spec s 128); [|lia]. done. }
  destruct (N.ltb_spec s 0x800) as [Hlt|H800].
  { simpl app. rewrite span_at_lead. cbn [mbind result_bind].
    assert (s / 64 < 32) as Hk by (apply N.Div0.div_lt_upper_bound; lia).
    rewrite to_byte_of_small by lia. destruct (N.ltb_spec (0xc0 + s / 64) 128); [lia|].
    destruct (lead2 _ Hk) as [-> ->]. cbn [for_state seq]. shift_prefix.
    erewrite decode_continuation; [|unfold length_N; rewrite ?length_app; simpl; lia|done|
      by apply N.mod_lt]. cbn [mbind result_bind]. do 2 f_equal; [lia|unfold length_N; simpl; lia]. }
  destruct (N.ltb_spec s 0x10000) as [Hlt|H10000].
  { simpl app. rewrite span_at_lead. cbn [mbind result_bind].
    assert (s / 4096 < 16) as Hk by (apply N.Div0.div_lt_upper_bound; lia).
    rewrite to_byte_of_small by lia. destruct (N.ltb_spec (0xe0 + s / 4096) 128); [lia|].
    destruct (lead3 _ Hk) as (-> & -> & ->). cbn [for_state seq]. do 1 shift_prefix.
    erewrite decode_continuation; [|unfold length_N; rewrite ?length_app; simpl; lia|done|
      by apply N.mod_lt]. cbn [mbind result_bind]. shift_prefix.
    erewrite decode_continuation; [|unfold length_N; rewrite ?length_app; simpl; lia|done|
      by apply N.mod_lt]. cbn [mbind result_bind]. do 2 f_equal; [|unfold length_N; simpl; lia].
    replace (s / 4096) with (s / 64 / 64) by (by rewrite N.Div0.div_div).
    pose proof (N.div_mod s 64). pose proof (N.div_mod (s / 64) 64). lia. }
  simpl app. rewrite span_at_lead. cbn [mbind result_bind].
  assert (s / 262144 < 8) as Hk by (apply N.Div0.div_lt_upper_bound; lia).
  rewrite to_byte_of_small by lia. destruct (N.ltb_spec (0xf0 + s / 262144) 128); [lia|].
  destruct (lead4 _ Hk) as (-> & -> & ->). cbn [for_state seq]. shift_prefix.
  erewrite decode_continuation; [|unfold length_N; rewrite ?length_app; simpl; lia|done|
    by apply N.mod_lt]. cbn [mbind result_bind]. shift_prefix.
  erewrite decode_continuation; [|unfold length_N; rewrite ?length_app; simpl; lia|done|
    by apply N.mod_lt]. cbn [mbind result_bind]. shift_prefix.
  erewrite decode_continuation; [|unfold length_N; rewrite ?length_app; simpl; lia|done|
    by apply N.mod_lt]. cbn [mbind result_bind]. do 2 f_equal; [|unfold length_N; simpl; lia].
  replace (s / 262144) with (s / 64 / 64 / 64) by (by rewrite !N.Div0.div_div).
  replace (s / 4096) with (s / 64 / 64) by (by rewrite N.Div0.div_div).
  pose proof (N.div_mod s 64). pose proof (N.div_mod (s / 64) 64).
  pose proof (N.div_mod (s / 64 / 64) 64). lia.
Qed.

(** ** [validate_identity] *)

Lemma validate_identity_loop_spec ss :
  ∀ fuel pre d off nw, Forall unicode_scalar ss → (length ss <= fuel)%nat →
  validate_identity_loop fuel (pre ++ encode_scalars ss) d off (length_N pre) nw =
  if existsb control_scalar ss
  then Throw (reader_error malformed_module (d +:+ " cannot contain control characters.") off)
  else Ok (nw || existsb (λ s, negb (unicode_whitespace s)) ss).
Proof.
  induction ss as [|s ss IH]; intros fuel pre d off nw Hss Hfuel.
  - unfold encode_scalars. destruct fuel; simpl; rewrite app_nil_r, N.ltb_irrefl; by rewrite orb_false_r.
  - destruct fuel as [|fuel]; [simpl in Hfuel; lia|]. cbn [validate_identity_loop].
    change (encode_scalars (s :: ss)) with (encode_scalar s ++ encode_scalars ss).
    apply Forall_cons in Hss as [Hs Hss].
    pose proof (encode_scalar_length s) as Hlen.
    assert (length_N pre <? length_N (pre ++ encode_scalar s ++ encode_scalars ss) = true) as ->.
    { apply N.ltb_lt. unfold length_N. rewrite !length_app. lia. }
    rewrite decode_scalar_encode by done. cbn [mbind result_bind].
    cbn [existsb]. destruct (control_scalar s); cbn [orb]; [done|].
    replace (length_N pre + length_N (encode_scalar s)) with (length_N (pre ++ encode_scalar s))
      by (unfold length_N; rewrite length_app; lia).
    rewrite (assoc_L (++)). rewrite IH by (done || simpl in Hfuel; lia).
    by rewrite <-orb_assoc.
Qed.

Lemma validate_identity_encoded v d off ss :
  Forall unicode_scalar ss → list_byte_of_string v = encode_scalars ss →
  validate_identity v d off =
  if existsb control_scalar ss
  then Throw (reader_error malformed_module (d +:+ " cannot contain control characters.") off)
  else if existsb (λ s, negb (unicode_whitespace s)) ss then Ok tt
  else Throw (reader_error malformed_module (d +:+ " cannot be empty.") off).
Proof.
  intros Hss Hv. unfold validate_identity. rewrite Hv.
  pose proof (validate_identity_loop_spec ss (length (encode_scalars ss)) [] d off false Hss
                (encode_scalars_length ss)) as Hloop.
  cbn [app] in Hloop. change (length_N []) with 0 in Hloop. rewrite Hloop.
  destruct (existsb control_scalar ss); simpl; [done|]. by destruct (existsb _ ss).
Qed.

Lemma existsb_false_Forall {A} (f : A → bool) l :
  existsb f l = false ↔ Forall (λ x, f x = false) l.
Proof.
  induction l as [|x l IH]; simpl; [by split|].
  by rewrite orb_false_iff, Forall_cons, IH.
Qed.

Lemma existsb_true_Exists {A} (f : A → bool) l :
  existsb f l = true ↔ Exists (λ x, f x = true) l.
Proof.
  induction l as [|x l IH]; simpl; [by rewrite Exists_nil|].
  by rewrite orb_true_iff, Exists_cons, IH.
Qed.

Lemma validate_identity_Ok v d off :
  well_formed_utf8 (list_byte_of_string v) →
  validate_identity v d off = Ok tt ↔ identity_text v.
Proof.
  intros (ss & Hss & Hv). split.
  - rewrite (validate_identity_encoded _ _ _ ss) by done. repeat case_match; [done| |done]. intros _.
    exists ss. split_and!; [done..|by apply existsb_false_Forall|].
    rewrite existsb_true_Exists in *. eapply Exists_impl; [eassumption|].
    intros s. apply negb_true_iff.
  - intros (ss' & Hss' & Hv' & Hc & He). rewrite (validate_identity_encoded _ _ _ ss') by done.
    rewrite (proj2 (existsb_false_Forall _ _) Hc).
    rewrite (proj2 (existsb_true_Exists (λ s, negb (unicode_whitespace s)) ss')); [done|].
    eapply Exists_impl; [exact He|]. intros s. apply negb_true_iff.
Qed.

Lemma validate_identity_defined v d off :
  well_formed_utf8 (list_byte_of_string v) → defined (validate_identity v d off).
Proof.
  intros (ss & Hss & Hv) what. rewrite (validate_identity_encoded _ _ _ ss) by done.
  by repeat case_match.
Qed.

(** ** A checker that meets the contract of the LLVM routine

    It accepts only ASCII; the witnesses of the transport theorems use it. *)

Definition ascii_text (l : list byte) : bool := forallb (λ b, Byte.to_N b <? 128) l.

Lemma ascii_text_sound l : ascii_text l = true → well_formed_utf8 l.
Proof.
  intros Hl. exists (map Byte.to_N l). unfold ascii_text in Hl. split.
  - apply Forall_forall. intros s (b & -> & Hb)%list_elem_of_fmap.
    rewrite forallb_forall in Hl. specialize (Hl b (proj1 (list_elem_of_In _ _) Hb)).
    apply N.ltb_lt in Hl. unfold unicode_scalar. lia.
  - induction l as [|b l IH]; [done|]. cbn [forallb] in Hl. apply andb_true_iff in Hl as [Hb Hl].
    unfold encode_scalars. cbn [map concat]. fold (encode_scalars (map Byte.to_N l)).
    unfold encode_scalar. rewrite Hb, byte_of_to. cbn [app]. f_equal. by apply IH.
Qed.

(** ** Properties *)

(** Identities are Unicode text: on well-formed UTF-8, [validate_identity] accepts exactly
    the texts that have no control character and at least one scalar that is not
    white space, decoding every scalar value of the text. *)
Theorem identity_accepted_iff v description off :
  well_formed_utf8 (list_byte_of_string v) →
  validate_identity v description off = Ok tt ↔ identity_text v.
Proof. apply validate_identity_Ok. Qed.

Lemma identity_accepted_iff_witness : identity_text "main".
Proof.
  apply (identity_accepted_iff "main" "Module" 0); [|vm_compute; reflexivity].
  apply ascii_text_sound. vm_compute. reflexivity.
Defined.
