(* ===== verification/Transport.v ===== *)
(** * The IR transport format

    The byte encoding of every IR record, the well-formedness the transport
    imposes on it, and the codec that relates both to the reader of [Reader.v].
    [encode_payload] is a specification: the reader is shown to accept exactly
    the encodings of well-formed modules ([read_payload_encode],
    [read_payload_canonical]). *)

From S2P Require Import Prelude Domains IR Samples Reader Codec Utf8.

Local Open Scope string_scope.
Local Open Scope list_scope.
Local Open Scope N_scope.

#[local] Opaque le_split.

(** ** More combinators *)

Section combinators.
Context {o : reader_options}.

Lemma codec_bind_free {A B} (proj : B → A) (p : reader A) (k : A → reader B) encA encB wfB Q :
  Codec o p encA (λ _, True) →
  (∀ a, Codec o (k a) encB (λ b, wfB b ∧ (proj b = a ∧ Q b))) →
  Codec o (p ≫= k) (λ b, encA (proj b) ++ encB b) (λ b, wfB b ∧ Q b).
Proof.
  intros Hp Hk. eapply codec_iff; [| |apply (codec_bind proj p k encA encB (λ _, True) wfB Q Hp)];
    naive_solver.
Qed.

(** A guard on what earlier reads fixed, stated of the final value. *)
Lemma codec_guard {A} (b : bool) code msg off (p : reader A) enc (G wf Q : A → Prop) :
  (b = false → Codec o p enc (λ a, wf a ∧ Q a)) → (∀ a, Q a → (G a ↔ b = false)) →
  Codec o (fail_if b code msg off;; p) enc (λ a, (G a ∧ wf a) ∧ Q a).
Proof.
  intros Hp HG. eapply codec_iff; [| |apply codec_fail_if; exact Hp]; [|done].
  intros a. cbv beta. specialize (HG a). tauto.
Qed.

Definition enc_gate {A} (b : bool) (enc : A → list byte) (a : A) : list byte :=
  if b then enc a else [].
Definition wf_gate {A} (b : bool) (wf : A → Prop) (absent : A) (a : A) : Prop :=
  if b then wf a else a = absent.

(** A field present only when a feature of the module is. *)
Lemma codec_gate {A} (b : bool) (p : reader A) absent enc wf :
  Codec o p enc wf →
  Codec o (if b then p else mret absent) (enc_gate b enc) (wf_gate b wf absent).
Proof.
  intros Hp. destruct b; [done|].
  eapply codec_iff; [| |apply (codec_ret absent (λ a, a = absent))]; naive_solver.
Qed.
End combinators.

(** A word that fits the field. *)
Definition below (limit w : N) : Prop := w <= limit.

(** ** Encodings *)

Definition enc_string (s : string) : list byte := enc_blob (list_byte_of_string s).
Definition enc_feature (f : ir_feature) : list byte := enc_string (ir_feature_name f).

Definition enc_symbol (s : symbol_id) : list byte :=
  enc_string (sym_module s) ++ enc_tag 1 (sym_kind s) ++ enc_string (sym_semantic_name s).

Definition enc_location (l : source_location) : list byte :=
  enc_string (loc_source l) ++ le_split 4 (loc_utf8_start l) ++ le_split 4 (loc_utf8_length l).

Definition enc_type_body (enc : type → list byte) (t : type) : list byte :=
  match ty_tag t with
  | NERI_IR_TYPE_CLASS_V1 | NERI_IR_TYPE_NATIVE_RECORD_V1 =>
      match ty_symbol t with Some s => enc_symbol s | None => [] end
  | NERI_IR_TYPE_FIXED_ARRAY_V1 =>
      le_split 4 (ty_element_count t) ++ concat (map enc (ty_arguments t))
  | NERI_IR_TYPE_C_FUNCTION_V1 =>
      le_split 4 (length_N (tail (ty_arguments t))) ++ concat (map enc (ty_arguments t))
  | NERI_IR_TYPE_ARRAY_V1 | NERI_IR_TYPE_OPTIONAL_V1 | NERI_IR_TYPE_POINTER_V1
  | NERI_IR_TYPE_BORROW_CAPABILITY_V1 => concat (map enc (ty_arguments t))
  | _ => []
  end.

Fixpoint enc_type (t : type) : list byte :=
  match t with
  | mk_type tag _ _ _ => enc_tag 1 tag ++ enc_type_body enc_type t
  end.

Definition enc_constant_body (enc : constant → list byte) (c : constant) : list byte :=
  match c_tag c with
  | NERI_IR_CONSTANT_BOOL_V1 => enc_bool (c_value_bits c =? 1)
  | NERI_IR_CONSTANT_BYTE_V1 => le_split 1 (c_value_bits c)
  | NERI_IR_CONSTANT_INT_V1 | NERI_IR_CONSTANT_FLOAT_V1 => le_split 8 (c_value_bits c)
  | NERI_IR_CONSTANT_OPTIONAL_NONE_V1 => concat (map enc_type (c_types c))
  | NERI_IR_CONSTANT_OPTIONAL_SOME_V1 =>
      concat (map enc_type (c_types c)) ++ concat (map enc (c_nested c))
  | NERI_IR_CONSTANT_STRING_GLOBAL_V1 =>
      match c_symbol c with Some s => enc_symbol s | None => [] end
  | NERI_IR_CONSTANT_STRING_UTF8_V1 => enc_string (c_text c)
  end.

Fixpoint enc_constant (c : constant) : list byte :=
  match c with
  | mk_constant tag _ _ _ _ _ => enc_tag 1 tag ++ enc_constant_body enc_constant c
  end.

Definition enc_source (s : source) : list byte := enc_string (src_id s) ++ enc_blob (src_utf8 s).

Definition enc_field (f : field) : list byte :=
  enc_symbol (fld_id f) ++ enc_type (fld_value_type f) ++ enc_tag 1 (fld_access f) ++
  enc_option enc_location (fld_location f).

Definition enc_method (m : method) : list byte :=
  enc_symbol (mth_function_id m) ++ enc_tag 1 (mth_dispatch m) ++
  enc_option enc_symbol (mth_dispatch_slot m) ++ enc_option enc_location (mth_location m).

Definition enc_class (r : payload_reader) (c : class_declaration) : list byte :=
  enc_symbol (cls_id c) ++ enc_option enc_symbol (cls_base c) ++ enc_tag 1 (cls_access c) ++
  enc_gate (retained_modules_ r) enc_bool (cls_retained c) ++
  enc_vector enc_field (cls_fields c) ++ enc_vector enc_method (cls_methods c) ++
  enc_option enc_location (cls_location c).

Definition enc_global (g : global_declaration) : list byte :=
  enc_symbol (glb_id g) ++ enc_type (glb_value_type g) ++ enc_constant (glb_initializer g) ++
  enc_tag 1 (glb_linkage g) ++ enc_option enc_location (glb_location g).

Definition enc_requirement (q : runtime_requirement) : list byte :=
  le_split 2 (rr_abi_major q) ++ le_split 2 (rr_abi_minor q) ++ le_split 8 (rr_feature_bits q).

Definition enc_import (r : payload_reader) (i : import_declaration) : list byte :=
  enc_symbol (imp_id i) ++ enc_vector enc_type (imp_parameter_types i) ++
  enc_type (imp_result_type i) ++ enc_tag 1 (imp_kind i) ++ enc_string (imp_link_name i) ++
  le_split 4 (imp_effects i) ++ enc_option enc_requirement (imp_minimum_runtime i) ++
  enc_option enc_location (imp_location i) ++
  enc_gate (native_libraries_ r) enc_string (imp_native_library i).

Definition enc_value (v : value_definition) : list byte :=
  le_split 4 (val_id v) ++ enc_type (val_value_type v).

Definition enc_parameter (p : block_parameter) : list byte :=
  le_split 4 (par_id p) ++ enc_type (par_value_type p) ++ enc_option enc_location (par_location p).

Definition enc_edge (e : edge) : list byte :=
  le_split 4 (edge_target e) ++ enc_vector (le_split 4) (edge_arguments e).

Definition enc_instruction (r : payload_reader) (i : instruction) : list byte :=
  enc_tag 2 (ins_opcode i) ++ enc_vector enc_value (ins_results i) ++
  enc_vector (le_split 4) (ins_operands i) ++ enc_vector enc_type (ins_type_arguments i) ++
  enc_option enc_symbol (ins_symbol i) ++ enc_option enc_constant (ins_constant_value i) ++
  enc_option (enc_tag 1) (ins_predicate i) ++ enc_bool (ins_flag i) ++
  enc_option enc_location (ins_location i) ++
  enc_gate (supports r DebugScopes) (le_split 4) (ins_debug_scope_id i).

(** The fields that follow a terminator tag. *)
Definition terminator_body := (option N * list edge * option N * string * string)%type.

Definition trm_body (t : terminator) : terminator_body :=
  (trm_condition t, trm_edges t, trm_return_value t, trm_panic_code t, trm_panic_message t).

Definition enc_terminator_body (tag : neri_ir_terminator_tag_v1) (b : terminator_body) : list byte :=
  let '(condition, edges, return_value, code, message) := b in
  match tag with
  | NERI_IR_TERMINATOR_BRANCH_V1 => concat (map enc_edge edges)
  | NERI_IR_TERMINATOR_CONDITIONAL_BRANCH_V1 =>
      le_split 4 (default 0 condition) ++ concat (map enc_edge edges)
  | NERI_IR_TERMINATOR_RETURN_V1 => enc_option (le_split 4) return_value
  | NERI_IR_TERMINATOR_PANIC_V1 => enc_string code ++ enc_string message
  end.

Definition enc_terminator (r : payload_reader) (t : terminator) : list byte :=
  enc_tag 1 (trm_tag t) ++ enc_terminator_body (trm_tag t) (trm_body t) ++
  enc_option enc_location (trm_location t) ++
  enc_gate (supports r DebugScopes) (le_split 4) (trm_debug_scope_id t).

Definition enc_block (r : payload_reader) (b : block) : list byte :=
  le_split 4 (blk_id b) ++ enc_vector enc_parameter (blk_parameters b) ++
  enc_vector (enc_instruction r) (blk_instructions b) ++ enc_terminator r (blk_ending b).

Definition enc_required_location (l : source_location) : list byte :=
  enc_option enc_location (Some l).

Definition enc_debug_scope (s : debug_scope) : list byte :=
  le_split 4 (ds_id s) ++ le_split 4 (ds_parent_id s) ++
  enc_required_location (ds_location s).

Definition enc_debug_local (r : payload_reader) (l : debug_local) : list byte :=
  enc_string (dl_name l) ++ le_split 4 (dl_value l) ++
  enc_gate (supports r DebugScopes) (le_split 4) (dl_scope_id l) ++
  enc_required_location (dl_location l).

Definition enc_function (r : payload_reader) (f : function) : list byte :=
  enc_symbol (fn_id f) ++ enc_vector enc_type (fn_parameter_types f) ++
  enc_type (fn_result_type f) ++ enc_tag 1 (fn_kind f) ++ le_split 4 (fn_effects f) ++
  enc_bool (fn_unsafe_call f) ++ enc_gate (retained_modules_ r) enc_bool (fn_retained f) ++
  enc_gate (c_interop_ r) enc_string (fn_export_name f) ++ le_split 4 (fn_entry_block f) ++
  enc_option enc_value (fn_unsafe_root f) ++ enc_option enc_symbol (fn_declaring_class f) ++
  enc_option enc_symbol (fn_dispatch_slot f) ++ enc_option enc_location (fn_location f) ++
  enc_vector (enc_block r) (fn_blocks f) ++
  enc_gate (supports r DebugScopes) (enc_vector enc_debug_scope) (fn_debug_scopes f) ++
  enc_gate (1 <=? transport_minor_ r) (enc_vector (enc_debug_local r)) (fn_debug_locals f).

Definition enc_native_record (n : native_record) : list byte :=
  enc_symbol (nr_id n) ++ enc_bool (nr_is_union n) ++ enc_vector enc_field (nr_fields n).

Definition enc_session (r : payload_reader) (s : session_export) : list byte :=
  enc_symbol (ses_entry s) ++ enc_type (ses_source_type s) ++ enc_type (ses_target_type s) ++
  enc_gate (retained_modules_ r) enc_string (ses_artifact_identity s).

(** The reader state once the features of a module are known. *)
Definition module_reader (transport_minor : N) (features : list ir_feature) : payload_reader :=
  mk_payload_reader transport_minor (has_feature features NativeLibraries)
    (has_feature features NativeRecords) (has_feature features SessionModule)
    (has_feature features RetainedModules) (has_feature features CInterop).

Definition enc_session_field (r : payload_reader) (x : option session_export) : list byte :=
  match x with Some s => enc_session r s | None => [] end.

Definition enc_declarations (r : payload_reader) (m : ir_module) : list byte :=
  enc_vector enc_source (mod_sources m) ++ enc_vector (enc_class r) (mod_classes m) ++
  enc_vector enc_global (mod_globals m) ++ enc_vector (enc_import r) (mod_imports m) ++
  enc_vector (enc_function r) (mod_functions m) ++
  enc_gate (native_records_ r) (enc_vector enc_native_record) (mod_native_records m) ++
  enc_session_field r (mod_session m).

Definition encode_payload (transport_minor : N) (m : ir_module) : list byte :=
  le_split 2 (v_major (mod_semantic_version m)) ++ le_split 2 (v_minor (mod_semantic_version m)) ++
  enc_string (mod_id m) ++ enc_vector enc_feature (mod_required_features m) ++
  enc_declarations (module_reader transport_minor (mod_required_features m)) m.

(** ** Well-formed values

    What the transport can carry under the limits [o]: the reader produces only
    such values, and reads all of them back. *)

Section transport.
Variable isLegalUTF8String : list byte → bool.
(** The documented contract of the LLVM routine: it accepts only UTF-8. *)
Hypothesis isLegalUTF8String_sound :
  ∀ bs, isLegalUTF8String bs = true → well_formed_utf8 bs.
Context {o : reader_options}.

Notation strict := (strict_utf8 isLegalUTF8String).

Definition wf_string (s : string) : Prop :=
  wf_blob (o:=o) (list_byte_of_string s) ∧ strict (list_byte_of_string s) = true.

Definition wf_identity (s : string) : Prop := wf_string s ∧ identity_text s.

Definition wf_symbol (s : symbol_id) : Prop :=
  wf_identity (sym_module s) ∧ wf_identity (sym_semantic_name s).

Definition wf_location (l : source_location) : Prop :=
  wf_identity (loc_source l) ∧ below i32_max (loc_utf8_start l) ∧ below i32_max (loc_utf8_length l).

(** Shape and nesting of a semantic type at a given depth. *)
Definition all_of {A} (P : A → Prop) (l : list A) : Prop := foldr (λ a acc, P a ∧ acc) True l.

Lemma all_of_Forall {A} (P : A → Prop) l : all_of P l ↔ Forall P l.
Proof. induction l; simpl; [by split|]. by rewrite Forall_cons, <-IHl. Qed.

Definition wf_type_body (r : payload_reader) (rec : type → Prop) (t : type) : Prop :=
  match ty_tag t with
  | NERI_IR_TYPE_VOID_V1 | NERI_IR_TYPE_BOOL_V1 | NERI_IR_TYPE_BYTE_V1
  | NERI_IR_TYPE_INT_V1 | NERI_IR_TYPE_FLOAT_V1 | NERI_IR_TYPE_STRING_V1
  | NERI_IR_TYPE_UNSAFE_CAPABILITY_V1 =>
      ty_symbol t = None ∧ ty_arguments t = [] ∧ ty_element_count t = 0
  | NERI_IR_TYPE_INT32_V1 | NERI_IR_TYPE_UINT32_V1 | NERI_IR_TYPE_UINT64_V1
  | NERI_IR_TYPE_FLOAT32_V1 =>
      supports r ExtendedScalars = true ∧
      ty_symbol t = None ∧ ty_arguments t = [] ∧ ty_element_count t = 0
  | NERI_IR_TYPE_CLASS_V1 =>
      (∃ s, ty_symbol t = Some s ∧ wf_symbol s) ∧ ty_arguments t = [] ∧ ty_element_count t = 0
  | NERI_IR_TYPE_NATIVE_RECORD_V1 =>
      supports r NativeRecords = true ∧
      (∃ s, ty_symbol t = Some s ∧ wf_symbol s) ∧ ty_arguments t = [] ∧ ty_element_count t = 0
  | NERI_IR_TYPE_FIXED_ARRAY_V1 =>
      supports r NativeRecords = true ∧ ty_symbol t = None ∧
      length (ty_arguments t) = 1%nat ∧ all_of rec (ty_arguments t) ∧
      ty_element_count t <= u32_max
  | NERI_IR_TYPE_C_FUNCTION_V1 =>
      c_interop_ r = true ∧ ty_symbol t = None ∧ ty_arguments t ≠ [] ∧
      all_of rec (ty_arguments t) ∧ ty_element_count t = 0 ∧
      length_N (tail (ty_arguments t)) <= max_collection_count o ∧
      length_N (tail (ty_arguments t)) <= u32_max
  | NERI_IR_TYPE_ARRAY_V1 | NERI_IR_TYPE_OPTIONAL_V1 | NERI_IR_TYPE_POINTER_V1
  | NERI_IR_TYPE_BORROW_CAPABILITY_V1 =>
      ty_symbol t = None ∧ length (ty_arguments t) = 1%nat ∧
      all_of rec (ty_arguments t) ∧ ty_element_count t = 0
  end.

Fixpoint wf_type_at (r : payload_reader) (depth : N) (t : type) {struct t} : Prop :=
  depth <= max_nesting_depth o ∧
  match t with mk_type _ _ _ _ => wf_type_body r (λ u, wf_type_at r (depth + 1) u) t end.

Definition wf_type (r : payload_reader) : type → Prop := wf_type_at r 0.

Definition wf_constant_body (wft : type → Prop) (wfc : constant → Prop) (c : constant) : Prop :=
  match c_tag c with
  | NERI_IR_CONSTANT_BOOL_V1 =>
      c_value_bits c <= 1 ∧ c_types c = [] ∧ c_nested c = [] ∧ c_symbol c = None ∧ c_text c = ""
  | NERI_IR_CONSTANT_BYTE_V1 =>
      c_value_bits c < 256 ∧ c_types c = [] ∧ c_nested c = [] ∧ c_symbol c = None ∧ c_text c = ""
  | NERI_IR_CONSTANT_INT_V1 | NERI_IR_CONSTANT_FLOAT_V1 =>
      c_value_bits c <= u64_max ∧ c_types c = [] ∧ c_nested c = [] ∧ c_symbol c = None ∧
      c_text c = ""
  | NERI_IR_CONSTANT_OPTIONAL_NONE_V1 =>
      c_value_bits c = 0 ∧ (∃ t, c_types c = [t] ∧ wft t) ∧
      c_nested c = [] ∧ c_symbol c = None ∧ c_text c = ""
  | NERI_IR_CONSTANT_OPTIONAL_SOME_V1 =>
      c_value_bits c = 0 ∧ (∃ t, c_types c = [t] ∧ wft t) ∧
      length (c_nested c) = 1%nat ∧ all_of wfc (c_nested c) ∧ c_symbol c = None ∧ c_text c = ""
  | NERI_IR_CONSTANT_STRING_GLOBAL_V1 =>
      c_value_bits c = 0 ∧ c_types c = [] ∧ c_nested c = [] ∧
      (∃ s, c_symbol c = Some s ∧ wf_symbol s) ∧ c_text c = ""
  | NERI_IR_CONSTANT_STRING_UTF8_V1 =>
      c_value_bits c = 0 ∧ c_types c = [] ∧ c_nested c = [] ∧ c_symbol c = None ∧
      wf_string (c_text c)
  end.

Fixpoint wf_constant_at (r : payload_reader) (depth : N) (c : constant) {struct c} : Prop :=
  depth <= max_nesting_depth o ∧
  match c with
  | mk_constant _ _ _ _ _ _ =>
      wf_constant_body (wf_type_at r (depth + 1)) (λ n, wf_constant_at r (depth + 1) n) c
  end.

Definition wf_constant (r : payload_reader) : constant → Prop := wf_constant_at r 0.

(** ** Text *)

Lemma codec_utf8 : Codec o (utf8 isLegalUTF8String) enc_string wf_string.
Proof.
  eapply codec_iff; [| |apply (codec_prefixed _ _ _ (λ s, length_N (list_byte_of_string s))
    list_byte_of_string (λ s, strict (list_byte_of_string s) = true) (λ _, True)
    (prefix_length "UTF-8 field"))]; [unfold wf_string, wf_blob; naive_solver|done| |intros; lia].
  intros n. apply codec_offset. intros off.
  eapply codec_iff; [| |apply (codec_bind list_byte_of_string _ _ (λ l, l) (λ _, [])
    (λ l, length_N l = n) (λ s, strict (list_byte_of_string s) = true) (λ _, True)
    (codec_bytes n))]; [naive_solver|intros; apply app_nil_r|].
  intros l Hl. eapply codec_iff; [| |apply codec_fail_if with (wf := λ _, True)
    (Q := λ s, list_byte_of_string s = l)].
  - intros s. cbv beta. rewrite negb_false_iff. naive_solver.
  - done.
  - intros _. apply codec_ret. intros s. split.
    + intros <-. by rewrite string_of_list_byte_of_string.
    + intros ->. by rewrite list_byte_of_string_of_list_byte.
Qed.

Lemma strict_well_formed l : strict l = true → well_formed_utf8 l.
Proof.
  unfold strict_utf8. case_bool_decide as Hnil; [|apply isLegalUTF8String_sound].
  intros _. subst l. by exists [].
Qed.

Lemma codec_identity d : Codec o (identity isLegalUTF8String d) enc_string wf_identity.
Proof.
  apply codec_offset. intros off.
  eapply codec_iff; [| |apply (codec_bind (λ s, s) _ _ enc_string (λ _, []) wf_string
    (λ s, validate_identity s d off = Ok tt) (λ _, True) codec_utf8)].
  - intros s. unfold wf_identity. split.
    + intros [[Hs Hv] _]. split; [done|]. eapply validate_identity_Ok; [|exact Hv].
      by apply strict_well_formed, Hs.
    + intros [Hs Ht]. split; [|done]. split; [done|]. apply validate_identity_Ok; [|done].
      by apply strict_well_formed, Hs.
  - intros s _. apply app_nil_r.
  - intros s Hs. eapply codec_iff; [| |apply (codec_lift_guard s (validate_identity s d off)
      (λ x, x = s))]; [naive_solver|done| |done].
    by apply validate_identity_defined, strict_well_formed, Hs.
Qed.

Lemma codec_symbol : Codec o (read_symbol isLegalUTF8String) enc_symbol wf_symbol.
Proof.
  apply codec_start. apply (codec_bind sym_module); [apply codec_identity|intros module _].
  apply (codec_bind_free sym_kind); [auto with codec_db|intros kind].
  apply (codec_last sym_semantic_name); [apply codec_identity|].
  intros name []; simpl; naive_solver.
Qed.

Lemma codec_location :
  Codec o (read_location isLegalUTF8String) (enc_option enc_location) (wf_option wf_location).
Proof.
  apply codec_optional, codec_start.
  apply (codec_bind loc_source); [apply codec_identity|intros src _].
  apply (codec_bind loc_utf8_start); [apply codec_model_id|intros start _].
  apply (codec_last loc_utf8_length); [apply codec_model_id|].
  intros len []; simpl; naive_solver.
Qed.

(** ** Types and constants *)

Lemma codec_type_tag off :
  Codec o (tag8 ← u8; lift (decode_type_tag tag8 off)) (enc_tag 1)
    (λ _ : neri_ir_type_tag_v1, True).
Proof.
  apply (codec_tag u8 1 (λ w, w < 256)); [apply codec_u8| | |by intros []].
  - intros n t. unfold decode_type_tag. destruct (tag_of_N n) as [u|] eqn:Hu.
    + apply tag_to_of_N in Hu as <-. split; [by intros [= ->]|by intros <-%(inj tag_to_N)].
    + split; [done|intros ->]. by rewrite tag_of_to_N in Hu.
  - intros n what. unfold decode_type_tag. by destruct (tag_of_N n).
Qed.

(** Accessors of the fixed shapes, total through a default. *)
Definition void_type : type := plain_type NERI_IR_TYPE_VOID_V1 [].
Definition type_symbol (t : type) : symbol_id :=
  default (mk_symbol "" NERI_IR_SYMBOL_CLASS_V1 "") (ty_symbol t).
Definition type_argument (t : type) : type := hd void_type (ty_arguments t).

Lemma codec_type_leaf tag enc Q :
  (∀ t, Q t ↔ t = mk_type tag None [] 0) → enc (mk_type tag None [] 0) = [] →
  Codec o (mret (mk_type tag None [] 0)) enc Q.
Proof.
  intros HQ Henc. eapply codec_iff; [| |apply (codec_ret _ (λ t, t = mk_type tag None [] 0))];
    [| |done]; intros t; rewrite HQ; naive_solver.
Qed.

(** A form that needs a feature of the transport or of the module. *)
Lemma codec_feature_guard {A} (b : bool) code msg off (p : reader A) enc Q Q' :
  Codec o p enc Q → (∀ t, Q' t ↔ b = true ∧ Q t) →
  Codec o (fail_if (negb b) code msg off;; p) enc Q'.
Proof.
  intros Hp HQ. eapply codec_iff; [| |apply codec_fail_if with (wf := Q) (Q := λ _, True)];
    [|done|].
  - intros t. cbv beta. rewrite HQ, negb_false_iff. naive_solver.
  - intros _. eapply codec_iff; [| |exact Hp]; naive_solver.
Qed.

Lemma codec_type_symbol tag (Q : type → Prop) enc :
  (∀ t, Q t ↔ ∃ s, t = mk_type tag (Some s) [] 0 ∧ wf_symbol s) →
  (∀ s, enc (mk_type tag (Some s) [] 0) = enc_symbol s) →
  Codec o (s ← read_symbol isLegalUTF8String; mret (mk_type tag (Some s) [] 0)) enc Q.
Proof.
  intros HQ Henc. eapply codec_iff; [| |apply (codec_last type_symbol _
    (λ s, mk_type tag (Some s) [] 0) enc_symbol wf_symbol
    (λ t, t = mk_type tag (Some (type_symbol t)) [] 0) codec_symbol)].
  - intros t. rewrite HQ. split.
    + intros [Hs Ht]. eauto.
    + by intros (s & -> & Hs).
  - intros t (s & -> & _)%HQ. by rewrite Henc.
  - intros s t. split; [naive_solver|by intros ->].
Qed.

Lemma codec_type_unary tag p wf (Q : type → Prop) enc :
  Codec o p enc_type wf →
  (∀ t, Q t ↔ ∃ u, t = mk_type tag None [u] 0 ∧ wf u) →
  (∀ u, enc (mk_type tag None [u] 0) = enc_type u) →
  Codec o (u ← p; mret (mk_type tag None [u] 0)) enc Q.
Proof.
  intros Hp HQ Henc. eapply codec_iff; [| |apply (codec_last type_argument _
    (λ u, mk_type tag None [u] 0) enc_type wf
    (λ t, t = mk_type tag None [type_argument t] 0) Hp)].
  - intros t. rewrite HQ. split.
    + intros [Hu Ht]. eauto.
    + by intros (u & -> & Hu).
  - intros t (u & -> & _)%HQ. by rewrite Henc.
  - intros u t. split; [naive_solver|by intros ->].
Qed.

Lemma codec_type_array p wf Q :
  Codec o p enc_type wf →
  (∀ t, Q t ↔ ∃ n u, t = mk_type NERI_IR_TYPE_FIXED_ARRAY_V1 None [u] n ∧ n <= u32_max ∧ wf u) →
  Codec o (n ← u32; u ← p; mret (mk_type NERI_IR_TYPE_FIXED_ARRAY_V1 None [u] n))
    (enc_type_body enc_type) Q.
Proof.
  intros Hp HQ. eapply codec_iff; [| |apply (codec_bind ty_element_count u32 _ (le_split 4)
    (λ t, enc_type (type_argument t)) (below u32_max) (λ t, wf (type_argument t))
    (λ t, t = mk_type NERI_IR_TYPE_FIXED_ARRAY_V1 None [type_argument t] (ty_element_count t)))];
    [| |apply codec_u32|].
  - intros t. rewrite HQ. split.
    + intros [[Hn Hu] Ht]. eauto.
    + by intros (n & u & -> & Hn & Hu).
  - intros t (n & u & -> & _)%HQ. unfold enc_type_body. simpl. by rewrite app_nil_r.
  - intros n _. apply (codec_last type_argument); [done|].
    intros u t. split; [naive_solver|by intros ->].
Qed.

Lemma codec_type_c_function p wf Q :
  Codec o p enc_type wf → (∀ u, wf u → enc_type u ≠ []) →
  (∀ t, Q t ↔ ∃ u l, t = mk_type NERI_IR_TYPE_C_FUNCTION_V1 None (u :: l) 0 ∧ wf u ∧ Forall wf l ∧
               length_N l <= max_collection_count o ∧ length_N l <= u32_max) →
  Codec o (n ← count "C function parameters"; u ← p; l ← read_n (N.to_nat n) p;
           mret (mk_type NERI_IR_TYPE_C_FUNCTION_V1 None (u :: l) 0))
    (enc_type_body enc_type) Q.
Proof.
  intros Hp Hne HQ.
  set (shape := λ t, t = mk_type NERI_IR_TYPE_C_FUNCTION_V1 None
                         (type_argument t :: tail (ty_arguments t)) 0).
  eapply codec_iff; [| |apply (codec_prefixed _ _ _ (λ t, length_N (tail (ty_arguments t)))
    (λ t, enc_type (type_argument t) ++ concat (map enc_type (tail (ty_arguments t))))
    (λ t, wf (type_argument t) ∧ Forall wf (tail (ty_arguments t))) shape
    (prefix_count "C function parameters"))].
  - intros t. rewrite HQ. split.
    + intros [[Hn [Hu Hl]] Ht]. exists (type_argument t), (tail (ty_arguments t)). naive_solver.
    + by intros (u & l & -> & ? & ? & ? & ?).
  - intros t (u & l & -> & _)%HQ. done.
  - intros n. apply (codec_bind type_argument _ _ enc_type _ wf); [done|intros u _].
    eapply codec_iff; [| |apply (codec_last (λ t, tail (ty_arguments t)) _ _
      (λ l, concat (map enc_type l)) (λ l, Forall wf l ∧ length l = N.to_nat n)
      (λ t, type_argument t = u ∧ shape t) (codec_read_n _ _ _ _ Hp))]; [|done|].
    + intros t. unfold length_N. split.
      * intros [[? Hlen] [? ?]]. split_and!; [done|done|rewrite Hlen; lia|done].
      * intros (? & ? & <- & ?). split_and!; [done|lia|done..].
    + intros l t. unfold shape. split; [naive_solver|by intros ->].
  - intros t [Hu Hl] _. rewrite length_N_app.
    pose proof (concat_length_ge enc_type wf _ Hne Hl). lia.
Qed.

Lemma enc_type_unfold t : enc_type t = enc_tag 1 (ty_tag t) ++ enc_type_body enc_type t.
Proof. by destruct t. Qed.

Lemma enc_tag_app_not_nil {Tag} `{!WireTag Tag} n (t : Tag) l : enc_tag (S n) t ++ l ≠ [].
Proof.
  intros H%(f_equal length). rewrite length_app in H. unfold enc_tag in H.
  rewrite length_le_split in H. simpl in H. lia.
Qed.

Lemma enc_type_not_nil t : enc_type t ≠ [].
Proof. rewrite enc_type_unfold. apply enc_tag_app_not_nil. Qed.

Lemma wf_type_at_unfold r depth t :
  wf_type_at r depth t ↔
  depth <= max_nesting_depth o ∧ wf_type_body r (wf_type_at r (depth + 1)) t.
Proof. by destruct t. Qed.

(** An argument vector of exactly one element. *)
Lemma unary_arguments {A} (P : A → Prop) l :
  length l = 1%nat ∧ all_of P l ↔ ∃ u, l = [u] ∧ P u.
Proof.
  split; [|by intros (u & -> & Hu)].
  destruct l as [|u [|]]; [by intros []| |by intros []]. intros [_ [Hu _]]. eauto.
Qed.

(** Reconciles the transport's shape of a type with the value a branch builds. *)
Ltac shape :=
  intros [tag symbol arguments n]; unfold wf_type_body; simpl;
  lazymatch goal with
  | |- context [length arguments = 1%nat] =>
      split; [destruct arguments as [|u [|]]; simpl; naive_solver
             |naive_solver]
  | _ => naive_solver
  end.

Lemma codec_type_body r tag off wf p :
  Codec o p enc_type wf →
  Codec o (read_type_body isLegalUTF8String r p tag off) (enc_type_body enc_type)
    (λ t, wf_type_body r wf t ∧ ty_tag t = tag).
Proof.
  intros Hp. destruct tag; cbn [read_type_body];
    lazymatch goal with
    | |- Codec _ (mret (mk_type ?tag _ _ _)) _ _ =>
        apply codec_type_leaf; [|done]; shape
    | |- Codec _ (fail_if _ _ _ _ ≫= λ _, mret (mk_type ?tag _ _ _)) _ _ =>
        apply codec_feature_guard with (Q := λ t, t = mk_type tag None [] 0);
          [by apply codec_type_leaf|shape]
    | |- Codec _ (read_symbol _ ≫= λ _, mret (mk_type ?tag _ _ _)) _ _ =>
        apply codec_type_symbol; [shape|done]
    | |- Codec _ (fail_if _ _ _ _ ≫= λ _, read_symbol _ ≫= λ _, mret (mk_type ?tag _ _ _)) _ _ =>
        apply codec_feature_guard with
          (Q := λ t, ∃ s, t = mk_type tag (Some s) [] 0 ∧ wf_symbol s);
          [by apply codec_type_symbol|shape]
    | |- Codec _ (p ≫= λ _, mret (mk_type ?tag _ _ _)) _ _ =>
        apply (codec_type_unary _ _ wf);
          [done|shape|intros u; apply app_nil_r]
    | _ => idtac
    end.
  - apply codec_feature_guard with (Q := λ t, ∃ n u,
      t = mk_type NERI_IR_TYPE_FIXED_ARRAY_V1 None [u] n ∧ n <= u32_max ∧ wf u);
      [by apply (codec_type_array _ wf)|shape].
  - apply codec_feature_guard with (Q := λ t, ∃ u l,
      t = mk_type NERI_IR_TYPE_C_FUNCTION_V1 None (u :: l) 0 ∧ wf u ∧ Forall wf l ∧
      length_N l <= max_collection_count o ∧ length_N l <= u32_max);
      [by apply (codec_type_c_function _ wf); [|intros ? _; apply enc_type_not_nil|]|].
    intros [tag symbol arguments n]; unfold wf_type_body; simpl. split.
    + intros [Hwf ->]. destruct Hwf as (Hc & Hs & Hne & Hall%all_of_Forall & Hn & Hlen).
      destruct arguments as [|u l]; [done|]. apply Forall_cons in Hall as [??]. naive_solver.
    + intros (Hc & u & l & [= -> -> -> ->] & ? & ?%all_of_Forall & ?). done.
Qed.

Lemma codec_type_at r fuel depth :
  (N.to_nat (max_nesting_depth o + 1 - depth) < fuel)%nat →
  Codec o (read_type_at isLegalUTF8String r fuel depth) enc_type (wf_type_at r depth).
Proof.
  revert depth. induction fuel as [|fuel IH]; intros depth Hfuel; [lia|].
  simpl. apply codec_options, codec_offset. intros here.
  eapply codec_iff; [intros t; symmetry; apply (wf_type_at_unfold r depth t)
                    |intros t _; symmetry; apply enc_type_unfold|].
  eapply codec_iff; [| |apply codec_fail_if with (Q := λ _, True)
    (wf := wf_type_body r (wf_type_at r (depth + 1)))];
    [intros t; cbv beta; rewrite N.ltb_ge; naive_solver|done|].
  intros Hdepth%N.ltb_ge. apply codec_offset. intros off. apply codec_assoc.
  apply (codec_bind_free ty_tag); [apply codec_type_tag|intros tag].
  eapply codec_iff; [| |apply codec_type_body, IH; lia]; naive_solver.
Qed.

Lemma codec_type_from r depth :
  Codec o (read_type_from isLegalUTF8String r depth) enc_type (wf_type_at r depth).
Proof. apply codec_options, codec_type_at. unfold nesting_fuel. lia. Qed.

Lemma codec_type r : Codec o (read_type isLegalUTF8String r) enc_type (wf_type r).
Proof. apply codec_type_from. Qed.

Definition constant_type (c : constant) : type := hd void_type (c_types c).
Definition void_constant : constant := mk_constant NERI_IR_CONSTANT_BOOL_V1 0 [] [] None "".
Definition constant_nested (c : constant) : constant := hd void_constant (c_nested c).
Definition constant_symbol (c : constant) : symbol_id :=
  default (mk_symbol "" NERI_IR_SYMBOL_CLASS_V1 "") (c_symbol c).

(** A constant built from one value read after its tag. *)
Lemma codec_constant_one {A} (proj : constant → A) (f : A → constant) p enc1 wf1 enc Q :
  Codec o p enc1 wf1 →
  (∀ a, wf1 a → proj (f a) = a) → (∀ a, wf1 a → enc (f a) = enc1 a) →
  (∀ c, Q c ↔ ∃ a, c = f a ∧ wf1 a) →
  Codec o (x ← p; mret (f x)) enc Q.
Proof.
  intros Hp Hproj Henc HQ.
  eapply codec_iff; [| |eapply (codec_bind proj p _ enc1 (λ _, []) wf1 (λ _, True)
    (λ c, c = f (proj c)) Hp)].
  - intros c. rewrite HQ. split; [naive_solver|]. intros (a & -> & Ha).
    by rewrite !Hproj.
  - intros c (a & -> & Ha)%HQ. by rewrite Hproj, Henc, app_nil_r.
  - intros a Ha. apply codec_ret. intros c. split; [naive_solver|].
    intros ->. by rewrite !Hproj.
Qed.

(** Reconciles the transport's shape of a constant with the value a branch builds. *)
Ltac constant_shape :=
  intros [tag bits types nested symbol text]; unfold wf_constant_body; simpl; naive_solver.

Lemma codec_constant_body tag wft pt wfc pc :
  Codec o pt enc_type wft → Codec o pc enc_constant wfc →
  Codec o (read_constant_body isLegalUTF8String pt pc tag) (enc_constant_body enc_constant)
    (λ c, wf_constant_body wft wfc c ∧ c_tag c = tag).
Proof.
  intros Ht Hc. destruct tag; cbn [read_constant_body].
  - apply (codec_constant_one (λ c, c_value_bits c =? 1)
      (λ b : bool, mk_constant NERI_IR_CONSTANT_BOOL_V1 (if b then 1 else 0) [] [] None "")
      _ _ _ _ _ codec_boolean); [by intros []|by intros []|].
    intros [tag bits types nested symbol text]; unfold wf_constant_body; simpl. split.
    + intros [Hwf ->]. destruct Hwf as (Hbits & -> & -> & -> & ->). exists (bits =? 1).
      split; [|done]. f_equal. destruct (N.eqb_spec bits 1); lia.
    + intros ([] & [= -> -> -> -> -> ->] & _); (split; [|done]); repeat split; lia.
  - by apply (codec_constant_one c_value_bits _ _ _ _ _ _ codec_u8); [..|constant_shape].
  - by apply (codec_constant_one c_value_bits _ _ _ _ _ _ codec_u64); [..|constant_shape].
  - by apply (codec_constant_one c_value_bits _ _ _ _ _ _ codec_u64); [..|constant_shape].
  - apply (codec_constant_one constant_type _ _ _ _ _ _ Ht); [done| |constant_shape].
    intros t _. apply app_nil_r.
  - eapply codec_iff; [| |apply (codec_bind constant_type pt _ enc_type
      (λ c, enc_constant (constant_nested c)) wft (λ c, wfc (constant_nested c))
      (λ c, c = mk_constant NERI_IR_CONSTANT_OPTIONAL_SOME_V1 0 [constant_type c]
                  [constant_nested c] None "") Ht)].
    + intros [tag bits types nested symbol text]; unfold wf_constant_body; simpl. split.
      { intros [[Hwft Hwfc] [= -> -> Hty Hn -> ->]]. split; [|done]. rewrite Hn at 1.
        split_and!; [done|by eexists|done| |done..]. rewrite Hn. done. }
      intros [Hwf ->]. destruct Hwf as (-> & (t & -> & Hwft) & Hl & Hall & -> & ->).
      destruct nested as [|n [|]]; [done| |done]. simpl in *. naive_solver.
    + intros [tag bits types nested symbol text]; unfold wf_constant_body; simpl.
      intros [Hwf ->]. destruct Hwf as (-> & (t & -> & Hwft) & Hl & Hall & -> & ->).
      destruct nested as [|n [|]]; [done| |done]. unfold enc_constant_body. simpl.
      by rewrite !app_nil_r.
    + intros t _. apply (codec_last constant_nested); [done|].
      intros n c. split; [naive_solver|by intros ->].
  - by apply (codec_constant_one constant_symbol _ _ _ _ _ _ codec_symbol); [..|constant_shape].
  - by apply (codec_constant_one c_text _ _ _ _ _ _ codec_utf8); [..|constant_shape].
Qed.

Lemma enc_constant_unfold c : enc_constant c = enc_tag 1 (c_tag c) ++ enc_constant_body enc_constant c.
Proof. by destruct c. Qed.

Lemma wf_constant_at_unfold r depth c :
  wf_constant_at r depth c ↔ depth <= max_nesting_depth o ∧
    wf_constant_body (wf_type_at r (depth + 1)) (wf_constant_at r (depth + 1)) c.
Proof. by destruct c. Qed.

Lemma codec_constant_at r fuel depth :
  (N.to_nat (max_nesting_depth o + 1 - depth) < fuel)%nat →
  Codec o (read_constant_at isLegalUTF8String r fuel depth) enc_constant (wf_constant_at r depth).
Proof.
  revert depth. induction fuel as [|fuel IH]; intros depth Hfuel; [lia|].
  simpl. apply codec_options, codec_offset. intros here.
  eapply codec_iff; [intros c; symmetry; apply (wf_constant_at_unfold r depth c)
                    |intros c _; symmetry; apply enc_constant_unfold|].
  eapply codec_iff; [| |apply codec_fail_if with (Q := λ _, True)
    (wf := wf_constant_body (wf_type_at r (depth + 1)) (wf_constant_at r (depth + 1)))];
    [intros c; cbv beta; rewrite N.ltb_ge; naive_solver|done|].
  intros Hdepth%N.ltb_ge. apply (codec_bind_free c_tag); [auto with codec_db|intros tag].
  eapply codec_iff; [| |apply codec_constant_body; [apply codec_type_from|apply IH; lia]];
    naive_solver.
Qed.

Lemma codec_constant r : Codec o (read_constant isLegalUTF8String r) enc_constant (wf_constant r).
Proof. apply codec_options, codec_constant_at. unfold nesting_fuel. lia. Qed.

(** ** Declarations *)

Definition wf_source (s : source) : Prop := wf_identity (src_id s) ∧ wf_blob (o:=o) (src_utf8 s).

Definition wf_field (r : payload_reader) (f : field) : Prop :=
  wf_symbol (fld_id f) ∧ wf_type r (fld_value_type f) ∧ wf_option wf_location (fld_location f).

Definition wf_method (m : method) : Prop :=
  wf_symbol (mth_function_id m) ∧ wf_option wf_symbol (mth_dispatch_slot m) ∧
  wf_option wf_location (mth_location m).

Definition any {A} (_ : A) : Prop := True.

Definition wf_class (r : payload_reader) (c : class_declaration) : Prop :=
  wf_symbol (cls_id c) ∧ wf_option wf_symbol (cls_base c) ∧
  wf_gate (retained_modules_ r) any false (cls_retained c) ∧
  wf_vector (o:=o) (wf_field r) (cls_fields c) ∧ wf_vector (o:=o) wf_method (cls_methods c) ∧
  wf_option wf_location (cls_location c).

Definition wf_global (r : payload_reader) (g : global_declaration) : Prop :=
  wf_symbol (glb_id g) ∧ wf_type r (glb_value_type g) ∧ wf_constant r (glb_initializer g) ∧
  wf_option wf_location (glb_location g).

Definition wf_requirement (q : runtime_requirement) : Prop :=
  below u16_max (rr_abi_major q) ∧ below u16_max (rr_abi_minor q) ∧ below u64_max (rr_feature_bits q).

Definition wf_effects (effects : N) : Prop := effects <= u32_max ∧ N.ldiff effects all_effects = 0.

Definition wf_import (r : payload_reader) (i : import_declaration) : Prop :=
  wf_symbol (imp_id i) ∧ wf_vector (o:=o) (wf_type r) (imp_parameter_types i) ∧
  wf_type r (imp_result_type i) ∧ wf_string (imp_link_name i) ∧ wf_effects (imp_effects i) ∧
  wf_option wf_requirement (imp_minimum_runtime i) ∧ wf_option wf_location (imp_location i) ∧
  wf_gate (native_libraries_ r) wf_string "" (imp_native_library i).

Definition wf_value (r : payload_reader) (v : value_definition) : Prop :=
  below i32_max (val_id v) ∧ wf_type r (val_value_type v).

Definition wf_parameter (r : payload_reader) (p : block_parameter) : Prop :=
  below i32_max (par_id p) ∧ wf_type r (par_value_type p) ∧ wf_option wf_location (par_location p).

Definition wf_edge (e : edge) : Prop :=
  below i32_max (edge_target e) ∧ wf_vector (o:=o) (below i32_max) (edge_arguments e).

Definition wf_opcode (r : payload_reader) (opcode : neri_ir_opcode_v1) : Prop :=
  c_function_opcode opcode && negb (c_interop_ r) = false.

Definition wf_instruction (r : payload_reader) (i : instruction) : Prop :=
  wf_opcode r (ins_opcode i) ∧ wf_vector (o:=o) (wf_value r) (ins_results i) ∧
  wf_vector (o:=o) (below i32_max) (ins_operands i) ∧
  wf_vector (o:=o) (wf_type r) (ins_type_arguments i) ∧
  wf_option wf_symbol (ins_symbol i) ∧ wf_option (wf_constant r) (ins_constant_value i) ∧
  wf_option any (ins_predicate i) ∧ wf_option wf_location (ins_location i) ∧
  wf_gate (supports r DebugScopes) (below i32_max) 0 (ins_debug_scope_id i).

(** The fields a terminator of each tag carries; the others are empty. *)
Definition wf_terminator_body (tag : neri_ir_terminator_tag_v1) (b : terminator_body) : Prop :=
  let '(condition, edges, return_value, code, message) := b in
  match tag with
  | NERI_IR_TERMINATOR_BRANCH_V1 =>
      condition = None ∧ (∃ e, edges = [e] ∧ wf_edge e) ∧ return_value = None ∧
      code = "" ∧ message = ""
  | NERI_IR_TERMINATOR_CONDITIONAL_BRANCH_V1 =>
      (∃ v, condition = Some v ∧ below i32_max v) ∧
      (∃ e1 e2, edges = [e1; e2] ∧ wf_edge e1 ∧ wf_edge e2) ∧ return_value = None ∧
      code = "" ∧ message = ""
  | NERI_IR_TERMINATOR_RETURN_V1 =>
      condition = None ∧ edges = [] ∧ wf_option (below i32_max) return_value ∧
      code = "" ∧ message = ""
  | NERI_IR_TERMINATOR_PANIC_V1 =>
      condition = None ∧ edges = [] ∧ return_value = None ∧ wf_string code ∧ wf_string message
  end.

Definition wf_terminator (r : payload_reader) (t : terminator) : Prop :=
  wf_terminator_body (trm_tag t) (trm_body t) ∧ wf_option wf_location (trm_location t) ∧
  wf_gate (supports r DebugScopes) (below i32_max) 0 (trm_debug_scope_id t).

Definition wf_block (r : payload_reader) (b : block) : Prop :=
  below i32_max (blk_id b) ∧ wf_vector (o:=o) (wf_parameter r) (blk_parameters b) ∧
  wf_vector (o:=o) (wf_instruction r) (blk_instructions b) ∧ wf_terminator r (blk_ending b).

Definition wf_debug_scope (s : debug_scope) : Prop :=
  below i32_max (ds_id s) ∧ below i32_max (ds_parent_id s) ∧ wf_location (ds_location s).

Definition wf_debug_local (r : payload_reader) (l : debug_local) : Prop :=
  wf_string (dl_name l) ∧ below i32_max (dl_value l) ∧
  wf_gate (supports r DebugScopes) (below i32_max) 0 (dl_scope_id l) ∧ wf_location (dl_location l).

Definition wf_function (r : payload_reader) (f : function) : Prop :=
  wf_symbol (fn_id f) ∧ wf_vector (o:=o) (wf_type r) (fn_parameter_types f) ∧
  wf_type r (fn_result_type f) ∧ wf_effects (fn_effects f) ∧
  wf_gate (retained_modules_ r) any false (fn_retained f) ∧
  wf_gate (c_interop_ r) wf_string "" (fn_export_name f) ∧ below i32_max (fn_entry_block f) ∧
  wf_option (wf_value r) (fn_unsafe_root f) ∧ wf_option wf_symbol (fn_declaring_class f) ∧
  wf_option wf_symbol (fn_dispatch_slot f) ∧ wf_option wf_location (fn_location f) ∧
  wf_vector (o:=o) (wf_block r) (fn_blocks f) ∧
  wf_gate (supports r DebugScopes) (wf_vector (o:=o) wf_debug_scope) [] (fn_debug_scopes f) ∧
  wf_gate (1 <=? transport_minor_ r) (wf_vector (o:=o) (wf_debug_local r)) [] (fn_debug_locals f).

Definition wf_native_record (r : payload_reader) (n : native_record) : Prop :=
  wf_symbol (nr_id n) ∧ wf_vector (o:=o) (wf_field r) (nr_fields n).

Definition wf_session (r : payload_reader) (s : session_export) : Prop :=
  wf_symbol (ses_entry s) ∧ wf_type r (ses_source_type s) ∧ wf_type r (ses_target_type s) ∧
  wf_gate (retained_modules_ r) wf_identity "" (ses_artifact_identity s).

(** ** Codecs of the declarations: one line per field *)

#[local] Hint Resolve codec_utf8 codec_identity codec_symbol codec_location codec_type
  codec_constant codec_gate codec_vector : codec_db.
#[local] Hint Extern 1 (Codec _ (read_optional _) _ _) => apply codec_optional : codec_db.

Lemma app_not_nil_l {A} (l k : list A) : l ≠ [] → l ++ k ≠ [].
Proof. by destruct l. Qed.

Lemma le_split_not_nil n w : le_split (S n) w ≠ [].
Proof. intros H%(f_equal length). by rewrite length_le_split in H. Qed.

Lemma enc_string_not_nil s : enc_string s ≠ [].
Proof. apply app_not_nil_l, le_split_not_nil. Qed.

Lemma enc_symbol_not_nil s : enc_symbol s ≠ [].
Proof. apply app_not_nil_l, enc_string_not_nil. Qed.

#[local] Hint Resolve app_not_nil_l le_split_not_nil enc_string_not_nil enc_symbol_not_nil
  enc_type_not_nil enc_tag_not_nil enc_tag_app_not_nil : nonempty_db.

Ltac next proj := apply (codec_bind proj); [eauto with codec_db|intros ? _].
Ltac next_free proj := apply (codec_bind_free proj); [eauto with codec_db|intros ?].
Ltac record_shape :=
  intros ? []; simpl; split; [by intros; destruct_and?; subst|by intros [=]; subst].
Ltac final proj := apply (codec_last proj); [eauto with codec_db|record_shape].
Ltac vector := apply codec_vector; [eauto with codec_db|intros ? _; eauto with nonempty_db].

Lemma codec_access : Codec o read_access (enc_tag 1) (λ _, True).
Proof. by apply codec_tag8. Qed.
#[local] Hint Resolve codec_access : codec_db.

Lemma codec_source : Codec o (read_source isLegalUTF8String) enc_source wf_source.
Proof. apply codec_start. next src_id. final src_utf8. Qed.

Lemma codec_field r : Codec o (read_field isLegalUTF8String r) enc_field (wf_field r).
Proof.
  apply codec_start. next fld_id. next fld_value_type. next_free fld_access. final fld_location.
Qed.

Lemma codec_method : Codec o (read_method isLegalUTF8String) enc_method wf_method.
Proof.
  apply codec_start. next mth_function_id. next_free mth_dispatch. next mth_dispatch_slot.
  final mth_location.
Qed.

Lemma enc_field_not_nil f : enc_field f ≠ [].
Proof. unfold enc_field. auto with nonempty_db. Qed.
Lemma enc_method_not_nil m : enc_method m ≠ [].
Proof. unfold enc_method. auto with nonempty_db. Qed.
#[local] Hint Resolve codec_source codec_field codec_method : codec_db.
#[local] Hint Resolve enc_field_not_nil enc_method_not_nil : nonempty_db.

Lemma codec_class r : Codec o (read_class isLegalUTF8String r) (enc_class r) (wf_class r).
Proof.
  apply codec_start. next cls_id. next cls_base. next_free cls_access.
  apply (codec_bind cls_retained); [apply codec_gate, codec_boolean|intros ? _].
  apply (codec_bind cls_fields); [vector|intros ? _].
  apply (codec_bind cls_methods); [vector|intros ? _].
  final cls_location.
Qed.

Lemma codec_global r : Codec o (read_global isLegalUTF8String r) enc_global (wf_global r).
Proof.
  apply codec_start. next glb_id. next glb_value_type. next glb_initializer. next_free glb_linkage.
  final glb_location.
Qed.

Lemma codec_requirement : Codec o read_requirement enc_requirement wf_requirement.
Proof.
  apply codec_start. apply (codec_bind rr_abi_major); [apply codec_u16|intros ? _].
  apply (codec_bind rr_abi_minor); [apply codec_u16|intros ? _].
  apply (codec_last rr_feature_bits); [apply codec_u64|record_shape].
Qed.
#[local] Hint Resolve codec_requirement : codec_db.

Lemma codec_import r : Codec o (read_import isLegalUTF8String r) (enc_import r) (wf_import r).
Proof.
  apply codec_start. next imp_id.
  apply (codec_bind imp_parameter_types); [vector|intros ? _].
  next imp_result_type. next_free imp_kind. next imp_link_name.
  apply (codec_bind imp_effects); [apply codec_effects|intros ? _].
  next imp_minimum_runtime. next imp_location. final imp_native_library.
Qed.

Lemma codec_value r : Codec o (read_value_definition isLegalUTF8String r) enc_value (wf_value r).
Proof.
  apply codec_start. apply (codec_bind val_id); [apply codec_model_id|intros ? _].
  final val_value_type.
Qed.

Lemma codec_parameter r :
  Codec o (read_block_parameter isLegalUTF8String r) enc_parameter (wf_parameter r).
Proof.
  apply codec_start. apply (codec_bind par_id); [apply codec_model_id|intros ? _].
  next par_value_type. final par_location.
Qed.

Lemma codec_ids d : Codec o (read_vector d (model_id "value ID")) (enc_vector (le_split 4))
  (wf_vector (o:=o) (below i32_max)).
Proof. apply codec_vector; [apply codec_model_id|auto with nonempty_db]. Qed.

Lemma codec_edge : Codec o read_edge enc_edge wf_edge.
Proof.
  apply codec_start. apply (codec_bind edge_target); [apply codec_model_id|intros ? _].
  apply (codec_last edge_arguments); [apply codec_ids|record_shape].
Qed.

Lemma codec_scope_id r d :
  Codec o (read_scope_id r d) (enc_gate (supports r DebugScopes) (le_split 4))
    (wf_gate (supports r DebugScopes) (below i32_max) 0).
Proof. apply codec_gate, codec_model_id. Qed.
#[local] Hint Resolve codec_value codec_parameter codec_ids codec_edge codec_scope_id : codec_db.

Lemma enc_value_not_nil v : enc_value v ≠ [].
Proof. unfold enc_value. auto with nonempty_db. Qed.
Lemma enc_parameter_not_nil p : enc_parameter p ≠ [].
Proof. unfold enc_parameter. auto with nonempty_db. Qed.
#[local] Hint Resolve enc_value_not_nil enc_parameter_not_nil : nonempty_db.

(** ** Functions *)

Lemma codec_opcode off :
  Codec o (opcode16 ← u16; lift (decode_contiguous_tag opcode16 NERI_IR_OPCODE_CONSTANT_V1
             NERI_IR_OPCODE_CLASS_CHECKED_CAST_V1 "opcode" off)) (enc_tag 2) (λ _, True).
Proof.
  apply (codec_tag u16 2 (λ w, w <= u16_max)); [apply codec_u16| | |by intros []].
  - intros n t. by apply decode_contiguous_tag_spec.
  - intros n. by apply decode_contiguous_tag_defined.
Qed.

Lemma codec_instruction r :
  Codec o (read_instruction isLegalUTF8String r) (enc_instruction r) (wf_instruction r).
Proof.
  apply codec_start, codec_offset. intros off.
  apply (codec_assoc u16 (λ opcode16, lift (decode_contiguous_tag opcode16 _ _ _ off))).
  apply (codec_bind_free ins_opcode); [apply codec_opcode|intros opcode].
  apply codec_guard; [|unfold wf_opcode; by intros i [-> _]].
  intros _.
  apply (codec_bind ins_results); [vector|intros ? _].
  next ins_operands. apply (codec_bind ins_type_arguments); [vector|intros ? _].
  next ins_symbol. next ins_constant_value. next ins_predicate. next_free ins_flag.
  next ins_location. final ins_debug_scope_id.
Qed.

(** Accessors of a terminator body, total through a default. *)
Definition body_condition (b : terminator_body) : N := default 0 b.1.1.1.1.
Definition body_edge (n : nat) (b : terminator_body) : edge :=
  default (mk_edge 0 []) (b.1.1.1.2 !! n).
Definition body_return (b : terminator_body) : option N := b.1.1.2.
Definition body_code (b : terminator_body) : string := b.1.2.
Definition body_message (b : terminator_body) : string := b.2.

Lemma codec_terminator_body tag :
  Codec o (read_terminator_body isLegalUTF8String tag) (enc_terminator_body tag)
    (wf_terminator_body tag).
Proof.
  destruct tag; simpl.
  - eapply codec_iff; [| |apply (codec_last (body_edge 0) _ _ _ _
      (λ b, b = (None, [body_edge 0 b], None, "", "")) codec_edge)].
    + intros [[[[c es] rv] code] msg]. cbn. naive_solver.
    + intros [[[[c es] rv] code] msg]. cbn. intros (-> & (e & -> & _) & _). simpl. by rewrite app_nil_r.
    + intros e b. split; [by intros [<- ->]|by intros ->].
  - eapply codec_iff; [| |apply codec_start; apply (codec_bind body_condition _ _ (le_split 4)
      (λ b, enc_edge (body_edge 0 b) ++ enc_edge (body_edge 1 b)) (below i32_max)
      (λ b, (wf_edge (body_edge 0 b) ∧ wf_edge (body_edge 1 b)) ∧
         b = (Some (body_condition b), [body_edge 0 b; body_edge 1 b], None, "", "")));
      [apply codec_model_id|intros v _]].
    + intros [[[[c es] rv] code] msg]. cbn. naive_solver.
    + intros [[[[c es] rv] code] msg]. cbn. intros ((v & -> & _) & (e1 & e2 & -> & _) & _).
      simpl. by rewrite app_nil_r.
    + eapply codec_iff; [| |apply (codec_bind (body_edge 0) _ _ enc_edge
        (λ b, enc_edge (body_edge 1 b)) wf_edge (λ b, wf_edge (body_edge 1 b))
        (λ b, b = (Some v, [body_edge 0 b; body_edge 1 b], None, "", "")) codec_edge)];
        [|done|].
      { intros [[[[c es] rv] code] msg]. cbn. split.
        - intros [[? ?] [= -> -> -> -> ->]]. done.
        - intros [[[? ?] [= -> -> -> -> ->]] [<- _]]. done. }
      intros e1 _. apply (codec_last (body_edge 1)); [apply codec_edge|].
      intros e2 b. split; [by intros (<- & <- & ->)|by intros ->].
  - eapply codec_iff; [| |apply (codec_last body_return _ _ _ _
      (λ b, b = (None, [], body_return b, "", "")) (codec_optional _ _ _ (codec_model_id _)))].
    + intros [[[[c es] rv] code] msg]. cbn. naive_solver.
    + by intros [[[[c es] rv] code] msg].
    + intros e b. split; [by intros [<- ->]|by intros ->].
  - eapply codec_iff; [| |apply (codec_bind body_code _ _ _ (λ b, enc_string (body_message b)) _
      (λ b, wf_string (body_message b)) (λ b, b = (None, [], None, body_code b, body_message b))
      codec_utf8)].
    + intros [[[[c es] rv] code] msg]. cbn. naive_solver.
    + by intros [[[[c es] rv] code] msg].
    + intros code _. apply (codec_last body_message); [apply codec_utf8|].
      intros e b. split; [by intros (<- & <- & ->)|by intros ->].
Qed.

Lemma codec_terminator r :
  Codec o (read_terminator isLegalUTF8String r) (enc_terminator r) (wf_terminator r).
Proof.
  apply codec_start. next_free trm_tag. rename a into tag.
  eapply codec_iff; [| |apply (codec_bind trm_body _ _ (enc_terminator_body tag)
    (λ t, enc_option enc_location (trm_location t) ++
          enc_gate (supports r DebugScopes) (le_split 4) (trm_debug_scope_id t))
    (wf_terminator_body tag)
    (λ t, wf_option wf_location (trm_location t) ∧
          wf_gate (supports r DebugScopes) (below i32_max) 0 (trm_debug_scope_id t))
    (λ t, trm_tag t = tag ∧ True) (codec_terminator_body tag))].
  - intros t. split; intros [[? ?] [<- _]]; done.
  - intros t [_ [<- _]]. done.
  - intros [[[[c es] rv] code] msg] _. next trm_location. apply (codec_last trm_debug_scope_id);
      [eauto with codec_db|].
    intros n []; unfold trm_body; simpl. split; [intros (-> & -> & [=] & -> & _); by subst|by intros [=]; subst].
Qed.

Lemma enc_instruction_not_nil r i : enc_instruction r i ≠ [].
Proof. unfold enc_instruction. auto with nonempty_db. Qed.
#[local] Hint Resolve codec_instruction codec_terminator : codec_db.
#[local] Hint Resolve enc_instruction_not_nil : nonempty_db.

Lemma codec_block r : Codec o (read_block isLegalUTF8String r) (enc_block r) (wf_block r).
Proof.
  apply codec_start. apply (codec_bind blk_id); [apply codec_model_id|intros ? _].
  apply (codec_bind blk_parameters); [vector|intros ? _].
  apply (codec_bind blk_instructions); [vector|intros ? _].
  final blk_ending.
Qed.

Lemma codec_require_location msg :
  Codec o (require_location isLegalUTF8String msg) enc_required_location wf_location.
Proof.
  eapply codec_iff; [| |apply (codec_bind Some _ _ _ (λ _, []) _ (λ _, True) (λ _, True)
    codec_location)]; [simpl; naive_solver|intros; apply app_nil_r|].
  intros x _. apply codec_offset. intros off. destruct x as [l|].
  - eapply codec_iff; [| |apply (codec_ret l (λ a, a = l))]; naive_solver.
  - split; [done|naive_solver|]. intros c _ what. discriminate.
Qed.
#[local] Hint Resolve codec_require_location : codec_db.

Lemma codec_debug_scope :
  Codec o (read_debug_scope isLegalUTF8String) enc_debug_scope wf_debug_scope.
Proof.
  apply codec_start. apply (codec_bind ds_id); [apply codec_model_id|intros ? _].
  apply (codec_bind ds_parent_id); [apply codec_model_id|intros ? _].
  apply (codec_last ds_location); [apply codec_require_location|record_shape].
Qed.

Lemma codec_debug_local r :
  Codec o (read_debug_local isLegalUTF8String r) (enc_debug_local r) (wf_debug_local r).
Proof.
  apply codec_start. next dl_name. apply (codec_bind dl_value); [apply codec_model_id|intros ? _].
  next dl_scope_id. apply (codec_last dl_location); [apply codec_require_location|record_shape].
Qed.

Lemma enc_block_not_nil r b : enc_block r b ≠ [].
Proof. unfold enc_block. auto with nonempty_db. Qed.
Lemma enc_debug_scope_not_nil s : enc_debug_scope s ≠ [].
Proof. unfold enc_debug_scope. auto with nonempty_db. Qed.
Lemma enc_debug_local_not_nil r l : enc_debug_local r l ≠ [].
Proof. unfold enc_debug_local. auto with nonempty_db. Qed.
#[local] Hint Resolve codec_block codec_debug_scope codec_debug_local : codec_db.
#[local] Hint Resolve enc_block_not_nil enc_debug_scope_not_nil enc_debug_local_not_nil
  : nonempty_db.

Lemma codec_function r : Codec o (read_function isLegalUTF8String r) (enc_function r) (wf_function r).
Proof.
  apply codec_start. next fn_id.
  apply (codec_bind fn_parameter_types); [vector|intros ? _].
  next fn_result_type. next_free fn_kind.
  apply (codec_bind fn_effects); [apply codec_effects|intros ? _].
  next_free fn_unsafe_call.
  apply (codec_bind fn_retained); [apply codec_gate, codec_boolean|intros ? _].
  next fn_export_name. apply (codec_bind fn_entry_block); [apply codec_model_id|intros ? _].
  next fn_unsafe_root. next fn_declaring_class. next fn_dispatch_slot. next fn_location.
  apply (codec_bind fn_blocks); [vector|intros ? _].
  apply (codec_bind fn_debug_scopes); [apply codec_gate; vector|intros ? _].
  apply (codec_last fn_debug_locals); [apply codec_gate; vector|record_shape].
Qed.

Lemma codec_native_record r :
  Codec o (read_native_record isLegalUTF8String r) enc_native_record (wf_native_record r).
Proof.
  apply codec_start. next nr_id. next_free nr_is_union.
  apply (codec_last nr_fields); [vector|record_shape].
Qed.

Lemma codec_session r : Codec o (read_session isLegalUTF8String r) (enc_session r) (wf_session r).
Proof.
  apply codec_start. next ses_entry. next ses_source_type. next ses_target_type.
  final ses_artifact_identity.
Qed.

Lemma enc_source_not_nil s : enc_source s ≠ [].
Proof. unfold enc_source. auto with nonempty_db. Qed.
Lemma enc_class_not_nil r c : enc_class r c ≠ [].
Proof. unfold enc_class. auto with nonempty_db. Qed.
Lemma enc_global_not_nil g : enc_global g ≠ [].
Proof. unfold enc_global. auto with nonempty_db. Qed.
Lemma enc_import_not_nil r i : enc_import r i ≠ [].
Proof. unfold enc_import. auto with nonempty_db. Qed.
Lemma enc_function_not_nil r f : enc_function r f ≠ [].
Proof. unfold enc_function. auto with nonempty_db. Qed.
Lemma enc_native_record_not_nil n : enc_native_record n ≠ [].
Proof. unfold enc_native_record. auto with nonempty_db. Qed.
#[local] Hint Resolve codec_class codec_global codec_import codec_function codec_native_record
  codec_session : codec_db.
#[local] Hint Resolve enc_source_not_nil enc_class_not_nil enc_global_not_nil
  enc_import_not_nil enc_function_not_nil enc_native_record_not_nil : nonempty_db.

(** ** Required features *)

Definition wf_feature (f : ir_feature) : Prop := wf_string (ir_feature_name f).

(** The features a module requires: known to the transport, sorted and distinct. *)
Definition wf_features (transport_minor : N) (features : list ir_feature) : Prop :=
  wf_vector (o:=o) wf_feature features ∧
  Forall (λ f, fc_transport_minor (ir_feature_metadata f) <= transport_minor) features ∧
  features_sorted features = true ∧ adjacent_duplicate features = false.

Lemma codec_feature : Codec o (read_feature isLegalUTF8String) enc_feature wf_feature.
Proof.
  apply codec_offset. intros off.
  eapply codec_iff; [| |apply (codec_bind ir_feature_name _ _ enc_string (λ _, []) wf_string
    (λ f, canonical_feature_name (ir_feature_name f) = true ∧ True) (λ _, True) codec_utf8)].
  - intros f. unfold wf_feature. split; [naive_solver|]. intros ?. split_and!; try done. by destruct f.
  - intros f _. apply app_nil_r.
  - intros name _. apply codec_guard; [|intros f [-> _]; by rewrite negb_false_iff].
    intros _. destruct (ir_feature_from_name name) as [f|] eqn:Hf.
    + eapply codec_iff; [| |apply (codec_ret f (λ g, ir_feature_name g = name))]; [naive_solver|done|].
      intros g. split; [|intros ->; by apply ir_feature_name_from_name].
      intros <-. rewrite ir_feature_from_name_name in Hf. by injection Hf.
    + split; [done| |intros c _ what; discriminate].
      intros c f tl _ _ (_ & <- & _). by rewrite ir_feature_from_name_name in Hf.
Qed.

Lemma ir_feature_eqb_sym f g : ir_feature_eqb f g = ir_feature_eqb g f.
Proof. apply bool_decide_ext. naive_solver. Qed.

Definition add_features (features : list ir_feature) (r : payload_reader) : payload_reader :=
  mk_payload_reader (transport_minor_ r)
    (native_libraries_ r || has_feature features NativeLibraries)
    (native_records_ r || has_feature features NativeRecords)
    (session_module_ r || has_feature features SessionModule)
    (retained_modules_ r || has_feature features RetainedModules)
    (c_interop_ r || has_feature features CInterop).

Lemma enable_feature_Ok f r here r' :
  enable_feature f r here = Ok r' ↔
  fc_transport_minor (ir_feature_metadata f) <= transport_minor_ r ∧ r' = add_features [f] r.
Proof.
  unfold enable_feature, add_features. simpl. rewrite !orb_false_r.
  rewrite (ir_feature_eqb_sym NativeLibraries), (ir_feature_eqb_sym NativeRecords),
    (ir_feature_eqb_sym SessionModule), (ir_feature_eqb_sym RetainedModules),
    (ir_feature_eqb_sym CInterop).
  destruct (N.ltb_spec (transport_minor_ r) (fc_transport_minor (ir_feature_metadata f))); simpl.
  - split; [done|lia].
  - naive_solver.
Qed.

(** The loop over the features turns on exactly the flags of those listed. *)
Lemma enable_features_Ok features r here r' :
  for_state features r (λ feature r, enable_feature feature r here) = Ok r' ↔
  Forall (λ f, fc_transport_minor (ir_feature_metadata f) <= transport_minor_ r) features ∧
  r' = add_features features r.
Proof.
  revert r. induction features as [|f fs IH]; intros r; simpl.
  - unfold add_features. simpl. rewrite !orb_false_r. destruct r. simpl. naive_solver.
  - rewrite Forall_cons.
    assert (add_features fs (add_features [f] r) = add_features (f :: fs) r) as Hadd
      by (unfold add_features; simpl; by rewrite !orb_false_r, !orb_assoc).
    split.
    + intros (r1 & [Hf ->]%enable_feature_Ok & [Hfs ->]%IH)%bind_Ok_inv. by rewrite <-Hadd.
    + intros [[Hf Hfs] ->]. rewrite (proj2 (enable_feature_Ok f r here _) (conj Hf eq_refl)).
      simpl. apply IH. by rewrite Hadd.
Qed.

Lemma enable_features_defined features r here :
  defined (for_state features r (λ feature r, enable_feature feature r here)).
Proof.
  apply (for_state_defined (λ _, True)); [|done]. intros f r0 _ _. split; [|done].
  unfold enable_feature. auto with defined_db.
Qed.

Lemma codec_lift {A B} (m : result A) (k : A → reader B) enc wf :
  defined m → (∀ a, m = Ok a → Codec o (k a) enc wf) → (∀ b, wf b → ∃ a, m = Ok a) →
  Codec o (lift m ≫= k) enc wf.
Proof.
  intros Hd Hk Hwf. destruct m as [a|e].
  - apply codec_ext with (q := k a); [done|]. by apply Hk.
  - split; [done| |].
    + intros c b tl _ _ [a [=]]%Hwf.
    + intros c _ what. simpl. intros [= ->]. by apply (Hd what).
Qed.

Definition initial_reader (transport_minor : N) : payload_reader :=
  mk_payload_reader transport_minor false false false false false.

Lemma codec_features minor :
  Codec o (read_features isLegalUTF8String (initial_reader minor))
    (λ p, enc_vector enc_feature p.1)
    (λ p, wf_features minor p.1 ∧ p.2 = module_reader minor p.1).
Proof.
  eapply codec_iff; [| |apply (codec_bind fst _ _ (enc_vector enc_feature) (λ _, [])
    (wf_vector (o:=o) wf_feature)
    (λ p, Forall (λ f, fc_transport_minor (ir_feature_metadata f) <= minor) p.1 ∧
          (features_sorted p.1 = true ∧ adjacent_duplicate p.1 = false) ∧
          p.2 = module_reader minor p.1) (λ _, True))].
  - unfold wf_features. naive_solver.
  - intros p _. apply app_nil_r.
  - apply codec_vector; [apply codec_feature|intros f _; apply enc_string_not_nil].
  - intros fs _. apply codec_offset. intros off.
    apply codec_lift; [apply enable_features_defined| |].
    + intros r [Hsup ->]%enable_features_Ok. simpl in Hsup |- *.
      eapply codec_iff; [| |apply codec_fail_if with (wf := λ _, True)
        (Q := λ p, p = (fs, module_reader minor fs))]; [|done|].
      * intros [gs r]. simpl. rewrite orb_false_iff, negb_false_iff. naive_solver.
      * intros _. apply codec_ret. done.
    + intros [gs r] ((Hall & _ & _) & [Hfs _]). simpl in *. subst gs.
      eexists. apply enable_features_Ok. done.
Qed.

(** ** Modules *)

Definition wf_session_field (r : payload_reader) (x : option session_export) : Prop :=
  if session_module_ r then ∃ s, x = Some s ∧ wf_session r s else x = None.

Definition wf_declarations (r : payload_reader) (m : ir_module) : Prop :=
  wf_vector (o:=o) wf_source (mod_sources m) ∧ wf_vector (o:=o) (wf_class r) (mod_classes m) ∧
  wf_vector (o:=o) (wf_global r) (mod_globals m) ∧ wf_vector (o:=o) (wf_import r) (mod_imports m) ∧
  wf_vector (o:=o) (wf_function r) (mod_functions m) ∧
  wf_gate (native_records_ r) (wf_vector (o:=o) (wf_native_record r)) [] (mod_native_records m) ∧
  wf_session_field r (mod_session m).

(** A module the transport of the given minor version can carry. *)
Definition wf_module (transport_minor : N) (m : ir_module) : Prop :=
  below u16_max (v_major (mod_semantic_version m)) ∧
  below u16_max (v_minor (mod_semantic_version m)) ∧ wf_identity (mod_id m) ∧
  wf_features transport_minor (mod_required_features m) ∧
  wf_declarations (module_reader transport_minor (mod_required_features m)) m.

Lemma codec_session_field r :
  Codec o (if session_module_ r
           then (s ← read_session isLegalUTF8String r; mret (Some s)) else mret None)
    (enc_session_field r) (wf_session_field r).
Proof.
  unfold wf_session_field. destruct (session_module_ r).
  - set (get := λ x : option session_export,
      default (mk_session (mk_symbol "" NERI_IR_SYMBOL_CLASS_V1 "") void_type void_type "") x).
    eapply codec_iff; [| |apply (codec_last get _ Some _ _ (λ x, x = Some (get x))
      (codec_session r))].
    + intros x. split; [naive_solver|]. by intros (s & -> & Hs).
    + by intros x (s & -> & _).
    + intros s x. split; [by intros [<- ?]|by intros ->].
  - eapply codec_iff; [| |apply (codec_ret None (λ x, x = None))]; [naive_solver|by intros x ->|done].
Qed.
#[local] Hint Resolve codec_session_field : codec_db.

Definition module_features (minor : N) (m : ir_module) : list ir_feature * payload_reader :=
  (mod_required_features m, module_reader minor (mod_required_features m)).

Lemma codec_module minor :
  Codec o (read_module_fields isLegalUTF8String (initial_reader minor)) (encode_payload minor)
    (wf_module minor).
Proof.
  apply codec_start.
  apply (codec_bind (λ m, v_major (mod_semantic_version m))); [apply codec_u16|intros major _].
  apply (codec_bind (λ m, v_minor (mod_semantic_version m))); [apply codec_u16|intros vminor _].
  next mod_id. rename a into id.
  set (Q := λ m, v_minor (mod_semantic_version m) = vminor ∧ v_major (mod_semantic_version m) = major ∧ True).
  eapply codec_iff; [| |apply (codec_bind (module_features minor) _ _
    (λ p, enc_vector enc_feature p.1)
    (λ m, enc_declarations (module_reader minor (mod_required_features m)) m) _
    (λ m, wf_declarations (module_reader minor (mod_required_features m)) m)
    (λ m, mod_id m = id ∧ Q m) (codec_features minor))].
  - intros m. cbv beta. unfold module_features. simpl. subst Q. naive_solver.
  - done.
  - intros [fs r] [_ Hr]. simpl in Hr. subst r. set (r := module_reader minor fs).
    eapply codec_iff with (enc := enc_declarations r)
      (wf := λ m, wf_declarations r m ∧ (mod_required_features m = fs ∧ mod_id m = id ∧ Q m)).
    + intros m. unfold module_features. subst r. naive_solver.
    + intros m [_ [[= -> _] _]]. done.
    + apply (codec_bind mod_sources); [apply codec_vector; eauto with codec_db nonempty_db|intros ? _].
      apply (codec_bind mod_classes); [vector|intros ? _].
      apply (codec_bind mod_globals); [vector|intros ? _].
      apply (codec_bind mod_imports); [vector|intros ? _].
      apply (codec_bind mod_functions); [vector|intros ? _].
      apply (codec_bind mod_native_records); [apply codec_gate; vector|intros ? _].
      apply (codec_last mod_session); [apply codec_session_field|]. subst Q.
      intros ? [[]]; simpl; split; [by intros; destruct_and?; subst|by intros [=]; subst].
Qed.

Lemma require_end_run c :
  cursor_ok o c →
  (rest c = [] → require_end c = Ok (tt, c)) ∧
  (∀ x, require_end c = Ok x → rest c = [] ∧ x = (tt, c)) ∧ defined (require_end c).
Proof.
  intros Hc. pose proof (remaining_rest _ _ Hc) as Hrem.
  unfold require_end, remaining, offset, mbind, reader_bind, fail_if. simpl. rewrite Hrem.
  destruct (rest c); unfold length_N; simpl; split_and!; try done. by intros x [= <-].
Qed.

(** The reader accepts exactly the encodings of well-formed modules. *)
Lemma read_payload_iff minor payload m :
  read_payload isLegalUTF8String o minor payload = Ok m ↔
  wf_module minor m ∧ payload = encode_payload minor m.
Proof.
  set (c := mk_cursor payload o NERI_IR_HEADER_SIZE_V1 0).
  assert (cursor_ok o c) as Hc by (split; [done|unfold c; simpl; lia]).
  unfold read_payload, read_module. fold c. fold (initial_reader minor). split.
  - intros ([m' c'] & Hrun & [= ->])%bind_Ok_inv.
    apply bind_Ok_inv in Hrun as ([m1 c1] & Hfields & Hrun).
    destruct (codec_decode (codec_module minor) _ _ _ Hc Hfields) as (Hwf & tl & Hrest & ->).
    destruct (rest_advance _ _ _ _ Hc Hrest) as [Hc1 Hrest1].
    apply bind_Ok_inv in Hrun as ([[] c2] & Hend & [= <- <-]).
    destruct (require_end_run _ Hc1) as (_ & Hinv & _). apply Hinv in Hend as [Hnil _].
    rewrite Hnil in Hrest1. subst tl. split; [done|]. by rewrite app_nil_r in Hrest.
  - intros [Hwf ->].
    assert (rest c = encode_payload minor m ++ []) as Hrest by by rewrite app_nil_r.
    destruct (rest_advance _ _ _ _ Hc Hrest) as [Hc1 Hrest1].
    destruct (require_end_run _ Hc1) as (Hend & _). specialize (Hend Hrest1).
    pose proof (codec_encode (codec_module minor) c m [] Hc Hrest Hwf) as Hrun.
    unfold mbind, reader_bind. rewrite Hrun. simpl. by rewrite Hend.
Qed.

Lemma read_payload_safe minor payload : defined (read_payload isLegalUTF8String o minor payload).
Proof.
  set (c := mk_cursor payload o NERI_IR_HEADER_SIZE_V1 0).
  assert (cursor_ok o c) as Hc by (split; [done|unfold c; simpl; lia]).
  unfold read_payload, read_module. fold c. fold (initial_reader minor).
  apply defined_bind; [|intros [m c'] _; auto with defined_db].
  apply defined_bind; [by apply (codec_safe (codec_module minor))|]. intros [m c1] Hrun.
  destruct (codec_decode (codec_module minor) _ _ _ Hc Hrun) as (Hwf & tl & Hrest & ->).
  destruct (rest_advance _ _ _ _ Hc Hrest) as [Hc1 _].
  apply defined_bind; [by apply require_end_run|intros [[] c2] _ what; discriminate].
Qed.
End transport.

(** ** Properties *)

(** Payloads are canonical: the payload reader returns a module exactly when the module is
    one the transport version can carry and the payload is its encoding, with nothing
    before, between or after.  Reading therefore inverts encoding, and no module has
    two payloads. *)
Theorem payload_read_iff legal options minor payload m :
  (∀ l, legal l = true → well_formed_utf8 l) →
  read_payload legal options minor payload = Ok m ↔
  wf_module legal (o := options) minor m ∧ payload = encode_payload minor m.
Proof. intros Hlegal. by apply read_payload_iff. Qed.

Lemma payload_read_iff_witness : wf_module ascii_text (o := default_options) 8 Sample.app.
Proof.
  apply (payload_read_iff ascii_text default_options 8 (encode_payload 8 Sample.app) Sample.app
    ascii_text_sound). vm_compute. reflexivity.
Defined.
