(* ===== verification/Envelope.v ===== *)
(** * The module envelope ([native/codegen/ir_reader.cpp], [read_verified_module])

    The 56-byte header in front of a payload: magic, transport version, flags,
    payload length and SHA-256 digest.  [llvm::SHA256::hash] is a parameter; the
    theorems use only that a digest has 32 bytes. *)

From S2P Require Import Prelude Domains IR Reader Codec.

Local Open Scope string_scope.
Local Open Scope list_scope.
Local Open Scope N_scope.

(** [std::hex] of an unsigned integer. *)
Definition hex_digit (n : N) : string :=
  match n with
  | 10 => "a" | 11 => "b" | 12 => "c" | 13 => "d" | 14 => "e" | 15 => "f"
  | _ => to_string n
  end.

Fixpoint hex_digits (fuel : nat) (n : N) : string :=
  match fuel with
  | O => ""
  | S fuel => (if n <? 16 then "" else hex_digits fuel (n / 16)) +:+ hex_digit (n mod 16)
  end.

(** Eight digits are enough for a 32-bit word. *)
Definition to_hex32 (n : N) : string := hex_digits 8 n.

Definition malformed (message : string) (offset : N) : exn :=
  reader_error malformed_module message offset.

(** [digest_difference |= digest[index] ^ envelope[offset + index]], over the
    digest. *)
Definition digest_difference (digest envelope : list byte) : result N :=
  for_state (seq 0 (length digest)) 0 (λ index difference,
    d ← span_at digest (N.of_nat index);
    e ← span_at envelope (NERI_IR_DIGEST_OFFSET_V1 + N.of_nat index);
    Ok (N.lor difference (N.lxor d e))).

Section envelope.
(** [llvm::SHA256::hash]. *)
Variable SHA256_hash : list byte → list byte.

(** The header checks of [read_verified_module], up to the digest: the
    transport minor version and the payload span. *)
Definition read_envelope (input : list byte) (options : reader_options)
    : result (N * list byte) :=
  validate_options options;;
  when (max_input_bytes options <? length_N input)
    (malformed ("Input length " +:+ to_string (length_N input) +:+ " exceeds reader limit " +:+
                to_string (max_input_bytes options) +:+ ".") 0);;
  let envelope := input in
  when (length_N envelope <? NERI_IR_HEADER_SIZE_V1)
    (malformed "Input is shorter than the Neri IR envelope header." (length_N envelope));;
  when (negb (bool_decide (NERI_IR_MAGIC_V1 = take (length NERI_IR_MAGIC_V1) envelope)))
    (malformed "Neri IR magic is missing or corrupt." 0);;
  transport_major ← read_u16 envelope NERI_IR_VERSION_MAJOR_OFFSET_V1;
  transport_minor ← read_u16 envelope NERI_IR_VERSION_MINOR_OFFSET_V1;
  flags ← read_u32 envelope NERI_IR_FLAGS_OFFSET_V1;
  payload_length ← read_u64 envelope NERI_IR_PAYLOAD_LENGTH_OFFSET_V1;
  when (negb (transport_major =? NERI_IR_TRANSPORT_MAJOR_V1))
    (reader_error incompatible_major
       ("Transport major " +:+ to_string transport_major +:+
        " is incompatible with supported major " +:+
        to_string NERI_IR_TRANSPORT_MAJOR_V1 +:+ ".") NERI_IR_VERSION_MAJOR_OFFSET_V1);;
  when (NERI_IR_TRANSPORT_MINOR_V1 <? transport_minor)
    (reader_error unsupported_minor
       ("Transport minor " +:+ to_string transport_minor +:+
        " is newer than supported minor " +:+
        to_string NERI_IR_TRANSPORT_MINOR_V1 +:+ ".") NERI_IR_VERSION_MINOR_OFFSET_V1);;
  when (negb (flags =? 0))
    (reader_error unsupported_feature
       ("Unknown required envelope flags '0x" +:+ to_hex32 flags +:+ "'.")
       NERI_IR_FLAGS_OFFSET_V1);;
  when (max_input_bytes options - NERI_IR_HEADER_SIZE_V1 <? payload_length)
    (malformed ("Declared payload length " +:+ to_string payload_length +:+
                " exceeds reader limits.") NERI_IR_PAYLOAD_LENGTH_OFFSET_V1);;
  let expected_length := NERI_IR_HEADER_SIZE_V1 + payload_length in
  when (negb (length_N envelope =? expected_length))
    (malformed (if length_N envelope <? expected_length then "Payload is truncated."
                else "Envelope has trailing corruption bytes.")
       (N.min (length_N envelope) expected_length));;
  let payload := drop (N.to_nat NERI_IR_HEADER_SIZE_V1) envelope in
  let digest := SHA256_hash payload in
  difference ← digest_difference digest envelope;
  when (negb (difference =? 0))
    (malformed "Payload SHA-256 digest does not match the envelope." NERI_IR_DIGEST_OFFSET_V1);;
  Ok (transport_minor, payload).

(** The envelope of a payload, as the header layout prescribes it. *)
Definition encode_envelope (transport_minor : N) (payload : list byte) : list byte :=
  NERI_IR_MAGIC_V1 ++ le_split 2 NERI_IR_TRANSPORT_MAJOR_V1 ++ le_split 2 transport_minor ++
  le_split 4 0 ++ le_split 8 (length_N payload) ++ SHA256_hash payload ++ payload.
End envelope.

(** ** Reading words inside the header *)

Lemma span_at_app l1 l2 i :
  span_at (l1 ++ l2) (length_N l1 + i) = span_at l2 i.
Proof.
  unfold span_at, length_N. rewrite lookup_app_r by lia.
  by replace (N.to_nat (N.of_nat (length l1) + i) - length l1)%nat with (N.to_nat i) by lia.
Qed.

Lemma span_at_prefix l1 l2 i : (N.to_nat i < length l1)%nat → span_at (l1 ++ l2) i = span_at l1 i.
Proof. intros Hi. unfold span_at. by rewrite lookup_app_l. Qed.

Lemma for_state_ext {A S} (l : list A) (s : S) f g :
  (∀ x s, x ∈ l → f x s = g x s) → for_state l s f = for_state l s g.
Proof.
  revert s. induction l as [|x l IH]; intros s Hfg; simpl; [done|].
  rewrite Hfg by set_solver. destruct (g x s); simpl; [|done]. apply IH. set_solver.
Qed.

Lemma read_words_at n l1 l2 l3 off :
  length_N l1 = off → length l2 = n → read_words n (l1 ++ l2 ++ l3) off = Ok (le_combine l2).
Proof.
  intros <- Hn. rewrite <-(read_words_combine n l2 Hn). apply for_state_ext.
  intros i s Hi%elem_of_seq. rewrite span_at_app, span_at_prefix by (rewrite Nat2N.id; lia).
  by rewrite N.add_0_l.
Qed.

Lemma read_u16_at l1 l2 l3 off :
  length_N l1 = off → length l2 = 2%nat → read_u16 (l1 ++ l2 ++ l3) off = Ok (le_combine l2).
Proof.
  intros <- Hn. rewrite <-(read_u16_combine l2 Hn). unfold read_u16.
  replace (span_at (l1 ++ l2 ++ l3) (length_N l1)) with (span_at (l1 ++ l2 ++ l3) (length_N l1 + 0))
    by by rewrite N.add_0_r.
  rewrite !span_at_app, !span_at_prefix by (rewrite Hn; simpl; lia). done.
Qed.

(** The accumulated difference vanishes exactly on equal digests. *)
Lemma digest_difference_run pre d e post :
  length_N pre = NERI_IR_DIGEST_OFFSET_V1 → length d = length e →
  ∃ w, digest_difference d (pre ++ e ++ post) = Ok w ∧ (w = 0 ↔ d = e).
Proof.
  intros Hpre Hlen. unfold digest_difference.
  match goal with |- context [for_state _ 0 ?body] => set (f := body) end.
  enough (∀ k d1 e1 d2 e2 acc, d = d1 ++ d2 → e = e1 ++ e2 → length d1 = length e1 →
    length d2 = k → (acc = 0 ↔ d1 = e1) →
    ∃ w, for_state (seq (length d1) k) acc f = Ok w ∧ (w = 0 ↔ d = e)) as Hgen
    by by apply (Hgen (length d) [] [] d e 0).
  induction k as [|k IH]; intros d1 e1 d2 e2 acc Hd He H1 H2 Hacc;
    pose proof (f_equal length Hd) as Hd'; pose proof (f_equal length He) as He';
    rewrite length_app in Hd', He'.
  - destruct d2; [|done]. destruct e2; [|simpl in *; lia]. exists acc. split; [done|].
    subst. by rewrite !app_nil_r.
  - destruct d2 as [|x d2]; [done|]. destruct e2 as [|y e2]; [simpl in *; lia|].
    assert (f (length d1) acc = Ok (N.lor acc (N.lxor (Byte.to_N x) (Byte.to_N y)))) as Hf.
    { unfold f. rewrite <-Hpre, span_at_app, Hd, He. unfold span_at.
      rewrite Nat2N.id, list_lookup_middle by done. simpl.
      rewrite <-app_assoc, H1. simpl. by rewrite list_lookup_middle. }
    simpl. rewrite Hf. simpl.
    replace (S (length d1)) with (length (d1 ++ [x])) by (rewrite length_app; simpl; lia).
    apply (IH (d1 ++ [x]) (e1 ++ [y]) d2 e2); [by rewrite <-app_assoc..| | |].
    + rewrite !length_app. simpl. lia.
    + naive_solver.
    + rewrite N.lor_eq_0_iff, Hacc, N.lxor_eq_0_iff. split.
      * intros [-> Hxy]. apply (f_equal byte_of) in Hxy. rewrite !byte_of_to in Hxy. by subst.
      * by intros [-> [= ->]]%app_inj_2.
Qed.

(** A header splits into its fields. *)
Lemma split_header (l : list byte) :
  NERI_IR_HEADER_SIZE_V1 <= length_N l →
  ∃ magic major minor flags len digest payload,
    l = magic ++ major ++ minor ++ flags ++ len ++ digest ++ payload ∧
    length magic = 8%nat ∧ length major = 2%nat ∧ length minor = 2%nat ∧ length flags = 4%nat ∧
    length len = 8%nat ∧ length digest = 32%nat.
Proof.
  intros Hl. change NERI_IR_HEADER_SIZE_V1 with 56 in Hl. unfold length_N in Hl.
  assert (∀ n (k : list byte), (n <= length k)%nat → ∃ a b, k = a ++ b ∧ length a = n) as Hcut.
  { intros n k Hk. exists (take n k), (drop n k). rewrite take_drop, length_take. split; [done|lia]. }
  assert (56 <= length l)%nat as Hlen by lia. clear Hl.
  destruct (Hcut 8%nat l) as (magic & l1 & -> & ?); [lia|]. rewrite length_app in *.
  destruct (Hcut 2%nat l1) as (major & l2 & -> & ?); [lia|]. rewrite length_app in *.
  destruct (Hcut 2%nat l2) as (minor & l3 & -> & ?); [lia|]. rewrite length_app in *.
  destruct (Hcut 4%nat l3) as (flags & l4 & -> & ?); [lia|]. rewrite length_app in *.
  destruct (Hcut 8%nat l4) as (len & l5 & -> & ?); [lia|]. rewrite length_app in *.
  destruct (Hcut 32%nat l5) as (digest & payload & -> & ?); [lia|].
  by exists magic, major, minor, flags, len, digest, payload.
Qed.

Section correctness.
Variable SHA256_hash : list byte → list byte.
(** The documented size of a SHA-256 digest. *)
Hypothesis SHA256_hash_length : ∀ l, length (SHA256_hash l) = 32%nat.

(** Limits of a host whose [std::size_t] has 64 bits. *)
Definition host_options (o : reader_options) : Prop :=
  validate_options o = Ok tt ∧ max_input_bytes o <= u64_max.

Lemma host_options_header o : host_options o → NERI_IR_HEADER_SIZE_V1 <= max_input_bytes o.
Proof. intros [Ho _]. unfold validate_options in Ho. inv_ok. by apply N.ltb_ge. Qed.

(** The checks on the decoded fields of a header. *)
Lemma read_envelope_fields o magic major minor flags len digest payload :
  host_options o →
  length magic = 8%nat → length major = 2%nat → length minor = 2%nat → length flags = 4%nat →
  length len = 8%nat → length digest = 32%nat →
  let input := magic ++ major ++ minor ++ flags ++ len ++ digest ++ payload in
  defined (read_envelope SHA256_hash input o) ∧
  ∀ x, read_envelope SHA256_hash input o = Ok x ↔
    length_N input <= max_input_bytes o ∧ NERI_IR_MAGIC_V1 = magic ∧
    le_combine major = NERI_IR_TRANSPORT_MAJOR_V1 ∧
    le_combine minor <= NERI_IR_TRANSPORT_MINOR_V1 ∧ le_combine flags = 0 ∧
    le_combine len = length_N payload ∧ SHA256_hash payload = digest ∧
    x = (le_combine minor, payload).
Proof.
  intros Ho Hmagic Hmajor Hminor Hflags Hlen Hdigest input.
  assert (length_N input = NERI_IR_HEADER_SIZE_V1 + length_N payload) as Hsize.
  { unfold input, length_N. rewrite !length_app. change NERI_IR_HEADER_SIZE_V1 with 56. lia. }
  assert (take (length NERI_IR_MAGIC_V1) input = magic) as Htake.
  { unfold input. change (length NERI_IR_MAGIC_V1) with 8%nat. rewrite <-Hmagic.
    apply take_app_length. }
  assert (drop (N.to_nat NERI_IR_HEADER_SIZE_V1) input = payload) as Hdrop.
  { unfold input. rewrite !app_assoc. apply drop_app_length'. rewrite !length_app.
    change (N.to_nat NERI_IR_HEADER_SIZE_V1) with 56%nat. lia. }
  assert (read_u16 input NERI_IR_VERSION_MAJOR_OFFSET_V1 = Ok (le_combine major)) as H1.
  { unfold input. apply read_u16_at; [unfold length_N; by rewrite Hmagic|done]. }
  assert (read_u16 input NERI_IR_VERSION_MINOR_OFFSET_V1 = Ok (le_combine minor)) as H2.
  { unfold input. rewrite (app_assoc magic). apply read_u16_at; [|done].
    unfold length_N; by rewrite length_app, Hmagic, Hmajor. }
  assert (read_u32 input NERI_IR_FLAGS_OFFSET_V1 = Ok (le_combine flags)) as H3.
  { unfold input. rewrite (app_assoc magic), (app_assoc (magic ++ major)). apply read_words_at; [|done].
    unfold length_N; by rewrite !length_app, Hmagic, Hmajor, Hminor. }
  assert (read_u64 input NERI_IR_PAYLOAD_LENGTH_OFFSET_V1 = Ok (le_combine len)) as H4.
  { unfold input. rewrite (app_assoc magic), (app_assoc (magic ++ major)), (app_assoc (_ ++ minor)).
    apply read_words_at; [|done].
    unfold length_N; by rewrite !length_app, Hmagic, Hmajor, Hminor, Hflags. }
  destruct (digest_difference_run (magic ++ major ++ minor ++ flags ++ len) (SHA256_hash payload)
    digest payload) as (w & H5 & Hw).
  { unfold length_N; by rewrite !length_app, Hmagic, Hmajor, Hminor, Hflags, Hlen. }
  { by rewrite SHA256_hash_length, Hdigest. }
  replace ((magic ++ major ++ minor ++ flags ++ len) ++ digest ++ payload) with input in H5
    by (unfold input; by rewrite <-!app_assoc).
  pose proof (host_options_header o Ho) as Hhead. destruct Ho as [Ho _].
  unfold read_envelope. rewrite Ho, Htake, Hdrop, H1, H2, H3, H4, H5, Hsize. cbn [when negb mbind result_bind].
  clearbody input. clear -Hw Hhead.
  repeat match goal with
  | |- context [when (?a <? ?b) _] => destruct (N.ltb_spec a b); cbn [when negb mbind result_bind]
  | |- context [when (negb (bool_decide ?P)) _] =>
      destruct (bool_decide_reflect P); cbn [when negb mbind result_bind]
  | |- context [when (negb (?a =? ?b)) _] => destruct (N.eqb_spec a b); cbn [when negb mbind result_bind]
  end; (split; [by intros what|]); intros x;
    (split; [try done; intros [= <-]; split_and!; try done; try lia; by apply Hw|]);
    intros (? & ? & ? & ? & ? & ? & ? & ->); try done; try lia; try (exfalso; tauto);
    simpl in *; try lia.
Qed.

Lemma short_input o input :
  host_options o → length_N input < NERI_IR_HEADER_SIZE_V1 →
  read_envelope SHA256_hash input o =
    Throw (malformed "Input is shorter than the Neri IR envelope header." (length_N input)).
Proof.
  intros Ho Hshort. pose proof (host_options_header o Ho) as Hhead. destruct Ho as [Ho _].
  unfold read_envelope. rewrite Ho. cbn [mbind result_bind].
  destruct (N.ltb_spec (max_input_bytes o) (length_N input)); [lia|]. cbn [when mbind result_bind].
  by destruct (N.ltb_spec (length_N input) NERI_IR_HEADER_SIZE_V1); [|lia].
Qed.

Lemma le_split_of (n : nat) l w : length l = n → le_combine l = w → l = le_split n w.
Proof. intros <- <-. by rewrite le_split_combine. Qed.

(** Exactly the envelopes of payloads that fit are accepted. *)
Lemma read_envelope_iff o input minor payload :
  host_options o →
  read_envelope SHA256_hash input o = Ok (minor, payload) ↔
    minor <= NERI_IR_TRANSPORT_MINOR_V1 ∧ length_N input <= max_input_bytes o ∧
    input = encode_envelope SHA256_hash minor payload.
Proof.
  intros Ho. split.
  - intros Hrun. destruct (N.ltb_spec (length_N input) NERI_IR_HEADER_SIZE_V1) as [Hs|Hs].
    { by rewrite short_input in Hrun. }
    apply split_header in Hs as (magic & major & mi & flags & len & digest & pl & -> &
      H1 & H2 & H3 & H4 & H5 & H6).
    apply read_envelope_fields in Hrun as (Hmax & Hm & Hmaj & Hmin & Hfl & Hl & Hd & [= -> ->]);
      [|done..].
    split_and!; [done..|]. unfold encode_envelope. subst digest magic.
    rewrite (le_split_of 2 major _ H2 Hmaj), (le_split_of 4 flags _ H4 Hfl),
      (le_split_of 8 len _ H5 Hl), <-(le_split_of 2 mi _ H3 eq_refl). done.
  - intros (Hmin & Hmax & ->). unfold encode_envelope in *.
    assert (length_N payload <= u64_max) as Hpl.
    { destruct Ho as [_ Ho]. rewrite !length_N_app in Hmax. lia. }
    assert (le_combine (le_split 2 minor) = minor) as Hminor.
    { apply le_combine_split. change NERI_IR_TRANSPORT_MINOR_V1 with 9 in Hmin. simpl. lia. }
    apply read_envelope_fields; [done|by rewrite ?length_le_split, ?SHA256_hash_length..|].
    rewrite Hminor, (le_combine_split 8) by (simpl; unfold u64_max in Hpl; lia).
    rewrite (le_combine_split 2), (le_combine_split 4) by done. done.
Qed.

Lemma read_envelope_safe o input :
  host_options o → defined (read_envelope SHA256_hash input o).
Proof.
  intros Ho. destruct (N.ltb_spec (length_N input) NERI_IR_HEADER_SIZE_V1) as [Hs|Hs].
  { by rewrite short_input. }
  apply split_header in Hs as (magic & major & mi & flags & len & digest & pl & -> &
    H1 & H2 & H3 & H4 & H5 & H6).
  by apply read_envelope_fields.
Qed.
End correctness.

(** ** Properties *)

(** C38: The envelope is exact: [read_envelope] returns a transport minor version and a payload
    if and only if the version is supported, the input is within the limit, and the
    input is byte for byte the header (magic, versions, flags, length, digest)
    followed by that payload. *)
Theorem envelope_accepted_iff hash options input minor payload :
  (∀ l, length (hash l) = 32%nat) → host_options options →
  read_envelope hash input options = Ok (minor, payload) ↔
    minor <= NERI_IR_TRANSPORT_MINOR_V1 ∧ length_N input <= max_input_bytes options ∧
    input = encode_envelope hash minor payload.
Proof. intros Hhash Ho. by apply read_envelope_iff. Qed.

(** The envelope of one payload carrying another. *)
Definition tampered (hash : list byte → list byte) (minor : N) (payload payload' : list byte) : list byte :=
  take (N.to_nat NERI_IR_HEADER_SIZE_V1) (encode_envelope hash minor payload) ++ payload'.

Lemma envelope_header hash minor payload :
  length (hash payload) = 32%nat →
  ∃ header, encode_envelope hash minor payload = header ++ hash payload ++ payload ∧ length header = 24%nat.
Proof.
  intros Hh. unfold encode_envelope.
  exists (NERI_IR_MAGIC_V1 ++ le_split 2 NERI_IR_TRANSPORT_MAJOR_V1 ++ le_split 2 minor ++ le_split 4 0 ++
          le_split 8 (length_N payload)).
  rewrite <-!app_assoc. split; [done|]. rewrite !length_app, !length_le_split. done.
Qed.

(** A tampered payload is rejected: when the payload of a valid envelope is replaced by
    one with a different digest, the reader does not accept the result, whatever the
    replacement is. *)
Theorem tampered_payload_rejected hash options minor payload payload' :
  (∀ l, length (hash l) = 32%nat) → host_options options → hash payload ≠ hash payload' →
  ∀ x, read_envelope hash (tampered hash minor payload payload') options ≠ Ok x.
Proof.
  intros Hhash Ho Hne [minor' found] (_ & _ & Heq)%(read_envelope_iff hash Hhash options _ _ _ Ho).
  unfold tampered in Heq.
  destruct (envelope_header hash minor payload (Hhash _)) as (h & Hh & Hlen).
  destruct (envelope_header hash minor' found (Hhash _)) as (h' & Hh' & Hlen').
  rewrite Hh, Hh', app_assoc, take_app_length' in Heq by (rewrite length_app, Hhash, Hlen; done).
  rewrite <-!app_assoc in Heq.
  apply app_inj_1 in Heq as [_ Heq]; [|congruence]. apply app_inj_1 in Heq as [Hd <-]; [done|].
  by rewrite !Hhash.
Qed.

(** ** Witnesses *)

Definition length_hash (l : list byte) : list byte := repeat (byte_of (length_N l)) 32.

Lemma length_hash_length l : length (length_hash l) = 32%nat.
Proof. apply repeat_length. Qed.

Lemma default_host_options : host_options default_options.
Proof. split; [done|]. by vm_compute. Qed.

Lemma envelope_accepted_iff_witness :
  read_envelope length_hash (encode_envelope length_hash 3 [x01; x02]) default_options = Ok (3, [x01; x02]).
Proof.
  apply (envelope_accepted_iff length_hash default_options _ 3 [x01; x02] length_hash_length
    default_host_options). split_and!; [by vm_compute..|reflexivity].
Defined.

Lemma tampered_payload_rejected_witness :
  read_envelope length_hash (tampered length_hash 3 [x01] [x01; x02]) default_options ≠ Ok (3, [x01; x02]).
Proof.
  apply (tampered_payload_rejected length_hash default_options 3 [x01] [x01; x02] length_hash_length
    default_host_options). discriminate.
Defined.
