(* ===== verification/Types.v ===== *)
(** * Semantic types and constants of the verifier ([native/codegen/ir_verifier.cpp])

    The predicates on semantic types, the structural equalities, the checks on
    constants and names, and the canonical-order check every declaration list
    goes through.  The verifier reports every failure at offset zero. *)

From Stdlib Require Import OrdersEx.
From S2P Require Import Prelude Domains IR Reader.

Local Open Scope string_scope.
Local Open Scope N_scope.

(** ** Failures and partial operations *)

(** The verifier's [fail(code, message)]. *)
Definition verify_fail {A} (code : reader_error_kind) (message : string) : result A :=
  Throw (reader_error code message 0).

(** [if (condition) fail(code, message);] *)
Definition fail_when (condition : bool) (code : reader_error_kind) (message : string) : result unit :=
  when condition (reader_error code message 0).

(** [vector::front], [vector::operator[]] and [*optional] are undefined on an
    empty or too short container; [vector::at] and [map::at] throw. *)
Definition front {A} (l : list A) : result A :=
  match l with x :: _ => Ok x | [] => Throw (undefined "front() of an empty vector") end.

Definition element {A} (l : list A) (index : nat) : result A :=
  match l !! index with Some x => Ok x | None => Throw (undefined "index out of range") end.

Definition deref {A} (x : option A) : result A :=
  match x with Some a => Ok a | None => Throw (undefined "empty optional") end.

Definition at_index {A} (l : list A) (index : nat) : result A :=
  match l !! index with Some x => Ok x | None => Throw (out_of_range "vector::at") end.

Definition has_value {A} (x : option A) : bool := match x with Some _ => true | None => false end.

Definition empty {A} (l : list A) : bool := match l with [] => true | _ => false end.

Definition size_is {A} (l : list A) (n : nat) : bool := (length l =? n)%nat.

Lemma fail_when_Ok b code msg u : fail_when b code msg = Ok u ↔ b = false.
Proof. apply when_Ok. Qed.

Lemma defined_fail_when b code msg : defined (fail_when b code msg).
Proof. apply defined_when. Qed.

Lemma defined_verify_fail {A} code msg : defined (verify_fail (A:=A) code msg).
Proof. apply defined_reader_error. Qed.

#[export] Hint Resolve defined_fail_when defined_verify_fail : defined_db.

(** ** Symbols *)

#[export] Instance wire_tag_countable {T} `{!WireTag T} : Countable T :=
  inj_countable tag_to_N tag_of_N tag_of_to_N.

(** The tuple of [symbol_key]; equality of keys is equality of symbols. *)
Definition symbol_key (value : symbol_id) : string * neri_ir_symbol_kind_v1 * string :=
  (sym_module value, sym_kind value, sym_semantic_name value).

#[export] Program Instance symbol_id_countable : Countable symbol_id :=
  inj_countable symbol_key (λ k, Some (mk_symbol k.1.1 k.1.2 k.2)) _.
Next Obligation. by intros []. Qed.

Definition same_symbol (left right : symbol_id) : bool :=
  bool_decide (symbol_key left = symbol_key right).

Lemma symbol_key_inj a b : symbol_key a = symbol_key b → a = b.
Proof. destruct a, b; unfold symbol_key; simpl. congruence. Qed.

Lemma same_symbol_eq a b : same_symbol a b = true ↔ a = b.
Proof.
  unfold same_symbol. rewrite bool_decide_eq_true. split; [apply symbol_key_inj|by intros ->].
Qed.

(** [operator<] on the key tuples: lexicographic, strings by unsigned bytes. *)
Definition symbol_ltb (a b : symbol_id) : bool :=
  String.ltb (sym_module a) (sym_module b) ||
  (negb (String.ltb (sym_module b) (sym_module a)) &&
   ((tag_to_N (sym_kind a) <? tag_to_N (sym_kind b)) ||
    (negb (tag_to_N (sym_kind b) <? tag_to_N (sym_kind a)) &&
     String.ltb (sym_semantic_name a) (sym_semantic_name b)))).

(** ** Structural equality of types *)

Fixpoint same_type (left right : type) {struct left} : bool :=
  match left with
  | mk_type tag symbol arguments element_count =>
      if negb (tag_eqb tag (ty_tag right)) || negb (element_count =? ty_element_count right) ||
         negb (Bool.eqb (has_value symbol) (has_value (ty_symbol right))) ||
         negb (size_is arguments (length (ty_arguments right)))
      then false
      else if match symbol, ty_symbol right with
              | Some s, Some s' => negb (same_symbol s s')
              | _, _ => false
              end
      then false
      else (fix same_arguments ls rs :=
              match ls, rs with
              | l :: ls, r :: rs => same_type l r && same_arguments ls rs
              | _, _ => true
              end) arguments (ty_arguments right)
  end.

Definition same_runtime_requirement (left right : option runtime_requirement) : bool :=
  Bool.eqb (has_value left) (has_value right) &&
  (negb (has_value left) ||
   match left, right with
   | Some l, Some r => (rr_abi_major l =? rr_abi_major r) && (rr_abi_minor l =? rr_abi_minor r) &&
                       (rr_feature_bits l =? rr_feature_bits r)
   | _, _ => false
   end).

(** ** Classification of types *)

Definition is_void (value : type) : bool :=
  tag_eqb (ty_tag value) NERI_IR_TYPE_VOID_V1 && negb (has_value (ty_symbol value)) &&
  empty (ty_arguments value).

Definition is_scalar (value : type) : bool :=
  (((tag_to_N NERI_IR_TYPE_BOOL_V1 <=? tag_to_N (ty_tag value)) &&
    (tag_to_N (ty_tag value) <=? tag_to_N NERI_IR_TYPE_FLOAT_V1)) || extended_scalar (ty_tag value)) &&
  negb (has_value (ty_symbol value)) && empty (ty_arguments value).

Definition is_string (value : type) : bool :=
  tag_eqb (ty_tag value) NERI_IR_TYPE_STRING_V1 && negb (has_value (ty_symbol value)) &&
  empty (ty_arguments value).

Definition is_class (value : type) : bool :=
  tag_eqb (ty_tag value) NERI_IR_TYPE_CLASS_V1 && has_value (ty_symbol value) &&
  empty (ty_arguments value).

Definition is_pointer (value : type) : bool :=
  tag_eqb (ty_tag value) NERI_IR_TYPE_POINTER_V1 && negb (has_value (ty_symbol value)) &&
  size_is (ty_arguments value) 1.

(** [is_c_function], [is_nullable_pointer] and [is_c_abi_type] are mutually
    recursive; the last two take the first as an argument. *)
Definition nullable_pointer_with (is_c_function : type → bool) (value : type) : bool :=
  tag_eqb (ty_tag value) NERI_IR_TYPE_OPTIONAL_V1 && negb (has_value (ty_symbol value)) &&
  match value with
  | mk_type _ _ [argument] _ => is_pointer argument || is_c_function argument
  | _ => false
  end.

Definition c_abi_type_with (is_c_function : type → bool) (value : type) (allow_void : bool) : bool :=
  is_scalar value || is_pointer value || is_c_function value ||
  nullable_pointer_with is_c_function value || (allow_void && is_void value).

Fixpoint is_c_function (value : type) : bool :=
  match value with
  | mk_type tag symbol arguments element_count =>
      tag_eqb tag NERI_IR_TYPE_C_FUNCTION_V1 && negb (has_value symbol) && (element_count =? 0) &&
      match arguments with
      | [] => false
      | result :: parameters =>
          c_abi_type_with is_c_function result true &&
          forallb (λ argument, c_abi_type_with is_c_function argument false) parameters
      end
  end.

Definition is_nullable_pointer (value : type) : bool := nullable_pointer_with is_c_function value.

Definition is_c_abi_type (value : type) (allow_void : bool) : bool :=
  c_abi_type_with is_c_function value allow_void.

Definition is_unsafe_capability (value : type) : bool :=
  tag_eqb (ty_tag value) NERI_IR_TYPE_UNSAFE_CAPABILITY_V1 && negb (has_value (ty_symbol value)) &&
  empty (ty_arguments value).

Definition is_borrow_capability (value : type) : bool :=
  tag_eqb (ty_tag value) NERI_IR_TYPE_BORROW_CAPABILITY_V1 && negb (has_value (ty_symbol value)) &&
  size_is (ty_arguments value) 1.

Fixpoint is_pointer_element (value : type) : bool :=
  is_void value || is_scalar value || is_c_function value ||
  (tag_eqb (ty_tag value) NERI_IR_TYPE_NATIVE_RECORD_V1 && has_value (ty_symbol value) &&
   empty (ty_arguments value)) ||
  (tag_eqb (ty_tag value) NERI_IR_TYPE_FIXED_ARRAY_V1 && negb (has_value (ty_symbol value)) &&
   match value with
   | mk_type _ _ [argument] element_count => (0 <? element_count) && is_pointer_element argument
   | _ => false
   end) ||
  is_nullable_pointer value ||
  (is_pointer value &&
   match value with
   | mk_type _ _ (argument :: _) _ => is_pointer_element argument
   | _ => false
   end).

Fixpoint is_managed_reference (value : type) : bool :=
  is_string value || is_class value || tag_eqb (ty_tag value) NERI_IR_TYPE_ARRAY_V1 ||
  (tag_eqb (ty_tag value) NERI_IR_TYPE_OPTIONAL_V1 &&
   match value with
   | mk_type _ _ [argument] _ => is_managed_reference argument
   | _ => false
   end).

(** The element types an array may have, besides being supported themselves. *)
Definition array_element (argument : type) : bool :=
  is_scalar argument ||
  (tag_eqb (ty_tag argument) NERI_IR_TYPE_OPTIONAL_V1 &&
   match ty_arguments argument with [inner] => is_scalar inner | _ => false end) ||
  is_managed_reference argument.

Fixpoint is_supported_value (value : type) : bool :=
  is_scalar value || is_string value || is_class value || is_c_function value ||
  (tag_eqb (ty_tag value) NERI_IR_TYPE_NATIVE_RECORD_V1 && is_pointer_element value) ||
  (tag_eqb (ty_tag value) NERI_IR_TYPE_FIXED_ARRAY_V1 && is_pointer_element value) ||
  (is_pointer value &&
   match ty_arguments value with argument :: _ => is_pointer_element argument | [] => false end) ||
  is_unsafe_capability value ||
  (is_borrow_capability value &&
   match ty_arguments value with
   | argument :: _ => negb (is_void argument) && is_pointer_element argument
   | [] => false
   end) ||
  (tag_eqb (ty_tag value) NERI_IR_TYPE_ARRAY_V1 && negb (has_value (ty_symbol value)) &&
   match value with
   | mk_type _ _ [argument] _ =>
       negb (is_void argument) && array_element argument && is_supported_value argument
   | _ => false
   end) ||
  (tag_eqb (ty_tag value) NERI_IR_TYPE_OPTIONAL_V1 && negb (has_value (ty_symbol value)) &&
   match value with
   | mk_type _ _ [argument] _ =>
       negb (is_void argument) &&
       negb (tag_eqb (ty_tag argument) NERI_IR_TYPE_OPTIONAL_V1) &&
       negb (tag_eqb (ty_tag argument) NERI_IR_TYPE_NATIVE_RECORD_V1) &&
       negb (tag_eqb (ty_tag argument) NERI_IR_TYPE_FIXED_ARRAY_V1) &&
       is_supported_value argument
   | _ => false
   end).

Fixpoint contains_string (value : type) : bool :=
  is_string value || match value with mk_type _ _ arguments _ => existsb contains_string arguments end.

Definition later_card (description : string) : string :=
  description +:+ " uses a semantic type whose native lowering belongs to a later roadmap card.".

Definition c_signature_message : string :=
  "C function signature requires C-compatible result and parameters.".

Definition require_result_type (value : type) (description : string) : result unit :=
  fail_when (tag_eqb (ty_tag value) NERI_IR_TYPE_C_FUNCTION_V1 && negb (is_c_function value))
    invalid_type c_signature_message;;
  fail_when (negb (is_void value) && negb (is_supported_value value))
    unsupported_feature (later_card description).

Definition require_value_type (value : type) (description : string) : result unit :=
  fail_when (tag_eqb (ty_tag value) NERI_IR_TYPE_C_FUNCTION_V1 && negb (is_c_function value))
    invalid_type c_signature_message;;
  fail_when (negb (is_supported_value value)) unsupported_feature (later_card description).

(** ** Constants *)

Section constants.
Variable isLegalUTF8String : list byte → bool.

Definition no_extra_metadata (value : constant) : bool :=
  empty (c_types value) && empty (c_nested value) && negb (has_value (c_symbol value)) &&
  String.eqb (c_text value) "".

(** [value.types.size() == 1U && same_type(value.types.front(), expected)]. *)
Definition only_type (value : constant) (expected : type) : bool :=
  match c_types value with [t] => same_type t expected | _ => false end.

Fixpoint verify_constant (value : constant) (expected : type) (depth : N) : result unit :=
  fail_when (64 <? depth) invalid_type "Constant nesting exceeds semantic depth 64.";;
  match value with
  | mk_constant tag bits types nested symbol text =>
      match tag with
      | NERI_IR_CONSTANT_BOOL_V1 =>
          fail_when (negb (tag_eqb (ty_tag expected) NERI_IR_TYPE_BOOL_V1) || (1 <? bits) ||
                     negb (no_extra_metadata value)) invalid_type "Malformed bool constant."
      | NERI_IR_CONSTANT_BYTE_V1 =>
          fail_when (negb (tag_eqb (ty_tag expected) NERI_IR_TYPE_BYTE_V1) || (255 <? bits) ||
                     negb (no_extra_metadata value)) invalid_type "Malformed byte constant."
      | NERI_IR_CONSTANT_INT_V1 =>
          fail_when (negb (tag_eqb (ty_tag expected) NERI_IR_TYPE_INT_V1) ||
                     negb (no_extra_metadata value)) invalid_type "Malformed int constant."
      | NERI_IR_CONSTANT_FLOAT_V1 =>
          fail_when (negb (tag_eqb (ty_tag expected) NERI_IR_TYPE_FLOAT_V1) ||
                     negb (no_extra_metadata value)) invalid_type "Malformed float constant."
      | NERI_IR_CONSTANT_OPTIONAL_NONE_V1 =>
          fail_when (negb (tag_eqb (ty_tag expected) NERI_IR_TYPE_OPTIONAL_V1) ||
                     negb (only_type value expected) || negb (empty nested) ||
                     has_value symbol || negb (String.eqb text ""))
            invalid_type "Malformed optional.none constant."
      | NERI_IR_CONSTANT_OPTIONAL_SOME_V1 =>
          fail_when (negb (tag_eqb (ty_tag expected) NERI_IR_TYPE_OPTIONAL_V1) ||
                     negb (size_is (ty_arguments expected) 1) ||
                     negb (only_type value expected) || negb (size_is nested 1) ||
                     has_value symbol || negb (String.eqb text ""))
            invalid_type "Malformed optional.some constant.";;
          argument ← front (ty_arguments expected);
          match nested with
          | inner :: _ => verify_constant inner argument (depth + 1)
          | [] => Throw (undefined "front() of an empty vector")
          end
      | NERI_IR_CONSTANT_STRING_GLOBAL_V1 =>
          fail_when (negb (is_string expected) || negb (empty types) || negb (empty nested) ||
                     negb (has_value symbol) || negb (String.eqb text ""))
            invalid_type "Malformed string.global constant."
      | NERI_IR_CONSTANT_STRING_UTF8_V1 =>
          fail_when (negb (is_string expected) || negb (empty types) || negb (empty nested) ||
                     has_value symbol ||
                     negb (strict_utf8 isLegalUTF8String (list_byte_of_string text)))
            invalid_type "Malformed string.utf8 constant."
      end
  end.
End constants.

(** ** Names *)

Definition byte_between (low high : N) (b : byte) : bool :=
  (low <=? Byte.to_N b) && (Byte.to_N b <=? high).

(** ['!'] to ['~']. *)
Definition printable_ascii_symbol (value : string) : bool :=
  let l := list_byte_of_string value in
  negb (empty l) && forallb (byte_between 0x21 0x7e) l.

Definition upper_case : byte → bool := byte_between 0x41 0x5a.
Definition lower_case : byte → bool := byte_between 0x61 0x7a.
Definition digit : byte → bool := byte_between 0x30 0x39.
Definition character_is (code : N) (b : byte) : bool := Byte.to_N b =? code.

Definition portable_c_identifier (value : string) : bool :=
  match list_byte_of_string value with
  | [] => false
  | first :: rest =>
      (character_is 0x5f first || upper_case first || lower_case first) &&
      forallb (λ c, character_is 0x5f c || upper_case c || lower_case c || digit c) rest
  end.

Definition alphanumeric (b : byte) : bool := upper_case b || lower_case b || digit b.

Definition native_library_name (value : string) : bool :=
  let l := list_byte_of_string value in
  negb (empty l) && (length_N l <=? 128) &&
  match l with first :: _ => alphanumeric first | [] => false end &&
  forallb (λ c, alphanumeric c || character_is 0x5f c || character_is 0x2d c ||
                character_is 0x2e c) l.

(** [std::string_view::starts_with]. *)
Definition starts_with (value prefix : string) : bool := String.prefix prefix value.

(** ** Canonical order *)

(** Adjacent projections are strictly increasing. *)
Fixpoint strictly_ordered {A} (ltb : A → A → bool) (values : list A) : bool :=
  match values with
  | a :: ((b :: _) as rest) => ltb a b && strictly_ordered ltb rest
  | _ => true
  end.

(** The loop over the indices stops at the first pair out of order, with one
    message for all of them. *)
Definition require_unique_order {A B} (values : list A) (description : string)
    (projection : A → B) (ltb : B → B → bool) : result unit :=
  fail_when (negb (strictly_ordered ltb (map projection values))) malformed_module
    (description +:+ " are not in unique canonical order.").

(** ** Structural equality decides equality *)

Lemma same_type_Ok : ∀ left right, same_type left right = true ↔ left = right.
Proof.
  induction left as [tag symbol arguments count IH] using type_nested_ind. intros [tag' symbol' arguments' count'].
  cbn [same_type ty_tag ty_symbol ty_arguments ty_element_count].
  destruct (tag_eqb tag tag') eqn:Htag; [apply tag_eqb_eq in Htag as <-|apply tag_eqb_neq in Htag; naive_solver].
  destruct (N.eqb_spec count count') as [<-|]; [|naive_solver].
  destruct (size_is arguments (length arguments')) eqn:Hsize; unfold size_is in Hsize;
    [apply Nat.eqb_eq in Hsize|apply Nat.eqb_neq in Hsize; rewrite orb_true_r; naive_solver].
  assert (∀ xs ys, Forall (λ left, ∀ right, same_type left right = true ↔ left = right) xs →
    length xs = length ys →
    (fix same_arguments ls rs := match ls, rs with
       | l :: ls, r :: rs => same_type l r && same_arguments ls rs | _, _ => true end) xs ys = true
    ↔ xs = ys) as Hargs.
  { induction xs as [|x xs IHxs]; intros [|y ys] HF Hlen; simplify_eq/=; [done|].
    inversion_clear HF as [|?? Hx Hxs]. rewrite andb_true_iff, Hx, (IHxs ys) by done. naive_solver. }
  destruct symbol as [s|], symbol' as [s'|]; cbn; try (split; [done|naive_solver]).
  - destruct (same_symbol s s') eqn:Hs; simpl.
    + apply same_symbol_eq in Hs as <-. rewrite (Hargs _ _ IH Hsize). naive_solver.
    + split; [done|]. intros [= -> ->]. by rewrite (proj2 (same_symbol_eq s' s') eq_refl) in Hs.
  - rewrite (Hargs _ _ IH Hsize). naive_solver.
Qed.

Lemma same_type_refl t : same_type t t = true.
Proof. by apply same_type_Ok. Qed.

Lemma same_runtime_requirement_Ok l r : same_runtime_requirement l r = true ↔ l = r.
Proof.
  unfold same_runtime_requirement. destruct l as [[]|], r as [[]|]; simpl; try naive_solver.
  rewrite !andb_true_iff, !N.eqb_eq. naive_solver.
Qed.

(** ** Strict order of strings and symbols *)

Lemma string_compare_OT a b : String.compare a b = String_as_OT.compare a b.
Proof.
  revert b. induction a as [|x a IH]; intros [|y b]; [done..|]. simpl.
  unfold Ascii_as_OT.compare, Ascii.compare. by rewrite IH.
Qed.

Lemma string_ltb_lt a b : String.ltb a b = true ↔ String_as_OT.lt a b.
Proof.
  unfold String.ltb, String_as_OT.lt. rewrite string_compare_OT.
  by destruct (String_as_OT.compare a b).
Qed.

Lemma string_ltb_irrefl a : String.ltb a a = false.
Proof. apply not_true_is_false. rewrite string_ltb_lt. apply (StrictOrder_Irreflexive (R:=String_as_OT.lt)). Qed.

Lemma string_ltb_trans a b c :
  String.ltb a b = true → String.ltb b c = true → String.ltb a c = true.
Proof. rewrite !string_ltb_lt. apply (StrictOrder_Transitive (R:=String_as_OT.lt)). Qed.

Lemma string_ltb_total a b : String.ltb a b = false → String.ltb b a = false → a = b.
Proof.
  rewrite <-!not_true_iff_false, !string_ltb_lt. intros H1 H2.
  destruct (String_as_OT.compare_spec a b); naive_solver.
Qed.

Lemma symbol_ltb_irrefl a : symbol_ltb a a = false.
Proof. unfold symbol_ltb. by rewrite !string_ltb_irrefl, N.ltb_irrefl. Qed.

Lemma symbol_ltb_iff a b :
  symbol_ltb a b = true ↔
  String.ltb (sym_module a) (sym_module b) = true ∨
  sym_module a = sym_module b ∧
    (tag_to_N (sym_kind a) < tag_to_N (sym_kind b) ∨
     tag_to_N (sym_kind a) = tag_to_N (sym_kind b) ∧
       String.ltb (sym_semantic_name a) (sym_semantic_name b) = true).
Proof.
  unfold symbol_ltb. rewrite !orb_true_iff, !andb_true_iff, !orb_true_iff, !andb_true_iff.
  rewrite !negb_true_iff, N.ltb_lt, N.ltb_ge. split.
  - destruct (String.ltb (sym_module a) (sym_module b)) eqn:H1; [tauto|].
    intros [?|[H2 H]]; [done|]. right. split; [by apply string_ltb_total|].
    destruct H as [?|[? ?]]; [by left|].
    destruct (N.lt_trichotomy (tag_to_N (sym_kind a)) (tag_to_N (sym_kind b))) as [?|[?|?]]; [by left|by right|lia].
  - intros [?|[-> H]]; [by left|]. right. rewrite string_ltb_irrefl. split; [done|].
    destruct H as [?|[-> ?]]; [by left|]. right. split; [lia|done].
Qed.

Lemma symbol_ltb_trans a b c : symbol_ltb a b = true → symbol_ltb b c = true → symbol_ltb a c = true.
Proof.
  rewrite !symbol_ltb_iff. intros [H1|[E1 H1]] [H2|[E2 H2]].
  - left. by eapply string_ltb_trans.
  - left. by rewrite <-E2.
  - left. by rewrite E1.
  - right. split; [congruence|]. destruct H1 as [?|[E ?]], H2 as [?|[E' ?]].
    + left. lia.
    + left. lia.
    + left. lia.
    + right. split; [congruence|]. by eapply string_ltb_trans.
Qed.

(** A strictly ordered list has no duplicates. *)
Lemma strictly_ordered_NoDup {A} (ltb : A → A → bool) l :
  (∀ a, ltb a a = false) → (∀ a b c, ltb a b = true → ltb b c = true → ltb a c = true) →
  strictly_ordered ltb l = true → NoDup l.
Proof.
  intros Hirr Htrans. enough (∀ a l, strictly_ordered ltb (a :: l) = true →
    NoDup l ∧ Forall (λ b, ltb a b = true) l) as Hgen.
  { destruct l as [|a l]; [constructor|]. intros [Hn Hf]%Hgen. constructor; [|done].
    intros Hin. rewrite Forall_forall in Hf. specialize (Hf a Hin). by rewrite Hirr in Hf. }
  clear l. intros a l. revert a. induction l as [|b l IH]; intros a Hs; [by split; constructor|].
  simpl in Hs. apply andb_true_iff in Hs as [Hab Hs]. destruct (IH b Hs) as [Hn Hf]. split.
  - constructor; [|done]. intros Hin. rewrite Forall_forall in Hf. specialize (Hf b Hin).
    by rewrite Hirr in Hf.
  - constructor; [done|]. eapply Forall_impl; [exact Hf|]. simpl. eauto.
Qed.

(** ** No undefined behaviour in the constant check *)

Lemma verify_constant_defined legal c : ∀ expected depth, defined (verify_constant legal c expected depth).
Proof.
  induction c as [tag bits types nested symbol text IH] using constant_nested_ind.
  intros expected depth. cbn [verify_constant]. apply defined_bind; [auto with defined_db|].
  intros _ _. destruct tag; auto with defined_db.
  apply defined_bind; [auto with defined_db|]. intros [] H. apply fail_when_Ok in H. inv_ok.
  unfold size_is in *. destruct (ty_arguments expected) as [|argument [|]]; [done| |done].
  destruct nested as [|inner [|]]; [done| |done]. simpl. by inversion_clear IH.
Qed.
