(* ===== verification/Layout.v ===== *)
(** * Native record layouts ([native/codegen/native_layout.h])

    [native_layouts] computes the C layout of a type: size, alignment and field
    offsets, on 64-bit words.  It memoises finished records by name and refuses
    records that contain themselves by value.  [has_layout] is the declarative
    C layout the computation refines. *)

From S2P Require Import Prelude Domains IR Reader Types.

Local Open Scope string_scope.
Local Open Scope list_scope.
Local Open Scope N_scope.

(** ** 64-bit words *)

Definition u64_wrap (n : N) : N := n mod 2 ^ 64.
Definition u64_add (a b : N) : N := u64_wrap (a + b).
Definition u64_sub (a b : N) : N := u64_wrap (a + 2 ^ 64 - b).
Definition u64_mul (a b : N) : N := u64_wrap (a * b).
Definition u64_not (a : N) : N := u64_max - a.

Record native_layout := mk_layout {
  lay_size : N;
  lay_alignment : N;
  lay_offsets : list N;
}.

#[export] Instance native_layout_eq_dec : EqDecision native_layout.
Proof. solve_decision. Defined.

(** The memo of an instance of [native_layouts]. *)
Record native_layouts := mk_layouts {
  completed_ : gmap string native_layout;
  visiting_ : gset string;
}.

Definition no_layouts : native_layouts := mk_layouts ∅ ∅.

Definition reject {A} (message : string) : result A := Throw (reader_error invalid_type message 0).
Definition reject_when (condition : bool) (message : string) : result unit :=
  when condition (reader_error invalid_type message 0).

Definition maximum_size : N := 1073741824.

Definition align_up (value alignment : N) : N :=
  N.land (u64_sub (u64_add value alignment) 1) (u64_not (u64_sub alignment 1)).

Section layouts.
(** [module_]. *)
Variable module_ : ir_module.

Definition declaration (value : type) : result native_record :=
  match ty_symbol value with
  | Some symbol =>
      reject_when (negb (tag_eqb (ty_tag value) NERI_IR_TYPE_NATIVE_RECORD_V1) ||
                   negb (tag_eqb (sym_kind symbol) NERI_IR_SYMBOL_NATIVE_RECORD_V1) ||
                   negb (empty (ty_arguments value)) || negb (ty_element_count value =? 0))
        "Invalid native record type.";;
      match find (λ record, String.eqb (sym_module (nr_id record)) (sym_module symbol) &&
                            String.eqb (sym_semantic_name (nr_id record)) (sym_semantic_name symbol))
              (mod_native_records module_) with
      | Some record => Ok record
      | None => reject "Native record type references a missing declaration."
      end
  | None => reject "Invalid native record type."
  end.

(** Recursive calls of [layout] at a given depth. *)
Definition layout_call : Type := type → N → native_layouts → result (native_layout * native_layouts).

Section body.
Variable layout : layout_call.

Fixpoint validate_pointee (element : type) (depth : N) (allow_void : bool)
    (st : native_layouts) : result native_layouts :=
  reject_when (128 <=? depth) "Native pointer element exceeds 128 nested types.";;
  match element with
  | mk_type tag symbol arguments element_count =>
      if tag_eqb tag NERI_IR_TYPE_VOID_V1 then
        reject_when (negb allow_void || has_value symbol || negb (empty arguments) ||
                     negb (element_count =? 0)) "Invalid void pointer element.";;
        Ok st
      else if tag_eqb tag NERI_IR_TYPE_NATIVE_RECORD_V1 then
        declaration element;; Ok st
      else if tag_eqb tag NERI_IR_TYPE_FIXED_ARRAY_V1 then
        reject_when (has_value symbol || negb (size_is arguments 1) || (element_count =? 0))
          "Invalid fixed native array.";;
        match arguments with
        | argument :: _ => validate_pointee argument (depth + 1) false st
        | [] => Throw (undefined "front() of an empty vector")
        end
      else
        '(_, st) ← layout element (depth + 1) st;
        Ok st
  end.

Definition validate_pointer (value : type) (depth : N) (st : native_layouts)
    : result native_layouts :=
  reject_when ((128 <=? depth) || has_value (ty_symbol value) ||
               negb (size_is (ty_arguments value) 1) || negb (ty_element_count value =? 0))
    "Invalid native pointer shape.";;
  argument ← front (ty_arguments value);
  validate_pointee argument (depth + 1) true st.

(** One field of a record: the layout so far and the memo. *)
Definition layout_field (is_union : bool) (depth : N) (field : field)
    (acc : native_layout * native_layouts) : result (native_layout * native_layouts) :=
  let '(result, st) := acc in
  '(member, st) ← layout (fld_value_type field) (depth + 1) st;
  let alignment := N.max (lay_alignment result) (lay_alignment member) in
  let offset := if is_union then 0 else align_up (lay_size result) (lay_alignment member) in
  let size := N.max (lay_size result) (u64_add offset (lay_size member)) in
  reject_when (maximum_size <? size) "Native record exceeds one GiB.";;
  Ok (mk_layout size alignment (lay_offsets result ++ [offset]), st).

Definition layout_record (value : type) (depth : N) (st : native_layouts)
    : result (native_layout * native_layouts) :=
  record ← declaration value;
  let key := sym_semantic_name (nr_id record) in
  match completed_ st !! key with
  | Some found => Ok (found, st)
  | None =>
      reject_when (bool_decide (key ∈ visiting_ st)) "Native layout is recursive by value.";;
      let st := mk_layouts (completed_ st) ({[key]} ∪ visiting_ st) in
      reject_when (empty (nr_fields record)) "Native records require at least one field.";;
      '(result, st) ← for_state (nr_fields record) (mk_layout 0 1 [], st)
                        (layout_field (nr_is_union record) depth);
      let size := align_up (lay_size result) (lay_alignment result) in
      reject_when (maximum_size <? size) "Native record exceeds one GiB.";;
      let result := mk_layout size (lay_alignment result) (lay_offsets result) in
      let completed := match completed_ st !! key with
                       | Some _ => completed_ st
                       | None => <[key := result]> (completed_ st)
                       end in
      Ok (result, mk_layouts completed (visiting_ st ∖ {[key]}))
  end.

(** One parameter or the result (index zero) of a C function signature. *)
Definition layout_signature_part (depth : N) (part : nat * type) (st : native_layouts)
    : result native_layouts :=
  let '(index, argument) := part in
  if (index =? 0)%nat && tag_eqb (ty_tag argument) NERI_IR_TYPE_VOID_V1 then
    reject_when (has_value (ty_symbol argument) || negb (empty (ty_arguments argument)) ||
                 negb (ty_element_count argument =? 0)) "Invalid void C function result.";;
    Ok st
  else
    reject_when (tag_eqb (ty_tag argument) NERI_IR_TYPE_NATIVE_RECORD_V1 ||
                 tag_eqb (ty_tag argument) NERI_IR_TYPE_FIXED_ARRAY_V1)
      "C function signatures require scalars and pointers.";;
    '(_, st) ← layout argument (depth + 1) st;
    Ok st.

Definition layout_c_function (value : type) (depth : N) (st : native_layouts)
    : result (native_layout * native_layouts) :=
  reject_when (has_value (ty_symbol value) || empty (ty_arguments value))
    "Invalid C function pointer shape.";;
  st ← for_state (imap pair (ty_arguments value)) st (layout_signature_part depth);
  Ok (mk_layout 8 8 [], st).

Definition layout_pointer (value : type) (depth : N) (st : native_layouts)
    : result (native_layout * native_layouts) :=
  pointer ← (if tag_eqb (ty_tag value) NERI_IR_TYPE_OPTIONAL_V1 then
               reject_when (has_value (ty_symbol value) || negb (size_is (ty_arguments value) 1) ||
                  match ty_arguments value with
                  | argument :: _ => negb (tag_eqb (ty_tag argument) NERI_IR_TYPE_POINTER_V1) &&
                                     negb (tag_eqb (ty_tag argument) NERI_IR_TYPE_C_FUNCTION_V1)
                  | [] => true
                  end) "Only pointer optionals have a C-compatible layout.";;
               front (ty_arguments value)
             else Ok value);
  st ← (if tag_eqb (ty_tag pointer) NERI_IR_TYPE_C_FUNCTION_V1 then
          '(_, st) ← layout pointer (depth + 1) st; Ok st
        else validate_pointer pointer (depth + 1) st);
  Ok (mk_layout 8 8 [], st).

Definition layout_fixed_array (value : type) (depth : N) (st : native_layouts)
    : result (native_layout * native_layouts) :=
  reject_when (has_value (ty_symbol value) || negb (size_is (ty_arguments value) 1) ||
               (ty_element_count value =? 0)) "Invalid fixed native array.";;
  argument ← front (ty_arguments value);
  '(element, st) ← layout argument (depth + 1) st;
  if lay_size element =? 0 then Throw (undefined "division by zero") else
  reject_when (maximum_size / lay_size element <? ty_element_count value)
    "Native array exceeds one GiB.";;
  Ok (mk_layout (u64_mul (lay_size element) (ty_element_count value)) (lay_alignment element) [],
      st).

Definition layout_scalar (value : type) (st : native_layouts)
    : result (native_layout * native_layouts) :=
  reject_when (has_value (ty_symbol value) || negb (empty (ty_arguments value)))
    "Invalid native scalar shape.";;
  let bits := c_bits (scalar_properties (ty_tag value)) in
  if negb (bits =? 0) then Ok (mk_layout (bits / 8) (bits / 8) [], st)
  else reject "Type has no C-compatible inline layout.".

Definition layout_body : layout_call := λ value depth st,
  reject_when (128 <=? depth) "Native layout exceeds 128 nested types.";;
  if tag_eqb (ty_tag value) NERI_IR_TYPE_FIXED_ARRAY_V1 then layout_fixed_array value depth st
  else
    reject_when (negb (ty_element_count value =? 0)) "Only fixed arrays carry an element count.";;
    if tag_eqb (ty_tag value) NERI_IR_TYPE_NATIVE_RECORD_V1 then layout_record value depth st
    else if tag_eqb (ty_tag value) NERI_IR_TYPE_C_FUNCTION_V1 then layout_c_function value depth st
    else if tag_eqb (ty_tag value) NERI_IR_TYPE_POINTER_V1 ||
            tag_eqb (ty_tag value) NERI_IR_TYPE_OPTIONAL_V1 then layout_pointer value depth st
    else layout_scalar value st.
End body.

Fixpoint layout_at (fuel : nat) : layout_call :=
  match fuel with
  | O => λ _ _ _, Throw (undefined "out of fuel")
  | S fuel => layout_body (layout_at fuel)
  end.

(** Calls nest to depth 128, where [layout] rejects. *)
Definition layout_fuel : nat := 129.

Definition layout (value : type) (st : native_layouts) : result (native_layout * native_layouts) :=
  layout_at layout_fuel value 0 st.

(** [(void)native_layouts(module).layout(value)]. *)
Definition fresh_layout (value : type) : result native_layout :=
  '(result, _) ← layout value no_layouts;
  Ok result.
End layouts.

(** ** The declarative layout *)

(** The least multiple of [alignment] from [value] on. *)
Definition align_to (value alignment : N) : N := (value + alignment - 1) / alignment * alignment.

(** Placing the next member of a record. *)
Definition place_member (is_union : bool) (acc member : native_layout) : native_layout :=
  let offset := if is_union then 0 else align_to (lay_size acc) (lay_alignment member) in
  mk_layout (N.max (lay_size acc) (offset + lay_size member))
    (N.max (lay_alignment acc) (lay_alignment member)) (lay_offsets acc ++ [offset]).

Definition place_members (is_union : bool) (members : list native_layout) : native_layout :=
  fold_left (place_member is_union) members (mk_layout 0 1 []).

Definition record_layout (is_union : bool) (members : list native_layout) : native_layout :=
  let placed := place_members is_union members in
  mk_layout (align_to (lay_size placed) (lay_alignment placed)) (lay_alignment placed)
    (lay_offsets placed).

(** Pointers, optional pointers and C functions are one word. *)
Definition word_tag (tag : neri_ir_type_tag_v1) : bool :=
  tag_eqb tag NERI_IR_TYPE_C_FUNCTION_V1 || tag_eqb tag NERI_IR_TYPE_POINTER_V1 ||
  tag_eqb tag NERI_IR_TYPE_OPTIONAL_V1.

Inductive has_layout (m : ir_module) : type → native_layout → Prop :=
| layout_of_scalar tag :
    c_bits (scalar_properties tag) ≠ 0 →
    has_layout m (mk_type tag None [] 0)
      (mk_layout (c_bits (scalar_properties tag) / 8) (c_bits (scalar_properties tag) / 8) [])
| layout_of_word tag symbol arguments :
    word_tag tag = true → has_layout m (mk_type tag symbol arguments 0) (mk_layout 8 8 [])
| layout_of_array element l count :
    has_layout m element l → count ≠ 0 → lay_size l * count <= maximum_size →
    has_layout m (mk_type NERI_IR_TYPE_FIXED_ARRAY_V1 None [element] count)
      (mk_layout (lay_size l * count) (lay_alignment l) [])
| layout_of_record t r members :
    declaration m t = Ok r → nr_fields r ≠ [] →
    Forall2 (λ f l, has_layout m (fld_value_type f) l) (nr_fields r) members →
    lay_size (record_layout (nr_is_union r) members) <= maximum_size →
    has_layout m t (record_layout (nr_is_union r) members).

(** Sizes and alignments that occur: positive sizes up to one GiB, a power of two
    up to the word size that divides the size. *)
Definition sane_layout (l : native_layout) : Prop :=
  0 < lay_size l ∧ lay_size l <= maximum_size ∧
  (lay_alignment l = 1 ∨ lay_alignment l = 4 ∨ lay_alignment l = 8) ∧
  (lay_alignment l | lay_size l).

(** ** [align_up] *)

(** The alignments that occur. *)
Lemma small_power k : k <= 4 → k = 0 ∨ k = 1 ∨ k = 2 ∨ k = 3 ∨ k = 4.
Proof. lia. Qed.

Lemma land_mask x k : k <= 4 → x < 2 ^ 64 → N.land x (u64_not (N.ones k)) = x / 2 ^ k * 2 ^ k.
Proof.
  intros Hk Hx. rewrite <-N.shiftr_div_pow2, <-N.shiftl_mul_pow2, <-N.ldiff_ones_r.
  assert (u64_not (N.ones k) = N.ldiff (N.ones 64) (N.ones k)) as ->.
  { by apply small_power in Hk as [->|[->|[->|[->| ->]]]]. }
  transitivity (N.ldiff (N.land x (N.ones 64)) (N.ones k)).
  - apply N.bits_inj. intros n. rewrite N.land_spec, !N.ldiff_spec, N.land_spec.
    by rewrite andb_assoc.
  - by rewrite N.land_ones, N.mod_small.
Qed.

Lemma align_up_wide value k :
  k <= 4 → value + 16 < 2 ^ 64 → align_up value (2 ^ k) = align_to value (2 ^ k).
Proof.
  intros Hk Hv. unfold align_up, align_to.
  assert (1 <= 2 ^ k ∧ 2 ^ k <= 16) as [H1 H16].
  { by apply small_power in Hk as [->|[->|[->|[->| ->]]]]. }
  assert (u64_sub (2 ^ k) 1 = N.ones k) as -> by by apply small_power in Hk as [->|[->|[->|[->| ->]]]].
  change (2 ^ 64) with 18446744073709551616 in *.
  assert (u64_sub (u64_add value (2 ^ k)) 1 = value + 2 ^ k - 1) as ->.
  { unfold u64_sub, u64_add, u64_wrap. change (2 ^ 64) with 18446744073709551616.
    rewrite (N.mod_small (value + 2 ^ k)) by lia.
    replace (value + 2 ^ k + 18446744073709551616 - 1)
      with (value + 2 ^ k - 1 + 1 * 18446744073709551616) by lia.
    rewrite N.Div0.mod_add. apply N.mod_small. lia. }
  apply land_mask; [done|]. change (2 ^ 64) with 18446744073709551616. lia.
Qed.

Lemma align_up_exact value k :
  k <= 3 → value <= 2 * maximum_size → align_up value (2 ^ k) = align_to value (2 ^ k).
Proof.
  intros Hk Hv. apply align_up_wide; [lia|]. unfold maximum_size in Hv.
  change (2 ^ 64) with 18446744073709551616. lia.
Qed.

Lemma sane_alignment_pow l : sane_layout l → ∃ k, k <= 3 ∧ lay_alignment l = 2 ^ k.
Proof.
  intros (_ & _ & [H|[H|H]] & _); rewrite H; [by exists 0|by exists 2|by exists 3].
Qed.

Lemma align_to_spec value a :
  0 < a → value <= align_to value a ∧ align_to value a < value + a ∧ (a | align_to value a).
Proof.
  intros Ha. unfold align_to.
  pose proof (N.div_mod (value + a - 1) a ltac:(lia)) as Hdm.
  pose proof (N.mod_lt (value + a - 1) a ltac:(lia)) as Hlt.
  rewrite (N.mul_comm a) in Hdm. revert Hdm Hlt.
  generalize ((value + a - 1) / a) ((value + a - 1) mod a). intros q r.
  pose proof (N.divide_factor_r a q). generalize dependent (q * a). intros. split_and!; [lia|lia|done].
Qed.

(** ** The computation, for any relation closed under the layout rules *)

Section computation.
Variable m : ir_module.
Variable R : type → native_layout → Prop.

Hypothesis R_sane : ∀ t l, R t l → sane_layout l.
Hypothesis R_scalar : ∀ tag, c_bits (scalar_properties tag) ≠ 0 →
  R (mk_type tag None [] 0)
    (mk_layout (c_bits (scalar_properties tag) / 8) (c_bits (scalar_properties tag) / 8) []).
Hypothesis R_word : ∀ tag symbol arguments, word_tag tag = true →
  R (mk_type tag symbol arguments 0) (mk_layout 8 8 []).
Hypothesis R_array : ∀ t l count,
  R t l → count ≠ 0 → lay_size l * count <= maximum_size →
  R (mk_type NERI_IR_TYPE_FIXED_ARRAY_V1 None [t] count)
    (mk_layout (lay_size l * count) (lay_alignment l) []).
Hypothesis R_record : ∀ t r members,
  declaration m t = Ok r → nr_fields r ≠ [] →
  Forall2 (λ f l, R (fld_value_type f) l) (nr_fields r) members →
  lay_size (record_layout (nr_is_union r) members) <= maximum_size →
  R t (record_layout (nr_is_union r) members).
(** The memo is keyed by the record name alone. *)
Hypothesis R_name : ∀ t t' r r' l,
  declaration m t = Ok r → declaration m t' = Ok r' →
  sym_semantic_name (nr_id r) = sym_semantic_name (nr_id r') → R t l → R t' l.

Definition memo_ok (st : native_layouts) : Prop :=
  ∀ key l t r, completed_ st !! key = Some l → declaration m t = Ok r →
    sym_semantic_name (nr_id r) = key → R t l.

Lemma memo_ok_empty : memo_ok no_layouts.
Proof. intros key l t r H. simpl in H. by rewrite lookup_empty in H. Qed.

Lemma ensures_reject_when c msg : ensures (reject_when c msg) (λ _, c = false).
Proof. apply ensures_when. Qed.

Lemma declaration_defined t : defined (declaration m t).
Proof.
  unfold declaration. destruct (ty_symbol t); [|done].
  apply defined_bind; [apply defined_when|]. intros _ _. by case_match.
Qed.

Section step.
Variable rec : layout_call.
Variable depth : N.
Hypothesis rec_ok : ∀ v d st, depth < d → memo_ok st →
  ensures (rec v d st) (λ p, R v p.1 ∧ memo_ok p.2).

Lemma validate_pointee_ok element d allow_void st :
  depth < d → memo_ok st → ensures (validate_pointee m rec element d allow_void st) memo_ok.
Proof.
  revert d allow_void st. induction element as [tag symbol arguments count IH] using type_nested_ind.
  intros d allow_void st Hd Hst. cbn [validate_pointee].
  eapply ensures_bind; [apply ensures_reject_when|]. intros _ _.
  destruct (tag_eqb tag NERI_IR_TYPE_VOID_V1).
  { eapply ensures_bind; [apply ensures_reject_when|]. intros _ _. by apply ensures_Ok. }
  destruct (tag_eqb tag NERI_IR_TYPE_NATIVE_RECORD_V1).
  { eapply ensures_bind; [apply ensures_true, declaration_defined|]. intros r _. by apply ensures_Ok. }
  destruct (tag_eqb tag NERI_IR_TYPE_FIXED_ARRAY_V1).
  - eapply ensures_bind; [apply ensures_reject_when|]. intros [] Hc. inv_ok. unfold size_is in *.
    destruct arguments as [|argument [|]]; [done| |done]. inversion_clear IH as [|?? Hrec _].
    apply Hrec; [lia|done].
  - eapply ensures_bind; [apply rec_ok; [lia|done]|]. intros [l st'] [_ Hst']. by apply ensures_Ok.
Qed.

Lemma validate_pointer_ok v d st :
  depth < d → memo_ok st → ensures (validate_pointer m rec v d st) memo_ok.
Proof.
  intros Hd Hst. unfold validate_pointer.
  eapply ensures_bind; [apply ensures_reject_when|]. intros [] Hc. inv_ok. unfold size_is in *.
  destruct (ty_arguments v) as [|argument [|]]; [done| |done]. simpl.
  apply validate_pointee_ok; [lia|done].
Qed.

Lemma layout_pointer_ok v st :
  word_tag (ty_tag v) = true → ty_element_count v = 0 → memo_ok st →
  ensures (layout_pointer m rec v depth st) (λ p, R v p.1 ∧ memo_ok p.2).
Proof.
  intros Hw Hcount Hst. unfold layout_pointer.
  eapply (ensures_bind _ _ (λ _, True)).
  { destruct (tag_eqb (ty_tag v) NERI_IR_TYPE_OPTIONAL_V1); [|by apply ensures_Ok].
    eapply ensures_bind; [apply ensures_reject_when|]. intros [] Hc. inv_ok. unfold size_is in *.
    destruct (ty_arguments v); [done|]. by apply ensures_Ok. }
  intros pointer _. apply (ensures_bind _ _ memo_ok).
  { destruct (tag_eqb (ty_tag pointer) NERI_IR_TYPE_C_FUNCTION_V1).
    - eapply ensures_bind; [apply rec_ok; [lia|done]|]. intros [l st'] [_ ?]. by apply ensures_Ok.
    - apply validate_pointer_ok; [lia|done]. }
  intros st' Hst'. apply ensures_Ok. split; [|done].
  destruct v as [tag symbol arguments count]. simpl in *. subst count. by apply R_word.
Qed.

Lemma layout_c_function_ok v st :
  word_tag (ty_tag v) = true → ty_element_count v = 0 → memo_ok st →
  ensures (layout_c_function rec v depth st) (λ p, R v p.1 ∧ memo_ok p.2).
Proof.
  intros Hw Hcount Hst. unfold layout_c_function.
  eapply ensures_bind; [apply ensures_reject_when|]. intros _ _.
  eapply ensures_bind; [apply (ensures_for_state memo_ok); [|done]|].
  - intros [index argument] st' _ Hst'. unfold layout_signature_part. case_match.
    + eapply ensures_bind; [apply ensures_reject_when|]. intros _ _. by apply ensures_Ok.
    + eapply ensures_bind; [apply ensures_reject_when|]. intros _ _.
      eapply ensures_bind; [apply rec_ok; [lia|done]|]. intros [l st''] [_ ?]. by apply ensures_Ok.
  - intros st' Hst'. apply ensures_Ok. split; [|done].
    destruct v as [tag symbol arguments count]. simpl in *. subst count. by apply R_word.
Qed.

Lemma layout_scalar_ok v st :
  ty_element_count v = 0 → memo_ok st →
  ensures (layout_scalar v st) (λ p, R v p.1 ∧ memo_ok p.2).
Proof.
  intros Hcount Hst. unfold layout_scalar.
  eapply ensures_bind; [apply ensures_reject_when|]. intros [] Hc. inv_ok.
  destruct v as [tag [s|] [|] count]; simpl in *; try done. subst count.
  destruct (N.eqb_spec (c_bits (scalar_properties tag)) 0); simpl; [by apply ensures_reader_error|].
  apply ensures_Ok. split; [by apply R_scalar|done].
Qed.

Lemma layout_fixed_array_ok v st :
  ty_tag v = NERI_IR_TYPE_FIXED_ARRAY_V1 → memo_ok st →
  ensures (layout_fixed_array rec v depth st) (λ p, R v p.1 ∧ memo_ok p.2).
Proof.
  intros Htag Hst. unfold layout_fixed_array.
  eapply ensures_bind; [apply ensures_reject_when|]. intros [] Hc. inv_ok. unfold size_is in *.
  destruct v as [tag [s|] [|argument [|]] count]; simpl in *; try done. subst tag.
  eapply ensures_bind; [apply rec_ok; [lia|done]|]. intros [l st'] [Hl Hst']. simpl in *.
  pose proof (R_sane _ _ Hl) as (Hpos & Hmax & _).
  destruct (N.eqb_spec (lay_size l) 0); [lia|].
  eapply ensures_bind; [apply ensures_reject_when|]. intros [] Hfit%N.ltb_ge.
  assert (lay_size l * count <= maximum_size) as Hsize.
  { etransitivity; [|apply (N.Div0.mul_div_le maximum_size (lay_size l))].
    by apply N.mul_le_mono_l. }
  apply ensures_Ok. split; [|done]. simpl. unfold u64_mul, u64_wrap.
  rewrite N.mod_small by (unfold maximum_size in Hsize; change (2 ^ 64) with 18446744073709551616; lia).
  apply R_array; [done|by apply N.eqb_neq|done].
Qed.

(** A record under construction. *)
Definition placed (l : native_layout) : Prop :=
  lay_size l <= maximum_size ∧
  (lay_alignment l = 1 ∨ lay_alignment l = 4 ∨ lay_alignment l = 8).

Lemma align_up_placed size a :
  size <= maximum_size → (a = 1 ∨ a = 4 ∨ a = 8) → align_up size a = align_to size a.
Proof.
  intros Hs Ha. destruct Ha as [->|[->| ->]];
    [apply (align_up_exact size 0)|apply (align_up_exact size 2)|apply (align_up_exact size 3)]; lia.
Qed.

Lemma layout_field_ok u f acc st :
  placed acc → memo_ok st →
  ensures (layout_field rec u depth f (acc, st)) (λ p, ∃ member,
    R (fld_value_type f) member ∧ p.1 = place_member u acc member ∧ placed p.1 ∧ memo_ok p.2).
Proof.
  intros [Hsize Hal] Hst. unfold layout_field.
  eapply ensures_bind; [apply rec_ok; [lia|done]|]. intros [member st'] [Hmember Hst'].
  simpl in Hmember, Hst'. pose proof (R_sane _ _ Hmember) as (Hpos & Hmax & Halign & _).
  rewrite (align_up_placed (lay_size acc) (lay_alignment member)) by done.
  pose proof (align_to_spec (lay_size acc) (lay_alignment member) ltac:(lia)) as (_ & Hlt & _).
  set (offset := if u then 0 else align_to (lay_size acc) (lay_alignment member)).
  assert (u64_add offset (lay_size member) = offset + lay_size member) as ->.
  { unfold u64_add, u64_wrap. apply N.mod_small. change (2 ^ 64) with 18446744073709551616.
    unfold maximum_size in *. unfold offset. destruct u; lia. }
  eapply ensures_bind; [apply ensures_reject_when|]. intros [] Hfit%N.ltb_ge.
  apply ensures_Ok. exists member. split; [done|]. split; [done|]. split; [|done].
  split; simpl; [done|lia].
Qed.

Lemma layout_fields_ok u fields acc st :
  placed acc → memo_ok st →
  ensures (for_state fields (acc, st) (layout_field rec u depth)) (λ p, ∃ members,
    Forall2 (λ f l, R (fld_value_type f) l) fields members ∧
    p.1 = fold_left (place_member u) members acc ∧ placed p.1 ∧ memo_ok p.2).
Proof.
  revert acc st. induction fields as [|f fields IH]; intros acc st Hacc Hst; simpl.
  - apply ensures_Ok. by exists [].
  - eapply ensures_bind; [by apply layout_field_ok|].
    intros [acc' st'] (member & Hmember & Hacc' & Hplaced & Hst'). simpl in Hacc', Hplaced, Hst'.
    eapply ensures_weaken; [by apply IH|].
    intros p (members & HF & Hp & ?). exists (member :: members).
    split; [by constructor|]. split; [by rewrite Hp, Hacc'|done].
Qed.

Lemma layout_record_ok v st :
  memo_ok st → ensures (layout_record m rec v depth st) (λ p, R v p.1 ∧ memo_ok p.2).
Proof.
  intros Hst. unfold layout_record.
  eapply (ensures_bind _ _ (λ r, declaration m v = Ok r)).
  { split; [apply declaration_defined|done]. }
  intros r Hr. destruct (completed_ st !! _) as [found|] eqn:Hfound.
  { apply ensures_Ok. split; [|done]. by eapply Hst. }
  eapply ensures_bind; [apply ensures_reject_when|]. intros _ _.
  eapply ensures_bind; [apply ensures_reject_when|]. intros [] Hne.
  eapply ensures_bind; [apply layout_fields_ok; [|done]|].
  { split; simpl; [unfold maximum_size; lia|by left]. }
  intros [acc st'] (members & HF & Hacc & [Hsize Hal] & Hst').
  simpl in Hacc, Hsize, Hal, Hst'.
  rewrite align_up_placed by done.
  eapply ensures_bind; [apply ensures_reject_when|]. intros [] Hfit%N.ltb_ge.
  assert (R v (record_layout (nr_is_union r) members)) as HR.
  { apply R_record; [done|by destruct (nr_fields r)|done|].
    unfold record_layout, place_members. by rewrite <-Hacc. }
  replace (mk_layout (align_to (lay_size acc) (lay_alignment acc)) (lay_alignment acc) (lay_offsets acc))
    with (record_layout (nr_is_union r) members)
    by (unfold record_layout, place_members; by rewrite <-Hacc).
  apply ensures_Ok. split; [done|]. simpl. intros key l t r' Hl Ht Hkey. simpl in Hl.
  destruct (completed_ st' !! sym_semantic_name (nr_id r)) eqn:Hc; [by eapply Hst'|].
  apply lookup_insert_Some in Hl as [[<- <-]|[_ Hl]]; [|by eapply Hst'].
  by apply (R_name v t r r').
Qed.

Lemma layout_body_ok v st :
  memo_ok st → ensures (layout_body m rec v depth st) (λ p, R v p.1 ∧ memo_ok p.2).
Proof.
  intros Hst. unfold layout_body. eapply ensures_bind; [apply ensures_reject_when|]. intros _ _.
  destruct (tag_eqb (ty_tag v) NERI_IR_TYPE_FIXED_ARRAY_V1) eqn:Harray.
  { apply layout_fixed_array_ok; [by apply tag_eqb_eq|done]. }
  eapply ensures_bind; [apply ensures_reject_when|]. intros [] Hcount.
  apply negb_false_iff, N.eqb_eq in Hcount.
  destruct (tag_eqb (ty_tag v) NERI_IR_TYPE_NATIVE_RECORD_V1); [by apply layout_record_ok|].
  destruct (tag_eqb (ty_tag v) NERI_IR_TYPE_C_FUNCTION_V1) eqn:Hc.
  { apply layout_c_function_ok; [|done..]. unfold word_tag. by rewrite Hc. }
  destruct (_ || _) eqn:Hp; [|by apply layout_scalar_ok].
  apply layout_pointer_ok; [|done..]. unfold word_tag. by rewrite Hc.
Qed.
End step.

Lemma layout_at_ok fuel v depth st :
  (0 < fuel)%nat → 129 <= N.of_nat fuel + depth → memo_ok st →
  ensures (layout_at m fuel v depth st) (λ p, R v p.1 ∧ memo_ok p.2).
Proof.
  revert v depth st. induction fuel as [|fuel IH]; intros v depth st Hpos Hfuel Hst; [lia|].
  simpl. destruct (N.leb_spec 128 depth) as [Hdeep|Hdeep].
  - unfold layout_body. apply N.leb_le in Hdeep. rewrite Hdeep. apply ensures_reader_error.
  - apply layout_body_ok; [|done]. intros v' d st' Hd Hst'. apply IH; [lia|lia|done].
Qed.

Lemma layout_ok v st :
  memo_ok st → ensures (layout m v st) (λ p, R v p.1 ∧ memo_ok p.2).
Proof. intros Hst. apply layout_at_ok; [unfold layout_fuel; lia|unfold layout_fuel; lia|done]. Qed.
End computation.

(** ** Geometry of a record *)

Definition word_alignment (a : N) : Prop := a = 1 ∨ a = 4 ∨ a = 8.

(** Offsets are aligned, members lie inside the record and, in a struct, come
    one after the other without overlap; in a union all start at zero. *)
Definition well_placed (is_union : bool) (members : list native_layout) (l : native_layout) : Prop :=
  length (lay_offsets l) = length members ∧
  (∀ i member offset, members !! i = Some member → lay_offsets l !! i = Some offset →
     (lay_alignment member | offset) ∧ offset + lay_size member <= lay_size l ∧
     lay_alignment member <= lay_alignment l ∧ (is_union = true → offset = 0)) ∧
  (is_union = false → ∀ i j member offset offset', (i < j)%nat →
     members !! i = Some member → lay_offsets l !! i = Some offset →
     lay_offsets l !! j = Some offset' → offset + lay_size member <= offset').

Lemma place_members_snoc u members x :
  place_members u (members ++ [x]) = place_member u (place_members u members) x.
Proof. unfold place_members. by rewrite fold_left_app. Qed.

Lemma place_members_alignment u members :
  Forall sane_layout members → word_alignment (lay_alignment (place_members u members)).
Proof.
  induction members as [|x members IH] using rev_ind; intros HF; [by left|].
  rewrite Forall_app, Forall_singleton in HF. destruct HF as [HF Hx]. specialize (IH HF).
  destruct Hx as (_ & _ & Hal & _). rewrite place_members_snoc. unfold word_alignment in *. simpl. lia.
Qed.

Lemma place_members_well_placed u members :
  Forall sane_layout members → well_placed u members (place_members u members).
Proof.
  induction members as [|x members IH] using rev_ind; intros HF.
  { split; [done|]. split; [by intros []|]. by intros _ []. }
  rewrite Forall_app, Forall_singleton in HF. destruct HF as [HF Hx].
  destruct (IH HF) as (Hlen & Hin & Hsep). clear IH.
  rewrite place_members_snoc. set (acc := place_members u members) in *.
  destruct Hx as (Hpos & Hmax & Hal & Hdiv).
  set (off := if u then 0 else align_to (lay_size acc) (lay_alignment x)).
  pose proof (align_to_spec (lay_size acc) (lay_alignment x) ltac:(lia)) as (Hge & Hlt & Hmul).
  assert (lay_offsets (place_member u acc x) = lay_offsets acc ++ [off]) as Hoffs by done.
  assert (lay_size acc <= lay_size (place_member u acc x)) as Hmono by (simpl; lia).
  split; [|split].
  - rewrite Hoffs, !length_app. simpl. lia.
  - intros i member offset Hm Ho. rewrite Hoffs in Ho.
    apply lookup_app_Some in Hm as [Hm|[Hi Hm]].
    + rewrite lookup_app_l in Ho by (apply lookup_lt_Some in Hm; lia).
      destruct (Hin i member offset Hm Ho) as (? & ? & ? & ?). split_and!; [done|lia| |done]. simpl. lia.
    + apply list_lookup_singleton_Some in Hm as [Hi' <-].
      rewrite lookup_app_r, Hlen in Ho by lia.
      apply list_lookup_singleton_Some in Ho as [_ <-].
      unfold off. destruct u; simpl; (split_and!; [|lia|lia|done]); [by exists 0|done].
  - intros -> i j member offset offset' Hij Hm Ho Ho'. rewrite Hoffs in Ho, Ho'.
    assert (i < length members)%nat as Hi.
    { apply lookup_lt_Some in Ho'. rewrite length_app in Ho'. simpl in Ho'. lia. }
    rewrite lookup_app_l in Hm by done. rewrite lookup_app_l in Ho by lia.
    apply lookup_app_Some in Ho' as [Ho'|[Hj Ho']]; [by eapply (Hsep eq_refl i j)|].
    apply list_lookup_singleton_Some in Ho' as [_ <-].
    destruct (Hin i member offset Hm Ho) as (_ & Hfit & _). unfold off. lia.
Qed.

Lemma record_layout_well_placed u members :
  Forall sane_layout members → well_placed u members (record_layout u members).
Proof.
  intros HF. pose proof (place_members_alignment u members HF) as Hal.
  destruct (place_members_well_placed u members HF) as (Hlen & Hin & Hsep).
  pose proof (align_to_spec (lay_size (place_members u members))
    (lay_alignment (place_members u members)) ltac:(unfold word_alignment in Hal; lia)) as (Hge & _).
  split; [done|]. split; [|done].
  intros i member offset Hm Ho. destruct (Hin i member offset Hm Ho) as (? & ? & ? & ?).
  simpl. split_and!; try done. lia.
Qed.

Lemma record_layout_sane u members :
  members ≠ [] → Forall sane_layout members →
  lay_size (record_layout u members) <= maximum_size → sane_layout (record_layout u members).
Proof.
  intros Hne HF Hmax. pose proof (place_members_alignment u members HF) as Hal.
  pose proof (align_to_spec (lay_size (place_members u members))
    (lay_alignment (place_members u members)) ltac:(unfold word_alignment in Hal; lia)) as (Hge & _ & Hdiv).
  split_and!; [|done|done|done].
  destruct members as [|x members]; [done|].
  destruct (record_layout_well_placed u (x :: members) HF) as (Hlen & Hin & _).
  destruct (lookup_lt_is_Some_2 (lay_offsets (record_layout u (x :: members))) 0) as [o Ho];
    [rewrite Hlen; simpl; lia|].
  destruct (Hin 0%nat x o eq_refl Ho) as (_ & Hfit & _).
  inversion_clear HF as [|?? (Hpos & _) _]. lia.
Qed.

(** ** Layouts are sane, whatever the memo key collisions *)

Lemma scalar_layout_sane tag :
  c_bits (scalar_properties tag) ≠ 0 →
  sane_layout (mk_layout (c_bits (scalar_properties tag) / 8) (c_bits (scalar_properties tag) / 8) []).
Proof.
  intros Hb. destruct tag; (split_and!; [reflexivity|done|simpl; tauto|reflexivity] || done).
Qed.

Lemma word_layout_sane : sane_layout (mk_layout 8 8 []).
Proof. split_and!; [done|done|simpl; tauto|by exists 1]. Qed.

Lemma array_layout_sane l count :
  sane_layout l → count ≠ 0 → lay_size l * count <= maximum_size →
  sane_layout (mk_layout (lay_size l * count) (lay_alignment l) []).
Proof.
  intros (Hpos & _ & Hal & Hdiv) Hc Hmax. split_and!; simpl; [nia|done|done|].
  by apply N.divide_mul_l.
Qed.

Lemma layout_sane_ok m v st :
  memo_ok m (λ _, sane_layout) st →
  ensures (layout m v st) (λ p, sane_layout p.1 ∧ memo_ok m (λ _, sane_layout) p.2).
Proof.
  apply (layout_ok m (λ _, sane_layout)); [done| | | | |].
  - apply scalar_layout_sane.
  - intros. apply word_layout_sane.
  - intros _ l count. apply array_layout_sane.
  - intros t r members _ Hne HF Hmax. apply record_layout_sane; [|by eapply Forall2_Forall_r; [exact HF|apply Forall_true; naive_solver]|done].
    intros ->. apply Forall2_nil_inv_r in HF. done.
  - done.
Qed.

(** ** Refinement of the declarative layout *)

Section refinement.
Variable m : ir_module.

Lemma has_layout_nested_ind (P : type → native_layout → Prop) :
  (∀ tag, c_bits (scalar_properties tag) ≠ 0 → P (mk_type tag None [] 0)
     (mk_layout (c_bits (scalar_properties tag) / 8) (c_bits (scalar_properties tag) / 8) [])) →
  (∀ tag symbol arguments, word_tag tag = true →
     P (mk_type tag symbol arguments 0) (mk_layout 8 8 [])) →
  (∀ element l count, has_layout m element l → P element l → count ≠ 0 →
     lay_size l * count <= maximum_size →
     P (mk_type NERI_IR_TYPE_FIXED_ARRAY_V1 None [element] count)
       (mk_layout (lay_size l * count) (lay_alignment l) [])) →
  (∀ t r members, declaration m t = Ok r → nr_fields r ≠ [] →
     Forall2 (λ f l, has_layout m (fld_value_type f) l ∧ P (fld_value_type f) l)
       (nr_fields r) members →
     lay_size (record_layout (nr_is_union r) members) <= maximum_size →
     P t (record_layout (nr_is_union r) members)) →
  ∀ t l, has_layout m t l → P t l.
Proof.
  intros Hscalar Hword Harray Hrecord. fix IH 3. intros t l [].
  - by apply Hscalar.
  - by apply Hword.
  - apply Harray; auto.
  - apply Hrecord; [done|done| |done].
    revert H1. generalize (nr_fields r). clear -IH. intros fields HF.
    induction HF as [|f l fs ls Hfl HF IHF]; constructor; auto.
Qed.

Lemma has_layout_sane t l : has_layout m t l → sane_layout l.
Proof.
  apply (has_layout_nested_ind (λ _, sane_layout)).
  - apply scalar_layout_sane.
  - intros. apply word_layout_sane.
  - intros. by apply array_layout_sane.
  - intros t' r members Ht Hne HF Hmax. apply record_layout_sane; [intros ->; by apply Forall2_nil_inv_r in HF| |done].
    eapply Forall2_Forall_r; [exact HF|]. apply Forall_true. naive_solver.
Qed.

Lemma declaration_tag t r : declaration m t = Ok r → ty_tag t = NERI_IR_TYPE_NATIVE_RECORD_V1.
Proof.
  unfold declaration. destruct (ty_symbol t); [|done]. intros (u & Hc & _)%bind_Ok_inv.
  apply when_Ok in Hc. inv_ok. by apply tag_eqb_eq.
Qed.

(** A layout of a record type comes from the record rule. *)
Lemma has_layout_record_inv t l :
  has_layout m t l → ty_tag t = NERI_IR_TYPE_NATIVE_RECORD_V1 →
  ∃ r members, declaration m t = Ok r ∧ nr_fields r ≠ [] ∧
    Forall2 (λ f l, has_layout m (fld_value_type f) l) (nr_fields r) members ∧
    lay_size l <= maximum_size ∧ l = record_layout (nr_is_union r) members.
Proof. intros [] Htag; simpl in Htag; subst; try done. by eexists _, _. Qed.

Lemma has_layout_declaration t l r :
  declaration m t = Ok r → has_layout m t l →
  ∃ members, nr_fields r ≠ [] ∧
    Forall2 (λ f l, has_layout m (fld_value_type f) l) (nr_fields r) members ∧
    lay_size l <= maximum_size ∧ l = record_layout (nr_is_union r) members.
Proof.
  intros Hr (r' & members & Hr' & ?)%has_layout_record_inv; [|by eapply declaration_tag].
  rewrite Hr in Hr'. injection Hr' as <-. by exists members.
Qed.

Lemma Forall2_unique {A B} (P : A → B → Prop) (Q : A → B → Prop) l k k' :
  (∀ a b b', P a b → Q a b' → b = b') → Forall2 P l k → Forall2 Q l k' → k = k'.
Proof.
  intros Huniq HP. revert k'. induction HP as [|a b l k Hab HP IH]; intros k' HQ; inversion HQ; subst; [done|].
  f_equal; eauto.
Qed.

(** The declarative layout is a partial function of the type. *)
Lemma has_layout_functional t l l' : has_layout m t l → has_layout m t l' → l = l'.
Proof.
  intros Hl. revert t l Hl l'.
  apply (has_layout_nested_ind (λ t l, ∀ l', has_layout m t l' → l = l'));
    [intros tag Hb l' Hl'|intros tag symbol arguments Hw l' Hl'
    |intros element l count Hl IH Hc Hmax l' Hl'|intros t r members Ht Hne HF Hmax l' Hl'].
  - inversion Hl' as [?|??? Hw| |??? Ht]; subst; try done. by destruct tag.
  - inversion Hl' as [? Hb|??? Hw'| |??? Ht]; subst; try done; [by destruct tag|].
    apply declaration_tag in Ht. simpl in Ht. by subst.
  - inversion Hl' as [? Hb|??? Hw'|??? Hl2|??? Ht]; subst; try done.
    by rewrite (IH _ Hl2).
  - apply (has_layout_declaration _ _ r) in Hl' as (members' & _ & HF' & _ & ->); [|done].
    f_equal. eapply Forall2_unique; [|exact HF|exact HF']. simpl. naive_solver.
Qed.

(** Record names that identify the declaration. *)
Definition unique_record_names : Prop :=
  NoDup (map (λ r, sym_semantic_name (nr_id r)) (mod_native_records m)).

Lemma declaration_In t r : declaration m t = Ok r → r ∈ mod_native_records m.
Proof.
  unfold declaration. destruct (ty_symbol t); [|done]. intros (u & _ & H)%bind_Ok_inv.
  case_match eqn:Hf; [|done]. simplify_eq. apply find_some in Hf as [Hin _].
  by apply list_elem_of_In.
Qed.

Lemma unique_record r r' :
  unique_record_names → r ∈ mod_native_records m → r' ∈ mod_native_records m →
  sym_semantic_name (nr_id r) = sym_semantic_name (nr_id r') → r = r'.
Proof.
  unfold unique_record_names. generalize (mod_native_records m). intros l.
  induction l as [|x l IH]; [set_solver|]. cbn [map]. rewrite NoDup_cons.
  intros [Hx Hl] Hr Hr' Hname. apply elem_of_cons in Hr as [->|Hr], Hr' as [->|Hr']; [done| | |auto].
  - exfalso. apply Hx. rewrite Hname. apply list_elem_of_fmap. by exists r'.
  - exfalso. apply Hx. rewrite <-Hname. apply list_elem_of_fmap. by exists r.
Qed.

Lemma layout_refines_ok v st :
  unique_record_names → memo_ok m (has_layout m) st →
  ensures (layout m v st) (λ p, has_layout m v p.1 ∧ memo_ok m (has_layout m) p.2).
Proof.
  intros Huniq. apply layout_ok.
  - apply has_layout_sane.
  - by constructor.
  - by constructor.
  - by constructor.
  - by econstructor.
  - intros t t' r r' l Ht Ht' Hname Hl.
    assert (r = r') as <- by (eapply unique_record; eauto using declaration_In).
    apply (has_layout_declaration _ _ r) in Hl as (members & Hne & HF & Hmax & ->); [|done].
    by econstructor.
Qed.
End refinement.

(** [u] is stored inside [t] by value. *)
Inductive inline_part (m : ir_module) (u t : type) : Prop :=
| part_of_array : ty_tag t = NERI_IR_TYPE_FIXED_ARRAY_V1 → u ∈ ty_arguments t → inline_part m u t
| part_of_record r f :
    declaration m t = Ok r → f ∈ nr_fields r → u = fld_value_type f → inline_part m u t.

Lemma has_layout_Acc m t l : has_layout m t l → Acc (inline_part m) t.
Proof.
  apply (has_layout_nested_ind m (λ t _, Acc (inline_part m) t)).
  - intros tag Hb. constructor. intros u [Htag _|r f Hr _ _]; [simpl in Htag; by subst|done].
  - intros tag symbol arguments Hw. constructor. intros u [Htag _|r f Hr _ _].
    + simpl in Htag. by subst.
    + apply declaration_tag in Hr. simpl in Hr. by subst.
  - intros element l0 count _ IH _ _. constructor. intros u [_ Hu|r f Hr _ _].
    + simpl in Hu. apply list_elem_of_singleton in Hu as ->. done.
    + by apply declaration_tag in Hr.
  - intros t0 r members Hr _ HF _. constructor. intros u [Htag _|r' f Hr' Hf ->].
    + apply declaration_tag in Hr. congruence.
    + rewrite Hr in Hr'. injection Hr' as <-.
      apply list_elem_of_lookup in Hf as [i Hi].
      by destruct (Forall2_lookup_l _ _ _ _ _ HF Hi) as (l1 & _ & _ & ?).
Qed.

(** ** Properties *)

Lemma fresh_layout_ok m v :
  unique_record_names m → ensures (fresh_layout m v) (has_layout m v).
Proof.
  intros Huniq. eapply ensures_bind; [apply layout_refines_ok; [done|apply memo_ok_empty]|].
  intros [l st] [Hl _]. by apply ensures_Ok.
Qed.

(** C39: where record names are unique, as the verifier makes sure, a layout computed with a fresh memo is the
    declarative C layout of the type, and that layout is unique. *)
Theorem layout_refines (m : ir_module) (v : type) (l : native_layout) :
  unique_record_names m → fresh_layout m v = Ok l →
  has_layout m v l ∧ ∀ l', has_layout m v l' → l' = l.
Proof.
  intros Huniq Hl. apply (fresh_layout_ok m v) in Hl; [|done].
  split; [done|]. intros l' Hl'. by eapply has_layout_functional.
Qed.

(** in a record layout every field is aligned and inside the record, the fields of
    a struct do not overlap and those of a union start at zero; the size is positive,
    at most one GiB and a multiple of the alignment. *)
Theorem record_fields_placed (m : ir_module) (v : type) (r : native_record) (l : native_layout) :
  unique_record_names m → declaration m v = Ok r → fresh_layout m v = Ok l →
  sane_layout l ∧ ∃ members,
    Forall2 (λ f, has_layout m (fld_value_type f)) (nr_fields r) members ∧
    well_placed (nr_is_union r) members l.
Proof.
  intros Huniq Hr Hl. apply (fresh_layout_ok m v) in Hl; [|done].
  split; [by eapply has_layout_sane|].
  apply (has_layout_declaration _ _ _ r) in Hl as (members & _ & HF & _ & ->); [|done].
  exists members. split; [done|]. apply record_layout_well_placed.
  eapply Forall2_Forall_r; [exact HF|]. apply Forall_true. intros f l. apply has_layout_sane.
Qed.

(** the layout computation has no undefined behaviour on any type: no division by
    zero, no access to a missing argument, and recursion ends within the depth limit. *)
Theorem layout_never_undefined (m : ir_module) (v : type) : defined (fresh_layout m v).
Proof.
  apply defined_bind; [|intros [l st] _; apply defined_Ok].
  eapply ensures_defined. apply layout_sane_ok. apply memo_ok_empty.
Qed.

(** a type that has a layout contains itself by value neither directly nor through
    records and arrays: by-value containment below it is well founded. *)
Theorem layout_not_recursive (m : ir_module) (v : type) (l : native_layout) :
  unique_record_names m → fresh_layout m v = Ok l → Acc (inline_part m) v.
Proof.
  intros Huniq Hl. apply (fresh_layout_ok m v) in Hl; [|done]. by eapply has_layout_Acc.
Qed.

(** ** Witnesses: a struct of a byte, a double and an array of three integers. *)

Definition sample_record_id : symbol_id :=
  mk_symbol "sample" NERI_IR_SYMBOL_NATIVE_RECORD_V1 "Point".

Definition sample_record_type : type :=
  mk_type NERI_IR_TYPE_NATIVE_RECORD_V1 (Some sample_record_id) [] 0.

Definition sample_field (name : string) (t : type) : field :=
  mk_field (mk_symbol "sample" NERI_IR_SYMBOL_FIELD_V1 name) t NERI_IR_ACCESS_PUBLIC_V1 None.

Definition sample_record : native_record :=
  mk_native_record sample_record_id false
    [sample_field "Point.tag" (plain_type NERI_IR_TYPE_BYTE_V1 []);
     sample_field "Point.x" (plain_type NERI_IR_TYPE_FLOAT_V1 []);
     sample_field "Point.xs" (mk_type NERI_IR_TYPE_FIXED_ARRAY_V1 None
       [plain_type NERI_IR_TYPE_INT32_V1 []] 3)].

Definition sample_layout_module : ir_module :=
  mk_module (mk_version 1 0) "sample" [NativeRecords] [] [] [] [] [] [sample_record] None.

Definition sample_layout : native_layout := mk_layout 32 8 [0; 8; 16].

Lemma sample_names_unique : unique_record_names sample_layout_module.
Proof. apply NoDup_singleton. Defined.

Lemma layout_refines_witness : has_layout sample_layout_module sample_record_type sample_layout.
Proof.
  apply (layout_refines sample_layout_module sample_record_type sample_layout sample_names_unique).
  vm_compute. reflexivity.
Defined.

Lemma record_fields_placed_witness : sane_layout sample_layout.
Proof.
  apply (record_fields_placed sample_layout_module sample_record_type sample_record sample_layout
    sample_names_unique); vm_compute; reflexivity.
Defined.

Lemma layout_not_recursive_witness : Acc (inline_part sample_layout_module) sample_record_type.
Proof.
  apply (layout_not_recursive sample_layout_module sample_record_type sample_layout sample_names_unique).
  vm_compute. reflexivity.
Defined.
