(* ===== verification/Index.v ===== *)
(** * Module lookups of the verifier ([native/codegen/ir_verifier.cpp])

    The verification index, the lookups through it or through the module itself
    (the two [VerificationContext]s of the source), source locations,
    inheritance, and declared types. *)

From S2P Require Import Prelude Domains IR Samples Reader Types Layout.

Local Open Scope string_scope.
Local Open Scope N_scope.

(** ** The index *)

Record found_field := mk_found_field {
  ff_owner : class_declaration;
  ff_value : field;
}.

Record module_verification_index := mk_index {
  idx_module : ir_module;
  idx_sources : gmap string source;
  idx_classes : gmap symbol_id class_declaration;
  idx_fields : gmap symbol_id found_field;
  idx_globals : gmap symbol_id global_declaration;
  idx_imports : gmap symbol_id import_declaration;
  idx_functions : gmap symbol_id function;
}.

(** [map.try_emplace(key, value)] and [map.emplace(key, value)]: the first entry
    of a key stays. *)
Definition try_emplace {K V} `{Countable K} (key : K) (value : V) (map : gmap K V) : gmap K V :=
  match map !! key with Some _ => map | None => <[key := value]> map end.

Definition index_of {K A V} `{Countable K} (key : A → K) (value : A → V) (l : list A) (map : gmap K V)
    : gmap K V :=
  fold_left (λ map item, try_emplace (key item) (value item) map) l map.

Definition index_fields (classes : list class_declaration) : gmap symbol_id found_field :=
  fold_left (λ fields declaration,
      index_of fld_id (mk_found_field declaration) (cls_fields declaration) fields) classes ∅.

Definition module_index (module : ir_module) : module_verification_index :=
  mk_index module
    (index_of src_id id (mod_sources module) ∅)
    (index_of cls_id id (mod_classes module) ∅)
    (index_fields (mod_classes module))
    (index_of glb_id id (mod_globals module) ∅)
    (index_of imp_id id (mod_imports module) ∅)
    (index_of fn_id id (mod_functions module) ∅).

Definition find_function (index : module_verification_index) (id : symbol_id) : option function :=
  idx_functions index !! id.

Definition find_import (index : module_verification_index) (id : symbol_id)
    : option import_declaration :=
  idx_imports index !! id.

Definition find_field (index : module_verification_index) (id : symbol_id) : option found_field :=
  idx_fields index !! id.

(** ** Verification contexts *)

(** What the location, inheritance and type checks need of their context. *)
Class VerificationContext (C : Type) := {
  verification_module : C → ir_module;
  find_class : C → symbol_id → option class_declaration;
  find_source : C → string → option source;
}.

(** Linear searches of the module. *)
Definition find_module_class (module : ir_module) (id : symbol_id) : option class_declaration :=
  find (λ item, same_symbol (cls_id item) id) (mod_classes module).

Definition find_module_source (module : ir_module) (id : string) : option source :=
  find (λ item, String.eqb (src_id item) id) (mod_sources module).

#[export] Instance module_context : VerificationContext ir_module := {|
  verification_module module := module;
  find_class := find_module_class;
  find_source := find_module_source;
|}.

#[export] Instance index_context : VerificationContext module_verification_index := {|
  verification_module := idx_module;
  find_class index id := idx_classes index !! id;
  find_source index id := idx_sources index !! id;
|}.

(** [std::ranges::find(module.required_features, feature) == end]. *)
Definition lacks_feature (module : ir_module) (feature : ir_feature) : bool :=
  negb (has_feature (mod_required_features module) feature).

Definition utf8_boundary (bytes : list byte) (index : N) : result bool :=
  if (index =? 0) || (index =? length_N bytes) then Ok true
  else b ← span_at bytes index; Ok (negb (N.land b 0xc0 =? 0x80)).

Section contexts.
Context {C : Type} `{!VerificationContext C}.

(** The condition of [verify_location], operands in evaluation order. *)
Definition misplaced_location (contents : list byte) (start len : N) : result bool :=
  if (length_N contents <? start) then Ok true
  else if (length_N contents - start <? len) then Ok true
  else
    at_start ← utf8_boundary contents start;
    if negb at_start then Ok true
    else at_end ← utf8_boundary contents (start + len); Ok (negb at_end).

Definition verify_location (location : option source_location) (context : C) : result unit :=
  match location with
  | None => Ok tt
  | Some location =>
      match find_source context (loc_source location) with
      | None => verify_fail invalid_source
                  ("Source location references missing source '" +:+ loc_source location +:+ "'.")
      | Some source =>
          misplaced ← misplaced_location (src_utf8 source) (loc_utf8_start location)
                        (loc_utf8_length location);
          fail_when misplaced invalid_source
            ("Source location is outside UTF-8 scalar boundaries for source '" +:+
             loc_source location +:+ "'.")
      end
  end.

Fixpoint is_same_or_base_loop (remaining : nat) (context : C) (current possible_base : symbol_id)
    : bool :=
  match remaining with
  | O => false
  | S remaining =>
      if same_symbol current possible_base then true
      else match find_class context current with
           | None => false
           | Some declaration =>
               match cls_base declaration with
               | None => false
               | Some base => is_same_or_base_loop remaining context base possible_base
               end
           end
  end.

Definition is_same_or_base (context : C) (derived possible_base : symbol_id) : bool :=
  is_same_or_base_loop (S (length (mod_classes (verification_module context)))) context
    derived possible_base.

(** The checks of [require_declared_type] on the type itself. *)
Definition require_declared_head (context : C) (value : type) (description : string)
    : result unit :=
  let module := verification_module context in
  fail_when (negb (tag_eqb (ty_tag value) NERI_IR_TYPE_FIXED_ARRAY_V1) &&
             negb (ty_element_count value =? 0))
    invalid_type "Only fixed arrays carry an element count.";;
  require_value_type value description;;
  fail_when (tag_eqb (ty_tag value) NERI_IR_TYPE_C_FUNCTION_V1 && lacks_feature module CInterop)
    unsupported_feature "C function types require c-interop-v1.";;
  (if tag_eqb (ty_tag value) NERI_IR_TYPE_NATIVE_RECORD_V1 ||
      tag_eqb (ty_tag value) NERI_IR_TYPE_FIXED_ARRAY_V1 then
     fail_when (lacks_feature module NativeRecords) unsupported_feature
       "Native aggregate types require native-records-v1.";;
     fresh_layout module value;;
     Ok tt
   else Ok tt);;
  fail_when (extended_scalar (ty_tag value) && lacks_feature module ExtendedScalars)
    unsupported_feature "Extended scalar types require extended-scalars-v1.";;
  if is_class value then
    symbol ← deref (ty_symbol value);
    fail_when (negb (has_value (find_class context symbol))) invalid_reference
      (description +:+ " references a missing class.")
  else Ok tt.

(** Whether argument [index] of [value] is exempt: void behind a pointer or as the
    result of a C function. *)
Definition exempt_argument (value : type) (index : nat) (argument : type) : bool :=
  (is_pointer value || (is_c_function value && (index =? 0)%nat)) && is_void argument.

Fixpoint require_declared_type (context : C) (value : type) (description : string)
    {struct value} : result unit :=
  require_declared_head context value description;;
  match value with
  | mk_type _ _ arguments _ =>
      (fix check index arguments :=
         match arguments with
         | [] => Ok tt
         | argument :: rest =>
             (if exempt_argument value index argument then Ok tt
              else require_declared_type context argument description);;
             check (S index) rest
         end) 0%nat arguments
  end.
End contexts.

(** ** Index lookups are first-match searches *)

Section index_lookup.
Context {K A V : Type} `{Countable K}.
Implicit Types (key : A → K) (value : A → V) (l : list A) (map : gmap K V).

Lemma try_emplace_lookup (k k' : K) (v : V) map :
  try_emplace k v map !! k' =
  match map !! k' with Some v' => Some v' | None => if bool_decide (k = k') then Some v else None end.
Proof.
  unfold try_emplace. destruct (map !! k) as [w|] eqn:Hk.
  - case_bool_decide as Hkk; [subst k'; by rewrite Hk|]. by destruct (map !! k').
  - case_bool_decide as Hkk; [subst k'; by rewrite lookup_insert_eq, Hk|].
    rewrite lookup_insert_ne by done. by destruct (map !! k').
Qed.

Lemma index_of_lookup key value l map k :
  index_of key value l map !! k =
  match map !! k with
  | Some v => Some v
  | None => value <$> find (λ x, bool_decide (key x = k)) l
  end.
Proof.
  unfold index_of. revert map. induction l as [|x l IH]; intros map; simpl.
  - by destruct (map !! k).
  - rewrite IH, try_emplace_lookup. destruct (map !! k); [done|]. by case_bool_decide.
Qed.

Lemma index_of_empty key value l k :
  index_of key value l ∅ !! k = value <$> find (λ x, bool_decide (key x = k)) l.
Proof. by rewrite index_of_lookup, lookup_empty. Qed.
End index_lookup.

Lemma find_ext {A} (f g : A → bool) l : (∀ x, f x = g x) → find f l = find g l.
Proof. intros Hfg. induction l as [|x l IH]; simpl; [done|]. by rewrite Hfg, IH. Qed.

Lemma same_symbol_decide a b : same_symbol a b = bool_decide (a = b).
Proof.
  destruct (same_symbol a b) eqn:H; symmetry.
  - apply bool_decide_eq_true. by apply same_symbol_eq.
  - apply bool_decide_eq_false. intros ->. by rewrite (proj2 (same_symbol_eq b b) eq_refl) in H.
Qed.

Lemma index_find_class m id : find_class (module_index m) id = find_class m id.
Proof.
  simpl. rewrite index_of_empty, option_fmap_id. apply find_ext. intros x. by rewrite same_symbol_decide.
Qed.

Lemma index_find_source m id : find_source (module_index m) id = find_source m id.
Proof.
  simpl. rewrite index_of_empty, option_fmap_id. apply find_ext. intros x.
  destruct (String.eqb_spec (src_id x) id); [by rewrite bool_decide_true|by rewrite bool_decide_false].
Qed.

Lemma index_find_function m id :
  find_function (module_index m) id = find (λ f, bool_decide (fn_id f = id)) (mod_functions m).
Proof. unfold find_function. simpl. by rewrite index_of_empty, option_fmap_id. Qed.

Lemma index_find_import m id :
  find_import (module_index m) id = find (λ i, bool_decide (imp_id i = id)) (mod_imports m).
Proof. unfold find_import. simpl. by rewrite index_of_empty, option_fmap_id. Qed.

Lemma find_key_Some {A K} `{EqDecision K} (key : A → K) l k x :
  find (λ y, bool_decide (key y = k)) l = Some x → x ∈ l ∧ key x = k.
Proof.
  intros [Hin Hk]%find_some. split; [by apply list_elem_of_In|]. by apply bool_decide_eq_true in Hk.
Qed.

(** With unique keys the search finds every declaration. *)
Lemma find_key_unique {A K} `{EqDecision K} (key : A → K) l x :
  NoDup (map key l) → x ∈ l → find (λ y, bool_decide (key y = key x)) l = Some x.
Proof.
  induction l as [|y l IH]; cbn [map find]; [set_solver|]. rewrite NoDup_cons. intros [Hy Hl].
  intros [->|Hx]%elem_of_cons; [by rewrite bool_decide_true|].
  rewrite bool_decide_false; [by apply IH|]. intros Heq. apply Hy. rewrite Heq.
  apply list_elem_of_fmap. by exists x.
Qed.

Lemma find_key_iff {A K} `{EqDecision K} (key : A → K) l k x :
  NoDup (map key l) → find (λ y, bool_decide (key y = k)) l = Some x ↔ x ∈ l ∧ key x = k.
Proof.
  intros Hn. split; [apply find_key_Some|]. intros [Hx <-]. by apply find_key_unique.
Qed.

(** ** Locations *)

(** A byte range of a source that starts and ends between scalars. *)
Definition at_boundary (contents : list byte) (i : N) : Prop :=
  i = 0 ∨ i = length_N contents ∨
  ∃ b, contents !! N.to_nat i = Some b ∧ N.land (Byte.to_N b) 0xc0 ≠ 0x80.

Definition location_ok {C} `{!VerificationContext C} (context : C) (l : source_location) : Prop :=
  ∃ s, find_source context (loc_source l) = Some s ∧
    loc_utf8_start l + loc_utf8_length l <= length_N (src_utf8 s) ∧
    at_boundary (src_utf8 s) (loc_utf8_start l) ∧
    at_boundary (src_utf8 s) (loc_utf8_start l + loc_utf8_length l).

Lemma utf8_boundary_run contents i :
  i <= length_N contents →
  ∃ b, utf8_boundary contents i = Ok b ∧ (b = true ↔ at_boundary contents i).
Proof.
  intros Hi. unfold utf8_boundary, at_boundary.
  destruct (N.eqb_spec i 0) as [|H0]; [eexists; split; [done|]; naive_solver|].
  destruct (N.eqb_spec i (length_N contents)) as [|Hn]; [eexists; split; [done|]; naive_solver|]. simpl.
  unfold length_N in *. destruct (lookup_lt_is_Some_2 contents (N.to_nat i)) as [b Hb]; [lia|].
  unfold span_at. rewrite Hb. simpl. eexists. split; [done|].
  rewrite negb_true_iff, N.eqb_neq. naive_solver.
Qed.

Lemma misplaced_location_run contents start len :
  ∃ b, misplaced_location contents start len = Ok b ∧
    (b = false ↔ start + len <= length_N contents ∧ at_boundary contents start ∧
                 at_boundary contents (start + len)).
Proof.
  unfold misplaced_location.
  destruct (N.ltb_spec (length_N contents) start); [eexists; split; [done|]; split; [done|lia]|].
  destruct (N.ltb_spec (length_N contents - start) len); [eexists; split; [done|]; split; [done|lia]|].
  destruct (utf8_boundary_run contents start) as (b1 & -> & H1); [lia|]. simpl.
  destruct b1; simpl; [|eexists; split; [done|]; split; [done|]; intuition].
  destruct (utf8_boundary_run contents (start + len)) as (b2 & -> & H2); [lia|]. simpl.
  eexists. split; [done|]. rewrite negb_false_iff. intuition lia.
Qed.

Section context_lemmas.
Context {C : Type} `{!VerificationContext C}.
Implicit Types (context : C).

Lemma verify_location_ok location context :
  ensures (verify_location location context)
    (λ _, ∀ l, location = Some l → location_ok context l).
Proof.
  unfold verify_location. destruct location as [l|]; [|by apply ensures_Ok].
  destruct (find_source context (loc_source l)) as [s|] eqn:Hs; [|apply ensures_reader_error].
  destruct (misplaced_location_run (src_utf8 s) (loc_utf8_start l) (loc_utf8_length l))
    as (b & -> & Hb). simpl.
  eapply ensures_weaken; [apply ensures_when|]. intros [] Hok%Hb l' [= <-]. by exists s.
Qed.

Lemma verify_location_defined location context : defined (verify_location location context).
Proof. apply (ensures_defined _ _ (verify_location_ok location context)). Qed.

Lemma require_value_type_defined t d : defined (require_value_type t d).
Proof. unfold require_value_type. auto with defined_db. Qed.

Lemma require_result_type_defined t d : defined (require_result_type t d).
Proof. unfold require_result_type. auto with defined_db. Qed.

Lemma fresh_layout_defined m t : defined (fresh_layout m t).
Proof.
  apply defined_bind; [|intros [l st] _; apply defined_Ok].
  eapply ensures_defined. apply layout_sane_ok. apply memo_ok_empty.
Qed.

#[local] Hint Resolve require_value_type_defined fresh_layout_defined : defined_db.

Lemma is_class_symbol t : is_class t = true → ∃ s, ty_symbol t = Some s.
Proof. unfold is_class. destruct (ty_symbol t); [by eexists|]. by rewrite andb_false_r. Qed.

Lemma require_declared_head_defined context t d : defined (require_declared_head context t d).
Proof.
  unfold require_declared_head. repeat defined_step.
  match goal with H : is_class _ = true |- _ => apply is_class_symbol in H as [s ->] end.
  apply defined_Ok.
Qed.

(** The loop over the arguments of a type. *)
Lemma require_declared_type_unfold context t d :
  require_declared_type context t d =
    (require_declared_head context t d;;
     for_each (imap pair (ty_arguments t)) (λ '(index, argument),
       if exempt_argument t index argument then Ok tt
       else require_declared_type context argument d)).
Proof.
  assert (∀ (f : nat → type → result unit) l k,
    (fix check index arguments := match arguments with
      | [] => Ok tt
      | argument :: rest => f index argument;; check (S index) rest
      end) k l = for_each (imap (λ i x, ((k + i)%nat, x)) l) (λ '(i, x), f i x)) as Hloop.
  { intros f l. induction l as [|x l IH]; intros k; [done|]. rewrite IH. simpl.
    rewrite Nat.add_0_r. destruct (f k x); simpl; [|done].
    f_equal. apply imap_ext. intros i y _. simpl. f_equal. lia. }
  destruct t as [tag symbol arguments count]. cbn [require_declared_type ty_arguments].
  destruct (require_declared_head _ _ _); simpl; [|done].
  apply (Hloop (λ index argument, if exempt_argument (mk_type tag symbol arguments count) index argument
    then Ok tt else require_declared_type context argument d) arguments 0%nat).
Qed.

Lemma require_declared_type_defined context t d : defined (require_declared_type context t d).
Proof.
  induction t as [tag symbol arguments count IH] using type_nested_ind.
  rewrite require_declared_type_unfold. apply defined_bind; [apply require_declared_head_defined|].
  intros _ _. apply for_each_defined. apply Forall_forall. intros [index argument] Hin.
  case_match; [apply defined_Ok|]. apply elem_of_lookup_imap in Hin as (i & x & [= -> ->] & Hx).
  rewrite Forall_forall in IH. apply IH. by eapply list_elem_of_lookup_2.
Qed.
End context_lemmas.


(** ** Inheritance *)

(** One class of the inheritance check: follow the bases to a root. *)
Fixpoint inheritance_loop (remaining : nat) (index : module_verification_index)
    (current : class_declaration) : result unit :=
  match cls_base current with
  | None => Ok tt
  | Some base =>
      match remaining with
      | O => verify_fail malformed_module "Class inheritance contains a cycle."
      | S remaining =>
          match find_class index base with
          | None => verify_fail invalid_reference "Class inheritance references a missing class."
          | Some current => inheritance_loop remaining index current
          end
      end
  end.

Definition verify_inheritance (index : module_verification_index) : result unit :=
  for_each (mod_classes (idx_module index)) (λ declaration,
    inheritance_loop (length (mod_classes (idx_module index))) index declaration).

(** [b] is the declared base of [d]. *)
Definition base_of {C} `{!VerificationContext C} (context : C) (d b : symbol_id) : Prop :=
  ∃ c, find_class context d = Some c ∧ cls_base c = Some b.

(** A context finds only classes of its module, by their identity. *)
Class LawfulContext {C} `{!VerificationContext C} (context : C) : Prop :=
  find_class_declared : ∀ id c, find_class context id = Some c →
    c ∈ mod_classes (verification_module context) ∧ cls_id c = id.

#[export] Instance module_context_lawful (m : ir_module) : LawfulContext m.
Proof.
  intros id c Hc. simpl in Hc. apply find_some in Hc as [Hin Hid].
  split; [by apply list_elem_of_In|]. by apply same_symbol_eq in Hid.
Qed.

#[export] Instance index_context_lawful m : LawfulContext (module_index m).
Proof. intros id c. rewrite index_find_class. exact (module_context_lawful m id c). Qed.

(** Paths of a relation, with the list of the nodes they leave. *)
Section paths.
Context {A : Type} `{EqDecision A} (R : A → A → Prop).

Inductive path : A → list A → A → Prop :=
| path_nil x : path x [] x
| path_cons x y l z : R x y → path y l z → path x (x :: l) z.

Lemma path_suffix x l1 y l2 z : path x (l1 ++ y :: l2) z → path y (y :: l2) z.
Proof.
  revert x. induction l1 as [|w l1 IH]; intros x Hp; inversion Hp; subst; [by econstructor|eauto].
Qed.

Lemma path_prefix x l1 y l2 z : path x (l1 ++ y :: l2) z → path x l1 y.
Proof.
  revert x. induction l1 as [|w l1 IH]; intros x Hp; inversion Hp; subst; [constructor|].
  econstructor; eauto.
Qed.

Lemma tc_first x z : tc R x z → ∃ y, R x y ∧ rtc R y z.
Proof.
  intros [|x' y z' Hxy Hyz]; [by eexists; split; [|apply rtc_refl]|]. exists y. eauto using tc_rtc.
Qed.

(** A well-founded relation has no cycle. *)
Lemma Acc_acyclic x : Acc (flip R) x → ¬ tc R x x.
Proof.
  induction 1 as [x _ IH]. intros (y & Hxy & Hyx)%tc_first. apply (IH y Hxy).
  eapply tc_rtc_l; [exact Hyx|]. by constructor.
Qed.

Lemma path_rtc x l z : path x l z → rtc R x z.
Proof. induction 1; econstructor; eauto. Qed.

Lemma path_tc x l z : path x l z → l ≠ [] → tc R x z.
Proof.
  induction 1 as [|x y l z HR Hp IH]; [done|]. intros _.
  destruct l; [inversion Hp; subst; by constructor|]. eapply tc_l; [done|by apply IH].
Qed.

(** Every reachable node is reached without leaving a node twice. *)
Lemma rtc_path x z : rtc R x z → ∃ l, path x l z ∧ NoDup l.
Proof.
  induction 1 as [x|x y z HR _ (l & Hp & Hn)]; [exists []; split; constructor|].
  destruct (decide (x ∈ l)) as [Hx|Hx].
  - apply list_elem_of_split in Hx as (l1 & l2 & ->). exists (x :: l2).
    split; [by eapply path_suffix|]. by apply NoDup_app in Hn as (_ & _ & ?).
  - exists (x :: l). split; [by econstructor|by constructor].
Qed.

Lemma path_sources x l z y : path x l z → y ∈ l → ∃ w, R y w.
Proof.
  induction 1 as [|x w l z HR Hp IH]; [set_solver|]. intros [->|?]%elem_of_cons; [by eexists|eauto].
Qed.

(** An acyclic path leaves no node twice. *)
Lemma path_acyclic x l z : (∀ y, ¬ tc R y y) → path x l z → NoDup l.
Proof.
  intros Hac. induction 1 as [|x y l z HR Hp IH]; [constructor|]. constructor; [|done].
  intros (l1 & l2 & ->)%list_elem_of_split. apply (Hac x).
  eapply tc_rtc_r; [by constructor|]. by eapply path_rtc, path_prefix.
Qed.

Lemma path_length_bound x l z (domain : list A) :
  (∀ y w, R y w → y ∈ domain) → path x l z → NoDup l → (length l <= length domain)%nat.
Proof.
  intros Hdom Hp Hn. apply submseteq_length, NoDup_submseteq; [done|].
  intros y Hy. destruct (path_sources _ _ _ _ Hp Hy) as [w Hw]. eauto.
Qed.
End paths.

Section inheritance.
Context {C : Type} `{!VerificationContext C} (context : C) `{!LawfulContext context}.

Lemma base_of_domain d b :
  base_of context d b → d ∈ map cls_id (mod_classes (verification_module context)).
Proof.
  intros (c & Hc & _). apply find_class_declared in Hc as [Hin <-].
  apply list_elem_of_fmap. by exists c.
Qed.

Lemma base_of_functional d b b' : base_of context d b → base_of context d b' → b = b'.
Proof. intros (c & Hc & Hb) (c' & Hc' & Hb'). congruence. Qed.

Lemma is_same_or_base_loop_path n d b :
  is_same_or_base_loop n context d b = true ↔ ∃ l, path (base_of context) d l b ∧ (length l < n)%nat.
Proof.
  revert d. induction n as [|n IH]; intros d; simpl.
  { split; [done|]. intros (l & _ & Hl). lia. }
  destruct (same_symbol d b) eqn:Hs.
  { apply same_symbol_eq in Hs as ->. split; [|done]. intros _. exists []. split; [constructor|simpl; lia]. }
  assert (d ≠ b) as Hne by (intros ->; by rewrite (proj2 (same_symbol_eq b b) eq_refl) in Hs).
  split.
  - destruct (find_class context d) as [c|] eqn:Hc; [|done].
    destruct (cls_base c) as [b'|] eqn:Hb; [|done]. intros (l & Hp & Hl)%IH.
    exists (d :: l). split; [|simpl; lia]. econstructor; [by exists c|done].
  - intros (l & Hp & Hl). inversion Hp as [|x y l' z Hb Hp']; subst; [done|].
    destruct Hb as (c & -> & ->). apply IH. exists l'. split; [done|]. simpl in Hl. lia.
Qed.

(** The bounded walk decides the subclass relation. *)
Lemma is_same_or_base_rtc d b : is_same_or_base context d b = true ↔ rtc (base_of context) d b.
Proof.
  unfold is_same_or_base. rewrite is_same_or_base_loop_path. split.
  - intros (l & Hp & _). by eapply path_rtc.
  - intros (l & Hp & Hn)%rtc_path. exists l. split; [done|].
    assert (length l <= length (map cls_id (mod_classes (verification_module context))))%nat as Hle
      by (eapply path_length_bound; eauto using base_of_domain).
    rewrite length_map in Hle. lia.
Qed.
End inheritance.

#[local] Arguments module_index : simpl never.
#[local] Arguments find_class : simpl never.

Section inheritance_check.
Variable m : ir_module.
Hypothesis unique_classes : NoDup (map cls_id (mod_classes m)).

Notation index := (module_index m).
Notation base := (base_of index).

Lemma find_declared_class c : c ∈ mod_classes m → find_class index (cls_id c) = Some c.
Proof.
  intros Hc. rewrite index_find_class.
  rewrite <-(find_key_unique cls_id (mod_classes m) c) by done.
  apply find_ext. intros x. by rewrite same_symbol_decide.
Qed.

Lemma inheritance_loop_Acc n c :
  c ∈ mod_classes m → inheritance_loop n index c = Ok tt →
  Acc (λ b d, base d b) (cls_id c).
Proof.
  revert c. induction n as [|n IH]; intros c Hin Hrun; simpl in Hrun;
    (constructor; intros b (c' & Hc' & Hb); rewrite find_declared_class in Hc' by done;
     injection Hc' as <-; rewrite Hb in Hrun); [done|].
  destruct (find_class index b) as [c'|] eqn:Hc'; [|done].
  destruct (index_context_lawful m _ _ Hc') as [Hin' <-]. by apply IH.
Qed.

Lemma inheritance_loop_throw n c :
  c ∈ mod_classes m →
  (∀ d b, base d b → ∃ c', find_class index b = Some c') →
  inheritance_loop n index c ≠ Ok tt →
  ∃ l b, path base (cls_id c) l b ∧ length l = S n.
Proof.
  intros Hin Hbases. revert c Hin. induction n as [|n IH]; intros c Hin Hrun; simpl in Hrun.
  - destruct (cls_base c) as [b|] eqn:Hb; [|done]. exists [cls_id c], b. split; [|done].
    econstructor; [|constructor]. exists c. split; [by apply find_declared_class|done].
  - destruct (cls_base c) as [b|] eqn:Hb; [|done].
    assert (base (cls_id c) b) as Hcb by (exists c; split; [by apply find_declared_class|done]).
    destruct (Hbases _ _ Hcb) as [c' Hc']. rewrite Hc' in Hrun.
    destruct (index_context_lawful m _ _ Hc') as [Hin' <-].
    destruct (IH c' Hin' Hrun) as (l & b & Hp & Hl). exists (cls_id c :: l), b.
    split; [by econstructor|simpl; lia].
Qed.

(** The check accepts exactly the finite, declared hierarchies. *)
Lemma verify_inheritance_iff :
  verify_inheritance index = Ok tt ↔
    (∀ d b, base d b → ∃ c, find_class index b = Some c) ∧ ∀ d, ¬ tc base d d.
Proof.
  transitivity (∀ c, c ∈ mod_classes m →
    inheritance_loop (length (mod_classes m)) index c = Ok tt).
  { etransitivity; [apply for_each_Ok|]. apply Forall_forall. }
  split.
  - intros Hall. split.
    + intros d b (c & Hc & Hb). destruct (index_context_lawful m _ _ Hc) as [Hin _].
      specialize (Hall c Hin). simpl in Hall. destruct (length (mod_classes m)); simpl in Hall;
        rewrite Hb in Hall; [done|].
      destruct (find_class index b) eqn:Hf; [by eexists|done].
    + intros d Htc. pose proof Htc as Hfirst. apply tc_first in Hfirst as (y & (c & Hc & _) & _).
      destruct (index_context_lawful m _ _ Hc) as [Hin Hd]. rewrite <-Hd in Htc.
      revert Htc. by eapply Acc_acyclic, inheritance_loop_Acc, Hall.
  - intros [Hbases Hac] c Hin.
    destruct (inheritance_loop (length (mod_classes m)) index c) as [[]|e] eqn:Hrun; [done|].
    assert (inheritance_loop (length (mod_classes m)) index c ≠ Ok tt) as Hne by by rewrite Hrun.
    exfalso. clear Hrun. rename Hne into Hrun. destruct (inheritance_loop_throw _ c Hin Hbases Hrun) as (l & b & Hp & Hl).
    assert (length l <= length (map cls_id (mod_classes m)))%nat as Hle.
    { eapply path_length_bound; [|done|by eapply path_acyclic].
      intros y w Hyw. exact (base_of_domain (module_index m) y w Hyw). }
    rewrite length_map in Hle. lia.
Qed.
End inheritance_check.

(** ** Properties *)

(** The bounded walk of [is_same_or_base] decides subclassing: for every module, even
    one with a cyclic hierarchy, following at most as many bases as there are
    classes answers true exactly when the base is reached from the derived class. *)
Theorem subclass_walk_exact (m : ir_module) (derived base : symbol_id) :
  is_same_or_base (module_index m) derived base = true ↔ rtc (base_of (module_index m)) derived base.
Proof. apply is_same_or_base_rtc, index_context_lawful. Qed.

(** The inheritance check is exact: in a module with unique class symbols it passes
    if and only if every base is declared and no class derives from itself. *)
Theorem inheritance_check_exact (m : ir_module) :
  NoDup (map cls_id (mod_classes m)) →
  verify_inheritance (module_index m) = Ok tt ↔
    (∀ d b, base_of (module_index m) d b → ∃ c, find_class (module_index m) b = Some c) ∧
    ∀ d, ¬ tc (base_of (module_index m)) d d.
Proof. apply verify_inheritance_iff. Qed.

Lemma inheritance_check_exact_witness :
  (∀ d b, base_of (module_index Sample.app) d b → ∃ c, find_class (module_index Sample.app) b = Some c) ∧
  ∀ d, ¬ tc (base_of (module_index Sample.app)) d d.
Proof.
  apply (inheritance_check_exact Sample.app); [|vm_compute; reflexivity].
  apply (bool_decide_unpack _). vm_compute. exact I.
Defined.

(** A source location is accepted exactly when it names a source of the module, its
    range lies inside the text of that source, and both ends are UTF-8 character
    boundaries. *)
Theorem location_check_exact (m : ir_module) (l : source_location) :
  verify_location (Some l) (module_index m) = Ok tt ↔ location_ok (module_index m) l.
Proof.
  unfold verify_location, location_ok. destruct (find_source (module_index m) (loc_source l)) as [s|];
    [|split; [done|by intros (s & ? & _)]].
  destruct (misplaced_location_run (src_utf8 s) (loc_utf8_start l) (loc_utf8_length l)) as (b & -> & Hb).
  rewrite bind_Ok, fail_when_Ok, Hb. naive_solver.
Qed.

(** The index agrees with the module: with unique symbols, [find_function],
    [find_import] and [find_class] of the index find exactly the declarations of
    the module, by identity. *)
Theorem index_lookups_exact (m : ir_module) id :
  NoDup (map fn_id (mod_functions m)) → NoDup (map imp_id (mod_imports m)) →
  NoDup (map cls_id (mod_classes m)) →
  (∀ f, find_function (module_index m) id = Some f ↔ f ∈ mod_functions m ∧ fn_id f = id) ∧
  (∀ i, find_import (module_index m) id = Some i ↔ i ∈ mod_imports m ∧ imp_id i = id) ∧
  (∀ c, find_class (module_index m) id = Some c ↔ c ∈ mod_classes m ∧ cls_id c = id).
Proof.
  intros Hf Hi Hc. split_and!; intros x.
  - rewrite index_find_function. by apply find_key_iff.
  - rewrite index_find_import. by apply find_key_iff.
  - rewrite index_find_class. rewrite <-(find_key_iff cls_id (mod_classes m) id x Hc).
    change (find_class m id) with (find_module_class m id). unfold find_module_class.
    erewrite find_ext; [done|]. intros y. simpl. by rewrite same_symbol_decide.
Qed.

Lemma index_lookups_exact_witness :
  find_function (module_index Sample.app) Sample.add_id = Some Sample.add_function.
Proof.
  apply (index_lookups_exact Sample.app Sample.add_id);
    [apply (bool_decide_unpack _); vm_compute; exact I..|].
  split; [|reflexivity]. right. right. left.
Defined.
