(* ===== verification/Instructions.v ===== *)
(** * Instruction checks of the verifier ([native/codegen/ir_verifier.cpp])

    [verify_instruction] checks the shape and the types of one instruction
    against the definitions of the function and returns the effects it has.  The
    cases of the source's [switch] are grouped by kind of instruction. *)

From S2P Require Import Prelude Domains IR Reader Types Layout Index.

Local Open Scope string_scope.
Local Open Scope list_scope.
Local Open Scope N_scope.

(** Unions of effect bits. *)
Notation "a ∣ b" := (N.lor a b) (at level 50, left associativity) : N_scope.

Definition c_call_effects : N :=
  NERI_IR_EFFECT_READ_V1 ∣ NERI_IR_EFFECT_WRITE_V1 ∣ NERI_IR_EFFECT_MAY_PANIC_V1 ∣
  NERI_IR_EFFECT_MANAGED_ALLOCATE_V1 ∣ NERI_IR_EFFECT_NATIVE_ALLOCATE_V1 ∣
  NERI_IR_EFFECT_SAFEPOINT_V1 ∣ NERI_IR_EFFECT_UNSAFE_V1.

(** ** The function context *)

(** Where a value is defined: its block and the instruction index, [-1] for a
    parameter. *)
Record definition := mk_definition {
  def_value_type : type;
  def_block : N;
  def_instruction : Z;
}.

Record use_site := mk_use {
  use_value : N;
  use_block : N;
  use_instruction : Z;
}.

Record function_context := mk_context {
  ctx_index : module_verification_index;
  ctx_value : function;
  ctx_blocks : gmap N block;
  ctx_successors : gmap N (list N);
  ctx_predecessors : gmap N (list N);
  ctx_definitions : gmap N definition;
  ctx_uses : list use_site;
  ctx_required_effects : N;
}.

Definition ctx_module (context : function_context) : ir_module := idx_module (ctx_index context).

(** ** Shape and type checks *)

Definition verify_instruction_shape (value : instruction) (results operands type_arguments : nat)
    (symbol constant_value predicate : bool) : result unit :=
  fail_when (negb (size_is (ins_results value) results) ||
             negb (size_is (ins_operands value) operands) ||
             negb (size_is (ins_type_arguments value) type_arguments) ||
             negb (Bool.eqb (has_value (ins_symbol value)) symbol) ||
             negb (Bool.eqb (has_value (ins_constant_value value)) constant_value) ||
             negb (Bool.eqb (has_value (ins_predicate value)) predicate) || ins_flag value)
    invalid_type "Instruction has invalid operand or metadata shape.".

Definition definition_type (context : function_context) (id : N) : result type :=
  match ctx_definitions context !! id with
  | Some d => Ok (def_value_type d)
  | None => verify_fail invalid_ssa
              ("Instruction references undefined SSA value " +:+ to_string id +:+ ".")
  end.

(** [definition_type(context, value.operands[index])]. *)
Definition operand_type (context : function_context) (value : instruction) (index : nat)
    : result type :=
  operand ← element (ins_operands value) index;
  definition_type context operand.

Definition opcode_string (opcode : neri_ir_opcode_v1) : string := to_string (tag_to_N opcode).

Definition require_operand_type (context : function_context) (value : instruction) (index : nat)
    (expected : type) : result unit :=
  wrong ← match ins_operands value !! index with
          | None => Ok true
          | Some operand => actual ← definition_type context operand;
                            Ok (negb (same_type actual expected))
          end;
  fail_when wrong invalid_type
    ("Instruction operand has the wrong semantic type in " +:+
     sym_semantic_name (fn_id (ctx_value context)) +:+ " (opcode " +:+
     opcode_string (ins_opcode value) +:+ ", operand " +:+ to_string (N.of_nat index) +:+ ").").

Definition result_detail (value : instruction) (index : nat) (expected : type) : string :=
  "Instruction result has the wrong semantic type (opcode " +:+ opcode_string (ins_opcode value) +:+
  ", expected tag " +:+ to_string (tag_to_N (ty_tag expected)) +:+
  match ins_results value !! index with
  | Some r =>
      ", actual tag " +:+ to_string (tag_to_N (ty_tag (val_value_type r))) +:+
      match ty_symbol expected with
      | Some s => ", expected symbol " +:+ sym_semantic_name s | None => "" end +:+
      match ty_symbol (val_value_type r) with
      | Some s => ", actual symbol " +:+ sym_semantic_name s | None => "" end
  | None => ""
  end +:+
  match ins_location value with
  | Some l => " at " +:+ loc_source l +:+ ":" +:+ to_string (loc_utf8_start l) | None => "" end +:+ ").".

(** The overload of [require_result_type] on instructions. *)
Definition require_instruction_result (value : instruction) (index : nat) (expected : type)
    : result unit :=
  fail_when (match ins_results value !! index with
             | None => true
             | Some r => negb (same_type (val_value_type r) expected)
             end) invalid_type (result_detail value index expected).

Definition require_unary (context : function_context) (value : instruction)
    (operand_tag result_tag : neri_ir_type_tag_v1) : result unit :=
  verify_instruction_shape value 1 1 0 false false false;;
  require_operand_type context value 0 (plain_type operand_tag []);;
  require_instruction_result value 0 (plain_type result_tag []).

Definition require_binary (context : function_context) (value : instruction)
    (operand_tag result_tag : neri_ir_type_tag_v1) : result unit :=
  verify_instruction_shape value 1 2 0 false false false;;
  require_operand_type context value 0 (plain_type operand_tag []);;
  require_operand_type context value 1 (plain_type operand_tag []);;
  require_instruction_result value 0 (plain_type result_tag []).

Definition unsafe_capability_type : type := plain_type NERI_IR_TYPE_UNSAFE_CAPABILITY_V1 [].

(** The loop that checks operands [offset ..] against parameter types. *)
Definition require_parameters (context : function_context) (value : instruction) (offset : nat)
    (parameters : list type) : result unit :=
  for_each (imap pair parameters) (λ '(index, parameter),
    require_operand_type context value (index + offset) parameter).

(** ** Calls *)

(** The function kinds each form of direct call accepts. *)
Definition callable_kind (require_method unsafe_call : bool) (kind : neri_ir_function_kind_v1) : bool :=
  if unsafe_call then
    tag_eqb kind NERI_IR_FUNCTION_V1 || tag_eqb kind NERI_IR_STATIC_METHOD_V1 ||
    tag_eqb kind NERI_IR_INSTANCE_METHOD_V1 || tag_eqb kind NERI_IR_CONSTRUCTOR_V1 ||
    tag_eqb kind NERI_IR_DEFAULT_ADAPTER_V1
  else if require_method then
    tag_eqb kind NERI_IR_INSTANCE_METHOD_V1 || tag_eqb kind NERI_IR_CONSTRUCTOR_V1
  else
    tag_eqb kind NERI_IR_FUNCTION_V1 || tag_eqb kind NERI_IR_STATIC_METHOD_V1 ||
    tag_eqb kind NERI_IR_DEFAULT_ADAPTER_V1.

(** Parameter types, result type and effects of the callee. *)
Definition call_target (context : function_context) (symbol : symbol_id)
    (imported require_method c_abi unsafe_call : bool) : result (list type * type * N) :=
  if imported then
    let expected_kind := if c_abi then NERI_IR_IMPORT_C_ABI_V1 else NERI_IR_IMPORT_RUNTIME_V1 in
    match find_import (ctx_index context) symbol with
    | Some target =>
        fail_when (negb (tag_eqb (imp_kind target) expected_kind)) invalid_reference
          "Import call references a missing or wrong-kind import.";;
        Ok (imp_parameter_types target, imp_result_type target, imp_effects target)
    | None => verify_fail invalid_reference "Import call references a missing or wrong-kind import."
    end
  else
    let message := "Direct call references a missing or unsupported function: " +:+
                   sym_semantic_name symbol +:+ "." in
    match find_function (ctx_index context) symbol with
    | Some target =>
        fail_when (negb (callable_kind require_method unsafe_call (fn_kind target)) ||
                   negb (Bool.eqb (fn_unsafe_call target) unsafe_call)) invalid_reference message;;
        Ok (fn_parameter_types target, fn_result_type target, fn_effects target)
    | None => verify_fail invalid_reference message
    end.

(** [(effects & ~NO_RETURN) | (unsafe_call ? UNSAFE : 0)]. *)
Definition call_effects (effects : N) (unsafe_call : bool) : N :=
  N.ldiff effects NERI_IR_EFFECT_NO_RETURN_V1 ∣
  (if unsafe_call then NERI_IR_EFFECT_UNSAFE_V1 else 0).

Definition verify_call (context : function_context) (value : instruction)
    (imported require_method c_abi unsafe_call : bool) : result N :=
  match ins_symbol value with
  | None => verify_fail invalid_reference "Call instruction has no target symbol."
  | Some symbol =>
      '(parameters, result, effects) ←
        call_target context symbol imported require_method c_abi unsafe_call;
      let operand_offset := if c_abi || unsafe_call then 1%nat else 0%nat in
      let result_count := if is_void result then 0%nat else 1%nat in
      verify_instruction_shape value result_count (length parameters + operand_offset) 0
        true false false;;
      (if c_abi || unsafe_call
       then require_operand_type context value 0 unsafe_capability_type else Ok tt);;
      require_parameters context value operand_offset parameters;;
      (if (result_count =? 1)%nat then require_instruction_result value 0 result else Ok tt);;
      Ok (call_effects effects unsafe_call)
  end.

(** Parameter types and result type of the function whose address is taken. *)
Definition c_address_target (context : function_context) (symbol : symbol_id)
    : result (list type * type) :=
  match find_import (ctx_index context) symbol with
  | Some target =>
      fail_when (negb (tag_eqb (imp_kind target) NERI_IR_IMPORT_C_ABI_V1)) invalid_reference
        "C function address requires a C ABI import.";;
      Ok (imp_parameter_types target, imp_result_type target)
  | None =>
      match find_function (ctx_index context) symbol with
      | Some target =>
          fail_when (String.eqb (fn_export_name target) "") invalid_reference
            "C function address requires an exported function.";;
          Ok (fn_parameter_types target, fn_result_type target)
      | None => verify_fail invalid_reference "C function address references a missing target."
      end
  end.

Definition verify_c_function_instruction (context : function_context) (value : instruction)
    : result N :=
  fail_when (lacks_feature (ctx_module context) CInterop) unsupported_feature
    "C function instructions require c-interop-v1.";;
  if tag_eqb (ins_opcode value) NERI_IR_OPCODE_C_FUNCTION_ADDRESS_V1 then
    verify_instruction_shape value 1 0 0 true false false;;
    symbol ← deref (ins_symbol value);
    '(parameters, result) ← c_address_target context symbol;
    require_instruction_result value 0
      (plain_type NERI_IR_TYPE_C_FUNCTION_V1 (result :: parameters));;
    Ok 0
  else
    fail_when (length (ins_operands value) <? 2)%nat invalid_type
      "Indirect C call requires a capability and callable.";;
    signature ← operand_type context value 1;
    fail_when (negb (is_c_function signature)) invalid_type
      "Indirect C call requires a non-null C function pointer.";;
    result ← front (ty_arguments signature);
    verify_instruction_shape value (if is_void result then 0 else 1)
      (length (ty_arguments signature) + 1) 0 false false false;;
    require_operand_type context value 0 unsafe_capability_type;;
    require_parameters context value 2 (tail (ty_arguments signature));;
    (if negb (is_void result) then require_instruction_result value 0 result else Ok tt);;
    Ok c_call_effects.

(** ** Virtual calls *)

Definition incompatible_slot : string := "Virtual dispatch slot has an incompatible implementation.".
Definition incompatible_parameters : string := "Virtual dispatch slot has incompatible parameter types.".

(** Parameters after the receiver agree with the signature chosen so far. *)
Definition check_slot_parameters (candidate signature : function) : result unit :=
  for_each (drop 1 (imap pair (fn_parameter_types candidate))) (λ '(index, parameter),
    expected ← element (fn_parameter_types signature) index;
    fail_when (negb (same_type parameter expected)) invalid_reference incompatible_parameters).

(** [*f->parameter_types.front().symbol]. *)
Definition receiver_symbol (f : function) : result symbol_id :=
  receiver ← front (fn_parameter_types f);
  deref (ty_symbol receiver).

(** One implementation of the slot: it must agree with the signature and becomes
    the signature when its receiver is a base of the current one. *)
Definition virtual_candidate (context : function_context) (unsafe_call : bool) (candidate : function)
    (state : function * N) : result (function * N) :=
  let '(signature, effects) := state in
  fail_when (negb (Bool.eqb (fn_unsafe_call candidate) unsafe_call) ||
             negb (tag_eqb (fn_kind candidate) NERI_IR_INSTANCE_METHOD_V1) ||
             match fn_parameter_types candidate with
             | [] => true
             | receiver :: _ => negb (is_class receiver)
             end ||
             negb (size_is (fn_parameter_types candidate) (length (fn_parameter_types signature))) ||
             negb (same_type (fn_result_type candidate) (fn_result_type signature)))
    invalid_reference incompatible_slot;;
  check_slot_parameters candidate signature;;
  derived ← receiver_symbol signature;
  base ← receiver_symbol candidate;
  Ok (if is_same_or_base (ctx_index context) derived base then candidate else signature,
      effects ∣ fn_effects candidate).

Definition slot_candidates (context : function_context) (slot : symbol_id) : list function :=
  List.filter (λ f, match fn_dispatch_slot f with Some s => same_symbol s slot | None => false end)
    (mod_functions (ctx_module context)).

Definition verify_virtual_call (context : function_context) (value : instruction) : result N :=
  match ins_symbol value with
  | None => verify_fail invalid_reference "Virtual call requires a dispatch-slot method symbol."
  | Some slot =>
      fail_when (negb (tag_eqb (sym_kind slot) NERI_IR_SYMBOL_METHOD_V1)) invalid_reference
        "Virtual call requires a dispatch-slot method symbol.";;
      match slot_candidates context slot with
      | [] => verify_fail invalid_reference
                "Virtual call references a dispatch slot without implementations."
      | (first :: _) as candidates =>
          let unsafe_call := fn_unsafe_call first in
          '(signature, effects) ←
            for_state candidates (first, 0) (virtual_candidate context unsafe_call);
          let result_count := if is_void (fn_result_type signature) then 0%nat else 1%nat in
          let operand_offset := if unsafe_call then 1%nat else 0%nat in
          verify_instruction_shape value result_count
            (length (fn_parameter_types signature) + operand_offset) 0 true false false;;
          (if unsafe_call
           then require_operand_type context value 0 unsafe_capability_type else Ok tt);;
          require_parameters context value operand_offset (fn_parameter_types signature);;
          (if (result_count =? 1)%nat
           then require_instruction_result value 0 (fn_result_type signature) else Ok tt);;
          Ok (call_effects effects unsafe_call)
      end
  end.

(** The instruction by which [array.generate] and [task.generate] call back:
    receiver and index operands, no type arguments, one result of the element type. *)
Definition generate_callback (value : instruction) (operands : list N) (element : type)
    : result instruction :=
  match ins_results value with
  | [] => Throw (undefined "front() of an empty vector")
  | r :: rest =>
      Ok (mk_instruction NERI_IR_OPCODE_CALL_VIRTUAL_V1 (mk_value (val_id r) element :: rest)
            operands [] (ins_symbol value) (ins_constant_value value) (ins_predicate value)
            (ins_flag value) (ins_location value) (ins_debug_scope_id value))
  end.

Definition generate_effects : N :=
  NERI_IR_EFFECT_READ_V1 ∣ NERI_IR_EFFECT_WRITE_V1 ∣ NERI_IR_EFFECT_MAY_PANIC_V1 ∣
  NERI_IR_EFFECT_MANAGED_ALLOCATE_V1 ∣ NERI_IR_EFFECT_SAFEPOINT_V1.

Definition int_type : type := plain_type NERI_IR_TYPE_INT_V1 [].
Definition bool_type : type := plain_type NERI_IR_TYPE_BOOL_V1 [].

Definition verify_array_generate (context : function_context) (value : instruction) : result N :=
  verify_instruction_shape value 1 2 1 true false false;;
  fail_when (lacks_feature (ctx_module context) SequentialArrays) unsupported_feature
    "Sequential array generation requires sequential-arrays-v1.";;
  require_operand_type context value 0 int_type;;
  element_type ← front (ins_type_arguments value);
  require_instruction_result value 0 (plain_type NERI_IR_TYPE_ARRAY_V1 [element_type]);;
  receiver ← element (ins_operands value) 1;
  count ← element (ins_operands value) 0;
  callback ← generate_callback value [receiver; count] element_type;
  effects ← verify_virtual_call context callback;
  Ok (effects ∣ generate_effects).

Definition verify_task_generate (context : function_context) (value : instruction) : result N :=
  verify_instruction_shape value 1 4 1 true false false;;
  fail_when (lacks_feature (ctx_module context) ScopedTasks) unsupported_feature
    "Task generation requires scoped-tasks-v1.";;
  capability ← operand_type context value 0;
  fail_when (negb (is_unsafe_capability capability)) invalid_safety
    "Task generation requires the compiler's noninterference capability.";;
  require_operand_type context value 1 int_type;;
  require_operand_type context value 2 int_type;;
  element_type ← front (ins_type_arguments value);
  require_instruction_result value 0 (plain_type NERI_IR_TYPE_ARRAY_V1 [element_type]);;
  receiver ← element (ins_operands value) 3;
  count ← element (ins_operands value) 1;
  callback ← generate_callback value [receiver; count] element_type;
  effects ← verify_virtual_call context callback;
  Ok (effects ∣ NERI_IR_EFFECT_UNSAFE_V1 ∣ generate_effects).

(** ** Scalars *)

Section scalars.
Variable isLegalUTF8String : list byte → bool.

Definition verify_constant_instruction (context : function_context) (value : instruction)
    : result N :=
  verify_instruction_shape value 1 0 0 false true false;;
  c ← deref (ins_constant_value value);
  r ← front (ins_results value);
  verify_constant isLegalUTF8String c (val_value_type r) 0;;
  (if tag_eqb (c_tag c) NERI_IR_CONSTANT_STRING_GLOBAL_V1 then
     symbol ← deref (c_symbol c);
     fail_when (match idx_globals (ctx_index context) !! symbol with
                | None => true
                | Some global => negb (is_string (glb_value_type global)) ||
                    negb (tag_eqb (c_tag (glb_initializer global)) NERI_IR_CONSTANT_STRING_UTF8_V1)
                end) invalid_reference "string.global references a missing or non-string global."
   else Ok tt);;
  Ok 0.
End scalars.

(** [value.results.at(0).value_type.tag]. *)
Definition result_tag (value : instruction) : result neri_ir_type_tag_v1 :=
  r ← at_index (ins_results value) 0;
  Ok (ty_tag (val_value_type r)).

Definition arithmetic_integer_tag (tag : neri_ir_type_tag_v1) : bool :=
  integer_scalar tag && negb (tag_eqb tag NERI_IR_TYPE_BYTE_V1).

Definition verify_integer_negation (context : function_context) (value : instruction) : result N :=
  tag ← result_tag value;
  fail_when (negb (arithmetic_integer_tag tag)) invalid_type
    "Integer negation requires an arithmetic integer.";;
  require_unary context value tag tag;;
  Ok NERI_IR_EFFECT_MAY_PANIC_V1.

Definition verify_integer_arithmetic (context : function_context) (value : instruction) : result N :=
  tag ← result_tag value;
  fail_when (negb (arithmetic_integer_tag tag)) invalid_type
    "Integer arithmetic requires an arithmetic integer.";;
  require_binary context value tag tag;;
  Ok NERI_IR_EFFECT_MAY_PANIC_V1.

Definition verify_float_negation (context : function_context) (value : instruction) : result N :=
  tag ← result_tag value;
  fail_when (negb (floating_scalar tag)) invalid_type
    "Float negation requires a floating-point type.";;
  require_unary context value tag tag;;
  Ok 0.

Definition verify_float_arithmetic (context : function_context) (value : instruction) : result N :=
  tag ← result_tag value;
  fail_when (negb (floating_scalar tag)) invalid_type
    "Float arithmetic requires a floating-point type.";;
  require_binary context value tag tag;;
  Ok 0.

Definition verify_compare (context : function_context) (value : instruction) : result N :=
  verify_instruction_shape value 1 2 0 false false true;;
  require_instruction_result value 0 bool_type;;
  left ← operand_type context value 0;
  right ← operand_type context value 1;
  fail_when (negb (same_type left right)) invalid_type
    "Comparison operands have different semantic types.";;
  predicate ← deref (ins_predicate value);
  let equality := tag_eqb predicate NERI_IR_COMPARISON_EQUAL_V1 ||
                  tag_eqb predicate NERI_IR_COMPARISON_NOT_EQUAL_V1 in
  fail_when ((negb (is_scalar left) && negb (tag_eqb (ty_tag left) NERI_IR_TYPE_OPTIONAL_V1) &&
              negb (is_managed_reference left)) ||
             ((tag_eqb (ty_tag left) NERI_IR_TYPE_BOOL_V1 ||
               tag_eqb (ty_tag left) NERI_IR_TYPE_OPTIONAL_V1 || is_managed_reference left) &&
              negb equality)) invalid_type
    "Comparison predicate is invalid for its operand type.";;
  Ok 0.

Definition numeric_tag (tag : neri_ir_type_tag_v1) : bool := integer_scalar tag || floating_scalar tag.

Definition verify_numeric_cast (context : function_context) (value : instruction) : result N :=
  verify_instruction_shape value 1 1 0 false false false;;
  source ← operand_type context value 0;
  r ← front (ins_results value);
  fail_when (negb (numeric_tag (ty_tag source)) || negb (numeric_tag (ty_tag (val_value_type r))))
    invalid_type "Numeric conversion requires numeric operands and results.";;
  Ok NERI_IR_EFFECT_MAY_PANIC_V1.

(** ** Classes and optionals *)

Definition verify_class_upcast (context : function_context) (value : instruction) : result N :=
  verify_instruction_shape value 1 1 0 false false false;;
  source ← operand_type context value 0;
  r ← front (ins_results value);
  let target := val_value_type r in
  fail_when (negb (is_class source) || negb (is_class target) ||
             match ty_symbol source, ty_symbol target with
             | Some s, Some t => same_symbol s t || negb (is_same_or_base (ctx_index context) s t)
             | _, _ => true
             end) invalid_type "class.upcast requires a strict declared base-class conversion.";;
  Ok 0.

(** [result.tag == OPTIONAL && result.arguments.size() == 1 &&
    same_type(result.arguments.front(), inner)]. *)
Definition optional_of (t inner : type) : bool :=
  tag_eqb (ty_tag t) NERI_IR_TYPE_OPTIONAL_V1 &&
  match ty_arguments t with [argument] => same_type argument inner | _ => false end.

Definition verify_class_checked_cast (context : function_context) (value : instruction) : result N :=
  verify_instruction_shape value 1 1 1 false false false;;
  source ← operand_type context value 0;
  r ← front (ins_results value);
  target ← front (ins_type_arguments value);
  fail_when (negb (is_class source) || negb (is_class target) ||
             negb (optional_of (val_value_type r) target)) invalid_type
    "class.cast.checked requires a managed class and an optional target class result.";;
  Ok 0.

Definition verify_optional_none (value : instruction) : result N :=
  verify_instruction_shape value 1 0 1 false false false;;
  r ← front (ins_results value);
  inner ← front (ins_type_arguments value);
  fail_when (negb (optional_of (val_value_type r) inner)) invalid_type
    "optional.none has inconsistent type metadata.";;
  Ok 0.

Definition verify_optional_some (context : function_context) (value : instruction) : result N :=
  verify_instruction_shape value 1 1 0 false false false;;
  r ← front (ins_results value);
  let result := val_value_type r in
  bad ← (if negb (tag_eqb (ty_tag result) NERI_IR_TYPE_OPTIONAL_V1) then Ok true
         else match ty_arguments result with
              | [argument] => inner ← operand_type context value 0; Ok (negb (same_type argument inner))
              | _ => Ok true
              end);
  fail_when bad invalid_type "optional.some has inconsistent operand type.";;
  Ok 0.

Definition verify_optional_is_some (context : function_context) (value : instruction) : result N :=
  verify_instruction_shape value 1 1 0 false false false;;
  require_instruction_result value 0 bool_type;;
  operand ← operand_type context value 0;
  fail_when (negb (tag_eqb (ty_tag operand) NERI_IR_TYPE_OPTIONAL_V1)) invalid_type
    "optional.is_some requires an optional operand.";;
  Ok 0.

Definition verify_optional_get (context : function_context) (value : instruction) : result N :=
  verify_instruction_shape value 1 1 0 false false false;;
  operand ← operand_type context value 0;
  r ← front (ins_results value);
  fail_when (negb (optional_of operand (val_value_type r))) invalid_type
    "optional.get.checked has an invalid result type.";;
  Ok NERI_IR_EFFECT_MAY_PANIC_V1.

(** ** Worker entries *)

Definition byte_type : type := plain_type NERI_IR_TYPE_BYTE_V1 [].

(** [void (const byte *, uint64_t)]. *)
Definition worker_signature : type :=
  plain_type NERI_IR_TYPE_C_FUNCTION_V1
    [plain_type NERI_IR_TYPE_VOID_V1 []; plain_type NERI_IR_TYPE_POINTER_V1 [byte_type];
     plain_type NERI_IR_TYPE_UINT64_V1 []].

Definition verify_worker_entry (context : function_context) (value : instruction) : result N :=
  verify_instruction_shape value 1 0 0 true false false;;
  fail_when (lacks_feature (ctx_module context) IsolatedWorkers) unsupported_feature
    "Worker entries require isolated-workers-v1.";;
  symbol ← deref (ins_symbol value);
  let message := "Worker entry requires a safe managed module function." in
  match find_function (ctx_index context) symbol with
  | None => verify_fail invalid_reference message
  | Some target =>
      fail_when (negb (tag_eqb (sym_kind symbol) NERI_IR_SYMBOL_FUNCTION_V1) ||
                 negb (tag_eqb (fn_kind target) NERI_IR_FUNCTION_V1) || fn_unsafe_call target ||
                 has_value (fn_declaring_class target) || has_value (fn_dispatch_slot target) ||
                 negb (String.eqb (fn_export_name target) "")) invalid_reference message;;
      fail_when (match fn_parameter_types target with
                 | [parameter] => negb (same_type parameter (plain_type NERI_IR_TYPE_ARRAY_V1 [byte_type]))
                 | _ => true
                 end || negb (is_void (fn_result_type target))) invalid_type
        "Worker entry requires exactly Byte[] to Void.";;
      require_instruction_result value 0 worker_signature;;
      Ok 0
  end.

(** ** Arrays, objects and fields *)

Definition allocation_effects : N :=
  NERI_IR_EFFECT_MANAGED_ALLOCATE_V1 ∣ NERI_IR_EFFECT_SAFEPOINT_V1 ∣ NERI_IR_EFFECT_MAY_PANIC_V1.

Definition verify_array_new (context : function_context) (value : instruction) : result N :=
  fail_when (negb (size_is (ins_type_arguments value) 1)) invalid_type
    "array.new requires one element type argument.";;
  verify_instruction_shape value 1 (length (ins_operands value)) 1 false false false;;
  element_type ← front (ins_type_arguments value);
  require_instruction_result value 0 (plain_type NERI_IR_TYPE_ARRAY_V1 [element_type]);;
  for_each (seq 0 (length (ins_operands value))) (λ index,
    require_operand_type context value index element_type);;
  Ok allocation_effects.

(** The element type of an array operand. *)
Definition array_element_type (context : function_context) (value : instruction) (message : string)
    : result type :=
  array ← operand_type context value 0;
  fail_when (negb (tag_eqb (ty_tag array) NERI_IR_TYPE_ARRAY_V1) ||
             negb (size_is (ty_arguments array) 1)) invalid_type message;;
  front (ty_arguments array).

Definition verify_array_length (context : function_context) (value : instruction) : result N :=
  verify_instruction_shape value 1 1 0 false false false;;
  array_element_type context value "array.length requires an array operand.";;
  require_instruction_result value 0 int_type;;
  Ok NERI_IR_EFFECT_READ_V1.

Definition verify_array_load (context : function_context) (value : instruction) : result N :=
  verify_instruction_shape value 1 2 0 false false false;;
  element_type ← array_element_type context value "array.load.checked requires an array operand.";
  require_operand_type context value 1 int_type;;
  require_instruction_result value 0 element_type;;
  Ok (NERI_IR_EFFECT_READ_V1 ∣ NERI_IR_EFFECT_MAY_PANIC_V1).

Definition verify_array_store (context : function_context) (value : instruction) : result N :=
  verify_instruction_shape value 0 3 0 false false false;;
  element_type ← array_element_type context value "array.store.checked requires an array operand.";
  require_operand_type context value 1 int_type;;
  require_operand_type context value 2 element_type;;
  Ok (NERI_IR_EFFECT_WRITE_V1 ∣ NERI_IR_EFFECT_MAY_PANIC_V1).

Definition verify_object_alloc (context : function_context) (value : instruction) : result N :=
  verify_instruction_shape value 1 0 0 true false false;;
  fail_when (match ins_symbol value with
             | None => true
             | Some symbol => negb (tag_eqb (sym_kind symbol) NERI_IR_SYMBOL_CLASS_V1) ||
                              negb (has_value (find_class (ctx_index context) symbol))
             end) invalid_reference "object.alloc references a missing or wrong-kind class.";;
  require_instruction_result value 0 (mk_type NERI_IR_TYPE_CLASS_V1 (ins_symbol value) [] 0);;
  Ok allocation_effects.

Definition verify_field_access (context : function_context) (value : instruction) (store : bool)
    : result N :=
  verify_instruction_shape value (if store then 0 else 1) (if store then 2 else 1) 0 true false false;;
  match ins_symbol value with
  | None => verify_fail invalid_reference "Field access has no field symbol."
  | Some symbol =>
      match find_field (ctx_index context) symbol with
      | None => verify_fail invalid_reference "Field access references a missing or wrong-kind field."
      | Some found =>
          receiver ← operand_type context value 0;
          fail_when (negb (is_class receiver) ||
                     match ty_symbol receiver with
                     | Some s => negb (is_same_or_base (ctx_index context) s (cls_id (ff_owner found)))
                     | None => true
                     end) invalid_type
            "Field access receiver is incompatible with its declaring class.";;
          (if store then require_operand_type context value 1 (fld_value_type (ff_value found))
           else require_instruction_result value 0 (fld_value_type (ff_value found)));;
          Ok (if store then NERI_IR_EFFECT_WRITE_V1 else NERI_IR_EFFECT_READ_V1)
      end
  end.

(** ** Unsafe regions and native addresses *)

Definition verify_unsafe_begin (value : instruction) : result N :=
  verify_instruction_shape value 1 0 0 false false false;;
  require_instruction_result value 0 unsafe_capability_type;;
  Ok NERI_IR_EFFECT_UNSAFE_V1.

(** [definition_type(context, value.operands[0])] must be an unsafe capability. *)
Definition require_capability (context : function_context) (value : instruction) (message : string)
    : result unit :=
  capability ← operand_type context value 0;
  fail_when (negb (is_unsafe_capability capability)) invalid_safety message.

Definition verify_unsafe_end (context : function_context) (value : instruction) : result N :=
  verify_instruction_shape value 0 1 0 false false false;;
  require_capability context value "unsafe.end requires an unsafe capability.";;
  Ok NERI_IR_EFFECT_UNSAFE_V1.

(** The pointee of operand one, which must be a pointer to a type of the given tag. *)
Definition pointee_of (context : function_context) (value : instruction) (tag : neri_ir_type_tag_v1)
    (message : string) : result type :=
  pointer ← operand_type context value 1;
  fail_when (negb (is_pointer pointer) ||
             match ty_arguments pointer with
             | argument :: _ => negb (tag_eqb (ty_tag argument) tag)
             | [] => true
             end) invalid_type message;;
  front (ty_arguments pointer).

Definition verify_native_field_address (context : function_context) (value : instruction) : result N :=
  verify_instruction_shape value 1 2 0 true false false;;
  require_capability context value "Native field address requires an unsafe capability.";;
  pointee ← pointee_of context value NERI_IR_TYPE_NATIVE_RECORD_V1
              "Native field address requires a record pointer.";
  record ← declaration (ctx_module context) pointee;
  symbol ← deref (ins_symbol value);
  match find (λ item, same_symbol (fld_id item) symbol) (nr_fields record) with
  | None => verify_fail invalid_reference "Native field does not belong to its pointer type."
  | Some field =>
      require_instruction_result value 0
        (plain_type NERI_IR_TYPE_POINTER_V1 [fld_value_type field]);;
      Ok NERI_IR_EFFECT_UNSAFE_V1
  end.

Definition verify_native_index_address (context : function_context) (value : instruction) : result N :=
  verify_instruction_shape value 1 3 0 false false false;;
  require_capability context value "Native array access requires an unsafe capability.";;
  array ← pointee_of context value NERI_IR_TYPE_FIXED_ARRAY_V1
            "Native array access requires a fixed-array pointer.";
  require_operand_type context value 2 int_type;;
  element_type ← front (ty_arguments array);
  require_instruction_result value 0 (plain_type NERI_IR_TYPE_POINTER_V1 [element_type]);;
  Ok (NERI_IR_EFFECT_UNSAFE_V1 ∣ NERI_IR_EFFECT_MAY_PANIC_V1).

(** ** Pointer instructions *)

Definition opcode_in (opcode : neri_ir_opcode_v1) (opcodes : list neri_ir_opcode_v1) : bool :=
  existsb (tag_eqb opcode) opcodes.

Definition pointer_shape_ok (value : instruction) : bool :=
  let opcode := ins_opcode value in
  let is_store := tag_eqb opcode NERI_IR_OPCODE_POINTER_STORE_V1 in
  let is_free := tag_eqb opcode NERI_IR_OPCODE_NATIVE_FREE_V1 in
  let is_borrow_end := tag_eqb opcode NERI_IR_OPCODE_BORROW_END_V1 in
  let is_borrow_begin := tag_eqb opcode NERI_IR_OPCODE_BORROW_BEGIN_V1 in
  let is_cast := tag_eqb opcode NERI_IR_OPCODE_POINTER_CAST_V1 in
  let is_compare := tag_eqb opcode NERI_IR_OPCODE_POINTER_COMPARE_V1 in
  let is_three_operands :=
    is_store || opcode_in opcode [NERI_IR_OPCODE_POINTER_OFFSET_V1;
                                  NERI_IR_OPCODE_POINTER_DIFFERENCE_V1] ||
    is_compare || tag_eqb opcode NERI_IR_OPCODE_NATIVE_REALLOC_V1 in
  let expected_results :=
    if is_store || is_free || is_borrow_end then 0%nat else if is_borrow_begin then 2%nat else 1%nat in
  let expected_operands := if is_three_operands then 3%nat else 2%nat in
  let expected_types := if is_cast then 2%nat else if is_borrow_end then 0%nat else 1%nat in
  let permits_flag := tag_eqb opcode NERI_IR_OPCODE_NATIVE_ALLOC_V1 in
  negb (negb (size_is (ins_results value) expected_results) ||
        negb (size_is (ins_operands value) expected_operands) ||
        negb (size_is (ins_type_arguments value) expected_types) ||
        has_value (ins_symbol value) || has_value (ins_constant_value value) ||
        negb (Bool.eqb (has_value (ins_predicate value)) is_compare) ||
        (ins_flag value && negb permits_flag)).

Definition valid_pointer_predicate (predicate : neri_ir_comparison_v1) : bool :=
  tag_eqb predicate NERI_IR_COMPARISON_EQUAL_V1 ||
  tag_eqb predicate NERI_IR_COMPARISON_NOT_EQUAL_V1 ||
  tag_eqb predicate NERI_IR_COMPARISON_LESS_V1 ||
  tag_eqb predicate NERI_IR_COMPARISON_LESS_OR_EQUAL_V1 ||
  tag_eqb predicate NERI_IR_COMPARISON_GREATER_V1 ||
  tag_eqb predicate NERI_IR_COMPARISON_GREATER_OR_EQUAL_V1.

(** Operand and result types by opcode, given the element type. *)
Definition verify_pointer_types (context : function_context) (value : instruction)
    (element_type : type) : result unit :=
  let opcode := ins_opcode value in
  let pointer := plain_type NERI_IR_TYPE_POINTER_V1 [element_type] in
  if opcode_in opcode [NERI_IR_OPCODE_STACK_ALLOC_V1; NERI_IR_OPCODE_NATIVE_ALLOC_V1] then
    require_operand_type context value 1 int_type;;
    require_instruction_result value 0 pointer
  else if tag_eqb opcode NERI_IR_OPCODE_POINTER_LOAD_V1 then
    require_operand_type context value 1 pointer;;
    require_instruction_result value 0 element_type
  else if tag_eqb opcode NERI_IR_OPCODE_POINTER_STORE_V1 then
    require_operand_type context value 1 pointer;;
    require_operand_type context value 2 element_type
  else if tag_eqb opcode NERI_IR_OPCODE_POINTER_OFFSET_V1 then
    require_operand_type context value 1 pointer;;
    require_operand_type context value 2 int_type;;
    require_instruction_result value 0 pointer
  else if tag_eqb opcode NERI_IR_OPCODE_POINTER_DIFFERENCE_V1 then
    require_operand_type context value 1 pointer;;
    require_operand_type context value 2 pointer;;
    require_instruction_result value 0 int_type
  else if tag_eqb opcode NERI_IR_OPCODE_POINTER_COMPARE_V1 then
    require_operand_type context value 1 pointer;;
    require_operand_type context value 2 pointer;;
    require_instruction_result value 0 bool_type;;
    predicate ← deref (ins_predicate value);
    fail_when (negb (valid_pointer_predicate predicate)) invalid_type
      "pointer.compare has an invalid predicate."
  else if tag_eqb opcode NERI_IR_OPCODE_POINTER_CAST_V1 then
    target ← element (ins_type_arguments value) 1;
    fail_when (negb (is_pointer_element target)) invalid_type
      "pointer.cast has an invalid target element type.";;
    require_operand_type context value 1 pointer;;
    require_instruction_result value 0 (plain_type NERI_IR_TYPE_POINTER_V1 [target])
  else if tag_eqb opcode NERI_IR_OPCODE_NATIVE_REALLOC_V1 then
    require_operand_type context value 1 pointer;;
    require_operand_type context value 2 int_type;;
    require_instruction_result value 0 pointer
  else if tag_eqb opcode NERI_IR_OPCODE_NATIVE_FREE_V1 then
    require_operand_type context value 1 pointer
  else if tag_eqb opcode NERI_IR_OPCODE_BORROW_BEGIN_V1 then
    require_operand_type context value 1 (plain_type NERI_IR_TYPE_ARRAY_V1 [element_type]);;
    require_instruction_result value 0 pointer;;
    require_instruction_result value 1 (plain_type NERI_IR_TYPE_BORROW_CAPABILITY_V1 [element_type])
  else Ok tt.

Definition pointer_effects (opcode : neri_ir_opcode_v1) : N :=
  let is_borrow_begin := tag_eqb opcode NERI_IR_OPCODE_BORROW_BEGIN_V1 in
  NERI_IR_EFFECT_UNSAFE_V1 ∣
  (if tag_eqb opcode NERI_IR_OPCODE_STACK_ALLOC_V1 then NERI_IR_EFFECT_MAY_PANIC_V1 else 0) ∣
  (if tag_eqb opcode NERI_IR_OPCODE_POINTER_LOAD_V1 || is_borrow_begin
   then NERI_IR_EFFECT_READ_V1 else 0) ∣
  (if opcode_in opcode [NERI_IR_OPCODE_POINTER_STORE_V1; NERI_IR_OPCODE_NATIVE_FREE_V1]
   then NERI_IR_EFFECT_WRITE_V1 else 0) ∣
  (if opcode_in opcode [NERI_IR_OPCODE_NATIVE_ALLOC_V1; NERI_IR_OPCODE_NATIVE_REALLOC_V1]
   then NERI_IR_EFFECT_NATIVE_ALLOCATE_V1 ∣ NERI_IR_EFFECT_MAY_PANIC_V1 else 0) ∣
  (if is_borrow_begin then NERI_IR_EFFECT_SAFEPOINT_V1 else 0).

Definition verify_pointer_instruction (context : function_context) (value : instruction) : result N :=
  let opcode := ins_opcode value in
  let is_free := tag_eqb opcode NERI_IR_OPCODE_NATIVE_FREE_V1 in
  let is_cast := tag_eqb opcode NERI_IR_OPCODE_POINTER_CAST_V1 in
  let is_compare := tag_eqb opcode NERI_IR_OPCODE_POINTER_COMPARE_V1 in
  fail_when (negb (pointer_shape_ok value)) invalid_type
    "Pointer instruction has invalid operand or metadata shape.";;
  require_capability context value "Pointer instruction requires an unsafe capability operand.";;
  if tag_eqb opcode NERI_IR_OPCODE_BORROW_END_V1 then
    borrow ← operand_type context value 1;
    fail_when (negb (is_borrow_capability borrow)) invalid_safety
      "borrow.end requires a borrow capability.";;
    Ok NERI_IR_EFFECT_UNSAFE_V1
  else
    element_type ← front (ins_type_arguments value);
    fail_when (is_void element_type && negb is_cast && negb is_compare && negb is_free) invalid_type
      "Pointer instruction requires a sized element type.";;
    fail_when (negb (is_pointer_element element_type)) invalid_type
      "Pointer instruction uses an unsupported element type.";;
    verify_pointer_types context value element_type;;
    Ok (pointer_effects opcode).

(** ** The switch *)

Definition unary (context : function_context) (value : instruction)
    (operand_tag result_tag : neri_ir_type_tag_v1) (effects : N) : result N :=
  require_unary context value operand_tag result_tag;; Ok effects.

Definition binary (context : function_context) (value : instruction)
    (operand_tag result_tag : neri_ir_type_tag_v1) (effects : N) : result N :=
  require_binary context value operand_tag result_tag;; Ok effects.

(** The opcodes that need exactly one result before the switch: the numeric ones. *)
Definition numeric_arithmetic (opcode : neri_ir_opcode_v1) : bool :=
  (tag_to_N NERI_IR_OPCODE_INT_NEG_CHECKED_V1 <=? tag_to_N opcode) &&
  (tag_to_N opcode <=? tag_to_N NERI_IR_OPCODE_FLOAT_DIV_V1).

Section switch.
Variable isLegalUTF8String : list byte → bool.

Definition verify_opcode (context : function_context) (value : instruction) : result N :=
  match ins_opcode value with
  | NERI_IR_OPCODE_ARRAY_GENERATE_V1 => verify_array_generate context value
  | NERI_IR_OPCODE_TASK_GENERATE_V1 => verify_task_generate context value
  | NERI_IR_OPCODE_CONSTANT_V1 => verify_constant_instruction isLegalUTF8String context value
  | NERI_IR_OPCODE_INT_NEG_CHECKED_V1 => verify_integer_negation context value
  | NERI_IR_OPCODE_INT_ADD_CHECKED_V1 | NERI_IR_OPCODE_INT_SUB_CHECKED_V1
  | NERI_IR_OPCODE_INT_MUL_CHECKED_V1 | NERI_IR_OPCODE_INT_DIV_CHECKED_V1 =>
      verify_integer_arithmetic context value
  | NERI_IR_OPCODE_FLOAT_NEG_V1 => verify_float_negation context value
  | NERI_IR_OPCODE_FLOAT_ADD_V1 | NERI_IR_OPCODE_FLOAT_SUB_V1
  | NERI_IR_OPCODE_FLOAT_MUL_V1 | NERI_IR_OPCODE_FLOAT_DIV_V1 =>
      verify_float_arithmetic context value
  | NERI_IR_OPCODE_BOOL_NOT_V1 =>
      unary context value NERI_IR_TYPE_BOOL_V1 NERI_IR_TYPE_BOOL_V1 0
  | NERI_IR_OPCODE_BOOL_AND_V1 | NERI_IR_OPCODE_BOOL_OR_V1 =>
      binary context value NERI_IR_TYPE_BOOL_V1 NERI_IR_TYPE_BOOL_V1 0
  | NERI_IR_OPCODE_COMPARE_V1 => verify_compare context value
  | NERI_IR_OPCODE_CAST_INT_TO_FLOAT_V1 =>
      unary context value NERI_IR_TYPE_INT_V1 NERI_IR_TYPE_FLOAT_V1 0
  | NERI_IR_OPCODE_NUMERIC_CAST_CHECKED_V1 => verify_numeric_cast context value
  | NERI_IR_OPCODE_CAST_FLOAT_TO_INT_CHECKED_V1 =>
      unary context value NERI_IR_TYPE_FLOAT_V1 NERI_IR_TYPE_INT_V1 NERI_IR_EFFECT_MAY_PANIC_V1
  | NERI_IR_OPCODE_CAST_INT_TO_BYTE_CHECKED_V1 =>
      unary context value NERI_IR_TYPE_INT_V1 NERI_IR_TYPE_BYTE_V1 NERI_IR_EFFECT_MAY_PANIC_V1
  | NERI_IR_OPCODE_CAST_BYTE_TO_INT_V1 =>
      unary context value NERI_IR_TYPE_BYTE_V1 NERI_IR_TYPE_INT_V1 0
  | NERI_IR_OPCODE_CLASS_UPCAST_V1 => verify_class_upcast context value
  | NERI_IR_OPCODE_CLASS_CHECKED_CAST_V1 => verify_class_checked_cast context value
  | NERI_IR_OPCODE_OPTIONAL_NONE_V1 => verify_optional_none value
  | NERI_IR_OPCODE_OPTIONAL_SOME_V1 => verify_optional_some context value
  | NERI_IR_OPCODE_OPTIONAL_IS_SOME_V1 => verify_optional_is_some context value
  | NERI_IR_OPCODE_OPTIONAL_GET_CHECKED_V1 => verify_optional_get context value
  | NERI_IR_OPCODE_STRING_CONCAT_V1 =>
      binary context value NERI_IR_TYPE_STRING_V1 NERI_IR_TYPE_STRING_V1 allocation_effects
  | NERI_IR_OPCODE_STRING_EQUAL_V1 | NERI_IR_OPCODE_STRING_NOT_EQUAL_V1 =>
      binary context value NERI_IR_TYPE_STRING_V1 NERI_IR_TYPE_BOOL_V1 NERI_IR_EFFECT_READ_V1
  | NERI_IR_OPCODE_STRING_FROM_INT_V1 =>
      unary context value NERI_IR_TYPE_INT_V1 NERI_IR_TYPE_STRING_V1 allocation_effects
  | NERI_IR_OPCODE_STRING_FROM_BYTE_V1 =>
      unary context value NERI_IR_TYPE_BYTE_V1 NERI_IR_TYPE_STRING_V1 allocation_effects
  | NERI_IR_OPCODE_STRING_FROM_FLOAT_V1 =>
      unary context value NERI_IR_TYPE_FLOAT_V1 NERI_IR_TYPE_STRING_V1 allocation_effects
  | NERI_IR_OPCODE_CALL_V1 => verify_call context value false false false false
  | NERI_IR_OPCODE_CALL_DIRECT_V1 => verify_call context value false true false false
  | NERI_IR_OPCODE_CALL_VIRTUAL_V1 => verify_virtual_call context value
  | NERI_IR_OPCODE_CALL_IMPORT_V1 => verify_call context value true false false false
  | NERI_IR_OPCODE_CALL_C_ABI_V1 => verify_call context value true false true false
  | NERI_IR_OPCODE_C_FUNCTION_ADDRESS_V1 | NERI_IR_OPCODE_CALL_C_INDIRECT_V1 =>
      verify_c_function_instruction context value
  | NERI_IR_OPCODE_WORKER_ENTRY_V1 => verify_worker_entry context value
  | NERI_IR_OPCODE_CALL_UNSAFE_V1 => verify_call context value false false false true
  | NERI_IR_OPCODE_ARRAY_NEW_V1 => verify_array_new context value
  | NERI_IR_OPCODE_ARRAY_LENGTH_V1 => verify_array_length context value
  | NERI_IR_OPCODE_ARRAY_LOAD_CHECKED_V1 => verify_array_load context value
  | NERI_IR_OPCODE_ARRAY_STORE_CHECKED_V1 => verify_array_store context value
  | NERI_IR_OPCODE_OBJECT_ALLOC_V1 => verify_object_alloc context value
  | NERI_IR_OPCODE_FIELD_LOAD_V1 => verify_field_access context value false
  | NERI_IR_OPCODE_FIELD_STORE_V1 => verify_field_access context value true
  | NERI_IR_OPCODE_UNSAFE_BEGIN_V1 => verify_unsafe_begin value
  | NERI_IR_OPCODE_UNSAFE_END_V1 => verify_unsafe_end context value
  | NERI_IR_OPCODE_NATIVE_FIELD_ADDRESS_V1 => verify_native_field_address context value
  | NERI_IR_OPCODE_NATIVE_INDEX_ADDRESS_CHECKED_V1 => verify_native_index_address context value
  | NERI_IR_OPCODE_STACK_ALLOC_V1 | NERI_IR_OPCODE_POINTER_LOAD_V1
  | NERI_IR_OPCODE_POINTER_STORE_V1 | NERI_IR_OPCODE_POINTER_OFFSET_V1
  | NERI_IR_OPCODE_POINTER_DIFFERENCE_V1 | NERI_IR_OPCODE_POINTER_COMPARE_V1
  | NERI_IR_OPCODE_POINTER_CAST_V1 | NERI_IR_OPCODE_NATIVE_ALLOC_V1
  | NERI_IR_OPCODE_NATIVE_REALLOC_V1 | NERI_IR_OPCODE_NATIVE_FREE_V1
  | NERI_IR_OPCODE_BORROW_BEGIN_V1 | NERI_IR_OPCODE_BORROW_END_V1 =>
      verify_pointer_instruction context value
  end.

Definition verify_instruction (context : function_context) (value : instruction) : result N :=
  for_each (ins_operands value) (λ operand, definition_type context operand;; Ok tt);;
  fail_when (numeric_arithmetic (ins_opcode value) && negb (size_is (ins_results value) 1))
    invalid_type "Numeric arithmetic requires one result.";;
  verify_opcode context value.
End switch.
