(* ===== verification/InstructionSafety.v ===== *)
(** * Safety of the instruction checks

    What a successful check establishes about operands and results, and that the
    checks of [Instructions.v] never reach undefined behaviour. *)

From S2P Require Import Prelude Domains IR Reader Types Layout Index Instructions.

Local Open Scope string_scope.
Local Open Scope list_scope.
Local Open Scope N_scope.

(** ** What the elementary checks establish *)

(** Operand [i] of the instruction is a defined value of type [t]. *)
Definition operand_has_type (context : function_context) (value : instruction) (i : nat) (t : type)
    : Prop :=
  ∃ v d, ins_operands value !! i = Some v ∧ ctx_definitions context !! v = Some d ∧
    def_value_type d = t.

Definition result_has_type (value : instruction) (i : nat) (t : type) : Prop :=
  ∃ r, ins_results value !! i = Some r ∧ val_value_type r = t.

Lemma definition_type_Ok context id t :
  definition_type context id = Ok t ↔
  ∃ d, ctx_definitions context !! id = Some d ∧ def_value_type d = t.
Proof. unfold definition_type. case_match; naive_solver. Qed.

Lemma operand_type_Ok context value i t :
  operand_type context value i = Ok t ↔ operand_has_type context value i t.
Proof.
  unfold operand_type, operand_has_type, element. destruct (ins_operands value !! i); simpl.
  - rewrite definition_type_Ok. naive_solver.
  - naive_solver.
Qed.

Lemma require_operand_type_Ok context value i t u :
  require_operand_type context value i t = Ok u ↔ operand_has_type context value i t.
Proof.
  unfold require_operand_type, operand_has_type.
  destruct (ins_operands value !! i) as [v|]; simpl.
  - destruct (definition_type context v) as [t'|e] eqn:Ht; simpl.
    + rewrite fail_when_Ok, negb_false_iff, same_type_Ok. apply definition_type_Ok in Ht. naive_solver.
    + split; [done|]. intros (v' & d & [= <-] & Hd & <-).
      by rewrite (proj2 (definition_type_Ok context v (def_value_type d))) in Ht by eauto.
  - split; [done|naive_solver].
Qed.

Lemma require_instruction_result_Ok value i t u :
  require_instruction_result value i t = Ok u ↔ result_has_type value i t.
Proof.
  unfold require_instruction_result, result_has_type. rewrite fail_when_Ok.
  destruct (ins_results value !! i) as [r|]; [|naive_solver].
  rewrite negb_false_iff, same_type_Ok. naive_solver.
Qed.

Lemma require_parameters_Ok context value offset parameters u :
  require_parameters context value offset parameters = Ok u ↔
  ∀ i t, parameters !! i = Some t → operand_has_type context value (i + offset) t.
Proof.
  unfold require_parameters. rewrite for_each_Ok, Forall_forall. split.
  - intros H i t Hi. eapply require_operand_type_Ok with (u := tt). apply (H (i, t)).
    by apply elem_of_lookup_imap_2.
  - intros H [i t] (j & t' & [= -> ->] & Hj)%elem_of_lookup_imap. by apply require_operand_type_Ok, H.
Qed.

Definition has_shape (value : instruction) (results operands type_arguments : nat)
    (symbol constant_value predicate : bool) : Prop :=
  length (ins_results value) = results ∧ length (ins_operands value) = operands ∧
  length (ins_type_arguments value) = type_arguments ∧ has_value (ins_symbol value) = symbol ∧
  has_value (ins_constant_value value) = constant_value ∧
  has_value (ins_predicate value) = predicate ∧ ins_flag value = false.

Lemma verify_instruction_shape_Ok value r o t s c p u :
  verify_instruction_shape value r o t s c p = Ok u ↔ has_shape value r o t s c p.
Proof.
  unfold verify_instruction_shape, has_shape, size_is. rewrite fail_when_Ok.
  rewrite !orb_false_iff, !negb_false_iff, !Nat.eqb_eq, !eqb_true_iff. tauto.
Qed.

(** ** No undefined behaviour

    Shapes justify the unchecked accesses; the one access below a pointer relies
    on the definitions having supported types. *)

Lemma definition_type_defined context id : defined (definition_type context id).
Proof. unfold definition_type. by case_match. Qed.

Lemma require_operand_type_defined context value i t : defined (require_operand_type context value i t).
Proof.
  unfold require_operand_type. repeat defined_step; auto using definition_type_defined.
Qed.

Lemma require_instruction_result_defined value i t : defined (require_instruction_result value i t).
Proof. unfold require_instruction_result. auto with defined_db. Qed.

Lemma verify_instruction_shape_defined value r o t s c p :
  defined (verify_instruction_shape value r o t s c p).
Proof. unfold verify_instruction_shape. auto with defined_db. Qed.

Lemma require_parameters_defined context value offset parameters :
  defined (require_parameters context value offset parameters).
Proof.
  apply for_each_defined, Forall_true. intros [i t]. apply require_operand_type_defined.
Qed.

Lemma operand_type_defined context value i :
  (i < length (ins_operands value))%nat → defined (operand_type context value i).
Proof.
  intros Hi. unfold operand_type, element. destruct (lookup_lt_is_Some_2 _ _ Hi) as [v ->]. simpl.
  apply definition_type_defined.
Qed.

Lemma front_defined {A} (l : list A) : l ≠ [] → defined (front l).
Proof. by destruct l. Qed.

Lemma element_defined {A} (l : list A) i : (i < length l)%nat → defined (element l i).
Proof. intros Hi. unfold element. by destruct (lookup_lt_is_Some_2 _ _ Hi) as [x ->]. Qed.

Lemma deref_defined {A} (x : option A) : has_value x = true → defined (deref x).
Proof. by destruct x. Qed.

#[export] Hint Resolve definition_type_defined require_operand_type_defined
  require_instruction_result_defined verify_instruction_shape_defined require_parameters_defined
  require_value_type_defined require_result_type_defined require_declared_type_defined
  verify_location_defined verify_constant_defined declaration_defined : defined_db.

Create HintDb shape_db.
#[export] Hint Resolve operand_type_defined front_defined element_defined deref_defined : shape_db.

(** Facts from successful checks in the context. *)
Ltac use_checks :=
  repeat match goal with
  | H : verify_instruction_shape _ _ _ _ _ _ _ = Ok _ |- _ =>
      apply verify_instruction_shape_Ok in H as (? & ? & ? & ? & ? & ? & ?)
  | H : fail_when _ _ _ = Ok _ |- _ => apply fail_when_Ok in H
  | H : _ || _ = false |- _ => apply orb_false_iff in H as [? ?]
  | H : negb _ = false |- _ => apply negb_false_iff in H
  | H : size_is _ _ = true |- _ => unfold size_is in H; apply Nat.eqb_eq in H
  end.

(** An access justified by a length in the context. *)
Ltac solve_access :=
  use_checks;
  match goal with
  | |- defined (front ?l) => apply front_defined; destruct l; simpl in *; congruence
  | |- defined (operand_type _ _ _) => apply operand_type_defined; lia
  | |- defined (element _ _) => apply element_defined; lia
  | |- defined (deref ?x) => apply deref_defined; congruence
  | |- defined (at_index _ _) => unfold at_index; case_match; apply defined_Ok || (intros ?; discriminate)
  end.

Ltac solve_check := repeat first [defined_step | solve_access].

Section definedness.
Variable legal : list byte → bool.
Variable context : function_context.

Lemma verify_call_defined value imported require_method c_abi unsafe_call :
  defined (verify_call context value imported require_method c_abi unsafe_call).
Proof. unfold verify_call, call_target. solve_check. Qed.

Lemma c_function_arguments t : is_c_function t = true → ty_arguments t ≠ [].
Proof. destruct t as [tag s [|] n]; simpl; [|done]. by rewrite andb_false_r. Qed.

Lemma verify_c_function_defined value : defined (verify_c_function_instruction context value).
Proof.
  unfold verify_c_function_instruction, c_address_target. solve_check.
  - use_checks. apply operand_type_defined. match goal with H : (_ <? _)%nat = false |- _ =>
      apply Nat.ltb_ge in H end. lia.
  - use_checks. by apply front_defined, c_function_arguments.
Qed.

Lemma generate_callback_defined value operands t :
  length (ins_results value) = 1%nat → defined (generate_callback value operands t).
Proof. unfold generate_callback. by destruct (ins_results value). Qed.

(** Receivers are classes and parameter lists have the same length. *)
Definition slot_signature (signature : function) : Prop :=
  match fn_parameter_types signature with [] => False | r :: _ => is_class r = true end.

Lemma receiver_symbol_defined f : slot_signature f → defined (receiver_symbol f).
Proof.
  unfold slot_signature, receiver_symbol. destruct (fn_parameter_types f); [done|].
  intros [s Hs]%is_class_symbol. simpl. by rewrite Hs.
Qed.

Lemma virtual_candidate_ok unsafe_call candidate signature effects :
  (slot_signature signature ∨ candidate = signature) →
  ensures (virtual_candidate context unsafe_call candidate (signature, effects))
    (λ p, slot_signature p.1).
Proof.
  intros Hsig. unfold virtual_candidate.
  eapply ensures_bind; [apply ensures_when|]. intros [] Hc.
  apply orb_false_iff in Hc as [Hc _]. apply orb_false_iff in Hc as [Hc Hsize].
  apply orb_false_iff in Hc as [_ Hclass]. apply negb_false_iff, Nat.eqb_eq in Hsize.
  assert (slot_signature candidate) as Hcand.
  { unfold slot_signature. destruct (fn_parameter_types candidate); [done|].
    by apply negb_false_iff in Hclass. }
  assert (slot_signature signature) as Hs by (destruct Hsig as [?|<-]; done).
  eapply ensures_bind; [apply ensures_true|intros _ _].
  { apply for_each_defined, Forall_forall. intros [i t] Hin.
    apply list_elem_of_lookup in Hin as [k Hk]. rewrite lookup_drop in Hk.
    apply list_elem_of_lookup_2, elem_of_lookup_imap in Hk as (j & t' & [= -> ->] & Hj).
    apply defined_bind; [|auto with defined_db].
    apply element_defined. rewrite <-Hsize. by apply lookup_lt_Some in Hj. }
  eapply ensures_bind; [by apply ensures_true, receiver_symbol_defined|intros derived _].
  eapply ensures_bind; [by apply ensures_true, receiver_symbol_defined|intros base _].
  apply ensures_Ok. simpl. by destruct (is_same_or_base _ _ _).
Qed.

Lemma verify_virtual_call_defined value : defined (verify_virtual_call context value).
Proof.
  unfold verify_virtual_call. destruct (ins_symbol value) as [slot|]; [|auto with defined_db].
  apply defined_bind; [auto with defined_db|intros _ _].
  destruct (slot_candidates context slot) as [|first rest]; [auto with defined_db|].
  apply defined_bind.
  - simpl. eapply ensures_defined, ensures_bind; [apply virtual_candidate_ok; by right|].
    intros s Hs. apply (ensures_for_state (λ p, slot_signature p.1)); [|exact Hs].
    intros f [sig e] _ Hsig. apply virtual_candidate_ok. by left.
  - intros [signature effects] _. solve_check.
Qed.

#[local] Hint Resolve verify_call_defined verify_c_function_defined verify_virtual_call_defined
  : defined_db.

Lemma verify_generate_defined value :
  defined (verify_array_generate context value) ∧ defined (verify_task_generate context value).
Proof.
  unfold verify_array_generate, verify_task_generate. split; solve_check; use_checks;
    by apply generate_callback_defined.
Qed.

(** Every defined value has a supported type. *)
Definition supported_definitions : Prop :=
  ∀ id d, ctx_definitions context !! id = Some d → is_supported_value (def_value_type d) = true.

Hypothesis supported : supported_definitions.

(** A supported pointer to a fixed array gives access to the element type. *)
Lemma supported_array_pointer t array :
  is_supported_value t = true → is_pointer t = true → ty_arguments t = [array] →
  ty_tag array = NERI_IR_TYPE_FIXED_ARRAY_V1 → ty_arguments array ≠ [].
Proof.
  destruct t as [tag symbol arguments count]. destruct array as [atag asymbol aarguments acount].
  simpl. intros Hs Hp -> ->. unfold is_pointer in Hp. simpl in Hp.
  apply andb_true_iff in Hp as [Hp _]. apply andb_true_iff in Hp as [Htag%tag_eqb_eq Hsym].
  subst tag. destruct symbol; [done|]. destruct aarguments; [|done]. simpl in Hs.
  unfold is_nullable_pointer, nullable_pointer_with in Hs. simpl in Hs.
  by rewrite !andb_false_r in Hs.
Qed.

Lemma pointee_of_ok value tag message :
  (1 < length (ins_operands value))%nat →
  ensures (pointee_of context value tag message) (λ t, ∃ pointer,
    operand_has_type context value 1 pointer ∧ is_pointer pointer = true ∧
    ty_arguments pointer = [t] ∧ ty_tag t = tag).
Proof.
  intros Hl. unfold pointee_of. eapply (ensures_bind _ _ (operand_has_type context value 1)).
  { split; [by apply operand_type_defined|]. intros t. by rewrite operand_type_Ok. }
  intros pointer Hp. eapply ensures_bind; [apply ensures_when|]. intros [] Hc.
  apply orb_false_iff in Hc as [Hptr%negb_false_iff Htag]. pose proof Hptr as Hsize.
  unfold is_pointer, size_is in Hsize. rewrite !andb_true_iff, Nat.eqb_eq in Hsize.
  destruct (ty_arguments pointer) as [|t [|]] eqn:Hargs; [done| |naive_solver]. simpl in *.
  apply negb_false_iff, tag_eqb_eq in Htag. apply ensures_Ok. by exists pointer.
Qed.

Lemma verify_native_index_address_defined value : defined (verify_native_index_address context value).
Proof.
  unfold verify_native_index_address, require_capability.
  apply defined_bind; [auto with defined_db|intros [] Hshape]. use_checks.
  apply defined_bind; [solve_check|intros _ _].
  eapply ensures_defined, ensures_bind; [apply pointee_of_ok; lia|].
  intros array (pointer & (v & d & _ & Hd & Ht) & Hptr & Hargs & Htag). apply ensures_true.
  apply defined_bind; [auto with defined_db|intros _ _].
  apply defined_bind; [|intros; solve_check].
  apply front_defined. apply (supported_array_pointer pointer); [|done..].
  rewrite <-Ht. by eapply supported.
Qed.

Lemma verify_native_field_address_defined value : defined (verify_native_field_address context value).
Proof.
  unfold verify_native_field_address, require_capability.
  apply defined_bind; [auto with defined_db|intros [] Hshape]. use_checks.
  apply defined_bind; [solve_check|intros _ _].
  eapply ensures_defined, ensures_bind; [apply pointee_of_ok; lia|]. intros t _.
  apply ensures_true. solve_check.
Qed.

Lemma verify_pointer_types_defined value t :
  has_value (ins_predicate value) = tag_eqb (ins_opcode value) NERI_IR_OPCODE_POINTER_COMPARE_V1 →
  (tag_eqb (ins_opcode value) NERI_IR_OPCODE_POINTER_CAST_V1 = true →
     length (ins_type_arguments value) = 2%nat) →
  defined (verify_pointer_types context value t).
Proof.
  intros Hpred Hcast. unfold verify_pointer_types. solve_check.
Qed.

Lemma pointer_shape_ok_inv value :
  pointer_shape_ok value = true →
  (2 <= length (ins_operands value))%nat ∧
  (tag_eqb (ins_opcode value) NERI_IR_OPCODE_BORROW_END_V1 = false →
     ins_type_arguments value ≠ []) ∧
  (tag_eqb (ins_opcode value) NERI_IR_OPCODE_POINTER_CAST_V1 = true →
     length (ins_type_arguments value) = 2%nat) ∧
  has_value (ins_predicate value) = tag_eqb (ins_opcode value) NERI_IR_OPCODE_POINTER_COMPARE_V1.
Proof.
  unfold pointer_shape_ok, size_is. rewrite negb_true_iff, !orb_false_iff, !negb_false_iff.
  intros ((((((_ & Hops) & Htypes) & _) & _) & Hpred) & _).
  apply Nat.eqb_eq in Hops, Htypes. apply Bool.eqb_prop in Hpred.
  split; [|split; [|split; [|exact Hpred]]].
  - rewrite Hops. destruct (_ || _); lia.
  - intros Hend Hnil. rewrite Hnil, Hend in Htypes. by destruct (tag_eqb (ins_opcode value) NERI_IR_OPCODE_POINTER_CAST_V1).
  - intros Hcast. by rewrite Hcast in Htypes.
Qed.

Lemma verify_pointer_instruction_defined value : defined (verify_pointer_instruction context value).
Proof.
  unfold verify_pointer_instruction, require_capability.
  apply defined_bind; [auto with defined_db|intros [] Hshape]. use_checks.
  apply pointer_shape_ok_inv in Hshape as (Hops & Htypes & Hcast & Hpred).
  apply defined_bind; [solve_check|intros _ _].
  destruct (tag_eqb (ins_opcode value) NERI_IR_OPCODE_BORROW_END_V1) eqn:Hend; [solve_check|].
  apply defined_bind; [by apply front_defined, Htypes|intros t _].
  solve_check. by apply verify_pointer_types_defined.
Qed.

#[local] Hint Resolve verify_native_index_address_defined verify_native_field_address_defined
  verify_pointer_instruction_defined : defined_db.

Lemma require_unary_defined value a b : defined (require_unary context value a b).
Proof. unfold require_unary. solve_check. Qed.

Lemma require_binary_defined value a b : defined (require_binary context value a b).
Proof. unfold require_binary. solve_check. Qed.

Lemma require_operands_defined value l t :
  defined (for_each l (λ index, require_operand_type context value index t)).
Proof. apply for_each_defined, Forall_true. auto with defined_db. Qed.

Lemma string_global_symbol c t depth u :
  verify_constant legal c t depth = Ok u → c_tag c = NERI_IR_CONSTANT_STRING_GLOBAL_V1 →
  has_value (c_symbol c) = true.
Proof.
  destruct c as [tag bits types nested symbol text]. simpl. intros (u' & _ & H)%bind_Ok_inv ->.
  use_checks. done.
Qed.

#[local] Hint Resolve require_unary_defined require_binary_defined require_operands_defined
  : defined_db.

Lemma verify_constant_instruction_defined value :
  defined (verify_constant_instruction legal context value).
Proof.
  unfold verify_constant_instruction. solve_check. apply deref_defined.
  eapply string_global_symbol; [eassumption|]. by apply tag_eqb_eq.
Qed.
#[local] Hint Resolve verify_constant_instruction_defined : defined_db.

Lemma verify_opcode_defined value : defined (verify_opcode legal context value).
Proof.
  destruct (verify_generate_defined value) as [Hgen Htask].
  unfold verify_opcode. destruct (ins_opcode value); auto with defined_db;
    unfold unary, binary, verify_integer_negation, verify_integer_arithmetic, verify_float_negation,
      verify_float_arithmetic, result_tag, verify_compare, verify_numeric_cast,
      verify_class_upcast, verify_class_checked_cast, verify_optional_none, verify_optional_some,
      verify_optional_is_some, verify_optional_get, verify_worker_entry, verify_array_new,
      verify_array_length, verify_array_load, verify_array_store, array_element_type,
      verify_object_alloc, verify_field_access, verify_unsafe_begin, verify_unsafe_end,
      require_capability; solve_check.
Qed.

Lemma verify_instruction_defined value : defined (verify_instruction legal context value).
Proof.
  unfold verify_instruction. repeat (apply defined_bind; [|intros _ _]); auto with defined_db.
  - apply for_each_defined, Forall_true. intros v. solve_check.
  - apply verify_opcode_defined.
Qed.
End definedness.
