(* ===== verification/InstructionTyping.v ===== *)
(** * What accepted instructions are

    Exact descriptions of the instruction checks of [Instructions.v]: calls,
    virtual dispatch, arithmetic, arrays and fields, and the capability that
    unsafe instructions hold. *)

From S2P Require Import Prelude Domains IR Samples Reader Types Layout Index Instructions.
From S2P Require Import InstructionSafety.

Local Open Scope string_scope.
Local Open Scope list_scope.
Local Open Scope N_scope.

(** Every effect of [e] is an effect of [summary]. *)
Definition effects_within (e summary : N) : Prop := N.ldiff e summary = 0.

Lemma effects_within_bits a b :
  effects_within a b ↔ ∀ n, N.testbit a n = true → N.testbit b n = true.
Proof.
  unfold effects_within. split.
  - intros H n Ha. apply (f_equal (λ x, N.testbit x n)) in H. rewrite N.ldiff_spec, N.bits_0, Ha in H.
    by destruct (N.testbit b n).
  - intros H. apply N.bits_inj. intros n. rewrite N.ldiff_spec, N.bits_0. specialize (H n).
    destruct (N.testbit a n); [|done]. by rewrite H.
Qed.

#[export] Instance effects_within_preorder : PreOrder effects_within.
Proof.
  split.
  - intros a. by apply effects_within_bits.
  - intros a b c. rewrite !effects_within_bits. auto.
Qed.

Lemma effects_within_lor e a b : effects_within e a → effects_within e (a ∣ b).
Proof. rewrite !effects_within_bits. intros H n Hn. rewrite N.lor_spec. by rewrite (H n Hn). Qed.

Lemma effects_within_lor_r e a b : effects_within e b → effects_within e (a ∣ b).
Proof. rewrite N.lor_comm. apply effects_within_lor. Qed.

Lemma effects_within_ldiff a b d : effects_within a b → effects_within (N.ldiff a d) (N.ldiff b d).
Proof.
  rewrite !effects_within_bits. intros H n. rewrite !N.ldiff_spec, !andb_true_iff. naive_solver.
Qed.

Create HintDb effects_db.
#[export] Hint Resolve effects_within_lor effects_within_lor_r : effects_db.
#[export] Hint Extern 1 (effects_within ?a ?a) => reflexivity : effects_db.

(** ** Calls *)

(** Operands from [offset] on have the parameter types, and there is a result of
    the result type unless it is void. *)
Definition call_typed (context : function_context) (value : instruction) (offset : nat)
    (parameters : list type) (result : type) : Prop :=
  has_shape value (if is_void result then 0 else 1) (length parameters + offset) 0 true false false ∧
  (∀ i t, parameters !! i = Some t → operand_has_type context value (i + offset) t) ∧
  (is_void result = false → result_has_type value 0 result).

Section calls.
Variable context : function_context.
Variable value : instruction.

(** The checks after the callee is known. *)
Lemma call_checks_iff (capability : bool) parameters result (e e' : N) :
  (let count := if is_void result then 0%nat else 1%nat in
   let offset := if capability then 1%nat else 0%nat in
   verify_instruction_shape value count (length parameters + offset) 0 true false false;;
   (if capability then require_operand_type context value 0 unsafe_capability_type else Ok tt);;
   require_parameters context value offset parameters;;
   (if (count =? 1)%nat then require_instruction_result value 0 result else Ok tt);;
   Ok e) = Ok e' ↔
  call_typed context value (if capability then 1 else 0) parameters result ∧
  (capability = true → operand_has_type context value 0 unsafe_capability_type) ∧ e' = e.
Proof.
  cbv zeta. rewrite !seq_Ok_iff, verify_instruction_shape_Ok, require_parameters_Ok.
  unfold call_typed. destruct (is_void result), capability; cbn [Nat.eqb];
    rewrite ?require_operand_type_Ok, ?require_instruction_result_Ok; naive_solver.
Qed.

Lemma verify_call_iff imported require_method c_abi unsafe_call e :
  verify_call context value imported require_method c_abi unsafe_call = Ok e ↔
  ∃ symbol parameters result effects,
    ins_symbol value = Some symbol ∧
    call_target context symbol imported require_method c_abi unsafe_call =
      Ok (parameters, result, effects) ∧
    call_typed context value (if c_abi || unsafe_call then 1 else 0) parameters result ∧
    (c_abi || unsafe_call = true → operand_has_type context value 0 unsafe_capability_type) ∧
    e = call_effects effects unsafe_call.
Proof.
  unfold verify_call. destruct (ins_symbol value) as [symbol|]; [|naive_solver].
  rewrite bind_Ok_iff. split.
  - intros ([[parameters result] effects] & Ht & Hc). apply call_checks_iff in Hc as (? & ? & ?).
    by exists symbol, parameters, result, effects.
  - intros (? & parameters & result & effects & [= <-] & Ht & Hc).
    exists (parameters, result, effects). split; [done|]. by apply call_checks_iff.
Qed.

Lemma direct_target_iff symbol require_method c_abi unsafe_call parameters result effects :
  call_target context symbol false require_method c_abi unsafe_call = Ok (parameters, result, effects) ↔
  ∃ target, find_function (ctx_index context) symbol = Some target ∧
    callable_kind require_method unsafe_call (fn_kind target) = true ∧
    fn_unsafe_call target = unsafe_call ∧
    fn_parameter_types target = parameters ∧ fn_result_type target = result ∧
    fn_effects target = effects.
Proof.
  unfold call_target. destruct (find_function (ctx_index context) symbol) as [target|]; [|naive_solver].
  rewrite seq_Ok_iff, fail_when_Ok, orb_false_iff, !negb_false_iff, eqb_true_iff. split.
  - intros [[? ?] [= <- <- <-]]. by exists target.
  - by intros (? & [= <-] & ? & ? & <- & <- & <-).
Qed.

Lemma import_target_iff symbol require_method c_abi unsafe_call parameters result effects :
  call_target context symbol true require_method c_abi unsafe_call = Ok (parameters, result, effects) ↔
  ∃ target, find_import (ctx_index context) symbol = Some target ∧
    imp_kind target = (if c_abi then NERI_IR_IMPORT_C_ABI_V1 else NERI_IR_IMPORT_RUNTIME_V1) ∧
    imp_parameter_types target = parameters ∧ imp_result_type target = result ∧
    imp_effects target = effects.
Proof.
  unfold call_target. destruct (find_import (ctx_index context) symbol) as [target|]; [|naive_solver].
  rewrite seq_Ok_iff, fail_when_Ok, negb_false_iff, tag_eqb_eq. split.
  - intros [? [= <- <- <-]]. by exists target.
  - by intros (? & [= <-] & ? & <- & <- & <-).
Qed.
End calls.

(** ** Virtual dispatch *)

(** [f] can stand where [signature] is called: same safety, result and
    parameters after the receiver. *)
Record implements (unsafe_call : bool) (signature f : function) : Prop := {
  impl_unsafe : fn_unsafe_call f = unsafe_call;
  impl_kind : fn_kind f = NERI_IR_INSTANCE_METHOD_V1;
  impl_receiver : ∃ receiver rest, fn_parameter_types f = receiver :: rest ∧ is_class receiver = true;
  impl_parameters : tail (fn_parameter_types f) = tail (fn_parameter_types signature);
  impl_result : fn_result_type f = fn_result_type signature;
}.

Lemma check_slot_parameters_Ok candidate signature u :
  length (fn_parameter_types candidate) = length (fn_parameter_types signature) →
  check_slot_parameters candidate signature = Ok u →
  tail (fn_parameter_types candidate) = tail (fn_parameter_types signature).
Proof.
  unfold check_slot_parameters. intros Hl. rewrite for_each_Ok, Forall_forall. intros Hcheck.
  destruct (fn_parameter_types candidate) as [|r ps], (fn_parameter_types signature) as [|r' ps'];
    try done. simpl in *. apply list_eq_same_length with (n := length ps); [lia|done|].
  intros i t t' _ Hi Hi'. specialize (Hcheck (S i, t)). cbn beta in Hcheck.
  assert ((S i, t) ∈ imap (pair ∘ S) ps) as Hin by apply (elem_of_lookup_imap_2 (pair ∘ S) _ _ _ Hi).
  specialize (Hcheck Hin). unfold element in Hcheck. change ((r' :: ps') !! S i) with (ps' !! i) in Hcheck.
  rewrite Hi', bind_Ok in Hcheck. by apply fail_when_Ok, negb_false_iff, same_type_Ok in Hcheck.
Qed.

Section virtual.
Variable context : function_context.

Lemma virtual_candidate_Ok unsafe_call candidate signature effects signature' effects' :
  virtual_candidate context unsafe_call candidate (signature, effects) = Ok (signature', effects') →
  implements unsafe_call signature candidate ∧ (signature' = candidate ∨ signature' = signature) ∧
  effects' = effects ∣ fn_effects candidate.
Proof.
  unfold virtual_candidate. rewrite seq_Ok_iff, fail_when_Ok, !orb_false_iff, !negb_false_iff.
  unfold size_is. rewrite eqb_true_iff, tag_eqb_eq, Nat.eqb_eq, same_type_Ok.
  intros ([[[[Hu Hk] Hr] Hl] Ht] & H).
  rewrite seq_Ok_iff in H. destruct H as [Hp H]. apply check_slot_parameters_Ok in Hp; [|done].
  apply bind_Ok_inv in H as (derived & _ & H). apply bind_Ok_inv in H as (base & _ & H).
  injection H as <- <-. split_and!; [|by destruct (is_same_or_base _ _ _); auto|done]. split; try done.
  destruct (fn_parameter_types candidate) as [|r ps]; [done|]. apply negb_false_iff in Hr. eauto.
Qed.

(** The final signature stands for every implementation. *)
Lemma virtual_candidates_Ok unsafe_call l : ∀ signature effects signature' effects',
  for_state l (signature, effects) (virtual_candidate context unsafe_call) = Ok (signature', effects') →
  (∀ f, f ∈ l → implements unsafe_call signature' f ∧ effects_within (fn_effects f) effects') ∧
  tail (fn_parameter_types signature') = tail (fn_parameter_types signature) ∧
  fn_result_type signature' = fn_result_type signature ∧ effects_within effects effects' ∧
  signature' ∈ signature :: l.
Proof.
  induction l as [|f l IH]; intros signature effects signature' effects' Hrun.
  - injection Hrun as <- <-. split_and!; [set_solver|done|done|reflexivity|set_solver].
  - apply bind_Ok_inv in Hrun as ([s1 e1] & Hf & Hrun).
    apply virtual_candidate_Ok in Hf as (Himpl & Hs1 & ->).
    apply IH in Hrun as (Hall & Htail & Hres & Heff & Hin).
    assert (tail (fn_parameter_types s1) = tail (fn_parameter_types signature) ∧
            fn_result_type s1 = fn_result_type signature) as [Ht1 Hr1]
      by (destruct Hs1 as [->| ->]; [split; apply Himpl|done]).
    split_and!; [|congruence|congruence| |destruct Hs1 as [->| ->]; set_solver].
    + intros g [->|Hg]%elem_of_cons; [|by apply Hall]. split.
      * destruct Himpl. split; congruence.
      * etransitivity; [|exact Heff]. auto with effects_db.
    + etransitivity; [|exact Heff]. auto with effects_db.
Qed.

Lemma verify_virtual_call_Ok value e :
  verify_virtual_call context value = Ok e →
  ∃ slot signature effects unsafe_call,
    ins_symbol value = Some slot ∧ signature ∈ slot_candidates context slot ∧
    call_typed context value (if unsafe_call : bool then 1 else 0)
      (fn_parameter_types signature) (fn_result_type signature) ∧
    (unsafe_call = true → operand_has_type context value 0 unsafe_capability_type) ∧
    e = call_effects effects unsafe_call ∧
    ∀ f, f ∈ slot_candidates context slot →
      implements unsafe_call signature f ∧ effects_within (fn_effects f) effects.
Proof.
  unfold verify_virtual_call. destruct (ins_symbol value) as [slot|]; [|done].
  rewrite seq_Ok_iff. intros [_ H]. destruct (slot_candidates context slot) as [|first rest] eqn:Hslot; [done|].
  apply bind_Ok_inv in H as ([signature effects] & Hrun & H).
  apply (call_checks_iff context value (fn_unsafe_call first)) in H as (Hc & Hcap & ->).
  apply virtual_candidates_Ok in Hrun as (Hall & _ & _ & _ & Hin).
  exists slot, signature, effects, (fn_unsafe_call first). rewrite Hslot. split_and!; try done.
  apply elem_of_cons in Hin as [->|Hin]; [left|done].
Qed.
End virtual.

(** ** Scalars, arrays and fields *)

Section instructions.
Variable legal : list byte → bool.
Variable context : function_context.

Lemma verify_instruction_iff value e :
  verify_instruction legal context value = Ok e ↔
  Forall (λ v, is_Some (ctx_definitions context !! v)) (ins_operands value) ∧
  (numeric_arithmetic (ins_opcode value) = true → length (ins_results value) = 1%nat) ∧
  verify_opcode legal context value = Ok e.
Proof.
  unfold verify_instruction. rewrite !seq_Ok_iff, for_each_Ok, fail_when_Ok.
  unfold size_is. rewrite andb_false_iff, negb_false_iff, Nat.eqb_eq.
  assert (Forall (λ v, (definition_type context v;; Ok tt) = Ok tt) (ins_operands value) ↔
          Forall (λ v, is_Some (ctx_definitions context !! v)) (ins_operands value)) as ->.
  { apply Forall_iff. intros v. unfold definition_type. destruct (_ !! v); simpl; [|done].
    split; [by eexists|done]. }
  destruct (numeric_arithmetic (ins_opcode value)); naive_solver.
Qed.

(** [count] operands and the result have the scalar type [tag]. *)
Definition arithmetic_typed (value : instruction) (count : nat) (tag : neri_ir_type_tag_v1) : Prop :=
  has_shape value 1 count 0 false false false ∧ result_has_type value 0 (plain_type tag []) ∧
  ∀ i, (i < count)%nat → operand_has_type context value i (plain_type tag []).

Lemma require_unary_iff value a b u :
  require_unary context value a b = Ok u ↔
  has_shape value 1 1 0 false false false ∧ operand_has_type context value 0 (plain_type a []) ∧
  result_has_type value 0 (plain_type b []).
Proof.
  destruct u. unfold require_unary.
  by rewrite !seq_Ok_iff, verify_instruction_shape_Ok, require_operand_type_Ok,
    require_instruction_result_Ok.
Qed.

Lemma require_binary_iff value a b u :
  require_binary context value a b = Ok u ↔
  has_shape value 1 2 0 false false false ∧ operand_has_type context value 0 (plain_type a []) ∧
  operand_has_type context value 1 (plain_type a []) ∧ result_has_type value 0 (plain_type b []).
Proof.
  destruct u. unfold require_binary.
  by rewrite !seq_Ok_iff, verify_instruction_shape_Ok, !require_operand_type_Ok,
    require_instruction_result_Ok.
Qed.

Lemma below_one (P : nat → Prop) : (∀ i, (i < 1)%nat → P i) ↔ P 0%nat.
Proof. split; [intros H; apply H; lia|]. intros H [|i] ?; [done|lia]. Qed.

Lemma below_two (P : nat → Prop) : (∀ i, (i < 2)%nat → P i) ↔ P 0%nat ∧ P 1%nat.
Proof. split; [intros H; split; apply H; lia|]. intros [? ?] [|[|i]] ?; [done|done|lia]. Qed.

Lemma result_tag_iff value tag :
  result_tag value = Ok tag ↔ ∃ t, result_has_type value 0 t ∧ ty_tag t = tag.
Proof.
  unfold result_tag, result_has_type, at_index. destruct (ins_results value) as [|r rs]; simpl; [naive_solver|].
  split; [intros [= <-]; eauto|]. by intros (t & (? & [= <-] & <-) & <-).
Qed.

Lemma result_tag_bind value (k : neri_ir_type_tag_v1 → result N) e (P : neri_ir_type_tag_v1 → Prop) :
  (∀ tag, k tag = Ok e ↔ P tag ∧ result_has_type value 0 (plain_type tag [])) →
  (tag ← result_tag value; k tag) = Ok e ↔ ∃ tag, P tag ∧ result_has_type value 0 (plain_type tag []).
Proof.
  intros Hk. rewrite bind_Ok_iff. split.
  - intros (tag & _ & H%Hk). eauto.
  - intros (tag & HP & Hr). exists tag. rewrite result_tag_iff, Hk. eauto.
Qed.

Lemma arithmetic_check_iff value (count : nat) (ok : neri_ir_type_tag_v1 → bool)
    (effects e : N) code message :
  (count = 1 ∨ count = 2)%nat →
  (tag ← result_tag value;
   fail_when (negb (ok tag)) code message;;
   (if (count =? 1)%nat then require_unary else require_binary) context value tag tag;;
   Ok effects) = Ok e ↔
  e = effects ∧ ∃ tag, ok tag = true ∧ arithmetic_typed value count tag.
Proof.
  intros Hcount. unfold arithmetic_typed.
  rewrite (result_tag_bind _ _ _ (λ tag, e = effects ∧ ok tag = true ∧
    has_shape value 1 count 0 false false false ∧
    ∀ i, (i < count)%nat → operand_has_type context value i (plain_type tag []))).
  - naive_solver.
  - intros tag. rewrite !seq_Ok_iff, fail_when_Ok, negb_false_iff.
    destruct Hcount as [-> | ->]; cbn [Nat.eqb];
      [rewrite require_unary_iff, below_one|rewrite require_binary_iff, below_two]; naive_solver.
Qed.

Lemma arithmetic_typed_defined value count tag :
  arithmetic_typed value count tag →
  Forall (λ v, is_Some (ctx_definitions context !! v)) (ins_operands value).
Proof.
  intros ((_ & Hlen & _) & _ & Hops). apply Forall_forall. intros v [i Hi]%list_elem_of_lookup.
  pose proof (lookup_lt_Some _ _ _ Hi) as Hlt. rewrite Hlen in Hlt.
  destruct (Hops i Hlt) as (v' & d & Hv & Hd & _). rewrite Hi in Hv. injection Hv as <-.
  by rewrite Hd.
Qed.
End instructions.

(** Operand count, operand types and effects of the arithmetic instructions. *)
Definition arithmetic_signature (opcode : neri_ir_opcode_v1)
    : option (nat * (neri_ir_type_tag_v1 → bool) * N) :=
  match opcode with
  | NERI_IR_OPCODE_INT_NEG_CHECKED_V1 => Some (1%nat, arithmetic_integer_tag, NERI_IR_EFFECT_MAY_PANIC_V1)
  | NERI_IR_OPCODE_INT_ADD_CHECKED_V1 | NERI_IR_OPCODE_INT_SUB_CHECKED_V1
  | NERI_IR_OPCODE_INT_MUL_CHECKED_V1 | NERI_IR_OPCODE_INT_DIV_CHECKED_V1 =>
      Some (2%nat, arithmetic_integer_tag, NERI_IR_EFFECT_MAY_PANIC_V1)
  | NERI_IR_OPCODE_FLOAT_NEG_V1 => Some (1%nat, floating_scalar, 0)
  | NERI_IR_OPCODE_FLOAT_ADD_V1 | NERI_IR_OPCODE_FLOAT_SUB_V1
  | NERI_IR_OPCODE_FLOAT_MUL_V1 | NERI_IR_OPCODE_FLOAT_DIV_V1 => Some (2%nat, floating_scalar, 0)
  | _ => None
  end.

Lemma arithmetic_opcode_iff legal context value count ok effects e :
  arithmetic_signature (ins_opcode value) = Some (count, ok, effects) →
  verify_opcode legal context value = Ok e ↔
  e = effects ∧ ∃ tag, ok tag = true ∧ arithmetic_typed context value count tag.
Proof.
  intros Hs. unfold verify_opcode.
  destruct (ins_opcode value); try discriminate Hs; injection Hs as <- <- <-;
    unfold verify_integer_negation, verify_integer_arithmetic, verify_float_negation,
      verify_float_arithmetic;
    first [apply (arithmetic_check_iff context value 1)|apply (arithmetic_check_iff context value 2)]; auto.
Qed.

(** A checked arithmetic instruction is accepted exactly when its operands and
    its single result have one and the same scalar type of the kind the opcode
    works on (arithmetic integers, which excludes bytes, or floats), and then its
    effects are those of the opcode: integer operations may panic. *)
Theorem arithmetic_accepted_iff legal context value count ok effects e :
  arithmetic_signature (ins_opcode value) = Some (count, ok, effects) →
  verify_instruction legal context value = Ok e ↔
  e = effects ∧ ∃ tag, ok tag = true ∧ arithmetic_typed context value count tag.
Proof.
  intros Hs. rewrite verify_instruction_iff, (arithmetic_opcode_iff _ _ _ _ _ _ _ Hs). split; [tauto|].
  intros [-> (tag & Hok & Ht)]. split_and!; [by eapply arithmetic_typed_defined| |done|by exists tag].
  intros _. apply Ht.
Qed.

(** The element type of an array operand. *)
Lemma array_element_type_iff context value message t :
  array_element_type context value message = Ok t ↔
  ∃ array, operand_has_type context value 0 array ∧ ty_tag array = NERI_IR_TYPE_ARRAY_V1 ∧
    ty_arguments array = [t].
Proof.
  unfold array_element_type. rewrite bind_Ok_iff. setoid_rewrite operand_type_Ok.
  setoid_rewrite seq_Ok_iff. setoid_rewrite fail_when_Ok.
  setoid_rewrite orb_false_iff. setoid_rewrite negb_false_iff. setoid_rewrite tag_eqb_eq.
  unfold size_is. split.
  - intros (array & Ht & [Htag Hs] & Hf). exists array. split_and!; [done|done|].
    destruct (ty_arguments array) as [|? [|]]; try discriminate Hs. by injection Hf as ->.
  - intros (array & Ht & Htag & Hargs). exists array. by rewrite Hargs.
Qed.

(** Array accesses are typed: a load or a store is accepted exactly when operand
    zero is an array, operand one an int, and the result, or operand two, has the
    element type of that array; both may panic, and they read or write. *)
Theorem array_access_iff legal context value e :
  opcode_in (ins_opcode value)
    [NERI_IR_OPCODE_ARRAY_LOAD_CHECKED_V1; NERI_IR_OPCODE_ARRAY_STORE_CHECKED_V1] = true →
  let store := tag_eqb (ins_opcode value) NERI_IR_OPCODE_ARRAY_STORE_CHECKED_V1 in
  verify_opcode legal context value = Ok e ↔
  has_shape value (if store then 0 else 1) (if store then 3 else 2) 0 false false false ∧
  (∃ array t, operand_has_type context value 0 array ∧ ty_tag array = NERI_IR_TYPE_ARRAY_V1 ∧
    ty_arguments array = [t] ∧
    if store then operand_has_type context value 2 t else result_has_type value 0 t) ∧
  operand_has_type context value 1 int_type ∧
  e = (if store then NERI_IR_EFFECT_WRITE_V1 else NERI_IR_EFFECT_READ_V1) ∣ NERI_IR_EFFECT_MAY_PANIC_V1.
Proof.
  unfold verify_opcode. destruct (ins_opcode value); try discriminate; intros _; simpl tag_eqb; cbv zeta iota;
    [unfold verify_array_load|unfold verify_array_store];
    rewrite seq_Ok_iff, verify_instruction_shape_Ok, bind_Ok_iff;
    setoid_rewrite array_element_type_iff; setoid_rewrite seq_Ok_iff; setoid_rewrite seq_Ok_iff;
    setoid_rewrite require_operand_type_Ok; [setoid_rewrite require_instruction_result_Ok|]; naive_solver.
Qed.

(** Field accesses are typed: a load or a store is accepted exactly when the
    symbol names a declared field, the receiver is an instance of a class that is,
    or derives from, the class declaring the field, and the result, or the stored
    operand, has the field's type. *)
Theorem field_access_iff context value store e :
  verify_field_access context value store = Ok e ↔
  has_shape value (if store then 0 else 1) (if store then 2 else 1) 0 true false false ∧
  (∃ symbol found receiver class,
    ins_symbol value = Some symbol ∧ find_field (ctx_index context) symbol = Some found ∧
    operand_has_type context value 0 receiver ∧ is_class receiver = true ∧
    ty_symbol receiver = Some class ∧
    is_same_or_base (ctx_index context) class (cls_id (ff_owner found)) = true ∧
    if store : bool then operand_has_type context value 1 (fld_value_type (ff_value found))
    else result_has_type value 0 (fld_value_type (ff_value found))) ∧
  e = if store then NERI_IR_EFFECT_WRITE_V1 else NERI_IR_EFFECT_READ_V1.
Proof.
  unfold verify_field_access. rewrite seq_Ok_iff, verify_instruction_shape_Ok.
  destruct (ins_symbol value) as [symbol|]; [|naive_solver].
  destruct (find_field (ctx_index context) symbol) as [found|] eqn:Hfound; [|naive_solver].
  rewrite bind_Ok_iff. setoid_rewrite operand_type_Ok. setoid_rewrite seq_Ok_iff.
  setoid_rewrite seq_Ok_iff. setoid_rewrite fail_when_Ok. split.
  - intros (Hshape & receiver & Ht & Hc & Hty & [= <-]). apply orb_false_iff in Hc as [Hclass Hbase].
    split_and!; [done| |done]. destruct (ty_symbol receiver) as [class|] eqn:Hs; [|done].
    exists symbol, found, receiver, class. rewrite negb_false_iff in Hclass, Hbase.
    split_and!; try done. destruct store; [by apply require_operand_type_Ok in Hty|].
    by apply require_instruction_result_Ok in Hty.
  - intros (Hshape & (? & ? & receiver & class & [= <-] & Hf & Ht & Hclass & Hs & Hbase & Hty) & ->).
    rewrite Hfound in Hf. injection Hf as <-.
    split; [done|]. exists receiver. rewrite Hclass, Hs, Hbase. split_and!; try done.
    destruct store; [by apply require_operand_type_Ok|by apply require_instruction_result_Ok].
Qed.

(** ** Capabilities *)

(** The instructions that work outside the managed world. *)
Definition unsafe_opcodes : list neri_ir_opcode_v1 :=
  [NERI_IR_OPCODE_UNSAFE_END_V1; NERI_IR_OPCODE_NATIVE_FIELD_ADDRESS_V1;
   NERI_IR_OPCODE_NATIVE_INDEX_ADDRESS_CHECKED_V1; NERI_IR_OPCODE_STACK_ALLOC_V1;
   NERI_IR_OPCODE_POINTER_LOAD_V1; NERI_IR_OPCODE_POINTER_STORE_V1;
   NERI_IR_OPCODE_POINTER_OFFSET_V1; NERI_IR_OPCODE_POINTER_DIFFERENCE_V1;
   NERI_IR_OPCODE_POINTER_COMPARE_V1; NERI_IR_OPCODE_POINTER_CAST_V1;
   NERI_IR_OPCODE_NATIVE_ALLOC_V1; NERI_IR_OPCODE_NATIVE_REALLOC_V1;
   NERI_IR_OPCODE_NATIVE_FREE_V1; NERI_IR_OPCODE_BORROW_BEGIN_V1; NERI_IR_OPCODE_BORROW_END_V1;
   NERI_IR_OPCODE_CALL_UNSAFE_V1; NERI_IR_OPCODE_CALL_C_INDIRECT_V1; NERI_IR_OPCODE_TASK_GENERATE_V1].

Definition holds_capability (context : function_context) (value : instruction) : Prop :=
  ∃ t, operand_has_type context value 0 t ∧ is_unsafe_capability t = true.

Definition is_unsafe (e : N) : Prop := effects_within NERI_IR_EFFECT_UNSAFE_V1 e.

Lemma capability_type_holds context value :
  operand_has_type context value 0 unsafe_capability_type → holds_capability context value.
Proof. intros H. by exists unsafe_capability_type. Qed.

Lemma require_capability_Ok context value message u :
  require_capability context value message = Ok u → holds_capability context value.
Proof.
  unfold require_capability. intros (t & Ht & Hc)%bind_Ok_inv. apply operand_type_Ok in Ht.
  apply fail_when_Ok, negb_false_iff in Hc. by exists t.
Qed.

Lemma unsafe_bits e :
  is_unsafe (NERI_IR_EFFECT_UNSAFE_V1 ∣ e) ∧ is_unsafe (e ∣ NERI_IR_EFFECT_UNSAFE_V1).
Proof. unfold is_unsafe. auto with effects_db. Qed.

Section capabilities.
Variable context : function_context.
Variable value : instruction.

Notation guarded e := (holds_capability context value ∧ is_unsafe e).

Lemma unsafe_end_guarded e : verify_unsafe_end context value = Ok e → guarded e.
Proof.
  unfold verify_unsafe_end. rewrite !seq_Ok_iff. intros (_ & Hc%require_capability_Ok & [= <-]).
  split; [done|reflexivity].
Qed.

Lemma native_address_guarded e :
  verify_native_field_address context value = Ok e ∨ verify_native_index_address context value = Ok e →
  guarded e.
Proof.
  unfold verify_native_field_address, verify_native_index_address. rewrite !seq_Ok_iff.
  intros [(_ & Hc%require_capability_Ok & H)|(_ & Hc%require_capability_Ok & H)]; (split; [done|]).
  - apply bind_Ok_inv in H as (? & _ & H). apply bind_Ok_inv in H as (? & _ & H).
    apply bind_Ok_inv in H as (? & _ & H). destruct (find _ _); [|done].
    apply seq_Ok_iff in H as [_ [= <-]]. reflexivity.
  - apply bind_Ok_inv in H as (? & _ & H). apply seq_Ok_iff in H as [_ H].
    apply bind_Ok_inv in H as (? & _ & H). apply seq_Ok_iff in H as [_ [= <-]]. apply unsafe_bits.
Qed.

Lemma pointer_guarded e : verify_pointer_instruction context value = Ok e → guarded e.
Proof.
  unfold verify_pointer_instruction. rewrite !seq_Ok_iff.
  intros (_ & Hc%require_capability_Ok & H). split; [done|]. destruct (tag_eqb _ _).
  - apply bind_Ok_inv in H as (? & _ & H). apply seq_Ok_iff in H as [_ [= <-]]. reflexivity.
  - apply bind_Ok_inv in H as (? & _ & H). rewrite !seq_Ok_iff in H.
    destruct H as (_ & _ & _ & [= <-]). unfold pointer_effects, is_unsafe. auto 8 with effects_db.
Qed.

Lemma unsafe_call_guarded e : verify_call context value false false false true = Ok e → guarded e.
Proof.
  rewrite verify_call_iff. intros (? & ? & ? & ? & _ & _ & _ & Hc & ->).
  split; [by apply capability_type_holds, Hc|]. apply unsafe_bits.
Qed.

Lemma indirect_call_guarded e :
  ins_opcode value = NERI_IR_OPCODE_CALL_C_INDIRECT_V1 →
  verify_c_function_instruction context value = Ok e → guarded e.
Proof.
  intros Hop. unfold verify_c_function_instruction. rewrite Hop.
  change (tag_eqb _ _) with false. cbv iota.
  rewrite !seq_Ok_iff. intros (_ & _ & H). apply bind_Ok_inv in H as (? & _ & H).
  apply seq_Ok_iff in H as [_ H]. apply bind_Ok_inv in H as (? & _ & H). rewrite !seq_Ok_iff in H.
  destruct H as (_ & Hc%require_operand_type_Ok & _ & _ & [= <-]).
  split; [by apply capability_type_holds|]. apply unsafe_bits.
Qed.

Lemma task_generate_guarded e : verify_task_generate context value = Ok e → guarded e.
Proof.
  unfold verify_task_generate. rewrite !seq_Ok_iff. intros (_ & _ & H).
  apply bind_Ok_inv in H as (t & Ht%operand_type_Ok & H). rewrite !seq_Ok_iff in H.
  destruct H as (Hc%fail_when_Ok%negb_false_iff & _ & _ & H). split; [by exists t|].
  apply bind_Ok_inv in H as (? & _ & H). apply seq_Ok_iff in H as [_ H].
  do 4 (apply bind_Ok_inv in H as (? & _ & H)). injection H as <-.
  unfold is_unsafe. auto with effects_db.
Qed.
End capabilities.

(** Unsafe instructions hold a capability: when an instruction that touches
    native memory, borrows managed storage, calls an unsafe or foreign function
    through a pointer or starts tasks is accepted, its operand zero is a defined
    value of unsafe-capability type, and the effects charged to the function
    include the unsafe effect. *)
Theorem unsafe_instructions_hold_capability legal context value e :
  opcode_in (ins_opcode value) unsafe_opcodes = true →
  verify_instruction legal context value = Ok e →
  holds_capability context value ∧ is_unsafe e.
Proof.
  intros Hop (_ & _ & H)%verify_instruction_iff. unfold verify_opcode in H.
  destruct (ins_opcode value) eqn:Ho; try discriminate Hop;
    eauto using unsafe_end_guarded, native_address_guarded, pointer_guarded, unsafe_call_guarded,
      indirect_call_guarded, task_generate_guarded.
Qed.

(** ** Accepted calls *)

(** A direct call reaches a declared function of its own safety class: the
    symbol is a function of the module, unsafe exactly when the call is an unsafe
    call, the operands (after the capability) have its parameter types one for
    one, the result has its result type, and the caller is charged every effect of
    the callee except noreturn. *)
Theorem direct_call_sound legal context value e :
  opcode_in (ins_opcode value)
    [NERI_IR_OPCODE_CALL_V1; NERI_IR_OPCODE_CALL_DIRECT_V1; NERI_IR_OPCODE_CALL_UNSAFE_V1] = true →
  verify_instruction legal context value = Ok e →
  let unsafe := tag_eqb (ins_opcode value) NERI_IR_OPCODE_CALL_UNSAFE_V1 in
  ∃ symbol target,
    ins_symbol value = Some symbol ∧ find_function (ctx_index context) symbol = Some target ∧
    fn_unsafe_call target = unsafe ∧
    call_typed context value (if unsafe then 1 else 0) (fn_parameter_types target) (fn_result_type target) ∧
    effects_within (N.ldiff (fn_effects target) NERI_IR_EFFECT_NO_RETURN_V1) e.
Proof.
  intros Hop (_ & _ & H)%verify_instruction_iff. unfold verify_opcode in H.
  destruct (ins_opcode value); try discriminate Hop; simpl tag_eqb; cbv zeta;
    apply verify_call_iff in H as (symbol & ps & r & eff & Hs & Ht & Hc & _ & ->);
    apply direct_target_iff in Ht as (target & Hf & _ & Hu & <- & <- & <-);
    exists symbol, target; (split_and!; [done..|]); unfold call_effects; auto with effects_db.
Qed.

(** A virtual call is safe for every implementation it can dispatch to: every
    function of the module that implements the slot is an instance method on a
    class, has the call's safety class, takes the operands of the call after the
    receiver, returns the result type of the call, and the caller is charged its
    effects except noreturn. *)
Theorem virtual_call_sound legal context value e :
  ins_opcode value = NERI_IR_OPCODE_CALL_VIRTUAL_V1 →
  verify_instruction legal context value = Ok e →
  ∃ slot signature unsafe,
    ins_symbol value = Some slot ∧ signature ∈ slot_candidates context slot ∧
    call_typed context value (if unsafe : bool then 1 else 0)
      (fn_parameter_types signature) (fn_result_type signature) ∧
    ∀ f, f ∈ slot_candidates context slot →
      implements unsafe signature f ∧
      effects_within (N.ldiff (fn_effects f) NERI_IR_EFFECT_NO_RETURN_V1) e.
Proof.
  intros Hop (_ & _ & H)%verify_instruction_iff. unfold verify_opcode in H. rewrite Hop in H.
  apply verify_virtual_call_Ok in H as (slot & signature & effects & unsafe & Hs & Hin & Hc & _ & -> & Hall).
  exists slot, signature, unsafe. split_and!; [done..|]. intros f Hf.
  destruct (Hall f Hf) as [Himpl Heff]. split; [done|]. unfold call_effects.
  apply effects_within_lor. by apply effects_within_ldiff.
Qed.

(** ** Witnesses, on the instructions of the sample program *)

Definition sample_context (f : function) (values : list (N * type)) : function_context :=
  mk_context (module_index Sample.app) f ∅ ∅ ∅
    (list_to_map (map (λ p, (p.1, mk_definition p.2 0 (-1))) values)) [] 0.

Definition add_context : function_context :=
  sample_context Sample.add_function [(1, Sample.int); (2, Sample.int)].

Lemma arithmetic_accepted_iff_witness :
  ∃ tag, arithmetic_integer_tag tag = true ∧ arithmetic_typed add_context Sample.add_instruction 2 tag.
Proof.
  apply (arithmetic_accepted_iff (λ _, true) add_context Sample.add_instruction 2 arithmetic_integer_tag
    NERI_IR_EFFECT_MAY_PANIC_V1 NERI_IR_EFFECT_MAY_PANIC_V1); vm_compute; reflexivity.
Defined.

Definition sample_array_load : instruction :=
  Sample.instr NERI_IR_OPCODE_ARRAY_LOAD_CHECKED_V1 [mk_value 3 Sample.int] [1; 2] None.

Definition array_context : function_context :=
  sample_context Sample.add_function
    [(1, plain_type NERI_IR_TYPE_ARRAY_V1 [Sample.int]); (2, Sample.int)].

Lemma array_access_iff_witness : operand_has_type array_context sample_array_load 1 int_type.
Proof.
  apply (array_access_iff (λ _, true) array_context sample_array_load 5); vm_compute; reflexivity.
Defined.

Definition load_context : function_context :=
  sample_context Sample.load_function [(9, Sample.capability); (1, Sample.pointer)].

Lemma unsafe_instructions_hold_capability_witness :
  holds_capability load_context Sample.load_pointer ∧ is_unsafe 65.
Proof.
  apply (unsafe_instructions_hold_capability (λ _, true) load_context Sample.load_pointer 65);
    vm_compute; reflexivity.
Defined.

Definition main_context : function_context :=
  sample_context Sample.main_function [(1, Sample.class Sample.base_class); (2, Sample.int)].

Lemma direct_call_sound_witness :
  ∃ symbol target,
    ins_symbol Sample.call_add = Some symbol ∧
    find_function (module_index Sample.app) symbol = Some target ∧ fn_unsafe_call target = false ∧
    call_typed main_context Sample.call_add 0 (fn_parameter_types target) (fn_result_type target) ∧
    effects_within (N.ldiff (fn_effects target) NERI_IR_EFFECT_NO_RETURN_V1) 4.
Proof.
  apply (direct_call_sound (λ _, true) main_context Sample.call_add 4); vm_compute; reflexivity.
Defined.

Lemma virtual_call_sound_witness :
  ∃ slot signature unsafe,
    ins_symbol Sample.call_get = Some slot ∧ signature ∈ slot_candidates main_context slot ∧
    call_typed main_context Sample.call_get (if unsafe : bool then 1 else 0)
      (fn_parameter_types signature) (fn_result_type signature) ∧
    ∀ f, f ∈ slot_candidates main_context slot →
      implements unsafe signature f ∧
      effects_within (N.ldiff (fn_effects f) NERI_IR_EFFECT_NO_RETURN_V1) 1.
Proof.
  apply (virtual_call_sound (λ _, true) main_context Sample.call_get 1); vm_compute; reflexivity.
Defined.
