(* ===== verification/Catalog.v ===== *)
(** * The runtime ABI catalog

    The generated tables of [native/include/neri/abi_runtime_imports.h] and
    [native/include/neri/abi_catalog.h], and the check of a runtime import against
    them ([verify_runtime_import] of [native/codegen/ir_verifier.cpp]). *)

From S2P Require Import Prelude Domains IR Reader Types Layout Index Instructions.
From S2P Require Import InstructionTyping.

Local Open Scope string_scope.
Local Open Scope list_scope.
Local Open Scope N_scope.

(** ** C strings *)

(** [s.c_str()] as [strcmp] reads it: up to the first NUL. *)
Fixpoint c_str (s : string) : string :=
  match s with
  | EmptyString => EmptyString
  | String a s => if Ascii.eqb a Ascii.zero then EmptyString else String a (c_str s)
  end.

(** [strcmp(a, b) == 0], for a literal [b]. *)
Definition c_equal (a b : string) : bool := String.eqb (c_str a) b.

(** [strncmp(a, b, sizeof(b) - 1) == 0], for a literal [b]. *)
Definition c_prefix (a b : string) : bool := starts_with (c_str a) b.

(** ** Contracts *)

(** A tag and at most one type argument. *)
Inductive neri_abi_type_v1 :=
| mk_abi_type (tag : neri_ir_type_tag_v1) (argument : option neri_abi_type_v1).

Definition scalar_type (tag : neri_ir_type_tag_v1) : neri_abi_type_v1 := mk_abi_type tag None.
Definition type_of (tag : neri_ir_type_tag_v1) (argument : neri_abi_type_v1) : neri_abi_type_v1 :=
  mk_abi_type tag (Some argument).

Record neri_abi_runtime_import_v1 := mk_contract {
  rc_link_name : string;
  rc_parameter_types : list neri_abi_type_v1;
  rc_parameter_count : N;
  rc_result_type : neri_abi_type_v1;
  rc_effects : N;
  rc_minimum_minor : N;
  rc_feature_bits : N;
}.

Definition neri_abi_type_bool_v1 : neri_abi_type_v1 := scalar_type NERI_IR_TYPE_BOOL_V1.
Definition neri_abi_type_byte_v1 : neri_abi_type_v1 := scalar_type NERI_IR_TYPE_BYTE_V1.
Definition neri_abi_type_int_v1 : neri_abi_type_v1 := scalar_type NERI_IR_TYPE_INT_V1.
Definition neri_abi_type_float_v1 : neri_abi_type_v1 := scalar_type NERI_IR_TYPE_FLOAT_V1.
Definition neri_abi_type_string_v1 : neri_abi_type_v1 := scalar_type NERI_IR_TYPE_STRING_V1.

(** The table, in the order of the header. *)
Definition neri_abi_runtime_imports_v1 : list neri_abi_runtime_import_v1 := [
  mk_contract "neri_rt_v1_string_concat"
    [scalar_type NERI_IR_TYPE_STRING_V1; scalar_type NERI_IR_TYPE_STRING_V1]
    2 (scalar_type NERI_IR_TYPE_STRING_V1) 44 2 0;
  mk_contract "neri_rt_v1_string_equal"
    [scalar_type NERI_IR_TYPE_STRING_V1; scalar_type NERI_IR_TYPE_STRING_V1]
    2 (scalar_type NERI_IR_TYPE_BOOL_V1) 1 2 0;
  mk_contract "neri_rt_v1_host_string_byte_length"
    [scalar_type NERI_IR_TYPE_STRING_V1]
    1 (scalar_type NERI_IR_TYPE_INT_V1) 4 6 2048;
  mk_contract "neri_rt_v1_host_string_byte_at"
    [scalar_type NERI_IR_TYPE_STRING_V1; scalar_type NERI_IR_TYPE_INT_V1]
    2 (scalar_type NERI_IR_TYPE_BYTE_V1) 4 6 2048;
  mk_contract "neri_rt_v1_host_string_slice"
    [scalar_type NERI_IR_TYPE_STRING_V1; scalar_type NERI_IR_TYPE_INT_V1; scalar_type NERI_IR_TYPE_INT_V1]
    3 (scalar_type NERI_IR_TYPE_STRING_V1) 44 6 2048;
  mk_contract "neri_rt_v1_host_string_from_bytes"
    [type_of NERI_IR_TYPE_ARRAY_V1 neri_abi_type_byte_v1]
    1 (type_of NERI_IR_TYPE_OPTIONAL_V1 neri_abi_type_string_v1) 44 6 2048;
  mk_contract "neri_rt_v1_stdout_write"
    [scalar_type NERI_IR_TYPE_STRING_V1]
    1 (scalar_type NERI_IR_TYPE_VOID_V1) 6 3 128;
  mk_contract "neri_rt_v1_stdout_write_line"
    [scalar_type NERI_IR_TYPE_STRING_V1]
    1 (scalar_type NERI_IR_TYPE_VOID_V1) 6 3 128;
  mk_contract "neri_rt_v1_stdin_read_line"
    []
    0 (scalar_type NERI_IR_TYPE_STRING_V1) 45 4 192;
  mk_contract "neri_rt_v1_stdin_read_line_optional"
    []
    0 (type_of NERI_IR_TYPE_OPTIONAL_V1 neri_abi_type_string_v1) 45 21 33554432;
  mk_contract "neri_rt_v1_math_abs"
    [scalar_type NERI_IR_TYPE_INT_V1]
    1 (scalar_type NERI_IR_TYPE_INT_V1) 4 4 0;
  mk_contract "neri_rt_v1_math_max"
    [scalar_type NERI_IR_TYPE_INT_V1; scalar_type NERI_IR_TYPE_INT_V1]
    2 (scalar_type NERI_IR_TYPE_INT_V1) 0 4 0;
  mk_contract "neri_rt_v1_math_min"
    [scalar_type NERI_IR_TYPE_INT_V1; scalar_type NERI_IR_TYPE_INT_V1]
    2 (scalar_type NERI_IR_TYPE_INT_V1) 0 4 0;
  mk_contract "neri_rt_v1_math_pow"
    [scalar_type NERI_IR_TYPE_INT_V1; scalar_type NERI_IR_TYPE_INT_V1]
    2 (scalar_type NERI_IR_TYPE_INT_V1) 4 4 0;
  mk_contract "neri_rt_v1_test_assert"
    [scalar_type NERI_IR_TYPE_BOOL_V1]
    1 (scalar_type NERI_IR_TYPE_VOID_V1) 4 4 0;
  mk_contract "neri_rt_v1_test_assert_true"
    [scalar_type NERI_IR_TYPE_BOOL_V1]
    1 (scalar_type NERI_IR_TYPE_VOID_V1) 4 4 0;
  mk_contract "neri_rt_v1_test_assert_false"
    [scalar_type NERI_IR_TYPE_BOOL_V1]
    1 (scalar_type NERI_IR_TYPE_VOID_V1) 4 4 0;
  mk_contract "neri_rt_v1_host_exit"
    [scalar_type NERI_IR_TYPE_INT_V1]
    1 (scalar_type NERI_IR_TYPE_VOID_V1) 134 6 2048;
  mk_contract "neri_rt_v1_host_argument_count"
    []
    0 (scalar_type NERI_IR_TYPE_INT_V1) 1 6 2048;
  mk_contract "neri_rt_v1_host_error_message"
    []
    0 (scalar_type NERI_IR_TYPE_STRING_V1) 45 6 2048;
  mk_contract "neri_rt_v1_host_read_text"
    [scalar_type NERI_IR_TYPE_STRING_V1]
    1 (type_of NERI_IR_TYPE_OPTIONAL_V1 neri_abi_type_string_v1) 45 6 2048;
  mk_contract "neri_rt_v1_host_path_join"
    [scalar_type NERI_IR_TYPE_STRING_V1; scalar_type NERI_IR_TYPE_STRING_V1]
    2 (type_of NERI_IR_TYPE_OPTIONAL_V1 neri_abi_type_string_v1) 44 6 2048;
  mk_contract "neri_rt_v1_host_path_absolute"
    [scalar_type NERI_IR_TYPE_STRING_V1]
    1 (type_of NERI_IR_TYPE_OPTIONAL_V1 neri_abi_type_string_v1) 45 6 2048;
  mk_contract "neri_rt_v1_host_path_file_name"
    [scalar_type NERI_IR_TYPE_STRING_V1]
    1 (type_of NERI_IR_TYPE_OPTIONAL_V1 neri_abi_type_string_v1) 44 6 2048;
  mk_contract "neri_rt_v1_host_argument_at"
    [scalar_type NERI_IR_TYPE_INT_V1]
    1 (type_of NERI_IR_TYPE_OPTIONAL_V1 neri_abi_type_string_v1) 45 6 2048;
  mk_contract "neri_rt_v1_host_environment"
    [scalar_type NERI_IR_TYPE_STRING_V1]
    1 (type_of NERI_IR_TYPE_OPTIONAL_V1 neri_abi_type_string_v1) 45 6 2048;
  mk_contract "neri_rt_v1_host_parse_int"
    [scalar_type NERI_IR_TYPE_STRING_V1]
    1 (type_of NERI_IR_TYPE_OPTIONAL_V1 neri_abi_type_int_v1) 4 6 2048;
  mk_contract "neri_rt_v1_host_parse_float"
    [scalar_type NERI_IR_TYPE_STRING_V1]
    1 (type_of NERI_IR_TYPE_OPTIONAL_V1 neri_abi_type_float_v1) 4 6 2048;
  mk_contract "neri_rt_v1_host_run"
    [scalar_type NERI_IR_TYPE_STRING_V1; type_of NERI_IR_TYPE_ARRAY_V1 neri_abi_type_string_v1]
    2 (type_of NERI_IR_TYPE_OPTIONAL_V1 neri_abi_type_int_v1) 7 6 2048;
  mk_contract "neri_rt_v1_host_append_byte"
    [type_of NERI_IR_TYPE_ARRAY_V1 neri_abi_type_byte_v1; scalar_type NERI_IR_TYPE_BYTE_V1]
    2 (type_of NERI_IR_TYPE_ARRAY_V1 neri_abi_type_byte_v1) 44 6 2048;
  mk_contract "neri_rt_v1_host_append_int"
    [type_of NERI_IR_TYPE_ARRAY_V1 neri_abi_type_int_v1; scalar_type NERI_IR_TYPE_INT_V1]
    2 (type_of NERI_IR_TYPE_ARRAY_V1 neri_abi_type_int_v1) 44 6 2048;
  mk_contract "neri_rt_v1_host_append_string"
    [type_of NERI_IR_TYPE_ARRAY_V1 neri_abi_type_string_v1; scalar_type NERI_IR_TYPE_STRING_V1]
    2 (type_of NERI_IR_TYPE_ARRAY_V1 neri_abi_type_string_v1) 44 6 2048;
  mk_contract "neri_rt_v1_host_write_text"
    [scalar_type NERI_IR_TYPE_STRING_V1; scalar_type NERI_IR_TYPE_STRING_V1]
    2 (scalar_type NERI_IR_TYPE_BOOL_V1) 6 6 2048;
  mk_contract "neri_rt_v1_host_write_bytes"
    [scalar_type NERI_IR_TYPE_STRING_V1; type_of NERI_IR_TYPE_ARRAY_V1 neri_abi_type_byte_v1]
    2 (scalar_type NERI_IR_TYPE_BOOL_V1) 6 6 2048;
  mk_contract "neri_rt_v1_host_remove_file"
    [scalar_type NERI_IR_TYPE_STRING_V1]
    1 (scalar_type NERI_IR_TYPE_BOOL_V1) 6 6 2048;
  mk_contract "neri_rt_v1_session_identity"
    []
    0 (scalar_type NERI_IR_TYPE_INT_V1) 84 19 8388608;
  mk_contract "neri_rt_v1_session_create"
    []
    0 (scalar_type NERI_IR_TYPE_INT_V1) 84 19 8388608;
  mk_contract "neri_rt_v1_session_owner"
    [scalar_type NERI_IR_TYPE_INT_V1]
    1 (scalar_type NERI_IR_TYPE_STRING_V1) 93 19 8388608;
  mk_contract "neri_rt_v1_session_load_execute"
    [scalar_type NERI_IR_TYPE_INT_V1; scalar_type NERI_IR_TYPE_STRING_V1]
    2 (scalar_type NERI_IR_TYPE_INT_V1) 125 19 8388608;
  mk_contract "neri_rt_v1_session_load_execute_retained"
    [scalar_type NERI_IR_TYPE_INT_V1; scalar_type NERI_IR_TYPE_STRING_V1; scalar_type NERI_IR_TYPE_STRING_V1]
    3 (scalar_type NERI_IR_TYPE_INT_V1) 125 23 8388608;
  mk_contract "neri_rt_v1_session_load_execute_object"
    [scalar_type NERI_IR_TYPE_INT_V1; scalar_type NERI_IR_TYPE_STRING_V1; scalar_type NERI_IR_TYPE_STRING_V1; scalar_type NERI_IR_TYPE_STRING_V1]
    4 (scalar_type NERI_IR_TYPE_INT_V1) 125 24 8388608;
  mk_contract "neri_rt_v1_session_load_execute_object_libraries"
    [scalar_type NERI_IR_TYPE_INT_V1; scalar_type NERI_IR_TYPE_STRING_V1; scalar_type NERI_IR_TYPE_STRING_V1; scalar_type NERI_IR_TYPE_STRING_V1; scalar_type NERI_IR_TYPE_STRING_V1]
    5 (scalar_type NERI_IR_TYPE_INT_V1) 125 30 8388608;
  mk_contract "neri_rt_v1_session_reset"
    [scalar_type NERI_IR_TYPE_INT_V1]
    1 (scalar_type NERI_IR_TYPE_INT_V1) 125 19 8388608;
  mk_contract "neri_rt_v1_session_destroy"
    [scalar_type NERI_IR_TYPE_INT_V1]
    1 (scalar_type NERI_IR_TYPE_INT_V1) 125 19 8388608;
  mk_contract "neri_rt_v1_session_error"
    [scalar_type NERI_IR_TYPE_INT_V1]
    1 (scalar_type NERI_IR_TYPE_STRING_V1) 93 19 8388608;
  mk_contract "neri_rt_v1_session_result"
    [scalar_type NERI_IR_TYPE_INT_V1]
    1 (scalar_type NERI_IR_TYPE_STRING_V1) 93 23 8388608;
  mk_contract "neri_rt_v1_session_fail"
    [scalar_type NERI_IR_TYPE_STRING_V1]
    1 (scalar_type NERI_IR_TYPE_VOID_V1) 87 31 8388608].

Definition neri_abi_runtime_import (link_name : string) : option neri_abi_runtime_import_v1 :=
  find (λ contract, c_equal link_name (rc_link_name contract)) neri_abi_runtime_imports_v1.

(** ** Requirements by symbol name *)

Definition NERI_RT_FEATURE_PRECISE_GC : N := 1.
Definition NERI_RT_FEATURE_NONMOVING_GC : N := N.shiftl 1 1.
Definition NERI_RT_FEATURE_SCOPED_BORROWS : N := N.shiftl 1 2.
Definition NERI_RT_FEATURE_NATIVE_MEMORY : N := N.shiftl 1 3.
Definition NERI_RT_FEATURE_ROOT_FRAMES : N := N.shiftl 1 4.
Definition NERI_RT_FEATURE_SOURCE_LOCATIONS : N := N.shiftl 1 5.
Definition NERI_RT_FEATURE_NATIVE_STRINGS : N := N.shiftl 1 6.
Definition NERI_RT_FEATURE_CONSOLE_IO : N := N.shiftl 1 7.
Definition NERI_RT_FEATURE_INLINE_AGGREGATES : N := N.shiftl 1 8.
Definition NERI_RT_FEATURE_EXTENDED_SCALARS : N := N.shiftl 1 9.
Definition NERI_RT_FEATURE_MULTIPLE_MUTATORS : N := N.shiftl 1 10.
Definition NERI_RT_FEATURE_BOOTSTRAP_HOST : N := N.shiftl 1 11.
Definition NERI_RT_FEATURE_SOCKETS : N := N.shiftl 1 12.
Definition NERI_RT_FEATURE_INTERACTIVE_IO : N := N.shiftl 1 13.
Definition NERI_RT_FEATURE_SCOPED_TASKS : N := N.shiftl 1 14.
Definition NERI_RT_FEATURE_FILES : N := N.shiftl 1 15.
Definition NERI_RT_FEATURE_INTERRUPTS : N := N.shiftl 1 16.
Definition NERI_RT_FEATURE_WALL_CLOCK : N := N.shiftl 1 17.
Definition NERI_RT_FEATURE_CRYPTO : N := N.shiftl 1 18.
Definition NERI_RT_FEATURE_ROOTED_FILES : N := N.shiftl 1 19.
Definition NERI_RT_FEATURE_PROCESS : N := N.shiftl 1 20.
Definition NERI_RT_FEATURE_DIRECTORY : N := N.shiftl 1 21.
Definition NERI_RT_FEATURE_SOCKET_CLOSE_RESULT : N := N.shiftl 1 22.
Definition NERI_RT_FEATURE_SESSION_MODULES : N := N.shiftl 1 23.
Definition NERI_RT_FEATURE_DRAIN : N := N.shiftl 1 24.
Definition NERI_RT_FEATURE_OPTIONAL_CONSOLE_READ : N := N.shiftl 1 25.
Definition NERI_RT_FEATURE_PROCESS_IO : N := N.shiftl 1 26.
Definition NERI_RT_FEATURE_FILESYSTEM_MUTATION : N := N.shiftl 1 27.
Definition NERI_RT_FEATURE_SOCKET_ENDPOINTS : N := N.shiftl 1 28.
Definition NERI_RT_FEATURE_SEQUENTIAL_ARRAYS : N := N.shiftl 1 29.
Definition NERI_RT_FEATURE_ISOLATED_WORKERS : N := N.shiftl 1 30.
Definition NERI_RT_FEATURE_MULTIPLEXED_IO : N := N.shiftl 1 31.
Definition NERI_RT_ADVERTISED_FEATURES : N := 4294966015.

(** How the generated rules match a link name. *)
Inductive symbol_rule :=
| family (prefix : string)
| exactly (name : string).

Definition rule_matches (link_name : string) (rule : symbol_rule) : bool :=
  match rule with
  | family prefix => c_prefix link_name prefix
  | exactly name => c_equal link_name name
  end.

Definition minimum_minor_rules : list (symbol_rule * N) := [
  (family "neri_rt_v1_file_", 11);
  (exactly "neri_rt_v1_file_identity", 34);
  (exactly "neri_rt_v1_array_alloc_uninitialized", 35);
  (family "neri_rt_v1_region_", 36);
  (exactly "neri_rt_v1_file_wait_readable", 25);
  (family "neri_rt_v1_interrupt_", 12);
  (family "neri_rt_v1_clock_wall_", 13);
  (family "neri_rt_v1_crypto_", 14);
  (exactly "neri_rt_v1_crypto_sha256_begin", 34);
  (exactly "neri_rt_v1_crypto_sha256_update", 34);
  (exactly "neri_rt_v1_crypto_sha256_finish", 34);
  (exactly "neri_rt_v1_crypto_sha256_dispose", 34);
  (family "neri_rt_v1_file_root_", 15);
  (family "neri_rt_v1_process_", 16);
  (exactly "neri_rt_v1_process_spawn_input", 22);
  (exactly "neri_rt_v1_process_interrupt", 22);
  (family "neri_rt_v1_file_mutation_", 22);
  (exactly "neri_rt_v1_net_connect_timeout", 22);
  (exactly "neri_rt_v1_net_local_port", 22);
  (exactly "neri_rt_v1_net_poll_many", 33);
  (exactly "neri_rt_v1_worker_pool_readiness", 33);
  (family "neri_rt_v1_file_directory_", 17);
  (exactly "neri_rt_v1_net_close_result", 18);
  (family "neri_rt_v1_drain_", 20);
  (family "neri_rt_v1_session_", 19);
  (exactly "neri_rt_v1_stdin_read_line_optional", 21);
  (exactly "neri_rt_v1_host_canonical_path", 23);
  (exactly "neri_rt_v1_host_executable_path", 26);
  (family "neri_rt_v1_foreign_", 27);
  (family "neri_rt_v1_cache_", 28);
  (exactly "neri_rt_v1_cache_metadata", 28);
  (exactly "neri_rt_v1_stderr_write_bytes", 28);
  (family "neri_rt_v1_terminal_", 8);
  (family "neri_rt_v1_clock_", 8);
  (family "neri_rt_v1_net_", 7);
  (family "neri_rt_v1_worker_", 32)].

(** [if (match && result < minor) result = minor], rule by rule. *)
Definition neri_abi_symbol_minimum_minor (link_name : string) : N :=
  fold_left (λ result '(rule, minor),
    if rule_matches link_name rule && (result <? minor) then minor else result) minimum_minor_rules 0.

Definition feature_rules : list (symbol_rule * N) := [
  (family "neri_rt_v1_file_", NERI_RT_FEATURE_FILES);
  (family "neri_rt_v1_interrupt_", NERI_RT_FEATURE_INTERRUPTS);
  (family "neri_rt_v1_clock_wall_", NERI_RT_FEATURE_WALL_CLOCK);
  (family "neri_rt_v1_crypto_", NERI_RT_FEATURE_CRYPTO);
  (family "neri_rt_v1_file_root_", NERI_RT_FEATURE_ROOTED_FILES);
  (family "neri_rt_v1_process_", NERI_RT_FEATURE_PROCESS);
  (exactly "neri_rt_v1_process_spawn_input", NERI_RT_FEATURE_PROCESS_IO);
  (exactly "neri_rt_v1_process_interrupt", NERI_RT_FEATURE_PROCESS_IO);
  (family "neri_rt_v1_file_mutation_", NERI_RT_FEATURE_FILESYSTEM_MUTATION);
  (exactly "neri_rt_v1_net_connect_timeout", NERI_RT_FEATURE_SOCKET_ENDPOINTS);
  (exactly "neri_rt_v1_net_local_port", NERI_RT_FEATURE_SOCKET_ENDPOINTS);
  (exactly "neri_rt_v1_net_poll_many", NERI_RT_FEATURE_MULTIPLEXED_IO);
  (exactly "neri_rt_v1_worker_pool_readiness", NERI_RT_FEATURE_MULTIPLEXED_IO);
  (family "neri_rt_v1_file_directory_", NERI_RT_FEATURE_DIRECTORY);
  (exactly "neri_rt_v1_net_close_result", NERI_RT_FEATURE_SOCKET_CLOSE_RESULT);
  (family "neri_rt_v1_drain_", NERI_RT_FEATURE_DRAIN);
  (family "neri_rt_v1_session_", NERI_RT_FEATURE_SESSION_MODULES);
  (exactly "neri_rt_v1_stdin_read_line_optional", NERI_RT_FEATURE_OPTIONAL_CONSOLE_READ);
  (exactly "neri_rt_v1_host_canonical_path", NERI_RT_FEATURE_BOOTSTRAP_HOST);
  (exactly "neri_rt_v1_host_executable_path", NERI_RT_FEATURE_BOOTSTRAP_HOST);
  (exactly "neri_rt_v1_cache_metadata", NERI_RT_FEATURE_CRYPTO);
  (family "neri_rt_v1_terminal_", NERI_RT_FEATURE_INTERACTIVE_IO);
  (family "neri_rt_v1_clock_", NERI_RT_FEATURE_INTERACTIVE_IO);
  (family "neri_rt_v1_net_", NERI_RT_FEATURE_SOCKETS);
  (family "neri_rt_v1_worker_", NERI_RT_FEATURE_ISOLATED_WORKERS)].

(** [if (match) result |= feature], rule by rule. *)
Definition neri_abi_symbol_features (link_name : string) : N :=
  fold_left (λ result '(rule, feature),
    if rule_matches link_name rule then result ∣ feature else result) feature_rules 0.

(** ** The check of a runtime import *)

Fixpoint matches_runtime_type (actual : type) (expected : neri_abi_type_v1) {struct expected} : bool :=
  match expected with
  | mk_abi_type tag argument =>
      if negb (tag_eqb (ty_tag actual) tag) || has_value (ty_symbol actual) ||
         negb (ty_element_count actual =? 0) then false
      else match argument with
           | None => empty (ty_arguments actual)
           | Some expected => match ty_arguments actual with
                              | [actual] => matches_runtime_type actual expected
                              | _ => false
                              end
           end
  end.

Definition weakens_requirement (value : import_declaration) (contract : neri_abi_runtime_import_v1) : bool :=
  match imp_minimum_runtime value with
  | None => true
  | Some minimum =>
      negb (rr_abi_major minimum =? NERI_RUNTIME_ABI_MAJOR) ||
      (rr_abi_minor minimum <? rc_minimum_minor contract) ||
      negb (N.land (rr_feature_bits minimum) (rc_feature_bits contract) =? rc_feature_bits contract)
  end.

(** The static data of the header: [parameter_types[index]]. *)
Definition contract_parameter (contract : neri_abi_runtime_import_v1) (index : nat)
    : result neri_abi_type_v1 := element (rc_parameter_types contract) index.

Definition verify_runtime_import (value : import_declaration) : result unit :=
  match neri_abi_runtime_import (imp_link_name value) with
  | None => verify_fail unsupported_feature
              ("Runtime import is absent from the ABI catalog: " +:+ imp_link_name value +:+ ".")
  | Some contract =>
      fail_when (weakens_requirement value contract) unsupported_feature
        ("Runtime import weakens the catalog ABI requirements: " +:+ imp_link_name value +:+ ".");;
      fail_when (negb (length_N (imp_parameter_types value) =? rc_parameter_count contract) ||
                 negb (matches_runtime_type (imp_result_type value) (rc_result_type contract)))
        invalid_type
        ("Runtime import signature differs from the ABI catalog: " +:+ imp_link_name value +:+ ".");;
      for_each (imap pair (imp_parameter_types value)) (λ '(index, actual),
        expected ← contract_parameter contract index;
        fail_when (negb (matches_runtime_type actual expected)) invalid_type
          ("Runtime import parameter differs from the ABI catalog: " +:+ imp_link_name value +:+ "."));;
      let required_effects := N.ldiff (rc_effects contract) NERI_IR_EFFECT_NO_RETURN_V1 in
      fail_when (negb (N.land (imp_effects value) required_effects =? required_effects) ||
                 (negb (N.land (imp_effects value) NERI_IR_EFFECT_NO_RETURN_V1 =? 0) &&
                  (N.land (rc_effects contract) NERI_IR_EFFECT_NO_RETURN_V1 =? 0))) invalid_safety
        ("Runtime import effects contradict the ABI catalog: " +:+ imp_link_name value +:+ ".")
  end.

(** ** What the check establishes *)

(** The IR type a catalog type stands for. *)
Fixpoint catalog_type (t : neri_abi_type_v1) : type :=
  match t with
  | mk_abi_type tag argument =>
      plain_type tag (match argument with Some a => [catalog_type a] | None => [] end)
  end.

Lemma abi_type_ind (P : neri_abi_type_v1 → Prop) :
  (∀ tag, P (mk_abi_type tag None)) → (∀ tag a, P a → P (mk_abi_type tag (Some a))) → ∀ t, P t.
Proof. intros Hnone Hsome. fix IH 1. intros [tag [a|]]; [apply Hsome, IH|apply Hnone]. Qed.

Lemma matches_head_iff actual tag (rest : bool) (Q : list type → Prop) :
  (rest = true ↔ Q (ty_arguments actual)) →
  (if negb (tag_eqb (ty_tag actual) tag) || has_value (ty_symbol actual) ||
      negb (ty_element_count actual =? 0) then false else rest) = true ↔
  actual = plain_type tag (ty_arguments actual) ∧ Q (ty_arguments actual).
Proof.
  intros <-. destruct actual as [tag' symbol arguments count]. unfold plain_type. simpl.
  transitivity ((tag' = tag ∧ symbol = None ∧ count = 0) ∧ rest = true); [|naive_solver].
  rewrite <-(tag_eqb_eq tag' tag), <-(N.eqb_eq count 0).
  destruct (tag_eqb tag' tag), symbol, (count =? 0); naive_solver.
Qed.

Lemma matches_runtime_type_iff actual expected :
  matches_runtime_type actual expected = true ↔ actual = catalog_type expected.
Proof.
  revert actual. induction expected as [tag|tag a IH] using abi_type_ind; intros actual; simpl.
  - rewrite (matches_head_iff _ _ _ (λ l, l = [])) by by destruct (ty_arguments actual).
    split; [intros [Ha Hl]; by rewrite Ha, Hl|]. by intros ->.
  - rewrite (matches_head_iff _ _ _ (λ l, l = [catalog_type a])).
    + split; [intros [Ha Hl]; by rewrite Ha, Hl|]. by intros ->.
    + destruct (ty_arguments actual) as [|t [|]]; [done| |done]. rewrite IH. naive_solver.
Qed.

(** Each contract lists as many parameter types as it counts. *)
Lemma contract_counts :
  Forall (λ contract, rc_parameter_count contract = length_N (rc_parameter_types contract))
    neri_abi_runtime_imports_v1.
Proof. repeat constructor. Qed.

Lemma runtime_import_found name contract :
  neri_abi_runtime_import name = Some contract →
  contract ∈ neri_abi_runtime_imports_v1 ∧ rc_link_name contract = c_str name.
Proof.
  intros [Hin Heq]%find_some. split; [by apply list_elem_of_In|]. by apply String.eqb_eq in Heq.
Qed.

(** What the import promises the program is what the runtime implements. *)
Record import_honours (value : import_declaration) (contract : neri_abi_runtime_import_v1) : Prop := {
  honours_parameters : imp_parameter_types value = map catalog_type (rc_parameter_types contract);
  honours_result : imp_result_type value = catalog_type (rc_result_type contract);
  honours_effects : effects_within (N.ldiff (rc_effects contract) NERI_IR_EFFECT_NO_RETURN_V1)
    (imp_effects value);
  honours_noreturn : N.land (imp_effects value) NERI_IR_EFFECT_NO_RETURN_V1 ≠ 0 →
    N.land (rc_effects contract) NERI_IR_EFFECT_NO_RETURN_V1 ≠ 0;
  honours_runtime : ∃ minimum, imp_minimum_runtime value = Some minimum ∧
    rr_abi_major minimum = NERI_RUNTIME_ABI_MAJOR ∧
    rc_minimum_minor contract <= rr_abi_minor minimum ∧
    effects_within (rc_feature_bits contract) (rr_feature_bits minimum);
}.

Lemma land_contains a b : N.land a b = b ↔ effects_within b a.
Proof.
  rewrite effects_within_bits. split.
  - intros H n Hn. rewrite <-H, N.land_spec, andb_true_iff in Hn. tauto.
  - intros H. apply N.bits_inj. intros n. rewrite N.land_spec. specialize (H n).
    destruct (N.testbit b n); [|by rewrite andb_false_r]. by rewrite H.
Qed.

Lemma weakens_requirement_iff value contract :
  weakens_requirement value contract = false ↔
  ∃ minimum, imp_minimum_runtime value = Some minimum ∧
    rr_abi_major minimum = NERI_RUNTIME_ABI_MAJOR ∧
    rc_minimum_minor contract <= rr_abi_minor minimum ∧
    effects_within (rc_feature_bits contract) (rr_feature_bits minimum).
Proof.
  unfold weakens_requirement. destruct (imp_minimum_runtime value) as [minimum|]; [|naive_solver].
  rewrite !orb_false_iff, !negb_false_iff, !N.eqb_eq, N.ltb_ge, land_contains. naive_solver.
Qed.

Lemma catalog_parameters_iff (actual : list type) (expected : list neri_abi_type_v1) code message :
  length actual = length expected →
  let check := for_each (imap pair actual) (λ '(index, a),
    e ← element expected index;
    fail_when (negb (matches_runtime_type a e)) code message) in
  defined check ∧ (check = Ok tt ↔ actual = map catalog_type expected).
Proof.
  intros Hlen check. split.
  - apply for_each_defined, Forall_forall. intros [i a] (j & x & [= -> ->] & Hj)%elem_of_lookup_imap.
    apply lookup_lt_Some in Hj. rewrite Hlen in Hj. unfold element.
    destruct (lookup_lt_is_Some_2 _ _ Hj) as [y ->]. simpl. auto with defined_db.
  - unfold check. rewrite for_each_Ok, Forall_forall. split.
    + intros H. apply list_eq_same_length with (n := length actual); [by rewrite length_map|done|].
      intros i x y _ Hx Hy. apply list_lookup_fmap_Some in Hy as (e & -> & He).
      specialize (H (i, x) (elem_of_lookup_imap_2 pair actual x i Hx)). simpl in H.
      unfold element in H. rewrite He in H. simpl in H.
      by apply fail_when_Ok, negb_false_iff, matches_runtime_type_iff in H.
    + intros -> [i x] (j & y & [= -> ->] & Hj)%elem_of_lookup_imap.
      apply list_lookup_fmap_Some in Hj as (e & -> & He). unfold element. rewrite He. simpl.
      apply fail_when_Ok, negb_false_iff. by apply matches_runtime_type_iff.
Qed.

Lemma verify_runtime_import_ok value :
  defined (verify_runtime_import value) ∧
  (verify_runtime_import value = Ok tt ↔
   ∃ contract, neri_abi_runtime_import (imp_link_name value) = Some contract ∧
     import_honours value contract).
Proof.
  unfold verify_runtime_import.
  destruct (neri_abi_runtime_import (imp_link_name value)) as [contract|] eqn:Hc;
    [|split; [done|]; split; [done|by intros (? & ? & _)]].
  assert (rc_parameter_count contract = length_N (rc_parameter_types contract)) as Hcount.
  { apply runtime_import_found in Hc as [Hin _]. by apply (proj1 (Forall_forall _ _) contract_counts). }
  unfold contract_parameter.
  destruct (decide (length (imp_parameter_types value) = length (rc_parameter_types contract))) as [Hl|Hl].
  - destruct (catalog_parameters_iff _ _ invalid_type
      ("Runtime import parameter differs from the ABI catalog: " +:+ imp_link_name value +:+ ".") Hl)
      as [Hd Hiff]. split.
    + do 2 (apply defined_bind; [auto with defined_db|intros _ _]).
      apply defined_bind; [done|intros _ _]. auto with defined_db.
    + rewrite !seq_Ok_iff, Hiff, !fail_when_Ok, weakens_requirement_iff, !orb_false_iff.
      rewrite !negb_false_iff, !N.eqb_eq, andb_false_iff, negb_false_iff, N.eqb_eq, N.eqb_neq.
      rewrite matches_runtime_type_iff, land_contains, Hcount. unfold length_N.
      split.
      * intros (Hr & [_ Hres] & Hps & He & Hn). exists contract. split; [done|]. split; try done. tauto.
      * intros (? & [= <-] & [Hps Hres He Hn Hr]). split_and!; try done; [by rewrite Hl|].
        destruct (decide (N.land (imp_effects value) NERI_IR_EFFECT_NO_RETURN_V1 = 0)); tauto.
  - assert (length_N (imp_parameter_types value) =? rc_parameter_count contract = false) as Hne
      by (apply N.eqb_neq; rewrite Hcount; unfold length_N; lia).
    rewrite Hne. cbn [negb orb]. split.
    + apply defined_bind; [auto with defined_db|intros _ _]. done.
    + rewrite !seq_Ok_iff. split; [naive_solver|]. intros (? & [= <-] & Hh).
      apply honours_parameters in Hh. by rewrite Hh, length_map in Hl.
Qed.

(** ** Properties *)

(** A runtime import is accepted exactly when its link name is in the catalog and it
    honours the contract found there: the same parameter and result types, at least
    the effects of the runtime function, noreturn only where the runtime never
    returns, and a runtime requirement no weaker than the catalog's. *)
Theorem runtime_import_accepted_iff value :
  verify_runtime_import value = Ok tt ↔
  ∃ contract, neri_abi_runtime_import (imp_link_name value) = Some contract ∧
    import_honours value contract.
Proof. apply verify_runtime_import_ok. Qed.

Definition contract_consistent (contract : neri_abi_runtime_import_v1) : bool :=
  bool_decide (rc_link_name <$> neri_abi_runtime_import (rc_link_name contract) =
               Some (rc_link_name contract)) &&
  (neri_abi_symbol_minimum_minor (rc_link_name contract) <=? rc_minimum_minor contract) &&
  (rc_minimum_minor contract <=? NERI_RUNTIME_ABI_MINOR) &&
  (N.ldiff (neri_abi_symbol_features (rc_link_name contract)) (rc_feature_bits contract) =? 0) &&
  (N.ldiff (rc_feature_bits contract) NERI_RT_ADVERTISED_FEATURES =? 0) &&
  (rc_parameter_count contract =? length_N (rc_parameter_types contract)).

Lemma contracts_consistent : forallb contract_consistent neri_abi_runtime_imports_v1 = true.
Proof. vm_compute. reflexivity. Qed.

(** The two generated tables agree: every function of the import catalog is found by its
    own name, requires at least the runtime version and features that the symbol
    rules demand for that name, and asks for no version or feature that the runtime
    does not advertise. *)
Theorem catalog_tables_agree contract :
  contract ∈ neri_abi_runtime_imports_v1 →
  (∃ found, neri_abi_runtime_import (rc_link_name contract) = Some found ∧
    rc_link_name found = rc_link_name contract) ∧
  neri_abi_symbol_minimum_minor (rc_link_name contract) <= rc_minimum_minor contract ∧
  rc_minimum_minor contract <= NERI_RUNTIME_ABI_MINOR ∧
  effects_within (neri_abi_symbol_features (rc_link_name contract)) (rc_feature_bits contract) ∧
  effects_within (rc_feature_bits contract) NERI_RT_ADVERTISED_FEATURES.
Proof.
  intros Hin%list_elem_of_In. pose proof contracts_consistent as H. rewrite forallb_forall in H.
  specialize (H _ Hin). unfold contract_consistent in H. rewrite !andb_true_iff in H.
  rewrite !N.leb_le, !N.eqb_eq, bool_decide_eq_true in H.
  destruct H as (((((Hf & H1) & H2) & H3) & H4) & _). split_and!; try done.
  destruct (neri_abi_runtime_import _) as [found|]; [|done]. injection Hf as Hf. by exists found.
Qed.

Lemma catalog_tables_agree_witness :
  ∃ found, neri_abi_runtime_import "neri_rt_v1_session_fail" = Some found ∧
    rc_link_name found = "neri_rt_v1_session_fail".
Proof.
  apply (catalog_tables_agree (mk_contract "neri_rt_v1_session_fail"
    [scalar_type NERI_IR_TYPE_STRING_V1] 1 (scalar_type NERI_IR_TYPE_VOID_V1) 87 31 8388608)).
  apply list_elem_of_In. vm_compute. do 46 right. left. reflexivity.
Defined.
