(* ===== verification/Functions.v ===== *)
(** * Function checks of the verifier ([native/codegen/ir_verifier.cpp])

    Definitions and uses of SSA values, the control-flow graph and its canonical
    order, dominance, debug metadata, and the effect summary of a function.  The
    [function_context] is threaded through the checks that fill it in. *)

From S2P Require Import Prelude Domains IR Samples Reader Types Layout Index Instructions.

Local Open Scope string_scope.
Local Open Scope list_scope.
Local Open Scope N_scope.

Definition new_context (index : module_verification_index) (value : function) : function_context :=
  mk_context index value ∅ ∅ ∅ ∅ [] 0.

Definition set_blocks (blocks : gmap N block) (c : function_context) : function_context :=
  mk_context (ctx_index c) (ctx_value c) blocks (ctx_successors c) (ctx_predecessors c)
    (ctx_definitions c) (ctx_uses c) (ctx_required_effects c).

Definition set_definitions (definitions : gmap N definition) (c : function_context)
    : function_context :=
  mk_context (ctx_index c) (ctx_value c) (ctx_blocks c) (ctx_successors c) (ctx_predecessors c)
    definitions (ctx_uses c) (ctx_required_effects c).

Definition add_use (u : use_site) (c : function_context) : function_context :=
  mk_context (ctx_index c) (ctx_value c) (ctx_blocks c) (ctx_successors c) (ctx_predecessors c)
    (ctx_definitions c) (ctx_uses c ++ [u]) (ctx_required_effects c).

(** [map[key].push_back(value)]. *)
Definition push_back (key value : N) (map : gmap N (list N)) : gmap N (list N) :=
  <[key := default [] (map !! key) ++ [value]]> map.

Definition add_edge (source target : N) (c : function_context) : function_context :=
  mk_context (ctx_index c) (ctx_value c) (ctx_blocks c)
    (push_back source target (ctx_successors c)) (push_back target source (ctx_predecessors c))
    (ctx_definitions c) (ctx_uses c) (ctx_required_effects c).

Definition add_effects (effects : N) (c : function_context) : function_context :=
  mk_context (ctx_index c) (ctx_value c) (ctx_blocks c) (ctx_successors c) (ctx_predecessors c)
    (ctx_definitions c) (ctx_uses c) (ctx_required_effects c ∣ effects).

(** ** Definitions *)

(** [context.definitions.emplace(id, definition)] and the failure when the value
    already has one. *)
Definition define (id : N) (d : definition) (code : reader_error_kind) (message : string)
    (c : function_context) : result function_context :=
  match ctx_definitions c !! id with
  | Some _ => verify_fail code message
  | None => Ok (set_definitions (<[id := d]> (ctx_definitions c)) c)
  end.

Definition multiple_definitions : string := "SSA value has multiple definitions.".
Definition malformed_root : string := "Function unsafe root is malformed or has a duplicate SSA ID.".

Definition register_root (c : function_context) : result function_context :=
  match fn_unsafe_root (ctx_value c) with
  | None => Ok c
  | Some root =>
      fail_when (negb (is_unsafe_capability (val_value_type root))) invalid_safety malformed_root;;
      define (val_id root)
        (mk_definition (val_value_type root) (fn_entry_block (ctx_value c)) (-1))
        invalid_safety malformed_root c
  end.

Definition register_parameter (b : N) (parameter : block_parameter) (c : function_context)
    : result function_context :=
  require_value_type (par_value_type parameter) "Block parameter";;
  verify_location (par_location parameter) (ctx_index c);;
  define (par_id parameter) (mk_definition (par_value_type parameter) b (-1)) invalid_ssa
    multiple_definitions c.

Definition register_result (b : N) (index : nat) (r : value_definition) (c : function_context)
    : result function_context :=
  require_value_type (val_value_type r) "Instruction result";;
  define (val_id r) (mk_definition (val_value_type r) b (Z.of_nat index)) invalid_ssa
    multiple_definitions c.

Definition register_instruction (b : N) (item : nat * instruction) (c : function_context)
    : result function_context :=
  let '(index, instruction) := item in
  verify_location (ins_location instruction) (ctx_index c);;
  for_state (ins_results instruction) c (register_result b index).

Definition register_block (b : block) (c : function_context) : result function_context :=
  c ← for_state (blk_parameters b) c (register_parameter (blk_id b));
  for_state (imap pair (blk_instructions b)) c (register_instruction (blk_id b)).

Definition register_definitions (c : function_context) : result function_context :=
  c ← register_root c;
  for_state (fn_blocks (ctx_value c)) c register_block.

(** ** Uses and edges *)

Definition register_use (value b : N) (instruction : Z) (c : function_context)
    : result function_context :=
  match ctx_definitions c !! value with
  | None => verify_fail invalid_ssa
              ("Use references undefined SSA value " +:+ to_string value +:+ ".")
  | Some _ => Ok (add_use (mk_use value b instruction) c)
  end.

(** One argument of an edge: a use, whose type is that of the block parameter. *)
Definition verify_edge_argument (source : N) (parameters : list block_parameter) (instruction : Z)
    (item : nat * N) (c : function_context) : result function_context :=
  let '(index, argument) := item in
  c ← register_use argument source instruction c;
  actual ← definition_type c argument;
  parameter ← element parameters index;
  fail_when (negb (same_type actual (par_value_type parameter))) invalid_control_flow
    "Edge argument type does not match target block parameter.";;
  Ok c.

Definition verify_edge (source : N) (value : edge) (instruction : Z) (c : function_context)
    : result function_context :=
  match ctx_blocks c !! edge_target value with
  | None => verify_fail invalid_control_flow "Edge references a missing block."
  | Some target =>
      fail_when (edge_target value =? fn_entry_block (ctx_value c)) unsupported_feature
        "Native lowering does not accept backedges to the function entry block.";;
      fail_when (negb (size_is (edge_arguments value) (length (blk_parameters target))))
        invalid_control_flow "Edge argument count does not match target block parameters.";;
      c ← for_state (imap pair (edge_arguments value)) c
            (verify_edge_argument source (blk_parameters target) instruction);
      Ok (add_edge source (edge_target value) c)
  end.

(** ** Blocks *)

Section blocks.
Variable isLegalUTF8String : list byte → bool.

(** The instructions that need a location: those that may panic, and calls. *)
Definition needs_location (opcode : neri_ir_opcode_v1) (effects : N) : bool :=
  negb (N.land effects NERI_IR_EFFECT_MAY_PANIC_V1 =? 0) ||
  opcode_in opcode [NERI_IR_OPCODE_CALL_V1; NERI_IR_OPCODE_CALL_DIRECT_V1;
    NERI_IR_OPCODE_CALL_VIRTUAL_V1; NERI_IR_OPCODE_CALL_IMPORT_V1; NERI_IR_OPCODE_CALL_C_ABI_V1].

Definition verify_block_instruction (b : N) (item : nat * instruction) (c : function_context)
    : result function_context :=
  let '(index, instruction) := item in
  c ← for_state (ins_operands instruction) c (λ operand, register_use operand b (Z.of_nat index));
  effects ← verify_instruction isLegalUTF8String c instruction;
  let c := add_effects effects c in
  fail_when (needs_location (ins_opcode instruction) effects &&
             negb (has_value (ins_location instruction))) invalid_source
    "Panicking and call instructions require a source location.";;
  Ok c.

Definition verify_return (b : block) (index : Z) (c : function_context) : result function_context :=
  let ending := blk_ending b in
  fail_when (negb (empty (trm_edges ending)) || has_value (trm_condition ending))
    invalid_control_flow "Malformed return terminator.";;
  if is_void (fn_result_type (ctx_value c)) then
    fail_when (has_value (trm_return_value ending)) invalid_type
      "Void function returns an SSA value.";;
    Ok c
  else
    match trm_return_value ending with
    | None => verify_fail invalid_type "Non-void function returns no SSA value."
    | Some v =>
        c ← register_use v (blk_id b) index c;
        actual ← definition_type c v;
        fail_when (negb (same_type actual (fn_result_type (ctx_value c)))) invalid_type
          "Return value does not match function result type.";;
        Ok c
    end.

Definition verify_terminator (b : block) (c : function_context) : result function_context :=
  let ending := blk_ending b in
  let index := Z.of_nat (length (blk_instructions b)) in
  verify_location (trm_location ending) (ctx_index c);;
  match trm_tag ending with
  | NERI_IR_TERMINATOR_BRANCH_V1 =>
      fail_when (negb (size_is (trm_edges ending) 1) || has_value (trm_condition ending) ||
                 has_value (trm_return_value ending)) invalid_control_flow
        "Malformed branch terminator.";;
      e ← front (trm_edges ending);
      verify_edge (blk_id b) e index c
  | NERI_IR_TERMINATOR_CONDITIONAL_BRANCH_V1 =>
      fail_when (negb (size_is (trm_edges ending) 2) || negb (has_value (trm_condition ending)) ||
                 has_value (trm_return_value ending)) invalid_control_flow
        "Malformed conditional branch terminator.";;
      condition ← deref (trm_condition ending);
      c ← register_use condition (blk_id b) index c;
      actual ← definition_type c condition;
      fail_when (negb (same_type actual bool_type)) invalid_type
        "Conditional branch condition is not bool.";;
      e1 ← element (trm_edges ending) 0;
      c ← verify_edge (blk_id b) e1 index c;
      e2 ← element (trm_edges ending) 1;
      verify_edge (blk_id b) e2 index c
  | NERI_IR_TERMINATOR_RETURN_V1 => verify_return b index c
  | NERI_IR_TERMINATOR_PANIC_V1 =>
      fail_when (negb (empty (trm_edges ending)) || has_value (trm_condition ending) ||
                 has_value (trm_return_value ending) || String.eqb (trm_panic_code ending) "" ||
                 String.eqb (trm_panic_message ending) "" || negb (has_value (trm_location ending)))
        invalid_control_flow "Malformed panic terminator.";;
      Ok (add_effects NERI_IR_EFFECT_MAY_PANIC_V1 c)
  end.

Definition verify_block (b : block) (c : function_context) : result function_context :=
  c ← for_state (imap pair (blk_instructions b)) c (verify_block_instruction (blk_id b));
  verify_terminator b c.

(** The entry parameters against the function signature. *)
Definition verify_entry (c : function_context) : result unit :=
  entry ← match ctx_blocks c !! fn_entry_block (ctx_value c) with
          | Some b => Ok b | None => Throw (out_of_range "map::at") end;
  fail_when (negb (size_is (blk_parameters entry) (length (fn_parameter_types (ctx_value c)))))
    invalid_type "Entry block parameter count does not match function signature.";;
  for_each (imap pair (blk_parameters entry)) (λ '(index, parameter),
    expected ← element (fn_parameter_types (ctx_value c)) index;
    fail_when (negb (same_type (par_value_type parameter) expected)) invalid_type
      "Entry block parameter type does not match function signature.").

Definition verify_blocks_and_uses (c : function_context) : result function_context :=
  let value := ctx_value c in
  let c := set_blocks (index_of blk_id id (fn_blocks value) (ctx_blocks c)) c in
  fail_when (negb (size (ctx_blocks c) =? length (fn_blocks value))%nat) invalid_control_flow
    "Function contains duplicate block identities.";;
  fail_when (empty (fn_blocks value) ||
             negb (has_value (ctx_blocks c !! fn_entry_block value))) invalid_control_flow
    "Function has no valid entry block.";;
  first ← front (fn_blocks value);
  fail_when (negb (blk_id first =? fn_entry_block value)) invalid_control_flow
    "Function entry block is not first.";;
  c ← register_definitions c;
  verify_entry c;;
  for_state (fn_blocks value) c verify_block.
End blocks.

(** ** Canonical order of the control-flow graph *)

Definition successors_of (c : function_context) (b : N) : list N := default [] (ctx_successors c !! b).

(** The work-list loop: blocks discovered so far, blocks seen, pending queue. *)
Fixpoint discover (fuel : nat) (c : function_context) (discovered : list N) (seen : gset N)
    (pending : list N) : result (list N) :=
  match pending with
  | [] => Ok discovered
  | current :: pending =>
      match fuel with
      | O => Throw (undefined "out of fuel")
      | S fuel =>
          if bool_decide (current ∈ seen) then discover fuel c discovered seen pending
          else
            let seen := {[current]} ∪ seen in
            discover fuel c (discovered ++ [current]) seen
              (pending ++ List.filter (λ s, negb (bool_decide (s ∈ seen))) (successors_of c current))
      end
  end.

(** The entry is queued once, and a block queues its successors only when first seen. *)
Definition discover_fuel (c : function_context) : nat :=
  S (sum_list_with (λ p, length p.2) (map_to_list (ctx_successors c))).

Definition verify_canonical_cfg (c : function_context) : result unit :=
  discovered ← discover (discover_fuel c) c [] ∅ [fn_entry_block (ctx_value c)];
  fail_when (negb (length discovered =? size (ctx_blocks c))%nat) invalid_control_flow
    "Function contains unreachable blocks.";;
  for_each (imap pair discovered) (λ '(index, id),
    b ← element (fn_blocks (ctx_value c)) index;
    fail_when (negb (blk_id b =? id)) invalid_control_flow
      "Function block order is not canonical entry/successor order.").

(** ** Dominance *)

Notation dominator_map := (gmap N (gset N)).

(** [map.at(key)]. *)
Definition map_at {A} (m : gmap N A) (key : N) : result A :=
  match m !! key with Some x => Ok x | None => Throw (out_of_range "map::at") end.

(** The block identities in the ascending order of [std::set]. *)
Definition ordered_blocks (c : function_context) : list N :=
  merge_sort N.le (elements (dom (ctx_blocks c))).

Definition initial_dominators (c : function_context) : dominator_map :=
  let all := dom (ctx_blocks c) in
  set_to_map (λ id, (id, if id =? fn_entry_block (ctx_value c) then {[id]} else all)) all.

(** One block of a pass over the equations. *)
Definition dominance_step (c : function_context) (id : N) (state : bool * dominator_map)
    : result (bool * dominator_map) :=
  let '(changed, dominators) := state in
  if id =? fn_entry_block (ctx_value c) then Ok state
  else
    match ctx_predecessors c !! id with
    | None | Some [] => verify_fail invalid_control_flow "Non-entry block has no predecessor."
    | Some (first :: rest) =>
        intersection ← map_at dominators first;
        intersection ← for_state rest intersection (λ predecessor intersection,
                         d ← map_at dominators predecessor; Ok (intersection ∩ d));
        let intersection := {[id]} ∪ intersection in
        current ← map_at dominators id;
        if bool_decide (intersection = current) then Ok state
        else Ok (true, <[id := intersection]> dominators)
    end.

Fixpoint dominance_loop (remaining : nat) (c : function_context) (changed : bool)
    (dominators : dominator_map) : result (bool * dominator_map) :=
  if changed then
    match remaining with
    | O => Ok (changed, dominators)
    | S remaining =>
        '(changed, dominators) ← for_state (ordered_blocks c) (false, dominators) (dominance_step c);
        dominance_loop remaining c changed dominators
    end
  else Ok (changed, dominators).

Definition dominance_budget (c : function_context) : nat :=
  (size (ctx_blocks c) * size (ctx_blocks c) + 1)%nat.

Definition check_use (c : function_context) (dominators : dominator_map) (u : use_site) : result unit :=
  d ← map_at (ctx_definitions c) (use_value u);
  if def_block d =? use_block u then
    fail_when ((use_instruction u <=? def_instruction d)%Z && (0 <=? def_instruction d)%Z) invalid_ssa
      "SSA value is used before its definition."
  else
    doms ← map_at dominators (use_block u);
    fail_when (negb (bool_decide (def_block d ∈ doms))) invalid_ssa
      "SSA definition does not dominate its use.".

Definition verify_dominance (c : function_context) : result unit :=
  '(changed, dominators) ← dominance_loop (dominance_budget c) c true (initial_dominators c);
  fail_when changed invalid_control_flow
    "Dominance computation exceeded its bounded iteration budget.";;
  for_each (ctx_uses c) (check_use c dominators).

(** ** Debug metadata *)

Definition verify_debug_scope (index : module_verification_index) (scope : debug_scope)
    (state : gset N * N) : result (gset N * N) :=
  let '(scopes, previous) := state in
  verify_location (Some (ds_location scope)) index;;
  fail_when ((ds_id scope =? 0) || (ds_id scope <=? previous) ||
             bool_decide (ds_id scope ∈ scopes) ||
             (negb (ds_parent_id scope =? 0) &&
              negb (bool_decide (ds_parent_id scope ∈ {[ds_id scope]} ∪ scopes)))) malformed_module
    "Debug scopes must have unique canonical IDs and known parents.";;
  Ok ({[ds_id scope]} ∪ scopes, ds_id scope).

Definition unknown_scope (scopes : gset N) (id : N) : bool :=
  negb (id =? 0) && negb (bool_decide (id ∈ scopes)).

Definition verify_scope_references (scopes : gset N) (b : block) : result unit :=
  for_each (blk_instructions b) (λ i,
    fail_when (unknown_scope scopes (ins_debug_scope_id i)) malformed_module
      "Instruction references an unknown debug scope.");;
  fail_when (unknown_scope scopes (trm_debug_scope_id (blk_ending b))) malformed_module
    "Terminator references an unknown debug scope.".

(** The tuple a debug local is identified and ordered by. *)
Definition debug_key : Type := N * string * N * string * N * N.

Definition local_key (l : debug_local) : debug_key :=
  (dl_value l, dl_name l, dl_scope_id l, loc_source (dl_location l),
   loc_utf8_start (dl_location l), loc_utf8_length (dl_location l)).

(** [a < b || (!(b < a) && rest)]. *)
Definition then_less {A} (ltb : A → A → bool) (a b : A) (rest : bool) : bool :=
  ltb a b || (negb (ltb b a) && rest).

Definition debug_key_ltb (a b : debug_key) : bool :=
  let '(v, n, s, f, x, y) := a in
  let '(v', n', s', f', x', y') := b in
  then_less N.ltb v v' (then_less String.ltb n n' (then_less N.ltb s s' (then_less String.ltb f f'
    (then_less N.ltb x x' (then_less N.ltb y y' false))))).

Definition verify_debug_local (c : function_context) (scopes : gset N) (l : debug_local)
    (state : gset debug_key * option debug_key) : result (gset debug_key * option debug_key) :=
  let '(values, previous) := state in
  verify_location (Some (dl_location l)) (ctx_index c);;
  let key := local_key l in
  fail_when (String.eqb (dl_name l) "" ||
             match ctx_definitions c !! dl_value l with
             | None => true
             | Some d => unknown_scope scopes (dl_scope_id l) ||
                 is_unsafe_capability (def_value_type d) || is_borrow_capability (def_value_type d) ||
                 bool_decide (key ∈ values)
             end) invalid_safety
    "Debug local has an invalid name, value, type, or duplicate value.";;
  fail_when (match previous with Some p => negb (debug_key_ltb p key) | None => false end)
    malformed_module "Debug locals are not in canonical value/name order.";;
  Ok ({[key]} ∪ values, Some key).

Definition verify_debug (c : function_context) : result unit :=
  let value := ctx_value c in
  '(scopes, _) ← for_state (fn_debug_scopes value) (∅, 0) (verify_debug_scope (ctx_index c));
  fail_when (negb (empty (fn_debug_scopes value)) && lacks_feature (ctx_module c) DebugScopes)
    unsupported_feature "Debug scopes require the debug-scopes-v1 feature.";;
  for_each (fn_blocks value) (verify_scope_references scopes);;
  for_state (fn_debug_locals value) (∅, None) (verify_debug_local c scopes);;
  Ok tt.

(** ** Functions *)

Definition reserved_export (name : string) : bool :=
  negb (portable_c_identifier name) || String.eqb name "main" || starts_with name "neri_" ||
  starts_with name "hk1_" || starts_with name "__".

Definition verify_export (module : ir_module) (value : function) : result unit :=
  if String.eqb (fn_export_name value) "" then Ok tt
  else
    fail_when (lacks_feature module CInterop) unsupported_feature "C exports require c-interop-v1.";;
    fail_when (reserved_export (fn_export_name value) ||
               negb (tag_eqb (fn_kind value) NERI_IR_FUNCTION_V1) ||
               negb (is_c_abi_type (fn_result_type value) true) ||
               negb (forallb (λ p, is_c_abi_type p false) (fn_parameter_types value))) invalid_type
      "C export requires a portable unreserved symbol and C-compatible top-level signature.".

Definition is_method_kind (kind : neri_ir_function_kind_v1) : bool :=
  tag_eqb kind NERI_IR_STATIC_METHOD_V1 || tag_eqb kind NERI_IR_INSTANCE_METHOD_V1 ||
  tag_eqb kind NERI_IR_CONSTRUCTOR_V1.

(** Kind, capability, class and signature metadata. *)
Definition verify_signature (index : module_verification_index) (value : function) : result unit :=
  let module := idx_module index in
  let is_method := is_method_kind (fn_kind value) in
  let expected_symbol := if is_method then NERI_IR_SYMBOL_METHOD_V1 else NERI_IR_SYMBOL_FUNCTION_V1 in
  fail_when (negb (String.eqb (sym_module (fn_id value)) (mod_id module)) ||
             negb (tag_eqb (sym_kind (fn_id value)) expected_symbol)) invalid_reference
    "Function symbol kind disagrees with its declared function kind.";;
  fail_when ((tag_to_N (fn_kind value) <? tag_to_N NERI_IR_FUNCTION_V1) ||
             (tag_to_N NERI_IR_DEFAULT_ADAPTER_V1 <? tag_to_N (fn_kind value))) malformed_module
    "Function has an invalid function kind.";;
  fail_when (negb (fn_retained value) &&
             negb (Bool.eqb (fn_unsafe_call value) (has_value (fn_unsafe_root value)))) invalid_safety
    "Unsafe function call contract disagrees with its capability root.";;
  fail_when (negb (Bool.eqb is_method (has_value (fn_declaring_class value)))) malformed_module
    "Function has inconsistent method and declaring-class metadata.";;
  match fn_declaring_class value with
  | None => Ok tt
  | Some declaring =>
      fail_when (negb (has_value (find_class index declaring))) invalid_reference
        "Method references a missing declaring class.";;
      if tag_eqb (fn_kind value) NERI_IR_INSTANCE_METHOD_V1 ||
         tag_eqb (fn_kind value) NERI_IR_CONSTRUCTOR_V1 then
        fail_when (match fn_parameter_types value with
                   | [] => true
                   | receiver :: _ =>
                       negb (same_type receiver (mk_type NERI_IR_TYPE_CLASS_V1 (Some declaring) [] 0))
                   end) invalid_type
          "Instance method or constructor requires its exact receiver as parameter zero."
      else Ok tt
  end;;
  fail_when (match fn_dispatch_slot value with
             | None => false
             | Some slot => negb (tag_eqb (fn_kind value) NERI_IR_INSTANCE_METHOD_V1) ||
                            negb (tag_eqb (sym_kind slot) NERI_IR_SYMBOL_METHOD_V1)
             end) malformed_module "Only virtual instance methods may declare a dispatch slot.";;
  for_each (fn_parameter_types value) (λ parameter,
    require_declared_type index parameter "Function parameter");;
  require_result_type (fn_result_type value) "Function result";;
  if is_void (fn_result_type value) then Ok tt
  else require_declared_type index (fn_result_type value) "Function result".

Definition returns_block (b : block) : bool := tag_eqb (trm_tag (blk_ending b)) NERI_IR_TERMINATOR_RETURN_V1.

Definition verify_effects (c : function_context) : result unit :=
  let value := ctx_value c in
  let missing := N.ldiff (ctx_required_effects c) (fn_effects value) in
  fail_when (negb (missing =? 0)) invalid_safety
    ("Function effect summary omits required effects " +:+ to_string missing +:+ ".");;
  let has_return := existsb returns_block (fn_blocks value) in
  let no_return := negb (N.land (fn_effects value) NERI_IR_EFFECT_NO_RETURN_V1 =? 0) in
  fail_when (negb has_return && negb no_return) invalid_safety
    "Function without returns omits noreturn effect.";;
  fail_when (has_return && no_return) invalid_safety
    "Noreturn function contains a return terminator.".

Section functions.
Variable isLegalUTF8String : list byte → bool.

Definition verify_body (index : module_verification_index) (value : function) : result unit :=
  c ← verify_blocks_and_uses isLegalUTF8String (new_context index value);
  verify_debug c;;
  verify_canonical_cfg c;;
  verify_dominance c;;
  verify_effects c.

Definition verify_function (index : module_verification_index) (value : function) : result unit :=
  verify_location (fn_location value) index;;
  verify_export (idx_module index) value;;
  verify_signature index value;;
  if fn_retained value then
    fail_when (negb (empty (fn_blocks value)) || has_value (fn_unsafe_root value) ||
               negb (empty (fn_debug_scopes value)) || negb (empty (fn_debug_locals value)))
      malformed_module "Retained function declarations cannot contain a body or debug state."
  else verify_body index value.
End functions.

(** ** Debug scopes that are their own parent

    The scope is added to the known scopes before its parent is looked up, so a scope
    that names itself as its parent passes, although the message asks for known
    parents. *)
Example self_parent_scope_accepted :
  verify_debug_scope (module_index Sample.app) (mk_debug_scope 1 1 (mk_location "main.neri" 0 2)) (∅, 0) =
  Ok ({[1]}, 1).
Proof. vm_compute. reflexivity. Qed.
