(* ===== verification/Dominance.v ===== *)
(** * Correctness of the dominance computation

    The iterative data-flow solution of [verify_dominance] is the dominance
    relation of the control-flow graph, and it is reached within the iteration
    budget of the source. *)

From S2P Require Import Prelude Domains IR Reader Types Layout Index Instructions Functions.

Local Open Scope string_scope.
Local Open Scope list_scope.
Local Open Scope N_scope.

(** ** The graph of a context *)

Definition flow (c : function_context) (a b : N) : Prop := b ∈ successors_of c a.

Definition predecessors_of (c : function_context) (b : N) : list N :=
  default [] (ctx_predecessors c !! b).

Notation entry_of c := (fn_entry_block (ctx_value c)).

(** The context describes a graph on its blocks, with no edge into the entry. *)
Record flow_ok (c : function_context) : Prop := {
  flow_entry : entry_of c ∈ dom (ctx_blocks c);
  flow_predecessors a b : flow c a b ↔ a ∈ predecessors_of c b;
  flow_blocks a b : flow c a b → a ∈ dom (ctx_blocks c) ∧ b ∈ dom (ctx_blocks c) ∧ b ≠ entry_of c;
}.

Definition reachable (c : function_context) (b : N) : Prop := rtc (flow c) (entry_of c) b.

(** [b] is on every path from the entry to [x]. *)
Definition dominates (c : function_context) (b x : N) : Prop :=
  ∀ l, path (flow c) (entry_of c) l x → b ∈ l ++ [x].

(** ** Paths, from the far end *)

Lemma path_snoc_inv {A} (R : A → A → Prop) x l y z :
  path R x (l ++ [y]) z → path R x l y ∧ R y z.
Proof.
  revert x. induction l as [|w l IH]; intros x Hp; inversion Hp as [|? ? ? ? HR Hp']; subst.
  - inversion Hp'; subst. split; [constructor|done].
  - apply IH in Hp' as [? ?]. split; [by econstructor|done].
Qed.

Lemma path_snoc {A} (R : A → A → Prop) x l y z : path R x l y → R y z → path R x (l ++ [y]) z.
Proof.
  intros Hp Hyz. induction Hp as [x|x w l y HR Hp IH]; simpl.
  - econstructor; [done|constructor].
  - econstructor; [done|by apply IH].
Qed.

(** ** Sums over lists *)

Lemma list_sum_le {A} (f g : A → nat) l :
  (∀ x, x ∈ l → f x <= g x)%nat → (list_sum (map f l) <= list_sum (map g l))%nat.
Proof.
  induction l as [|x l IH]; intros H; simpl; [lia|].
  assert (f x <= g x)%nat by (apply H; set_solver).
  assert (list_sum (map f l) <= list_sum (map g l))%nat by (apply IH; set_solver). lia.
Qed.

Lemma list_sum_lt {A} (f g : A → nat) l x :
  (∀ y, y ∈ l → f y <= g y)%nat → x ∈ l → (f x < g x)%nat →
  (list_sum (map f l) < list_sum (map g l))%nat.
Proof.
  induction l as [|y l IH]; intros H Hx Hlt; [set_solver|]. simpl.
  assert (f y <= g y)%nat by (apply H; set_solver).
  apply elem_of_cons in Hx as [->|Hx].
  - assert (list_sum (map f l) <= list_sum (map g l))%nat by (apply list_sum_le; set_solver). lia.
  - assert (list_sum (map f l) < list_sum (map g l))%nat by (apply IH; set_solver). lia.
Qed.

Lemma list_sum_bound {A} (f : A → nat) l n :
  (∀ x, x ∈ l → f x <= n)%nat → (list_sum (map f l) <= length l * n)%nat.
Proof.
  induction l as [|x l IH]; intros H; simpl; [lia|].
  assert (f x <= n)%nat by (apply H; set_solver).
  assert (list_sum (map f l) <= length l * n)%nat by (apply IH; set_solver). lia.
Qed.

Section dominance.
Variable c : function_context.
Hypothesis Hflow : flow_ok c.
(** What the canonical-order check establishes. *)
Hypothesis has_predecessor : ∀ b, b ∈ dom (ctx_blocks c) → b ≠ entry_of c → predecessors_of c b ≠ [].

Notation all := (dom (ctx_blocks c)).
Notation entry := (entry_of c).

Definition look (d : dominator_map) (b : N) : gset N := default ∅ (d !! b).

(** The equation of block [b]: itself and what dominates all predecessors. *)
Definition equation (d : dominator_map) (b y : N) : Prop :=
  y = b ∨ ∀ p, p ∈ predecessors_of c b → y ∈ look d p.

(** The invariant of the iteration. *)
Record dominators_ok (d : dominator_map) : Prop := {
  ok_dom : dom d = all;
  ok_entry : look d entry = {[entry]};
  ok_subset b : look d b ⊆ all;
  ok_above b y : b ∈ all → b ≠ entry → equation d b y → y ∈ look d b;
  ok_complete b y : b ∈ all → y ∈ all → dominates c y b → y ∈ look d b;
}.

Definition measure (d : dominator_map) : nat :=
  list_sum (map (λ b, size (look d b)) (ordered_blocks c)).

Lemma elem_of_ordered b : b ∈ ordered_blocks c ↔ b ∈ all.
Proof. unfold ordered_blocks. by rewrite merge_sort_Permutation, elem_of_elements. Qed.

Lemma length_ordered : length (ordered_blocks c) = size (ctx_blocks c).
Proof.
  unfold ordered_blocks. rewrite merge_sort_Permutation.
  change (length (elements all)) with (size all). apply size_dom.
Qed.

Lemma map_at_look d b : dom d = all → b ∈ all → map_at d b = Ok (look d b).
Proof.
  intros Hd Hb. rewrite <-Hd in Hb. apply elem_of_dom in Hb as [s Hs].
  unfold map_at, look. by rewrite Hs.
Qed.

(** The loop over the remaining predecessors intersects their sets. *)
Lemma intersect_predecessors d ps s :
  dom d = all → (∀ p, p ∈ ps → p ∈ all) →
  ∃ s', for_state ps s (λ p s, d ← map_at d p; Ok (s ∩ d)) = Ok s' ∧
    ∀ y, y ∈ s' ↔ y ∈ s ∧ ∀ p, p ∈ ps → y ∈ look d p.
Proof.
  intros Hd. revert s. induction ps as [|p ps IH]; intros s Hps; simpl.
  - exists s. split; [done|]. set_solver.
  - rewrite map_at_look by (first [done|apply Hps; set_solver]). simpl.
    destruct (IH (s ∩ look d p)) as (s' & -> & Hs'); [set_solver|].
    exists s'. split; [done|]. intros y. rewrite Hs', elem_of_intersection. set_solver.
Qed.

Lemma dominance_step_run b changed d :
  dom d = all → b ∈ all → b ≠ entry →
  ∃ new, (∀ y, y ∈ new ↔ equation d b y) ∧
    dominance_step c b (changed, d) =
      Ok (if bool_decide (new = look d b) then (changed, d) else (true, <[b := new]> d)).
Proof.
  intros Hd Hb Hne. unfold dominance_step. destruct (N.eqb_spec b entry); [done|].
  pose proof (has_predecessor b Hb Hne) as Hpred.
  assert (∀ p, p ∈ predecessors_of c b → p ∈ all) as Hin.
  { intros p Hp. apply (flow_predecessors _ Hflow) in Hp. by apply (flow_blocks _ Hflow) in Hp as [? _]. }
  unfold equation. unfold predecessors_of in *. destruct (ctx_predecessors c !! b) as [[|p ps]|]; [done| |done].
  simpl in Hpred, Hin. rewrite (map_at_look d b) by done.
  rewrite (map_at_look d p) by (first [done|apply Hin; set_solver]). rewrite bind_Ok.
  destruct (intersect_predecessors d ps (look d p)) as (s & Hrun & Hs); [done|set_solver|].
  rewrite Hrun, !bind_Ok. exists ({[b]} ∪ s). split.
  - intros y. rewrite elem_of_union, elem_of_singleton, Hs. set_solver.
  - by case_bool_decide.
Qed.

(** Shrinking one set to its equation keeps the invariant. *)
Lemma dominators_ok_update d b new :
  dominators_ok d → b ∈ all → b ≠ entry → (∀ y, y ∈ new ↔ equation d b y) →
  dominators_ok (<[b := new]> d) ∧ new ⊆ look d b.
Proof.
  intros [Hdom Hentry Hsub Habove Hcomp] Hb Hne Hnew.
  assert (new ⊆ look d b) as Hle by (intros y Hy%Hnew; by apply Habove).
  assert (∀ x, look (<[b := new]> d) x ⊆ look d x) as Hmono.
  { intros x. unfold look. destruct (decide (x = b)) as [->|].
    - by rewrite lookup_insert_eq.
    - by rewrite lookup_insert_ne. }
  assert (look (<[b := new]> d) b = new) as Hlb by (unfold look; by rewrite lookup_insert_eq).
  assert (∀ x, x ≠ b → look (<[b := new]> d) x = look d x) as Hlx
    by (intros x Hx; unfold look; by rewrite lookup_insert_ne).
  split; [|done]. split.
  - rewrite dom_insert_L, Hdom. set_solver.
  - by rewrite Hlx.
  - intros x y Hy. apply (Hsub x). by apply Hmono.
  - intros x y Hx Hxe Heq.
    assert (equation d x y) as Heq' by (destruct Heq as [->|Heq]; [by left|right; set_solver]).
    destruct (decide (x = b)) as [->|Hxb].
    + rewrite Hlb. by apply Hnew.
    + rewrite Hlx by done. by apply Habove.
  - intros x y Hx Hy Hd. destruct (decide (x = b)) as [->|Hxb]; [|rewrite Hlx by done; by apply Hcomp].
    rewrite Hlb. apply Hnew. destruct (decide (y = b)) as [->|Hyb]; [by left|]. right.
    intros p Hp. apply (flow_predecessors _ Hflow) in Hp.
    pose proof (flow_blocks _ Hflow _ _ Hp) as (Hpa & _). apply Hcomp; [done..|].
    intros l Hl. pose proof (Hd _ (path_snoc _ _ _ _ _ Hl Hp)) as Hin. set_solver.
Qed.

Lemma measure_update d b new :
  b ∈ all → new ⊂ look d b → (measure (<[b := new]> d) < measure d)%nat.
Proof.
  intros Hb Hlt. unfold measure. eapply list_sum_lt; [|by apply elem_of_ordered|].
  - intros x _. unfold look. destruct (decide (x = b)) as [->|].
    + rewrite lookup_insert_eq. apply subseteq_size. apply Hlt.
    + by rewrite lookup_insert_ne.
  - unfold look at 1. rewrite lookup_insert_eq. by apply subset_size.
Qed.

(** A pass either solves all equations of its blocks or makes progress. *)
Lemma dominance_pass ids changed d :
  dominators_ok d → (∀ b, b ∈ ids → b ∈ all) →
  ∃ changed' d', for_state ids (changed, d) (dominance_step c) = Ok (changed', d') ∧
    dominators_ok d' ∧ (measure d' <= measure d)%nat ∧
    ((changed' = changed ∧ d' = d ∧
      ∀ b, b ∈ ids → b ≠ entry → ∀ y, y ∈ look d b ↔ equation d b y) ∨
     (changed' = true ∧ (measure d' < measure d)%nat)).
Proof.
  revert changed d. induction ids as [|b ids IH]; intros changed d Hd Hids; cbn [for_state].
  { exists changed, d. split_and!; [done|done|lia|]. left. set_solver. }
  destruct (decide (b = entry)) as [->|Hne].
  { assert (dominance_step c entry (changed, d) = Ok (changed, d)) as ->
      by (unfold dominance_step; by rewrite N.eqb_refl). rewrite bind_Ok.
    destruct (IH changed d Hd) as (ch & d' & Hrun & Hd' & Hm & Hor); [set_solver|].
    exists ch, d'. split_and!; [done..|]. destruct Hor as [(-> & -> & Heq)|?]; [|by right].
    left. split_and!; [done..|]. intros b [->|Hb]%elem_of_cons Hb'; [done|eauto]. }
  assert (b ∈ all) as Hb by (apply Hids; set_solver).
  destruct (dominance_step_run b changed d) as (new & Hnew & Hrun); [apply Hd|done..|].
  rewrite Hrun, bind_Ok. case_bool_decide as Heq.
  - destruct (IH changed d Hd) as (ch & d' & Hrun' & Hd' & Hm & Hor); [set_solver|].
    exists ch, d'. split_and!; [done..|]. destruct Hor as [(-> & -> & Hsolved)|?]; [|by right].
    left. split_and!; [done..|]. intros b' [->|Hb']%elem_of_cons Hb'e y; [|eauto].
    rewrite <-Heq. apply Hnew.
  - destruct (dominators_ok_update d b new Hd Hb Hne Hnew) as [Hok Hsub].
    assert (measure (<[b := new]> d) < measure d)%nat as Hlt.
    { apply measure_update; [done|]. split; [done|]. intros Hsup. apply Heq. set_solver. }
    destruct (IH true _ Hok) as (ch & d' & Hrun' & Hd' & Hm & Hor); [set_solver|].
    exists ch, d'. split_and!; [done|done|lia|]. right.
    destruct Hor as [(-> & -> & _)|[-> ?]]; split; (done || lia).
Qed.

(** A solution of the equations. *)
Definition solution (d : dominator_map) : Prop :=
  ∀ b, b ∈ all → b ≠ entry → ∀ y, y ∈ look d b ↔ equation d b y.

Lemma dominance_loop_run n d :
  dominators_ok d → (measure d < n)%nat →
  ∃ d', dominance_loop n c true d = Ok (false, d') ∧ dominators_ok d' ∧ solution d'.
Proof.
  revert d. induction n as [|n IH]; intros d Hd Hn; [lia|]. cbn [dominance_loop].
  destruct (dominance_pass (ordered_blocks c) false d Hd) as (ch & d' & Hrun & Hd' & Hm & Hor);
    [by intros b ?%elem_of_ordered|].
  rewrite Hrun, bind_Ok. destruct Hor as [(-> & -> & Hsolved)|[-> Hlt]].
  - exists d. split_and!; [by destruct n|done|].
    intros b Hb Hne. apply Hsolved; [by apply elem_of_ordered|done].
  - apply IH; [done|lia].
Qed.

Lemma initial_dominators_lookup b s :
  initial_dominators c !! b = Some s ↔ b ∈ all ∧ s = if b =? entry then {[b]} else all.
Proof.
  unfold initial_dominators. rewrite lookup_set_to_map; [naive_solver|]. by intros ? ? _ _ [= ->].
Qed.

Lemma look_initial b :
  look (initial_dominators c) b =
    if bool_decide (b ∈ all) then (if b =? entry then {[b]} else all) else ∅.
Proof.
  unfold look. destruct (initial_dominators c !! b) as [s|] eqn:Hl.
  - apply initial_dominators_lookup in Hl as [Hb ->]. by rewrite bool_decide_true.
  - rewrite bool_decide_false; [done|]. intros Hb. apply eq_None_not_Some in Hl. apply Hl.
    eexists. by apply initial_dominators_lookup.
Qed.

Lemma look_initial_subset b : look (initial_dominators c) b ⊆ all.
Proof.
  rewrite look_initial. case_bool_decide as Hb; [|by apply empty_subseteq].
  destruct (b =? entry); [by apply singleton_subseteq_l|done].
Qed.

Lemma initial_dominators_ok : dominators_ok (initial_dominators c).
Proof.
  pose proof (flow_entry _ Hflow) as Hentry. split.
  - apply set_eq. intros b. rewrite elem_of_dom. split.
    + by intros [s [Hb _]%initial_dominators_lookup].
    + intros Hb. eexists. by apply initial_dominators_lookup.
  - rewrite look_initial, bool_decide_true, N.eqb_refl by done. done.
  - intros b. apply look_initial_subset.
  - intros b y Hb Hne Heq. rewrite look_initial, bool_decide_true by done.
    destruct (N.eqb_spec b entry); [done|].
    destruct Heq as [->|Heq]; [done|].
    destruct (predecessors_of c b) as [|p ps] eqn:Hp; [by apply has_predecessor in Hp|].
    specialize (Heq p ltac:(set_solver)). by apply look_initial_subset in Heq.
  - intros b y Hb Hy Hdom. rewrite look_initial, bool_decide_true by done.
    destruct (N.eqb_spec b entry) as [->|]; [|done].
    specialize (Hdom [] (path_nil _ _)). set_solver.
Qed.

Lemma measure_initial : (measure (initial_dominators c) < dominance_budget c)%nat.
Proof.
  unfold measure, dominance_budget.
  assert (list_sum (map (λ b, size (look (initial_dominators c) b)) (ordered_blocks c)) <=
    length (ordered_blocks c) * size (ctx_blocks c))%nat as Hle.
  { apply list_sum_bound. intros b _. rewrite <-size_dom. apply subseteq_size.
    apply (ok_subset _ initial_dominators_ok). }
  rewrite length_ordered in Hle. lia.
Qed.

(** A solution is sound: its sets contain only dominators. *)
Lemma solution_sound d b y :
  dominators_ok d → solution d → y ∈ look d b → dominates c y b.
Proof.
  intros Hd Hsol Hy l. revert b y Hy. induction l as [|p l IH] using rev_ind; intros b y Hy Hp.
  - inversion Hp; subst. rewrite (ok_entry _ Hd) in Hy. set_solver.
  - apply path_snoc_inv in Hp as [Hp Hpb].
    pose proof (flow_blocks _ Hflow _ _ Hpb) as (_ & Hb & Hne).
    apply (Hsol b Hb Hne) in Hy as [->|Hy]; [set_solver|].
    apply (flow_predecessors _ Hflow) in Hpb. specialize (IH p y (Hy p Hpb) Hp). set_solver.
Qed.

(** The computation ends within its budget, with exactly the dominators. *)
Lemma dominance_correct :
  ∃ d, dominance_loop (dominance_budget c) c true (initial_dominators c) = Ok (false, d) ∧
    dom d = all ∧ ∀ b y, b ∈ all → y ∈ all → (y ∈ look d b ↔ dominates c y b).
Proof.
  destruct (dominance_loop_run _ _ initial_dominators_ok measure_initial) as (d & Hrun & Hd & Hsol).
  exists d. split_and!; [done|apply Hd|]. intros b y Hb Hy. split.
  - by apply solution_sound.
  - by apply (ok_complete _ Hd).
Qed.

(** ** Uses *)

(** The definition comes first in the same block, or its block dominates. *)
Definition defined_before (u : use_site) (d : definition) : Prop :=
  if def_block d =? use_block u then (def_instruction d < use_instruction u ∨ def_instruction d < 0)%Z
  else dominates c (def_block d) (use_block u).

Definition uses_ok : Prop := ∀ u, u ∈ ctx_uses c →
  use_block u ∈ all ∧ ∃ d, ctx_definitions c !! use_value u = Some d ∧ def_block d ∈ all.

Lemma check_use_exact doms u d :
  dom doms = all → (∀ b y, b ∈ all → y ∈ all → (y ∈ look doms b ↔ dominates c y b)) →
  use_block u ∈ all → ctx_definitions c !! use_value u = Some d → def_block d ∈ all →
  defined (check_use c doms u) ∧
  (check_use c doms u = Ok tt ↔
   ∃ d, ctx_definitions c !! use_value u = Some d ∧ defined_before u d).
Proof.
  intros Hdom Hexact Hb Hd Hdb.
  assert (map_at (ctx_definitions c) (use_value u) = Ok d) as Hat by (unfold map_at; by rewrite Hd).
  assert (∀ P : definition → Prop,
    (∃ d, ctx_definitions c !! use_value u = Some d ∧ P d) ↔ P d) as -> by naive_solver.
  unfold check_use, defined_before. rewrite Hat, bind_Ok, map_at_look, bind_Ok by done.
  destruct (def_block d =? use_block u).
  - split; [auto with defined_db|]. rewrite fail_when_Ok, andb_false_iff, !Z.leb_gt. tauto.
  - split; [auto with defined_db|].
    by rewrite fail_when_Ok, negb_false_iff, bool_decide_eq_true, Hexact.
Qed.

Lemma verify_dominance_exact :
  uses_ok →
  defined (verify_dominance c) ∧
  (verify_dominance c = Ok tt ↔
   ∀ u, u ∈ ctx_uses c → ∃ d, ctx_definitions c !! use_value u = Some d ∧ defined_before u d).
Proof.
  intros Huses. unfold verify_dominance.
  destruct dominance_correct as (dom & -> & Hdom & Hexact). cbn [mbind result_bind fail_when when].
  assert (∀ u, u ∈ ctx_uses c → defined (check_use c dom u) ∧
    (check_use c dom u = Ok tt ↔
     ∃ d, ctx_definitions c !! use_value u = Some d ∧ defined_before u d)) as Hcheck.
  { intros u Hu. destruct (Huses u Hu) as (Hb & d & Hd & Hdb).
    by apply check_use_exact with (d := d). }
  split.
  - apply for_each_defined, Forall_forall. intros u Hu. by apply Hcheck.
  - rewrite for_each_Ok, Forall_forall. split; intros H u Hu; by apply Hcheck, H.
Qed.
End dominance.
