(* ===== verification/Cfg.v ===== *)
(** * Correctness of the canonical block order

    The work-list traversal of [verify_canonical_cfg] terminates within its fuel
    and discovers exactly the blocks reachable from the entry, so an accepted
    function has only reachable blocks, in traversal order. *)

From S2P Require Import Prelude Domains IR Reader Types Layout Index Instructions Functions.
From S2P Require Import Dominance.

Local Open Scope list_scope.
Local Open Scope N_scope.

(** ** Fuel: successors of blocks not seen yet *)

Definition unseen_sum (seen : gset N) (m : gmap N (list N)) : nat :=
  sum_list_with (λ p, if bool_decide (p.1 ∈ seen) then 0%nat else length p.2) (map_to_list m).

Lemma sum_list_with_ext {A} (f g : A → nat) l :
  (∀ x, x ∈ l → f x = g x) → sum_list_with f l = sum_list_with g l.
Proof.
  induction l as [|x l IH]; intros H; [done|]. simpl. rewrite H by set_solver. f_equal.
  apply IH. set_solver.
Qed.

Lemma unseen_sum_step seen m x :
  x ∉ seen →
  unseen_sum seen m = (length (default [] (m !! x)) + unseen_sum ({[x]} ∪ seen) m)%nat.
Proof.
  intros Hx. unfold unseen_sum. destruct (m !! x) as [l|] eqn:Hl; simpl.
  - rewrite <-(map_to_list_delete m x l Hl). simpl.
    rewrite bool_decide_false by done. rewrite bool_decide_true by set_solver. simpl. f_equal.
    apply sum_list_with_ext. intros [k l'] Hk%elem_of_map_to_list. simpl.
    assert (k ≠ x) by (intros ->; by rewrite lookup_delete_eq in Hk).
    apply (f_equal (λ b : bool, if b then _ else _)). apply bool_decide_ext. set_solver.
  - apply sum_list_with_ext. intros [k l'] Hk%elem_of_map_to_list. simpl.
    assert (k ≠ x) by congruence.
    apply (f_equal (λ b : bool, if b then _ else _)). apply bool_decide_ext. set_solver.
Qed.

Lemma unseen_sum_empty m : unseen_sum ∅ m = sum_list_with (λ p, length p.2) (map_to_list m).
Proof. apply sum_list_with_ext. intros p _. by rewrite bool_decide_false by set_solver. Qed.

Section discovery.
Variable c : function_context.

(** The state of the loop: what is discovered is reachable and closed up to the
    pending blocks. *)
Record discovery (discovered : list N) (seen : gset N) (pending : list N) : Prop := {
  dis_seen b : b ∈ seen ↔ b ∈ discovered;
  dis_unique : NoDup discovered;
  dis_entry : entry_of c ∈ discovered ++ pending;
  dis_reachable b : b ∈ discovered ++ pending → reachable c b;
  dis_closed a b : a ∈ discovered → flow c a b → b ∈ discovered ++ pending;
}.

Lemma discovery_skip discovered seen current pending :
  discovery discovered seen (current :: pending) → current ∈ seen →
  discovery discovered seen pending.
Proof.
  intros [H1 H2 H3 H4 H5] Hc%H1. split; [done|done| | |]; set_solver.
Qed.

Lemma discovery_visit discovered seen current pending :
  discovery discovered seen (current :: pending) → current ∉ seen →
  discovery (discovered ++ [current]) ({[current]} ∪ seen)
    (pending ++ List.filter (λ s, negb (bool_decide (s ∈ {[current]} ∪ seen)))
                  (successors_of c current)).
Proof.
  intros [H1 H2 H3 H4 H5] Hc.
  assert (∀ b, b ∈ List.filter (λ s, negb (bool_decide (s ∈ {[current]} ∪ seen)))
    (successors_of c current) ↔ b ∈ successors_of c current ∧ b ∉ {[current]} ∪ seen) as Hfilter.
  { intros b. rewrite !list_elem_of_In, filter_In, negb_true_iff, bool_decide_eq_false. done. }
  assert (reachable c current) as Hcur by (apply H4; set_solver).
  split.
  - intros b. rewrite elem_of_union, elem_of_app, H1. set_solver.
  - apply NoDup_app. split_and!; [done| |apply NoDup_singleton]. set_solver.
  - set_solver.
  - intros b. rewrite !elem_of_app, Hfilter. intros [[?|?]|[?|[Hs _]]];
      [apply H4; set_solver|set_solver|apply H4; set_solver|].
    eapply rtc_r; [exact Hcur|done].
  - intros a b. rewrite elem_of_app, list_elem_of_singleton, !elem_of_app, Hfilter.
    intros [Ha| ->] Hab.
    + apply (H5 a b) in Hab; [|done]. set_solver.
    + destruct (decide (b ∈ {[current]} ∪ seen)) as [Hb|Hb]; [|set_solver].
      left. apply elem_of_union in Hb as [?|?%H1]; set_solver.
Qed.

Lemma discovery_done discovered seen b :
  discovery discovered seen [] → b ∈ discovered ↔ reachable c b.
Proof.
  intros Hd. split; [intros Hb; apply (dis_reachable _ _ _ Hd); set_solver|].
  destruct Hd as [_ _ He _ Hcl]. rewrite app_nil_r in He.
  intros Hr. unfold reachable in Hr. revert He. induction Hr as [|x y z Hxy _ IHr]; [done|].
  intros Hx. apply IHr. specialize (Hcl x y Hx Hxy). by rewrite app_nil_r in Hcl.
Qed.

Lemma discover_run fuel discovered seen pending :
  discovery discovered seen pending →
  (length pending + unseen_sum seen (ctx_successors c) <= fuel)%nat →
  ∃ l, discover fuel c discovered seen pending = Ok l ∧ NoDup l ∧ ∀ b, b ∈ l ↔ reachable c b.
Proof.
  revert discovered seen pending. induction fuel as [|fuel IH]; intros discovered seen pending Hd Hfuel.
  all: destruct pending as [|current pending]; simpl.
  - exists discovered. split_and!; [done|apply Hd|]. intros b. by eapply discovery_done.
  - simpl in Hfuel. lia.
  - exists discovered. split_and!; [done|apply Hd|]. intros b. by eapply discovery_done.
  - simpl in Hfuel. case_bool_decide as Hc.
    + apply IH; [by eapply discovery_skip|lia].
    + apply IH; [by apply discovery_visit|]. rewrite (unseen_sum_step _ _ _ Hc) in Hfuel.
      rewrite length_app. pose proof (List.filter_length_le
        (λ s, negb (bool_decide (s ∈ {[current]} ∪ seen))) (successors_of c current)) as Hle.
      unfold successors_of in *. lia.
Qed.

Lemma discover_exact :
  ∃ l, discover (discover_fuel c) c [] ∅ [entry_of c] = Ok l ∧ NoDup l ∧
    ∀ b, b ∈ l ↔ reachable c b.
Proof.
  apply discover_run.
  - split; [set_solver|constructor|set_solver| |set_solver].
    intros b Hb. simpl in Hb. apply list_elem_of_singleton in Hb as ->. apply rtc_refl.
  - rewrite unseen_sum_empty. unfold discover_fuel. simpl. lia.
Qed.

(** Every block but the first one is a successor of an earlier one. *)
Definition in_order (edge : N → N → Prop) (l : list N) : Prop :=
  ∀ k b, l !! k = Some b → (0 < k)%nat → ∃ j a, (j < k)%nat ∧ l !! j = Some a ∧ edge a b.

Definition queued (discovered pending : list N) : Prop :=
  (discovered = [] ∧ pending = [entry_of c]) ∨ ∀ b, b ∈ pending → ∃ a, a ∈ discovered ∧ flow c a b.

Lemma in_order_snoc edge l b : in_order edge l → (l ≠ [] → ∃ a, a ∈ l ∧ edge a b) → in_order edge (l ++ [b]).
Proof.
  intros Hl Hb k x Hx Hk. apply lookup_app_Some in Hx as [Hx|[Hlen Hx]].
  - destruct (Hl k x Hx Hk) as (j & a & Hj & Ha & He). exists j, a. split_and!; [done| |done]. by apply lookup_app_l_Some.
  - apply list_lookup_singleton_Some in Hx as [Hz <-]. assert (k = length l) as -> by lia.
    destruct Hb as (a & [j Hj]%list_elem_of_lookup & He); [intros ->; simpl in Hk; lia|]. exists j, a.
    split_and!; [by eapply lookup_lt_Some|by apply lookup_app_l_Some|done].
Qed.

Lemma discover_in_order fuel discovered seen pending l :
  in_order (flow c) discovered → queued discovered pending →
  discover fuel c discovered seen pending = Ok l → in_order (flow c) l.
Proof.
  revert discovered seen pending. induction fuel as [|fuel IH]; intros discovered seen pending Ho Hq Hd.
  all: destruct pending as [|current pending]; simpl in Hd; [by injection Hd as <-|]; try done.
  case_bool_decide as Hc.
  - eapply IH; [done| |done]. right. destruct Hq as [[_ [= _ ->]]|Hq]; [set_solver|]. intros b Hb. apply Hq. by right.
  - eapply IH; [| |done].
    + apply in_order_snoc; [done|]. intros Hne. destruct Hq as [[? _]|Hq]; [done|]. apply Hq. left.
    + right. intros b Hb. apply elem_of_app in Hb as [Hb|Hb].
      * destruct Hq as [[_ [= _ ->]]|Hq]; [by apply elem_of_nil in Hb|]. destruct (Hq b) as (a & Ha & He); [by right|]. exists a. set_solver.
      * exists current. split; [set_solver|]. apply list_elem_of_In, filter_In in Hb as [Hb _]. by apply list_elem_of_In.
Qed.

(** The index of blocks the traversal is compared with. *)
Record blocks_ok : Prop := {
  blocks_unique : NoDup (map blk_id (fn_blocks (ctx_value c)));
  blocks_dom : dom (ctx_blocks c) = list_to_set (map blk_id (fn_blocks (ctx_value c)));
}.

Lemma blocks_size : blocks_ok → size (ctx_blocks c) = length (fn_blocks (ctx_value c)).
Proof.
  intros [Hn Hd]. rewrite <-size_dom, Hd, size_list_to_set by done. apply length_map.
Qed.

Lemma elem_of_blocks b :
  blocks_ok → b ∈ dom (ctx_blocks c) ↔ b ∈ map blk_id (fn_blocks (ctx_value c)).
Proof. intros [_ ->]. by rewrite elem_of_list_to_set. Qed.

Lemma reachable_blocks b : flow_ok c → reachable c b → b ∈ dom (ctx_blocks c).
Proof.
  intros Hf Hr. apply rtc_inv_r in Hr as [<-|(y & _ & Hy)]; [apply Hf|].
  by apply (flow_blocks _ Hf) in Hy as (_ & ? & _).
Qed.

(** Comparing the discovered list with the block order. *)
Lemma compare_order l :
  length l = length (fn_blocks (ctx_value c)) →
  let check := for_each (imap pair l) (λ '(index, id),
    b ← element (fn_blocks (ctx_value c)) index;
    fail_when (negb (blk_id b =? id)) invalid_control_flow
      "Function block order is not canonical entry/successor order."%string) in
  defined check ∧ (check = Ok tt ↔ l = map blk_id (fn_blocks (ctx_value c))).
Proof.
  intros Hlen check. split.
  - apply for_each_defined, Forall_forall. intros [i b] (j & x & [= -> ->] & Hj)%elem_of_lookup_imap.
    apply lookup_lt_Some in Hj. unfold element.
    destruct (lookup_lt_is_Some_2 (fn_blocks (ctx_value c)) j) as [y ->]; [lia|]. simpl.
    auto with defined_db.
  - unfold check. rewrite for_each_Ok, Forall_forall. split.
    + intros H. apply list_eq_same_length with (n := length l); [by rewrite length_map|done|].
      intros i x y _ Hx Hy. apply list_lookup_fmap_Some in Hy as (b & -> & Hb).
      specialize (H (i, x) (elem_of_lookup_imap_2 pair l x i Hx)). simpl in H.
      unfold element in H. rewrite Hb in H. simpl in H.
      apply fail_when_Ok, negb_false_iff, N.eqb_eq in H. done.
    + intros -> [i x] (j & y & [= -> ->] & Hj)%elem_of_lookup_imap.
      apply list_lookup_fmap_Some in Hj as (b & -> & Hb). unfold element. rewrite Hb. simpl.
      by rewrite N.eqb_refl.
Qed.

(** Accepted exactly when the traversal from the entry lists the blocks in order;
    then every block is reachable. *)
Lemma verify_canonical_cfg_exact :
  flow_ok c → blocks_ok →
  defined (verify_canonical_cfg c) ∧
  (verify_canonical_cfg c = Ok tt ↔
    discover (discover_fuel c) c [] ∅ [entry_of c] = Ok (map blk_id (fn_blocks (ctx_value c)))) ∧
  (verify_canonical_cfg c = Ok tt → ∀ b, b ∈ dom (ctx_blocks c) → reachable c b).
Proof.
  intros Hf Hb. unfold verify_canonical_cfg. destruct discover_exact as (l & -> & Hn & Hl).
  rewrite bind_Ok. unfold fail_when.
  destruct (Nat.eqb_spec (length l) (size (ctx_blocks c))) as [Hlen|Hlen]; simpl negb; cbn [when];
    [rewrite bind_Ok|cbn [mbind result_bind]].
  - rewrite blocks_size in Hlen by done. destruct (compare_order l Hlen) as [Hd Hiff].
    split_and!; [done|rewrite Hiff; naive_solver|].
    intros Hok%Hiff b Hin. apply Hl. rewrite Hok. by apply elem_of_blocks.
  - split_and!; [done| |done]. split; [done|]. intros [= ->]. exfalso. apply Hlen.
    by rewrite length_map, blocks_size.
Qed.
End discovery.

(** ** Properties *)

(** C40: Block discovery terminates and is exact: within the fuel of the number of edges
    plus one, the work-list traversal of [verify_canonical_cfg] returns a list
    without duplicates that holds precisely the blocks reachable from the entry. *)
Theorem block_discovery_exact c :
  ∃ order, discover (discover_fuel c) c [] ∅ [entry_of c] = Ok order ∧ NoDup order ∧
    ∀ b, b ∈ order ↔ reachable c b.
Proof. apply discover_exact. Qed.
