(* ===== verification/Ssa.v ===== *)
(** * Verified functions are in SSA form

    What [verify_body] establishes of a function: unique definitions of supported
    types, a well-formed reachable control-flow graph, uses dominated by their
    definitions, checked instructions and a sound effect summary. *)

From S2P Require Import Prelude Domains IR Samples Reader Types Layout Index Instructions.
From S2P Require Import InstructionSafety InstructionTyping Functions Dominance Cfg.

Local Open Scope string_scope.
Local Open Scope list_scope.
Local Open Scope N_scope.

(** ** The definitions of a function *)

Definition parameter_definition (b : N) (p : block_parameter) : N * definition :=
  (par_id p, mk_definition (par_value_type p) b (-1)).

Definition result_definition (b : N) (index : nat) (r : value_definition) : N * definition :=
  (val_id r, mk_definition (val_value_type r) b (Z.of_nat index)).

Definition instruction_definitions (b : N) (item : nat * instruction) : list (N * definition) :=
  map (result_definition b item.1) (ins_results item.2).

Definition block_definitions (b : block) : list (N * definition) :=
  map (parameter_definition (blk_id b)) (blk_parameters b) ++
  concat (map (instruction_definitions (blk_id b)) (imap pair (blk_instructions b))).

Definition root_definitions (f : function) : list (N * definition) :=
  match fn_unsafe_root f with
  | Some root => [(val_id root, mk_definition (val_value_type root) (fn_entry_block f) (-1))]
  | None => []
  end.

(** Every value a function defines, with its type and place. *)
Definition function_definitions (f : function) : list (N * definition) :=
  root_definitions f ++ concat (map block_definitions (fn_blocks f)).

Definition supported_definition (p : N * definition) : Prop :=
  is_supported_value (def_value_type p.2) = true.

(** Loops that extend a list a function of the items, and establish a fact of each. *)
Lemma ensures_for_items {A S D} (I : list D → S → Prop) (key : A → list D) (P : A → Prop) (l : list A) body ds s :
  (∀ x ds s, x ∈ l → I ds s → ensures (body x s) (λ s', I (ds ++ key x) s' ∧ P x)) →
  I ds s → ensures (for_state l s body) (λ s', I (ds ++ concat (map key l)) s' ∧ Forall P l).
Proof.
  revert ds s. induction l as [|x l IH]; intros ds s Hstep HI; simpl.
  - apply ensures_Ok. by rewrite app_nil_r.
  - eapply ensures_bind; [apply Hstep; [set_solver|done]|]. intros s' [HI' HP].
    eapply ensures_weaken; [apply (IH (ds ++ key x) s'); [|done]|].
    + intros y ds' s0 Hy. apply Hstep. set_solver.
    + intros s'' [? ?]. rewrite app_assoc. split; [done|]. by constructor.
Qed.

Lemma ensures_collect {A S D} (I : list D → S → Prop) (key : A → list D) (l : list A) body ds s :
  (∀ x ds s, x ∈ l → I ds s → ensures (body x s) (I (ds ++ key x))) →
  I ds s → ensures (for_state l s body) (I (ds ++ concat (map key l))).
Proof.
  intros Hstep HI. eapply ensures_weaken; [apply (ensures_for_items I key (λ _, True)); [|exact HI]|by intros ? [? _]].
  intros x ds' s' Hx HI'. eapply ensures_weaken; [by apply Hstep|done].
Qed.

Lemma concat_singletons {A B} (f : A → B) l : concat (map (λ x, [f x]) l) = map f l.
Proof. induction l as [|x l IH]; simpl; [done|]. by rewrite IH. Qed.

Section registration.
Variable index : module_verification_index.
Variable f : function.
Variable B : gmap N block.

(** The context while definitions are registered; nothing else is filled in yet. *)
Record registered (ds : list (N * definition)) (c : function_context) : Prop := {
  reg_context : c = mk_context index f B ∅ ∅ (list_to_map ds) [] 0;
  reg_unique : NoDup (map fst ds);
  reg_supported : Forall supported_definition ds;
}.

Lemma require_value_type_ok t d :
  ensures (require_value_type t d) (λ _, is_supported_value t = true).
Proof.
  unfold require_value_type. eapply ensures_bind; [apply ensures_when|]. intros _ _.
  eapply ensures_weaken; [apply ensures_when|]. intros [] H. by apply negb_false_iff.
Qed.

Lemma define_ok id d code message ds c :
  registered ds c → is_supported_value (def_value_type d) = true →
  ensures (define id d code message c) (registered (ds ++ [(id, d)])).
Proof.
  intros [-> Hn Hs] Hd. unfold define. cbn [ctx_definitions].
  destruct (list_to_map ds !! id) as [d'|] eqn:Hl; [apply ensures_reader_error|].
  apply not_elem_of_list_to_map in Hl. apply ensures_Ok. split.
  - unfold set_definitions. simpl. f_equal. by rewrite list_to_map_snoc.
  - rewrite map_app. simpl. apply NoDup_app. split_and!; [done|set_solver|apply NoDup_singleton].
  - apply Forall_app. split; [done|]. by apply Forall_singleton.
Qed.

Lemma register_root_ok c :
  registered [] c → ensures (register_root c) (registered (root_definitions f)).
Proof.
  intros Hc. unfold register_root. pose proof (reg_context _ _ Hc) as Heq. rewrite Heq at 1.
  cbn [ctx_value]. unfold root_definitions.
  destruct (fn_unsafe_root f) as [root|]; [|by apply ensures_Ok].
  eapply ensures_bind; [apply ensures_when|]. intros [] Hcap. apply negb_false_iff in Hcap.
  replace (ctx_value c) with f by by rewrite Heq.
  apply (define_ok _ _ _ _ [] c Hc). simpl. unfold is_supported_value.
  destruct (val_value_type root) as [tag symbol arguments count]. rewrite Hcap.
  by rewrite ?orb_true_r, ?orb_true_l.
Qed.

Lemma register_parameter_ok b p ds c :
  registered ds c →
  ensures (register_parameter b p c) (registered (ds ++ [parameter_definition b p])).
Proof.
  intros Hc. unfold register_parameter.
  eapply ensures_bind; [apply require_value_type_ok|]. intros [] Hs.
  eapply ensures_bind; [apply ensures_true, verify_location_defined|]. intros _ _.
  by apply define_ok.
Qed.

Lemma register_instruction_ok b item ds c :
  registered ds c →
  ensures (register_instruction b item c) (registered (ds ++ instruction_definitions b item)).
Proof.
  destruct item as [k i]. intros Hc. unfold register_instruction, instruction_definitions. simpl.
  eapply ensures_bind; [apply ensures_true, verify_location_defined|]. intros _ _.
  rewrite <-concat_singletons. apply ensures_collect; [|done].
  intros r ds' c' _ Hc'. unfold register_result.
  eapply ensures_bind; [apply require_value_type_ok|]. intros [] Hs. by apply define_ok.
Qed.

Lemma register_block_ok b ds c :
  registered ds c → ensures (register_block b c) (registered (ds ++ block_definitions b)).
Proof.
  intros Hc. unfold register_block, block_definitions. eapply ensures_bind.
  - apply (ensures_collect registered (λ p, [parameter_definition (blk_id b) p])); [|exact Hc].
    intros p ds' c' _. apply register_parameter_ok.
  - intros c' Hc'. rewrite concat_singletons in Hc'. rewrite app_assoc.
    apply ensures_collect; [|exact Hc']. intros item ds' c'' _. apply register_instruction_ok.
Qed.

Lemma register_definitions_ok c :
  registered [] c → ensures (register_definitions c) (registered (function_definitions f)).
Proof.
  intros Hc. unfold register_definitions. eapply ensures_bind; [by apply register_root_ok|].
  intros c' Hc'. rewrite (reg_context _ _ Hc') at 1. cbn [ctx_value].
  apply ensures_collect; [|exact Hc']. intros b ds c'' _. apply register_block_ok.
Qed.
End registration.

(** ** What a function uses *)

Definition edge_uses (b : N) (index : Z) (e : edge) : list use_site :=
  map (λ v, mk_use v b index) (edge_arguments e).

Definition option_use (b : N) (index : Z) (x : option N) : list use_site :=
  match x with Some v => [mk_use v b index] | None => [] end.

Definition instruction_uses (b : N) (item : nat * instruction) : list use_site :=
  map (λ v, mk_use v b (Z.of_nat item.1)) (ins_operands item.2).

Definition terminator_uses (b : block) : list use_site :=
  let index := Z.of_nat (length (blk_instructions b)) in
  option_use (blk_id b) index (trm_condition (blk_ending b)) ++
  option_use (blk_id b) index (trm_return_value (blk_ending b)) ++
  concat (map (edge_uses (blk_id b) index) (trm_edges (blk_ending b))).

Definition block_uses (b : block) : list use_site :=
  concat (map (instruction_uses (blk_id b)) (imap pair (blk_instructions b))) ++ terminator_uses b.

Definition function_uses (f : function) : list use_site := concat (map block_uses (fn_blocks f)).

(** The control-flow graph of a function. *)
Definition cfg_edge (f : function) (a b : N) : Prop :=
  ∃ blk e, blk ∈ fn_blocks f ∧ blk_id blk = a ∧ e ∈ trm_edges (blk_ending blk) ∧ edge_target e = b.

(** The context that instruction checks see: index, function and definitions. *)
Definition core_context (index : module_verification_index) (f : function) : function_context :=
  mk_context index f ∅ ∅ ∅ (list_to_map (function_definitions f)) [] 0.

Lemma verify_instruction_core legal index f B S P D U E i :
  verify_instruction legal (mk_context index f B S P D U E) i =
  verify_instruction legal (mk_context index f ∅ ∅ ∅ D [] 0) i.
Proof. reflexivity. Qed.

(** Facts a verified body leaves behind, one per checked construct. *)
Inductive site :=
| used (u : use_site)
| connected (a b : N)
| passed (e : edge)
| of_type (v : N) (t : type)
| ended (t : terminator)
| checked (i : instruction)
| panics.

Section body.
Variable legal : list byte → bool.
Variable index : module_verification_index.
Variable f : function.
Variable B : gmap N block.

Notation D := (list_to_map (function_definitions f) : gmap N definition).

(** A value whose definition has the type. *)
Definition value_typed (v : N) (t : type) : Prop := ∃ d, D !! v = Some d ∧ def_value_type d = t.

Definition arguments_typed (e : edge) (target : block) : Prop :=
  Forall2 (λ v p, value_typed v (par_value_type p)) (edge_arguments e) (blk_parameters target).

(** The parts each kind of terminator has. *)
Definition terminator_shaped (t : terminator) : Prop :=
  match trm_tag t with
  | NERI_IR_TERMINATOR_BRANCH_V1 => ∃ e, trm_edges t = [e]
  | NERI_IR_TERMINATOR_CONDITIONAL_BRANCH_V1 =>
      ∃ condition e1 e2, trm_condition t = Some condition ∧ trm_edges t = [e1; e2]
  | NERI_IR_TERMINATOR_RETURN_V1 => has_value (trm_return_value t) = negb (is_void (fn_result_type f))
  | NERI_IR_TERMINATOR_PANIC_V1 => trm_edges t = []
  end.

Definition holds (c : function_context) (s : site) : Prop :=
  match s with
  | used u => u ∈ ctx_uses c
  | connected a b => flow c a b
  | passed e => ∃ target, B !! edge_target e = Some target ∧ arguments_typed e target
  | of_type v t => value_typed v t
  | ended t => terminator_shaped t
  | checked i => ∃ e, verify_instruction legal (core_context index f) i = Ok e ∧
      effects_within e (ctx_required_effects c) ∧
      (needs_location (ins_opcode i) e = true → has_value (ins_location i) = true)
  | panics => effects_within NERI_IR_EFFECT_MAY_PANIC_V1 (ctx_required_effects c)
  end.

Record body_ok (c : function_context) : Prop := {
  body_index : ctx_index c = index;
  body_value : ctx_value c = f;
  body_blocks : ctx_blocks c = B;
  body_definitions : ctx_definitions c = D;
  body_predecessors a b : flow c a b ↔ a ∈ predecessors_of c b;
  body_flow a b : flow c a b → cfg_edge f a b ∧ b ∈ dom B ∧ b ≠ fn_entry_block f;
  body_uses u : u ∈ ctx_uses c → use_block u ∈ map blk_id (fn_blocks f) ∧ is_Some (D !! use_value u);
}.

(** Later contexts keep the facts of earlier ones. *)
Record extends (c c' : function_context) : Prop := {
  ext_uses u : u ∈ ctx_uses c → u ∈ ctx_uses c';
  ext_flow a b : flow c a b → flow c' a b;
  ext_effects e : effects_within e (ctx_required_effects c) → effects_within e (ctx_required_effects c');
}.

Lemma extends_refl c : extends c c.
Proof. by split. Qed.

Lemma holds_extends c c' s : extends c c' → holds c s → holds c' s.
Proof.
  intros [Hu Hf He]. destruct s as [u|a b|e|v t|t|i|]; simpl; [apply Hu|apply Hf|done|done|done| |apply He].
  intros (e & ? & ? & ?). exists e. eauto.
Qed.

(** The body invariant with a list of facts. *)
Definition verified (sites : list site) (c : function_context) : Prop :=
  body_ok c ∧ Forall (holds c) sites.

Lemma verified_step sites sites' c c' :
  verified sites c → body_ok c' → extends c c' → Forall (holds c') sites' →
  verified (sites ++ sites') c'.
Proof.
  intros [_ Hs] Hok Hext Hs'. split; [done|]. apply Forall_app. split; [|done].
  eapply Forall_impl; [exact Hs|]. intros s. by apply holds_extends.
Qed.

Lemma register_use_ok v b k sites c :
  b ∈ map blk_id (fn_blocks f) → verified sites c →
  ensures (register_use v b k c) (verified (sites ++ [used (mk_use v b k)])).
Proof.
  intros Hb Hv. pose proof Hv as [Hok _]. unfold register_use.
  destruct (ctx_definitions c !! v) as [d|] eqn:Hd; [|apply ensures_reader_error].
  apply ensures_Ok. eapply verified_step; [done| | |].
  - destruct Hok. split; try done. simpl. intros u [?|Hu%list_elem_of_singleton]%elem_of_app; [auto|].
    subst u. simpl. split; [done|]. rewrite <-body_definitions0, Hd. by eexists.
  - split; try done. intros u Hu. apply elem_of_app. by left.
  - apply Forall_singleton. simpl. apply elem_of_app. right. by apply list_elem_of_singleton.
Qed.

Lemma push_back_lookup a b k (m : gmap N (list N)) y :
  y ∈ default [] (push_back a b m !! k) ↔ y ∈ default [] (m !! k) ∨ (k = a ∧ y = b).
Proof.
  unfold push_back. destruct (decide (k = a)) as [->|Hk].
  - rewrite lookup_insert_eq. simpl. rewrite elem_of_app, list_elem_of_singleton. naive_solver.
  - rewrite lookup_insert_ne by done. naive_solver.
Qed.

Lemma flow_add_edge s t c a b : flow (add_edge s t c) a b ↔ flow c a b ∨ (a = s ∧ b = t).
Proof. unfold flow, successors_of. simpl. apply push_back_lookup. Qed.

Lemma add_edge_ok s t sites c :
  cfg_edge f s t → t ∈ dom B → t ≠ fn_entry_block f → verified sites c →
  verified (sites ++ [connected s t]) (add_edge s t c).
Proof.
  intros Hedge Ht Hne Hv. pose proof Hv as [Hok _]. eapply verified_step; [done| | |].
  - destruct Hok as [? ? ? ? Hpred Hflow Huses]. split; try done.
    + intros a b. rewrite flow_add_edge. unfold predecessors_of. simpl.
      rewrite push_back_lookup, Hpred. unfold predecessors_of. naive_solver.
    + intros a b. rewrite flow_add_edge. intros [?|[-> ->]]; auto.
  - split; try done. intros a b. rewrite flow_add_edge. by left.
  - apply Forall_singleton. simpl. rewrite flow_add_edge. by right.
Qed.

Lemma add_effects_ok e sites c s :
  verified sites c → holds (add_effects e c) s → verified (sites ++ [s]) (add_effects e c).
Proof.
  intros Hv Hs. pose proof Hv as [Hok _]. eapply verified_step; [done| | |by apply Forall_singleton].
  - by destruct Hok.
  - split; try done. intros e'. apply effects_within_lor.
Qed.

(** *** Facts per construct *)

Definition edge_sites (b : N) (k : Z) (e : edge) : list site :=
  map used (edge_uses b k e) ++ [connected b (edge_target e); passed e].

Definition instruction_sites (b : N) (item : nat * instruction) : list site :=
  map used (instruction_uses b item) ++ [checked item.2].

Definition option_type (v : option N) (t : type) : list site :=
  match v with Some v => [of_type v t] | None => [] end.

Definition terminator_sites (b : block) : list site :=
  let k := Z.of_nat (length (blk_instructions b)) in
  map used (option_use (blk_id b) k (trm_condition (blk_ending b))) ++
  option_type (trm_condition (blk_ending b)) bool_type ++
  map used (option_use (blk_id b) k (trm_return_value (blk_ending b))) ++
  option_type (trm_return_value (blk_ending b)) (fn_result_type f) ++
  concat (map (edge_sites (blk_id b) k) (trm_edges (blk_ending b))) ++
  (if tag_eqb (trm_tag (blk_ending b)) NERI_IR_TERMINATOR_PANIC_V1 then [panics] else []) ++
  [ended (blk_ending b)].

Definition block_sites (b : block) : list site :=
  concat (map (instruction_sites (blk_id b)) (imap pair (blk_instructions b))) ++ terminator_sites b.

Definition function_sites : list site := concat (map block_sites (fn_blocks f)).

Hypothesis supported : Forall supported_definition (function_definitions f).

Lemma map_used_singletons (l : list N) b k :
  map used (map (λ v, mk_use v b k) l) = concat (map (λ v, [used (mk_use v b k)]) l).
Proof. rewrite concat_singletons. by rewrite map_map. Qed.

Lemma map_imap_pair {X Y} (g : X → Y) (l : list X) :
  map (λ p : nat * X, g p.2) (imap pair l) = map g l.
Proof. etransitivity; [apply (fmap_imap pair (λ p, g p.2))|]. exact (imap_const g l). Qed.

(** A fact that needs no context. *)
Lemma verified_fact s sites c : (∀ c, holds c s) → verified sites c → verified (sites ++ [s]) c.
Proof.
  intros Hs Hv. apply (verified_step _ _ _ _ Hv); [apply Hv|apply extends_refl|]. by apply Forall_singleton.
Qed.

Lemma ensures_definition_type c v : ensures (definition_type c v) (λ t, definition_type c v = Ok t).
Proof. split; [apply definition_type_defined|done]. Qed.

Lemma verified_type v t sites c :
  verified sites c → definition_type c v = Ok t → value_typed v t ∧ verified (sites ++ [of_type v t]) c.
Proof.
  intros Hv (d & Hd & Ht)%definition_type_Ok. rewrite (body_definitions _ (proj1 Hv)) in Hd.
  assert (value_typed v t) as Hty by by exists d. split; [done|]. by apply verified_fact.
Qed.

Lemma verify_edge_argument_ok b parameters k i v sites c :
  b ∈ map blk_id (fn_blocks f) → (i < length parameters)%nat → verified sites c →
  ensures (verify_edge_argument b parameters k (i, v) c) (λ c',
    verified (sites ++ [used (mk_use v b k)]) c' ∧
    ∃ p, parameters !! i = Some p ∧ value_typed v (par_value_type p)).
Proof.
  intros Hb Hi Hv. unfold verify_edge_argument.
  eapply ensures_bind; [by apply register_use_ok|]. intros c' Hv'.
  eapply ensures_bind; [apply ensures_definition_type|]. intros t [Ht _]%(verified_type _ _ _ _ Hv'). destruct (lookup_lt_is_Some_2 _ _ Hi) as [p Hp].
  unfold element. rewrite Hp, bind_Ok.
  eapply ensures_bind; [apply ensures_when|]. intros _ ->%negb_false_iff%same_type_Ok. apply ensures_Ok. eauto.
Qed.

(** All arguments of an edge. *)
Lemma verify_edge_arguments_ok b parameters k arguments sites c :
  b ∈ map blk_id (fn_blocks f) → length arguments = length parameters → verified sites c →
  ensures (for_state (imap pair arguments) c (verify_edge_argument b parameters k)) (λ c',
    verified (sites ++ concat (map (λ p : nat * N, [used (mk_use p.2 b k)]) (imap pair arguments))) c' ∧
    Forall2 (λ v p, value_typed v (par_value_type p)) arguments parameters).
Proof.
  intros Hb Hlen Hv.
  assert (∀ i v, arguments !! i = Some v → (i < length parameters)%nat) as Hin
    by (intros i v Hi; rewrite <-Hlen; by eapply lookup_lt_Some).
  eapply ensures_weaken; [apply (ensures_for_items verified (λ p : nat * N, [used (mk_use p.2 b k)])
    (λ p, ∃ q, parameters !! p.1 = Some q ∧ value_typed p.2 (par_value_type q))); [|exact Hv]|].
  - intros [i v] sites' c' (j & v' & [= -> ->] & Hj)%elem_of_lookup_imap Hv'.
    apply verify_edge_argument_ok; [done| |done]. by eapply Hin.
  - intros c' [Hv' Hall]. split; [done|]. rewrite Forall_forall in Hall.
    apply Forall2_same_length_lookup_2; [done|]. intros i v p Hi Hp.
    destruct (Hall (i, v)) as (q & Hq & Ht); [by apply elem_of_lookup_imap_2|]. simpl in *. congruence.
Qed.

Lemma verify_edge_ok blk e k sites c :
  blk ∈ fn_blocks f → e ∈ trm_edges (blk_ending blk) → verified sites c →
  ensures (verify_edge (blk_id blk) e k c) (verified (sites ++ edge_sites (blk_id blk) k e)).
Proof.
  intros Hblk He Hv. pose proof Hv as [Hok _]. unfold verify_edge.
  rewrite (body_blocks _ Hok), (body_value _ Hok).
  destruct (B !! edge_target e) as [target|] eqn:Ht; [|apply ensures_reader_error].
  eapply ensures_bind; [apply ensures_when|]. intros [] Hne%N.eqb_neq.
  eapply ensures_bind; [apply ensures_when|]. intros [] Hlen.
  apply negb_false_iff, Nat.eqb_eq in Hlen.
  assert (blk_id blk ∈ map blk_id (fn_blocks f)) as Hid by (apply list_elem_of_fmap; by exists blk).
  eapply ensures_bind.
  - apply (verify_edge_arguments_ok _ (blk_parameters target) _ _ _ _ Hid Hlen Hv).
  - intros c' [Hv' Htyped]. apply ensures_Ok. unfold edge_sites.
    change [connected (blk_id blk) (edge_target e); passed e] with ([connected (blk_id blk) (edge_target e)] ++ [passed e]).
    rewrite !app_assoc. enough (verified ((sites ++ map used (edge_uses (blk_id blk) k e)) ++ [connected (blk_id blk) (edge_target e)])
              (add_edge (blk_id blk) (edge_target e) c')) as Hadd.
    { destruct Hadd as [Hb Hs]. split; [done|]. apply Forall_app. split; [done|]. apply Forall_singleton.
      by exists target. }
    apply add_edge_ok; [|by eapply elem_of_dom_2|done|].
    + by exists blk, e.
    + unfold edge_uses. rewrite map_used_singletons.
      by rewrite (map_imap_pair (λ v, [used (mk_use v (blk_id blk) k)])) in Hv'.
Qed.

Lemma verify_block_instruction_ok blk item sites c :
  blk ∈ fn_blocks f → verified sites c →
  ensures (verify_block_instruction legal (blk_id blk) item c)
    (verified (sites ++ instruction_sites (blk_id blk) item)).
Proof.
  destruct item as [k i]. intros Hblk Hv. unfold verify_block_instruction, instruction_sites. simpl.
  assert (blk_id blk ∈ map blk_id (fn_blocks f)) as Hid by (apply list_elem_of_fmap; by exists blk).
  eapply ensures_bind.
  { apply (ensures_collect verified (λ v, [used (mk_use v (blk_id blk) (Z.of_nat k))])); [|exact Hv].
    intros v sites' c' _. by apply register_use_ok. }
  intros c' Hv'. rewrite <-map_used_singletons in Hv'.
  assert (verify_instruction legal c' i = verify_instruction legal (core_context index f) i) as Hcore.
  { destruct Hv' as [[Hi Hf _ Hd _ _ _] _]. destruct c'. simpl in *. subst.
    apply verify_instruction_core. }
  rewrite Hcore.
  eapply (ensures_bind _ _ (λ e, verify_instruction legal (core_context index f) i = Ok e)).
  { split; [|done]. apply verify_instruction_defined. intros id d Hd. simpl in Hd.
    apply elem_of_list_to_map_2 in Hd. rewrite Forall_forall in supported.
    by specialize (supported _ Hd). }
  intros e He. eapply ensures_bind; [apply ensures_when|]. intros [] Hloc. apply ensures_Ok.
  rewrite app_assoc. apply add_effects_ok; [done|]. exists e. split_and!; [done| |].
  - apply effects_within_lor_r; reflexivity.
  - intros Hn. rewrite Hn in Hloc. simpl in Hloc. by apply negb_false_iff in Hloc.
Qed.

Lemma verify_return_ok blk k sites c :
  blk ∈ fn_blocks f → verified sites c →
  ensures (verify_return blk k c) (λ c',
    trm_edges (blk_ending blk) = [] ∧ trm_condition (blk_ending blk) = None ∧
    verified (sites ++ map used (option_use (blk_id blk) k (trm_return_value (blk_ending blk))) ++
      option_type (trm_return_value (blk_ending blk)) (fn_result_type f)) c').
Proof.
  intros Hblk Hv. unfold verify_return.
  assert (blk_id blk ∈ map blk_id (fn_blocks f)) as Hid by (apply list_elem_of_fmap; by exists blk).
  eapply ensures_bind; [apply ensures_when|]. intros [] Hc. apply orb_false_iff in Hc as [He Hcond].
  destruct (trm_edges (blk_ending blk)); [|done]. destruct (trm_condition (blk_ending blk)); [done|].
  destruct (is_void _).
  - eapply ensures_bind; [apply ensures_when|]. intros [] Hr.
    destruct (trm_return_value (blk_ending blk)); [done|]. apply ensures_Ok. simpl.
    by rewrite app_nil_r.
  - destruct (trm_return_value (blk_ending blk)) as [v|]; [|apply ensures_reader_error].
    eapply ensures_bind; [by apply register_use_ok|]. intros c' Hv'.
    eapply ensures_bind; [apply ensures_definition_type|]. intros t [_ Ht]%(verified_type _ _ _ _ Hv').
    eapply ensures_bind; [apply ensures_when|]. intros _ ->%negb_false_iff%same_type_Ok. apply ensures_Ok.
    by rewrite (body_value _ (proj1 Hv')), <-app_assoc in Ht.
Qed.

Lemma verify_terminator_shaped blk c c' :
  ctx_value c = f → verify_terminator blk c = Ok c' → terminator_shaped (blk_ending blk).
Proof.
  intros Hf. unfold verify_terminator, terminator_shaped. rewrite seq_Ok_iff. intros [_ Ht].
  destruct (trm_tag (blk_ending blk)).
  - rewrite seq_Ok_iff, fail_when_Ok, !orb_false_iff, negb_false_iff in Ht. destruct Ht as [[[Hs%Nat.eqb_eq _] _] _].
    destruct (trm_edges (blk_ending blk)) as [|e [|]]; [done|by eexists|done].
  - rewrite seq_Ok_iff, fail_when_Ok, !orb_false_iff, !negb_false_iff in Ht. destruct Ht as [[[Hs%Nat.eqb_eq Hc] _] _].
    destruct (trm_condition (blk_ending blk)) as [v|]; [|done].
    destruct (trm_edges (blk_ending blk)) as [|e1 [|e2 [|]]]; [done|done|by eexists _, _, _|done].
  - unfold verify_return in Ht. rewrite Hf in Ht. apply seq_Ok_iff in Ht as [_ Ht]. destruct (is_void _).
    + rewrite seq_Ok_iff, fail_when_Ok in Ht. by destruct Ht as [-> _].
    + by destruct (trm_return_value (blk_ending blk)).
  - rewrite seq_Ok_iff, fail_when_Ok, !orb_false_iff, negb_false_iff in Ht. destruct Ht as [[[[[[He _] _] _] _] _] _].
    by destruct (trm_edges (blk_ending blk)).
Qed.

Lemma verify_terminator_ok blk sites c :
  blk ∈ fn_blocks f → verified sites c →
  ensures (verify_terminator blk c) (verified (sites ++ terminator_sites blk)).
Proof.
  intros Hblk Hv.
  enough (ensures (verify_terminator blk c) (λ c', ∃ sites', terminator_sites blk = sites' ++ [ended (blk_ending blk)] ∧
    verified (sites ++ sites') c')) as [Hd Hs].
  { split; [done|]. intros c' Hc'. destruct (Hs c' Hc') as (sites' & -> & Hv'). rewrite app_assoc. apply verified_fact; [|done].
    intros ?. eapply verify_terminator_shaped; [apply Hv|exact Hc']. }
  unfold terminator_sites. rewrite !app_assoc. eapply ensures_weaken; [|intros c' Hc'; eexists; split; [reflexivity|exact Hc']].
  rewrite <-!app_assoc. unfold verify_terminator.
  set (k := Z.of_nat (length (blk_instructions blk))).
  assert (blk_id blk ∈ map blk_id (fn_blocks f)) as Hid by (apply list_elem_of_fmap; by exists blk).
  assert (∀ e c sites, e ∈ trm_edges (blk_ending blk) → verified sites c →
    ensures (verify_edge (blk_id blk) e k c) (verified (sites ++ edge_sites (blk_id blk) k e))) as Hedge
    by (intros; by apply verify_edge_ok).
  eapply ensures_bind; [apply ensures_true, verify_location_defined|]. intros _ _.
  destruct (trm_tag (blk_ending blk)) eqn:Htag; cbn [tag_eqb].
  - eapply ensures_bind; [apply ensures_when|]. intros [] Hc. rewrite !orb_false_iff in Hc.
    destruct Hc as [[Hsize%negb_false_iff%Nat.eqb_eq Hcond] Hret].
    destruct (trm_condition (blk_ending blk)); [done|].
    destruct (trm_return_value (blk_ending blk)); [done|].
    destruct (trm_edges (blk_ending blk)) as [|e [|]]; [done| |done]. simpl. rewrite !app_nil_r.
    apply Hedge; [set_solver|done].
  - eapply ensures_bind; [apply ensures_when|]. intros [] Hc. rewrite !orb_false_iff in Hc.
    destruct Hc as [[Hsize%negb_false_iff%Nat.eqb_eq Hcond] Hret].
    destruct (trm_condition (blk_ending blk)) as [v|]; [|done].
    destruct (trm_return_value (blk_ending blk)); [done|].
    destruct (trm_edges (blk_ending blk)) as [|e1 [|e2 [|]]]; [done|done| |done].
    cbn [deref]. rewrite bind_Ok.
    eapply ensures_bind; [by apply register_use_ok|]. intros c0 Hv0.
    eapply ensures_bind; [apply ensures_definition_type|]. intros t [_ Hv1]%(verified_type _ _ _ _ Hv0).
    eapply ensures_bind; [apply ensures_when|]. intros _ ->%negb_false_iff%same_type_Ok.
    unfold element; cbn [lookup list_lookup]; rewrite !bind_Ok.
    eapply ensures_bind; [apply Hedge; [set_solver|exact Hv1]|]. intros c2 Hv2.
    rewrite !bind_Ok. eapply ensures_weaken; [apply Hedge; [set_solver|exact Hv2]|].
    intros c3. simpl. by rewrite !app_nil_r, <-!app_assoc.
  - eapply ensures_weaken; [by apply verify_return_ok|].
    intros c' (-> & -> & Hv'). simpl. by rewrite !app_nil_r.
  - eapply ensures_bind; [apply ensures_when|]. intros [] Hc. rewrite !orb_false_iff in Hc.
    destruct Hc as [[[[[He Hcond] Hret] _] _] _].
    destruct (trm_condition (blk_ending blk)); [done|].
    destruct (trm_return_value (blk_ending blk)); [done|].
    destruct (trm_edges (blk_ending blk)); [|done]. apply ensures_Ok. simpl.
    apply add_effects_ok; [done|]. apply effects_within_lor_r; reflexivity.
Qed.

Lemma verify_block_ok blk sites c :
  blk ∈ fn_blocks f → verified sites c →
  ensures (verify_block legal blk c) (verified (sites ++ block_sites blk)).
Proof.
  intros Hblk Hv. unfold verify_block, block_sites. eapply ensures_bind.
  - apply (ensures_collect verified (instruction_sites (blk_id blk))); [|exact Hv].
    intros item sites' c' _. by apply verify_block_instruction_ok.
  - intros c' Hv'. rewrite app_assoc. by apply verify_terminator_ok.
Qed.

Lemma verify_function_blocks_ok c :
  verified [] c → ensures (for_state (fn_blocks f) c (verify_block legal)) (verified function_sites).
Proof.
  intros Hv. apply (ensures_collect verified block_sites _ _ [] c); [|done].
  intros blk sites c' Hblk. by apply verify_block_ok.
Qed.
End body.

(** ** The context of a whole body *)

Lemma index_of_dom {K A V} `{Countable K} (key : A → K) (value : A → V) l (m : gmap K V) :
  dom (index_of key value l m) = dom m ∪ list_to_set (map key l).
Proof.
  unfold index_of. revert m. induction l as [|x l IH]; intros m; simpl; [set_solver|].
  rewrite IH. unfold try_emplace. destruct (m !! key x) eqn:Hx; [|rewrite dom_insert_L; set_solver].
  apply elem_of_dom_2 in Hx. set_solver.
Qed.

Lemma NoDup_size {A} `{Countable A} (l : list A) :
  size (list_to_set l : gset A) = length l → NoDup l.
Proof.
  induction l as [|x l IH]; [constructor|]. rewrite list_to_set_cons, length_cons. intros Hs.
  assert (size (list_to_set l : gset A) <= length l)%nat as Hle.
  { clear. induction l as [|y l IH]; [rewrite list_to_set_nil, size_empty; lia|].
    rewrite list_to_set_cons, size_union_alt, size_singleton, length_cons.
    assert (size (list_to_set l ∖ {[y]} : gset A) <= size (list_to_set l : gset A))%nat
      by (apply subseteq_size; set_solver). lia. }
  destruct (decide (x ∈ l)) as [Hx|Hx].
  - replace ({[x]} ∪ list_to_set l : gset A) with (list_to_set l : gset A) in Hs
      by (apply set_eq; set_solver). lia.
  - constructor; [done|]. apply IH. rewrite size_union, size_singleton in Hs by set_solver. lia.
Qed.

Section functions.
Variable legal : list byte → bool.
Variable index : module_verification_index.
Variable f : function.

Notation ids := (map blk_id (fn_blocks f)).
Notation entry := (fn_entry_block f).

Definition block_map : gmap N block := index_of blk_id id (fn_blocks f) ∅.

Lemma block_map_dom : dom block_map = list_to_set ids.
Proof. unfold block_map. rewrite index_of_dom. set_solver. Qed.

(** What [verify_blocks_and_uses] leaves. *)
Record body_context (c : function_context) : Prop := {
  bc_unique_blocks : NoDup ids;
  bc_entry : ∃ rest first, fn_blocks f = first :: rest ∧ blk_id first = entry;
  bc_unique_definitions : NoDup (map fst (function_definitions f));
  bc_supported : Forall supported_definition (function_definitions f);
  bc_verified : verified legal index f block_map (function_sites f) c;
}.

Lemma verify_entry_defined ds c :
  registered index f block_map ds c → entry ∈ ids → defined (verify_entry c).
Proof.
  intros [-> _ _] He. unfold verify_entry. cbn [ctx_blocks ctx_value].
  assert (entry ∈ dom block_map) as Hd by (rewrite block_map_dom; set_solver).
  apply elem_of_dom in Hd as [b Hb]. rewrite Hb, bind_Ok.
  apply defined_bind; [auto with defined_db|]. intros [] Hsize%fail_when_Ok.
  apply negb_false_iff, Nat.eqb_eq in Hsize.
  apply for_each_defined, Forall_forall. intros [i p] (j & p' & [= -> ->] & Hj)%elem_of_lookup_imap.
  apply defined_bind; [|auto with defined_db]. apply element_defined. rewrite <-Hsize.
  by eapply lookup_lt_Some.
Qed.

Lemma registered_verified ds c :
  ds = function_definitions f → registered index f block_map ds c →
  verified legal index f block_map [] c.
Proof.
  intros -> [-> _ _]. split; [|constructor]. split; try done; unfold flow, predecessors_of, successors_of;
    simpl; set_solver.
Qed.

Lemma verify_blocks_and_uses_ok :
  ensures (verify_blocks_and_uses legal (new_context index f)) body_context.
Proof.
  unfold verify_blocks_and_uses. cbn [ctx_value new_context ctx_blocks set_blocks].
  fold block_map.
  eapply ensures_bind; [apply ensures_when|]. intros [] Hsize. apply negb_false_iff, Nat.eqb_eq in Hsize.
  rewrite <-size_dom, block_map_dom, <-(length_map blk_id) in Hsize. apply NoDup_size in Hsize as Hunique.
  eapply ensures_bind; [apply ensures_when|]. intros [] Hentry. apply orb_false_iff in Hentry as [Hne Hentry].
  destruct (fn_blocks f) as [|first rest] eqn:Hblocks; [done|]. cbn [front]. rewrite bind_Ok.
  eapply ensures_bind; [apply ensures_when|]. intros [] Hfirst.
  apply negb_false_iff, N.eqb_eq in Hfirst.
  eapply ensures_bind.
  { apply (register_definitions_ok index f block_map). split; [|constructor|constructor].
    unfold block_map. by rewrite Hblocks. }
  intros c Hc. eapply ensures_bind.
  { apply ensures_true. eapply verify_entry_defined; [exact Hc|]. rewrite Hblocks, <-Hfirst. set_solver. }
  intros _ _. rewrite <-Hblocks. eapply ensures_weaken.
  { apply (verify_function_blocks_ok legal index f block_map); [apply Hc|].
    by eapply registered_verified. }
  intros c' Hv. split; [by rewrite Hblocks|by exists rest, first|apply Hc|apply Hc|done].
Qed.

(** *** The graph of the context is the graph of the function *)

Lemma holds_sites c b s :
  verified legal index f block_map (function_sites f) c → b ∈ fn_blocks f → s ∈ block_sites f b →
  holds legal index f block_map c s.
Proof.
  intros [_ Hs] Hb Hin. rewrite Forall_forall in Hs. apply Hs. unfold function_sites.
  apply list_elem_of_In, in_concat. exists (block_sites f b).
  split; [|by apply list_elem_of_In]. apply list_elem_of_In, list_elem_of_fmap. by exists b.
Qed.

Lemma elem_of_concat_map {A B} (g : A → list B) l x y : x ∈ l → y ∈ g x → y ∈ concat (map g l).
Proof.
  intros Hx Hy. apply list_elem_of_In, in_concat. exists (g x).
  split; [|by apply list_elem_of_In]. apply in_map. by apply list_elem_of_In.
Qed.

Lemma elem_of_concat_map_inv {A B} (g : A → list B) l y : y ∈ concat (map g l) → ∃ x, x ∈ l ∧ y ∈ g x.
Proof.
  intros (ys & (x & <- & Hx)%in_map_iff & Hy)%list_elem_of_In%in_concat. exists x.
  split; by apply list_elem_of_In.
Qed.

Lemma site_edge b e : e ∈ trm_edges (blk_ending b) → connected (blk_id b) (edge_target e) ∈ block_sites f b.
Proof.
  intros He. unfold block_sites, terminator_sites. rewrite !elem_of_app. do 5 right. left.
  eapply elem_of_concat_map; [exact He|]. unfold edge_sites. set_solver.
Qed.

Lemma site_passed b e : e ∈ trm_edges (blk_ending b) → passed e ∈ block_sites f b.
Proof.
  intros He. unfold block_sites, terminator_sites. rewrite !elem_of_app. do 5 right. left.
  eapply elem_of_concat_map; [exact He|]. unfold edge_sites. set_solver.
Qed.

Lemma site_condition b v : trm_condition (blk_ending b) = Some v → of_type v bool_type ∈ block_sites f b.
Proof.
  intros Hv. unfold block_sites, terminator_sites. rewrite !elem_of_app, Hv. do 2 right. left. by apply list_elem_of_singleton.
Qed.

Lemma site_return b v : trm_return_value (blk_ending b) = Some v → of_type v (fn_result_type f) ∈ block_sites f b.
Proof.
  intros Hv. unfold block_sites, terminator_sites. rewrite !elem_of_app, Hv. do 4 right. left. by apply list_elem_of_singleton.
Qed.

Lemma site_checked b i : i ∈ blk_instructions b → checked i ∈ block_sites f b.
Proof.
  intros [k Hk]%list_elem_of_lookup. unfold block_sites. rewrite elem_of_app. left.
  eapply elem_of_concat_map; [eapply elem_of_lookup_imap_2; exact Hk|].
  unfold instruction_sites. set_solver.
Qed.

Lemma site_used b u : u ∈ block_uses b → used u ∈ block_sites f b.
Proof.
  unfold block_uses, terminator_uses, block_sites, terminator_sites. rewrite !elem_of_app.
  intros [([k i] & Hi & Hu)%elem_of_concat_map_inv|[Hu|[Hu|(e & He & Hu)%elem_of_concat_map_inv]]].
  - left. eapply elem_of_concat_map; [exact Hi|]. unfold instruction_sites. apply elem_of_app. left.
    by apply (list_elem_of_fmap_2 used).
  - right. left. by apply (list_elem_of_fmap_2 used).
  - do 3 right. left. by apply (list_elem_of_fmap_2 used).
  - do 5 right. left. eapply elem_of_concat_map; [exact He|]. unfold edge_sites.
    apply elem_of_app. left. by apply (list_elem_of_fmap_2 used).
Qed.

Lemma definition_block v d : (v, d) ∈ function_definitions f → entry ∈ ids → def_block d ∈ ids.
Proof.
  intros Hd He. unfold function_definitions in Hd. apply elem_of_app in Hd as [Hd|Hd].
  - unfold root_definitions in Hd. destruct (fn_unsafe_root f); [|set_solver].
    apply list_elem_of_singleton in Hd. by inversion Hd.
  - apply elem_of_concat_map_inv in Hd as (b & Hb & Hd).
    assert (def_block d = blk_id b) as ->; [|apply list_elem_of_fmap; by exists b].
    unfold block_definitions in Hd. apply elem_of_app in Hd as [Hd|Hd].
    + apply list_elem_of_fmap in Hd as (p & Hp & _). by inversion Hp.
    + apply elem_of_concat_map_inv in Hd as ([k i] & _ & Hd).
      unfold instruction_definitions in Hd. apply list_elem_of_fmap in Hd as (r & Hr & _).
      by inversion Hr.
Qed.

Section context.
Variable c : function_context.
Hypothesis Hc : body_context c.

Let Hok : body_ok index f block_map c := proj1 (bc_verified _ Hc).

Lemma entry_block : entry ∈ ids.
Proof. destruct (bc_entry _ Hc) as (rest & first & -> & <-). simpl. left. Qed.

Lemma context_flow a b : flow c a b ↔ cfg_edge f a b.
Proof.
  split; [intros H; by apply (body_flow _ _ _ _ Hok) in H as [? _]|].
  intros (b' & e & Hb & <- & He & <-).
  by apply (holds_sites c b' (connected (blk_id b') (edge_target e)) (bc_verified _ Hc) Hb), site_edge.
Qed.

Lemma context_blocks_ok : blocks_ok c.
Proof.
  split; rewrite (body_value _ _ _ _ Hok); [apply Hc|].
  rewrite (body_blocks _ _ _ _ Hok). apply block_map_dom.
Qed.

Lemma cfg_edge_source a b : cfg_edge f a b → a ∈ ids.
Proof. intros (b' & _ & Hb & <- & _). apply list_elem_of_fmap. by exists b'. Qed.

Lemma context_blocks b : b ∈ dom (ctx_blocks c) ↔ b ∈ ids.
Proof. rewrite (body_blocks _ _ _ _ Hok), block_map_dom. apply elem_of_list_to_set. Qed.

Lemma context_flow_ok : flow_ok c.
Proof.
  split.
  - rewrite context_blocks, (body_value _ _ _ _ Hok). apply entry_block.
  - apply Hok.
  - intros a b Hab. rewrite !context_blocks, (body_value _ _ _ _ Hok). pose proof Hab as Hf.
    apply (body_flow _ _ _ _ Hok) in Hf as (He & Hb & Hne). split_and!; [by eapply cfg_edge_source| |done].
    rewrite block_map_dom in Hb. by apply elem_of_list_to_set in Hb.
Qed.

Lemma context_uses_ok : uses_ok c.
Proof.
  intros u Hu. apply (body_uses _ _ _ _ Hok) in Hu as [Hb [d Hd]]. rewrite context_blocks.
  split; [done|]. exists d. rewrite (body_definitions _ _ _ _ Hok), context_blocks. split; [done|].
  apply elem_of_list_to_map_2 in Hd. eapply definition_block; [exact Hd|apply entry_block].
Qed.

Lemma path_flow a l b : path (flow c) a l b ↔ path (cfg_edge f) a l b.
Proof.
  split; induction 1 as [|x y l z Hxy _ IH]; econstructor; try done; by apply context_flow.
Qed.

Lemma rtc_flow a b : rtc (flow c) a b ↔ rtc (cfg_edge f) a b.
Proof. split; induction 1 as [|x y z Hxy _ IH]; econstructor; try done; by apply context_flow. Qed.
End context.

(** *** What an accepted body is *)

(** A definition reaches a use: it comes first in the same block, or its block is
    on every path from the entry. *)
Definition reaches (d : definition) (u : use_site) : Prop :=
  if def_block d =? use_block u then (def_instruction d < use_instruction u ∨ def_instruction d < 0)%Z
  else ∀ l, path (cfg_edge f) entry l (use_block u) → def_block d ∈ l.

Definition checked_instruction (i : instruction) : Prop :=
  ∃ e, verify_instruction legal (core_context index f) i = Ok e ∧ effects_within e (fn_effects f) ∧
    (needs_location (ins_opcode i) e = true → has_value (ins_location i) = true).

Record well_formed_body : Prop := {
  wfb_blocks : NoDup ids;
  wfb_entry : head ids = Some entry;
  wfb_order : in_order (cfg_edge f) ids;
  wfb_edges a b : cfg_edge f a b → b ∈ ids ∧ b ≠ entry;
  wfb_arguments b e target : b ∈ fn_blocks f → e ∈ trm_edges (blk_ending b) → target ∈ fn_blocks f →
    blk_id target = edge_target e → arguments_typed f e target;
  wfb_ending b : b ∈ fn_blocks f → terminator_shaped f (blk_ending b);
  wfb_condition b v : b ∈ fn_blocks f → trm_condition (blk_ending b) = Some v → value_typed f v bool_type;
  wfb_return b v : b ∈ fn_blocks f → trm_return_value (blk_ending b) = Some v → value_typed f v (fn_result_type f);
  wfb_reachable b : b ∈ ids → rtc (cfg_edge f) entry b;
  wfb_definitions : NoDup (map fst (function_definitions f));
  wfb_supported : Forall supported_definition (function_definitions f);
  wfb_ssa u : u ∈ function_uses f →
    ∃ d, (use_value u, d) ∈ function_definitions f ∧ reaches d u;
  wfb_instructions b i : b ∈ fn_blocks f → i ∈ blk_instructions b → checked_instruction i;
  wfb_panics b : b ∈ fn_blocks f → trm_tag (blk_ending b) = NERI_IR_TERMINATOR_PANIC_V1 →
    effects_within NERI_IR_EFFECT_MAY_PANIC_V1 (fn_effects f);
  wfb_noreturn : existsb returns_block (fn_blocks f) = (N.land (fn_effects f) NERI_IR_EFFECT_NO_RETURN_V1 =? 0);
}.

Lemma verify_effects_ok c :
  ctx_value c = f →
  ensures (verify_effects c) (λ _, effects_within (ctx_required_effects c) (fn_effects f) ∧
    existsb returns_block (fn_blocks f) = (N.land (fn_effects f) NERI_IR_EFFECT_NO_RETURN_V1 =? 0)).
Proof.
  intros <-. unfold verify_effects.
  eapply ensures_bind; [apply ensures_when|]. intros [] Hm. apply negb_false_iff, N.eqb_eq in Hm.
  eapply ensures_bind; [apply ensures_when|]. intros [] H1.
  eapply ensures_weaken; [apply ensures_when|]. intros [] H2. split; [done|].
  by destruct (existsb _ _), (_ =? 0).
Qed.

Lemma verify_debug_defined c : defined (verify_debug c).
Proof.
  unfold verify_debug. apply defined_bind.
  - apply (for_state_defined (λ _, True)); [|done]. intros scope [scopes previous] _ _.
    split; [|done]. unfold verify_debug_scope.
    apply defined_bind; [apply verify_location_defined|]. intros _ _.
    apply defined_bind; [auto with defined_db|done].
  - intros [scopes previous] _. apply defined_bind; [auto with defined_db|]. intros _ _.
    apply defined_bind.
    + apply for_each_defined, Forall_forall. intros b _. unfold verify_scope_references.
      apply defined_bind; [|auto with defined_db]. apply for_each_defined, Forall_forall.
      auto with defined_db.
    + intros _ _. apply defined_bind; [|done]. apply (for_state_defined (λ _, True)); [|done].
      intros l [values last] _ _. split; [|done]. unfold verify_debug_local.
      apply defined_bind; [apply verify_location_defined|]. intros _ _.
      apply defined_bind; [auto with defined_db|]. intros _ _.
      apply defined_bind; [auto with defined_db|done].
Qed.

Lemma dominates_reaches c u d :
  body_context c → defined_before c u d → reaches d u.
Proof.
  intros Hc. unfold defined_before, reaches.
  destruct (N.eqb_spec (def_block d) (use_block u)) as [|Hne]; [done|].
  intros Hd l Hl. unfold dominates in Hd.
  rewrite (body_value _ _ _ _ (proj1 (bc_verified _ Hc))) in Hd.
  apply (path_flow c Hc) in Hl. specialize (Hd l Hl). set_solver.
Qed.

Lemma reachable_predecessor c b :
  body_context c → b ≠ entry_of c → reachable c b → predecessors_of c b ≠ [].
Proof.
  intros Hc Hne [Heq|(y & _ & Hy)]%rtc_inv_r; [by subst|].
  apply (flow_predecessors _ (context_flow_ok c Hc)) in Hy. intros Hnil. rewrite Hnil in Hy. set_solver.
Qed.

(** What the last four checks leave, given what the first one leaves. *)
Lemma body_context_well_formed c :
  body_context c → in_order (cfg_edge f) ids → (∀ b, b ∈ dom (ctx_blocks c) → reachable c b) →
  (∀ u, u ∈ ctx_uses c → ∃ d, ctx_definitions c !! use_value u = Some d ∧ defined_before c u d) →
  effects_within (ctx_required_effects c) (fn_effects f) →
  existsb returns_block (fn_blocks f) = (N.land (fn_effects f) NERI_IR_EFFECT_NO_RETURN_V1 =? 0) →
  well_formed_body.
Proof.
  intros Hc Horder Hreach Hdom Heff Hret. pose proof (proj1 (bc_verified _ Hc)) as Hok.
  pose proof (holds_sites c) as Hsite. split; try done; try apply Hc.
  - destruct (bc_entry _ Hc) as (rest & first & -> & <-). done.
  - intros a b Hab. apply (context_flow c Hc) in Hab.
    apply (flow_blocks _ (context_flow_ok c Hc)) in Hab as (_ & Hb & Hne).
    rewrite (context_blocks c Hc) in Hb. by rewrite (body_value _ _ _ _ Hok) in Hne.
  - intros b e target Hb He Ht Hid.
    destruct (Hsite b (passed e) (bc_verified _ Hc) Hb (site_passed _ _ He)) as (target' & Ht' & Hlen).
    rewrite <-Hid in Ht'. unfold block_map in Ht'. rewrite index_of_empty, option_fmap_id in Ht'.
    rewrite (find_key_unique blk_id (fn_blocks f) target (bc_unique_blocks _ Hc) Ht) in Ht'. by injection Ht' as <-.
  - intros b Hb. apply (Hsite b (ended (blk_ending b)) (bc_verified _ Hc) Hb). unfold block_sites, terminator_sites.
    rewrite !elem_of_app. do 7 right. by apply list_elem_of_singleton.
  - intros b v Hb Hv. apply (Hsite b (of_type v bool_type) (bc_verified _ Hc) Hb). by apply site_condition.
  - intros b v Hb Hv. apply (Hsite b (of_type v (fn_result_type f)) (bc_verified _ Hc) Hb). by apply site_return.
  - intros b Hb. apply (rtc_flow c Hc). rewrite <-(body_value _ _ _ _ Hok).
    apply Hreach. by apply (context_blocks c Hc).
  - intros u (b & Hb & Hu)%elem_of_concat_map_inv.
    specialize (Hsite b (used u) (bc_verified _ Hc) Hb (site_used _ _ Hu)).
    apply Hdom in Hsite as (d & Hd & Hbefore). exists d.
    rewrite (body_definitions _ _ _ _ Hok) in Hd. apply elem_of_list_to_map_2 in Hd.
    split; [done|]. by eapply dominates_reaches.
  - intros b i Hb Hi.
    destruct (Hsite b (checked i) (bc_verified _ Hc) Hb (site_checked _ _ Hi)) as (e & He & Hw & Hl).
    exists e. split_and!; [done| |done]. by etransitivity.
  - intros b Hb Htag. etransitivity; [|exact Heff].
    apply (Hsite b panics (bc_verified _ Hc) Hb). unfold block_sites, terminator_sites.
    rewrite Htag. rewrite !elem_of_app. do 6 right. left. simpl. left.
Qed.

Lemma verify_body_ok : ensures (verify_body legal index f) (λ _, well_formed_body).
Proof.
  unfold verify_body. eapply ensures_bind; [apply verify_blocks_and_uses_ok|]. intros c Hc.
  pose proof (proj1 (bc_verified _ Hc)) as Hok. pose proof (context_flow_ok c Hc) as Hflow.
  destruct (verify_canonical_cfg_exact c Hflow (context_blocks_ok c Hc)) as (Hcd & Hci & Hcr).
  eapply ensures_bind; [apply ensures_true, verify_debug_defined|]. intros _ _.
  eapply (ensures_bind _ _ (λ _, in_order (cfg_edge f) ids ∧ ∀ b, b ∈ dom (ctx_blocks c) → reachable c b)).
  { split; [done|]. intros [] Hok'. split; [|by apply Hcr]. apply Hci in Hok'.
    apply discover_in_order in Hok'; [|done|by left]. rewrite (body_value _ _ _ _ Hok) in Hok'.
    intros k b Hb Hk. destruct (Hok' k b Hb Hk) as (j & a & ? & ? & ?). exists j, a. by rewrite <-(context_flow c Hc). }
  intros [] [Horder Hreach].
  destruct (verify_dominance_exact c Hflow) as [Hdd Hde].
  { intros b Hb Hne. by apply reachable_predecessor, Hreach. }
  { by apply context_uses_ok. }
  eapply (ensures_bind _ _ (λ _, ∀ u, u ∈ ctx_uses c →
    ∃ d, ctx_definitions c !! use_value u = Some d ∧ defined_before c u d)).
  { split; [done|]. intros []. apply Hde. }
  intros [] Hdom. eapply ensures_weaken; [apply verify_effects_ok, Hok|].
  intros [] [Heff Hret]. by apply (body_context_well_formed c).
Qed.

Lemma verify_export_defined m : defined (verify_export m f).
Proof.
  unfold verify_export. destruct (String.eqb _ _); [done|].
  apply defined_bind; auto with defined_db.
Qed.

Lemma verify_signature_defined : defined (verify_signature index f).
Proof.
  unfold verify_signature. do 4 (apply defined_bind; [auto with defined_db|intros _ _]).
  apply defined_bind.
  { destruct (fn_declaring_class f); [|done]. apply defined_bind; [auto with defined_db|].
    intros _ _. destruct (_ || _); auto with defined_db. }
  intros _ _. apply defined_bind; [auto with defined_db|]. intros _ _.
  apply defined_bind.
  { apply for_each_defined, Forall_forall. intros t _. apply require_declared_type_defined. }
  intros _ _. apply defined_bind; [apply require_result_type_defined|]. intros _ _.
  destruct (is_void _); [done|]. apply require_declared_type_defined.
Qed.

Lemma verify_function_ok :
  ensures (verify_function legal index f) (λ _, fn_retained f = false → well_formed_body).
Proof.
  unfold verify_function.
  eapply ensures_bind; [apply ensures_true, verify_location_defined|]. intros _ _.
  eapply ensures_bind; [apply ensures_true, verify_export_defined|]. intros _ _.
  eapply ensures_bind; [apply ensures_true, verify_signature_defined|]. intros _ _.
  destruct (fn_retained f).
  - eapply ensures_weaken; [apply ensures_when|]. done.
  - eapply ensures_weaken; [apply verify_body_ok|]. done.
Qed.
End functions.

(** ** Properties *)

(** C4: A function with a body that passes [verify_function] is well formed: block
    identities are unique, the entry comes first and every other block after one of its
    predecessors, every edge goes to a block of
    the function other than the entry and passes one argument of the parameter's type for each parameter,
    terminators have the parts of their kind, conditions are booleans and returned values have the result type, every block is reachable, values are defined
    once and have supported types, every use is reached by its definition on every
    path from the entry, every instruction passed its check with effects inside the
    declared summary, and the noreturn bit says exactly that no block returns. *)
Theorem verified_function_well_formed legal index f :
  fn_retained f = false → verify_function legal index f = Ok tt → well_formed_body legal index f.
Proof. intros Hr Hv. by apply (proj2 (verify_function_ok legal index f) tt). Qed.

(** [verify_function] never reaches undefined behaviour, whatever the module index and
    the function: block, definition and dominator lookups, edge arguments and entry
    parameters are all in range when they are accessed. *)
Theorem verify_function_never_undefined legal index f : defined (verify_function legal index f).
Proof. eapply ensures_defined, verify_function_ok. Qed.

Lemma verified_function_well_formed_witness :
  well_formed_body (λ _, true) (module_index Sample.app) Sample.main_function.
Proof.
  apply (verified_function_well_formed (λ _, true) (module_index Sample.app) Sample.main_function);
    vm_compute; reflexivity.
Defined.

(** C7: The dominance computation is correct and ends within its budget: for a function
    whose blocks passed the structural checks, the iteration of [verify_dominance]
    reaches its fixpoint within [blocks * blocks + 1] passes, and the set it leaves
    for a block holds exactly the blocks that lie on every path from the entry to
    it. *)
Theorem dominators_exact legal index f c :
  verify_blocks_and_uses legal (new_context index f) = Ok c → verify_canonical_cfg c = Ok tt →
  ∃ d, dominance_loop (dominance_budget c) c true (initial_dominators c) = Ok (false, d) ∧
    ∀ b y, b ∈ map blk_id (fn_blocks f) → y ∈ map blk_id (fn_blocks f) →
      (y ∈ look d b ↔ ∀ l, path (cfg_edge f) (fn_entry_block f) l b → y ∈ l ++ [b]).
Proof.
  intros Hblocks Hcfg. apply (proj2 (verify_blocks_and_uses_ok legal index f)) in Hblocks as Hc.
  pose proof (context_flow_ok legal index f c Hc) as Hflow.
  destruct (verify_canonical_cfg_exact c Hflow (context_blocks_ok legal index f c Hc)) as (_ & _ & Hreach).
  destruct (dominance_correct c Hflow) as (d & Hrun & _ & Hexact).
  { intros b Hb Hne. by apply (reachable_predecessor legal index f), Hreach. }
  exists d. split; [done|]. intros b y Hb Hy.
  apply (context_blocks legal index f c Hc) in Hb, Hy. rewrite (Hexact b y Hb Hy). unfold dominates.
  rewrite (body_value _ _ _ _ (proj1 (bc_verified _ _ _ _ Hc))).
  split; intros H l Hl; apply H; by apply (path_flow legal index f c Hc).
Qed.

Definition sample_body : result function_context :=
  verify_blocks_and_uses (λ _, true) (new_context (module_index Sample.app) Sample.main_function).

Lemma ok_value {A} (m : result A) (d : A) :
  is_ok m = true → m = Ok match m with Ok a => a | Throw _ => d end.
Proof. by destruct m. Qed.

Definition sample_body_context : function_context :=
  match sample_body with Ok c => c | Throw _ => new_context (module_index Sample.app) Sample.main_function end.

Lemma dominators_exact_witness :
  ∃ d, dominance_loop (dominance_budget sample_body_context) sample_body_context true
         (initial_dominators sample_body_context) = Ok (false, d) ∧
    ∀ b y, b ∈ map blk_id (fn_blocks Sample.main_function) →
      y ∈ map blk_id (fn_blocks Sample.main_function) →
      (y ∈ look d b ↔ ∀ l, path (cfg_edge Sample.main_function) (fn_entry_block Sample.main_function) l b →
        y ∈ l ++ [b]).
Proof.
  refine (dominators_exact (λ _, true) (module_index Sample.app) Sample.main_function sample_body_context _ _).
  - apply ok_value. vm_compute. reflexivity.
  - vm_compute. reflexivity.
Defined.
