(* ===== verification/Execution.v ===== *)
(** * Executions of a verified body

    A step relation on the control flow of a function that records which values
    have been computed, and the proof that no execution of a verified body ever
    reads a value that has not been computed. *)

From S2P Require Import Prelude Domains IR Samples Reader Types Layout Index Instructions.
From S2P Require Import InstructionSafety InstructionTyping Functions Dominance Cfg Ssa.

Local Open Scope list_scope.
Local Open Scope N_scope.

(** The next instruction of a block and the values computed so far. *)
Record frame := mk_frame {
  fr_block : block;
  fr_next : nat;
  fr_values : gset N;
}.

Definition result_values (i : instruction) : gset N := list_to_set (map val_id (ins_results i)).
Definition parameter_values (b : block) : gset N := list_to_set (map par_id (blk_parameters b)).
Definition root_values (f : function) : gset N :=
  match fn_unsafe_root f with Some root => {[val_id root]} | None => ∅ end.

(** A call starts at the entry with its parameters and the capability root. *)
Inductive starts (f : function) : frame → Prop :=
| starts_entry b :
    b ∈ fn_blocks f → blk_id b = fn_entry_block f →
    starts f (mk_frame b 0 (root_values f ∪ parameter_values b)).

(** An instruction computes its results; a terminator takes one of its edges and binds
    the parameters of the target. *)
Inductive steps (f : function) : frame → frame → Prop :=
| step_instruction b k values i :
    blk_instructions b !! k = Some i →
    steps f (mk_frame b k values) (mk_frame b (S k) (result_values i ∪ values))
| step_edge b values e target :
    e ∈ trm_edges (blk_ending b) → target ∈ fn_blocks f → blk_id target = edge_target e →
    steps f (mk_frame b (length (blk_instructions b)) values)
      (mk_frame target 0 (parameter_values target ∪ values)).

Definition executes (f : function) (s : frame) : Prop := ∃ s0, starts f s0 ∧ rtc (steps f) s0 s.

(** The values the frame reads next: the operands of its instruction, or what its
    terminator uses once the instructions are done. *)
Definition reads_next (s : frame) : list N :=
  match blk_instructions (fr_block s) !! fr_next s with
  | Some i => ins_operands i
  | None => map use_value (terminator_uses (fr_block s))
  end.

Section execution.
Variable legal : list byte → bool.
Variable index : module_verification_index.
Variable f : function.
Hypothesis body : well_formed_body legal index f.

Notation entry := (fn_entry_block f).

Lemma block_unique b b' : b ∈ fn_blocks f → b' ∈ fn_blocks f → blk_id b = blk_id b' → b = b'.
Proof.
  intros Hb Hb' Hid. pose proof (find_key_unique blk_id (fn_blocks f) b (wfb_blocks _ _ _ body) Hb) as H1.
  pose proof (find_key_unique blk_id (fn_blocks f) b' (wfb_blocks _ _ _ body) Hb') as H2.
  rewrite Hid in H1. congruence.
Qed.

(** Where the definitions of a block are: before it or at one of its instructions. *)
Lemma definition_place b v d :
  b ∈ fn_blocks f → (v, d) ∈ function_definitions f → def_block d = blk_id b →
  ((v ∈ root_values f ∧ blk_id b = entry ∨ v ∈ parameter_values b) ∧ def_instruction d = (-1)%Z) ∨
  ∃ k i, blk_instructions b !! k = Some i ∧ v ∈ result_values i ∧ def_instruction d = Z.of_nat k.
Proof.
  intros Hb Hd Hid. unfold function_definitions in Hd. apply elem_of_app in Hd as [Hd|Hd].
  - left. unfold root_definitions in Hd. unfold root_values.
    destruct (fn_unsafe_root f); [|set_solver]. apply list_elem_of_singleton in Hd.
    injection Hd as -> ->. simpl in Hid. split; [left; set_solver|done].
  - apply elem_of_concat_map_inv in Hd as (b' & Hb' & Hd).
    unfold block_definitions in Hd. apply elem_of_app in Hd as [Hd|Hd].
    + left. apply list_elem_of_fmap in Hd as (p & Hp & Hin). injection Hp as -> ->. simpl in Hid.
      split; [right|done]. rewrite (block_unique b b') by congruence. unfold parameter_values.
      apply elem_of_list_to_set, list_elem_of_fmap. by exists p.
    + right. apply elem_of_concat_map_inv in Hd as ([k i] & Hk & Hd).
      unfold instruction_definitions in Hd. apply list_elem_of_fmap in Hd as (r & Hr & Hin).
      injection Hr as -> ->. simpl in Hid. rewrite (block_unique b b') by congruence.
      apply elem_of_lookup_imap in Hk as (k' & i' & [= -> ->] & Hk). exists k', i'.
      split_and!; [done| |done]. unfold result_values.
      apply elem_of_list_to_set, list_elem_of_fmap. by exists r.
Qed.

(** Along some path from the entry, every definition passed has been computed. *)
Record progress (s : frame) : Prop := {
  prog_block : fr_block s ∈ fn_blocks f;
  prog_here v d : (v, d) ∈ function_definitions f → def_block d = blk_id (fr_block s) →
    (def_instruction d < Z.of_nat (fr_next s))%Z → v ∈ fr_values s;
  prog_path : ∃ l, path (cfg_edge f) entry l (blk_id (fr_block s)) ∧
    ∀ v d, (v, d) ∈ function_definitions f → def_block d ∈ l → v ∈ fr_values s;
}.

Lemma starts_progress s : starts f s → progress s.
Proof.
  intros [b Hb Hid]. split; simpl; [done| |].
  - intros v d Hd Hblock Hlt.
    destruct (definition_place b v d Hb Hd Hblock) as [[[[? _]|?] _]|(k & i & _ & _ & Hk)];
      [set_solver|set_solver|lia].
  - exists []. rewrite Hid. split; [constructor|set_solver].
Qed.

Lemma step_progress s s' : steps f s s' → progress s → progress s'.
Proof.
  intros Hstep [Hb Hhere (l & Hp & Hl)].
  destruct Hstep as [b k values i Hi|b values e target He Ht Hid]; simpl in *.
  - split; simpl; [done| |].
    + intros v d Hd Hblock Hlt. apply elem_of_union.
      destruct (definition_place b v d Hb Hd Hblock) as [[_ Hpre]|(k' & i' & Hi' & Hv & Hk')].
      * right. apply (Hhere v d Hd Hblock). lia.
      * destruct (decide (k' = k)) as [->|Hne]; [left; congruence|]. right.
        apply (Hhere v d Hd Hblock). lia.
    + exists l. split; [done|]. intros v d Hd Hin. apply elem_of_union. right. eauto.
  - assert (cfg_edge f (blk_id b) (blk_id target)) as Hedge by by exists b, e.
    pose proof (wfb_edges _ _ _ body _ _ Hedge) as [_ Hne]. split; simpl; [done| |].
    + intros v d Hd Hblock Hlt. apply elem_of_union. left.
      destruct (definition_place target v d Ht Hd Hblock) as [[[[_ ?]|?] _]|(k & i & _ & _ & Hk)];
        [done|done|lia].
    + exists (l ++ [blk_id b]). split; [by eapply path_snoc|].
      intros v d Hd Hin. apply elem_of_union. right.
      apply elem_of_app in Hin as [Hin|Hin%list_elem_of_singleton]; [by eapply Hl|].
      apply (Hhere v d Hd Hin).
      destruct (definition_place b v d Hb Hd Hin) as [[_ Hpre]|(k & i & Hk & _ & Hn)]; [lia|].
      apply lookup_lt_Some in Hk. lia.
Qed.

Lemma executes_progress s : executes f s → progress s.
Proof.
  intros (s0 & Hstart & Hrun). apply starts_progress in Hstart. revert Hstart.
  induction Hrun as [|s0 s1 s2 Hstep _ IH]; [done|]. intros H. by apply IH, (step_progress s0).
Qed.

(** What the next reads of a frame are, as uses of the function. *)
Lemma reads_next_uses s v :
  fr_block s ∈ fn_blocks f → (fr_next s <= length (blk_instructions (fr_block s)))%nat →
  v ∈ reads_next s → mk_use v (blk_id (fr_block s)) (Z.of_nat (fr_next s)) ∈ function_uses f.
Proof.
  destruct s as [b k values]. simpl. intros Hb Hk Hv. apply (elem_of_concat_map _ _ b); [done|].
  unfold block_uses. apply elem_of_app. unfold reads_next in Hv. simpl in Hv.
  destruct (blk_instructions b !! k) as [i|] eqn:Hi.
  - left. apply (elem_of_concat_map _ _ (k, i)); [by apply elem_of_lookup_imap_2|].
    unfold instruction_uses. apply list_elem_of_fmap. by exists v.
  - right. apply lookup_ge_None in Hi. assert (k = length (blk_instructions b)) as -> by lia.
    apply list_elem_of_fmap in Hv as ([v' b' k'] & -> & Hu).
    replace (mk_use _ _ _) with (mk_use v' b' k'); [done|]. simpl. unfold terminator_uses in Hu.
    rewrite !elem_of_app in Hu. unfold option_use in Hu.
    destruct Hu as [Hu|[Hu|(e & _ & Hu)%elem_of_concat_map_inv]].
    + destruct (trm_condition _); [|set_solver]. by apply list_elem_of_singleton in Hu as [= -> -> ->].
    + destruct (trm_return_value _); [|set_solver]. by apply list_elem_of_singleton in Hu as [= -> -> ->].
    + by apply list_elem_of_fmap in Hu as (w & [= -> -> ->] & _).
Qed.

Lemma next_in_range s : executes f s → (fr_next s <= length (blk_instructions (fr_block s)))%nat.
Proof.
  intros (s0 & [b _ _] & Hrun). apply rtc_inv_r in Hrun as [<-|(s1 & _ & Hstep)]; [simpl; lia|].
  destruct Hstep as [b' k values i Hi|]; simpl; [apply lookup_lt_Some in Hi|]; lia.
Qed.

Lemma reads_are_computed s v : executes f s → v ∈ reads_next s → v ∈ fr_values s.
Proof.
  intros Hexec Hv. pose proof (executes_progress s Hexec) as [Hb Hhere (l & Hp & Hl)].
  apply (reads_next_uses s v Hb (next_in_range s Hexec)) in Hv.
  apply (wfb_ssa _ _ _ body) in Hv as (d & Hd & Hreach). unfold reaches in Hreach. simpl in *.
  destruct (N.eqb_spec (def_block d) (blk_id (fr_block s))) as [Heq|Hne].
  - apply (Hhere v d Hd Heq). lia.
  - apply (Hl v d Hd). by apply Hreach.
Qed.
End execution.

(** ** Properties *)

(** C5: No execution of an accepted function reads an undefined value: from any call,
    after any number of instructions and jumps, every operand of the next
    instruction, and everything the terminator uses when the block is done, has
    been computed on the way. *)
Theorem execution_reads_computed_values legal index f s v :
  fn_retained f = false → verify_function legal index f = Ok tt →
  executes f s → v ∈ reads_next s → v ∈ fr_values s.
Proof.
  intros Hr Hv. apply (reads_are_computed legal index f).
  by apply (proj2 (verify_function_ok legal index f) tt).
Qed.

(** The sample function after the branch to its call of [add]. *)
Definition sample_frame : frame :=
  mk_frame (mk_block 1 [] [Sample.call_add] (Sample.branch 3 [11])) 0 (list_to_set [10; 1; 2]).

Lemma sample_frame_executes : executes Sample.main_function sample_frame.
Proof.
  eexists. split; [eapply starts_entry; [left|reflexivity]|].
  eapply rtc_l; [eapply step_instruction; reflexivity|].
  eapply rtc_l; [eapply step_edge; [left|right; left|reflexivity]|].
  apply reflexive_eq. vm_compute. reflexivity.
Qed.

Lemma execution_reads_computed_values_witness : 2 ∈ fr_values sample_frame.
Proof.
  apply (execution_reads_computed_values (λ _, true) (module_index Sample.app) Sample.main_function
    sample_frame 2); [reflexivity|vm_compute; reflexivity|apply sample_frame_executes|].
  left.
Defined.
