(* ===== verification/Roots.v ===== *)
(** * Root planning ([native/codegen/llvm_lowering.cpp], [function_lowerer])

    Before it lowers a function the code generator decides which managed references are
    kept in the function's root frame at every instruction that may run the collector: a
    backward liveness analysis over the blocks, iterated until nothing changes, and the
    capacity of the frame.  The instructions themselves are lowered through LLVM. *)

From S2P Require Import Prelude Domains IR Samples Reader Types Layout Index Instructions.
From S2P Require Import Functions.

Local Open Scope string_scope.
Local Open Scope list_scope.
Local Open Scope N_scope.

(** ** Values *)

(** [is_managed_reference] of the lowering, which trusts the arguments of optionals. *)
Fixpoint managed_reference (value : type) : result bool :=
  match value with
  | mk_type tag _ arguments _ =>
      match tag with
      | NERI_IR_TYPE_STRING_V1 | NERI_IR_TYPE_ARRAY_V1 | NERI_IR_TYPE_CLASS_V1 => Ok true
      | NERI_IR_TYPE_OPTIONAL_V1 =>
          match arguments with
          | argument :: _ => managed_reference argument
          | [] => Throw (undefined "front() of an empty vector")
          end
      | _ => Ok false
      end
  end.

(** [value_types_]: the root capability, then the parameters and results of each block. *)
Definition block_value_types (types : gmap N type) (b : block) : gmap N type :=
  fold_left (λ types i, index_of val_id val_value_type (ins_results i) types) (blk_instructions b)
    (index_of par_id par_value_type (blk_parameters b) types).

Definition function_value_types (f : function) : gmap N type :=
  fold_left block_value_types (fn_blocks f)
    (match fn_unsafe_root f with Some root => {[val_id root := val_value_type root]} | None => ∅ end).

Definition value_type (types : gmap N type) (id : N) : result type :=
  match types !! id with
  | Some t => Ok t
  | None => Throw (lowering_error "Verified SSA type disappeared.")
  end.

(** ** What may collect *)

Definition collecting_effects : N :=
  NERI_IR_EFFECT_MANAGED_ALLOCATE_V1 ∣ NERI_IR_EFFECT_NATIVE_ALLOCATE_V1 ∣
  NERI_IR_EFFECT_SAFEPOINT_V1 ∣ NERI_IR_EFFECT_UNSAFE_V1.

Definition may_collect (effects : N) : bool := negb (N.land effects collecting_effects =? 0).

(** The maps of the module, [input_functions_by_id_] and [input_imports_by_id_]. *)
Definition can_collect (index : module_verification_index) (i : instruction) : result bool :=
  match ins_opcode i with
  | NERI_IR_OPCODE_CALL_V1 | NERI_IR_OPCODE_CALL_DIRECT_V1 =>
      symbol ← deref (ins_symbol i);
      match find_function index symbol with
      | Some target => Ok (may_collect (fn_effects target))
      | None => Throw (out_of_range "map::at")
      end
  | NERI_IR_OPCODE_CALL_IMPORT_V1 =>
      symbol ← deref (ins_symbol i);
      match find_import index symbol with
      | Some target => Ok (may_collect (imp_effects target))
      | None => Throw (out_of_range "map::at")
      end
  | NERI_IR_OPCODE_CALL_UNSAFE_V1 | NERI_IR_OPCODE_CALL_VIRTUAL_V1
  | NERI_IR_OPCODE_CALL_C_ABI_V1 | NERI_IR_OPCODE_CALL_C_INDIRECT_V1
  | NERI_IR_OPCODE_OBJECT_ALLOC_V1 | NERI_IR_OPCODE_ARRAY_NEW_V1
  | NERI_IR_OPCODE_ARRAY_GENERATE_V1 | NERI_IR_OPCODE_TASK_GENERATE_V1
  | NERI_IR_OPCODE_WORKER_ENTRY_V1 | NERI_IR_OPCODE_STRING_CONCAT_V1
  | NERI_IR_OPCODE_STRING_FROM_INT_V1 | NERI_IR_OPCODE_STRING_FROM_BYTE_V1
  | NERI_IR_OPCODE_STRING_FROM_FLOAT_V1 | NERI_IR_OPCODE_NATIVE_ALLOC_V1
  | NERI_IR_OPCODE_NATIVE_REALLOC_V1 | NERI_IR_OPCODE_NATIVE_FREE_V1
  | NERI_IR_OPCODE_BORROW_BEGIN_V1 | NERI_IR_OPCODE_BORROW_END_V1 => Ok true
  | _ => Ok false
  end.

(** ** Liveness *)

Notation live_references := (gset N).

Definition add_reference (types : gmap N type) (id : N) (live : live_references) : result live_references :=
  t ← value_type types id;
  managed ← managed_reference t;
  Ok (if (managed : bool) then {[id]} ∪ live else live).

(** One parameter of the target of an edge: it is bound here, by the argument. *)
Definition pass_argument (types : gmap N type) (e : edge) (item : nat * block_parameter)
    (state : live_references * live_references) : result (live_references * live_references) :=
  let '(index, parameter) := item in
  let '(incoming, live) := state in
  argument ← element (edge_arguments e) index;
  live ← add_reference types argument live;
  Ok (incoming ∖ ({[par_id parameter]} : live_references), live).

Definition live_over_edge (types : gmap N type) (blocks : gmap N block) (entries : gmap N live_references)
    (e : edge) (live : live_references) : result live_references :=
  incoming ← map_at entries (edge_target e);
  target ← map_at blocks (edge_target e);
  '(incoming, live) ← for_state (imap pair (blk_parameters target)) (incoming, live) (pass_argument types e);
  Ok (live ∪ incoming).

Definition add_optional (types : gmap N type) (id : option N) (live : live_references) : result live_references :=
  match id with Some id => add_reference types id live | None => Ok live end.

Definition live_at_end (types : gmap N type) (blocks : gmap N block) (entries : gmap N live_references) (b : block)
    : result live_references :=
  live ← for_state (trm_edges (blk_ending b)) (∅ : live_references) (live_over_edge types blocks entries);
  live ← add_optional types (trm_return_value (blk_ending b)) live;
  add_optional types (trm_condition (blk_ending b)) live.

Definition live_before (types : gmap N type) (i : instruction) (live : live_references) : result live_references :=
  let live := live ∖ (list_to_set (map val_id (ins_results i)) : live_references) in
  for_state (ins_operands i) live (add_reference types).

(** ** The plan *)

(** One block of a round. *)
Definition plan_block (types : gmap N type) (blocks : gmap N block) (b : block)
    (state : bool * gmap N live_references) : result (bool * gmap N live_references) :=
  let '(changed, entries) := state in
  live ← live_at_end types blocks entries b;
  live ← for_state (reverse (blk_instructions b)) live (live_before types);
  current ← map_at entries (blk_id b);
  if bool_decide (live = current) then Ok state else Ok (true, <[blk_id b := live]> entries).

(** The [do] loop. *)
Fixpoint plan_entries (fuel : nat) (types : gmap N type) (blocks : gmap N block) (order : list block)
    (entries : gmap N live_references) : result (gmap N live_references) :=
  match fuel with
  | O => Throw (undefined "out of fuel")
  | S fuel =>
      '(changed, entries) ← for_state order (false, entries) (plan_block types blocks);
      if (changed : bool) then plan_entries fuel types blocks order entries else Ok entries
  end.

(** Each round but the last one adds a value to the set of a block. *)
Definition plan_fuel (types : gmap N type) (f : function) : nat :=
  S (length (fn_blocks f) * base.size types).

(** The frame's capacity, and [roots_before_] by the place of the instruction. *)
Record root_plan := mk_root_plan {
  rp_capacity : nat;
  rp_roots : gmap (nat * nat) live_references;
}.

Definition record_roots (index : module_verification_index) (types : gmap N type) (block_index : nat)
    (item : nat * instruction) (state : live_references * root_plan) : result (live_references * root_plan) :=
  let '(position, i) := item in
  let '(live, plan) := state in
  live ← live_before types i live;
  collects ← can_collect index i;
  if (collects : bool) then
    Ok (live, mk_root_plan (Nat.max (rp_capacity plan) (base.size live + 1))
                (<[(block_index, position) := live]> (rp_roots plan)))
  else Ok (live, plan).

Definition record_block (index : module_verification_index) (types : gmap N type) (blocks : gmap N block)
    (entries : gmap N live_references) (item : nat * block) (plan : root_plan) : result root_plan :=
  let '(block_index, b) := item in
  live ← live_at_end types blocks entries b;
  '(live, plan) ← for_state (reverse (imap pair (blk_instructions b))) (live, plan)
                    (record_roots index types block_index);
  Ok plan.

Definition plan_roots (index : module_verification_index) (f : function) : result root_plan :=
  let types := function_value_types f in
  let blocks := index_of blk_id id (fn_blocks f) ∅ in
  entries ← plan_entries (plan_fuel types f) types blocks (reverse (fn_blocks f))
              (index_of blk_id (λ _, ∅) (fn_blocks f) ∅);
  for_state (imap pair (fn_blocks f)) (mk_root_plan 0 ∅) (record_block index types blocks entries).

(** [create_root_frame_storage]: the capacity of the frame and the plan, if the function
    has a frame. *)
Definition create_root_frame_storage (index : module_verification_index) (f : function) : result (option root_plan) :=
  if negb (may_collect (fn_effects f)) then Ok None
  else
    plan ← plan_roots index f;
    Ok (if (rp_capacity plan =? 0)%nat then None else Some plan).

(** [synchronize_roots]: the frame's slots up to its count, where [values] are the lowered
    values.  Slot zero is cleared, the others hold the set in ascending order. *)
Definition synchronize_roots (values : N → N) (live : live_references) : list N :=
  0 :: map values (merge_sort N.le (elements live)).
