(* ===== verification/RootSpec.v ===== *)
(** * Root planning is exact

    The liveness analysis of Roots.v returns on every verified function, and its sets are
    exactly the managed references that some execution may still read.

    No live reference is missed by the collector

    The theorems about root planning: at every instruction that runs the collector, in every
    execution of a verified function, the root frame holds exactly the managed references
    that the rest of the execution may read. *)

From S2P Require Import Prelude Domains IR Samples Reader Types Layout Index Instructions.
From S2P Require Import InstructionSafety InstructionTyping Functions Dominance Cfg Ssa.
From S2P Require Import Execution Roots.

Local Open Scope list_scope.
Local Open Scope N_scope.

(** ** Types of values *)

Lemma index_of_union {K A V} `{Countable K} (key : A → K) (value : A → V) (l : list A) (m : gmap K V) :
  index_of key value l m = m ∪ list_to_map (map (λ x, (key x, value x)) l).
Proof.
  apply map_eq. intros k. rewrite index_of_lookup, lookup_union. destruct (m !! k) as [v|]; [by rewrite union_Some_l|].
  rewrite (left_id None union). induction l as [|x l IH]; [done|]. simpl. case_bool_decide as Hk.
  - subst k. by rewrite lookup_insert_eq.
  - by rewrite lookup_insert_ne.
Qed.

(** A value with its type, as the definitions of a function give them. *)
Definition typed (p : N * definition) : N * type := (p.1, def_value_type p.2).

Lemma block_value_types_union m b : block_value_types m b = m ∪ list_to_map (map typed (block_definitions b)).
Proof.
  unfold block_value_types, block_definitions. rewrite map_app, list_to_map_app, index_of_union, map_map, (assoc_L (∪)).
  change (λ x, typed (parameter_definition (blk_id b) x)) with (λ x, (par_id x, par_value_type x)).
  generalize (m ∪ list_to_map (map (λ x, (par_id x, par_value_type x)) (blk_parameters b))). clear m.
  assert (∀ (l : list instruction) (k : nat) (m : gmap N type),
    fold_left (λ types i, index_of val_id val_value_type (ins_results i) types) l m =
    m ∪ list_to_map (map typed (concat (map (instruction_definitions (blk_id b)) (imap (λ n i, (k + n, i)%nat) l))))) as H.
  { induction l as [|i l IH]; intros k m; simpl; [by rewrite (right_id_L ∅ (∪))|].
    rewrite index_of_union, (IH (S k)), map_app, list_to_map_app, (assoc_L (∪)). do 2 f_equal.
    - f_equal. unfold instruction_definitions. simpl. by rewrite map_map.
    - do 3 f_equal. unfold compose. apply imap_ext. intros n x _. f_equal. lia. }
  intros m. rewrite (H _ 0%nat). done.
Qed.

Lemma function_value_types_list f : function_value_types f = list_to_map (map typed (function_definitions f)).
Proof.
  unfold function_value_types, function_definitions. rewrite map_app, list_to_map_app.
  assert (list_to_map (map typed (root_definitions f)) =
    match fn_unsafe_root f with Some root => {[val_id root := val_value_type root]} | None => (∅ : gmap N type) end) as <-.
  { unfold root_definitions. destruct (fn_unsafe_root f); [|done]. simpl. done. }
  generalize (list_to_map (map typed (root_definitions f)) : gmap N type). induction (fn_blocks f) as [|b bs IH]; intros m; simpl.
  - by rewrite (right_id_L ∅ (∪)).
  - by rewrite IH, block_value_types_union, map_app, list_to_map_app, (assoc_L (∪)).
Qed.

Lemma map_typed_fst l : map fst (map typed l) = map fst l.
Proof. rewrite map_map. done. Qed.

(** Supported types have the shape the lowering relies on. *)
Lemma managed_reference_returns t : is_supported_value t = true → ∃ b, managed_reference t = Ok b.
Proof.
  induction t as [tag symbol arguments count IH] using type_nested_ind. intros Hs. destruct tag; simpl; try (by eexists).
  destruct arguments as [|a [|]]; [by destruct symbol|..].
  - inversion IH as [|? ? Ha _]; subst. apply Ha. cbn in Hs. destruct symbol; [done|]. cbn in Hs.
    rewrite !andb_true_iff in Hs. by destruct Hs as [_ Hs].
  - by destruct symbol.
Qed.

Section plan.
Variable legal : list byte → bool.
Variable index : module_verification_index.
Variable f : function.
Hypothesis body : well_formed_body legal index f.

Notation types := (function_value_types f).
Notation blocks := (index_of blk_id id (fn_blocks f) ∅).

Lemma types_exact v t : types !! v = Some t ↔ ∃ d, (v, d) ∈ function_definitions f ∧ def_value_type d = t.
Proof.
  rewrite function_value_types_list, <-elem_of_list_to_map.
  - rewrite list_elem_of_fmap. split.
    + intros ([v' d] & [= -> ->] & Hd). by exists d.
    + intros (d & Hd & <-). by exists (v, d).
  - change (fmap fst (map typed (function_definitions f))) with (map fst (map typed (function_definitions f))).
    rewrite map_typed_fst. apply (wfb_definitions _ _ _ body).
Qed.

Lemma blocks_exact b : b ∈ fn_blocks f → blocks !! blk_id b = Some b.
Proof.
  intros Hb. rewrite index_of_empty, option_fmap_id. apply find_key_unique; [|done]. apply (wfb_blocks _ _ _ body).
Qed.

(** The values that hold managed references. *)
Definition managed (v : N) : Prop := ∃ t, types !! v = Some t ∧ managed_reference t = Ok true.

(** A value that is read somewhere has a definition, and a type. *)
Lemma used_typed u : u ∈ function_uses f → is_Some (types !! use_value u).
Proof.
  intros (d & Hd & _)%(wfb_ssa _ _ _ body). exists (def_value_type d). apply types_exact. eauto.
Qed.

Lemma add_reference_ok v live :
  is_Some (types !! v) → returns (add_reference types v live) (λ live', ∀ x, x ∈ live' ↔ x ∈ live ∨ (x = v ∧ managed v)).
Proof.
  intros [t Ht]. unfold add_reference, value_type. rewrite Ht, bind_Ok.
  assert (is_supported_value t = true) as Hs.
  { apply types_exact in Ht as (d & Hd & <-). pose proof (wfb_supported _ _ _ body) as Hall.
    rewrite Forall_forall in Hall. apply (Hall _ Hd). }
  destruct (managed_reference_returns t Hs) as [b Hb]. rewrite Hb, bind_Ok. apply returns_Ok. intros x.
  assert (managed v ↔ b = true) as ->.
  { unfold managed. rewrite Ht. split; [intros (? & [= <-] & ?); congruence|intros ->; eauto]. }
  destruct b; [rewrite elem_of_union, elem_of_singleton|]; naive_solver.
Qed.

Lemma add_references_ok vs live :
  (∀ v, v ∈ vs → is_Some (types !! v)) →
  returns (for_state vs live (add_reference types)) (λ live', ∀ x, x ∈ live' ↔ x ∈ live ∨ (x ∈ vs ∧ managed x)).
Proof.
  revert live. induction vs as [|v vs IH]; intros live Hvs; simpl.
  - apply returns_Ok. set_solver.
  - eapply returns_bind; [apply add_reference_ok, Hvs; by left|]. intros live1 H1.
    eapply returns_weaken; [apply IH; intros w Hw; apply Hvs; by right|]. intros live2 H2 x.
    specialize (H1 x). specialize (H2 x). cbv beta in H1, H2. rewrite H2, H1, elem_of_cons. naive_solver.
Qed.

(** *** Reads *)

Definition reads_at (b : block) (k : nat) : list N := reads_next (mk_frame b k ∅).

Lemma reads_at_end b v :
  v ∈ reads_at b (length (blk_instructions b)) ↔
  trm_condition (blk_ending b) = Some v ∨ trm_return_value (blk_ending b) = Some v ∨
  ∃ e, e ∈ trm_edges (blk_ending b) ∧ v ∈ edge_arguments e.
Proof.
  unfold reads_at, reads_next. simpl. rewrite lookup_ge_None_2 by done. rewrite list_elem_of_fmap.
  unfold terminator_uses, option_use. split.
  - intros (u & -> & Hu). rewrite !elem_of_app in Hu. destruct Hu as [Hu|[Hu|(e & He & Hu)%elem_of_concat_map_inv]].
    + left. destruct (trm_condition _); [|set_solver]. by apply list_elem_of_singleton in Hu as ->.
    + right. left. destruct (trm_return_value _); [|set_solver]. by apply list_elem_of_singleton in Hu as ->.
    + right. right. exists e. split; [done|]. by apply list_elem_of_fmap in Hu as (w & -> & Hw).
  - intros [Hv|[Hv|(e & He & Hv)]]; (eexists (mk_use v _ _); split; [done|]; rewrite !elem_of_app).
    + left. rewrite Hv. apply list_elem_of_singleton. reflexivity.
    + right. left. rewrite Hv. apply list_elem_of_singleton. reflexivity.
    + right. right. eapply elem_of_concat_map; [exact He|]. apply list_elem_of_fmap. by exists v.
Qed.

Lemma read_typed b k v : b ∈ fn_blocks f → (k ≤ length (blk_instructions b))%nat → v ∈ reads_at b k → is_Some (types !! v).
Proof.
  intros Hb Hk Hv. apply (used_typed (mk_use v (blk_id b) (Z.of_nat k))). 
  by apply (reads_next_uses legal index f body (mk_frame b k ∅) v).
Qed.

(** *** Instructions *)

(** What is live before a list of instructions, given what is live after it. *)
Fixpoint before_all (l : list instruction) (after : N → Prop) (v : N) : Prop :=
  match l with
  | [] => after v
  | i :: l => (v ∈ ins_operands i ∧ managed v) ∨ (v ∉ result_values i ∧ before_all l after v)
  end.

Lemma live_before_ok i live :
  (∀ v, v ∈ ins_operands i → is_Some (types !! v)) →
  returns (live_before types i live)
    (λ live', ∀ v, v ∈ live' ↔ (v ∈ ins_operands i ∧ managed v) ∨ (v ∉ result_values i ∧ v ∈ live)).
Proof.
  intros Ho. unfold live_before. cbv zeta. eapply returns_weaken; [by apply add_references_ok|].
  intros live' H v. specialize (H v). cbv beta in H. rewrite H, elem_of_difference. unfold result_values. naive_solver.
Qed.

Lemma live_instructions_ok b k live :
  b ∈ fn_blocks f →
  returns (for_state (reverse (drop k (blk_instructions b))) live (live_before types))
    (λ live', ∀ v, v ∈ live' ↔ before_all (drop k (blk_instructions b)) (.∈ live) v).
Proof.
  intros Hb. remember (drop k (blk_instructions b)) as l eqn:Hl. revert k live Hl.
  induction l as [|i l IH]; intros k live Hl; [by apply returns_Ok|].
  rewrite reverse_cons, for_state_app. eapply returns_bind.
  - apply (IH (S k)). change l with (drop 1 (i :: l)). rewrite Hl, drop_drop. f_equal. lia.
  - intros live1 H1. simpl. eapply returns_bind.
    + apply live_before_ok. intros v Hv.
      assert (blk_instructions b !! k = Some i) as Hi.
      { pose proof (lookup_drop (blk_instructions b) k 0) as Hd. rewrite <-Hl, Nat.add_0_r in Hd. by rewrite <-Hd. }
      apply (read_typed b k); [done|apply Nat.lt_le_incl; by eapply lookup_lt_Some|].
      unfold reads_at, reads_next. simpl. by rewrite Hi.
    + intros live2 H2. apply returns_Ok. intros v. specialize (H2 v). specialize (H1 v). cbv beta in H1, H2. rewrite H2. simpl. by rewrite <-H1.
Qed.

(** *** Edges *)

Definition live_in (entries : gmap N live_references) (b : N) : live_references := default ∅ (entries !! b).

(** What is live at the end of a block. *)
Definition at_end (entries : gmap N live_references) (b : block) (v : N) : Prop :=
  (v ∈ reads_at b (length (blk_instructions b)) ∧ managed v) ∨
  ∃ e target, e ∈ trm_edges (blk_ending b) ∧ target ∈ fn_blocks f ∧ blk_id target = edge_target e ∧
    v ∉ parameter_values target ∧ v ∈ live_in entries (edge_target e).

Lemma pass_arguments_ok b e target incoming live :
  b ∈ fn_blocks f → e ∈ trm_edges (blk_ending b) → target ∈ fn_blocks f → blk_id target = edge_target e →
  returns (for_state (imap pair (blk_parameters target)) (incoming, live) (pass_argument types e)) (λ state,
    (∀ v, v ∈ state.1 ↔ v ∈ incoming ∧ v ∉ parameter_values target) ∧
    (∀ v, v ∈ state.2 ↔ v ∈ live ∨ (v ∈ edge_arguments e ∧ managed v))).
Proof.
  intros Hb He Ht Hid. pose proof (wfb_arguments _ _ _ body b e target Hb He Ht Hid) as Hlen%Forall2_length.
  eapply returns_weaken.
  - apply (returns_loop (λ done state,
      (∀ v, v ∈ state.1 ↔ v ∈ incoming ∧ v ∉ map (λ item : nat * block_parameter, par_id item.2) done) ∧
      (∀ v, v ∈ state.2 ↔ v ∈ live ∨ (managed v ∧ ∃ item, item ∈ done ∧ edge_arguments e !! item.1 = Some v)))).
    + intros done [i p] [inc l] (i' & p' & [= <- <-] & Hp)%elem_of_lookup_imap [H1 H2]. simpl in H1, H2. unfold pass_argument.
      assert (is_Some (edge_arguments e !! i)) as [a Ha].
      { apply lookup_lt_is_Some. rewrite Hlen. by eapply lookup_lt_Some. }
      unfold element. rewrite Ha, bind_Ok. eapply returns_bind.
      { apply add_reference_ok, (read_typed b (length (blk_instructions b))); [done|lia|].
        apply reads_at_end. right. right. exists e. split; [done|]. by eapply list_elem_of_lookup_2. }
      intros l' Hl'. apply returns_Ok. simpl. split; intros v.
      * rewrite elem_of_difference, H1, map_app, elem_of_app, elem_of_singleton. simpl. rewrite list_elem_of_singleton. naive_solver.
      * specialize (Hl' v). cbv beta in Hl'. rewrite Hl', H2. split.
        { intros [[?|(? & item & ? & ?)]|[-> ?]]; [by left|right..]; (split; [done|]).
          - exists item. split; [apply elem_of_app; by left|done].
          - exists (i, p). split; [apply elem_of_app; right; by left|done]. }
        { intros [?|(? & item & [?| ->%list_elem_of_singleton]%elem_of_app & Hi)]; [by left; left|left; right; split; [done|by exists item]|]. right. simpl in Hi. assert (a = v) as -> by congruence. done. }
    + simpl. split; intros v; [set_solver|]. split; [by left|]. intros [?|(_ & item & Hn & _)]; [done|by apply elem_of_nil in Hn].
  - intros [inc l] [H1 H2]. simpl in H1, H2 |- *. split; intros v.
    + rewrite H1. apply and_iff_compat_l, not_iff_compat. unfold parameter_values. rewrite elem_of_list_to_set.
      by rewrite (map_imap_pair par_id).
    + rewrite H2. split; (intros [?|Hv]; [by left|right]).
      * destruct Hv as (? & item & _ & Hi). split; [by eapply list_elem_of_lookup_2|done].
      * destruct Hv as ([i Hi]%list_elem_of_lookup & Hm). split; [done|].
        assert (is_Some (blk_parameters target !! i)) as [p Hp] by (apply lookup_lt_is_Some; rewrite <-Hlen; by eapply lookup_lt_Some).
        exists (i, p). split; [|done]. by apply elem_of_lookup_imap_2.
Qed.

Lemma add_optional_ok id live :
  (∀ v, id = Some v → is_Some (types !! v)) →
  returns (add_optional types id live) (λ live', ∀ v, v ∈ live' ↔ v ∈ live ∨ (id = Some v ∧ managed v)).
Proof.
  intros Hid. destruct id as [w|]; simpl.
  - eapply returns_weaken; [by apply add_reference_ok, Hid|]. intros live' H v. specialize (H v). cbv beta in H. rewrite H. naive_solver.
  - apply returns_Ok. naive_solver.
Qed.

(** The target of an edge is a block. *)
Lemma edge_block b e : b ∈ fn_blocks f → e ∈ trm_edges (blk_ending b) → ∃ target, target ∈ fn_blocks f ∧ blk_id target = edge_target e.
Proof.
  intros Hb He. assert (cfg_edge f (blk_id b) (edge_target e)) as Hedge by by exists b, e.
  apply (wfb_edges _ _ _ body) in Hedge as [(target & Hid & Ht)%list_elem_of_fmap _]. by exists target.
Qed.

Lemma live_at_end_ok entries b :
  b ∈ fn_blocks f → (∀ b, b ∈ fn_blocks f → is_Some (entries !! blk_id b)) →
  returns (live_at_end types blocks entries b) (λ live, ∀ v, v ∈ live ↔ at_end entries b v).
Proof.
  intros Hb Hdom. unfold live_at_end. eapply returns_bind.
  - apply (returns_loop (λ done live, ∀ v, v ∈ live ↔
      ∃ e, e ∈ done ∧ ((v ∈ edge_arguments e ∧ managed v) ∨ ∃ target, target ∈ fn_blocks f ∧ blk_id target = edge_target e ∧
        v ∉ parameter_values target ∧ v ∈ live_in entries (edge_target e)))); [|set_solver].
    intros done e live He Hl. unfold live_over_edge. destruct (edge_block b e Hb He) as (target & Ht & Hid).
    unfold map_at. rewrite <-Hid, (blocks_exact target Ht). destruct (Hdom target Ht) as [incoming Hin]. rewrite Hin, !bind_Ok.
    eapply returns_bind; [by eapply (pass_arguments_ok b e target)|]. intros [inc l] [H1 H2]. apply returns_Ok. intros v.
    specialize (H1 v). specialize (H2 v). specialize (Hl v). cbv beta in H1, H2, Hl. simpl in H1, H2. rewrite elem_of_union, H1, H2, Hl. simpl. assert (live_in entries (edge_target e) = incoming) as Hlook by (unfold live_in; by rewrite <-Hid, Hin).
    split.
    + intros [[(e' & ? & ?)|?]|[? ?]]; [exists e'; split; [set_solver|done]|exists e; split; [set_solver|by left]|].
      exists e. split; [set_solver|right]. exists target. by rewrite Hlook.
    + intros (e' & [He'| ->%list_elem_of_singleton]%elem_of_app & Hc); [left; left; eauto|]. destruct Hc as [?|(target' & Ht' & Hid' & Hn & Hv)]; [tauto|].
      rewrite (block_unique legal index f body target' target) in Hn by congruence. rewrite Hlook in Hv. tauto.
  - intros live0 H0. eapply returns_bind.
    + apply add_optional_ok. intros v Hv. apply (read_typed b (length (blk_instructions b))); [done|lia|]. apply reads_at_end. tauto.
    + intros live1 H1. eapply returns_weaken.
      * apply add_optional_ok. intros v Hv. apply (read_typed b (length (blk_instructions b))); [done|lia|]. apply reads_at_end. tauto.
      * intros live2 H2 v. specialize (H0 v). specialize (H1 v). specialize (H2 v). cbv beta in H0, H1, H2. rewrite H2, H1, H0.
        unfold at_end. rewrite reads_at_end. split.
        { intros [[(e & He & [[? ?]|(target & ?)])|[? ?]]|[? ?]]; [left; split; [eauto 6|done]|right; exists e, target; naive_solver|left; naive_solver|left; naive_solver]. }
        { intros [[[?|[?|(e & ? & ?)]] ?]|(e & target & ? & ?)]; [tauto|tauto|left; left; eauto|left; left; exists e; naive_solver]. }
Qed.

(** *** What is needed *)

(** Some execution that has come to position [k] of block [b] may read [v] before it is
    defined again. *)
Inductive needed (v : N) : block → nat → Prop :=
| needed_read b k : (k ≤ length (blk_instructions b))%nat → v ∈ reads_at b k → needed v b k
| needed_instruction b k i : blk_instructions b !! k = Some i → v ∉ result_values i → needed v b (S k) → needed v b k
| needed_edge b e target : e ∈ trm_edges (blk_ending b) → target ∈ fn_blocks f → blk_id target = edge_target e →
    v ∉ parameter_values target → needed v target 0 → needed v b (length (blk_instructions b)).

(** The equation of the analysis, at a position of a block. *)
Definition live_from (entries : gmap N live_references) (b : block) (k : nat) (v : N) : Prop :=
  before_all (drop k (blk_instructions b)) (at_end entries b) v.

Lemma before_all_mono l (P Q : N → Prop) v : (P v → Q v) → before_all l P v → before_all l Q v.
Proof. intros HPQ. induction l as [|i l IH]; simpl; [done|]. naive_solver. Qed.

Lemma at_end_mono entries entries' b v :
  (∀ a, live_in entries a ⊆ live_in entries' a) → at_end entries b v → at_end entries' b v.
Proof. intros Hle [?|(e & target & ? & ? & ? & ? & ?)]; [by left|right]. exists e, target. split_and!; try done. by apply Hle. Qed.

Lemma live_from_mono entries entries' b k v :
  (∀ a, live_in entries a ⊆ live_in entries' a) → live_from entries b k v → live_from entries' b k v.
Proof. intros Hle. by apply before_all_mono, at_end_mono. Qed.

Lemma live_from_cons entries b k i v :
  blk_instructions b !! k = Some i →
  live_from entries b k v ↔ (v ∈ ins_operands i ∧ managed v) ∨ (v ∉ result_values i ∧ live_from entries b (S k) v).
Proof. intros Hi. unfold live_from. by rewrite (drop_S _ _ _ Hi). Qed.

Lemma live_from_end entries b v : live_from entries b (length (blk_instructions b)) v ↔ at_end entries b v.
Proof. unfold live_from. by rewrite drop_all. Qed.

(** The sets of the entries hold what is needed there, and only that. *)
Definition entries_needed (entries : gmap N live_references) : Prop :=
  ∀ b v, b ∈ fn_blocks f → v ∈ live_in entries (blk_id b) → managed v ∧ needed v b 0.

Definition entries_solved (entries : gmap N live_references) (b : block) : Prop :=
  ∀ v, v ∈ live_in entries (blk_id b) ↔ live_from entries b 0 v.

Lemma live_from_needed entries b k v :
  entries_needed entries → (k ≤ length (blk_instructions b))%nat → live_from entries b k v → managed v ∧ needed v b k.
Proof.
  intros He Hk. remember (length (blk_instructions b) - k)%nat as n eqn:Hn. revert k Hk Hn.
  induction n as [|n IH]; intros k Hk Hn.
  - assert (k = length (blk_instructions b)) as -> by lia. rewrite live_from_end.
    intros [[Hr Hm]|(e & target & Hedge & Ht & Hid & Hv & Hin)].
    + split; [done|]. by apply needed_read.
    + rewrite <-Hid in Hin. apply He in Hin as [Hm Hneed]; [|done]. split; [done|]. by eapply needed_edge.
  - assert (is_Some (blk_instructions b !! k)) as [i Hi] by (apply lookup_lt_is_Some; lia).
    rewrite (live_from_cons entries b k i v Hi). intros [[Hr Hm]|[Hv Hlive]].
    + split; [done|]. apply needed_read; [lia|]. unfold reads_at, reads_next. simpl. by rewrite Hi.
    + apply IH in Hlive as [Hm Hneed]; [|lia|lia]. split; [done|]. by eapply needed_instruction.
Qed.

Lemma needed_live_from entries b k v :
  (∀ b, b ∈ fn_blocks f → entries_solved entries b) → b ∈ fn_blocks f → managed v → needed v b k → live_from entries b k v.
Proof.
  intros He Hb Hm Hneed. induction Hneed as [b k Hk Hr|b k i Hi Hv _ IH|b e target Hedge Ht Hid Hv _ IH].
  - destruct (blk_instructions b !! k) as [i|] eqn:Hi.
    + rewrite (live_from_cons entries b k i v Hi). left. split; [|done].
      unfold reads_at, reads_next in Hr. simpl in Hr. by rewrite Hi in Hr.
    + apply lookup_ge_None in Hi. assert (k = length (blk_instructions b)) as -> by lia.
      rewrite live_from_end. by left.
  - rewrite (live_from_cons entries b k i v Hi). right. split; [done|]. by apply IH.
  - rewrite live_from_end. right. exists e, target. split_and!; try done. rewrite <-Hid. by apply (He target), IH.
Qed.

(** *** The iteration *)

Definition total (entries : gmap N live_references) : nat :=
  list_sum (map (λ b, base.size (live_in entries (blk_id b))) (fn_blocks f)).

Record entries_ok (entries : gmap N live_references) : Prop := {
  eo_blocks b : b ∈ fn_blocks f → is_Some (entries !! blk_id b);
  eo_needed : entries_needed entries;
  eo_below b v : b ∈ fn_blocks f → v ∈ live_in entries (blk_id b) → live_from entries b 0 v;
}.

Lemma live_in_insert entries a b live :
  live_in (<[a := live]> entries) b = if decide (b = a) then live else live_in entries b.
Proof.
  unfold live_in. case_decide as Hab; [subst; by rewrite lookup_insert_eq|by rewrite lookup_insert_ne].
Qed.

Lemma update_grows entries b live :
  b ∈ fn_blocks f → entries_ok entries → (∀ v, v ∈ live ↔ live_from entries b 0 v) →
  live ≠ live_in entries (blk_id b) →
  entries_ok (<[blk_id b := live]> entries) ∧ (total entries < total (<[blk_id b := live]> entries))%nat.
Proof.
  intros Hb [Hdom Hneed Hbelow] Hlive Hne. set (entries' := <[blk_id b := live]> entries).
  assert (live_in entries (blk_id b) ⊂ live) as Hsub.
  { split; [intros v Hv; by apply Hlive, Hbelow|]. intros Hback. apply Hne. apply set_eq. intros v. split; [apply Hback|].
    intros Hv. by apply Hlive, Hbelow. }
  assert (∀ a, live_in entries a ⊆ live_in entries' a) as Hle.
  { intros a. unfold entries'. rewrite live_in_insert. case_decide as Ha; [subst a; by destruct Hsub|done]. }
  split.
  - constructor.
    + intros a Ha. unfold entries'. destruct (decide (blk_id a = blk_id b)) as [->|]; [rewrite lookup_insert_eq; by eexists|].
      rewrite lookup_insert_ne by done. by apply Hdom.
    + intros a v Ha. unfold entries'. rewrite live_in_insert. case_decide as Hid; [|by apply Hneed].
      intros Hv%Hlive. rewrite (block_unique legal index f body a b Ha Hb Hid).
      apply (live_from_needed entries b 0 v); [done|lia|done].
    + intros a v Ha Hv. apply (live_from_mono entries entries' a 0 v Hle).
      unfold entries' in Hv. rewrite live_in_insert in Hv. case_decide as Hid; [|by apply Hbelow].
      rewrite (block_unique legal index f body a b Ha Hb Hid). by apply Hlive.
  - unfold total. eapply (list_sum_lt _ _ _ b); [|done|].
    + intros a _. apply subseteq_size, Hle.
    + unfold entries'. rewrite live_in_insert, decide_True by done. by apply subset_size.
Qed.

(** The set a round computes for a block. *)
Lemma block_live_ok entries b :
  b ∈ fn_blocks f → (∀ b, b ∈ fn_blocks f → is_Some (entries !! blk_id b)) →
  returns (live ← live_at_end types blocks entries b; for_state (reverse (blk_instructions b)) live (live_before types))
    (λ live, ∀ v, v ∈ live ↔ live_from entries b 0 v).
Proof.
  intros Hb Hdom. eapply returns_bind; [by apply live_at_end_ok|]. intros live0 H0.
  eapply returns_weaken; [apply (live_instructions_ok b 0 live0 Hb)|]. intros live H v. specialize (H v). cbv beta in H. rewrite H.
  unfold live_from. split; apply before_all_mono; by rewrite (H0 v).
Qed.

Lemma plan_block_ok b changed entries :
  b ∈ fn_blocks f → entries_ok entries →
  returns (plan_block types blocks b (changed, entries)) (λ state,
    entries_ok state.2 ∧
    ((state = (changed, entries) ∧ entries_solved entries b) ∨ (state.1 = true ∧ (total entries < total state.2)%nat))).
Proof.
  intros Hb Hok. unfold plan_block. destruct (block_live_ok entries b Hb (eo_blocks _ Hok)) as (live & Hrun & Hlive).
  apply bind_Ok_inv in Hrun as (live0 & -> & Hrun). rewrite bind_Ok, Hrun, bind_Ok.
  destruct (eo_blocks _ Hok b Hb) as [current Hcur]. unfold map_at. rewrite Hcur, bind_Ok.
  assert (live_in entries (blk_id b) = current) as Hin by (unfold live_in; by rewrite Hcur).
  case_bool_decide as Heq; apply returns_Ok; simpl.
  - split; [done|left]. split; [done|]. intros v. by rewrite Hin, <-Heq.
  - destruct (update_grows entries b live Hb Hok Hlive) as [Hok' Hlt]; [by rewrite Hin|]. split; [done|right]. done.
Qed.

Lemma plan_round_ok order entries :
  (∀ b, b ∈ order → b ∈ fn_blocks f) → entries_ok entries →
  returns (for_state order (false, entries) (plan_block types blocks)) (λ state,
    entries_ok state.2 ∧
    ((state = (false, entries) ∧ ∀ b, b ∈ order → entries_solved entries b) ∨
     (state.1 = true ∧ (total entries < total state.2)%nat))).
Proof.
  intros Horder Hok. apply (returns_loop (λ done state, entries_ok state.2 ∧
    ((state = (false, entries) ∧ ∀ b, b ∈ done → entries_solved entries b) ∨ (state.1 = true ∧ (total entries < total state.2)%nat)))).
  - intros done b [changed es] Hb [Hes Hcase]. simpl in Hes, Hcase.
    eapply returns_weaken; [by apply plan_block_ok, Hes; apply Horder|]. intros [changed' es'] [Hes' Hcase']. split; [done|].
    simpl in *. destruct Hcase' as [[[= -> ->] Hsolved]|[-> Hlt]].
    + destruct Hcase as [[[= -> ->] Hall]|?]; [left|by right]. split; [done|]. intros a [Ha| ->%list_elem_of_singleton]%elem_of_app; [by apply Hall|done].
    + right. split; [done|]. destruct Hcase as [[[= -> ->] _]|[_ ?]]; lia.
  - split; [done|left]. split; [done|]. by intros b ?%elem_of_nil.
Qed.

Lemma total_bound entries : entries_ok entries → (total entries ≤ length (fn_blocks f) * base.size types)%nat.
Proof.
  intros Hok. apply list_sum_bound. intros b Hb. rewrite <-size_dom. apply subseteq_size. intros v Hv.
  apply (eo_needed _ Hok b v Hb) in Hv as [(t & Ht & _) _]. by apply elem_of_dom_2 in Ht.
Qed.

Lemma plan_entries_ok fuel entries :
  entries_ok entries → (length (fn_blocks f) * base.size types < fuel + total entries)%nat →
  returns (plan_entries fuel types blocks (reverse (fn_blocks f)) entries)
    (λ entries', entries_ok entries' ∧ ∀ b, b ∈ fn_blocks f → entries_solved entries' b).
Proof.
  revert entries. induction fuel as [|fuel IH]; intros entries Hok Hfuel; simpl.
  - pose proof (total_bound entries Hok). lia.
  - eapply returns_bind; [apply (plan_round_ok (reverse (fn_blocks f)) entries); [|done]|].
    { intros b. by rewrite elem_of_reverse. }
    intros [changed es] [Hes Hcase]. simpl in Hes, Hcase. destruct Hcase as [[[= -> ->] Hall]|[-> Hlt]].
    + apply returns_Ok. split; [done|]. intros b Hb. apply Hall. by apply elem_of_reverse.
    + apply IH; [done|]. lia.
Qed.

Lemma initial_entries_ok : entries_ok (index_of blk_id (λ _, ∅) (fn_blocks f) ∅).
Proof.
  assert (∀ b v, v ∉ live_in (index_of blk_id (λ _, ∅) (fn_blocks f) ∅) b) as Hnone.
  { intros b v. unfold live_in. rewrite index_of_empty. by destruct (find _ _). }
  constructor; [|by intros b v _ Hv%Hnone|by intros b v _ Hv%Hnone].
  intros b Hb. rewrite index_of_empty, (find_key_unique blk_id (fn_blocks f) b (wfb_blocks _ _ _ body) Hb). by eexists.
Qed.

(** *** Instructions that may collect *)

Lemma can_collect_returns i : checked_instruction legal index f i → ∃ c, can_collect index i = Ok c.
Proof.
  intros (e & He & _). unfold verify_instruction in He. inv_ok.
  match goal with H : verify_opcode _ _ _ = Ok _ |- _ => rename H into Hop; unfold verify_opcode in Hop end.
  unfold can_collect. destruct (ins_opcode i); try (by eexists); unfold verify_call in Hop;
    (destruct (ins_symbol i) as [symbol|]; [|discriminate Hop]); simpl deref; rewrite bind_Ok; inv_ok; unfold call_target in *; simpl in *.
  all: try (destruct (find_function index symbol); [by eexists|discriminate]).
  all: destruct (find_import index symbol); [by eexists|discriminate].
Qed.
End plan.

(** The effects of instructions that run the collector. *)
Definition heap_effects : N :=
  NERI_IR_EFFECT_MANAGED_ALLOCATE_V1 ∣ NERI_IR_EFFECT_NATIVE_ALLOCATE_V1 ∣ NERI_IR_EFFECT_SAFEPOINT_V1.

Lemma land_zero_within a b c : effects_within b c → N.land a c = 0 → N.land a b = 0.
Proof.
  rewrite effects_within_bits. intros Hbc Hz. apply N.bits_inj_0. intros n. rewrite N.land_spec.
  assert (N.testbit (N.land a c) n = false) as Hn by by rewrite Hz, N.bits_0. rewrite N.land_spec in Hn.
  specialize (Hbc n). destruct (N.testbit a n); [|done]. simpl in *. destruct (N.testbit b n); [|done]. by rewrite Hbc in Hn.
Qed.

Lemma land_zero_mono a b c : effects_within a b → N.land b c = 0 → N.land a c = 0.
Proof. intros Hab. rewrite !(N.land_comm _ c). by apply land_zero_within. Qed.

Lemma may_collect_heap effects : N.land effects heap_effects ≠ 0 → may_collect effects = true.
Proof.
  intros H. unfold may_collect. apply negb_true_iff, N.eqb_neq. intros Hz. apply H. by eapply land_zero_within; [|exact Hz].
Qed.

Lemma call_effects_heap effects : N.land (call_effects effects false) heap_effects ≠ 0 → N.land effects heap_effects ≠ 0.
Proof.
  intros H Hz. apply H. apply (land_zero_mono _ effects); [|done]. unfold call_effects. rewrite N.lor_0_r.
  apply effects_within_bits. intros n. rewrite N.ldiff_spec, andb_true_iff. tauto.
Qed.

(** What a checked call says of its target. *)
Lemma verify_call_target c i e imported method :
  verify_call c i imported method false false = Ok e →
  ∃ symbol effects, ins_symbol i = Some symbol ∧ e = call_effects effects false ∧
    if imported : bool then ∃ target, find_import (ctx_index c) symbol = Some target ∧ effects = imp_effects target
    else ∃ target, find_function (ctx_index c) symbol = Some target ∧ effects = fn_effects target.
Proof.
  unfold verify_call. destruct (ins_symbol i) as [symbol|]; [|done]. intros H. inv_ok.
  destruct a as [[parameters result] effects]. inv_ok. exists symbol, effects. split_and!; [done|by subst|].
  unfold call_target in *. destruct imported.
  - destruct (find_import (ctx_index c) symbol) as [target|]; [|done]. inv_ok. by exists target; simplify_eq.
  - destruct (find_function (ctx_index c) symbol) as [target|]; [|done]. inv_ok. by exists target; simplify_eq.
Qed.

(** No instruction that runs the collector is missed. *)
Lemma can_collect_heap legal index f i e :
  verify_instruction legal (core_context index f) i = Ok e → N.land e heap_effects ≠ 0 → can_collect index i = Ok true.
Proof.
  intros He Hne. unfold verify_instruction in He. inv_ok.
  match goal with H : verify_opcode _ _ _ = Ok _ |- _ => rename H into Hop; unfold verify_opcode in Hop end.
  unfold can_collect. destruct (ins_opcode i) eqn:Hopcode; try reflexivity.
  all: try (apply verify_call_target in Hop as (symbol & effects & -> & -> & target & Hfind & ->); simpl in Hfind;
    simpl deref; rewrite bind_Ok, Hfind; by rewrite may_collect_heap by by apply call_effects_heap).
  all: exfalso; apply Hne; clear Hne; cbv beta delta [unary binary verify_constant_instruction verify_integer_negation
    verify_integer_arithmetic verify_float_negation verify_float_arithmetic verify_compare verify_numeric_cast
    verify_class_upcast verify_class_checked_cast verify_optional_none verify_optional_some verify_optional_is_some
    verify_optional_get verify_c_function_instruction verify_array_length verify_array_load verify_array_store verify_field_access
    verify_unsafe_begin verify_unsafe_end verify_native_field_address verify_native_index_address verify_pointer_instruction pointer_effects] in Hop;
    rewrite ?Hopcode in Hop.
  all: repeat (progress (cbv zeta in *; inv_ok) || match goal with
    | H : context [match ?x with _ => _ end] |- _ => match type of H with _ = Ok _ => destruct x eqn:? end
    end); try discriminate; simplify_eq; try reflexivity.
Qed.

Section record.
Variable legal : list byte → bool.
Variable index : module_verification_index.
Variable f : function.
Hypothesis body : well_formed_body legal index f.

Notation types := (function_value_types f).
Notation blocks := (index_of blk_id id (fn_blocks f) ∅).

(** What the plan says of one instruction, given what is live before it. *)
Definition recorded (bi j : nat) (i : instruction) (live : N → Prop) (plan : root_plan) : Prop :=
  ∃ c, can_collect index i = Ok c ∧
    if c : bool then ∃ roots, rp_roots plan !! (bi, j) = Some roots ∧ (∀ v, v ∈ roots ↔ live v) ∧ (base.size roots + 1 ≤ rp_capacity plan)%nat
    else rp_roots plan !! (bi, j) = None.

Record plan_extends (plan plan' : root_plan) : Prop := {
  px_roots key : is_Some (rp_roots plan !! key) → rp_roots plan' !! key = rp_roots plan !! key;
  px_capacity : (rp_capacity plan ≤ rp_capacity plan')%nat;
}.

Lemma record_instructions_ok b bi k live plan :
  b ∈ fn_blocks f → (∀ j, rp_roots plan !! (bi, j) = None) →
  returns (for_state (reverse (drop k (imap pair (blk_instructions b)))) (live, plan) (record_roots index types bi)) (λ state,
    (∀ v, v ∈ state.1 ↔ before_all f (drop k (blk_instructions b)) (.∈ live) v) ∧
    (∀ bj j, bj ≠ bi ∨ (j < k)%nat → rp_roots state.2 !! (bj, j) = rp_roots plan !! (bj, j)) ∧
    (rp_capacity plan ≤ rp_capacity state.2)%nat ∧
    (∀ j i, (k ≤ j)%nat → blk_instructions b !! j = Some i →
      recorded bi j i (before_all f (drop j (blk_instructions b)) (.∈ live)) state.2)).
Proof.
  intros Hb Hnone. remember (length (blk_instructions b) - k)%nat as n eqn:Hn. revert k Hn.
  induction n as [|n IH]; intros k Hn.
  - assert (length (blk_instructions b) ≤ k)%nat as Hk by lia. rewrite (drop_ge (imap _ _)) by (by rewrite length_imap).
    rewrite drop_ge by done. apply returns_Ok. simpl. split_and!; [done|done|done|]. intros j i Hj Hi. apply lookup_lt_Some in Hi. lia.
  - assert (is_Some (blk_instructions b !! k)) as [i Hi] by (apply lookup_lt_is_Some; lia).
    rewrite (drop_S (imap pair _) (k, i) k) by (by rewrite list_lookup_imap, Hi). rewrite reverse_cons, for_state_app.
    eapply returns_bind; [apply (IH (S k)); lia|]. intros [live1 plan1] (H1 & H2 & H3 & H4). simpl in H1, H2, H3, H4.
    cbn [for_state]. cbv beta delta [record_roots]. cbv iota.
    destruct (live_before_ok legal index f body i live1) as (live2 & Hrun & Hl2).
    { intros v Hv. apply (read_typed legal index f body b k); [done|apply Nat.lt_le_incl; by eapply lookup_lt_Some|].
      unfold reads_at, reads_next. simpl. by rewrite Hi. }
    assert (∀ v, v ∈ live2 ↔ before_all f (drop k (blk_instructions b)) (.∈ live) v) as Hlive.
    { intros v. rewrite (Hl2 v), (drop_S _ _ _ Hi). simpl. by rewrite <-H1. }
    destruct (can_collect_returns legal index f i) as [c Hc].
    { apply (wfb_instructions _ _ _ body b); [done|]. by eapply list_elem_of_lookup_2. }
    rewrite Hrun, bind_Ok, Hc, bind_Ok. destruct c; rewrite bind_Ok; apply returns_Ok; simpl; (split; [done|]).
    + split_and!.
      * intros bj j Hj. rewrite lookup_insert_ne by (intros [= <- <-]; destruct Hj; [done|lia]). apply H2. destruct Hj; [by left|right; lia].
      * lia.
      * intros j i' Hj Hi'. destruct (decide (j = k)) as [->|Hne].
        { exists true. simpl. rewrite lookup_insert_eq. assert (i' = i) as -> by congruence. split; [done|]. exists live2. split_and!; [done|done|simpl; lia]. }
        destruct (H4 j i' ltac:(lia) Hi') as (c & Hc' & Hr). exists c. split; [done|]. simpl.
        rewrite lookup_insert_ne by congruence. destruct c; [|done]. destruct Hr as (roots & ? & ? & ?). exists roots. split_and!; [done|done|lia].
    + split_and!; [|done|].
      * intros bj j Hj. apply H2. destruct Hj; [by left|right; lia].
      * intros j i' Hj Hi'. destruct (decide (j = k)) as [->|Hne]; [|apply H4; [lia|done]].
        exists false. assert (i' = i) as -> by congruence. split; [done|]. rewrite H2 by (right; lia). apply Hnone.
Qed.

(** The whole plan. *)
Definition plan_exact (plan : root_plan) : Prop :=
  ∀ bi b k i, fn_blocks f !! bi = Some b → blk_instructions b !! k = Some i →
    recorded bi k i (λ v, managed f v ∧ needed f v b k) plan.

Lemma recorded_extends bi j i P Q plan plan' :
  (∀ v, P v ↔ Q v) → rp_roots plan' !! (bi, j) = rp_roots plan !! (bi, j) → (rp_capacity plan ≤ rp_capacity plan')%nat →
  recorded bi j i P plan → recorded bi j i Q plan'.
Proof.
  intros HPQ Hroots Hcap (c & Hc & Hr). exists c. split; [done|]. rewrite Hroots. destruct c; [|done].
  destruct Hr as (roots & ? & Hl & ?). exists roots. split_and!; [done| |lia]. intros v. by rewrite Hl.
Qed.

Lemma plan_roots_ok : returns (plan_roots index f) plan_exact.
Proof.
  unfold plan_roots. cbv zeta. eapply returns_bind.
  { apply (plan_entries_ok legal index f body); [by apply (initial_entries_ok legal index)|]. unfold plan_fuel. lia. }
  intros entries [Hok Hsolved].
  assert (∀ b k v, b ∈ fn_blocks f → (k ≤ length (blk_instructions b))%nat →
    live_from f entries b k v ↔ managed f v ∧ needed f v b k) as Hexact.
  { intros b k v Hb Hk. split; [by apply live_from_needed; [apply (eo_needed _ _ Hok)|]|].
    intros [Hm Hneed]. by apply needed_live_from. }
  eapply returns_weaken.
  - apply (returns_loop_split (λ done plan,
      (∀ bi k, (length done ≤ bi)%nat → rp_roots plan !! (bi, k) = None) ∧
      ∀ bi b k i, (bi < length done)%nat → fn_blocks f !! bi = Some b → blk_instructions b !! k = Some i →
        recorded bi k i (λ v, managed f v ∧ needed f v b k) plan)).
    + intros done [bi b] rest plan Hsplit [Hnone Hdone].
      assert (bi = length done ∧ fn_blocks f !! bi = Some b) as [-> Hbi].
      { pose proof (f_equal (.!! length done) Hsplit) as Hl. rewrite list_lookup_middle in Hl by done. rewrite list_lookup_imap in Hl.
        destruct (fn_blocks f !! length done) eqn:Heq; [|done]. simpl in Hl. by simplify_eq. }
      assert (b ∈ fn_blocks f) as Hb by by eapply list_elem_of_lookup_2. unfold record_block.
      destruct (live_at_end_ok legal index f body entries b Hb (eo_blocks _ _ Hok)) as (live & Hrun & Hlive). rewrite Hrun, bind_Ok.
      destruct (record_instructions_ok b (length done) 0 live plan Hb (λ j, Hnone _ j (le_n _))) as ([live' plan'] & Hrun' & _ & H2 & H3 & H4).
      rewrite drop_0 in Hrun'. rewrite Hrun', bind_Ok. apply returns_Ok. simpl in H2, H3, H4. rewrite length_app. simpl. split.
      * intros bj k Hle. rewrite H2 by (left; lia). apply Hnone. lia.
      * intros bj b' k i Hlt Hbj Hi. destruct (decide (bj = length done)) as [->|Hne].
        { assert (b' = b) as -> by congruence. apply (recorded_extends _ _ _ (before_all f (drop k (blk_instructions b)) (.∈ live)) _ plan' plan'); [|done|done|by apply H4; [lia|]].
          intros v. rewrite <-(Hexact b k v Hb) by (apply Nat.lt_le_incl; by eapply lookup_lt_Some).
          unfold live_from. split; apply before_all_mono; by rewrite (Hlive v). }
        apply (recorded_extends _ _ _ (λ v, managed f v ∧ needed f v b' k) _ plan plan'); [done|by apply H2; left|done|]. apply Hdone; [lia|done|done].
    + simpl. split; [intros; apply lookup_empty|intros; lia].
  - intros plan [_ Hall] bi b k i Hbi Hi. apply Hall; [|done|done]. rewrite length_imap. by eapply lookup_lt_Some.
Qed.
End record.

Local Open Scope list_scope.
Local Open Scope N_scope.

Section spec.
Variable legal : list byte → bool.
Variable index : module_verification_index.
Variable f : function.
Hypothesis body : well_formed_body legal index f.

(** What may still be read has been computed. *)
Lemma needed_computed v b k values :
  needed f v b k → executes f (mk_frame b k values) → v ∈ values.
Proof.
  intros Hneed. revert values. induction Hneed as [b k Hk Hr|b k i Hi Hv _ IH|b e target He Ht Hid Hv _ IH]; intros values Hexec.
  - exact (reads_are_computed legal index f body (mk_frame b k values) v Hexec Hr).
  - assert (v ∈ result_values i ∪ values) as Hin; [|set_solver]. apply IH.
    destruct Hexec as (s0 & Hs & Hrun). exists s0. split; [done|]. eapply rtc_r; [exact Hrun|]. by apply step_instruction.
  - assert (v ∈ parameter_values target ∪ values) as Hin; [|set_solver]. apply IH.
    destruct Hexec as (s0 & Hs & Hrun). exists s0. split; [done|]. eapply rtc_r; [exact Hrun|]. by eapply step_edge.
Qed.

Lemma length_synchronize values (roots : live_references) : length (synchronize_roots values roots) = S (base.size roots).
Proof. unfold synchronize_roots. simpl. by rewrite length_map, merge_sort_Permutation. Qed.

(** A function with an instruction that runs the collector has a frame. *)
Lemma frame_exists b k i e :
  b ∈ fn_blocks f → blk_instructions b !! k = Some i →
  verify_instruction legal (core_context index f) i = Ok e → N.land e heap_effects ≠ 0 →
  ∃ plan bi roots, create_root_frame_storage index f = Ok (Some plan) ∧ fn_blocks f !! bi = Some b ∧
    rp_roots plan !! (bi, k) = Some roots ∧ (base.size roots + 1 ≤ rp_capacity plan)%nat ∧
    ∀ v, v ∈ roots ↔ managed f v ∧ needed f v b k.
Proof.
  intros Hb Hi He Hne. destruct (plan_roots_ok legal index f body) as (plan & Hplan & Hexact).
  pose proof Hb as [bi Hbi]%list_elem_of_lookup.
  destruct (Hexact bi b k i Hbi Hi) as (c & Hc & Hr). rewrite (can_collect_heap legal index f i e He Hne) in Hc. injection Hc as <-.
  destruct Hr as (roots & Hroots & Hv & Hcap). exists plan, bi, roots. split_and!; [|done..].
  unfold create_root_frame_storage. destruct (wfb_instructions _ _ _ body b i Hb) as (e' & He' & Hwithin & _); [by eapply list_elem_of_lookup_2|].
  assert (e' = e) as -> by congruence. rewrite may_collect_heap, Hplan.
  - simpl. by destruct (rp_capacity plan); [lia|].
  - intros Hz. apply Hne. by eapply land_zero_mono.
Qed.
End spec.

(** ** Properties *)

(** C9: The collector never frees an object that compiled code still uses for lack of a root:
    in every execution of an accepted function, when it comes to an instruction whose checked
    effects include managed or native allocation or a safepoint, the function has a root
    frame, the frame as it is synchronized for that instruction holds exactly the managed
    references that some continuation reads before they are defined again, all of them have
    been computed, and the frame has room for them. *)
Theorem roots_protect_live legal index f s i e :
  fn_retained f = false → verify_function legal index f = Ok tt → executes f s →
  blk_instructions (fr_block s) !! fr_next s = Some i →
  verify_instruction legal (core_context index f) i = Ok e → N.land e heap_effects ≠ 0 →
  ∃ plan bi roots, create_root_frame_storage index f = Ok (Some plan) ∧
    fn_blocks f !! bi = Some (fr_block s) ∧ rp_roots plan !! (bi, fr_next s) = Some roots ∧
    (∀ v, v ∈ roots ↔ managed f v ∧ needed f v (fr_block s) (fr_next s)) ∧ roots ⊆ fr_values s ∧
    ∀ values, (length (synchronize_roots values roots) ≤ rp_capacity plan)%nat ∧
      ∀ v, v ∈ roots → values v ∈ synchronize_roots values roots.
Proof.
  intros Hr Hv Hexec Hi He Hne. pose proof (proj2 (verify_function_ok legal index f) tt Hv Hr) as body.
  pose proof (prog_block _ _ (executes_progress legal index f body s Hexec)) as Hb.
  destruct (frame_exists legal index f body _ _ i e Hb Hi He Hne) as (plan & bi & roots & Hplan & Hbi & Hroots & Hcap & Hexact).
  exists plan, bi, roots. split_and!; try done.
  - intros v [_ Hneed]%Hexact. destruct s as [b k values]. by eapply needed_computed.
  - intros values. rewrite length_synchronize. split; [lia|]. intros v Hin. right. apply list_elem_of_fmap. exists v.
    split; [done|]. by rewrite merge_sort_Permutation, elem_of_elements.
Qed.

(** C18: Planning returns on every accepted function, and is exact at every instruction: whether
    it may collect is decided, and if so the recorded set is the least solution of the
    liveness equations, the managed references needed there. *)
Theorem root_plan_exact legal index f :
  fn_retained f = false → verify_function legal index f = Ok tt →
  ∃ plan, plan_roots index f = Ok plan ∧
    ∀ bi b k i, fn_blocks f !! bi = Some b → blk_instructions b !! k = Some i →
      ∃ c, can_collect index i = Ok c ∧
        if c then ∃ roots, rp_roots plan !! (bi, k) = Some roots ∧ ∀ v, v ∈ roots ↔ managed f v ∧ needed f v b k
        else rp_roots plan !! (bi, k) = None.
Proof.
  intros Hr Hv. pose proof (proj2 (verify_function_ok legal index f) tt Hv Hr) as body.
  destruct (plan_roots_ok legal index f body) as (plan & Hplan & Hexact). exists plan. split; [done|].
  intros bi b k i Hbi Hi. destruct (Hexact bi b k i Hbi Hi) as (c & Hc & Hrec). exists c. split; [done|].
  destruct c; [|done]. destruct Hrec as (roots & ? & ? & _). by exists roots.
Qed.

(** ** A function that keeps its parameter over an allocation *)

Definition keep_function : function :=
  Sample.plain_function Sample.fill_id [Sample.class Sample.base_class] NERI_IR_FUNCTION_V1 45
    [mk_block 0 [mk_parameter 1 (Sample.class Sample.base_class) None]
       [Sample.alloc_base;
        Sample.instr NERI_IR_OPCODE_FIELD_LOAD_V1 [mk_value 4 Sample.int] [1] (Some Sample.count_field)]
       (Sample.returning 4)].

Definition keep_frame : frame :=
  mk_frame (mk_block 0 [mk_parameter 1 (Sample.class Sample.base_class) None]
    [Sample.alloc_base; Sample.instr NERI_IR_OPCODE_FIELD_LOAD_V1 [mk_value 4 Sample.int] [1] (Some Sample.count_field)]
    (Sample.returning 4)) 0 {[1]}.

Lemma keep_frame_executes : executes keep_function keep_frame.
Proof.
  eexists. split; [eapply starts_entry; [left|reflexivity]|]. apply reflexive_eq. vm_compute. reflexivity.
Qed.

Lemma roots_protect_live_witness :
  ∃ plan, create_root_frame_storage (module_index Sample.app) keep_function = Ok (Some plan) ∧ rp_roots plan !! (0%nat, 0%nat) = Some {[1]}.
Proof.
  destruct (roots_protect_live (λ _, true) (module_index Sample.app) keep_function keep_frame Sample.alloc_base 44)
    as (plan & _ & _ & Hplan & _); [reflexivity|vm_compute; reflexivity|exact keep_frame_executes|reflexivity|vm_compute; reflexivity|
    vm_compute; discriminate|].
  exists plan. split; [exact Hplan|]. vm_compute in Hplan. injection Hplan as <-. vm_compute. reflexivity.
Defined.

Lemma root_plan_exact_witness : ∃ plan, plan_roots (module_index Sample.app) keep_function = Ok plan ∧ rp_capacity plan = 2%nat.
Proof.
  destruct (root_plan_exact (λ _, true) (module_index Sample.app) keep_function) as (plan & Hplan & _); [reflexivity|vm_compute; reflexivity|].
  exists plan. split; [exact Hplan|]. vm_compute in Hplan. injection Hplan as <-. reflexivity.
Defined.
