(* ===== verification/Modules.v ===== *)
(** * The module checks of the verifier ([native/codegen/ir_verifier.cpp])

    [verify_supported_module]: version, features and session, native records,
    strings, canonical order, classes, globals, imports and functions.  The one
    long function of the source is split at its loops; the set of declared symbols
    and the map of link names are the state that its loops share. *)

From S2P Require Import Prelude Domains IR Reader Types Layout Index Instructions.
From S2P Require Import InstructionSafety InstructionTyping Catalog Functions Dominance Cfg.
From S2P Require Import Ssa.

Local Open Scope string_scope.
Local Open Scope list_scope.
Local Open Scope N_scope.

(** ** Version, features and session *)

Definition verify_version (value : ir_module) : result unit :=
  let v := mod_semantic_version value in
  fail_when (negb (v_major v =? NERI_IR_SEMANTIC_MAJOR_V1)) incompatible_major
    ("IR major " +:+ to_string (v_major v) +:+ " is incompatible with supported major " +:+
     to_string NERI_IR_SEMANTIC_MAJOR_V1 +:+ ".");;
  fail_when (NERI_IR_SEMANTIC_MINOR_V1 <? v_minor v) unsupported_minor
    ("IR minor " +:+ to_string (v_minor v) +:+ " is newer than supported minor " +:+
     to_string NERI_IR_SEMANTIC_MINOR_V1 +:+ ".").

Definition verify_features (value : ir_module) : result unit :=
  for_each (mod_required_features value) (λ feature,
    fail_when (negb (existsb (λ contract, bool_decide (fc_feature contract = feature))
                       ir_feature_contracts)) unsupported_feature
      "Unknown required semantic feature.");;
  fail_when (negb (features_sorted (mod_required_features value)) ||
             adjacent_duplicate (mod_required_features value)) malformed_module
    "Required features are not in unique canonical order.".

Definition has (value : ir_module) (feature : ir_feature) : bool :=
  has_feature (mod_required_features value) feature.

(** The generated entry does not have the declared frame types. *)
Definition session_mismatch (session : session_export) (entry : function) : bool :=
  negb (String.eqb (sym_semantic_name (fn_id entry)) "__neri_session_entry") ||
  (1 <? length (fn_parameter_types entry))%nat ||
  match fn_parameter_types entry with
  | [] => negb (tag_eqb (ty_tag (ses_source_type session)) NERI_IR_TYPE_VOID_V1)
  | parameter :: _ => negb (same_type parameter (ses_source_type session))
  end ||
  negb (same_type (fn_result_type entry) (ses_target_type session) ||
        optional_of (fn_result_type entry) (ses_target_type session)) ||
  negb (tag_eqb (ty_tag (ses_target_type session)) NERI_IR_TYPE_CLASS_V1) ||
  (negb (empty (fn_parameter_types entry)) &&
   negb (tag_eqb (ty_tag (ses_source_type session)) NERI_IR_TYPE_CLASS_V1)).

Definition verify_session (value : ir_module) : result unit :=
  fail_when (negb (Bool.eqb (has value SessionModule) (has_value (mod_session value))))
    unsupported_feature "Session export requires session-module-v1 and its payload.";;
  match mod_session value with
  | None => Ok tt
  | Some session =>
      fail_when (negb (Bool.eqb (has value RetainedModules)
                        (negb (String.eqb (ses_artifact_identity session) ""))))
        invalid_reference "Retained session module requires one artifact identity.";;
      fail_when (match find (λ item, same_symbol (fn_id item) (ses_entry session))
                         (mod_functions value) with
                 | None => true
                 | Some entry => session_mismatch session entry
                 end) invalid_reference
        "Session export does not match the generated entry signature.";;
      require_declared_type value (ses_target_type session) "Session target frame";;
      if negb (tag_eqb (ty_tag (ses_source_type session)) NERI_IR_TYPE_VOID_V1)
      then require_declared_type value (ses_source_type session) "Session source frame"
      else Ok tt
  end.

(** ** Native records *)

Definition verify_native_field (value : ir_module) (record : native_record) (item : field)
    (field_names : gset string) : result (gset string) :=
  fail_when (negb (String.eqb (sym_module (fld_id item)) (mod_id value)) ||
             negb (tag_eqb (sym_kind (fld_id item)) NERI_IR_SYMBOL_FIELD_V1) ||
             negb (starts_with (sym_semantic_name (fld_id item))
                     (sym_semantic_name (nr_id record) +:+ ".")) ||
             negb (tag_eqb (fld_access item) NERI_IR_ACCESS_PUBLIC_V1) ||
             bool_decide (sym_semantic_name (fld_id item) ∈ field_names))
    invalid_reference "Invalid or duplicate native field identity.";;
  require_declared_type value (fld_value_type item) "Native field";;
  verify_location (fld_location item) value;;
  Ok ({[sym_semantic_name (fld_id item)]} ∪ field_names).

Definition verify_native_record (value : ir_module) (record : native_record)
    (state : gset string * native_layouts) : result (gset string * native_layouts) :=
  let '(native_names, layouts) := state in
  fail_when (negb (String.eqb (sym_module (nr_id record)) (mod_id value)) ||
             negb (tag_eqb (sym_kind (nr_id record)) NERI_IR_SYMBOL_NATIVE_RECORD_V1) ||
             bool_decide (sym_semantic_name (nr_id record) ∈ native_names))
    invalid_reference "Invalid or duplicate native record identity.";;
  for_state (nr_fields record) ∅ (verify_native_field value record);;
  '(_, layouts) ← layout value (mk_type NERI_IR_TYPE_NATIVE_RECORD_V1 (Some (nr_id record)) [] 0) layouts;
  Ok ({[sym_semantic_name (nr_id record)]} ∪ native_names, layouts).

Definition verify_native_records (value : ir_module) : result unit :=
  fail_when (negb (empty (mod_native_records value)) && lacks_feature value NativeRecords)
    unsupported_feature "Native records require native-records-v1.";;
  for_state (mod_native_records value) (∅, no_layouts) (verify_native_record value);;
  Ok tt.

(** ** Strings, sources and canonical order *)

Definition uses_native_strings (value : ir_module) : bool :=
  existsb (λ g, contains_string (glb_value_type g)) (mod_globals value) ||
  existsb (λ c, existsb (λ f, contains_string (fld_value_type f)) (cls_fields c)) (mod_classes value) ||
  existsb (λ f, contains_string (fn_result_type f) ||
                existsb contains_string (fn_parameter_types f) ||
                existsb (λ b, existsb (λ p, contains_string (par_value_type p)) (blk_parameters b) ||
                              existsb (λ i, existsb (λ r, contains_string (val_value_type r))
                                              (ins_results i)) (blk_instructions b)) (fn_blocks f))
    (mod_functions value).

Definition verify_strings (value : ir_module) : result unit :=
  fail_when (uses_native_strings value && negb (has value NativeStrings)) unsupported_feature
    "Native string values require semantic feature 'native-strings-v1'.".

Section text.
Variable isLegalUTF8String : list byte → bool.

Definition verify_order (value : ir_module) : result unit :=
  require_unique_order (mod_sources value) "Sources" src_id String.ltb;;
  for_each (mod_sources value) (λ s,
    fail_when (negb (strict_utf8 isLegalUTF8String (src_utf8 s))) invalid_source
      ("Source '" +:+ src_id s +:+ "' does not contain strict UTF-8."));;
  require_unique_order (mod_classes value) "Classes" cls_id symbol_ltb;;
  require_unique_order (mod_globals value) "Globals" glb_id symbol_ltb;;
  require_unique_order (mod_imports value) "Imports" imp_id symbol_ltb;;
  require_unique_order (mod_functions value) "Functions" fn_id symbol_ltb.
End text.

(** ** Classes *)

(** [std::set::insert(key).second] is false for a key already there. *)
Notation declared key declarations := (bool_decide (key ∈ declarations)).

Definition valid_access (access : neri_ir_access_v1) : bool :=
  (tag_to_N NERI_IR_ACCESS_PUBLIC_V1 <=? tag_to_N access) &&
  (tag_to_N access <=? tag_to_N NERI_IR_ACCESS_INTERNAL_V1).

Section module.
Variable isLegalUTF8String : list byte → bool.
Variable value : ir_module.

Notation index := (module_index value).

(** State: the fields of the class and the declarations of the module. *)
Definition verify_class_field (item : field) (state : gset symbol_id * gset symbol_id)
    : result (gset symbol_id * gset symbol_id) :=
  let '(fields, declarations) := state in
  verify_location (fld_location item) index;;
  fail_when (negb (String.eqb (sym_module (fld_id item)) (mod_id value)) ||
             negb (tag_eqb (sym_kind (fld_id item)) NERI_IR_SYMBOL_FIELD_V1) ||
             negb (valid_access (fld_access item)) ||
             declared (fld_id item) fields || declared (fld_id item) declarations)
    invalid_reference "Class field has invalid or duplicate metadata.";;
  require_declared_type index (fld_value_type item) "Class field";;
  Ok ({[fld_id item]} ∪ fields, {[fld_id item]} ∪ declarations).

(** Both slots are there when they are compared: the tests before it reject the rest. *)
Definition dispatch_mismatch (item : method) (target : function) : bool :=
  let virtual_dispatch := tag_eqb (mth_dispatch item) NERI_IR_DISPATCH_VIRTUAL_V1 in
  let static_dispatch := tag_eqb (mth_dispatch item) NERI_IR_DISPATCH_STATIC_V1 in
  let direct_dispatch := tag_eqb (mth_dispatch item) NERI_IR_DISPATCH_DIRECT_V1 in
  (negb virtual_dispatch && negb static_dispatch && negb direct_dispatch) ||
  negb (Bool.eqb virtual_dispatch (has_value (mth_dispatch_slot item))) ||
  negb (Bool.eqb virtual_dispatch (has_value (fn_dispatch_slot target))) ||
  (virtual_dispatch &&
   match mth_dispatch_slot item, fn_dispatch_slot target with
   | Some a, Some b => negb (same_symbol a b) | _, _ => true end) ||
  negb (Bool.eqb static_dispatch (tag_eqb (fn_kind target) NERI_IR_STATIC_METHOD_V1)) ||
  (virtual_dispatch && negb (tag_eqb (fn_kind target) NERI_IR_INSTANCE_METHOD_V1)) ||
  (direct_dispatch && negb (tag_eqb (fn_kind target) NERI_IR_INSTANCE_METHOD_V1) &&
   negb (tag_eqb (fn_kind target) NERI_IR_CONSTRUCTOR_V1)).

Definition verify_method (declaration : class_declaration) (item : method) (methods : gset symbol_id)
    : result (gset symbol_id) :=
  verify_location (mth_location item) index;;
  fail_when (declared (mth_function_id item) methods) malformed_module
    "Class has a duplicate method entry.";;
  match find_function index (mth_function_id item) with
  | None => verify_fail invalid_reference "Class method entry disagrees with function metadata."
  | Some target =>
      fail_when (match fn_declaring_class target with
                 | Some class => negb (same_symbol class (cls_id declaration)) | None => true end)
        invalid_reference "Class method entry disagrees with function metadata.";;
      fail_when (dispatch_mismatch item target) invalid_reference
        "Class method dispatch metadata is inconsistent.";;
      Ok ({[mth_function_id item]} ∪ methods)
  end.

Definition verify_class (declaration : class_declaration) (declarations : gset symbol_id)
    : result (gset symbol_id) :=
  verify_location (cls_location declaration) index;;
  fail_when (negb (String.eqb (sym_module (cls_id declaration)) (mod_id value)) ||
             negb (tag_eqb (sym_kind (cls_id declaration)) NERI_IR_SYMBOL_CLASS_V1) ||
             negb (valid_access (cls_access declaration)) ||
             declared (cls_id declaration) declarations)
    invalid_reference "Class has invalid or duplicate metadata.";;
  fail_when (match cls_base declaration with
             | None => false
             | Some base => negb (tag_eqb (sym_kind base) NERI_IR_SYMBOL_CLASS_V1) ||
                            negb (has_value (find_class index base))
             end) invalid_reference "Class references a missing base class.";;
  '(_, declarations) ← for_state (cls_fields declaration)
      (∅, {[cls_id declaration]} ∪ declarations) verify_class_field;
  for_state (cls_methods declaration) ∅ (verify_method declaration);;
  Ok declarations.

(** ** Globals *)

Definition verify_global (global : global_declaration) (declarations : gset symbol_id)
    : result (gset symbol_id) :=
  verify_location (glb_location global) index;;
  fail_when (negb (String.eqb (sym_module (glb_id global)) (mod_id value)) ||
             negb (tag_eqb (sym_kind (glb_id global)) NERI_IR_SYMBOL_GLOBAL_V1) ||
             declared (glb_id global) declarations)
    invalid_reference "Global has an invalid or duplicate symbol.";;
  require_declared_type index (glb_value_type global) "Global";;
  verify_constant isLegalUTF8String (glb_initializer global) (glb_value_type global) 0;;
  fail_when (tag_eqb (c_tag (glb_initializer global)) NERI_IR_CONSTANT_STRING_UTF8_V1 &&
             negb (has value StringData)) unsupported_feature
    "String UTF-8 data requires semantic feature 'string-data-v1'.";;
  fail_when (is_string (glb_value_type global) &&
             negb (tag_eqb (c_tag (glb_initializer global)) NERI_IR_CONSTANT_STRING_UTF8_V1))
    invalid_type "String global requires a canonical string.utf8 initializer.";;
  Ok ({[glb_id global]} ∪ declarations).

(** ** Imports *)

Definition verify_c_import (import : import_declaration) : result unit :=
  fail_when (String.eqb (imp_link_name import) "neri_rt_v1_foreign_enter" ||
             String.eqb (imp_link_name import) "neri_rt_v1_foreign_leave" ||
             has_value (neri_abi_runtime_import (imp_link_name import)))
    invalid_reference "C ABI import names a compiler-controlled runtime symbol.";;
  fail_when (negb (N.land (imp_effects import) c_call_effects =? c_call_effects)) invalid_safety
    "C ABI import weakens the conservative effect contract.";;
  fail_when (has_value (imp_minimum_runtime import) ||
             negb (portable_c_identifier (imp_link_name import)) ||
             negb (is_c_abi_type (imp_result_type import) true) ||
             negb (forallb (λ t, is_c_abi_type t false) (imp_parameter_types import)))
    invalid_type "C ABI import has a non-portable symbol, signature, or runtime requirement.".

Definition same_parameters (previous import : import_declaration) : bool :=
  size_is (imp_parameter_types previous) (length (imp_parameter_types import)) &&
  forallb (λ '(a, b), same_type a b)
    (combine (imp_parameter_types previous) (imp_parameter_types import)).

Definition incompatible_contract (previous import : import_declaration) : bool :=
  negb (tag_eqb (imp_kind previous) (imp_kind import)) ||
  negb (same_type (imp_result_type previous) (imp_result_type import)) ||
  negb (imp_effects previous =? imp_effects import) ||
  negb (same_runtime_requirement (imp_minimum_runtime previous) (imp_minimum_runtime import)) ||
  negb (same_parameters previous import).

Definition importable_kind (kind : neri_ir_symbol_kind_v1) : bool :=
  tag_eqb kind NERI_IR_SYMBOL_LIBRARY_FUNCTION_V1 || tag_eqb kind NERI_IR_SYMBOL_INTRINSIC_V1 ||
  tag_eqb kind NERI_IR_SYMBOL_FUNCTION_V1.

(** Types, link name and library of an import. *)
Definition verify_import_shape (import : import_declaration) : result unit :=
  for_each (imp_parameter_types import) (λ parameter,
    require_declared_type index parameter "Import parameter");;
  require_result_type (imp_result_type import) "Import result";;
  (if negb (is_void (imp_result_type import))
   then require_declared_type index (imp_result_type import) "Import result" else Ok tt);;
  fail_when (negb (printable_ascii_symbol (imp_link_name import))) malformed_module
    "Import link name is not printable ASCII.";;
  fail_when (negb (String.eqb (imp_native_library import) "") &&
             (negb (tag_eqb (imp_kind import) NERI_IR_IMPORT_C_ABI_V1) ||
              negb (native_library_name (imp_native_library import)) ||
              lacks_feature value NativeLibraries)) invalid_type
    "Native library requires a C ABI import, a portable library name, and native-libraries-v1.".

(** State: the declarations and the first import of each link name. *)
Definition verify_import (import : import_declaration)
    (state : gset symbol_id * gmap string import_declaration)
    : result (gset symbol_id * gmap string import_declaration) :=
  let '(declarations, links) := state in
  verify_location (imp_location import) index;;
  fail_when (negb (String.eqb (sym_module (imp_id import)) (mod_id value)) ||
             negb (importable_kind (sym_kind (imp_id import))) ||
             declared (imp_id import) declarations)
    invalid_reference "Import has an invalid or duplicate symbol.";;
  verify_import_shape import;;
  match imp_kind import with
  | NERI_IR_IMPORT_RUNTIME_V1 => verify_runtime_import import
  | NERI_IR_IMPORT_C_ABI_V1 => verify_c_import import
  end;;
  match links !! imp_link_name import with
  | Some previous =>
      fail_when (incompatible_contract previous import) malformed_module
        "Import link name is declared with incompatible contracts.";;
      Ok ({[imp_id import]} ∪ declarations, links)
  | None => Ok ({[imp_id import]} ∪ declarations, <[imp_link_name import := import]> links)
  end.

(** ** Functions *)

Definition verify_function_name (links : gmap string import_declaration) (f : function)
    (state : gset symbol_id * gset string) : result (gset symbol_id * gset string) :=
  let '(declarations, exported_links) := state in
  fail_when (declared (fn_id f) declarations) malformed_module
    "Function symbol duplicates another module declaration.";;
  if String.eqb (fn_export_name f) "" then Ok ({[fn_id f]} ∪ declarations, exported_links)
  else
    fail_when (has_value (links !! fn_export_name f) || declared (fn_export_name f) exported_links)
      invalid_reference "C export link name conflicts with another export or import.";;
    Ok ({[fn_id f]} ∪ declarations, {[fn_export_name f]} ∪ exported_links).

Definition verify_supported_module : result unit :=
  verify_version value;;
  verify_features value;;
  verify_session value;;
  verify_native_records value;;
  verify_strings value;;
  verify_order isLegalUTF8String value;;
  declarations ← for_state (mod_classes value) ∅ verify_class;
  verify_inheritance index;;
  declarations ← for_state (mod_globals value) declarations verify_global;
  '(declarations, links) ← for_state (mod_imports value) (declarations, ∅) verify_import;
  for_state (mod_functions value) (declarations, ∅) (verify_function_name links);;
  for_each (mod_functions value) (verify_function isLegalUTF8String index).
End module.
