(* ===== verification/ModuleSafety.v ===== *)
(** * What a supported module is

    [verify_supported_module] never reaches undefined behaviour, and the modules it
    accepts have unique symbols, an acyclic class hierarchy, laid-out native
    records, imports that honour the runtime catalog, and functions in SSA form. *)

From S2P Require Import Prelude Domains IR Samples Reader Types Layout Index Instructions.
From S2P Require Import InstructionSafety InstructionTyping Catalog Functions Dominance Cfg.
From S2P Require Import Ssa Modules.

Local Open Scope string_scope.
Local Open Scope list_scope.
Local Open Scope N_scope.

(** ** Sets that stand for lists without duplicates *)

Definition collected {K} `{Countable K} (keys : list K) (set : gset K) : Prop :=
  set = list_to_set keys ∧ NoDup keys.

Lemma collected_nil {K} `{Countable K} : collected (K:=K) [] ∅.
Proof. split; [done|constructor]. Qed.

Lemma collected_snoc {K} `{Countable K} (keys : list K) set key :
  collected keys set → bool_decide (key ∈ set) = false → collected (keys ++ [key]) ({[key]} ∪ set).
Proof.
  intros [-> Hn] Hk%bool_decide_eq_false. rewrite elem_of_list_to_set in Hk. split.
  - apply set_eq. intros x. rewrite elem_of_union, !elem_of_list_to_set, elem_of_app. set_solver.
  - apply NoDup_app. split_and!; [done|set_solver|apply NoDup_singleton].
Qed.

(** A loop that establishes a fact of the items done so far. *)
Lemma ensures_loop {A S} (I : list A → S → Prop) (l : list A) body s :
  (∀ done x s, x ∈ l → I done s → ensures (body x s) (I (done ++ [x]))) →
  I [] s → ensures (for_state l s body) (I l).
Proof.
  intros Hstep HI. pose proof (ensures_collect I (λ x, [x]) l body [] s) as H.
  rewrite concat_singletons, map_id in H. apply H; [|done]. intros x ds s' Hx. by apply Hstep.
Qed.

Lemma Forall_snoc {A} (P : A → Prop) l x : Forall P l → P x → Forall P (l ++ [x]).
Proof. intros. apply Forall_app. split; [done|by apply Forall_singleton]. Qed.

Lemma ensures_defined_Ok {A} (m : result A) : defined m → ensures m (λ a, m = Ok a).
Proof. by split. Qed.

Section module.
Variable legal : list byte → bool.
Variable value : ir_module.

Notation index := (module_index value).

(** ** Classes *)

Definition field_ok (item : field) : Prop :=
  sym_module (fld_id item) = mod_id value ∧ sym_kind (fld_id item) = NERI_IR_SYMBOL_FIELD_V1 ∧
  require_declared_type index (fld_value_type item) "Class field" = Ok tt.

Definition method_ok (declaration : class_declaration) (item : method) : Prop :=
  ∃ target, find_function index (mth_function_id item) = Some target ∧
    fn_declaring_class target = Some (cls_id declaration) ∧ dispatch_mismatch item target = false.

Record class_ok (declaration : class_declaration) : Prop := {
  class_module : sym_module (cls_id declaration) = mod_id value;
  class_kind : sym_kind (cls_id declaration) = NERI_IR_SYMBOL_CLASS_V1;
  class_base base : cls_base declaration = Some base → is_Some (find_class index base);
  class_fields : Forall field_ok (cls_fields declaration);
  class_methods : Forall (method_ok declaration) (cls_methods declaration);
  class_unique_methods : NoDup (map mth_function_id (cls_methods declaration));
}.

(** The symbols a class declares in its module. *)
Definition class_symbols (declaration : class_declaration) : list symbol_id :=
  cls_id declaration :: map fld_id (cls_fields declaration).

(** A virtual entry and its function name the same slot. *)
Lemma dispatch_slot_agrees item target :
  dispatch_mismatch item target = false → mth_dispatch item = NERI_IR_DISPATCH_VIRTUAL_V1 →
  fn_dispatch_slot target = mth_dispatch_slot item.
Proof.
  unfold dispatch_mismatch. intros H Hv. rewrite Hv in H.
  destruct (mth_dispatch_slot item) as [a|], (fn_dispatch_slot target) as [b|]; try discriminate H.
  cbn in H. destruct (same_symbol a b) eqn:Hs; [|discriminate H]. by apply same_symbol_eq in Hs as ->.
Qed.

Lemma verify_class_field_ok d done item fields declarations :
  collected (map fld_id done) fields → collected (d ++ map fld_id done) declarations →
  Forall field_ok done →
  ensures (verify_class_field value item (fields, declarations)) (λ s,
    collected (map fld_id (done ++ [item])) s.1 ∧ collected (d ++ map fld_id (done ++ [item])) s.2 ∧
    Forall field_ok (done ++ [item])).
Proof.
  intros Hf Hd Hall. unfold verify_class_field.
  eapply ensures_bind; [apply ensures_true, verify_location_defined|]. intros _ _.
  eapply ensures_bind; [apply ensures_when|]. intros [] Hc. rewrite !orb_false_iff in Hc.
  destruct Hc as [[[[Hm Hk] _] Hnf] Hnd].
  eapply ensures_bind; [apply ensures_defined_Ok, require_declared_type_defined|]. intros [] Ht.
  apply ensures_Ok. simpl. rewrite map_app, app_assoc. cbn [map].
  split_and!; [by apply collected_snoc|by apply collected_snoc|]. apply Forall_snoc; [done|].
  apply negb_false_iff in Hm, Hk. apply String.eqb_eq in Hm. apply tag_eqb_eq in Hk. done.
Qed.

Lemma verify_method_ok declaration done item methods :
  collected (map mth_function_id done) methods → Forall (method_ok declaration) done →
  ensures (verify_method value declaration item methods) (λ s,
    collected (map mth_function_id (done ++ [item])) s ∧
    Forall (method_ok declaration) (done ++ [item])).
Proof.
  intros Hms Hall. unfold verify_method.
  eapply ensures_bind; [apply ensures_true, verify_location_defined|]. intros _ _.
  eapply ensures_bind; [apply ensures_when|]. intros [] Hn.
  destruct (find_function index (mth_function_id item)) as [target|] eqn:Ht; [|apply ensures_reader_error].
  eapply ensures_bind; [apply ensures_when|]. intros [] Hc.
  eapply ensures_bind; [apply ensures_when|]. intros [] Hd. apply ensures_Ok.
  rewrite map_app. split; [by apply collected_snoc|]. apply Forall_snoc; [done|].
  exists target. split_and!; [done| |done].
  destruct (fn_declaring_class target) as [class|]; [|done].
  apply negb_false_iff, same_symbol_eq in Hc. by subst.
Qed.

Lemma verify_class_ok declaration d declarations :
  collected d declarations →
  ensures (verify_class value declaration declarations) (λ s,
    collected (d ++ class_symbols declaration) s ∧ class_ok declaration).
Proof.
  intros Hd. unfold verify_class.
  eapply ensures_bind; [apply ensures_true, verify_location_defined|]. intros _ _.
  eapply ensures_bind; [apply ensures_when|]. intros [] Hc. rewrite !orb_false_iff in Hc.
  destruct Hc as [[[Hm Hk] _] Hnd].
  eapply ensures_bind; [apply ensures_when|]. intros [] Hb.
  eapply ensures_bind.
  { apply (ensures_loop (λ done s, collected (map fld_id done) s.1 ∧
      collected ((d ++ [cls_id declaration]) ++ map fld_id done) s.2 ∧ Forall field_ok done)).
    - intros done item [fields ds] _ (Hf & Hds & Hall). by apply verify_class_field_ok.
    - simpl. rewrite app_nil_r. split_and!; [apply collected_nil|by apply collected_snoc|constructor]. }
  intros [fields ds] (_ & Hds & Hfields). simpl in Hds. eapply ensures_bind.
  { apply (ensures_loop (λ done s, collected (map mth_function_id done) s ∧
      Forall (method_ok declaration) done)).
    - intros done item s _ [Hs Hall]. by apply verify_method_ok.
    - split; [apply collected_nil|constructor]. }
  intros methods [[_ Hunique] Hmethods]. apply ensures_Ok.
  split; [by unfold class_symbols; rewrite <-app_assoc in Hds|].
  apply negb_false_iff in Hm, Hk. apply String.eqb_eq in Hm. apply tag_eqb_eq in Hk.
  split; try done. intros base Hbase. rewrite Hbase in Hb. apply orb_false_iff in Hb as [_ Hb].
  destruct (find_class index base); [by eexists|done].
Qed.

(** ** Globals *)

Record global_ok (global : global_declaration) : Prop := {
  global_module : sym_module (glb_id global) = mod_id value;
  global_kind : sym_kind (glb_id global) = NERI_IR_SYMBOL_GLOBAL_V1;
  global_type : require_declared_type index (glb_value_type global) "Global" = Ok tt;
  global_initializer : verify_constant legal (glb_initializer global) (glb_value_type global) 0 = Ok tt;
  global_string : is_string (glb_value_type global) = true →
    c_tag (glb_initializer global) = NERI_IR_CONSTANT_STRING_UTF8_V1;
}.

Lemma verify_global_ok global d declarations :
  collected d declarations →
  ensures (verify_global legal value global declarations) (λ s,
    collected (d ++ [glb_id global]) s ∧ global_ok global).
Proof.
  intros Hd. unfold verify_global.
  eapply ensures_bind; [apply ensures_true, verify_location_defined|]. intros _ _.
  eapply ensures_bind; [apply ensures_when|]. intros [] Hc. rewrite !orb_false_iff in Hc.
  destruct Hc as [[Hm Hk] Hnd].
  eapply ensures_bind; [apply ensures_defined_Ok, require_declared_type_defined|]. intros [] Ht.
  eapply ensures_bind; [apply ensures_defined_Ok, verify_constant_defined|]. intros [] Hv.
  eapply ensures_bind; [apply ensures_when|]. intros [] _.
  eapply ensures_bind; [apply ensures_when|]. intros [] Hs. apply ensures_Ok.
  split; [by apply collected_snoc|]. apply negb_false_iff in Hm, Hk.
  apply String.eqb_eq in Hm. apply tag_eqb_eq in Hk. split; try done.
  intros His. rewrite His in Hs. by apply negb_false_iff, tag_eqb_eq in Hs.
Qed.

(** ** Imports *)

(** A foreign import is not a runtime symbol and carries every effect of foreign code. *)
Definition c_import_ok (import : import_declaration) : Prop :=
  neri_abi_runtime_import (imp_link_name import) = None ∧
  effects_within c_call_effects (imp_effects import) ∧ imp_minimum_runtime import = None ∧
  portable_c_identifier (imp_link_name import) = true ∧
  is_c_abi_type (imp_result_type import) true = true ∧
  Forall (λ t, is_c_abi_type t false = true) (imp_parameter_types import).

Definition contract_ok (import : import_declaration) : Prop :=
  match imp_kind import with
  | NERI_IR_IMPORT_RUNTIME_V1 => ∃ contract,
      neri_abi_runtime_import (imp_link_name import) = Some contract ∧ import_honours import contract
  | NERI_IR_IMPORT_C_ABI_V1 => c_import_ok import
  end.

(** Two imports that bind one symbol of the linked program agree on its contract. *)
Definition same_contract (a b : import_declaration) : Prop :=
  imp_kind a = imp_kind b ∧ imp_result_type a = imp_result_type b ∧ imp_effects a = imp_effects b ∧
  imp_minimum_runtime a = imp_minimum_runtime b ∧ imp_parameter_types a = imp_parameter_types b.

#[local] Instance same_contract_equivalence : Equivalence same_contract.
Proof.
  split.
  - by intros a.
  - intros a b (? & ? & ? & ? & ?). done.
  - intros a b c (? & ? & ? & ? & ?) (? & ? & ? & ? & ?). split_and!; congruence.
Qed.

Lemma same_parameters_iff a b : same_parameters a b = true ↔ imp_parameter_types a = imp_parameter_types b.
Proof.
  unfold same_parameters, size_is. rewrite andb_true_iff, Nat.eqb_eq.
  generalize (imp_parameter_types a) (imp_parameter_types b). clear. intros l.
  induction l as [|t l IH]; intros [|t' l']; simpl; [done|by split; [intros []|]..|].
  rewrite andb_true_iff, same_type_Ok. specialize (IH l'). split.
  - intros [[= Hl] [-> H]]. f_equal. tauto.
  - intros [= -> ->]. split; [done|]. split; [done|]. by apply IH.
Qed.

Lemma incompatible_contract_iff a b : incompatible_contract a b = false ↔ same_contract a b.
Proof.
  unfold incompatible_contract, same_contract. rewrite !orb_false_iff, !negb_false_iff.
  rewrite tag_eqb_eq, same_type_Ok, N.eqb_eq, same_runtime_requirement_Ok, same_parameters_iff. tauto.
Qed.

Lemma verify_c_import_ok import : ensures (verify_c_import import) (λ _, c_import_ok import).
Proof.
  unfold verify_c_import.
  eapply ensures_bind; [apply ensures_when|]. intros [] H1. apply orb_false_iff in H1 as [_ H1].
  eapply ensures_bind; [apply ensures_when|]. intros [] H2.
  apply negb_false_iff, N.eqb_eq, land_contains in H2.
  eapply ensures_weaken; [apply ensures_when|]. intros [] H3. rewrite !orb_false_iff, !negb_false_iff in H3.
  destruct H3 as [[[Hr Hp] Hres] Hps].
  destruct (neri_abi_runtime_import (imp_link_name import)) eqn:Hc; [done|].
  destruct (imp_minimum_runtime import) eqn:Hm; [done|]. unfold c_import_ok. rewrite Hc, Hm.
  split_and!; try done. apply Forall_forall. intros t Ht%list_elem_of_In.
  by apply (proj1 (forallb_forall _ _) Hps).
Qed.

Lemma verify_import_contract_ok import :
  ensures (match imp_kind import with
           | NERI_IR_IMPORT_RUNTIME_V1 => verify_runtime_import import
           | NERI_IR_IMPORT_C_ABI_V1 => verify_c_import import
           end) (λ _, contract_ok import).
Proof.
  unfold contract_ok. destruct (imp_kind import).
  - destruct (verify_runtime_import_ok import) as [Hd Hiff]. split; [done|]. by intros [] ?%Hiff.
  - apply verify_c_import_ok.
Qed.

Lemma verify_import_shape_defined import : defined (verify_import_shape value import).
Proof.
  unfold verify_import_shape. apply defined_bind; [|intros _ _].
  { apply for_each_defined, Forall_true. auto with defined_db. }
  apply defined_bind; [auto with defined_db|intros _ _].
  apply defined_bind; [destruct (negb _); auto with defined_db|intros _ _].
  apply defined_bind; auto with defined_db.
Qed.

Record import_ok (import : import_declaration) : Prop := {
  import_module : sym_module (imp_id import) = mod_id value;
  import_contract : contract_ok import;
}.

(** The link map holds the first import of each name. *)
Record links_ok (done : list import_declaration) (links : gmap string import_declaration) : Prop := {
  links_bound import : import ∈ done →
    ∃ first, links !! imp_link_name import = Some first ∧ same_contract first import;
  links_only name first : links !! name = Some first → ∃ import, import ∈ done ∧ imp_link_name import = name;
}.

Lemma links_ok_snoc done links import :
  links_ok done links →
  (∀ first, links !! imp_link_name import = Some first → same_contract first import) →
  links_ok (done ++ [import])
    match links !! imp_link_name import with
    | Some _ => links | None => <[imp_link_name import := import]> links end.
Proof.
  intros [Hb Ho] Hsame. destruct (links !! imp_link_name import) as [first|] eqn:Hl; split.
  - intros x [Hx|Hx%list_elem_of_singleton]%elem_of_app; [by apply Hb|]. subst x. exists first. auto.
  - intros name f Hf. destruct (Ho _ _ Hf) as (x & Hx & Hn). exists x. split; [|done].
    apply elem_of_app. by left.
  - intros x [Hx|Hx%list_elem_of_singleton]%elem_of_app.
    + destruct (Hb x Hx) as (f & Hf & Hs). exists f. split; [|done].
      rewrite lookup_insert_ne; [done|]. intros Heq. by rewrite Heq, Hf in Hl.
    + subst x. exists import. rewrite lookup_insert_eq. split; [done|]. reflexivity.
  - intros name f. destruct (decide (imp_link_name import = name)) as [<-|Hne].
    + intros _. exists import. split; [|done]. apply elem_of_app. right. by apply list_elem_of_singleton.
    + rewrite lookup_insert_ne by done. intros Hf. destruct (Ho _ _ Hf) as (x & Hx & Hn).
      exists x. split; [|done]. apply elem_of_app. by left.
Qed.

Lemma verify_import_ok import d done declarations links :
  collected d declarations → links_ok done links →
  ensures (verify_import value import (declarations, links)) (λ s,
    collected (d ++ [imp_id import]) s.1 ∧ links_ok (done ++ [import]) s.2 ∧ import_ok import).
Proof.
  intros Hd Hl. unfold verify_import.
  eapply ensures_bind; [apply ensures_true, verify_location_defined|]. intros _ _.
  eapply ensures_bind; [apply ensures_when|]. intros [] Hc. rewrite !orb_false_iff in Hc.
  destruct Hc as [[Hm _] Hnd]. apply negb_false_iff, String.eqb_eq in Hm.
  eapply ensures_bind; [apply ensures_true, verify_import_shape_defined|]. intros _ _.
  eapply ensures_bind; [apply verify_import_contract_ok|]. intros [] Hcontract.
  pose proof (links_ok_snoc done links import Hl) as Hsnoc.
  destruct (links !! imp_link_name import) as [first|] eqn:Hfirst.
  - eapply ensures_bind; [apply ensures_when|]. intros [] Hsame. apply ensures_Ok.
    apply incompatible_contract_iff in Hsame.
    split_and!; [by apply collected_snoc|apply Hsnoc; by intros ? [= <-]|by split].
  - apply ensures_Ok. split_and!; [by apply collected_snoc|by apply Hsnoc|by split].
Qed.

(** ** Function names *)

Definition exports (functions : list function) : list string :=
  List.filter (λ name, negb (String.eqb name "")) (map fn_export_name functions).

Lemma exports_snoc functions f :
  exports (functions ++ [f]) =
  exports functions ++ if String.eqb (fn_export_name f) "" then [] else [fn_export_name f].
Proof.
  unfold exports. rewrite map_app, List.filter_app. simpl. by destruct (String.eqb _ _).
Qed.

Lemma verify_function_name_ok links f d done declarations exported :
  collected d declarations → collected (exports done) exported →
  Forall (λ name, links !! name = None) (exports done) →
  ensures (verify_function_name links f (declarations, exported)) (λ s,
    collected (d ++ [fn_id f]) s.1 ∧ collected (exports (done ++ [f])) s.2 ∧
    Forall (λ name, links !! name = None) (exports (done ++ [f]))).
Proof.
  intros Hd He Hl. unfold verify_function_name.
  eapply ensures_bind; [apply ensures_when|]. intros [] Hnd. rewrite exports_snoc.
  destruct (String.eqb (fn_export_name f) "").
  - apply ensures_Ok. rewrite app_nil_r. split_and!; [by apply collected_snoc|done|done].
  - eapply ensures_bind; [apply ensures_when|]. intros [] Hc. apply orb_false_iff in Hc as [Hlink Hn].
    apply ensures_Ok. split_and!; [by apply collected_snoc|by apply collected_snoc|].
    apply Forall_snoc; [done|]. by destruct (links !! fn_export_name f).
Qed.

(** ** Native records *)

Definition record_name (r : native_record) : string := sym_semantic_name (nr_id r).
Definition record_type (r : native_record) : type :=
  mk_type NERI_IR_TYPE_NATIVE_RECORD_V1 (Some (nr_id r)) [] 0.

Lemma verify_native_field_defined r item names : defined (verify_native_field value r item names).
Proof.
  unfold verify_native_field. apply defined_bind; [auto with defined_db|intros _ _].
  apply defined_bind; [auto with defined_db|intros _ _].
  apply defined_bind; [auto with defined_db|done].
Qed.

(** The layouts of the loop share one memo; it stays sound. *)
Notation layouts_ok := (memo_ok value (λ _, sane_layout)).

Lemma verify_native_record_ok r done names layouts :
  collected (map record_name done) names → layouts_ok layouts →
  ensures (verify_native_record value r (names, layouts)) (λ s,
    collected (map record_name (done ++ [r])) s.1 ∧ layouts_ok s.2).
Proof.
  intros Hn Hl. unfold verify_native_record.
  eapply ensures_bind; [apply ensures_when|]. intros [] Hc. apply orb_false_iff in Hc as [_ Hnew].
  eapply ensures_bind.
  { apply ensures_true, (for_state_defined (λ _, True)); [|done]. intros item s _ _.
    split; [apply verify_native_field_defined|done]. }
  intros _ _. eapply ensures_bind; [by apply layout_sane_ok|]. intros [l layouts'] [_ Hl'].
  apply ensures_Ok. rewrite map_app. split; [by apply collected_snoc|done].
Qed.

Lemma verify_native_records_ok :
  ensures (verify_native_records value) (λ _, unique_record_names value).
Proof.
  unfold verify_native_records. eapply ensures_bind; [apply ensures_when|]. intros _ _.
  eapply ensures_bind.
  { apply (ensures_loop (λ done s, collected (map record_name done) s.1 ∧ layouts_ok s.2)).
    - intros done r [names layouts] _ [Hn Hl]. by apply verify_native_record_ok.
    - split; [apply collected_nil|apply memo_ok_empty]. }
  intros s [[_ Hn] _]. by apply ensures_Ok.
Qed.

(** With unique names, every record that is laid out has its C layout. *)
Lemma verify_native_records_layout :
  verify_native_records value = Ok tt →
  Forall (λ r, ∃ l, has_layout value (record_type r) l) (mod_native_records value).
Proof.
  intros Hok. pose proof (proj2 verify_native_records_ok tt Hok) as Hunique.
  unfold verify_native_records in Hok. apply seq_Ok_iff in Hok as [_ Hok].
  apply bind_Ok_inv in Hok as (s & Hrun & _). revert s Hrun.
  assert (ensures (for_state (mod_native_records value) (∅, no_layouts) (verify_native_record value))
    (λ s, memo_ok value (has_layout value) s.2 ∧
          Forall (λ r, ∃ l, has_layout value (record_type r) l) (mod_native_records value))) as [_ H];
    [|intros s Hrun; by apply H in Hrun as [_ ?]].
  apply (ensures_loop (λ done s, memo_ok value (has_layout value) s.2 ∧
    Forall (λ r, ∃ l, has_layout value (record_type r) l) done)).
  - intros done r [names layouts] _ [Hm Hall]. unfold verify_native_record.
    eapply ensures_bind; [apply ensures_when|]. intros _ _. eapply ensures_bind.
    { apply ensures_true, (for_state_defined (λ _, True)); [|done]. intros item s _ _.
      split; [apply verify_native_field_defined|done]. }
    intros _ _. eapply ensures_bind; [by apply layout_refines_ok|]. intros [l layouts'] [Hl Hm'].
    apply ensures_Ok. split; [done|]. apply Forall_snoc; [done|]. by exists l.
  - split; [apply memo_ok_empty|constructor].
Qed.

(** ** Session, order *)

Lemma verify_session_defined : defined (verify_session value).
Proof.
  unfold verify_session. apply defined_bind; [auto with defined_db|intros _ _].
  destruct (mod_session value); [|done]. do 2 (apply defined_bind; [auto with defined_db|intros _ _]).
  apply defined_bind; [auto with defined_db|intros _ _]. destruct (negb _); auto with defined_db.
Qed.

Lemma require_unique_order_ok {A B} (l : list A) d (key : A → B) ltb :
  (∀ a, ltb a a = false) → (∀ a b c, ltb a b = true → ltb b c = true → ltb a c = true) →
  ensures (require_unique_order l d key ltb) (λ _, NoDup (map key l)).
Proof.
  intros Hi Ht. unfold require_unique_order. eapply ensures_weaken; [apply ensures_when|].
  intros [] H%negb_false_iff. by eapply strictly_ordered_NoDup.
Qed.

Record ordered : Prop := {
  ordered_sources : NoDup (map src_id (mod_sources value));
  ordered_utf8 : Forall (λ s, strict_utf8 legal (src_utf8 s) = true) (mod_sources value);
  ordered_classes : NoDup (map cls_id (mod_classes value));
  ordered_imports : NoDup (map imp_id (mod_imports value));
  ordered_functions : NoDup (map fn_id (mod_functions value));
}.

Lemma verify_order_ok : ensures (verify_order legal value) (λ _, ordered).
Proof.
  pose proof symbol_ltb_irrefl as Hi. pose proof symbol_ltb_trans as Ht. unfold verify_order.
  eapply ensures_bind; [apply require_unique_order_ok; [apply string_ltb_irrefl|apply string_ltb_trans]|].
  intros [] Hs. eapply ensures_bind; [apply ensures_for_each; auto with defined_db|]. intros [] Hu.
  do 3 (eapply ensures_bind; [by apply require_unique_order_ok|]; intros [] ?).
  eapply ensures_weaken; [by apply require_unique_order_ok|]. intros [] ?. split; try done.
  eapply Forall_impl; [exact Hu|]. intros s Hf. by apply fail_when_Ok, negb_false_iff in Hf.
Qed.

(** ** Supported modules *)

(** Every symbol the module declares. *)
Definition declared_symbols : list symbol_id :=
  concat (map class_symbols (mod_classes value)) ++ map glb_id (mod_globals value) ++
  map imp_id (mod_imports value) ++ map fn_id (mod_functions value).

Record supported_module : Prop := {
  sup_version : v_major (mod_semantic_version value) = NERI_IR_SEMANTIC_MAJOR_V1 ∧
    v_minor (mod_semantic_version value) <= NERI_IR_SEMANTIC_MINOR_V1;
  sup_ordered : ordered;
  sup_records : unique_record_names value ∧
    Forall (λ r, ∃ l, has_layout value (record_type r) l) (mod_native_records value);
  sup_symbols : NoDup declared_symbols;
  sup_classes : Forall class_ok (mod_classes value);
  sup_hierarchy : ∀ class, ¬ tc (base_of index) class class;
  sup_globals : Forall global_ok (mod_globals value);
  sup_imports : Forall import_ok (mod_imports value);
  sup_links a b : a ∈ mod_imports value → b ∈ mod_imports value →
    imp_link_name a = imp_link_name b → same_contract a b;
  sup_exports : NoDup (exports (mod_functions value)) ∧
    ∀ import, import ∈ mod_imports value → imp_link_name import ∉ exports (mod_functions value);
  sup_functions f : f ∈ mod_functions value → fn_retained f = false → well_formed_body legal index f;
}.

Lemma verify_version_ok :
  ensures (verify_version value) (λ _,
    v_major (mod_semantic_version value) = NERI_IR_SEMANTIC_MAJOR_V1 ∧
    v_minor (mod_semantic_version value) <= NERI_IR_SEMANTIC_MINOR_V1).
Proof.
  unfold verify_version. eapply ensures_bind; [apply ensures_when|]. intros [] H1.
  eapply ensures_weaken; [apply ensures_when|]. intros [] H2.
  apply negb_false_iff, N.eqb_eq in H1. by apply N.ltb_ge in H2.
Qed.

Lemma verify_features_defined : defined (verify_features value).
Proof.
  unfold verify_features. apply defined_bind; [|auto with defined_db].
  apply for_each_defined, Forall_true. auto with defined_db.
Qed.

Lemma inheritance_loop_defined n c : defined (inheritance_loop n index c).
Proof.
  revert c. induction n as [|n IH]; intros c; simpl; destruct (cls_base c); try done.
  case_match; [apply IH|done].
Qed.

Lemma verify_inheritance_ok :
  NoDup (map cls_id (mod_classes value)) →
  ensures (verify_inheritance index) (λ _, ∀ class, ¬ tc (base_of index) class class).
Proof.
  intros Hn. split.
  - apply for_each_defined, Forall_true. intros c. apply inheritance_loop_defined.
  - intros [] H. by apply (verify_inheritance_iff value Hn) in H as [_ ?].
Qed.

Lemma verify_classes_ok :
  ensures (for_state (mod_classes value) ∅ (verify_class value)) (λ s,
    collected (concat (map class_symbols (mod_classes value))) s ∧ Forall class_ok (mod_classes value)).
Proof.
  apply (ensures_loop (λ done s, collected (concat (map class_symbols done)) s ∧ Forall class_ok done)).
  - intros done c s _ [Hs Hall]. eapply ensures_weaken; [by apply verify_class_ok|].
    intros s' [Hs' Hc]. rewrite map_app, concat_app. cbn [map concat]. rewrite app_nil_r.
    split; [done|by apply Forall_snoc].
  - split; [apply collected_nil|constructor].
Qed.

Lemma verify_globals_ok d declarations :
  collected d declarations →
  ensures (for_state (mod_globals value) declarations (verify_global legal value)) (λ s,
    collected (d ++ map glb_id (mod_globals value)) s ∧ Forall global_ok (mod_globals value)).
Proof.
  intros Hd. apply (ensures_loop (λ done s, collected (d ++ map glb_id done) s ∧ Forall global_ok done)).
  - intros done g s _ [Hs Hall]. eapply ensures_weaken; [by apply verify_global_ok|].
    intros s' [Hs' Hg]. rewrite map_app, app_assoc. split; [done|by apply Forall_snoc].
  - simpl. rewrite app_nil_r. by split; [|constructor].
Qed.

Lemma verify_imports_ok d declarations :
  collected d declarations →
  ensures (for_state (mod_imports value) (declarations, ∅) (verify_import value)) (λ s,
    collected (d ++ map imp_id (mod_imports value)) s.1 ∧ links_ok (mod_imports value) s.2 ∧
    Forall import_ok (mod_imports value)).
Proof.
  intros Hd. apply (ensures_loop (λ done s, collected (d ++ map imp_id done) s.1 ∧
    links_ok done s.2 ∧ Forall import_ok done)).
  - intros done i [s links] _ (Hs & Hl & Hall). eapply ensures_weaken; [by apply verify_import_ok|].
    intros s' (Hs' & Hl' & Hi). rewrite map_app, app_assoc. split_and!; [done|done|by apply Forall_snoc].
  - simpl. rewrite app_nil_r. split_and!; [done| |constructor]. split; [set_solver|].
    intros name f Hf. by rewrite lookup_empty in Hf.
Qed.

Lemma verify_function_names_ok links d declarations :
  collected d declarations →
  ensures (for_state (mod_functions value) (declarations, ∅) (verify_function_name links)) (λ s,
    collected (d ++ map fn_id (mod_functions value)) s.1 ∧
    NoDup (exports (mod_functions value)) ∧
    Forall (λ name, links !! name = None) (exports (mod_functions value))).
Proof.
  intros Hd. eapply ensures_weaken.
  - apply (ensures_loop (λ done s, collected (d ++ map fn_id done) s.1 ∧ collected (exports done) s.2 ∧
      Forall (λ name, links !! name = None) (exports done))).
    + intros done f [s exported] _ (Hs & He & Hl).
      eapply ensures_weaken; [by apply verify_function_name_ok|]. intros s' (Hs' & He' & Hl').
      by rewrite map_app, app_assoc.
    + simpl. rewrite app_nil_r. split_and!; [done|apply collected_nil|constructor].
  - intros [s e] (Hs & [_ He] & Hl). done.
Qed.

Lemma links_same_contract links a b :
  links_ok (mod_imports value) links → a ∈ mod_imports value → b ∈ mod_imports value →
  imp_link_name a = imp_link_name b → same_contract a b.
Proof.
  intros Hl Ha Hb Hn. destruct (links_bound _ _ Hl a Ha) as (f & Hf & Hfa).
  destruct (links_bound _ _ Hl b Hb) as (f' & Hf' & Hfb). rewrite Hn, Hf' in Hf. injection Hf as ->.
  by rewrite <-Hfa.
Qed.

Lemma links_exports links import :
  links_ok (mod_imports value) links →
  Forall (λ name, links !! name = None) (exports (mod_functions value)) →
  import ∈ mod_imports value → imp_link_name import ∉ exports (mod_functions value).
Proof.
  intros Hl Hnone Hi Hin. destruct (links_bound _ _ Hl import Hi) as (f & Hf & _).
  rewrite Forall_forall in Hnone. by rewrite Hnone in Hf.
Qed.

Lemma verify_supported_module_ok :
  ensures (verify_supported_module legal value) (λ _, supported_module).
Proof.
  unfold verify_supported_module.
  eapply ensures_bind; [apply verify_version_ok|]. intros [] Hversion.
  eapply ensures_bind; [apply ensures_true, verify_features_defined|]. intros _ _.
  eapply ensures_bind; [apply ensures_true, verify_session_defined|]. intros _ _.
  eapply ensures_bind.
  { apply ensures_defined_Ok. eapply ensures_defined, verify_native_records_ok. }
  intros [] Hrecords. eapply ensures_bind; [apply ensures_true; unfold verify_strings; auto with defined_db|].
  intros _ _. eapply ensures_bind; [apply verify_order_ok|]. intros [] Hordered.
  eapply ensures_bind; [apply verify_classes_ok|]. intros d1 [Hd1 Hclasses].
  eapply ensures_bind; [apply verify_inheritance_ok, Hordered|]. intros [] Hacyclic.
  eapply ensures_bind; [by apply verify_globals_ok|]. intros d2 [Hd2 Hglobals].
  eapply ensures_bind; [by apply verify_imports_ok|]. intros [d3 links] (Hd3 & Hlinks & Himports).
  eapply ensures_bind; [by apply verify_function_names_ok|].
  intros [d4 e] ([_ Hsymbols] & Hexports & Hfree).
  eapply ensures_weaken.
  { apply ensures_for_each. intros f _. eapply ensures_defined, verify_function_ok. }
  intros [] Hfunctions. split; try done.
  - split; [by apply (proj2 verify_native_records_ok tt)|by apply verify_native_records_layout].
  - unfold declared_symbols. by rewrite <-!app_assoc in Hsymbols.
  - intros a b. by apply (links_same_contract links).
  - split; [done|]. intros import. by apply (links_exports links).
  - intros f Hf. apply (proj2 (verify_function_ok legal index f) tt).
    by apply (proj1 (Forall_forall _ _) Hfunctions).
Qed.
End module.

(** ** Properties *)

(** [verify_supported_module] is total on untrusted modules: for every module, decoded or
    not, it accepts or throws one of its errors and never reaches undefined
    behaviour. *)
Theorem verify_supported_module_never_undefined legal m : defined (verify_supported_module legal m).
Proof. eapply ensures_defined, verify_supported_module_ok. Qed.

(** Declarations of a supported module do not collide: all classes, fields, globals,
    imports and functions have distinct symbols; imports that bind the same link
    name agree on kind, types, effects and runtime requirement; exported names are
    distinct and none of them is the link name of an import. *)
Theorem declarations_do_not_collide legal m :
  verify_supported_module legal m = Ok tt →
  NoDup (declared_symbols m) ∧
  (∀ a b, a ∈ mod_imports m → b ∈ mod_imports m → imp_link_name a = imp_link_name b → same_contract a b) ∧
  NoDup (exports (mod_functions m)) ∧
  ∀ import, import ∈ mod_imports m → imp_link_name import ∉ exports (mod_functions m).
Proof.
  intros H%(proj2 (verify_supported_module_ok legal m)). destruct H. destruct sup_exports0.
  split_and!; try done.
Qed.

Lemma declarations_do_not_collide_witness : NoDup (declared_symbols Sample.app).
Proof. apply (declarations_do_not_collide (λ _, true) Sample.app). vm_compute. reflexivity. Defined.

Lemma supported_import legal m id import :
  supported_module legal m → find_import (module_index m) id = Some import → contract_ok import.
Proof.
  intros Hs Hf. rewrite index_find_import in Hf. apply find_key_Some in Hf as [Hin _].
  pose proof (sup_imports _ _ Hs) as Hi. rewrite Forall_forall in Hi. by apply Hi.
Qed.

(** C36: Foreign calls are guarded: in a supported module, an accepted call of a C function
    holds an unsafe capability and charges the caller with every effect foreign code
    may have, the unsafe effect among them. *)
Theorem foreign_calls_guarded legal m context value e :
  verify_supported_module legal m = Ok tt → ctx_index context = module_index m →
  ins_opcode value = NERI_IR_OPCODE_CALL_C_ABI_V1 →
  verify_instruction legal context value = Ok e →
  holds_capability context value ∧ effects_within c_call_effects e.
Proof.
  intros Hm%(proj2 (verify_supported_module_ok legal m)) Hctx Hop (_ & _ & H)%verify_instruction_iff.
  unfold verify_opcode in H. rewrite Hop in H.
  apply verify_call_iff in H as (symbol & ps & r & eff & _ & Ht & _ & Hcap & ->).
  split; [by apply capability_type_holds, Hcap|].
  apply import_target_iff in Ht as (target & Hf & Hk & _ & _ & <-). rewrite Hctx in Hf.
  apply (supported_import legal) in Hf; [|done]. unfold contract_ok in Hf. rewrite Hk in Hf.
  destruct Hf as (_ & He & _). unfold call_effects. apply effects_within_lor.
  etransitivity; [|apply effects_within_ldiff, He]. reflexivity.
Qed.

Definition call_hypot : instruction :=
  Sample.instr NERI_IR_OPCODE_CALL_C_ABI_V1 [mk_value 3 Sample.float] [9; 1; 2] (Some Sample.hypot_id).

Definition hypot_context : function_context :=
  sample_context Sample.load_function [(9, Sample.capability); (1, Sample.float); (2, Sample.float)].

Lemma foreign_calls_guarded_witness : holds_capability hypot_context call_hypot.
Proof.
  apply (foreign_calls_guarded (λ _, true) Sample.app hypot_context call_hypot 127);
    [vm_compute; reflexivity|reflexivity|reflexivity|vm_compute; reflexivity].
Defined.

(** C35: Virtual dispatch is type safe across the class tables: when a virtual call on a slot
    is accepted in a supported module, every method entry that any class binds to
    that slot names a function of the module that is declared by that class and
    implements the signature the call was checked against. *)
Theorem virtual_dispatch_type_safe legal m context value e :
  verify_supported_module legal m = Ok tt → ctx_index context = module_index m →
  ins_opcode value = NERI_IR_OPCODE_CALL_VIRTUAL_V1 →
  verify_instruction legal context value = Ok e →
  ∃ slot signature unsafe,
    ins_symbol value = Some slot ∧
    call_typed context value (if unsafe : bool then 1 else 0)
      (fn_parameter_types signature) (fn_result_type signature) ∧
    ∀ class entry, class ∈ mod_classes m → entry ∈ cls_methods class →
      mth_dispatch entry = NERI_IR_DISPATCH_VIRTUAL_V1 → mth_dispatch_slot entry = Some slot →
      ∃ target, find_function (module_index m) (mth_function_id entry) = Some target ∧
        fn_declaring_class target = Some (cls_id class) ∧ implements unsafe signature target.
Proof.
  intros Hm%(proj2 (verify_supported_module_ok legal m)) Hctx Hop (_ & _ & H)%verify_instruction_iff.
  unfold verify_opcode in H. rewrite Hop in H.
  apply verify_virtual_call_Ok in H as (slot & signature & eff & unsafe & Hs & _ & Hc & _ & _ & Hall).
  exists slot, signature, unsafe. split_and!; [done..|]. intros class entry Hclass Hentry Hv Hslot.
  pose proof (sup_classes _ _ Hm) as Hcs. rewrite Forall_forall in Hcs.
  pose proof (class_methods _ _ (Hcs _ Hclass)) as Hms. rewrite Forall_forall in Hms.
  destruct (Hms _ Hentry) as (target & Hf & Hd & Hmis). exists target. split_and!; [done..|].
  apply Hall. apply dispatch_slot_agrees in Hmis; [|done..]. unfold slot_candidates, ctx_module.
  rewrite Hctx. apply list_elem_of_In, filter_In. rewrite index_find_function in Hf.
  apply find_key_Some in Hf as [Hin _]. split; [by apply list_elem_of_In|].
  rewrite Hmis, Hslot. by apply same_symbol_eq.
Qed.

Lemma virtual_dispatch_type_safe_witness :
  ∃ slot signature unsafe,
    ins_symbol Sample.call_get = Some slot ∧
    call_typed main_context Sample.call_get (if unsafe : bool then 1 else 0)
      (fn_parameter_types signature) (fn_result_type signature) ∧
    ∀ class entry, class ∈ Sample.classes → entry ∈ cls_methods class →
      mth_dispatch entry = NERI_IR_DISPATCH_VIRTUAL_V1 → mth_dispatch_slot entry = Some slot →
      ∃ target, find_function (module_index Sample.app) (mth_function_id entry) = Some target ∧
        fn_declaring_class target = Some (cls_id class) ∧ implements unsafe signature target.
Proof.
  apply (virtual_dispatch_type_safe (λ _, true) Sample.app main_context Sample.call_get 1);
    [vm_compute; reflexivity|reflexivity|reflexivity|vm_compute; reflexivity].
Defined.
