(* ===== verification/Pipeline.v ===== *)
(** * Reading a verified module

    [read_verified_module] of [native/codegen/ir_reader.cpp]: envelope, payload,
    verification.  The theorems of this file are about the whole path from bytes to
    a module that the code generator may lower. *)

From S2P Require Import Prelude Domains IR Samples Reader Codec Utf8 Transport Envelope Types.
From S2P Require Import Layout Index Instructions InstructionSafety InstructionTyping Catalog.
From S2P Require Import Functions Dominance Cfg Ssa Modules ModuleSafety.

Local Open Scope string_scope.
Local Open Scope list_scope.
Local Open Scope N_scope.

Section pipeline.
(** [llvm::isLegalUTF8String] and [llvm::SHA256::hash]. *)
Variable isLegalUTF8String : list byte → bool.
Variable SHA256_hash : list byte → list byte.

Definition read_verified_module (input : list byte) (options : reader_options) : result ir_module :=
  '(transport_minor, payload) ← read_envelope SHA256_hash input options;
  value ← read_payload isLegalUTF8String options transport_minor payload;
  verify_supported_module isLegalUTF8String value;;
  Ok value.

(** The bytes of a module at a transport minor version. *)
Definition encode_module (transport_minor : N) (m : ir_module) : list byte :=
  encode_envelope SHA256_hash transport_minor (encode_payload transport_minor m).

Section laws.
(** What the reader relies on: accepted text is UTF-8, a digest has 32 bytes, and the
    limits are valid on a 64-bit host. *)
Hypothesis isLegalUTF8String_sound :
  ∀ l, isLegalUTF8String l = true → well_formed_utf8 l.
Hypothesis SHA256_hash_length : ∀ l, length (SHA256_hash l) = 32%nat.
Variable options : reader_options.
Hypothesis options_ok : host_options options.

Notation wf := (wf_module isLegalUTF8String (o := options)).

Lemma read_verified_module_iff input m :
  read_verified_module input options = Ok m ↔
  ∃ minor, minor <= NERI_IR_TRANSPORT_MINOR_V1 ∧ wf minor m ∧
    input = encode_module minor m ∧ length_N input <= max_input_bytes options ∧
    verify_supported_module isLegalUTF8String m = Ok tt.
Proof.
  unfold read_verified_module. rewrite bind_Ok_iff. split.
  - intros ([minor payload] & Henv & H). apply read_envelope_iff in Henv as (Hm & Hl & ->); [|done..].
    apply bind_Ok_inv in H as (m' & Hp & H). apply seq_Ok_iff in H as [Hv [= ->]].
    apply read_payload_iff in Hp as [Hwf ->]; [|done]. by exists minor.
  - intros (minor & Hm & Hwf & -> & Hl & Hv). exists (minor, encode_payload minor m).
    split; [by apply read_envelope_iff|].
    rewrite bind_Ok_iff. exists m. split; [by apply read_payload_iff|]. by rewrite Hv.
Qed.

Lemma read_verified_module_ensures input :
  ensures (read_verified_module input options) (supported_module isLegalUTF8String).
Proof.
  unfold read_verified_module.
  eapply ensures_bind; [by apply ensures_true, read_envelope_safe|]. intros [minor payload] _.
  eapply ensures_bind; [by apply ensures_true, read_payload_safe|]. intros m _.
  eapply ensures_bind; [apply verify_supported_module_ok|]. intros [] Hm. by apply ensures_Ok.
Qed.
End laws.
End pipeline.

(** ** Properties *)

(** C1: Every module the reader hands to the code generator is a supported module:
    unique symbols, an acyclic class hierarchy, laid-out native records, typed
    globals, imports that honour the runtime catalog, and every function body in
    SSA form with definitions dominating uses. *)
Theorem accepted_module_supported legal hash input options m :
  read_verified_module legal hash input options = Ok m → supported_module legal m.
Proof.
  unfold read_verified_module. intros ([minor payload] & _ & H)%bind_Ok_inv.
  apply bind_Ok_inv in H as (m' & _ & H). apply seq_Ok_iff in H as [Hv [= ->]].
  by apply (proj2 (verify_supported_module_ok legal m)) in Hv.
Qed.

(** C2: The reader accepts exactly the canonical bytes of verified modules: it returns
    a module if and only if the input is the envelope, at a supported transport
    version and within the size limit, of the encoding of that module, and the
    module passes verification.  So encoding and reading round-trip, and a module
    has one encoding per transport version. *)
Theorem accepted_bytes_exact legal hash options input m :
  (∀ l, legal l = true → well_formed_utf8 l) → (∀ l, length (hash l) = 32%nat) →
  host_options options →
  read_verified_module legal hash input options = Ok m ↔
  ∃ minor, minor <= NERI_IR_TRANSPORT_MINOR_V1 ∧ wf_module legal (o := options) minor m ∧
    input = encode_module hash minor m ∧ length_N input <= max_input_bytes options ∧
    verify_supported_module legal m = Ok tt.
Proof. intros Hlegal Hhash Ho. by apply read_verified_module_iff. Qed.

(** C3: Reading untrusted bytes is safe: for every input, [read_verified_module] returns a
    module or throws one of its errors; no unchecked access of the reader, of the
    layout computation or of the verifier is ever out of range. *)
Theorem read_verified_module_never_undefined legal hash options input :
  (∀ l, legal l = true → well_formed_utf8 l) → (∀ l, length (hash l) = 32%nat) →
  host_options options → defined (read_verified_module legal hash input options).
Proof.
  intros Hlegal Hhash Ho. eapply ensures_defined. by apply read_verified_module_ensures.
Qed.

(** ** Witnesses *)

Definition sample_hash (l : list byte) : list byte := repeat x00 32.

Definition sample_bytes : list byte := encode_module sample_hash 8 Sample.app.

Lemma sample_hash_length l : length (sample_hash l) = 32%nat.
Proof. done. Qed.

Lemma sample_options : host_options default_options.
Proof. split; [done|]. by vm_compute. Qed.

Lemma accepted_module_supported_witness : supported_module ascii_text Sample.app.
Proof.
  apply (accepted_module_supported ascii_text sample_hash sample_bytes default_options Sample.app).
  vm_compute. reflexivity.
Defined.

Lemma accepted_bytes_exact_witness :
  ∃ minor, minor <= NERI_IR_TRANSPORT_MINOR_V1 ∧
    wf_module ascii_text (o := default_options) minor Sample.app ∧
    sample_bytes = encode_module sample_hash minor Sample.app ∧
    length_N sample_bytes <= max_input_bytes default_options ∧
    verify_supported_module ascii_text Sample.app = Ok tt.
Proof.
  apply (accepted_bytes_exact ascii_text sample_hash default_options sample_bytes Sample.app
    ascii_text_sound sample_hash_length sample_options).
  vm_compute. reflexivity.
Defined.

Lemma read_verified_module_never_undefined_witness :
  defined (read_verified_module ascii_text sample_hash (tail sample_bytes) default_options).
Proof.
  apply (read_verified_module_never_undefined ascii_text sample_hash default_options (tail sample_bytes)
    ascii_text_sound sample_hash_length sample_options).
Defined.
