(* ===== verification/Requirements.v ===== *)
(** * Runtime requirements of a program ([native/codegen/llvm_lowering.cpp])

    [emit_program_requirements]: the runtime version and features that the emitted
    program demands at start-up.  The construction of the LLVM constant from these
    values is not modelled. *)

From S2P Require Import Prelude Domains IR Samples Reader Types Layout Index Instructions.
From S2P Require Import InstructionSafety InstructionTyping Catalog Functions Dominance Cfg.
From S2P Require Import Ssa Modules ModuleSafety.

Local Open Scope string_scope.
Local Open Scope list_scope.
Local Open Scope N_scope.

Definition source_location_runtime_minor : N := 1.
Definition native_array_runtime_minor : N := 4.
Definition native_class_runtime_minor : N := 4.

Definition is_array (value : type) : bool := tag_eqb (ty_tag value) NERI_IR_TYPE_ARRAY_V1.

Fixpoint contains_array (value : type) : bool :=
  is_array value || match value with mk_type _ _ arguments _ => existsb contains_array arguments end.

(** The lowering's [is_void] looks at the tag alone. *)
Definition is_void_tag (value : type) : bool := tag_eqb (ty_tag value) NERI_IR_TYPE_VOID_V1.

Definition is_program_entry (module : ir_module) (value : function) : bool :=
  negb (fn_retained value) && String.eqb (sym_module (fn_id value)) (mod_id module) &&
  tag_eqb (sym_kind (fn_id value)) NERI_IR_SYMBOL_FUNCTION_V1 &&
  String.eqb (sym_semantic_name (fn_id value)) "main" && tag_eqb (fn_kind value) NERI_IR_FUNCTION_V1 &&
  empty (fn_parameter_types value) && is_void_tag (fn_result_type value).

Definition owns_program_entry (module : ir_module) : bool :=
  existsb (is_program_entry module) (mod_functions module).

Definition has_c_export_definitions (module : ir_module) : bool :=
  existsb (λ f, negb (fn_retained f) && negb (String.eqb (fn_export_name f) "")) (mod_functions module).

Definition instruction_uses_arrays (i : instruction) : bool :=
  existsb (λ r, contains_array (val_value_type r)) (ins_results i) ||
  existsb contains_array (ins_type_arguments i).

Definition module_uses_arrays (module : ir_module) : bool :=
  existsb (λ g, contains_array (glb_value_type g)) (mod_globals module) ||
  existsb (λ f, contains_array (fn_result_type f) || existsb contains_array (fn_parameter_types f) ||
                existsb (λ b, existsb (λ p, contains_array (par_value_type p)) (blk_parameters b) ||
                              existsb instruction_uses_arrays (blk_instructions b)) (fn_blocks f))
    (mod_functions module).

(** A minimum minor version and a set of required features. *)
Definition demand : Type := N * N.

Definition raise_demand (minor features : N) (d : demand) : demand := (N.max d.1 minor, d.2 ∣ features).

Definition demand_if (c : bool) (minor : N) (d : demand) : demand :=
  if c then (N.max d.1 minor, d.2) else d.

Definition demand_feature (d : demand) (feature : ir_feature) : demand :=
  let contract := ir_feature_metadata feature in
  raise_demand (fc_runtime_minor contract) (fc_runtime_features contract) d.

Definition demand_import (d : demand) (import : import_declaration) : demand :=
  let d := raise_demand (neri_abi_symbol_minimum_minor (imp_link_name import))
             (neri_abi_symbol_features (imp_link_name import)) d in
  match imp_kind import, imp_minimum_runtime import with
  | NERI_IR_IMPORT_RUNTIME_V1, Some minimum =>
      raise_demand (rr_abi_minor minimum) (rr_feature_bits minimum) d
  | _, _ => d
  end.

(** The demand of a program and whether its symbol is private; nothing for a unit
    that neither owns the entry nor exports to C. *)
Definition program_requirements (aot_unit : bool) (module : ir_module) : option (demand * bool) :=
  let has_c_exports := has_c_export_definitions module in
  let owns_entry := owns_program_entry module in
  if aot_unit && negb owns_entry && negb has_c_exports then None
  else
    let private_requirements := has_c_exports && negb owns_entry in
    let d := (source_location_runtime_minor, NERI_RT_FEATURE_SOURCE_LOCATIONS) in
    let d := demand_if aot_unit native_class_runtime_minor
               (demand_if aot_unit native_array_runtime_minor d) in
    let d := fold_left demand_feature (mod_required_features module) d in
    let d := demand_if (module_uses_arrays module) native_array_runtime_minor d in
    let d := demand_if (negb (empty (mod_classes module))) native_class_runtime_minor d in
    let d := fold_left demand_import (mod_imports module) d in
    Some (d, private_requirements).

(** ** Demands only grow *)

Definition demand_le (a b : demand) : Prop := a.1 <= b.1 ∧ effects_within a.2 b.2.

#[export] Instance demand_le_preorder : PreOrder demand_le.
Proof.
  split.
  - intros d. by split.
  - intros a b c [? ?] [? ?]. split; [lia|by etransitivity].
Qed.

Lemma raise_demand_le minor features d :
  demand_le d (raise_demand minor features d) ∧ demand_le (minor, features) (raise_demand minor features d).
Proof. unfold demand_le, raise_demand. simpl. split; (split; [lia|auto with effects_db]). Qed.

Lemma demand_if_le c minor d : demand_le d (demand_if c minor d).
Proof. destruct c; simpl; [|reflexivity]. split; simpl; [lia|reflexivity]. Qed.

Lemma demand_feature_le d feature :
  demand_le d (demand_feature d feature) ∧
  demand_le (fc_runtime_minor (ir_feature_metadata feature), fc_runtime_features (ir_feature_metadata feature))
    (demand_feature d feature).
Proof. apply raise_demand_le. Qed.

Lemma demand_import_le d import :
  demand_le d (demand_import d import) ∧
  ∀ minimum, imp_kind import = NERI_IR_IMPORT_RUNTIME_V1 → imp_minimum_runtime import = Some minimum →
    demand_le (rr_abi_minor minimum, rr_feature_bits minimum) (demand_import d import).
Proof.
  unfold demand_import. set (d' := raise_demand _ _ d).
  assert (demand_le d d') as Hd by apply raise_demand_le.
  destruct (imp_kind import), (imp_minimum_runtime import) as [minimum|];
    (split; [|intros ? Hk Hm; try discriminate; injection Hm as <-; apply raise_demand_le]); try done.
  etransitivity; [exact Hd|apply raise_demand_le].
Qed.

(** A fold whose steps only raise the demand covers what each item asks for. *)
Lemma fold_demand {A} (step : demand → A → demand) (l : list A) d :
  (∀ d x, demand_le d (step d x)) →
  demand_le d (fold_left step l d) ∧
  ∀ x need, x ∈ l → (∀ d, demand_le need (step d x)) → demand_le need (fold_left step l d).
Proof.
  intros Hstep. revert d. induction l as [|y l IH]; intros d; simpl.
  - split; [reflexivity|set_solver].
  - destruct (IH (step d y)) as [Hle Hcover].
    split; [etransitivity; [apply Hstep|exact Hle]|].
    intros x need [->|Hx]%elem_of_cons Hneed; [|by apply (Hcover x)]. etransitivity; [apply Hneed|done].
Qed.

Section requirements.
Variable module : ir_module.
Variable aot_unit : bool.
Variable d : demand.
Variable private : bool.
Hypothesis emitted : program_requirements aot_unit module = Some (d, private).

Lemma requirements_fold :
  ∃ d1 d2, demand_le (fold_left demand_feature (mod_required_features module) d1) d2 ∧
    d = fold_left demand_import (mod_imports module) d2.
Proof.
  unfold program_requirements in emitted. destruct (_ && _); [done|]. injection emitted as <- _.
  eexists _, _. split; [|reflexivity]. etransitivity; [|apply demand_if_le]. apply demand_if_le.
Qed.

Lemma requirements_cover_feature feature :
  feature ∈ mod_required_features module →
  demand_le (fc_runtime_minor (ir_feature_metadata feature),
             fc_runtime_features (ir_feature_metadata feature)) d.
Proof.
  intros Hin. destruct requirements_fold as (d1 & d2 & Hle & ->).
  etransitivity; [|apply fold_demand; intros; apply demand_import_le]. etransitivity; [|exact Hle].
  apply (proj2 (fold_demand demand_feature _ _ (λ d x, proj1 (demand_feature_le d x))) feature); [done|].
  intros d'. apply demand_feature_le.
Qed.

Lemma requirements_cover_import import minimum :
  import ∈ mod_imports module → imp_kind import = NERI_IR_IMPORT_RUNTIME_V1 →
  imp_minimum_runtime import = Some minimum →
  demand_le (rr_abi_minor minimum, rr_feature_bits minimum) d.
Proof.
  intros Hin Hk Hm. destruct requirements_fold as (d1 & d2 & _ & ->).
  apply (proj2 (fold_demand demand_import _ _ (λ d x, proj1 (demand_import_le d x))) import); [done|].
  intros d'. by apply demand_import_le.
Qed.
End requirements.

(** ** Properties *)

(** An emitted program demands a runtime that can run it: for a supported module, the
    version and features that the program requires at start-up cover those of every
    required language feature, and of the catalog contract of every runtime function
    that the program imports. *)
Theorem requirements_cover_program legal m aot d private :
  verify_supported_module legal m = Ok tt → program_requirements aot m = Some (d, private) →
  (∀ feature, feature ∈ mod_required_features m →
    fc_runtime_minor (ir_feature_metadata feature) <= d.1 ∧
    effects_within (fc_runtime_features (ir_feature_metadata feature)) d.2) ∧
  (∀ import, import ∈ mod_imports m → imp_kind import = NERI_IR_IMPORT_RUNTIME_V1 →
    ∃ contract, neri_abi_runtime_import (imp_link_name import) = Some contract ∧
      rc_minimum_minor contract <= d.1 ∧ effects_within (rc_feature_bits contract) d.2).
Proof.
  intros Hm%(proj2 (verify_supported_module_ok legal m)) Hd. split.
  - intros feature Hin. by apply (requirements_cover_feature m aot d private).
  - intros import Hin Hk. pose proof (sup_imports _ _ Hm) as Hi. rewrite Forall_forall in Hi.
    pose proof (import_contract _ _ (Hi _ Hin)) as Hc. unfold contract_ok in Hc. rewrite Hk in Hc.
    destruct Hc as (contract & Hfound & Hh). exists contract. split; [done|].
    destruct (honours_runtime _ _ Hh) as (minimum & Hmin & _ & Hminor & Hfeatures).
    destruct (requirements_cover_import m aot d private Hd import minimum Hin Hk Hmin) as [H1 H2].
    simpl in *. split; [lia|by etransitivity].
Qed.

Lemma requirements_cover_program_witness :
  ∃ contract, neri_abi_runtime_import "neri_rt_v1_math_max" = Some contract ∧
    rc_minimum_minor contract <= 4 ∧ effects_within (rc_feature_bits contract) 96.
Proof.
  apply (requirements_cover_program (λ _, true) Sample.app false (4, 96) false) with
    (import := Sample.max_import); [vm_compute; reflexivity..| |reflexivity].
  right. left.
Defined.
