(* ===== verification/Regions.v ===== *)
(** * Allocation regions ([native/codegen/allocation_regions.cpp])

    The analysis that selects functions whose managed allocations never escape:
    loop detection by Kahn's algorithm and the growing set of functions whose whole
    call graph is local. *)

From S2P Require Import Prelude Domains IR Samples Reader Types Layout Index Instructions.
From S2P Require Import InstructionSafety InstructionTyping Catalog Functions Dominance Cfg.
From S2P Require Import Ssa Modules ModuleSafety.

Local Open Scope list_scope.
Local Open Scope N_scope.

(** ** Types and operations *)

Fixpoint scalar_boundary (value : type) : result bool :=
  match value with
  | mk_type tag _ arguments _ =>
      match tag with
      | NERI_IR_TYPE_VOID_V1 | NERI_IR_TYPE_BOOL_V1 | NERI_IR_TYPE_BYTE_V1 | NERI_IR_TYPE_INT_V1
      | NERI_IR_TYPE_FLOAT_V1 | NERI_IR_TYPE_INT32_V1 | NERI_IR_TYPE_UINT32_V1
      | NERI_IR_TYPE_UINT64_V1 | NERI_IR_TYPE_FLOAT32_V1 => Ok true
      | NERI_IR_TYPE_OPTIONAL_V1 =>
          match arguments with
          | argument :: _ => scalar_boundary argument
          | [] => Throw (undefined "front() of an empty vector")
          end
      | _ => Ok false
      end
  end.

Definition local_operation (opcode : neri_ir_opcode_v1) : bool :=
  match opcode with
  | NERI_IR_OPCODE_CONSTANT_V1
  | NERI_IR_OPCODE_INT_NEG_CHECKED_V1
  | NERI_IR_OPCODE_INT_ADD_CHECKED_V1
  | NERI_IR_OPCODE_INT_SUB_CHECKED_V1
  | NERI_IR_OPCODE_INT_MUL_CHECKED_V1
  | NERI_IR_OPCODE_INT_DIV_CHECKED_V1
  | NERI_IR_OPCODE_FLOAT_NEG_V1
  | NERI_IR_OPCODE_FLOAT_ADD_V1
  | NERI_IR_OPCODE_FLOAT_SUB_V1
  | NERI_IR_OPCODE_FLOAT_MUL_V1
  | NERI_IR_OPCODE_FLOAT_DIV_V1
  | NERI_IR_OPCODE_BOOL_NOT_V1
  | NERI_IR_OPCODE_BOOL_AND_V1
  | NERI_IR_OPCODE_BOOL_OR_V1
  | NERI_IR_OPCODE_COMPARE_V1
  | NERI_IR_OPCODE_CAST_INT_TO_FLOAT_V1
  | NERI_IR_OPCODE_CAST_FLOAT_TO_INT_CHECKED_V1
  | NERI_IR_OPCODE_CAST_INT_TO_BYTE_CHECKED_V1
  | NERI_IR_OPCODE_CAST_BYTE_TO_INT_V1
  | NERI_IR_OPCODE_NUMERIC_CAST_CHECKED_V1
  | NERI_IR_OPCODE_CLASS_UPCAST_V1
  | NERI_IR_OPCODE_CLASS_CHECKED_CAST_V1
  | NERI_IR_OPCODE_OPTIONAL_NONE_V1
  | NERI_IR_OPCODE_OPTIONAL_SOME_V1
  | NERI_IR_OPCODE_OPTIONAL_IS_SOME_V1
  | NERI_IR_OPCODE_OPTIONAL_GET_CHECKED_V1
  | NERI_IR_OPCODE_STRING_CONCAT_V1
  | NERI_IR_OPCODE_STRING_EQUAL_V1
  | NERI_IR_OPCODE_STRING_NOT_EQUAL_V1
  | NERI_IR_OPCODE_STRING_FROM_INT_V1
  | NERI_IR_OPCODE_STRING_FROM_BYTE_V1
  | NERI_IR_OPCODE_STRING_FROM_FLOAT_V1
  | NERI_IR_OPCODE_ARRAY_NEW_V1
  | NERI_IR_OPCODE_ARRAY_LENGTH_V1
  | NERI_IR_OPCODE_ARRAY_LOAD_CHECKED_V1
  | NERI_IR_OPCODE_ARRAY_STORE_CHECKED_V1
  | NERI_IR_OPCODE_OBJECT_ALLOC_V1
  | NERI_IR_OPCODE_FIELD_LOAD_V1
  | NERI_IR_OPCODE_FIELD_STORE_V1 => true
  | _ => false
  end.

(** ** Loops *)

(** [++incoming[target]]; the count of edges held in memory does not overflow. *)
Definition count_edge (incoming : gmap N N) (e : edge) : gmap N N :=
  <[edge_target e := default 0 (incoming !! edge_target e) + 1]> incoming.

Definition count_block (incoming : gmap N N) (b : block) : gmap N N :=
  fold_left count_edge (trm_edges (blk_ending b)) (try_emplace (blk_id b) 0 incoming).

(** [--count] on [std::size_t]. *)
Definition decrement (count : N) : N := if count =? 0 then u64_max else count - 1.

Definition visit_edge (e : edge) (state : gmap N N * list N) : result (gmap N N * list N) :=
  let '(incoming, ready) := state in
  count ← map_at incoming (edge_target e);
  let count := decrement count in
  Ok (<[edge_target e := count]> incoming, if count =? 0 then ready ++ [edge_target e] else ready).

(** The loop over the growing vector [ready]. *)
Fixpoint drain (fuel : nat) (blocks : gmap N block) (incoming : gmap N N) (ready : list N) (index : nat)
    : result (list N) :=
  match ready !! index with
  | None => Ok ready
  | Some id =>
      match fuel with
      | O => Throw (undefined "out of fuel")
      | S fuel =>
          b ← map_at blocks id;
          '(incoming, ready) ← for_state (trm_edges (blk_ending b)) (incoming, ready) visit_edge;
          drain fuel blocks incoming ready (S index)
      end
  end.

(** The identities with no incoming edge, in the order of [std::map]. *)
Definition initially_ready (incoming : gmap N N) : list N :=
  List.filter (λ id, default 1 (incoming !! id) =? 0) (merge_sort N.le (elements (dom incoming))).

Definition has_loop (f : function) : result bool :=
  let blocks := index_of blk_id id (fn_blocks f) ∅ in
  let incoming := fold_left count_block (fn_blocks f) ∅ in
  ready ← drain (S (size incoming)) blocks incoming (initially_ready incoming) 0;
  Ok (negb (length ready =? size blocks)%nat).

(** ** Regions

    Functions are identified by their position in the module, as the source
    identifies them by their address. *)

Definition is_direct_call (opcode : neri_ir_opcode_v1) : bool :=
  tag_eqb opcode NERI_IR_OPCODE_CALL_V1 || tag_eqb opcode NERI_IR_OPCODE_CALL_DIRECT_V1.

Definition definitions_of (module : ir_module) : gmap symbol_id nat :=
  index_of (λ p : nat * function, fn_id p.2) fst (imap pair (mod_functions module)) ∅.

Notation known x set := (bool_decide (x ∈ set)).

(** State: whether the function is local so far, and whether it repeats. *)
Definition scan_instruction (definitions : gmap symbol_id nat) (compatible bulk : gset nat)
    (i : instruction) (state : bool * bool) : result (bool * bool) :=
  let '(local, repeated) := state in
  if is_direct_call (ins_opcode i) then
    symbol ← deref (ins_symbol i);
    match definitions !! symbol with
    | None => Ok (false, repeated)
    | Some callee => Ok (if known callee compatible then local else false,
                         if known callee bulk then true else repeated)
    end
  else Ok (if local_operation (ins_opcode i) then local else false, repeated).

Definition scan_function (definitions : gmap symbol_id nat) (compatible bulk : gset nat) (f : function)
    : result (bool * bool) :=
  repeated ← has_loop f;
  for_state (fn_blocks f) (true, repeated) (λ b state,
    for_state (blk_instructions b) state (scan_instruction definitions compatible bulk)).

(** State: [changed], [compatible] and [bulk]. *)
Definition region_step (definitions : gmap symbol_id nat) (item : nat * function)
    (state : bool * gset nat * gset nat) : result (bool * gset nat * gset nat) :=
  let '(index, f) := item in
  let '(changed, compatible, bulk) := state in
  if known index compatible || fn_unsafe_call f || has_value (fn_unsafe_root f) || empty (fn_blocks f)
  then Ok state
  else
    '(local, repeated) ← scan_function definitions compatible bulk f;
    if local : bool then
      Ok (true, {[index]} ∪ compatible,
          if repeated && negb (N.land (fn_effects f) NERI_IR_EFFECT_MANAGED_ALLOCATE_V1 =? 0)
          then {[index]} ∪ bulk else bulk)
    else Ok state.

Fixpoint region_loop (fuel : nat) (module : ir_module) (compatible bulk : gset nat)
    : result (gset nat * gset nat) :=
  match fuel with
  | O => Throw (undefined "out of fuel")
  | S fuel =>
      '(changed, compatible, bulk) ←
        for_state (imap pair (mod_functions module)) (false, compatible, bulk)
          (region_step (definitions_of module));
      if changed : bool then region_loop fuel module compatible bulk else Ok (compatible, bulk)
  end.

(** [std::ranges::all_of(types, scalar_boundary)]. *)
Fixpoint all_scalar (types : list type) : result bool :=
  match types with
  | [] => Ok true
  | t :: types => scalar ← scalar_boundary t; if scalar : bool then all_scalar types else Ok false
  end.

Definition selects (module : ir_module) (bulk : gset nat) (index : nat) (result : gset nat)
    : Prelude.result (gset nat) :=
  f ← element (mod_functions module) index;
  if negb (known index bulk) then Ok result
  else
    scalar ← scalar_boundary (fn_result_type f);
    if negb scalar then Ok result
    else
      scalars ← all_scalar (fn_parameter_types f);
      Ok (if scalars : bool then {[index]} ∪ result else result).

(** Every pass that changes something adds a function. *)
Definition allocation_regions (module : ir_module) : result (gset nat) :=
  '(compatible, bulk) ← region_loop (S (length (mod_functions module))) module ∅ ∅;
  for_state (elements compatible) ∅ (selects module bulk).

(** ** Counting edges *)

Definition edges_to (es : list edge) (t : N) : N := length_N (List.filter (λ e, edge_target e =? t) es).

Definition block_edges_to (b : block) (t : N) : N := edges_to (trm_edges (blk_ending b)) t.

(** Edges into [t] from the blocks that are not in [done]. *)
Fixpoint pending_edges (blocks : list block) (done : list N) (t : N) : N :=
  match blocks with
  | [] => 0
  | b :: blocks =>
      (if bool_decide (blk_id b ∈ done) then 0 else block_edges_to b t) + pending_edges blocks done t
  end.

Lemma edges_to_cons e es t : edges_to (e :: es) t = (if edge_target e =? t then 1 else 0) + edges_to es t.
Proof. unfold edges_to, length_N. simpl. destruct (edge_target e =? t); simpl; lia. Qed.

Lemma edges_to_zero es t : edges_to es t = 0 ↔ ∀ e, e ∈ es → edge_target e ≠ t.
Proof.
  induction es as [|e es IH]; [split; [set_solver|done]|].
  rewrite edges_to_cons. destruct (N.eqb_spec (edge_target e) t) as [Heq|Hne].
  - split; [lia|]. intros H. exfalso. apply (H e); [left|done].
  - rewrite N.add_0_l, IH. split; intros H e'; [intros [->|?]%elem_of_cons; auto|].
    intros He'. apply H. by right.
Qed.

Lemma pending_edges_zero blocks done t :
  pending_edges blocks done t = 0 ↔
  ∀ b e, b ∈ blocks → e ∈ trm_edges (blk_ending b) → edge_target e = t → blk_id b ∈ done.
Proof.
  induction blocks as [|b blocks IH]; simpl; [split; [set_solver|done]|]. rewrite N.eq_add_0, IH.
  case_bool_decide as Hb.
  - split; [|intros H; split; [done|]; intros b' e Hb'; apply H; by right].
    intros [_ H] b' e [->|Hb']%elem_of_cons He Ht; [done|eauto].
  - unfold block_edges_to. rewrite edges_to_zero. split.
    + intros [H1 H2] b' e [->|Hb']%elem_of_cons He Ht; [by destruct (H1 e He)|eauto].
    + intros H. split; [intros e He Ht; apply Hb; by apply (H b e); [left|..]|].
      intros b' e Hb'. apply H. by right.
Qed.

Lemma pending_edges_notin blocks done id t :
  id ∉ map blk_id blocks → pending_edges blocks (done ++ [id]) t = pending_edges blocks done t.
Proof.
  induction blocks as [|b blocks IH]; intros Hid; simpl; [done|]. rewrite IH by set_solver.
  rewrite (bool_decide_ext (blk_id b ∈ done ++ [id]) (blk_id b ∈ done)); [done|]. set_solver.
Qed.

(** Finishing a block removes its edges. *)
Lemma pending_edges_step blocks done b t :
  NoDup (map blk_id blocks) → b ∈ blocks → blk_id b ∉ done →
  pending_edges blocks done t = block_edges_to b t + pending_edges blocks (done ++ [blk_id b]) t.
Proof.
  induction blocks as [|x blocks IH]; [set_solver|]. cbn [map]. rewrite NoDup_cons. intros [Hx Hn] Hb Hd.
  cbn [pending_edges]. apply elem_of_cons in Hb as [->|Hb].
  - rewrite bool_decide_false by done. rewrite (bool_decide_true (blk_id x ∈ _)) by set_solver.
    by rewrite pending_edges_notin.
  - rewrite (IH Hn Hb Hd).
    assert (blk_id x ≠ blk_id b) by (intros Heq; apply Hx; rewrite Heq; apply list_elem_of_fmap; by exists b).
    rewrite (bool_decide_ext (blk_id x ∈ done ++ [blk_id b]) (blk_id x ∈ done)) by set_solver. lia.
Qed.

(** ** The initial counts *)

Definition counted (incoming : gmap N N) (t : N) : N := default 0 (incoming !! t).

Lemma count_edges es incoming t :
  counted (fold_left count_edge es incoming) t = counted incoming t + edges_to es t ∧
  dom (fold_left count_edge es incoming) = dom incoming ∪ list_to_set (map edge_target es).
Proof.
  revert incoming. induction es as [|e es IH]; intros incoming; cbn [fold_left map].
  - split; [by rewrite N.add_0_r|set_solver].
  - destruct (IH (count_edge incoming e)) as [Hc Hd]. rewrite Hc, Hd, edges_to_cons.
    unfold count_edge, counted. split.
    + destruct (N.eqb_spec (edge_target e) t) as [->|Hne].
      * rewrite lookup_insert_eq. simpl. lia.
      * rewrite lookup_insert_ne by done. lia.
    + rewrite dom_insert_L, list_to_set_cons. set_solver.
Qed.

Lemma count_blocks blocks incoming t :
  counted (fold_left count_block blocks incoming) t = counted incoming t + pending_edges blocks [] t ∧
  (∀ x, x ∈ dom (fold_left count_block blocks incoming) ↔
    x ∈ dom incoming ∨ ∃ b, b ∈ blocks ∧ (x = blk_id b ∨ x ∈ map edge_target (trm_edges (blk_ending b)))).
Proof.
  revert incoming. induction blocks as [|b blocks IH]; intros incoming; cbn [fold_left pending_edges].
  - split; [lia|set_solver].
  - destruct (IH (count_block incoming b)) as [Hc Hd]. unfold count_block in *.
    destruct (count_edges (trm_edges (blk_ending b)) (try_emplace (blk_id b) 0 incoming) t) as [He Hde].
    rewrite Hc, He. rewrite bool_decide_false by set_solver. split.
    + assert (counted (try_emplace (blk_id b) 0 incoming) t = counted incoming t) as ->; [|unfold block_edges_to; lia].
      unfold counted. rewrite try_emplace_lookup. destruct (incoming !! t); [done|]. by case_bool_decide.
    + intros x. rewrite Hd, Hde, elem_of_union, elem_of_list_to_set.
      assert (x ∈ dom (try_emplace (blk_id b) 0 incoming) ↔ x ∈ dom incoming ∨ x = blk_id b) as ->.
      { unfold try_emplace. destruct (incoming !! blk_id b) eqn:Hb; [|rewrite dom_insert_L; set_solver].
        apply elem_of_dom_2 in Hb. naive_solver. }
      setoid_rewrite elem_of_cons. naive_solver.
Qed.

(** ** Kahn's algorithm *)

Section kahn.
Variable f : function.
Notation blocks := (fn_blocks f).
Notation ids := (map blk_id (fn_blocks f)).
Hypothesis unique : NoDup ids.
Hypothesis edges_inside : ∀ a b, cfg_edge f a b → b ∈ ids.

Notation block_index := (index_of blk_id id (fn_blocks f) ∅).

(** The blocks in [done] are finished, the edges [extra] of the current one are not. *)
Record kahn (done : list N) (extra : list edge) (incoming : gmap N N) (ready : list N) : Prop := {
  kahn_count t : t ∈ ids → incoming !! t = Some (pending_edges blocks done t + edges_to extra t);
  kahn_unique : NoDup ready;
  kahn_ids t : t ∈ ready → t ∈ ids;
  kahn_ready t : t ∈ ids → t ∈ ready ↔ pending_edges blocks done t + edges_to extra t = 0;
  kahn_order j t : ready !! j = Some t → ∀ a, cfg_edge f a t → a ∈ take j ready;
  kahn_done : done `prefix_of` ready;
}.

Lemma prefix_elem {A} (l k : list A) x : l `prefix_of` k → x ∈ l → x ∈ k.
Proof. intros [k' ->] Hx. apply elem_of_app. by left. Qed.

Lemma kahn_visit done e es incoming ready :
  kahn done (e :: es) incoming ready → edge_target e ∈ ids →
  ∃ incoming' ready', visit_edge e (incoming, ready) = Ok (incoming', ready') ∧
    kahn done es incoming' ready' ∧ ready `prefix_of` ready'.
Proof.
  intros [Hcount Hn Hids Hready Horder Hdone] Ht. unfold visit_edge, map_at. rewrite (Hcount _ Ht).
  rewrite bind_Ok. rewrite edges_to_cons, N.eqb_refl.
  set (c := pending_edges blocks done (edge_target e) + edges_to es (edge_target e)).
  replace (decrement _) with c by (unfold decrement; subst c; case_match; [apply N.eqb_eq in H|]; lia).
  assert (edge_target e ∉ ready) as Hnew.
  { rewrite (Hready _ Ht), edges_to_cons, N.eqb_refl. lia. }
  assert (∀ t, t ≠ edge_target e → edges_to (e :: es) t = edges_to es t) as Hother.
  { intros t Hne. rewrite edges_to_cons. by destruct (N.eqb_spec (edge_target e) t). }
  eexists _, _. split; [reflexivity|]. split.
  2: { destruct (c =? 0); [by apply prefix_app_r|done]. }
  destruct (N.eqb_spec c 0) as [Hc|Hc]; split; try done.
  - intros t Hin. destruct (decide (t = edge_target e)) as [->|Hne]; [by rewrite lookup_insert_eq|].
    rewrite lookup_insert_ne, Hcount, Hother; done.
  - apply NoDup_app. split_and!; [done|set_solver|apply NoDup_singleton].
  - set_solver.
  - intros t Hin. rewrite elem_of_app, list_elem_of_singleton.
    destruct (decide (t = edge_target e)) as [->|Hne]; [naive_solver|].
    rewrite (Hready t Hin), Hother by done. naive_solver.
  - intros j t [Hj|[Hj Hlast]]%lookup_app_Some a Ha.
    + rewrite take_app_le by (apply lookup_lt_Some in Hj; lia). by apply (Horder j t).
    + rewrite take_app_ge by lia. apply elem_of_app. left. apply (prefix_elem done); [done|].
      apply list_lookup_singleton_Some in Hlast as [_ <-]. destruct Ha as (b & e' & Hb & <- & He & Hte).
      assert (pending_edges blocks done (edge_target e) = 0) as Hp by lia.
      by apply (proj1 (pending_edges_zero _ _ _) Hp b e').
  - by apply prefix_app_r.
  - intros t Hin. destruct (decide (t = edge_target e)) as [->|Hne]; [by rewrite lookup_insert_eq|].
    rewrite lookup_insert_ne, Hcount, Hother; done.
  - intros t Hin. destruct (decide (t = edge_target e)) as [->|Hne]; [naive_solver|].
    rewrite (Hready t Hin), Hother by done. done.
Qed.

Lemma kahn_visits done es incoming ready :
  kahn done es incoming ready → Forall (λ e, edge_target e ∈ ids) es →
  ∃ incoming' ready', for_state es (incoming, ready) visit_edge = Ok (incoming', ready') ∧
    kahn done [] incoming' ready' ∧ ready `prefix_of` ready'.
Proof.
  intros Hk Hes. revert incoming ready Hk. induction Hes as [|e es He _ IH]; intros incoming ready Hk.
  - exists incoming, ready. by split_and!.
  - destruct (kahn_visit _ _ _ _ _ Hk He) as (inc1 & r1 & Hv & Hk1 & Hp1).
    destruct (IH _ _ Hk1) as (inc2 & r2 & Hrun & Hk2 & Hp2). exists inc2, r2.
    split_and!; [|done|by etransitivity]. cbn [for_state]. by rewrite Hv.
Qed.

Lemma block_index_lookup t : t ∈ ids → ∃ b, block_index !! t = Some b ∧ b ∈ blocks ∧ blk_id b = t.
Proof.
  intros (b & -> & Hb)%list_elem_of_fmap. exists b.
  rewrite index_of_empty, option_fmap_id. split; [|done]. by apply find_key_unique.
Qed.

(** Starting on the next ready block. *)
Lemma kahn_next incoming ready index b :
  kahn (take index ready) [] incoming ready → ready !! index = Some (blk_id b) → b ∈ blocks →
  kahn (take (S index) ready) (trm_edges (blk_ending b)) incoming ready.
Proof.
  intros [Hcount Hn Hids Hready Horder Hdone] Hi Hb.
  assert (blk_id b ∉ take index ready) as Hnew.
  { intros (j & Hj)%list_elem_of_lookup. pose proof (lookup_lt_Some _ _ _ Hj) as Hlt.
    rewrite length_take in Hlt. rewrite lookup_take_lt in Hj by lia.
    pose proof (NoDup_lookup _ _ _ _ Hn Hj Hi). lia. }
  assert (∀ t, pending_edges blocks (take (S index) ready) t + block_edges_to b t =
               pending_edges blocks (take index ready) t + edges_to [] t) as Hstep.
  { intros t. rewrite (take_S_r _ _ _ Hi), (pending_edges_step _ _ b t unique Hb Hnew).
    replace (edges_to [] t) with 0 by done. lia. }
  split; try done.
  - intros t Ht. rewrite (Hcount t Ht). f_equal. symmetry. apply Hstep.
  - intros t Ht. rewrite (Hready t Ht), <-Hstep. done.
  - apply prefix_take.
Qed.

Lemma kahn_length done extra incoming ready :
  kahn done extra incoming ready → (length ready <= length blocks)%nat.
Proof.
  intros Hk. rewrite <-(length_map blk_id). apply submseteq_length, NoDup_submseteq; [apply Hk|].
  apply Hk.
Qed.

Lemma drain_run fuel incoming ready index :
  kahn (take index ready) [] incoming ready → (length blocks < fuel + index)%nat →
  (index <= length ready)%nat →
  ∃ incoming' ready', drain fuel block_index incoming ready index = Ok ready' ∧
    kahn ready' [] incoming' ready'.
Proof.
  revert incoming ready index. induction fuel as [|fuel IH]; intros incoming ready index Hk Hfuel Hi.
  - pose proof (kahn_length _ _ _ _ Hk). lia.
  - cbn [drain]. destruct (ready !! index) as [t|] eqn:Ht.
    + assert (t ∈ ids) as Hid by (apply (kahn_ids _ _ _ _ Hk); by eapply list_elem_of_lookup_2).
      destruct (block_index_lookup t Hid) as (b & Hb & Hin & <-). unfold map_at. rewrite Hb, bind_Ok.
      pose proof (kahn_next _ _ _ b Hk Ht Hin) as Hnext.
      destruct (kahn_visits _ _ _ _ Hnext) as (inc' & r' & Hrun & Hk' & Hp).
      { apply Forall_forall. intros e He. apply (edges_inside (blk_id b)). by exists b, e. }
      rewrite Hrun, bind_Ok. pose proof (lookup_lt_Some _ _ _ Ht) as Hlt.
      assert (take (S index) r' = take (S index) ready) as Htake.
      { destruct Hp as [tl ->]. by rewrite take_app_le by lia. }
      apply IH; [by rewrite Htake|lia|]. apply prefix_length in Hp. lia.
    + exists incoming, ready. split; [done|]. apply lookup_ge_None in Ht.
      by rewrite take_ge in Hk by lia.
Qed.

Notation initial := (fold_left count_block (fn_blocks f) ∅).

Lemma initial_dom t : t ∈ dom initial ↔ t ∈ ids.
Proof.
  rewrite (proj2 (count_blocks blocks ∅ t)). rewrite dom_empty, elem_of_empty. split.
  - intros [[]|(b & Hb & [->|(e & -> & He)%list_elem_of_fmap])].
    + apply list_elem_of_fmap. by exists b.
    + apply (edges_inside (blk_id b)). by exists b, e.
  - intros (b & -> & Hb)%list_elem_of_fmap. right. exists b. auto.
Qed.

Lemma initial_lookup t : t ∈ ids → initial !! t = Some (pending_edges blocks [] t).
Proof.
  intros Ht. pose proof (proj1 (count_blocks blocks ∅ t)) as Hc. apply initial_dom in Ht.
  apply elem_of_dom in Ht as [n Hn]. unfold counted in Hc. rewrite Hn, lookup_empty in Hc.
  simpl in Hc. by rewrite Hn, Hc.
Qed.

Lemma elem_of_initially_ready t : t ∈ initially_ready initial ↔ t ∈ ids ∧ pending_edges blocks [] t = 0.
Proof.
  unfold initially_ready. rewrite list_elem_of_In, filter_In, <-list_elem_of_In.
  rewrite merge_sort_Permutation, elem_of_elements, initial_dom. split.
  - intros [Ht Hz]. rewrite (initial_lookup t Ht) in Hz. by apply N.eqb_eq in Hz.
  - intros [Ht Hz]. by rewrite (initial_lookup t Ht), Hz.
Qed.

Lemma kahn_start : kahn [] [] initial (initially_ready initial).
Proof.
  split.
  - intros t Ht. rewrite (initial_lookup t Ht). f_equal. unfold edges_to, length_N. simpl. lia.
  - unfold initially_ready. apply NoDup_ListNoDup, List.NoDup_filter, NoDup_ListNoDup.
    rewrite merge_sort_Permutation. apply NoDup_elements.
  - intros t. rewrite elem_of_initially_ready. tauto.
  - intros t Ht. rewrite elem_of_initially_ready. unfold edges_to, length_N. simpl.
    rewrite N.add_0_r. tauto.
  - intros j t Hj a (b & e & Hb & <- & He & Hte). exfalso.
    apply list_elem_of_lookup_2, elem_of_initially_ready in Hj as [_ Hz].
    apply (not_elem_of_nil (blk_id b)). by eapply (proj1 (pending_edges_zero _ _ _) Hz).
  - apply prefix_nil.
Qed.

Lemma initial_size : size initial = length blocks.
Proof.
  rewrite <-size_dom, <-(length_map blk_id), <-(size_list_to_set (C:=gset N) ids unique). f_equal.
  apply set_eq. intros t. by rewrite initial_dom, elem_of_list_to_set.
Qed.

Lemma block_index_size : size block_index = length blocks.
Proof.
  rewrite <-size_dom, index_of_dom, dom_empty_L, union_empty_l_L, (size_list_to_set ids unique).
  apply length_map.
Qed.

(** When every block gets ready the order is topological. *)
Lemma order_acyclic ready incoming :
  kahn ready [] incoming ready → (∀ t, t ∈ ids → t ∈ ready) → ∀ x, ¬ tc (cfg_edge f) x x.
Proof.
  intros Hk Hall x Hx.
  assert (∀ a b, tc (cfg_edge f) a b → ∀ j, ready !! j = Some b → ∃ i, (i < j)%nat ∧ ready !! i = Some a)
    as Hdown.
  { assert (∀ a b j, cfg_edge f a b → ready !! j = Some b → ∃ i, (i < j)%nat ∧ ready !! i = Some a) as Hone.
    { intros a b j Hab Hj. pose proof (kahn_order _ _ _ _ Hk j b Hj a Hab) as Ha.
      apply list_elem_of_lookup in Ha as [i Hi]. pose proof (lookup_lt_Some _ _ _ Hi) as Hlt.
      rewrite length_take in Hlt. rewrite lookup_take_lt in Hi by lia. exists i. split; [lia|done]. }
    intros a b Hab. induction Hab as [a b Hab|a c b Hac _ IH]; intros j Hj; [eauto|].
    destruct (IH j Hj) as (i & Hi & Hc). destruct (Hone _ _ _ Hac Hc) as (i' & Hi' & Ha).
    exists i'. split; [lia|done]. }
  assert (x ∈ ready) as [j Hj]%list_elem_of_lookup.
  { apply Hall. apply tc_first in Hx as (y & (b & e & Hb & <- & _) & _).
    apply list_elem_of_fmap. by exists b. }
  destruct (Hdown x x Hx j Hj) as (i & Hi & Hx'). pose proof (kahn_unique _ _ _ _ Hk) as Hn.
  pose proof (NoDup_lookup _ _ _ _ Hn Hj Hx'). lia.
Qed.

(** A block that never gets ready has a predecessor that does not either. *)
Lemma stuck_predecessor ready incoming t :
  kahn ready [] incoming ready → t ∈ ids → t ∉ ready → ∃ a, a ∈ ids ∧ a ∉ ready ∧ cfg_edge f a t.
Proof.
  intros Hk Ht Hnr. rewrite (kahn_ready _ _ _ _ Hk t Ht) in Hnr.
  replace (edges_to [] t) with 0 in Hnr by done. rewrite N.add_0_r in Hnr.
  destruct (decide (Exists (λ b, blk_id b ∉ ready ∧
    Exists (λ e, edge_target e = t) (trm_edges (blk_ending b))) blocks)) as [Hex|Hno].
  - apply Exists_exists in Hex as (b & Hb & Hnot & (e & He & Hte)%Exists_exists). exists (blk_id b).
    split_and!; [apply list_elem_of_fmap; by exists b|done|by exists b, e].
  - exfalso. apply Hnr, pending_edges_zero. intros b e Hb He Hte.
    destruct (decide (blk_id b ∈ ready)) as [|Hb']; [done|]. exfalso. apply Hno, Exists_exists.
    exists b. split_and!; [done|done|]. apply Exists_exists. by exists e.
Qed.

Lemma stuck_path ready incoming n t :
  kahn ready [] incoming ready → t ∈ ids → t ∉ ready →
  ∃ a l, path (cfg_edge f) a l t ∧ length l = n ∧ a ∈ ids ∧ a ∉ ready.
Proof.
  intros Hk Ht Hnr. induction n as [|n IH]; [exists t, []; by split_and!; [constructor|..]|].
  destruct IH as (a & l & Hp & Hl & Ha & Hna).
  destruct (stuck_predecessor ready incoming a Hk Ha Hna) as (a' & Ha' & Hna' & Hedge).
  exists a', (a' :: l). split_and!; [by econstructor|simpl; lia|done|done].
Qed.

Lemma not_NoDup_split (l : list N) : ¬ NoDup l → ∃ x l1 l2 l3, l = l1 ++ x :: l2 ++ x :: l3.
Proof.
  induction l as [|y l IH]; [intros H; exfalso; apply H; constructor|]. rewrite NoDup_cons. intros H.
  destruct (decide (y ∈ l)) as [(l2 & l3 & ->)%list_elem_of_split|Hy]; [by exists y, [], l2, l3|].
  destruct IH as (x & l1 & l2 & l3 & ->); [naive_solver|]. by exists x, (y :: l1), l2, l3.
Qed.

(** A path longer than the number of blocks goes around a cycle. *)
Lemma long_path_cycle a l t :
  path (cfg_edge f) a l t → (length blocks < length l)%nat → ∃ x, tc (cfg_edge f) x x.
Proof.
  intros Hp Hl. destruct (decide (NoDup l)) as [Hn|Hn].
  - assert (length l <= length ids)%nat; [|rewrite length_map in *; lia].
    eapply path_length_bound; [|exact Hp|exact Hn]. intros y w (b & _ & Hb & <- & _).
    apply list_elem_of_fmap. by exists b.
  - apply not_NoDup_split in Hn as (x & l1 & l2 & l3 & ->). exists x. apply path_suffix in Hp.
    apply (path_prefix _ x (x :: l2) x l3 t) in Hp. by eapply path_tc.
Qed.

Lemma all_ready ready incoming :
  kahn ready [] incoming ready → length ready = length blocks → ∀ t, t ∈ ids → t ∈ ready.
Proof.
  intros Hk Hlen t Ht. assert (ready ≡ₚ ids) as ->; [|done].
  apply submseteq_length_Permutation; [|rewrite length_map; lia].
  apply NoDup_submseteq; [apply Hk|apply Hk].
Qed.

Lemma has_loop_run :
  ∃ b, has_loop f = Ok b ∧ (b = true ↔ ∃ x, tc (cfg_edge f) x x).
Proof.
  unfold has_loop.
  destruct (drain_run (S (size initial)) initial (initially_ready initial) 0) as (inc & ready & Hrun & Hk);
    [apply kahn_start|rewrite initial_size; lia|lia|].
  rewrite Hrun, bind_Ok, block_index_size. eexists. split; [reflexivity|].
  rewrite negb_true_iff, Nat.eqb_neq. split.
  - intros Hlen. destruct (decide (Forall (λ t, t ∈ ready) ids)) as [Hall|Hex].
    + exfalso. apply Hlen. apply Nat.le_antisymm; [by eapply kahn_length|].
      rewrite <-(length_map blk_id). apply submseteq_length, NoDup_submseteq; [done|].
      by apply Forall_forall.
    + apply not_Forall_Exists in Hex; [|apply _]. apply Exists_exists in Hex as (t & Ht & Hnr).
      destruct (stuck_path ready inc (S (length blocks)) t Hk Ht Hnr) as (a & l & Hp & Hl & _ & _).
      eapply long_path_cycle; [exact Hp|lia].
  - intros [x Hx] Hlen. by apply (order_acyclic ready inc Hk (all_ready ready inc Hk Hlen) x).
Qed.
End kahn.

(** ** The call graph below a region *)

Section regions.
Variable legal : list byte → bool.
Variable module : ir_module.
Hypothesis supported : verify_supported_module legal module = Ok tt.

Notation functions := (mod_functions module).
Notation definitions := (definitions_of module).

(** Function [j] is called from the body of function [i]. *)
Definition calls (i j : nat) : Prop :=
  ∃ f b ins symbol, functions !! i = Some f ∧ b ∈ fn_blocks f ∧ ins ∈ blk_instructions b ∧
    is_direct_call (ins_opcode ins) = true ∧ ins_symbol ins = Some symbol ∧ definitions !! symbol = Some j.

(** Everything the body of function [i] does is local or a call of a function in [set]. *)
Record local_body (set : nat → Prop) (f : function) : Prop := {
  local_safe : fn_unsafe_call f = false ∧ fn_unsafe_root f = None;
  local_instructions b ins : b ∈ fn_blocks f → ins ∈ blk_instructions b →
    local_operation (ins_opcode ins) = true ∨
    is_direct_call (ins_opcode ins) = true ∧
      ∃ symbol callee, ins_symbol ins = Some symbol ∧ definitions !! symbol = Some callee ∧ set callee;
}.

Lemma verified_function f : f ∈ functions → verify_function legal (module_index module) f = Ok tt.
Proof.
  intros Hf. unfold verify_supported_module in supported. revert supported.
  rewrite !seq_Ok_iff, bind_Ok_iff. intros (_ & _ & _ & _ & _ & _ & d & _ & H).
  rewrite seq_Ok_iff, bind_Ok_iff in H. destruct H as (_ & d' & _ & H).
  rewrite bind_Ok_iff in H. destruct H as ([d'' links] & _ & H).
  rewrite bind_Ok_iff in H. destruct H as (names & _ & H).
  apply for_each_Ok in H. rewrite Forall_forall in H. by apply H.
Qed.

Lemma verified_body f :
  f ∈ functions → fn_blocks f ≠ [] → well_formed_body legal (module_index module) f.
Proof.
  intros Hf Hne. pose proof (verified_function f Hf) as Hv.
  destruct (fn_retained f) eqn:Hr; [|by apply (proj2 (verify_function_ok legal _ f) tt)].
  exfalso. unfold verify_function in Hv. rewrite !seq_Ok_iff in Hv. destruct Hv as (_ & _ & _ & Hv).
  rewrite Hr in Hv. apply fail_when_Ok in Hv. by destruct (fn_blocks f).
Qed.

Lemma call_symbol f b ins :
  f ∈ functions → b ∈ fn_blocks f → ins ∈ blk_instructions b →
  is_direct_call (ins_opcode ins) = true → ∃ symbol, ins_symbol ins = Some symbol.
Proof.
  intros Hf Hb Hi Hc. assert (fn_blocks f ≠ []) as Hne by (intros Hnil; rewrite Hnil in Hb; set_solver).
  destruct (wfb_instructions _ _ _ (verified_body f Hf Hne) b ins Hb Hi) as (e & He & _).
  apply verify_instruction_iff in He as (_ & _ & He). unfold verify_opcode in He.
  unfold is_direct_call in Hc.
  destruct (ins_opcode ins); try discriminate Hc; apply verify_call_iff in He as (symbol & _ & _ & _ & ? & _);
    by exists symbol.
Qed.

(** One scan: it is defined, and a local verdict means a local body. *)
Lemma scan_function_ok compatible bulk f :
  f ∈ functions → fn_blocks f ≠ [] →
  returns (scan_function definitions compatible bulk f) (λ p, p.1 = true →
    ∀ b ins, b ∈ fn_blocks f → ins ∈ blk_instructions b →
      local_operation (ins_opcode ins) = true ∨
      is_direct_call (ins_opcode ins) = true ∧
        ∃ symbol callee, ins_symbol ins = Some symbol ∧ definitions !! symbol = Some callee ∧
          callee ∈ compatible).
Proof.
  intros Hf Hne. unfold scan_function. pose proof (verified_body f Hf Hne) as Hbody.
  destruct (has_loop_run f (wfb_blocks _ _ _ Hbody)) as (r & -> & _).
  { intros a b Hab. by apply (wfb_edges _ _ _ Hbody) in Hab as [? _]. }
  rewrite bind_Ok.
  set (good := λ ins, local_operation (ins_opcode ins) = true ∨ is_direct_call (ins_opcode ins) = true ∧
    ∃ symbol callee, ins_symbol ins = Some symbol ∧ definitions !! symbol = Some callee ∧ callee ∈ compatible).
  eapply returns_weaken.
  - apply (returns_loop (λ done p, p.1 = true → ∀ b ins, b ∈ done → ins ∈ blk_instructions b → good ins));
      [|set_solver].
    intros done b s Hb HI. eapply returns_weaken.
    + apply (returns_loop (λ idone p, p.1 = true →
        (∀ b ins, b ∈ done → ins ∈ blk_instructions b → good ins) ∧ ∀ ins, ins ∈ idone → good ins));
        [|intros Hs; split; [by apply HI|set_solver]].
      intros idone ins [local repeated] Hins HI'. unfold scan_instruction.
      destruct (is_direct_call (ins_opcode ins)) eqn:Hc.
      * destruct (call_symbol f b ins Hf Hb Hins Hc) as [symbol Hs]. rewrite Hs. cbn [deref].
        rewrite bind_Ok. destruct (definitions !! symbol) as [callee|] eqn:Hd; apply returns_Ok; [|done].
        simpl. case_bool_decide as Hk; [|done]. intros ->. destruct (HI' eq_refl) as [H1 H2].
        split; [done|]. intros x [?|Hx%list_elem_of_singleton]%elem_of_app; [by apply H2|]. subst x.
        right. split; [done|]. by exists symbol, callee.
      * apply returns_Ok. simpl. destruct (local_operation (ins_opcode ins)) eqn:Hl; [|done].
        intros ->. destruct (HI' eq_refl) as [H1 H2].
        split; [done|]. intros x [?|Hx%list_elem_of_singleton]%elem_of_app; [by apply H2|]. subst x. by left.
    + intros p Hp Hp1. destruct (Hp Hp1) as [H1 H2].
      intros b' ins [?|Hx%list_elem_of_singleton]%elem_of_app Hin; [by eapply H1|]. subst b'. by apply H2.
  - intros p Hp. exact Hp.
Qed.

(** Functions found local so far: closed under calls, and no call chain is infinite. *)
Record compatible_ok (compatible : gset nat) : Prop := {
  compatible_local i : i ∈ compatible → ∃ f, functions !! i = Some f ∧ local_body (λ j, j ∈ compatible) f;
  compatible_finite i : i ∈ compatible → Acc (λ j i, calls i j) i;
}.

Lemma local_body_mono (P Q : nat → Prop) f : (∀ j, P j → Q j) → local_body P f → local_body Q f.
Proof.
  intros HPQ [Hs Hi]. split; [done|]. intros b ins Hb Hins.
  destruct (Hi b ins Hb Hins) as [?|(Hc & symbol & callee & ? & ? & ?)]; [by left|].
  right. split; [done|]. exists symbol, callee. auto.
Qed.

(** The callees of a local body are in its set. *)
Lemma local_body_calls P i f j : functions !! i = Some f → local_body P f → calls i j → P j.
Proof.
  intros Hf Hl (f' & b & ins & symbol & Hf' & Hb & Hins & Hc & Hs & Hd). rewrite Hf in Hf'.
  injection Hf' as <-. destruct (local_instructions _ _ Hl b ins Hb Hins) as [Hop|(_ & s' & j' & Hs' & Hd' & HP)].
  - unfold is_direct_call in Hc. by destruct (ins_opcode ins).
  - congruence.
Qed.

Lemma compatible_ok_add compatible i f :
  compatible_ok compatible → functions !! i = Some f → local_body (λ j, j ∈ compatible) f →
  compatible_ok ({[i]} ∪ compatible).
Proof.
  intros [Hl Ha] Hf Hbody. split.
  - intros k [->%elem_of_singleton|Hk]%elem_of_union.
    + exists f. split; [done|]. eapply local_body_mono; [|exact Hbody]. set_solver.
    + destruct (Hl k Hk) as (g & Hg & Hgl). exists g. split; [done|].
      eapply local_body_mono; [|exact Hgl]. set_solver.
  - intros k [->%elem_of_singleton|Hk]%elem_of_union; [|by apply Ha]. constructor.
    intros j Hj. apply Ha. by apply (local_body_calls (λ j, j ∈ compatible) i f j).
Qed.

Definition pass_ok (before : gset nat) (state : bool * gset nat * gset nat) : Prop :=
  compatible_ok state.1.2 ∧ before ⊆ state.1.2 ∧
  (state.1.1 = true → (size before < size state.1.2)%nat).

Lemma region_step_ok before i f state :
  functions !! i = Some f → pass_ok before state →
  returns (region_step definitions (i, f) state) (pass_ok before).
Proof.
  intros Hf Hpass. destruct state as [[changed compatible] bulk]. unfold region_step.
  destruct (_ || _ || _ || _) eqn:Hskip; [by apply returns_Ok|].
  rewrite !orb_false_iff in Hskip. destruct Hskip as [[[Hnew%bool_decide_eq_false Hu] Hroot] Hne].
  assert (fn_blocks f ≠ []) as Hblocks by by destruct (fn_blocks f).
  eapply returns_bind; [apply scan_function_ok; [by eapply list_elem_of_lookup_2|done]|].
  intros [local repeated] Hlocal. destruct local; apply returns_Ok; [|done].
  destruct Hpass as (Hok & Hsub & Hsize). simpl in *. split_and!; simpl.
  - apply (compatible_ok_add _ i f); [done|done|]. split; [|exact (Hlocal eq_refl)].
    split; [done|]. by destruct (fn_unsafe_root f).
  - set_solver.
  - intros _. rewrite size_union, size_singleton by set_solver.
    assert (size before <= size compatible)%nat by by apply subseteq_size. lia.
Qed.

Lemma region_pass_ok compatible bulk :
  compatible_ok compatible →
  returns (for_state (imap pair functions) (false, compatible, bulk) (region_step definitions))
    (pass_ok compatible).
Proof.
  intros Hok. apply returns_for_state; [|by split_and!].
  intros [i f] s (k & g & [= -> ->] & Hk)%elem_of_lookup_imap. by apply region_step_ok.
Qed.

Lemma compatible_bound compatible :
  compatible_ok compatible → (size compatible <= length functions)%nat.
Proof.
  intros Hok. assert (compatible ⊆ list_to_set (seq 0 (length functions))) as Hsub.
  { intros i Hi. destruct (compatible_local _ Hok i Hi) as (f & Hf & _).
    apply elem_of_list_to_set, elem_of_seq. apply lookup_lt_Some in Hf. lia. }
  apply subseteq_size in Hsub. rewrite size_list_to_set in Hsub by apply NoDup_seq.
  by rewrite length_seq in Hsub.
Qed.

Lemma region_loop_ok fuel compatible bulk :
  compatible_ok compatible → (length functions < fuel + size compatible)%nat →
  returns (region_loop fuel module compatible bulk) (λ p, compatible_ok p.1).
Proof.
  revert compatible bulk. induction fuel as [|fuel IH]; intros compatible bulk Hok Hfuel.
  - pose proof (compatible_bound _ Hok). lia.
  - cbn [region_loop]. eapply returns_bind; [by apply region_pass_ok|].
    intros [[changed compatible'] bulk'] (Hok' & _ & Hgrow). simpl in Hok', Hgrow.
    destruct changed; [|by apply returns_Ok]. apply IH; [done|]. specialize (Hgrow eq_refl). lia.
Qed.

(** ** Signatures *)

Lemma supported_optional symbol arguments count :
  is_supported_value (mk_type NERI_IR_TYPE_OPTIONAL_V1 symbol arguments count) = true →
  ∃ a, arguments = [a] ∧ ty_tag a ≠ NERI_IR_TYPE_OPTIONAL_V1.
Proof.
  intros H. destruct arguments as [|a [|? ?]]; [destruct symbol; discriminate H| |destruct symbol; discriminate H].
  exists a. split; [done|]. intros Ha. cbn in H. rewrite Ha in H. cbn in H.
  destruct symbol; [done|]. cbn in H. by rewrite andb_false_r in H.
Qed.

Lemma supported_boundary t : is_supported_value t = true → ∃ b, scalar_boundary t = Ok b.
Proof.
  destruct t as [tag symbol arguments count]. intros H. destruct tag; try (by eexists).
  apply supported_optional in H as (a & -> & Ha). destruct a as [tag' ? ? ?]. cbn [ty_tag] in Ha.
  simpl. destruct tag'; first [done|by eexists].
Qed.

Lemma declared_supported index t d :
  require_declared_type (C:=module_verification_index) index t d = Ok tt → is_supported_value t = true.
Proof.
  rewrite require_declared_type_unfold, seq_Ok_iff. intros [H _]. unfold require_declared_head in H.
  rewrite !seq_Ok_iff in H. destruct H as (_ & H & _).
  by apply (proj2 (require_value_type_ok t d)) in H.
Qed.

Lemma signature_boundary f :
  f ∈ functions → (∃ b, scalar_boundary (fn_result_type f) = Ok b) ∧ ∃ b, all_scalar (fn_parameter_types f) = Ok b.
Proof.
  intros Hf. pose proof (verified_function f Hf) as Hv. unfold verify_function in Hv.
  rewrite !seq_Ok_iff in Hv. destruct Hv as (_ & _ & Hv & _). unfold verify_signature in Hv.
  rewrite !seq_Ok_iff in Hv. destruct Hv as (_ & _ & _ & _ & _ & _ & Hps & _ & Hr). split.
  - destruct (is_void (fn_result_type f)) eqn:Hvoid.
    + unfold is_void in Hvoid. destruct (fn_result_type f) as [tag ? ? ?]. simpl in Hvoid.
      rewrite !andb_true_iff, tag_eqb_eq in Hvoid. destruct Hvoid as [[-> _] _]. by exists true.
    + by apply declared_supported, supported_boundary in Hr.
  - apply for_each_Ok in Hps. induction Hps as [|t ps Ht _ IH]; [by exists true|]. cbn [all_scalar].
    apply declared_supported, supported_boundary in Ht as [b ->]. rewrite bind_Ok.
    destruct b; [exact IH|by exists false].
Qed.

(** What a selected function is. *)
Record region (i : nat) : Prop := {
  region_scalars : ∃ f, functions !! i = Some f ∧ scalar_boundary (fn_result_type f) = Ok true ∧
    all_scalar (fn_parameter_types f) = Ok true;
  region_finite : Acc (λ j i, calls i j) i;
  region_local j : rtc calls i j → ∃ g, functions !! j = Some g ∧ local_body (rtc calls i) g;
}.

Lemma compatible_reaches compatible i j :
  compatible_ok compatible → i ∈ compatible → rtc calls i j → j ∈ compatible.
Proof.
  intros Hok Hi Hr. induction Hr as [|i k j Hik _ IH]; [done|]. apply IH.
  destruct (compatible_local _ Hok i Hi) as (f & Hf & Hl). exact (local_body_calls _ i f k Hf Hl Hik).
Qed.

Lemma compatible_region compatible i f :
  compatible_ok compatible → i ∈ compatible → functions !! i = Some f →
  scalar_boundary (fn_result_type f) = Ok true → all_scalar (fn_parameter_types f) = Ok true → region i.
Proof.
  intros Hok Hi Hf Hr Hp. split; [by exists f|by apply (compatible_finite _ Hok)|].
  intros j Hj. destruct (compatible_local _ Hok j) as (g & Hg & Hl).
  { by apply (compatible_reaches compatible i). }
  exists g. split; [done|]. destruct Hl as [Hs Hins]. split; [done|]. intros b ins Hb Hin.
  destruct (Hins b ins Hb Hin) as [?|(Hc & symbol & callee & Hsym & Hd & _)]; [by left|].
  right. split; [done|]. exists symbol, callee. split_and!; [done..|].
  eapply rtc_r; [exact Hj|]. by exists g, b, ins, symbol.
Qed.

Lemma allocation_regions_ok :
  returns (allocation_regions module) (λ set, ∀ i, i ∈ set → region i).
Proof.
  unfold allocation_regions. eapply returns_bind.
  { apply region_loop_ok; [split; set_solver|]. rewrite size_empty. lia. }
  intros [compatible bulk] Hok. simpl in Hok.
  apply (returns_for_state (λ set, ∀ i, i ∈ set → region i)); [|set_solver].
  intros i set Hi%elem_of_elements Hset. unfold selects.
  destruct (compatible_local _ Hok i Hi) as (f & Hf & _). unfold element. rewrite Hf, bind_Ok.
  destruct (signature_boundary f) as [[r Hr] [p Hp]]; [by eapply list_elem_of_lookup_2|].
  destruct (negb _); [by apply returns_Ok|]. rewrite Hr, bind_Ok.
  destruct r; cbn [negb]; [|by apply returns_Ok]. rewrite Hp, bind_Ok.
  destruct p; apply returns_Ok; [|done].
  intros k [->%elem_of_singleton|Hk]%elem_of_union; [|by apply Hset].
  by apply (compatible_region compatible i f).
Qed.
End regions.

(** ** Properties *)

(** Loop detection is exact: on an accepted function [has_loop] returns, and the answer
    is true if and only if some block of the control-flow graph can reach itself. *)
Theorem has_loop_exact legal index f :
  fn_retained f = false → verify_function legal index f = Ok tt →
  ∃ answer, has_loop f = Ok answer ∧ (answer = true ↔ ∃ b, tc (cfg_edge f) b b).
Proof.
  intros Hr Hv. assert (well_formed_body legal index f) as Hb
    by by apply (proj2 (verify_function_ok legal index f) tt).
  apply has_loop_run; [apply Hb|]. intros a b Hab. by apply (wfb_edges _ _ _ Hb) in Hab as [? _].
Qed.

Lemma has_loop_exact_witness :
  ∃ answer, has_loop Sample.fill_function = Ok answer ∧
    (answer = true ↔ ∃ b, tc (cfg_edge Sample.fill_function) b b).
Proof.
  apply (has_loop_exact (λ _, true) (module_index Sample.app) Sample.fill_function);
    vm_compute; reflexivity.
Defined.

(** Allocation regions are closed: on a supported module the analysis ends within one
    pass per function plus one and returns, and every selected function has scalar
    parameters and results, makes only finite chains of direct calls, and neither it
    nor any function it can reach by calls is unsafe or contains an instruction other
    than local operations and direct calls of functions of the same kind. *)
Theorem allocation_regions_closed legal m :
  verify_supported_module legal m = Ok tt →
  ∃ set, allocation_regions m = Ok set ∧ ∀ i, i ∈ set → region m i.
Proof. intros Hm. by apply (allocation_regions_ok legal). Qed.

Lemma allocation_regions_closed_witness :
  ∃ set, allocation_regions Sample.app = Ok set ∧ ∀ i, i ∈ set → region Sample.app i.
Proof. apply (allocation_regions_closed (λ _, true) Sample.app). vm_compute. reflexivity. Defined.

(** The allocating loop of the sample, at position 3, is the one region. *)
Example sample_regions : allocation_regions Sample.app = Ok {[3%nat]}.
Proof. vm_compute. reflexivity. Qed.
