(* ===== verification/Mangling.v ===== *)
(** * Link names ([native/codegen/llvm_lowering.cpp])

    The functions and globals of a module become symbols of an object file.  Their names
    spell out the qualified name and the signature, since functions may be overloaded:
    two functions that share a link name would be merged by the linker. *)

From Stdlib Require Import Ascii.
From S2P Require Import Prelude Domains IR Samples Reader Types Layout.

Local Open Scope string_scope.
Local Open Scope list_scope.
Local Open Scope N_scope.

(** ** Qualified names *)

(** The table [digits] of [append_hex]. *)
Definition digits : string := "0123456789abcdef".

Definition digit_at (n : N) : string :=
  match String.get (N.to_nat n) digits with Some d => String d EmptyString | None => "" end.

Fixpoint append_hex (output value : string) : string :=
  match value with
  | EmptyString => output
  | String character value =>
      let byte := Ascii.N_of_ascii character in
      append_hex (output +:+ digit_at (N.shiftr byte 4) +:+ digit_at (N.land byte 15)) value
  end.

Definition is_separator (character : Ascii.ascii) : bool := Ascii.eqb character "."%char.

(** One part is collected at a time: [part] is what [value] holds from [start] on. *)
Fixpoint append_qualified_parts (parts : list string) (part value : string) : list string :=
  match value with
  | EmptyString => parts ++ [part]
  | String character value =>
      if is_separator character then append_qualified_parts (parts ++ [part]) "" value
      else append_qualified_parts parts (part +:+ String character EmptyString) value
  end.

Definition string_size (s : string) : N := N.of_nat (String.length s).

Definition qualified_name (value : symbol_id) : string :=
  let parts := append_qualified_parts [] "" (sym_semantic_name value) in
  fold_left
    (λ result part, append_hex (result +:+ "_n" +:+ to_string (string_size part) +:+ "_") part)
    parts ("q" +:+ to_string (length_N parts)).

(** [value.substr(value.find_last_of('.') + 1)], or all of it without a separator. *)
Fixpoint unqualified_name (value : string) : string :=
  match value with
  | EmptyString => ""
  | String character rest =>
      match String.index 0 "." rest with
      | Some _ => unqualified_name rest
      | None => if is_separator character then rest else value
      end
  end.

(** ** Types *)

(** Every type tag has a code; the [default] of the switch is for numbers that are no
    tag, which a module that was read does not hold. *)
Fixpoint type_code (value : type) : result string :=
  match value with
  | mk_type tag symbol arguments element_count =>
      let front_code := match arguments with
                        | argument :: _ => type_code argument
                        | [] => Throw (undefined "front() of an empty vector")
                        end in
      match tag with
      | NERI_IR_TYPE_VOID_V1 => Ok "v"
      | NERI_IR_TYPE_BOOL_V1 => Ok "b"
      | NERI_IR_TYPE_BYTE_V1 => Ok "u8"
      | NERI_IR_TYPE_INT_V1 => Ok "i64"
      | NERI_IR_TYPE_FLOAT_V1 => Ok "f64"
      | NERI_IR_TYPE_INT32_V1 => Ok "i32"
      | NERI_IR_TYPE_UINT32_V1 => Ok "u32"
      | NERI_IR_TYPE_UINT64_V1 => Ok "u64"
      | NERI_IR_TYPE_FLOAT32_V1 => Ok "f32"
      | NERI_IR_TYPE_STRING_V1 => Ok "s"
      | NERI_IR_TYPE_ARRAY_V1 => code ← front_code; Ok ("a" +:+ code +:+ "e")
      | NERI_IR_TYPE_CLASS_V1 =>
          symbol ← deref symbol; Ok ("c" +:+ qualified_name symbol +:+ "e")
      | NERI_IR_TYPE_NATIVE_RECORD_V1 =>
          symbol ← deref symbol; Ok ("r" +:+ qualified_name symbol +:+ "e")
      | NERI_IR_TYPE_FIXED_ARRAY_V1 =>
          code ← front_code; Ok ("f" +:+ to_string element_count +:+ "_" +:+ code +:+ "e")
      | NERI_IR_TYPE_OPTIONAL_V1 => code ← front_code; Ok ("o" +:+ code +:+ "e")
      | NERI_IR_TYPE_POINTER_V1 => code ← front_code; Ok ("p" +:+ code +:+ "e")
      | NERI_IR_TYPE_C_FUNCTION_V1 =>
          codes ← (fix argument_codes arguments :=
                     match arguments with
                     | [] => Ok ""
                     | argument :: arguments =>
                         code ← type_code argument;
                         codes ← argument_codes arguments;
                         Ok (code +:+ "_" +:+ codes)
                     end) arguments;
          Ok ("cf" +:+ to_string (u64_sub (length_N arguments) 1) +:+ "_" +:+ codes +:+ "e")
      | NERI_IR_TYPE_UNSAFE_CAPABILITY_V1 => Ok "cu"
      | NERI_IR_TYPE_BORROW_CAPABILITY_V1 => code ← front_code; Ok ("cb" +:+ code +:+ "e")
      end
  end.

(** [for (argument : arguments) result += type_code(argument) + "_"]. *)
Fixpoint type_codes (arguments : list type) : result string :=
  match arguments with
  | [] => Ok ""
  | argument :: arguments =>
      code ← type_code argument;
      codes ← type_codes arguments;
      Ok (code +:+ "_" +:+ codes)
  end.

(** ** Symbols *)

Definition mangle_function (value : function) : result string :=
  codes ← type_codes (fn_parameter_types value);
  code ← type_code (fn_result_type value);
  Ok ("hk1_f_" +:+ qualified_name (fn_id value) +:+ "__p" +:+
      to_string (length_N (fn_parameter_types value)) +:+ "_" +:+ codes +:+ "r" +:+ code).

Definition mangle_global (value : global_declaration) : result string :=
  code ← type_code (glb_value_type value);
  Ok ("hk1_g_" +:+ qualified_name (glb_id value) +:+ "__" +:+ code).

(** ** Decimal numbers and strings *)

#[local] Arguments String.append !_ _ : simpl nomatch.

Section strings.
Definition is_digit (character : Ascii.ascii) : bool :=
  let code := Ascii.N_of_ascii character in (48 <=? code) && (code <=? 57).

Fixpoint all_digits (s : string) : bool :=
  match s with EmptyString => true | String c s => is_digit c && all_digits s end.

(** The text does not continue a number. *)
Definition stops (s : string) : bool :=
  match s with EmptyString => true | String c _ => negb (is_digit c) end.

Lemma pretty_digits n s : all_digits s = true → all_digits (pretty_N_go n s) = true.
Proof.
  revert s. induction n as [n IH] using (well_founded_induction N.lt_wf_0). intros s Hs.
  destruct (decide (n = 0)) as [->|]; [by rewrite pretty_N_go_0|].
  rewrite pretty_N_go_step by lia. apply IH; [apply N.div_lt; lia|]. cbn [all_digits]. rewrite Hs.
  unfold pretty_N_char. by repeat case_match.
Qed.

Lemma to_string_digits n : all_digits (to_string n) = true.
Proof.
  unfold to_string, pretty, pretty_N. destruct (decide (n = 0)); [done|]. by apply pretty_digits.
Qed.

Lemma digits_cancel d1 d2 k1 k2 :
  all_digits d1 = true → all_digits d2 = true → stops k1 = true → stops k2 = true →
  d1 +:+ k1 = d2 +:+ k2 → d1 = d2 ∧ k1 = k2.
Proof.
  revert d2. induction d1 as [|c d1 IH]; intros [|c' d2]; simpl; intros H1 H2 Hk1 Hk2 He.
  - done.
  - subst k1. simpl in Hk1. apply andb_true_iff in H2 as [H2 _]. by rewrite H2 in Hk1.
  - subst k2. simpl in Hk2. apply andb_true_iff in H1 as [H1 _]. by rewrite H1 in Hk2.
  - injection He as <- He. apply andb_true_iff in H1 as [_ H1], H2 as [_ H2].
    by destruct (IH d2 H1 H2 Hk1 Hk2 He) as [-> ->].
Qed.

Lemma number_cancel n m k1 k2 :
  stops k1 = true → stops k2 = true → to_string n +:+ k1 = to_string m +:+ k2 → n = m ∧ k1 = k2.
Proof.
  intros H1 H2 He. apply digits_cancel in He as [He ->]; auto using to_string_digits.
  split; [|done]. by apply (inj pretty) in He.
Qed.

Lemma append_assoc a b c : (a +:+ b) +:+ c = a +:+ b +:+ c.
Proof. induction a as [|x a IH]; [done|]. simpl. by rewrite IH. Qed.

Lemma append_nil_r a : a +:+ "" = a.
Proof. induction a as [|x a IH]; [done|]. simpl. by rewrite IH. Qed.

Lemma same_size_cancel a b k1 k2 :
  String.length a = String.length b → a +:+ k1 = b +:+ k2 → a = b ∧ k1 = k2.
Proof.
  revert b. induction a as [|x a IH]; intros [|y b]; simpl; intros Hl He; try done.
  injection He as -> He. destruct (IH b) as [-> ->]; [lia|done..].
Qed.

(** ** Hexadecimal text *)

Definition hex_byte (c : Ascii.ascii) : string :=
  digit_at (N.shiftr (Ascii.N_of_ascii c) 4) +:+ digit_at (N.land (Ascii.N_of_ascii c) 15).

Fixpoint hex (s : string) : string :=
  match s with EmptyString => "" | String c s => hex_byte c +:+ hex s end.

Lemma append_hex_eq out s : append_hex out s = out +:+ hex s.
Proof.
  revert out. induction s as [|c s IH]; intros out; simpl; [by rewrite append_nil_r|].
  by rewrite IH, append_assoc.
Qed.

(** The byte two digits stand for. *)
Definition digit_value (c : Ascii.ascii) : N :=
  let code := Ascii.N_of_ascii c in if code <? 58 then code - 48 else code - 87.

Definition unhex (s : string) : option Ascii.ascii :=
  match s with
  | String a (String b EmptyString) => Some (Ascii.ascii_of_N (16 * digit_value a + digit_value b))
  | _ => None
  end.

Lemma unhex_byte c : unhex (hex_byte c) = Some c.
Proof. by destruct c as [[] [] [] [] [] [] [] []]. Qed.

Lemma hex_byte_size c : String.length (hex_byte c) = 2%nat.
Proof. by destruct c as [[] [] [] [] [] [] [] []]. Qed.

Lemma length_append a b : String.length (a +:+ b) = (String.length a + String.length b)%nat.
Proof. induction a as [|x a IH]; simpl; congruence. Qed.

Lemma hex_size s : String.length (hex s) = (2 * String.length s)%nat.
Proof. induction s as [|c s IH]; [done|]. simpl. rewrite length_append, hex_byte_size, IH. lia. Qed.

Lemma hex_inj a b : hex a = hex b → a = b.
Proof.
  revert b. induction a as [|x a IH]; intros b He.
  - destruct b as [|y b]; [done|]. apply (f_equal String.length) in He. by rewrite !hex_size in He.
  - destruct b as [|y b]; [apply (f_equal String.length) in He; by rewrite !hex_size in He|].
    simpl in He. apply same_size_cancel in He as [Hc He]; [|by rewrite !hex_byte_size].
    apply (f_equal unhex) in Hc. rewrite !unhex_byte in Hc. by rewrite (IH b He); simplify_eq.
Qed.
End strings.

(** ** Qualified names end themselves *)

Definition part_text (part : string) : string :=
  "_n" +:+ to_string (string_size part) +:+ "_" +:+ hex part.

Fixpoint parts_text (parts : list string) : string :=
  match parts with [] => "" | part :: parts => part_text part +:+ parts_text parts end.

Definition name_parts (value : symbol_id) : list string :=
  append_qualified_parts [] "" (sym_semantic_name value).

Lemma fold_parts parts out :
  fold_left
    (λ result part, append_hex (result +:+ "_n" +:+ to_string (string_size part) +:+ "_") part)
    parts out = out +:+ parts_text parts.
Proof.
  revert out. induction parts as [|part parts IH]; intros out; cbn [fold_left parts_text].
  - by rewrite append_nil_r.
  - rewrite IH, append_hex_eq. unfold part_text. by rewrite !append_assoc.
Qed.

Lemma qualified_name_eq value :
  qualified_name value =
  "q" +:+ to_string (length_N (name_parts value)) +:+ parts_text (name_parts value).
Proof. unfold qualified_name. rewrite fold_parts. by rewrite append_assoc. Qed.

Lemma parts_cancel parts1 parts2 k1 k2 :
  length parts1 = length parts2 → parts_text parts1 +:+ k1 = parts_text parts2 +:+ k2 →
  parts1 = parts2 ∧ k1 = k2.
Proof.
  revert parts2. induction parts1 as [|p1 parts1 IH]; intros [|p2 parts2]; intros Hl He; try done.
  cbn [parts_text length] in Hl, He. unfold part_text in He. rewrite !append_assoc in He. simpl in He.
  injection He as He. apply number_cancel in He as [Hn He]; [|done..].
  simpl in He. injection He as He.
  assert (String.length p1 = String.length p2) by (unfold string_size in Hn; lia).
  apply same_size_cancel in He as [Hp He]; [|rewrite !hex_size; lia]. apply hex_inj in Hp as ->.
  destruct (IH parts2) as [-> ->]; [lia|done..].
Qed.

(** The parts, with the separators, are the name. *)
Fixpoint join_parts (parts : list string) : string :=
  match parts with
  | [] => ""
  | [part] => part
  | part :: parts => part +:+ "." +:+ join_parts parts
  end.

Lemma join_cons part parts : parts ≠ [] → join_parts (part :: parts) = part +:+ "." +:+ join_parts parts.
Proof. by destruct parts. Qed.

Lemma join_app parts rest :
  parts ≠ [] → rest ≠ [] → join_parts (parts ++ rest) = join_parts parts +:+ "." +:+ join_parts rest.
Proof.
  intros Hp Hr. induction parts as [|p [|p' parts] IH]; [done|by apply join_cons|].
  cbn [app]. rewrite join_cons by done. rewrite (join_cons p (p' :: parts)) by done.
  cbn [app] in IH. rewrite IH by done. by rewrite !append_assoc.
Qed.

Lemma join_snoc parts part value :
  join_parts (parts ++ [part; value]) = join_parts (parts ++ [part +:+ "." +:+ value]).
Proof. destruct parts as [|p parts]; [done|]. by rewrite !join_app. Qed.

Lemma append_parts_join parts part value :
  join_parts (append_qualified_parts parts part value) = join_parts (parts ++ [part +:+ value]).
Proof.
  revert parts part. induction value as [|c value IH]; intros parts part; cbn [append_qualified_parts].
  - by rewrite append_nil_r.
  - unfold is_separator. destruct (Ascii.eqb_spec c "."%char) as [->|_].
    + rewrite IH, <-app_assoc. apply join_snoc.
    + rewrite IH. by rewrite append_assoc.
Qed.

Lemma name_parts_join value : join_parts (name_parts value) = sym_semantic_name value.
Proof. apply append_parts_join. Qed.

Lemma append_parts_nonempty parts part value : append_qualified_parts parts part value ≠ [].
Proof.
  revert parts part. induction value as [|c value IH]; intros parts part; cbn [append_qualified_parts].
  - by destruct parts.
  - case_match; apply IH.
Qed.

Lemma name_parts_nonempty value : name_parts value ≠ [].
Proof. apply append_parts_nonempty. Qed.

Lemma parts_text_stops parts k : parts ≠ [] → stops (parts_text parts +:+ k) = true.
Proof. by destruct parts. Qed.

Lemma qualified_cancel s1 s2 k1 k2 :
  qualified_name s1 +:+ k1 = qualified_name s2 +:+ k2 →
  sym_semantic_name s1 = sym_semantic_name s2 ∧ k1 = k2.
Proof.
  rewrite !qualified_name_eq, !append_assoc. simpl. intros [=He].
  apply number_cancel in He as [Hn He]; [|by apply parts_text_stops, name_parts_nonempty..].
  apply parts_cancel in He as [Hp ->]; [|unfold length_N in Hn; lia].
  split; [|done]. by rewrite <-!name_parts_join, Hp.
Qed.
