(* ===== verification/ManglingSpec.v ===== *)
(** * Link names identify what they name

    The proof that a link name determines the qualified name and the signature.  Almost
    every code ends itself; the exception is that a [Float] followed by an underscore
    looks like the start of a fixed array of 64 elements, which what follows excludes. *)

From Stdlib Require Import Ascii.
From S2P Require Import Prelude Domains IR Samples Reader Types Layout Index Instructions.
From S2P Require Import Functions Modules ModuleSafety Pipeline Regions Mangling.

Local Open Scope string_scope.
Local Open Scope list_scope.
Local Open Scope N_scope.

#[local] Arguments String.append !_ _ : simpl nomatch.

(** ** What a code tells *)

(** The kind and the module of a symbol are not part of a link name. *)
Definition name_only (value : symbol_id) : symbol_id :=
  mk_symbol "" NERI_IR_SYMBOL_CLASS_V1 (sym_semantic_name value).

(** The tag of a type, and the parts that a type with this tag has. *)
Fixpoint type_signature (value : type) : type :=
  match value with
  | mk_type tag symbol arguments element_count =>
      match tag with
      | NERI_IR_TYPE_CLASS_V1 | NERI_IR_TYPE_NATIVE_RECORD_V1 =>
          mk_type tag (name_only <$> symbol) [] 0
      | NERI_IR_TYPE_ARRAY_V1 | NERI_IR_TYPE_OPTIONAL_V1 | NERI_IR_TYPE_POINTER_V1
      | NERI_IR_TYPE_BORROW_CAPABILITY_V1 =>
          mk_type tag None (firstn 1 (map type_signature arguments)) 0
      | NERI_IR_TYPE_FIXED_ARRAY_V1 =>
          mk_type tag None (firstn 1 (map type_signature arguments)) element_count
      | NERI_IR_TYPE_C_FUNCTION_V1 => mk_type tag None (map type_signature arguments) 0
      | _ => mk_type tag None [] 0
      end
  end.

Fixpoint type_size (value : type) : nat :=
  match value with mk_type _ _ arguments _ => S (list_max (map type_size arguments)) end.

Lemma argument_size tag symbol arguments count t :
  t ∈ arguments → (type_size t < type_size (mk_type tag symbol arguments count))%nat.
Proof.
  intros Ht. cbn [type_size]. pose proof (proj1 (list_max_le (map type_size arguments) _) (le_n _)) as H.
  rewrite List.Forall_forall in H. apply Nat.lt_succ_r, H, in_map. by apply list_elem_of_In.
Qed.

(** ** The shape of a code *)

Inductive coded : type → string → Prop :=
| coded_word tag symbol arguments count word :
    (tag, word) ∈ [(NERI_IR_TYPE_VOID_V1, "v"); (NERI_IR_TYPE_BOOL_V1, "b");
      (NERI_IR_TYPE_BYTE_V1, "u8"); (NERI_IR_TYPE_INT_V1, "i64"); (NERI_IR_TYPE_INT32_V1, "i32");
      (NERI_IR_TYPE_UINT32_V1, "u32"); (NERI_IR_TYPE_UINT64_V1, "u64");
      (NERI_IR_TYPE_STRING_V1, "s"); (NERI_IR_TYPE_UNSAFE_CAPABILITY_V1, "cu")] →
    coded (mk_type tag symbol arguments count) word
| coded_float tag symbol arguments count n :
    (tag, n) ∈ [(NERI_IR_TYPE_FLOAT_V1, 64); (NERI_IR_TYPE_FLOAT32_V1, 32)] →
    coded (mk_type tag symbol arguments count) ("f" +:+ to_string n)
| coded_named tag letter symbol arguments count :
    (tag, letter) ∈ [(NERI_IR_TYPE_CLASS_V1, "c"); (NERI_IR_TYPE_NATIVE_RECORD_V1, "r")] →
    coded (mk_type tag (Some symbol) arguments count) (letter +:+ qualified_name symbol +:+ "e")
| coded_around tag word symbol argument arguments count code :
    (tag, word) ∈ [(NERI_IR_TYPE_ARRAY_V1, "a"); (NERI_IR_TYPE_OPTIONAL_V1, "o");
      (NERI_IR_TYPE_POINTER_V1, "p"); (NERI_IR_TYPE_BORROW_CAPABILITY_V1, "cb")] →
    coded argument code →
    coded (mk_type tag symbol (argument :: arguments) count) (word +:+ code +:+ "e")
| coded_fixed symbol argument arguments count code :
    coded argument code →
    coded (mk_type NERI_IR_TYPE_FIXED_ARRAY_V1 symbol (argument :: arguments) count)
      ("f" +:+ to_string count +:+ "_" +:+ code +:+ "e")
| coded_function symbol arguments count n codes :
    coded_list arguments codes →
    coded (mk_type NERI_IR_TYPE_C_FUNCTION_V1 symbol arguments count)
      ("cf" +:+ to_string n +:+ "_" +:+ codes +:+ "e")
with coded_list : list type → string → Prop :=
| coded_nil : coded_list [] ""
| coded_cons t l code codes :
    coded t code → coded_list l codes → coded_list (t :: l) (code +:+ "_" +:+ codes).

Lemma type_codes_coded l codes :
  Forall (λ t, ∀ code, type_code t = Ok code → coded t code) l → type_codes l = Ok codes →
  coded_list l codes.
Proof.
  intros H. revert codes. induction H as [|t l Ht _ IH]; intros codes Hc; cbn [type_codes] in Hc.
  - simplify_eq. constructor.
  - apply bind_Ok_inv in Hc as (code & Hcode & Hc). apply bind_Ok_inv in Hc as (codes' & Hcodes & Hc).
    simplify_eq. constructor; auto.
Qed.

(** Membership in a literal list, and its cases. *)
Ltac find_pair := solve [repeat first [apply list_elem_of_here | apply list_elem_of_further]].
Ltac pair_cases H :=
  repeat (apply elem_of_cons in H as [H|H]; [injection H as ? ?; subst|]);
  [..|by apply not_elem_of_nil in H].

Lemma type_code_coded t : ∀ code, type_code t = Ok code → coded t code.
Proof.
  induction t as [tag symbol arguments count IH] using type_nested_ind. intros code Hc.
  destruct tag; cbn [type_code] in Hc;
    try (apply bind_Ok_inv in Hc as (c & Hin & Hc));
    try (destruct symbol as [symbol|]; [|done]; cbn [deref] in Hin);
    try (destruct arguments as [|argument arguments]; [done|]; apply Forall_cons in IH as [IH _]);
    simplify_eq.
  all: try (eapply coded_word; find_pair).
  all: try (apply (coded_named _ "c"); find_pair).
  all: try (apply (coded_named _ "r"); find_pair).
  all: try (apply coded_fixed; auto).
  all: try (apply (coded_float _ _ _ _ 64); find_pair).
  all: try (apply (coded_float _ _ _ _ 32); find_pair).
  all: try (apply (coded_around _ "a"); [find_pair|auto]).
  all: try (apply (coded_around _ "o"); [find_pair|auto]).
  all: try (apply (coded_around _ "p"); [find_pair|auto]).
  all: try (apply (coded_around _ "cb"); [find_pair|auto]).
  - apply (coded_function _ _ _ _ c). by apply type_codes_coded.
Qed.

(** ** Codes end themselves *)

(** A text that no code is a prefix of. *)
Definition ends_codes (k : string) : Prop := ∀ t code rest, coded t code → k ≠ code +:+ rest.

(** The one ambiguity: a float before an underscore, and a fixed array. *)
Definition float_then_array (t1 : type) (k1 : string) (t2 : type) (k2 : string) : Prop :=
  ty_tag t1 ∈ [NERI_IR_TYPE_FLOAT_V1; NERI_IR_TYPE_FLOAT32_V1] ∧
  ∃ u code, (type_size u < type_size t2)%nat ∧ coded u code ∧ k1 = "_" +:+ code +:+ "e" +:+ k2.

Definition same_code (t1 : type) (k1 : string) (t2 : type) (k2 : string) : Prop :=
  (type_signature t1 = type_signature t2 ∧ k1 = k2) ∨
  float_then_array t1 k1 t2 k2 ∨ float_then_array t2 k2 t1 k1.

(** Below a bound on the sizes. *)
Definition cancels (n : nat) : Prop := ∀ t1 t2 c1 c2 k1 k2,
  (type_size t1 + type_size t2 < n)%nat → coded t1 c1 → coded t2 c2 →
  stops k1 = true → stops k2 = true → c1 +:+ k1 = c2 +:+ k2 → same_code t1 k1 t2 k2.

Lemma code_first t c : coded t c → ∃ x rest, c = String x rest ∧ x ≠ "e"%char ∧ x ≠ "q"%char ∧ x ≠ "_"%char.
Proof.
  intros Hc. destruct Hc; try pair_cases H; simpl; eexists _, _; (split; [reflexivity|done]).
Qed.

Lemma ends_e k : ends_codes ("e" +:+ k).
Proof.
  intros t c rest Hc He. apply code_first in Hc as (x & r & -> & Hx & _). simpl in He. by injection He.
Qed.

Lemma same_code_e t1 k1 t2 k2 : same_code t1 ("e" +:+ k1) t2 ("e" +:+ k2) → type_signature t1 = type_signature t2 ∧ k1 = k2.
Proof.
  intros [[Hs Hk]|[(_ & u & c & _ & _ & Hk)|(_ & u & c & _ & _ & Hk)]]; [|by simpl in Hk..].
  simpl in Hk. by injection Hk.
Qed.

(** A list that continues a fixed array runs into the end of the list first. *)
Lemma list_no_array n l u codes code T k :
  cancels n → Forall (λ t, (type_size t + type_size u < n)%nat) l → coded_list l codes →
  coded u code → ends_codes T → codes +:+ T ≠ code +:+ "e" +:+ k.
Proof.
  intros Hn Hl Hcodes. revert u code k Hl. induction Hcodes as [|t l ct cl Ht _ IH]; intros u code k Hl Hu HT He.
  - by apply (HT u code ("e" +:+ k)).
  - apply Forall_cons in Hl as [Hsize Hl]. rewrite !append_assoc in He.
    apply (Hn t u) in He as [[_ He]|[(_ & u' & c' & Hu' & Hc' & He)|(_ & u' & c' & _ & _ & He)]]; try done.
    injection He as He. apply (IH u' c' ("e" +:+ k)) in He; try done.
    eapply Forall_impl; [exact Hl|]. simpl. lia.
Qed.

Lemma list_cancel n l1 l2 codes1 codes2 T1 T2 :
  cancels n → (∀ t1 t2, t1 ∈ l1 → t2 ∈ l2 → (type_size t1 + type_size t2 < n)%nat) →
  coded_list l1 codes1 → coded_list l2 codes2 → ends_codes T1 → ends_codes T2 →
  codes1 +:+ T1 = codes2 +:+ T2 → map type_signature l1 = map type_signature l2 ∧ T1 = T2.
Proof.
  intros Hn Hsize Hl1. revert l2 codes2 Hsize.
  induction Hl1 as [|t1 l1 c1 codes1 Hc1 Hl1 IH]; intros l2 codes2 Hsize Hl2 HT1 HT2 He.
  - destruct Hl2 as [|t2 l2 c2 codes2 Hc2 _]; [done|]. rewrite !append_assoc in He.
    by destruct (HT1 _ _ _ Hc2 He).
  - destruct Hl2 as [|t2 l2 c2 codes2 Hc2 Hl2].
    + rewrite !append_assoc in He. symmetry in He. by destruct (HT2 _ _ _ Hc1 He).
    + rewrite !append_assoc in He.
      apply (Hn t1 t2) in He as [[Hs He]|[(_ & u & c & Hu & Hc & He)|(_ & u & c & Hu & Hc & He)]];
        try done; [| | |apply Hsize; left].
      * injection He as He. destruct (IH l2 codes2) as [Hm ->]; try done; [set_solver|].
        split; [|done]. simpl. by rewrite Hs, Hm.
      * injection He as He. destruct (list_no_array n l1 u codes1 c T1 ("_" +:+ codes2 +:+ T2)); try done.
        apply Forall_forall. intros t Ht. specialize (Hsize t t2 ltac:(set_solver) ltac:(set_solver)). lia.
      * injection He as He. destruct (list_no_array n l2 u codes2 c T2 ("_" +:+ codes1 +:+ T1)); try done.
        apply Forall_forall. intros t Ht. specialize (Hsize t1 t ltac:(set_solver) ltac:(set_solver)). lia.
Qed.

Lemma named_cancel s1 s2 k1 k2 :
  qualified_name s1 +:+ "e" +:+ k1 = qualified_name s2 +:+ "e" +:+ k2 → name_only s1 = name_only s2 ∧ k1 = k2.
Proof. intros He. apply qualified_cancel in He as [Hs [=Hk]]. unfold name_only. by rewrite Hs. Qed.

Lemma around_cancel n tag symbol1 symbol2 a1 a2 l1 l2 count1 count2 c1 c2 k1 k2 :
  cancels n → (type_size (mk_type tag symbol1 (a1 :: l1) count1) +
               type_size (mk_type tag symbol2 (a2 :: l2) count2) < S n)%nat →
  coded a1 c1 → coded a2 c2 → c1 +:+ "e" +:+ k1 = c2 +:+ "e" +:+ k2 →
  type_signature a1 = type_signature a2 ∧ k1 = k2.
Proof.
  intros Hn Hsize Hc1 Hc2 He. eapply same_code_e, Hn; [|exact Hc1|exact Hc2|done|done|exact He].
  pose proof (argument_size tag symbol1 (a1 :: l1) count1 a1 ltac:(left)).
  pose proof (argument_size tag symbol2 (a2 :: l2) count2 a2 ltac:(left)). lia.
Qed.

Lemma fixed_cancel n (count1 count2 : N) a1 a2 l1 l2 s1 s2 c1 c2 k1 k2 :
  cancels n → (type_size (mk_type NERI_IR_TYPE_FIXED_ARRAY_V1 s1 (a1 :: l1) count1) +
               type_size (mk_type NERI_IR_TYPE_FIXED_ARRAY_V1 s2 (a2 :: l2) count2) < S n)%nat →
  coded a1 c1 → coded a2 c2 →
  to_string count1 +:+ "_" +:+ c1 +:+ "e" +:+ k1 = to_string count2 +:+ "_" +:+ c2 +:+ "e" +:+ k2 →
  count1 = count2 ∧ type_signature a1 = type_signature a2 ∧ k1 = k2.
Proof.
  intros Hn Hsize Hc1 Hc2 He. apply number_cancel in He as [-> [=He]]; [|done..].
  split; [done|]. by eapply around_cancel.
Qed.

Lemma function_cancel n (n1 n2 : N) l1 l2 s1 s2 count1 count2 codes1 codes2 k1 k2 :
  cancels n → (type_size (mk_type NERI_IR_TYPE_C_FUNCTION_V1 s1 l1 count1) +
               type_size (mk_type NERI_IR_TYPE_C_FUNCTION_V1 s2 l2 count2) < S n)%nat →
  coded_list l1 codes1 → coded_list l2 codes2 →
  to_string n1 +:+ "_" +:+ codes1 +:+ "e" +:+ k1 = to_string n2 +:+ "_" +:+ codes2 +:+ "e" +:+ k2 →
  map type_signature l1 = map type_signature l2 ∧ k1 = k2.
Proof.
  intros Hn Hsize Hc1 Hc2 He. apply number_cancel in He as [_ [=He]]; [|done..].
  destruct (list_cancel n l1 l2 codes1 codes2 ("e" +:+ k1) ("e" +:+ k2)) as [Hm [=Hk]]; auto using ends_e.
  intros t1 t2 Ht1 Ht2.
  pose proof (argument_size NERI_IR_TYPE_C_FUNCTION_V1 s1 l1 count1 t1 Ht1).
  pose proof (argument_size NERI_IR_TYPE_C_FUNCTION_V1 s2 l2 count2 t2 Ht2). lia.
Qed.

Lemma float_fixed tag symbol arguments count bits symbol' a l count' c k1 k2 :
  tag ∈ [NERI_IR_TYPE_FLOAT_V1; NERI_IR_TYPE_FLOAT32_V1] → coded a c → stops k1 = true →
  to_string bits +:+ k1 = to_string count' +:+ "_" +:+ c +:+ "e" +:+ k2 →
  float_then_array (mk_type tag symbol arguments count) k1
    (mk_type NERI_IR_TYPE_FIXED_ARRAY_V1 symbol' (a :: l) count') k2.
Proof.
  intros Htag Hc Hk He. apply number_cancel in He as [_ ->]; [|done..]. split; [done|].
  exists a, c. split; [apply argument_size; left|done].
Qed.

Lemma coded_cancel_step n : cancels n → cancels (S n).
Proof.
  intros Hn t1 t2 c1 c2 k1 k2 Hsize Hc1 Hc2 Hk1 Hk2 He.
  destruct Hc1 as [? ? ? ? ? H1|? ? ? ? n1 H1|? ? s1 ? ? H1|? ? ? a1 ? ? c1 H1 Hc1|? a1 ? count1 c1 Hc1|? l1 ? n1 codes1 Hl1];
    destruct Hc2 as [? ? ? ? ? H2|? ? ? ? n2 H2|? ? s2 ? ? H2|? ? ? a2 ? ? c2 H2 Hc2|? a2 ? count2 c2 Hc2|? l2 ? n2 codes2 Hl2];
    try pair_cases H1; try pair_cases H2; rewrite ?append_assoc in He; simpl in He; try discriminate He;
    injection He as He; try discriminate He.
  all: try (by left).
  all: try (rewrite qualified_name_eq in He; discriminate He).
  all: try (apply named_cancel in He as [Hs ->]; left; split; [|done]; simpl; by rewrite Hs).
  all: try (eapply around_cancel in He as [Hs ->]; [|eassumption..]; left; split; [|done]; simpl; by rewrite Hs).
  all: try (eapply fixed_cancel in He as (-> & Hs & ->); [|eassumption..]; left; split; [|done]; simpl; by rewrite Hs).
  all: try (eapply function_cancel in He as (Hs & ->); [|eassumption..]; left; split; [|done]; simpl; by rewrite Hs).
  all: try (apply number_cancel in He as [? ->]; [by left|done..]).
  all: try (symmetry in He; right; right; by first
    [eapply (float_fixed _ _ _ _ 64) in He; [eassumption|find_pair|eassumption..]
    |eapply (float_fixed _ _ _ _ 32) in He; [eassumption|find_pair|eassumption..]]).
  all: right; left; by first
    [eapply (float_fixed _ _ _ _ 64) in He; [eassumption|find_pair|eassumption..]
    |eapply (float_fixed _ _ _ _ 32) in He; [eassumption|find_pair|eassumption..]].
Qed.

Lemma coded_cancel t1 t2 c1 c2 k1 k2 :
  coded t1 c1 → coded t2 c2 → stops k1 = true → stops k2 = true → c1 +:+ k1 = c2 +:+ k2 →
  same_code t1 k1 t2 k2.
Proof.
  assert (∀ n, cancels n) as Hn by (intros n; induction n as [|n IH];
    [intros ? ? ? ? ? ? ?; lia|by apply coded_cancel_step]).
  apply (Hn (S (type_size t1 + type_size t2))). lia.
Qed.

Lemma codes_cancel l1 l2 codes1 codes2 T1 T2 :
  coded_list l1 codes1 → coded_list l2 codes2 → ends_codes T1 → ends_codes T2 →
  codes1 +:+ T1 = codes2 +:+ T2 → map type_signature l1 = map type_signature l2 ∧ T1 = T2.
Proof.
  apply (list_cancel (S (list_max (map type_size l1) + list_max (map type_size l2)))).
  - intros t1 t2 c1 c2 k1 k2 _. apply coded_cancel.
  - intros t1 t2 Ht1 Ht2. pose proof (argument_size NERI_IR_TYPE_VOID_V1 None l1 0 t1 Ht1) as H1.
    pose proof (argument_size NERI_IR_TYPE_VOID_V1 None l2 0 t2 Ht2) as H2. cbn [type_size] in H1, H2. lia.
Qed.

Lemma coded_injective t1 t2 c : coded t1 c → coded t2 c → type_signature t1 = type_signature t2.
Proof.
  intros H1 H2. destruct (coded_cancel t1 t2 c c "" "" H1 H2) as [[Hs _]|[(_ & u & c' & _ & _ & Hk)|(_ & u & c' & _ & _ & Hk)]]; done.
Qed.

(** The result of a function is not a record type: no code continues with a letter [q]. *)
Lemma ends_r t c : coded t c → ends_codes ("r" +:+ c).
Proof.
  intros Hc t' c' rest Hc' He. apply code_first in Hc as (x & r & -> & _ & Hx & _).
  destruct Hc'; try pair_cases H; simpl in He; try discriminate He.
  rewrite qualified_name_eq in He. simpl in He. by injection He.
Qed.

(** ** Types the verifier declares have a code *)

Definition named_type (t : type) : bool :=
  tag_eqb (ty_tag t) NERI_IR_TYPE_CLASS_V1 || tag_eqb (ty_tag t) NERI_IR_TYPE_NATIVE_RECORD_V1.

Definition around_type (t : type) : bool :=
  match ty_tag t with
  | NERI_IR_TYPE_ARRAY_V1 | NERI_IR_TYPE_OPTIONAL_V1 | NERI_IR_TYPE_POINTER_V1
  | NERI_IR_TYPE_BORROW_CAPABILITY_V1 | NERI_IR_TYPE_FIXED_ARRAY_V1 => true
  | _ => false
  end.

Lemma pointer_element_shape t :
  is_pointer_element t = true →
  (named_type t = true → has_value (ty_symbol t) = true) ∧ (around_type t = true → ty_arguments t ≠ []).
Proof.
  destruct t as [tag [symbol|] [|a l] count]; destruct tag; simpl; intros H; split; intros; done.
Qed.

Lemma supported_shape t :
  is_supported_value t = true →
  (named_type t = true → has_value (ty_symbol t) = true) ∧ (around_type t = true → ty_arguments t ≠ []).
Proof.
  intros H. destruct t as [tag [symbol|] [|a l] count]; destruct tag; try (by split); simpl in H;
    try discriminate H; by split.
Qed.

Lemma shaped_code t :
  (named_type t = true → has_value (ty_symbol t) = true) → (around_type t = true → ty_arguments t ≠ []) →
  Forall (λ a, ∃ c, type_code a = Ok c) (ty_arguments t) → ∃ c, type_code t = Ok c.
Proof.
  destruct t as [tag symbol arguments count]. cbn [ty_symbol ty_arguments]. intros Hs Ha Hargs.
  assert (∃ codes, type_codes arguments = Ok codes) as [codes Hcodes].
  { clear -Hargs. induction Hargs as [|a l [c Hc] _ [codes Hl]]; cbn [type_codes]; [by eexists|].
    rewrite Hc, Hl. by eexists. }
  destruct tag; try (by eexists);
    first [destruct symbol as [symbol|]; [by eexists|by specialize (Hs eq_refl)]
          |destruct arguments as [|a l]; [by destruct (Ha eq_refl)|];
           apply Forall_cons in Hargs as [[c Hc] _]; cbn [type_code]; rewrite Hc; by eexists
          |idtac].
  cbn [type_code].
  change ((fix argument_codes (arguments : list type) : result string := match arguments with
             | [] => Ok ""
             | argument :: arguments => code ← type_code argument; codes ← argument_codes arguments;
                                        Ok (code +:+ "_" +:+ codes) end) arguments)
    with (type_codes arguments). rewrite Hcodes. by eexists.
Qed.

Lemma void_code t : is_void t = true → ∃ c, type_code t = Ok c.
Proof. intros H. unfold is_void in H. destruct t as [[] ? ? ?]; try discriminate H. by eexists. Qed.

Lemma declared_code index t d :
  require_declared_type (C:=module_verification_index) index t d = Ok tt → ∃ c, type_code t = Ok c.
Proof.
  induction t as [tag symbol arguments count IH] using type_nested_ind. intros H.
  apply declared_supported in H as Hs. apply supported_shape in Hs as [Hname Haround].
  apply shaped_code; [done..|]. cbn [ty_arguments]. rewrite require_declared_type_unfold, seq_Ok_iff in H.
  destruct H as [_ H]. apply for_each_Ok in H. cbn [ty_arguments] in H.
  apply Forall_forall. intros a Ha. rewrite Forall_forall in H. rewrite Forall_forall in IH.
  apply list_elem_of_lookup in Ha as Hk. destruct Hk as [k Hk].
  specialize (H (k, a)). cbv beta iota in H. destruct (exempt_argument _ k a) eqn:He.
  - unfold exempt_argument in He. apply andb_true_iff in He as [_ Hv]. by apply void_code.
  - apply (IH a Ha). apply H. apply elem_of_lookup_imap. by exists k, a.
Qed.

(** How link names begin. *)
Lemma mangle_function_prefix f name : mangle_function f = Ok name → ∃ rest, name = "hk1_" +:+ "f_" +:+ rest.
Proof.
  unfold mangle_function. intros Hf. apply bind_Ok_inv in Hf as (cs & _ & Hf).
  apply bind_Ok_inv in Hf as (c & _ & Hf). injection Hf as <-. by eexists.
Qed.

Lemma mangle_global_prefix a name : mangle_global a = Ok name → ∃ rest, name = "hk1_" +:+ "g_" +:+ rest.
Proof. unfold mangle_global. intros Ha. apply bind_Ok_inv in Ha as (c & _ & Ha). injection Ha as <-. by eexists. Qed.

Lemma mangle_apart f a name : mangle_function f = Ok name → mangle_global a ≠ Ok name.
Proof. by intros [? ->]%mangle_function_prefix [? ?]%mangle_global_prefix. Qed.

Section module.
Variable legal : list byte → bool.
Variable module : ir_module.
Hypothesis supported : verify_supported_module legal module = Ok tt.

Lemma verified_signature f : f ∈ mod_functions module → verify_signature (module_index module) f = Ok tt.
Proof.
  intros Hf. pose proof (verified_function legal module supported f Hf) as Hv. unfold verify_function in Hv.
  rewrite !seq_Ok_iff in Hv. by destruct Hv as (_ & _ & Hv & _).
Qed.

Lemma function_home f : f ∈ mod_functions module → sym_module (fn_id f) = mod_id module.
Proof.
  intros Hf%verified_signature. unfold verify_signature in Hf. rewrite !seq_Ok_iff in Hf.
  destruct Hf as [Hf _]. apply when_Ok, orb_false_iff in Hf as [Hf _].
  by apply negb_false_iff, String.eqb_eq in Hf.
Qed.

Lemma mangle_function_returns f : f ∈ mod_functions module → ∃ name, mangle_function f = Ok name.
Proof.
  intros Hf%verified_signature. unfold verify_signature in Hf. rewrite !seq_Ok_iff in Hf.
  destruct Hf as (_ & _ & _ & _ & _ & _ & Hps & _ & Hr).
  assert (∃ codes, type_codes (fn_parameter_types f) = Ok codes) as [codes Hcodes].
  { apply for_each_Ok in Hps. induction Hps as [|t l Ht _ [codes Hl]]; cbn [type_codes]; [by eexists|].
    apply declared_code in Ht as [c Hc]. rewrite Hc, Hl. by eexists. }
  assert (∃ c, type_code (fn_result_type f) = Ok c) as [c Hc].
  { destruct (is_void (fn_result_type f)) eqn:Hv; [by apply void_code|by eapply declared_code]. }
  unfold mangle_function. rewrite Hcodes, Hc. by eexists.
Qed.

(** Exports may not begin like a link name. *)
Lemma reserved_not_exported g name rest :
  g ∈ mod_functions module → name = "hk1_" +:+ rest → fn_export_name g ≠ name.
Proof.
  intros Hg -> He. pose proof (verified_function legal module supported g Hg) as Hv. unfold verify_function in Hv.
  rewrite !seq_Ok_iff in Hv. destruct Hv as (_ & Hv & _). unfold verify_export in Hv. rewrite He in Hv. cbn in Hv.
  rewrite seq_Ok_iff in Hv. destruct Hv as [_ Hv]. apply when_Ok in Hv.
  rewrite !orb_false_iff in Hv. destruct Hv as [[[Hv _] _] _]. unfold reserved_export in Hv.
  rewrite !orb_false_iff in Hv. destruct Hv as [[_ Hv] _]. cbn in Hv. by destruct rest.
Qed.

Lemma export_not_mangled g f name :
  g ∈ mod_functions module → mangle_function f = Ok name → fn_export_name g ≠ name.
Proof.
  intros Hg Hf. apply mangle_function_prefix in Hf as [rest ->]. by eapply reserved_not_exported.
Qed.

Lemma export_not_global g a name :
  g ∈ mod_functions module → mangle_global a = Ok name → fn_export_name g ≠ name.
Proof.
  intros Hg Ha. apply mangle_global_prefix in Ha as [rest ->]. by eapply reserved_not_exported.
Qed.
End module.

(** Elements with distinct keys are determined by their key. *)
Lemma NoDup_map_eq {A B} (key : A → B) (l : list A) a b :
  NoDup (map key l) → a ∈ l → b ∈ l → key a = key b → a = b.
Proof.
  intros Hnd [i Hi]%list_elem_of_lookup [j Hj]%list_elem_of_lookup Hk.
  assert (i = j) as ->; [|congruence].
  apply (NoDup_lookup (map key l) i j (key a)); [done|by rewrite list_lookup_fmap, Hi|by rewrite list_lookup_fmap, Hj, Hk].
Qed.

Lemma mangle_function_inj f g name :
  mangle_function f = Ok name → mangle_function g = Ok name →
  sym_semantic_name (fn_id f) = sym_semantic_name (fn_id g) ∧
  map type_signature (fn_parameter_types f) = map type_signature (fn_parameter_types g) ∧
  type_signature (fn_result_type f) = type_signature (fn_result_type g).
Proof.
  unfold mangle_function. intros Hf Hg.
  apply bind_Ok_inv in Hf as (cs1 & Hcs1 & Hf). apply bind_Ok_inv in Hf as (c1 & Hc1 & Hf). injection Hf as <-.
  apply bind_Ok_inv in Hg as (cs2 & Hcs2 & Hg). apply bind_Ok_inv in Hg as (c2 & Hc2 & Hg). injection Hg as Hg.
  assert (∀ l cs, type_codes l = Ok cs → coded_list l cs) as Hl.
  { intros l cs. apply type_codes_coded, Forall_true. intros t. apply type_code_coded. }
  apply type_code_coded in Hc1, Hc2. apply Hl in Hcs1, Hcs2. symmetry in Hg.
  apply qualified_cancel in Hg as [Hs Hg]. split; [done|]. simpl in Hg. injection Hg as Hg.
  apply number_cancel in Hg as [_ Hg]; [|done..]. simpl in Hg. injection Hg as Hg.
  apply codes_cancel with (l1 := fn_parameter_types f) (l2 := fn_parameter_types g) in Hg as [Hp Hg];
    [|done|done|by eapply ends_r..].
  split; [done|]. injection Hg as ->. by eapply coded_injective.
Qed.

Lemma mangle_global_inj a b name :
  mangle_global a = Ok name → mangle_global b = Ok name →
  sym_semantic_name (glb_id a) = sym_semantic_name (glb_id b) ∧
  type_signature (glb_value_type a) = type_signature (glb_value_type b).
Proof.
  unfold mangle_global. intros Ha Hb.
  apply bind_Ok_inv in Ha as (c1 & Hc1 & Ha). injection Ha as <-.
  apply bind_Ok_inv in Hb as (c2 & Hc2 & Hb). injection Hb as Hb. symmetry in Hb.
  apply type_code_coded in Hc1, Hc2. apply qualified_cancel in Hb as [Hs Hb]. split; [done|].
  simpl in Hb. injection Hb as ->. by eapply coded_injective.
Qed.

(** The last part, which debug information shows, is what follows the last separator. *)
Lemma unqualified_parts parts part value :
  List.last (append_qualified_parts parts part value) "" =
  match String.index 0 "." value with Some _ => unqualified_name value | None => part +:+ value end.
Proof.
  revert parts part. induction value as [|c value IH]; intros parts part.
  - cbn. by rewrite last_last, append_nil_r.
  - cbn [append_qualified_parts]. unfold is_separator.
    assert (String.index 0 "." (String c value) =
      if Ascii.eqb c "."%char then Some 0%nat else S <$> String.index 0 "." value) as Hi.
    { cbn -[ascii_dec]. destruct (Ascii.eqb_spec c "."%char) as [->|Hne]; [by destruct (ascii_dec "."%char "."%char), value|].
      destruct (ascii_dec "."%char c) as [<-|_]; [done|]. by destruct (String.index 0 "." value). }
    rewrite Hi. cbn [unqualified_name]. unfold is_separator. destruct (Ascii.eqb c "."%char) eqn:Hc.
    + rewrite IH. by destruct (String.index 0 "." value).
    + rewrite IH, append_assoc. by destruct (String.index 0 "." value).
Qed.

(** ** Properties *)

(** A link name tells what it names: two functions of any modules with the same link name have
    the same qualified name and parameter and result types that differ at most in the module
    and the kind of the symbols they name, so overloads never share a name; the same holds
    for globals, and no function shares its name with a global. *)
Theorem link_name_exact name :
  (∀ f g, mangle_function f = Ok name → mangle_function g = Ok name →
     sym_semantic_name (fn_id f) = sym_semantic_name (fn_id g) ∧
     map type_signature (fn_parameter_types f) = map type_signature (fn_parameter_types g) ∧
     type_signature (fn_result_type f) = type_signature (fn_result_type g)) ∧
  (∀ a b, mangle_global a = Ok name → mangle_global b = Ok name →
     sym_semantic_name (glb_id a) = sym_semantic_name (glb_id b) ∧
     type_signature (glb_value_type a) = type_signature (glb_value_type b)) ∧
  ∀ f a, mangle_function f = Ok name → mangle_global a ≠ Ok name.
Proof.
  split_and!; [intros; by eapply mangle_function_inj|intros; by eapply mangle_global_inj|].
  intros f a. apply mangle_apart.
Qed.

(** C17: In an accepted module every function and every global has a link name.  No other
    function of the same symbol kind and no global has the link name of a function, no other
    global and no function has the link name of a global, and no function is exported under
    either. *)
Theorem link_names_unique legal module :
  verify_supported_module legal module = Ok tt →
  (∀ f, f ∈ mod_functions module → ∃ name, mangle_function f = Ok name ∧
     (∀ g, g ∈ mod_functions module →
        (mangle_function g = Ok name → sym_kind (fn_id g) = sym_kind (fn_id f) → g = f) ∧
        fn_export_name g ≠ name) ∧
     ∀ a, a ∈ mod_globals module → mangle_global a ≠ Ok name) ∧
  ∀ a, a ∈ mod_globals module → ∃ name, mangle_global a = Ok name ∧
    (∀ b, b ∈ mod_globals module → mangle_global b = Ok name → b = a) ∧
    ∀ g, g ∈ mod_functions module → mangle_function g ≠ Ok name ∧ fn_export_name g ≠ name.
Proof.
  intros Hm. pose proof (proj2 (verify_supported_module_ok legal module) tt Hm) as Hok.
  pose proof (sup_symbols _ _ Hok) as Hnd. unfold declared_symbols in Hnd.
  apply NoDup_app in Hnd as (_ & _ & Hnd). apply NoDup_app in Hnd as (Hglobals & _ & Hnd).
  apply NoDup_app in Hnd as (_ & _ & Hfunctions). split.
  - intros f Hf. destruct (mangle_function_returns legal module Hm f Hf) as [name Hname].
    exists name. split; [done|]. split; [|intros a _; by eapply mangle_apart].
    intros g Hg. split; [|by apply (export_not_mangled legal module Hm g f)].
    intros Hname' Hkind. destruct (mangle_function_inj g f name Hname' Hname) as (Hs & _).
    apply (NoDup_map_eq fn_id (mod_functions module)); [done..|].
    pose proof (function_home legal module Hm f Hf). pose proof (function_home legal module Hm g Hg).
    destruct (fn_id f), (fn_id g). simpl in *. congruence.
  - intros a Ha. pose proof (sup_globals _ _ Hok) as Hall. rewrite Forall_forall in Hall.
    destruct (declared_code _ _ _ (global_type _ _ _ (Hall a Ha))) as [c Hc].
    assert (∃ name, mangle_global a = Ok name) as [name Hname] by (unfold mangle_global; rewrite Hc; by eexists).
    exists name. split; [done|]. split.
    + intros b Hb Hname'. destruct (mangle_global_inj b a name Hname' Hname) as (Hs & _).
      apply (NoDup_map_eq glb_id (mod_globals module)); [done..|].
      pose proof (Hall a Ha) as [Hm1 Hk1 _ _ _]. pose proof (Hall b Hb) as [Hm2 Hk2 _ _ _].
      destruct (glb_id a), (glb_id b). simpl in *. congruence.
    + intros g Hg. split; [|by apply (export_not_global legal module Hm g a)].
      intros Hg'. by eapply mangle_apart.
Qed.

Lemma link_names_unique_witness :
  ∃ name, mangle_function Sample.add_function = Ok name ∧ name = "hk1_f_q1_n3_616464__p2_i64_i64_ri64".
Proof.
  destruct (proj1 (link_names_unique (λ _, true) Sample.app ltac:(vm_compute; reflexivity)) Sample.add_function)
    as (name & Hname & _); [vm_compute; find_pair|].
  exists name. split; [exact Hname|]. vm_compute in Hname. injection Hname as <-. reflexivity.
Defined.

Lemma link_name_exact_witness :
  mangle_global Sample.greeting ≠ Ok "hk1_f_q1_n3_616464__p2_i64_i64_ri64".
Proof.
  apply (proj2 (proj2 (link_name_exact "hk1_f_q1_n3_616464__p2_i64_i64_ri64")) Sample.add_function).
  vm_compute. reflexivity.
Defined.
