(* ===== verification/ClassLayout.v ===== *)
(** * Class layouts ([native/codegen/llvm_lowering.cpp], [module_lowerer])

    The physical type of every value, where the fields of an object lie, and which entry
    of its method table a virtual call goes through.  Layouts are built on demand, bases
    first, and memoised; what LLVM's data layout says of a type is a parameter. *)

From S2P Require Import Prelude Domains IR Samples Reader Types Layout Index Instructions.
From S2P Require Import Functions Roots.

Local Open Scope string_scope.
Local Open Scope list_scope.
Local Open Scope N_scope.

(** ** Physical types *)

(** The constructors of [llvm::Type] the lowering uses for stored values. *)
Inductive llvm_type :=
| IntegerType (bits : N)
| FloatType
| DoubleType
| PointerType
| ArrayType (element : llvm_type) (count : N)
| StructType (elements : list llvm_type).

(** [getTypeAllocSize] and [getABITypeAlign] of [llvm::DataLayout]. *)
Class DataLayout := {
  type_alloc_size : llvm_type → N;
  abi_type_align : llvm_type → N;
}.

(** [static_cast<unsigned>]. *)
Definition to_unsigned (n : N) : N := n mod 2 ^ 32.

(** [is_managed_reference], [is_nullable_pointer] and the tests built from them. *)
Definition nullable_pointer (value : type) : bool :=
  tag_eqb (ty_tag value) NERI_IR_TYPE_OPTIONAL_V1 &&
  match ty_arguments value with
  | [argument] => tag_eqb (ty_tag argument) NERI_IR_TYPE_POINTER_V1 ||
                  tag_eqb (ty_tag argument) NERI_IR_TYPE_C_FUNCTION_V1
  | _ => false
  end.

Definition uses_null_representation (value : type) : result bool :=
  managed ← managed_reference value; Ok (managed || nullable_pointer value).

Definition is_indirect_optional (value : type) : result bool :=
  if tag_eqb (ty_tag value) NERI_IR_TYPE_OPTIONAL_V1
  then null ← uses_null_representation value; Ok (negb null) else Ok false.

Definition record_unit (layout : native_layout) : result llvm_type :=
  if lay_alignment layout =? 0 then Throw (undefined "division by zero")
  else Ok (ArrayType (IntegerType (to_unsigned (u64_mul (lay_alignment layout) 8)))
             (lay_size layout / lay_alignment layout)).

Definition optional_payload (argument : type) (payload : llvm_type) : llvm_type :=
  let tag := IntegerType 8 in
  if tag_eqb (ty_tag argument) NERI_IR_TYPE_BOOL_V1 || tag_eqb (ty_tag argument) NERI_IR_TYPE_BYTE_V1
  then StructType [tag; payload]
  else
    let padding :=
      if extended_scalar (ty_tag argument) && (scalar_width (ty_tag argument) =? 32)
      then ArrayType tag 3 else ArrayType tag 7 in
    StructType [tag; padding; payload].

Section types.
(** [input_]. *)
Variable module : ir_module.

(** [semantic_type], and [physical_scalar_type] of its arguments. *)
Fixpoint semantic_type (value : type) : result llvm_type :=
  match value with
  | mk_type tag symbol arguments element_count =>
      let scalar := scalar_properties tag in
      let physical_front :=
        match arguments with
        | argument :: _ =>
            if tag_eqb (ty_tag argument) NERI_IR_TYPE_BOOL_V1 then Ok (IntegerType 8)
            else semantic_type argument
        | [] => Throw (undefined "front() of an empty vector")
        end in
      if negb (semantic_bits scalar =? 0) then
        Ok (if negb (floating scalar) then IntegerType (semantic_bits scalar)
            else if semantic_bits scalar =? 32 then FloatType else DoubleType)
      else
        match tag with
        | NERI_IR_TYPE_NATIVE_RECORD_V1 => layout ← fresh_layout module value; record_unit layout
        | NERI_IR_TYPE_FIXED_ARRAY_V1 =>
            element ← physical_front; Ok (ArrayType element element_count)
        | NERI_IR_TYPE_STRING_V1 | NERI_IR_TYPE_ARRAY_V1 | NERI_IR_TYPE_CLASS_V1
        | NERI_IR_TYPE_POINTER_V1 | NERI_IR_TYPE_C_FUNCTION_V1
        | NERI_IR_TYPE_UNSAFE_CAPABILITY_V1 | NERI_IR_TYPE_BORROW_CAPABILITY_V1 => Ok PointerType
        | NERI_IR_TYPE_OPTIONAL_V1 =>
            null ← uses_null_representation value;
            if (null : bool) then Ok PointerType
            else payload ← physical_front; argument ← front arguments; Ok (optional_payload argument payload)
        | _ => Throw (lowering_error "Verified semantic type has no LLVM mapping.")
        end
  end.

Definition physical_scalar_type (value : type) : result llvm_type :=
  if tag_eqb (ty_tag value) NERI_IR_TYPE_BOOL_V1 then Ok (IntegerType 8) else semantic_type value.

(** Nothing for [void] and for an optional the caller makes room for. *)
Definition physical_result_type (value : type) : result (option llvm_type) :=
  if tag_eqb (ty_tag value) NERI_IR_TYPE_VOID_V1 then Ok None
  else
    indirect ← is_indirect_optional value;
    if (indirect : bool) then Ok None else t ← physical_scalar_type value; Ok (Some t).

(** The result and the arguments of [llvm::FunctionType::get]. *)
Definition physical_function_type (parameters : list type) (value : type)
    : result (option llvm_type * list llvm_type) :=
  indirect ← is_indirect_optional value;
  arguments ← for_state parameters (if (indirect : bool) then [PointerType] else []) (λ parameter arguments,
    indirect ← is_indirect_optional parameter;
    t ← (if (indirect : bool) then Ok PointerType else physical_scalar_type parameter);
    Ok (arguments ++ [t]));
  result_type ← physical_result_type value;
  Ok (result_type, arguments).
End types.

(** ** Sizes *)

Section layouts.
Context `{DataLayout}.
Variable index : module_verification_index.

Definition storage_size (value : type) : result N :=
  t ← physical_scalar_type (idx_module index) value; Ok (type_alloc_size t).

Definition storage_alignment (value : type) : result N :=
  t ← physical_scalar_type (idx_module index) value; Ok (abi_type_align t).

Definition sizeof_object_header : N := 16.

Definition array_payload_alignment (element : type) : result N :=
  alignment ← storage_alignment element; Ok (N.max 8 alignment).

Definition array_payload_element_offset (element : type) : result N :=
  alignment ← storage_alignment element;
  Ok (N.land (u64_sub (u64_add 8 alignment) 1) (u64_not (u64_sub alignment 1))).

Definition array_elements_offset (element : type) : result N :=
  offset ← array_payload_element_offset element; Ok (u64_add sizeof_object_header offset).

Definition array_payload_size (element : type) (count : N) : result N :=
  prefix ← array_payload_element_offset element;
  size ← storage_size element;
  if negb (size =? 0) && ((u64_max - prefix) / size <? count)
  then Throw (lowering_error "Array allocation size exceeds the ABI range.")
  else Ok (u64_add prefix (u64_mul count size)).

(** ** Classes *)

Record lowered_field := mk_lowered_field { lf_value : field; lf_offset : N }.

Record lowered_class := mk_lowered_class {
  lc_value : class_declaration;
  lc_content_size : N;
  lc_payload_size : N;
  lc_payload_alignment : N;
  lc_fields : list lowered_field;
  lc_virtual_methods : list function;
  lc_dispatch_slots : gmap symbol_id N;
}.

(** [class_layouts_], [field_layouts_] and [dispatch_slot_indices_]. *)
Record lowered_classes := mk_lowered_classes {
  class_layouts_ : gmap symbol_id lowered_class;
  field_layouts_ : gmap symbol_id lowered_field;
  dispatch_slot_indices_ : gmap symbol_id N;
}.

Definition no_classes : lowered_classes := mk_lowered_classes ∅ ∅ ∅.

Definition lowering_class (id : symbol_id) : result class_declaration :=
  match find_class index id with
  | Some declaration => Ok declaration
  | None => Throw (lowering_error "Verified class declaration disappeared.")
  end.

Definition lowering_function (id : symbol_id) : result function :=
  match find_function index id with
  | Some target => Ok target
  | None => Throw (lowering_error "Verified direct-call target disappeared.")
  end.

(** [lowered_class result; result.value = &declaration;], and what a base gives. *)
Definition inherit (declaration : class_declaration) (base : option lowered_class) : lowered_class :=
  match base with
  | None => mk_lowered_class declaration 0 0 1 [] [] ∅
  | Some base =>
      mk_lowered_class declaration (lc_content_size base) 0 (lc_payload_alignment base) (lc_fields base)
        (lc_virtual_methods base) (lc_dispatch_slots base)
  end.

Definition place_field (item : field) (c : lowered_class) : result lowered_class :=
  alignment ← storage_alignment (fld_value_type item);
  let content_size := align_up (lc_content_size c) alignment in
  size ← storage_size (fld_value_type item);
  Ok (mk_lowered_class (lc_value c) (u64_add content_size size) (lc_payload_size c)
        (N.max (lc_payload_alignment c) alignment)
        (lc_fields c ++ [mk_lowered_field item (u64_add sizeof_object_header content_size)])
        (lc_virtual_methods c) (lc_dispatch_slots c)).

Definition finish_payload (c : lowered_class) : lowered_class :=
  mk_lowered_class (lc_value c) (lc_content_size c) (align_up (lc_content_size c) (lc_payload_alignment c))
    (lc_payload_alignment c) (lc_fields c) (lc_virtual_methods c) (lc_dispatch_slots c).

Definition set_methods (methods : list function) (slots : gmap symbol_id N) (c : lowered_class) : lowered_class :=
  mk_lowered_class (lc_value c) (lc_content_size c) (lc_payload_size c) (lc_payload_alignment c) (lc_fields c)
    methods slots.

Definition place_method (item : method) (c : lowered_class) : result lowered_class :=
  if negb (tag_eqb (mth_dispatch item) NERI_IR_DISPATCH_VIRTUAL_V1) then Ok c
  else
    slot ← deref (mth_dispatch_slot item);
    implementation ← lowering_function (mth_function_id item);
    match lc_dispatch_slots c !! slot with
    | Some found =>
        if found <? length_N (lc_virtual_methods c)
        then Ok (set_methods (<[N.to_nat found := implementation]> (lc_virtual_methods c)) (lc_dispatch_slots c) c)
        else Throw (undefined "index out of range")
    | None =>
        Ok (set_methods (lc_virtual_methods c ++ [implementation])
              (<[slot := length_N (lc_virtual_methods c)]> (lc_dispatch_slots c)) c)
    end.

Definition register_field (item : lowered_field) (fields : gmap symbol_id lowered_field)
    : gmap symbol_id lowered_field := <[fld_id (lf_value item) := item]> fields.

Definition register_slot (entry : symbol_id * N) (indices : gmap symbol_id N) : result (gmap symbol_id N) :=
  match indices !! entry.1 with
  | Some existing =>
      if existing =? entry.2 then Ok (<[entry.1 := entry.2]> indices)
      else Throw (lowering_error "Virtual dispatch slot changed ABI index.")
  | None => Ok (<[entry.1 := entry.2]> indices)
  end.

(** The layout enters the maps ([emplace] keeps an entry that is there). *)
Definition register_class (key : symbol_id) (c : lowered_class) (st : lowered_classes)
    : result (lowered_class * lowered_classes) :=
  let layouts := try_emplace key c (class_layouts_ st) in
  let inserted := default c (layouts !! key) in
  let fields := fold_left (λ fields item, register_field item fields) (lc_fields inserted) (field_layouts_ st) in
  indices ← for_state (map_to_list (lc_dispatch_slots inserted)) (dispatch_slot_indices_ st) register_slot;
  Ok (inserted, mk_lowered_classes layouts fields indices).

Definition extend_layout (declaration : class_declaration) (base : option lowered_class) : result lowered_class :=
  c ← for_state (cls_fields declaration) (inherit declaration base) place_field;
  for_state (cls_methods declaration) (finish_payload c) place_method.

(** One step of fuel per class of the chain of bases. *)
Fixpoint build_class_layout (fuel : nat) (declaration : class_declaration) (st : lowered_classes)
    : result (lowered_class * lowered_classes) :=
  match fuel with
  | O => Throw (undefined "endless recursion")
  | S fuel =>
      match class_layouts_ st !! cls_id declaration with
      | Some found => Ok (found, st)
      | None =>
          '(base, st) ← match cls_base declaration with
                        | None => Ok (None, st)
                        | Some base =>
                            base ← lowering_class base;
                            '(layout, st) ← build_class_layout fuel base st;
                            Ok (Some layout, st)
                        end;
          c ← extend_layout declaration base;
          register_class (cls_id declaration) c st
      end
  end.

Definition layout_fuel : nat := S (length (mod_classes (idx_module index))).

Definition build_class_layouts : result lowered_classes :=
  for_state (mod_classes (idx_module index)) no_classes (λ declaration st,
    '(_, st) ← build_class_layout layout_fuel declaration st; Ok st).

(** ** Lookups *)

(** [map::at]. *)
Definition at_symbol {V} (map : gmap symbol_id V) (id : symbol_id) : result V :=
  match map !! id with Some value => Ok value | None => Throw (out_of_range "map::at") end.

Definition layout_for_class (st : lowered_classes) (id : symbol_id) : result lowered_class :=
  at_symbol (class_layouts_ st) id.

Definition field_layout (st : lowered_classes) (id : symbol_id) : result lowered_field :=
  at_symbol (field_layouts_ st) id.

Definition field_offset (st : lowered_classes) (id : symbol_id) : result N :=
  item ← field_layout st id; Ok (lf_offset item).

Definition dispatch_slot_index (st : lowered_classes) (id : symbol_id) : result N :=
  at_symbol (dispatch_slot_indices_ st) id.
End layouts.
