(* ===== verification/ClassSafety.v ===== *)
(** * Class layouts are what they should be

    The layout of a class is computed from its line of ancestors alone: the fields of the
    ancestors in order, each at the next aligned offset, and one method table entry for
    every slot in the order of introduction.  The proofs relate [build_class_layout] to
    that description; ClassSpec.v draws the conclusions.

    The class layouts of a module

    The invariant of the memo maps of the lowering while [build_class_layouts] runs: each
    layout is that of its class, fields and slots are registered as the layouts have them. *)

From S2P Require Import Prelude Domains IR Samples Reader Types Layout Index Instructions.
From S2P Require Import Functions Roots RootSpec Modules ModuleSafety Regions ManglingSpec.
From S2P Require Import ClassLayout.

Local Open Scope string_scope.
Local Open Scope list_scope.
Local Open Scope N_scope.

(** ** Declared types have a physical type *)

Section types.
Variable index : module_verification_index.
Notation module := (idx_module index).

Lemma declared_parts t d :
  require_declared_type (C:=module_verification_index) index t d = Ok tt →
  require_declared_head (C:=module_verification_index) index t d = Ok tt ∧
  is_supported_value t = true ∧
  ∀ k a, ty_arguments t !! k = Some a → exempt_argument t k a = false →
    require_declared_type (C:=module_verification_index) index a d = Ok tt.
Proof.
  intros H. pose proof (declared_supported _ _ _ H) as Hs. rewrite require_declared_type_unfold, seq_Ok_iff in H.
  destruct H as [Hh H]. split_and!; [done|done|]. apply for_each_Ok in H. rewrite Forall_forall in H.
  intros k a Ha He. specialize (H (k, a)). cbv beta iota in H. rewrite He in H. apply H.
  apply elem_of_lookup_imap. by exists k, a.
Qed.

Lemma record_unit_returns t d :
  require_declared_head (C:=module_verification_index) index t d = Ok tt →
  ty_tag t = NERI_IR_TYPE_NATIVE_RECORD_V1 → ∃ layout pt, fresh_layout module t = Ok layout ∧ record_unit layout = Ok pt.
Proof.
  intros H Ht. unfold require_declared_head in H. rewrite Ht in H. cbn [tag_eqb] in H.
  rewrite !seq_Ok_iff in H. destruct H as (_ & _ & _ & H & _).
  change (tag_eqb NERI_IR_TYPE_NATIVE_RECORD_V1 NERI_IR_TYPE_NATIVE_RECORD_V1) with true in H.
  rewrite orb_true_l, seq_Ok_iff in H. destruct H as [_ H]. apply bind_Ok_inv in H as (l & Hl & _).
  exists l. change (verification_module index) with module in Hl. unfold fresh_layout in Hl. apply bind_Ok_inv in Hl as ([l' st] & Hl & [= <-]).
  assert (sane_layout l') as (_ & _ & Ha & _).
  { destruct (layout_sane_ok module t no_layouts (memo_ok_empty _ _)) as [_ Hsane]. by apply (Hsane _ Hl). }
  unfold record_unit, fresh_layout. rewrite Hl. cbn. destruct (N.eqb_spec (lay_alignment l') 0); [lia|]. by eexists.
Qed.

(** Only what is behind a pointer, and the result of a C function, may be void. *)
Lemma not_exempt t k a : ty_tag t ≠ NERI_IR_TYPE_POINTER_V1 → ty_tag t ≠ NERI_IR_TYPE_C_FUNCTION_V1 → exempt_argument t k a = false.
Proof. destruct t as [[] ? ? ?]; try done; by unfold exempt_argument, is_pointer, is_c_function. Qed.

Lemma semantic_type_returns t d :
  require_declared_type (C:=module_verification_index) index t d = Ok tt → ∃ pt, semantic_type module t = Ok pt.
Proof.
  induction t as [tag symbol arguments count IH] using type_nested_ind. intros H.
  destruct (declared_parts _ _ H) as (Hhead & Hs & Hargs). cbn [ty_arguments] in Hargs.
  assert (∀ a l, arguments = a :: l → tag ≠ NERI_IR_TYPE_POINTER_V1 → tag ≠ NERI_IR_TYPE_C_FUNCTION_V1 →
    (∃ pt, semantic_type module a = Ok pt)) as Hfront.
  { intros a l -> H1 H2. apply Forall_cons in IH as [IH _]. apply IH, (Hargs 0%nat); [done|]. by apply not_exempt. }
  destruct tag; cbn [semantic_type scalar_properties semantic_bits]; try (exfalso; by destruct symbol, arguments);
    try (by eexists).
  - destruct (supported_optional _ _ _ Hs) as (a & -> & Hopt).
    destruct (managed_reference_returns _ Hs) as [m Hm].
    unfold uses_null_representation. rewrite Hm, !bind_Ok. cbn -[semantic_type]. destruct (_ || _); [by eexists|].
    destruct (Hfront a [] eq_refl) as [pt Hpt]; [done..|].
    destruct (tag_eqb (ty_tag a) NERI_IR_TYPE_BOOL_V1); [by eexists|]. rewrite Hpt. by eexists.
  - destruct (record_unit_returns _ _ Hhead eq_refl) as (l & pt & Hl & Hpt). cbn -[record_unit fresh_layout].
    rewrite Hl, bind_Ok, Hpt. by eexists.
  - destruct arguments as [|a l]; [by destruct symbol|].
    destruct (Hfront a l eq_refl) as [pt Hpt]; [done..|]. cbn -[semantic_type].
    destruct (tag_eqb (ty_tag a) NERI_IR_TYPE_BOOL_V1); [by eexists|]. rewrite Hpt. by eexists.
Qed.

Lemma physical_type_returns t d :
  require_declared_type (C:=module_verification_index) index t d = Ok tt → ∃ pt, physical_scalar_type module t = Ok pt.
Proof.
  intros [pt Hpt]%semantic_type_returns. unfold physical_scalar_type. rewrite Hpt.
  destruct (tag_eqb _ _); by eexists.
Qed.
End types.

(** ** Data layouts *)

(** What LLVM documents of the data layouts of the targets: ABI alignments are powers of two
    up to sixteen, allocation sizes are multiples of them, pointers have eight bytes, and
    scalars and structures that begin with a byte take room. *)
Definition takes_room (t : llvm_type) : bool :=
  match t with
  | IntegerType bits => 0 <? bits
  | StructType (IntegerType bits :: _) => 0 <? bits
  | ArrayType _ _ | StructType _ => false
  | _ => true
  end.

Class LawfulDataLayout `{DataLayout} : Prop := {
  align_power t : ∃ k, k ≤ 4 ∧ abi_type_align t = 2 ^ k;
  size_multiple t : (abi_type_align t | type_alloc_size t);
  pointer_size : type_alloc_size PointerType = 8;
  pointer_align : abi_type_align PointerType = 8;
  size_positive t : takes_room t = true → 0 < type_alloc_size t;
}.

Lemma align_positive `{LawfulDataLayout} t : 0 < abi_type_align t ∧ abi_type_align t ≤ 16.
Proof.
  destruct (align_power t) as (k & Hk & ->). by apply small_power in Hk as [->|[->|[->|[->| ->]]]].
Qed.

Lemma align_up_ok `{LawfulDataLayout} value t :
  value + 16 < 2 ^ 64 → align_up value (abi_type_align t) = align_to value (abi_type_align t).
Proof. intros Hv. destruct (align_power t) as (k & Hk & ->). by apply align_up_wide. Qed.

(** ** The description of a class *)

Section description.
Context `{DataLayout}.
Variable index : module_verification_index.

(** Size and alignment of a field, zero and one for a type without physical type. *)
Definition field_size (item : field) : N := match storage_size index (fld_value_type item) with Ok n => n | _ => 0 end.
Definition field_align (item : field) : N :=
  match storage_alignment index (fld_value_type item) with Ok n => n | _ => 1 end.

Definition next_content (content : N) (item : field) : N := align_to content (field_align item) + field_size item.

Fixpoint place_fields (content : N) (items : list field) : list lowered_field :=
  match items with
  | [] => []
  | item :: items =>
      mk_lowered_field item (sizeof_object_header + align_to content (field_align item)) ::
      place_fields (next_content content item) items
  end.

Definition content_of (items : list field) : N := fold_left next_content items 0.
Definition alignment_of (items : list field) : N := fold_left (λ a item, N.max a (field_align item)) items 1.

(** The slots of a list of methods, in the order of introduction. *)
Definition add_slot (slots : list symbol_id) (item : method) : list symbol_id :=
  match mth_dispatch item, mth_dispatch_slot item with
  | NERI_IR_DISPATCH_VIRTUAL_V1, Some slot => if bool_decide (slot ∈ slots) then slots else slots ++ [slot]
  | _, _ => slots
  end.
Definition slots_of_methods (items : list method) : list symbol_id := fold_left add_slot items [].

(** The last method of the list for a slot. *)
Definition implements (slot : symbol_id) (item : method) : bool :=
  tag_eqb (mth_dispatch item) NERI_IR_DISPATCH_VIRTUAL_V1 && bool_decide (mth_dispatch_slot item = Some slot).
Definition implementation_of (items : list method) (slot : symbol_id) : option symbol_id :=
  mth_function_id <$> find (implements slot) (rev items).

(** The ancestors of a class, the root first, the class last. *)
Inductive lineage : class_declaration → list class_declaration → Prop :=
| lineage_root d : cls_base d = None → lineage d [d]
| lineage_derived d id b l : cls_base d = Some id → find_class index id = Some b → lineage b l → lineage d (l ++ [d]).

Definition all_fields (l : list class_declaration) : list field := concat (map cls_fields l).
Definition all_methods (l : list class_declaration) : list method := concat (map cls_methods l).

Record methods_laid_out (items : list method) (methods : list function) (slots : gmap symbol_id N) : Prop := {
  mlo_slots s i : slots !! s = Some i ↔ slots_of_methods items !! N.to_nat i = Some s;
  mlo_length : length methods = length (slots_of_methods items);
  mlo_methods i s : slots_of_methods items !! i = Some s →
    ∃ id f, implementation_of items s = Some id ∧ find_function index id = Some f ∧ methods !! i = Some f;
}.

Record laid_out (l : list class_declaration) (c : lowered_class) : Prop := {
  lo_content : lc_content_size c = content_of (all_fields l);
  lo_alignment : lc_payload_alignment c = alignment_of (all_fields l);
  lo_size : lc_payload_size c = align_to (content_of (all_fields l)) (alignment_of (all_fields l));
  lo_fields : lc_fields c = place_fields 0 (all_fields l);
  lo_methods : methods_laid_out (all_methods l) (lc_virtual_methods c) (lc_dispatch_slots c);
}.

(** What the fields of the module need at most. *)
Definition extent (items : list field) : N := foldr (λ item n, field_size item + 16 + n) 0 items.
Definition module_extent (module : ir_module) : N := extent (all_fields (mod_classes module)).

Lemma lineage_functional d l l' : lineage d l → lineage d l' → l = l'.
Proof.
  intros Hl. revert l'. induction Hl as [d Hd|d id b l Hd Hb _ IH]; intros l' Hl'; inversion Hl'; subst; try congruence.
  assert (l = l0) as ->; [|done]. apply IH. congruence.
Qed.

Lemma place_fields_app content a b :
  place_fields content (a ++ b) = place_fields content a ++ place_fields (fold_left next_content a content) b.
Proof. revert content. induction a as [|x a IH]; intros content; [done|]. simpl. by rewrite IH. Qed.

Lemma place_fields_values content items : map lf_value (place_fields content items) = items.
Proof. revert content. induction items as [|x items IH]; intros content; [done|]. simpl. by rewrite IH. Qed.

Lemma all_fields_app a b : all_fields (a ++ b) = all_fields a ++ all_fields b.
Proof. unfold all_fields. by rewrite map_app, concat_app. Qed.

Lemma all_methods_app a b : all_methods (a ++ b) = all_methods a ++ all_methods b.
Proof. unfold all_methods. by rewrite map_app, concat_app. Qed.

Lemma all_fields_single d : all_fields [d] = cls_fields d.
Proof. unfold all_fields. simpl. apply app_nil_r. Qed.

Lemma all_methods_single d : all_methods [d] = cls_methods d.
Proof. unfold all_methods. simpl. apply app_nil_r. Qed.

Lemma content_app a b : content_of (a ++ b) = fold_left next_content b (content_of a).
Proof. apply fold_left_app. Qed.

Lemma extent_app a b : extent (a ++ b) = extent a + extent b.
Proof. induction a as [|x a IH]; simpl; [lia|]. rewrite IH. lia. Qed.

(** ** Slots *)

Lemma slots_app a b : slots_of_methods (a ++ b) = fold_left add_slot b (slots_of_methods a).
Proof. apply fold_left_app. Qed.

Lemma add_slot_prefix slots item : slots `prefix_of` add_slot slots item.
Proof. unfold add_slot. repeat case_match; try done. by eexists. Qed.

Lemma slots_prefix items more : slots_of_methods items `prefix_of` slots_of_methods (items ++ more).
Proof.
  rewrite slots_app. generalize (slots_of_methods items). induction more as [|m more IH]; intros slots; [done|].
  simpl. etrans; [apply add_slot_prefix|apply IH].
Qed.

Lemma slots_NoDup items : NoDup (slots_of_methods items).
Proof.
  induction items as [|m items IH] using rev_ind; [constructor|]. rewrite slots_app. simpl. unfold add_slot.
  repeat case_match; try done. apply NoDup_app. split_and!; [done| |apply NoDup_singleton].
  intros x Hx ->%list_elem_of_singleton. by case_bool_decide.
Qed.

Lemma implementation_snoc items m slot :
  implementation_of (items ++ [m]) slot =
  if implements slot m then Some (mth_function_id m) else implementation_of items slot.
Proof. unfold implementation_of. rewrite rev_app_distr. simpl. by destruct (implements slot m). Qed.
End description.

(** ** The computation of one class *)

Section one_class.
Context `{LawfulDataLayout}.
Variable index : module_verification_index.
Notation field_size := (field_size index).
Notation field_align := (field_align index).

Definition storable (item : field) : Prop := ∃ t, physical_scalar_type (idx_module index) (fld_value_type item) = Ok t.

Lemma storable_align item : storable item →
  storage_size index (fld_value_type item) = Ok (field_size item) ∧
  storage_alignment index (fld_value_type item) = Ok (field_align item) ∧
  0 < field_align item ∧ field_align item ≤ 16 ∧ (field_align item | field_size item) ∧
  ∀ v, v + 16 < 2 ^ 64 → align_up v (field_align item) = align_to v (field_align item).
Proof.
  intros [t Ht]. unfold ClassSafety.field_size, ClassSafety.field_align, storage_size, storage_alignment. rewrite Ht. cbn.
  pose proof (align_positive t). split_and!; [done|done|tauto|tauto|apply size_multiple|intros v Hv; by apply align_up_ok].
Qed.

Lemma next_content_bound content item :
  storable item → content ≤ next_content index content item ∧ next_content index content item ≤ content + field_size item + 15.
Proof.
  intros (_ & _ & Hp & Hle & _)%storable_align. unfold next_content. pose proof (align_to_spec content (field_align item) Hp). lia.
Qed.

Lemma place_field_ok item c :
  storable item → lc_content_size c + field_size item + 48 ≤ 2 ^ 64 →
  place_field index item c =
    Ok (mk_lowered_class (lc_value c) (next_content index (lc_content_size c) item) (lc_payload_size c)
          (N.max (lc_payload_alignment c) (field_align item))
          (lc_fields c ++ [mk_lowered_field item (sizeof_object_header + align_to (lc_content_size c) (field_align item))])
          (lc_virtual_methods c) (lc_dispatch_slots c)).
Proof.
  intros Hs Hroom. pose proof (next_content_bound (lc_content_size c) item Hs) as [_ Hn].
  destruct (storable_align item Hs) as (Hsz & Hal & Hp & Hle & _ & Hup). unfold place_field. rewrite Hal, bind_Ok, Hsz, bind_Ok.
  rewrite Hup by lia. unfold next_content in *. unfold u64_add, u64_wrap, sizeof_object_header.
  rewrite !N.mod_small by (revert Hn Hroom; generalize (2 ^ 64); lia). done.
Qed.

Lemma place_fields_ok items c :
  Forall storable items → lc_content_size c + extent index items + 48 ≤ 2 ^ 64 →
  for_state items c (place_field index) =
    Ok (mk_lowered_class (lc_value c) (fold_left (next_content index) items (lc_content_size c)) (lc_payload_size c)
          (fold_left (λ a item, N.max a (field_align item)) items (lc_payload_alignment c))
          (lc_fields c ++ place_fields index (lc_content_size c) items)
          (lc_virtual_methods c) (lc_dispatch_slots c)).
Proof.
  intros Hs. revert c. induction Hs as [|item items Hi _ IH]; intros c Hroom.
  - simpl. rewrite app_nil_r. by destruct c.
  - cbn [for_state]. cbn [extent foldr] in Hroom. fold (extent index items) in Hroom.
    rewrite place_field_ok by (done || lia). rewrite bind_Ok. rewrite IH.
    + cbn -[sizeof_object_header]. by rewrite <-app_assoc.
    + cbn [lc_content_size]. pose proof (next_content_bound (lc_content_size c) item Hi) as [_ Hn]. lia.
Qed.

(** What the verifier checked of a method entry. *)
Definition dispatchable (item : method) : Prop :=
  is_Some (find_function index (mth_function_id item)) ∧
  (mth_dispatch item = NERI_IR_DISPATCH_VIRTUAL_V1 → is_Some (mth_dispatch_slot item)).

Lemma dispatch_cases item :
  dispatchable item →
  (tag_eqb (mth_dispatch item) NERI_IR_DISPATCH_VIRTUAL_V1 = false ∧ (∀ slots, add_slot slots item = slots) ∧
     ∀ s, implements s item = false) ∨
  ∃ s, tag_eqb (mth_dispatch item) NERI_IR_DISPATCH_VIRTUAL_V1 = true ∧ mth_dispatch_slot item = Some s ∧
    (∀ slots, add_slot slots item = if bool_decide (s ∈ slots) then slots else slots ++ [s]) ∧
    ∀ s', implements s' item = bool_decide (s' = s).
Proof.
  intros [_ Hs]. unfold add_slot, implements. destruct (mth_dispatch item); [by left..|]. right.
  destruct (Hs eq_refl) as [s Hslot]. exists s. rewrite Hslot. split_and!; try done.
  intros s'. simpl. apply bool_decide_ext. split; congruence.
Qed.

Lemma place_method_ok items item c :
  methods_laid_out index items (lc_virtual_methods c) (lc_dispatch_slots c) → dispatchable item →
  ∃ methods slots, place_method index item c = Ok (set_methods methods slots c) ∧
    methods_laid_out index (items ++ [item]) methods slots.
Proof.
  intros Hm Hd. pose proof (mlo_length _ _ _ _ Hm) as Hlen. unfold place_method.
  destruct (dispatch_cases item Hd) as [(-> & Hadd & Himp)|(s & -> & Hslot & Hadd & Himp)].
  - exists (lc_virtual_methods c), (lc_dispatch_slots c). simpl. split; [by destruct c|].
    constructor; rewrite ?slots_app; simpl; rewrite ?Hadd; [apply Hm|done|].
    intros i s Hs. rewrite implementation_snoc, Himp. by apply (mlo_methods _ _ _ _ Hm).
  - cbn [negb]. rewrite Hslot. cbn [deref]. rewrite bind_Ok. unfold lowering_function.
    destruct Hd as [[f Hf] _]. rewrite Hf, bind_Ok. set (slots := slots_of_methods items) in *.
    destruct (lc_dispatch_slots c !! s) as [i|] eqn:Hi.
    + pose proof Hi as Hi'. apply (mlo_slots _ _ _ _ Hm) in Hi'. fold slots in Hi'.
      assert (N.to_nat i < length (lc_virtual_methods c))%nat as Hlt by (rewrite Hlen; by eapply lookup_lt_Some).
      rewrite (proj2 (N.ltb_lt _ _)) by (unfold length_N; lia).
      eexists _, _. split; [done|]. assert (add_slot slots item = slots) as Hsame.
      { rewrite Hadd, bool_decide_true; [done|]. by eapply list_elem_of_lookup_2. }
      constructor; rewrite ?slots_app; simpl; fold slots; rewrite ?Hsame.
      * apply (mlo_slots _ _ _ _ Hm).
      * by rewrite length_insert.
      * intros k s' Hk. rewrite implementation_snoc, Himp. case_bool_decide as Heq.
        -- subst s'. exists (mth_function_id item), f. split_and!; [done..|].
           assert (k = N.to_nat i) as -> by (eapply NoDup_lookup; [apply slots_NoDup|exact Hk|exact Hi']).
           by apply list_lookup_insert_eq.
        -- destruct (mlo_methods _ _ _ _ Hm k s' Hk) as (id & g & H1 & H2 & H3). exists id, g. split_and!; [done..|].
           rewrite list_lookup_insert_ne; [done|]. intros <-. congruence.
    + assert (s ∉ slots) as Hnew.
      { intros [k Hk]%list_elem_of_lookup. assert (lc_dispatch_slots c !! s = Some (N.of_nat k)) as Hs; [|congruence].
        apply (mlo_slots _ _ _ _ Hm). by rewrite Nat2N.id. }
      eexists _, _. split; [done|]. assert (add_slot slots item = slots ++ [s]) as Hsame by by rewrite Hadd, bool_decide_false.
      constructor; rewrite ?slots_app; simpl; fold slots; rewrite ?Hsame.
      * intros s' i. rewrite lookup_insert_Some. rewrite (mlo_slots _ _ _ _ Hm). fold slots. unfold length_N. split.
        -- intros [[<- <-]|[Hne Hk]]; [|by apply lookup_app_l_Some]. rewrite Nat2N.id, Hlen. by apply list_lookup_middle.
        -- intros [Hk|[Hge Hk]]%lookup_app_Some.
           ++ right. split; [|done]. intros <-. apply Hnew. by eapply list_elem_of_lookup_2.
           ++ left. apply list_lookup_singleton_Some in Hk as [Hk ->]. split; [done|]. rewrite Hlen. lia.
      * rewrite !length_app. simpl. by rewrite Hlen.
      * intros k s' [Hk|[Hge Hk]]%lookup_app_Some; rewrite implementation_snoc, Himp.
        -- rewrite bool_decide_false by (intros ->; apply Hnew; by eapply list_elem_of_lookup_2).
           destruct (mlo_methods _ _ _ _ Hm k s' Hk) as (id & g & H1 & H2 & H3). exists id, g. split_and!; [done..|].
           by apply lookup_app_l_Some.
        -- apply list_lookup_singleton_Some in Hk as [Hk ->]. rewrite bool_decide_true by done.
           exists (mth_function_id item), f. split_and!; [done..|]. fold slots in Hlen. apply list_lookup_middle. lia.
Qed.

Lemma place_methods_ok more items c :
  methods_laid_out index items (lc_virtual_methods c) (lc_dispatch_slots c) → Forall dispatchable more →
  ∃ methods slots, for_state more c (place_method index) = Ok (set_methods methods slots c) ∧
    methods_laid_out index (items ++ more) methods slots.
Proof.
  intros Hm Hd. revert items c Hm. induction Hd as [|item more Hi _ IH]; intros items c Hm.
  - eexists _, _. rewrite app_nil_r. split; [|exact Hm]. by destruct c.
  - cbn [for_state]. destruct (place_method_ok items item c Hm Hi) as (methods & slots & -> & Hm').
    rewrite bind_Ok. destruct (IH (items ++ [item]) (set_methods methods slots c)) as (ms & ss & Hrun & Hok); [done|].
    exists ms, ss. split; [exact Hrun|]. by rewrite <-app_assoc in Hok.
Qed.

Lemma content_bound items content :
  Forall storable items → fold_left (next_content index) items content ≤ content + extent index items.
Proof.
  intros Hs. revert content. induction Hs as [|x items Hx _ IH]; intros content; simpl in *; [lia|].
  pose proof (next_content_bound content x Hx) as [_ Hn]. specialize (IH (next_content index content x)). lia.
Qed.

Lemma alignment_power items a k :
  Forall storable items → a = 2 ^ k → k ≤ 4 →
  ∃ k', k' ≤ 4 ∧ fold_left (λ a item, N.max a (field_align item)) items a = 2 ^ k'.
Proof.
  intros Hs. revert a k. induction Hs as [|x items Hx _ IH]; intros a k -> Hk; simpl; [by exists k|].
  destruct Hx as [t Ht]. destruct (align_power t) as (k2 & Hk2 & Ha).
  assert (field_align x = 2 ^ k2) as ->. { unfold ClassSafety.field_align, storage_alignment. by rewrite Ht. }
  destruct (N.le_ge_cases (2 ^ k) (2 ^ k2)) as [Hm|Hm]; [rewrite N.max_r by done|rewrite N.max_l by done]; by eapply IH.
Qed.

(** What a class has before its own fields are placed. *)
Lemma inherit_ok d base l :
  match base with Some b => laid_out index l b | None => l = [] end →
  inherit d base = mk_lowered_class d (content_of index (all_fields l)) 0 (alignment_of index (all_fields l))
    (place_fields index 0 (all_fields l)) (lc_virtual_methods (inherit d base)) (lc_dispatch_slots (inherit d base)) ∧
  methods_laid_out index (all_methods l) (lc_virtual_methods (inherit d base)) (lc_dispatch_slots (inherit d base)).
Proof.
  intros Hbase. destruct base as [b|].
  - destruct Hbase as [Hc Ha _ Hf Hm]. simpl. by rewrite Hc, Ha, Hf.
  - subst l. split; [done|]. constructor; [|done|done]. intros s i. simpl. rewrite lookup_empty. by split.
Qed.

(** A class on top of its base. *)
Lemma extend_layout_ok d base l :
  match base with Some b => laid_out index l b | None => l = [] end →
  Forall storable (all_fields (l ++ [d])) → Forall dispatchable (cls_methods d) →
  extent index (all_fields (l ++ [d])) + 80 ≤ 2 ^ 64 →
  returns (extend_layout index d base) (λ c, lc_value c = d ∧ laid_out index (l ++ [d]) c).
Proof.
  intros Hbase Hall Hmethods Hroom. unfold extend_layout. destruct (inherit_ok d base l Hbase) as [-> Hm].
  pose proof (content_bound (all_fields (l ++ [d])) 0 Hall) as Hend. fold (content_of index (all_fields (l ++ [d]))) in Hend.
  destruct (alignment_power (all_fields (l ++ [d])) 1 0 Hall eq_refl) as (k & Hk & Hk2); [done|].
  fold (alignment_of index (all_fields (l ++ [d]))) in Hk2.
  assert (fold_left (next_content index) (cls_fields d) (content_of index (all_fields l)) = content_of index (all_fields (l ++ [d]))) as Hcont.
  { by rewrite all_fields_app, all_fields_single, content_app. }
  assert (fold_left (λ a item, N.max a (field_align item)) (cls_fields d) (alignment_of index (all_fields l)) = alignment_of index (all_fields (l ++ [d]))) as Hal.
  { unfold alignment_of. by rewrite all_fields_app, all_fields_single, fold_left_app. }
  assert (place_fields index 0 (all_fields l) ++ place_fields index (content_of index (all_fields l)) (cls_fields d) =
    place_fields index 0 (all_fields (l ++ [d]))) as Hplace.
  { by rewrite all_fields_app, all_fields_single, place_fields_app. }
  rewrite all_fields_app, all_fields_single, Forall_app in Hall. destruct Hall as [Hbefore Hfields].
  pose proof (content_bound (all_fields l) 0 Hbefore) as Hb. fold (content_of index (all_fields l)) in Hb.
  rewrite place_fields_ok; [|done|cbn [lc_content_size]; rewrite all_fields_app, all_fields_single, extent_app in Hroom; lia].
  rewrite bind_Ok. cbn [lc_value lc_content_size lc_payload_size lc_payload_alignment lc_fields lc_virtual_methods lc_dispatch_slots].
  rewrite Hcont, Hal, Hplace. set (c1 := finish_payload _).
  destruct (place_methods_ok (cls_methods d) (all_methods l) c1) as (methods & slots & Hrun & Hok); [done..|].
  exists (set_methods methods slots c1). split; [exact Hrun|]. split; [done|]. constructor; cbn; try done.
  - rewrite Hk2. apply align_up_wide; [done|]. lia.
  - by rewrite all_methods_app, all_methods_single.
Qed.
End one_class.

Local Open Scope string_scope.
Local Open Scope list_scope.
Local Open Scope N_scope.

(** ** Lists *)

Lemma concat_map_Permutation {A B} (f : A → list B) l l' : l ≡ₚ l' → concat (map f l) ≡ₚ concat (map f l').
Proof.
  induction 1 as [|x l l' _ IH|x y l|l l' l'' _ IH1 _ IH2]; simpl; [done|by rewrite IH|by rewrite !(assoc_L (++)), (comm (++) (f y))|by etrans].
Qed.

Lemma concat_map_submseteq {A B} (f : A → list B) l l' : l ⊆+ l' → concat (map f l) ⊆+ concat (map f l').
Proof.
  intros [k Hk]%submseteq_Permutation. rewrite (concat_map_Permutation f _ _ Hk), map_app, concat_app.
  by apply submseteq_inserts_r.
Qed.

Lemma NoDup_sub {A} (l l' : list A) : l ⊆+ l' → NoDup l' → NoDup l.
Proof. intros [k ->]%submseteq_Permutation Hn. by apply NoDup_app in Hn as [Hn _]. Qed.

Section module.
Variable legal : list byte → bool.
Variable module : ir_module.
Hypothesis supported : verify_supported_module legal module = Ok tt.
Notation index := (module_index module).
Notation classes := (mod_classes module).

Lemma module_ok : supported_module legal module.
Proof. by apply (proj2 (verify_supported_module_ok legal module) tt). Qed.

Lemma class_ids_unique : NoDup (map cls_id classes).
Proof. apply ordered_classes with (1 := sup_ordered _ _ module_ok). Qed.

Lemma class_found c : c ∈ classes → find_class index (cls_id c) = Some c.
Proof. apply find_declared_class, class_ids_unique. Qed.

Lemma found_class id c : find_class index id = Some c → c ∈ classes ∧ cls_id c = id.
Proof. intros Hf. exact (find_class_declared (context := index) id c Hf). Qed.

(** ** Lines of ancestors *)

Lemma inheritance_lineage n c :
  inheritance_loop n index c = Ok tt → ∃ l, lineage index c l ∧ (length l ≤ S n)%nat.
Proof.
  revert c. induction n as [|n IH]; intros c H; cbn [inheritance_loop] in H; destruct (cls_base c) as [b|] eqn:Hb.
  - done.
  - exists [c]. split; [by constructor|done].
  - destruct (find_class index b) as [base|] eqn:Hf; [|done]. destruct (IH base H) as (l & Hl & Hlen).
    exists (l ++ [c]). split; [by eapply lineage_derived|]. rewrite length_app. simpl. lia.
  - exists [c]. split; [by constructor|simpl; lia].
Qed.

Lemma class_lineage c : c ∈ classes → ∃ l, lineage index c l ∧ (length l ≤ layout_fuel index)%nat.
Proof.
  intros Hc. apply inheritance_lineage. unfold verify_supported_module in supported. revert supported.
  rewrite !seq_Ok_iff. intros (_ & _ & _ & _ & _ & _ & H).
  apply bind_Ok_inv in H as (d & _ & H). rewrite seq_Ok_iff in H. destruct H as [H _].
  unfold verify_inheritance in H. apply for_each_Ok in H. rewrite Forall_forall in H. by apply H.
Qed.

Lemma lineage_members d l : lineage index d l → d ∈ classes → ∀ x, x ∈ l → x ∈ classes.
Proof.
  induction 1 as [d Hd|d id b l Hd Hb _ IH]; intros Hin x Hx.
  - by apply list_elem_of_singleton in Hx as ->.
  - apply elem_of_app in Hx as [Hx| ->%list_elem_of_singleton]; [|done]. apply IH; [|done]. by apply found_class in Hb as [? _].
Qed.

Lemma lineage_bases d l : lineage index d l → d ∈ classes → ∀ x, x ∈ l → rtc (base_of index) (cls_id d) (cls_id x).
Proof.
  induction 1 as [d Hd|d id b l Hd Hb _ IH]; intros Hin x Hx.
  - by apply list_elem_of_singleton in Hx as ->.
  - apply elem_of_app in Hx as [Hx| ->%list_elem_of_singleton]; [|done]. apply found_class in Hb as [Hbin Hid].
    eapply rtc_l; [|by apply IH]. exists d. split; [by apply class_found|by rewrite Hid].
Qed.

Lemma lineage_NoDup d l : lineage index d l → d ∈ classes → NoDup l.
Proof.
  induction 1 as [d Hd|d id b l Hd Hb Hl IH]; intros Hin; [apply NoDup_singleton|].
  pose proof (found_class _ _ Hb) as [Hbin Hid]. apply NoDup_app. split_and!; [by apply IH| |apply NoDup_singleton].
  intros x Hx ->%list_elem_of_singleton. apply (sup_hierarchy _ _ module_ok (cls_id d)).
  eapply tc_rtc_r; [|by eapply lineage_bases]. constructor. exists d. split; [by apply class_found|by rewrite Hid].
Qed.

Lemma lineage_sub d l : lineage index d l → d ∈ classes → l ⊆+ classes.
Proof. intros Hl Hd. apply NoDup_submseteq; [by eapply lineage_NoDup|by eapply lineage_members]. Qed.

Lemma lineage_prefix d l x : lineage index d l → x ∈ l → ∃ lx more, lineage index x lx ∧ l = lx ++ more.
Proof.
  induction 1 as [d Hd|d id b l Hd Hb Hl IH]; intros Hx.
  - apply list_elem_of_singleton in Hx as ->. exists [d], []. split; [by constructor|done].
  - apply elem_of_app in Hx as [Hx| ->%list_elem_of_singleton].
    + destruct (IH Hx) as (lx & more & Hlx & ->). exists lx, (more ++ [d]). by rewrite app_assoc.
    + exists (l ++ [d]), []. split; [by eapply lineage_derived|by rewrite app_nil_r].
Qed.

Lemma base_in_lineage c : c ∈ classes → ∀ i j, rtc (base_of index) i j →
  ∀ d ld, d ∈ classes → lineage index d ld → cls_id d = i → cls_id c = j → c ∈ ld.
Proof.
  intros Hc i j Hr. induction Hr as [i|i j k (x & Hx & Hb) _ IH]; intros d ld Hd Hld Hi Hj.
  - assert (c = d) as <-. { pose proof (class_found _ Hc) as H1. rewrite Hj, <-Hi in H1. rewrite (class_found _ Hd) in H1. congruence. }
    destruct Hld; [by left|]. apply elem_of_app. right. by left.
  - subst i. rewrite class_found in Hx by done. injection Hx as <-. destruct Hld as [d Hn|d id b l Hid Hf Hl]; [congruence|].
    rewrite Hb in Hid. injection Hid as <-. apply elem_of_app. left.
    pose proof (found_class _ _ Hf) as [Hbin Hbid]. by apply (IH b).
Qed.

(** A subclass starts with the line of its base. *)
Lemma subclass_lineage c d lc ld :
  c ∈ classes → d ∈ classes → lineage index c lc → lineage index d ld →
  rtc (base_of index) (cls_id d) (cls_id c) → ∃ more, ld = lc ++ more.
Proof.
  intros Hc Hd Hlc Hld Hr.
  pose proof (base_in_lineage c Hc _ _ Hr d ld Hd Hld eq_refl eq_refl) as Hin.
  destruct (lineage_prefix _ _ _ Hld Hin) as (lx & more & Hlx & ->). exists more. by rewrite (lineage_functional _ _ _ _ Hlx Hlc).
Qed.

(** The fields of a line have different identities. *)
Lemma lineage_fields_unique d l : lineage index d l → d ∈ classes → NoDup (map fld_id (all_fields l)).
Proof.
  intros Hl Hd. pose proof (sup_symbols _ _ module_ok) as Hn. unfold declared_symbols in Hn. apply NoDup_app in Hn as [Hn _].
  eapply NoDup_sub in Hn; [|by eapply concat_map_submseteq, lineage_sub].
  eapply NoDup_sub; [|exact Hn]. unfold all_fields. clear. induction l as [|c l IH]; [done|]. simpl.
  rewrite map_app. apply submseteq_cons. by apply submseteq_app.
Qed.

Lemma shared_field d1 d2 l1 l2 f1 f2 :
  lineage index d1 l1 → d1 ∈ classes → lineage index d2 l2 → d2 ∈ classes →
  f1 ∈ all_fields l1 → f2 ∈ all_fields l2 → fld_id f1 = fld_id f2 →
  ∃ x lx more1 more2, lineage index x lx ∧ l1 = lx ++ more1 ∧ l2 = lx ++ more2 ∧ f1 ∈ all_fields lx ∧ f1 = f2.
Proof.
  intros Hl1 Hd1 Hl2 Hd2 Hf1 Hf2 He.
  apply list_elem_of_In, in_concat in Hf1 as (fs1 & Hin1 & Hf1). apply in_map_iff in Hin1 as (x1 & <- & Hx1).
  apply list_elem_of_In, in_concat in Hf2 as (fs2 & Hin2 & Hf2). apply in_map_iff in Hin2 as (x2 & <- & Hx2).
  apply list_elem_of_In in Hx1, Hx2, Hf1, Hf2.
  assert (x1 = x2 ∧ f1 = f2) as [<- <-].
  { pose proof (sup_symbols _ _ module_ok) as Hn. unfold declared_symbols in Hn. apply NoDup_app in Hn as [Hn _].
    pose proof (lineage_members _ _ Hl1 Hd1 x1 Hx1) as Hc1. pose proof (lineage_members _ _ Hl2 Hd2 x2 Hx2) as Hc2.
    revert Hn Hc1 Hc2. clear - Hf1 Hf2 He. induction classes as [|c cs IH]; [by intros _ ?%elem_of_nil|]. simpl.
    intros [_ Hn]%NoDup_cons. apply NoDup_app in Hn as (Hn1 & Hn2 & Hn3).
    assert (∀ x f, x ∈ cs → f ∈ cls_fields x → fld_id f ∈ concat (map class_symbols cs)) as Hlater.
    { intros x f Hx Hf. apply list_elem_of_In, in_concat. exists (class_symbols x). split; [apply in_map; by apply list_elem_of_In|].
      right. apply in_map. by apply list_elem_of_In. }
    assert (∀ f, f ∈ cls_fields c → fld_id f ∈ map fld_id (cls_fields c)) as Hhere by (intros f Hf; by apply list_elem_of_fmap_2).
    intros [->|Hc1]%elem_of_cons [->|Hc2]%elem_of_cons.
    - split; [done|]. by apply (NoDup_map_eq fld_id (cls_fields c)).
    - destruct (Hn2 (fld_id f1)); [by apply Hhere|]. rewrite He. by eapply Hlater.
    - destruct (Hn2 (fld_id f2)); [by apply Hhere|]. rewrite <-He. by eapply Hlater.
    - by apply IH. }
  destruct (lineage_prefix _ _ _ Hl1 Hx1) as (lx & more1 & Hlx & ->). destruct (lineage_prefix _ _ _ Hl2 Hx2) as (lx' & more2 & Hlx' & ->).
  rewrite (lineage_functional _ _ _ _ Hlx' Hlx) in *. exists x1, lx, more1, more2. split_and!; try done.
  unfold all_fields. apply list_elem_of_In, in_concat. exists (cls_fields x1). split; [|by apply list_elem_of_In].
  apply in_map, list_elem_of_In. destruct Hlx; [by left|]. apply elem_of_app. right. by left.
Qed.
End module.

(** ** The maps *)

(** An index every class agrees on for every slot. *)
Definition coherent_slots (module : ir_module) : Prop :=
  ∀ d1 d2 l1 l2 s i j, d1 ∈ mod_classes module → d2 ∈ mod_classes module →
    lineage (module_index module) d1 l1 → lineage (module_index module) d2 l2 →
    slots_of_methods (all_methods l1) !! i = Some s → slots_of_methods (all_methods l2) !! j = Some s → i = j.

Definition slot_changed : exn := lowering_error "Virtual dispatch slot changed ABI index.".

(** ** Registration *)

Lemma register_fields_ok items fields :
  (∀ i j, i ∈ items → j ∈ items → fld_id (lf_value i) = fld_id (lf_value j) → i = j) →
  (∀ i j, i ∈ items → fields !! fld_id (lf_value i) = Some j → j = i) →
  fields ⊆ fold_left (λ fields item, register_field item fields) items fields ∧
  ∀ id item, fold_left (λ fields item, register_field item fields) items fields !! id = Some item ↔
    fields !! id = Some item ∨ item ∈ items ∧ fld_id (lf_value item) = id.
Proof.
  revert fields. induction items as [|x items IH]; intros fields Huniq Hold; simpl.
  - split; [done|]. intros id item. rewrite elem_of_nil. naive_solver.
  - assert (fields ⊆ register_field x fields) as Hsub.
    { unfold register_field. destruct (fields !! fld_id (lf_value x)) as [y|] eqn:Hy; [|by apply insert_subseteq].
      rewrite (Hold x y) in Hy by (done || left). by rewrite insert_id. }
    destruct (IH (register_field x fields)) as [Hs Hl].
    + intros i j Hi Hj. apply Huniq; by right.
    + intros i j Hi. unfold register_field. rewrite lookup_insert_Some. intros [[He <-]|[_ Hj]].
      * apply Huniq; [by left|by right|done].
      * apply (Hold i j); [by right|done].
    + split; [by etrans|]. intros id item. rewrite Hl, elem_of_cons. unfold register_field. rewrite lookup_insert_Some. split.
      * intros [[[<- <-]|[_ Hi]]|[Hi <-]]; [by right; split; [left|]|by left|by right; split; [right|]].
      * intros [Hi|[[->|Hi] <-]]; [|by left; left|by right].
        destruct (decide (fld_id (lf_value x) = id)) as [<-|Hne]; [|by left; right].
        left. left. split; [done|]. symmetry. apply (Hold x item); [by left|done].
Qed.

Lemma register_slots_ok entries indices :
  NoDup entries.*1 →
  match for_state entries indices register_slot with
  | Ok indices' => indices ⊆ indices' ∧
      ∀ s i, indices' !! s = Some i ↔ indices !! s = Some i ∨ (s, i) ∈ entries
  | Throw e => e = slot_changed ∧ ∃ s i j, (s, i) ∈ entries ∧ indices !! s = Some j ∧ i ≠ j
  end.
Proof.
  revert indices. induction entries as [|[s i] entries IH]; intros indices Hn; cbn [for_state].
  - split; [done|]. intros s i. rewrite elem_of_nil. naive_solver.
  - cbn in Hn. apply NoDup_cons in Hn as [Hs Hn].
    assert (indices !! s = None ∨ indices !! s = Some i → register_slot (s, i) indices = Ok (<[s:=i]> indices)) as Hok.
    { unfold register_slot. cbn. intros [->| ->]; [done|]. by rewrite N.eqb_refl. }
    assert (indices !! s = None ∨ indices !! s = Some i → indices ⊆ <[s:=i]> indices) as Hsub.
    { intros [Hx|Hx]; [by apply insert_subseteq|by rewrite insert_id]. }
    destruct (indices !! s) as [j|] eqn:Hj.
    + destruct (decide (i = j)) as [<-|Hne].
      * rewrite Hok, bind_Ok by by right. specialize (IH (<[s:=i]> indices) Hn). specialize (Hsub (or_intror eq_refl)).
        rewrite insert_id in * by done. destruct (for_state _ _ _) as [indices'|e].
        -- destruct IH as [H1 H2]. split; [done|]. intros s' i'. rewrite H2, elem_of_cons. split; [naive_solver|].
           intros [?|[[= -> ->]|?]]; [by left|by left|by right].
        -- destruct IH as (-> & s' & i' & j' & Hin & H1 & H2). split; [done|]. exists s', i', j'. split_and!; [by right|done..].
      * assert (register_slot (s, i) indices = Throw slot_changed) as ->.
        { unfold register_slot. cbn. by rewrite Hj, (proj2 (N.eqb_neq _ _)) by congruence. }
        split; [done|]. exists s, i, j. split_and!; [by left|done|done].
    + rewrite Hok, bind_Ok by by left. specialize (IH (<[s:=i]> indices) Hn). specialize (Hsub (or_introl eq_refl)).
      destruct (for_state _ _ _) as [indices'|e].
      * destruct IH as [H1 H2]. split; [by etrans|]. intros s' i'. rewrite H2, elem_of_cons, lookup_insert_Some. split.
        -- intros [[[-> ->]|[_ ?]]|?]; [by right; left|by left|by right; right].
        -- intros [Hl|[[= -> ->]|?]]; [|by left; left|by right]. left. right. split; [congruence|done].
      * destruct IH as (-> & s' & i' & j' & Hin & H1 & H2). split; [done|]. exists s', i', j'.
        apply lookup_insert_Some in H1 as [[<- <-]|[_ H1]]; [|by split_and!; [right|..]].
        destruct Hs. apply list_elem_of_fmap. by exists (s, i').
Qed.

Section maps.
Context `{LawfulDataLayout}.
Variable legal : list byte → bool.
Variable module : ir_module.
Hypothesis supported : verify_supported_module legal module = Ok tt.
Notation index := (module_index module).
Notation classes := (mod_classes module).
Hypothesis room : module_extent index module + 80 ≤ 2 ^ 64.

Lemma class_storable c : c ∈ classes → Forall (storable index) (cls_fields c).
Proof.
  intros Hc. pose proof (sup_classes _ _ (module_ok legal module supported)) as Hall.
  rewrite Forall_forall in Hall. pose proof (class_fields _ _ (Hall c Hc)) as Hf.
  eapply Forall_impl; [exact Hf|]. intros f (_ & _ & Ht). by eapply physical_type_returns.
Qed.

Lemma class_dispatchable c : c ∈ classes → Forall (dispatchable index) (cls_methods c).
Proof.
  intros Hc. pose proof (sup_classes _ _ (module_ok legal module supported)) as Hall.
  rewrite Forall_forall in Hall. pose proof (class_methods _ _ (Hall c Hc)) as Hm.
  eapply Forall_impl; [exact Hm|]. intros m (target & Ht & _ & Hd). split; [by eexists|]. intros Hv.
  unfold dispatch_mismatch in Hd. rewrite Hv in Hd. destruct (mth_dispatch_slot m); [by eexists|discriminate Hd].
Qed.

Lemma lineage_storable d l : lineage index d l → d ∈ classes → Forall (storable index) (all_fields l).
Proof.
  intros Hl Hd. apply Forall_concat, Forall_fmap, Forall_forall. intros x Hx. apply class_storable. by eapply lineage_members.
Qed.

Lemma extent_sub l l' : l ⊆+ l' → extent index l ≤ extent index l'.
Proof.
  induction 1 as [|x l l' _ IH|x y l|x l l' _ IH|l l' l'' _ IH1 _ IH2]; simpl; lia.
Qed.

Lemma lineage_room d l : lineage index d l → d ∈ classes → extent index (all_fields l) + 80 ≤ 2 ^ 64.
Proof.
  intros Hl Hd. pose proof (extent_sub (all_fields l) (all_fields classes)) as He. unfold module_extent in room.
  assert (all_fields l ⊆+ all_fields classes) as Hs by by eapply concat_map_submseteq, lineage_sub. specialize (He Hs). lia.
Qed.

(** [c] is the layout of the class [id]. *)
Definition class_of (id : symbol_id) (c : lowered_class) : Prop :=
  ∃ l, find_class index id = Some (lc_value c) ∧ lineage index (lc_value c) l ∧ laid_out index l c.

Record maps_ok (st : lowered_classes) : Prop := {
  mo_layouts id c : class_layouts_ st !! id = Some c → class_of id c;
  mo_fields id c item : class_layouts_ st !! id = Some c → item ∈ lc_fields c →
    field_layouts_ st !! fld_id (lf_value item) = Some item;
  mo_field_known fid item : field_layouts_ st !! fid = Some item →
    fld_id (lf_value item) = fid ∧ ∃ id c, class_layouts_ st !! id = Some c ∧ item ∈ lc_fields c;
  mo_slots id c s i : class_layouts_ st !! id = Some c → lc_dispatch_slots c !! s = Some i →
    dispatch_slot_indices_ st !! s = Some i;
  mo_slot_known s i : dispatch_slot_indices_ st !! s = Some i →
    ∃ id c, class_layouts_ st !! id = Some c ∧ lc_dispatch_slots c !! s = Some i;
}.

Lemma maps_ok_empty : maps_ok no_classes.
Proof. by constructor. Qed.

(** The same field lies at the same place in every class that has it. *)
Lemma same_place id1 id2 c1 c2 item1 item2 :
  class_of id1 c1 → class_of id2 c2 → item1 ∈ lc_fields c1 → item2 ∈ lc_fields c2 →
  fld_id (lf_value item1) = fld_id (lf_value item2) → item1 = item2.
Proof.
  intros (l1 & Hf1 & Hl1 & Ho1) (l2 & Hf2 & Hl2 & Ho2) Hi1 Hi2 He. apply found_class in Hf1 as [Hd1 _], Hf2 as [Hd2 _].
  rewrite (lo_fields _ _ _ Ho1) in Hi1. rewrite (lo_fields _ _ _ Ho2) in Hi2.
  assert (∀ l item, item ∈ place_fields index 0 l → lf_value item ∈ l) as Hval.
  { intros l item Hin. rewrite <-(place_fields_values index 0 l). by apply list_elem_of_fmap_2. }
  destruct (shared_field legal module supported _ _ l1 l2 (lf_value item1) (lf_value item2) Hl1 Hd1 Hl2 Hd2)
    as (x & lx & more1 & more2 & Hlx & -> & -> & Hin & Hfe); [by apply Hval..|done|].
  pose proof (lineage_fields_unique legal module supported _ _ Hl1 Hd1) as Hn1.
  pose proof (lineage_fields_unique legal module supported _ _ Hl2 Hd2) as Hn2.
  assert (∃ item, item ∈ place_fields index 0 (all_fields lx) ∧ lf_value item = lf_value item1) as (item & Hitem & Hv).
  { rewrite <-(place_fields_values index 0 (all_fields lx)) in Hin. apply list_elem_of_fmap in Hin as (item & -> & Hin). by exists item. }
  assert (∀ l more it, NoDup (map fld_id (all_fields (l ++ more))) → it ∈ place_fields index 0 (all_fields (l ++ more)) →
    ∀ it', it' ∈ place_fields index 0 (all_fields l) → lf_value it' = lf_value it → it = it') as Heq.
  { intros l more it Hn Hit it' Hit' Hvv.
    apply (NoDup_map_eq (λ i, fld_id (lf_value i)) (place_fields index 0 (all_fields (l ++ more)))).
    - rewrite <-(map_map lf_value fld_id), place_fields_values. exact Hn.
    - done.
    - rewrite all_fields_app, place_fields_app. by apply elem_of_app; left.
    - by rewrite Hvv. }
  rewrite (Heq _ _ item1 Hn1 Hi1 item Hitem Hv). symmetry. by apply (Heq _ _ item2 Hn2 Hi2 item Hitem); rewrite Hv.
Qed.

(** ** Building *)

(** The two ways a step ends: a result, or the complaint that is only made of modules whose
    classes do not agree on a slot. *)
Definition coherently {A} (m : result A) (Q : A → Prop) : Prop :=
  returns m Q ∨ m = Throw slot_changed ∧ ¬ coherent_slots module.

Lemma coherently_bind {A B} (m : result A) (k : A → result B) P Q :
  coherently m P → (∀ a, P a → coherently (k a) Q) → coherently (m ≫= k) Q.
Proof.
  intros [(a & -> & Ha)|[-> Hc]] Hk; [rewrite bind_Ok; by apply Hk|]. by right.
Qed.

Lemma class_slot id c s i :
  class_of id c → lc_dispatch_slots c !! s = Some i →
  ∃ d l, d ∈ classes ∧ lineage index d l ∧ slots_of_methods (all_methods l) !! N.to_nat i = Some s.
Proof.
  intros (l & Hf & Hl & Ho) Hs. apply found_class in Hf as [Hd _]. exists (lc_value c), l. split_and!; [done..|].
  by apply (mlo_slots _ _ _ _ (lo_methods _ _ _ Ho)).
Qed.

Lemma register_class_ok id c st :
  maps_ok st → class_layouts_ st !! id = None → class_of id c →
  coherently (register_class id c st) (λ p, p.1 = c ∧ maps_ok p.2 ∧ class_layouts_ p.2 = <[id := c]> (class_layouts_ st)).
Proof.
  intros Hst Hnew Hc. unfold register_class.
  assert (try_emplace id c (class_layouts_ st) = <[id := c]> (class_layouts_ st)) as -> by (unfold try_emplace; by rewrite Hnew).
  rewrite lookup_insert_eq. change (default c (Some c)) with c. cbv zeta.
  destruct (register_fields_ok (lc_fields c) (field_layouts_ st)) as [Hfs Hfl].
  { intros i j Hi Hj. by apply (same_place id id c c). }
  { intros i j Hi Hj. apply (mo_field_known _ Hst) in Hj as (He & id' & c' & Hc' & Hj).
    apply (same_place id' id c' c); [by apply (mo_layouts _ Hst)|done..]. }
  pose proof (register_slots_ok (map_to_list (lc_dispatch_slots c)) (dispatch_slot_indices_ st) (NoDup_fst_map_to_list _)) as Hr.
  destruct (for_state _ _ _) as [indices|e].
  - left. cbn [mbind result_bind]. eexists. split; [done|]. cbn [fst snd]. split_and!; [done| |done].
    destruct Hr as [Hsub Hind]. constructor; cbn.
    + intros id' c'. rewrite lookup_insert_Some. intros [[<- <-]|[_ Hl]]; [done|by apply (mo_layouts _ Hst)].
    + intros id' c' item. rewrite lookup_insert_Some. intros [[<- <-]|[_ Hl]] Hi; apply Hfl; [by right|].
      left. by apply (mo_fields _ Hst id' c').
    + intros fid item [Hl|[Hi He]]%Hfl.
      * apply (mo_field_known _ Hst) in Hl as (He & id' & c' & Hc' & Hi). split; [done|]. exists id', c'. split; [|done].
        rewrite lookup_insert_ne; [done|]. intros <-. congruence.
      * split; [done|]. exists id, c. by rewrite lookup_insert_eq.
    + intros id' c' s i. rewrite lookup_insert_Some. intros [[<- <-]|[_ Hl]] Hs; apply Hind.
      * right. by apply elem_of_map_to_list.
      * left. by eapply (mo_slots _ Hst).
    + intros s i [Hl|Hi%elem_of_map_to_list]%Hind.
      * apply (mo_slot_known _ Hst) in Hl as (id' & c' & Hc' & Hs). exists id', c'. split; [|done].
        rewrite lookup_insert_ne; [done|]. intros <-. congruence.
      * exists id, c. by rewrite lookup_insert_eq.
  - right. cbn [mbind result_bind]. destruct Hr as (-> & s & i & j & Hi%elem_of_map_to_list & Hj & Hne). split; [done|].
    intros Hcoh. apply (mo_slot_known _ Hst) in Hj as (id' & c' & Hc' & Hj). apply (mo_layouts _ Hst) in Hc'.
    destruct (class_slot id c s i Hc Hi) as (d1 & l1 & Hd1 & Hl1 & H1).
    destruct (class_slot id' c' s j Hc' Hj) as (d2 & l2 & Hd2 & Hl2 & H2).
    apply Hne, N2Nat.inj. by apply (Hcoh d1 d2 l1 l2 s).
Qed.

Lemma build_class_layout_ok fuel d l st :
  maps_ok st → d ∈ classes → lineage index d l → (length l ≤ fuel)%nat →
  coherently (build_class_layout index fuel d st) (λ p,
    maps_ok p.2 ∧ class_layouts_ p.2 !! cls_id d = Some p.1 ∧ class_layouts_ st ⊆ class_layouts_ p.2 ∧
    ∀ id, is_Some (class_layouts_ p.2 !! id) → is_Some (class_layouts_ st !! id) ∨ id ∈ map cls_id l).
Proof.
  intros Hst Hd Hl. revert fuel st Hst Hd. induction Hl as [d Hb|d id b l Hb Hf Hl IH]; intros fuel st Hst Hd Hfuel.
  - destruct fuel as [|fuel]; [simpl in Hfuel; lia|]. cbn [build_class_layout].
    destruct (class_layouts_ st !! cls_id d) as [found|] eqn:Hm; [left; exists (found, st); split; [done|]; split_and!; [done..|by left]|].
    rewrite Hb, bind_Ok. eapply (coherently_bind _ _ (λ c, lc_value c = d ∧ laid_out index [d] c)).
    { left. apply (extend_layout_ok index d None []); [done| |by apply class_dispatchable|].
      - apply (lineage_storable d); [by constructor|done].
      - apply (lineage_room d); [by constructor|done]. }
    intros c [Hv Hc]. destruct (register_class_ok (cls_id d) c st Hst Hm) as [(p & Hr & Hp1 & Hp2 & Hp3)|Hr]; [|left; exists p|by right].
    + exists [d]. rewrite Hv. split_and!; [by apply (class_found legal module supported)|by constructor|done].
    + split; [exact Hr|]. rewrite Hp3, Hp1, lookup_insert_eq. split_and!; [done..|by apply insert_subseteq|].
      intros id [x [[<- _]|[_ Hx]]%lookup_insert_Some]; [right; by left|left; by eexists].
  - destruct fuel as [|fuel]; [rewrite length_app in Hfuel; simpl in Hfuel; lia|]. cbn [build_class_layout].
    destruct (class_layouts_ st !! cls_id d) as [found|] eqn:Hm; [left; exists (found, st); split; [done|]; split_and!; [done..|by left]|].
    pose proof (found_class module _ _ Hf) as [Hbin Hid].
    assert (lineage index d (l ++ [d])) as Hld by by eapply lineage_derived.
    rewrite Hb. unfold lowering_class. rewrite Hf, bind_Ok.
    eapply (coherently_bind _ _ (λ p, ∃ base, p.1 = Some base ∧ maps_ok p.2 ∧
      class_layouts_ p.2 !! cls_id b = Some base ∧ class_layouts_ st ⊆ class_layouts_ p.2 ∧
      ∀ id, is_Some (class_layouts_ p.2 !! id) → is_Some (class_layouts_ st !! id) ∨ id ∈ map cls_id l)).
    { eapply coherently_bind; [apply (IH fuel st Hst Hbin); rewrite length_app in Hfuel; simpl in Hfuel; lia|].
      intros [base st'] (H1 & H2 & H3 & H4). left. eexists. split; [done|]. by exists base. }
    intros [obase st'] (base & Hobase & Hst' & Hlook & Hsub & Hnew). cbn [fst snd] in *. subst obase.
    destruct (mo_layouts _ Hst' _ _ Hlook) as (l' & Hf' & Hl' & Ho').
    assert (lc_value base = b) as Hvb by (rewrite (class_found legal module supported) in Hf' by done; congruence).
    rewrite Hvb in Hl'. rewrite (lineage_functional _ _ _ _ Hl' Hl) in Ho'.
    eapply (coherently_bind _ _ (λ c, lc_value c = d ∧ laid_out index (l ++ [d]) c)).
    { left. apply (extend_layout_ok index d (Some base) l); [done| |by apply class_dispatchable|].
      - by apply (lineage_storable d).
      - by apply (lineage_room d). }
    intros c [Hv Hc]. destruct (class_layouts_ st' !! cls_id d) as [found|] eqn:Hm'.
    { exfalso. destruct (Hnew (cls_id d)) as [[? Hx]|(x & Hx & Hxl)%list_elem_of_fmap]; [by eexists|congruence|].
      pose proof (lineage_NoDup legal module supported _ _ Hld Hd) as (_ & Hn & _)%NoDup_app. apply (Hn d); [|by left].
      rewrite (NoDup_map_eq cls_id classes d x); [done|exact (class_ids_unique legal module supported)|done|exact (lineage_members module b l Hl Hbin x Hxl)|done]. }
    destruct (register_class_ok (cls_id d) c st' Hst' Hm') as [(p & Hr & Hp1 & Hp2 & Hp3)|Hr]; [|left; exists p|by right].
    + exists (l ++ [d]). rewrite Hv. split_and!; [by apply (class_found legal module supported)|done|done].
    + split; [exact Hr|]. rewrite Hp3, Hp1, lookup_insert_eq. split_and!; [done|done| |].
      * etrans; [exact Hsub|by apply insert_subseteq].
      * intros k. rewrite lookup_insert_is_Some, map_app, elem_of_app. intros [<-|[_ Hx]]; [right; right; by left|].
        destruct (Hnew k Hx); [by left|by right; left].
Qed.

Lemma build_loop_ok cs st :
  maps_ok st → (∀ c, c ∈ cs → c ∈ classes) →
  coherently (for_state cs st (λ declaration st,
      '(_, st) ← build_class_layout index (layout_fuel index) declaration st; Ok st))
    (λ st', maps_ok st' ∧ class_layouts_ st ⊆ class_layouts_ st' ∧ ∀ c, c ∈ cs → is_Some (class_layouts_ st' !! cls_id c)).
Proof.
  revert st. induction cs as [|c cs IH]; intros st Hst Hin; cbn [for_state].
  - left. exists st. split; [done|]. split_and!; [done..|]. by intros c ?%elem_of_nil.
  - assert (c ∈ classes) as Hc by (apply Hin; by left). destruct (class_lineage legal module supported c Hc) as (l & Hl & Hlen).
    eapply (coherently_bind _ _ (λ st', maps_ok st' ∧ class_layouts_ st ⊆ class_layouts_ st' ∧ is_Some (class_layouts_ st' !! cls_id c))).
    { eapply coherently_bind; [by eapply build_class_layout_ok|]. intros [x st'] (H1 & H2 & H3 & _). left. exists st'.
      split; [done|]. split_and!; [done..|by eexists]. }
    intros st' (Hst' & Hsub & Hhas). destruct (IH st' Hst') as [(st'' & Hrun & Hst'' & Hsub' & Hall)|Hno]; [intros x Hx; apply Hin; by right| |by right].
    left. exists st''. split; [done|]. split_and!; [done|by etrans|]. intros x [->|Hx]%elem_of_cons; [|by apply Hall].
    destruct Hhas as [y Hy]. exists y. by eapply lookup_weaken.
Qed.

(** Layouts of all classes, exactly when the classes agree on their slots. *)
Lemma build_class_layouts_ok :
  returns (build_class_layouts index) (λ st, maps_ok st ∧ coherent_slots module ∧ ∀ c, c ∈ classes →
      ∃ lc l, class_layouts_ st !! cls_id c = Some lc ∧ lc_value lc = c ∧ lineage index c l ∧ laid_out index l lc) ∨
  build_class_layouts index = Throw slot_changed ∧ ¬ coherent_slots module.
Proof.
  destruct (build_loop_ok classes no_classes (maps_ok_empty) (λ c Hc, Hc)) as [(st & Hrun & Hst & _ & Hall)|Hno]; [left|by right].
  assert (∀ c, c ∈ classes →
      ∃ lc l, class_layouts_ st !! cls_id c = Some lc ∧ lc_value lc = c ∧ lineage index c l ∧ laid_out index l lc) as Hlay.
  { intros c Hc. destruct (Hall c Hc) as [lc Hlc]. destruct (mo_layouts _ Hst _ _ Hlc) as (l & Hf & Hl & Ho).
    rewrite (class_found legal module supported) in Hf by done. injection Hf as Hf. exists lc, l. rewrite <-Hf in Hl. by split_and!. }
  exists st. split; [done|]. split_and!; [done| |exact Hlay].
  intros d1 d2 l1 l2 s i j Hd1 Hd2 Hl1 Hl2 Hi Hj.
  destruct (Hlay d1 Hd1) as (c1 & l1' & Hc1 & _ & Hl1' & Ho1). destruct (Hlay d2 Hd2) as (c2 & l2' & Hc2 & _ & Hl2' & Ho2).
  rewrite (lineage_functional _ _ _ _ Hl1' Hl1) in Ho1. rewrite (lineage_functional _ _ _ _ Hl2' Hl2) in Ho2.
  assert (dispatch_slot_indices_ st !! s = Some (N.of_nat i)) as H1.
  { eapply (mo_slots _ Hst); [exact Hc1|]. apply (mlo_slots _ _ _ _ (lo_methods _ _ _ Ho1)). by rewrite Nat2N.id. }
  assert (dispatch_slot_indices_ st !! s = Some (N.of_nat j)) as H2.
  { eapply (mo_slots _ Hst); [exact Hc2|]. apply (mlo_slots _ _ _ _ (lo_methods _ _ _ Ho2)). by rewrite Nat2N.id. }
  apply Nat2N.inj. congruence.
Qed.
End maps.
