(* ===== verification/ClassSpec.v ===== *)
(** * Objects have the shape their classes promise

    The theorems about class layouts: where fields lie, that a field is found at the same
    place in every subclass, and that a virtual call reaches the nearest implementation. *)

From S2P Require Import Prelude Domains IR Samples Reader Types Layout Index Instructions.
From S2P Require Import Functions Modules ModuleSafety Roots ManglingSpec ClassLayout ClassSafety.

Local Open Scope list_scope.
Local Open Scope N_scope.

(** ** Places *)

Section places.
Context `{LawfulDataLayout}.
Variable index : module_verification_index.
Notation field_size := (field_size index).
Notation field_align := (field_align index).

Lemma place_fields_inside items content item :
  Forall (storable index) items → item ∈ place_fields index content items →
  sizeof_object_header + content ≤ lf_offset item ∧
  lf_offset item + field_size (lf_value item) ≤ sizeof_object_header + fold_left (next_content index) items content ∧
  (field_align (lf_value item) | lf_offset item) ∧ storable index (lf_value item).
Proof.
  intros Hs. revert content. induction Hs as [|x items Hx Hs IH]; intros content Hin; [by apply elem_of_nil in Hin|].
  pose proof (next_content_bound index content x Hx) as [Hge _]. cbn [place_fields fold_left] in *.
  assert (∀ content', content' ≤ fold_left (next_content index) items content') as Hmono.
  { clear -Hs H0. induction Hs as [|y items Hy _ IH]; intros content'; simpl; [done|].
    pose proof (next_content_bound index content' y Hy). specialize (IH (next_content index content' y)). lia. }
  apply elem_of_cons in Hin as [->|Hin]; cbn [lf_value lf_offset].
  - destruct (storable_align index x Hx) as (_ & _ & Hp & Hle & _). pose proof (align_to_spec content (field_align x) Hp) as (H1 & _ & H3).
    specialize (Hmono (next_content index content x)). unfold next_content at 1 in Hmono. split_and!; [lia|lia| |done].
    apply N.divide_add_r; [|done]. destruct Hx as [t Ht]. destruct (align_power t) as (k & Hk & Hak).
    assert (field_align x = 2 ^ k) as ->. { unfold ClassSafety.field_align, storage_alignment. by rewrite Ht. }
    by apply small_power in Hk as [->|[->|[->|[->| ->]]]]; [exists 16|exists 8|exists 4|exists 2|exists 1].
  - destruct (IH _ Hin) as (H1 & H2 & H3 & H4). split_and!; [lia|done..].
Qed.

Lemma place_fields_ordered items content i j a b :
  Forall (storable index) items → place_fields index content items !! i = Some a →
  place_fields index content items !! j = Some b → (i < j)%nat → lf_offset a + field_size (lf_value a) ≤ lf_offset b.
Proof.
  intros Hs. revert content i j. induction Hs as [|x items Hx Hs IH]; intros content i j Ha Hb Hij; [done|].
  cbn [place_fields] in *. destruct j as [|j]; [lia|]. simpl in Hb. destruct i as [|i].
  - injection Ha as <-. cbn [lf_value lf_offset]. apply list_elem_of_lookup_2 in Hb.
    destruct (place_fields_inside items _ b Hs Hb) as (H1 & _). unfold next_content in H1. lia.
  - simpl in Ha. eapply (IH _ i j); [done..|lia].
Qed.
End places.

(** ** Classes of an accepted module *)

(** The implementation a call of a slot reaches on objects of a class. *)
Inductive resolves (index : module_verification_index) : class_declaration → symbol_id → symbol_id → Prop :=
| resolves_here d s id : implementation_of (cls_methods d) s = Some id → resolves index d s id
| resolves_above d b base s id :
    implementation_of (cls_methods d) s = None → cls_base d = Some base → find_class index base = Some b →
    resolves index b s id → resolves index d s id.

Lemma implementation_app a b s :
  implementation_of (a ++ b) s = match implementation_of b s with Some id => Some id | None => implementation_of a s end.
Proof.
  induction b as [|m b IH] using rev_ind; [by rewrite app_nil_r|]. rewrite app_assoc, !implementation_snoc, IH.
  by destruct (implements s m).
Qed.

Lemma implementation_resolves index d l s id :
  lineage index d l → implementation_of (all_methods l) s = Some id → resolves index d s id.
Proof.
  induction 1 as [d Hd|d base b l Hb Hf _ IH]; intros Hi.
  - rewrite all_methods_single in Hi. by constructor.
  - rewrite all_methods_app, all_methods_single, implementation_app in Hi.
    destruct (implementation_of (cls_methods d) s) as [id'|] eqn:Hown.
    + injection Hi as <-. by constructor.
    + eapply resolves_above; eauto.
Qed.

Section classes.
Context `{LawfulDataLayout}.
Variable legal : list byte → bool.
Variable module : ir_module.
Hypothesis supported : verify_supported_module legal module = Ok tt.
Notation index := (module_index module).
Hypothesis room : module_extent index module + 80 ≤ 2 ^ 64.
Variable st : lowered_classes.
Hypothesis built : build_class_layouts index = Ok st.

Lemma built_ok : maps_ok module st ∧ ∀ c, c ∈ mod_classes module →
  ∃ lc l, class_layouts_ st !! cls_id c = Some lc ∧ lc_value lc = c ∧ lineage index c l ∧ laid_out index l lc.
Proof.
  destruct (build_class_layouts_ok legal module supported room) as [(st' & Hst' & H1 & _ & H2)|[Hno _]]; [|congruence].
  assert (st' = st) as -> by congruence. by split.
Qed.

Lemma subclass_layouts c d : c ∈ mod_classes module → d ∈ mod_classes module → rtc (base_of index) (cls_id d) (cls_id c) →
  ∃ lc ld l more, class_layouts_ st !! cls_id c = Some lc ∧ class_layouts_ st !! cls_id d = Some ld ∧
    lineage index c l ∧ lineage index d (l ++ more) ∧ laid_out index l lc ∧ laid_out index (l ++ more) ld.
Proof.
  intros Hc Hd Hr. destruct built_ok as [_ Hall].
  destruct (Hall c Hc) as (lc & l & Hlc & _ & Hl & Ho). destruct (Hall d Hd) as (ld & l' & Hld & _ & Hl' & Ho').
  destruct (subclass_lineage legal module supported c d l l' Hc Hd Hl Hl' Hr) as [more ->].
  by exists lc, ld, l, more.
Qed.

(** A field of a class lies in the objects of its subclasses where [field_offset] says. *)
Lemma field_everywhere c d f :
  c ∈ mod_classes module → d ∈ mod_classes module → rtc (base_of index) (cls_id d) (cls_id c) → f ∈ cls_fields c →
  ∃ ld offset, layout_for_class st (cls_id d) = Ok ld ∧ field_offset st (fld_id f) = Ok offset ∧
    mk_lowered_field f offset ∈ lc_fields ld.
Proof.
  intros Hc Hd Hr Hf. destruct (subclass_layouts c d Hc Hd Hr) as (lc & ld & l & more & Hlc & Hld & Hl & Hlm & Ho & Ho').
  assert (f ∈ all_fields (l ++ more)) as Hin.
  { rewrite all_fields_app. apply elem_of_app. left. destruct Hl as [c Hn|c b' ? l Hb _ _].
    - by rewrite all_fields_single.
    - rewrite all_fields_app, all_fields_single. apply elem_of_app. by right. }
  rewrite <-(place_fields_values index 0), <-(lo_fields _ _ _ Ho') in Hin. apply list_elem_of_fmap in Hin as ([f' offset] & -> & Hin).
  exists ld, offset. split_and!; [unfold layout_for_class, at_symbol; by rewrite Hld| |done].
  unfold field_offset, field_layout, at_symbol.
  by rewrite (mo_fields _ _ (proj1 built_ok) _ _ _ Hld Hin).
Qed.

Lemma class_places d ld : d ∈ mod_classes module → layout_for_class st (cls_id d) = Ok ld →
  lc_payload_size ld mod lc_payload_alignment ld = 0 ∧ lc_payload_alignment ld ∈ [1; 2; 4; 8; 16] ∧
  (∀ item, item ∈ lc_fields ld → ∃ size alignment,
     storage_size index (fld_value_type (lf_value item)) = Ok size ∧
     storage_alignment index (fld_value_type (lf_value item)) = Ok alignment ∧
     (alignment | lf_offset item) ∧ alignment ≤ lc_payload_alignment ld ∧
     sizeof_object_header ≤ lf_offset item ∧ lf_offset item + size ≤ sizeof_object_header + lc_payload_size ld) ∧
  ∀ i j a b, lc_fields ld !! i = Some a → lc_fields ld !! j = Some b → (i < j)%nat →
    ∃ size, storage_size index (fld_value_type (lf_value a)) = Ok size ∧ lf_offset a + size ≤ lf_offset b.
Proof.
  intros Hd Hld. destruct built_ok as [_ Hall]. destruct (Hall d Hd) as (ld' & l & Hld' & _ & Hl & Ho).
  unfold layout_for_class, at_symbol in Hld. rewrite Hld' in Hld. injection Hld as ->.
  pose proof (lineage_storable legal module supported d l Hl Hd) as Hs.
  destruct (alignment_power index (all_fields l) 1 0 Hs eq_refl) as (k & Hk & Ha); [done|].
  assert (lc_payload_alignment ld = 2 ^ k) as Hal by (rewrite (lo_alignment _ _ _ Ho); exact Ha).
  rewrite (lo_size _ _ _ Ho), (lo_fields _ _ _ Ho), <-(lo_alignment _ _ _ Ho), Hal.
  assert (0 < 2 ^ k) as Hpos by (pose proof (N.pow_nonzero 2 k); lia).
  pose proof (align_to_spec (content_of index (all_fields l)) (2 ^ k) Hpos) as (H1 & _ & H3).
  split_and!.
  - by apply N.Lcm0.mod_divide.
  - apply small_power in Hk as [->|[->|[->|[->| ->]]]]; vm_compute; find_pair.
  - intros item Hin. destruct (place_fields_inside index _ _ _ Hs Hin) as (G1 & G2 & G3 & G4).
    destruct (storable_align index _ G4) as (E1 & E2 & _). exists (field_size index (lf_value item)), (field_align index (lf_value item)).
    split_and!; [done..| |lia|]; [|fold (content_of index (all_fields l)) in G2; lia].
    rewrite <-Hal, (lo_alignment _ _ _ Ho). unfold alignment_of.
    assert (lf_value item ∈ all_fields l) as Hv by (rewrite <-(place_fields_values index 0); by apply list_elem_of_fmap_2).
    revert Hv. clear. intros Hv. assert (∀ items a, lf_value item ∈ items ∨ field_align index (lf_value item) ≤ a →
      field_align index (lf_value item) ≤ fold_left (λ a item, N.max a (field_align index item)) items a) as Hmax; [|by apply Hmax; left].
    intros items. induction items as [|x items IH]; intros a [Hx|Hx]; simpl; [by apply elem_of_nil in Hx|done| |].
    + apply IH. apply elem_of_cons in Hx as [<-|Hx]; [right; lia|by left].
    + apply IH. right. lia.
  - intros i j a b Hi Hj Hij. pose proof (place_fields_ordered index _ 0 i j a b Hs Hi Hj Hij) as Ho'.
    apply list_elem_of_lookup_2 in Hi. destruct (place_fields_inside index _ _ _ Hs Hi) as (_ & _ & _ & G4).
    destruct (storable_align index _ G4) as (E1 & _). by exists (field_size index (lf_value a)).
Qed.

(** The entry of a slot in the method table of a class. *)
Lemma table_entry d ld s i :
  d ∈ mod_classes module → layout_for_class st (cls_id d) = Ok ld → lc_dispatch_slots ld !! s = Some i →
  dispatch_slot_index st s = Ok i ∧ ∃ id f, resolves index d s id ∧ find_function index id = Some f ∧
    lc_virtual_methods ld !! N.to_nat i = Some f.
Proof.
  intros Hd Hld Hs. destruct built_ok as [Hst Hall]. destruct (Hall d Hd) as (ld' & l & Hld' & _ & Hl & Ho).
  unfold layout_for_class, at_symbol in Hld. rewrite Hld' in Hld. injection Hld as ->. split.
  - unfold dispatch_slot_index, at_symbol. by rewrite (mo_slots _ _ Hst _ _ _ _ Hld' Hs).
  - apply (mlo_slots _ _ _ _ (lo_methods _ _ _ Ho)) in Hs.
    destruct (mlo_methods _ _ _ _ (lo_methods _ _ _ Ho) _ _ Hs) as (id & f & H1 & H2 & H3). exists id, f.
    split_and!; [by eapply implementation_resolves|done..].
Qed.

(** A slot a base has keeps its place. *)
Lemma slot_inherited c d s i lc :
  c ∈ mod_classes module → d ∈ mod_classes module → rtc (base_of index) (cls_id d) (cls_id c) →
  layout_for_class st (cls_id c) = Ok lc → lc_dispatch_slots lc !! s = Some i →
  ∃ ld, layout_for_class st (cls_id d) = Ok ld ∧ lc_dispatch_slots ld !! s = Some i.
Proof.
  intros Hc Hd Hr Hlc Hs. destruct (subclass_layouts c d Hc Hd Hr) as (lc' & ld & l & more & Hlc' & Hld & Hl & Hlm & Ho & Ho').
  unfold layout_for_class, at_symbol in *. rewrite Hlc' in Hlc. injection Hlc as ->. exists ld. rewrite Hld. split; [done|].
  apply (mlo_slots _ _ _ _ (lo_methods _ _ _ Ho')), (prefix_lookup_Some (slots_of_methods (all_methods l))).
  - by apply (mlo_slots _ _ _ _ (lo_methods _ _ _ Ho)).
  - rewrite all_methods_app. apply slots_prefix.
Qed.
End classes.

(** ** A data layout *)

(** The natural layout of x86-64 and AArch64: every scalar is aligned to its size. *)
Section natural.
Definition natural_scalar (bits : N) : N := if bits <=? 8 then 1 else if bits <=? 16 then 2 else if bits <=? 32 then 4 else 8.

Fixpoint natural_align (t : llvm_type) : N :=
  match t with
  | IntegerType bits => natural_scalar bits
  | FloatType => 4
  | DoubleType | PointerType => 8
  | ArrayType element _ => natural_align element
  | StructType elements => foldr (λ e a, N.max (natural_align e) a) 1 elements
  end.

Fixpoint natural_size (t : llvm_type) : N :=
  match t with
  | IntegerType bits => natural_scalar bits * ((bits + 8 * natural_scalar bits - 1) / (8 * natural_scalar bits))
  | FloatType => 4
  | DoubleType | PointerType => 8
  | ArrayType element count => natural_size element * count
  | StructType elements =>
      align_to (fold_left (λ n p, align_to n p.1 + p.2) (map (λ e, (natural_align e, natural_size e)) elements) 0)
        (natural_align t)
  end.
End natural.

#[local] Instance natural_layout : DataLayout := {| type_alloc_size := natural_size; abi_type_align := natural_align |}.

Lemma natural_scalar_power bits : ∃ k, k ≤ 4 ∧ natural_scalar bits = 2 ^ k.
Proof. unfold natural_scalar. repeat case_match; [by exists 0|by exists 1|by exists 2|by exists 3]. Qed.

Lemma natural_power t : ∃ k, k ≤ 4 ∧ natural_align t = 2 ^ k.
Proof.
  revert t. fix IH 1. intros [bits| | | |e n|es]; simpl; [apply natural_scalar_power|by exists 2|by exists 3|by exists 3|apply IH|].
  induction es as [|e es IHes]; [by exists 0|]. simpl. destruct (IH e) as (k & Hk & ->), IHes as (k' & Hk' & ->).
  destruct (N.max_spec_le (2 ^ k) (2 ^ k')) as [[_ ->]|[_ ->]]; [by exists k'|by exists k].
Qed.

#[local] Instance natural_lawful : LawfulDataLayout.
Proof.
  constructor; simpl; try done.
  - apply natural_power.
  - fix IH 1. intros [bits| | | |e n|es]; cbn [natural_size natural_align]; [apply N.divide_factor_l|by exists 1|by exists 1|by exists 1| |].
    + apply N.divide_mul_l, IH.
    + change (foldr _ 1 es) with (natural_align (StructType es)).
      destruct (natural_power (StructType es)) as (k & _ & Hk). apply align_to_spec. rewrite Hk. pose proof (N.pow_nonzero 2 k). lia.
  - intros [bits| | | |e n|[|[bits| | | | |] es]]; cbn [takes_room natural_size]; try done.
    + intros Hb%N.ltb_lt. destruct (natural_scalar_power bits) as (k & _ & Hk). rewrite Hk.
      pose proof (N.pow_nonzero 2 k ltac:(done)). apply N.mul_pos_pos; [lia|]. apply N.div_str_pos. lia.
    + intros Hb%N.ltb_lt. destruct (natural_power (StructType (IntegerType bits :: es))) as (k & _ & Hk).
      pose proof (N.pow_nonzero 2 k ltac:(done)).
      apply N.lt_le_trans with (fold_left (λ n p, align_to n p.1 + p.2) (map (λ e, (natural_align e, natural_size e)) (IntegerType bits :: es)) 0);
        [|apply align_to_spec; rewrite Hk; lia].
      assert (∀ l n, 0 < n → 0 < fold_left (λ n p, align_to n p.1 + p.2) (map (λ e, (natural_align e, natural_size e)) l) n) as Hmono.
      { induction l as [|e l IHl]; intros n Hn; simpl; [done|]. apply IHl. destruct (natural_power e) as (k' & _ & Hk').
        pose proof (N.pow_nonzero 2 k' ltac:(done)). pose proof (align_to_spec n (natural_align e) ltac:(lia)). lia. }
      simpl. apply Hmono. destruct (natural_scalar_power bits) as (k' & _ & Hk'). rewrite Hk'.
      pose proof (N.pow_nonzero 2 k' ltac:(done)). enough (0 < 2 ^ k' * ((bits + 8 * 2 ^ k' - 1) / (8 * 2 ^ k'))) by lia.
      apply N.mul_pos_pos; [lia|]. apply N.div_str_pos. lia.
Defined.

(** ** Properties *)

(** C12: Every class of an accepted module, if its objects fit the address space, has a layout in which each field is aligned as its
    physical type asks, lies behind the header and inside the payload, and ends before the
    next one begins; the payload is a multiple of its alignment, a power of two no field
    exceeds.  The layouts are refused exactly when two classes disagree on a dispatch slot. *)
Theorem class_layouts_sound `{LawfulDataLayout} legal module :
  verify_supported_module legal module = Ok tt → module_extent (module_index module) module + 80 ≤ 2 ^ 64 →
  (∃ st, build_class_layouts (module_index module) = Ok st ∧ coherent_slots module ∧
     ∀ d, d ∈ mod_classes module → ∃ ld, layout_for_class st (cls_id d) = Ok ld ∧
       lc_payload_size ld mod lc_payload_alignment ld = 0 ∧ lc_payload_alignment ld ∈ [1; 2; 4; 8; 16] ∧
       (∀ item, item ∈ lc_fields ld → ∃ size alignment,
          storage_size (module_index module) (fld_value_type (lf_value item)) = Ok size ∧
          storage_alignment (module_index module) (fld_value_type (lf_value item)) = Ok alignment ∧
          (alignment | lf_offset item) ∧ alignment ≤ lc_payload_alignment ld ∧
          sizeof_object_header ≤ lf_offset item ∧ lf_offset item + size ≤ sizeof_object_header + lc_payload_size ld) ∧
       ∀ i j a b, lc_fields ld !! i = Some a → lc_fields ld !! j = Some b → (i < j)%nat →
         ∃ size, storage_size (module_index module) (fld_value_type (lf_value a)) = Ok size ∧ lf_offset a + size ≤ lf_offset b) ∨
  build_class_layouts (module_index module) = Throw slot_changed ∧ ¬ coherent_slots module.
Proof.
  intros Hm Hroom. destruct (build_class_layouts_ok legal module Hm Hroom) as [(st & Hst & _ & Hc & Hall)|Hno]; [left|by right].
  exists st. split_and!; [done..|]. intros d Hd. destruct (Hall d Hd) as (ld & l & Hld & _).
  assert (layout_for_class st (cls_id d) = Ok ld) as Hlay by (unfold layout_for_class, at_symbol; by rewrite Hld).
  exists ld. split; [done|]. by apply (class_places legal module Hm Hroom st Hst d ld).
Qed.

(** C13: Field accesses reach the field: a field a class declares lies in the objects of each of
    its subclasses at the offset the compiled access uses, whatever the static type of the
    access, and inside the object that is allocated for the subclass. *)
Theorem field_access_sound `{LawfulDataLayout} legal module st c d f :
  verify_supported_module legal module = Ok tt → module_extent (module_index module) module + 80 ≤ 2 ^ 64 →
  build_class_layouts (module_index module) = Ok st →
  c ∈ mod_classes module → d ∈ mod_classes module → f ∈ cls_fields c →
  is_same_or_base (module_index module) (cls_id d) (cls_id c) = true →
  ∃ ld offset size, layout_for_class st (cls_id d) = Ok ld ∧ field_offset st (fld_id f) = Ok offset ∧
    mk_lowered_field f offset ∈ lc_fields ld ∧ storage_size (module_index module) (fld_value_type f) = Ok size ∧
    sizeof_object_header ≤ offset ∧ offset + size ≤ sizeof_object_header + lc_payload_size ld.
Proof.
  intros Hm Hroom Hst Hc Hd Hf Hsub. apply is_same_or_base_rtc in Hsub; [|apply _].
  destruct (field_everywhere legal module Hm Hroom st Hst c d f Hc Hd Hsub Hf) as (ld & offset & Hld & Ho & Hin).
  destruct (class_places legal module Hm Hroom st Hst d ld Hd Hld) as (_ & _ & Hall & _).
  destruct (Hall _ Hin) as (size & _ & Hsz & _ & _ & _ & H1 & H2). by exists ld, offset, size.
Qed.

(** C14: Virtual calls reach the nearest implementation: when a class has a dispatch slot, the
    method tables of all its subclasses hold at the one index compiled calls use the function
    of the nearest class, going up from the subclass, that has an entry for the slot. *)
Theorem virtual_dispatch_sound `{LawfulDataLayout} legal module st c d lc s i :
  verify_supported_module legal module = Ok tt → module_extent (module_index module) module + 80 ≤ 2 ^ 64 →
  build_class_layouts (module_index module) = Ok st →
  c ∈ mod_classes module → d ∈ mod_classes module → is_same_or_base (module_index module) (cls_id d) (cls_id c) = true →
  layout_for_class st (cls_id c) = Ok lc → lc_dispatch_slots lc !! s = Some i →
  dispatch_slot_index st s = Ok i ∧ ∃ ld id f, layout_for_class st (cls_id d) = Ok ld ∧
    resolves (module_index module) d s id ∧ find_function (module_index module) id = Some f ∧
    lc_virtual_methods ld !! N.to_nat i = Some f.
Proof.
  intros Hm Hroom Hst Hc Hd Hsub Hlc Hs. apply is_same_or_base_rtc in Hsub; [|apply _].
  destruct (slot_inherited legal module Hm Hroom st Hst c d s i lc Hc Hd Hsub Hlc Hs) as (ld & Hld & Hs').
  destruct (table_entry legal module Hm Hroom st Hst d ld s i Hd Hld Hs') as (Hi & id & f & H1 & H2 & H3).
  split; [done|]. by exists ld, id, f.
Qed.

(** ** The sample program: a derived class overrides the method of its base *)

Lemma sample_supported : verify_supported_module (λ _, true) Sample.app = Ok tt.
Proof. vm_compute. reflexivity. Qed.

Lemma class_layouts_sound_witness :
  (∃ st, build_class_layouts (module_index Sample.app) = Ok st) ∨ build_class_layouts (module_index Sample.app) = Throw slot_changed.
Proof.
  destruct (class_layouts_sound (λ _, true) Sample.app) as [(st & Hst & _)|[Hno _]];
    [vm_compute; reflexivity|vm_compute; discriminate|left; exists st; exact Hst|right; exact Hno].
Defined.

Definition sample_layouts : lowered_classes := default no_classes (match build_class_layouts (module_index Sample.app) with Ok st => Some st | _ => None end).

Definition sample_base : class_declaration := nth 0 Sample.classes (mk_class Sample.base_class None NERI_IR_ACCESS_PUBLIC_V1 false [] [] None).
Definition sample_derived : class_declaration := nth 1 Sample.classes sample_base.
Definition sample_count : field := nth 0 (cls_fields sample_base) (mk_field Sample.count_field Sample.int NERI_IR_ACCESS_PUBLIC_V1 None).

Lemma field_access_sound_witness : field_offset sample_layouts (fld_id sample_count) = Ok 16.
Proof.
  destruct (field_access_sound (λ _, true) Sample.app sample_layouts sample_base sample_derived sample_count)
    as (ld & offset & size & _ & Ho & _);
    [vm_compute; reflexivity|vm_compute; discriminate|vm_compute; reflexivity|find_pair|vm_compute; find_pair|vm_compute; find_pair|vm_compute; reflexivity|].
  rewrite Ho. vm_compute in Ho. symmetry. exact Ho.
Defined.

Lemma virtual_dispatch_sound_witness : dispatch_slot_index sample_layouts Sample.get_slot = Ok 0.
Proof.
  exact (proj1 (virtual_dispatch_sound (λ _, true) Sample.app sample_layouts sample_base sample_derived
    (default (inherit sample_base None) (class_layouts_ sample_layouts !! Sample.base_class)) Sample.get_slot 0
    ltac:(vm_compute; reflexivity) ltac:(vm_compute; discriminate) ltac:(vm_compute; reflexivity)
    ltac:(vm_compute; find_pair) ltac:(vm_compute; find_pair) ltac:(vm_compute; reflexivity)
    ltac:(vm_compute; reflexivity) ltac:(vm_compute; reflexivity))).
Defined.
