(* ===== verification/Chains.v ===== *)
(** * Intrusive lists

    A chain is a null-terminated list through the memory: [next a] is the pointer
    stored in the element at [a], [None] when nothing is mapped there.  The runtime
    keeps its slabs, large objects, root frames, borrows and foreign entries in such
    lists. *)

From S2P Require Import Prelude.

Local Open Scope list_scope.
Local Open Scope N_scope.

Fixpoint chain (next : N → option N) (head : N) (l : list N) : Prop :=
  match l with
  | [] => head = 0
  | a :: l => head = a ∧ a ≠ 0 ∧ ∃ n, next a = Some n ∧ chain next n l
  end.

Section chain.
Implicit Types (next : N → option N) (l : list N).

Lemma chain_ext next next' head l :
  (∀ a, a ∈ l → next a = next' a) → chain next head l → chain next' head l.
Proof.
  revert head. induction l as [|a l IH]; intros head Heq; simpl; [done|].
  intros (-> & Ha & n & Hn & Hl). split_and!; [done..|]. exists n.
  rewrite <-Heq by set_solver. split; [done|]. apply IH; set_solver.
Qed.

Lemma chain_head next head l : chain next head l → head = 0 ↔ l = [].
Proof. destruct l as [|a l]; simpl; [done|]. intros (-> & ? & _). by split. Qed.

Lemma chain_nonnull next head l a : chain next head l → a ∈ l → a ≠ 0.
Proof.
  revert head. induction l as [|b l IH]; intros head Hc Ha; [set_solver|].
  destruct Hc as (_ & ? & n & _ & Hl). apply elem_of_cons in Ha as [->|Ha]; eauto.
Qed.

Lemma chain_mapped next head l a : chain next head l → a ∈ l → is_Some (next a).
Proof.
  revert head. induction l as [|b l IH]; intros head Hc Ha; [set_solver|].
  destruct Hc as (_ & ? & n & ? & Hl). apply elem_of_cons in Ha as [->|Ha]; eauto.
Qed.

(** A chain is determined by its head. *)
Lemma chain_det next head l l' : chain next head l → chain next head l' → l = l'.
Proof.
  revert head l'. induction l as [|a l IH]; intros head l'.
  - intros H1 H2. simpl in H1. subst. by apply chain_head in H2 as [H2 _]; rewrite H2.
  - intros (-> & Ha & n & Hn & Hl) H2. destruct l' as [|b l']; [by simpl in H2; subst|].
    destruct H2 as (<- & _ & n' & Hn' & Hl'). simplify_eq. f_equal. eauto.
Qed.

Lemma chain_app next head l1 a l2 :
  chain next head (l1 ++ a :: l2) → chain next a (a :: l2).
Proof.
  revert head. induction l1 as [|b l1 IH]; intros head.
  - intros Hc. pose proof Hc as (Heq & _). by subst.
  - intros (_ & _ & n & _ & Hl). eauto.
Qed.

(** The pointer behind the prefix [l1]: the head, or the [next] of its last element. *)
Lemma chain_link next head l1 l2 :
  chain next head (l1 ++ l2) →
  ∃ p, chain next p l2 ∧ match last l1 with None => head = p | Some b => next b = Some p end.
Proof.
  revert head. induction l1 as [|b l1 IH]; intros head Hc; [by exists head|].
  destruct Hc as (-> & Hb & n & Hn & Hl). destruct (IH n Hl) as (p & Hp & Hlast).
  exists p. split; [done|]. rewrite last_cons. destruct (last l1); [done|]. by subst.
Qed.

(** Redirecting the pointer behind the prefix [l1] replaces what follows it. *)
Lemma chain_relink next next' head head' l1 l2 l3 p :
  chain next head (l1 ++ l2) → chain next' p l3 →
  match last l1 with
  | None => head' = p
  | Some b => head' = head ∧ next' b = Some p ∧ (∀ a, a ∈ l1 → a ≠ b → next' a = next a)
  end →
  NoDup l1 →
  chain next' head' (l1 ++ l3).
Proof.
  revert head head'. induction l1 as [|a l1 IH]; intros head head' Hc Hp Hlink Hnd;
    [by simpl in Hlink; subst|].
  destruct Hc as (-> & Ha & n & Hn & Hl). rewrite last_cons in Hlink.
  apply NoDup_cons in Hnd as [Hal Hnd]. destruct (last l1) as [b|] eqn:Hlast.
  - destruct Hlink as (-> & Hb & Hother). simpl. split_and!; [done..|]. exists n.
    assert (b ∈ l1) by by apply last_Some_elem_of.
    rewrite Hother by set_solver. split; [done|].
    eapply IH; [done..| |done]. split_and!; [done..|]. set_solver.
  - destruct Hlink as (-> & Hb & _). apply last_None in Hlast as ->. simpl.
    split_and!; [done..|]. eauto.
Qed.

Lemma chain_cons next a n l : a ≠ 0 → next a = Some n → chain next n l → chain next a (a :: l).
Proof. intros. simpl. eauto. Qed.
End chain.
