(* ===== verification/Storage.v ===== *)
(** * Managed storage ([native/runtime/managed_storage.h], [managed_storage.cpp])

    The nonmoving allocator under the garbage collector: 16 KiB slabs of equal
    slots for small objects, with their size and mark bits in a table at the front
    of the slab, and one host allocation per large object.  Memory is explicit:
    slabs, large allocations and object headers are found by address, and the
    intrusive lists of the source ([next], [available_next], the free slots) are
    pointers in it.  The model is of the build without AddressSanitizer.  The host
    allocator is a parameter. *)

From S2P Require Import Prelude.

Local Open Scope string_scope.
Local Open Scope list_scope.
Local Open Scope N_scope.

(** ** Layout constants *)

Definition allocated_bit : N := 1.
Definition marked_bit : N := 2.
Definition no_slot : N := u16_max.
Definition block_bytes : N := 16 * 1024.
Definition slot_bytes : list N := [16; 32; 48; 64; 128; 256].

(** [sizeof] of the structures, on 64-bit targets. *)
Definition sizeof_header : N := 16.
Definition sizeof_entry : N := 4.
Definition sizeof_slab : N := 48.
Definition sizeof_large : N := 32.

Definition u16 (n : N) : N := n mod 65536.
Definition u64 (n : N) : N := n mod (u64_max + 1).

(** [for (index = 0; index < n; ++index)]. *)
Definition indices (n : N) : list N := N.of_nat <$> seq 0 (N.to_nat n).

(** ** Memory *)

(** [bytes] is the next free index when [flags] is zero. *)
Record entry := mk_entry { en_bytes : N; en_flags : N }.

(** A slab with the entries of its table that have been written. *)
Record slab := mk_slab {
  sl_next : N;
  sl_available_next : N;
  sl_owner : N;
  sl_category : N;
  sl_capacity : N;
  sl_bump : N;
  sl_live : N;
  sl_free_slot : N;
  sl_object_offset : N;
  sl_entries : gmap N entry;
}.

Record large := mk_large {
  lg_next : N;
  lg_owner : N;
  lg_bytes : N;
  lg_marked : bool;
}.

(** An object: the header of [neri_object_header_v1] and the payload behind it. *)
Record object := mk_object {
  ob_type : N;
  ob_runtime_word : N;
  ob_payload : list byte;
}.

Record memory := mk_memory {
  m_slabs : gmap N slab;
  m_large : gmap N large;
  m_objects : gmap N object;
}.

Definition with_slabs (f : gmap N slab → gmap N slab) (m : memory) : memory :=
  mk_memory (f (m_slabs m)) (m_large m) (m_objects m).
Definition with_large (f : gmap N large → gmap N large) (m : memory) : memory :=
  mk_memory (m_slabs m) (f (m_large m)) (m_objects m).
Definition with_objects (f : gmap N object → gmap N object) (m : memory) : memory :=
  mk_memory (m_slabs m) (m_large m) (f (m_objects m)).

(** Dereferences; an unmapped address is undefined behaviour. *)
Definition load {A} (what : string) (o : option A) : result A :=
  match o with Some a => Ok a | None => Throw (undefined what) end.
Lemma load_Some {A} what (a : A) : load what (Some a) = Ok a.
Proof. done. Qed.

Definition load_slab (m : memory) (a : N) : result slab := load "slab" (m_slabs m !! a).
Definition load_large (m : memory) (a : N) : result large := load "large" (m_large m !! a).
Definition load_object (m : memory) (a : N) : result object := load "object" (m_objects m !! a).

Definition store_slab (a : N) (s : slab) : memory → memory := with_slabs <[a := s]>.
Definition store_large (a : N) (l : large) : memory → memory := with_large <[a := l]>.
Definition store_object (a : N) (o : object) : memory → memory := with_objects <[a := o]>.

(** A debug assertion; a failure is as bad as undefined behaviour. *)
Definition assert_that (b : bool) (what : string) : result unit := when (negb b) (undefined what).

Lemma assert_true what : assert_that true what = Ok tt.
Proof. done. Qed.

(** ** Field updates *)

Definition set_next (a : N) (s : slab) : slab :=
  mk_slab a (sl_available_next s) (sl_owner s) (sl_category s) (sl_capacity s) (sl_bump s) (sl_live s)
    (sl_free_slot s) (sl_object_offset s) (sl_entries s).
Definition set_available_next (a : N) (s : slab) : slab :=
  mk_slab (sl_next s) a (sl_owner s) (sl_category s) (sl_capacity s) (sl_bump s) (sl_live s)
    (sl_free_slot s) (sl_object_offset s) (sl_entries s).
Definition set_owner (a : N) (s : slab) : slab :=
  mk_slab (sl_next s) (sl_available_next s) a (sl_category s) (sl_capacity s) (sl_bump s) (sl_live s)
    (sl_free_slot s) (sl_object_offset s) (sl_entries s).

(** The fields a slot allocation or reclamation changes. *)
Definition set_slots (bump live free_slot : N) (entries : gmap N entry) (s : slab) : slab :=
  mk_slab (sl_next s) (sl_available_next s) (sl_owner s) (sl_category s) (sl_capacity s) bump live
    free_slot (sl_object_offset s) entries.
Definition set_entries (entries : gmap N entry) (s : slab) : slab :=
  set_slots (sl_bump s) (sl_live s) (sl_free_slot s) entries s.

Definition set_large_next (a : N) (l : large) : large :=
  mk_large a (lg_owner l) (lg_bytes l) (lg_marked l).
Definition set_large_owner (a : N) (l : large) : large :=
  mk_large (lg_next l) a (lg_bytes l) (lg_marked l).
Definition set_large_marked (b : bool) (l : large) : large :=
  mk_large (lg_next l) (lg_owner l) (lg_bytes l) b.

(** ** Geometry of a slab *)

Definition align_up16 (value : N) : N := N.ldiff (value + 15) 15.

Fixpoint size_class_from (index : N) (sizes : list N) (bytes : N) : N :=
  match sizes with
  | [] => index
  | size :: sizes => if bytes <=? size then index else size_class_from (index + 1) sizes bytes
  end.
Definition size_class (bytes : N) : N := size_class_from 0 slot_bytes bytes.

(** [slot_bytes[category]], out of range undefined. *)
Definition slot_stride (category : N) : N := default 0 (slot_bytes !! N.to_nat category).

Definition has_space (block : slab) : bool :=
  negb (sl_free_slot block =? no_slot) || (sl_bump block <? sl_capacity block).

(** The address of [entries(block)[index]]. *)
Definition entry_address (block index : N) : N := block + sizeof_slab + index * sizeof_entry.

Definition object_at (block : N) (s : slab) (index : N) : N :=
  block + sl_object_offset s + index * slot_stride (sl_category s).

Definition entries_end (capacity : N) : N := align_up16 (sizeof_slab + capacity * sizeof_entry).

(** [while (... > block_bytes) --capacity;] *)
Fixpoint shrink_capacity (category : N) (capacity : nat) : N :=
  if block_bytes <? entries_end (N.of_nat capacity) + N.of_nat capacity * slot_stride category then
    match capacity with O => 0 | S capacity => shrink_capacity category capacity end
  else N.of_nat capacity.

Definition slab_capacity (category : N) : N :=
  shrink_capacity category
    (N.to_nat ((block_bytes - sizeof_slab) / (sizeof_entry + slot_stride category))).

(** ** Metadata of an object *)

Definition block_of (metadata : N) : N := N.ldiff metadata (block_bytes - 1).
Definition small_metadata (o : object) : N := N.ldiff (ob_runtime_word o) 1.
Definition is_small (o : object) : bool := negb (N.land (ob_runtime_word o) 1 =? 0).

(** The slab and index an entry's address stands for. *)
Definition entry_index (metadata : N) : N :=
  (metadata - block_of metadata - sizeof_slab) / sizeof_entry.

Definition load_entry (m : memory) (metadata : N) : result (slab * entry) :=
  s ← load_slab m (block_of metadata);
  assert_that (entry_address (block_of metadata) (entry_index metadata) =? metadata) "entry address";;
  e ← load "entry" (sl_entries s !! entry_index metadata);
  Ok (s, e).

Definition is_allocated (e : entry) : bool := negb (N.land (en_flags e) allocated_bit =? 0).
Definition is_marked (e : entry) : bool := negb (N.land (en_flags e) marked_bit =? 0).

(** [managed_storage::owner]; zero is the null pointer. *)
Definition owner (m : memory) (object : N) : result N :=
  if object =? 0 then Ok 0
  else
    o ← load_object m object;
    if ob_runtime_word o =? 0 then Ok 0
    else if is_small o then
      '(s, e) ← load_entry m (small_metadata o);
      let address := block_of (small_metadata o) + N.shiftr (en_flags e) 2 * 16 in
      Ok (if is_allocated e && (address =? object) then sl_owner s else 0)
    else
      l ← load_large m (ob_runtime_word o);
      Ok (if ob_runtime_word o + sizeof_large =? object then lg_owner l else 0).

Definition size (m : memory) (object : N) : result N :=
  o ← load_object m object;
  if is_small o then '(_, e) ← load_entry m (small_metadata o); Ok (en_bytes e)
  else l ← load_large m (ob_runtime_word o); Ok (lg_bytes l).

(** [mark] returns true only on the first mark in a collection. *)
Definition mark (m : memory) (object : N) : result (bool * memory) :=
  o ← load_object m object;
  if is_small o then
    let metadata := small_metadata o in
    '(s, e) ← load_entry m metadata;
    let marked := mk_entry (en_bytes e) (N.lor (en_flags e) marked_bit) in
    Ok (negb (is_marked e),
        store_slab (block_of metadata) (set_entries (<[entry_index metadata := marked]> (sl_entries s)) s) m)
  else
    l ← load_large m (ob_runtime_word o);
    Ok (negb (lg_marked l), store_large (ob_runtime_word o) (set_large_marked true l) m).

Definition marked (m : memory) (object : N) : result bool :=
  o ← load_object m object;
  if is_small o then '(_, e) ← load_entry m (small_metadata o); Ok (is_marked e)
  else l ← load_large m (ob_runtime_word o); Ok (lg_marked l).

(** ** The storage *)

Record managed_storage := mk_storage {
  blocks_ : N;
  large_ : N;
  available_ : list N;
}.

Definition no_available : list N := replicate (length slot_bytes) 0.
Definition empty_storage : managed_storage := mk_storage 0 0 no_available.

Definition set_blocks (a : N) (st : managed_storage) : managed_storage :=
  mk_storage a (large_ st) (available_ st).
Definition set_large (a : N) (st : managed_storage) : managed_storage :=
  mk_storage (blocks_ st) a (available_ st).
Definition set_available (category a : N) (st : managed_storage) : managed_storage :=
  mk_storage (blocks_ st) (large_ st) (<[N.to_nat category := a]> (available_ st)).
Definition available (st : managed_storage) (category : N) : result N :=
  load "available_" (available_ st !! N.to_nat category).

(** An object whose raw bytes, header included, are [raw]. *)
Definition object_of_bytes (raw : list byte) (word : N) : object :=
  mk_object (le_combine (take 8 raw)) word (drop (N.to_nat sizeof_header) raw).

Definition zeros (bytes : N) : list byte := replicate (N.to_nat bytes) x00.

(** The host allocator: [platform::allocate(block_bytes, block_bytes, false)] and
    [std::malloc]/[std::calloc], null when they fail, and what storage that is not
    cleared contains. *)
Class HostMemory := {
  allocate_block : memory → N;
  malloc : memory → N → N;
  residue : memory → N → N → list byte;
}.

Section allocation.
Context `{HostMemory}.

Definition initial_bytes (m : memory) (zeroed : bool) (address bytes : N) : list byte :=
  if zeroed then zeros bytes else residue m address bytes.

(** A large object; [None] is the null pointer. *)
Definition allocate_large (bytes owner : N) (zeroed : bool) (m : memory) (st : managed_storage)
    : option N * memory * managed_storage :=
  if u64_max - sizeof_large <? bytes then (None, m, st)
  else
    let metadata := malloc m (sizeof_large + bytes) in
    if metadata =? 0 then (None, m, st)
    else
      let object := metadata + sizeof_large in
      (Some object,
       store_object object (object_of_bytes (initial_bytes m zeroed object bytes) metadata)
         (store_large metadata (mk_large (large_ st) owner bytes false) m),
       set_large metadata st).

(** A slab with room for the category: the first available one or a new one. *)
Definition acquire_block (category owner : N) (m : memory) (st : managed_storage)
    : result (option N * memory * managed_storage) :=
  block ← available st category;
  if negb (block =? 0) then Ok (Some block, m, st)
  else
    let block := allocate_block m in
    if block =? 0 then Ok (None, m, st)
    else
      let capacity := slab_capacity category in
      let s := mk_slab (blocks_ st) 0 owner category (u16 capacity) 0 0 no_slot (entries_end capacity) ∅ in
      Ok (Some block, store_slab block s m, set_available category block (set_blocks block st)).

Definition object_flags (s : slab) (index : N) : N :=
  u16 (N.lor allocated_bit
         (N.shiftl ((sl_object_offset s + index * slot_stride (sl_category s)) / 16) 2)).

(** Takes a slot of the slab: the head of its free list, else the next unused one. *)
Definition take_slot (bytes : N) (s : slab) : result (N * slab) :=
  let reuse := negb (sl_free_slot s =? no_slot) in
  let index := if reuse then sl_free_slot s else sl_bump s in
  let bump := if reuse then sl_bump s else u16 (sl_bump s + 1) in
  free_slot ← (if reuse then e ← load "entry" (sl_entries s !! index); Ok (en_bytes e)
               else Ok (sl_free_slot s));
  Ok (index, set_slots bump (u16 (sl_live s + 1)) free_slot
               (<[index := mk_entry (u16 bytes) (object_flags s index)]> (sl_entries s)) s).

Definition allocate (bytes owner : N) (zeroed : bool) (m : memory) (st : managed_storage)
    : result (option N * memory * managed_storage) :=
  assert_that ((sizeof_header <=? bytes) && negb (owner =? 0)) "allocate";;
  let category := size_class bytes in
  if category =? length_N slot_bytes then Ok (allocate_large bytes owner zeroed m st)
  else
    '(block, m, st) ← acquire_block category owner m st;
    match block with
    | None => Ok (None, m, st)
    | Some block =>
        s ← load_slab m block;
        assert_that (sl_owner s =? owner) "block owner";;
        '(index, s) ← take_slot bytes s;
        let full := negb (has_space s) in
        let st := if full then set_available category (sl_available_next s) st else st in
        let s := if full then set_available_next 0 s else s in
        let object := object_at block s index in
        let word := N.lor (entry_address block index) 1 in
        Ok (Some object,
            store_object object (object_of_bytes (initial_bytes m zeroed object bytes) word)
              (store_slab block s m),
            st)
    end.
End allocation.

(** ** Sweep *)

Definition inside (block address : N) : bool := (block <=? address) && (address <? block + block_bytes).

(** [free_block]: the slab and every header in it are gone. *)
Definition free_block (block : N) (m : memory) : memory :=
  with_objects (filter (λ p, inside block p.1 = false)) (with_slabs (delete block) m).

(** [std::free] of a large allocation. *)
Definition free_large (metadata : N) (m : memory) : memory :=
  with_objects (delete (metadata + sizeof_large)) (with_large (delete metadata) m).

(** One call of [visitor]. *)
Definition visited : Type := N * N.

(** One entry of a slab: an unmarked object goes on the free list and is reported,
    a marked one is kept with its mark cleared. *)
Definition sweep_entry (block : N) (index : N) (state : slab * list visited) : result (slab * list visited) :=
  let '(s, reclaimed) := state in
  e ← load "entry" (sl_entries s !! index);
  if negb (is_allocated e) then Ok state
  else if is_marked e then
    Ok (set_entries (<[index := mk_entry (en_bytes e) (N.ldiff (en_flags e) marked_bit)]> (sl_entries s)) s,
        reclaimed)
  else
    Ok (set_slots (sl_bump s) (u16 (sl_live s + 65535)) (u16 index)
          (<[index := mk_entry (sl_free_slot s) 0]> (sl_entries s)) s,
        reclaimed ++ [(object_at block s index, en_bytes e)]).

Definition sweep_slab (block : N) (s : slab) : result (slab * list visited) :=
  for_state (indices (sl_bump s)) (s, []) (sweep_entry block).

(** The loops hold the address of the pointer that leads to the current element:
    the head of the list or the [next] field of the element before. *)
Inductive link := at_head | after (a : N).

Definition read_block_link (m : memory) (st : managed_storage) (l : link) : result N :=
  match l with at_head => Ok (blocks_ st) | after a => s ← load_slab m a; Ok (sl_next s) end.
Definition write_block_link (l : link) (value : N) (m : memory) (st : managed_storage)
    : result (memory * managed_storage) :=
  match l with
  | at_head => Ok (m, set_blocks value st)
  | after a => s ← load_slab m a; Ok (store_slab a (set_next value s) m, st)
  end.

Definition read_large_link (m : memory) (st : managed_storage) (l : link) : result N :=
  match l with at_head => Ok (large_ st) | after a => g ← load_large m a; Ok (lg_next g) end.
Definition write_large_link (l : link) (value : N) (m : memory) (st : managed_storage)
    : result (memory * managed_storage) :=
  match l with
  | at_head => Ok (m, set_large value st)
  | after a => g ← load_large m a; Ok (store_large a (set_large_next value g) m, st)
  end.

Definition out_of_fuel {A} : result A := Throw (undefined "list does not end").

Fixpoint sweep_blocks (fuel : nat) (l : link) (m : memory) (st : managed_storage) (reclaimed : list visited)
    : result (memory * managed_storage * list visited) :=
  match fuel with
  | O => out_of_fuel
  | S fuel =>
      block ← read_block_link m st l;
      if block =? 0 then Ok (m, st, reclaimed)
      else
        s ← load_slab m block;
        '(s, freed) ← sweep_slab block s;
        let reclaimed := reclaimed ++ freed in
        if sl_live s =? 0 then
          '(m, st) ← write_block_link l (sl_next s) m st;
          sweep_blocks fuel l (free_block block m) st reclaimed
        else
          let s := set_available_next 0 s in
          '(s, st) ← (if has_space s then
                        head ← available st (sl_category s);
                        Ok (set_available_next head s, set_available (sl_category s) block st)
                      else Ok (s, st));
          sweep_blocks fuel (after block) (store_slab block s m) st reclaimed
  end.

Fixpoint sweep_large (fuel : nat) (l : link) (m : memory) (st : managed_storage) (reclaimed : list visited)
    : result (memory * managed_storage * list visited) :=
  match fuel with
  | O => out_of_fuel
  | S fuel =>
      metadata ← read_large_link m st l;
      if metadata =? 0 then Ok (m, st, reclaimed)
      else
        g ← load_large m metadata;
        if lg_marked g then
          sweep_large fuel (after metadata) (store_large metadata (set_large_marked false g) m) st reclaimed
        else
          '(m, st) ← write_large_link l (lg_next g) m st;
          sweep_large fuel l (free_large metadata m) st
            (reclaimed ++ [(metadata + sizeof_large, lg_bytes g)])
  end.

Definition list_fuel {A} (elements : gmap N A) : nat := S (stdpp.base.size elements).

(** The sweep reports the objects it reclaims, in order; the [reclaimed] totals of the
    source are their number and their bytes. *)
Definition sweep (m : memory) (st : managed_storage) : result (memory * managed_storage * list visited) :=
  let st := mk_storage (blocks_ st) (large_ st) no_available in
  '(m, st, reclaimed) ← sweep_blocks (list_fuel (m_slabs m)) at_head m st [];
  sweep_large (list_fuel (m_large m)) at_head m st reclaimed.

Definition reclaimed_objects (reclaimed : list visited) : N := u64 (length_N reclaimed).
Definition reclaimed_bytes (reclaimed : list visited) : N := u64 (foldr (λ v n, v.2 + n) 0 reclaimed).

(** ** Visit *)

Definition visit_slab (block : N) (s : slab) : result (list visited) :=
  for_state (indices (sl_bump s)) [] (λ index calls,
    e ← load "entry" (sl_entries s !! index);
    Ok (if is_allocated e then calls ++ [(object_at block s index, en_bytes e)] else calls)).

Fixpoint visit_blocks (fuel : nat) (m : memory) (block : N) : result (list visited) :=
  match fuel with
  | O => out_of_fuel
  | S fuel =>
      if block =? 0 then Ok []
      else
        s ← load_slab m block;
        calls ← visit_slab block s;
        rest ← visit_blocks fuel m (sl_next s);
        Ok (calls ++ rest)
  end.

Fixpoint visit_large (fuel : nat) (m : memory) (metadata : N) : result (list visited) :=
  match fuel with
  | O => out_of_fuel
  | S fuel =>
      if metadata =? 0 then Ok []
      else
        g ← load_large m metadata;
        rest ← visit_large fuel m (lg_next g);
        Ok ((metadata + sizeof_large, lg_bytes g) :: rest)
  end.

(** The calls of the visitor, in order. *)
Definition visit (m : memory) (st : managed_storage) : result (list visited) :=
  small ← visit_blocks (list_fuel (m_slabs m)) m (blocks_ st);
  big ← visit_large (list_fuel (m_large m)) m (large_ st);
  Ok (small ++ big).

(** ** Adoption and release *)

(** Walks to the last slab of a list, handing every slab to [new_owner] unless it is null. *)
Fixpoint adopt_blocks (fuel : nat) (tail new_owner : N) (m : memory) : result (N * memory) :=
  match fuel with
  | O => out_of_fuel
  | S fuel =>
      s ← load_slab m tail;
      let m := if new_owner =? 0 then m else store_slab tail (set_owner new_owner s) m in
      if sl_next s =? 0 then Ok (tail, m) else adopt_blocks fuel (sl_next s) new_owner m
  end.

Fixpoint adopt_large (fuel : nat) (tail new_owner : N) (m : memory) : result (N * memory) :=
  match fuel with
  | O => out_of_fuel
  | S fuel =>
      g ← load_large m tail;
      let m := if new_owner =? 0 then m else store_large tail (set_large_owner new_owner g) m in
      if lg_next g =? 0 then Ok (tail, m) else adopt_large fuel (lg_next g) new_owner m
  end.

Fixpoint last_available (fuel : nat) (tail : N) (m : memory) : result N :=
  match fuel with
  | O => out_of_fuel
  | S fuel =>
      s ← load_slab m tail;
      if sl_available_next s =? 0 then Ok tail else last_available fuel (sl_available_next s) m
  end.

(** One category of the loop over [available_]. *)
Definition adopt_available (category : N) (state : memory * managed_storage * managed_storage)
    : result (memory * managed_storage * managed_storage) :=
  let '(m, st, other) := state in
  head ← available other category;
  if head =? 0 then Ok state
  else
    tail ← last_available (list_fuel (m_slabs m)) head m;
    s ← load_slab m tail;
    mine ← available st category;
    Ok (store_slab tail (set_available_next mine s) m, set_available category head st,
        set_available category 0 other).

Definition adopt (m : memory) (st other : managed_storage) (new_owner : N)
    : result (memory * managed_storage * managed_storage) :=
  '(m, st, other) ←
    (if blocks_ other =? 0 then Ok (m, st, other)
     else
       '(tail, m) ← adopt_blocks (list_fuel (m_slabs m)) (blocks_ other) new_owner m;
       s ← load_slab m tail;
       Ok (store_slab tail (set_next (blocks_ st) s) m, set_blocks (blocks_ other) st, set_blocks 0 other));
  '(m, st, other) ←
    (if large_ other =? 0 then Ok (m, st, other)
     else
       '(tail, m) ← adopt_large (list_fuel (m_large m)) (large_ other) new_owner m;
       g ← load_large m tail;
       Ok (store_large tail (set_large_next (large_ st) g) m, set_large (large_ other) st, set_large 0 other));
  for_state (indices (length_N slot_bytes)) (m, st, other) adopt_available.

Fixpoint clear_blocks (fuel : nat) (m : memory) (st : managed_storage) : result (memory * managed_storage) :=
  match fuel with
  | O => out_of_fuel
  | S fuel =>
      if blocks_ st =? 0 then Ok (m, st)
      else
        s ← load_slab m (blocks_ st);
        clear_blocks fuel (free_block (blocks_ st) m) (set_blocks (sl_next s) st)
  end.

Fixpoint clear_large (fuel : nat) (m : memory) (st : managed_storage) : result (memory * managed_storage) :=
  match fuel with
  | O => out_of_fuel
  | S fuel =>
      if large_ st =? 0 then Ok (m, st)
      else
        g ← load_large m (large_ st);
        clear_large fuel (free_large (large_ st) m) (set_large (lg_next g) st)
  end.

Definition clear (m : memory) (st : managed_storage) : result (memory * managed_storage) :=
  '(m, st) ← clear_blocks (list_fuel (m_slabs m)) m st;
  '(m, st) ← clear_large (list_fuel (m_large m)) m st;
  Ok (m, mk_storage (blocks_ st) (large_ st) no_available).
