(* ===== verification/Slabs.v ===== *)
(** * One slab

    The invariant of a slab (its table of entries, its free list, its counter of live
    slots) and what taking a slot and sweeping do to the slots in use. *)

From S2P Require Import Prelude Chains Storage.

Local Open Scope list_scope.
Local Open Scope N_scope.

(** [lia] sees through division and remainder in this file. *)
Ltac Zify.zify_post_hook ::= Z.to_euclidean_division_equations.

(** ** Geometry *)

Definition categories : N := length_N slot_bytes.

Lemma category_cases (P : N → Prop) :
  P 0 → P 1 → P 2 → P 3 → P 4 → P 5 → ∀ category, category < categories → P category.
Proof.
  intros P0 P1 P2 P3 P4 P5 c Hc. change categories with 6 in Hc.
  assert (c = 0 ∨ c = 1 ∨ c = 2 ∨ c = 3 ∨ c = 4 ∨ c = 5) as Hcase by lia.
  by destruct Hcase as [->|[->|[->|[->|[->| ->]]]]].
Qed.

(** The slots of a slab are aligned, follow the table and fit in the block. *)
Lemma slab_geometry category :
  category < categories →
  16 ≤ slot_stride category ≤ 256 ∧ slot_stride category mod 16 = 0 ∧
  2 ≤ slab_capacity category < no_slot ∧
  entries_end (slab_capacity category) mod 16 = 0 ∧
  sizeof_slab + slab_capacity category * sizeof_entry ≤ entries_end (slab_capacity category) ∧
  entries_end (slab_capacity category) + slab_capacity category * slot_stride category ≤ block_bytes.
Proof.
  revert category. apply category_cases; vm_compute; split_and!; congruence.
Qed.

(** The category of a size is the first whose slots hold it. *)
Lemma size_class_spec bytes :
  (size_class bytes < categories ∧ bytes ≤ slot_stride (size_class bytes)) ∨
  (size_class bytes = categories ∧ 256 < bytes).
Proof.
  change categories with 6. unfold size_class, slot_bytes, size_class_from.
  repeat (case N.leb_spec; intros ?; [left; by split|]). right. split; [done|]. lia.
Qed.

Lemma u16_small n : n < 65536 → u16 n = n.
Proof. apply N.mod_small. Qed.

(** ** Entries *)

(** The flags of an allocated slot: bit 0, the mark, and the offset in units of 16. *)
Definition flags_of (offset : N) (is_marked : bool) : N :=
  N.lor (if is_marked then 3 else 1) (N.shiftl offset 2).

Lemma low_bits offset low i :
  low < 4 →
  N.testbit (N.lor low (N.shiftl offset 2)) i =
  if i <? 2 then N.testbit low i else N.testbit offset (i - 2).
Proof.
  intros Hlow. rewrite N.lor_spec. case N.ltb_spec; intros Hi.
  - rewrite N.shiftl_spec_low by done. apply orb_false_r.
  - rewrite N.shiftl_spec_high' by done.
    assert (N.testbit low i = false) as ->; [|done].
    rewrite N.testbit_eqb, N.div_small; [done|].
    eapply N.lt_le_trans; [exact Hlow|]. change 4 with (2 ^ 2). by apply N.pow_le_mono_r.
Qed.

Lemma flags_of_bits offset b :
  N.land (flags_of offset b) allocated_bit = 1 ∧
  N.land (flags_of offset b) marked_bit = (if b then 2 else 0) ∧
  N.shiftr (flags_of offset b) 2 = offset ∧
  N.lor (flags_of offset b) marked_bit = flags_of offset true ∧
  N.ldiff (flags_of offset b) marked_bit = flags_of offset false.
Proof.
  assert ((if b then 3 else 1) < 4) as Hlow by by destruct b.
  assert (∀ c i, c < 4 → 2 ≤ i → N.testbit c i = false) as Hsmall.
  { intros c i Hc Hi. pose proof (low_bits 0 c i Hc) as H. rewrite N.shiftl_0_l, N.lor_0_r in H.
    rewrite H. case N.ltb_spec; [lia|]. by rewrite N.bits_0. }
  unfold flags_of, allocated_bit, marked_bit.
  split_and!; apply N.bits_inj; intros i;
    rewrite ?N.land_spec, ?N.ldiff_spec, ?(N.lor_spec _ 2), ?N.shiftr_spec', ?low_bits by done.
  3: { case N.ltb_spec; [lia|]. intros _. f_equal. lia. }
  all: case N.ltb_spec; intros Hi;
    [assert (i = 0 ∨ i = 1) as [-> | ->] by lia; by destruct b|].
  all: rewrite ?(Hsmall 1), ?(Hsmall 2) by done; rewrite ?andb_false_r, ?orb_false_r, ?andb_true_r; try done.
  by destruct b; rewrite Hsmall.
Qed.

Lemma flags_of_u16 offset b : offset < 1024 → u16 (flags_of offset b) = flags_of offset b.
Proof.
  intros Ho. unfold u16. apply N.mod_small. unfold flags_of.
  assert (N.lor (if b then 3 else 1) (N.shiftl offset 2) < 2 ^ 16) as H; [|done].
  destruct (N.eq_dec offset 0) as [->|]; [by destruct b|].
  apply N.log2_lt_pow2; [by destruct b, offset|]. rewrite N.log2_lor.
  rewrite N.log2_shiftl by done. change 1024 with (2 ^ 10) in Ho.
  apply N.log2_lt_pow2 in Ho; [|lia]. destruct b; simpl; lia.
Qed.

(** The offset of a slot in units of 16, as the flags hold it. *)
Definition slot_offset (s : slab) (index : N) : N :=
  (sl_object_offset s + index * slot_stride (sl_category s)) / 16.

(** An entry in use, or free. *)
Definition entry_ok (s : slab) (index : N) (e : entry) : Prop :=
  en_flags e = 0 ∨
  (∃ b, en_flags e = flags_of (slot_offset s index) b) ∧
  sizeof_header ≤ en_bytes e ≤ slot_stride (sl_category s).

(** The slot of an index: its size and mark when it is in use. *)
Definition slot (s : slab) (index : N) : option (N * bool) :=
  e ← sl_entries s !! index;
  if is_allocated e then Some (en_bytes e, is_marked e) else None.

Fixpoint free_list (entries : gmap N entry) (head : N) (l : list N) : Prop :=
  match l with
  | [] => head = no_slot
  | i :: l => head = i ∧ i ≠ no_slot ∧ ∃ e, entries !! i = Some e ∧ free_list entries (en_bytes e) l
  end.

Definition used_slots (s : slab) : list N := filter (λ i, is_Some (slot s i)) (indices (sl_bump s)).

Record slab_ok (block : N) (s : slab) : Prop := {
  slab_aligned : block mod block_bytes = 0;
  slab_nonnull : block ≠ 0;
  slab_category : sl_category s < categories;
  slab_full : sl_capacity s = slab_capacity (sl_category s);
  slab_offset : sl_object_offset s = entries_end (slab_capacity (sl_category s));
  slab_bump : sl_bump s ≤ sl_capacity s;
  slab_written : ∀ i, is_Some (sl_entries s !! i) ↔ i < sl_bump s;
  slab_entries : ∀ i e, sl_entries s !! i = Some e → entry_ok s i e;
  slab_free : ∃ l, free_list (sl_entries s) (sl_free_slot s) l ∧ NoDup l ∧
    ∀ i, i ∈ l ↔ i < sl_bump s ∧ slot s i = None;
  slab_live : sl_live s = length_N (used_slots s);
}.

(** ** Facts of a slab *)

Lemma elem_of_indices i n : i ∈ indices n ↔ i < n.
Proof.
  unfold indices. rewrite list_elem_of_fmap. split.
  - intros (k & -> & Hk%elem_of_seq). lia.
  - intros Hi. exists (N.to_nat i). rewrite elem_of_seq. lia.
Qed.

Lemma NoDup_indices n : NoDup (indices n).
Proof. apply NoDup_fmap_2; [apply _|apply NoDup_seq]. Qed.

Lemma length_indices n : length (indices n) = N.to_nat n.
Proof. unfold indices. by rewrite length_fmap, length_seq. Qed.

Lemma entry_cases s i e :
  entry_ok s i e →
  en_flags e = 0 ∧ is_allocated e = false ∧ is_marked e = false ∨
  en_flags e = flags_of (slot_offset s i) (is_marked e) ∧ is_allocated e = true ∧
  sizeof_header ≤ en_bytes e ≤ slot_stride (sl_category s).
Proof.
  unfold is_allocated, is_marked. intros [H|[[b H] Hbytes]]; rewrite H; [by left|right].
  destruct (flags_of_bits (slot_offset s i) b) as (H1 & H2 & _). rewrite H1, H2.
  split; [by destruct b|]. by split.
Qed.

Lemma slot_Some s i bytes b :
  slot s i = Some (bytes, b) ↔
  ∃ e, sl_entries s !! i = Some e ∧ is_allocated e = true ∧ en_bytes e = bytes ∧ is_marked e = b.
Proof.
  unfold slot. destruct (sl_entries s !! i) as [e|]; simpl; [|split; [done|by intros (? & ? & _)]].
  destruct (is_allocated e) eqn:Ha; split; try done.
  - intros [= <- <-]. by exists e.
  - by intros (? & [= <-] & _ & <- & <-).
  - intros (? & [= <-] & ? & _). congruence.
Qed.

Lemma slot_None s i e : sl_entries s !! i = Some e → slot s i = None ↔ is_allocated e = false.
Proof. intros He. unfold slot. rewrite He. simpl. by destruct (is_allocated e). Qed.

Section facts.
Context (block : N) (s : slab) (Hs : slab_ok block s).

Lemma used_slot i : i ∈ used_slots s ↔ is_Some (slot s i).
Proof.
  unfold used_slots. rewrite list_elem_of_filter, elem_of_indices. split; [by intros [? _]|].
  intros [[bytes b] H]. split; [by rewrite H|]. apply slot_Some in H as (e & He & _).
  by apply (slab_written _ _ Hs).
Qed.

Lemma NoDup_used : NoDup (used_slots s).
Proof. apply NoDup_filter, NoDup_indices. Qed.

Lemma slot_below i v : slot s i = Some v → i < sl_bump s.
Proof.
  destruct v as [bytes b]. intros (e & He & _)%slot_Some. by apply (slab_written _ _ Hs).
Qed.

Lemma slot_entry i bytes b :
  slot s i = Some (bytes, b) →
  sl_entries s !! i = Some (mk_entry bytes (flags_of (slot_offset s i) b)) ∧
  sizeof_header ≤ bytes ≤ slot_stride (sl_category s).
Proof.
  intros (e & He & Ha & <- & <-)%slot_Some.
  destruct (entry_cases s i e) as [(_ & ? & _)|(Hf & _ & Hb)]; [by eapply slab_entries|congruence|].
  rewrite He. split; [|done]. destruct e as [bytes flags]. simpl in *. by rewrite <-Hf.
Qed.

Lemma live_bound : sl_live s ≤ sl_bump s.
Proof.
  rewrite (slab_live _ _ Hs). unfold length_N, used_slots.
  pose proof (length_filter (λ i, is_Some (slot s i)) (indices (sl_bump s))) as H.
  rewrite length_indices in H. lia.
Qed.

(** A slot lies behind the table and inside the block, aligned to 16 bytes. *)
Lemma slot_place i :
  i < sl_capacity s →
  sizeof_slab + sl_capacity s * sizeof_entry ≤ sl_object_offset s + i * slot_stride (sl_category s) ∧
  sl_object_offset s + i * slot_stride (sl_category s) + slot_stride (sl_category s) ≤ block_bytes ∧
  (sl_object_offset s + i * slot_stride (sl_category s)) mod 16 = 0 ∧
  slot_offset s i < 1024.
Proof.
  intros Hi. unfold slot_offset. rewrite (slab_offset _ _ Hs), (slab_full _ _ Hs) in *.
  destruct (slab_geometry _ (slab_category _ _ Hs)) as (H1 & H2 & H3 & H4 & H5 & H6).
  set (stride := slot_stride _) in *. set (capacity := slab_capacity _) in *.
  assert (i * stride + stride ≤ capacity * stride) by nia.
  change block_bytes with 16384 in *.
  assert ((entries_end capacity + i * stride) mod 16 = 0) as Hmod.
  { rewrite N.Div0.add_mod, H4, (N.Div0.mul_mod), H2, N.mul_0_r. done. }
  split_and!; [lia..|done|]. apply N.Div0.div_lt_upper_bound. lia.
Qed.

Lemma object_flags_of i :
  i < sl_capacity s → object_flags s i = flags_of (slot_offset s i) false.
Proof.
  intros Hi. unfold object_flags. apply (flags_of_u16 (slot_offset s i) false).
  by apply slot_place.
Qed.
End facts.

(** What an operation on the slots leaves alone. *)
Definition same_place (s s' : slab) : Prop :=
  sl_next s' = sl_next s ∧ sl_available_next s' = sl_available_next s ∧ sl_owner s' = sl_owner s ∧
  sl_category s' = sl_category s ∧ sl_capacity s' = sl_capacity s ∧
  sl_object_offset s' = sl_object_offset s.

Lemma free_list_ext entries entries' head l :
  (∀ i, i ∈ l → entries !! i = entries' !! i) → free_list entries head l → free_list entries' head l.
Proof.
  revert head. induction l as [|i l IH]; intros head Heq; simpl; [done|].
  intros (-> & Hi & e & He & Hl). split_and!; [done..|]. exists e.
  rewrite <-Heq by set_solver. split; [done|]. apply IH; set_solver.
Qed.

Lemma slot_insert s bump live free i e j :
  slot (set_slots bump live free (<[i := e]> (sl_entries s)) s) j =
  if decide (j = i) then (if is_allocated e then Some (en_bytes e, is_marked e) else None)
  else slot s j.
Proof.
  unfold slot. simpl. destruct (decide (j = i)) as [->|]; [by rewrite lookup_insert_eq|].
  by rewrite lookup_insert_ne.
Qed.

(** [used_slots] gains or loses one index with the slot table. *)
Lemma used_slots_add block s s' i :
  slab_ok block s → (∀ j, is_Some (sl_entries s' !! j) ↔ j < sl_bump s') →
  slot s i = None → is_Some (slot s' i) → (∀ j, j ≠ i → slot s' j = slot s j) →
  used_slots s' ≡ₚ i :: used_slots s.
Proof.
  intros Hs Hw Hi Hi' Hj. apply NoDup_Permutation.
  - apply NoDup_used.
  - apply NoDup_cons. split; [|apply NoDup_used]. rewrite (used_slot _ _ Hs), Hi. by intros [? ?].
  - intros j. rewrite elem_of_cons, (used_slot _ _ Hs). unfold used_slots.
    rewrite list_elem_of_filter, elem_of_indices, <-Hw. destruct (decide (j = i)) as [->|Hne].
    + split; [by left|]. intros _. split; [done|].
      destruct Hi' as [[bytes b] Hb]. apply slot_Some in Hb as (e & He & _). by exists e.
    + rewrite Hj by done. split; [by intros [? _]; right|]. intros [|[[bytes b] Hb]]; [done|].
      split; [by exists (bytes, b)|]. rewrite <-Hj in Hb by done.
      apply slot_Some in Hb as (e & He & _). by exists e.
Qed.

(** A slab whose slot table changed at one index that is now in use or free again. *)
Lemma slab_ok_take block s i bytes bump free :
  slab_ok block s → i < sl_capacity s → slot s i = None →
  sizeof_header ≤ bytes ≤ slot_stride (sl_category s) →
  sl_bump s ≤ bump ≤ sl_capacity s →
  (∀ j, j < bump ↔ j = i ∨ j < sl_bump s) →
  (∃ l, free_list (sl_entries s) free l ∧ NoDup l ∧ i ∉ l ∧ ∀ j, j ∈ l ↔ j ≠ i ∧ j < bump ∧ slot s j = None) →
  slab_ok block (set_slots bump (u16 (sl_live s + 1)) free
    (<[i := mk_entry (u16 bytes) (object_flags s i)]> (sl_entries s)) s).
Proof.
  intros Hs Hi Hnone Hbytes Hbump Hbelow (l & Hl & Hnd & Hil & Hfree).
  destruct (slab_geometry _ (slab_category _ _ Hs)) as (Hstride & _ & Hcap & _).
  rewrite (object_flags_of _ _ Hs) by done. rewrite (u16_small bytes) by lia.
  set (e := mk_entry bytes _). set (s' := set_slots _ _ _ _ _).
  assert (slot s' i = Some (bytes, false)) as Hsi.
  { unfold s'. rewrite slot_insert, decide_True by done. subst e. unfold is_allocated, is_marked. simpl.
    destruct (flags_of_bits (slot_offset s i) false) as (-> & -> & _). done. }
  assert (∀ j, j ≠ i → slot s' j = slot s j) as Hsj.
  { intros j Hj. unfold s'. by rewrite slot_insert, decide_False. }
  assert (∀ j, is_Some (sl_entries s' !! j) ↔ j < sl_bump s') as Hw.
  { intros j. simpl. rewrite Hbelow, lookup_insert_is_Some, (slab_written _ _ Hs).
    split; [intros [|[]]; auto|]. intros [->|]; [by left|]. destruct (decide (i = j)); auto. }
  assert (used_slots s' ≡ₚ i :: used_slots s) as Hused
    by (eapply used_slots_add; [done..|by rewrite Hsi|done]).
  destruct Hs as [Hal Hnn Hcat Hfull Hoff Hb Hwr Hent _ Hlive].
  constructor; try done.
  - simpl. lia.
  - intros j e'. simpl. rewrite lookup_insert_Some. intros [[<- <-]|[_ He]].
    + right. split; [by exists false|done].
    + exact (Hent j e' He).
  - exists l. split_and!; [|done|].
    + eapply free_list_ext; [|done]. intros j Hj. simpl. rewrite lookup_insert_ne; set_solver.
    + intros j. rewrite Hfree. simpl. destruct (decide (j = i)) as [->|Hne]; [rewrite Hsi; naive_solver|].
      rewrite Hsj by done. tauto.
  - simpl. unfold length_N. rewrite Hused. simpl. rewrite Hlive. unfold length_N.
    pose proof (length_filter (λ i, is_Some (slot s i)) (indices (sl_bump s))) as H.
    rewrite length_indices in H. fold (used_slots s) in H. unfold no_slot, u16_max in *.
    rewrite u16_small; lia.
Qed.

(** Taking a slot: an unused index becomes an unmarked object, nothing else changes. *)
Lemma take_slot_ok block s bytes :
  slab_ok block s → has_space s = true → sizeof_header ≤ bytes ≤ slot_stride (sl_category s) →
  ∃ i s', take_slot bytes s = Ok (i, s') ∧ slab_ok block s' ∧ same_place s s' ∧
    i < sl_capacity s ∧ slot s i = None ∧ slot s' i = Some (bytes, false) ∧
    (∀ j, j ≠ i → slot s' j = slot s j).
Proof.
  intros Hs Hspace Hbytes. pose proof (slab_bump _ _ Hs) as Hbump.
  destruct (slab_geometry _ (slab_category _ _ Hs)) as (_ & _ & Hcap & _).
  rewrite <-(slab_full _ _ Hs) in Hcap. unfold no_slot, u16_max in Hcap.
  destruct (slab_free _ _ Hs) as (l & Hl & Hnd & Hfree).
  assert (∃ i bump free, take_slot bytes s =
      Ok (i, set_slots bump (u16 (sl_live s + 1)) free
               (<[i := mk_entry (u16 bytes) (object_flags s i)]> (sl_entries s)) s) ∧
    i < sl_capacity s ∧ slot s i = None ∧ sl_bump s ≤ bump ≤ sl_capacity s ∧
    (∀ j, j < bump ↔ j = i ∨ j < sl_bump s) ∧
    (∃ l, free_list (sl_entries s) free l ∧ NoDup l ∧ i ∉ l ∧
       ∀ j, j ∈ l ↔ j ≠ i ∧ j < bump ∧ slot s j = None))
    as (i & bump & free & Htake & Hi & Hnone & Hb & Hbelow & Hlist).
  { unfold take_slot. destruct (N.eqb_spec (sl_free_slot s) no_slot) as [Hno|Hyes].
    - assert (l = []) as ->. { destruct l as [|j l]; [done|]. destruct Hl as (? & ? & _). congruence. }
      unfold has_space in Hspace. rewrite Hno, N.eqb_refl in Hspace. simpl in Hspace.
      apply N.ltb_lt in Hspace. simpl.
      rewrite (u16_small (sl_bump s + 1)) by lia.
      exists (sl_bump s), (sl_bump s + 1), no_slot. rewrite Hno. split_and!; [done|lia| |lia|lia|lia|].
      + destruct (slot s (sl_bump s)) eqn:E; [|done]. apply (slot_below _ _ Hs) in E. lia.
      + exists []. split_and!; [done|constructor|set_solver|]. intros j. split; [set_solver|].
        intros (Hj & Hlt & E). apply Hfree. split; [lia|done].
    - destruct l as [|i l]; [done|]. destruct Hl as (Hi & Hni & e & He & Hl).
      rewrite Hi. simpl. rewrite He. simpl.
      assert (i < sl_bump s ∧ slot s i = None) as [Hlt Hnone] by (apply Hfree; set_solver).
      apply NoDup_cons in Hnd as [Hil Hnd].
      exists i, (sl_bump s), (en_bytes e). split_and!; [done|lia|done|lia|lia|intros; lia|].
      exists l. split_and!; [done..|]. intros j. specialize (Hfree j).
      rewrite elem_of_cons in Hfree. split.
      + intros Hj. assert (j ≠ i) by (intros ->; done). split; [done|]. by apply Hfree; right.
      + intros (Hne & Hj). apply Hfree in Hj as [?|?]; done. }
  eexists i, _. split; [exact Htake|].
  assert (slab_ok block (set_slots bump (u16 (sl_live s + 1)) free
    (<[i := mk_entry (u16 bytes) (object_flags s i)]> (sl_entries s)) s)) as Hok
    by by apply slab_ok_take.
  split; [exact Hok|]. split; [done|]. split; [done|]. split; [done|].
  destruct (slab_geometry _ (slab_category _ _ Hs)) as (Hstride & _).
  split; [|intros j Hj; by rewrite slot_insert, decide_False].
  rewrite slot_insert, decide_True by done. rewrite (object_flags_of _ _ Hs) by done.
  unfold is_allocated, is_marked. simpl.
  destruct (flags_of_bits (slot_offset s i) false) as (-> & -> & _). simpl. do 2 f_equal.
  apply u16_small. lia.
Qed.

(** ** The objects of a slab *)

Definition slab_object (block : N) (s : slab) (index : N) : option (visited * bool) :=
  (λ '(bytes, b), (object_at block s index, bytes, b)) <$> slot s index.

(** The objects in slot order, each with its size and mark. *)
Definition slab_objects (block : N) (s : slab) : list (visited * bool) :=
  omap (slab_object block s) (indices (sl_bump s)).

Lemma omap_snoc {A B} (f : A → option B) l x : omap f (l ++ [x]) = omap f l ++ option_list (f x).
Proof. rewrite omap_app. simpl. by destruct (f x). Qed.

Lemma visit_slab_ok block s : slab_ok block s → visit_slab block s = Ok (fst <$> slab_objects block s).
Proof.
  intros Hs. unfold visit_slab.
  edestruct (returns_loop (λ done calls, calls = fst <$> omap (slab_object block s) done)) as (calls & Hrun & Hcalls);
    [| |by rewrite Hrun, Hcalls]; [|done].
  intros done i calls Hi%elem_of_indices ->. apply (slab_written _ _ Hs) in Hi as [e He].
  rewrite He. simpl. apply returns_Ok. rewrite omap_snoc, fmap_app. unfold slab_object, slot. rewrite He.
  simpl. destruct (is_allocated e); simpl; [done|]. by rewrite app_nil_r.
Qed.

(** ** Sweeping a slab *)

(** A marked slot survives with its mark cleared. *)
Definition swept (v : option (N * bool)) : option (N * bool) :=
  match v with Some (bytes, true) => Some (bytes, false) | _ => None end.

Definition dead (v : visited * bool) : Prop := v.2 = false.
#[export] Instance dead_dec v : Decision (dead v) := decide (v.2 = false).

(** Changing the mark of a slot in use. *)
Lemma slab_ok_remark block s i bytes k k' :
  slab_ok block s → slot s i = Some (bytes, k) →
  slab_ok block (set_entries (<[i := mk_entry bytes (flags_of (slot_offset s i) k')]> (sl_entries s)) s).
Proof.
  intros Hs Hi. destruct (slot_entry _ _ Hs _ _ _ Hi) as [He Hbytes].
  pose proof (slot_below _ _ Hs _ _ Hi) as Hlt.
  set (s' := set_entries _ s).
  assert (∀ j, is_Some (slot s' j) ↔ is_Some (slot s j)) as Hslots.
  { intros j. unfold s', set_entries. rewrite slot_insert. destruct (decide (j = i)) as [->|]; [|done].
    rewrite Hi. unfold is_allocated. simpl.
    destruct (flags_of_bits (slot_offset s i) k') as (-> & _). done. }
  destruct Hs as [Hal Hnn Hcat Hfull Hoff Hb Hwr Hent (l & Hl & Hnd & Hfree) Hlive].
  constructor; try done.
  - intros j. simpl. rewrite lookup_insert_is_Some, Hwr. destruct (decide (i = j)) as [<-|]; naive_solver.
  - intros j e. simpl. rewrite lookup_insert_Some. intros [[<- <-]|[_ Hj]]; [|exact (Hent j e Hj)].
    right. split; [by exists k'|done].
  - exists l. split_and!; [|done|].
    + eapply free_list_ext; [|done]. intros j Hj. simpl. rewrite lookup_insert_ne; [done|].
      intros ->. apply Hfree in Hj as [_ Hj]. congruence.
    + intros j. rewrite Hfree. simpl. rewrite !eq_None_not_Some, Hslots. done.
  - simpl. rewrite Hlive. unfold used_slots. f_equal. apply list_filter_iff. intros j. by rewrite Hslots.
Qed.

Lemma slot_remark s i bytes k k' j :
  slot s i = Some (bytes, k) →
  slot (set_entries (<[i := mk_entry bytes (flags_of (slot_offset s i) k')]> (sl_entries s)) s) j =
  if decide (j = i) then Some (bytes, k') else slot s j.
Proof.
  intros Hi. unfold set_entries. rewrite slot_insert. destruct (decide (j = i)); [|done].
  unfold is_allocated, is_marked. simpl.
  destruct (flags_of_bits (slot_offset s i) k') as (-> & -> & _). by destruct k'.
Qed.

Lemma slab_ok_release block s i bytes :
  slab_ok block s → slot s i = Some (bytes, false) →
  slab_ok block (set_slots (sl_bump s) (u16 (sl_live s + 65535)) (u16 i)
    (<[i := mk_entry (sl_free_slot s) 0]> (sl_entries s)) s).
Proof.
  intros Hs Hi. pose proof (slot_below _ _ Hs _ _ Hi) as Hlt. pose proof (live_bound _ _ Hs) as Hlb.
  destruct (slab_geometry _ (slab_category _ _ Hs)) as (_ & _ & Hcap & _).
  rewrite <-(slab_full _ _ Hs) in Hcap. unfold no_slot, u16_max in Hcap. pose proof (slab_bump _ _ Hs).
  rewrite (u16_small i) by lia. set (s' := set_slots _ _ _ _ s).
  assert (slot s' i = None) as Hsi by (unfold s'; by rewrite slot_insert, decide_True).
  assert (∀ j, j ≠ i → slot s' j = slot s j) as Hsj
    by (intros j Hj; unfold s'; by rewrite slot_insert, decide_False).
  assert (∀ j, is_Some (sl_entries s' !! j) ↔ j < sl_bump s') as Hw.
  { intros j. simpl. rewrite lookup_insert_is_Some, (slab_written _ _ Hs).
    destruct (decide (i = j)) as [<-|]; naive_solver. }
  assert (used_slots s ≡ₚ i :: used_slots s') as Hused.
  { apply NoDup_Permutation; [apply NoDup_used| |].
    - apply NoDup_cons. split; [|apply NoDup_used]. unfold used_slots.
      rewrite list_elem_of_filter, Hsi. by intros [[] _].
    - intros j. rewrite elem_of_cons, (used_slot _ _ Hs). unfold used_slots at 1.
      rewrite list_elem_of_filter, elem_of_indices. destruct (decide (j = i)) as [->|Hne].
      + rewrite Hi. split; [by left|done].
      + rewrite Hsj by done. split; [|by intros [|[]]]. intros Hj. right. split; [done|].
        destruct Hj as [v Hj]. by apply (slot_below _ _ Hs) in Hj. }
  destruct Hs as [Hal Hnn Hcat Hfull Hoff Hb Hwr Hent (l & Hl & Hnd & Hfree) Hlive].
  constructor; try done.
  - intros j e. simpl. rewrite lookup_insert_Some. intros [[<- <-]|[_ Hj]]; [by left|exact (Hent j e Hj)].
  - exists (i :: l). assert (i ∉ l) as Hil by (rewrite Hfree, Hi; naive_solver). split_and!.
    + simpl. split_and!; [done|unfold no_slot, u16_max; lia|]. eexists. rewrite lookup_insert_eq. split; [done|].
      simpl. eapply free_list_ext; [|done]. intros j Hj. rewrite lookup_insert_ne; [done|set_solver].
    + by apply NoDup_cons.
    + intros j. rewrite elem_of_cons, Hfree. destruct (decide (j = i)) as [->|Hne]; [naive_solver|].
      rewrite Hsj by done. simpl. naive_solver.
  - simpl. rewrite Hlive. unfold length_N. rewrite Hused. simpl.
    assert (N.of_nat (S (length (used_slots s'))) = sl_live s) as Hn
      by (rewrite Hlive; unfold length_N; by rewrite Hused).
    unfold u16. replace (N.of_nat (S (length (used_slots s'))) + 65535)
      with (N.of_nat (length (used_slots s')) + 1 * 65536) by lia.
    rewrite N.Div0.mod_add. apply N.mod_small. lia.
Qed.

Lemma sweep_entry_ok block s r i :
  slab_ok block s → i < sl_bump s →
  ∃ s', sweep_entry block i (s, r) =
      Ok (s', r ++ (fst <$> filter dead (option_list (slab_object block s i)))) ∧
    slab_ok block s' ∧ same_place s s' ∧ sl_bump s' = sl_bump s ∧
    (∀ j, slot s' j = if decide (j = i) then swept (slot s i) else slot s j).
Proof.
  intros Hs Hi. apply (slab_written _ _ Hs) in Hi as [e He]. unfold sweep_entry. rewrite He. simpl.
  unfold slab_object. destruct (slot s i) as [[bytes b]|] eqn:Hslot.
  2: { apply (slot_None _ _ _ He) in Hslot as Ha. rewrite Ha. simpl. exists s. rewrite app_nil_r.
       split_and!; [done..|]. intros j. destruct (decide (j = i)) as [->|]; [|done]. by rewrite Hslot. }
  apply slot_Some in Hslot as He'. destruct He' as (? & [= <-]%(eq_trans (eq_sym He)) & Ha & <- & Hb).
  rewrite Ha, Hb. simpl. destruct (slot_entry _ _ Hs _ _ _ Hslot) as [He' _].
  rewrite He in He'. injection He' as ->. simpl.
  destruct (flags_of_bits (slot_offset s i) b) as (Hal & Hma & _ & _ & Hld).
  destruct b; simpl.
  - rewrite Hld. eexists. split; [by rewrite app_nil_r|]. split; [by eapply slab_ok_remark|].
    split_and!; [done..|]. intros j. by erewrite slot_remark.
  - eexists. split; [done|]. split; [by eapply slab_ok_release|]. split_and!; [done..|].
    intros j. rewrite slot_insert. by destruct (decide (j = i)).
Qed.

(** Sweeping a slab keeps exactly the marked objects and reports the others. *)
Lemma sweep_slab_ok block s :
  slab_ok block s →
  ∃ s', sweep_slab block s = Ok (s', fst <$> filter dead (slab_objects block s)) ∧
    slab_ok block s' ∧ same_place s s' ∧ sl_bump s' = sl_bump s ∧
    ∀ i, slot s' i = swept (slot s i).
Proof.
  intros Hs. unfold sweep_slab.
  edestruct (returns_loop_split (λ done '(s', r),
      slab_ok block s' ∧ same_place s s' ∧ sl_bump s' = sl_bump s ∧
      (∀ i, slot s' i = if decide (i ∈ done) then swept (slot s i) else slot s i) ∧
      r = fst <$> filter dead (omap (slab_object block s) done)))
    as ([s' r] & Hrun & Hs' & Hp & Hb & Hslot & ->).
  3: { exists s'. split_and!; try done. intros i. rewrite Hslot. destruct (decide _) as [|Hni]; [done|].
       rewrite elem_of_indices in Hni. destruct (slot s i) eqn:E; [|done].
       by apply (slot_below _ _ Hs) in E. }
  2: { split_and!; done. }
  intros done i rest [s' r] Hl (Hs' & Hp & Hb & Hslot & ->).
  pose proof (NoDup_indices (sl_bump s)) as Hnd. rewrite Hl in Hnd.
  assert (i ∉ done) as Hni by (apply NoDup_app in Hnd; set_solver).
  assert (i < sl_bump s') as Hi by (rewrite Hb, <-elem_of_indices, Hl; set_solver).
  destruct (sweep_entry_ok block s' (fst <$> filter dead (omap (slab_object block s) done)) i Hs' Hi)
    as (s'' & -> & Hs'' & Hp' & Hb' & Hslot'').
  assert (slab_object block s' i = slab_object block s i) as Heq.
  { unfold slab_object, object_at. rewrite Hslot, decide_False by done.
    destruct Hp as (_ & _ & _ & -> & _ & ->). done. }
  apply returns_Ok. split_and!; [done| |by rewrite Hb'| |].
  - unfold same_place in *. intuition congruence.
  - intros j. rewrite Hslot''. destruct (decide (j = i)) as [->|Hne].
    + rewrite (decide_True (P := i ∈ done ++ [i])) by set_solver. by rewrite Hslot, decide_False.
    + rewrite Hslot. destruct (decide (j ∈ done)) as [|Hnj];
        [rewrite decide_True by set_solver; done|rewrite decide_False by set_solver; done].
  - rewrite Heq, omap_snoc, filter_app, fmap_app. done.
Qed.

(** The counter of live slots is zero exactly when no slot is in use. *)
Lemma live_zero block s : slab_ok block s → sl_live s = 0 ↔ ∀ i, slot s i = None.
Proof.
  intros Hs. rewrite (slab_live _ _ Hs). unfold length_N. split.
  - intros Hz i. assert (used_slots s = []) as Hu by (apply length_zero_iff_nil; lia).
    apply eq_None_not_Some. rewrite <-(used_slot _ _ Hs), Hu. set_solver.
  - intros Hnone. destruct (used_slots s) as [|i l] eqn:Hu; [done|].
    assert (i ∈ used_slots s) as Hi by (rewrite Hu; set_solver).
    apply (used_slot _ _ Hs) in Hi. rewrite Hnone in Hi. by destruct Hi.
Qed.

(** The links and the owner of a slab are no part of its invariant. *)
Lemma slab_ok_core block s s' :
  sl_category s' = sl_category s → sl_capacity s' = sl_capacity s → sl_bump s' = sl_bump s →
  sl_live s' = sl_live s → sl_free_slot s' = sl_free_slot s →
  sl_object_offset s' = sl_object_offset s → sl_entries s' = sl_entries s →
  slab_ok block s → slab_ok block s'.
Proof.
  destruct s, s'. simpl. intros -> -> -> -> -> -> -> [? ? ? ? ? ? ? ? ? ?]. constructor; assumption.
Qed.

Lemma slab_ok_links block s next available owner :
  slab_ok block s →
  slab_ok block (set_next next s) ∧ slab_ok block (set_available_next available s) ∧
  slab_ok block (set_owner owner s).
Proof. intros Hs. split_and!; by apply (slab_ok_core block s). Qed.
