(* ===== verification/Memory.v ===== *)
(** * The shared memory of all storages

    The invariant of the memory (every slab and large allocation is well formed, no
    two overlap, every object in use has its header) and the metadata operations on
    one object: [owner], [size], [mark] and [marked]. *)

From S2P Require Import Prelude Chains Storage Slabs.

Local Open Scope list_scope.
Local Open Scope N_scope.

(** [lia] sees through division and remainder in this file. *)
Ltac Zify.zify_post_hook ::= Z.to_euclidean_division_equations.

(** ** Addresses *)

Lemma even_word n :
  n mod 2 = 0 → N.land (N.lor n 1) 1 = 1 ∧ N.ldiff (N.lor n 1) 1 = n ∧ N.land n 1 = 0.
Proof.
  intros Hn. assert (N.testbit n 0 = false) as H0.
  { rewrite N.bit0_eqb, Hn. done. }
  assert (∀ i, i ≠ 0 → N.testbit 1 i = false) as H1.
  { intros i Hi. destruct i; [done|]. by destruct p. }
  split_and!; apply N.bits_inj; intros i; rewrite ?N.land_spec, ?N.ldiff_spec, ?N.lor_spec, ?N.bits_0;
    (destruct (N.eq_dec i 0) as [->|Hi]; [by rewrite H0|]); rewrite H1 by done;
    by rewrite ?andb_false_r, ?orb_false_r, ?andb_true_r.
Qed.

Lemma block_of_spec a : block_of a = a / block_bytes * block_bytes.
Proof.
  unfold block_of. change (block_bytes - 1) with (N.ones 14). rewrite N.ldiff_ones_r.
  rewrite N.shiftr_div_pow2, N.shiftl_mul_pow2. done.
Qed.

Lemma block_of_inside block a :
  block mod block_bytes = 0 → block ≤ a < block + block_bytes → block_of a = block.
Proof. intros H1 H2. rewrite block_of_spec. change block_bytes with 16384 in *. lia. Qed.

Section slab_addresses.
Context (block : N) (s : slab) (Hs : slab_ok block s).

Lemma entry_place i :
  i < sl_capacity s →
  block_of (entry_address block i) = block ∧ entry_index (entry_address block i) = i ∧
  entry_address block i mod 2 = 0.
Proof.
  intros Hi. pose proof (slab_aligned _ _ Hs) as Hal.
  destruct (slot_place _ _ Hs i Hi) as (H1 & H2 & _).
  destruct (slab_geometry _ (slab_category _ _ Hs)) as (Hst & _).
  unfold entry_index. set (offset := sl_object_offset s + _) in *.
  assert (block_of (entry_address block i) = block) as ->.
  { apply block_of_inside; [done|]. unfold entry_address, sizeof_slab, sizeof_entry in *.
    change block_bytes with 16384 in *. lia. }
  unfold entry_address, sizeof_slab, sizeof_entry in *.
    change block_bytes with 16384 in *. lia.
Qed.

Lemma object_place i :
  i < sl_capacity s →
  block + sizeof_slab ≤ object_at block s i ∧
  object_at block s i + slot_stride (sl_category s) ≤ block + block_bytes ∧
  object_at block s i mod 16 = 0 ∧ block_of (object_at block s i) = block ∧
  block + slot_offset s i * 16 = object_at block s i.
Proof.
  intros Hi. pose proof (slab_aligned _ _ Hs) as Hal.
  destruct (slot_place _ _ Hs i Hi) as (H1 & H2 & H3 & _).
  destruct (slab_geometry _ (slab_category _ _ Hs)) as (Hst & _).
  unfold object_at, slot_offset. rewrite <-!N.add_assoc.
  set (offset := sl_object_offset s + _) in *. set (stride := slot_stride _) in *.
  unfold sizeof_slab, sizeof_entry in *. change block_bytes with 16384 in *.
  split_and!; [lia..| |lia]. apply block_of_inside; change block_bytes with 16384; lia.
Qed.

Lemma object_at_inj i j :
  i < sl_capacity s → j < sl_capacity s → object_at block s i = object_at block s j → i = j.
Proof.
  intros _ _. unfold object_at. destruct (slab_geometry _ (slab_category _ _ Hs)) as (Hst & _).
  intros. nia.
Qed.

Lemma slot_capacity i v : slot s i = Some v → i < sl_capacity s.
Proof. intros H%(slot_below _ _ Hs). pose proof (slab_bump _ _ Hs). lia. Qed.
End slab_addresses.

(** ** The invariant *)

Record memory_ok (m : memory) : Prop := {
  mem_slab : ∀ b s, m_slabs m !! b = Some s → slab_ok b s;
  mem_small : ∀ b s i bytes k, m_slabs m !! b = Some s → slot s i = Some (bytes, k) →
    ∃ o, m_objects m !! object_at b s i = Some o ∧
      ob_runtime_word o = N.lor (entry_address b i) 1 ∧ sizeof_header + length_N (ob_payload o) = bytes;
  mem_large : ∀ a g, m_large m !! a = Some g →
    a ≠ 0 ∧ a mod 16 = 0 ∧ 256 < lg_bytes g ∧
    ∃ o, m_objects m !! (a + sizeof_large) = Some o ∧
      ob_runtime_word o = a ∧ sizeof_header + length_N (ob_payload o) = lg_bytes g;
  mem_apart : ∀ a g b s, m_large m !! a = Some g → m_slabs m !! b = Some s →
    a + sizeof_large + lg_bytes g ≤ b ∨ b + block_bytes ≤ a;
  mem_apart_large : ∀ a g a' g', m_large m !! a = Some g → m_large m !! a' = Some g' → a ≠ a' →
    a + sizeof_large + lg_bytes g ≤ a' ∨ a' + sizeof_large + lg_bytes g' ≤ a;
}.

(** An object in use: its owner, address, size and mark. *)
Inductive live_object (m : memory) : N → N → N → bool → Prop :=
| live_small b s i bytes k :
    m_slabs m !! b = Some s → slot s i = Some (bytes, k) →
    live_object m (sl_owner s) (object_at b s i) bytes k
| live_large a g :
    m_large m !! a = Some g →
    live_object m (lg_owner g) (a + sizeof_large) (lg_bytes g) (lg_marked g).

Section metadata.
Context (m : memory) (Hm : memory_ok m).

(** The header of a small object leads to its slab and entry. *)
Lemma small_header b s i bytes k :
  m_slabs m !! b = Some s → slot s i = Some (bytes, k) →
  ∃ o, m_objects m !! object_at b s i = Some o ∧ sizeof_header + length_N (ob_payload o) = bytes ∧
    ob_runtime_word o ≠ 0 ∧ is_small o = true ∧ small_metadata o = entry_address b i ∧
    block_of (small_metadata o) = b ∧ entry_index (small_metadata o) = i ∧
    load_entry m (small_metadata o) = Ok (s, mk_entry bytes (flags_of (slot_offset s i) k)).
Proof.
  intros Hb Hi. pose proof (mem_slab _ Hm _ _ Hb) as Hs.
  destruct (mem_small _ Hm _ _ _ _ _ Hb Hi) as (o & Ho & Hw & Hlen).
  pose proof (slot_capacity _ _ Hs _ _ Hi) as Hcap.
  destruct (entry_place _ _ Hs i Hcap) as (Hblock & Hindex & Heven).
  destruct (even_word _ Heven) as (H1 & H2 & _).
  assert (small_metadata o = entry_address b i) as Hmeta by (unfold small_metadata; by rewrite Hw).
  exists o. unfold is_small. rewrite Hw, H1, !Hmeta. split_and!; try done.
  - intros Hz. by rewrite Hz in H1.
  - unfold load_entry, load_slab. rewrite Hblock, Hb, Hindex. simpl. rewrite N.eqb_refl. simpl.
    destruct (slot_entry _ _ Hs _ _ _ Hi) as [-> _]. done.
Qed.

Lemma large_header a g :
  m_large m !! a = Some g →
  ∃ o, m_objects m !! (a + sizeof_large) = Some o ∧ sizeof_header + length_N (ob_payload o) = lg_bytes g ∧
    ob_runtime_word o = a ∧ a ≠ 0 ∧ is_small o = false ∧ load_large m a = Ok g.
Proof.
  intros Ha. destruct (mem_large _ Hm _ _ Ha) as (Hnz & Hal & _ & o & Ho & Hw & Hlen).
  exists o. unfold is_small, load_large. rewrite Hw, Ha. split_and!; try done.
  destruct (even_word a) as (_ & _ & ->); [lia|done].
Qed.

Lemma live_nonnull h o bytes k : live_object m h o bytes k → o ≠ 0.
Proof.
  intros [b s i bytes' k' Hb Hi|a g Ha].
  - pose proof (mem_slab _ Hm _ _ Hb) as Hs.
    destruct (object_place _ _ Hs i (slot_capacity _ _ Hs _ _ Hi)) as (H & _).
    unfold sizeof_slab in H. lia.
  - destruct (mem_large _ Hm _ _ Ha) as (? & _). unfold sizeof_large. lia.
Qed.

Lemma live_header h o bytes k :
  live_object m h o bytes k →
  ∃ ob, m_objects m !! o = Some ob ∧ sizeof_header + length_N (ob_payload ob) = bytes.
Proof.
  intros [b s i bytes' k' Hb Hi|a g Ha].
  - destruct (small_header _ _ _ _ _ Hb Hi) as (ob & Hob & Hlen & _). eauto.
  - destruct (large_header _ _ Ha) as (ob & Hob & Hlen & _). eauto.
Qed.

(** [owner], [size] and [marked] of an object in use. *)
Lemma live_word h o bytes k :
  live_object m h o bytes k → ∃ ob, m_objects m !! o = Some ob ∧ ob_runtime_word ob ≠ 0.
Proof.
  intros [b s i bytes' k' Hb Hi|a g Ha].
  - destruct (small_header _ _ _ _ _ Hb Hi) as (ob & Hob & _ & Hw & _). eauto.
  - destruct (mem_large _ Hm _ _ Ha) as (Hz & _ & _ & ob & Hob & Hw & _). exists ob. by rewrite Hw.
Qed.

Lemma owner_live h o bytes k : live_object m h o bytes k → owner m o = Ok h.
Proof.
  intros Hl. pose proof (live_nonnull _ _ _ _ Hl) as Hnn. apply N.eqb_neq in Hnn.
  unfold owner. rewrite Hnn. destruct Hl as [b s i bytes k Hb Hi|a g Ha].
  - destruct (small_header _ _ _ _ _ Hb Hi) as (o & Ho & _ & Hw & Hsm & _ & Hblock & _ & Hload).
    unfold load_object. rewrite Ho. simpl. apply N.eqb_neq in Hw. rewrite Hw, Hsm, Hload. simpl.
    destruct (flags_of_bits (slot_offset s i) k) as (H1 & _ & H2 & _).
    unfold is_allocated. simpl. rewrite H1, H2, Hblock. simpl.
    pose proof (mem_slab _ Hm _ _ Hb) as Hs.
    destruct (object_place _ _ Hs i (slot_capacity _ _ Hs _ _ Hi)) as (_ & _ & _ & _ & ->).
    by rewrite N.eqb_refl.
  - destruct (large_header _ _ Ha) as (o & Ho & _ & Hw & Hnz & Hsm & Hload).
    unfold load_object. rewrite Ho. simpl. rewrite Hw. apply N.eqb_neq in Hnz. rewrite Hnz, Hsm, Hload.
    simpl. by rewrite N.eqb_refl.
Qed.

Lemma size_live h o bytes k : live_object m h o bytes k → size m o = Ok bytes.
Proof.
  intros [b s i bytes' k' Hb Hi|a g Ha]; unfold size, load_object.
  - destruct (small_header _ _ _ _ _ Hb Hi) as (o' & -> & _ & _ & Hsm & _ & _ & _ & Hl).
    simpl. by rewrite Hsm, Hl.
  - destruct (large_header _ _ Ha) as (o' & -> & _ & Hw & _ & Hsm & Hl).
    simpl. by rewrite Hsm, Hw, Hl.
Qed.

Lemma marked_live h o bytes k : live_object m h o bytes k → marked m o = Ok k.
Proof.
  intros [b s i bytes' k' Hb Hi|a g Ha]; unfold marked, load_object.
  - destruct (small_header _ _ _ _ _ Hb Hi) as (o' & -> & _ & _ & Hsm & _ & _ & _ & Hl).
    simpl. rewrite Hsm, Hl. simpl.
    unfold is_marked. simpl. destruct (flags_of_bits (slot_offset s i) k') as (_ & -> & _).
    by destruct k'.
  - destruct (large_header _ _ Ha) as (o' & -> & _ & Hw & _ & Hsm & Hl).
    simpl. by rewrite Hsm, Hw, Hl.
Qed.

(** An address has at most one object in use. *)
Lemma live_unique h o bytes k h' bytes' k' :
  live_object m h o bytes k → live_object m h' o bytes' k' → h = h' ∧ bytes = bytes' ∧ k = k'.
Proof.
  intros H1 H2.
  pose proof (owner_live _ _ _ _ H1) as E1. pose proof (owner_live _ _ _ _ H2) as E2.
  pose proof (size_live _ _ _ _ H1) as F1. pose proof (size_live _ _ _ _ H2) as F2.
  pose proof (marked_live _ _ _ _ H1) as G1. pose proof (marked_live _ _ _ _ H2) as G2.
  split_and!; congruence.
Qed.

(** A non-null owner is found only for an object in use. *)
Lemma owner_inv h o : owner m o = Ok h → h ≠ 0 → ∃ bytes k, live_object m h o bytes k.
Proof.
  unfold owner. destruct (o =? 0); [by intros [= <-]|]. unfold load_object.
  destruct (m_objects m !! o) as [ob|]; [|done]. simpl. destruct (_ =? 0); [by intros [= <-]|].
  destruct (is_small ob).
  - unfold load_entry, load_slab. destruct (m_slabs m !! _) as [s|] eqn:Hb; [|done]. simpl.
    unfold assert_that. destruct (_ =? _); [|done]. simpl.
    destruct (sl_entries s !! _) as [e|] eqn:He; [|done]. simpl.
    destruct (is_allocated e) eqn:Ha; simpl; [|by intros [= <-]].
    destruct (N.eqb_spec (block_of (small_metadata ob) + N.shiftr (en_flags e) 2 * 16) o) as [Heq|];
      [|by intros [= <-]]. intros [= <-] _. subst o.
    pose proof (mem_slab _ Hm _ _ Hb) as Hs. set (i := entry_index _) in *.
    assert (slot s i = Some (en_bytes e, is_marked e)) as Hslot by (apply slot_Some; eauto).
    destruct (slot_entry _ _ Hs _ _ _ Hslot) as [He' _]. rewrite He in He'. injection He' as ->.
    simpl. destruct (flags_of_bits (slot_offset s i) (is_marked e)) as (_ & _ & -> & _).
    destruct (object_place _ _ Hs i (slot_capacity _ _ Hs _ _ Hslot)) as (_ & _ & _ & _ & ->).
    do 2 eexists. by eapply live_small.
  - unfold load_large. destruct (m_large m !! _) as [g|] eqn:Hg; [|done]. simpl.
    destruct (N.eqb_spec (ob_runtime_word ob + sizeof_large) o) as [<-|]; [|by intros [= <-]].
    intros [= <-] _. do 2 eexists. by apply live_large.
Qed.
End metadata.

(** ** Updates of one slab *)

(** The objects of the block at [b] are the slots of its slab. *)
Lemma live_in_block m b s h o bytes k :
  memory_ok m → m_slabs m !! b = Some s → block_of o = b →
  live_object m h o bytes k ↔ ∃ i, slot s i = Some (bytes, k) ∧ o = object_at b s i ∧ h = sl_owner s.
Proof.
  intros Hm Hb Ho. split; [|intros (i & Hi & -> & ->); by eapply live_small].
  intros Hl. revert Ho. destruct Hl as [b' s' i bytes' k' Hb' Hi|a g Ha]; intros Ho.
  - pose proof (mem_slab _ Hm _ _ Hb') as Hs'.
    destruct (object_place _ _ Hs' i (slot_capacity _ _ Hs' _ _ Hi)) as (_ & _ & _ & Hbo & _).
    assert (b' = b) as -> by congruence. rewrite Hb in Hb'. injection Hb' as ->. eauto.
  - exfalso. destruct (mem_large _ Hm _ _ Ha) as (_ & _ & Hbig & _).
    destruct (mem_apart _ Hm _ _ _ _ Ha Hb) as [H|H]; rewrite block_of_spec in Ho;
      unfold sizeof_large in *; change block_bytes with 16384 in *; lia.
Qed.

Lemma live_other_block m m' b h o bytes k :
  memory_ok m → (∀ b', b' ≠ b → m_slabs m' !! b' = m_slabs m !! b') → m_large m' = m_large m →
  block_of o ≠ b → live_object m h o bytes k → live_object m' h o bytes k.
Proof.
  intros Hm Hslabs Hlarge Ho Hl. revert Ho. destruct Hl as [b' s' i bytes' k' Hb' Hi|a g Ha]; intros Ho.
  - pose proof (mem_slab _ Hm _ _ Hb') as Hs'.
    destruct (object_place _ _ Hs' i (slot_capacity _ _ Hs' _ _ Hi)) as (_ & _ & _ & Hbo & _).
    rewrite Hbo in Ho. eapply live_small; [|done]. by rewrite Hslabs.
  - apply live_large. by rewrite Hlarge.
Qed.

Lemma memory_ok_store_slab m b s s' :
  memory_ok m → m_slabs m !! b = Some s → slab_ok b s' →
  sl_category s' = sl_category s → sl_object_offset s' = sl_object_offset s →
  (∀ i bytes k, slot s' i = Some (bytes, k) → ∃ k0, slot s i = Some (bytes, k0)) →
  memory_ok (store_slab b s' m).
Proof.
  intros Hm Hb Hs' Hcat Hoff Hslots. constructor; simpl.
  - intros b0 s0. rewrite lookup_insert_Some. intros [[<- <-]|[_ H0]]; [done|by eapply mem_slab].
  - intros b0 s0 i bytes k. rewrite lookup_insert_Some. intros [[<- <-]|[_ H0]] Hi; [|by eapply mem_small].
    destruct (Hslots _ _ _ Hi) as [k0 Hi0]. destruct (mem_small _ Hm _ _ _ _ _ Hb Hi0) as (o & Ho & Hw).
    exists o. unfold object_at in *. by rewrite Hcat, Hoff.
  - apply (mem_large _ Hm).
  - intros a g b0 s0 Ha. rewrite lookup_insert_Some. intros [[<- _]|[_ H0]]; by eapply mem_apart.
  - apply (mem_apart_large _ Hm).
Qed.

Lemma live_store_slab m b s s' h o bytes k :
  memory_ok m → m_slabs m !! b = Some s → memory_ok (store_slab b s' m) →
  live_object (store_slab b s' m) h o bytes k ↔
  if decide (block_of o = b)
  then ∃ i, slot s' i = Some (bytes, k) ∧ o = object_at b s' i ∧ h = sl_owner s'
  else live_object m h o bytes k.
Proof.
  intros Hm Hb Hm'. destruct (decide _) as [Ho|Ho].
  - apply live_in_block; [done| |done]. simpl. by rewrite lookup_insert_eq.
  - assert (∀ b', b' ≠ b → m_slabs (store_slab b s' m) !! b' = m_slabs m !! b') as Hsl.
    { intros b' Hne. simpl. by rewrite lookup_insert_ne. }
    split; eapply live_other_block; try done. intros b' Hne. by rewrite Hsl.
Qed.

(** ** Updates of one large allocation *)

Lemma memory_ok_store_large m a g g' :
  memory_ok m → m_large m !! a = Some g → lg_bytes g' = lg_bytes g → memory_ok (store_large a g' m).
Proof.
  intros Hm Ha Hb. constructor; simpl.
  - apply (mem_slab _ Hm).
  - apply (mem_small _ Hm).
  - intros a0 g0. rewrite lookup_insert_Some. intros [[<- <-]|[_ H0]]; [rewrite Hb|]; by eapply mem_large.
  - intros a0 g0 b s. rewrite lookup_insert_Some. intros [[<- <-]|[_ H0]] Hs; [rewrite Hb|]; by eapply mem_apart.
  - intros a0 g0 a1 g1. rewrite !lookup_insert_Some.
    intros [[<- <-]|[_ H0]] [[<- <-]|[_ H1]] Hne; rewrite ?Hb; try done; by eapply mem_apart_large.
Qed.

Lemma live_store_large m a g g' h o bytes k :
  memory_ok m → m_large m !! a = Some g →
  live_object (store_large a g' m) h o bytes k ↔
  if decide (o = a + sizeof_large) then h = lg_owner g' ∧ bytes = lg_bytes g' ∧ k = lg_marked g'
  else live_object m h o bytes k.
Proof.
  intros Hm Ha.
  assert (∀ b s i v, m_slabs m !! b = Some s → slot s i = Some v → object_at b s i ≠ a + sizeof_large) as Hne.
  { intros b s i [bytes0 k0] Hb Hi Heq. pose proof (mem_slab _ Hm _ _ Hb) as Hs.
    destruct (mem_large _ Hm _ _ Ha) as (_ & _ & Hbig & _).
    destruct (object_place _ _ Hs i (slot_capacity _ _ Hs _ _ Hi)) as (H1 & H2 & _).
    destruct (slab_geometry _ (slab_category _ _ Hs)) as (Hst & _).
    destruct (mem_apart _ Hm _ _ _ _ Ha Hb); unfold sizeof_large, sizeof_slab in *; lia. }
  split.
  - intros [b s i bytes0 k0 Hb Hi|a0 g0 H0]; simpl in *.
    + rewrite decide_False by eauto. by eapply live_small.
    + rewrite lookup_insert_Some in H0. destruct H0 as [[<- <-]|[Hna H0]]; [by rewrite decide_True|].
      rewrite decide_False by (unfold sizeof_large; lia). by apply live_large.
  - destruct (decide _) as [->|Hno].
    + intros (-> & -> & ->). apply live_large. simpl. by rewrite lookup_insert_eq.
    + intros Hl. revert Hno. destruct Hl as [b s i bytes0 k0 Hb Hi|a0 g0 H0]; intros Hno.
      * by eapply live_small.
      * apply live_large. simpl. rewrite lookup_insert_ne; [done|]. intros ->. done.
Qed.

(** ** Marks *)

(** What the lists of a storage are made of. *)
Definition slab_view (s : slab) : N * N * N * N * bool :=
  (sl_next s, sl_available_next s, sl_owner s, sl_category s, has_space s).
Definition large_view (g : large) : N * N := (lg_next g, lg_owner g).

Definition same_lists (m m' : memory) : Prop :=
  (∀ b, slab_view <$> m_slabs m' !! b = slab_view <$> m_slabs m !! b) ∧
  (∀ a, large_view <$> m_large m' !! a = large_view <$> m_large m !! a).

(** Marking an object sets its mark and says whether it was the first; every other
    object keeps its state, and no pointer of any list changes. *)
Lemma mark_live m h o bytes k :
  memory_ok m → live_object m h o bytes k →
  ∃ m', mark m o = Ok (negb k, m') ∧ memory_ok m' ∧ m_objects m' = m_objects m ∧ same_lists m m' ∧
    (∀ h' o' bytes' k', live_object m' h' o' bytes' k' ↔
       if decide (o' = o) then h' = h ∧ bytes' = bytes ∧ k' = true else live_object m h' o' bytes' k').
Proof.
  intros Hm Hl. unfold mark, load_object. destruct Hl as [b s i bytes k Hb Hi|a g Ha].
  - destruct (small_header _ Hm _ _ _ _ _ Hb Hi) as (ob & -> & _ & _ & Hsm & _ & Hbo & Hix & Hl).
    simpl. rewrite Hsm, Hl. simpl. rewrite Hbo, Hix.
    destruct (flags_of_bits (slot_offset s i) k) as (_ & Hma & _ & Hlor & _).
    unfold is_marked. simpl. rewrite Hma, Hlor. pose proof (mem_slab _ Hm _ _ Hb) as Hs.
    set (s' := set_entries _ s). assert (slab_ok b s') as Hs' by by eapply slab_ok_remark.
    assert (∀ j, slot s' j = if decide (j = i) then Some (bytes, true) else slot s j) as Hslot
      by (intros j; by eapply slot_remark).
    assert (memory_ok (store_slab b s' m)) as Hm'.
    { eapply memory_ok_store_slab; try done. intros j bytes' k'. rewrite Hslot.
      destruct (decide (j = i)) as [->|]; [intros [= <- _]|]; eauto. }
    exists (store_slab b s' m). split; [by destruct k|]. split; [done|]. split; [done|]. split.
    { split; [|done]. intros b'. simpl. destruct (decide (b' = b)) as [->|].
      - by rewrite lookup_insert_eq, Hb.
      - by rewrite lookup_insert_ne. }
    intros h' o' bytes' k'. rewrite (live_store_slab _ _ _ _ _ _ _ _ Hm Hb Hm').
    destruct (object_place _ _ Hs i (slot_capacity _ _ Hs _ _ Hi)) as (_ & _ & _ & Hbi & _).
    destruct (decide (o' = object_at b s i)) as [->|Hno].
    + rewrite decide_True by done. split.
      * intros (j & Hj & Heq & ->). rewrite Hslot in Hj. destruct (decide (j = i)) as [->|Hne]; [by simplify_eq|].
        exfalso. apply Hne. symmetry. eapply (object_at_inj b s Hs); [by eapply slot_capacity..|done].
      * intros (-> & -> & ->). exists i. by rewrite Hslot, decide_True.
    + destruct (decide (block_of o' = b)) as [Ho'|]; [|done].
      rewrite (live_in_block _ _ _ _ _ _ _ Hm Hb Ho'). apply exist_proper. intros j. rewrite Hslot.
      destruct (decide (j = i)) as [->|]; [|done]. split; intros (? & ? & ?); done.
  - destruct (large_header _ Hm _ _ Ha) as (ob & -> & _ & Hw & _ & Hsm & Hl).
    simpl. rewrite Hsm, Hw, Hl. simpl. exists (store_large a (set_large_marked true g) m).
    split; [done|]. split; [by eapply memory_ok_store_large|]. split; [done|]. split.
    { split; [done|]. intros a'. simpl. destruct (decide (a' = a)) as [->|].
      - by rewrite lookup_insert_eq, Ha.
      - by rewrite lookup_insert_ne. }
    intros h' o' bytes' k'. by rewrite (live_store_large _ _ _ _ _ _ _ _ Hm Ha).
Qed.

(** Objects in use do not overlap. *)
Definition apart (o bytes o' bytes' : N) : Prop := o + bytes ≤ o' ∨ o' + bytes' ≤ o.

(** A small object lies in its slot. *)
Lemma small_extent m b s i bytes k :
  memory_ok m → m_slabs m !! b = Some s → slot s i = Some (bytes, k) →
  b + sizeof_slab ≤ object_at b s i ∧ object_at b s i + bytes ≤ b + block_bytes ∧ sizeof_header ≤ bytes ∧
  object_at b s i + bytes ≤ object_at b s (i + 1).
Proof.
  intros Hm Hb Hi. pose proof (mem_slab _ Hm _ _ Hb) as Hs.
  destruct (object_place _ _ Hs i (slot_capacity _ _ Hs _ _ Hi)) as (H1 & H2 & _).
  destruct (slot_entry _ _ Hs _ _ _ Hi) as [_ H3]. split_and!; [done|lia|lia|].
  unfold object_at in *. lia.
Qed.

Lemma small_large_apart m b s i bytes k a g :
  memory_ok m → m_slabs m !! b = Some s → slot s i = Some (bytes, k) → m_large m !! a = Some g →
  apart (object_at b s i) bytes (a + sizeof_large) (lg_bytes g).
Proof.
  intros Hm Hb Hi Ha. destruct (small_extent _ _ _ _ _ _ Hm Hb Hi) as (H1 & H2 & _).
  destruct (mem_apart _ Hm _ _ _ _ Ha Hb); unfold apart, sizeof_slab, sizeof_large in *; lia.
Qed.

Lemma live_apart m h o bytes k h' o' bytes' k' :
  memory_ok m → live_object m h o bytes k → live_object m h' o' bytes' k' → o ≠ o' →
  apart o bytes o' bytes'.
Proof.
  intros Hm Hl Hl' Hne. revert Hne.
  destruct Hl as [b s i bytes k Hb Hi|a g Ha], Hl' as [b' s' i' bytes' k' Hb' Hi'|a' g' Ha']; intros Hne.
  - destruct (small_extent _ _ _ _ _ _ Hm Hb Hi) as (H1 & H2 & _ & H3).
    destruct (small_extent _ _ _ _ _ _ Hm Hb' Hi') as (H1' & H2' & _ & H3').
    destruct (decide (b = b')) as [<-|Hbb].
    + rewrite Hb in Hb'. injection Hb' as <-. assert (i ≠ i') by (intros ->; done).
      unfold apart, object_at in *. destruct (N.lt_total i i') as [|[|]]; [left|done|right]; nia.
    + pose proof (slab_aligned _ _ (mem_slab _ Hm _ _ Hb)) as E.
      pose proof (slab_aligned _ _ (mem_slab _ Hm _ _ Hb')) as E'.
      unfold apart, sizeof_slab in *. change block_bytes with 16384 in *. lia.
  - by eapply small_large_apart.
  - destruct (small_large_apart _ _ _ _ _ _ _ _ Hm Hb' Hi' Ha); [right|left]; done.
  - assert (a ≠ a') as Haa by (intros ->; simplify_eq). unfold apart.
    destruct (mem_apart_large _ Hm _ _ _ _ Ha Ha' Haa); [left|right]; unfold sizeof_large in *; lia.
Qed.

(** ** Static objects *)

(** The address belongs to no slab and to no large allocation: static data, such as a
    string literal, lies there. *)
Definition outside (m : memory) (o : N) : Prop :=
  (∀ b, is_Some (m_slabs m !! b) → inside b o = false) ∧
  (∀ a, is_Some (m_large m !! a) → o ≠ a + sizeof_large).

(** Static objects stay what and where they are. *)
Definition keeps_statics (m m' : memory) : Prop :=
  ∀ o ob, outside m o → m_objects m !! o = Some ob → outside m' o ∧ m_objects m' !! o = Some ob.

Lemma keeps_refl m : keeps_statics m m.
Proof. by intros o ob. Qed.

Lemma keeps_trans m1 m2 m3 : keeps_statics m1 m2 → keeps_statics m2 m3 → keeps_statics m1 m3.
Proof. intros H1 H2 o ob Ho Hob. destruct (H1 o ob Ho Hob). by apply H2. Qed.

Lemma keeps_dom m m' :
  (∀ b, is_Some (m_slabs m' !! b) → is_Some (m_slabs m !! b)) →
  (∀ a, is_Some (m_large m' !! a) → is_Some (m_large m !! a)) →
  (∀ o ob, outside m o → m_objects m !! o = Some ob → m_objects m' !! o = Some ob) →
  keeps_statics m m'.
Proof. intros H1 H2 H3 o ob [Hs Hl] Hob. split; [split|]; eauto. by apply H3. Qed.

Lemma keeps_store_slab m b s : is_Some (m_slabs m !! b) → keeps_statics m (store_slab b s m).
Proof. intros Hb. apply keeps_dom; try done. intros x. simpl. rewrite lookup_insert_is_Some. naive_solver. Qed.

Lemma keeps_store_large m a g : is_Some (m_large m !! a) → keeps_statics m (store_large a g m).
Proof. intros Ha. apply keeps_dom; try done. intros x. simpl. rewrite lookup_insert_is_Some. naive_solver. Qed.

Lemma keeps_free_block m b : is_Some (m_slabs m !! b) → keeps_statics m (free_block b m).
Proof.
  intros Hb. apply keeps_dom; try done.
  - intros x. simpl. rewrite lookup_delete_is_Some. by intros [_ ?].
  - intros o ob [Ho _] Hob. simpl. apply map_lookup_filter_Some. split; [done|]. by apply Ho.
Qed.

Lemma keeps_free_large m a : is_Some (m_large m !! a) → keeps_statics m (free_large a m).
Proof.
  intros Ha. apply keeps_dom; try done.
  - intros x. simpl. rewrite lookup_delete_is_Some. by intros [_ ?].
  - intros o ob [_ Ho] Hob. simpl. rewrite lookup_delete_ne; [done|]. intros Heq. by apply (Ho a).
Qed.

(** Marking keeps the lists and the objects. *)
Lemma keeps_same_lists m m' : same_lists m m' → m_objects m' = m_objects m → keeps_statics m m'.
Proof.
  intros [Hs Hl] Hob. apply keeps_dom.
  - intros b [s Hb]. specialize (Hs b). rewrite Hb in Hs. destruct (m_slabs m !! b); [by eexists|done].
  - intros a [g Ha]. specialize (Hl a). rewrite Ha in Hl. destruct (m_large m !! a); [by eexists|done].
  - by rewrite Hob.
Qed.
