(* ===== verification/StorageSafety.v ===== *)
(** * Correctness of the managed storage

    Storages share one memory; a storage owns the slabs and large allocations that
    carry its owner.  Its lists hold exactly what it owns, and each category lists
    exactly the slabs that still have room.  Allocation, sweep, adoption and release
    keep these invariants, and are described by the objects in use before and after. *)

From S2P Require Import Prelude Chains Storage Slabs Memory.

Local Open Scope list_scope.
Local Open Scope N_scope.

(** [lia] sees through division and remainder in this file. *)
Ltac Zify.zify_post_hook ::= Z.to_euclidean_division_equations.

(** ** Ownership *)

Definition owned (m : memory) (h b : N) : option slab :=
  s ← m_slabs m !! b; if decide (sl_owner s = h) then Some s else None.
Definition owned_large (m : memory) (h a : N) : option large :=
  g ← m_large m !! a; if decide (lg_owner g = h) then Some g else None.

Lemma owned_Some m h b s : owned m h b = Some s ↔ m_slabs m !! b = Some s ∧ sl_owner s = h.
Proof.
  unfold owned. destruct (m_slabs m !! b) as [s'|]; simpl; [|naive_solver].
  destruct (decide _); naive_solver.
Qed.

Lemma owned_large_Some m h a g : owned_large m h a = Some g ↔ m_large m !! a = Some g ∧ lg_owner g = h.
Proof.
  unfold owned_large. destruct (m_large m !! a) as [g'|]; simpl; [|naive_solver].
  destruct (decide _); naive_solver.
Qed.

Definition next_block (m : memory) (h b : N) : option N := sl_next <$> owned m h b.
Definition next_available (m : memory) (h b : N) : option N := sl_available_next <$> owned m h b.
Definition next_large (m : memory) (h a : N) : option N := lg_next <$> owned_large m h a.

(** The slabs and large allocations of a storage, in list order. *)
Record block_list (m : memory) (h : N) (st : managed_storage) (bl : list N) : Prop := {
  block_chain : chain (next_block m h) (blocks_ st) bl;
  block_nodup : NoDup bl;
  block_all : ∀ b, b ∈ bl ↔ is_Some (owned m h b);
}.

Record large_list (m : memory) (h : N) (st : managed_storage) (ll : list N) : Prop := {
  large_chain : chain (next_large m h) (large_ st) ll;
  large_nodup : NoDup ll;
  large_all : ∀ a, a ∈ ll ↔ is_Some (owned_large m h a);
}.

(** The available list of a category holds the slabs of [bl] that have room. *)
Definition available_list (m : memory) (h : N) (st : managed_storage) (bl : list N) (c : N) : Prop :=
  ∃ head al, available_ st !! N.to_nat c = Some head ∧ chain (next_available m h) head al ∧ NoDup al ∧
    ∀ b, b ∈ al ↔ b ∈ bl ∧ ∃ s, owned m h b = Some s ∧ sl_category s = c ∧ has_space s = true.

Record storage_ok (m : memory) (h : N) (st : managed_storage) : Prop := {
  storage_blocks : ∃ bl, block_list m h st bl ∧ ∀ c, c < categories → available_list m h st bl c;
  storage_large : ∃ ll, large_list m h st ll;
  storage_available : length (available_ st) = length slot_bytes;
}.

(** ** Framing *)

(** [m'] differs from [m] only in what [h] owns. *)
Definition only_owner (m m' : memory) (h : N) : Prop :=
  (∀ h' b, h' ≠ h → owned m' h' b = owned m h' b) ∧
  (∀ h' a, h' ≠ h → owned_large m' h' a = owned_large m h' a).

Lemma only_owner_refl m h : only_owner m m h.
Proof. done. Qed.

Lemma only_owner_trans m1 m2 m3 h : only_owner m1 m2 h → only_owner m2 m3 h → only_owner m1 m3 h.
Proof. intros [H1 H2] [H3 H4]. split; intros; rewrite ?H3, ?H4; auto. Qed.

Lemma only_owner_slab m b s s' h :
  m_slabs m !! b = Some s → sl_owner s = h → sl_owner s' = h → only_owner m (store_slab b s' m) h.
Proof.
  intros Hb Hs Hs'. split; [|done]. intros h' b' Hne. unfold owned. simpl.
  destruct (decide (b' = b)) as [->|]; [|by rewrite lookup_insert_ne].
  rewrite lookup_insert_eq, Hb. simpl. rewrite !decide_False by congruence. done.
Qed.

Lemma only_owner_large m a g g' h :
  m_large m !! a = Some g → lg_owner g = h → lg_owner g' = h → only_owner m (store_large a g' m) h.
Proof.
  intros Ha Hg Hg'. split; [done|]. intros h' a' Hne. unfold owned_large. simpl.
  destruct (decide (a' = a)) as [->|]; [|by rewrite lookup_insert_ne].
  rewrite lookup_insert_eq, Ha. simpl. rewrite !decide_False by congruence. done.
Qed.

(** What the available list of category [c] reads of a slab. *)
Definition available_view (c : N) (s : slab) : N * bool * N :=
  (sl_category s, has_space s, if sl_category s =? c then sl_available_next s else 0).

(** The available list moves to another owner with its slabs. *)
Lemma available_list_transfer m m' h h' st st' bl c :
  available_ st' !! N.to_nat c = available_ st !! N.to_nat c →
  (∀ b, b ∈ bl → available_view c <$> owned m' h' b = available_view c <$> owned m h b) →
  available_list m h st bl c → available_list m' h' st' bl c.
Proof.
  intros Hst Heq (head & al & Hhead & Hchain & Hnd & Hal).
  assert (∀ b, b ∈ al → next_available m h b = next_available m' h' b) as Hnext.
  { intros b Hb. pose proof Hb as [Hbl (s & Hs & Hc & _)]%Hal. specialize (Heq b Hbl). unfold next_available.
    rewrite Hs in Heq |- *. destruct (owned m' h' b) as [s'|]; [|done]. simpl in Heq. unfold available_view in Heq.
    rewrite Hc in Heq. injection Heq as Hc' _ Hn. rewrite Hc', N.eqb_refl in Hn. simpl. by rewrite Hn. }
  exists head, al. split_and!; [by rewrite Hst| |done|].
  - by eapply chain_ext.
  - intros b. rewrite Hal. split; intros [Hb (s0 & Hs0 & Hc & Hsp)]; (split; [done|]);
      specialize (Heq b Hb); rewrite Hs0 in Heq;
      destruct (owned m' h' b) as [s'|], (owned m h b) as [s|]; simplify_eq/=;
      eexists; split_and!; done || congruence.
Qed.

Section same_owned.
Context (m m' : memory) (h : N).

Lemma available_list_ext st st' bl c :
  available_ st' !! N.to_nat c = available_ st !! N.to_nat c →
  (∀ b, b ∈ bl → available_view c <$> owned m' h b = available_view c <$> owned m h b) →
  available_list m h st bl c → available_list m' h st' bl c.
Proof. apply available_list_transfer. Qed.

Lemma block_list_ext st bl :
  (∀ b, slab_view <$> owned m' h b = slab_view <$> owned m h b) →
  block_list m h st bl → block_list m' h st bl.
Proof.
  intros Heq [Hchain Hnd Hall]. constructor; [|done|].
  - eapply chain_ext; [|done]. intros b _. specialize (Heq b). unfold next_block.
    destruct (owned m' h b), (owned m h b); simplify_eq/=; congruence.
  - intros b. rewrite Hall. specialize (Heq b).
    destruct (owned m' h b), (owned m h b); simplify_eq/=; [|done]. split; by eexists.
Qed.

Lemma large_list_ext st ll :
  (∀ a, large_view <$> owned_large m' h a = large_view <$> owned_large m h a) →
  large_list m h st ll → large_list m' h st ll.
Proof.
  intros Heq [Hchain Hnd Hall]. constructor; [|done|].
  - eapply chain_ext; [|done]. intros a _. specialize (Heq a). unfold next_large.
    destruct (owned_large m' h a), (owned_large m h a); simplify_eq/=; congruence.
  - intros a. rewrite Hall. specialize (Heq a).
    destruct (owned_large m' h a), (owned_large m h a); simplify_eq/=; [|done]. split; by eexists.
Qed.

Lemma storage_ok_ext st :
  (∀ b, slab_view <$> owned m' h b = slab_view <$> owned m h b) →
  (∀ a, large_view <$> owned_large m' h a = large_view <$> owned_large m h a) →
  storage_ok m h st → storage_ok m' h st.
Proof.
  intros Hs Hl [(bl & Hbl & Hav) (ll & Hll) Hlen]. constructor; [|by exists ll; apply large_list_ext|done].
  exists bl. split; [by apply block_list_ext|]. intros c Hc.
  eapply (available_list_ext st); [done| |by apply Hav].
  intros b _. specialize (Hs b). destruct (owned m' h b) as [s0|], (owned m h b) as [s|]; simplify_eq/=; [|done].
  unfold available_view. replace (sl_category s0) with (sl_category s) by done. destruct (_ =? _); congruence.
Qed.
End same_owned.

Lemma storage_ok_frame m m' h h' st :
  only_owner m m' h → h' ≠ h → storage_ok m h' st → storage_ok m' h' st.
Proof. intros [H1 H2] Hne. apply storage_ok_ext; intros; by rewrite ?H1, ?H2. Qed.

Lemma same_lists_owned m m' h :
  same_lists m m' →
  (∀ b, slab_view <$> owned m' h b = slab_view <$> owned m h b) ∧
  (∀ a, large_view <$> owned_large m' h a = large_view <$> owned_large m h a).
Proof.
  intros [Hs Hl]. split.
  - intros b. specialize (Hs b). unfold owned. destruct (m_slabs m' !! b) as [s'|], (m_slabs m !! b) as [s|];
      simplify_eq/=; [|done]. assert (sl_owner s' = sl_owner s) as -> by congruence.
    destruct (decide _); simpl; unfold slab_view; congruence.
  - intros a. specialize (Hl a). unfold owned_large.
    destruct (m_large m' !! a) as [g'|], (m_large m !! a) as [g|]; simplify_eq/=; [|done].
    assert (lg_owner g' = lg_owner g) as -> by congruence.
    destruct (decide _); simpl; unfold large_view; congruence.
Qed.

(** Marking changes no list of any storage. *)
Lemma storage_ok_same_lists m m' h st : same_lists m m' → storage_ok m h st → storage_ok m' h st.
Proof. intros [? ?]%(same_lists_owned _ _ h). by apply storage_ok_ext. Qed.

(** ** Live objects through ownership *)

Lemma live_owned m h o bytes k :
  live_object m h o bytes k ↔
  (∃ b s i, owned m h b = Some s ∧ slot s i = Some (bytes, k) ∧ o = object_at b s i) ∨
  (∃ a g, owned_large m h a = Some g ∧ o = a + sizeof_large ∧ bytes = lg_bytes g ∧ k = lg_marked g).
Proof.
  split.
  - intros [b s i bytes' k' Hb Hi|a g Ha]; [left; exists b, s, i|right; exists a, g];
      rewrite ?owned_Some, ?owned_large_Some; done.
  - intros [(b & s & i & [Hb <-]%owned_Some & Hi & ->)|(a & g & [Ha <-]%owned_large_Some & -> & -> & ->)].
    + by eapply live_small.
    + by apply live_large.
Qed.

(** An operation on one storage leaves the objects of the others alone. *)
Lemma only_owner_live m m' h h' o bytes k :
  only_owner m m' h → h' ≠ h → live_object m' h' o bytes k ↔ live_object m h' o bytes k.
Proof. intros [H1 H2] Hne. rewrite !live_owned. by setoid_rewrite H1; [setoid_rewrite H2|]. Qed.

(** ** The host allocator *)

(** No byte of the region belongs to anything in the memory. *)
Definition free_region (m : memory) (a n : N) : Prop :=
  (∀ b s, m_slabs m !! b = Some s → a + n ≤ b ∨ b + block_bytes ≤ a) ∧
  (∀ a' g, m_large m !! a' = Some g → a + n ≤ a' ∨ a' + sizeof_large + lg_bytes g ≤ a) ∧
  (∀ o, is_Some (m_objects m !! o) → o < a ∨ a + n ≤ o).

(** What the C library promises: a non-null result is an aligned free region. *)
Class LawfulHost `{HostMemory} := {
  allocate_block_ok : ∀ m, allocate_block m ≠ 0 →
    allocate_block m mod block_bytes = 0 ∧ free_region m (allocate_block m) block_bytes;
  malloc_ok : ∀ m n, malloc m n ≠ 0 → malloc m n mod 16 = 0 ∧ free_region m (malloc m n) n;
  residue_length : ∀ m a n, length_N (residue m a n) = n;
}.

(** ** Adding a slab *)

Definition new_slab (st : managed_storage) (h category : N) : slab :=
  mk_slab (blocks_ st) 0 h category (u16 (slab_capacity category)) 0 0 no_slot
    (entries_end (slab_capacity category)) ∅.

Lemma new_slab_ok st h category b :
  category < categories → b ≠ 0 → b mod block_bytes = 0 → slab_ok b (new_slab st h category).
Proof.
  intros Hc Hb Hal. destruct (slab_geometry _ Hc) as (_ & _ & Hcap & _).
  unfold no_slot, u16_max in Hcap. constructor; simpl; try done.
  - apply u16_small. lia.
  - lia.
  - intros i. rewrite lookup_empty. split; [by intros [??]|lia].
  - exists []. split_and!; [done|constructor|]. intros i. split; [set_solver|lia].
Qed.

Lemma new_slab_slot st h category i : slot (new_slab st h category) i = None.
Proof. done. Qed.

Lemma new_slab_space st h category : category < categories → has_space (new_slab st h category) = true.
Proof.
  intros Hc. destruct (slab_geometry _ Hc) as (_ & _ & Hcap & _). unfold no_slot, u16_max in Hcap.
  unfold has_space. simpl. rewrite u16_small by lia. apply N.ltb_lt. lia.
Qed.

Section add_slab.
Context (m : memory) (h : N) (st : managed_storage) (category b : N).
Context (Hm : memory_ok m) (Hst : storage_ok m h st) (Hc : category < categories).
Context (Hb : b ≠ 0) (Hal : b mod block_bytes = 0) (Hfree : free_region m b block_bytes).

Let m' := store_slab b (new_slab st h category) m.
Let st' := set_available category b (set_blocks b st).

Lemma add_slab_fresh : m_slabs m !! b = None.
Proof.
  destruct (m_slabs m !! b) as [s|] eqn:E; [|done]. exfalso.
  pose proof Hfree as (H & _). destruct (H _ _ E); change block_bytes with 16384 in *; lia.
Qed.

Lemma add_slab_owned x :
  owned m' h x = if decide (x = b) then Some (new_slab st h category) else owned m h x.
Proof.
  unfold owned, m'. simpl. destruct (decide (x = b)) as [->|]; [|by rewrite lookup_insert_ne].
  rewrite lookup_insert_eq. simpl. by rewrite decide_True.
Qed.

Lemma add_slab_only_owner : only_owner m m' h.
Proof.
  split; [|done]. intros h' x Hne. unfold owned, m'. simpl.
  destruct (decide (x = b)) as [->|]; [|by rewrite lookup_insert_ne].
  rewrite lookup_insert_eq, add_slab_fresh. simpl. by rewrite decide_False.
Qed.

Lemma add_slab_memory : memory_ok m'.
Proof.
  pose proof Hfree as (_ & Hlarge & _). constructor; simpl.
  - intros x s. rewrite lookup_insert_Some. intros [[<- <-]|[_ H]]; [by apply new_slab_ok|by eapply mem_slab].
  - intros x s i bytes k. rewrite lookup_insert_Some. intros [[<- <-]|[_ H]] Hi; [done|by eapply mem_small].
  - apply (mem_large _ Hm).
  - intros a g x s Ha. rewrite lookup_insert_Some. intros [[<- _]|[_ H]]; [|by eapply mem_apart].
    destruct (Hlarge _ _ Ha); auto.
  - apply (mem_apart_large _ Hm).
Qed.

Lemma add_slab_live h' o bytes k : live_object m' h' o bytes k ↔ live_object m h' o bytes k.
Proof.
  split; intros [x s i bytes' k' Hx Hi|a g Ha]; try by apply live_large.
  - simpl in Hx. rewrite lookup_insert_Some in Hx. destruct Hx as [[<- <-]|[_ Hx]]; [done|by eapply live_small].
  - eapply live_small; [|done]. simpl. rewrite lookup_insert_ne; [done|].
    intros Hbx. subst x. by rewrite add_slab_fresh in Hx.
Qed.

Lemma add_slab_storage : available_ st !! N.to_nat category = Some 0 → storage_ok m' h st'.
Proof.
  intros Hempty. pose proof Hst as [(bl & [Hchain Hnd Hall] & Hav) (ll & Hll) Hlen].
  assert (b ∉ bl) as Hni.
  { rewrite Hall. unfold owned. rewrite add_slab_fresh. by intros [? ?]. }
  assert (∀ x, x ∈ bl → owned m' h x = owned m h x) as Hsame.
  { intros x Hx. rewrite add_slab_owned, decide_False; [done|]. by intros ->. }
  constructor.
  - exists (b :: bl). split; [constructor|].
    + eapply chain_cons; [done| |].
      * unfold next_block. rewrite add_slab_owned, decide_True by done. done.
      * eapply chain_ext; [|done]. intros x Hx. unfold next_block. by rewrite Hsame.
    + by apply NoDup_cons.
    + intros x. rewrite elem_of_cons, Hall, add_slab_owned. destruct (decide (x = b)); [|naive_solver].
      split; [by eexists|by left].
    + intros c Hlt. destruct (Hav c Hlt) as (head & al & Hhead & Hch & Hnda & Hmem).
      assert (∀ x, x ∈ al → x ∈ bl) as Hsub by (intros x Hx; by apply Hmem in Hx as [? _]).
      destruct (decide (c = category)) as [->|Hcc].
      * rewrite Hempty in Hhead. injection Hhead as <-. assert (al = []) as -> by by apply (chain_head _ _ _ Hch).
        exists b, [b]. split_and!.
        -- simpl. rewrite list_lookup_insert_eq; [done|]. rewrite Hlen. change categories with 6 in *. simpl. lia.
        -- eapply chain_cons; [done| |done]. unfold next_available. by rewrite add_slab_owned, decide_True.
        -- apply NoDup_singleton.
        -- intros x. rewrite list_elem_of_singleton, elem_of_cons, add_slab_owned. split.
           ++ intros ->. rewrite decide_True by done. split; [by left|]. eexists. split_and!; [done..|].
              by apply new_slab_space.
           ++ intros [[->|Hx] Hs]; [done|]. rewrite decide_False in Hs by (by intros ->).
              exfalso. eapply (not_elem_of_nil x), Hmem. by split.
      * exists head, al. split_and!; [|..|done|].
        -- simpl. rewrite list_lookup_insert_ne; [done|]. lia.
        -- eapply chain_ext; [|done]. intros x Hx. unfold next_available. rewrite Hsame; auto.
        -- intros x. rewrite Hmem, elem_of_cons, add_slab_owned. destruct (decide (x = b)) as [->|]; [|naive_solver].
           split; [by intros [? _]|]. intros [_ (s & [= <-] & Hcat & _)]. simpl in Hcat. congruence.
  - exists ll. eapply (large_list_ext m); [|by destruct Hll]. done.
  - simpl. by rewrite length_insert.
Qed.
End add_slab.

(** New regions hold no static object. *)
Lemma keeps_add_slab m st h category b :
  free_region m b block_bytes → keeps_statics m (store_slab b (new_slab st h category) m).
Proof.
  intros (_ & _ & Hob) o ob [Hs Hl] Hmap. split; [|done]. split; [|done].
  intros x. simpl. rewrite lookup_insert_is_Some. intros [<-|[_ Hx]]; [|auto].
  destruct (Hob o) as [|]; [by eexists|..]; unfold inside; apply andb_false_iff;
    [left; apply N.leb_gt|right; apply N.ltb_ge]; done.
Qed.

Lemma keeps_add_large m st bytes h a ob :
  free_region m a (sizeof_large + bytes) → 256 < bytes →
  keeps_statics m (store_object (a + sizeof_large) ob (store_large a (mk_large (large_ st) h bytes false) m)).
Proof.
  intros (_ & _ & Hob) Hbig o ob' [Hs Hl] Hmap.
  assert (o ≠ a + sizeof_large) as Hne.
  { destruct (Hob o) as [|]; [by eexists|..]; unfold sizeof_large in *; lia. }
  split; [split; [done|]|simpl; by rewrite lookup_insert_ne].
  intros x. simpl. rewrite lookup_insert_is_Some. intros [<-|[_ Hx]]; auto.
Qed.

(** ** Placing an object in a slab *)

Lemma live_store_object m a ob h o bytes k :
  live_object (store_object a ob m) h o bytes k ↔ live_object m h o bytes k.
Proof.
  split; intros [b s i bytes' k' Hb Hi|a' g Ha]; by (eapply live_small || apply live_large).
Qed.

(** The address of a slot belongs to no other slab and no large allocation. *)
Lemma slot_address_apart m b s i :
  memory_ok m → m_slabs m !! b = Some s → i < sl_capacity s →
  (∀ b' s' j v, m_slabs m !! b' = Some s' → slot s' j = Some v → object_at b' s' j = object_at b s i →
     b' = b ∧ j = i) ∧
  (∀ a g, m_large m !! a = Some g → a + sizeof_large ≠ object_at b s i).
Proof.
  intros Hm Hb Hi. pose proof (mem_slab _ Hm _ _ Hb) as Hs.
  destruct (object_place _ _ Hs i Hi) as (H1 & H2 & _ & Hblock & _). split.
  - intros b' s' j v Hb' Hj Heq. pose proof (mem_slab _ Hm _ _ Hb') as Hs'.
    pose proof (slot_capacity _ _ Hs' _ _ Hj) as Hcap.
    destruct (object_place _ _ Hs' j Hcap) as (_ & _ & _ & Hblock' & _).
    assert (b' = b) as -> by congruence. simplify_eq. split; [done|]. by eapply object_at_inj.
  - intros a g Ha Heq. destruct (mem_large _ Hm _ _ Ha) as (_ & _ & Hbig & _).
    destruct (slab_geometry _ (slab_category _ _ Hs)) as (Hst & _).
    destruct (mem_apart _ Hm _ _ _ _ Ha Hb); unfold sizeof_large, sizeof_slab in *; lia.
Qed.

(** A slot is not static. *)
Lemma place_keeps m b i s s2 ob :
  memory_ok m → m_slabs m !! b = Some s → i < sl_capacity s →
  keeps_statics m (store_object (object_at b s i) ob (store_slab b s2 m)).
Proof.
  intros Hm Hb Hi o ob' Ho Hob. pose proof Ho as [Hs _].
  assert (o ≠ object_at b s i) as Hne.
  { intros ->. pose proof (mem_slab _ Hm _ _ Hb) as Hok. destruct (object_place _ _ Hok i Hi) as (H1 & H2 & _).
    destruct (slab_geometry _ (slab_category _ _ Hok)) as (Hst & _).
    assert (inside b (object_at b s i) = false) as Hin by by apply Hs. unfold inside in Hin.
    apply andb_false_iff in Hin as [Hin|Hin]; [apply N.leb_gt in Hin|apply N.ltb_ge in Hin];
      unfold sizeof_slab in *; lia. }
  destruct (keeps_store_slab m b s2 ltac:(by eexists) o ob' Ho Hob) as [H1 H2].
  split; [done|]. simpl in *. by rewrite lookup_insert_ne.
Qed.

Section place.
Context (m : memory) (h : N) (st : managed_storage) (b i bytes : N) (s s1 s2 : slab) (ob : object).
Context (Hm : memory_ok m) (Hst : storage_ok m h st).
Context (Hb : m_slabs m !! b = Some s) (Hh : sl_owner s = h) (Hspace : has_space s = true).
Context (Hhead : available_ st !! N.to_nat (sl_category s) = Some b).
Context (Hs1 : slab_ok b s1) (Hplace : same_place s s1) (Hcap : i < sl_capacity s).
Context (Hnone : slot s i = None) (Hnew : slot s1 i = Some (bytes, false)).
Context (Hother : ∀ j, j ≠ i → slot s1 j = slot s j).
Context (Hs2 : s2 = if has_space s1 then s1 else set_available_next 0 s1).
Context (Hword : ob_runtime_word ob = N.lor (entry_address b i) 1).
Context (Hlen : sizeof_header + length_N (ob_payload ob) = bytes).

Let o := object_at b s i.
Let m' := store_object o ob (store_slab b s2 m).
Let st' := if has_space s1 then st else set_available (sl_category s) (sl_available_next s1) st.

Lemma place_slab :
  slab_ok b s2 ∧ sl_owner s2 = h ∧ sl_next s2 = sl_next s ∧ sl_category s2 = sl_category s ∧
  sl_object_offset s2 = sl_object_offset s ∧ has_space s2 = has_space s1 ∧
  sl_available_next s2 = (if has_space s1 then sl_available_next s else 0) ∧
  ∀ j, slot s2 j = if decide (j = i) then Some (bytes, false) else slot s j.
Proof.
  destruct Hplace as (H1 & H2 & H3 & H4 & H5 & H6).
  assert (∀ j, slot s1 j = if decide (j = i) then Some (bytes, false) else slot s j) as Hslot.
  { intros j. destruct (decide (j = i)) as [->|]; auto. }
  rewrite Hs2. destruct (has_space s1) eqn:E; split_and!; try done; try (simpl; congruence).
  by apply (slab_ok_links b s1 0 0 0).
Qed.

Lemma place_fresh h' bytes' k : ¬ live_object m h' o bytes' k.
Proof.
  pose proof (mem_slab _ Hm _ _ Hb) as Hs. destruct (object_place _ _ Hs i Hcap) as (_ & _ & _ & Hblock & _).
  intros Hl. apply (live_in_block m b s _ _ _ _ Hm Hb Hblock) in Hl as (j & Hj & Heq & _).
  destruct (slot_address_apart _ _ _ _ Hm Hb Hcap) as [Hap _].
  destruct (Hap _ _ _ _ Hb Hj (eq_sym Heq)) as [_ ->]. congruence.
Qed.

Lemma place_memory : memory_ok m'.
Proof.
  destruct place_slab as (Hok & _ & _ & Hcat & Hoff & _ & _ & Hslot).
  destruct (slot_address_apart _ _ _ _ Hm Hb Hcap) as [Hap1 Hap2].
  assert (∀ j, object_at b s2 j = object_at b s j) as Haddr.
  { intros j. unfold object_at. by rewrite Hcat, Hoff. }
  constructor; simpl.
  - intros x sx. rewrite lookup_insert_Some. intros [[<- <-]|[_ H]]; [done|by eapply mem_slab].
  - intros x sx j bytes' k. rewrite lookup_insert_Some. intros [[<- <-]|[Hne H]] Hj.
    + rewrite Haddr. rewrite Hslot in Hj. destruct (decide (j = i)) as [->|Hji].
      * injection Hj as <- <-. exists ob. rewrite lookup_insert_eq. done.
      * rewrite lookup_insert_ne; [by eapply mem_small|].
        intros Heq. by destruct (Hap1 _ _ _ _ Hb Hj (eq_sym Heq)).
    + rewrite lookup_insert_ne; [by eapply mem_small|].
      intros Heq. by destruct (Hap1 _ _ _ _ H Hj (eq_sym Heq)).
  - intros a g Ha. rewrite lookup_insert_ne; [by apply (mem_large _ Hm)|].
    intros Heq. by apply (Hap2 _ _ Ha).
  - intros a g x sx Ha. rewrite lookup_insert_Some. intros [[<- _]|[_ H]]; by eapply mem_apart.
  - apply (mem_apart_large _ Hm).
Qed.

Lemma place_live h' o' bytes' k :
  live_object m' h' o' bytes' k ↔
  if decide (o' = o) then h' = h ∧ bytes' = bytes ∧ k = false else live_object m h' o' bytes' k.
Proof.
  destruct place_slab as (Hok & Hown & _ & Hcat & Hoff & _ & _ & Hslot).
  pose proof (mem_slab _ Hm _ _ Hb) as Hs. destruct (object_place _ _ Hs i Hcap) as (_ & _ & _ & Hblock & _).
  assert (∀ j, object_at b s2 j = object_at b s j) as Haddr.
  { intros j. unfold object_at. by rewrite Hcat, Hoff. }
  assert (m_slabs m' !! b = Some s2) as Hb' by (simpl; by rewrite lookup_insert_eq).
  destruct (decide (block_of o' = b)) as [Hin|Hout].
  - rewrite (live_in_block _ _ _ _ _ _ _ place_memory Hb' Hin), Hown.
    destruct (decide (o' = o)) as [->|Hne].
    + split.
      * intros (j & Hj & Heq & ->). rewrite Haddr in Heq. rewrite Hslot in Hj.
        destruct (decide (j = i)) as [->|Hji]; [by simplify_eq|].
        destruct (slot_address_apart _ _ _ _ Hm Hb Hcap) as [Hap _].
        by destruct (Hap _ _ _ _ Hb Hj (eq_sym Heq)).
      * intros (-> & -> & ->). exists i. by rewrite Hslot, decide_True.
    + rewrite (live_in_block _ _ _ _ _ _ _ Hm Hb Hin), Hh. apply exist_proper. intros j.
      rewrite Hslot, Haddr. destruct (decide (j = i)) as [->|]; [|done].
      split; intros (? & Heq & _); by destruct (Hne Heq).
  - rewrite decide_False by (intros ->; done).
    assert (∀ x, x ≠ b → m_slabs m' !! x = m_slabs m !! x) as Hsl by (intros x Hx; simpl; by rewrite lookup_insert_ne).
    split; eapply live_other_block; try done; [apply place_memory|]. intros x Hx. by rewrite Hsl.
Qed.

Lemma place_owned x : owned m' h x = if decide (x = b) then Some s2 else owned m h x.
Proof.
  unfold owned. simpl. destruct (decide (x = b)) as [->|]; [|by rewrite lookup_insert_ne].
  rewrite lookup_insert_eq. simpl. rewrite decide_True; [done|]. apply place_slab.
Qed.

Lemma place_only_owner : only_owner m m' h.
Proof. by apply (only_owner_slab m b s s2 h); [..|apply place_slab]. Qed.

Lemma place_available bl c :
  c < categories → b ∈ bl → length (available_ st) = length slot_bytes →
  available_list m h st bl c → available_list m' h st' bl c.
Proof.
  intros Hlt Hbl Hlen' (head & al & Hal & Hch & Hnd & Hmem).
  pose proof place_owned as Hpo. destruct place_slab as (_ & Hown & _ & Hcat & _ & Hsp & Hnx & _).
  assert (owned m h b = Some s) as Hob by by apply owned_Some.
  assert (∀ x, x ≠ b → next_available m h x = next_available m' h x) as Hnext.
  { intros x Hx. unfold next_available. by rewrite Hpo, decide_False. }
  destruct (decide (c = sl_category s)) as [->|Hc].
  - rewrite Hhead in Hal. injection Hal as <-.
    assert (b ∈ al) as Hin by (apply Hmem; split; [done|by exists s]).
    destruct al as [|x al]; [set_solver|]. pose proof Hch as (Hxb & Hx & n & Hn & Hch'). subst x.
    apply NoDup_cons in Hnd as Hnd'. destruct Hnd' as [Hnx' Hnd'].
    unfold next_available in Hn. rewrite Hob in Hn. injection Hn as <-.
    unfold st'. destruct (has_space s1) eqn:E.
    + exists b, (b :: al). split_and!; [done| |done|].
      * eapply chain_cons; [done| |eapply chain_ext; [|done]].
        -- unfold next_available. rewrite Hpo, decide_True by done. simpl. by rewrite Hnx.
        -- intros y Hy. apply Hnext. by intros ->.
      * intros y. rewrite Hmem, Hpo. destruct (decide (y = b)) as [->|]; [|done].
        rewrite Hob. split; intros [? _]; (split; [done|]); eexists; split_and!; done || congruence.
    + exists (sl_available_next s1), al. split_and!; [| |done|].
      * simpl. rewrite list_lookup_insert_eq; [done|]. rewrite Hlen'. change categories with 6 in *. simpl. lia.
      * destruct Hplace as (_ & -> & _). eapply chain_ext; [|done]. intros y Hy. apply Hnext. by intros ->.
      * intros y. rewrite Hpo. split.
        -- intros Hy. assert (y ≠ b) by (by intros ->). rewrite decide_False by done. apply Hmem. set_solver.
        -- intros [Hy (sy & Hsy & Hcy & Hspy)]. destruct (decide (y = b)) as [->|Hyx].
           ++ injection Hsy as <-. congruence.
           ++ assert (y ∈ b :: al) as Hin' by (apply Hmem; eauto). set_solver.
  - assert (b ∉ al) as Hni.
    { rewrite Hmem. intros [_ (s0 & Hs0 & Hc0 & _)]. congruence. }
    exists head, al. split_and!; [| |done|].
    + unfold st'. destruct (has_space s1); [done|]. simpl. rewrite list_lookup_insert_ne; [done|]. lia.
    + eapply chain_ext; [|done]. intros y Hy. apply Hnext. by intros ->.
    + intros y. rewrite Hmem, Hpo. destruct (decide (y = b)) as [->|]; [|done].
      rewrite Hob. split; intros [_ (s0 & [= <-] & Hc0 & _)]; congruence.
Qed.

Lemma place_storage : storage_ok m' h st'.
Proof.
  pose proof Hst as [(bl & [Hchain Hnd Hall] & Hav) (ll & Hll) Hlen'].
  pose proof place_owned as Hpo. destruct place_slab as (_ & Hown & Hnx & _).
  assert (owned m h b = Some s) as Hob by by apply owned_Some.
  assert (b ∈ bl) as Hbl by (apply Hall; by exists s).
  constructor.
  - exists bl. split; [|intros c Hc; by apply place_available, Hav].
    constructor; [|done|].
    + replace (blocks_ st') with (blocks_ st) by (unfold st'; by destruct (has_space s1)).
      eapply chain_ext; [|done]. intros x _. unfold next_block. rewrite Hpo.
      destruct (decide (x = b)) as [->|]; [|done]. rewrite Hob. simpl. by rewrite Hnx.
    + intros x. rewrite Hall, Hpo. destruct (decide (x = b)) as [->|]; [|done].
      rewrite Hob. split; by eexists.
  - exists ll. destruct Hll as [Hlc Hlnd Hlall]. constructor; [|done..].
    by replace (large_ st') with (large_ st) by (unfold st'; by destruct (has_space s1)).
  - unfold st'. destruct (has_space s1); [done|]. simpl. by rewrite length_insert.
Qed.
End place.

(** ** Adding a large object *)

Section add_large.
Context (m : memory) (h : N) (st : managed_storage) (a bytes : N) (ob : object).
Context (Hm : memory_ok m) (Hst : storage_ok m h st) (Hbig : 256 < bytes).
Context (Ha : a ≠ 0) (Hal : a mod 16 = 0) (Hfree : free_region m a (sizeof_large + bytes)).
Context (Hword : ob_runtime_word ob = a) (Hlen : sizeof_header + length_N (ob_payload ob) = bytes).

Let o := a + sizeof_large.
Let g := mk_large (large_ st) h bytes false.
Let m' := store_object o ob (store_large a g m).
Let st' := set_large a st.

Lemma add_large_fresh : m_large m !! a = None ∧ m_objects m !! o = None.
Proof.
  clear - Hfree Hbig. pose proof Hfree as (_ & Hl & Ho). split.
  - destruct (m_large m !! a) as [g0|] eqn:E; [|done]. exfalso.
    destruct (Hl _ _ E); unfold sizeof_large in *; lia.
  - destruct (m_objects m !! o) as [o0|] eqn:E; [|done]. exfalso.
    destruct (Ho o) as [|]; [by exists o0|..]; unfold o, sizeof_large in *; lia.
Qed.

Lemma add_large_memory : memory_ok m'.
Proof.
  pose proof Hfree as (Hsl & Hl & _). destruct add_large_fresh as [_ Ho].
  constructor; simpl.
  - apply (mem_slab _ Hm).
  - intros b s i bytes' k Hb Hi. destruct (mem_small _ Hm _ _ _ _ _ Hb Hi) as (ob' & Hob & Hrest).
    exists ob'. rewrite lookup_insert_ne; [done|]. intros Heq. rewrite <-Heq in Hob. congruence.
  - intros a' g'. rewrite lookup_insert_Some. intros [[<- <-]|[Hne H]].
    + split_and!; try done. exists ob. by rewrite lookup_insert_eq.
    + destruct (mem_large _ Hm _ _ H) as (H1 & H2 & H3 & ob' & Hob & Hrest). split_and!; try done.
      exists ob'. rewrite lookup_insert_ne; [done|]. unfold o, sizeof_large in *. lia.
  - intros a' g' b s. rewrite lookup_insert_Some. intros [[<- <-]|[_ H]] Hb; [|by eapply mem_apart].
    simpl. destruct (Hsl _ _ Hb); [left|right]; unfold sizeof_large in *; lia.
  - intros a1 g1 a2 g2. rewrite !lookup_insert_Some.
    intros [[<- <-]|[_ H1]] [[<- <-]|[_ H2]] Hne; [done| | |by eapply mem_apart_large].
    + simpl. destruct (Hl _ _ H2); [left|right]; unfold sizeof_large in *; lia.
    + simpl. destruct (Hl _ _ H1); [right|left]; unfold sizeof_large in *; lia.
Qed.

Lemma add_large_live h' o' bytes' k :
  live_object m' h' o' bytes' k ↔
  if decide (o' = o) then h' = h ∧ bytes' = bytes ∧ k = false else live_object m h' o' bytes' k.
Proof.
  assert (m_large m' !! a = Some g) as Hg by (simpl; by rewrite lookup_insert_eq).
  assert (∀ h1 bytes1 k1, live_object m' h1 o bytes1 k1 ↔ h1 = h ∧ bytes1 = bytes ∧ k1 = false) as Hat.
  { intros h1 bytes1 k1. pose proof (live_large m' a g Hg) as Hl. split.
    - intros Hl1. by destruct (live_unique _ add_large_memory _ _ _ _ _ _ _ Hl1 Hl) as (-> & -> & ->).
    - intros (-> & -> & ->). exact Hl. }
  destruct (decide (o' = o)) as [->|Hne]; [done|]. split.
  - intros Hl. revert Hne. destruct Hl as [b s i bytes1 k1 Hb Hi|a1 g1 H1]; intros Hne; [by eapply live_small|].
    simpl in H1. rewrite lookup_insert_Some in H1. destruct H1 as [[<- <-]|[_ H1]]; [done|by apply live_large].
  - intros Hl. revert Hne. destruct Hl as [b s i bytes1 k1 Hb Hi|a1 g1 H1]; intros Hne; [by eapply live_small|].
    apply live_large. simpl. rewrite lookup_insert_ne; [done|]. intros Heq. subst a1. done.
Qed.

Lemma add_large_only_owner : only_owner m m' h.
Proof.
  destruct add_large_fresh as [Hn _]. split; [done|]. intros h' x Hne. unfold owned_large. simpl.
  destruct (decide (x = a)) as [->|]; [|by rewrite lookup_insert_ne].
  rewrite lookup_insert_eq, Hn. simpl. by rewrite decide_False.
Qed.

Lemma add_large_storage : storage_ok m' h st'.
Proof.
  pose proof Hst as [(bl & Hbl & Hav) (ll & [Hchain Hnd Hall]) Hlen'].
  assert (∀ x, owned_large m' h x = if decide (x = a) then Some g else owned_large m h x) as Ho.
  { intros x. unfold owned_large. simpl. destruct (decide (x = a)) as [->|]; [|by rewrite lookup_insert_ne].
    rewrite lookup_insert_eq. simpl. by rewrite decide_True. }
  assert (a ∉ ll) as Hni.
  { rewrite Hall. unfold owned_large. destruct add_large_fresh as [-> _]. by intros [? ?]. }
  constructor; [|exists (a :: ll); constructor|done].
  - exists bl. split; [by destruct Hbl|]. exact Hav.
  - eapply chain_cons; [done| |].
    + unfold next_large. by rewrite Ho, decide_True.
    + eapply chain_ext; [|done]. intros x Hx. unfold next_large. rewrite Ho, decide_False; [done|]. by intros ->.
  - by apply NoDup_cons.
  - intros x. rewrite elem_of_cons, Hall, Ho. destruct (decide (x = a)); [|naive_solver].
    split; [by eexists|by left].
Qed.
End add_large.

(** ** Allocation *)

Lemma le_combine_zeros n : le_combine (replicate n x00) = 0.
Proof. induction n as [|n IH]; [done|]. simpl. by rewrite IH. Qed.

(** The object [o] of [bytes] bytes is new in [m'], and all else is as in [m]. *)
Record placed (m m' : memory) (h o bytes : N) (zeroed : bool) : Prop := {
  placed_aligned : o mod 16 = 0;
  placed_fresh : ∀ h' bytes' k, ¬ live_object m h' o bytes' k;
  placed_live : ∀ h' o' bytes' k, live_object m' h' o' bytes' k ↔
    if decide (o' = o) then h' = h ∧ bytes' = bytes ∧ k = false else live_object m h' o' bytes' k;
  placed_header : ∃ ob, m_objects m' !! o = Some ob ∧ sizeof_header + length_N (ob_payload ob) = bytes ∧
    (zeroed = true → ob_type ob = 0 ∧ ob_payload ob = zeros (bytes - sizeof_header));
  placed_others : ∀ o', o' ≠ o → m_objects m' !! o' = m_objects m !! o';
}.

Section allocate.
Context `{LawfulHost}.

Lemma initial_object m zeroed a bytes word :
  sizeof_header ≤ bytes →
  let ob := object_of_bytes (initial_bytes m zeroed a bytes) word in
  sizeof_header + length_N (ob_payload ob) = bytes ∧
  (zeroed = true → ob_type ob = 0 ∧ ob_payload ob = zeros (bytes - sizeof_header)).
Proof.
  intros Hb. unfold object_of_bytes, initial_bytes, zeros. simpl. split.
  - destruct zeroed.
    + unfold length_N. rewrite length_drop, length_replicate. unfold sizeof_header in *. lia.
    + pose proof (residue_length m a bytes) as Hr. unfold length_N in *. rewrite length_drop.
      unfold sizeof_header in *. lia.
  - intros ->. split.
    + rewrite take_replicate. apply le_combine_zeros.
    + rewrite drop_replicate. f_equal. unfold sizeof_header in *. lia.
Qed.

Lemma acquire_block_ok c h m st :
  memory_ok m → storage_ok m h st → c < categories →
  returns (acquire_block c h m st) (λ '(r, m', st'),
    match r with
    | None => m' = m ∧ st' = st
    | Some b => memory_ok m' ∧ storage_ok m' h st' ∧ only_owner m m' h ∧ m_objects m' = m_objects m ∧ keeps_statics m m' ∧
        (∀ h' o bytes k, live_object m' h' o bytes k ↔ live_object m h' o bytes k) ∧
        ∃ s, m_slabs m' !! b = Some s ∧ sl_owner s = h ∧ sl_category s = c ∧ has_space s = true ∧
          available_ st' !! N.to_nat c = Some b
    end).
Proof.
  intros Hm Hst Hc. pose proof Hst as [(bl & Hbl & Hav) _ Hlen].
  destruct (Hav c Hc) as (head & al & Hhead & Hch & Hnd & Hmem).
  unfold acquire_block, available. rewrite Hhead. simpl. case N.eqb_spec; intros Hz; simpl.
  - subst head. case N.eqb_spec; intros Hb; simpl; [by apply returns_Ok|].
    destruct (allocate_block_ok m Hb) as [Hal Hfree]. apply returns_Ok. split_and!.
    + by apply add_slab_memory.
    + by apply add_slab_storage.
    + by apply add_slab_only_owner.
    + done.
    + by apply keeps_add_slab.
    + intros. by apply add_slab_live.
    + eexists. simpl. rewrite lookup_insert_eq. split_and!; [done..|by apply new_slab_space|].
      rewrite list_lookup_insert_eq; [done|]. rewrite Hlen. change categories with 6 in *. simpl. lia.
  - apply returns_Ok. split_and!; try done. destruct al as [|b al]; [done|]. destruct Hch as (-> & _).
    destruct (proj1 (Hmem b)) as [_ (s & [Hs Ho]%owned_Some & Hcat & Hsp)]; [set_solver|]. eauto 10.
Qed.

(** Allocation never fails for lack of a list entry: it returns a new object, apart
    from all others, or null when the host has no memory, and then nothing changed. *)
Lemma allocate_ok bytes h zeroed m st :
  memory_ok m → storage_ok m h st → h ≠ 0 → sizeof_header ≤ bytes →
  returns (allocate bytes h zeroed m st) (λ '(r, m', st'),
    memory_ok m' ∧ storage_ok m' h st' ∧ only_owner m m' h ∧ keeps_statics m m' ∧
    match r with
    | None => m' = m ∧ st' = st
    | Some o => placed m m' h o bytes zeroed
    end).
Proof.
  intros Hm Hst Hh Hbytes. unfold allocate, assert_that.
  rewrite (proj2 (N.leb_le _ _) Hbytes), (proj2 (N.eqb_neq _ _) Hh). simpl.
  destruct (size_class_spec bytes) as [[Hc Hfit]|[Hc Hbig]].
  2: { change (length_N slot_bytes) with categories. rewrite (proj2 (N.eqb_eq _ _) Hc). apply returns_Ok.
       unfold allocate_large. destruct (_ <? _); [done|]. case N.eqb_spec; intros Ha; [done|].
       destruct (malloc_ok m (sizeof_large + bytes) Ha) as [Hal Hfree].
       destruct (initial_object m zeroed (malloc m (sizeof_large + bytes) + sizeof_large) bytes
                   (malloc m (sizeof_large + bytes)) Hbytes) as [Hlen Hzero].
       set (a := malloc m _) in *. set (ob := object_of_bytes _ _) in *.
       split; [by apply add_large_memory|]. split; [by apply add_large_storage|].
       split; [by eapply add_large_only_owner|]. split; [by apply (keeps_add_large m st bytes)|]. constructor.
       - unfold sizeof_large. lia.
       - intros h' bytes' k Hl. destruct (live_header _ Hm _ _ _ _ Hl) as (ob' & Hob & _).
         destruct (add_large_fresh m a bytes Hbig Hfree) as [_ Hn]. congruence.
       - intros. by apply add_large_live.
       - exists ob. simpl. by rewrite lookup_insert_eq.
       - intros o' Ho'. simpl. by rewrite lookup_insert_ne. }
  change (length_N slot_bytes) with categories. rewrite (proj2 (N.eqb_neq _ _)) by lia.
  eapply returns_bind; [by apply acquire_block_ok|]. intros [[[b|] m1] st1].
  2: { intros [-> ->]. by apply returns_Ok. }
  intros (Hm1 & Hst1 & Hown1 & Hobj1 & Hkeep1 & Hlive1 & s & Hb & Hs & Hcat & Hspace & Hav).
  unfold load_slab. rewrite Hb. simpl. rewrite (proj2 (N.eqb_eq _ _) Hs). simpl.
  pose proof (mem_slab _ Hm1 _ _ Hb) as Hok. rewrite <-Hcat in Hfit, Hav |- *.
  destruct (take_slot_ok b s bytes Hok Hspace) as (i & s1 & -> & Hs1 & Hplace & Hi & Hnone & Hnew & Hother);
    [done|]. simpl.
  set (s2 := if negb (has_space s1) then _ else _). set (st2 := if negb (has_space s1) then _ else _).
  assert (s2 = if has_space s1 then s1 else set_available_next 0 s1) as Hs2
    by (unfold s2; by destruct (has_space s1)).
  assert (st2 = if has_space s1 then st1 else set_available (sl_category s) (sl_available_next s1) st1) as Hst2
    by (unfold st2; by destruct (has_space s1)).
  clearbody s2 st2.
  assert (object_at b s2 i = object_at b s i) as ->.
  { destruct (place_slab h st1 b i bytes s s1 s2) as (_ & _ & _ & Hc2 & Ho2 & _); try done.
    unfold object_at. by rewrite Hc2, Ho2. }
  set (ob := object_of_bytes _ _).
  destruct (initial_object m1 zeroed (object_at b s i) bytes (N.lor (entry_address b i) 1) Hbytes) as [Hlen Hzero].
  fold ob in Hlen, Hzero. apply returns_Ok.
  split; [by apply (place_memory m1 h st1 b i bytes s s1 s2 ob)|].
  split; [rewrite Hst2; by apply (place_storage m1 h st1 b i bytes s s1 s2 ob)|].
  split; [eapply only_owner_trans; [done|by apply (place_only_owner m1 h st1 b i bytes s s1 s2 ob)]|].
  split; [eapply keeps_trans; [done|by apply (place_keeps m1 b i s s2 ob)]|].
  constructor.
  - by apply (object_place b s).
  - intros h' bytes' k. rewrite <-Hlive1. by apply (place_fresh m1 b i s).
  - intros h' o' bytes' k. rewrite (place_live m1 h st1 b i bytes s s1 s2 ob) by done.
    destruct (decide _); [done|apply Hlive1].
  - exists ob. simpl. by rewrite lookup_insert_eq.
  - intros o' Ho'. simpl. rewrite lookup_insert_ne by done. by rewrite Hobj1.
Qed.
End allocate.
