(* ===== verification/Sweep.v ===== *)
(** * Visiting and sweeping a storage

    [visit] enumerates exactly the objects in use, and [sweep] keeps exactly the
    marked ones, clears their marks, reports the others and returns empty slabs to the
    host, in one pass over the lists of the storage.

    Adopting and clearing a storage

    [adopt] moves every slab and large allocation of one storage to another without
    moving an object: the objects keep their addresses and contents and change owner.
    [clear] returns everything a storage owns to the host. *)

From S2P Require Import Prelude Chains Storage Slabs Memory StorageSafety.

Local Open Scope list_scope.
Local Open Scope N_scope.

(** [lia] sees through division and remainder in this file. *)
Ltac Zify.zify_post_hook ::= Z.to_euclidean_division_equations.

(** ** The objects of a storage, in list order *)

Definition block_objects (m : memory) (b : N) : list (visited * bool) :=
  from_option (slab_objects b) [] (m_slabs m !! b).
Definition small_objects (m : memory) (bl : list N) : list (visited * bool) := bl ≫= block_objects m.

Definition large_object (m : memory) (a : N) : list (visited * bool) :=
  from_option (λ g, [((a + sizeof_large, lg_bytes g), lg_marked g)]) [] (m_large m !! a).
Definition large_objects (m : memory) (ll : list N) : list (visited * bool) := ll ≫= large_object m.

Definition objects_of (m : memory) (bl ll : list N) : list (visited * bool) :=
  small_objects m bl ++ large_objects m ll.

Lemma elem_of_slab_objects b s o bytes k :
  slab_ok b s →
  (o, bytes, k) ∈ slab_objects b s ↔ ∃ i, slot s i = Some (bytes, k) ∧ o = object_at b s i.
Proof.
  intros Hs. unfold slab_objects. rewrite list_elem_of_omap. unfold slab_object. split.
  - intros (i & _ & Hi). destruct (slot s i) as [[bytes' k']|] eqn:E; simplify_eq/=. eauto.
  - intros (i & Hi & ->). exists i. rewrite Hi. split; [|done].
    apply elem_of_indices. by eapply slot_below.
Qed.

Lemma elem_of_objects m h st bl ll o bytes k :
  memory_ok m → block_list m h st bl → large_list m h st ll →
  (o, bytes, k) ∈ objects_of m bl ll ↔ live_object m h o bytes k.
Proof.
  intros Hm Hbl Hll. unfold objects_of, small_objects, large_objects.
  rewrite elem_of_app, !list_elem_of_bind. split.
  - intros [(b & Hin & Hb)|(a & Hin & Ha)].
    + apply (block_all _ _ _ _ Hbl) in Hb as [s [Hs <-]%owned_Some]. unfold block_objects in Hin.
      rewrite Hs in Hin. apply elem_of_slab_objects in Hin as (i & Hi & ->); [|by eapply mem_slab].
      by eapply live_small.
    + apply (large_all _ _ _ _ Hll) in Ha as [g [Hg <-]%owned_large_Some]. unfold large_object in Hin.
      rewrite Hg in Hin. apply list_elem_of_singleton in Hin as [= -> -> ->]. by apply live_large.
  - intros Hl. remember h as h' eqn:Hh. revert Hh.
    destruct Hl as [b s i bytes' k' Hb Hi|a g Ha]; intros Hh; [left|right].
    + exists b. unfold block_objects. rewrite Hb. simpl. split.
      * apply elem_of_slab_objects; [by eapply mem_slab|eauto].
      * apply (block_all _ _ _ _ Hbl). exists s. by apply owned_Some.
    + exists a. unfold large_object. rewrite Ha. simpl. split; [set_solver|].
      apply (large_all _ _ _ _ Hll). exists g. by apply owned_large_Some.
Qed.

(** ** Visiting *)

Lemma visit_blocks_ok m h l head fuel :
  memory_ok m → chain (next_block m h) head l → (length l < fuel)%nat →
  visit_blocks fuel m head = Ok (fst <$> small_objects m l).
Proof.
  intros Hm. revert head fuel. induction l as [|b l IH]; intros head [|fuel] Hch Hf; try (simpl in Hf; lia).
  - simpl in Hch. by subst.
  - destruct Hch as (-> & Hb & n & Hn & Hch). simpl. rewrite (proj2 (N.eqb_neq _ _) Hb).
    unfold next_block in Hn. apply fmap_Some in Hn as (s & [Hs _]%owned_Some & ->).
    unfold load_slab. rewrite Hs. simpl. rewrite visit_slab_ok by by eapply mem_slab. simpl.
    rewrite (IH _ fuel Hch) by (simpl in Hf; lia). simpl. unfold small_objects. simpl.
    unfold block_objects at 2. rewrite Hs. simpl. by rewrite fmap_app.
Qed.

Lemma visit_large_ok m h l head fuel :
  chain (next_large m h) head l → (length l < fuel)%nat →
  visit_large fuel m head = Ok (fst <$> large_objects m l).
Proof.
  revert head fuel. induction l as [|a l IH]; intros head [|fuel] Hch Hf; try (simpl in Hf; lia).
  - simpl in Hch. by subst.
  - destruct Hch as (-> & Ha & n & Hn & Hch). simpl. rewrite (proj2 (N.eqb_neq _ _) Ha).
    unfold next_large in Hn. apply fmap_Some in Hn as (g & [Hg _]%owned_large_Some & ->).
    unfold load_large. rewrite Hg. simpl. rewrite (IH _ fuel Hch) by (simpl in Hf; lia). simpl.
    unfold large_objects. simpl. unfold large_object at 2. rewrite Hg. done.
Qed.

Lemma list_fuel_ok {A} (elements : gmap N A) (l : list N) :
  NoDup l → (∀ a, a ∈ l → is_Some (elements !! a)) → (length l < list_fuel elements)%nat.
Proof.
  intros Hnd Hin. unfold list_fuel. rewrite <-size_dom, <-(size_list_to_set (C := gset N)) by done.
  apply Nat.lt_succ_r, subseteq_size. intros a. rewrite elem_of_list_to_set, elem_of_dom. apply Hin.
Qed.

Lemma block_fuel m h st bl : block_list m h st bl → (length bl < list_fuel (m_slabs m))%nat.
Proof.
  intros [_ Hnd Hall]. apply list_fuel_ok; [done|]. intros b [s [Hs _]%owned_Some]%Hall. by exists s.
Qed.

Lemma large_fuel m h st ll : large_list m h st ll → (length ll < list_fuel (m_large m))%nat.
Proof.
  intros [_ Hnd Hall]. apply list_fuel_ok; [done|]. intros a [g [Hg _]%owned_large_Some]%Hall. by exists g.
Qed.

Lemma visit_ok m h st bl ll :
  memory_ok m → block_list m h st bl → large_list m h st ll →
  visit m st = Ok (fst <$> objects_of m bl ll).
Proof.
  intros Hm Hbl Hll. unfold visit.
  rewrite (visit_blocks_ok m h bl) by (done || apply Hbl || by eapply block_fuel). rewrite bind_Ok.
  rewrite (visit_large_ok m h ll) by (apply Hll || by eapply large_fuel). simpl.
  unfold objects_of. by rewrite fmap_app.
Qed.

(** ** Freeing a slab or a large allocation *)

Lemma inside_block b a : b mod block_bytes = 0 → inside b a = true ↔ block_of a = b.
Proof.
  intros Hal. unfold inside. rewrite andb_true_iff, N.leb_le, N.ltb_lt. split.
  - by apply block_of_inside.
  - intros <-. rewrite block_of_spec. change block_bytes with 16384. lia.
Qed.

Section free_slab.
Context (m : memory) (b : N) (s : slab) (Hm : memory_ok m) (Hb : m_slabs m !! b = Some s).

Lemma free_block_object o h bytes k :
  block_of o ≠ b → live_object m h o bytes k →
  m_objects (free_block b m) !! o = m_objects m !! o.
Proof.
  intros Ho Hl. destruct (live_header _ Hm _ _ _ _ Hl) as (ob & Hob & _). simpl. rewrite Hob.
  apply map_lookup_filter_Some. split; [done|]. simpl.
  apply not_true_is_false. rewrite inside_block; [done|]. by eapply slab_aligned, mem_slab.
Qed.

Lemma free_block_live h o bytes k :
  live_object (free_block b m) h o bytes k ↔ live_object m h o bytes k ∧ block_of o ≠ b.
Proof.
  split.
  - intros [x sx i bytes' k' Hx Hi|a g Ha].
    + simpl in Hx. apply lookup_delete_Some in Hx as [Hne Hx]. split; [by eapply live_small|].
      pose proof (mem_slab _ Hm _ _ Hx) as Hsx.
      destruct (object_place _ _ Hsx i (slot_capacity _ _ Hsx _ _ Hi)) as (_ & _ & _ & -> & _). done.
    + split; [by apply live_large|]. intros Ho. pose proof (live_large m a g Ha) as Hl.
      apply (live_in_block _ _ _ _ _ _ _ Hm Hb Ho) in Hl as (i & Hi & Heq & _).
      pose proof (mem_slab _ Hm _ _ Hb) as Hs.
      destruct (slot_address_apart _ _ _ i Hm Hb (slot_capacity _ _ Hs _ _ Hi)) as [_ Hap].
      by apply (Hap _ _ Ha).
  - intros [Hl Ho]. revert Ho. destruct Hl as [x sx i bytes' k' Hx Hi|a g Ha]; intros Ho; [|by apply live_large].
    eapply live_small; [|done]. simpl. rewrite lookup_delete_ne; [done|]. intros ->.
    pose proof (mem_slab _ Hm _ _ Hx) as Hsx.
    by destruct (object_place _ _ Hsx i (slot_capacity _ _ Hsx _ _ Hi)) as (_ & _ & _ & ? & _).
Qed.

Lemma free_block_memory : memory_ok (free_block b m).
Proof.
  constructor.
  - intros x sx Hx. simpl in Hx. apply lookup_delete_Some in Hx as [_ Hx]. by eapply mem_slab.
  - intros x sx i bytes k Hx Hi. pose proof (live_small (free_block b m) x sx i bytes k Hx Hi) as Hl.
    apply free_block_live in Hl as [Hl Ho]. rewrite (free_block_object _ _ _ _ Ho Hl).
    simpl in Hx. apply lookup_delete_Some in Hx as [_ Hx]. by eapply mem_small.
  - intros a g Ha. pose proof (live_large (free_block b m) a g Ha) as Hl.
    apply free_block_live in Hl as [Hl Ho]. rewrite (free_block_object _ _ _ _ Ho Hl).
    by apply (mem_large _ Hm).
  - intros a g x sx Ha Hx. simpl in Hx. apply lookup_delete_Some in Hx as [_ Hx]. by eapply mem_apart.
  - apply (mem_apart_large _ Hm).
Qed.

Lemma free_block_only_owner : only_owner m (free_block b m) (sl_owner s).
Proof.
  split; [|done]. intros h' x Hne. unfold owned. simpl. destruct (decide (x = b)) as [->|].
  - rewrite lookup_delete_eq, Hb. simpl. by rewrite decide_False.
  - by rewrite lookup_delete_ne.
Qed.
End free_slab.

(** ** Sweeping the slabs *)

Definition unmark (v : visited * bool) : visited * bool := (v.1, false).

(** What survives a sweep, and in which state. *)
Definition survivors (l : list (visited * bool)) : list (visited * bool) := unmark <$> filter (λ v, ¬ dead v) l.
Definition casualties (l : list (visited * bool)) : list visited := fst <$> filter dead l.

Lemma survivors_app l1 l2 : survivors (l1 ++ l2) = survivors l1 ++ survivors l2.
Proof. unfold survivors. by rewrite filter_app, fmap_app. Qed.

Lemma casualties_app l1 l2 : casualties (l1 ++ l2) = casualties l1 ++ casualties l2.
Proof. unfold casualties. by rewrite filter_app, fmap_app. Qed.

Lemma slab_objects_swept b s s' :
  sl_bump s' = sl_bump s → sl_category s' = sl_category s → sl_object_offset s' = sl_object_offset s →
  (∀ i, slot s' i = swept (slot s i)) → slab_objects b s' = survivors (slab_objects b s).
Proof.
  intros Hb Hc Ho Hslot.
  assert (∀ i, slab_object b s' i = slab_object b s i ≫= λ v, if v.2 : bool then Some (unmark v) else None) as Hobj.
  { intros i. unfold slab_object, object_at. rewrite Hslot, Hc, Ho. by destruct (slot s i) as [[bytes []]|]. }
  unfold slab_objects. rewrite Hb. induction (indices (sl_bump s)) as [|i l IH]; [done|].
  simpl. rewrite Hobj. destruct (slab_object b s i) as [[v []]|]; simpl; [|exact IH..].
  change (unmark (v, true) :: omap (slab_object b s') l = unmark (v, true) :: survivors (omap (slab_object b s) l)).
  by rewrite IH.
Qed.

(** The state of the pass: [done] has been swept and kept, [todo] is to come. *)
Record sweeping (m : memory) (h : N) (st : managed_storage) (done todo : list N) : Prop := {
  sw_memory : memory_ok m;
  sw_blocks : block_list m h st (done ++ todo);
  sw_length : length (available_ st) = length slot_bytes;
  sw_available : ∀ c, c < categories → available_list m h st done c;
}.

(** [m'] is [m] with some objects reclaimed and some marks cleared. *)
Record reclaimed_from (m m' : memory) (h : N) : Prop := {
  rf_owner : only_owner m m' h;
  rf_live : ∀ h' o bytes k, live_object m' h' o bytes k → ∃ k0, live_object m h' o bytes k0;
  rf_headers : ∀ h' o bytes k, live_object m' h' o bytes k → m_objects m' !! o = m_objects m !! o;
  rf_statics : keeps_statics m m';
}.

Lemma reclaimed_refl m h : reclaimed_from m m h.
Proof. constructor; eauto using only_owner_refl, keeps_refl. Qed.

Lemma reclaimed_trans m1 m2 m3 h : reclaimed_from m1 m2 h → reclaimed_from m2 m3 h → reclaimed_from m1 m3 h.
Proof.
  intros [O1 L1 H1 K1] [O2 L2 H2 K2]. constructor; [| | |by eapply keeps_trans].
  - by eapply only_owner_trans.
  - intros h' o bytes k Hl. apply L2 in Hl as [k0 Hl]. eauto.
  - intros h' o bytes k Hl. rewrite (H2 _ _ _ _ Hl). apply L2 in Hl as [k0 Hl]. eauto.
Qed.

Definition link_of (done : list N) : link := match last done with None => at_head | Some b => after b end.

Lemma read_block_link_ok m h st done todo :
  chain (next_block m h) (blocks_ st) (done ++ todo) →
  ∃ p, read_block_link m st (link_of done) = Ok p ∧ chain (next_block m h) p todo.
Proof.
  intros (p & Hp & Hlink)%chain_link. exists p. split; [|done]. unfold link_of.
  destruct (last done) as [b|]; simpl; [|by subst].
  unfold next_block in Hlink. apply fmap_Some in Hlink as (s & [Hs _]%owned_Some & ->).
  unfold load_slab. by rewrite Hs.
Qed.

(** Unlinking [b] from the list. *)
Lemma unlink_block m h st done b todo s :
  memory_ok m → block_list m h st (done ++ b :: todo) → m_slabs m !! b = Some s →
  ∃ m' st', write_block_link (link_of done) (sl_next s) m st = Ok (m', st') ∧
    memory_ok m' ∧ only_owner m m' h ∧ m_objects m' = m_objects m ∧ m_large m' = m_large m ∧
    large_ st' = large_ st ∧ available_ st' = available_ st ∧ m_slabs m' !! b = Some s ∧
    chain (next_block m' h) (blocks_ st') (done ++ todo) ∧
    (∀ x, is_Some (owned m' h x) ↔ is_Some (owned m h x)) ∧
    (∀ c x, available_view c <$> owned m' h x = available_view c <$> owned m h x) ∧
    (∀ x, block_objects m' x = block_objects m x) ∧
    (∀ h' o bytes k, live_object m' h' o bytes k ↔ live_object m h' o bytes k) ∧ keeps_statics m m'.
Proof.
  intros Hm [Hch Hnd Hall] Hb. apply NoDup_app in Hnd as Hnd'. destruct Hnd' as (Hdone & Hdisj & Htodo).
  apply NoDup_cons in Htodo as [Hbt Htodo].
  pose proof (chain_app _ _ _ _ _ Hch) as (_ & Hbz & n & Hn & Htail).
  unfold next_block in Hn. apply fmap_Some in Hn as (s' & [Hs' _]%owned_Some & ->).
  rewrite Hb in Hs'. injection Hs' as <-.
  unfold link_of. destruct (last done) as [p|] eqn:Hlast; simpl.
  2: { apply last_None in Hlast as ->. exists m, (set_blocks (sl_next s) st). split_and!; try done. }
  assert (p ∈ done) as Hp by by apply last_Some_elem_of.
  assert (is_Some (owned m h p)) as [sp Hsp] by (apply Hall; set_solver).
  apply owned_Some in Hsp as Hsp'. destruct Hsp' as [Hmp Howner].
  unfold load_slab. rewrite Hmp. simpl. set (sp' := set_next (sl_next s) sp).
  assert (p ≠ b) as Hpb by (intros ->; set_solver).
  assert (∀ x, owned (store_slab p sp' m) h x = if decide (x = p) then Some sp' else owned m h x) as Ho.
  { intros x. unfold owned. simpl. destruct (decide (x = p)) as [->|]; [|by rewrite lookup_insert_ne].
    rewrite lookup_insert_eq. simpl. by rewrite decide_True. }
  assert (memory_ok (store_slab p sp' m)) as Hm'.
  { eapply memory_ok_store_slab; try done; [by apply slab_ok_links; [exact 0|exact 0|]; eapply mem_slab|eauto]. }
  eexists _, _. split; [done|]. split; [done|].
  split; [by eapply only_owner_slab|]. split_and!; try done.
  - simpl. by rewrite lookup_insert_ne.
  - eapply chain_relink; [exact Hch| | |done].
    + eapply chain_ext; [|exact Htail]. intros x Hx. unfold next_block. rewrite Ho, decide_False; [done|].
      intros ->. set_solver.
    + rewrite Hlast. split_and!; [done| |].
      * unfold next_block. by rewrite Ho, decide_True.
      * intros x _ Hx. unfold next_block. by rewrite Ho, decide_False.
  - intros x. rewrite Ho. destruct (decide (x = p)) as [->|]; [|done]. rewrite Hsp. split; by eexists.
  - intros c x. rewrite Ho. destruct (decide (x = p)) as [->|]; [|done]. by rewrite Hsp.
  - intros x. unfold block_objects. simpl. destruct (decide (x = p)) as [->|]; [|by rewrite lookup_insert_ne].
    by rewrite lookup_insert_eq, Hmp.
  - intros h' o bytes k. rewrite (live_store_slab _ _ _ _ _ _ _ _ Hm Hmp Hm').
    destruct (decide _) as [Hin|]; [|done]. by rewrite (live_in_block _ _ _ _ _ _ _ Hm Hmp Hin).
  - by apply keeps_store_slab.
Qed.

Lemma elem_of_middle {A} (l1 l2 : list A) x y : x ∈ l1 ++ y :: l2 ↔ x = y ∨ x ∈ l1 ++ l2.
Proof. set_solver. Qed.

Lemma slab_objects_nil b s : (∀ i, slot s i = None) → slab_objects b s = [].
Proof.
  intros Hnone. unfold slab_objects. induction (indices (sl_bump s)) as [|i l IH]; [done|].
  simpl. unfold slab_object at 1. rewrite Hnone. exact IH.
Qed.

Lemma small_objects_cons m b l : small_objects m (b :: l) = block_objects m b ++ small_objects m l.
Proof. done. Qed.

Lemma small_objects_ext m m' l :
  (∀ x, x ∈ l → block_objects m' x = block_objects m x) → small_objects m' l = small_objects m l.
Proof.
  intros Heq. induction l as [|x l IH]; [done|].
  rewrite !small_objects_cons, Heq, IH by set_solver. done.
Qed.

(** A slab without survivors leaves the list and the memory. *)
Lemma sweep_free m h st done b todo s m1 st1 :
  sweeping m h st done (b :: todo) → m_slabs m !! b = Some s →
  write_block_link (link_of done) (sl_next s) m st = Ok (m1, st1) →
  sweeping (free_block b m1) h st1 done todo ∧ reclaimed_from m (free_block b m1) h ∧
  (∀ x, x ≠ b → block_objects (free_block b m1) x = block_objects m x) ∧
  m_large (free_block b m1) = m_large m ∧ large_ st1 = large_ st.
Proof.
  intros [Hm Hbl Hlen Hav] Hb Hwrite.
  destruct (unlink_block m h st done b todo s Hm Hbl Hb)
    as (m2 & st2 & Hwrite' & Hm2 & Hown & Hobj & Hlarge & Hls & Has & Hb2 & Hch & Howned & Hview & Hblocks & Hlive & Hkeep).
  rewrite Hwrite in Hwrite'. injection Hwrite' as <- <-.
  pose proof (block_nodup _ _ _ _ Hbl) as Hnd. pose proof (block_all _ _ _ _ Hbl) as Hall.
  assert (b ∉ done ++ todo) as Hni.
  { intros Hin. apply NoDup_app in Hnd as (_ & Hd & Ht).
    apply NoDup_cons in Ht as [Ht _]. set_solver. }
  assert (sl_owner s = h) as Hs.
  { assert (is_Some (owned m h b)) as [s0 [Hs0 ?]%owned_Some] by (apply Hall; set_solver). congruence. }
  assert (∀ x, owned (free_block b m1) h x = if decide (x = b) then None else owned m1 h x) as Ho.
  { intros x. unfold owned. simpl. destruct (decide (x = b)) as [->|]; [by rewrite lookup_delete_eq|].
    by rewrite lookup_delete_ne. }
  split; [constructor|].
  - by eapply free_block_memory.
  - constructor.
    + eapply chain_ext; [|exact Hch]. intros x Hx. unfold next_block. rewrite Ho, decide_False; [done|].
      by intros ->.
    + apply NoDup_app in Hnd as (H1 & H2 & H3). apply NoDup_cons in H3 as [_ H3].
      apply NoDup_app. split_and!; [done| |done]. set_solver.
    + intros x. rewrite Ho. destruct (decide (x = b)) as [->|Hne]; [split; [done|by intros [? ?]]|].
      rewrite Howned, <-Hall, elem_of_middle. naive_solver.
  - by rewrite Has.
  - intros c Hc. eapply available_list_ext; [by rewrite Has| |by apply Hav].
    intros x Hx. rewrite Ho, decide_False by (intros ->; set_solver). apply Hview.
  - split; [constructor|].
    + eapply only_owner_trans; [done|]. rewrite <-Hs. by eapply free_block_only_owner.
    + intros h' o bytes k Hl. apply (free_block_live m1 b s Hm2 Hb2) in Hl as [Hl _].
      rewrite Hlive in Hl. eauto.
    + intros h' o bytes k Hl. apply (free_block_live m1 b s Hm2 Hb2) in Hl as [Hl Hne].
      by rewrite (free_block_object m1 b s Hm2 Hb2 _ _ _ _ Hne Hl), Hobj.
    + eapply keeps_trans; [done|]. by apply keeps_free_block.
    + split; [|by split]. intros x Hx. rewrite <-Hblocks. unfold block_objects. simpl.
      by rewrite lookup_delete_ne.
Qed.

(** A slab with survivors stays, and is available again when it has room. *)
Section keep.
Context (m : memory) (h : N) (st : managed_storage) (done : list N) (b : N) (todo : list N) (s s' : slab) (head : N).
Context (Hsw : sweeping m h st done (b :: todo)) (Hb : m_slabs m !! b = Some s).
Context (Hs' : slab_ok b s') (Hplace : same_place s s') (Hbump : sl_bump s' = sl_bump s).
Context (Hslot : ∀ i, slot s' i = swept (slot s i)).
Context (Hhead : available_ st !! N.to_nat (sl_category s') = Some head).

Let s2 := set_available_next (if has_space s' then head else 0) s'.
Let m' := store_slab b s2 m.
Let st' := if has_space s' then set_available (sl_category s') b st else st.

Lemma keep_facts :
  owned m h b = Some s ∧ b ∉ done ++ todo ∧ b ≠ 0 ∧ memory_ok m' ∧
  ∀ x, owned m' h x = if decide (x = b) then Some s2 else owned m h x.
Proof.
  pose proof Hsw as [Hm Hbl _ _]. pose proof Hplace as (H1 & H2 & H3 & H4 & H5 & H6).
  pose proof (block_nodup _ _ _ _ Hbl) as Hnd. pose proof (block_all _ _ _ _ Hbl) as Hall.
  assert (is_Some (owned m h b)) as [s0 Hs0] by (apply Hall; set_solver).
  apply owned_Some in Hs0 as Hs0'. destruct Hs0' as [Hb0 Hown]. rewrite Hb in Hb0. injection Hb0 as <-.
  split; [done|]. split.
  { intros Hin. apply NoDup_app in Hnd as (_ & Hd & Ht). apply NoDup_cons in Ht as [Ht _]. set_solver. }
  split; [by eapply slab_nonnull|]. split.
  - eapply memory_ok_store_slab; try done; [by apply slab_ok_links; [exact 0|exact 0|]|].
    intros i bytes k. change (slot s2 i) with (slot s' i). rewrite Hslot.
    destruct (slot s i) as [[bytes' []]|]; simpl; [|done..]. intros [= <- <-]. eauto.
  - intros x. unfold owned. simpl. destruct (decide (x = b)) as [->|]; [|by rewrite lookup_insert_ne].
    rewrite lookup_insert_eq. simpl. rewrite decide_True; [done|]. simpl. congruence.
Qed.

Lemma keep_available c : c < categories → available_list m' h st' (done ++ [b]) c.
Proof.
  intros Hc. pose proof Hsw as [_ _ Hlen Hav]. destruct keep_facts as (Hob & Hni & Hbz & _ & Ho).
  destruct (Hav c Hc) as (head0 & al & Hhead0 & Hch & Hnd & Hmem).
  assert (b ∉ al) as Hbal by (rewrite Hmem; set_solver).
  assert (chain (next_available m' h) head0 al) as Hch'.
  { eapply chain_ext; [|done]. intros x Hx. unfold next_available. rewrite Ho, decide_False; [done|]. by intros ->. }
  assert (∀ x, x ≠ b → (x ∈ al ↔ x ∈ done ++ [b] ∧ ∃ s, owned m' h x = Some s ∧ sl_category s = c ∧ has_space s = true))
    as Hmem'.
  { intros x Hx. rewrite Hmem, Ho, decide_False by done. set_solver. }
  destruct (decide (sl_category s' = c ∧ has_space s' = true)) as [[Hcat Hsp]|Hno].
  - unfold st'. rewrite Hsp. subst c. rewrite Hhead in Hhead0. injection Hhead0 as <-.
    exists b, (b :: al). split_and!.
    + simpl. rewrite list_lookup_insert_eq; [done|]. rewrite Hlen. change categories with 6 in *. simpl. lia.
    + eapply chain_cons; [done| |done]. unfold next_available. rewrite Ho, decide_True by done.
      simpl. by rewrite Hsp.
    + by apply NoDup_cons.
    + intros x. destruct (decide (x = b)) as [->|Hx]; [|by rewrite <-Hmem'; set_solver].
      split; [|set_solver]. intros _. split; [set_solver|]. exists s2. by rewrite Ho, decide_True.
  - exists head0, al. split_and!; [|done|done|].
    + unfold st'. destruct (has_space s') eqn:E; [|done]. simpl. rewrite list_lookup_insert_ne; [done|].
      intros Heq. apply Hno. split; [lia|done].
    + intros x. destruct (decide (x = b)) as [->|Hx]; [|by apply Hmem'].
      split; [done|]. intros [_ (s0 & Hs0 & Hc0 & Hsp0)]. rewrite Ho, decide_True in Hs0 by done.
      injection Hs0 as <-. by destruct Hno.
Qed.

Lemma sweep_keep :
  sweeping m' h st' (done ++ [b]) todo ∧ reclaimed_from m m' h ∧
  (∀ x, x ≠ b → block_objects m' x = block_objects m x) ∧
  block_objects m' b = survivors (block_objects m b) ∧
  m_large m' = m_large m ∧ large_ st' = large_ st.
Proof.
  pose proof Hsw as [Hm Hbl Hlen Hav]. destruct keep_facts as (Hob & Hni & Hbz & Hm' & Ho).
  pose proof Hplace as (H1 & H2 & H3 & H4 & H5 & H6).
  split; [constructor; [done|constructor| |apply keep_available]|].
  - rewrite <-app_assoc. replace (blocks_ st') with (blocks_ st) by (unfold st'; by destruct (has_space s')).
    eapply chain_ext; [|apply Hbl]. intros x _. unfold next_block. rewrite Ho.
    destruct (decide (x = b)) as [->|]; [|done]. rewrite Hob. simpl. by rewrite H1.
  - rewrite <-app_assoc. apply Hbl.
  - intros x. rewrite <-app_assoc, (block_all _ _ _ _ Hbl), Ho. destruct (decide (x = b)) as [->|]; [|done].
    rewrite Hob. split; by eexists.
  - unfold st'. destruct (has_space s'); [|done]. simpl. by rewrite length_insert.
  - split; [constructor|].
    + apply owned_Some in Hob as [_ Hown]. eapply only_owner_slab; [done..|]. simpl. congruence.
    + intros h' o bytes k Hl. apply (live_store_slab _ _ _ _ _ _ _ _ Hm Hb Hm') in Hl.
      destruct (decide _) as [Hin|]; [|eauto]. destruct Hl as (i & Hi & -> & ->). change (slot s2 i) with (slot s' i) in Hi.
      rewrite Hslot in Hi. destruct (slot s i) as [[bytes' []]|] eqn:E; simplify_eq/=. exists true.
      apply (live_in_block _ _ _ _ _ _ _ Hm Hb Hin). exists i. split_and!; [done| |congruence].
      unfold object_at. simpl. by rewrite H4, H6.
    + done.
    + by apply keeps_store_slab.
    + split_and!; try done.
      * intros x Hx. unfold block_objects. simpl. by rewrite lookup_insert_ne.
      * unfold block_objects. simpl. rewrite lookup_insert_eq, Hb. simpl.
        by apply (slab_objects_swept b s s2).
      * unfold st'. by destruct (has_space s').
Qed.
End keep.

(** The pass over the slabs. *)
Lemma sweep_blocks_ok h todo fuel m st done r :
  sweeping m h st done todo → (length todo < fuel)%nat →
  ∃ m' st' kept, sweep_blocks fuel (link_of done) m st r = Ok (m', st', r ++ casualties (small_objects m todo)) ∧
    sweeping m' h st' (done ++ kept) [] ∧ reclaimed_from m m' h ∧
    small_objects m' kept = survivors (small_objects m todo) ∧
    (∀ x, x ∉ todo → block_objects m' x = block_objects m x) ∧ kept ⊆ todo ∧
    m_large m' = m_large m ∧ large_ st' = large_ st.
Proof.
  revert fuel m st done r. induction todo as [|b todo IH]; intros [|fuel] m st done r Hsw Hf; try (simpl in Hf; lia).
  - pose proof (sw_blocks _ _ _ _ _ Hsw) as [Hch _ _].
    destruct (read_block_link_ok _ _ _ _ _ Hch) as (p & Hread & ->). simpl. rewrite Hread. simpl.
    exists m, st, []. rewrite !app_nil_r. split_and!; try done. apply reclaimed_refl.
  - pose proof Hsw as [Hm Hbl Hlen Hav].
    destruct (read_block_link_ok _ _ _ _ _ (block_chain _ _ _ _ Hbl)) as (p & Hread & Hp).
    destruct Hp as (-> & Hbz & _).
    assert (is_Some (owned m h b)) as [s [Hb Hown]%owned_Some] by (apply Hbl; set_solver).
    pose proof (mem_slab _ Hm _ _ Hb) as Hs.
    destruct (sweep_slab_ok b s Hs) as (s' & Hrun & Hs' & Hplace & Hbump & Hslot).
    rewrite small_objects_cons, casualties_app, survivors_app, app_assoc.
    simpl. rewrite Hread. simpl. rewrite (proj2 (N.eqb_neq _ _) Hbz). unfold load_slab. rewrite Hb. simpl.
    rewrite Hrun. simpl.
    assert (slab_objects b s = block_objects m b) as Hobjs by (unfold block_objects; by rewrite Hb).
    assert (∀ x, x ∈ todo → x ≠ b) as Htb.
    { pose proof (block_nodup _ _ _ _ Hbl) as (_ & _ & Ht)%NoDup_app. apply NoDup_cons in Ht as [Ht _].
      intros x Hx ->. done. }
    assert (∀ m', (∀ x, x ≠ b → block_objects m' x = block_objects m x) → small_objects m' todo = small_objects m todo)
      as Htodo by (intros m' Heq; apply small_objects_ext; auto).
    rewrite Hobjs.
    fold (casualties (block_objects m b)). case N.eqb_spec; intros Hzero.
    + pose proof (proj1 (live_zero _ _ Hs') Hzero) as Hnone.
      destruct (unlink_block m h st done b todo s Hm Hbl Hb) as (m1 & st1 & Hwrite & _).
      pose proof Hplace as (-> & _ & _ & Hcat & _ & Hoff). rewrite Hwrite. simpl.
      destruct (sweep_free m h st done b todo s m1 st1 Hsw Hb Hwrite) as (Hsw1 & Hrec1 & Hblk1 & Hlg1 & Hls1).
      edestruct (IH fuel (free_block b m1) st1 done) as (m2 & st2 & kept & Hrun2 & Hsw2 & Hrec2 & Hkept & Hblk2 & Hsub & Hlg2 & Hls2);
        [done|simpl in Hf; lia|]. rewrite Hrun2, (Htodo _ Hblk1).
      exists m2, st2, kept. split_and!; try done.
      * by eapply reclaimed_trans.
      * rewrite Hkept, (Htodo _ Hblk1).
        assert (survivors (block_objects m b) = []) as ->; [|done].
        rewrite <-Hobjs, <-(slab_objects_swept b s s'); [by apply slab_objects_nil|done..].
      * intros x Hx. rewrite Hblk2, Hblk1; set_solver.
      * set_solver.
      * congruence.
      * congruence.
    + pose proof Hplace as (_ & _ & _ & Hcat & _ & Hoff).
      assert (sl_category s' < categories) as Hc by apply Hs'.
      destruct (Hav (sl_category s') Hc) as (head & _ & Hhead & _).
      destruct (sweep_keep m h st done b todo s s' head Hsw Hb Hs' Hplace Hbump Hslot Hhead)
        as (Hsw1 & Hrec1 & Hblk1 & Hkept1 & Hlg1 & Hls1).
      set (s2 := set_available_next (if has_space s' then head else 0) s') in *.
      set (st1 := if has_space s' then set_available (sl_category s') b st else st) in *.
      match goal with |- context [mbind _ ?x] => assert (x = Ok (s2, st1)) as -> end.
      { unfold s2, st1, available. change (has_space (set_available_next 0 s')) with (has_space s'). simpl.
        rewrite Hhead. by destruct (has_space s'). }
      simpl. replace (after b) with (link_of (done ++ [b])) by (unfold link_of; by rewrite last_snoc).
      edestruct (IH fuel (store_slab b s2 m) st1 (done ++ [b]))
        as (m2 & st2 & kept & Hrun2 & Hsw2 & Hrec2 & Hkept & Hblk2 & Hsub & Hlg2 & Hls2);
        [done|simpl in Hf; lia|]. rewrite Hrun2, (Htodo _ Hblk1).
      exists m2, st2, (b :: kept). rewrite <-app_assoc in Hsw2. split_and!; try done.
      * by eapply reclaimed_trans.
      * rewrite small_objects_cons, Hkept, (Htodo _ Hblk1), Hblk2, Hkept1; [done|].
        intros Hin. by apply (Htb b).
      * intros x Hx. rewrite Hblk2, Hblk1; set_solver.
      * set_solver.
      * congruence.
Qed.

(** ** Sweeping the large objects *)

Lemma read_large_link_ok m h st done todo :
  chain (next_large m h) (large_ st) (done ++ todo) →
  ∃ p, read_large_link m st (link_of done) = Ok p ∧ chain (next_large m h) p todo.
Proof.
  intros (p & Hp & Hlink)%chain_link. exists p. split; [|done]. unfold link_of.
  destruct (last done) as [a|]; simpl; [|by subst].
  unfold next_large in Hlink. apply fmap_Some in Hlink as (g & [Hg _]%owned_large_Some & ->).
  unfold load_large. by rewrite Hg.
Qed.

Lemma large_objects_cons m a l : large_objects m (a :: l) = large_object m a ++ large_objects m l.
Proof. done. Qed.

Lemma large_objects_ext m m' l :
  (∀ x, x ∈ l → large_object m' x = large_object m x) → large_objects m' l = large_objects m l.
Proof.
  intros Heq. induction l as [|x l IH]; [done|].
  rewrite !large_objects_cons, Heq, IH by set_solver. done.
Qed.

(** Unlinking a large allocation. *)
Lemma unlink_large m h st done a todo g :
  memory_ok m → large_list m h st (done ++ a :: todo) → m_large m !! a = Some g →
  ∃ m' st', write_large_link (link_of done) (lg_next g) m st = Ok (m', st') ∧
    memory_ok m' ∧ only_owner m m' h ∧ m_objects m' = m_objects m ∧ m_slabs m' = m_slabs m ∧
    blocks_ st' = blocks_ st ∧ available_ st' = available_ st ∧ m_large m' !! a = Some g ∧
    chain (next_large m' h) (large_ st') (done ++ todo) ∧
    (∀ x, is_Some (owned_large m' h x) ↔ is_Some (owned_large m h x)) ∧
    (∀ x, large_object m' x = large_object m x) ∧
    (∀ h' o bytes k, live_object m' h' o bytes k ↔ live_object m h' o bytes k) ∧ keeps_statics m m'.
Proof.
  intros Hm [Hch Hnd Hall] Ha. apply NoDup_app in Hnd as Hnd'. destruct Hnd' as (Hdone & Hdisj & Htodo).
  apply NoDup_cons in Htodo as [Hat Htodo].
  pose proof (chain_app _ _ _ _ _ Hch) as (_ & Haz & n & Hn & Htail).
  unfold next_large in Hn. apply fmap_Some in Hn as (g' & [Hg' _]%owned_large_Some & ->).
  rewrite Ha in Hg'. injection Hg' as <-.
  unfold link_of. destruct (last done) as [p|] eqn:Hlast; simpl.
  2: { apply last_None in Hlast as ->. exists m, (set_large (lg_next g) st). split_and!; try done. }
  assert (p ∈ done) as Hp by by apply last_Some_elem_of.
  assert (is_Some (owned_large m h p)) as [gp Hgp] by (apply Hall; set_solver).
  apply owned_large_Some in Hgp as Hgp'. destruct Hgp' as [Hmp Howner].
  unfold load_large. rewrite Hmp. simpl. set (gp' := set_large_next (lg_next g) gp).
  assert (p ≠ a) as Hpa by (intros ->; set_solver).
  assert (∀ x, owned_large (store_large p gp' m) h x = if decide (x = p) then Some gp' else owned_large m h x) as Ho.
  { intros x. unfold owned_large. simpl. destruct (decide (x = p)) as [->|]; [|by rewrite lookup_insert_ne].
    rewrite lookup_insert_eq. simpl. by rewrite decide_True. }
  eexists _, _. split; [done|]. split; [by eapply memory_ok_store_large|].
  split; [by eapply only_owner_large|].
  split_and!; try done.
  - simpl. by rewrite lookup_insert_ne.
  - eapply chain_relink; [exact Hch| | |done].
    + eapply chain_ext; [|exact Htail]. intros x Hx. unfold next_large. rewrite Ho, decide_False; [done|].
      intros ->. set_solver.
    + rewrite Hlast. split_and!; [done| |].
      * unfold next_large. by rewrite Ho, decide_True.
      * intros x _ Hx. unfold next_large. by rewrite Ho, decide_False.
  - intros x. rewrite Ho. destruct (decide (x = p)) as [->|]; [|done]. rewrite Hgp. split; by eexists.
  - intros x. unfold large_object. simpl. destruct (decide (x = p)) as [->|]; [|by rewrite lookup_insert_ne].
    by rewrite lookup_insert_eq, Hmp.
  - intros h' o bytes k. rewrite (live_store_large _ _ _ _ _ _ _ _ Hm Hmp).
    destruct (decide _) as [->|]; [|done]. split.
    + intros (-> & -> & ->). exact (live_large m p gp Hmp).
    + intros Hl. by destruct (live_unique _ Hm _ _ _ _ _ _ _ Hl (live_large _ _ _ Hmp)) as (-> & -> & ->).
  - by apply keeps_store_large.
Qed.

Section free_large.
Context (m : memory) (a : N) (g : large) (Hm : memory_ok m) (Ha : m_large m !! a = Some g).

Lemma free_large_live h o bytes k :
  live_object (free_large a m) h o bytes k ↔ live_object m h o bytes k ∧ o ≠ a + sizeof_large.
Proof.
  assert (∀ b s i v, m_slabs m !! b = Some s → slot s i = Some v → object_at b s i ≠ a + sizeof_large) as Hsmall.
  { intros b s i v Hb Hi Heq. pose proof (mem_slab _ Hm _ _ Hb) as Hs.
    destruct (slot_address_apart _ _ _ i Hm Hb (slot_capacity _ _ Hs _ _ Hi)) as [_ Hap].
    by apply (Hap _ _ Ha). }
  split.
  - intros [b s i bytes' k' Hb Hi|a' g' Ha'].
    + split; [by eapply live_small|eauto].
    + simpl in Ha'. apply lookup_delete_Some in Ha' as [Hne Ha']. split; [by apply live_large|].
      unfold sizeof_large. lia.
  - intros [Hl Ho]. revert Ho. destruct Hl as [b s i bytes' k' Hb Hi|a' g' Ha']; intros Ho; [by eapply live_small|].
    apply live_large. simpl. rewrite lookup_delete_ne; [done|]. intros ->. done.
Qed.

Lemma free_large_object h o bytes k :
  live_object (free_large a m) h o bytes k → m_objects (free_large a m) !! o = m_objects m !! o.
Proof. intros [_ Ho]%free_large_live. simpl. by rewrite lookup_delete_ne. Qed.

Lemma free_large_memory : memory_ok (free_large a m).
Proof.
  constructor.
  - apply (mem_slab _ Hm).
  - intros b s i bytes k Hb Hi. pose proof (live_small (free_large a m) b s i bytes k Hb Hi) as Hl.
    rewrite (free_large_object _ _ _ _ Hl). by eapply mem_small.
  - intros a' g' Ha'. pose proof (live_large (free_large a m) a' g' Ha') as Hl.
    rewrite (free_large_object _ _ _ _ Hl). simpl in Ha'. apply lookup_delete_Some in Ha' as [_ Ha'].
    by apply (mem_large _ Hm).
  - intros a' g' b s Ha' Hb. simpl in Ha'. apply lookup_delete_Some in Ha' as [_ Ha']. by eapply mem_apart.
  - intros a1 g1 a2 g2 H1 H2. simpl in H1, H2. apply lookup_delete_Some in H1 as [_ H1], H2 as [_ H2].
    by eapply mem_apart_large.
Qed.

Lemma free_large_only_owner : only_owner m (free_large a m) (lg_owner g).
Proof.
  split; [done|]. intros h' x Hne. unfold owned_large. simpl. destruct (decide (x = a)) as [->|].
  - rewrite lookup_delete_eq, Ha. simpl. by rewrite decide_False.
  - by rewrite lookup_delete_ne.
Qed.
End free_large.

(** A marked large object stays, unmarked. *)
Lemma large_keep m h st done a todo g :
  memory_ok m → large_list m h st (done ++ a :: todo) → m_large m !! a = Some g →
  let m' := store_large a (set_large_marked false g) m in
  memory_ok m' ∧ large_list m' h st ((done ++ [a]) ++ todo) ∧ reclaimed_from m m' h ∧
  (∀ x, x ≠ a → large_object m' x = large_object m x) ∧
  large_object m' a = [((a + sizeof_large, lg_bytes g), false)].
Proof.
  intros Hm Hll Ha m'. assert (is_Some (owned_large m h a)) as [g' Hg] by (apply Hll; set_solver).
  apply owned_large_Some in Hg as Hg'. destruct Hg' as [Ha' Hown]. rewrite Ha in Ha'. injection Ha' as <-.
  split; [by eapply memory_ok_store_large|]. split; [|split; [constructor|split]].
  - rewrite <-app_assoc. eapply (large_list_ext m); [|done]. intros x. unfold owned_large. simpl.
    destruct (decide (x = a)) as [->|]; [|by rewrite lookup_insert_ne].
    rewrite lookup_insert_eq, Ha. simpl. by destruct (decide _).
  - by eapply only_owner_large.
  - intros h' o bytes k Hl. apply (live_store_large _ _ _ _ _ _ _ _ Hm Ha) in Hl.
    destruct (decide _) as [->|]; [|eauto]. destruct Hl as (-> & -> & ->). eexists. exact (live_large m a g Ha).
  - done.
  - by apply keeps_store_large.
  - intros x Hx. unfold large_object. simpl. by rewrite lookup_insert_ne.
  - unfold large_object. simpl. by rewrite lookup_insert_eq.
Qed.

(** An unmarked large object leaves the list and the memory. *)
Lemma large_free m h st done a todo g :
  memory_ok m → large_list m h st (done ++ a :: todo) → m_large m !! a = Some g →
  ∃ m1 st1, write_large_link (link_of done) (lg_next g) m st = Ok (m1, st1) ∧
    let m' := free_large a m1 in
    memory_ok m' ∧ large_list m' h st1 (done ++ todo) ∧ reclaimed_from m m' h ∧
    (∀ x, x ≠ a → large_object m' x = large_object m x) ∧
    m_slabs m' = m_slabs m ∧ blocks_ st1 = blocks_ st ∧ available_ st1 = available_ st.
Proof.
  intros Hm Hll Ha. destruct (unlink_large m h st done a todo g Hm Hll Ha)
    as (m1 & st1 & Hwrite & Hm1 & Hown1 & Hobj1 & Hsl1 & Hbs1 & Hav1 & Ha1 & Hch1 & Howned1 & Hlo1 & Hlive1 & Hkeep1).
  exists m1, st1. split; [done|]. intros m'.
  assert (lg_owner g = h) as Hown.
  { assert (is_Some (owned_large m h a)) as [g' [Hg' ?]%owned_large_Some] by (apply Hll; set_solver). congruence. }
  pose proof (large_nodup _ _ _ _ Hll) as (Hd & Hdisj & Ht)%NoDup_app. apply NoDup_cons in Ht as [Hat Ht].
  assert (a ∉ done ++ todo) as Hni by set_solver.
  assert (∀ x, owned_large m' h x = if decide (x = a) then None else owned_large m1 h x) as Ho.
  { intros x. unfold owned_large. simpl. destruct (decide (x = a)) as [->|]; [by rewrite lookup_delete_eq|].
    by rewrite lookup_delete_ne. }
  split; [by eapply free_large_memory|]. split; [constructor|split; [constructor|split_and!]]; try done.
  - eapply chain_ext; [|exact Hch1]. intros x Hx. unfold next_large. rewrite Ho, decide_False; [done|]. by intros ->.
  - apply NoDup_app. split_and!; [done| |done]. set_solver.
  - intros x. rewrite Ho. destruct (decide (x = a)) as [->|Hne]; [split; [done|by intros [? ?]]|].
    rewrite Howned1, <-(large_all _ _ _ _ Hll), elem_of_middle. naive_solver.
  - eapply only_owner_trans; [done|]. rewrite <-Hown. by eapply free_large_only_owner.
  - intros h' o bytes k Hl. apply (free_large_live m1 a g Hm1 Ha1) in Hl as [Hl _]. rewrite Hlive1 in Hl. eauto.
  - intros h' o bytes k Hl. etrans; [by eapply free_large_object|]. by rewrite Hobj1.
  - eapply keeps_trans; [done|]. by apply keeps_free_large.
  - intros x Hx. rewrite <-Hlo1. unfold large_object. simpl. by rewrite lookup_delete_ne.
Qed.

(** The pass over the large allocations. *)
Lemma sweep_large_ok h todo fuel m st done r :
  memory_ok m → large_list m h st (done ++ todo) → (length todo < fuel)%nat →
  ∃ m' st' kept, sweep_large fuel (link_of done) m st r = Ok (m', st', r ++ casualties (large_objects m todo)) ∧
    memory_ok m' ∧ large_list m' h st' (done ++ kept) ∧ reclaimed_from m m' h ∧
    large_objects m' kept = survivors (large_objects m todo) ∧
    (∀ x, x ∉ todo → large_object m' x = large_object m x) ∧ kept ⊆ todo ∧
    m_slabs m' = m_slabs m ∧ blocks_ st' = blocks_ st ∧ available_ st' = available_ st.
Proof.
  revert fuel m st done r. induction todo as [|a todo IH]; intros [|fuel] m st done r Hm Hll Hf; try (simpl in Hf; lia).
  - destruct (read_large_link_ok _ _ _ _ _ (large_chain _ _ _ _ Hll)) as (p & Hread & ->).
    simpl. rewrite Hread. simpl. exists m, st, []. rewrite !app_nil_r in *. split_and!; try done. apply reclaimed_refl.
  - destruct (read_large_link_ok _ _ _ _ _ (large_chain _ _ _ _ Hll)) as (p & Hread & (-> & Haz & _)).
    assert (is_Some (owned_large m h a)) as [g [Ha Hown]%owned_large_Some] by (apply Hll; set_solver).
    pose proof (large_nodup _ _ _ _ Hll) as (_ & _ & [Hat _]%NoDup_cons)%NoDup_app.
    rewrite large_objects_cons, casualties_app, survivors_app, app_assoc.
    replace (large_object m a) with [((a + sizeof_large, lg_bytes g), lg_marked g)]
      by (unfold large_object; by rewrite Ha).
    simpl. rewrite Hread. simpl. rewrite (proj2 (N.eqb_neq _ _) Haz). unfold load_large. rewrite Ha. simpl.
    assert (∀ m', (∀ x, x ≠ a → large_object m' x = large_object m x) → large_objects m' todo = large_objects m todo)
      as Hobjs by (intros m' Heq; apply large_objects_ext; intros x Hx; apply Heq; by intros ->).
    destruct (lg_marked g) eqn:Hmark.
    + destruct (large_keep m h st done a todo g Hm Hll Ha) as (Hm1 & Hll1 & Hrec1 & Hblk1 & Hkept1).
      replace (after a) with (link_of (done ++ [a])) by (unfold link_of; by rewrite last_snoc).
      edestruct (IH fuel) as (m2 & st2 & kept & Hrun2 & Hm2 & Hll2 & Hrec2 & Hkept & Hblk2 & Hsub & Hsl & Hbs & Hav);
        [exact Hm1|exact Hll1|simpl in Hf; lia|].
      rewrite Hrun2, (Hobjs _ Hblk1). exists m2, st2, (a :: kept). rewrite <-app_assoc in Hll2.
      change (casualties [(a + sizeof_large, lg_bytes g, true)]) with (@nil visited). rewrite app_nil_r.
      split; [done|]. split; [done|]. split; [done|]. split; [by eapply reclaimed_trans|].
      rewrite large_objects_cons, Hkept, (Hobjs _ Hblk1), Hblk2, Hkept1 by done.
      split_and!; [done| |set_solver|done..]. intros x Hx. rewrite Hblk2, Hblk1; set_solver.
    + destruct (large_free m h st done a todo g Hm Hll Ha)
        as (m1 & st1 & -> & Hm1 & Hll1 & Hrec1 & Hblk1 & Hsl1 & Hbs1 & Hav1). simpl.
      edestruct (IH fuel) as (m2 & st2 & kept & Hrun2 & Hm2 & Hll2 & Hrec2 & Hkept & Hblk2 & Hsub & Hsl & Hbs & Hav);
        [exact Hm1|exact Hll1|simpl in Hf; lia|].
      rewrite Hrun2, (Hobjs _ Hblk1). exists m2, st2, kept.
      split; [done|]. split; [done|]. split; [done|]. split; [by eapply reclaimed_trans|].
      rewrite Hkept, (Hobjs _ Hblk1).
      split_and!; [done| |set_solver|congruence..]. intros x Hx. rewrite Hblk2, Hblk1; set_solver.
Qed.

(** ** The whole sweep *)

Lemma no_available_lookup c : c < categories → no_available !! N.to_nat c = Some 0.
Proof. revert c. by apply category_cases. Qed.

Lemma sweep_ok m h st bl ll :
  memory_ok m → block_list m h st bl → large_list m h st ll →
  ∃ m' st' bl' ll', sweep m st = Ok (m', st', casualties (objects_of m bl ll)) ∧
    memory_ok m' ∧ block_list m' h st' bl' ∧ large_list m' h st' ll' ∧ storage_ok m' h st' ∧
    objects_of m' bl' ll' = survivors (objects_of m bl ll) ∧ reclaimed_from m m' h.
Proof.
  intros Hm Hbl Hll. unfold sweep. set (st0 := mk_storage _ _ no_available).
  assert (sweeping m h st0 [] bl) as Hsw.
  { constructor; [done|by destruct Hbl|done|]. intros c Hc. exists 0, [].
    split_and!; [by apply no_available_lookup|done|constructor|set_solver]. }
  destruct (sweep_blocks_ok h bl (list_fuel (m_slabs m)) m st0 [] [] Hsw)
    as (m1 & st1 & kept & Hrun1 & Hsw1 & Hrec1 & Hkept1 & _ & _ & Hlg1 & Hls1); [by eapply block_fuel|].
  change (link_of []) with at_head in Hrun1. rewrite Hrun1, bind_Ok, app_nil_l.
  destruct Hsw1 as [Hm1 Hbl1 Hlen1 Hav1]. rewrite app_nil_r in Hbl1. simpl in Hbl1, Hav1.
  assert (large_list m1 h st1 ([] ++ ll)) as Hll1.
  { destruct Hll as [Hch Hnd Hall]. unfold next_large, owned_large in *. constructor; [|done|].
    - rewrite Hls1. eapply chain_ext; [|done]. intros a _. unfold next_large, owned_large. by rewrite Hlg1.
    - intros a. unfold owned_large. by rewrite Hlg1. }
  assert (∀ x, large_object m1 x = large_object m x) as Hlo by (intros x; unfold large_object; by rewrite Hlg1).
  destruct (sweep_large_ok h ll (list_fuel (m_large m1)) m1 st1 [] (casualties (small_objects m bl)) Hm1 Hll1)
    as (m2 & st2 & kept2 & Hrun2 & Hm2 & Hll2 & Hrec2 & Hkept2 & _ & _ & Hsl2 & Hbs2 & Hav2);
    [by eapply (large_fuel m1 h st1)|].
  change (link_of []) with at_head in Hrun2. rewrite Hrun2.
  assert (∀ b, owned m2 h b = owned m1 h b) as Ho by (intros b; unfold owned; by rewrite Hsl2).
  assert (block_list m2 h st2 kept) as Hbl2.
  { destruct Hbl1 as [Hch Hnd Hall]. constructor; [|done|].
    - rewrite Hbs2. eapply chain_ext; [|done]. intros b _. unfold next_block. by rewrite Ho.
    - intros b. by rewrite Ho. }
  exists m2, st2, kept, kept2. unfold objects_of. rewrite casualties_app, survivors_app.
  rewrite (large_objects_ext m m1) by auto. split; [done|]. split; [done|]. split; [done|]. split; [done|].
  split; [constructor|split].
  - exists kept. split; [done|]. intros c Hc. eapply available_list_ext; [by rewrite Hav2| |by apply Hav1].
    intros b _. by rewrite Ho.
  - by exists kept2.
  - by rewrite Hav2.
  - rewrite Hkept2, (large_objects_ext m m1) by auto. rewrite <-Hkept1. f_equal. apply small_objects_ext.
    intros x _. unfold block_objects. by rewrite Hsl2.
  - by eapply reclaimed_trans.
Qed.

(** ** Each object is visited once *)

Definition addresses (l : list (visited * bool)) : list N := (λ v, v.1.1) <$> l.

Lemma omap_fmap_NoDup {A B C} (f : A → option B) (g : B → C) (l : list A) :
  NoDup l → (∀ x y a b, x ∈ l → y ∈ l → f x = Some a → f y = Some b → g a = g b → x = y) →
  NoDup (g <$> omap f l).
Proof.
  induction l as [|x l IH]; intros Hnd Hinj; simpl; [constructor|].
  apply NoDup_cons in Hnd as [Hx Hnd].
  assert (NoDup (g <$> omap f l)) as Hl by (apply IH; [done|]; intros; eapply Hinj; eauto; set_solver).
  destruct (f x) as [a|] eqn:Ha; [|done]. simpl. apply NoDup_cons. split; [|done].
  rewrite list_elem_of_fmap. intros (b & Hgb & Hb). apply list_elem_of_omap in Hb as (y & Hy & Hfy).
  apply Hx. rewrite (Hinj x y a b); [done|set_solver..|done|done|done].
Qed.

Lemma slab_addresses_nodup b s : slab_ok b s → NoDup (addresses (slab_objects b s)).
Proof.
  intros Hs. unfold addresses, slab_objects. apply omap_fmap_NoDup; [apply NoDup_indices|].
  intros i j [[o1 bytes1] k1] [[o2 bytes2] k2] _ _. unfold slab_object.
  destruct (slot s i) as [[? ?]|] eqn:Hi; [|done]. destruct (slot s j) as [[? ?]|] eqn:Hj; [|done].
  intros [= <- <- <-] [= <- <- <-] Heq. simpl in Heq.
  eapply (object_at_inj b s Hs); [by eapply slot_capacity..|done].
Qed.

Lemma objects_nodup m h st bl ll :
  memory_ok m → block_list m h st bl → large_list m h st ll → NoDup (addresses (objects_of m bl ll)).
Proof.
  intros Hm [_ Hnd Hall] [_ Hnd' Hall']. unfold objects_of, addresses. rewrite fmap_app. apply NoDup_app. split_and!.
  - assert (∀ b, b ∈ bl → ∃ s, m_slabs m !! b = Some s) as Hb.
    { intros b [s [Hs _]%owned_Some]%Hall. by exists s. }
    clear Hall. induction bl as [|b bl IH]; [constructor|]. apply NoDup_cons in Hnd as [Hbl Hnd].
    rewrite small_objects_cons, fmap_app. apply NoDup_app. split_and!; [| |apply IH; set_solver].
    + destruct (Hb b) as [s Hs]; [set_solver|]. unfold block_objects. rewrite Hs. by apply slab_addresses_nodup, (mem_slab _ Hm).
    + intros o Ho Ho'. destruct (Hb b) as [s Hs]; [set_solver|]. unfold block_objects in Ho. rewrite Hs in Ho.
      apply list_elem_of_fmap in Ho as ([[o1 bytes1] k1] & -> & Hin).
      apply elem_of_slab_objects in Hin as (i & Hi & ->); [|by eapply mem_slab].
      apply list_elem_of_fmap in Ho' as ([[o2 bytes2] k2] & Heq & Hin2). simpl in Heq.
      apply list_elem_of_bind in Hin2 as (b2 & Hin2 & Hb2). destruct (Hb b2) as [s2 Hs2]; [set_solver|].
      unfold block_objects in Hin2. rewrite Hs2 in Hin2.
      apply elem_of_slab_objects in Hin2 as (j & Hj & ->); [|by eapply mem_slab].
      pose proof (slot_capacity _ _ (mem_slab _ Hm _ _ Hs) _ _ Hi) as Hcap.
      destruct (slot_address_apart _ _ _ _ Hm Hs Hcap) as [Hap _].
      by destruct (Hap _ _ _ _ Hs2 Hj (eq_sym Heq)) as [-> _].
  - intros o Ho Ho'. apply list_elem_of_fmap in Ho as ([[o1 bytes1] k1] & -> & Hin).
    apply list_elem_of_bind in Hin as (b & Hin & Hb). apply Hall in Hb as [s [Hs _]%owned_Some].
    unfold block_objects in Hin. rewrite Hs in Hin.
    apply elem_of_slab_objects in Hin as (i & Hi & ->); [|by eapply mem_slab].
    apply list_elem_of_fmap in Ho' as ([[o2 bytes2] k2] & Heq & Hin2).
    apply list_elem_of_bind in Hin2 as (a & Hin2 & Ha). apply Hall' in Ha as [g [Hg _]%owned_large_Some].
    unfold large_object in Hin2. rewrite Hg in Hin2. apply list_elem_of_singleton in Hin2 as [= -> -> ->]. simpl in Heq.
    pose proof (slot_capacity _ _ (mem_slab _ Hm _ _ Hs) _ _ Hi) as Hcap.
    destruct (slot_address_apart _ _ _ _ Hm Hs Hcap) as [_ Hap]. by apply (Hap a g).
  - assert (∀ a, a ∈ ll → ∃ g, m_large m !! a = Some g) as Ha.
    { intros a [g [Hg _]%owned_large_Some]%Hall'. by exists g. }
    clear Hall'. induction ll as [|a ll IH]; [constructor|]. apply NoDup_cons in Hnd' as [Hal Hnd'].
    rewrite large_objects_cons, fmap_app. apply NoDup_app. split_and!; [| |apply IH; set_solver].
    + destruct (Ha a) as [g Hg]; [set_solver|]. unfold large_object. rewrite Hg. apply NoDup_singleton.
    + intros o Ho Ho'. destruct (Ha a) as [g Hg]; [set_solver|]. unfold large_object in Ho. rewrite Hg in Ho.
      simpl in Ho. apply list_elem_of_singleton in Ho as ->.
      apply list_elem_of_fmap in Ho' as ([[o2 bytes2] k2] & Heq & Hin2). simpl in Heq.
      apply list_elem_of_bind in Hin2 as (a2 & Hin2 & Ha2). destruct (Ha a2) as [g2 Hg2]; [set_solver|].
      unfold large_object in Hin2. rewrite Hg2 in Hin2. apply list_elem_of_singleton in Hin2 as [= -> -> ->].
      assert (a = a2) as -> by (unfold sizeof_large in Heq; lia). done.
Qed.

(** A sweep splits the visited objects into survivors and casualties. *)
Lemma partition_perm (l : list (visited * bool)) : fst <$> l ≡ₚ casualties l ++ (fst <$> survivors l).
Proof.
  unfold casualties, survivors. induction l as [|[v k] l IH]; [done|].
  rewrite !filter_cons. destruct k.
  - rewrite decide_False by (by intros ?). rewrite decide_True by (by intros ?). simpl. rewrite IH.
    by rewrite Permutation_middle.
  - rewrite decide_True by done. rewrite decide_False by (intros Hn; by apply Hn). simpl. by rewrite IH.
Qed.

(** ** Summary *)

Definition total_bytes (calls : list visited) : N := foldr (λ v n, v.2 + n) 0 calls.

#[export] Instance total_bytes_perm : Proper ((≡ₚ) ==> (=)) total_bytes.
Proof. induction 1; simpl in *; lia. Qed.

#[export] Instance length_N_perm {A} : Proper ((≡ₚ) ==> (=)) (@length_N A).
Proof. intros l1 l2 Hp. unfold length_N. by rewrite Hp. Qed.

Lemma total_bytes_app l1 l2 : total_bytes (l1 ++ l2) = total_bytes l1 + total_bytes l2.
Proof. induction l1 as [|v l1 IH]; simpl; [done|]. rewrite IH. lia. Qed.

Lemma length_N_cons {A} (x : A) l : length_N (x :: l) = length_N l + 1.
Proof. unfold length_N. simpl. lia. Qed.

(** A visit reports each object of the storage once, with its size. *)
Record visits (m : memory) (h : N) (calls : list visited) : Prop := {
  vs_nodup : NoDup calls.*1;
  vs_live : ∀ o bytes, (o, bytes) ∈ calls ↔ ∃ k, live_object m h o bytes k;
}.

Lemma objects_visits m h st bl ll :
  memory_ok m → block_list m h st bl → large_list m h st ll → visits m h (fst <$> objects_of m bl ll).
Proof.
  intros Hm Hbl Hll. constructor.
  - rewrite <-list_fmap_compose. by eapply (objects_nodup m h st bl ll).
  - intros o bytes. rewrite list_elem_of_fmap. split.
    + intros ([v k] & Heq & Hin). simpl in Heq. subst v. exists k. by eapply elem_of_objects.
    + intros [k Hl]. exists ((o, bytes), k). split; [done|]. by eapply elem_of_objects.
Qed.

Lemma visit_visits m h st :
  memory_ok m → storage_ok m h st → ∃ calls, visit m st = Ok calls ∧ visits m h calls.
Proof.
  intros Hm [(bl & Hbl & _) (ll & Hll) _]. eexists. split; [by eapply visit_ok|by eapply objects_visits].
Qed.

Lemma visits_perm m m' h calls calls' :
  visits m h calls → visits m' h calls' →
  (∀ o bytes, (∃ k, live_object m h o bytes k) ↔ ∃ k, live_object m' h o bytes k) → calls ≡ₚ calls'.
Proof.
  intros [Hnd Hl] [Hnd' Hl'] Heq. apply NoDup_Permutation; [by eapply NoDup_fmap_1..|].
  intros [o bytes]. rewrite (Hl o bytes), (Hl' o bytes). done.
Qed.

Lemma visits_bytes m h calls : memory_ok m → visits m h calls → length_N calls * 16 ≤ total_bytes calls.
Proof.
  intros Hm [_ Hl].
  assert (∀ v, v ∈ calls → 16 ≤ v.2) as Hbytes.
  { intros [o bytes] [k Hk]%Hl. destruct (live_header _ Hm _ _ _ _ Hk) as (ob & _ & Hlen).
    simpl. unfold sizeof_header in Hlen. lia. }
  clear Hl. unfold length_N. induction calls as [|v calls IH]; [done|].
  assert (16 ≤ v.2) by (apply Hbytes; set_solver). simpl. assert (∀ v, v ∈ calls → 16 ≤ v.2) by set_solver.
  specialize (IH ltac:(done)). lia.
Qed.

(** What a sweep of the storage of [h] does. *)
Record swept_storage (m : memory) (h : N) (m' : memory) (st' : managed_storage) (reclaimed : list visited) : Prop := {
  ss_memory : memory_ok m';
  ss_storage : storage_ok m' h st';
  ss_reclaimed : reclaimed_from m m' h;
  ss_live : ∀ h' o bytes k, live_object m' h' o bytes k ↔
    if decide (h' = h) then k = false ∧ live_object m h o bytes true else live_object m h' o bytes k;
  ss_calls : ∀ o bytes, (o, bytes) ∈ reclaimed ↔ live_object m h o bytes false;
  ss_perm : ∀ calls calls', visits m h calls → visits m' h calls' → calls ≡ₚ reclaimed ++ calls';
}.

Lemma elem_of_survivors l v k : (v, k) ∈ survivors l ↔ k = false ∧ (v, true) ∈ l.
Proof.
  unfold survivors, unmark. rewrite list_elem_of_fmap. split.
  - intros ([v' k'] & [= -> ->] & [Hd Hin]%list_elem_of_filter). unfold dead in Hd. simpl in *.
    destruct k'; [done|]. by destruct Hd.
  - intros [-> Hin]. exists (v, true). split; [done|]. apply list_elem_of_filter. split; [|done]. by intros ?.
Qed.

Lemma elem_of_casualties l v : v ∈ casualties l ↔ (v, false) ∈ l.
Proof.
  unfold casualties. rewrite list_elem_of_fmap. split.
  - intros ([v' k'] & -> & [Hd Hin]%list_elem_of_filter). unfold dead in Hd. simpl in *. by destruct k'.
  - intros Hin. exists (v, false). split; [done|]. apply list_elem_of_filter. by split.
Qed.

Lemma sweep_spec m h st :
  memory_ok m → storage_ok m h st →
  returns (sweep m st) (λ '(m', st', reclaimed), swept_storage m h m' st' reclaimed).
Proof.
  intros Hm [(bl & Hbl & _) (ll & Hll) _].
  destruct (sweep_ok m h st bl ll Hm Hbl Hll) as (m' & st' & bl' & ll' & -> & Hm' & Hbl' & Hll' & Hst' & Hobj & Hrec).
  apply returns_Ok. constructor; try done.
  - intros h' o bytes k. destruct (decide (h' = h)) as [->|Hne].
    + rewrite <-(elem_of_objects m' h st' bl' ll') by done. rewrite Hobj, elem_of_survivors.
      by rewrite (elem_of_objects m h st bl ll).
    + by apply (only_owner_live _ _ h); [apply Hrec|].
  - intros o bytes. rewrite elem_of_casualties. by apply (elem_of_objects m h st bl ll).
  - intros calls calls' Hc Hc'.
    rewrite (visits_perm m m h calls _ Hc (objects_visits m h st bl ll Hm Hbl Hll)) by done.
    rewrite (visits_perm m' m' h calls' _ Hc' (objects_visits m' h st' bl' ll' Hm' Hbl' Hll')) by done.
    rewrite partition_perm, Hobj. done.
Qed.

Local Open Scope list_scope.
Local Open Scope N_scope.

(** ** What adoption does to the memory *)

(** The slot table is the same; links and owner may differ. *)
Definition same_slots (s s' : slab) : Prop :=
  sl_category s' = sl_category s ∧ sl_capacity s' = sl_capacity s ∧ sl_bump s' = sl_bump s ∧
  sl_live s' = sl_live s ∧ sl_free_slot s' = sl_free_slot s ∧
  sl_object_offset s' = sl_object_offset s ∧ sl_entries s' = sl_entries s.

Lemma same_slots_facts b s s' :
  same_slots s s' →
  (slab_ok b s → slab_ok b s') ∧ (∀ i, slot s' i = slot s i) ∧ (∀ i, object_at b s' i = object_at b s i) ∧
  has_space s' = has_space s.
Proof.
  intros (H1 & H2 & H3 & H4 & H5 & H6 & H7). split_and!.
  - by apply slab_ok_core.
  - intros i. unfold slot. by rewrite H7.
  - intros i. unfold object_at. by rewrite H1, H6.
  - unfold has_space. by rewrite H2, H3, H5.
Qed.

Section adopted.
Context (h h2 : N) (Hne : h ≠ h2).

Definition adopted_slab (s s' : slab) : Prop :=
  if decide (sl_owner s = h2) then same_slots s s' ∧ sl_owner s' = h else s' = s.
Definition adopted_large (g g' : large) : Prop :=
  if decide (lg_owner g = h2) then lg_bytes g' = lg_bytes g ∧ lg_marked g' = lg_marked g ∧ lg_owner g' = h
  else g' = g.

Definition both {A} (R : A → A → Prop) (x y : option A) : Prop :=
  match x, y with Some a, Some b => R a b | None, None => True | _, _ => False end.

(** [m'] is [m] with everything of [h2] handed to [h]. *)
Record adopted (m m' : memory) : Prop := {
  ad_slabs : ∀ b, both adopted_slab (m_slabs m !! b) (m_slabs m' !! b);
  ad_large : ∀ a, both adopted_large (m_large m !! a) (m_large m' !! a);
  ad_objects : m_objects m' = m_objects m;
}.

Definition new_owner_of (h0 : N) : N := if decide (h0 = h2) then h else h0.

Lemma adopted_slab_inv m m' b s' :
  adopted m m' → m_slabs m' !! b = Some s' →
  ∃ s, m_slabs m !! b = Some s ∧ same_slots s s' ∧ sl_owner s' = new_owner_of (sl_owner s).
Proof.
  intros Had Hb. pose proof (ad_slabs _ _ Had b) as Hr. rewrite Hb in Hr.
  destruct (m_slabs m !! b) as [s|] eqn:E; [|done]. exists s. split; [done|].
  unfold both, adopted_slab, new_owner_of in *. destruct (decide _); [done|]. by subst.
Qed.

Lemma adopted_large_inv m m' a g' :
  adopted m m' → m_large m' !! a = Some g' →
  ∃ g, m_large m !! a = Some g ∧ lg_bytes g' = lg_bytes g ∧ lg_marked g' = lg_marked g ∧
    lg_owner g' = new_owner_of (lg_owner g).
Proof.
  intros Had Ha. pose proof (ad_large _ _ Had a) as Hr. rewrite Ha in Hr.
  destruct (m_large m !! a) as [g|] eqn:E; [|done]. exists g. split; [done|].
  unfold both, adopted_large, new_owner_of in *. destruct (decide _); [done|]. by subst.
Qed.

Lemma adopted_memory m m' : adopted m m' → memory_ok m → memory_ok m'.
Proof.
  intros Had Hm. constructor.
  - intros b s' (s & Hb & Hs & _)%(adopted_slab_inv _ _ _ _ Had).
    apply (same_slots_facts b s s' Hs). by eapply mem_slab.
  - intros b s' i bytes k (s & Hb & Hs & _)%(adopted_slab_inv _ _ _ _ Had) Hi.
    destruct (same_slots_facts b s s' Hs) as (_ & Hslot & Haddr & _). rewrite Haddr, (ad_objects _ _ Had).
    rewrite Hslot in Hi. by eapply mem_small.
  - intros a g' (g & Ha & Hb & _)%(adopted_large_inv _ _ _ _ Had). rewrite Hb, (ad_objects _ _ Had).
    by apply (mem_large _ Hm).
  - intros a g' b s' (g & Ha & Hbytes & _)%(adopted_large_inv _ _ _ _ Had)
      (s & Hb & _)%(adopted_slab_inv _ _ _ _ Had). rewrite Hbytes. by eapply mem_apart.
  - intros a1 g1' a2 g2' (g1 & H1 & Hb1 & _)%(adopted_large_inv _ _ _ _ Had)
      (g2 & H2 & Hb2 & _)%(adopted_large_inv _ _ _ _ Had). rewrite Hb1, Hb2. by eapply mem_apart_large.
Qed.

Lemma adopted_statics m m' : adopted m m' → keeps_statics m m'.
Proof.
  intros Had. apply keeps_dom.
  - intros b [s (s0 & -> & _)%(adopted_slab_inv _ _ _ _ Had)]. by eexists.
  - intros a [g (g0 & -> & _)%(adopted_large_inv _ _ _ _ Had)]. by eexists.
  - by rewrite (ad_objects _ _ Had).
Qed.

Lemma adopted_live m m' h' o bytes k :
  adopted m m' →
  live_object m' h' o bytes k ↔ ∃ h0, live_object m h0 o bytes k ∧ h' = new_owner_of h0.
Proof.
  intros Had. split.
  - intros [b s' i bytes' k' Hb Hi|a g' Ha].
    + destruct (adopted_slab_inv _ _ _ _ Had Hb) as (s & Hb' & Hs & ->).
      destruct (same_slots_facts b s s' Hs) as (_ & Hslot & Haddr & _). rewrite Haddr. rewrite Hslot in Hi.
      eexists. split; [by eapply live_small|done].
    + destruct (adopted_large_inv _ _ _ _ Had Ha) as (g & Ha' & -> & -> & ->).
      eexists. split; [by apply live_large|done].
  - intros (h0 & Hl & ->). destruct Hl as [b s i bytes' k' Hb Hi|a g Ha].
    + pose proof (ad_slabs _ _ Had b) as Hr. rewrite Hb in Hr.
      destruct (m_slabs m' !! b) as [s'|] eqn:Heq; [|done]. destruct (adopted_slab_inv _ _ _ _ Had Heq) as (s0 & Hb0 & Hs0 & Ho).
      rewrite Hb in Hb0. injection Hb0 as <-.
      destruct (same_slots_facts b s s' Hs0) as (_ & Hslot & Haddr & _).
      rewrite <-Haddr, <-Ho. eapply live_small; [done|]. by rewrite Hslot.
    + pose proof (ad_large _ _ Had a) as Hr. rewrite Ha in Hr.
      destruct (m_large m' !! a) as [g'|] eqn:Heq; [|done]. destruct (adopted_large_inv _ _ _ _ Had Heq) as (g0 & Ha0 & Hb0 & Hm0 & Ho).
      rewrite Ha in Ha0. injection Ha0 as <-. rewrite <-Ho, <-Hb0, <-Hm0. by apply live_large.
Qed.

(** Other owners see no change, and what [h] owned is untouched. *)
Lemma adopted_owned m m' h' b :
  adopted m m' → h' ≠ h2 → (h' ≠ h ∨ (∀ s, owned m h2 b ≠ Some s)) → owned m' h' b = owned m h' b.
Proof.
  intros Had Hh' Hside. pose proof (ad_slabs _ _ Had b) as Hr. unfold owned in *.
  destruct (m_slabs m !! b) as [s|], (m_slabs m' !! b) as [s'|]; try done. simpl in *.
  unfold adopted_slab in Hr. destruct (decide (sl_owner s = h2)) as [Hs2|]; [|by subst].
  destruct Hside as [Hne'|Hno]; [|by destruct (Hno s)]. destruct Hr as [_ Ho].
  rewrite !decide_False by congruence. done.
Qed.

Lemma adopted_owned_large m m' h' a :
  adopted m m' → h' ≠ h2 → (h' ≠ h ∨ (∀ g, owned_large m h2 a ≠ Some g)) → owned_large m' h' a = owned_large m h' a.
Proof.
  intros Had Hh' Hside. pose proof (ad_large _ _ Had a) as Hr. unfold owned_large in *.
  destruct (m_large m !! a) as [g|], (m_large m' !! a) as [g'|]; try done. simpl in *.
  unfold adopted_large in Hr. destruct (decide (lg_owner g = h2)) as [Hg2|]; [|by subst].
  destruct Hside as [Hne'|Hno]; [|by destruct (Hno g)]. destruct Hr as (_ & _ & Ho).
  rewrite !decide_False by congruence. done.
Qed.

Lemma adopted_frame m m' h' st :
  adopted m m' → h' ≠ h → h' ≠ h2 → storage_ok m h' st → storage_ok m' h' st.
Proof.
  intros Had H1 H2. apply storage_ok_ext; intros; [rewrite (adopted_owned m)|rewrite (adopted_owned_large m)]; auto.
Qed.
End adopted.

(** ** Walking to the end of a list *)

Definition raw_next (m : memory) (b : N) : option N := sl_next <$> m_slabs m !! b.
Definition raw_large_next (m : memory) (a : N) : option N := lg_next <$> m_large m !! a.

Lemma adopt_blocks_ok h l fuel m head :
  h ≠ 0 → l ≠ [] → chain (raw_next m) head l → NoDup l → (length l ≤ fuel)%nat →
  ∃ t m', last l = Some t ∧ adopt_blocks fuel head h m = Ok (t, m') ∧
    m_large m' = m_large m ∧ m_objects m' = m_objects m ∧
    ∀ x, m_slabs m' !! x = (if decide (x ∈ l) then set_owner h else id) <$> m_slabs m !! x.
Proof.
  intros Hh. revert fuel m head. induction l as [|b l IH]; intros [|fuel] m head Hl Hch Hnd Hf; try done;
    try (simpl in Hf; lia).
  destruct Hch as (-> & Hb & n & Hn & Hch). unfold raw_next in Hn. apply fmap_Some in Hn as (s & Hs & ->).
  apply NoDup_cons in Hnd as [Hbl Hnd]. simpl. unfold load_slab. rewrite Hs. simpl.
  rewrite (proj2 (N.eqb_neq _ _) Hh). set (m1 := store_slab b (set_owner h s) m).
  assert (∀ x, m_slabs m1 !! x = (if decide (x = b) then set_owner h else id) <$> m_slabs m !! x) as Hm1.
  { intros x. simpl. destruct (decide (x = b)) as [->|]; [by rewrite lookup_insert_eq, Hs|].
    rewrite lookup_insert_ne by done. by destruct (m_slabs m !! x). }
  destruct l as [|b' l].
  - simpl in Hch. rewrite Hch. simpl. exists b, m1. split_and!; try done. intros x. rewrite Hm1.
    destruct (decide (x = b)) as [->|]; [by rewrite decide_True by set_solver|].
    by rewrite decide_False by set_solver.
  - assert (sl_next s ≠ 0) as Hnz by (destruct Hch as (-> & ? & _); done).
    rewrite (proj2 (N.eqb_neq _ _) Hnz).
    destruct (IH fuel m1 (sl_next s)) as (t & m2 & Hlast & Hrun & Hlg & Hobj & Hm2); [done| |done|simpl in *; lia|].
    { eapply chain_ext; [|exact Hch]. intros x Hx. unfold raw_next. rewrite Hm1, decide_False; [|by intros ->].
      by destruct (m_slabs m !! x). }
    exists t, m2. split_and!; try done. intros x. rewrite Hm2, Hm1.
    destruct (decide (x = b)) as [->|].
    + rewrite decide_False, decide_True by set_solver. by destruct (m_slabs m !! b).
    + destruct (decide (x ∈ b' :: l)); [rewrite decide_True by set_solver|rewrite decide_False by set_solver];
        by destruct (m_slabs m !! x).
Qed.

Lemma adopt_large_ok h l fuel m head :
  h ≠ 0 → l ≠ [] → chain (raw_large_next m) head l → NoDup l → (length l ≤ fuel)%nat →
  ∃ t m', last l = Some t ∧ adopt_large fuel head h m = Ok (t, m') ∧
    m_slabs m' = m_slabs m ∧ m_objects m' = m_objects m ∧
    ∀ x, m_large m' !! x = (if decide (x ∈ l) then set_large_owner h else id) <$> m_large m !! x.
Proof.
  intros Hh. revert fuel m head. induction l as [|a l IH]; intros [|fuel] m head Hl Hch Hnd Hf; try done;
    try (simpl in Hf; lia).
  destruct Hch as (-> & Ha & n & Hn & Hch). unfold raw_large_next in Hn. apply fmap_Some in Hn as (g & Hg & ->).
  apply NoDup_cons in Hnd as [Hal Hnd]. simpl. unfold load_large. rewrite Hg. simpl.
  rewrite (proj2 (N.eqb_neq _ _) Hh). set (m1 := store_large a (set_large_owner h g) m).
  assert (∀ x, m_large m1 !! x = (if decide (x = a) then set_large_owner h else id) <$> m_large m !! x) as Hm1.
  { intros x. simpl. destruct (decide (x = a)) as [->|]; [by rewrite lookup_insert_eq, Hg|].
    rewrite lookup_insert_ne by done. by destruct (m_large m !! x). }
  destruct l as [|a' l].
  - simpl in Hch. rewrite Hch. simpl. exists a, m1. split_and!; try done. intros x. rewrite Hm1.
    destruct (decide (x = a)) as [->|]; [by rewrite decide_True by set_solver|].
    by rewrite decide_False by set_solver.
  - assert (lg_next g ≠ 0) as Hnz by (destruct Hch as (-> & ? & _); done).
    rewrite (proj2 (N.eqb_neq _ _) Hnz).
    destruct (IH fuel m1 (lg_next g)) as (t & m2 & Hlast & Hrun & Hlg & Hobj & Hm2); [done| |done|simpl in *; lia|].
    { eapply chain_ext; [|exact Hch]. intros x Hx. unfold raw_large_next. rewrite Hm1, decide_False; [|by intros ->].
      by destruct (m_large m !! x). }
    exists t, m2. split_and!; try done. intros x. rewrite Hm2, Hm1.
    destruct (decide (x = a)) as [->|].
    + rewrite decide_False, decide_True by set_solver. by destruct (m_large m !! a).
    + destruct (decide (x ∈ a' :: l)); [rewrite decide_True by set_solver|rewrite decide_False by set_solver];
        by destruct (m_large m !! x).
Qed.

Lemma last_available_ok m h l fuel head :
  l ≠ [] → chain (next_available m h) head l → (length l ≤ fuel)%nat →
  ∃ t, last l = Some t ∧ last_available fuel head m = Ok t.
Proof.
  revert fuel head. induction l as [|b l IH]; intros [|fuel] head Hl Hch Hf; try done; try (simpl in Hf; lia).
  destruct Hch as (-> & Hb & n & Hn & Hch). unfold next_available in Hn.
  apply fmap_Some in Hn as (s & [Hs _]%owned_Some & ->). simpl. unfold load_slab. rewrite Hs. simpl.
  destruct l as [|b' l]; [simpl in Hch; rewrite Hch; eauto|].
  assert (sl_available_next s ≠ 0) as Hnz by (destruct Hch as (-> & ? & _); done).
  rewrite (proj2 (N.eqb_neq _ _) Hnz).
  destruct (IH fuel (sl_available_next s)) as (t & Ht & Hrun); [done..|simpl in *; lia|]. eauto.
Qed.

(** ** Joining the lists *)

(** The slabs of [bl] keep their slot tables; nothing else changes. *)
Record relinked (R : slab → slab → Prop) (bl : list N) (m m' : memory) : Prop := {
  rl_inside : ∀ b, b ∈ bl → both (λ s s', same_slots s s' ∧ R s s') (m_slabs m !! b) (m_slabs m' !! b);
  rl_outside : ∀ b, b ∉ bl → m_slabs m' !! b = m_slabs m !! b;
  rl_large : m_large m' = m_large m;
  rl_objects : m_objects m' = m_objects m;
}.

Lemma same_slots_refl s : same_slots s s.
Proof. by split_and!. Qed.

Lemma same_slots_trans s1 s2 s3 : same_slots s1 s2 → same_slots s2 s3 → same_slots s1 s3.
Proof. intros (?&?&?&?&?&?&?) (?&?&?&?&?&?&?). split_and!; congruence. Qed.

Lemma relinked_mapped R bl m m' b s :
  relinked R bl m m' → b ∈ bl → m_slabs m !! b = Some s →
  ∃ s', m_slabs m' !! b = Some s' ∧ same_slots s s' ∧ R s s'.
Proof.
  intros Hr Hb Hs. pose proof (rl_inside _ _ _ _ Hr b Hb) as H. rewrite Hs in H.
  destruct (m_slabs m' !! b) as [s'|]; [|done]. exists s'. by split.
Qed.

(** The first phase: the slabs of the other storage, in front of one's own. *)
Definition taken_over (h : N) (s s' : slab) : Prop :=
  sl_owner s' = h ∧ sl_available_next s' = sl_available_next s.

Lemma join_blocks m h h2 st other bl1 bl2 :
  h ≠ 0 → h ≠ h2 → block_list m h st bl1 → block_list m h2 other bl2 →
  ∃ m1 st1 other1,
    (if blocks_ other =? 0 then Ok (m, st, other)
     else
       '(tail, m) ← adopt_blocks (list_fuel (m_slabs m)) (blocks_ other) h m;
       s ← load_slab m tail;
       Ok (store_slab tail (set_next (blocks_ st) s) m, set_blocks (blocks_ other) st, set_blocks 0 other)) =
      Ok (m1, st1, other1) ∧
    relinked (taken_over h) bl2 m m1 ∧ block_list m1 h st1 (bl2 ++ bl1) ∧
    large_ st1 = large_ st ∧ available_ st1 = available_ st ∧
    blocks_ other1 = 0 ∧ large_ other1 = large_ other ∧ available_ other1 = available_ other.
Proof.
  intros Hh Hne Hbl1 Hbl2. destruct Hbl1 as [Hch1 Hnd1 Hall1].
  pose proof (block_fuel _ _ _ _ Hbl2) as Hfuel. destruct Hbl2 as [Hch2 Hnd2 Hall2].
  destruct (decide (bl2 = [])) as [->|Hnil].
  { simpl in Hch2. rewrite Hch2. simpl. exists m, st, other. split; [done|].
    split; [constructor; set_solver|]. split; [by constructor|]. done. }
  assert (blocks_ other ≠ 0) as Hz by (intros Hz; by apply (chain_head _ _ _ Hch2) in Hz).
  rewrite (proj2 (N.eqb_neq _ _) Hz).
  assert (chain (raw_next m) (blocks_ other) bl2) as Hraw.
  { eapply chain_ext; [|exact Hch2]. intros b [s Hb]%Hall2. unfold next_block, raw_next. rewrite Hb.
    by apply owned_Some in Hb as [-> _]. }
  destruct (adopt_blocks_ok h bl2 (list_fuel (m_slabs m)) m (blocks_ other) Hh Hnil Hraw Hnd2)
    as (t & m1 & Hlast & -> & Hlg & Hob & Hm1); [lia|]. rewrite bind_Ok. simpl.
  assert (t ∈ bl2) as Ht by by apply last_Some_elem_of.
  pose proof (proj1 (Hall2 t) Ht) as [s [Hs Ho]%owned_Some].
  unfold load_slab. rewrite Hm1, Hs, decide_True by done. simpl.
  set (s' := set_next _ _). set (m2 := store_slab t s' m1).
  assert (∀ x, x ∉ bl2 → m_slabs m2 !! x = m_slabs m !! x) as Hout.
  { intros x Hx. simpl. rewrite lookup_insert_ne by (by intros ->). rewrite Hm1, decide_False by done.
    by destruct (m_slabs m !! x). }
  assert (∀ x sx, x ∈ bl2 → m_slabs m !! x = Some sx →
    m_slabs m2 !! x = Some (if decide (x = t) then s' else set_owner h sx)) as Hin.
  { intros x sx Hx Hsx. simpl. destruct (decide (x = t)) as [->|]; [by rewrite lookup_insert_eq|].
    by rewrite lookup_insert_ne, Hm1, Hsx, decide_True by done. }
  assert (∀ x, x ∈ bl1 → x ∉ bl2) as Hdisj.
  { intros x [s1 [H1 H2]%owned_Some]%Hall1 [s2 [H3 H4]%owned_Some]%Hall2. congruence. }
  assert (∀ x, x ∈ bl2 → owned m2 h x = m_slabs m2 !! x) as Hown2.
  { intros x Hx. pose proof (proj1 (Hall2 x) Hx) as [sx [Hsx _]%owned_Some]. unfold owned.
    rewrite (Hin x sx) by done. simpl. destruct (decide (x = t)); simpl; by rewrite decide_True. }
  assert (∀ x, x ∉ bl2 → owned m2 h x = owned m h x) as Hown1 by (intros x Hx; unfold owned; by rewrite Hout).
  exists m2, (set_blocks (blocks_ other) st), (set_blocks 0 other). split; [done|].
  split; [|split; [constructor|done]].
  - constructor; [|done..]. intros x Hx. pose proof (proj1 (Hall2 x) Hx) as [sx [Hsx _]%owned_Some].
    rewrite (Hin x sx), Hsx by done. simpl. destruct (decide (x = t)) as [->|]; simplify_eq;
      split; by split_and!.
  - simpl. rewrite <-(app_nil_r bl2) in Hraw. eapply chain_relink; [exact Hraw| |rewrite Hlast|done].
    + eapply chain_ext; [|exact Hch1]. intros x Hx. unfold next_block. by rewrite Hown1 by auto.
    + split; [done|]. unfold next_block, raw_next. rewrite Hown2, (Hin t s), decide_True by done.
      split; [done|]. intros x Hx Hxt. pose proof (proj1 (Hall2 x) Hx) as [sx [Hsx _]%owned_Some].
      by rewrite Hown2, (Hin x sx), decide_False, Hsx by done.
  - apply NoDup_app. split_and!; [done| |done]. intros x H1 H2. by destruct (Hdisj x).
  - intros x. rewrite elem_of_app. destruct (decide (x ∈ bl2)) as [Hx|Hx].
    + rewrite Hown2 by done. pose proof (proj1 (Hall2 x) Hx) as [sx [Hsx _]%owned_Some].
      rewrite (Hin x sx) by done. split; [by eexists|by left].
    + rewrite Hown1 by done. rewrite Hall1. naive_solver.
Qed.

(** The second phase does the same for the large allocations. *)
Lemma join_large m h h2 st other ll1 ll2 :
  h ≠ 0 → h ≠ h2 → large_list m h st ll1 → large_list m h2 other ll2 →
  ∃ m1 st1 other1,
    (if large_ other =? 0 then Ok (m, st, other)
     else
       '(tail, m) ← adopt_large (list_fuel (m_large m)) (large_ other) h m;
       g ← load_large m tail;
       Ok (store_large tail (set_large_next (large_ st) g) m, set_large (large_ other) st, set_large 0 other)) =
      Ok (m1, st1, other1) ∧
    (∀ a, both (adopted_large h h2) (m_large m !! a) (m_large m1 !! a)) ∧
    m_slabs m1 = m_slabs m ∧ m_objects m1 = m_objects m ∧ large_list m1 h st1 (ll2 ++ ll1) ∧
    blocks_ st1 = blocks_ st ∧ available_ st1 = available_ st ∧
    large_ other1 = 0 ∧ blocks_ other1 = blocks_ other ∧ available_ other1 = available_ other.
Proof.
  intros Hh Hne Hll1 Hll2. destruct Hll1 as [Hch1 Hnd1 Hall1].
  pose proof (large_fuel _ _ _ _ Hll2) as Hfuel. destruct Hll2 as [Hch2 Hnd2 Hall2].
  assert (∀ a g, m_large m !! a = Some g → lg_owner g = h2 ↔ a ∈ ll2) as Howner.
  { intros a g Ha. rewrite Hall2. unfold owned_large. rewrite Ha. simpl. destruct (decide _); [|naive_solver].
    split; [by eexists|done]. }
  destruct (decide (ll2 = [])) as [->|Hnil].
  { simpl in Hch2. rewrite Hch2. simpl. exists m, st, other. split; [done|]. split; [|by split_and!; try constructor].
    intros a. destruct (m_large m !! a) as [g|] eqn:Ha; [|done]. simpl. unfold adopted_large.
    rewrite decide_False; [done|]. rewrite (Howner a g Ha). set_solver. }
  assert (large_ other ≠ 0) as Hz by (intros Hz; by apply (chain_head _ _ _ Hch2) in Hz).
  rewrite (proj2 (N.eqb_neq _ _) Hz).
  assert (chain (raw_large_next m) (large_ other) ll2) as Hraw.
  { eapply chain_ext; [|exact Hch2]. intros a [g Hg]%Hall2. unfold next_large, raw_large_next. rewrite Hg.
    by apply owned_large_Some in Hg as [-> _]. }
  destruct (adopt_large_ok h ll2 (list_fuel (m_large m)) m (large_ other) Hh Hnil Hraw Hnd2)
    as (t & m1 & Hlast & -> & Hsl & Hob & Hm1); [lia|]. rewrite bind_Ok. simpl.
  assert (t ∈ ll2) as Ht by by apply last_Some_elem_of.
  pose proof (proj1 (Hall2 t) Ht) as [g [Hg Ho]%owned_large_Some].
  unfold load_large. rewrite Hm1, Hg, decide_True by done. simpl.
  set (g' := set_large_next _ _). set (m2 := store_large t g' m1).
  assert (∀ x, x ∉ ll2 → m_large m2 !! x = m_large m !! x) as Hout.
  { intros x Hx. simpl. rewrite lookup_insert_ne by (by intros ->). rewrite Hm1, decide_False by done.
    by destruct (m_large m !! x). }
  assert (∀ x gx, x ∈ ll2 → m_large m !! x = Some gx →
    m_large m2 !! x = Some (if decide (x = t) then g' else set_large_owner h gx)) as Hin.
  { intros x gx Hx Hgx. simpl. destruct (decide (x = t)) as [->|]; [by rewrite lookup_insert_eq|].
    by rewrite lookup_insert_ne, Hm1, Hgx, decide_True by done. }
  assert (∀ x, x ∈ ll1 → x ∉ ll2) as Hdisj.
  { intros x [s1 [H1 H2]%owned_large_Some]%Hall1 [s2 [H3 H4]%owned_large_Some]%Hall2. congruence. }
  assert (∀ x, x ∈ ll2 → owned_large m2 h x = m_large m2 !! x) as Hown2.
  { intros x Hx. pose proof (proj1 (Hall2 x) Hx) as [gx [Hgx _]%owned_large_Some]. unfold owned_large.
    rewrite (Hin x gx) by done. simpl. destruct (decide (x = t)); simpl; by rewrite decide_True. }
  assert (∀ x, x ∉ ll2 → owned_large m2 h x = owned_large m h x) as Hown1
    by (intros x Hx; unfold owned_large; by rewrite Hout).
  exists m2, (set_large (large_ other) st), (set_large 0 other). split; [done|].
  split; [|split; [done|split; [done|split; [constructor|done]]]].
  - intros x. destruct (m_large m !! x) as [gx|] eqn:Hgx.
    + unfold both, adopted_large. destruct (decide (lg_owner gx = h2)) as [Hx|Hx]; rewrite (Howner x gx Hgx) in Hx.
      * rewrite (Hin x gx) by done. destruct (decide (x = t)) as [->|]; simplify_eq; by split_and!.
      * by rewrite Hout, Hgx.
    + rewrite Hout, Hgx; [done|]. rewrite Hall2. unfold owned_large. rewrite Hgx. by intros [? ?].
  - simpl. rewrite <-(app_nil_r ll2) in Hraw. eapply chain_relink; [exact Hraw| |rewrite Hlast|done].
    + eapply chain_ext; [|exact Hch1]. intros x Hx. unfold next_large. by rewrite Hown1 by auto.
    + split; [done|]. unfold next_large, raw_large_next. rewrite Hown2, (Hin t g), decide_True by done.
      split; [done|]. intros x Hx Hxt. pose proof (proj1 (Hall2 x) Hx) as [gx [Hgx _]%owned_large_Some].
      by rewrite Hown2, (Hin x gx), decide_False, Hgx by done.
  - apply NoDup_app. split_and!; [done| |done]. intros x H1 H2. by destruct (Hdisj x).
  - intros x. rewrite elem_of_app. destruct (decide (x ∈ ll2)) as [Hx|Hx].
    + rewrite Hown2 by done. pose proof (proj1 (Hall2 x) Hx) as [gx [Hgx _]%owned_large_Some].
      rewrite (Hin x gx) by done. split; [by eexists|by left].
    + rewrite Hown1 by done. rewrite Hall1. naive_solver.
Qed.

(** The third phase joins the available lists, one category at a time. *)
Definition same_chain (s s' : slab) : Prop := sl_owner s' = sl_owner s ∧ sl_next s' = sl_next s.

Lemma join_available m h st other bl1 bl2 c :
  c < categories → length (available_ st) = length slot_bytes → length (available_ other) = length slot_bytes →
  (∀ b, b ∈ bl1 → b ∉ bl2) → (∀ b, b ∈ bl2 → is_Some (owned m h b)) → NoDup bl2 →
  available_list m h st bl1 c → available_list m h other bl2 c →
  ∃ m1 st1 other1, adopt_available c (m, st, other) = Ok (m1, st1, other1) ∧
    relinked same_chain bl2 m m1 ∧ available_list m1 h st1 (bl2 ++ bl1) c ∧
    available_ other1 !! N.to_nat c = Some 0 ∧
    (∀ c', c' ≠ c → available_ st1 !! N.to_nat c' = available_ st !! N.to_nat c' ∧
       available_ other1 !! N.to_nat c' = available_ other !! N.to_nat c' ∧
       ∀ b, available_view c' <$> owned m1 h b = available_view c' <$> owned m h b) ∧
    blocks_ st1 = blocks_ st ∧ large_ st1 = large_ st ∧ blocks_ other1 = blocks_ other ∧ large_ other1 = large_ other ∧
    length (available_ st1) = length slot_bytes ∧ length (available_ other1) = length slot_bytes.
Proof.
  intros Hc Hlen1 Hlen2 Hdisj Hall2 Hndb (head1 & al1 & Hh1 & Hch1 & Hnd1 & Hal1) (head2 & al2 & Hh2 & Hch2 & Hnd2 & Hal2).
  unfold adopt_available. assert (available other c = Ok head2) as -> by (unfold available; by rewrite Hh2).
  assert (available st c = Ok head1) as Hav1 by (unfold available; by rewrite Hh1). rewrite bind_Ok.
  destruct (decide (al2 = [])) as [->|Hnil].
  { simpl in Hch2. subst head2. simpl. exists m, st, other. split; [done|].
    split. { constructor; try done. intros b [s [Hs _]%owned_Some]%Hall2. rewrite Hs. split; [apply same_slots_refl|done]. }
    split; [|by split_and!]. exists head1, al1. split_and!; [done..|]. intros b.
    rewrite Hal1, elem_of_app. pose proof (Hal2 b). set_solver. }
  assert (head2 ≠ 0) as Hz by (intros Hz; by apply (chain_head _ _ _ Hch2) in Hz).
  rewrite (proj2 (N.eqb_neq _ _) Hz).
  assert (∀ b, b ∈ al2 → b ∈ bl2) as Hsub by (intros b Hb; by apply Hal2 in Hb as [? _]).
  assert (length al2 < list_fuel (m_slabs m))%nat as Hfuel.
  { apply list_fuel_ok; [done|]. intros b Hb%Hsub. destruct (Hall2 b Hb) as [s [Hs _]%owned_Some]. by eexists. }
  destruct (last_available_ok m h al2 (list_fuel (m_slabs m)) head2 Hnil Hch2) as (t & Hlast & ->); [lia|].
  assert (t ∈ al2) as Ht by by apply last_Some_elem_of.
  pose proof (proj1 (Hal2 t) Ht) as [Htb (s & Hos & Hcat & Hsp)]. pose proof Hos as [Hs Hown]%owned_Some.
  rewrite bind_Ok. unfold load_slab. rewrite Hs, Hav1. simpl.
  set (s' := set_available_next head1 s). set (m1 := store_slab t s' m).
  assert (∀ b, owned m1 h b = if decide (b = t) then Some s' else owned m h b) as Ho1.
  { intros b. unfold owned. simpl. destruct (decide (b = t)) as [->|]; [|by rewrite lookup_insert_ne].
    rewrite lookup_insert_eq. simpl. by rewrite decide_True. }
  assert (N.to_nat c < length slot_bytes)%nat as Hcl by (change categories with 6 in Hc; simpl; lia).
  eexists m1, _, _. split; [done|]. simpl. split_and!; try by rewrite ?length_insert.
  - constructor; try done.
    + intros b Hb. destruct (Hall2 b Hb) as [sb [Hsb Hob]%owned_Some]. simpl.
      destruct (decide (b = t)) as [->|].
      * rewrite lookup_insert_eq, Hs. simpl. split; [by split_and!|done].
      * rewrite lookup_insert_ne, Hsb by done. split; [apply same_slots_refl|done].
    + intros b Hb. simpl. rewrite lookup_insert_ne; [done|]. by intros ->.
  - exists head2, (al2 ++ al1). split_and!.
    + simpl. rewrite list_lookup_insert_eq; [done|]. by rewrite Hlen1.
    + rewrite <-(app_nil_r al2) in Hch2. eapply chain_relink; [exact Hch2| |rewrite Hlast|done].
      * eapply chain_ext; [|exact Hch1]. intros b [Hb _]%Hal1. unfold next_available.
        rewrite Ho1, decide_False; [done|]. intros ->. by apply (Hdisj t).
      * split; [done|]. unfold next_available. rewrite Ho1, decide_True by done. split; [done|].
        intros b _ Hb. by rewrite Ho1, decide_False.
    + apply NoDup_app. split_and!; [done| |done]. intros b Hb2%Hsub [Hb1 _]%Hal1. by apply (Hdisj b).
    + intros b. rewrite !elem_of_app, Hal2, Hal1, Ho1. destruct (decide (b = t)) as [->|]; [|naive_solver].
      split; [intros _; split; [by left|]; eexists; by split_and!|]. intros _. left. split; [done|]. eauto.
  - by rewrite list_lookup_insert_eq by by rewrite Hlen2.
  - intros c' Hc'. rewrite !list_lookup_insert_ne by lia. split_and!; [done..|].
    intros b. rewrite Ho1. destruct (decide (b = t)) as [->|]; [|done]. rewrite Hos. unfold available_view. simpl.
    rewrite Hcat. by rewrite (proj2 (N.eqb_neq c c')) by done.
Qed.

Lemma relinked_trans R1 R2 R3 bl m1 m2 m3 :
  (∀ s1 s2 s3, R1 s1 s2 → R2 s2 s3 → R3 s1 s3) →
  relinked R1 bl m1 m2 → relinked R2 bl m2 m3 → relinked R3 bl m1 m3.
Proof.
  intros HR H1 H2. constructor.
  - intros b Hb. pose proof (rl_inside _ _ _ _ H1 b Hb) as A. pose proof (rl_inside _ _ _ _ H2 b Hb) as B.
    destruct (m_slabs m1 !! b), (m_slabs m2 !! b), (m_slabs m3 !! b); try done.
    destruct A, B. split; [by eapply same_slots_trans|eauto].
  - intros b Hb. rewrite (rl_outside _ _ _ _ H2), (rl_outside _ _ _ _ H1); done.
  - rewrite (rl_large _ _ _ _ H2). apply H1.
  - rewrite (rl_objects _ _ _ _ H2). apply H1.
Qed.

(** Relinking changes no [next] and no owner, so the block list stands. *)
Lemma relinked_chain m m' h st st' bl1 bl2 :
  relinked same_chain bl2 m m' → blocks_ st' = blocks_ st →
  block_list m h st (bl2 ++ bl1) → block_list m' h st' (bl2 ++ bl1).
Proof.
  intros Hr Hst [Hch Hnd Hall].
  assert (∀ b, sl_next <$> owned m' h b = sl_next <$> owned m h b) as Hsame.
  { intros b. unfold owned. destruct (decide (b ∈ bl2)) as [Hb|Hb]; [|by rewrite (rl_outside _ _ _ _ Hr)].
    pose proof (rl_inside _ _ _ _ Hr b Hb) as H. destruct (m_slabs m !! b), (m_slabs m' !! b); try done.
    destruct H as (_ & Ho & Hn). simpl. rewrite Ho. destruct (decide _); [|done]. simpl. by rewrite Hn. }
  constructor; [|done|].
  - rewrite Hst. eapply chain_ext; [|exact Hch]. intros b _. unfold next_block. by rewrite Hsame.
  - intros b. rewrite Hall. specialize (Hsame b).
    destruct (owned m' h b), (owned m h b); simplify_eq/=; [|done]. split; by eexists.
Qed.

Lemma relinked_owned m m' h bl :
  relinked same_chain bl m m' → (∀ b, b ∈ bl → is_Some (owned m h b)) → ∀ b, b ∈ bl → is_Some (owned m' h b).
Proof.
  intros Hr Hall b Hb. destruct (Hall b Hb) as [s [Hs Ho]%owned_Some].
  destruct (relinked_mapped _ _ _ _ _ _ Hr Hb Hs) as (s' & Hs' & _ & Ho' & _).
  exists s'. apply owned_Some. split; [done|congruence].
Qed.

Lemma join_available_loop h bl1 bl2 cs m st other :
  (∀ b, b ∈ bl1 → b ∉ bl2) → (∀ b, b ∈ bl2 → is_Some (owned m h b)) → NoDup bl2 → NoDup cs →
  (∀ c, c ∈ cs → c < categories ∧ available_list m h st bl1 c ∧ available_list m h other bl2 c) →
  (∀ c, c < categories → c ∉ cs → available_list m h st (bl2 ++ bl1) c ∧ available_ other !! N.to_nat c = Some 0) →
  length (available_ st) = length slot_bytes → length (available_ other) = length slot_bytes →
  ∃ m1 st1 other1, for_state cs (m, st, other) adopt_available = Ok (m1, st1, other1) ∧
    relinked same_chain bl2 m m1 ∧
    (∀ c, c < categories → available_list m1 h st1 (bl2 ++ bl1) c ∧ available_ other1 !! N.to_nat c = Some 0) ∧
    blocks_ st1 = blocks_ st ∧ large_ st1 = large_ st ∧ blocks_ other1 = blocks_ other ∧ large_ other1 = large_ other ∧
    length (available_ st1) = length slot_bytes ∧ length (available_ other1) = length slot_bytes.
Proof.
  intros Hdisj Hall2 Hndb Hnd. revert m st other Hall2.
  induction cs as [|c cs IH]; intros m st other Hall2 Htodo Hdone Hl1 Hl2.
  { exists m, st, other. split; [done|]. split; [|by split_and!; auto; set_solver].
    constructor; try done. intros b [s [Hs _]%owned_Some]%Hall2. rewrite Hs. split; [apply same_slots_refl|done]. }
  apply NoDup_cons in Hnd as [Hc Hnd]. destruct (Htodo c) as (Hlt & Ha1 & Ha2); [set_solver|].
  destruct (join_available m h st other bl1 bl2 c) as
    (m1 & st1 & other1 & Hrun & Hr1 & Hav & Hz & Hother & Hb1 & Hb2 & Hb3 & Hb4 & Hl1' & Hl2'); [done..|].
  cbn [for_state]. rewrite Hrun, bind_Ok.
  destruct (IH Hnd m1 st1 other1) as (m2 & st2 & other2 & Hrun2 & Hr2 & Hfin & Hb1' & Hb2' & Hb3' & Hb4' & Hlen1 & Hlen2).
  - by eapply relinked_owned.
  - intros d Hd. destruct (Htodo d) as (Hdlt & Hd1 & Hd2); [set_solver|]. destruct (Hother d) as (He1 & He2 & Hv); [by intros ->|].
    split_and!; [done| |]; eapply available_list_ext; eauto.
  - intros d Hd Hdn. destruct (decide (d = c)) as [->|Hdc]; [done|]. destruct (Hother d Hdc) as (He1 & He2 & Hv).
    destruct (Hdone d) as [Hd1 Hd2]; [done|set_solver|]. split; [eapply available_list_ext; eauto|congruence].
  - done.
  - done.
  - exists m2, st2, other2. split; [done|]. split; [|split_and!; auto; congruence].
    eapply relinked_trans; [|exact Hr1|exact Hr2]. intros ??? [??] [??]. split; congruence.
Qed.

(** ** Adoption *)

Lemma relinked_adopted m m1 m2 m3 h h2 other bl2 :
  block_list m h2 other bl2 → relinked (taken_over h) bl2 m m1 → m_slabs m2 = m_slabs m1 →
  relinked same_chain bl2 m2 m3 →
  ∀ b, both (adopted_slab h h2) (m_slabs m !! b) (m_slabs m3 !! b).
Proof.
  intros [_ _ Hall] H1 Heq H2 b. destruct (decide (b ∈ bl2)) as [Hb|Hb].
  - pose proof Hb as [s [Hs Ho]%owned_Some]%Hall. rewrite Hs.
    destruct (relinked_mapped _ _ _ _ b s H1) as (s1 & Hs1 & Hsl1 & Ho1 & _); [done..|]. rewrite <-Heq in Hs1.
    destruct (relinked_mapped _ _ _ _ b s1 H2) as (s3 & -> & Hsl3 & Ho3 & _); [done..|].
    unfold both, adopted_slab. rewrite decide_True by done. split; [by eapply same_slots_trans|congruence].
  - rewrite (rl_outside _ _ _ _ H2), Heq, (rl_outside _ _ _ _ H1) by done.
    destruct (m_slabs m !! b) as [s|] eqn:Hs; [|done]. unfold both, adopted_slab. rewrite decide_False; [done|].
    intros Ho. apply Hb, Hall. exists s. by apply owned_Some.
Qed.

Lemma empty_available (l : list N) :
  length l = length slot_bytes → (∀ c, c < categories → l !! N.to_nat c = Some 0) → l = no_available.
Proof.
  intros Hlen Hz. apply list_eq_same_length with (length slot_bytes); [done..|].
  intros i x y Hi Hx Hy. assert (N.of_nat i < categories) as Hc by (change categories with 6; simpl in Hi; lia).
  pose proof (Hz _ Hc) as H1. pose proof (no_available_lookup _ Hc) as H2. rewrite Nat2N.id in H1, H2. congruence.
Qed.

Lemma adopt_ok m h h2 st other :
  h ≠ 0 → h ≠ h2 → memory_ok m → storage_ok m h st → storage_ok m h2 other →
  ∃ m' st', adopt m st other h = Ok (m', st', empty_storage) ∧
    adopted h h2 m m' ∧ storage_ok m' h st'.
Proof.
  intros Hh Hne Hm [(bl1 & Hbl1 & Hav1) (ll1 & Hll1) Hl1] [(bl2 & Hbl2 & Hav2) (ll2 & Hll2) Hl2].
  destruct (join_blocks m h h2 st other bl1 bl2) as
    (m1 & st1 & other1 & Hrun1 & Hr1 & Hb1 & Hg1 & Ha1 & Hz1 & Hg1' & Ha1'); [done..|].
  assert (∀ h' a, owned_large m1 h' a = owned_large m h' a) as Hol.
  { intros h' a. unfold owned_large. by rewrite (rl_large _ _ _ _ Hr1). }
  assert (large_list m1 h st1 ll1) as Hll1'.
  { destruct Hll1 as [Hch Hnd Hall]. constructor; [|done|intros a; by rewrite Hol].
    rewrite Hg1. eapply chain_ext; [|exact Hch]. intros a _. unfold next_large. by rewrite Hol. }
  assert (large_list m1 h2 other1 ll2) as Hll2'.
  { destruct Hll2 as [Hch Hnd Hall]. constructor; [|done|intros a; by rewrite Hol].
    rewrite Hg1'. eapply chain_ext; [|exact Hch]. intros a _. unfold next_large. by rewrite Hol. }
  destruct (join_large m1 h h2 st1 other1 ll1 ll2) as
    (m2 & st2 & other2 & Hrun2 & Hlg2 & Hsl2 & Hob2 & Hll & Hbs2 & Ha2 & Hz2 & Hbs2' & Ha2'); [done..|].
  assert (∀ b, owned m2 h b = owned m1 h b) as Ho2 by (intros b; unfold owned; by rewrite Hsl2).
  assert (∀ b, b ∈ bl1 → b ∉ bl2) as Hdisj.
  { intros b [s [H1 H2]%owned_Some]%(block_all _ _ _ _ Hbl1) [s' [H3 H4]%owned_Some]%(block_all _ _ _ _ Hbl2). congruence. }
  destruct (join_available_loop h bl1 bl2 (indices (length_N slot_bytes)) m2 st2 other2) as
    (m3 & st3 & other3 & Hrun3 & Hr3 & Hav3 & Hb3 & Hg3 & Hb3' & Hg3' & Hl3 & Hl3').
  - done.
  - intros b Hb. rewrite Ho2. apply (block_all _ _ _ _ Hb1). set_solver.
  - apply Hbl2.
  - apply (bool_decide_unpack _). by vm_compute.
  - intros c Hc. apply elem_of_indices in Hc. split; [done|]. split.
    + eapply available_list_transfer; [by rewrite Ha2, Ha1| |by apply Hav1].
      intros b Hb. rewrite Ho2. unfold owned. by rewrite (rl_outside _ _ _ _ Hr1) by auto.
    + eapply available_list_transfer; [by rewrite Ha2', Ha1'| |by apply Hav2].
      intros b Hb. rewrite Ho2. destruct (proj1 (block_all _ _ _ _ Hbl2 b) Hb) as [s Hos].
      pose proof Hos as [Hs _]%owned_Some. rewrite Hos.
      destruct (relinked_mapped _ _ _ _ _ _ Hr1 Hb Hs) as (s' & Hs' & Hsame & Ho & Hn).
      destruct (same_slots_facts b s s' Hsame) as (_ & _ & _ & Hsp). destruct Hsame as (Hcat & _).
      assert (owned m1 h b = Some s') as -> by by apply owned_Some. simpl. unfold available_view. by rewrite Hcat, Hsp, Hn.
  - intros c Hc Hn. by rewrite elem_of_indices in Hn.
  - congruence.
  - congruence.
  - unfold adopt. rewrite Hrun1, bind_Ok, Hrun2, bind_Ok, Hrun3. exists m3, st3. split_and!.
    + f_equal. f_equal. unfold empty_storage. rewrite <-(empty_available (available_ other3) Hl3').
      * destruct other3; simpl in *. congruence.
      * intros c Hc. by apply Hav3.
    + constructor.
      * by eapply relinked_adopted.
      * intros a. rewrite (rl_large _ _ _ _ Hr3), <-(rl_large _ _ _ _ Hr1). apply Hlg2.
      * rewrite (rl_objects _ _ _ _ Hr3), Hob2. apply Hr1.
    + constructor; [|exists (ll2 ++ ll1)|done].
      * exists (bl2 ++ bl1). split; [|intros c Hc; by apply Hav3].
        eapply relinked_chain; [exact Hr3|exact Hb3|].
        destruct Hb1 as [Hch Hnd Hall]. constructor; [|done|intros b; by rewrite Ho2].
        rewrite Hbs2. eapply chain_ext; [|exact Hch]. intros b _. unfold next_block. by rewrite Ho2.
      * destruct Hll as [Hch Hnd Hall]. assert (∀ a, owned_large m3 h a = owned_large m2 h a) as Ho3.
        { intros a. unfold owned_large. by rewrite (rl_large _ _ _ _ Hr3). }
        constructor; [|done|intros a; by rewrite Ho3].
        rewrite Hg3. eapply chain_ext; [|exact Hch]. intros a _. unfold next_large. by rewrite Ho3.
Qed.

(** ** Release *)

Lemma clear_blocks_ok h bl fuel m st :
  memory_ok m → block_list m h st bl → (length bl < fuel)%nat →
  ∃ m' st', clear_blocks fuel m st = Ok (m', st') ∧ memory_ok m' ∧ block_list m' h st' [] ∧
    reclaimed_from m m' h ∧ m_large m' = m_large m ∧ large_ st' = large_ st.
Proof.
  revert fuel m st. induction bl as [|b bl IH]; intros [|fuel] m st Hm Hbl Hf; try (simpl in Hf; lia).
  { exists m, st. pose proof (block_chain _ _ _ _ Hbl) as Hz. simpl in Hz. simpl. rewrite Hz.
    by split_and!; try apply reclaimed_refl. }
  destruct Hbl as [(Heq & Hb & n & Hn & Hch) Hnd Hall]. apply NoDup_cons in Hnd as [Hbl Hnd].
  unfold next_block in Hn. apply fmap_Some in Hn as (s & [Hs Ho]%owned_Some & ->).
  simpl. rewrite Heq. rewrite (proj2 (N.eqb_neq _ _) Hb). unfold load_slab. rewrite Hs. simpl.
  set (m1 := free_block b m).
  assert (∀ x, owned m1 h x = if decide (x = b) then None else owned m h x) as Ho1.
  { intros x. unfold owned. simpl. destruct (decide (x = b)) as [->|]; [by rewrite lookup_delete_eq|].
    by rewrite lookup_delete_ne. }
  destruct (IH fuel m1 (set_blocks (sl_next s) st)) as (m2 & st2 & Hrun & Hm2 & Hbl2 & Hrec & Hlg & Hls).
  - by eapply free_block_memory.
  - constructor; [|done|].
    + simpl. eapply chain_ext; [|exact Hch]. intros x Hx. unfold next_block. rewrite Ho1, decide_False; [done|]. by intros ->.
    + intros x. rewrite Ho1. destruct (decide (x = b)) as [->|Hx]; [split; [done|by intros [? ?]]|].
      rewrite <-Hall. set_solver.
  - simpl in Hf. lia.
  - exists m2, st2. split_and!; try done. eapply reclaimed_trans; [|exact Hrec]. constructor.
    + rewrite <-Ho. by apply free_block_only_owner.
    + intros h' o bytes k [Hl _]%(free_block_live m b s Hm Hs). eauto.
    + intros h' o bytes k [Hl Hx]%(free_block_live m b s Hm Hs). by eapply free_block_object.
    + by apply keeps_free_block.
Qed.

Lemma clear_large_ok h ll fuel m st :
  memory_ok m → large_list m h st ll → (length ll < fuel)%nat →
  ∃ m' st', clear_large fuel m st = Ok (m', st') ∧ memory_ok m' ∧ large_list m' h st' [] ∧
    reclaimed_from m m' h ∧ m_slabs m' = m_slabs m ∧ blocks_ st' = blocks_ st.
Proof.
  revert fuel m st. induction ll as [|a ll IH]; intros [|fuel] m st Hm Hll Hf; try (simpl in Hf; lia).
  { exists m, st. pose proof (large_chain _ _ _ _ Hll) as Hz. simpl in Hz. simpl. rewrite Hz.
    by split_and!; try apply reclaimed_refl. }
  assert (is_Some (m_large m !! a)) as [g Hg].
  { assert (is_Some (owned_large m h a)) as [g [? _]%owned_large_Some] by (apply Hll; set_solver). by exists g. }
  destruct (large_free m h st [] a ll g Hm Hll Hg) as (m1 & st1 & Hw & Hm1 & Hll1 & Hrec1 & _ & Hsl1 & Hbs1 & _).
  simpl in Hw. injection Hw as <- <-.
  pose proof (large_chain _ _ _ _ Hll) as (Heq & Ha & _).
  simpl. rewrite Heq, (proj2 (N.eqb_neq _ _) Ha). unfold load_large. rewrite Hg. simpl.
  destruct (IH fuel (free_large a m) (set_large (lg_next g) st)) as (m2 & st2 & Hrun & Hm2 & Hll2 & Hrec & Hsl & Hbs);
    [done|done|simpl in Hf; lia|].
  exists m2, st2. split_and!; try done. by eapply reclaimed_trans.
Qed.

Lemma clear_ok m h st :
  memory_ok m → storage_ok m h st →
  ∃ m', clear m st = Ok (m', empty_storage) ∧ memory_ok m' ∧ reclaimed_from m m' h ∧
    (∀ b, owned m' h b = None) ∧ (∀ a, owned_large m' h a = None).
Proof.
  intros Hm [(bl & Hbl & _) (ll & Hll) _]. unfold clear.
  destruct (clear_blocks_ok h bl (list_fuel (m_slabs m)) m st Hm Hbl) as
    (m1 & st1 & -> & Hm1 & Hbl1 & Hrec1 & Hlg & Hls); [by eapply block_fuel|]. rewrite bind_Ok.
  assert (large_list m1 h st1 ll) as Hll1.
  { destruct Hll as [Hch Hnd Hall]. assert (∀ a, owned_large m1 h a = owned_large m h a) as Ho.
    { intros a. unfold owned_large. by rewrite Hlg. }
    constructor; [|done|intros a; by rewrite Ho].
    rewrite Hls. eapply chain_ext; [|exact Hch]. intros a _. unfold next_large. by rewrite Ho. }
  destruct (clear_large_ok h ll (list_fuel (m_large m1)) m1 st1 Hm1 Hll1) as
    (m2 & st2 & -> & Hm2 & Hll2 & Hrec2 & Hsl & Hbs); [by eapply large_fuel|]. rewrite bind_Ok.
  exists m2. split_and!; [|done|by eapply reclaimed_trans|..].
  - do 2 f_equal. unfold empty_storage. pose proof (block_chain _ _ _ _ Hbl1) as Hz. simpl in Hz. rewrite Hbs, Hz.
    pose proof (large_chain _ _ _ _ Hll2) as Hz'. simpl in Hz'. by rewrite Hz'.
  - intros b. unfold owned. rewrite Hsl. fold (owned m1 h b). pose proof (block_all _ _ _ _ Hbl1 b) as H.
    destruct (owned m1 h b); [|done]. exfalso. apply (not_elem_of_nil b), H. by eexists.
  - intros a. pose proof (large_all _ _ _ _ Hll2 a) as H.
    destruct (owned_large m2 h a); [|done]. exfalso. apply (not_elem_of_nil a), H. by eexists.
Qed.
