(* ===== verification/Heap.v ===== *)
(** * The managed heap: state, tracing and collection ([native/runtime/runtime.cpp])

    A runtime context ([runtime_state]) owns a storage, a chain of root frames, of
    native borrows and of foreign entries, and reads the objects of its suspended
    ancestors.  Contexts, frames, borrow and entry tokens, native words and native
    allocations are found by address in the [world]; one native thread is modelled.
    Type descriptors and trace callbacks are the compiled program's, and the host
    allocator is the platform's: both are parameters.  The memory profile, which only
    observes, is off. *)

From S2P Require Import Prelude Storage.

Local Open Scope string_scope.
Local Open Scope list_scope.
Local Open Scope N_scope.

(** ** Constants *)

Definition root_frame_cookie : N := 0x484b524f4f545631.
Definition foreign_entry_cookie : N := 0x4e52464f52454947.
Definition borrow_cookie : N := 0x484b424f52525631.
Definition collection_floor_bytes : N := 4 * 1024 * 1024.

Definition TYPE_KIND_CLASS : N := 1.
Definition TYPE_KIND_STRING : N := 2.
Definition TYPE_KIND_ARRAY : N := 3.
Definition SCALAR_KIND_NONE : N := 0.
Definition TYPE_FLAG_CONTAINS_REFS : N := 1.
Definition TYPE_FLAG_IMMUTABLE : N := 2.
Definition known_type_flags : N := N.lor TYPE_FLAG_CONTAINS_REFS TYPE_FLAG_IMMUTABLE.
Definition TYPE_DESCRIPTOR_BASE_SIZE : N := 80.
Definition TYPE_DESCRIPTOR_V1_4_SIZE : N := 104.
Definition ABI_MAJOR : N := 1.
Definition ABI_MINOR : N := 36.
Definition max_align : N := 16.

Definition PANIC_BOUNDS : N := 1.
Definition PANIC_OUT_OF_MEMORY : N := 3.
Definition PANIC_ABI_MISMATCH : N := 4.
Definition PANIC_RUNTIME_CONTRACT : N := 5.

Definition contract_panic {A} (message : string) : result A := Throw (panic PANIC_RUNTIME_CONTRACT message).
Definition out_of_memory {A} (message : string) : result A := Throw (panic PANIC_OUT_OF_MEMORY message).

(** [uint64_t] arithmetic. *)
Definition u64_sub (a b : N) : N := u64 (a + (u64_max + 1 - u64 b)).

Lemma u64_small n : n ≤ u64_max → u64 n = n.
Proof. intros Hn. apply N.mod_small. lia. Qed.

Lemma u64_sub_small a b : b ≤ a → a ≤ u64_max → u64_sub a b = a - b.
Proof.
  intros H1 H2. unfold u64_sub. rewrite (u64_small b) by lia. unfold u64, u64_max in *.
  replace (a + (18446744073709551615 + 1 - b)) with (a - b + 1 * (18446744073709551615 + 1)) by lia.
  rewrite N.Div0.mod_add. apply N.mod_small. lia.
Qed.

Definition is_power_of_two (value : N) : bool := negb (value =? 0) && (N.land value (value - 1) =? 0).

(** ** Descriptors *)

(** [neri_type_descriptor_v1]; zero is the null pointer.  [method_table] and
    [base_type], which the collector and the allocation checks do not read, are left out. *)
Record type_descriptor := mk_type_descriptor {
  td_struct_size : N;
  td_abi_major : N;
  td_abi_minor : N;
  td_kind : N;
  td_flags : N;
  td_payload_size : N;
  td_payload_alignment : N;
  td_element_size : N;
  td_element_alignment : N;
  td_trace : N;
  td_mangled_name : option string;
  td_reserved : N;
  td_element_type : N;
  td_trace_inline : N;
  td_scalar_kind : N;
  td_reserved_v1_4 : N;
}.

(** What the compiled program and the runtime's static data provide: descriptors by
    address, the slots a trace callback reports for an object, in order, and the
    addresses of the two string types. *)
Class Program := {
  descriptor : N → option type_descriptor;
  trace_callback : N → N → object → list N;
  string_literal_type : N;
  dynamic_string_type : N;
}.

(** ** Contexts *)

Inductive heap_phase := uninitialized | active | collecting | suspended.

#[export] Instance heap_phase_eq_dec : EqDecision heap_phase.
Proof. solve_decision. Defined.

Record runtime_state := mk_state {
  rs_storage : managed_storage;
  rs_native_head : N;
  rs_root_frame : N;
  rs_borrow : N;
  rs_foreign_entry : N;
  rs_object_count : N;
  rs_byte_count : N;
  rs_native_byte_count : N;
  rs_collection_count : N;
  rs_next_collection_bytes : N;
  rs_argument_count : Z;
  rs_arguments : N;
  rs_phase : heap_phase;
  rs_read_parent : N;
  rs_region_parent : N;
  rs_host_error : string;
  rs_persistent_roots : list N;
}.

(** [runtime_state{}]. *)
Definition empty_state : runtime_state :=
  mk_state empty_storage 0 0 0 0 0 0 0 0 collection_floor_bytes 0 0 uninitialized 0 0 "" [].

Record root_frame := mk_frame {
  fr_previous : N;
  fr_slots : N;
  fr_slot_count : N;
  fr_runtime_cookie : N;
}.

(** The words of [neri_gc_borrow_v1] and [neri_foreign_entry_v1]. *)
Record borrow_token := mk_borrow {
  bw_previous : N;
  bw_owner : N;
  bw_byte_length : N;
  bw_cookie : N;
}.

Record foreign_token := mk_foreign {
  fe_previous : N;
  fe_heap : N;
  fe_roots : N;
  fe_borrows : N;
  fe_owns_heap : N;
  fe_cookie : N;
}.

Record native_allocation := mk_native {
  na_previous : N;
  na_next : N;
  na_pointer : N;
  na_byte_count : N;
  na_alignment : N;
}.

(** Everything the runtime of one thread can reach.  [w_words] are the native words
    that hold references (root slots), [w_bytes] the native allocations' contents. *)
Record world := mk_world {
  w_memory : memory;
  w_states : gmap N runtime_state;
  w_active : N;
  w_tracing : bool;
  w_frames : gmap N root_frame;
  w_borrows : gmap N borrow_token;
  w_entries : gmap N foreign_token;
  w_words : gmap N N;
  w_natives : gmap N native_allocation;
  w_bytes : gmap N (list byte);
}.

(** The platform: whether the worklist can grow, and where [new runtime_state],
    [platform::allocate] and [malloc] of a list node put their storage (null when
    they fail), and whether the standard streams can be flushed. *)
Class RuntimeHost := {
  grow_worklist : N → bool;
  new_state : world → N;
  native_allocate : world → N → N → N;
  native_node : world → N;
  native_residue : world → N → N → list byte;
  flush_console : world → bool;
}.

(** ** Field updates *)

Definition set_storage (x : managed_storage) (s : runtime_state) : runtime_state :=
  mk_state x (rs_native_head s) (rs_root_frame s) (rs_borrow s) (rs_foreign_entry s) (rs_object_count s)
    (rs_byte_count s) (rs_native_byte_count s) (rs_collection_count s) (rs_next_collection_bytes s)
    (rs_argument_count s) (rs_arguments s) (rs_phase s) (rs_read_parent s) (rs_region_parent s)
    (rs_host_error s) (rs_persistent_roots s).
Definition set_natives (head bytes : N) (s : runtime_state) : runtime_state :=
  mk_state (rs_storage s) head (rs_root_frame s) (rs_borrow s) (rs_foreign_entry s) (rs_object_count s)
    (rs_byte_count s) bytes (rs_collection_count s) (rs_next_collection_bytes s)
    (rs_argument_count s) (rs_arguments s) (rs_phase s) (rs_read_parent s) (rs_region_parent s)
    (rs_host_error s) (rs_persistent_roots s).
Definition set_chains (roots borrow entry : N) (s : runtime_state) : runtime_state :=
  mk_state (rs_storage s) (rs_native_head s) roots borrow entry (rs_object_count s)
    (rs_byte_count s) (rs_native_byte_count s) (rs_collection_count s) (rs_next_collection_bytes s)
    (rs_argument_count s) (rs_arguments s) (rs_phase s) (rs_read_parent s) (rs_region_parent s)
    (rs_host_error s) (rs_persistent_roots s).
Definition set_counts (objects bytes collections next : N) (s : runtime_state) : runtime_state :=
  mk_state (rs_storage s) (rs_native_head s) (rs_root_frame s) (rs_borrow s) (rs_foreign_entry s) objects
    bytes (rs_native_byte_count s) collections next
    (rs_argument_count s) (rs_arguments s) (rs_phase s) (rs_read_parent s) (rs_region_parent s)
    (rs_host_error s) (rs_persistent_roots s).
Definition set_arguments (count : Z) (values : N) (s : runtime_state) : runtime_state :=
  mk_state (rs_storage s) (rs_native_head s) (rs_root_frame s) (rs_borrow s) (rs_foreign_entry s) (rs_object_count s)
    (rs_byte_count s) (rs_native_byte_count s) (rs_collection_count s) (rs_next_collection_bytes s)
    count values (rs_phase s) (rs_read_parent s) (rs_region_parent s)
    (rs_host_error s) (rs_persistent_roots s).
Definition set_phase (x : heap_phase) (s : runtime_state) : runtime_state :=
  mk_state (rs_storage s) (rs_native_head s) (rs_root_frame s) (rs_borrow s) (rs_foreign_entry s) (rs_object_count s)
    (rs_byte_count s) (rs_native_byte_count s) (rs_collection_count s) (rs_next_collection_bytes s)
    (rs_argument_count s) (rs_arguments s) x (rs_read_parent s) (rs_region_parent s)
    (rs_host_error s) (rs_persistent_roots s).
Definition set_parents (read region : N) (s : runtime_state) : runtime_state :=
  mk_state (rs_storage s) (rs_native_head s) (rs_root_frame s) (rs_borrow s) (rs_foreign_entry s) (rs_object_count s)
    (rs_byte_count s) (rs_native_byte_count s) (rs_collection_count s) (rs_next_collection_bytes s)
    (rs_argument_count s) (rs_arguments s) (rs_phase s) read region
    (rs_host_error s) (rs_persistent_roots s).
Definition set_host_error (x : string) (s : runtime_state) : runtime_state :=
  mk_state (rs_storage s) (rs_native_head s) (rs_root_frame s) (rs_borrow s) (rs_foreign_entry s) (rs_object_count s)
    (rs_byte_count s) (rs_native_byte_count s) (rs_collection_count s) (rs_next_collection_bytes s)
    (rs_argument_count s) (rs_arguments s) (rs_phase s) (rs_read_parent s) (rs_region_parent s)
    x (rs_persistent_roots s).
Definition set_persistent_roots (x : list N) (s : runtime_state) : runtime_state :=
  mk_state (rs_storage s) (rs_native_head s) (rs_root_frame s) (rs_borrow s) (rs_foreign_entry s) (rs_object_count s)
    (rs_byte_count s) (rs_native_byte_count s) (rs_collection_count s) (rs_next_collection_bytes s)
    (rs_argument_count s) (rs_arguments s) (rs_phase s) (rs_read_parent s) (rs_region_parent s)
    (rs_host_error s) x.

Definition with_memory (m : memory) (w : world) : world :=
  mk_world m (w_states w) (w_active w) (w_tracing w) (w_frames w) (w_borrows w) (w_entries w) (w_words w)
    (w_natives w) (w_bytes w).
Definition with_states (f : gmap N runtime_state → gmap N runtime_state) (w : world) : world :=
  mk_world (w_memory w) (f (w_states w)) (w_active w) (w_tracing w) (w_frames w) (w_borrows w) (w_entries w)
    (w_words w) (w_natives w) (w_bytes w).
Definition with_active (a : N) (w : world) : world :=
  mk_world (w_memory w) (w_states w) a (w_tracing w) (w_frames w) (w_borrows w) (w_entries w) (w_words w)
    (w_natives w) (w_bytes w).
Definition with_tracing (b : bool) (w : world) : world :=
  mk_world (w_memory w) (w_states w) (w_active w) b (w_frames w) (w_borrows w) (w_entries w) (w_words w)
    (w_natives w) (w_bytes w).
Definition with_frames (f : gmap N root_frame → gmap N root_frame) (w : world) : world :=
  mk_world (w_memory w) (w_states w) (w_active w) (w_tracing w) (f (w_frames w)) (w_borrows w) (w_entries w)
    (w_words w) (w_natives w) (w_bytes w).
Definition with_borrows (f : gmap N borrow_token → gmap N borrow_token) (w : world) : world :=
  mk_world (w_memory w) (w_states w) (w_active w) (w_tracing w) (w_frames w) (f (w_borrows w)) (w_entries w)
    (w_words w) (w_natives w) (w_bytes w).
Definition with_entries (f : gmap N foreign_token → gmap N foreign_token) (w : world) : world :=
  mk_world (w_memory w) (w_states w) (w_active w) (w_tracing w) (w_frames w) (w_borrows w) (f (w_entries w))
    (w_words w) (w_natives w) (w_bytes w).
Definition with_words (f : gmap N N → gmap N N) (w : world) : world :=
  mk_world (w_memory w) (w_states w) (w_active w) (w_tracing w) (w_frames w) (w_borrows w) (w_entries w)
    (f (w_words w)) (w_natives w) (w_bytes w).
Definition with_natives (f : gmap N native_allocation → gmap N native_allocation)
    (g : gmap N (list byte) → gmap N (list byte)) (w : world) : world :=
  mk_world (w_memory w) (w_states w) (w_active w) (w_tracing w) (w_frames w) (w_borrows w) (w_entries w)
    (w_words w) (f (w_natives w)) (g (w_bytes w)).

Definition store_state (h : N) (s : runtime_state) : world → world := with_states <[h := s]>.

(** ** Reading *)

Definition load_state (w : world) (h : N) : result runtime_state := load "runtime_state" (w_states w !! h).

(** [current_state()]: the address and the contents of the active context. *)
Definition current_state (w : world) : result (N * runtime_state) :=
  s ← load_state w (w_active w); Ok (w_active w, s).

Definition phase_is (p : heap_phase) (s : runtime_state) : bool := bool_decide (rs_phase s = p).

Definition require_initialized (w : world) : result unit :=
  '(_, heap) ← current_state w;
  if phase_is uninitialized heap then contract_panic "runtime operation requires successful initialization"
  else if phase_is suspended heap then
    contract_panic "managed operations require an active heap, not a suspended task parent"
  else Ok tt.

Definition payload_size (m : memory) (object : N) : result N :=
  bytes ← size m object; Ok (bytes - sizeof_header).

(** A reference stored in the payload of an object. *)
Definition slot_offset_of (object slot : N) : N := slot - (object + sizeof_header).
Definition in_payload (o : N) (ob : object) (slot : N) : bool :=
  (o + sizeof_header <=? slot) && (slot + 8 <=? o + sizeof_header + length_N (ob_payload ob)).
Definition read_word (payload : list byte) (offset : N) : N := le_combine (take 8 (drop (N.to_nat offset) payload)).
Definition write_word (payload : list byte) (offset value : N) : list byte :=
  take (N.to_nat offset) payload ++ le_split 8 value ++ drop (N.to_nat offset + 8) payload.

Definition load_slot (m : memory) (object slot : N) : result N :=
  ob ← load_object m object;
  assert_that (in_payload object ob slot) "reference slot outside the object";;
  Ok (read_word (ob_payload ob) (slot_offset_of object slot)).

Definition store_slot (m : memory) (object slot value : N) : result memory :=
  ob ← load_object m object;
  assert_that (in_payload object ob slot) "reference slot outside the object";;
  Ok (store_object object
        (mk_object (ob_type ob) (ob_runtime_word ob) (write_word (ob_payload ob) (slot_offset_of object slot) value)) m).

Section lookups.
Context `{Program}.

Definition find_managed (w : world) (object : N) : result (option N) :=
  o ← owner (w_memory w) object;
  '(h, _) ← current_state w;
  Ok (if o =? h then Some object else None).

Definition is_string_literal (m : memory) (object : N) : result bool :=
  if object =? 0 then Ok false
  else ob ← load_object m object; Ok (ob_type ob =? string_literal_type).

(** The loop over [read_parent]: is [owner] a suspended ancestor? *)
Fixpoint suspended_ancestor (fuel : nat) (states : gmap N runtime_state) (parent owner : N) : result bool :=
  match fuel with
  | O => Throw (undefined "parent chain does not end")
  | S fuel =>
      if parent =? 0 then Ok false
      else
        s ← load "runtime_state" (states !! parent);
        if (owner =? parent) && phase_is suspended s then Ok true
        else suspended_ancestor fuel states (rs_read_parent s) owner
  end.

Definition find_readable (w : world) (object : N) : result (option N) :=
  o ← owner (w_memory w) object;
  '(h, heap) ← current_state w;
  if o =? h then Ok (Some object)
  else
    a ← suspended_ancestor (list_fuel (w_states w)) (w_states w) (rs_read_parent heap) o;
    Ok (if a : bool then Some object else None).
End lookups.

(** ** Consistency *)

(** The native allocations of a context, checked for back links, with their bytes. *)
Fixpoint native_total (fuel : nat) (w : world) (allocation previous : N) : result N :=
  match fuel with
  | O => Throw (undefined "native list does not end")
  | S fuel =>
      if allocation =? 0 then Ok 0
      else
        a ← load "native_allocation" (w_natives w !! allocation);
        assert_that (na_previous a =? previous) "native back link";;
        assert_that (negb (na_pointer a =? 0)) "native pointer";;
        rest ← native_total fuel w (na_next a) allocation;
        Ok (u64 (na_byte_count a + rest))
  end.

(** The debug build's check of the active context. *)
Definition assert_consistent (w : world) : result unit :=
  '(h, heap) ← current_state w;
  calls ← visit (w_memory w) (rs_storage heap);
  for_each calls (λ call,
    o ← owner (w_memory w) call.1;
    assert_that (o =? h) "object owner";;
    k ← marked (w_memory w) call.1;
    assert_that (phase_is collecting heap || negb k) "object mark");;
  assert_that (reclaimed_objects calls =? rs_object_count heap) "object count";;
  assert_that (reclaimed_bytes calls =? rs_byte_count heap) "byte count";;
  total ← native_total (list_fuel (w_natives w)) w (rs_native_head heap) 0;
  assert_that (total =? rs_native_byte_count heap) "native byte count".

(** ** Tracing *)

(** The worklist: the last item is the top. *)
Record mark_stack := mk_stack { ms_items : list N; ms_capacity : N }.
Definition empty_stack : mark_stack := mk_stack [] 0.

Section tracing.
Context `{Program} `{RuntimeHost}.

Definition push_mark (stack : mark_stack) (allocation : N) : result mark_stack :=
  let push capacity := Ok (mk_stack (ms_items stack ++ [allocation]) capacity) in
  if length_N (ms_items stack) =? ms_capacity stack then
    let next_capacity := if ms_capacity stack =? 0 then 64 else u64 (ms_capacity stack * 2) in
    if (next_capacity <? ms_capacity stack) || (u64_max / 8 <? next_capacity) then
      out_of_memory "GC mark worklist is too large"
    else if negb (grow_worklist next_capacity) then out_of_memory "GC mark worklist allocation failed"
    else push next_capacity
  else push (ms_capacity stack).

(** The variables of a trace: mark bits and worklist. *)
Definition trace_state : Type := memory * mark_stack.

Definition mark_object (states : gmap N runtime_state) (h : N) (object : N) (state : trace_state)
    : result trace_state :=
  let '(m, stack) := state in
  if object =? 0 then Ok state
  else
    literal ← is_string_literal m object;
    if literal : bool then Ok state
    else
      o ← owner m object;
      if negb (o =? h) then
        heap ← load "runtime_state" (states !! h);
        a ← suspended_ancestor (list_fuel states) states (rs_read_parent heap) o;
        if a : bool then Ok state
        else contract_panic "GC encountered a reference outside the managed heap"
      else
        '(first, m) ← mark m object;
        if first : bool then stack ← push_mark stack object; Ok (m, stack)
        else Ok (m, stack).

(** [mark_slot] of a slot in the traced object. *)
Definition mark_slot (states : gmap N runtime_state) (h object slot : N) (state : trace_state)
    : result trace_state :=
  if slot =? 0 then contract_panic "GC trace callback supplied a null slot or context"
  else
    heap ← load "runtime_state" (states !! h);
    if negb (phase_is collecting heap) then contract_panic "GC trace callback ran outside collection"
    else value ← load_slot state.1 object slot; mark_object states h value state.

(** The slots the trace callback of an object reports. *)
Definition reported_slots (m : memory) (object : N) : result (list N) :=
  ob ← load_object m object;
  if ob_type ob =? 0 then Ok []
  else
    type ← load "type descriptor" (descriptor (ob_type ob));
    Ok (if td_trace type =? 0 then [] else trace_callback (td_trace type) object ob).

Definition pop_mark (stack : mark_stack) : option (N * mark_stack) :=
  allocation ← last (ms_items stack);
  Some (allocation, mk_stack (take (length (ms_items stack) - 1) (ms_items stack)) (ms_capacity stack)).

(** [while (stack.count != 0)]. *)
Fixpoint drain (fuel : nat) (states : gmap N runtime_state) (h : N) (state : trace_state) : result trace_state :=
  match fuel with
  | O => Throw (undefined "worklist does not drain")
  | S fuel =>
      match pop_mark state.2 with
      | None => Ok state
      | Some (allocation, stack) =>
          slots ← reported_slots state.1 allocation;
          state ← for_state slots (state.1, stack) (mark_slot states h allocation);
          drain fuel states h state
      end
  end.

(** ** Roots *)

Fixpoint mark_frames (fuel : nat) (w : world) (h frame : N) (state : trace_state) : result trace_state :=
  match fuel with
  | O => Throw (undefined "root chain does not end")
  | S fuel =>
      if frame =? 0 then Ok state
      else
        f ← load "root frame" (w_frames w !! frame);
        if negb (fr_runtime_cookie f =? root_frame_cookie) ||
           (negb (fr_slot_count f =? 0) && (fr_slots f =? 0)) then
          contract_panic "GC root-frame chain is corrupt"
        else
          state ← for_state (indices (fr_slot_count f)) state (λ index state,
            value ← load "root slot" (w_words w !! (fr_slots f + 8 * index));
            mark_object (w_states w) h value state);
          mark_frames fuel w h (fr_previous f) state
  end.

Definition mark_persistent (w : world) (h : N) (slots : list N) (state : trace_state) : result trace_state :=
  for_state slots state (λ slot state,
    if slot =? 0 then contract_panic "persistent GC root is corrupt"
    else value ← load "persistent root" (w_words w !! slot); mark_object (w_states w) h value state).

Fixpoint mark_borrows (fuel : nat) (w : world) (h borrow : N) (state : trace_state) : result trace_state :=
  match fuel with
  | O => Throw (undefined "borrow chain does not end")
  | S fuel =>
      if borrow =? 0 then Ok state
      else
        b ← load "borrow" (w_borrows w !! borrow);
        if negb (bw_cookie b =? borrow_cookie) then contract_panic "managed-borrow chain is corrupt"
        else
          state ← mark_object (w_states w) h (bw_owner b) state;
          mark_borrows fuel w h (bw_previous b) state
  end.

(** ** Collection *)

Definition next_threshold (bytes : N) : N :=
  N.max collection_floor_bytes (if u64_max / 2 <? bytes then u64_max else bytes * 2).

(** Marks everything reachable from the roots of the context [h]. *)
Definition trace_roots (w : world) (h : N) (heap : runtime_state) : result trace_state :=
  state ← mark_frames (list_fuel (w_frames w)) w h (rs_root_frame heap) (w_memory w, empty_stack);
  state ← mark_persistent w h (rs_persistent_roots heap) state;
  state ← mark_borrows (list_fuel (w_borrows w)) w h (rs_borrow heap) state;
  drain (list_fuel (m_objects (w_memory w))) (w_states w) h state.

Definition collect_impl (w : world) : result world :=
  '(h, heap) ← current_state w;
  if phase_is collecting heap then contract_panic "nested GC collection is not supported by ABI v1.0"
  else
    let heap := set_phase collecting heap in
    let w := with_tracing true (store_state h heap w) in
    '(m, _) ← trace_roots w h heap;
    '(m, storage, reclaimed) ← sweep m (rs_storage heap);
    let objects := u64_sub (rs_object_count heap) (reclaimed_objects reclaimed) in
    let bytes := u64_sub (rs_byte_count heap) (reclaimed_bytes reclaimed) in
    let heap := set_phase active (set_counts objects bytes (u64 (rs_collection_count heap + 1))
                  (next_threshold bytes) (set_storage storage heap)) in
    let w := with_tracing false (store_state h heap (with_memory m w)) in
    assert_consistent w;;
    Ok w.
End tracing.
