(* ===== verification/Text.v ===== *)
(** * Text in the runtime ([native/runtime/runtime.cpp])

    The pure routines behind string operations: strict UTF-8, decimal integers as
    [std::to_chars] and [std::from_chars] write and read them, the syntax of decimal
    floating-point text, and the formatting of finite numbers.  The text [std::to_chars]
    gives for a floating-point value is an argument. *)

From S2P Require Import Prelude Reader Utf8 Storage Heap.

Local Open Scope string_scope.
Local Open Scope list_scope.
Local Open Scope N_scope.

(** ** Strict UTF-8 *)

Definition is_continuation (value : N) : bool := N.land value 0xc0 =? 0x80.

Definition between (low high value : N) : bool := (low <=? value) && (value <=? high).

(** The loop from [index]; a text has at most [PTRDIFF_MAX] bytes, so indices do not wrap. *)
Fixpoint strict_utf8_from (fuel : nat) (bytes : list byte) (index : N) : result bool :=
  let size := length_N bytes in
  if negb (index <? size) then Ok true
  else
    match fuel with
    | O => Throw (undefined "UTF-8 scan does not end")
    | S fuel =>
        first ← span_at bytes index;
        let index := index + 1 in
        if first <=? 0x7f then strict_utf8_from fuel bytes index
        else if between 0xc2 0xdf first then
          if index =? size then Ok false
          else
            second ← span_at bytes index;
            if is_continuation second then strict_utf8_from fuel bytes (index + 1) else Ok false
        else if between 0xe0 0xef first then
          if size <=? index + 1 then Ok false
          else
            second ← span_at bytes index;
            third ← span_at bytes (index + 1);
            let valid_second :=
              if first =? 0xe0 then between 0xa0 0xbf second
              else if first =? 0xed then between 0x80 0x9f second
              else is_continuation second in
            if negb valid_second || negb (is_continuation third) then Ok false
            else strict_utf8_from fuel bytes (index + 2)
        else if between 0xf0 0xf4 first then
          if size <=? index + 2 then Ok false
          else
            second ← span_at bytes index;
            third ← span_at bytes (index + 1);
            fourth ← span_at bytes (index + 2);
            let valid_second :=
              if first =? 0xf0 then between 0x90 0xbf second
              else if first =? 0xf4 then between 0x80 0x8f second
              else is_continuation second in
            if negb valid_second || negb (is_continuation third) || negb (is_continuation fourth) then Ok false
            else strict_utf8_from fuel bytes (index + 3)
        else Ok false
    end.

Definition is_strict_utf8 (bytes : list byte) : result bool := strict_utf8_from (length bytes) bytes 0.

(** ** Decimal integers *)

Definition is_digit (b : byte) : bool := between 48 57 (Byte.to_N b).

Definition digit (n : N) : byte := byte_of (48 + n).

Fixpoint decimal_digits (fuel : nat) (n : N) (acc : list byte) : list byte :=
  match fuel with
  | O => acc
  | S fuel =>
      let acc := digit (n mod 10) :: acc in
      if n / 10 =? 0 then acc else decimal_digits fuel (n / 10) acc
  end.

(** The decimal text of a machine integer: its digits, after a sign if it is negative. *)
Definition decimal_text (value : Z) : list byte :=
  if (value <? 0)%Z then x2d :: decimal_digits 20 (Z.to_N (- value)) []
  else decimal_digits 20 (Z.to_N value) [].

(** [std::to_chars] into a buffer of [capacity] bytes; [None] is [value_too_large]. *)
Definition to_chars (capacity : N) (value : Z) : option (list byte) :=
  let text := decimal_text value in
  if length_N text <=? capacity then Some text else None.

(** The longest prefix of digits, and what follows it. *)
Fixpoint split_digits (l : list byte) : list byte * list byte :=
  match l with
  | [] => ([], [])
  | b :: rest => if is_digit b then let '(d, r) := split_digits rest in (b :: d, r) else ([], l)
  end.

Definition digits_value (l : list byte) : N := foldl (λ n b, 10 * n + (Byte.to_N b - 48)) 0 l.

(** A leading minus sign, the only sign [std::from_chars] takes. *)
Definition split_minus (text : list byte) : bool * list byte :=
  match text with x2d :: rest => (true, rest) | _ => (false, text) end.

(** [std::from_chars] into a signed integer with range [low .. high], base 10: the value and
    the unread rest; [None] when there is no number or it is out of range. *)
Definition from_chars (low high : Z) (text : list byte) : option (Z * list byte) :=
  let '(negative, body) := split_minus text in
  let '(digits, rest) := split_digits body in
  match digits with
  | [] => None
  | _ :: _ =>
      let value := if negative then (- Z.of_N (digits_value digits))%Z else Z.of_N (digits_value digits) in
      if ((low <=? value) && (value <=? high))%Z then Some (value, rest) else None
  end.

Definition int64_min : Z := -9223372036854775808.
Definition int64_max : Z := 9223372036854775807.
Definition int_min : Z := -2147483648.
Definition int_max : Z := 2147483647.

(** The text [integer_string] puts into a string object. *)
Definition integer_text (value : Z) : result (list byte) :=
  match to_chars 32 value with
  | Some text => Ok text
  | None => contract_panic "numeric string conversion failed"
  end.

(** The conversion of [neri_rt_v1_host_parse_int]. *)
Definition parse_int_text (text : list byte) : option Z :=
  match from_chars int64_min int64_max text with
  | Some (value, []) => Some value
  | _ => None
  end.

(** ** Floating-point syntax *)

Definition skip_sign (l : list byte) : list byte :=
  match l with b :: rest => if Byte.eqb b x2b || Byte.eqb b x2d then rest else l | [] => [] end.

(** [rest] is the text from [index] on. *)
Definition has_decimal_float_syntax (value : list byte) : bool :=
  let rest := skip_sign value in
  let '(digits, rest) := split_digits rest in
  let '(fraction, rest) :=
    match rest with
    | x2e :: more => split_digits more
    | _ => ([], rest)
    end in
  let has_digits := negb (bool_decide (digits = [])) || negb (bool_decide (fraction = [])) in
  if negb has_digits then false
  else
    match rest with
    | b :: more =>
        if Byte.eqb b x65 || Byte.eqb b x45 then
          let '(exponent, rest) := split_digits (skip_sign more) in
          if bool_decide (exponent = []) then false else bool_decide (rest = [])
        else false
    | [] => true
    end.

(** ** Formatting finite numbers *)

(** An [int] computation: overflow is undefined. *)
Definition int_value (value : Z) : result Z :=
  assert_that ((int_min <=? value) && (value <=? int_max))%Z "int overflow";; Ok value.

(** The text before the exponent letter, and the text after it if there is one. *)
Fixpoint split_exponent (l : list byte) : list byte * option (list byte) :=
  match l with
  | [] => ([], None)
  | b :: rest =>
      if Byte.eqb b x65 || Byte.eqb b x45 then ([], Some rest)
      else let '(m, e) := split_exponent rest in (b :: m, e)
  end.

Definition parsed_exponent (suffix : option (list byte)) : result Z :=
  match suffix with
  | None => Ok 0%Z
  | Some text =>
      let text := match text with x2b :: rest => rest | _ => text end in
      match from_chars int_min int_max text with
      | Some (exponent, []) => Ok exponent
      | _ => contract_panic "floating string exponent conversion failed"
      end
  end.

(** The digits of the mantissa go to a buffer of 32; [point] is the position of the point,
    counted from the start of the mantissa. *)
Fixpoint scan_mantissa (l : list byte) (index : N) (digits : list byte) (point : N) : result (list byte * N) :=
  match l with
  | [] => Ok (digits, point)
  | b :: rest =>
      if Byte.eqb b x2e then scan_mantissa rest (index + 1) digits index
      else
        assert_that (length_N digits <? 32) "digit buffer";;
        scan_mantissa rest (index + 1) (digits ++ [b]) point
  end.

(** [while (first_digit + 1U < digit_count && digits[first_digit] == '0')]; read from the
    other end it is the loop that drops trailing zeros. *)
Fixpoint strip_zeros (l : list byte) : list byte :=
  match l with
  | b :: rest => if negb (bool_decide (rest = [])) && Byte.eqb b x30 then strip_zeros rest else l
  | [] => []
  end.

Definition zero_digits (n : Z) : list byte := replicate (Z.to_nat n) x30.

(** The bytes of [formatted_float], given what [std::to_chars] wrote for the value. *)
Definition format_finite_float (raw : list byte) : result (list byte) :=
  let negative := bool_decide (raw !! 0%nat = Some x2d) in
  let body := if negative then tail raw else raw in
  let '(mantissa, suffix) := split_exponent body in
  exponent ← parsed_exponent suffix;
  '(digits, point) ← scan_mantissa mantissa 0 [] (length_N mantissa);
  decimal_position ← int_value (Z.of_N point + exponent);
  let stripped := strip_zeros digits in
  decimal_position ← int_value (decimal_position - Z.of_nat (length digits - length stripped));
  let significant := rev (strip_zeros (rev stripped)) in
  let significant_count := Z.of_nat (length significant) in
  let sign_size := (if negative then 1 else 0)%Z in
  fixed_size ← (if (decimal_position <=? 0)%Z then
                  zeros ← int_value (- decimal_position); Ok (sign_size + (2 + zeros + significant_count))%Z
                else if (significant_count <=? decimal_position)%Z then Ok (sign_size + decimal_position)%Z
                else Ok (sign_size + (significant_count + 1))%Z);
  scientific_exponent ← int_value (decimal_position - 1);
  match to_chars 16 scientific_exponent with
  | None => contract_panic "floating string exponent formatting failed"
  | Some exponent_bytes =>
      let exponent_size := Z.of_nat (length exponent_bytes) in
      let scientific_size :=
        (sign_size + significant_count + (if (1 <? significant_count)%Z then 1 else 0) + 1 + exponent_size)%Z in
      let sign := if negative then [x2d] else [] in
      let text :=
        if (scientific_size <? fixed_size)%Z then
          sign ++ [default x00 (head significant)] ++
          (if (1 <? significant_count)%Z then x2e :: tail significant else []) ++ x65 :: exponent_bytes
        else if (decimal_position <=? 0)%Z then
          sign ++ [x30; x2e] ++ zero_digits (- decimal_position) ++ significant
        else if (significant_count <=? decimal_position)%Z then
          sign ++ significant ++ zero_digits (decimal_position - significant_count)
        else
          let integral_count := Z.to_nat decimal_position in
          sign ++ take integral_count significant ++ x2e :: drop integral_count significant in
      assert_that (length_N text <=? 768) "formatted float buffer";;
      Ok text
  end.

(** ** Floating-point values

    The C++ library's view of a [double]: its classification, the text [std::to_chars] writes
    in general format, and [strtod] in the C locale with the number of bytes it reads. *)
Class FloatLibrary := {
  float : Type;
  isnan : float → bool;
  isinf : float → bool;
  signbit : float → bool;
  general_chars : float → list byte;
  strtod : list byte → float * nat;
}.

Section floats.
Context `{FloatLibrary}.

Definition isfinite (value : float) : bool := negb (isnan value) && negb (isinf value).

(** The text of [neri_rt_v1_string_from_float]. *)
Definition float_string (value : float) : result (list byte) :=
  if isnan value then Ok (list_byte_of_string "nan")
  else if isinf value then Ok (list_byte_of_string (if signbit value then "-inf" else "inf"))
  else format_finite_float (general_chars value).

(** The conversion of [neri_rt_v1_host_parse_float]. *)
Definition parse_float_text (text : list byte) : option float :=
  if negb (has_decimal_float_syntax text) then None
  else
    let '(parsed, converted) := strtod text in
    if bool_decide (converted = length text) && isfinite parsed then Some parsed else None.
End floats.
