(* ===== verification/TextSpec.v ===== *)
(** * What the text routines decide and write

    [is_strict_utf8] accepts exactly well-formed UTF-8; decimal integers are read back as
    they were written; [has_decimal_float_syntax] decides a grammar; and a formatted number
    denotes the number it was made from.

    Formatted numbers denote what they were made from

    [format_finite_float] rewrites the text [std::to_chars] gives for a number: the same
    digits without superfluous zeros, in fixed or in scientific notation, whichever is
    shorter. *)

From S2P Require Import Prelude Reader Utf8 Storage Heap Text.

Local Open Scope string_scope.
Local Open Scope list_scope.
Local Open Scope N_scope.

#[local] Ltac Zify.zify_post_hook ::= Z.to_euclidean_division_equations.

(** ** UTF-8 *)

Lemma between_spec low high v : between low high v = true ↔ low ≤ v ≤ high.
Proof. unfold between. rewrite andb_true_iff, !N.leb_le. done. Qed.

Lemma is_continuation_byte b : is_continuation (Byte.to_N b) = between 0x80 0xbf (Byte.to_N b).
Proof. by destruct b. Qed.

(** The length of the scalar a text starts with. *)
Definition scalar_prefix (l : list byte) : option N :=
  match Byte.to_N <$> l with
  | [] => None
  | first :: rest =>
      if first <=? 0x7f then Some 1
      else if between 0xc2 0xdf first then
        match rest with
        | second :: _ => if between 0x80 0xbf second then Some 2 else None
        | _ => None
        end
      else if between 0xe0 0xef first then
        match rest with
        | second :: third :: _ =>
            if between (if first =? 0xe0 then 0xa0 else 0x80) (if first =? 0xed then 0x9f else 0xbf) second &&
               between 0x80 0xbf third then Some 3 else None
        | _ => None
        end
      else if between 0xf0 0xf4 first then
        match rest with
        | second :: third :: fourth :: _ =>
            if between (if first =? 0xf0 then 0x90 else 0x80) (if first =? 0xf4 then 0x8f else 0xbf) second &&
               between 0x80 0xbf third && between 0x80 0xbf fourth then Some 4 else None
        | _ => None
        end
      else None
  end.

Lemma span_at_drop pre l i : span_at (pre ++ l) (length_N pre + i) = span_at l i.
Proof.
  unfold span_at, length_N. rewrite lookup_app_r by lia.
  by replace (N.to_nat (N.of_nat (length pre) + i) - length pre)%nat with (N.to_nat i) by lia.
Qed.

Lemma if_same {A} (b : bool) (x : A) : (if b then x else x) = x.
Proof. by destruct b. Qed.

(** Reads the bytes of a text that is known. *)
Local Ltac at_bytes :=
  repeat match goal with
  | |- context [span_at (?c :: ?l) 0] => change (span_at (c :: l) 0) with (Ok (Byte.to_N c))
  | |- context [span_at (?b :: ?c :: ?l) 1] => change (span_at (b :: c :: l) 1) with (Ok (Byte.to_N c))
  | |- context [span_at (?a :: ?b :: ?c :: ?l) 2] => change (span_at (a :: b :: c :: l) 2) with (Ok (Byte.to_N c))
  end; rewrite ?bind_Ok; cbn [fmap list_fmap].

(** One turn of the loop. *)
Lemma strict_utf8_step fuel pre b l :
  strict_utf8_from (S fuel) (pre ++ b :: l) (length_N pre) =
  match scalar_prefix (b :: l) with
  | Some k => strict_utf8_from fuel (pre ++ b :: l) (length_N pre + k)
  | None => Ok false
  end.
Proof.
  assert (∀ i, span_at (pre ++ b :: l) (length_N pre + 1 + i) = span_at l i) as Hat.
  { intros i. rewrite <-N.add_assoc, span_at_drop. unfold span_at. by replace (N.to_nat (1 + i)) with (S (N.to_nat i)) by lia. }
  pose proof (Hat 0) as H0. pose proof (Hat 1) as H1. pose proof (Hat 2) as H2.
  rewrite N.add_0_r in H0.
  cbn [strict_utf8_from]. rewrite span_at_lead, bind_Ok.
  assert (length_N pre <? length_N (pre ++ b :: l) = true) as ->
    by (rewrite N.ltb_lt; unfold length_N; rewrite length_app; simpl; lia). cbn [negb].
  unfold scalar_prefix. cbn [fmap list_fmap]. set (first := Byte.to_N b).
  rewrite !length_N_app. set (size := length_N pre + length_N (b :: l)).
  destruct (first <=? 0x7f); [done|].
  destruct (between 0xc2 0xdf first).
  { destruct l as [|c l]; [by rewrite (proj2 (N.eqb_eq _ _)) by (unfold size, length_N; simpl; lia)|].
    rewrite (proj2 (N.eqb_neq _ _)) by (unfold size, length_N; simpl; lia).
    rewrite H0. at_bytes. rewrite is_continuation_byte, <-N.add_assoc. by destruct (between _ _ _). }
  destruct (between 0xe0 0xef first).
  { destruct l as [|c [|d l]]; [by rewrite (proj2 (N.leb_le _ _)) by (unfold size, length_N; simpl; lia)..|].
    rewrite (proj2 (N.leb_gt _ _)) by (unfold size, length_N; simpl; lia).
    rewrite H0, H1. at_bytes. rewrite !is_continuation_byte, <-!N.add_assoc.
    destruct (N.eqb_spec first 0xe0) as [->|]; [|destruct (first =? 0xed)];
      by destruct (between _ _ (Byte.to_N c)), (between _ _ (Byte.to_N d)). }
  destruct (between 0xf0 0xf4 first); [|done].
  destruct l as [|c [|d [|e l]]]; [by rewrite (proj2 (N.leb_le _ _)) by (unfold size, length_N; simpl; lia)..|].
  rewrite (proj2 (N.leb_gt _ _)) by (unfold size, length_N; simpl; lia).
  rewrite H0, H1, H2. at_bytes. rewrite !is_continuation_byte, <-!N.add_assoc.
  destruct (N.eqb_spec first 0xf0) as [->|]; [|destruct (first =? 0xf4)];
    by destruct (between _ _ (Byte.to_N c)), (between _ _ (Byte.to_N d)), (between _ _ (Byte.to_N e)).
Qed.

Lemma byte_of_eq b n : n = Byte.to_N b → byte_of n = b.
Proof. intros ->. apply byte_of_to. Qed.

(** A text starts with a scalar exactly if it starts with the encoding of one. *)
Lemma scalar_prefix_sound l k :
  scalar_prefix l = Some k → ∃ s post, unicode_scalar s ∧ l = encode_scalar s ++ post ∧ k = length_N (encode_scalar s).
Proof.
  unfold scalar_prefix, unicode_scalar, encode_scalar. destruct l as [|b l]; [done|]. cbn [fmap list_fmap].
  pose proof (to_N_lt b). destruct (N.leb_spec (Byte.to_N b) 0x7f) as [Hb|Hb].
  { intros [= <-]. exists (Byte.to_N b), l. rewrite (proj2 (N.ltb_lt _ _)) by lia. rewrite byte_of_to. split_and!; [lia|done|done]. }
  destruct (between 0xc2 0xdf (Byte.to_N b)) eqn:H2.
  { apply between_spec in H2. destruct l as [|c l]; [done|]. cbn [fmap list_fmap].
    destruct (between _ _ (Byte.to_N c)) eqn:Hc; [|done]. apply between_spec in Hc. intros [= <-].
    exists ((Byte.to_N b - 0xc0) * 64 + (Byte.to_N c - 0x80)), l.
    rewrite (proj2 (N.ltb_ge _ _)) by lia. rewrite (proj2 (N.ltb_lt _ _)) by lia.
    rewrite (byte_of_eq b), (byte_of_eq c) by lia. split_and!; [lia|done|done]. }
  destruct (between 0xe0 0xef (Byte.to_N b)) eqn:H3.
  { apply between_spec in H3. destruct l as [|c [|d l]]; [done|done|]. cbn [fmap list_fmap].
    destruct (_ && _) eqn:Hc; [|done]. apply andb_true_iff in Hc as [Hc%between_spec Hd%between_spec]. intros [= <-].
    exists ((Byte.to_N b - 0xe0) * 4096 + (Byte.to_N c - 0x80) * 64 + (Byte.to_N d - 0x80)), l.
    assert (0x80 ≤ Byte.to_N c ≤ 0xbf ∧ (Byte.to_N b = 0xe0 → 0xa0 ≤ Byte.to_N c) ∧ (Byte.to_N b = 0xed → Byte.to_N c ≤ 0x9f))
      as (Hc2 & Hlow & Hhigh)
      by (destruct (N.eqb_spec (Byte.to_N b) 0xe0), (N.eqb_spec (Byte.to_N b) 0xed); lia).
    rewrite !(proj2 (N.ltb_ge _ _)) by lia. rewrite (proj2 (N.ltb_lt _ _)) by lia.
    rewrite (byte_of_eq b), (byte_of_eq c), (byte_of_eq d) by lia. split_and!; [lia|done|done]. }
  destruct (between 0xf0 0xf4 (Byte.to_N b)) eqn:H4; [|done].
  apply between_spec in H4. destruct l as [|c [|d [|e l]]]; [done..|]. cbn [fmap list_fmap].
  destruct (_ && _) eqn:Hc; [|done]. apply andb_true_iff in Hc as [[Hc%between_spec Hd%between_spec]%andb_true_iff He%between_spec].
  intros [= <-].
  exists ((Byte.to_N b - 0xf0) * 262144 + (Byte.to_N c - 0x80) * 4096 + (Byte.to_N d - 0x80) * 64 + (Byte.to_N e - 0x80)), l.
  assert (0x80 ≤ Byte.to_N c ≤ 0xbf ∧ (Byte.to_N b = 0xf0 → 0x90 ≤ Byte.to_N c) ∧ (Byte.to_N b = 0xf4 → Byte.to_N c ≤ 0x8f))
      as (Hc2 & Hlow & Hhigh)
      by (destruct (N.eqb_spec (Byte.to_N b) 0xf0), (N.eqb_spec (Byte.to_N b) 0xf4); lia).
  rewrite !(proj2 (N.ltb_ge _ _)) by lia.
  rewrite (byte_of_eq b), (byte_of_eq c), (byte_of_eq d), (byte_of_eq e) by lia.
  split_and!; [lia|done|done].
Qed.

Lemma scalar_prefix_complete s post :
  unicode_scalar s → scalar_prefix (encode_scalar s ++ post) = Some (length_N (encode_scalar s)).
Proof.
  unfold unicode_scalar. intros Hs. unfold encode_scalar.
  destruct (N.ltb_spec s 0x80); [|destruct (N.ltb_spec s 0x800); [|destruct (N.ltb_spec s 0x10000)]];
    unfold scalar_prefix; cbn [app fmap list_fmap]; rewrite !to_byte_of_small by lia.
  - by rewrite (proj2 (N.leb_le _ _)) by lia.
  - rewrite (proj2 (N.leb_gt _ _)) by lia. rewrite !(proj2 (between_spec _ _ _)) by lia. done.
  - rewrite (proj2 (N.leb_gt _ _)) by lia. assert (between 0xc2 0xdf (0xe0 + s / 4096) = false) as ->
      by (apply not_true_iff_false; rewrite between_spec; lia).
    rewrite (proj2 (between_spec 0xe0 0xef _)) by lia. rewrite (proj2 (between_spec 0x80 0xbf (0x80 + s mod 64))) by lia.
    rewrite andb_true_r. destruct (N.eqb_spec (0xe0 + s / 4096) 0xe0), (N.eqb_spec (0xe0 + s / 4096) 0xed);
      rewrite (proj2 (between_spec _ _ _)) by lia; done.
  - rewrite (proj2 (N.leb_gt _ _)) by lia. assert (between 0xc2 0xdf (0xf0 + s / 262144) = false) as ->
      by (apply not_true_iff_false; rewrite between_spec; lia).
    assert (between 0xe0 0xef (0xf0 + s / 262144) = false) as ->
      by (apply not_true_iff_false; rewrite between_spec; lia).
    rewrite (proj2 (between_spec 0xf0 0xf4 _)) by lia. rewrite (proj2 (between_spec 0x80 0xbf (0x80 + s mod 64))) by lia.
    rewrite (proj2 (between_spec 0x80 0xbf (0x80 + s / 64 mod 64))) by lia.
    rewrite !andb_true_r. destruct (N.eqb_spec (0xf0 + s / 262144) 0xf0), (N.eqb_spec (0xf0 + s / 262144) 0xf4);
      rewrite (proj2 (between_spec _ _ _)) by lia; done.
Qed.

Lemma well_formed_nil : well_formed_utf8 [].
Proof. by exists []. Qed.

Lemma well_formed_cons s l : unicode_scalar s → well_formed_utf8 l → well_formed_utf8 (encode_scalar s ++ l).
Proof. intros Hs (ss & Hss & ->). exists (s :: ss). split; [by constructor|done]. Qed.

Lemma well_formed_app l k : well_formed_utf8 l → well_formed_utf8 k → well_formed_utf8 (l ++ k).
Proof.
  intros (ss & Hss & ->) (tt & Htt & ->). exists (ss ++ tt). split; [by apply Forall_app|].
  unfold encode_scalars. by rewrite map_app, concat_app.
Qed.

Lemma scalar_prefix_unique s1 s2 p1 p2 :
  unicode_scalar s1 → unicode_scalar s2 → encode_scalar s1 ++ p1 = encode_scalar s2 ++ p2 → p1 = p2.
Proof.
  intros H1 H2 Heq. pose proof (scalar_prefix_complete s1 p1 H1) as E1. rewrite Heq in E1.
  rewrite (scalar_prefix_complete s2 p2 H2) in E1. injection E1 as E1.
  apply app_inj_1 in Heq as [_ ?]; [done|]. unfold length_N in E1. lia.
Qed.

Lemma strict_utf8_from_spec fuel pre l :
  (length l ≤ fuel)%nat →
  ∃ b, strict_utf8_from fuel (pre ++ l) (length_N pre) = Ok b ∧ (b = true ↔ well_formed_utf8 l).
Proof.
  revert pre l. induction fuel as [|fuel IH]; intros pre [|b l] Hf; try (simpl in Hf; lia).
  1,2: exists true; cbn [strict_utf8_from]; rewrite app_nil_r, N.ltb_irrefl; split; [done|];
    split; [intros _; apply well_formed_nil|done].
  rewrite strict_utf8_step. destruct (scalar_prefix (b :: l)) as [k|] eqn:Hk.
  - destruct (scalar_prefix_sound _ _ Hk) as (s & post & Hs & Hl & ->). rewrite Hl.
    rewrite (assoc_L (++)), <-length_N_app. destruct (IH (pre ++ encode_scalar s) post) as (r & -> & Hr).
    { apply (f_equal length) in Hl. rewrite length_app in Hl. pose proof (encode_scalar_length s). simpl in Hf, Hl. lia. }
    exists r. split; [done|]. rewrite Hr. split; [by apply well_formed_cons|].
    intros (ss & Hss & Heq). destruct ss as [|s' ss].
    { pose proof (encode_scalar_length s). apply (f_equal length) in Heq. rewrite length_app in Heq. simpl in Heq. lia. }
    apply Forall_cons in Hss as [Hs' Hss]. change (encode_scalars (s' :: ss)) with (encode_scalar s' ++ encode_scalars ss) in Heq.
    apply scalar_prefix_unique in Heq as ->; [|done..]. by exists ss.
  - exists false. split; [done|]. split; [done|]. intros (ss & Hss & Heq). destruct ss as [|s ss]; [done|].
    apply Forall_cons in Hss as [Hs Hss]. change (encode_scalars (s :: ss)) with (encode_scalar s ++ encode_scalars ss) in Heq.
    rewrite Heq, scalar_prefix_complete in Hk by done. done.
Qed.

Lemma is_strict_utf8_spec l : ∃ b, is_strict_utf8 l = Ok b ∧ (b = true ↔ well_formed_utf8 l).
Proof. apply (strict_utf8_from_spec _ []). done. Qed.

Lemma is_strict_utf8_true l : is_strict_utf8 l = Ok true ↔ well_formed_utf8 l.
Proof. destruct (is_strict_utf8_spec l) as (b & -> & <-). split; [by intros [= ->]|by intros ->]. Qed.

(** ** Decimal integers *)

Notation digit_text := (Forall (λ b, is_digit b = true)).

Lemma digits_value_app l k : digits_value (l ++ k) = digits_value l * 10 ^ length_N k + digits_value k.
Proof.
  unfold digits_value. rewrite foldl_app. set (n := foldl _ 0 l). clearbody n. revert n.
  induction k as [|b k IH] using rev_ind; intros n; [change (length_N []) with 0; rewrite N.pow_0_r; simpl; lia|].
  rewrite !foldl_app. simpl. rewrite IH, length_N_app. change (length_N [b]) with 1.
  rewrite N.pow_add_r. change (10 ^ 1) with 10. lia.
Qed.

Lemma digit_byte d : d < 10 → is_digit (digit d) = true ∧ Byte.to_N (digit d) - 48 = d.
Proof.
  intros Hd. unfold is_digit, digit. rewrite to_byte_of_small by lia. split; [apply between_spec|]; lia.
Qed.

(** The digits of a number that fuel suffices for. *)
Lemma decimal_digits_ok fuel n acc :
  n < 10 ^ N.of_nat fuel → fuel ≠ 0%nat →
  ∃ ds, decimal_digits fuel n acc = ds ++ acc ∧ ds ≠ [] ∧ Forall (λ b, is_digit b = true) ds ∧ digits_value ds = n ∧
    (length ds ≤ fuel)%nat.
Proof.
  revert n acc. induction fuel as [|fuel IH]; intros n acc Hn Hf; [done|]. cbn [decimal_digits].
  destruct (digit_byte (n mod 10)) as [Hd Hv]; [by apply N.mod_lt|].
  destruct (N.eqb_spec (n / 10) 0) as [Hz|Hz].
  - exists [digit (n mod 10)]. split_and!; [done|done|by constructor| |simpl; lia]. unfold digits_value. simpl. lia.
  - destruct (IH (n / 10) (digit (n mod 10) :: acc)) as (ds & -> & Hne & Hds & Hval & Hlen).
    { rewrite Nat2N.inj_succ, N.pow_succ_r' in Hn. lia. }
    { intros ->. simpl in Hn. lia. }
    exists (ds ++ [digit (n mod 10)]). split_and!.
    + by rewrite <-app_assoc.
    + by destruct ds.
    + apply Forall_app. split; [done|]. by constructor.
    + rewrite digits_value_app, Hval. change (length_N [_]) with 1. unfold digits_value. simpl. lia.
    + rewrite length_app. simpl. lia.
Qed.

Lemma split_digits_app ds rest :
  Forall (λ b, is_digit b = true) ds → (∀ b r, rest = b :: r → is_digit b = false) → split_digits (ds ++ rest) = (ds, rest).
Proof.
  intros Hds Hrest. induction Hds as [|b ds Hb _ IH]; simpl.
  - destruct rest as [|b r]; [done|]. simpl. by rewrite (Hrest b r).
  - by rewrite Hb, IH.
Qed.

Lemma split_digits_spec l ds rest :
  split_digits l = (ds, rest) →
  l = ds ++ rest ∧ Forall (λ b, is_digit b = true) ds ∧ (∀ b r, rest = b :: r → is_digit b = false).
Proof.
  revert ds rest. induction l as [|b l IH]; intros ds rest; simpl; [by intros [= <- <-]|].
  destruct (is_digit b) eqn:Hb.
  - destruct (split_digits l) as [d r]. intros [= <- <-]. destruct (IH d r eq_refl) as (-> & Hd & Hr). split_and!; [done|by constructor|done].
  - intros [= <- <-]. split_and!; [done|done|]. by intros b' r [= <- _].
Qed.

(** What [decimal_text] writes, for the machine integers. *)
Lemma decimal_text_ok z :
  (- 10 ^ 19 < z < 10 ^ 19)%Z →
  ∃ ds, ds ≠ [] ∧ Forall (λ b, is_digit b = true) ds ∧ (length ds ≤ 20)%nat ∧ digits_value ds = Z.abs_N z ∧
    decimal_text z = if (z <? 0)%Z then x2d :: ds else ds.
Proof.
  intros Hz. destruct (decimal_digits_ok 20 (Z.abs_N z) []) as (ds & Heq & Hne & Hds & Hv & Hlen); [|done|].
  { change (10 ^ N.of_nat 20) with 100000000000000000000. change (10 ^ 19)%Z with 10000000000000000000%Z in Hz. lia. }
  exists ds. split_and!; try done. unfold decimal_text. rewrite app_nil_r in Heq.
  destruct (Z.ltb_spec z 0); [replace (Z.to_N (- z)) with (Z.abs_N z) by lia|replace (Z.to_N z) with (Z.abs_N z) by lia];
    by rewrite Heq.
Qed.

Lemma digit_not_minus b : is_digit b = true → b ≠ x2d.
Proof. by intros Hb ->. Qed.

Definition minus (negative : bool) : list byte := if negative then [x2d] else [].

Lemma split_minus_digits negative ds :
  digit_text ds → split_minus (minus negative ++ ds) = (negative, ds).
Proof.
  intros Hds. destruct negative; [done|]. destruct ds as [|d ds]; [done|].
  apply Forall_cons in Hds as [Hd%digit_not_minus _]. by destruct d.
Qed.

Lemma split_minus_inv text negative body : split_minus text = (negative, body) → text = minus negative ++ body.
Proof. intros Hs. destruct text as [|[] ?]; by injection Hs as <- <-. Qed.

Definition signed (negative : bool) (n : N) : Z := if negative then (- Z.of_N n)%Z else Z.of_N n.

(** Reading an optional minus sign and digits. *)
Lemma from_chars_digits low high negative ds :
  digit_text ds → ds ≠ [] → (low ≤ signed negative (digits_value ds) ≤ high)%Z →
  from_chars low high (minus negative ++ ds) = Some (signed negative (digits_value ds), []).
Proof.
  intros Hds Hne Hz. unfold from_chars. rewrite split_minus_digits by done.
  rewrite <-(app_nil_r ds) at 1. rewrite split_digits_app by done. destruct ds as [|d ds]; [done|]. cbv zeta.
  unfold signed in *. destruct negative; by rewrite (proj2 (Z.leb_le low _)), (proj2 (Z.leb_le _ high)) by lia.
Qed.

Lemma from_chars_inv low high text z rest :
  from_chars low high text = Some (z, rest) →
  ∃ negative ds, text = minus negative ++ ds ++ rest ∧ ds ≠ [] ∧ digit_text ds ∧ z = signed negative (digits_value ds) ∧
    (low ≤ z ≤ high)%Z.
Proof.
  unfold from_chars. destruct (split_minus text) as [negative body] eqn:Hm. apply split_minus_inv in Hm as ->.
  destruct (split_digits body) as [ds r] eqn:Hs. destruct (split_digits_spec _ _ _ Hs) as (-> & Hds & _).
  destruct ds as [|d ds]; [done|]. cbv zeta. fold (signed negative (digits_value (d :: ds))).
  destruct (_ && _)%Z eqn:Hb; [|done]. intros [= <- <-]. apply andb_true_iff in Hb as [H1%Z.leb_le H2%Z.leb_le].
  by exists negative, (d :: ds).
Qed.

Lemma from_chars_decimal low high z :
  (- 10 ^ 19 < z < 10 ^ 19)%Z → (low ≤ z ≤ high)%Z → from_chars low high (decimal_text z) = Some (z, []).
Proof.
  intros Hz Hr. destruct (decimal_text_ok z Hz) as (ds & Hne & Hds & _ & Hv & Htext).
  assert (decimal_text z = minus (z <? 0)%Z ++ ds) as -> by (rewrite Htext; by destruct (z <? 0)%Z).
  assert (signed (z <? 0)%Z (digits_value ds) = z) as Hs by (unfold signed; rewrite Hv; destruct (Z.ltb_spec z 0); lia).
  rewrite from_chars_digits by (done || by rewrite Hs). by rewrite Hs.
Qed.

Lemma integer_text_ok z :
  (int64_min ≤ z ≤ int64_max)%Z → integer_text z = Ok (decimal_text z) ∧ parse_int_text (decimal_text z) = Some z.
Proof.
  intros Hz. unfold int64_min, int64_max in Hz.
  assert (- 10 ^ 19 < z < 10 ^ 19)%Z as Hz' by (change (10 ^ 19)%Z with 10000000000000000000%Z; lia). split.
  - unfold integer_text, to_chars. destruct (decimal_text_ok z Hz') as (ds & _ & _ & Hlen & _ & ->).
    rewrite (proj2 (N.leb_le _ _)); [done|]. unfold length_N. destruct (z <? 0)%Z; simpl; lia.
  - unfold parse_int_text. by rewrite from_chars_decimal.
Qed.

(** [parse_int] accepts an optional minus sign and digits whose value is an [Int]. *)
Lemma parse_int_text_iff text z :
  parse_int_text text = Some z ↔
  ∃ negative ds, text = minus negative ++ ds ∧ ds ≠ [] ∧ digit_text ds ∧
    z = signed negative (digits_value ds) ∧ (int64_min ≤ z ≤ int64_max)%Z.
Proof.
  unfold parse_int_text. split.
  - destruct (from_chars _ _ text) as [[z' [|]]|] eqn:Hf; try done. intros [= ->].
    destruct (from_chars_inv _ _ _ _ _ Hf) as (negative & ds & Ht & Hrest). rewrite app_nil_r in Ht. eauto.
  - intros (negative & ds & -> & Hne & Hds & -> & Hz). by rewrite from_chars_digits.
Qed.

(** ** The syntax of floating-point text *)

(** The number [significand * 10 ^ exponent]. *)
Record decimal := mk_decimal {
  dc_negative : bool;
  dc_significand : N;
  dc_exponent : Z;
}.

Inductive sign_text : list byte → bool → Prop :=
| sign_none : sign_text [] false
| sign_plus : sign_text [x2b] false
| sign_minus : sign_text [x2d] true.

Inductive fraction_text : list byte → list byte → Prop :=
| fraction_none : fraction_text [] []
| fraction_some ds : digit_text ds → fraction_text (x2e :: ds) ds.

Inductive exponent_text : list byte → Z → Prop :=
| exponent_none : exponent_text [] 0
| exponent_some letter s negative ds :
    letter = x65 ∨ letter = x45 → sign_text s negative → digit_text ds → ds ≠ [] →
    exponent_text (letter :: s ++ ds) (signed negative (digits_value ds)).

(** Decimal floating-point text, and the number it denotes. *)
Inductive float_text : list byte → decimal → Prop :=
| float_text_intro s negative ints f fraction x e :
    sign_text s negative → digit_text ints → fraction_text f fraction → ints ≠ [] ∨ fraction ≠ [] → exponent_text x e →
    float_text (s ++ ints ++ f ++ x)
      (mk_decimal negative (digits_value (ints ++ fraction)) (e - Z.of_nat (length fraction))).

(** Digits, the point, the exponent letters and the signs are different bytes. *)
Lemma digit_not b : is_digit b = true → b ≠ x2e ∧ b ≠ x65 ∧ b ≠ x45 ∧ b ≠ x2b ∧ b ≠ x2d.
Proof. intros Hb. split_and!; by intros ->. Qed.

Definition split_sign (l : list byte) : bool * list byte :=
  match l with x2b :: rest => (false, rest) | x2d :: rest => (true, rest) | _ => (false, l) end.

Lemma skip_sign_split l : skip_sign l = (split_sign l).2.
Proof. by destruct l as [|[] l]. Qed.

Lemma split_sign_text s negative l :
  sign_text s negative → (∀ b r, l = b :: r → b ≠ x2b ∧ b ≠ x2d) → split_sign (s ++ l) = (negative, l).
Proof.
  intros [] Hl; [|done|done]. destruct l as [|b r]; [done|]. destruct (Hl b r eq_refl) as [H1 H2].
  by destruct b.
Qed.

Lemma split_sign_inv l negative rest : split_sign l = (negative, rest) → ∃ s, sign_text s negative ∧ l = s ++ rest.
Proof.
  destruct l as [|b l]; [intros [= <- <-]; exists []; by split; [constructor|]|].
  destruct (decide (b = x2b)) as [->|H1]; [intros [= <- <-]; exists [x2b]; by split; [constructor|]|].
  destruct (decide (b = x2d)) as [->|H2]; [intros [= <- <-]; exists [x2d]; by split; [constructor|]|].
  assert (split_sign (b :: l) = (false, b :: l)) as -> by by destruct b. intros [= <- <-].
  exists []. by split; [constructor|].
Qed.

Lemma digit_text_head ds rest b r :
  digit_text ds → ds ≠ [] → ds ++ rest = b :: r → is_digit b = true.
Proof. intros Hds Hne Heq. destruct ds as [|d ds]; [done|]. injection Heq as -> _. by apply Forall_cons in Hds as [? _]. Qed.

Lemma exponent_head x e b r : exponent_text x e → x = b :: r → b = x65 ∨ b = x45.
Proof. intros [] Heq; [done|]. by injection Heq as -> _. Qed.

Lemma fraction_head f fraction x e b r :
  fraction_text f fraction → exponent_text x e → f ++ x = b :: r → b = x2e ∨ b = x65 ∨ b = x45.
Proof. intros [|ds Hds] Hx Heq; simpl in Heq; [right; by eapply exponent_head|]. injection Heq as -> _. by left. Qed.

Lemma exponent_letter b : Byte.eqb b x65 || Byte.eqb b x45 = true ↔ b = x65 ∨ b = x45.
Proof.
  rewrite orb_true_iff. split.
  - by intros [?%Byte.byte_dec_bl|?%Byte.byte_dec_bl]; [left|right].
  - by intros [->| ->]; [left|right].
Qed.

(** Reading such a text. *)
Definition split_fraction (l : list byte) : list byte * list byte :=
  match l with x2e :: more => split_digits more | _ => ([], l) end.

Definition read_exponent (l : list byte) : option Z :=
  match l with
  | [] => Some 0%Z
  | b :: more =>
      if Byte.eqb b x65 || Byte.eqb b x45 then
        let '(negative, more) := split_sign more in
        let '(ds, rest) := split_digits more in
        if bool_decide (ds = []) then None
        else if bool_decide (rest = []) then Some (signed negative (digits_value ds)) else None
      else None
  end.

Definition read_float (text : list byte) : option decimal :=
  let '(negative, rest) := split_sign text in
  let '(ints, rest) := split_digits rest in
  let '(fraction, rest) := split_fraction rest in
  if negb (negb (bool_decide (ints = [])) || negb (bool_decide (fraction = []))) then None
  else e ← read_exponent rest; Some (mk_decimal negative (digits_value (ints ++ fraction)) (e - Z.of_nat (length fraction))).

Lemma split_fraction_inv l fraction rest : split_fraction l = (fraction, rest) → ∃ f, fraction_text f fraction ∧ l = f ++ rest.
Proof.
  destruct l as [|b l]; [intros [= <- <-]; exists []; by split; [constructor|]|].
  destruct (decide (b = x2e)) as [->|Hne].
  - intros Hs. destruct (split_digits_spec _ _ _ Hs) as (-> & Hd & _). exists (x2e :: fraction). by split; [constructor|].
  - assert (split_fraction (b :: l) = ([], b :: l)) as -> by by destruct b. intros [= <- <-]. exists []. by split; [constructor|].
Qed.

Lemma read_exponent_iff l e : read_exponent l = Some e ↔ exponent_text l e.
Proof.
  split.
  - destruct l as [|b l]; [intros [= <-]; constructor|]. cbn [read_exponent].
    destruct (Byte.eqb b x65 || Byte.eqb b x45) eqn:Hb; [|done]. apply exponent_letter in Hb.
    destruct (split_sign l) as [negative more] eqn:Hs. apply split_sign_inv in Hs as (s & Hs & ->).
    destruct (split_digits more) as [ds rest] eqn:Hd. destruct (split_digits_spec _ _ _ Hd) as (-> & Hds & _).
    case_bool_decide as Hne; [done|]. case_bool_decide as Hr; [|done]. intros [= <-]. subst rest.
    rewrite app_nil_r. by constructor.
  - intros [|letter s negative ds Hl Hs Hds Hne]; [done|]. cbn [read_exponent]. apply exponent_letter in Hl as ->.
    rewrite (split_sign_text s negative); [|done|].
    2: { intros b r Heq. assert (is_digit b = true) as Hb by (apply (digit_text_head ds [] b r); by rewrite ?app_nil_r).
      apply digit_not in Hb. tauto. }
    rewrite <-(app_nil_r ds) at 1. rewrite (split_digits_app ds []), !bool_decide_false, bool_decide_true by done. done.
Qed.

Lemma read_float_iff text d : read_float text = Some d ↔ float_text text d.
Proof.
  unfold read_float. split.
  - destruct (split_sign text) as [negative rest] eqn:Hs. apply split_sign_inv in Hs as (s & Hs & ->).
    destruct (split_digits rest) as [ints rest2] eqn:H1. destruct (split_digits_spec _ _ _ H1) as (-> & Hints & _).
    destruct (split_fraction rest2) as [fraction x] eqn:H2. apply split_fraction_inv in H2 as (f & Hf & ->).
    destruct (negb _) eqn:Hd; [done|]. intros (e & He & [= <-])%bind_Some. apply read_exponent_iff in He.
    constructor; try done. apply negb_false_iff, orb_true_iff in Hd as [Hd|Hd];
      apply negb_true_iff, bool_decide_eq_false in Hd; tauto.
  - intros [s negative ints f fraction x e Hs Hints Hf Hsome Hx].
    assert (∀ b r, f ++ x = b :: r → b = x2e ∨ b = x65 ∨ b = x45) as Hhead by (intros b r; by eapply fraction_head).
    assert (∀ b r, f ++ x = b :: r → is_digit b = false) as Hnd by (intros b r [->|[->| ->]]%Hhead; done).
    rewrite (split_sign_text s negative); [|done|].
    2: { intros b r Heq. destruct ints as [|i ints]; [by apply Hhead in Heq as [->|[->| ->]]|].
      assert (is_digit b = true) as Hb by (by eapply digit_text_head). apply digit_not in Hb. tauto. }
    rewrite (split_digits_app ints (f ++ x)) by done.
    assert (∀ b r, x = b :: r → is_digit b = false) as Hxd by (intros b r [->| ->]%(exponent_head x e); done).
    assert (split_fraction (f ++ x) = (fraction, x)) as ->.
    { destruct Hf as [|ds Hds]; simpl; [|by apply split_digits_app]. destruct x as [|b x]; [done|].
      by destruct (exponent_head _ _ b x Hx eq_refl) as [->| ->]. }
    assert (negb (bool_decide (ints = [])) || negb (bool_decide (fraction = [])) = true) as ->.
    { apply orb_true_iff. destruct Hsome; [left|right]; by rewrite bool_decide_false. }
    cbn [negb]. apply read_exponent_iff in Hx as ->. done.
Qed.

Lemma has_decimal_float_syntax_read text : has_decimal_float_syntax text = bool_decide (is_Some (read_float text)).
Proof.
  unfold has_decimal_float_syntax, read_float. rewrite skip_sign_split. destruct (split_sign text) as [negative rest]. simpl.
  destruct (split_digits rest) as [ints rest2]. fold (split_fraction rest2). destruct (split_fraction rest2) as [fraction x].
  destruct (negb _); [done|]. unfold read_exponent. destruct x as [|b x]; [done|].
  destruct (Byte.eqb b x65 || Byte.eqb b x45); [|done]. rewrite skip_sign_split. destruct (split_sign x) as [negative' more]. simpl.
  destruct (split_digits more) as [ds r]. case_bool_decide; [done|]. by case_bool_decide.
Qed.

Lemma has_decimal_float_syntax_iff text : has_decimal_float_syntax text = true ↔ ∃ d, float_text text d.
Proof. rewrite has_decimal_float_syntax_read, bool_decide_eq_true. unfold is_Some. by setoid_rewrite read_float_iff. Qed.

Local Open Scope string_scope.
Local Open Scope list_scope.
Local Open Scope N_scope.

(** ** Numbers *)

(** Two decimals that denote the same number. *)
Definition same_number (a b : decimal) : Prop :=
  let e := Z.min (dc_exponent a) (dc_exponent b) in
  dc_negative a = dc_negative b ∧
  (Z.of_N (dc_significand a) * 10 ^ (dc_exponent a - e) = Z.of_N (dc_significand b) * 10 ^ (dc_exponent b - e))%Z.

(** A common significand [m] with [k1] and [k2] zeros after it. *)
Lemma same_number_zeros negative m e (k1 k2 : nat) :
  same_number (mk_decimal negative (m * 10 ^ N.of_nat k1) (e - Z.of_nat k1))
              (mk_decimal negative (m * 10 ^ N.of_nat k2) (e - Z.of_nat k2)).
Proof.
  split; [done|]. simpl. rewrite !N2Z.inj_mul, !N2Z.inj_pow, !nat_N_Z. change (Z.of_N 10) with 10%Z.
  rewrite <-!Z.mul_assoc, <-!Z.pow_add_r by lia. do 2 f_equal. lia.
Qed.

(** ** Zeros *)

Lemma strip_zeros_ok l :
  l ≠ [] → ∃ k, l = replicate k x30 ++ strip_zeros l ∧ strip_zeros l ≠ [].
Proof.
  induction l as [|b l IH]; [done|]. intros _. cbn [strip_zeros]. case_bool_decide as Hl; cbn [negb andb].
  - by exists 0%nat.
  - destruct (Byte.eqb b x30) eqn:Hb; [|by exists 0%nat]. apply Byte.byte_dec_bl in Hb as ->.
    destruct (IH Hl) as (k & Heq & Hne). exists (S k). simpl. by rewrite <-Heq.
Qed.

Lemma digits_value_zeros k : digits_value (replicate k x30) = 0.
Proof. unfold digits_value. induction k; [done|done]. Qed.

Lemma zeros_digits k : digit_text (replicate k x30).
Proof. by apply Forall_replicate. Qed.

(** The digits that count: [j] zeros before them, [k] zeros after them. *)
Lemma significant_digits ds :
  ds ≠ [] → digit_text ds →
  ∃ j k sig, sig = rev (strip_zeros (rev (strip_zeros ds))) ∧ sig ≠ [] ∧ digit_text sig ∧
    length (strip_zeros ds) = (length sig + k)%nat ∧ length ds = (j + length (strip_zeros ds))%nat ∧
    digits_value ds = digits_value sig * 10 ^ N.of_nat k.
Proof.
  intros Hne Hds. destruct (strip_zeros_ok ds Hne) as (j & Hj & Hne1). set (mid := strip_zeros ds) in *.
  assert (rev mid ≠ []) as Hrev by (by destruct mid; [|simpl; destruct (rev mid)]).
  destruct (strip_zeros_ok (rev mid) Hrev) as (k & Hk & Hne2). set (sig := rev (strip_zeros (rev mid))).
  assert (mid = sig ++ replicate k x30) as Hmid.
  { rewrite <-(rev_involutive mid), Hk, rev_app_distr. fold sig. f_equal. clear. induction k; [done|].
    simpl. rewrite IHk. by rewrite <-replicate_cons_app. }
  exists j, k, sig. split_and!.
  - done.
  - unfold sig. by destruct (strip_zeros (rev mid)) as [|x l]; [|simpl; destruct (rev l)].
  - rewrite Hj in Hds. apply Forall_app in Hds as [_ Hds]. rewrite Hmid in Hds. by apply Forall_app in Hds as [? _].
  - by rewrite Hmid, length_app, length_replicate.
  - by rewrite Hj at 1; rewrite length_app, length_replicate.
  - rewrite Hj, digits_value_app, digits_value_zeros, Hmid, digits_value_app, digits_value_zeros. unfold length_N.
    rewrite length_replicate. lia.
Qed.

(** ** The two notations *)

Definition scientific_notation (negative : bool) (sig : list byte) (position : Z) : list byte :=
  minus negative ++ take 1 sig ++ (if decide (1 < length sig)%nat then x2e :: drop 1 sig else []) ++
  x65 :: decimal_text (position - 1).

Definition fixed_notation (negative : bool) (sig : list byte) (position : Z) : list byte :=
  minus negative ++
  (if decide (position ≤ 0)%Z then [x30; x2e] ++ zero_digits (- position) ++ sig
   else if decide (Z.of_nat (length sig) ≤ position)%Z then sig ++ zero_digits (position - Z.of_nat (length sig))
   else take (Z.to_nat position) sig ++ x2e :: drop (Z.to_nat position) sig).

Lemma minus_sign negative : sign_text (minus negative) negative.
Proof. destruct negative; constructor. Qed.

Lemma decimal_exponent z : (- 10 ^ 19 < z < 10 ^ 19)%Z → exponent_text (x65 :: decimal_text z) z.
Proof.
  intros Hz. destruct (decimal_text_ok z Hz) as (ds & Hne & Hds & _ & Hv & ->).
  assert (z = signed (z <? 0)%Z (digits_value ds)) as Hs by (rewrite Hv; unfold signed; destruct (Z.ltb_spec z 0); lia).
  rewrite Hs at 2. assert ((if (z <? 0)%Z then x2d :: ds else ds) = minus (z <? 0)%Z ++ ds) as -> by by destruct (z <? 0)%Z.
  apply exponent_some; [by left|apply minus_sign|done|done].
Qed.

Lemma scientific_value negative sig position :
  sig ≠ [] → digit_text sig → (- 10 ^ 18 < position < 10 ^ 18)%Z →
  float_text (scientific_notation negative sig position)
    (mk_decimal negative (digits_value sig) (position - Z.of_nat (length sig))).
Proof.
  intros Hne Hsig Hpos. destruct sig as [|d sig]; [done|]. unfold scientific_notation.
  change (take 1 (d :: sig)) with [d]. change (drop 1 (d :: sig)) with sig.
  assert (∃ f, fraction_text f sig ∧ (if decide (1 < length (d :: sig))%nat then x2e :: sig else []) = f) as (f & Hf & ->).
  { eexists. split; [|done]. case_decide as Hl; [|destruct sig; [constructor|simpl in Hl; lia]].
    constructor. by apply Forall_cons in Hsig as [_ ?]. }
  replace (position - Z.of_nat (length (d :: sig)))%Z with (position - 1 - Z.of_nat (length sig))%Z by (simpl; lia).
  apply (float_text_intro (minus negative) negative [d] f sig); [apply minus_sign| |done|by left|apply decimal_exponent; lia].
  apply Forall_cons in Hsig as [? _]. by constructor.
Qed.

Lemma fixed_value negative sig position :
  sig ≠ [] → digit_text sig →
  ∃ d, float_text (fixed_notation negative sig position) d ∧
    same_number (mk_decimal negative (digits_value sig) (position - Z.of_nat (length sig))) d.
Proof.
  intros Hne Hsig. unfold fixed_notation, zero_digits.
  assert (∀ ints f fraction, digit_text ints → fraction_text f fraction → ints ≠ [] →
    float_text (minus negative ++ ints ++ f) (mk_decimal negative (digits_value (ints ++ fraction)) (- Z.of_nat (length fraction)))) as Hmk.
  { intros ints f fraction Hi Hf Hn. rewrite <-(app_nil_r f).
    replace (- Z.of_nat (length fraction))%Z with (0 - Z.of_nat (length fraction))%Z by lia.
    apply float_text_intro; [apply minus_sign|done|done|by left|constructor]. }
  assert (∀ p q n e e', p = q * 10 ^ N.of_nat n → e' = (e - Z.of_nat n)%Z →
    same_number (mk_decimal negative q e) (mk_decimal negative p e')) as Hsame.
  { intros p q n e e' -> ->. pose proof (same_number_zeros negative q e 0 n) as Hz.
    rewrite N.mul_1_r, Z.sub_0_r in Hz. exact Hz. }
  case_decide as Hp; [|case_decide as Hq].
  - eexists. split.
    + apply (Hmk [x30] (x2e :: _) (replicate (Z.to_nat (- position)) x30 ++ sig)); [by constructor| |done].
      constructor. apply Forall_app. split; [apply zeros_digits|done].
    + apply (Hsame _ _ 0%nat).
      * rewrite digits_value_app, digits_value_app, digits_value_zeros. change (digits_value [x30]) with 0. simpl. lia.
      * rewrite length_app, length_replicate. lia.
  - eexists. split.
    + rewrite <-(app_nil_r (sig ++ _)). apply (Hmk (sig ++ _) [] []); [|constructor|by destruct sig].
      apply Forall_app. split; [done|apply zeros_digits].
    + apply (Hsame _ _ (Z.to_nat (position - Z.of_nat (length sig)))).
      * rewrite app_nil_r, digits_value_app, digits_value_zeros. unfold length_N. rewrite length_replicate. lia.
      * simpl. lia.
  - eexists. split.
    + apply (Hmk (take (Z.to_nat position) sig) (x2e :: _) (drop (Z.to_nat position) sig)).
      * by apply Forall_take.
      * constructor. by apply Forall_drop.
      * destruct sig as [|d sig]; [done|]. destruct (Z.to_nat position) eqn:E; [lia|done].
    + apply (Hsame _ _ 0%nat); [rewrite take_drop; simpl; lia|]. rewrite length_drop. lia.
Qed.

(** ** What [std::to_chars] writes *)

(** The text of a finite number in [std::chars_format::general]: a sign for negative
    numbers, digits, at most one fraction, and perhaps a signed exponent.  A [double] needs
    no more than 32 digits, and its exponents are below 400. *)
Inductive general_text : list byte → decimal → Prop :=
| general_fixed negative ints f fraction :
    digit_text ints → ints ≠ [] → fraction_text f fraction → (length (ints ++ fraction) ≤ 32)%nat →
    general_text (minus negative ++ ints ++ f)
      (mk_decimal negative (digits_value (ints ++ fraction)) (- Z.of_nat (length fraction)))
| general_scientific negative ints f fraction down ds :
    digit_text ints → ints ≠ [] → fraction_text f fraction → (length (ints ++ fraction) ≤ 32)%nat →
    digit_text ds → ds ≠ [] → digits_value ds < 400 →
    general_text (minus negative ++ ints ++ f ++ x65 :: (if down : bool then x2d else x2b) :: ds)
      (mk_decimal negative (digits_value (ints ++ fraction)) (signed down (digits_value ds) - Z.of_nat (length fraction))).

(** The parts [format_finite_float] takes a text apart into. *)
Lemma split_exponent_digits l x :
  Forall (λ b, is_digit b = true ∨ b = x2e) l → (∀ b r, x = b :: r → b = x65) →
  split_exponent (l ++ x) = (l, match x with [] => None | _ :: r => Some r end).
Proof.
  intros Hl Hx. induction Hl as [|b l Hb _ IH]; cbn [app split_exponent].
  - destruct x as [|b r]; [done|]. by rewrite (Hx b r eq_refl).
  - rewrite IH. assert (Byte.eqb b x65 || Byte.eqb b x45 = false) as ->; [|done].
    apply not_true_iff_false. rewrite exponent_letter. destruct Hb as [Hb| ->]; [apply digit_not in Hb; tauto|]. by intros [|].
Qed.

Lemma scan_digits l rest index digits point :
  digit_text l → (length (digits ++ l) ≤ 32)%nat →
  scan_mantissa (l ++ rest) index digits point = scan_mantissa rest (index + length_N l) (digits ++ l) point.
Proof.
  intros Hl. revert index digits. induction Hl as [|b l Hb _ IH]; intros index digits Hlen.
  - cbn [app]. change (length_N []) with 0. by rewrite N.add_0_r, app_nil_r.
  - cbn [app scan_mantissa]. rewrite length_app in Hlen. simpl in Hlen.
    assert (Byte.eqb b x2e = false) as ->.
    { apply not_true_iff_false. intros ->%Byte.byte_dec_bl. done. }
    assert (length_N digits <? 32 = true) as -> by (apply N.ltb_lt; unfold length_N; lia). rewrite assert_true, bind_Ok.
    rewrite IH by (rewrite !length_app; simpl; lia). rewrite <-app_assoc. f_equal. unfold length_N. simpl. lia.
Qed.

Lemma scan_mantissa_ok ints f fraction :
  digit_text ints → fraction_text f fraction → (length (ints ++ fraction) ≤ 32)%nat →
  scan_mantissa (ints ++ f) 0 [] (length_N (ints ++ f)) = Ok (ints ++ fraction, length_N ints).
Proof.
  intros Hi Hf Hlen. rewrite length_app in Hlen. rewrite scan_digits by (done || simpl; lia).
  destruct Hf as [|ds Hds]; cbn [scan_mantissa app]; [by rewrite !app_nil_r|].
  rewrite <-(app_nil_r ds) at 1. rewrite scan_digits by (done || rewrite length_app; lia). done.
Qed.

Lemma parsed_exponent_ok down ds :
  digit_text ds → ds ≠ [] → digits_value ds < 400 →
  parsed_exponent (Some ((if down : bool then x2d else x2b) :: ds)) = Ok (signed down (digits_value ds)).
Proof.
  intros Hds Hne Hv. unfold parsed_exponent.
  assert ((match (if down : bool then x2d else x2b) :: ds with x2b :: rest => rest | t => t end) = minus down ++ ds) as Heq
    by by destruct down.
  assert (from_chars int_min int_max (minus down ++ ds) = Some (signed down (digits_value ds), [])) as Hfc.
  { apply from_chars_digits; try done. unfold signed, int_min, int_max. destruct down; lia. }
  by destruct down; cbv zeta; cbn in Heq |- *; cbn in Hfc; rewrite Hfc.
Qed.

(** ** Sizes *)

Lemma decimal_digits_length fuel n acc m :
  n < 10 ^ N.of_nat (S m) → (length (decimal_digits fuel n acc) ≤ S m + length acc)%nat.
Proof.
  revert n acc m. induction fuel as [|fuel IH]; intros n acc m Hn; cbn [decimal_digits]; [lia|].
  destruct (N.eqb_spec (n / 10) 0) as [Hz|Hz]; [simpl; lia|]. destruct m as [|m].
  - change (10 ^ N.of_nat 1) with 10 in Hn. by rewrite N.div_small in Hz.
  - assert (n / 10 < 10 ^ N.of_nat (S m)) as Hlt.
    { rewrite (Nat2N.inj_succ (S m)), N.pow_succ_r' in Hn. by apply N.Div0.div_lt_upper_bound. }
    specialize (IH (n / 10) (digit (n mod 10) :: acc) m Hlt). simpl in IH. lia.
Qed.

Lemma decimal_text_length z : (-10000 < z < 10000)%Z → (length (decimal_text z) ≤ 5)%nat.
Proof.
  intros Hz. unfold decimal_text. destruct (Z.ltb_spec z 0); cbn [length].
  - pose proof (decimal_digits_length 20 (Z.to_N (- z)) [] 3) as Hl. change (10 ^ N.of_nat 4) with 10000 in Hl.
    change (length []) with 0%nat in Hl. lia.
  - pose proof (decimal_digits_length 20 (Z.to_N z) [] 3) as Hl. change (10 ^ N.of_nat 4) with 10000 in Hl.
    change (length []) with 0%nat in Hl. lia.
Qed.

Lemma length_minus negative : length (minus negative) = if negative then 1%nat else 0%nat.
Proof. by destruct negative. Qed.

(** The shorter notation, fixed if both are as long. *)
Definition shorter_notation (negative : bool) (sig : list byte) (position : Z) : list byte :=
  if decide (length (scientific_notation negative sig position) < length (fixed_notation negative sig position))%nat
  then scientific_notation negative sig position else fixed_notation negative sig position.

(** The end of [format_finite_float], once the significant digits are known. *)
Lemma int_value_ok z : (-10000 < z < 10000)%Z → int_value z = Ok z.
Proof.
  intros Hz. unfold int_value. rewrite (proj2 (andb_true_iff _ _)); [done|]. unfold int_min, int_max. lia.
Qed.

Lemma scientific_length negative sig position :
  sig ≠ [] →
  Z.of_nat (length (scientific_notation negative sig position)) =
  ((if negative then 1 else 0) + Z.of_nat (length sig) + (if (1 <? Z.of_nat (length sig))%Z then 1 else 0) + 1 +
   Z.of_nat (length (decimal_text (position - 1))))%Z.
Proof.
  intros Hne. unfold scientific_notation. rewrite !length_app, length_minus, length_take. cbn [length].
  destruct sig as [|d sig]; [done|]. cbn [length drop]. destruct (Z.ltb_spec 1 (Z.of_nat (S (length sig)))) as [Hl|Hl];
    [rewrite decide_True by lia|rewrite decide_False by lia]; destruct negative; cbn [length]; rewrite ?drop_0; lia.
Qed.

Lemma fixed_length negative sig position :
  Z.of_nat (length (fixed_notation negative sig position)) =
  ((if negative then 1 else 0) +
   (if (position <=? 0)%Z then 2 + - position + Z.of_nat (length sig)
    else if (Z.of_nat (length sig) <=? position)%Z then position else Z.of_nat (length sig) + 1))%Z.
Proof.
  unfold fixed_notation, zero_digits. rewrite length_app, length_minus.
  destruct (Z.leb_spec position 0); [rewrite decide_True by lia|rewrite decide_False by lia; destruct (Z.leb_spec (Z.of_nat (length sig)) position);
    [rewrite decide_True by lia|rewrite decide_False by lia]];
    rewrite ?length_app; cbn [length]; rewrite ?length_app, ?length_replicate, ?length_take, ?length_drop; destruct negative; lia.
Qed.

Lemma shorter_length negative sig position :
  sig ≠ [] → (length sig ≤ 32)%nat → (-9999 < position < 9999)%Z →
  (length (shorter_notation negative sig position) ≤ 768)%nat.
Proof.
  intros Hne Hlen Hp. unfold shorter_notation.
  pose proof (scientific_length negative sig position Hne) as Hs.
  pose proof (decimal_text_length (position - 1) ltac:(lia)) as Hd.
  assert (length (scientific_notation negative sig position) ≤ 768)%nat by (destruct negative, (1 <? _)%Z; lia).
  case_decide; lia.
Qed.

Lemma chosen_notation (negative : bool) sig position :
  sig ≠ [] →
  (if (Z.of_nat (length (scientific_notation negative sig position)) <? Z.of_nat (length (fixed_notation negative sig position)))%Z
   then minus negative ++ [default x00 (head sig)] ++
        (if (1 <? Z.of_nat (length sig))%Z then x2e :: tail sig else []) ++ x65 :: decimal_text (position - 1)
   else if (position <=? 0)%Z then minus negative ++ [x30; x2e] ++ zero_digits (- position) ++ sig
   else if (Z.of_nat (length sig) <=? position)%Z then minus negative ++ sig ++ zero_digits (position - Z.of_nat (length sig))
   else minus negative ++ take (Z.to_nat position) sig ++ x2e :: drop (Z.to_nat position) sig) =
  shorter_notation negative sig position.
Proof.
  intros Hne. unfold shorter_notation.
  destruct (Z.ltb_spec (Z.of_nat (length (scientific_notation negative sig position)))
    (Z.of_nat (length (fixed_notation negative sig position)))); [rewrite decide_True by lia|rewrite decide_False by lia].
  - unfold scientific_notation. destruct sig as [|d sig]; [done|]. cbn [take drop head tail default].
    f_equal. cbn [app]. f_equal. destruct (Z.ltb_spec 1 (Z.of_nat (length (d :: sig))));
      [by rewrite decide_True by lia|by rewrite decide_False by lia].
  - unfold fixed_notation. destruct (Z.leb_spec position 0); [by rewrite decide_True by lia|].
    rewrite decide_False by lia. destruct (Z.leb_spec (Z.of_nat (length sig)) position);
      [by rewrite decide_True by lia|by rewrite decide_False by lia].
Qed.

Lemma format_parts negative ints f fraction x e :
  digit_text ints → ints ≠ [] → fraction_text f fraction → (length (ints ++ fraction) ≤ 32)%nat → (-400 < e < 400)%Z →
  (∀ b r, x = b :: r → b = x65) → parsed_exponent (match x with [] => None | _ :: r => Some r end) = Ok e →
  ∃ sig k position, sig ≠ [] ∧ digit_text sig ∧ (length sig ≤ 32)%nat ∧ (-500 < position < 500)%Z ∧
    digits_value (ints ++ fraction) = digits_value sig * 10 ^ N.of_nat k ∧
    (e - Z.of_nat (length fraction) = position - Z.of_nat (length sig) - Z.of_nat k)%Z ∧
    format_finite_float (minus negative ++ ints ++ f ++ x) = Ok (shorter_notation negative sig position).
Proof.
  intros Hi Hne Hf Hlen He Hx Hexp.
  assert (digit_text (ints ++ fraction)) as Hds by (apply Forall_app; split; [done|by destruct Hf]).
  assert (ints ++ fraction ≠ []) as Hne' by by destruct ints.
  destruct (significant_digits _ Hne' Hds) as (j & k & sig & Hsig & Hsne & Hsd & Hl1 & Hl2 & Hv).
  set (position := (Z.of_nat (length ints) + e - Z.of_nat j)%Z).
  pose proof Hlen as Hlen'. rewrite length_app in Hlen', Hl2.
  assert (0 < length ints)%nat as Hpos by (destruct ints; [done|simpl; lia]).
  exists sig, k, position. split_and!; [done|done|lia|unfold position; lia|unfold position; lia|done|unfold position; lia|].
  unfold format_finite_float.
  assert (bool_decide ((minus negative ++ ints ++ f ++ x) !! 0%nat = Some x2d) = negative) as ->.
  { destruct negative; [done|]. apply bool_decide_false. destruct ints as [|i ints]; [done|]. simpl. intros [= ->].
    by apply Forall_cons in Hi as [? _]. }
  assert ((if negative then tail (minus negative ++ ints ++ f ++ x) else minus negative ++ ints ++ f ++ x) = ints ++ f ++ x) as ->
    by by destruct negative.
  rewrite (assoc_L (++) ints), split_exponent_digits; [|..].
  2: { apply Forall_app. split; [by eapply Forall_impl; [exact Hi|]; left|]. destruct Hf as [|ds Hd]; [done|].
    constructor; [by right|]. eapply Forall_impl; [exact Hd|]. by left. }
  2: done.
  rewrite Hexp, bind_Ok, (scan_mantissa_ok ints f fraction), bind_Ok by done. rewrite int_value_ok, bind_Ok by (unfold length_N; lia).
  cbv zeta. set (dp := (Z.of_N (length_N ints) + e - Z.of_nat _)%Z).
  assert (dp = position) as -> by (unfold dp, position, length_N; rewrite length_app; lia).
  rewrite int_value_ok, bind_Ok by (unfold position; lia). rewrite <-Hsig.
  set (count := Z.of_nat (length sig)).
  assert (∀ t z, int_value (- position) ≫= (λ zeros, Ok (t + (2 + zeros + z))%Z) = Ok (t + (2 + - position + z))%Z) as Hint
    by (intros; by rewrite int_value_ok by (unfold position; lia)). rewrite Hint. clear Hint.
  set (t := (if negative then 1 else 0)%Z).
  match goal with |- context [mbind _ ?m] => assert (m = Ok (Z.of_nat (length (fixed_notation negative sig position)))) as -> end.
  { rewrite fixed_length. fold count t. by destruct (position <=? 0)%Z, (count <=? position)%Z. }
  rewrite bind_Ok, int_value_ok, bind_Ok by (unfold position; lia).
  unfold to_chars. pose proof (decimal_text_length (position - 1) ltac:(unfold position; lia)) as Hdl.
  rewrite (proj2 (N.leb_le _ 16)) by (unfold length_N; lia).
  pose proof (scientific_length negative sig position Hsne) as Hsl. fold count t in Hsl. rewrite <-Hsl.
  match goal with |- context [assert_that (length_N ?text <=? 768)] => assert (text = shorter_notation negative sig position) as -> end.
  { by apply chosen_notation. }
  rewrite (proj2 (N.leb_le _ 768)), assert_true; [done|]. unfold length_N.
  pose proof (shorter_length negative sig position Hsne ltac:(lia) ltac:(unfold position; lia)). lia.
Qed.

(** Zeros moved from the significand to the exponent. *)
Lemma same_number_shift negative n (k : nat) e d :
  same_number (mk_decimal negative n e) d → same_number (mk_decimal negative (n * 10 ^ N.of_nat k) (e - Z.of_nat k)) d.
Proof.
  intros [Hs Hd]. split; [done|]. simpl in *. rewrite N2Z.inj_mul, N2Z.inj_pow, nat_N_Z. change (Z.of_N 10) with 10%Z.
  set (v := Z.of_N n) in *. set (v' := Z.of_N (dc_significand d)) in *. set (e' := dc_exponent d) in *.
  assert (∀ c, 0 ≤ c → v * 10 ^ (e - Z.min e e' + c) = v' * 10 ^ (e' - Z.min e e' + c))%Z as Hc
    by (intros c Hc; rewrite !Z.pow_add_r, !Z.mul_assoc, Hd by lia; done).
  rewrite <-Z.mul_assoc, <-Z.pow_add_r by lia.
  specialize (Hc (Z.min e e' - Z.min (e - Z.of_nat k) e')%Z ltac:(lia)).
  replace (Z.of_nat k + (e - Z.of_nat k - Z.min (e - Z.of_nat k) e'))%Z
    with (e - Z.min e e' + (Z.min e e' - Z.min (e - Z.of_nat k) e'))%Z by lia.
  rewrite Hc. f_equal. f_equal. lia.
Qed.

Lemma shorter_value negative n sig (k : nat) position e :
  sig ≠ [] → digit_text sig → (-500 < position < 500)%Z → n = digits_value sig * 10 ^ N.of_nat k →
  e = (position - Z.of_nat (length sig) - Z.of_nat k)%Z →
  ∃ d, float_text (shorter_notation negative sig position) d ∧ same_number (mk_decimal negative n e) d.
Proof.
  intros Hne Hsig Hp -> ->. unfold shorter_notation. case_decide.
  - eexists. split; [apply scientific_value; try done; lia|]. apply same_number_shift. by split.
  - destruct (fixed_value negative sig position Hne Hsig) as (d & Hd & Hsame). exists d. split; [done|].
    by apply same_number_shift.
Qed.

(** The formatted text: a shorter notation of the same digits, denoting the same number. *)
Lemma format_general raw d :
  general_text raw d →
  ∃ sig position d', format_finite_float raw = Ok (shorter_notation (dc_negative d) sig position) ∧
    (length (shorter_notation (dc_negative d) sig position) ≤ 768)%nat ∧
    float_text (shorter_notation (dc_negative d) sig position) d' ∧ same_number d d'.
Proof.
  intros [negative ints f fraction Hi Hne Hf Hlen|negative ints f fraction down ds Hi Hne Hf Hlen Hds Hdne Hv]; simpl.
  - destruct (format_parts negative ints f fraction [] 0) as (sig & k & position & Hs1 & Hs2 & Hs3 & Hp & Hval & He & Hr); try done.
    rewrite app_nil_r in Hr.
    destruct (shorter_value negative _ sig k position (- Z.of_nat (length fraction))%Z Hs1 Hs2 Hp Hval ltac:(lia)) as (d' & Hd & Hsame).
    exists sig, position, d'. split_and!; try done. apply shorter_length; [done|done|lia].
  - destruct (format_parts negative ints f fraction (x65 :: (if down : bool then x2d else x2b) :: ds) (signed down (digits_value ds)))
      as (sig & k & position & Hs1 & Hs2 & Hs3 & Hp & Hval & He & Hr); try done.
    { unfold signed. destruct down; lia. }
    { by intros b r [= <- _]. }
    { by apply parsed_exponent_ok. }
    destruct (shorter_value negative _ sig k position _ Hs1 Hs2 Hp Hval He) as (d' & Hd & Hsame).
    exists sig, position, d'. split_and!; try done. apply shorter_length; [done|done|lia].
Qed.

(** ** Reading numbers back *)

(** The documented behaviour of the C++ library: [std::to_chars] writes general text from
    which [strtod] recovers the value, and [strtod] reads a whole decimal text to a value
    that depends only on the number the text denotes. *)
Class LawfulFloats `{FloatLibrary} := {
  nearest : decimal → float;
  nearest_number : ∀ a b, same_number a b → nearest a = nearest b;
  strtod_reads : ∀ text d, float_text text d → strtod text = (nearest d, length text);
  chars_general : ∀ value, isfinite value = true →
    ∃ d, general_text (general_chars value) d ∧ nearest d = value;
}.

Lemma float_roundtrip `{LawfulFloats} value :
  isfinite value = true → ∃ text, float_string value = Ok text ∧ parse_float_text text = Some value.
Proof.
  intros Hfin. destruct (chars_general value Hfin) as (d & Hd & Hval).
  destruct (format_general _ _ Hd) as (sig & position & d' & Hr & _ & Ht & Hsame).
  eexists. split.
  - unfold float_string. apply andb_true_iff in Hfin as [Hn%negb_true_iff Hi%negb_true_iff]. rewrite Hn, Hi. exact Hr.
  - unfold parse_float_text. rewrite (proj2 (has_decimal_float_syntax_iff _)) by eauto. cbn [negb].
    rewrite (strtod_reads _ _ Ht), bool_decide_true by done. rewrite <-(nearest_number _ _ Hsame), Hval, Hfin. done.
Qed.

(** A library of small integers, to apply the theorem to. *)
Definition integer_part (d : decimal) : Z :=
  let part := (Z.of_N (dc_significand d) * 10 ^ Z.max 0 (dc_exponent d) / 10 ^ Z.max 0 (- dc_exponent d))%Z in
  if dc_negative d then (- part)%Z else part.

#[local] Instance integer_floats : FloatLibrary := {
  float := Z;
  isnan _ := false;
  isinf z := (1000 <=? Z.abs z)%Z;
  signbit z := (z <? 0)%Z;
  general_chars := decimal_text;
  strtod text := match read_float text with Some d => (integer_part d, length text) | None => (0%Z, 0%nat) end;
}.

Lemma integer_part_at m e t :
  (t ≤ e)%Z → (t ≤ 0)%Z → (m * 10 ^ Z.max 0 e / 10 ^ Z.max 0 (- e) = m * 10 ^ (e - t) / 10 ^ (- t))%Z.
Proof.
  intros H1 H2. destruct (decide (0 ≤ e)%Z) as [He|He].
  - rewrite Z.max_r, Z.max_l by lia. rewrite Z.pow_0_r, Z.div_1_r. replace (e - t)%Z with (e + - t)%Z by lia.
    rewrite Z.pow_add_r, Z.mul_assoc, Z.div_mul by lia. done.
  - rewrite Z.max_l, Z.max_r by lia. replace (- t)%Z with (- e + (e - t))%Z by lia.
    rewrite Z.pow_add_r, Z.pow_0_r, Z.mul_1_r, Z.div_mul_cancel_r by lia. done.
Qed.

Lemma same_number_part a b : same_number a b → integer_part a = integer_part b.
Proof.
  intros [Hs Hn]. unfold integer_part. rewrite Hs. set (ea := dc_exponent a) in *. set (eb := dc_exponent b) in *.
  set (t := Z.min 0 (Z.min ea eb)).
  rewrite (integer_part_at _ ea t), (integer_part_at _ eb t) by (unfold t; lia).
  replace (ea - t)%Z with (ea - Z.min ea eb + (Z.min ea eb - t))%Z by lia.
  replace (eb - t)%Z with (eb - Z.min ea eb + (Z.min ea eb - t))%Z by lia.
  rewrite !Z.pow_add_r, !Z.mul_assoc, Hn by (unfold t; lia). done.
Qed.

#[local] Instance integer_floats_lawful : LawfulFloats.
Proof.
  exists integer_part.
  - apply same_number_part.
  - intros text d Ht. simpl. by rewrite (proj2 (read_float_iff text d) Ht).
  - intros z Hz. unfold isfinite in Hz. simpl in Hz.
    assert (- 10 ^ 19 < z < 10 ^ 19)%Z as Hr by (apply negb_true_iff in Hz; change (10 ^ 19)%Z with 10000000000000000000%Z; lia).
    destruct (decimal_text_ok z Hr) as (ds & Hne & Hds & Hlen & Hv & Htext).
    exists (mk_decimal (z <? 0)%Z (digits_value (ds ++ [])) (- Z.of_nat (length ([] : list byte)))). split.
    + simpl. assert (decimal_text z = minus (z <? 0)%Z ++ ds ++ []) as -> by (rewrite Htext, app_nil_r; by destruct (z <? 0)%Z).
      apply general_fixed; [done|done|constructor|]. rewrite app_nil_r. lia.
    + unfold integer_part. simpl. rewrite app_nil_r, Hv, Z.mul_1_r, Z.div_1_r. destruct (Z.ltb_spec z 0); lia.
Qed.
