(* ===== verification/Marking.v ===== *)
(** * Marking reaches exactly the reachable objects

    The trace of a context's heap, from its roots through the reference slots of its
    own objects.  References into suspended ancestors and string literals end the
    trace.  The worklist holds each object once, so it drains within one step per
    object, and it fails only when the host does not let it grow. *)

From S2P Require Import Prelude Chains Storage Slabs Memory StorageSafety Sweep Heap.

Local Open Scope list_scope.
Local Open Scope N_scope.

Local Notation card := stdpp.base.size.

(** ** Computations that may run out of worklist *)

Section yields.
Context `{RuntimeHost}.

Definition worklist_refused {A} (m : result A) : Prop :=
  m = out_of_memory "GC mark worklist allocation failed" ∧ ∃ n, grow_worklist n = false.

(** [m] returns a value with [Q], or the host refused to grow the worklist. *)
Definition yields {A} (m : result A) (Q : A → Prop) : Prop := returns m Q ∨ worklist_refused m.

Lemma yields_Ok {A} (a : A) (Q : A → Prop) : Q a → yields (Ok a) Q.
Proof. left. by apply returns_Ok. Qed.

Lemma yields_weaken {A} (m : result A) (P Q : A → Prop) : yields m P → (∀ a, P a → Q a) → yields m Q.
Proof. intros [Hr|Hw] HPQ; [left; by eapply returns_weaken|by right]. Qed.

Lemma yields_bind {A B} (m : result A) (k : A → result B) P (Q : B → Prop) :
  yields m P → (∀ a, P a → yields (k a) Q) → yields (m ≫= k) Q.
Proof.
  intros [(a & -> & HP)|[-> Hn]] Hk; [by apply Hk|]. right. by split.
Qed.

Lemma yields_loop_split {A S} (I : list A → S → Prop) (l : list A) body s :
  (∀ done x rest s, l = done ++ x :: rest → I done s → yields (body x s) (I (done ++ [x]))) →
  I [] s → yields (for_state l s body) (I l).
Proof.
  intros Hstep HI.
  enough (∀ rest done s, l = done ++ rest → I done s → yields (for_state rest s body) (I l)) as Hr
    by by apply (Hr l []).
  clear HI s. induction rest as [|x rest IH]; intros done s Hl HI; simpl.
  - apply yields_Ok. by rewrite Hl, app_nil_r.
  - eapply yields_bind; [by eapply Hstep|]. intros s' HI'.
    apply (IH (done ++ [x])); [by rewrite Hl, <-app_assoc|done].
Qed.
End yields.

(** ** References *)

Section references.
Context `{Program}.

(** The slots of an object and the references in them. *)
Definition slots_of (o : N) (ob : object) : list N :=
  if ob_type ob =? 0 then []
  else from_option (λ type, if td_trace type =? 0 then [] else trace_callback (td_trace type) o ob) []
         (descriptor (ob_type ob)).

Definition slot_value (o : N) (ob : object) (slot : N) : N := read_word (ob_payload ob) (slot_offset_of o slot).

Definition refs_of (o : N) (ob : object) : list N := slot_value o ob <$> slots_of o ob.

Definition refs (m : memory) (o : N) : list N := from_option (refs_of o) [] (m_objects m !! o).

(** The object is at least as large as its descriptor says, and the trace callback finds
    the descriptor and stays inside the object. *)
Definition typed (ob : object) : Prop :=
  ob_type ob = 0 ∨ ∃ d, descriptor (ob_type ob) = Some d ∧ td_payload_size d ≤ length_N (ob_payload ob).

Definition traceable (o : N) (ob : object) : Prop :=
  typed ob ∧ ob_type ob ≠ string_literal_type ∧
  ∀ slot, slot ∈ slots_of o ob → in_payload o ob slot = true.

Definition literal (m : memory) (r : N) : Prop :=
  outside m r ∧ ∃ ob, m_objects m !! r = Some ob ∧ ob_type ob = string_literal_type ∧ ob_runtime_word ob = 0.

Definition live_in (m : memory) (h o : N) : Prop := ∃ bytes k, live_object m h o bytes k.

(** A reference a context whose chain of contexts is [hs] may hold. *)
Definition valid_ref (m : memory) (hs : list N) (r : N) : Prop :=
  r = 0 ∨ literal m r ∨ ∃ h, h ∈ hs ∧ live_in m h r.

(** Objects of [h] that can be reached from [roots] through objects of [h]. *)
Inductive reachable (m : memory) (h : N) (roots : list N) : N → Prop :=
| reach_root r : r ∈ roots → live_in m h r → reachable m h roots r
| reach_ref o r : reachable m h roots o → r ∈ refs m o → live_in m h r → reachable m h roots r.

Lemma reachable_live m h roots o : reachable m h roots o → live_in m h o.
Proof. by destruct 1. Qed.

Lemma reported_slots_ok m o ob :
  m_objects m !! o = Some ob → traceable o ob → reported_slots m o = Ok (slots_of o ob).
Proof.
  intros Ho (Hd & _). unfold reported_slots, slots_of, load_object. rewrite Ho. simpl.
  destruct (N.eqb_spec (ob_type ob) 0) as [|Hz]; [done|]. destruct Hd as [|(d & Hd & _)]; [done|]. by rewrite Hd.
Qed.

Lemma load_slot_ok m o ob slot :
  m_objects m !! o = Some ob → in_payload o ob slot = true → load_slot m o slot = Ok (slot_value o ob slot).
Proof. intros Ho Hin. unfold load_slot, load_object. rewrite Ho. simpl. by rewrite Hin. Qed.
End references.

(** ** Ancestors *)

Definition read_parent_of (states : gmap N runtime_state) (a : N) : option N := rs_read_parent <$> states !! a.

(** The suspended ancestors of a context whose [read_parent] is [parent], in order. *)
Record ancestry (states : gmap N runtime_state) (parent : N) (anc : list N) : Prop := {
  anc_chain : chain (read_parent_of states) parent anc;
  anc_nodup : NoDup anc;
  anc_suspended : ∀ a s, a ∈ anc → states !! a = Some s → rs_phase s = suspended;
}.

Lemma suspended_ancestor_run states parent anc fuel o :
  chain (read_parent_of states) parent anc →
  (∀ a s, a ∈ anc → states !! a = Some s → rs_phase s = suspended) → (length anc < fuel)%nat →
  suspended_ancestor fuel states parent o = Ok (bool_decide (o ∈ anc)).
Proof.
  revert fuel parent. induction anc as [|a anc IH]; intros [|fuel] parent Hch Hsus Hf; try (simpl in Hf; lia).
  - simpl in Hch. by subst.
  - destruct Hch as (-> & Ha & n & Hn & Hch). unfold read_parent_of in Hn. apply fmap_Some in Hn as (s & Hs & ->).
    simpl. rewrite (proj2 (N.eqb_neq _ _) Ha), Hs. simpl. unfold phase_is.
    rewrite (bool_decide_true (rs_phase s = suspended)) by (eapply Hsus; [|done]; set_solver).
    rewrite andb_true_r. case N.eqb_spec; intros Heq.
    + by rewrite bool_decide_true by set_solver.
    + rewrite (IH fuel _ Hch); [|set_solver|simpl in Hf; lia]. f_equal. apply bool_decide_ext. set_solver.
Qed.

Lemma suspended_ancestor_ok states parent anc o :
  ancestry states parent anc →
  suspended_ancestor (list_fuel states) states parent o = Ok (bool_decide (o ∈ anc)).
Proof.
  intros [Hch Hnd Hsus]. apply suspended_ancestor_run; try done. apply list_fuel_ok; [done|].
  intros a Ha. destruct (chain_mapped _ _ _ _ Hch Ha) as [p Hp]. unfold read_parent_of in Hp.
  by apply fmap_Some in Hp as (s & -> & _).
Qed.

(** ** The trace *)

(** What one or more marks add: the new objects, which are on the worklist. *)
Definition advanced (S : gset N) (items : list N) (S' : gset N) (items' : list N) : Prop :=
  ∃ new, items' = items ++ new ∧ S' = S ∪ list_to_set new ∧ ∀ x, x ∈ new → x ∉ S.

Lemma advanced_refl S items : advanced S items S items.
Proof. exists []. split_and!; [by rewrite app_nil_r|set_solver|set_solver]. Qed.

Lemma advanced_trans S1 i1 S2 i2 S3 i3 :
  advanced S1 i1 S2 i2 → advanced S2 i2 S3 i3 → advanced S1 i1 S3 i3.
Proof.
  intros (n1 & -> & -> & H1) (n2 & -> & -> & H2). exists (n1 ++ n2). rewrite app_assoc, list_to_set_app_L.
  split_and!; [done|set_solver|]. intros x. rewrite elem_of_app. set_solver.
Qed.

Section marking.
Context `{Program} `{RuntimeHost}.
Context (m0 : memory) (h : N) (states : gmap N runtime_state) (heap : runtime_state) (anc : list N).
Context (L : gset N) (roots : list N).
Context (Hm0 : memory_ok m0) (Hunmarked : ∀ h' o bytes k, live_object m0 h' o bytes k → k = false).
Context (HL : ∀ o, o ∈ L ↔ live_in m0 h o) (Hsize : N.of_nat (card L) * 16 ≤ u64_max).
Context (Hstate : states !! h = Some heap) (Hphase : rs_phase heap = collecting).
Context (Hanc : ancestry states (rs_read_parent heap) anc) (Hself : h ∉ anc).
Context (Hclosed : ∀ o, live_in m0 h o →
  ∃ ob, m_objects m0 !! o = Some ob ∧ traceable o ob ∧ ∀ r, r ∈ refs_of o ob → valid_ref m0 (h :: anc) r).

(** The marks of [m] are the set [S], and nothing else differs from [m0]. *)
Record marked_memory (S : gset N) (m : memory) : Prop := {
  mm_memory : memory_ok m;
  mm_objects : m_objects m = m_objects m0;
  mm_lists : same_lists m0 m;
  mm_live : ∀ h' o bytes k, live_object m h' o bytes k ↔ live_object m0 h' o bytes false ∧ k = bool_decide (o ∈ S);
}.

(** The state of the trace: [S] is marked, and the worklist is part of it. *)
Record tracing (S : gset N) (state : trace_state) : Prop := {
  tr_memory : marked_memory S state.1;
  tr_nodup : NoDup (ms_items state.2);
  tr_items : ∀ o, o ∈ ms_items state.2 → o ∈ S;
  tr_live : S ⊆ L;
  tr_reach : ∀ o, o ∈ S → reachable m0 h roots o;
  tr_count : length_N (ms_items state.2) ≤ ms_capacity state.2;
  tr_capacity : ms_capacity state.2 ≤ N.max 64 (2 * N.of_nat (card S));
}.

Lemma marked_start : marked_memory ∅ m0.
Proof.
  constructor; try done. intros h' o bytes k. rewrite bool_decide_false by set_solver. split.
  - intros Hl. pose proof (Hunmarked _ _ _ _ Hl) as ->. done.
  - by intros [Hl ->].
Qed.

Lemma tracing_start : tracing ∅ (m0, empty_stack).
Proof.
  constructor; simpl.
  - apply marked_start.
  - constructor.
  - intros o Ho. by apply elem_of_nil in Ho.
  - apply empty_subseteq.
  - intros o Ho. by apply elem_of_empty in Ho.
  - unfold length_N. simpl. lia.
  - lia.
Qed.

Lemma push_mark_ok S state o :
  tracing S state → o ∈ L → o ∉ S → reachable m0 h roots o →
  ∀ m', marked_memory (S ∪ {[o]}) m' →
  yields (push_mark state.2 o) (λ stack,
    tracing (S ∪ {[o]}) (m', stack) ∧ ms_items stack = ms_items state.2 ++ [o]).
Proof.
  intros [_ Hnd Hin Hlive Hreach Hcount Hcap] Ho Hn Hr m' Hm'.
  assert (card (S ∪ {[o]}) = card S + 1)%nat as Hsz.
  { rewrite size_union by set_solver. by rewrite size_singleton. }
  assert (o ∉ ms_items state.2) as Hni by (intros Hx; by apply Hn, Hin).
  assert (length_N (ms_items state.2) ≤ N.of_nat (card S)) as Hlen.
  { unfold length_N. rewrite <-(size_list_to_set (C := gset N)) by done.
    assert (card (list_to_set (C := gset N) (ms_items state.2)) ≤ card S)%nat; [|lia].
    apply subseteq_size. intros x. rewrite elem_of_list_to_set. apply Hin. }
  assert (card S + 1 ≤ card L)%nat as HSL.
  { rewrite <-Hsz. apply subseteq_size. set_solver. }
  assert (∀ capacity, length_N (ms_items state.2) + 1 ≤ capacity →
    capacity ≤ N.max 64 (2 * N.of_nat (card (S ∪ {[o]}))) →
    tracing (S ∪ {[o]}) (m', mk_stack (ms_items state.2 ++ [o]) capacity)) as Hpush.
  { intros capacity Hle Hmax. constructor; simpl; try done.
    - apply NoDup_app. split_and!; [done| |apply NoDup_singleton]. set_solver.
    - intros x. rewrite elem_of_app. set_solver.
    - set_solver.
    - intros x. rewrite elem_of_union, elem_of_singleton. intros [?| ->]; auto.
    - unfold length_N in *. rewrite length_app. simpl. lia. }
  unfold push_mark. case N.eqb_spec; intros Hfull.
  2: { apply yields_Ok. split; [|done]. apply Hpush; [lia|]. rewrite Hsz. lia. }
  assert (N.of_nat (card S) * 16 + 16 ≤ u64_max) as Hroom by lia. unfold u64_max in Hroom.
  case N.eqb_spec; intros Hz.
  { simpl. destruct (grow_worklist 64) eqn:Hg; simpl.
    - rewrite Hz. apply yields_Ok. split; [|done]. apply Hpush; [lia|lia].
    - rewrite Hz. right. split; [done|eauto]. }
  assert (u64 (ms_capacity state.2 * 2) = ms_capacity state.2 * 2) as ->.
  { unfold u64. apply N.mod_small. unfold u64_max. lia. }
  rewrite (proj2 (N.ltb_ge _ _)) by lia.
  rewrite (proj2 (N.ltb_ge (u64_max / 8) _)) by (change (u64_max / 8) with 2305843009213693951; lia).
  simpl. destruct (grow_worklist _) eqn:Hg; simpl.
  - apply yields_Ok. split; [|done]. apply Hpush; [lia|]. rewrite Hsz. lia.
  - right. split; [done|eauto].
Qed.

Lemma marked_memory_live S m o bytes k :
  marked_memory S m → live_object m0 h o bytes k → live_object m h o bytes (bool_decide (o ∈ S)).
Proof. intros Hm Hl. apply (mm_live _ _ Hm). split; [|done]. by pose proof (Hunmarked _ _ _ _ Hl) as ->. Qed.

(** One mark: an object of the context that is not marked yet is marked and pushed,
    and any other valid reference is left alone. *)
Lemma mark_object_ok S state r :
  tracing S state → valid_ref m0 (h :: anc) r → (r ∈ L → reachable m0 h roots r) →
  yields (mark_object states h r state) (λ state', ∃ S',
    tracing S' state' ∧ advanced S (ms_items state.2) S' (ms_items state'.2) ∧ (r ∈ L → r ∈ S')).
Proof.
  intros Htr Hvalid Hreach. destruct state as [m stack]. unfold mark_object.
  pose proof (tr_memory _ _ Htr) as Hmm. simpl in Hmm.
  assert (yields (Ok (m, stack)) (λ state', ∃ S',
    tracing S' state' ∧ advanced S (ms_items stack) S' (ms_items state'.2) ∧ (r ∈ L → r ∈ S')) ∨ r ∈ L) as Hstay.
  { destruct (decide (r ∈ L)); [by right|left]. apply yields_Ok. exists S. split; [done|].
    split; [apply advanced_refl|done]. }
  case N.eqb_spec; intros Hz.
  { destruct Hstay as [|Hr]; [done|]. subst r. apply HL in Hr as (bytes & k & Hl).
    by apply (live_nonnull _ Hm0) in Hl. }
  assert (is_string_literal m r = Ok true ∧ r ∉ L ∨ ∃ h', h' ∈ h :: anc ∧ live_in m0 h' r ∧
    ∃ b, is_string_literal m r = Ok b ∧ (h' = h → b = false)) as Hkind.
  { unfold is_string_literal, load_object. rewrite (proj2 (N.eqb_neq _ _) Hz), (mm_objects _ _ Hmm).
    destruct Hvalid as [|[(_ & ob & Hob & Hty & _)|(h' & Hh' & Hl)]]; [done|left|right].
    - rewrite Hob. simpl. rewrite Hty, N.eqb_refl. split; [done|]. rewrite HL. intros Hl.
      destruct (Hclosed r Hl) as (ob' & Hob' & (_ & Hn & _) & _). congruence.
    - exists h'. split; [done|]. split; [done|]. destruct Hl as (bytes & k & Hl).
      destruct (live_header _ Hm0 _ _ _ _ Hl) as (ob & Hob & _). rewrite Hob. simpl. eexists. split; [done|].
      intros ->. destruct (Hclosed r) as (ob' & Hob' & (_ & Hn & _) & _); [by exists bytes, k|].
      apply N.eqb_neq. congruence. }
  destruct Hkind as [[-> Hn]|(h' & Hh' & (bytes & k & Hl) & b & -> & Hb)]; [by destruct Hstay|]. rewrite bind_Ok.
  destruct (decide (h' = h)) as [->|Hne].
  - rewrite (Hb eq_refl). pose proof (marked_memory_live _ _ _ _ _ Hmm Hl) as Hl'.
    rewrite (owner_live _ (mm_memory _ _ Hmm) _ _ _ _ Hl'). simpl. rewrite N.eqb_refl. simpl.
    destruct (mark_live m h r bytes _ (mm_memory _ _ Hmm) Hl') as (m' & -> & Hm' & Hob & Hlists & Hlive). simpl.
    assert (r ∈ L) as HrL by (apply HL; by exists bytes, k).
    assert (marked_memory (S ∪ {[r]}) m') as Hmm'.
    { constructor; [done|by rewrite Hob, (mm_objects _ _ Hmm)| |].
      - pose proof (mm_lists _ _ Hmm) as [H1 H2]. destruct Hlists as [H3 H4]. split; intros; congruence.
      - intros h1 o1 bytes1 k1. rewrite Hlive. destruct (decide (o1 = r)) as [->|Ho1].
        + rewrite bool_decide_true by set_solver. split.
          * intros (-> & -> & ->). split; [|done]. by pose proof (Hunmarked _ _ _ _ Hl) as ->.
          * intros [Hl1 ->]. by destruct (live_unique _ Hm0 _ _ _ _ _ _ _ Hl1 Hl) as (-> & -> & _).
        + rewrite (mm_live _ _ Hmm). rewrite (bool_decide_ext (o1 ∈ S ∪ {[r]}) (o1 ∈ S)) by set_solver. done. }
    destruct (decide (r ∈ S)) as [Hin|Hout].
    + rewrite bool_decide_true by done. simpl. apply yields_Ok. exists S.
      assert (S ∪ {[r]} = S) as HS by set_solver. rewrite HS in Hmm'.
      split; [|split; [apply advanced_refl|done]]. destruct Htr. by constructor.
    + rewrite bool_decide_false by done. simpl.
      eapply yields_bind; [by apply (push_mark_ok S (m, stack) r Htr HrL Hout (Hreach HrL) m')|].
      intros stack' [Htr' Hitems]. apply yields_Ok. exists (S ∪ {[r]}). split; [done|].
      split; [|set_solver]. exists [r]. split_and!; [done|set_solver|set_solver].
  - destruct b; [destruct Hstay as [|HrL]; [done|]|].
    { apply HL in HrL as (bytes' & k' & Hl'). by destruct (live_unique _ Hm0 _ _ _ _ _ _ _ Hl Hl') as (? & _). }
    assert (live_object m h' r bytes (bool_decide (r ∈ S))) as Hl'.
    { apply (mm_live _ _ Hmm). split; [|done]. by pose proof (Hunmarked _ _ _ _ Hl) as ->. }
    rewrite (owner_live _ (mm_memory _ _ Hmm) _ _ _ _ Hl'), bind_Ok.
    rewrite (proj2 (N.eqb_neq _ _) Hne). cbn [negb]. rewrite Hstate, load_Some, bind_Ok.
    rewrite (suspended_ancestor_ok _ _ anc _ Hanc), bool_decide_true by set_solver. simpl.
    destruct Hstay as [|HrL]; [done|].
    apply HL in HrL as (bytes' & k' & Hl2). by destruct (live_unique _ Hm0 _ _ _ _ _ _ _ Hl Hl2) as (? & _).
Qed.

(** A list of valid references, marked in order. *)
Lemma mark_all_ok (A : Type) (l : list A) (value : A → N) body S state :
  (∀ x S' state', x ∈ l → tracing S' state' → body x state' = mark_object states h (value x) state') →
  (∀ x, x ∈ l → valid_ref m0 (h :: anc) (value x) ∧ (value x ∈ L → reachable m0 h roots (value x))) →
  tracing S state →
  yields (for_state l state body) (λ state', ∃ S',
    tracing S' state' ∧ advanced S (ms_items state.2) S' (ms_items state'.2) ∧
    ∀ x, x ∈ l → value x ∈ L → value x ∈ S').
Proof.
  intros Hbody Hvalid Htr.
  apply (yields_loop_split (λ done state', ∃ S',
    tracing S' state' ∧ advanced S (ms_items state.2) S' (ms_items state'.2) ∧
    ∀ x, x ∈ done → value x ∈ L → value x ∈ S')).
  - intros done x rest state1 Hl (S1 & Htr1 & Hadv1 & Hdone). destruct (Hvalid x) as [Hv Hr]; [set_solver|].
    rewrite (Hbody x S1 state1) by (done || set_solver).
    eapply yields_weaken; [by apply (mark_object_ok S1 state1 (value x))|].
    intros state2 (S2 & Htr2 & Hadv2 & Hx). exists S2. split; [done|].
    split; [by eapply advanced_trans|]. destruct Hadv2 as (new & _ & -> & _). set_solver.
  - exists S. split; [done|]. split; [apply advanced_refl|set_solver].
Qed.
(** ** Draining the worklist *)

(** Objects that left the worklist have had their references marked. *)
Definition scanned (S : gset N) (items : list N) : Prop :=
  ∀ o r, o ∈ S → o ∉ items → r ∈ refs m0 o → r ∈ L → r ∈ S.

Lemma pop_mark_cases stack :
  match pop_mark stack with
  | None => ms_items stack = []
  | Some (o, stack') => ms_items stack = ms_items stack' ++ [o] ∧ ms_capacity stack' = ms_capacity stack
  end.
Proof.
  unfold pop_mark. destruct (last (ms_items stack)) as [o|] eqn:Hlast; simpl; [|by apply last_None].
  split; [|done]. apply last_Some in Hlast as [l ->]. rewrite length_app. simpl.
  by rewrite Nat.add_sub, take_app_length.
Qed.

Lemma mark_slot_ok o ob S state slot :
  live_in m0 h o → m_objects m0 !! o = Some ob → traceable o ob → slot ∈ slots_of o ob → tracing S state →
  mark_slot states h o slot state = mark_object states h (slot_value o ob slot) state.
Proof.
  intros Ho Hob (_ & _ & Hin) Hslot Htr. unfold mark_slot. specialize (Hin slot Hslot).
  assert (slot ≠ 0) as Hz.
  { unfold in_payload, sizeof_header in Hin. apply andb_true_iff in Hin as [Hle%N.leb_le _]. lia. }
  rewrite (proj2 (N.eqb_neq _ _) Hz), Hstate, load_Some, bind_Ok. unfold phase_is.
  rewrite bool_decide_true by done. cbn [negb].
  rewrite (load_slot_ok state.1 o ob slot), bind_Ok; [done| |done].
  by rewrite (mm_objects _ _ (tr_memory _ _ Htr)).
Qed.

Lemma scan_object_ok S state o :
  tracing S state → o ∈ S →
  yields (slots ← reported_slots state.1 o; for_state slots state (mark_slot states h o)) (λ state', ∃ S',
    tracing S' state' ∧ advanced S (ms_items state.2) S' (ms_items state'.2) ∧
    ∀ r, r ∈ refs m0 o → r ∈ L → r ∈ S').
Proof.
  intros Htr Ho. assert (live_in m0 h o) as Hl by (apply HL; by apply (tr_live _ _ Htr)).
  destruct (Hclosed o Hl) as (ob & Hob & Htrace & Hvalid).
  rewrite (reported_slots_ok state.1 o ob), bind_Ok; [|by rewrite (mm_objects _ _ (tr_memory _ _ Htr))|done].
  eapply yields_weaken; [apply (mark_all_ok _ (slots_of o ob) (slot_value o ob) _ S state)|].
  - intros slot S' state' Hslot Htr'. by eapply mark_slot_ok.
  - intros slot Hslot. assert (slot_value o ob slot ∈ refs_of o ob) as Hin by (apply list_elem_of_fmap; eauto).
    split; [by apply Hvalid|]. intros HrL. eapply reach_ref; [by apply (tr_reach _ _ Htr)| |by apply HL].
    unfold refs. rewrite Hob. done.
  - done.
  - intros state' (S' & Htr' & Hadv & Hmarked). exists S'. split; [done|]. split; [done|].
    intros r Hr HrL. unfold refs in Hr. rewrite Hob in Hr. apply list_elem_of_fmap in Hr as (slot & -> & Hslot). auto.
Qed.

Lemma drain_ok fuel S state :
  tracing S state → scanned S (ms_items state.2) →
  (card L + length (ms_items state.2) < fuel + card S)%nat →
  yields (drain fuel states h state) (λ state', ∃ S',
    tracing S' state' ∧ ms_items state'.2 = [] ∧ S ⊆ S' ∧ scanned S' []).
Proof.
  revert S state. induction fuel as [|fuel IH]; intros S state Htr Hscan Hf.
  { assert (card S ≤ card L)%nat by apply subseteq_size, Htr. lia. }
  destruct state as [m stack]. cbn [drain]. pose proof (pop_mark_cases stack) as Hpop.
  change ((m, stack).2) with stack in *. change ((m, stack).1) with m in *.
  destruct (pop_mark stack) as [[o stack']|].
  2: { apply yields_Ok. exists S. rewrite Hpop in Hscan. by split_and!. }
  destruct Hpop as [Hitems Hcap].
  assert (o ∈ S) as HoS by (apply (tr_items _ _ Htr); simpl; rewrite Hitems; set_solver).
  assert (o ∉ ms_items stack' ∧ NoDup (ms_items stack')) as [Hoi Hnd].
  { pose proof (tr_nodup _ _ Htr) as Hnd. simpl in Hnd. rewrite Hitems in Hnd.
    apply NoDup_app in Hnd as (H1 & H2 & _). split; [|done]. intros Hin. by apply (H2 o Hin), list_elem_of_singleton. }
  assert (tracing S (m, stack')) as Htr'.
  { destruct Htr as [T1 T2 T3 T4 T5 T6 T7]. simpl in *. constructor; simpl; try done.
    - intros x Hx. apply T3. rewrite Hitems. set_solver.
    - rewrite Hcap. unfold length_N in *. rewrite Hitems, length_app in T6. lia.
    - by rewrite Hcap. }
  pose proof (scan_object_ok S (m, stack') o Htr' HoS) as Hscan_o. simpl in Hscan_o.
  destruct (Hclosed o) as (ob & Hob & Htrace & _); [by apply HL, (tr_live _ _ Htr)|].
  assert (reported_slots m o = Ok (slots_of o ob)) as Hrep.
  { apply reported_slots_ok; [|done]. pose proof (mm_objects _ _ (tr_memory _ _ Htr)) as Hobjs. simpl in Hobjs.
    by rewrite Hobjs. }
  rewrite Hrep in Hscan_o |- *. rewrite bind_Ok in Hscan_o |- *.
  eapply yields_bind; [exact Hscan_o|]. intros [m1 stack1] (S1 & Htr1 & (new & Hnew & HS1 & Hfresh) & Hrefs). simpl in *.
  eapply yields_weaken; [apply (IH S1 (m1, stack1) Htr1)|].
  - intros x r Hx Hni Hr HrL. simpl in Hni. rewrite Hnew in Hni.
    destruct (decide (x = o)) as [->|Hxo]; [by apply Hrefs|].
    assert (x ∈ S) as HxS by (rewrite HS1 in Hx; set_solver). rewrite HS1.
    apply elem_of_union_l. eapply (Hscan x r HxS); [|done..]. simpl. rewrite Hitems. set_solver.
  - simpl. rewrite Hnew, length_app. rewrite Hitems, length_app in Hf. simpl in Hf.
    assert (card S1 = card S + length new)%nat as ->.
    { rewrite HS1, size_union.
      - rewrite size_list_to_set; [done|]. pose proof (tr_nodup _ _ Htr1) as Hnd1. simpl in Hnd1.
        rewrite Hnew in Hnd1. by apply NoDup_app in Hnd1 as (_ & _ & ?).
      - intros x HxS. rewrite elem_of_list_to_set. intros Hx. by apply (Hfresh x). }
    lia.
  - intros state' (S' & Htr2 & Hnil & Hsub & Hsc). exists S'. split_and!; try done. set_solver.
Qed.

(** A drained trace has marked exactly what is reachable. *)
Lemma drained_exact S :
  (∀ o, o ∈ S → reachable m0 h roots o) → scanned S [] → (∀ r, r ∈ roots → r ∈ L → r ∈ S) →
  ∀ o, o ∈ S ↔ reachable m0 h roots o.
Proof.
  intros Hreach Hscan Hroots o. split; [apply Hreach|]. induction 1 as [r Hr Hl|o r Ho IH Hr Hl].
  - apply Hroots; [done|by apply HL].
  - eapply Hscan; [exact IH|apply not_elem_of_nil|done|by apply HL].
Qed.
End marking.
