(* ===== verification/Collector.v ===== *)
(** * Collection is exact

    [collect_impl] on a context whose roots and objects hold valid references keeps
    exactly the objects reachable from its roots, with their contents, and reclaims
    the others; the counters stay exact and no other context changes. *)

From S2P Require Import Prelude Chains Storage Slabs Memory StorageSafety Sweep.
From S2P Require Import Heap Marking.

Local Open Scope list_scope.
Local Open Scope N_scope.

Local Notation card := stdpp.base.size.

(** ** The roots of a context *)

Definition frame_previous (w : world) (a : N) : option N := fr_previous <$> w_frames w !! a.
Definition borrow_previous (w : world) (a : N) : option N := bw_previous <$> w_borrows w !! a.

(** A registered frame has its cookie, and its slots are readable. *)
Definition frame_ok (w : world) (a : N) : Prop :=
  ∃ f, w_frames w !! a = Some f ∧ fr_runtime_cookie f = root_frame_cookie ∧
    (fr_slot_count f ≠ 0 → fr_slots f ≠ 0) ∧
    ∀ i, i < fr_slot_count f → is_Some (w_words w !! (fr_slots f + 8 * i)).

Definition borrow_ok (w : world) (a : N) : Prop :=
  ∃ b, w_borrows w !! a = Some b ∧ bw_cookie b = borrow_cookie.

Definition persistent_ok (w : world) (slot : N) : Prop := slot ≠ 0 ∧ is_Some (w_words w !! slot).

Record chains_ok (w : world) (heap : runtime_state) (fl bl : list N) : Prop := {
  ch_frames : chain (frame_previous w) (rs_root_frame heap) fl;
  ch_frames_nodup : NoDup fl;
  ch_frame : ∀ a, a ∈ fl → frame_ok w a;
  ch_borrows : chain (borrow_previous w) (rs_borrow heap) bl;
  ch_borrows_nodup : NoDup bl;
  ch_borrow : ∀ a, a ∈ bl → borrow_ok w a;
  ch_persistent : ∀ slot, slot ∈ rs_persistent_roots heap → persistent_ok w slot;
}.

Definition word (w : world) (a : N) : N := default 0 (w_words w !! a).
Definition frame_slots (f : root_frame) : list N := (λ i, fr_slots f + 8 * i) <$> indices (fr_slot_count f).
Definition frame_roots (w : world) (a : N) : list N :=
  from_option (λ f, word w <$> frame_slots f) [] (w_frames w !! a).
Definition borrow_root (w : world) (a : N) : list N := from_option (λ b, [bw_owner b]) [] (w_borrows w !! a).

(** The references the roots hold. *)
Definition root_refs (w : world) (heap : runtime_state) (fl bl : list N) : list N :=
  (fl ≫= frame_roots w) ++ (word w <$> rs_persistent_roots heap) ++ (bl ≫= borrow_root w).

Section roots.
Context `{Program} `{RuntimeHost}.
Context (w : world) (h : N) (heap : runtime_state) (anc : list N) (L : gset N) (fl bl : list N).
Let m0 := w_memory w.
Let roots := root_refs w heap fl bl.
Context (Hm0 : memory_ok m0) (Hunmarked : ∀ h' o bytes k, live_object m0 h' o bytes k → k = false).
Context (HL : ∀ o, o ∈ L ↔ live_in m0 h o) (Hsize : N.of_nat (card L) * 16 ≤ u64_max).
Context (Hstate : w_states w !! h = Some heap) (Hphase : rs_phase heap = collecting).
Context (Hanc : ancestry (w_states w) (rs_read_parent heap) anc) (Hself : h ∉ anc).
Context (Hclosed : ∀ o, live_in m0 h o →
  ∃ ob, m_objects m0 !! o = Some ob ∧ traceable o ob ∧ ∀ r, r ∈ refs_of o ob → valid_ref m0 (h :: anc) r).
Context (Hch : chains_ok w heap fl bl) (Hroots : ∀ r, r ∈ roots → valid_ref m0 (h :: anc) r).

Local Notation trace_ok := (tracing m0 h L roots).

(** Roots reach what they refer to. *)
Lemma root_value r : r ∈ roots → valid_ref m0 (h :: anc) r ∧ (r ∈ L → reachable m0 h roots r).
Proof. intros Hr. split; [by apply Hroots|]. intros HrL. apply reach_root; [done|by apply HL]. Qed.

(** What the marking of a group of roots establishes. *)
Definition group_marked (S : gset N) (state : trace_state) (group : list N) (state' : trace_state) : Prop :=
  ∃ S', trace_ok S' state' ∧ advanced S (ms_items state.2) S' (ms_items state'.2) ∧
    ∀ r, r ∈ group → r ∈ L → r ∈ S'.

Lemma mark_group_ok (A : Type) (l : list A) (value : A → N) body S state :
  (∀ x S' state', x ∈ l → trace_ok S' state' → body x state' = mark_object (w_states w) h (value x) state') →
  (∀ x, x ∈ l → value x ∈ roots) → trace_ok S state →
  yields (for_state l state body) (group_marked S state (value <$> l)).
Proof.
  intros Hbody Hin Htr. eapply yields_weaken.
  - apply (mark_all_ok m0 h (w_states w) heap anc L roots Hm0 Hunmarked HL Hsize Hstate Hphase Hanc Hself Hclosed
             A l value body S state Hbody); [|done]. intros x Hx. by apply root_value, Hin.
  - intros state' (S' & Htr' & Hadv & Hx). exists S'. split_and!; try done.
    intros r (x & -> & Hxl)%list_elem_of_fmap. auto.
Qed.

Lemma group_trans S state g1 state1 g2 state2 :
  group_marked S state g1 state1 → (∀ S1, trace_ok S1 state1 → group_marked S1 state1 g2 state2) →
  group_marked S state (g1 ++ g2) state2.
Proof.
  intros (S1 & Htr1 & Hadv1 & H1) Hk. destruct (Hk S1 Htr1) as (S2 & Htr2 & Hadv2 & H2). exists S2.
  split; [done|]. split; [by eapply advanced_trans|]. destruct Hadv2 as (new & _ & -> & _).
  intros r. rewrite elem_of_app. intros [Hr|Hr] HrL; [|by apply H2]. apply elem_of_union_l. auto.
Qed.

Lemma yields_group (f : trace_state → result trace_state) S state g1 g2 m1 :
  yields m1 (group_marked S state g1) →
  (∀ S1 state1, trace_ok S1 state1 → yields (f state1) (group_marked S1 state1 g2)) →
  yields (m1 ≫= f) (group_marked S state (g1 ++ g2)).
Proof.
  intros H1 H2. eapply yields_bind; [exact H1|]. intros state1 Hg1.
  pose proof Hg1 as (S1 & Htr1 & _). destruct (H2 S1 state1 Htr1) as [(state2 & E & Hg2)|Hr]; [|by right].
  rewrite E. apply yields_Ok. eapply group_trans; [exact Hg1|]. intros S1' Htr1'.
  destruct (H2 S1' state1 Htr1') as [(state2' & E' & Hg2')|[Hr _]]; [|by rewrite E in Hr].
  rewrite E in E'. by injection E' as <-.
Qed.

Lemma mark_frames_ok l fuel frame S state :
  chain (frame_previous w) frame l → (length l < fuel)%nat →
  (∀ a, a ∈ l → frame_ok w a) → (∀ r, r ∈ l ≫= frame_roots w → r ∈ roots) → trace_ok S state →
  yields (mark_frames fuel w h frame state) (group_marked S state (l ≫= frame_roots w)).
Proof.
  revert fuel frame S state. induction l as [|a l IH]; intros [|fuel] frame S state Hc Hf Hok Hin Htr; try (simpl in Hf; lia).
  { simpl in Hc. subst frame. simpl. apply yields_Ok. exists S. split; [done|]. split; [apply advanced_refl|].
    intros r Hr. by apply elem_of_nil in Hr. }
  destruct Hc as (-> & Ha & n & Hn & Hc). destruct (Hok a) as (f & Hfr & Hcookie & Hslots & Hwords); [set_solver|].
  unfold frame_previous in Hn. rewrite Hfr in Hn. injection Hn as <-.
  cbn [mark_frames]. rewrite (proj2 (N.eqb_neq _ _) Ha), Hfr, load_Some, bind_Ok, Hcookie, N.eqb_refl.
  assert (negb (fr_slot_count f =? 0) && (fr_slots f =? 0) = false) as ->.
  { case N.eqb_spec; [done|]. intros Hc0. simpl. by apply N.eqb_neq, Hslots. }
  cbn [negb orb]. change ((a :: l) ≫= frame_roots w) with (frame_roots w a ++ (l ≫= frame_roots w)) in *.
  assert (frame_roots w a = (λ i, word w (fr_slots f + 8 * i)) <$> indices (fr_slot_count f)) as Hfra.
  { unfold frame_roots. rewrite Hfr. simpl. unfold frame_slots. by rewrite <-list_fmap_compose. }
  apply yields_group.
  - rewrite Hfra. apply mark_group_ok; [|intros i Hi; apply Hin; rewrite Hfra; set_solver|done].
    intros i S' state' Hi _. apply elem_of_indices in Hi. destruct (Hwords i Hi) as [v Hv].
    unfold word. rewrite Hv. by rewrite load_Some, bind_Ok.
  - intros S1 state1 Htr1. apply IH; try done; [simpl in Hf; lia|set_solver|set_solver].
Qed.

Lemma mark_persistent_ok slots S state :
  (∀ slot, slot ∈ slots → persistent_ok w slot) → (∀ r, r ∈ word w <$> slots → r ∈ roots) → trace_ok S state →
  yields (mark_persistent w h slots state) (group_marked S state (word w <$> slots)).
Proof.
  intros Hok Hin Htr. unfold mark_persistent. apply mark_group_ok; [|set_solver|done].
  intros slot S' state' Hs _. destruct (Hok slot Hs) as [Hz [v Hv]]. rewrite (proj2 (N.eqb_neq _ _) Hz).
  unfold word. rewrite Hv. by rewrite load_Some, bind_Ok.
Qed.

Lemma mark_borrows_ok l fuel borrow S state :
  chain (borrow_previous w) borrow l → (length l < fuel)%nat →
  (∀ a, a ∈ l → borrow_ok w a) → (∀ r, r ∈ l ≫= borrow_root w → r ∈ roots) → trace_ok S state →
  yields (mark_borrows fuel w h borrow state) (group_marked S state (l ≫= borrow_root w)).
Proof.
  revert fuel borrow S state. induction l as [|a l IH]; intros [|fuel] borrow S state Hc Hf Hok Hin Htr; try (simpl in Hf; lia).
  { simpl in Hc. subst borrow. simpl. apply yields_Ok. exists S. split; [done|]. split; [apply advanced_refl|].
    intros r Hr. by apply elem_of_nil in Hr. }
  destruct Hc as (-> & Ha & n & Hn & Hc). destruct (Hok a) as (b & Hb & Hcookie); [set_solver|].
  unfold borrow_previous in Hn. rewrite Hb in Hn. injection Hn as <-.
  cbn [mark_borrows]. rewrite (proj2 (N.eqb_neq _ _) Ha), Hb, load_Some, bind_Ok, Hcookie, N.eqb_refl.
  cbn [negb]. change ((a :: l) ≫= borrow_root w) with (borrow_root w a ++ (l ≫= borrow_root w)) in *.
  assert (borrow_root w a = [bw_owner b]) as Hra by (unfold borrow_root; by rewrite Hb).
  apply yields_group.
  - rewrite Hra. assert (yields (for_state [bw_owner b] state (mark_object (w_states w) h))
      (group_marked S state (id <$> [bw_owner b]))) as Hy.
    { apply mark_group_ok; [done| |done]. intros x ->%list_elem_of_singleton. apply Hin. rewrite Hra. set_solver. }
    simpl in Hy. destruct (mark_object (w_states w) h (bw_owner b) state); done.
  - intros S1 state1 Htr1. apply IH; try done; [simpl in Hf; lia|set_solver|set_solver].
Qed.

(** The whole trace marks exactly the reachable objects. *)
Lemma trace_roots_ok :
  yields (trace_roots w h heap) (λ state, ∃ S,
    marked_memory m0 S state.1 ∧ S ⊆ L ∧ ∀ o, o ∈ S ↔ reachable m0 h roots o).
Proof.
  destruct Hch as [Hfc Hfnd Hfok Hbc Hbnd Hbok Hpok].
  assert (length fl < list_fuel (w_frames w))%nat as Hff.
  { apply list_fuel_ok; [done|]. intros a Ha. destruct (Hfok a Ha) as (f & ? & _). by exists f. }
  assert (length bl < list_fuel (w_borrows w))%nat as Hbf.
  { apply list_fuel_ok; [done|]. intros a Ha. destruct (Hbok a Ha) as (b & ? & _). by exists b. }
  assert (trace_ok ∅ (m0, empty_stack)) as Hstart by by eapply tracing_start.
  assert (yields (mark_frames (list_fuel (w_frames w)) w h (rs_root_frame heap) (m0, empty_stack)
    ≫= λ state, mark_persistent w h (rs_persistent_roots heap) state
    ≫= mark_borrows (list_fuel (w_borrows w)) w h (rs_borrow heap)) (group_marked ∅ (m0, empty_stack) roots)) as Hall.
  { unfold roots, root_refs. apply yields_group.
    - apply mark_frames_ok; try done. unfold roots, root_refs. set_solver.
    - intros S1 state1 Htr1. apply yields_group.
      + apply mark_persistent_ok; try done. unfold roots, root_refs. set_solver.
      + intros S2 state2 Htr2. apply mark_borrows_ok; try done. unfold roots, root_refs. set_solver. }
  assert (trace_roots w h heap = (mark_frames (list_fuel (w_frames w)) w h (rs_root_frame heap) (m0, empty_stack)
    ≫= λ state, mark_persistent w h (rs_persistent_roots heap) state
    ≫= mark_borrows (list_fuel (w_borrows w)) w h (rs_borrow heap)) ≫=
    drain (list_fuel (m_objects m0)) (w_states w) h) as ->.
  { unfold trace_roots. destruct (mark_frames _ _ _ _ _) as [state|]; [|done]. rewrite !bind_Ok.
    by destruct (mark_persistent _ _ _ _). }
  eapply yields_bind; [exact Hall|]. intros [m stack] (S & Htr & (new & Hnew & HS & _) & Hmarked). simpl in Hnew.
  eapply yields_weaken.
  - eapply (drain_ok m0 h (w_states w) heap anc L roots); try done.
    + intros o r Ho Hni. exfalso. apply Hni. simpl. rewrite Hnew. rewrite HS in Ho. set_solver.
    + cbn [fst snd]. assert (card S = length (ms_items stack)) as ->.
      { rewrite Hnew, HS, union_empty_l_L. apply size_list_to_set.
        pose proof (tr_nodup _ _ _ _ _ _ Htr) as Hnd. simpl in Hnd. by rewrite Hnew in Hnd. }
      assert (card L < list_fuel (m_objects m0))%nat; [|lia].
      change (card L) with (length (elements L)). apply list_fuel_ok; [apply NoDup_elements|].
      intros o. rewrite elem_of_elements, HL. intros (bytes & k & Hl).
      destruct (live_header _ Hm0 _ _ _ _ Hl) as (ob & -> & _). by eexists.
  - intros state (S' & Htr' & _ & Hsub & Hscan). exists S'. split; [apply Htr'|]. split; [apply Htr'|].
    eapply drained_exact; try done; [by apply Htr'|]. intros r Hr HrL. apply Hsub. by apply Hmarked.
Qed.
End roots.
