(* ===== verification/HeapInvariant.v ===== *)
(** * The invariant of the runtime

    One chain of contexts: the active one and the ancestors it suspended.  Every
    context's storage, counters, chains and native allocations are consistent, and
    every reference held by a root or by an object of a context is null, a string
    literal, or an object in use of that context or of one of its ancestors. *)

From S2P Require Import Prelude Chains Storage Slabs Memory StorageSafety Sweep.
From S2P Require Import Heap Marking Collector.

Local Open Scope list_scope.
Local Open Scope N_scope.

(** ** Native allocations *)

Definition native_at (w : world) (a : N) : native_allocation := default (mk_native 0 0 0 0 0) (w_natives w !! a).

(** The doubly linked list of a context's native allocations, from [head]. *)
Fixpoint linked (w : world) (head previous : N) (l : list N) : Prop :=
  match l with
  | [] => head = 0
  | a :: l => head = a ∧ a ≠ 0 ∧ ∃ n, w_natives w !! a = Some n ∧ na_previous n = previous ∧ linked w (na_next n) a l
  end.

Definition native_bytes (w : world) (l : list N) : N := foldr (λ a n, na_byte_count (native_at w a) + n) 0 l.

Record natives_ok (w : world) (heap : runtime_state) (nl : list N) : Prop := {
  nt_linked : linked w (rs_native_head heap) 0 nl;
  nt_nodup : NoDup nl;
  nt_bytes : rs_native_byte_count heap = native_bytes w nl;
  nt_bound : native_bytes w nl ≤ u64_max;
  nt_pointers : NoDup ((λ a, na_pointer (native_at w a)) <$> nl);
  nt_contents : ∀ a, a ∈ nl → na_pointer (native_at w a) ≠ 0 ∧
    ∃ bytes, w_bytes w !! na_pointer (native_at w a) = Some bytes ∧
      length_N bytes = N.max 1 (na_byte_count (native_at w a));
}.

(** No two nodes share storage, and the storage of every node is allocated. *)
Definition native_storage (natives : gmap N native_allocation) (bytes : gmap N (list byte)) : Prop :=
  (∀ a n, natives !! a = Some n → is_Some (bytes !! na_pointer n)) ∧
  (∀ a b n n', natives !! a = Some n → natives !! b = Some n' → na_pointer n = na_pointer n' → a = b).

(** ** One context *)

Definition entry_previous (w : world) (a : N) : option N := fe_previous <$> w_entries w !! a.

(** Where the chains of each context run. *)
Record layout := mk_layout {
  ly_frames : N → list N;
  ly_borrows : N → list N;
  ly_entries : N → list N;
  ly_natives : N → list N;
}.

Section invariant.
Context `{Program}.

(** An object's references are valid for the context chain [hs]. *)
Definition object_ok (m : memory) (hs : list N) (o : N) : Prop :=
  ∃ ob, m_objects m !! o = Some ob ∧ traceable o ob ∧ ∀ r, r ∈ refs_of o ob → valid_ref m hs r.

Definition accounted (m : memory) (h : N) (heap : runtime_state) : Prop :=
  ∀ calls, visits m h calls → rs_object_count heap = length_N calls ∧ rs_byte_count heap = total_bytes calls.

Record heap_ok (w : world) (ly : layout) (h : N) (anc : list N) (heap : runtime_state) : Prop := {
  hp_storage : storage_ok (w_memory w) h (rs_storage heap);
  hp_account : accounted (w_memory w) h heap;
  hp_bytes : rs_byte_count heap ≤ u64_max;
  hp_ancestry : ancestry (w_states w) (rs_read_parent heap) anc;
  hp_region : rs_region_parent heap = 0 ∨ rs_region_parent heap = rs_read_parent heap;
  hp_chains : chains_ok w heap (ly_frames ly h) (ly_borrows ly h);
  hp_entries : chain (entry_previous w) (rs_foreign_entry heap) (ly_entries ly h);
  hp_entries_nodup : NoDup (ly_entries ly h);
  hp_natives : natives_ok w heap (ly_natives ly h);
  hp_roots : ∀ r, r ∈ root_refs w heap (ly_frames ly h) (ly_borrows ly h) → valid_ref (w_memory w) (h :: anc) r;
  hp_closed : ∀ o, live_in (w_memory w) h o → object_ok (w_memory w) (h :: anc) o;
  hp_uninitialized : rs_phase heap = uninitialized → anc = [];
  hp_owning : ∀ t token, t ∈ ly_entries ly h → w_entries w !! t = Some token → fe_owns_heap token ≠ 0 → anc = [];
}.

(** ** The whole runtime *)

(** No two contexts share a frame, a token or a native allocation. *)
Definition apart_lists (f : N → list N) (hs : list N) : Prop :=
  ∀ h1 h2 a, h1 ∈ hs → h2 ∈ hs → h1 ≠ h2 → a ∈ f h1 → a ∉ f h2.

Record world_ok (w : world) (hs : list N) (ly : layout) : Prop := {
  wd_memory : memory_ok (w_memory w);
  wd_unmarked : ∀ h o bytes k, live_object (w_memory w) h o bytes k → k = false;
  wd_active : head hs = Some (w_active w);
  wd_nodup : NoDup hs;
  wd_nonnull : 0 ∉ hs;
  wd_states : ∀ h, is_Some (w_states w !! h) ↔ h ∈ hs;
  wd_owners : (∀ b s, m_slabs (w_memory w) !! b = Some s → sl_owner s ∈ hs) ∧
              (∀ a g, m_large (w_memory w) !! a = Some g → lg_owner g ∈ hs);
  wd_tracing : w_tracing w = false;
  wd_active_phase : ∀ heap, w_states w !! w_active w = Some heap → rs_phase heap = active ∨ rs_phase heap = uninitialized;
  wd_heaps : ∀ pre h anc heap, hs = pre ++ h :: anc → w_states w !! h = Some heap → heap_ok w ly h anc heap;
  wd_frames : apart_lists (ly_frames ly) hs;
  wd_borrows : apart_lists (ly_borrows ly) hs;
  wd_entries : apart_lists (ly_entries ly) hs;
  wd_natives : apart_lists (ly_natives ly) hs;
  wd_native_storage : native_storage (w_natives w) (w_bytes w);
}.

(** The active context and its chain. *)
Lemma world_current w hs ly :
  world_ok w hs ly →
  ∃ anc heap, hs = w_active w :: anc ∧ w_states w !! w_active w = Some heap ∧
    current_state w = Ok (w_active w, heap) ∧ heap_ok w ly (w_active w) anc heap ∧ w_active w ∉ anc ∧ w_active w ≠ 0.
Proof.
  intros Hw. pose proof (wd_active _ _ _ Hw) as Ha. destruct hs as [|h anc]; [done|]. injection Ha as ->.
  assert (is_Some (w_states w !! w_active w)) as [heap Hheap] by (apply (wd_states _ _ _ Hw); set_solver).
  exists anc, heap. unfold current_state, load_state. rewrite Hheap. split_and!; try done.
  - by apply (wd_heaps _ _ _ Hw []).
  - by apply NoDup_cons, (wd_nodup _ _ _ Hw).
  - intros Hz. apply (wd_nonnull _ _ _ Hw). rewrite <-Hz. set_solver.
Qed.

(** ** Framing *)

(** Seen from the contexts [hs], the memory did not change. *)
Record unchanged (m m' : memory) (hs : list N) : Prop := {
  un_live : ∀ h o bytes k, h ∈ hs → live_object m' h o bytes k ↔ live_object m h o bytes k;
  un_objects : ∀ h o bytes k, h ∈ hs → live_object m h o bytes k → m_objects m' !! o = m_objects m !! o;
  un_storage : ∀ h st, h ∈ hs → storage_ok m h st → storage_ok m' h st;
  un_statics : keeps_statics m m';
}.

Lemma unchanged_sub m m' hs hs' : (∀ h, h ∈ hs' → h ∈ hs) → unchanged m m' hs → unchanged m m' hs'.
Proof. intros Hsub [H1 H2 H3 H4]. constructor; eauto. Qed.

Lemma unchanged_refl m hs : unchanged m m hs.
Proof. constructor; try done. Qed.

Lemma literal_keeps m m' r : keeps_statics m m' → literal m r → literal m' r.
Proof. intros Hk (Ho & ob & Hob & Ht & Hw). destruct (Hk r ob Ho Hob). split; [done|]. eauto. Qed.

Lemma valid_ref_unchanged m m' hs r : unchanged m m' hs → valid_ref m hs r → valid_ref m' hs r.
Proof.
  intros Hu [->|[Hl|(h & Hh & bytes & k & Hl)]]; [by left|right; left; by eapply literal_keeps, Hl; apply Hu|].
  right. right. exists h. split; [done|]. exists bytes, k. by apply (un_live _ _ _ Hu).
Qed.

Lemma live_in_unchanged m m' hs h o : unchanged m m' hs → h ∈ hs → live_in m' h o ↔ live_in m h o.
Proof. intros Hu Hh. unfold live_in. by setoid_rewrite (un_live _ _ _ Hu); [|done]. Qed.

Lemma object_ok_unchanged m m' hs h o :
  unchanged m m' hs → h ∈ hs → live_in m h o → object_ok m hs o → object_ok m' hs o.
Proof.
  intros Hu Hh (bytes & k & Hl) (ob & Hob & Ht & Hr). exists ob.
  rewrite (un_objects _ _ _ Hu _ _ _ _ Hh Hl). split_and!; try done.
  intros r Hin. eapply valid_ref_unchanged; eauto.
Qed.

Lemma accounted_unchanged m m' hs h heap heap' :
  unchanged m m' hs → h ∈ hs →
  rs_object_count heap' = rs_object_count heap → rs_byte_count heap' = rs_byte_count heap →
  accounted m h heap → accounted m' h heap'.
Proof.
  intros Hu Hh H1 H2 Hacc calls [Hnd Hl]. rewrite H1, H2. apply Hacc. constructor; [done|].
  intros o bytes. rewrite Hl. by setoid_rewrite (un_live _ _ _ Hu); [|done].
Qed.

Lemma ancestry_ext states states' parent anc :
  (∀ a, a ∈ anc → states' !! a = states !! a) → ancestry states parent anc → ancestry states' parent anc.
Proof.
  intros Heq [Hch Hnd Hsus]. constructor; [|done|].
  - eapply chain_ext; [|exact Hch]. intros a Ha. unfold read_parent_of. by rewrite Heq.
  - intros a s Ha. rewrite Heq by done. by apply Hsus.
Qed.
(** The chains of context [h] did not change. *)
Record chains_kept (w w' : world) (ly ly' : layout) (h : N) : Prop := {
  ck_frames : ly_frames ly' h = ly_frames ly h;
  ck_frame : ∀ a, a ∈ ly_frames ly h → w_frames w' !! a = w_frames w !! a;
  ck_borrows : ly_borrows ly' h = ly_borrows ly h;
  ck_borrow : ∀ a, a ∈ ly_borrows ly h → w_borrows w' !! a = w_borrows w !! a;
  ck_entries : ly_entries ly' h = ly_entries ly h;
  ck_entry : ∀ a, a ∈ ly_entries ly h → w_entries w' !! a = w_entries w !! a;
  ck_natives : ly_natives ly' h = ly_natives ly h;
  ck_native : ∀ a, a ∈ ly_natives ly h → w_natives w' !! a = w_natives w !! a ∧
    w_bytes w' !! na_pointer (native_at w a) = w_bytes w !! na_pointer (native_at w a);
  ck_words : w_words w' = w_words w;
}.

Lemma chains_kept_refl w w' ly h :
  w_frames w' = w_frames w → w_borrows w' = w_borrows w → w_entries w' = w_entries w →
  w_natives w' = w_natives w → w_bytes w' = w_bytes w → w_words w' = w_words w → chains_kept w w' ly ly h.
Proof. intros H1 H2 H3 H4 H5 H6. constructor; rewrite ?H1, ?H2, ?H3, ?H4, ?H5; done. Qed.

Lemma linked_ext w w' head previous l :
  (∀ a, a ∈ l → w_natives w' !! a = w_natives w !! a) → linked w head previous l → linked w' head previous l.
Proof.
  revert head previous. induction l as [|a l IH]; intros head previous Heq; [done|].
  intros (-> & Ha & n & Hn & Hp & Hl). split; [done|]. split; [done|]. exists n.
  rewrite Heq by set_solver. split_and!; [done..|]. apply IH; [set_solver|done].
Qed.

Lemma native_bytes_ext w w' l :
  (∀ a, a ∈ l → w_natives w' !! a = w_natives w !! a) → native_bytes w' l = native_bytes w l.
Proof.
  induction l as [|a l IH]; intros Heq; [done|]. simpl. unfold native_at at 1 2. rewrite Heq by set_solver.
  rewrite IH by set_solver. done.
Qed.

Lemma natives_ok_kept w w' ly ly' h heap heap' :
  chains_kept w w' ly ly' h →
  rs_native_head heap' = rs_native_head heap → rs_native_byte_count heap' = rs_native_byte_count heap →
  natives_ok w heap (ly_natives ly h) → natives_ok w' heap' (ly_natives ly' h).
Proof.
  intros Hck H1 H2 [Hl Hnd Hb Hbound Hp Hc]. rewrite (ck_natives _ _ _ _ _ Hck).
  assert (∀ a, a ∈ ly_natives ly h → w_natives w' !! a = w_natives w !! a) as Heq
    by (intros a Ha; by apply (ck_native _ _ _ _ _ Hck)).
  assert (∀ a, a ∈ ly_natives ly h → native_at w' a = native_at w a) as Hat
    by (intros a Ha; unfold native_at; by rewrite Heq).
  constructor.
  - rewrite H1. by eapply linked_ext.
  - done.
  - by rewrite H2, (native_bytes_ext w).
  - by rewrite (native_bytes_ext w).
  - erewrite list_fmap_ext; [exact Hp|]. intros i a Ha. rewrite Hat; [done|]. by eapply list_elem_of_lookup_2.
  - intros a Ha. rewrite Hat by done. destruct (Hc a Ha) as (Hz & bytes & Hbytes & Hlen). split; [done|].
    exists bytes. split; [|done]. by rewrite (proj2 (ck_native _ _ _ _ _ Hck a Ha)).
Qed.

Lemma natives_ok_same w w' heap heap' nl :
  w_natives w' = w_natives w → w_bytes w' = w_bytes w →
  rs_native_head heap' = rs_native_head heap → rs_native_byte_count heap' = rs_native_byte_count heap →
  natives_ok w heap nl → natives_ok w' heap' nl.
Proof.
  intros H1 H2 H3 H4 [Hl Hnd Hb Hbound Hp Hc].
  assert (∀ a, native_at w' a = native_at w a) as Hat by (intros a; unfold native_at; by rewrite H1).
  constructor.
  - rewrite H3. eapply linked_ext; [|done]. intros. by rewrite H1.
  - done.
  - rewrite H4, (native_bytes_ext w); [done|]. intros. by rewrite H1.
  - rewrite (native_bytes_ext w); [done|]. intros. by rewrite H1.
  - erewrite list_fmap_ext; [exact Hp|]. intros i a Ha. by rewrite Hat.
  - intros a Ha. rewrite Hat, H2. by apply Hc.
Qed.

Lemma chains_ok_kept w w' ly ly' h heap heap' :
  chains_kept w w' ly ly' h →
  rs_root_frame heap' = rs_root_frame heap → rs_borrow heap' = rs_borrow heap →
  rs_persistent_roots heap' = rs_persistent_roots heap →
  chains_ok w heap (ly_frames ly h) (ly_borrows ly h) →
  chains_ok w' heap' (ly_frames ly' h) (ly_borrows ly' h).
Proof.
  intros Hck H1 H2 H3 [C1 C2 C3 C4 C5 C6 C7].
  rewrite (ck_frames _ _ _ _ _ Hck), (ck_borrows _ _ _ _ _ Hck). constructor; rewrite ?H1, ?H2, ?H3; try done.
  - eapply chain_ext; [|exact C1]. intros a Ha. unfold frame_previous. by rewrite (ck_frame _ _ _ _ _ Hck).
  - intros a Ha. destruct (C3 a Ha) as (f & Hf & Hrest). exists f.
    by rewrite (ck_frame _ _ _ _ _ Hck), (ck_words _ _ _ _ _ Hck).
  - eapply chain_ext; [|exact C4]. intros a Ha. unfold borrow_previous. by rewrite (ck_borrow _ _ _ _ _ Hck).
  - intros a Ha. destruct (C6 a Ha) as (b & Hb & Hrest). exists b. by rewrite (ck_borrow _ _ _ _ _ Hck).
  - intros slot Hs. unfold persistent_ok. rewrite (ck_words _ _ _ _ _ Hck). by apply C7.
Qed.

Lemma bind_ext {A B} (f g : A → list B) (l : list A) : (∀ x, x ∈ l → f x = g x) → l ≫= f = l ≫= g.
Proof.
  induction l as [|x l IH]; intros Heq; [done|]. simpl. rewrite Heq by set_solver. f_equal. apply IH. set_solver.
Qed.

Lemma root_refs_kept w w' ly ly' h heap heap' :
  chains_kept w w' ly ly' h → rs_persistent_roots heap' = rs_persistent_roots heap →
  root_refs w' heap' (ly_frames ly' h) (ly_borrows ly' h) = root_refs w heap (ly_frames ly h) (ly_borrows ly h).
Proof.
  intros Hck Hp. unfold root_refs. rewrite Hp, (ck_frames _ _ _ _ _ Hck), (ck_borrows _ _ _ _ _ Hck).
  assert (∀ a, word w' a = word w a) as Hword by (intros a; unfold word; by rewrite (ck_words _ _ _ _ _ Hck)).
  f_equal; [|f_equal].
  - apply bind_ext. intros a Ha. unfold frame_roots. rewrite (ck_frame _ _ _ _ _ Hck) by done.
    destruct (w_frames w !! a) as [f|]; [|done]. simpl. apply list_fmap_ext. intros. apply Hword.
  - apply list_fmap_ext. intros. apply Hword.
  - apply bind_ext. intros a Ha. unfold borrow_root. by rewrite (ck_borrow _ _ _ _ _ Hck).
Qed.

Lemma elem_of_root_refs w heap fl bl r :
  r ∈ root_refs w heap fl bl ↔
  (∃ a, a ∈ fl ∧ r ∈ frame_roots w a) ∨ (∃ slot, slot ∈ rs_persistent_roots heap ∧ r = word w slot) ∨
  (∃ a, a ∈ bl ∧ r ∈ borrow_root w a).
Proof.
  unfold root_refs. rewrite !elem_of_app, !list_elem_of_bind, list_elem_of_fmap. naive_solver.
Qed.

(** A context none of whose parts changed. *)
Lemma heap_ok_frame w w' ly ly' h anc heap :
  unchanged (w_memory w) (w_memory w') (h :: anc) →
  (∀ a, a ∈ anc → w_states w' !! a = w_states w !! a) →
  chains_kept w w' ly ly' h →
  heap_ok w ly h anc heap → heap_ok w' ly' h anc heap.
Proof.
  intros Hu Hst Hck [P1 P2 P3 P4 P5 P6 P7 P8 P9 P10 P11 P12 P13].
  assert (h ∈ h :: anc) as Hh by set_solver. constructor; try done.
  - by apply (un_storage _ _ _ Hu).
  - by eapply accounted_unchanged.
  - by eapply ancestry_ext.
  - by eapply chains_ok_kept.
  - rewrite (ck_entries _ _ _ _ _ Hck). eapply chain_ext; [|exact P7]. intros a Ha. unfold entry_previous.
    by rewrite (ck_entry _ _ _ _ _ Hck).
  - by rewrite (ck_entries _ _ _ _ _ Hck).
  - by eapply natives_ok_kept.
  - intros r. rewrite (root_refs_kept w w' ly ly' h heap heap) by done. intros Hr. eapply valid_ref_unchanged; eauto.
  - intros o Ho. apply (live_in_unchanged _ _ _ _ _ Hu Hh) in Ho. eapply object_ok_unchanged; eauto.
  - intros t token. rewrite (ck_entries _ _ _ _ _ Hck). intros Ht. rewrite (ck_entry _ _ _ _ _ Hck) by done. eauto.
Qed.

(** ** Changing the active context only *)

Definition set_list (f : N → list N) (h : N) (l : list N) : N → list N := λ x, if decide (x = h) then l else f x.

Lemma set_list_eq f h l : set_list f h l h = l.
Proof. unfold set_list. by rewrite decide_True. Qed.

Lemma set_list_ne f h l x : x ≠ h → set_list f h l x = f x.
Proof. intros. unfold set_list. by rewrite decide_False. Qed.

(** The lists of the active context changed to ones that no other context shares. *)
Lemma apart_lists_update f f' h anc :
  apart_lists f (h :: anc) → h ∉ anc → (∀ x, x ∈ anc → f' x = f x) →
  (∀ a x, a ∈ f' h → x ∈ anc → a ∉ f x) → apart_lists f' (h :: anc).
Proof.
  intros Hap Hh Heq Hnew h1 h2 a H1 H2 Hne Ha1 Ha2.
  apply elem_of_cons in H1 as [->|H1], H2 as [->|H2]; [done|..].
  - rewrite Heq in Ha2 by done. by eapply Hnew.
  - rewrite Heq in Ha1 by done. by eapply Hnew.
  - rewrite Heq in Ha1, Ha2 by done. eapply (Hap h1 h2); set_solver.
Qed.

Record only_active (w w' : world) (ly ly' : layout) (h : N) (anc : list N) (heap' : runtime_state) : Prop := {
  oa_memory : memory_ok (w_memory w');
  oa_unmarked : ∀ h o bytes k, live_object (w_memory w') h o bytes k → k = false;
  oa_owners : (∀ b s, m_slabs (w_memory w') !! b = Some s → sl_owner s ∈ h :: anc) ∧
              (∀ a g, m_large (w_memory w') !! a = Some g → lg_owner g ∈ h :: anc);
  oa_states : w_states w' = <[h := heap']> (w_states w);
  oa_active : w_active w' = w_active w;
  oa_tracing : w_tracing w' = false;
  oa_phase : rs_phase heap' = active ∨ rs_phase heap' = uninitialized;
  oa_unchanged : unchanged (w_memory w) (w_memory w') anc;
  oa_kept : ∀ x, x ∈ anc → chains_kept w w' ly ly' x;
  oa_heap : heap_ok w' ly' h anc heap';
  oa_frames : ∀ a x, a ∈ ly_frames ly' h → x ∈ anc → a ∉ ly_frames ly x;
  oa_borrows : ∀ a x, a ∈ ly_borrows ly' h → x ∈ anc → a ∉ ly_borrows ly x;
  oa_entries : ∀ a x, a ∈ ly_entries ly' h → x ∈ anc → a ∉ ly_entries ly x;
  oa_natives : ∀ a x, a ∈ ly_natives ly' h → x ∈ anc → a ∉ ly_natives ly x;
  oa_native_storage : native_storage (w_natives w') (w_bytes w');
}.

Lemma world_ok_active w w' ly ly' h anc heap' :
  world_ok w (h :: anc) ly → only_active w w' ly ly' h anc heap' → world_ok w' (h :: anc) ly'.
Proof.
  intros Hw Ho. pose proof (wd_nodup _ _ _ Hw) as Hnd. apply NoDup_cons in Hnd as [Hh Hnd].
  pose proof (wd_active _ _ _ Hw) as Hact. injection Hact as Hact. constructor.
  - by eapply oa_memory.
  - by eapply oa_unmarked.
  - rewrite (oa_active _ _ _ _ _ _ _ Ho). by rewrite <-Hact.
  - by eapply wd_nodup.
  - by eapply wd_nonnull.
  - intros x. rewrite (oa_states _ _ _ _ _ _ _ Ho), lookup_insert_is_Some, (wd_states _ _ _ Hw). set_solver.
  - by eapply oa_owners.
  - by eapply oa_tracing.
  - intros heap. rewrite (oa_active _ _ _ _ _ _ _ Ho), <-Hact, (oa_states _ _ _ _ _ _ _ Ho), lookup_insert_eq.
    intros [= <-]. by eapply oa_phase.
  - intros pre x anc' heap Heq Hx. rewrite (oa_states _ _ _ _ _ _ _ Ho) in Hx. destruct pre as [|y pre].
    + injection Heq as <- <-. rewrite lookup_insert_eq in Hx. injection Hx as <-. by eapply oa_heap.
    + injection Heq as <- Hanc. assert (x ∈ anc) as Hxa by (rewrite Hanc; set_solver).
      rewrite lookup_insert_ne in Hx by (intros ->; done).
      eapply (heap_ok_frame w).
      * eapply unchanged_sub; [|by eapply oa_unchanged]. rewrite Hanc. set_solver.
      * intros a Ha. rewrite (oa_states _ _ _ _ _ _ _ Ho), lookup_insert_ne; [done|].
        intros ->. apply Hh. rewrite Hanc. set_solver.
      * by eapply oa_kept.
      * apply (wd_heaps _ _ _ Hw (h :: pre)); [by rewrite Hanc|done].
  - eapply apart_lists_update; [by eapply wd_frames|done| |by eapply oa_frames]. intros x Hx. by eapply ck_frames, oa_kept.
  - eapply apart_lists_update; [by eapply wd_borrows|done| |by eapply oa_borrows]. intros x Hx. by eapply ck_borrows, oa_kept.
  - eapply apart_lists_update; [by eapply wd_entries|done| |by eapply oa_entries]. intros x Hx. by eapply ck_entries, oa_kept.
  - eapply apart_lists_update; [by eapply wd_natives|done| |by eapply oa_natives]. intros x Hx. by eapply ck_natives, oa_kept.
  - by eapply oa_native_storage.
Qed.
End invariant.
