(* ===== verification/Collection.v ===== *)
(** * Garbage collection and allocation, on the whole runtime

    [assert_consistent] holds in every good state, [collect_impl] keeps exactly the
    reachable objects of the active context, and [allocate_managed] adds one object
    to what is reachable or gives up without losing anything reachable. *)

From S2P Require Import Prelude Chains Storage Slabs Memory StorageSafety Sweep.
From S2P Require Import Heap Marking Collector HeapInvariant.

Local Open Scope string_scope.
Local Open Scope list_scope.
Local Open Scope N_scope.

Local Notation card := stdpp.base.size.

(** ** Consistency checks *)

Lemma native_total_ok w l fuel head previous :
  linked w head previous l → (∀ a, a ∈ l → na_pointer (native_at w a) ≠ 0) →
  native_bytes w l ≤ u64_max → (length l < fuel)%nat →
  native_total fuel w head previous = Ok (native_bytes w l).
Proof.
  revert fuel head previous. induction l as [|a l IH]; intros [|fuel] head previous Hl Hp Hb Hf; try (simpl in Hf; lia).
  { simpl in Hl. by subst. }
  destruct Hl as (-> & Ha & n & Hn & Hprev & Hl). cbn [native_total].
  rewrite (proj2 (N.eqb_neq _ _) Ha), Hn, load_Some, bind_Ok, Hprev, N.eqb_refl. simpl.
  assert (native_at w a = n) as Hat by (unfold native_at; by rewrite Hn).
  assert (na_pointer n ≠ 0) as Hz by (rewrite <-Hat; apply Hp; set_solver).
  rewrite (proj2 (N.eqb_neq _ _) Hz). simpl. simpl in Hb.
  rewrite (IH fuel); [|done|set_solver|lia|simpl in Hf; lia]. simpl. rewrite <-Hat. by rewrite u64_small.
Qed.

Section consistent.
Context `{Program}.

Lemma visits_counts m h calls n :
  memory_ok m → visits m h calls → total_bytes calls ≤ n → n ≤ u64_max →
  reclaimed_objects calls = length_N calls ∧ reclaimed_bytes calls = total_bytes calls.
Proof.
  intros Hm Hv Hn Hmax. pose proof (visits_bytes _ _ _ Hm Hv) as H16.
  unfold reclaimed_objects, reclaimed_bytes. fold (total_bytes calls). rewrite !u64_small by lia. done.
Qed.

Lemma assert_consistent_ok w hs ly : world_ok w hs ly → assert_consistent w = Ok tt.
Proof.
  intros Hw. destruct (world_current _ _ _ Hw) as (anc & heap & -> & Hheap & Hcur & Hok & _).
  pose proof (wd_memory _ _ _ Hw) as Hm. unfold assert_consistent. rewrite Hcur, bind_Ok.
  destruct (visit_visits _ _ _ Hm (hp_storage _ _ _ _ _ Hok)) as (calls & -> & Hv). rewrite bind_Ok.
  destruct (hp_account _ _ _ _ _ Hok calls Hv) as [Hcount Hbytes].
  destruct (visits_counts _ _ _ (rs_byte_count heap) Hm Hv) as [-> ->]; [lia|apply Hok|].
  match goal with |- for_each ?l ?f ≫= _ = _ => assert (for_each l f = Ok tt) as -> end.
  { apply for_each_Ok, Forall_forall. intros [o bytes] Hin. apply (vs_live _ _ _ Hv) in Hin as [k Hl]. simpl.
    pose proof (wd_unmarked _ _ _ Hw _ _ _ _ Hl) as ->.
    rewrite (owner_live _ Hm _ _ _ _ Hl). simpl. rewrite N.eqb_refl. simpl.
    rewrite (marked_live _ Hm _ _ _ _ Hl). simpl. by rewrite orb_true_r. }
  rewrite bind_Ok, Hcount, Hbytes, !N.eqb_refl, !assert_true, !bind_Ok.
  destruct (hp_natives _ _ _ _ _ Hok) as [Hl Hnd Hnb Hbound _ Hc].
  rewrite (native_total_ok w (ly_natives ly (w_active w))); [|done|by intros a Ha; apply Hc|done|].
  - simpl. by rewrite Hnb, N.eqb_refl.
  - apply list_fuel_ok; [done|]. clear - Hl. revert Hl. generalize (rs_native_head heap) 0.
    induction (ly_natives ly (w_active w)) as [|x l IH]; intros head prev Hl a Ha; [by apply elem_of_nil in Ha|].
    destruct Hl as (-> & _ & n & Hn & _ & Hl). apply elem_of_cons in Ha as [->|Ha]; [by eexists|eauto].
Qed.
End consistent.

(** ** Collection *)

Section collect.
Context `{Program} `{RuntimeHost}.

(** The roots of the active context. *)
Definition active_roots (w : world) (ly : layout) (heap : runtime_state) : list N :=
  root_refs w heap (ly_frames ly (w_active w)) (ly_borrows ly (w_active w)).

(** What a collection leaves: the reachable objects of the active context, untouched,
    and every object of the other contexts. *)
Record collected (w w' : world) (ly : layout) (heap : runtime_state) : Prop := {
  co_live : ∀ h o bytes k, live_object (w_memory w') h o bytes k ↔
    live_object (w_memory w) h o bytes k ∧ (h = w_active w → reachable (w_memory w) h (active_roots w ly heap) o);
  co_objects : ∀ h o bytes k, live_object (w_memory w') h o bytes k → m_objects (w_memory w') !! o = m_objects (w_memory w) !! o;
  co_statics : keeps_statics (w_memory w) (w_memory w');
  co_rest : w_active w' = w_active w ∧ w_tracing w' = false ∧ w_frames w' = w_frames w ∧ w_borrows w' = w_borrows w ∧
    w_entries w' = w_entries w ∧ w_words w' = w_words w ∧ w_natives w' = w_natives w ∧ w_bytes w' = w_bytes w;
  co_states : ∃ storage objects bytes, w_states w' = <[w_active w := set_phase active
    (set_counts objects bytes (u64 (rs_collection_count heap + 1)) (next_threshold bytes) (set_storage storage heap))]>
    (w_states w);
}.

(** Slabs and large allocations keep owners from the chain. *)
Lemma owners_kept m m' h (hs : list N) :
  h ∈ hs → only_owner m m' h →
  (∀ b s, m_slabs m !! b = Some s → sl_owner s ∈ hs) ∧ (∀ a g, m_large m !! a = Some g → lg_owner g ∈ hs) →
  (∀ b s, m_slabs m' !! b = Some s → sl_owner s ∈ hs) ∧ (∀ a g, m_large m' !! a = Some g → lg_owner g ∈ hs).
Proof.
  intros Hh [Ho Hol] [Hs Hl]. split.
  - intros b s Hb. destruct (decide (sl_owner s = h)) as [->|Hne]; [done|].
    assert (owned m' (sl_owner s) b = Some s) as Hb' by by apply owned_Some.
    rewrite Ho in Hb' by done. apply owned_Some in Hb' as [Hb' _]. by eapply Hs.
  - intros a g Ha. destruct (decide (lg_owner g = h)) as [->|Hne]; [done|].
    assert (owned_large m' (lg_owner g) a = Some g) as Ha' by by apply owned_large_Some.
    rewrite Hol in Ha' by done. apply owned_large_Some in Ha' as [Ha' _]. by eapply Hl.
Qed.

Lemma owners_same_lists m m' (hs : list N) :
  same_lists m m' →
  (∀ b s, m_slabs m !! b = Some s → sl_owner s ∈ hs) ∧ (∀ a g, m_large m !! a = Some g → lg_owner g ∈ hs) →
  (∀ b s, m_slabs m' !! b = Some s → sl_owner s ∈ hs) ∧ (∀ a g, m_large m' !! a = Some g → lg_owner g ∈ hs).
Proof.
  intros [Hs Hl] [H1 H2]. split.
  - intros b s Hb. specialize (Hs b). rewrite Hb in Hs. destruct (m_slabs m !! b) as [s0|] eqn:E; [|done].
    assert (sl_owner s = sl_owner s0) as -> by (unfold slab_view in Hs; simpl in Hs; congruence). by eapply H1.
  - intros a g Ha. specialize (Hl a). rewrite Ha in Hl. destruct (m_large m !! a) as [g0|] eqn:E; [|done].
    assert (lg_owner g = lg_owner g0) as -> by (unfold large_view in Hl; simpl in Hl; congruence). by eapply H2.
Qed.

Section collect_memory.
Context (m0 m m' : memory) (h : N) (hs anc roots : list N) (S : gset N) (st' : managed_storage) (reclaimed : list visited).
Context (Hm0 : memory_ok m0) (Hunmarked : ∀ h o bytes k, live_object m0 h o bytes k → k = false).
Context (Hmm : marked_memory m0 S m) (Hlive : ∀ o, o ∈ S → live_in m0 h o).
Context (HS : ∀ o, o ∈ S ↔ reachable m0 h roots o) (Hsw : swept_storage m h m' st' reclaimed).

(** The trace and the sweep together. *)
Lemma traced_live h' o bytes k :
  live_object m' h' o bytes k ↔ live_object m0 h' o bytes k ∧ (h' = h → reachable m0 h roots o).
Proof.
  rewrite (ss_live _ _ _ _ _ Hsw). destruct (decide (h' = h)) as [->|Hne].
  - rewrite (mm_live _ _ _ Hmm). rewrite <-HS. split.
    + intros (-> & Hl & Hb). split; [done|]. intros _. by eapply bool_decide_eq_true_1.
    + intros [Hl Hr]. pose proof (Hunmarked _ _ _ _ Hl) as ->. split_and!; [done..|].
      symmetry. apply bool_decide_eq_true_2. by apply Hr.
  - rewrite (mm_live _ _ _ Hmm). split.
    + intros [Hl ->]. split; [|done]. rewrite bool_decide_false; [done|].
      intros (bytes' & k' & Hl')%Hlive. by destruct (live_unique _ Hm0 _ _ _ _ _ _ _ Hl Hl') as (? & _).
    + intros [Hl _]. pose proof (Hunmarked _ _ _ _ Hl) as ->. split; [done|].
      symmetry. apply bool_decide_eq_false_2. intros (bytes' & k' & Hl')%Hlive.
      by destruct (live_unique _ Hm0 _ _ _ _ _ _ _ Hl Hl') as (? & _).
Qed.

Lemma traced_objects h' o bytes k : live_object m' h' o bytes k → m_objects m' !! o = m_objects m0 !! o.
Proof.
  intros Hl. rewrite (rf_headers _ _ _ (ss_reclaimed _ _ _ _ _ Hsw) _ _ _ _ Hl). by rewrite (mm_objects _ _ _ Hmm).
Qed.

Lemma traced_statics : keeps_statics m0 m'.
Proof.
  eapply keeps_trans; [by apply keeps_same_lists; [apply Hmm|apply Hmm]|].
  apply (rf_statics _ _ _ (ss_reclaimed _ _ _ _ _ Hsw)).
Qed.

Lemma traced_unchanged : h ∉ anc → unchanged m0 m' anc.
Proof.
  intros Hh. constructor.
  - intros x o bytes k Hx. rewrite traced_live. split; [by intros [? _]|]. intros Hl. split; [done|]. by intros ->.
  - intros x o bytes k Hx Hl. eapply traced_objects, traced_live. split; [exact Hl|]. by intros ->.
  - intros x st Hx Hst. eapply (storage_ok_frame m); [apply (ss_reclaimed _ _ _ _ _ Hsw)|by intros ->|].
    eapply storage_ok_same_lists; [apply Hmm|done].
  - apply traced_statics.
Qed.

Lemma traced_valid r :
  h ∉ anc → (live_in m0 h r → reachable m0 h roots r) → valid_ref m0 (h :: anc) r → valid_ref m' (h :: anc) r.
Proof.
  intros Hh Hr [->|[Hl|(x & Hx & Hl)]]; [by left|right; left; by eapply literal_keeps, Hl; apply traced_statics|].
  right. right. exists x. split; [done|]. pose proof Hl as (bytes & k & Hl'). exists bytes, k. apply traced_live.
  split; [done|]. intros ->. by apply Hr.
Qed.

Lemma traced_object o :
  h ∉ anc → live_in m' h o → object_ok m0 (h :: anc) o → object_ok m' (h :: anc) o.
Proof.
  intros Hh (bytes & k & Hl) (ob & Hob & Ht & Hr). exists ob. rewrite (traced_objects _ _ _ _ Hl).
  split_and!; [done..|]. intros r Hin. apply traced_valid; [done| |by apply Hr]. intros Hlr.
  apply traced_live in Hl as [_ Hreach]. eapply reach_ref; [by apply Hreach| |done]. unfold refs. by rewrite Hob.
Qed.

Lemma traced_counts calls calls' :
  visits m0 h calls → visits m' h calls' →
  length_N calls = length_N reclaimed + length_N calls' ∧ total_bytes calls = total_bytes reclaimed + total_bytes calls'.
Proof.
  intros Hv Hv'. assert (visits m h calls) as Hvm.
  { destruct Hv as [Hnd Hl]. constructor; [done|]. intros o bytes. rewrite Hl. split.
    - intros [k Hk]. pose proof (Hunmarked _ _ _ _ Hk) as ->. eexists. by apply (mm_live _ _ _ Hmm).
    - intros [k [Hk _]%(mm_live _ _ _ Hmm)]. eauto. }
  rewrite (ss_perm _ _ _ _ _ Hsw calls calls' Hvm Hv'). by rewrite length_N_app, total_bytes_app.
Qed.
End collect_memory.

(** The trace of the active context. *)
Lemma trace_active_ok w ly anc heap :
  world_ok w (w_active w :: anc) ly → w_states w !! w_active w = Some heap →
  let heap1 := set_phase collecting heap in
  yields (trace_roots (with_tracing true (store_state (w_active w) heap1 w)) (w_active w) heap1) (λ state, ∃ S,
    marked_memory (w_memory w) S state.1 ∧ (∀ o, o ∈ S → live_in (w_memory w) (w_active w) o) ∧
    ∀ o, o ∈ S ↔ reachable (w_memory w) (w_active w) (active_roots w ly heap) o).
Proof.
  intros Hw Hheap heap1. set (h := w_active w) in *. set (w1 := with_tracing true _).
  pose proof (wd_memory _ _ _ Hw) as Hm. pose proof (wd_heaps _ _ _ Hw [] _ _ _ eq_refl Hheap) as Hok.
  pose proof (wd_nodup _ _ _ Hw) as Hnd. apply NoDup_cons in Hnd as [Hh _].
  destruct (visit_visits _ _ _ Hm (hp_storage _ _ _ _ _ Hok)) as (calls & _ & Hv).
  destruct (hp_account _ _ _ _ _ Hok calls Hv) as [_ Hbytes]. pose proof (hp_bytes _ _ _ _ _ Hok) as Hmax.
  pose proof (visits_bytes _ _ _ Hm Hv) as H16.
  assert (∀ o, o ∈ (list_to_set calls.*1 : gset N) ↔ live_in (w_memory w) h o) as HL.
  { intros o. rewrite elem_of_list_to_set, list_elem_of_fmap. split.
    - intros ([o' bytes] & -> & [k Hl]%(vs_live _ _ _ Hv)). by exists bytes, k.
    - intros (bytes & k & Hl). exists (o, bytes). split; [done|]. apply (vs_live _ _ _ Hv). eauto. }
  assert (chains_kept w w1 ly ly h) as Hck by by apply chains_kept_refl.
  assert (root_refs w1 heap1 (ly_frames ly h) (ly_borrows ly h) = active_roots w ly heap) as Hroots
    by by apply (root_refs_kept w w1 ly ly h).
  eapply yields_weaken.
  - apply (trace_roots_ok w1 h heap1 anc (list_to_set calls.*1) (ly_frames ly h) (ly_borrows ly h)); try done.
    + apply (wd_unmarked _ _ _ Hw).
    + rewrite size_list_to_set by apply Hv. rewrite length_fmap. rewrite Hbytes in Hmax. by etrans.
    + simpl. by rewrite lookup_insert_eq.
    + eapply ancestry_ext; [|by apply (hp_ancestry _ _ _ _ _ Hok)]. intros a Ha. simpl. rewrite lookup_insert_ne; [done|]. by intros <-.
    + intros o Ho. by apply (hp_closed _ _ _ _ _ Hok).
    + eapply (chains_ok_kept w w1 ly ly h heap); try done. by apply (hp_chains _ _ _ _ _ Hok).
    + rewrite Hroots. intros r Hr. by apply (hp_roots _ _ _ _ _ Hok).
  - intros state (S & Hmm & HSL & HS). exists S. rewrite Hroots in HS. split_and!; try done.
    intros o Ho. apply HL. by apply HSL.
Qed.

(** A collection keeps the invariant and exactly the reachable objects. *)
Lemma collect_ok w hs ly heap :
  world_ok w hs ly → w_states w !! w_active w = Some heap →
  yields (collect_impl w) (λ w', world_ok w' hs ly ∧ collected w w' ly heap).
Proof.
  intros Hw Hheap. destruct (world_current _ _ _ Hw) as (anc & heap0 & -> & Hheap0 & Hcur & Hok & Hh & Hz).
  rewrite Hheap in Hheap0. injection Hheap0 as <-. set (h := w_active w) in *.
  pose proof (wd_memory _ _ _ Hw) as Hm.
  assert (phase_is collecting heap = false) as Hnc.
  { apply bool_decide_eq_false_2. destruct (wd_active_phase _ _ _ Hw heap Hheap) as [-> | ->]; done. }
  unfold collect_impl. rewrite Hcur, bind_Ok, Hnc. cbv zeta.
  eapply yields_bind; [by apply (trace_active_ok w ly anc heap Hw Hheap)|].
  intros [m stack] (S & Hmm & HSlive & HS). cbn [fst] in Hmm.
  assert (∀ x o bytes k, live_object (w_memory w) x o bytes k → k = false) as Hun by apply (wd_unmarked _ _ _ Hw).
  assert (storage_ok m h (rs_storage heap)) as Hst.
  { eapply storage_ok_same_lists; [apply Hmm|]. by apply (hp_storage _ _ _ _ _ Hok). }
  destruct (sweep_spec m h (rs_storage heap) (mm_memory _ _ _ Hmm) Hst) as ([[m' st'] reclaimed] & Hsweep & Hsw).
  change (rs_storage (set_phase collecting heap)) with (rs_storage heap). rewrite Hsweep, bind_Ok.
  set (objects := u64_sub _ _). set (bytes := u64_sub _ _). set (heap' := set_phase active _). set (w' := with_tracing false _).
  destruct (visit_visits _ _ _ Hm (hp_storage _ _ _ _ _ Hok)) as (calls & _ & Hv).
  destruct (visit_visits _ _ _ (ss_memory _ _ _ _ _ Hsw) (ss_storage _ _ _ _ _ Hsw)) as (calls' & _ & Hv').
  destruct (hp_account _ _ _ _ _ Hok calls Hv) as [Hcount Hbytes].
  pose proof (hp_bytes _ _ _ _ _ Hok) as Hmax. pose proof (visits_bytes _ _ _ Hm Hv) as H16.
  destruct (traced_counts _ _ _ _ _ _ _ Hun Hmm Hsw calls calls' Hv Hv') as [HcN HcB].
  assert (objects = length_N calls' ∧ bytes = total_bytes calls') as [Hobj Hbyt].
  { unfold objects, bytes. simpl. unfold reclaimed_objects, reclaimed_bytes. fold (total_bytes reclaimed).
    rewrite !(u64_small (length_N _)), !(u64_small (total_bytes _)), !u64_sub_small by lia. lia. }
  assert (collected w w' ly heap) as Hcol.
  { constructor.
    - intros x o b k. change (w_memory w') with m'.
      rewrite (traced_live (w_memory w) m m' h _ S st' reclaimed) by done. fold h. naive_solver.
    - intros x o b k. by eapply traced_objects.
    - by eapply traced_statics.
    - done.
    - exists st', objects, bytes. simpl. by rewrite insert_insert_eq. }
  assert (chains_kept w w' ly ly h) as Hck by by apply chains_kept_refl.
  assert (only_active w w' ly ly h anc heap') as Hactive.
  { constructor; try done.
    - apply Hsw.
    - intros x o b k [Hl _]%(co_live _ _ _ _ Hcol). by eapply Hun.
    - eapply owners_kept; [|apply (ss_reclaimed _ _ _ _ _ Hsw)|]; [set_solver|].
      eapply owners_same_lists; [apply Hmm|]. exact (wd_owners _ _ _ Hw).
    - simpl. by rewrite insert_insert_eq.
    - by left.
    - by eapply traced_unchanged.
    - constructor.
      + by apply Hsw.
      + intros calls2 Hv2. simpl. rewrite Hobj, Hbyt.
        rewrite (visits_perm _ _ _ _ _ Hv2 Hv') by done. done.
      + simpl. lia.
      + eapply ancestry_ext; [|by apply (hp_ancestry _ _ _ _ _ Hok)]. intros a Ha. simpl. rewrite !lookup_insert_ne; [done|..]; by intros <-.
      + by apply (hp_region _ _ _ _ _ Hok).
      + eapply (chains_ok_kept w w' ly ly h heap); try done. by apply (hp_chains _ _ _ _ _ Hok).
      + by apply (hp_entries _ _ _ _ _ Hok).
      + by apply (hp_entries_nodup _ _ _ _ _ Hok).
      + eapply (natives_ok_kept w w' ly ly h heap); try done. by apply (hp_natives _ _ _ _ _ Hok).
      + intros r. rewrite (root_refs_kept w w' ly ly h heap) by done. intros Hr.
        eapply traced_valid; try done; [|by apply (hp_roots _ _ _ _ _ Hok)]. by apply reach_root.
      + intros o Ho. eapply traced_object; try done. apply (hp_closed _ _ _ _ _ Hok).
        destruct Ho as (b & k & Hl). apply (co_live _ _ _ _ Hcol) in Hl as [Hl _]. by exists b, k.
      + done.
      + apply (hp_owning _ _ _ _ _ Hok).
    - intros a x Ha Hx. eapply (wd_frames _ _ _ Hw h x); set_solver.
    - intros a x Ha Hx. eapply (wd_borrows _ _ _ Hw h x); set_solver.
    - intros a x Ha Hx. eapply (wd_entries _ _ _ Hw h x); set_solver.
    - intros a x Ha Hx. eapply (wd_natives _ _ _ Hw h x); set_solver.
    - apply (wd_native_storage _ _ _ Hw). }
  pose proof (world_ok_active _ _ _ _ _ _ _ Hw Hactive) as Hw'.
  rewrite (assert_consistent_ok w' _ _ Hw'), bind_Ok. by apply yields_Ok.
Qed.
End collect.
