(* ===== verification/RuntimeApi.v ===== *)
(** * The runtime's entry points ([native/runtime/runtime.cpp])

    The operations compiled programs and native hosts call: initialization, foreign
    entries, managed allocation, root frames, allocation regions, reference stores,
    borrows, native memory and shutdown.  Each is the whole function: its guards in
    order, the panics they raise, and every change of state. *)

From S2P Require Import Prelude Storage Catalog Heap.

Local Open Scope string_scope.
Local Open Scope list_scope.
Local Open Scope N_scope.

(** ** Negotiation *)

(** [neri_runtime_abi_requirements_v1]. *)
Record abi_requirements := mk_requirements {
  rq_struct_size : N;
  rq_major : N;
  rq_minimum_minor : N;
  rq_required_features : N;
}.

Definition sizeof_requirements : N := 16.
Definition runtime_features : N := 4294966015.

Inductive abi_status := STATUS_OK | STATUS_INVALID_ARGUMENT | STATUS_INCOMPATIBLE_MAJOR | STATUS_RUNTIME_TOO_OLD
  | STATUS_MISSING_FEATURE.

#[export] Instance abi_status_eq_dec : EqDecision abi_status.
Proof. solve_decision. Defined.

Definition validate_requirements (requirements : option abi_requirements) : abi_status :=
  match requirements with
  | None => STATUS_INVALID_ARGUMENT
  | Some r =>
      if rq_struct_size r <? sizeof_requirements then STATUS_INVALID_ARGUMENT
      else if negb (rq_major r =? ABI_MAJOR) then STATUS_INCOMPATIBLE_MAJOR
      else if ABI_MINOR <? rq_minimum_minor r then STATUS_RUNTIME_TOO_OLD
      else if negb (N.land (rq_required_features r) runtime_features =? rq_required_features r) then
        STATUS_MISSING_FEATURE
      else STATUS_OK
  end.

Definition neri_rt_v1_initialize (requirements : option abi_requirements) (w : world) : result (abi_status * world) :=
  '(h, heap) ← current_state w;
  if phase_is suspended heap then contract_panic "cannot initialize a suspended task parent"
  else
    let status := validate_requirements requirements in
    if negb (bool_decide (status = STATUS_OK)) then Ok (status, w)
    else
      let heap := if phase_is uninitialized heap then set_phase active heap else heap in
      Ok (STATUS_OK, store_state h (set_host_error "" heap) w).

(** ** Managed allocation *)

Section allocation.
Context `{Program} `{RuntimeHost} `{HostMemory}.

(** [valid_array] of [validate_type]. *)
Definition valid_array (type : type_descriptor) : bool :=
  negb (td_kind type =? TYPE_KIND_ARRAY) ||
  (negb (td_element_size type =? 0) && is_power_of_two (td_element_alignment type) &&
   (td_element_alignment type <=? max_align) &&
   (td_element_size type mod td_element_alignment type =? 0) &&
   (td_payload_size type =? N.ldiff (8 + td_element_alignment type - 1) (td_element_alignment type - 1)) &&
   (td_payload_alignment type =? N.max 8 (td_element_alignment type)) &&
   ((td_struct_size type <? TYPE_DESCRIPTOR_V1_4_SIZE) || negb (td_element_type type =? 0))).

(** [valid_v1_4_fields]. *)
Definition valid_v1_4_fields (type : type_descriptor) : bool :=
  (td_struct_size type <? TYPE_DESCRIPTOR_V1_4_SIZE) ||
  ((td_reserved_v1_4 type =? 0) && (td_scalar_kind type =? SCALAR_KIND_NONE) && (td_trace_inline type =? 0) &&
   ((td_kind type =? TYPE_KIND_ARRAY) || (td_element_type type =? 0))).

(** The condition [validate_type] panics on is the negation of this. *)
Definition allocation_contract (type : type_descriptor) (payload_size payload_alignment : N) : bool :=
  (TYPE_KIND_CLASS <=? td_kind type) && (td_kind type <=? TYPE_KIND_ARRAY) &&
  negb (td_struct_size type <? TYPE_DESCRIPTOR_BASE_SIZE) &&
  negb ((4 <=? td_abi_minor type) && (td_struct_size type <? TYPE_DESCRIPTOR_V1_4_SIZE)) &&
  valid_v1_4_fields type && (td_abi_major type =? ABI_MAJOR) && (td_abi_minor type <=? ABI_MINOR) &&
  valid_array type && (N.ldiff (td_flags type) known_type_flags =? 0) && (td_reserved type =? 0) &&
  match td_mangled_name type with None | Some "" => false | Some _ => true end &&
  is_power_of_two payload_alignment && (payload_alignment <=? max_align) &&
  (payload_alignment =? td_payload_alignment type) && (td_payload_size type <=? payload_size) &&
  negb ((td_kind type =? TYPE_KIND_CLASS) && negb (payload_size =? td_payload_size type)) &&
  negb (negb (N.land (td_flags type) TYPE_FLAG_CONTAINS_REFS =? 0) && (td_trace type =? 0)) &&
  (payload_size <=? u64_max - sizeof_header).

(** Zero is the null descriptor. *)
Definition validate_type (type payload_size payload_alignment : N) : result unit :=
  if type =? 0 then contract_panic "invalid managed allocation contract"
  else
    d ← load "type descriptor" (descriptor type);
    if allocation_contract d payload_size payload_alignment then Ok tt
    else contract_panic "invalid managed allocation contract".

(** Allocates from the storage of the active context; [None] when the host has no memory. *)
Definition storage_allocate (total_size : N) (zeroed : bool) (w : world) : result (option N * world) :=
  '(h, heap) ← current_state w;
  '(object, m, storage) ← allocate total_size h zeroed (w_memory w) (rs_storage heap);
  Ok (object, store_state h (set_storage storage heap) (with_memory m w)).

Definition allocate_managed (type payload_size payload_alignment : N) (zeroed : bool) (w : world)
    : result (N * world) :=
  require_initialized w;;
  '(_, heap) ← current_state w;
  if phase_is collecting heap then contract_panic "managed allocation is not allowed during tracing"
  else
    validate_type type payload_size payload_alignment;;
    let total_size := u64 (sizeof_header + payload_size) in
    if (u64_max - total_size <? rs_byte_count heap) || (rs_object_count heap =? u64_max) then
      out_of_memory "managed allocation accounting overflow"
    else
      w ← (if (rs_next_collection_bytes heap <=? rs_byte_count heap) ||
              (rs_next_collection_bytes heap - rs_byte_count heap <? total_size) then collect_impl w
           else Ok w);
      '(object, w) ← storage_allocate total_size zeroed w;
      '(object, w) ← (match object with
                      | Some _ => Ok (object, w)
                      | None => w ← collect_impl w; storage_allocate total_size zeroed w
                      end);
      match object with
      | None => out_of_memory "managed allocation failed"
      | Some object =>
          '(h, heap) ← current_state w;
          ob ← load_object (w_memory w) object;
          let m := store_object object (mk_object type (ob_runtime_word ob) (ob_payload ob)) (w_memory w) in
          let heap := set_counts (u64 (rs_object_count heap + 1)) (u64 (rs_byte_count heap + total_size))
                        (rs_collection_count heap) (rs_next_collection_bytes heap) heap in
          let w := store_state h heap (with_memory m w) in
          assert_consistent w;;
          Ok (object, w)
      end.

Definition neri_rt_v1_gc_alloc (type payload_size payload_alignment : N) (w : world) : result (N * world) :=
  allocate_managed type payload_size payload_alignment true w.

(** Writes the first payload word (the [length] of an array, the [byte_length] of a string). *)
Definition store_length (object value : N) (w : world) : result world :=
  ob ← load_object (w_memory w) object;
  assert_that (8 <=? length_N (ob_payload ob)) "payload prefix";;
  Ok (with_memory (store_object object
        (mk_object (ob_type ob) (ob_runtime_word ob) (write_word (ob_payload ob) 0 value)) (w_memory w)) w).

Definition neri_rt_v1_array_alloc_uninitialized (type payload_size payload_alignment : N) (w : world)
    : result (N * world) :=
  (if type =? 0 then contract_panic "uninitialized arrays require reference-free elements"
   else
     d ← load "type descriptor" (descriptor type);
     if negb (td_kind d =? TYPE_KIND_ARRAY) || negb (N.land (td_flags d) TYPE_FLAG_CONTAINS_REFS =? 0) ||
        negb (td_trace d =? 0) then contract_panic "uninitialized arrays require reference-free elements"
     else Ok tt);;
  '(array, w) ← allocate_managed type payload_size payload_alignment false w;
  w ← store_length array 0 w;
  Ok (array, w).

Definition neri_rt_v1_gc_collect (w : world) : result world := require_initialized w;; collect_impl w.
End allocation.

(** ** Root frames *)

Definition neri_rt_v1_gc_root_frame_enter (frame : N) (w : world) : result world :=
  require_initialized w;;
  if frame =? 0 then contract_panic "invalid GC root frame"
  else
    f ← load "root frame" (w_frames w !! frame);
    if (negb (fr_slot_count f =? 0) && (fr_slots f =? 0)) || negb (fr_previous f =? 0) ||
       negb (fr_runtime_cookie f =? 0) then contract_panic "invalid GC root frame"
    else
      '(h, heap) ← current_state w;
      let f := mk_frame (rs_root_frame heap) (fr_slots f) (fr_slot_count f) root_frame_cookie in
      Ok (store_state h (set_chains frame (rs_borrow heap) (rs_foreign_entry heap) heap)
            (with_frames <[frame := f]> w)).

Definition neri_rt_v1_gc_root_frame_leave (frame : N) (w : world) : result world :=
  require_initialized w;;
  '(h, heap) ← current_state w;
  if (frame =? 0) || negb (frame =? rs_root_frame heap) then
    contract_panic "GC root frames must leave in LIFO order"
  else
    f ← load "root frame" (w_frames w !! frame);
    if negb (fr_runtime_cookie f =? root_frame_cookie) then
      contract_panic "GC root frames must leave in LIFO order"
    else
      Ok (store_state h (set_chains (fr_previous f) (rs_borrow heap) (rs_foreign_entry heap) heap)
            (with_frames <[frame := mk_frame 0 (fr_slots f) (fr_slot_count f) 0]> w)).

(** ** References and borrows *)

Section references.
Context `{Program}.

Definition neri_rt_v1_gc_store_ref (owner slot value : N) (w : world) : result world :=
  require_initialized w;;
  allocation ← find_managed w owner;
  if bool_decide (allocation = None) || (slot =? 0) then contract_panic "invalid managed reference store"
  else
    payload ← payload_size (w_memory w) owner;
    let payload_begin := u64 (owner + sizeof_header) in
    let payload_end := u64 (payload_begin + payload) in
    if (payload <? 8) || (slot <? payload_begin) || (u64_sub payload_end 8 <? slot) || negb (slot mod 8 =? 0) then
      contract_panic "managed reference slot is outside the owner payload"
    else
      valid ← (if value =? 0 then Ok true
               else
                 readable ← find_readable w value;
                 match readable with
                 | Some _ => Ok true
                 | None => is_string_literal (w_memory w) value
                 end);
      if negb valid then contract_panic "managed reference value is not a live allocation"
      else m ← store_slot (w_memory w) owner slot value; Ok (with_memory m w).

Definition neri_rt_v1_gc_keep_alive (object : N) (w : world) : result unit :=
  require_initialized w;;
  valid ← (if object =? 0 then Ok true
           else
             readable ← find_readable w object;
             match readable with
             | Some _ => Ok true
             | None => is_string_literal (w_memory w) object
             end);
  if negb valid then contract_panic "gc.keep_alive requires a live managed reference" else Ok tt.
End references.

Definition neri_rt_v1_gc_borrow_begin (owner payload_offset byte_length borrow : N) (w : world)
    : result (N * world) :=
  require_initialized w;;
  allocation ← find_managed w owner;
  empty_token ← (if borrow =? 0 then Ok false
                 else
                   b ← load "borrow" (w_borrows w !! borrow);
                   Ok ((bw_previous b =? 0) && (bw_owner b =? 0) && (bw_byte_length b =? 0) && (bw_cookie b =? 0)));
  if bool_decide (allocation = None) || negb empty_token then contract_panic "invalid managed borrow"
  else
    payload ← payload_size (w_memory w) owner;
    if (payload <? payload_offset) || (payload - payload_offset <? byte_length) then
      contract_panic "invalid managed borrow"
    else
      '(h, heap) ← current_state w;
      Ok (u64 (owner + sizeof_header + payload_offset),
          store_state h (set_chains (rs_root_frame heap) borrow (rs_foreign_entry heap) heap)
            (with_borrows <[borrow := mk_borrow (rs_borrow heap) owner byte_length borrow_cookie]> w)).

Definition neri_rt_v1_gc_borrow_end (borrow : N) (w : world) : result world :=
  require_initialized w;;
  '(h, heap) ← current_state w;
  if (borrow =? 0) || negb (borrow =? rs_borrow heap) then
    contract_panic "managed borrows must end in LIFO order"
  else
    b ← load "borrow" (w_borrows w !! borrow);
    if negb (bw_cookie b =? borrow_cookie) then contract_panic "managed borrows must end in LIFO order"
    else
      Ok (store_state h (set_chains (rs_root_frame heap) (bw_previous b) (rs_foreign_entry heap) heap)
            (with_borrows <[borrow := mk_borrow 0 0 0 0]> w)).

(** [neri_gc_stats_v1], as filled. *)
Record gc_stats := mk_stats {
  gs_managed_object_count : N;
  gs_managed_byte_count : N;
  gs_collection_count : N;
  gs_native_byte_count : N;
}.

Definition neri_rt_v1_gc_get_stats (struct_size : option N) (w : world) : result gc_stats :=
  require_initialized w;;
  match struct_size with
  | Some n => when (n <? 40) (panic PANIC_RUNTIME_CONTRACT "invalid GC stats destination")
  | None => contract_panic "invalid GC stats destination"
  end;;
  '(_, heap) ← current_state w;
  Ok (mk_stats (rs_object_count heap) (rs_byte_count heap) (rs_collection_count heap) (rs_native_byte_count heap)).

(** ** Native memory *)

Section native.
Context `{RuntimeHost}.

Fixpoint find_native_from (fuel : nat) (w : world) (allocation pointer : N) : result (option N) :=
  match fuel with
  | O => Throw (undefined "native list does not end")
  | S fuel =>
      if allocation =? 0 then Ok None
      else
        a ← load "native_allocation" (w_natives w !! allocation);
        if na_pointer a =? pointer then Ok (Some allocation) else find_native_from fuel w (na_next a) pointer
  end.

Definition find_native (w : world) (pointer : N) : result (option N) :=
  '(_, heap) ← current_state w;
  find_native_from (list_fuel (w_natives w)) w (rs_native_head heap) pointer.

(** [platform::allocate], then the node in front of the list; the storage is returned
    when the node or the accounting fails. *)
Definition allocate_native_memory (byte_count alignment : N) (zeroed : bool) (w : world) : result (N * world) :=
  if negb (is_power_of_two alignment) then
    contract_panic "native allocation alignment must be a non-zero power of two"
  else
    let requested_size := if byte_count =? 0 then 1 else byte_count in
    let pointer := native_allocate w requested_size alignment in
    if pointer =? 0 then out_of_memory "native allocation failed"
    else
      let contents := if zeroed then zeros requested_size else native_residue w pointer requested_size in
      '(h, heap) ← current_state w;
      let allocation := native_node w in
      if (allocation =? 0) || (u64_max - byte_count <? rs_native_byte_count heap) then
        out_of_memory "native allocation accounting failed"
      else
        natives ← (if rs_native_head heap =? 0 then Ok (w_natives w)
                   else
                     first ← load "native_allocation" (w_natives w !! rs_native_head heap);
                     Ok (<[rs_native_head heap := mk_native allocation (na_next first) (na_pointer first)
                            (na_byte_count first) (na_alignment first)]> (w_natives w)));
        let node := mk_native 0 (rs_native_head heap) pointer byte_count alignment in
        let heap := set_natives allocation (u64 (rs_native_byte_count heap + byte_count)) heap in
        let w := store_state h heap (with_natives (λ _, <[allocation := node]> natives) <[pointer := contents]> w) in
        assert_consistent w;;
        Ok (pointer, w).

(** [unlink_native]. *)
Definition unlink_native (allocation : N) (w : world) : result world :=
  '(h, heap) ← current_state w;
  a ← load "native_allocation" (w_natives w !! allocation);
  w ← (if negb (na_previous a =? 0) then
         p ← load "native_allocation" (w_natives w !! na_previous a);
         Ok (with_natives <[na_previous a := mk_native (na_previous p) (na_next a) (na_pointer p) (na_byte_count p)
                              (na_alignment p)]> id w)
       else Ok (store_state h (set_natives (na_next a) (rs_native_byte_count heap) heap) w));
  if negb (na_next a =? 0) then
    n ← load "native_allocation" (w_natives w !! na_next a);
    Ok (with_natives <[na_next a := mk_native (na_previous a) (na_next n) (na_pointer n) (na_byte_count n)
                         (na_alignment n)]> id w)
  else Ok w.

Definition neri_rt_v1_native_alloc (byte_count alignment : N) (w : world) : result (N * world) :=
  require_initialized w;; allocate_native_memory byte_count alignment false w.

Definition neri_rt_v1_native_alloc_zeroed (byte_count alignment : N) (w : world) : result (N * world) :=
  require_initialized w;; allocate_native_memory byte_count alignment true w.

Definition neri_rt_v1_native_free (pointer : N) (w : world) : result world :=
  require_initialized w;;
  if pointer =? 0 then Ok w
  else
    found ← find_native w pointer;
    match found with
    | None => contract_panic "native free requires a runtime-owned allocation"
    | Some allocation =>
        w ← unlink_native allocation w;
        '(h, heap) ← current_state w;
        a ← load "native_allocation" (w_natives w !! allocation);
        let heap := set_natives (rs_native_head heap) (u64_sub (rs_native_byte_count heap) (na_byte_count a)) heap in
        let w := store_state h heap (with_natives (delete allocation) (delete (na_pointer a)) w) in
        assert_consistent w;;
        Ok w
    end.

Definition neri_rt_v1_native_realloc (pointer byte_count alignment : N) (w : world) : result (N * world) :=
  require_initialized w;;
  if pointer =? 0 then allocate_native_memory byte_count alignment false w
  else
    found ← find_native w pointer;
    match found with
    | None => contract_panic "native realloc requires a runtime-owned allocation"
    | Some allocation =>
        a ← load "native_allocation" (w_natives w !! allocation);
        let old_byte_count := na_byte_count a in
        '(replacement, w) ← allocate_native_memory byte_count alignment false w;
        let copied := if old_byte_count <? byte_count then old_byte_count else byte_count in
        from ← load "native storage" (w_bytes w !! pointer);
        to ← load "native storage" (w_bytes w !! replacement);
        let bytes := take (N.to_nat copied) from ++ drop (N.to_nat copied) to in
        w ← neri_rt_v1_native_free pointer (with_natives id <[replacement := bytes]> w);
        Ok (replacement, w)
    end.

(** [release_native_allocations]. *)
Fixpoint release_natives (fuel : nat) (w : world) (head : N) : result world :=
  match fuel with
  | O => Throw (undefined "native list does not end")
  | S fuel =>
      if head =? 0 then Ok w
      else
        a ← load "native_allocation" (w_natives w !! head);
        release_natives fuel (with_natives (delete head) (delete (na_pointer a)) w) (na_next a)
  end.

Definition release_native_allocations (h : N) (w : world) : result world :=
  heap ← load_state w h;
  w ← release_natives (list_fuel (w_natives w)) w (rs_native_head heap);
  Ok (store_state h (set_natives 0 0 heap) w).
End native.

(** ** Releasing a context *)

(** [release_heap].  [neri_worker_close_owned] closes worker pools, which run on
    contexts of their own; the final [heap = {}] clears the storage and resets the rest. *)
Definition release_heap (w : world) : result world :=
  require_initialized w;;
  '(h, heap) ← current_state w;
  if negb (rs_root_frame heap =? 0) || negb (rs_borrow heap =? 0) || phase_is collecting heap ||
     negb (rs_foreign_entry heap =? 0) || negb (bool_decide (rs_persistent_roots heap = [])) then
    contract_panic "runtime shutdown requires no live roots, borrows or foreign entries"
  else
    w ← release_native_allocations h w;
    '(m, storage) ← clear (w_memory w) (rs_storage heap);
    '(m, _, _) ← adopt m storage empty_storage 0;
    Ok (store_state h empty_state (with_memory m w)).

Definition neri_rt_v1_shutdown `{RuntimeHost} (w : world) : result world :=
  '(_, heap) ← current_state w;
  if phase_is uninitialized heap then Ok w
  else
    w ← release_heap w;
    if flush_console w then Ok w else contract_panic "console flush failed during runtime shutdown".

Definition neri_rt_v1_set_process_arguments (argc : Z) (argv : N) (w : world) : result world :=
  require_initialized w;;
  if (argc <? 0)%Z || (negb (argc =? 0)%Z && (argv =? 0)) then contract_panic "invalid process argument vector"
  else
    '(h, heap) ← current_state w;
    Ok (store_state h (set_arguments (if (0 <? argc)%Z then argc - 1 else 0)%Z
                         (if (0 <? argc)%Z then argv + 8 else 0) heap) w).

(** ** Foreign entries *)

Fixpoint token_registered (fuel : nat) (w : world) (token entry : N) : result bool :=
  match fuel with
  | O => Throw (undefined "entry chain does not end")
  | S fuel =>
      if token =? 0 then Ok false
      else if token =? entry then Ok true
      else t ← load "foreign entry" (w_entries w !! token); token_registered fuel w (fe_previous t) entry
  end.

(** The loop over the context and its ancestors. *)
Fixpoint entry_active (fuel : nat) (w : world) (owner entry : N) : result bool :=
  match fuel with
  | O => Throw (undefined "parent chain does not end")
  | S fuel =>
      if owner =? 0 then Ok false
      else
        s ← load_state w owner;
        found ← token_registered (list_fuel (w_entries w)) w (rs_foreign_entry s) entry;
        if found : bool then Ok true else entry_active fuel w (rs_read_parent s) entry
  end.

Definition neri_rt_v1_foreign_enter (entry : N) (requirements : option abi_requirements) (w : world) : result world :=
  '(h, heap) ← current_state w;
  if (entry =? 0) || phase_is suspended heap || phase_is collecting heap then
    contract_panic "foreign entry requires a token and an active, non-collecting heap"
  else
    already ← entry_active (list_fuel (w_states w)) w h entry;
    if already : bool then contract_panic "foreign entry token is already active"
    else if negb (bool_decide (validate_requirements requirements = STATUS_OK)) then
      Throw (panic PANIC_ABI_MISMATCH "foreign entry runtime ABI negotiation failed")
    else
      let owns_heap := phase_is uninitialized heap in
      let token := mk_foreign (rs_foreign_entry heap) h (rs_root_frame heap) (rs_borrow heap)
                     (if owns_heap then 1 else 0) foreign_entry_cookie in
      let heap := set_chains (rs_root_frame heap) (rs_borrow heap) entry (set_phase active heap) in
      Ok (store_state h heap (with_entries <[entry := token]> w)).

Definition neri_rt_v1_foreign_leave (entry : N) (w : world) : result world :=
  require_initialized w;;
  '(h, heap) ← current_state w;
  if (entry =? 0) || negb (rs_foreign_entry heap =? entry) then
    contract_panic "foreign entries must leave their owning heap in LIFO order"
  else
    token ← load "foreign entry" (w_entries w !! entry);
    if negb (fe_heap token =? h) || negb (fe_cookie token =? foreign_entry_cookie) || phase_is collecting heap then
      contract_panic "foreign entries must leave their owning heap in LIFO order"
    else if negb (fe_roots token =? rs_root_frame heap) || negb (fe_borrows token =? rs_borrow heap) then
      contract_panic "foreign entry must restore its root and borrow chains"
    else
      let heap := set_chains (rs_root_frame heap) (rs_borrow heap) (fe_previous token) heap in
      let w := store_state h heap (with_entries <[entry := mk_foreign 0 0 0 0 0 0]> w) in
      if negb (fe_owns_heap token =? 0) then release_heap w else Ok w.

(** ** Allocation regions *)

Section regions.
Context `{RuntimeHost}.

(** The token is the address of the child context. *)
Definition neri_rt_v1_region_enter (w : world) : result (N * world) :=
  require_initialized w;;
  '(h, parent) ← current_state w;
  if negb (phase_is active parent) || w_tracing w then
    contract_panic "allocation regions require an active heap outside tracing"
  else
    let child := new_state w in
    if child =? 0 then out_of_memory "allocation region creation failed"
    else
      let state := set_arguments (rs_argument_count parent) (rs_arguments parent)
                     (set_parents h h (set_phase active empty_state)) in
      Ok (child, with_active child (store_state h (set_phase suspended parent) (store_state child state w))).

Definition neri_rt_v1_region_leave (region : N) (w : world) : result world :=
  require_initialized w;;
  '(child, heap) ← current_state w;
  let parent := rs_region_parent heap in
  if negb (region =? child) || (parent =? 0) then contract_panic "allocation regions must leave in LIFO order"
  else
    state ← load_state w parent;
    if negb (phase_is suspended state) then contract_panic "allocation regions must leave in LIFO order"
    else
      w ← release_heap w;
      state ← load_state w parent;
      Ok (with_states (delete child) (store_state parent (set_phase active state) (with_active parent w))).
End regions.
