(* ===== verification/Strings.v ===== *)
(** * Strings and arrays of the runtime ([native/runtime/runtime.cpp])

    The entry points that read and build managed strings and arrays.  A string is an
    object whose payload is its byte length, its bytes and a terminating zero; literals
    have the same shape but are the program's.  While a function allocates, the objects it
    still needs are held by a root frame on its own stack: where the stack is, is the
    host's choice.  Views are re-read after an allocation, as in the source. *)

From S2P Require Import Prelude Storage Heap Text RuntimeApi.

Local Open Scope string_scope.
Local Open Scope list_scope.
Local Open Scope N_scope.

(** ** Static data *)

Definition SCALAR_KIND_BYTE : N := 2.
Definition SCALAR_KIND_INT : N := 3.
Definition sizeof_descriptor : N := 112.

(** The descriptor at [dynamic_string_type]. *)
Definition dynamic_string_descriptor : type_descriptor :=
  mk_type_descriptor sizeof_descriptor ABI_MAJOR ABI_MINOR TYPE_KIND_STRING TYPE_FLAG_IMMUTABLE 8 8 0 0 0
    (Some "hk1_t_q1_n6_537472696e67") 0 0 0 SCALAR_KIND_NONE 0.

(** ** Bytes of objects *)

Definition read_payload (m : memory) (object offset length : N) : result (list byte) :=
  ob ← load_object m object;
  assert_that (offset + length <=? length_N (ob_payload ob)) "read outside the object";;
  Ok (take (N.to_nat length) (drop (N.to_nat offset) (ob_payload ob))).

Definition splice (payload : list byte) (offset : N) (bytes : list byte) : list byte :=
  take (N.to_nat offset) payload ++ bytes ++ drop (N.to_nat offset + length bytes) payload.

(** [memcpy] into an object. *)
Definition write_payload (object offset : N) (bytes : list byte) (w : world) : result world :=
  ob ← load_object (w_memory w) object;
  assert_that (offset + length_N bytes <=? length_N (ob_payload ob)) "write outside the object";;
  Ok (with_memory (store_object object
        (mk_object (ob_type ob) (ob_runtime_word ob) (splice (ob_payload ob) offset bytes)) (w_memory w)) w).

(** The first payload word: [byte_length] of a string, [length] of an array. *)
Definition read_prefix (m : memory) (object : N) : result N :=
  ob ← load_object m object;
  assert_that (8 <=? length_N (ob_payload ob)) "payload prefix";;
  Ok (read_word (ob_payload ob) 0).

(** Where the bytes of a new string come from: native storage, or the payload of an object. *)
Inductive byte_source :=
| native_source (bytes : list byte)
| object_source (object offset length : N).

Definition source_size (s : byte_source) : N :=
  match s with native_source bytes => length_N bytes | object_source _ _ length => length end.

Definition source_bytes (m : memory) (s : byte_source) : result (list byte) :=
  match s with native_source bytes => Ok bytes | object_source object offset length => read_payload m object offset length end.

(** [string_view]: the bytes start behind the prefix of the object. *)
Record string_view := mk_view { sv_object : N; sv_byte_length : N }.
Definition view_source (v : string_view) : byte_source := object_source (sv_object v) 8 (sv_byte_length v).

(** Automatic storage: where a call's root frame and its array of roots are. *)
Class LocalStorage := {
  local_frame : world → N;
  local_slots : world → N → N;
}.

Section strings.
Context `{Program} `{RuntimeHost} `{HostMemory} `{LocalStorage}.

Definition inspect_string (w : world) (value : N) : result string_view :=
  if value =? 0 then contract_panic "string operation received null"
  else
    literal ← is_string_literal (w_memory w) value;
    if literal : bool then
      byte_length ← read_prefix (w_memory w) value;
      terminator ← read_payload (w_memory w) value (8 + byte_length) 1;
      if negb (bool_decide (terminator = [x00])) then contract_panic "invalid static string object"
      else Ok (mk_view value byte_length)
    else
      allocation ← find_readable w value;
      match allocation with
      | None => contract_panic "invalid managed string object"
      | Some _ =>
          ob ← load_object (w_memory w) value;
          if negb (ob_type ob =? dynamic_string_type) then contract_panic "invalid managed string object"
          else
            payload ← payload_size (w_memory w) value;
            if payload <? 8 + 1 then contract_panic "invalid managed string object"
            else
              byte_length ← read_prefix (w_memory w) value;
              if payload - 8 - 1 <? byte_length then contract_panic "invalid managed string object"
              else
                terminator ← read_payload (w_memory w) value (8 + byte_length) 1;
                if negb (bool_decide (terminator = [x00])) then contract_panic "managed string terminator is corrupt"
                else Ok (mk_view value byte_length)
      end.

Definition view_bytes (w : world) (v : string_view) : result (list byte) := source_bytes (w_memory w) (view_source v).

(** ** Building strings *)

Definition allocate_string (byte_length : N) (w : world) : result (N * world) :=
  if u64_max - 8 - 1 <? byte_length then out_of_memory "string payload size overflow"
  else
    '(object, w) ← neri_rt_v1_gc_alloc dynamic_string_type (8 + byte_length + 1) 8 w;
    w ← store_length object byte_length w;
    Ok (object, w).

Definition create_ascii_string (bytes : list byte) (w : world) : result (N * world) :=
  '(object, w) ← allocate_string (length_N bytes) w;
  w ← write_payload object 8 bytes w;
  Ok (object, w).

Definition create_utf8_string (source : byte_source) (w : world) : result (N * world) :=
  bytes ← source_bytes (w_memory w) source;
  valid ← is_strict_utf8 bytes;
  if negb valid then contract_panic "string creation requires valid UTF-8"
  else
    '(object, w) ← allocate_string (source_size source) w;
    bytes ← source_bytes (w_memory w) source;
    w ← (if source_size source =? 0 then Ok w else write_payload object 8 bytes w);
    Ok (object, w).

(** [neri_ref_v1 roots[n] = {...}; neri_gc_root_frame_v1 frame = {nullptr, roots, n, 0};
    neri_rt_v1_gc_root_frame_enter(&frame);] *)
Fixpoint store_roots (slot : N) (roots : list N) (w : world) : world :=
  match roots with
  | [] => w
  | r :: roots => store_roots (slot + 8) roots (with_words <[slot := r]> w)
  end.

Definition enter_roots (roots : list N) (w : world) : result (N * N * world) :=
  let slots := local_slots w (length_N roots) in
  let frame := local_frame w in
  let w := with_frames <[frame := mk_frame 0 slots (length_N roots) 0]> (store_roots slots roots w) in
  w ← neri_rt_v1_gc_root_frame_enter frame w;
  Ok (frame, slots, w).

Definition root_at (w : world) (slots index : N) : result N := load "root" (w_words w !! (slots + 8 * index)).

Definition neri_rt_v1_string_concat (left right : N) (w : world) : result (N * world) :=
  require_initialized w;;
  initial_left ← inspect_string w left;
  initial_right ← inspect_string w right;
  if u64_max - sv_byte_length initial_right <? sv_byte_length initial_left then
    out_of_memory "string concatenation length overflow"
  else
    let byte_length := sv_byte_length initial_left + sv_byte_length initial_right in
    '(frame, slots, w) ← enter_roots [left; right] w;
    '(object, w) ← allocate_string byte_length w;
    root_left ← root_at w slots 0;
    rooted_left ← inspect_string w root_left;
    root_right ← root_at w slots 1;
    rooted_right ← inspect_string w root_right;
    left_bytes ← view_bytes w rooted_left;
    w ← write_payload object 8 left_bytes w;
    right_bytes ← view_bytes w rooted_right;
    w ← write_payload object (8 + sv_byte_length rooted_left) right_bytes w;
    w ← neri_rt_v1_gc_root_frame_leave frame w;
    Ok (object, w).

Definition neri_rt_v1_string_equal (left right : N) (w : world) : result bool :=
  require_initialized w;;
  if left =? right then Ok true
  else if (left =? 0) || (right =? 0) then Ok false
  else
    left_view ← inspect_string w left;
    right_view ← inspect_string w right;
    if negb (sv_byte_length left_view =? sv_byte_length right_view) then Ok false
    else
      left_bytes ← view_bytes w left_view;
      right_bytes ← source_bytes (w_memory w) (object_source (sv_object right_view) 8 (sv_byte_length left_view));
      Ok (bool_decide (left_bytes = right_bytes)).

(** ** Numbers *)

Definition integer_string (value : Z) (w : world) : result (N * world) :=
  text ← integer_text value; create_ascii_string text w.

Definition neri_rt_v1_string_from_int (value : Z) (w : world) : result (N * world) :=
  require_initialized w;; integer_string value w.

Definition neri_rt_v1_string_from_byte (value : byte) (w : world) : result (N * world) :=
  require_initialized w;; integer_string (Z.of_N (Byte.to_N value)) w.

Definition neri_rt_v1_string_from_float `{FloatLibrary} (value : float) (w : world) : result (N * world) :=
  require_initialized w;;
  text ← float_string value;
  create_ascii_string text w.

(** What the parsers write to the caller's [destination]: [None] is [has_value = 0]. *)
Definition neri_rt_v1_host_parse_int (destination value : N) (w : world) : result (option Z) :=
  require_initialized w;;
  if destination =? 0 then contract_panic "parseInt requires a result destination" else
  inspected ← inspect_string w value;
  text ← view_bytes w inspected;
  Ok (parse_int_text text).

Definition neri_rt_v1_host_parse_float `{FloatLibrary} (destination value : N) (w : world) : result (option float) :=
  require_initialized w;;
  if destination =? 0 then contract_panic "parseFloat requires a result destination" else
  inspected ← inspect_string w value;
  text ← view_bytes w inspected;
  Ok (parse_float_text text).

(** ** Bytes of strings *)

Definition bounds_panic {A} (message : string) : result A := Throw (panic PANIC_BOUNDS message).

Definition neri_rt_v1_host_string_byte_length (value : N) (w : world) : result Z :=
  require_initialized w;;
  inspected ← inspect_string w value;
  if (int64_max <? Z.of_N (sv_byte_length inspected))%Z then
    contract_panic "string byte length is not representable as Int"
  else Ok (Z.of_N (sv_byte_length inspected)).

Definition neri_rt_v1_host_string_byte_at (value : N) (index : Z) (w : world) : result (list byte) :=
  require_initialized w;;
  inspected ← inspect_string w value;
  if (index <? 0)%Z || (sv_byte_length inspected <=? Z.to_N index) then
    bounds_panic "String byte index is out of bounds."
  else read_payload (w_memory w) (sv_object inspected) (8 + Z.to_N index) 1.

Definition neri_rt_v1_host_string_slice (value : N) (start length : Z) (w : world) : result (N * world) :=
  require_initialized w;;
  inspected ← inspect_string w value;
  if (start <? 0)%Z || (length <? 0)%Z || (sv_byte_length inspected <? Z.to_N start) ||
     (sv_byte_length inspected - Z.to_N start <? Z.to_N length) then
    bounds_panic "String byte slice is out of bounds."
  else
    bytes ← read_payload (w_memory w) (sv_object inspected) (8 + Z.to_N start) (Z.to_N length);
    valid ← is_strict_utf8 bytes;
    if negb valid then bounds_panic "String byte slice splits a UTF-8 scalar."
    else
      '(frame, slots, w) ← enter_roots [value] w;
      root ← root_at w slots 0;
      rooted ← inspect_string w root;
      '(object, w) ← create_utf8_string (object_source (sv_object rooted) (8 + Z.to_N start) (Z.to_N length)) w;
      w ← neri_rt_v1_gc_root_frame_leave frame w;
      Ok (object, w).
End strings.
