(* ===== verification/HostApi.v ===== *)
(** * Arrays, console, files and the process ([native/runtime/runtime.cpp])

    The entry points behind the standard library: appending to arrays, console input and
    output, text files, paths, the environment and child processes.  What the operating
    system answers is a parameter ([HostSystem]); the checks on what goes in and out, the
    error message of the context and the strings handed to the program are modelled. *)

From S2P Require Import Prelude Storage Heap Text RuntimeApi Strings.

Local Open Scope string_scope.
Local Open Scope list_scope.
Local Open Scope N_scope.

(** ** Arrays *)

(** [array_view]: the elements start behind the descriptor's payload. *)
Record array_view := mk_array_view {
  av_object : N;
  av_type : N;
  av_descriptor : type_descriptor;
  av_length : N;
}.

Definition int64_max_N : N := 9223372036854775807.

Section arrays.
Context `{Program} `{RuntimeHost} `{HostMemory} `{LocalStorage}.

Definition inspect_array (w : world) (value : N) : result array_view :=
  require_initialized w;;
  allocation ← find_readable w value;
  if value =? 0 then contract_panic "array operation received an invalid array"
  else
    match allocation with
    | None => contract_panic "array operation received an invalid array"
    | Some _ =>
        ob ← load_object (w_memory w) value;
        if ob_type ob =? 0 then contract_panic "array operation received an invalid array"
        else
          type ← load "type descriptor" (descriptor (ob_type ob));
          if negb (td_kind type =? TYPE_KIND_ARRAY) || (td_element_size type =? 0) || (td_payload_size type <? 8) then
            contract_panic "array operation received an invalid array"
          else
            length ← read_prefix (w_memory w) value;
            if (int64_max_N <? length) || ((u64_max - td_payload_size type) / td_element_size type <? length) then
              contract_panic "array length is corrupt"
            else
              let required := td_payload_size type + length * td_element_size type in
              payload ← payload_size (w_memory w) value;
              if payload <? required then contract_panic "array payload is corrupt"
              else Ok (mk_array_view value (ob_type ob) type length)
    end.

(** The value to append: the bytes of a scalar, or a reference. *)
Inductive appended :=
| append_bytes (bytes : list byte)
| append_ref (value : N).

Definition appended_root (value : appended) : N := match value with append_bytes _ => 0 | append_ref r => r end.

Definition append_array (values : N) (value : appended) (w : world) : result (N * world) :=
  initial ← inspect_array w values;
  let type := av_descriptor initial in
  if (av_length initial =? int64_max_N) ||
     ((u64_max - td_payload_size type) / td_element_size type <? av_length initial + 1) then
    out_of_memory "array append length overflow"
  else
    '(frame, slots, w) ← enter_roots [values; appended_root value] w;
    let payload_size := td_payload_size type + (av_length initial + 1) * td_element_size type in
    '(object, w) ← neri_rt_v1_gc_alloc (av_type initial) payload_size (td_payload_alignment type) w;
    root ← root_at w slots 0;
    rooted ← inspect_array w root;
    w ← store_length object (av_length rooted + 1) w;
    let destination := td_payload_size (av_descriptor rooted) in
    let existing_size := av_length rooted * td_element_size (av_descriptor rooted) in
    w ← (if existing_size =? 0 then Ok w
         else
           bytes ← read_payload (w_memory w) root destination existing_size;
           write_payload object destination bytes w);
    w ← (match value with
         | append_ref _ =>
             r ← root_at w slots 1;
             neri_rt_v1_gc_store_ref object (object + sizeof_header + destination + existing_size) r w
         | append_bytes bytes =>
             assert_that (td_element_size (av_descriptor rooted) <=? length_N bytes) "element value";;
             write_payload object (destination + existing_size)
               (take (N.to_nat (td_element_size (av_descriptor rooted))) bytes) w
         end);
    w ← neri_rt_v1_gc_root_frame_leave frame w;
    Ok (object, w).

(** [element_type != nullptr && element_type->scalar_kind == kind && element_size == size]. *)
Definition scalar_elements (type : type_descriptor) (kind size : N) : result bool :=
  if td_element_type type =? 0 then Ok false
  else
    element ← load "type descriptor" (descriptor (td_element_type type));
    Ok ((td_scalar_kind element =? kind) && (td_element_size type =? size)).

Definition string_elements (type : type_descriptor) : result bool :=
  if td_element_type type =? 0 then Ok false
  else
    element ← load "type descriptor" (descriptor (td_element_type type));
    Ok ((td_kind element =? TYPE_KIND_STRING) && (td_element_size type =? 8)).

Definition neri_rt_v1_host_append_byte (values : N) (value : byte) (w : world) : result (N * world) :=
  inspected ← inspect_array w values;
  valid ← scalar_elements (av_descriptor inspected) SCALAR_KIND_BYTE 1;
  if negb valid then contract_panic "appendByte requires Byte[]" else append_array values (append_bytes [value]) w.

Definition neri_rt_v1_host_append_int (values : N) (value : Z) (w : world) : result (N * world) :=
  inspected ← inspect_array w values;
  valid ← scalar_elements (av_descriptor inspected) SCALAR_KIND_INT 8;
  if negb valid then contract_panic "appendInt requires Int[]"
  else append_array values (append_bytes (le_split 8 (Z.to_N (value mod 2 ^ 64)))) w.

Definition neri_rt_v1_host_append_string (values value : N) (w : world) : result (N * world) :=
  inspected ← inspect_array w values;
  inspect_string w value;;
  valid ← string_elements (av_descriptor inspected);
  if negb valid then contract_panic "appendString requires String[]" else append_array values (append_ref value) w.

(** ** The error message of the context *)

Definition set_error (message : string) (w : world) : result world :=
  '(h, heap) ← current_state w; Ok (store_state h (set_host_error message heap) w).

Definition text_of (bytes : list byte) : string := string_of_list_byte bytes.

Definition neri_rt_v1_host_string_from_bytes (bytes : N) (w : world) : result (N * world) :=
  require_initialized w;;
  initial ← inspect_array w bytes;
  valid ← scalar_elements (av_descriptor initial) SCALAR_KIND_BYTE 1;
  if negb valid then contract_panic "stringFromBytes requires Byte[]"
  else
    contents ← read_payload (w_memory w) (av_object initial) (td_payload_size (av_descriptor initial)) (av_length initial);
    utf8 ← is_strict_utf8 contents;
    if negb utf8 then w ← set_error "Byte array is not valid UTF-8." w; Ok (0, w)
    else
      '(frame, slots, w) ← enter_roots [bytes] w;
      root ← root_at w slots 0;
      rooted ← inspect_array w root;
      '(object, w) ← create_utf8_string
                       (object_source (av_object rooted) (td_payload_size (av_descriptor rooted)) (av_length rooted)) w;
      w ← neri_rt_v1_gc_root_frame_leave frame w;
      w ← set_error "" w;
      Ok (object, w).

Definition neri_rt_v1_host_error_message (w : world) : result (N * world) :=
  require_initialized w;;
  '(_, heap) ← current_state w;
  create_utf8_string (native_source (list_byte_of_string (rs_host_error heap))) w.

(** [host_string]: the bytes for the operating system, or nothing and an error. *)
Definition string_has_nul (bytes : list byte) : bool := existsb (Byte.eqb x00) bytes.

Definition host_string (value : N) (description : string) (w : world) : result (option (list byte) * world) :=
  inspected ← inspect_string w value;
  bytes ← view_bytes w inspected;
  if string_has_nul bytes then w ← set_error (description +:+ " contains a null byte.") w; Ok (None, w)
  else Ok (Some bytes, w).

(** Text that came from outside: a string, or nothing and an error. *)
Definition host_text (bytes : list byte) (message : string) (w : world) : result (N * world) :=
  utf8 ← is_strict_utf8 bytes;
  if negb utf8 then w ← set_error message w; Ok (0, w)
  else
    w ← set_error "" w;
    create_utf8_string (native_source bytes) w.
End arrays.

(** ** The operating system *)

(** Opening a file for reading: refused, or its size ([tellg] at the end) and what reading
    that many bytes gives. *)
Inductive file_answer :=
| open_failed
| opened (size : Z) (contents : option (list byte)).

Class HostSystem := {
  stdout_accepts : world → list byte → bool;
  stderr_accepts : world → list byte → bool;
  open_file : world → list byte → file_answer;
  write_atomic : world → list byte → list byte → bool * string;
  remove_file : world → list byte → bool * string;
  absolute_path : world → list byte → string + list byte;
  canonical_path : world → list byte → option (list byte);
  executable_path : world → option (list byte);
  process_argument : world → N → Z → list byte;
  environment : world → list byte → option (list byte);
  run_process : world → list (list byte) → option Z * string;
}.

Section host.
Context `{Program} `{RuntimeHost} `{HostMemory} `{LocalStorage} `{HostSystem}.

(** ** Console *)

(** The bytes written. *)
Definition write_console (accepts : world → list byte → bool) (value : N) (append_newline : bool) (failure : string)
    (w : world) : result (list byte) :=
  require_initialized w;;
  text ← inspect_string w value;
  bytes ← view_bytes w text;
  let line := bytes ++ (if append_newline then [x0a] else []) in
  if accepts w line then Ok line else contract_panic failure.

Definition neri_rt_v1_stdout_write (value : N) (w : world) : result (list byte) :=
  write_console stdout_accepts value false "standard output write failed" w.
Definition neri_rt_v1_stdout_write_line (value : N) (w : world) : result (list byte) :=
  write_console stdout_accepts value true "standard output write failed" w.
Definition neri_rt_v1_stderr_write (value : N) (w : world) : result (list byte) :=
  write_console stderr_accepts value false "standard error write failed" w.

Definition neri_rt_v1_stderr_write_bytes (bytes : option (list byte)) (length : Z) (w : world) : Z :=
  match bytes with
  | None => -1
  | Some bytes =>
      if (length <? 0)%Z then -1
      else if stderr_accepts w (take (Z.to_nat length) bytes) then 0 else -1
  end%Z.

(** The bytes up to the next newline or the end of the input, what is left of the input,
    and whether the end was reached. *)
Fixpoint read_line (input : list byte) : list byte * list byte * bool :=
  match input with
  | [] => ([], [], true)
  | b :: rest =>
      if Byte.eqb b x0a then ([], rest, false)
      else let '(line, rest, eof) := read_line rest in (b :: line, rest, eof)
  end.

Definition drop_return (bytes : list byte) : list byte :=
  match last bytes with
  | Some b => if Byte.eqb b x0d then take (length bytes - 1) bytes else bytes
  | None => bytes
  end.

(** [input] is what standard input still holds, [broken] that it ends in an error. *)
Definition read_console_line (distinguish_eof : bool) (input : list byte) (broken : bool) (w : world)
    : result (N * list byte * world) :=
  require_initialized w;;
  let '(bytes, rest, reached_eof) := read_line input in
  if reached_eof && broken then contract_panic "standard input read failed"
  else
    let bytes := drop_return bytes in
    utf8 ← is_strict_utf8 bytes;
    if negb utf8 then contract_panic "standard input is not valid UTF-8"
    else if distinguish_eof && reached_eof && bool_decide (bytes = []) then Ok (0, rest, w)
    else
      '(object, w) ← create_ascii_string bytes w;
      Ok (object, rest, w).

Definition neri_rt_v1_stdin_read_line : list byte → bool → world → result (N * list byte * world) := read_console_line false.
Definition neri_rt_v1_stdin_read_line_optional : list byte → bool → world → result (N * list byte * world) :=
  read_console_line true.

(** ** Files *)

Definition maximum_file_size : Z := 128 * 1024 * 1024.

Definition neri_rt_v1_host_read_text (path : N) (w : world) : result (N * world) :=
  require_initialized w;;
  '(native_path, w) ← host_string path "Path" w;
  match native_path with
  | None => Ok (0, w)
  | Some native_path =>
      match open_file w native_path with
      | open_failed => w ← set_error ("File open failed: " +:+ text_of native_path) w; Ok (0, w)
      | opened size contents =>
          if (size <? 0)%Z || (maximum_file_size <? size)%Z then
            w ← set_error "File is larger than the 128 MiB host limit." w; Ok (0, w)
          else
            match (if (size =? 0)%Z then Some [] else contents) with
            | None => w ← set_error ("File read failed: " +:+ text_of native_path) w; Ok (0, w)
            | Some bytes => host_text bytes ("File is not valid UTF-8: " +:+ text_of native_path) w
            end
      end
  end.

(** What [write_atomic] and [remove_file] leave in the error message is the platform's. *)
Definition neri_rt_v1_host_write_text (path contents : N) (w : world) : result (bool * world) :=
  require_initialized w;;
  '(native_path, w) ← host_string path "Path" w;
  match native_path with
  | None => Ok (false, w)
  | Some native_path =>
      text ← inspect_string w contents;
      bytes ← view_bytes w text;
      let '(written, message) := write_atomic w native_path bytes in
      w ← set_error message w;
      Ok (written, w)
  end.

Definition neri_rt_v1_host_write_bytes (path contents : N) (w : world) : result (bool * world) :=
  require_initialized w;;
  '(native_path, w) ← host_string path "Path" w;
  match native_path with
  | None => Ok (false, w)
  | Some native_path =>
      array ← inspect_array w contents;
      valid ← scalar_elements (av_descriptor array) SCALAR_KIND_BYTE 1;
      if negb valid then contract_panic "writeBytes requires Byte[]"
      else
        bytes ← read_payload (w_memory w) (av_object array) (td_payload_size (av_descriptor array)) (av_length array);
        let '(written, message) := write_atomic w native_path bytes in
        w ← set_error message w;
        Ok (written, w)
  end.

Definition neri_rt_v1_host_remove_file (path : N) (w : world) : result (bool * world) :=
  require_initialized w;;
  '(native_path, w) ← host_string path "Path" w;
  match native_path with
  | None => Ok (false, w)
  | Some native_path =>
      let '(removed, message) := remove_file w native_path in
      w ← set_error message w;
      Ok (removed, w)
  end.

(** ** Paths *)

(** [std::filesystem::path] on POSIX: [operator/] and [filename]. *)
Definition join_path (left right : list byte) : list byte :=
  if bool_decide (head right = Some x2f) then right
  else if bool_decide (last left = None) || bool_decide (last left = Some x2f) then left ++ right
  else left ++ x2f :: right.

Fixpoint file_name (path : list byte) : list byte :=
  match path with
  | [] => []
  | b :: rest => if existsb (Byte.eqb x2f) path then file_name rest else path
  end.

Definition neri_rt_v1_host_path_join (left right : N) (w : world) : result (N * world) :=
  require_initialized w;;
  '(left_path, w) ← host_string left "Path" w;
  match left_path with
  | None => Ok (0, w)
  | Some left_path =>
      '(right_path, w) ← host_string right "Path" w;
      match right_path with
      | None => Ok (0, w)
      | Some right_path => host_text (join_path left_path right_path) "Joined path is not valid UTF-8." w
      end
  end.

Definition neri_rt_v1_host_path_absolute (path : N) (w : world) : result (N * world) :=
  require_initialized w;;
  '(native_path, w) ← host_string path "Path" w;
  match native_path with
  | None => Ok (0, w)
  | Some native_path =>
      match absolute_path w native_path with
      | inl error => w ← set_error ("Absolute path resolution failed: " +:+ error) w; Ok (0, w)
      | inr normalized =>
          w ← set_error "" w;
          create_utf8_string (native_source normalized) w
      end
  end.

Definition neri_rt_v1_host_path_file_name (path : N) (w : world) : result (N * world) :=
  require_initialized w;;
  '(native_path, w) ← host_string path "Path" w;
  match native_path with
  | None => Ok (0, w)
  | Some native_path => host_text (file_name native_path) "Path file name is not valid UTF-8." w
  end.

(** The length of a path, and the bytes written to the caller's buffer if it is longer. *)
Definition fill_buffer (text : list byte) (capacity : Z) : Z * option (list byte) :=
  let length := Z.of_nat (length text) in
  if (capacity <=? length)%Z then (length, None) else (length, Some (text ++ [x00])).

(** [path] and [output] are null or not; [path] is the C string the caller passed. *)
Definition neri_rt_v1_host_canonical_path (path : option (list byte)) (output : bool) (capacity : Z) (w : world)
    : result (Z * option (list byte)) :=
  require_initialized w;;
  match path with
  | None => Ok ((-1)%Z, None)
  | Some path =>
      if (capacity <? 0)%Z || ((0 <? capacity)%Z && negb output) then Ok ((-1)%Z, None)
      else
        match canonical_path w path with
        | None | Some [] => Ok ((-1)%Z, None)
        | Some text =>
            utf8 ← is_strict_utf8 text;
            if negb utf8 || (int64_max <? Z.of_nat (length text))%Z then Ok ((-1)%Z, None)
            else Ok (fill_buffer text capacity)
        end
  end.

Definition neri_rt_v1_host_executable_path (output : bool) (capacity : Z) (w : world) : result (Z * option (list byte)) :=
  require_initialized w;;
  if (capacity <? 0)%Z || ((0 <? capacity)%Z && negb output) then Ok ((-1)%Z, None)
  else
    match executable_path w with
    | None => Ok ((-1)%Z, None)
    | Some path =>
        utf8 ← is_strict_utf8 path;
        if negb utf8 then Ok ((-1)%Z, None) else Ok (fill_buffer path capacity)
    end.

(** ** The process *)

Definition neri_rt_v1_host_argument_count (w : world) : result Z :=
  require_initialized w;; '(_, heap) ← current_state w; Ok (rs_argument_count heap).

Definition neri_rt_v1_host_argument_at (index : Z) (w : world) : result (N * world) :=
  require_initialized w;;
  '(_, heap) ← current_state w;
  if (index <? 0)%Z || (rs_argument_count heap <=? index)%Z then w ← set_error "" w; Ok (0, w)
  else host_text (process_argument w (rs_arguments heap) index) "Process argument is not valid UTF-8." w.

Definition neri_rt_v1_host_environment (name : N) (w : world) : result (N * world) :=
  require_initialized w;;
  '(native_name, w) ← host_string name "Environment variable name" w;
  match native_name with
  | None => Ok (0, w)
  | Some native_name =>
      match environment w native_name with
      | None => w ← set_error "" w; Ok (0, w)
      | Some value => host_text value "Environment variable is not valid UTF-8." w
      end
  end.

(** The loop over the references in the argument array. *)
Fixpoint host_arguments (array : N) (offsets : list N) (storage : list (list byte)) (w : world)
    : result (option (list (list byte)) * world) :=
  match offsets with
  | [] => Ok (Some storage, w)
  | offset :: offsets =>
      item ← load_slot (w_memory w) array (array + sizeof_header + offset);
      '(argument, w) ← host_string item "Process argument" w;
      match argument with
      | None => Ok (None, w)
      | Some argument => host_arguments array offsets (storage ++ [argument]) w
      end
  end.

(** What is written to the caller's [destination]: [None] is [has_value = 0]. *)
Definition neri_rt_v1_host_run (destination executable arguments : N) (w : world) : result (option Z * world) :=
  require_initialized w;;
  if destination =? 0 then contract_panic "run requires a result destination" else
  '(native_executable, w) ← host_string executable "Executable path" w;
  match native_executable with
  | None => Ok (None, w)
  | Some native_executable =>
      array ← inspect_array w arguments;
      valid ← string_elements (av_descriptor array);
      if negb valid || (int_max - 2 <? Z.of_N (av_length array))%Z then contract_panic "run requires String[] arguments"
      else
        '(storage, w) ← host_arguments (av_object array)
                          ((λ i, td_payload_size (av_descriptor array) + 8 * i) <$> indices (av_length array))
                          [native_executable] w;
        match storage with
        | None => Ok (None, w)
        | Some storage =>
            let '(status, message) := run_process w storage in
            w ← set_error message w;
            Ok (status, w)
        end
  end.

(** The status the process ends with. *)
Definition neri_rt_v1_host_exit (status : Z) (w : world) : result Z :=
  require_initialized w;;
  if (status <? 0)%Z || (125 <? status)%Z then contract_panic "exit status must be between 0 and 125" else Ok status.
End host.
