(* ===== verification/Payloads.v ===== *)
(** * Words in object payloads

    Reading and writing references in the payload of an object, what a trace callback
    must promise about the slots it reports, and the effect of replacing the contents
    of one object on the invariant of the runtime. *)

From S2P Require Import Prelude Chains Storage Slabs Memory StorageSafety Sweep.
From S2P Require Import Heap Marking Collector HeapInvariant RuntimeApi.

Local Open Scope list_scope.
Local Open Scope N_scope.

(** ** Words *)

Lemma length_write_word p offset v : offset + 8 ≤ length_N p → length_N (write_word p offset v) = length_N p.
Proof.
  intros Hlen. unfold length_N, write_word in *. rewrite !length_app, length_take, length_drop, length_le_split. lia.
Qed.

Lemma read_write_same p offset v :
  offset + 8 ≤ length_N p → v ≤ u64_max → read_word (write_word p offset v) offset = v.
Proof.
  intros Hlen Hv. unfold length_N in Hlen. unfold read_word, write_word.
  rewrite drop_app_length' by (rewrite length_take; lia).
  rewrite take_app_length' by (by rewrite length_le_split).
  apply le_combine_split. change (256 ^ N.of_nat 8) with (u64_max + 1). lia.
Qed.

Lemma read_write_other p offset offset' v :
  offset + 8 ≤ length_N p → offset' + 8 ≤ offset ∨ offset + 8 ≤ offset' →
  read_word (write_word p offset v) offset' = read_word p offset'.
Proof.
  intros Hlen Hap. unfold length_N in Hlen. unfold read_word. f_equal. apply list_eq. intros i.
  destruct (decide (i < 8)%nat) as [Hi|Hi]; [|by rewrite !lookup_take_ge by lia].
  rewrite !lookup_take_lt, !lookup_drop by lia. unfold write_word.
  destruct Hap as [Hap|Hap].
  - rewrite lookup_app_l by (rewrite length_take; lia). rewrite lookup_take_lt by lia. done.
  - rewrite lookup_app_r by (rewrite length_take; lia).
    rewrite lookup_app_r by (rewrite length_take, length_le_split; lia).
    rewrite lookup_drop, length_take, length_le_split. f_equal. lia.
Qed.

Lemma read_word_zeros n offset : read_word (zeros n) offset = 0.
Proof. unfold read_word, zeros. rewrite drop_replicate, take_replicate. apply le_combine_zeros. Qed.

(** ** Trace callbacks *)

Definition set_payload (ob : object) (payload : list byte) : object :=
  mk_object (ob_type ob) (ob_runtime_word ob) payload.

(** The payload is at least what the descriptor says, and an array's elements fit: in the
    payload, and in the address space. *)
Definition shaped (d : type_descriptor) (payload : list byte) : Prop :=
  td_payload_size d ≤ length_N payload ∧
  (td_kind d = TYPE_KIND_ARRAY →
     td_payload_size d + read_word payload 0 * td_element_size d ≤ length_N payload ∧
     sizeof_header + td_payload_size d + read_word payload 0 * td_element_size d ≤ u64_max).

(** New contents of the same size behind the same header word. *)
Lemma store_object_memory m o ob ob' :
  memory_ok m → m_objects m !! o = Some ob → ob_runtime_word ob' = ob_runtime_word ob →
  length_N (ob_payload ob') = length_N (ob_payload ob) → memory_ok (store_object o ob' m).
Proof.
  intros Hm Hob Hword Hlen. constructor.
  - apply (mem_slab _ Hm).
  - intros b s i bytes k Hb Hi. destruct (mem_small _ Hm _ _ _ _ _ Hb Hi) as (ob0 & Hob0 & H1 & H2). simpl.
    destruct (decide (object_at b s i = o)) as [Heq|Hne].
    + rewrite Heq in Hob0 |- *. rewrite Hob in Hob0. injection Hob0 as <-. exists ob'. rewrite lookup_insert_eq.
      split_and!; [done|congruence|congruence].
    + exists ob0. by rewrite lookup_insert_ne.
  - intros a g Ha. destruct (mem_large _ Hm _ _ Ha) as (H1 & H2 & H3 & ob0 & Hob0 & H4 & H5). split_and!; try done.
    simpl. destruct (decide (a + sizeof_large = o)) as [Heq|Hne].
    + rewrite Heq in Hob0 |- *. rewrite Hob in Hob0. injection Hob0 as <-. exists ob'. rewrite lookup_insert_eq.
      split_and!; [done|congruence|congruence].
    + exists ob0. by rewrite lookup_insert_ne.
  - apply (mem_apart _ Hm).
  - apply (mem_apart_large _ Hm).
Qed.

(** An object in use is not static data. *)
Lemma live_not_outside m h o bytes k : memory_ok m → live_object m h o bytes k → ¬ outside m o.
Proof.
  intros Hm Hl [Hs Hg]. revert Hs Hg. destruct Hl as [b s i bytes k Hb Hi|a g Ha]; intros Hs Hg; [|by apply (Hg a); [eexists|]].
  pose proof (mem_slab _ Hm _ _ Hb) as Hok. pose proof (slot_capacity _ _ Hok _ _ Hi) as Hcap.
  destruct (object_place _ _ Hok i Hcap) as (_ & _ & _ & Hbl & _).
  assert (inside b (object_at b s i) = true) as Hin by by apply inside_block; [eapply slab_aligned|].
  rewrite Hs in Hin; [done|by eexists].
Qed.

Lemma store_object_statics m h o bytes k ob :
  memory_ok m → live_object m h o bytes k → keeps_statics m (store_object o ob m).
Proof.
  intros Hm Hl o' ob0 Ho' Hob0. split; [done|]. simpl. rewrite lookup_insert_ne; [done|]. intros <-.
  by eapply live_not_outside.
Qed.

Section contract.
Context `{Program}.

(** Trace callbacks report aligned slots inside a payload of the descriptor's shape,
    and which slots they report does not depend on the references stored there. *)
Class LawfulTrace := {
  trace_inside : ∀ d o ob slot, descriptor (ob_type ob) = Some d → shaped d (ob_payload ob) →
    slot ∈ slots_of o ob → in_payload o ob slot = true;
  trace_aligned : ∀ o ob slot, slot ∈ slots_of o ob → slot_offset_of o slot mod 8 = 0;
  trace_stable : ∀ o ob slot v, (∀ slot', slot' ∈ slots_of o ob → in_payload o ob slot' = true) →
    slot ∈ slots_of o ob →
    slots_of o (set_payload ob (write_word (ob_payload ob) (slot_offset_of o slot) v)) = slots_of o ob;
}.

Lemma in_payload_spec o ob slot :
  in_payload o ob slot = true ↔
  o + sizeof_header ≤ slot ∧ slot_offset_of o slot + 8 ≤ length_N (ob_payload ob).
Proof. unfold in_payload, slot_offset_of. rewrite andb_true_iff, !N.leb_le. unfold sizeof_header. lia. Qed.

(** ** Replacing the payload of one object *)

Section replace.
Context (w : world) (hs : list N) (ly : layout) (h o : N) (ob ob' : object).
Context (Hw : world_ok w hs ly) (Hh : h ∈ hs) (Hlive : live_in (w_memory w) h o).
Context (Hob : m_objects (w_memory w) !! o = Some ob) (Hword : ob_runtime_word ob' = ob_runtime_word ob).
Context (Hlen : length_N (ob_payload ob') = length_N (ob_payload ob)).

Let m' := store_object o ob' (w_memory w).

Lemma replace_live h' o' bytes k : live_object m' h' o' bytes k ↔ live_object (w_memory w) h' o' bytes k.
Proof. apply live_store_object. Qed.

Lemma replace_memory : memory_ok m'.
Proof. by apply (store_object_memory _ _ ob); [apply (wd_memory _ _ _ Hw)|..]. Qed.

Lemma replace_statics : keeps_statics (w_memory w) m'.
Proof. destruct Hlive as (bytes & k & Hl). eapply store_object_statics; [apply (wd_memory _ _ _ Hw)|exact Hl]. Qed.

Lemma replace_unchanged xs : h ∉ xs → unchanged (w_memory w) m' xs.
Proof.
  intros Hx. constructor; [intros; apply replace_live| |intros x st _ Hst; by apply (storage_ok_ext (w_memory w))|apply replace_statics].
  intros x o' bytes k Hxx Hl. simpl. rewrite lookup_insert_ne; [done|]. intros <-.
  destruct Hlive as (bytes' & k' & Hl').
  destruct (live_unique _ (wd_memory _ _ _ Hw) _ _ _ _ _ _ _ Hl Hl') as (-> & _). done.
Qed.

Lemma replace_valid xs r : valid_ref (w_memory w) xs r → valid_ref m' xs r.
Proof.
  intros [->|[Hl|(x & Hx & bytes & k & Hl)]]; [by left|right; left; by eapply literal_keeps, Hl; apply replace_statics|].
  right. right. exists x. split; [done|]. exists bytes, k. by apply replace_live.
Qed.

(** In the active context, with references that are valid there. *)
Lemma replace_world anc heap :
  hs = h :: anc → w_states w !! h = Some heap → traceable o ob' →
  (∀ r, r ∈ refs_of o ob' → valid_ref (w_memory w) (h :: anc) r) →
  world_ok (with_memory m' w) hs ly.
Proof.
  intros Hhs Hheap Htr Hrefs. pose proof Hw as Hw'. rewrite Hhs in Hw' |- *. pose proof (wd_heaps _ _ _ Hw' [] _ _ _ eq_refl Hheap) as Hok.
  pose proof (wd_nodup _ _ _ Hw') as Hnd. apply NoDup_cons in Hnd as [Hha _].
  pose proof (wd_active _ _ _ Hw') as Hact. injection Hact as Hact.
  eapply world_ok_active; [exact Hw'|]. constructor; simpl.
  - apply replace_memory.
  - intros x o' bytes k Hl. apply (wd_unmarked _ _ _ Hw' x o' bytes). by apply replace_live.
  - apply (wd_owners _ _ _ Hw').
  - by rewrite insert_id.
  - done.
  - apply (wd_tracing _ _ _ Hw').
  - apply (wd_active_phase _ _ _ Hw'). by rewrite <-Hact.
  - by apply replace_unchanged.
  - intros x Hx. by apply chains_kept_refl.
  - assert (chains_kept w (with_memory m' w) ly ly h) as Hck by by apply chains_kept_refl.
    constructor; try done.
    + eapply (storage_ok_ext (w_memory w)); [done..|]. apply (hp_storage _ _ _ _ _ Hok).
    + intros calls [Hv1 Hv2]. apply (hp_account _ _ _ _ _ Hok). constructor; [done|]. intros o' bytes.
      rewrite Hv2. split; intros [k Hk]; exists k; by apply replace_live.
    + apply (hp_bytes _ _ _ _ _ Hok).
    + apply (hp_ancestry _ _ _ _ _ Hok).
    + apply (hp_region _ _ _ _ _ Hok).
    + eapply (chains_ok_kept w _ ly ly h heap); try done. apply (hp_chains _ _ _ _ _ Hok).
    + apply (hp_entries _ _ _ _ _ Hok).
    + apply (hp_entries_nodup _ _ _ _ _ Hok).
    + eapply (natives_ok_kept w _ ly ly h heap); try done. apply (hp_natives _ _ _ _ _ Hok).
    + intros r. rewrite (root_refs_kept w _ ly ly h heap heap) by done. intros Hr.
      apply replace_valid. by apply (hp_roots _ _ _ _ _ Hok).
    + intros o' (bytes & k & Hl). apply replace_live in Hl. simpl.
      destruct (decide (o' = o)) as [->|Hne].
      * exists ob'. simpl. rewrite lookup_insert_eq. split_and!; try done. intros r Hr. by apply replace_valid, Hrefs.
      * destruct (hp_closed _ _ _ _ _ Hok o') as (ob0 & Hob0 & Ht0 & Hr0); [by exists bytes, k|].
        exists ob0. simpl. rewrite lookup_insert_ne by done. split_and!; try done.
        intros r Hr. by apply replace_valid, Hr0.
    + apply (hp_uninitialized _ _ _ _ _ Hok).
    + apply (hp_owning _ _ _ _ _ Hok).
  - intros a x Ha Hx. apply (wd_frames _ _ _ Hw' h x); [set_solver|set_solver|by intros ->|done].
  - intros a x Ha Hx. apply (wd_borrows _ _ _ Hw' h x); [set_solver|set_solver|by intros ->|done].
  - intros a x Ha Hx. apply (wd_entries _ _ _ Hw' h x); [set_solver|set_solver|by intros ->|done].
  - intros a x Ha Hx. apply (wd_natives _ _ _ Hw' h x); [set_solver|set_solver|by intros ->|done].
  - apply (wd_native_storage _ _ _ Hw').
Qed.
End replace.
End contract.
