(* ===== verification/ApiSafety.v ===== *)
(** * Every entry point keeps the runtime's invariant

    From a good state, each operation ends in a good state or in a reported panic; it
    never touches storage it does not own.  The caller's side of the contract (token
    and frame storage exists, the slots of a new frame hold valid references) is a
    hypothesis of the operation that needs it. *)

From S2P Require Import Prelude Chains Storage Slabs Memory StorageSafety Sweep.
From S2P Require Import Heap Marking Collector HeapInvariant Collection RuntimeApi.
From S2P Require Import Payloads.

Local Open Scope string_scope.
Local Open Scope list_scope.
Local Open Scope N_scope.

(** ** Outcomes *)

(** [m] returns a value with [Q] or ends in a reported panic. *)
Definition safe {A} (m : result A) (Q : A → Prop) : Prop :=
  returns m Q ∨ ∃ code message, m = Throw (panic code message).

Lemma safe_Ok {A} (a : A) (Q : A → Prop) : Q a → safe (Ok a) Q.
Proof. left. by apply returns_Ok. Qed.

Lemma safe_panic {A} code message (Q : A → Prop) : safe (Throw (panic code message)) Q.
Proof. right. eauto. Qed.

Lemma safe_contract {A} message (Q : A → Prop) : safe (contract_panic message) Q.
Proof. apply safe_panic. Qed.

Lemma safe_memory {A} message (Q : A → Prop) : safe (out_of_memory message) Q.
Proof. apply safe_panic. Qed.

Lemma safe_contract_bind {A B} message (k : A → result B) Q : safe (contract_panic message ≫= k) Q.
Proof. apply safe_panic. Qed.

Lemma safe_weaken {A} (m : result A) (P Q : A → Prop) : safe m P → (∀ a, P a → Q a) → safe m Q.
Proof. intros [Hr|Hp] HPQ; [left; by eapply returns_weaken|by right]. Qed.

Lemma safe_bind {A B} (m : result A) (k : A → result B) P (Q : B → Prop) :
  safe m P → (∀ a, P a → safe (k a) Q) → safe (m ≫= k) Q.
Proof. intros [(a & -> & HP)|(c & s & ->)] Hk; [by apply Hk|]. right. by exists c, s. Qed.

Lemma safe_yields `{RuntimeHost} {A} (m : result A) Q : yields m Q → safe m Q.
Proof. intros [Hr|[-> _]]; [by left|apply safe_memory]. Qed.

(** A safe computation that returns. *)
Lemma safe_returns {A} (m : result A) Q : safe m Q → returns m (λ _, True) → returns m Q.
Proof. intros [Hr|(c & s & ->)] (a & Ha & _); [done|discriminate Ha]. Qed.

(** The same with the codes that [P] allows. *)
Definition ends (P : N → Prop) {A} (m : result A) (Q : A → Prop) : Prop :=
  returns m Q ∨ ∃ code message, P code ∧ m = Throw (panic code message).

Lemma ends_Ok P {A} (a : A) (Q : A → Prop) : Q a → ends P (Ok a) Q.
Proof. left. by apply returns_Ok. Qed.

Lemma ends_panic (P : N → Prop) {A} code message (Q : A → Prop) : P code → ends P (Throw (panic code message)) Q.
Proof. right. by exists code, message. Qed.

Lemma ends_bind (P : N → Prop) {A B} (m : result A) (k : A → result B) R (Q : B → Prop) :
  ends P m R → (∀ a, R a → ends P (k a) Q) → ends P (m ≫= k) Q.
Proof. intros [(a & -> & HR)|(c & s & Hc & ->)] Hk; [by apply Hk|]. right. by exists c, s. Qed.

Lemma ends_weaken (P P' : N → Prop) {A} (m : result A) (Q Q' : A → Prop) :
  ends P m Q → (∀ code, P code → P' code) → (∀ a, Q a → Q' a) → ends P' m Q'.
Proof.
  intros [Hr|(c & s & Hc & ->)] HP HQ; [left; by eapply returns_weaken|]. right. exists c, s. split; [by apply HP|done].
Qed.

Lemma ends_safe P {A} (m : result A) Q : ends P m Q → safe m Q.
Proof. intros [Hr|(c & s & _ & ->)]; [by left|apply safe_panic]. Qed.

Lemma ends_yields `{RuntimeHost} (P : N → Prop) {A} (m : result A) Q : P PANIC_OUT_OF_MEMORY → yields m Q → ends P m Q.
Proof. intros HP [Hr|[-> _]]; [by left|]. right. by eexists _, _. Qed.

Create HintDb safe_db.
#[export] Hint Resolve safe_contract safe_memory safe_panic : safe_db.

(** Splits on the guards of an operation. *)
Ltac split_guard :=
  match goal with
  | |- safe (if ?b then _ else _) _ => destruct b eqn:?
  end.

(** The lists of the other contexts are not the active one's. *)
Lemma active_apart ly h anc x a (f : layout → N → list N) :
  apart_lists (f ly) (h :: anc) → h ∉ anc → x ∈ anc → a ∈ f ly h → a ∉ f ly x.
Proof. intros Hap Hh Hx Ha. apply (Hap h x); [set_solver|set_solver| |done]. by intros ->. Qed.

Ltac keep_apart Hw :=
  let a := fresh "a" in let x := fresh "x" in let Ha := fresh "Ha" in let Hx := fresh "Hx" in
  intros a x Ha Hx;
  match goal with
  | |- a ∉ ly_frames ?ly x => eapply (active_apart ly _ _ x a ly_frames); [apply (wd_frames _ _ _ Hw)|done..]
  | |- a ∉ ly_borrows ?ly x => eapply (active_apart ly _ _ x a ly_borrows); [apply (wd_borrows _ _ _ Hw)|done..]
  | |- a ∉ ly_entries ?ly x => eapply (active_apart ly _ _ x a ly_entries); [apply (wd_entries _ _ _ Hw)|done..]
  | |- a ∉ ly_natives ?ly x => eapply (active_apart ly _ _ x a ly_natives); [apply (wd_natives _ _ _ Hw)|done..]
  end.

Section safety.
Context `{Program}.

(** ** The active context *)

Lemma require_initialized_ends w hs ly heap :
  world_ok w hs ly → w_states w !! w_active w = Some heap →
  ends (λ code, code = PANIC_RUNTIME_CONTRACT ∧ rs_phase heap ≠ active) (require_initialized w) (λ _, rs_phase heap = active).
Proof.
  intros Hw Hheap. unfold require_initialized, current_state, load_state. rewrite Hheap, load_Some. simpl.
  unfold phase_is. destruct (wd_active_phase _ _ _ Hw heap Hheap) as [Hp|Hp]; rewrite Hp; simpl.
  - by apply ends_Ok.
  - by apply ends_panic.
Qed.

Lemma require_initialized_ok w hs ly heap :
  world_ok w hs ly → w_states w !! w_active w = Some heap →
  safe (require_initialized w) (λ _, rs_phase heap = active).
Proof. intros Hw Hheap. eapply ends_safe. by eapply require_initialized_ends. Qed.

(** Operations that leave the managed memory alone. *)
Lemma world_ok_update w w' ly ly' h anc heap heap' :
  world_ok w (h :: anc) ly → w_states w !! h = Some heap →
  w_memory w' = w_memory w → w_states w' = <[h := heap']> (w_states w) →
  w_active w' = w_active w → w_tracing w' = w_tracing w →
  rs_phase heap' = active ∨ rs_phase heap' = uninitialized ∧ rs_phase heap = uninitialized →
  rs_storage heap' = rs_storage heap → rs_object_count heap' = rs_object_count heap →
  rs_byte_count heap' = rs_byte_count heap → rs_read_parent heap' = rs_read_parent heap →
  rs_region_parent heap' = rs_region_parent heap →
  (∀ x, x ∈ anc → chains_kept w w' ly ly' x) →
  chains_ok w' heap' (ly_frames ly' h) (ly_borrows ly' h) →
  chain (entry_previous w') (rs_foreign_entry heap') (ly_entries ly' h) → NoDup (ly_entries ly' h) →
  (∀ t token, t ∈ ly_entries ly' h → w_entries w' !! t = Some token → fe_owns_heap token ≠ 0 → anc = []) →
  natives_ok w' heap' (ly_natives ly' h) →
  (∀ r, r ∈ root_refs w' heap' (ly_frames ly' h) (ly_borrows ly' h) → valid_ref (w_memory w) (h :: anc) r) →
  (∀ a x, a ∈ ly_frames ly' h → x ∈ anc → a ∉ ly_frames ly x) →
  (∀ a x, a ∈ ly_borrows ly' h → x ∈ anc → a ∉ ly_borrows ly x) →
  (∀ a x, a ∈ ly_entries ly' h → x ∈ anc → a ∉ ly_entries ly x) →
  (∀ a x, a ∈ ly_natives ly' h → x ∈ anc → a ∉ ly_natives ly x) →
  native_storage (w_natives w') (w_bytes w') →
  world_ok w' (h :: anc) ly'.
Proof.
  intros Hw Hheap Hmem Hst Hact Htr Hph E1 E2 E3 E4 E5 Hck Hch Hent Hnd Hownt Hnat Hroots D1 D2 D3 D4 D5.
  pose proof (wd_heaps _ _ _ Hw [] _ _ _ eq_refl Hheap) as Hok.
  pose proof (wd_nodup _ _ _ Hw) as Hnd'. apply NoDup_cons in Hnd' as [Hh _].
  eapply world_ok_active; [exact Hw|]. constructor; try done; rewrite ?Hmem.
  - by eapply wd_memory.
  - apply (wd_unmarked _ _ _ Hw).
  - apply (wd_owners _ _ _ Hw).
  - rewrite Htr. by eapply wd_tracing.
  - destruct Hph as [?|[? _]]; [by left|by right].
  - apply unchanged_refl.
  - constructor; try done; rewrite ?Hmem, ?E1, ?E4, ?E5.
    + apply (hp_storage _ _ _ _ _ Hok).
    + intros calls Hv. rewrite E2, E3. by apply (hp_account _ _ _ _ _ Hok).
    + rewrite E3. apply (hp_bytes _ _ _ _ _ Hok).
    + eapply ancestry_ext; [|apply (hp_ancestry _ _ _ _ _ Hok)]. intros a Ha. rewrite Hst, lookup_insert_ne; [done|].
      by intros ->.
    + apply (hp_region _ _ _ _ _ Hok).
    + exact Hroots.
    + apply (hp_closed _ _ _ _ _ Hok).
    + intros Hu. apply (hp_uninitialized _ _ _ _ _ Hok). destruct Hph as [Hph|[_ ?]]; congruence.
Qed.

Lemma in_frames_cookie w hs ly h a :
  world_ok w hs ly → h ∈ hs → a ∈ ly_frames ly h →
  ∃ f, w_frames w !! a = Some f ∧ fr_runtime_cookie f = root_frame_cookie.
Proof.
  intros Hw Hh Ha. apply list_elem_of_split in Hh as (pre & anc & ->).
  assert (is_Some (w_states w !! h)) as [heap Hheap] by (apply (wd_states _ _ _ Hw); set_solver).
  pose proof (wd_heaps _ _ _ Hw _ _ _ _ eq_refl Hheap) as Hok.
  destruct (ch_frame _ _ _ _ (hp_chains _ _ _ _ _ Hok) a Ha) as (f & Hf & Hc & _). eauto.
Qed.

Lemma in_borrows_cookie w hs ly h a :
  world_ok w hs ly → h ∈ hs → a ∈ ly_borrows ly h →
  ∃ b, w_borrows w !! a = Some b ∧ bw_cookie b = borrow_cookie.
Proof.
  intros Hw Hh Ha. apply list_elem_of_split in Hh as (pre & anc & ->).
  assert (is_Some (w_states w !! h)) as [heap Hheap] by (apply (wd_states _ _ _ Hw); set_solver).
  pose proof (wd_heaps _ _ _ Hw _ _ _ _ eq_refl Hheap) as Hok.
  destruct (ch_borrow _ _ _ _ (hp_chains _ _ _ _ _ Hok) a Ha) as (b & Hb & Hc). eauto.
Qed.

Definition with_ly_frames (h : N) (l : list N) (ly : layout) : layout :=
  mk_layout (set_list (ly_frames ly) h l) (ly_borrows ly) (ly_entries ly) (ly_natives ly).
Definition with_ly_borrows (h : N) (l : list N) (ly : layout) : layout :=
  mk_layout (ly_frames ly) (set_list (ly_borrows ly) h l) (ly_entries ly) (ly_natives ly).
Definition with_ly_entries (h : N) (l : list N) (ly : layout) : layout :=
  mk_layout (ly_frames ly) (ly_borrows ly) (set_list (ly_entries ly) h l) (ly_natives ly).
Definition with_ly_natives (h : N) (l : list N) (ly : layout) : layout :=
  mk_layout (ly_frames ly) (ly_borrows ly) (ly_entries ly) (set_list (ly_natives ly) h l).

(** ** Root frames *)

(** The caller's frame: its slots exist and hold references the context may hold. *)
Definition frame_contract (w : world) (hs : list N) (frame : N) : Prop :=
  frame = 0 ∨ ∃ f, w_frames w !! frame = Some f ∧
    (fr_runtime_cookie f = 0 → ∀ i, i < fr_slot_count f → fr_slots f ≠ 0 →
       ∃ v, w_words w !! (fr_slots f + 8 * i) = Some v ∧ valid_ref (w_memory w) hs v).

Lemma root_frame_enter_ok w hs ly frame :
  world_ok w hs ly → frame_contract w hs frame →
  safe (neri_rt_v1_gc_root_frame_enter frame w) (λ w',
    world_ok w' hs (with_ly_frames (w_active w) (frame :: ly_frames ly (w_active w)) ly)).
Proof.
  intros Hw Hfr. destruct (world_current _ _ _ Hw) as (anc & heap & -> & Hheap & Hcur & Hok & Hh & Hz).
  unfold neri_rt_v1_gc_root_frame_enter.
  eapply safe_bind; [by eapply require_initialized_ok|]. intros [] Hph.
  case N.eqb_spec; intros Hfz; [apply safe_contract|]. destruct Hfr as [|(f & Hf & Hslots)]; [done|].
  rewrite Hf, load_Some, bind_Ok. split_guard; [apply safe_contract|].
  apply orb_false_iff in Heqb as [[Hs Hp]%orb_false_iff Hc]. apply negb_false_iff, N.eqb_eq in Hp, Hc.
  rewrite Hcur, bind_Ok. apply safe_Ok. set (h := w_active w) in *.
  specialize (Hslots Hc). pose proof (hp_chains _ _ _ _ _ Hok) as [C1 C2 C3 C4 C5 C6 C7].
  assert (fr_slot_count f ≠ 0 → fr_slots f ≠ 0) as Hs'.
  { intros H1 H2. rewrite H2 in Hs. apply andb_false_iff in Hs as [Hs|Hs]; [|done].
    by apply negb_false_iff, N.eqb_eq in Hs. }
  assert (∀ x, x ∈ h :: anc → frame ∉ ly_frames ly x) as Hfresh.
  { intros x Hx Hin. destruct (in_frames_cookie _ _ _ _ _ Hw Hx Hin) as (f' & Hf' & Hc').
    rewrite Hf in Hf'. injection Hf' as <-. rewrite Hc in Hc'. done. }
  eapply (world_ok_update w _ ly _ h anc heap); try done.
  - by left.
  - intros x Hx. assert (x ≠ h) as Hxh by (by intros ->). constructor; simpl; try done.
    + by rewrite set_list_ne.
    + intros a Ha. rewrite lookup_insert_ne; [done|]. intros <-. apply (Hfresh x); set_solver.
  - simpl. rewrite set_list_eq. constructor; simpl; try done.
    + split; [done|]. split; [done|]. eexists. unfold frame_previous at 1. simpl. rewrite lookup_insert_eq.
      split; [done|]. simpl. eapply chain_ext; [|exact C1]. intros a Ha. unfold frame_previous. simpl.
      rewrite lookup_insert_ne; [done|]. intros <-. apply (Hfresh h); set_solver.
    + apply NoDup_cons. split; [|done]. apply Hfresh. set_solver.
    + intros a Ha. apply elem_of_cons in Ha as [->|Ha].
      * eexists. simpl. rewrite lookup_insert_eq. split; [done|]. simpl. split_and!; [done..|].
        intros i Hi. destruct (Hslots i Hi) as (v & Hv & _); [|by eexists]. apply Hs'. lia.
      * destruct (C3 a Ha) as (f' & Hf' & Hrest). exists f'. simpl. rewrite lookup_insert_ne; [done|].
        intros <-. apply (Hfresh h); set_solver.
  - by apply (hp_entries _ _ _ _ _ Hok).
  - apply (hp_entries_nodup _ _ _ _ _ Hok).
  - apply (hp_owning _ _ _ _ _ Hok).
  - eapply (natives_ok_same w _ heap); [done..|]. apply (hp_natives _ _ _ _ _ Hok).
  - simpl. rewrite set_list_eq. intros r. rewrite elem_of_root_refs. intros Hr.
    destruct Hr as [(a & Ha & Hr)|Hr]; [|apply (hp_roots _ _ _ _ _ Hok), elem_of_root_refs; right; exact Hr].
    apply elem_of_cons in Ha as [->|Ha].
    + unfold frame_roots in Hr. simpl in Hr. rewrite lookup_insert_eq in Hr. simpl in Hr.
      apply list_elem_of_fmap in Hr as (slot & -> & (i & -> & Hi%elem_of_indices)%list_elem_of_fmap). simpl in *.
      destruct (Hslots i Hi) as (v & Hv & Hvalid); [apply Hs'; lia|]. unfold word. simpl. by rewrite Hv.
    + apply (hp_roots _ _ _ _ _ Hok), elem_of_root_refs. left. exists a. split; [done|].
      unfold frame_roots in *. simpl in Hr. rewrite lookup_insert_ne in Hr; [done|].
      intros <-. apply (Hfresh h); set_solver.
  - simpl. rewrite set_list_eq. intros a x [->|Ha]%elem_of_cons Hx; [apply Hfresh; set_solver|].
    eapply (active_apart ly h anc x a ly_frames); try done. apply (wd_frames _ _ _ Hw).
  - keep_apart Hw.
  - keep_apart Hw.
  - keep_apart Hw.
  - apply (wd_native_storage _ _ _ Hw).
Qed.

Lemma root_frame_leave_ok w hs ly frame :
  world_ok w hs ly →
  safe (neri_rt_v1_gc_root_frame_leave frame w) (λ w', ∃ rest,
    ly_frames ly (w_active w) = frame :: rest ∧ world_ok w' hs (with_ly_frames (w_active w) rest ly)).
Proof.
  intros Hw. destruct (world_current _ _ _ Hw) as (anc & heap & -> & Hheap & Hcur & Hok & Hh & Hz).
  unfold neri_rt_v1_gc_root_frame_leave.
  eapply safe_bind; [by eapply require_initialized_ok|]. intros [] Hph. rewrite Hcur, bind_Ok.
  split_guard; [apply safe_contract|]. apply orb_false_iff in Heqb as [Hfz%N.eqb_neq Htop].
  apply negb_false_iff, N.eqb_eq in Htop. set (h := w_active w) in *.
  pose proof (hp_chains _ _ _ _ _ Hok) as [C1 C2 C3 C4 C5 C6 C7]. rewrite <-Htop in C1.
  destruct (ly_frames ly h) as [|a0 rest] eqn:Hfl; [by simpl in C1|].
  destruct C1 as (<- & _ & n & Hn & C1). destruct (C3 frame) as (f & Hf & Hc & _ & _); [set_solver|].
  unfold frame_previous in Hn. rewrite Hf in Hn |- *. injection Hn as <-. rewrite load_Some, bind_Ok, Hc, N.eqb_refl.
  cbn [negb]. apply safe_Ok. exists rest. split; [done|]. apply NoDup_cons in C2 as [Hni Hnd].
  assert (∀ x, x ∈ anc → frame ∉ ly_frames ly x) as Hfresh.
  { intros x Hx. eapply (active_apart ly h anc x frame ly_frames); try done; [apply (wd_frames _ _ _ Hw)|].
    rewrite Hfl. set_solver. }
  eapply (world_ok_update w _ ly _ h anc heap); try done.
  - by left.
  - intros x Hx. assert (x ≠ h) as Hxh by (by intros ->). constructor; simpl; try done.
    + by rewrite set_list_ne.
    + intros a Ha. rewrite lookup_insert_ne; [done|]. intros <-. by apply (Hfresh x).
  - simpl. rewrite set_list_eq. constructor; simpl; try done.
    + eapply chain_ext; [|exact C1]. intros a Ha. unfold frame_previous. simpl.
      rewrite lookup_insert_ne; [done|]. by intros <-.
    + intros a Ha. destruct (C3 a) as (f' & Hf' & Hrest); [set_solver|]. exists f'. simpl.
      rewrite lookup_insert_ne; [done|]. by intros <-.
  - by apply (hp_entries _ _ _ _ _ Hok).
  - apply (hp_entries_nodup _ _ _ _ _ Hok).
  - apply (hp_owning _ _ _ _ _ Hok).
  - eapply (natives_ok_same w _ heap); [done..|]. apply (hp_natives _ _ _ _ _ Hok).
  - simpl. rewrite set_list_eq. intros r. rewrite elem_of_root_refs. intros Hr.
    apply (hp_roots _ _ _ _ _ Hok), elem_of_root_refs. destruct Hr as [(a & Ha & Hr)|Hr]; [left|right; exact Hr].
    exists a. rewrite Hfl. split; [set_solver|]. unfold frame_roots in *. simpl in Hr.
    rewrite lookup_insert_ne in Hr; [done|]. by intros <-.
  - simpl. rewrite set_list_eq. intros a x Ha Hx. eapply (active_apart ly h anc x a ly_frames); try done.
    + apply (wd_frames _ _ _ Hw).
    + rewrite Hfl. set_solver.
  - keep_apart Hw.
  - keep_apart Hw.
  - keep_apart Hw.
  - apply (wd_native_storage _ _ _ Hw).
Qed.

(** ** Lookups *)

(** [owner] of a reference the context may hold. *)
Lemma owner_valid w hs ly o :
  world_ok w hs ly → valid_ref (w_memory w) hs o →
  returns (owner (w_memory w) o) (λ x, ∀ y, y ∈ hs → x = y ↔ live_in (w_memory w) y o).
Proof.
  intros Hw Hv. pose proof (wd_memory _ _ _ Hw) as Hm.
  assert (∀ y, y ∈ hs → 0 ≠ y) as Hyz by (intros y Hy <-; by apply (wd_nonnull _ _ _ Hw)).
  destruct (decide (o = 0)) as [->|Hoz].
  { exists 0. split; [done|]. intros y Hy. split; [intros Heq; by destruct (Hyz y Hy)|].
    intros (bytes & k & Hl). by apply (live_nonnull _ Hm) in Hl. }
  destruct Hv as [|[(_ & ob & Hob & _ & Hword)|(x & Hx & bytes & k & Hl)]]; [done|..].
  - exists 0. unfold owner, load_object. rewrite (proj2 (N.eqb_neq _ _) Hoz), Hob. simpl. rewrite Hword.
    split; [done|]. intros y Hy. split; [intros Heq; by destruct (Hyz y Hy)|]. intros (bytes & k & Hl).
    destruct (live_word _ Hm _ _ _ _ Hl) as (ob' & Hob' & Hz'). congruence.
  - exists x. split; [by eapply owner_live|]. intros y Hy. split; [intros <-; by exists bytes, k|].
    intros (bytes' & k' & Hl'). by destruct (live_unique _ Hm _ _ _ _ _ _ _ Hl Hl') as (-> & _).
Qed.

Lemma find_managed_ok w hs ly o :
  world_ok w hs ly → valid_ref (w_memory w) hs o →
  returns (find_managed w o) (λ r, match r with
    | Some o' => o' = o ∧ live_in (w_memory w) (w_active w) o
    | None => ¬ live_in (w_memory w) (w_active w) o
    end).
Proof.
  intros Hw Hv. destruct (owner_valid w hs ly o Hw Hv) as (x & Hx & Hiff).
  destruct (world_current _ _ _ Hw) as (anc & heap & -> & Hheap & Hcur & Hok & Hh & Hz).
  unfold find_managed. rewrite Hx, bind_Ok, Hcur, bind_Ok. specialize (Hiff (w_active w)).
  case N.eqb_spec; intros Hxh; apply returns_Ok.
  - split; [done|]. apply Hiff; [set_solver|done].
  - intros Hl. apply Hxh, Hiff; [set_solver|done].
Qed.

Lemma find_readable_ok w hs ly o :
  world_ok w hs ly → valid_ref (w_memory w) hs o →
  returns (find_readable w o) (λ r, match r with
    | Some o' => o' = o ∧ ∃ x, x ∈ hs ∧ live_in (w_memory w) x o
    | None => ∀ x, x ∈ hs → ¬ live_in (w_memory w) x o
    end).
Proof.
  intros Hw Hv. destruct (owner_valid w hs ly o Hw Hv) as (x & Hx & Hiff).
  destruct (world_current _ _ _ Hw) as (anc & heap & -> & Hheap & Hcur & Hok & Hh & Hz).
  unfold find_readable. rewrite Hx, bind_Ok, Hcur, bind_Ok. case N.eqb_spec; intros Hxh.
  - apply returns_Ok. split; [done|]. exists x. subst x. split; [set_solver|]. apply Hiff; [set_solver|done].
  - rewrite (suspended_ancestor_ok _ _ anc _ (hp_ancestry _ _ _ _ _ Hok)), bind_Ok. apply returns_Ok.
    destruct (decide (x ∈ anc)) as [Hin|Hout].
    + rewrite bool_decide_true by done. split; [done|]. exists x. split; [set_solver|]. apply Hiff; [set_solver|done].
    + rewrite bool_decide_false by done. intros y Hy Hl. apply Hiff in Hl; [|done]. subst y.
      apply elem_of_cons in Hy as [->|Hy]; done.
Qed.

Lemma is_string_literal_ok m hs o :
  memory_ok m → valid_ref m hs o → returns (is_string_literal m o) (λ _, True).
Proof.
  intros Hm Hv. unfold is_string_literal. case N.eqb_spec; intros Hz; [by apply returns_Ok|].
  unfold load_object. destruct Hv as [|[(_ & ob & -> & _)|(x & Hx & bytes & k & Hl)]]; [done|by apply returns_Ok|].
  destruct (live_header _ Hm _ _ _ _ Hl) as (ob & -> & _). by apply returns_Ok.
Qed.

(** The check of a stored value accepts every valid reference. *)
Definition readable_value (w : world) (value : N) : result bool :=
  if value =? 0 then Ok true
  else
    readable ← find_readable w value;
    match readable with
    | Some _ => Ok true
    | None => is_string_literal (w_memory w) value
    end.

Lemma readable_value_ok w hs ly value :
  world_ok w hs ly → valid_ref (w_memory w) hs value → readable_value w value = Ok true.
Proof.
  intros Hw Hv. unfold readable_value. case N.eqb_spec; intros Hz; [done|].
  destruct (find_readable_ok w hs ly value Hw Hv) as (r & -> & Hr). rewrite bind_Ok.
  destruct r as [o|]; [done|]. destruct Hv as [|[(_ & ob & Hob & Ht & _)|(x & Hx & Hl)]]; [done| |by destruct (Hr x Hx)].
  unfold is_string_literal, load_object. rewrite (proj2 (N.eqb_neq _ _) Hz), Hob. simpl. by rewrite Ht, N.eqb_refl.
Qed.

Lemma gc_keep_alive_ok w hs ly o :
  world_ok w hs ly → valid_ref (w_memory w) hs o → safe (neri_rt_v1_gc_keep_alive o w) (λ _, True).
Proof.
  intros Hw Hv. destruct (world_current _ _ _ Hw) as (anc & heap & -> & Hheap & Hcur & Hok & Hh & Hz).
  unfold neri_rt_v1_gc_keep_alive. eapply safe_bind; [by eapply require_initialized_ok|]. intros [] Hph.
  fold (readable_value w o). rewrite (readable_value_ok _ _ _ _ Hw Hv), bind_Ok. by apply safe_Ok.
Qed.

(** ** Reference stores *)

(** After a store the slot holds the value, and the object's other slots what they held. *)
Lemma store_refs `{!LawfulTrace} o ob slot v :
  traceable o ob → slot ∈ slots_of o ob → v ≤ u64_max →
  let ob' := set_payload ob (write_word (ob_payload ob) (slot_offset_of o slot) v) in
  traceable o ob' ∧ slot_value o ob' slot = v ∧
  (∀ slot', slot' ∈ slots_of o ob → slot' ≠ slot → slot_value o ob' slot' = slot_value o ob slot') ∧
  slots_of o ob' = slots_of o ob ∧ length_N (ob_payload ob') = length_N (ob_payload ob).
Proof.
  intros (Hd & Hty & Hin) Hslot Hv ob'. pose proof (Hin slot Hslot) as Hins.
  assert (slots_of o ob' = slots_of o ob) as Hslots by by apply trace_stable.
  apply in_payload_spec in Hins as [Hge Hlen].
  assert (length_N (ob_payload ob') = length_N (ob_payload ob)) as Hlen' by by apply length_write_word.
  split_and!; try done.
  - split_and!; [unfold typed; by rewrite Hlen'|done|]. rewrite Hslots. intros slot' Hs'. apply in_payload_spec. rewrite Hlen'.
    by apply in_payload_spec, Hin.
  - unfold slot_value. simpl. by apply read_write_same.
  - intros slot' Hs' Hne. unfold slot_value. simpl. apply read_write_other; [done|].
    pose proof (trace_aligned o ob slot Hslot) as Ha. pose proof (trace_aligned o ob slot' Hs') as Ha'.
    apply Hin, in_payload_spec in Hs' as [Hge' _]. apply N.Div0.mod_divides in Ha as [q Hq], Ha' as [q' Hq'].
    unfold slot_offset_of, sizeof_header in *. lia.
Qed.

(** The caller stores into a reference slot of an object it may hold. *)
Definition store_contract (w : world) (hs : list N) (owner slot value : N) : Prop :=
  valid_ref (w_memory w) hs owner ∧ valid_ref (w_memory w) hs value ∧ value ≤ u64_max ∧
  ∀ ob, live_in (w_memory w) (w_active w) owner → m_objects (w_memory w) !! owner = Some ob →
    slot ∈ slots_of owner ob.

(** When a store that keeps its contract is accepted: the runtime runs, the owner belongs to
    the active context and lies in the address space, and the slot is aligned. *)
Definition store_accepted (w : world) (heap : runtime_state) (owner slot : N) : Prop :=
  rs_phase heap = active ∧ live_in (w_memory w) (w_active w) owner ∧ slot mod 8 = 0 ∧
  ∃ ob, m_objects (w_memory w) !! owner = Some ob ∧ owner + sizeof_header + length_N (ob_payload ob) ≤ u64_max.

(** The checks of the slot's address. *)
Definition misplaced (owner payload slot : N) : bool :=
  let payload_begin := u64 (owner + sizeof_header) in
  let payload_end := u64 (payload_begin + payload) in
  (payload <? 8) || (slot <? payload_begin) || (u64_sub payload_end 8 <? slot) || negb (slot mod 8 =? 0).

Lemma slot_placed o ob slot :
  in_payload o ob slot = true → slot mod 8 = 0 → o + sizeof_header + length_N (ob_payload ob) ≤ u64_max →
  misplaced o (length_N (ob_payload ob)) slot = false.
Proof.
  unfold in_payload, misplaced. rewrite andb_true_iff, !N.leb_le. intros [Hlo Hhi] Hal Hmax. cbv zeta.
  rewrite (u64_small (o + sizeof_header)), (u64_small (_ + length_N _)) by lia. rewrite u64_sub_small by lia.
  rewrite Hal. rewrite !orb_false_iff, !N.ltb_ge. split_and!; [lia|lia|lia|done].
Qed.

Lemma gc_store_ref_ends `{!LawfulTrace} w hs ly heap o slot value :
  world_ok w hs ly → w_states w !! w_active w = Some heap → store_contract w hs o slot value →
  ends (λ code, code = PANIC_RUNTIME_CONTRACT ∧ ¬ store_accepted w heap o slot) (neri_rt_v1_gc_store_ref o slot value w)
    (λ w', world_ok w' hs ly ∧ live_in (w_memory w) (w_active w) o ∧
    ∃ ob, m_objects (w_memory w) !! o = Some ob ∧
      w' = with_memory (store_object o (set_payload ob (write_word (ob_payload ob) (slot_offset_of o slot) value))
             (w_memory w)) w).
Proof.
  intros Hw Hheap (Hvo & Hvv & Hmax & Hslot). unfold neri_rt_v1_gc_store_ref.
  destruct (find_managed_ok w hs ly o Hw Hvo) as (r & Hfind & Hr).
  pose proof (readable_value_ok w hs ly value Hw Hvv) as Hread.
  destruct (world_current _ _ _ Hw) as (anc & heap' & -> & Hheap' & Hcur & Hok & Hh & Hz).
  rewrite Hheap in Hheap'. injection Hheap' as <-.
  eapply ends_bind; [eapply ends_weaken; [by eapply require_initialized_ends| |done]|].
  { intros code [-> Hno]. split; [done|]. by intros [? _]. }
  intros [] Hph. rewrite Hfind, bind_Ok. destruct r as [o'|].
  2: { apply ends_panic. split; [done|]. by intros (_ & Hl & _). }
  destruct Hr as [-> Hl]. rewrite bool_decide_false by done. pose proof Hl as (bytes & k & Hlo).
  destruct (hp_closed _ _ _ _ _ Hok o Hl) as (ob & Hob & Htr & Hrefs). specialize (Hslot ob Hl Hob).
  destruct (live_header _ (wd_memory _ _ _ Hw) _ _ _ _ Hlo) as (ob' & Hob' & Hbytes). rewrite Hob in Hob'. injection Hob' as <-.
  pose proof Htr as (Hd & Hty & Hins). pose proof (Hins slot Hslot) as Hin.
  assert ((slot =? 0) = false) as -> by (apply N.eqb_neq; unfold in_payload in Hin; apply andb_true_iff in Hin as [?%N.leb_le _]; unfold sizeof_header in *; lia).
  unfold payload_size. rewrite (size_live _ (wd_memory _ _ _ Hw) _ _ _ _ Hlo). cbn [orb]. rewrite !bind_Ok. cbv zeta.
  change (_ || negb (slot mod 8 =? 0)) with (misplaced o (bytes - sizeof_header) slot).
  replace (bytes - sizeof_header) with (length_N (ob_payload ob)) by lia.
  destruct (misplaced _ _ slot) eqn:Hmis.
  { apply ends_panic. split; [done|]. intros (_ & _ & Hal & ob' & Hob' & Hspace). rewrite Hob in Hob'. injection Hob' as <-.
    by rewrite (slot_placed o ob slot) in Hmis. }
  fold (readable_value w value). rewrite Hread. simpl.
  unfold store_slot, load_object. rewrite Hob. simpl. rewrite Hin. simpl. apply ends_Ok.
  destruct (store_refs o ob slot value) as (Htr' & Hval & Hother & Hslots & Hlen); [done..|].
  split; [|split; [done|]; by exists ob].
  eapply (replace_world w (w_active w :: anc) ly (w_active w) o ob _ Hw); try done; [set_solver|].
  intros r (slot' & -> & Hs')%list_elem_of_fmap.
  match type of Hs' with slot' ∈ slots_of o ?x => change x with (set_payload ob (write_word (ob_payload ob) (slot_offset_of o slot) value)) in * end.
  rewrite Hslots in Hs'. destruct (decide (slot' = slot)) as [->|Hne]; [by rewrite Hval|].
  rewrite Hother by done. apply Hrefs. apply list_elem_of_fmap. eauto.
Qed.

Lemma gc_store_ref_ok `{!LawfulTrace} w hs ly o slot value :
  world_ok w hs ly → store_contract w hs o slot value →
  safe (neri_rt_v1_gc_store_ref o slot value w) (λ w', world_ok w' hs ly ∧
    live_in (w_memory w) (w_active w) o ∧
    ∃ ob, m_objects (w_memory w) !! o = Some ob ∧
      w' = with_memory (store_object o (set_payload ob (write_word (ob_payload ob) (slot_offset_of o slot) value))
             (w_memory w)) w).
Proof.
  intros Hw Hc. destruct (world_current _ _ _ Hw) as (anc & heap & _ & Hheap & _). eapply ends_safe. by eapply gc_store_ref_ends.
Qed.

(** ** Borrows *)

Definition borrow_contract (w : world) (hs : list N) (owner borrow : N) : Prop :=
  valid_ref (w_memory w) hs owner ∧ (borrow = 0 ∨ is_Some (w_borrows w !! borrow)).

Lemma gc_borrow_begin_ok w hs ly o offset length borrow :
  world_ok w hs ly → borrow_contract w hs o borrow →
  safe (neri_rt_v1_gc_borrow_begin o offset length borrow w) (λ '(_, w'),
    live_in (w_memory w) (w_active w) o ∧
    world_ok w' hs (with_ly_borrows (w_active w) (borrow :: ly_borrows ly (w_active w)) ly)).
Proof.
  intros Hw (Hvo & Hmap). unfold neri_rt_v1_gc_borrow_begin.
  destruct (find_managed_ok w hs ly o Hw Hvo) as (r & Hfind & Hr).
  destruct (world_current _ _ _ Hw) as (anc & heap & -> & Hheap & Hcur & Hok & Hh & Hz).
  eapply safe_bind; [by eapply require_initialized_ok|]. intros [] Hph. rewrite Hfind, bind_Ok.
  case N.eqb_spec; intros Hbz.
  { rewrite bind_Ok. cbn [negb]. rewrite orb_true_r. apply safe_contract. }
  destruct Hmap as [|[b Hb]]; [done|]. rewrite Hb, load_Some, !bind_Ok.
  split_guard; [apply safe_contract|]. apply orb_false_iff in Heqb0 as [Hsome%bool_decide_eq_false Hempty].
  apply negb_false_iff in Hempty. rewrite !andb_true_iff, !N.eqb_eq in Hempty. destruct Hempty as [_ Hc].
  destruct r as [o'|]; [|done]. destruct Hr as [_ Hl]. pose proof Hl as (bytes & k & Hlo).
  unfold payload_size. rewrite (size_live _ (wd_memory _ _ _ Hw) _ _ _ _ Hlo). simpl.
  split_guard; [apply safe_contract|]. rewrite Hcur. simpl. apply safe_Ok. split; [done|].
  set (h := w_active w) in *. pose proof (hp_chains _ _ _ _ _ Hok) as [C1 C2 C3 C4 C5 C6 C7].
  assert (∀ x, x ∈ h :: anc → borrow ∉ ly_borrows ly x) as Hfresh.
  { intros x Hx Hin. destruct (in_borrows_cookie _ _ _ _ _ Hw Hx Hin) as (b' & Hb' & Hc').
    rewrite Hb in Hb'. injection Hb' as <-. rewrite Hc in Hc'. done. }
  eapply (world_ok_update w _ ly _ h anc heap); try done.
  - by left.
  - intros x Hx. assert (x ≠ h) as Hxh by (by intros ->). constructor; simpl; try done.
    + by rewrite set_list_ne.
    + intros a Ha. rewrite lookup_insert_ne; [done|]. intros <-. apply (Hfresh x); set_solver.
  - simpl. rewrite set_list_eq. constructor; simpl; try done.
    + split; [done|]. split; [done|]. eexists. unfold borrow_previous at 1. simpl. rewrite lookup_insert_eq.
      split; [done|]. simpl. eapply chain_ext; [|exact C4]. intros a Ha. unfold borrow_previous. simpl.
      rewrite lookup_insert_ne; [done|]. intros <-. apply (Hfresh h); set_solver.
    + apply NoDup_cons. split; [|done]. apply Hfresh. set_solver.
    + intros a Ha. apply elem_of_cons in Ha as [->|Ha].
      * eexists. simpl. rewrite lookup_insert_eq. done.
      * destruct (C6 a Ha) as (b' & Hb' & Hrest). exists b'. simpl. rewrite lookup_insert_ne; [done|].
        intros <-. apply (Hfresh h); set_solver.
  - by apply (hp_entries _ _ _ _ _ Hok).
  - apply (hp_entries_nodup _ _ _ _ _ Hok).
  - apply (hp_owning _ _ _ _ _ Hok).
  - eapply (natives_ok_same w _ heap); [done..|]. apply (hp_natives _ _ _ _ _ Hok).
  - simpl. rewrite set_list_eq. intros r. rewrite elem_of_root_refs.
    intros [Hr|[Hr|(a & Ha & Hr)]];
      [apply (hp_roots _ _ _ _ _ Hok), elem_of_root_refs; left; exact Hr
      |apply (hp_roots _ _ _ _ _ Hok), elem_of_root_refs; right; left; exact Hr|].
    unfold borrow_root in Hr. simpl in Hr. apply elem_of_cons in Ha as [->|Ha].
    + rewrite lookup_insert_eq in Hr. simpl in Hr. apply list_elem_of_singleton in Hr as ->. exact Hvo.
    + rewrite lookup_insert_ne in Hr by (intros <-; apply (Hfresh h); set_solver).
      apply (hp_roots _ _ _ _ _ Hok), elem_of_root_refs. right. right. exists a. by split.
  - keep_apart Hw.
  - simpl. rewrite set_list_eq. intros a x [->|Ha]%elem_of_cons Hx; [apply Hfresh; set_solver|].
    eapply (active_apart ly h anc x a ly_borrows); try done. apply (wd_borrows _ _ _ Hw).
  - keep_apart Hw.
  - keep_apart Hw.
  - apply (wd_native_storage _ _ _ Hw).
Qed.

Lemma gc_borrow_end_ok w hs ly borrow :
  world_ok w hs ly →
  safe (neri_rt_v1_gc_borrow_end borrow w) (λ w', ∃ rest,
    ly_borrows ly (w_active w) = borrow :: rest ∧ world_ok w' hs (with_ly_borrows (w_active w) rest ly)).
Proof.
  intros Hw. destruct (world_current _ _ _ Hw) as (anc & heap & -> & Hheap & Hcur & Hok & Hh & Hz).
  unfold neri_rt_v1_gc_borrow_end.
  eapply safe_bind; [by eapply require_initialized_ok|]. intros [] Hph. rewrite Hcur, bind_Ok.
  split_guard; [apply safe_contract|]. apply orb_false_iff in Heqb as [Hbz%N.eqb_neq Htop].
  apply negb_false_iff, N.eqb_eq in Htop. set (h := w_active w) in *.
  pose proof (hp_chains _ _ _ _ _ Hok) as [C1 C2 C3 C4 C5 C6 C7]. rewrite <-Htop in C4.
  destruct (ly_borrows ly h) as [|a0 rest] eqn:Hbl; [by simpl in C4|].
  destruct C4 as (<- & _ & n & Hn & C4). destruct (C6 borrow) as (b & Hb & Hc); [set_solver|].
  unfold borrow_previous in Hn. rewrite Hb in Hn |- *. injection Hn as <-. rewrite load_Some, bind_Ok, Hc, N.eqb_refl.
  cbn [negb]. apply safe_Ok. exists rest. split; [done|]. apply NoDup_cons in C5 as [Hni Hnd].
  assert (∀ x, x ∈ anc → borrow ∉ ly_borrows ly x) as Hfresh.
  { intros x Hx. eapply (active_apart ly h anc x borrow ly_borrows); try done; [apply (wd_borrows _ _ _ Hw)|].
    rewrite Hbl. set_solver. }
  eapply (world_ok_update w _ ly _ h anc heap); try done.
  - by left.
  - intros x Hx. assert (x ≠ h) as Hxh by (by intros ->). constructor; simpl; try done.
    + by rewrite set_list_ne.
    + intros a Ha. rewrite lookup_insert_ne; [done|]. intros <-. by apply (Hfresh x).
  - simpl. rewrite set_list_eq. constructor; simpl; try done.
    + eapply chain_ext; [|exact C4]. intros a Ha. unfold borrow_previous. simpl.
      rewrite lookup_insert_ne; [done|]. by intros <-.
    + intros a Ha. destruct (C6 a) as (b' & Hb' & Hrest); [set_solver|]. exists b'. simpl.
      rewrite lookup_insert_ne; [done|]. by intros <-.
  - by apply (hp_entries _ _ _ _ _ Hok).
  - apply (hp_entries_nodup _ _ _ _ _ Hok).
  - apply (hp_owning _ _ _ _ _ Hok).
  - eapply (natives_ok_same w _ heap); [done..|]. apply (hp_natives _ _ _ _ _ Hok).
  - simpl. rewrite set_list_eq. intros r. rewrite elem_of_root_refs. intros Hr.
    apply (hp_roots _ _ _ _ _ Hok), elem_of_root_refs.
    destruct Hr as [Hr|[Hr|(a & Ha & Hr)]]; [left; exact Hr|right; left; exact Hr|right; right].
    exists a. rewrite Hbl. split; [set_solver|]. unfold borrow_root in *. simpl in Hr.
    rewrite lookup_insert_ne in Hr; [done|]. by intros <-.
  - keep_apart Hw.
  - simpl. rewrite set_list_eq. intros a x Ha Hx. eapply (active_apart ly h anc x a ly_borrows); try done.
    + apply (wd_borrows _ _ _ Hw).
    + rewrite Hbl. set_solver.
  - keep_apart Hw.
  - keep_apart Hw.
  - apply (wd_native_storage _ _ _ Hw).
Qed.
End safety.
