(* ===== verification/AllocationSafety.v ===== *)
(** * Managed allocation

    [allocate_managed] returns a new object of the requested size with its type and a
    cleared payload, possibly after a collection; whatever the active context can
    reach, and everything of its ancestors, is still there with its contents. *)

From S2P Require Import Prelude Chains Storage Slabs Memory StorageSafety Sweep.
From S2P Require Import Heap Marking Collector HeapInvariant Collection RuntimeApi.
From S2P Require Import Payloads ApiSafety.

Local Open Scope string_scope.
Local Open Scope list_scope.
Local Open Scope N_scope.

Section allocation.
Context `{Program}.

(** ** What operations that may collect retain *)

(** Every object of [w'] was in [w], unchanged; what the active context reaches and
    what other contexts own is in [w'] too; and the roots are the same. *)
Record retains (w w' : world) (ly : layout) (heap heap' : runtime_state) : Prop := {
  rt_back : ∀ h o bytes k, live_object (w_memory w') h o bytes k →
    live_object (w_memory w) h o bytes k ∧ m_objects (w_memory w') !! o = m_objects (w_memory w) !! o;
  rt_keep : ∀ h o bytes k, live_object (w_memory w) h o bytes k →
    (h = w_active w → reachable (w_memory w) h (active_roots w ly heap) o) → live_object (w_memory w') h o bytes k;
  rt_active : w_active w' = w_active w;
  rt_states : w_states w !! w_active w = Some heap ∧ w_states w' !! w_active w = Some heap';
  rt_roots : active_roots w' ly heap' = active_roots w ly heap;
  rt_statics : keeps_statics (w_memory w) (w_memory w');
}.

Lemma retains_refl w ly heap : w_states w !! w_active w = Some heap → retains w w ly heap heap.
Proof. intros Hh. constructor; try done. Qed.

(** Reachable objects stay reachable. *)
Lemma retains_reachable w w' ly heap heap' o :
  retains w w' ly heap heap' → reachable (w_memory w) (w_active w) (active_roots w ly heap) o →
  reachable (w_memory w') (w_active w') (active_roots w' ly heap') o.
Proof.
  intros Hr. rewrite (rt_active _ _ _ _ _ Hr), (rt_roots _ _ _ _ _ Hr).
  assert (∀ o, reachable (w_memory w) (w_active w) (active_roots w ly heap) o → live_in (w_memory w') (w_active w) o) as Hlive.
  { intros o' Ho'. pose proof (reachable_live _ _ _ _ Ho') as (bytes & k & Hl). exists bytes, k.
    by apply (rt_keep _ _ _ _ _ Hr). }
  induction 1 as [r Hin Hl|x r Hx IH Hin Hl].
  - apply reach_root; [done|]. apply Hlive. by apply reach_root.
  - eapply reach_ref; [exact IH| |apply Hlive; by eapply reach_ref].
    destruct (Hlive x Hx) as (bytes & k & Hlx). apply (rt_back _ _ _ _ _ Hr) in Hlx as [_ Hobj].
    unfold refs in *. by rewrite Hobj.
Qed.

Lemma retains_trans w1 w2 w3 ly heap1 heap2 heap3 :
  retains w1 w2 ly heap1 heap2 → retains w2 w3 ly heap2 heap3 → retains w1 w3 ly heap1 heap3.
Proof.
  intros H1 H2. constructor.
  - intros h o bytes k Hl. apply (rt_back _ _ _ _ _ H2) in Hl as [Hl E]. apply (rt_back _ _ _ _ _ H1) in Hl as [Hl E'].
    split; [done|congruence].
  - intros h o bytes k Hl Hreach. apply (rt_keep _ _ _ _ _ H2); [by apply (rt_keep _ _ _ _ _ H1)|].
    rewrite (rt_active _ _ _ _ _ H1). intros ->. rewrite <-(rt_active _ _ _ _ _ H1).
    eapply retains_reachable; [done|]. by apply Hreach.
  - rewrite (rt_active _ _ _ _ _ H2). apply H1.
  - split; [apply H1|]. rewrite <-(rt_active _ _ _ _ _ H1). apply H2.
  - rewrite (rt_roots _ _ _ _ _ H2). apply H1.
  - eapply keeps_trans; [apply H1|apply H2].
Qed.

Lemma collected_retains w w' ly heap :
  w_states w !! w_active w = Some heap → collected w w' ly heap → ∃ heap', retains w w' ly heap heap'.
Proof.
  intros Hheap Hc. destruct (co_rest _ _ _ _ Hc) as (R1 & R2 & R3 & R4 & R5 & R6 & R7 & R8).
  destruct (co_states _ _ _ _ Hc) as (st & objects & bytes & Hst). eexists. constructor.
  - intros h o b k Hl. split; [by apply (co_live _ _ _ _ Hc) in Hl as [? _]|by eapply co_objects].
  - intros h o b k Hl Hr. apply (co_live _ _ _ _ Hc). split; [done|]. intros ->. by apply Hr.
  - done.
  - split; [done|]. by rewrite Hst, lookup_insert_eq.
  - unfold active_roots. rewrite R1. apply (root_refs_kept w w' ly ly); [by apply chains_kept_refl|done].
  - apply Hc.
Qed.

(** Optional collection before an allocation. *)
Lemma maybe_collect_ok `{RuntimeHost} (b : bool) w hs ly heap :
  world_ok w hs ly → w_states w !! w_active w = Some heap →
  ends (eq PANIC_OUT_OF_MEMORY) (if b then collect_impl w else Ok w) (λ w', world_ok w' hs ly ∧ ∃ heap', retains w w' ly heap heap').
Proof.
  intros Hw Hheap. destruct b.
  - apply ends_yields; [done|]. eapply yields_weaken; [by apply collect_ok|]. intros w' [Hw' Hc].
    split; [done|]. by apply collected_retains.
  - apply ends_Ok. split; [done|]. exists heap. by apply retains_refl.
Qed.

(** ** Placing the object *)

Lemma set_storage_same heap : set_storage (rs_storage heap) heap = heap.
Proof. by destruct heap. Qed.

Lemma with_memory_same w : with_memory (w_memory w) w = w.
Proof. by destruct w. Qed.

Lemma store_state_same h s w : w_states w !! h = Some s → store_state h s w = w.
Proof. intros Hs. unfold store_state, with_states. rewrite insert_id by done. by destruct w. Qed.

(** The storage finds room: [w'] is [w] with the new object, not yet typed or counted. *)
Lemma storage_allocate_ok `{LawfulHost} w hs ly total zeroed heap :
  world_ok w hs ly → w_states w !! w_active w = Some heap → sizeof_header ≤ total →
  returns (storage_allocate total zeroed w) (λ '(r, w'),
    match r with
    | None => w' = w
    | Some o => ∃ m' st', w' = store_state (w_active w) (set_storage st' heap) (with_memory m' w) ∧
        memory_ok m' ∧ storage_ok m' (w_active w) st' ∧ only_owner (w_memory w) m' (w_active w) ∧
        keeps_statics (w_memory w) m' ∧ placed (w_memory w) m' (w_active w) o total zeroed
    end).
Proof.
  intros Hw Hheap Htotal. destruct (world_current _ _ _ Hw) as (anc & heap0 & -> & Hheap0 & Hcur & Hok & Hh & Hz).
  rewrite Hheap in Hheap0. injection Hheap0 as <-. unfold storage_allocate. rewrite Hcur, bind_Ok.
  destruct (allocate_ok total (w_active w) zeroed (w_memory w) (rs_storage heap)
              (wd_memory _ _ _ Hw) (hp_storage _ _ _ _ _ Hok) Hz Htotal) as ([[r m'] st'] & -> & Hm' & Hst' & Hown & Hkeep & Hr).
  rewrite bind_Ok. apply returns_Ok. destruct r as [o|]; [by exists m', st'; split_and!|].
  destruct Hr as [-> ->]. rewrite set_storage_same, with_memory_same. by apply store_state_same.
Qed.

(** ** The finished object *)

Definition zero_or_untraced (type : N) (zeroed : bool) : Prop :=
  zeroed = true ∨ ∃ d, descriptor type = Some d ∧ td_trace d = 0.

(** The new object is traceable and holds no reference. *)
Lemma new_object_ok `{!LawfulTrace} type d o ob zeroed psize palign :
  descriptor type = Some d → allocation_contract d psize palign = true → type ≠ string_literal_type →
  zero_or_untraced type zeroed → ob_type ob = type → length_N (ob_payload ob) = psize →
  (zeroed = true → ob_payload ob = zeros psize) →
  traceable o ob ∧ ∀ r, r ∈ refs_of o ob → r = 0.
Proof.
  intros Hd Hc Hlit Hz Hty Hlen Hzero.
  assert (zeroed = false → slots_of o ob = []) as Hnone.
  { intros ->. destruct Hz as [|(d' & Hd' & Ht)]; [done|]. unfold slots_of. rewrite Hty, Hd'. simpl. rewrite Ht.
    by destruct (type =? 0). }
  assert (td_payload_size d ≤ psize ∧ psize ≤ u64_max - sizeof_header) as [Hsize Hmax].
  { unfold allocation_contract in Hc. repeat (apply andb_true_iff in Hc as [Hc ?]). split; by apply N.leb_le. }
  assert (∀ slot, slot ∈ slots_of o ob → zeroed = true) as Hzt.
  { intros slot Hs. destruct zeroed; [done|]. rewrite Hnone in Hs by done. by apply elem_of_nil in Hs. }
  split; [split_and!|].
  - right. rewrite Hty. exists d. by rewrite Hlen.
  - by rewrite Hty.
  - intros slot Hs. eapply (trace_inside d); [by rewrite Hty| |done]. pose proof (Hzero (Hzt slot Hs)) as Hp.
    split; [by rewrite Hlen|]. intros _. rewrite Hp, read_word_zeros, <-Hp, Hlen. unfold sizeof_header, u64_max in *. lia.
  - intros r (slot & -> & Hs)%list_elem_of_fmap. unfold slot_value. rewrite (Hzero (Hzt slot Hs)). apply read_word_zeros.
Qed.

Section finish.
Context `{!LawfulTrace} (w : world) (ly : layout) (anc : list N) (heap : runtime_state) (m2 : memory) (st2 : managed_storage).
Context (o type total : N) (zeroed : bool) (ob : object).
Let h := w_active w.
Context (Hw : world_ok w (h :: anc) ly) (Hheap : w_states w !! h = Some heap).
Context (Hm2 : memory_ok m2) (Hst2 : storage_ok m2 h st2) (Hown : only_owner (w_memory w) m2 h).
Context (Hkeep : keeps_statics (w_memory w) m2) (Hpl : placed (w_memory w) m2 h o total zeroed).
Context (Hob : m_objects m2 !! o = Some ob) (Hobj : traceable o (mk_object type (ob_runtime_word ob) (ob_payload ob))).
Context (Hnull : ∀ r, r ∈ refs_of o (mk_object type (ob_runtime_word ob) (ob_payload ob)) → r = 0).
Context (Hroom : rs_byte_count heap + total ≤ u64_max).

Let m3 := store_object o (mk_object type (ob_runtime_word ob) (ob_payload ob)) m2.
Let heap' := set_counts (u64 (rs_object_count heap + 1)) (u64 (rs_byte_count heap + total))
               (rs_collection_count heap) (rs_next_collection_bytes heap) (set_storage st2 heap).
Let w' := store_state h heap' (with_memory m3 w).

Lemma finish_live h' o' bytes k :
  live_object m3 h' o' bytes k ↔
  if decide (o' = o) then h' = h ∧ bytes = total ∧ k = false else live_object (w_memory w) h' o' bytes k.
Proof. unfold m3. rewrite live_store_object. apply (placed_live _ _ _ _ _ _ Hpl). Qed.

Lemma finish_kept h' o' bytes k :
  live_object (w_memory w) h' o' bytes k →
  o' ≠ o ∧ live_object m3 h' o' bytes k ∧ m_objects m3 !! o' = m_objects (w_memory w) !! o'.
Proof.
  intros Hl. assert (o' ≠ o) as Hne by (intros ->; by apply (placed_fresh _ _ _ _ _ _ Hpl) in Hl).
  split; [done|]. split; [apply finish_live; by rewrite decide_False|].
  simpl. rewrite lookup_insert_ne by done. by apply (placed_others _ _ _ _ _ _ Hpl).
Qed.

Lemma finish_new : live_object m3 h o total false.
Proof. apply finish_live. by rewrite decide_True. Qed.

Lemma finish_statics : keeps_statics (w_memory w) m3.
Proof.
  eapply keeps_trans; [exact Hkeep|]. eapply (store_object_statics m2 h o total false); [done|].
  apply (placed_live _ _ _ _ _ _ Hpl). by rewrite decide_True.
Qed.

Lemma finish_valid xs r : valid_ref (w_memory w) xs r → valid_ref m3 xs r.
Proof.
  intros [->|[Hl|(x & Hx & bytes & k & Hl)]]; [by left|right; left; by eapply literal_keeps, Hl; apply finish_statics|].
  right. right. exists x. split; [done|]. exists bytes, k. by apply finish_kept.
Qed.

Lemma finish_visits calls : visits (w_memory w) h calls → visits m3 h ((o, total) :: calls).
Proof.
  intros [Hnd Hl]. constructor.
  - simpl. apply NoDup_cons. split; [|done]. intros ([o' bytes] & Heq & Hin)%list_elem_of_fmap. simpl in Heq. subst o'.
    apply Hl in Hin as [k Hk]. by apply (placed_fresh _ _ _ _ _ _ Hpl) in Hk.
  - intros o' bytes. rewrite elem_of_cons, Hl. split.
    + intros [[= -> ->]|[k Hk]]; [eexists; apply finish_new|]. exists k. by apply finish_kept.
    + intros [k Hk%finish_live]. destruct (decide (o' = o)) as [->|]; [|eauto]. destruct Hk as (_ & -> & _). by left.
Qed.

Lemma finish_world : world_ok w' (h :: anc) ly.
Proof.
  pose proof (wd_heaps _ _ _ Hw [] _ _ _ eq_refl Hheap) as Hok. pose proof (wd_memory _ _ _ Hw) as Hm.
  pose proof (wd_nodup _ _ _ Hw) as Hnd. apply NoDup_cons in Hnd as [Hha _].
  destruct (visit_visits _ _ _ Hm (hp_storage _ _ _ _ _ Hok)) as (calls & _ & Hv).
  destruct (hp_account _ _ _ _ _ Hok calls Hv) as [Hcount Hbytes]. pose proof (visits_bytes _ _ _ Hm Hv) as H16.
  eapply world_ok_active; [exact Hw|]. constructor.
  - eapply store_object_memory; [done|exact Hob|done..].
  - intros x o' bytes k Hl%finish_live. destruct (decide (o' = o)); [by destruct Hl as (_ & _ & ->)|].
    by apply (wd_unmarked _ _ _ Hw) in Hl.
  - eapply (owners_kept (w_memory w) m2 h); [set_solver|done|]. apply (wd_owners _ _ _ Hw).
  - done.
  - done.
  - apply (wd_tracing _ _ _ Hw).
  - exact (wd_active_phase _ _ _ Hw heap Hheap).
  - constructor.
    + intros x o' bytes k Hx. change (w_memory w') with m3. rewrite finish_live. destruct (decide (o' = o)) as [->|]; [|done]. split.
      * intros (-> & _). done.
      * intros Hl. by apply (placed_fresh _ _ _ _ _ _ Hpl) in Hl.
    + intros x o' bytes k Hx Hl. by apply finish_kept in Hl as (_ & _ & ?).
    + intros x st Hx Hst. apply (storage_ok_ext m2); [done..|]. eapply storage_ok_frame; [exact Hown|by intros ->|done].
    + apply finish_statics.
  - intros x Hx. by apply chains_kept_refl.
  - assert (chains_kept w w' ly ly h) as Hck by by apply chains_kept_refl. constructor.
    + exact (storage_ok_ext m2 m3 h st2 (λ _, eq_refl) (λ _, eq_refl) Hst2).
    + intros calls' Hv'. rewrite (visits_perm _ _ _ _ _ Hv' (finish_visits _ Hv)) by done.
      rewrite length_N_cons. simpl. rewrite Hcount, Hbytes in *. unfold u64_max in Hroom.
      rewrite !u64_small by (unfold u64_max; lia). lia.
    + simpl. rewrite u64_small by done. done.
    + eapply ancestry_ext; [|apply (hp_ancestry _ _ _ _ _ Hok)]. intros a Ha. simpl. rewrite lookup_insert_ne; [done|].
      by intros <-.
    + apply (hp_region _ _ _ _ _ Hok).
    + eapply (chains_ok_kept w _ ly ly h heap); try done. apply (hp_chains _ _ _ _ _ Hok).
    + apply (hp_entries _ _ _ _ _ Hok).
    + apply (hp_entries_nodup _ _ _ _ _ Hok).
    + eapply (natives_ok_kept w _ ly ly h heap); try done. apply (hp_natives _ _ _ _ _ Hok).
    + intros r. rewrite (root_refs_kept w w' ly ly h heap) by done. intros Hr.
      by apply finish_valid, (hp_roots _ _ _ _ _ Hok).
    + intros o' (bytes & k & Hl%finish_live). destruct (decide (o' = o)) as [->|Hne].
      * eexists. simpl. rewrite lookup_insert_eq. split_and!; [done|done|]. intros r Hr. left. by apply Hnull.
      * destruct (hp_closed _ _ _ _ _ Hok o') as (ob0 & Hob0 & Ht0 & Hr0); [by exists bytes, k|].
        exists ob0. apply finish_kept in Hl as (_ & _ & Heq). simpl. simpl in Heq. rewrite Heq.
        split_and!; [done..|]. intros r Hr. by apply finish_valid, Hr0.
    + apply (hp_uninitialized _ _ _ _ _ Hok).
    + apply (hp_owning _ _ _ _ _ Hok).
  - intros a x Ha Hx. apply (wd_frames _ _ _ Hw h x); [set_solver|set_solver|by intros ->|done].
  - intros a x Ha Hx. apply (wd_borrows _ _ _ Hw h x); [set_solver|set_solver|by intros ->|done].
  - intros a x Ha Hx. apply (wd_entries _ _ _ Hw h x); [set_solver|set_solver|by intros ->|done].
  - intros a x Ha Hx. apply (wd_natives _ _ _ Hw h x); [set_solver|set_solver|by intros ->|done].
  - apply (wd_native_storage _ _ _ Hw).
Qed.
End finish.

(** ** Allocation *)

Lemma total_bytes_sub l1 l2 : NoDup l1 → (∀ v, v ∈ l1 → v ∈ l2) → total_bytes l1 ≤ total_bytes l2.
Proof.
  intros Hnd Hsub. apply NoDup_submseteq in Hsub; [|done]. apply submseteq_Permutation in Hsub as [l ->].
  rewrite total_bytes_app. lia.
Qed.

(** A context holds no more bytes after operations that only retain. *)
Lemma retains_bytes w w' hs ly heap heap' :
  world_ok w hs ly → world_ok w' hs ly → retains w w' ly heap heap' → rs_byte_count heap' ≤ rs_byte_count heap.
Proof.
  intros Hw Hw' Hr. destruct (rt_states _ _ _ _ _ Hr) as [Hheap Hheap']. pose proof (rt_active _ _ _ _ _ Hr) as Hact.
  destruct (world_current _ _ _ Hw) as (anc & heap0 & -> & Hheap0 & _ & Hok & _ & _).
  rewrite Hheap in Hheap0. injection Hheap0 as <-.
  destruct (world_current _ _ _ Hw') as (anc' & heap0 & _ & Hheap0 & _ & Hok' & _ & _).
  rewrite Hact, Hheap' in Hheap0. injection Hheap0 as <-. rewrite Hact in Hok'.
  destruct (visit_visits _ _ _ (wd_memory _ _ _ Hw) (hp_storage _ _ _ _ _ Hok)) as (calls & _ & Hv).
  destruct (visit_visits _ _ _ (wd_memory _ _ _ Hw') (hp_storage _ _ _ _ _ Hok')) as (calls' & _ & Hv').
  destruct (hp_account _ _ _ _ _ Hok calls Hv) as [_ ->]. destruct (hp_account _ _ _ _ _ Hok' calls' Hv') as [_ ->].
  apply total_bytes_sub; [eapply NoDup_fmap_1, Hv'|]. intros [o bytes] [k Hk]%(vs_live _ _ _ Hv').
  apply (vs_live _ _ _ Hv). exists k. by apply (rt_back _ _ _ _ _ Hr).
Qed.

(** What an allocation of [psize] payload bytes of [type] returned. *)
Record allocated (w w' : world) (ly : layout) (heap : runtime_state) (type psize : N) (zeroed : bool) (o : N) : Prop := {
  al_live : live_object (w_memory w') (w_active w) o (sizeof_header + psize) false;
  al_object : ∃ ob, m_objects (w_memory w') !! o = Some ob ∧ ob_type ob = type ∧ length_N (ob_payload ob) = psize ∧
    (zeroed = true → ob_payload ob = zeros psize);
  al_aligned : o mod 16 = 0;
  al_kept : ∀ h o' bytes k, live_object (w_memory w) h o' bytes k →
    (h = w_active w → reachable (w_memory w) h (active_roots w ly heap) o') →
    o' ≠ o ∧ live_object (w_memory w') h o' bytes k ∧ m_objects (w_memory w') !! o' = m_objects (w_memory w) !! o';
  al_back : ∀ h o' bytes k, live_object (w_memory w') h o' bytes k → o' ≠ o →
    live_object (w_memory w) h o' bytes k ∧ m_objects (w_memory w') !! o' = m_objects (w_memory w) !! o';
  al_active : w_active w' = w_active w;
  al_roots : ∃ heap', w_states w' !! w_active w = Some heap' ∧ active_roots w' ly heap' = active_roots w ly heap;
  al_statics : keeps_statics (w_memory w) (w_memory w');
}.

(** The caller names a descriptor of the program that is not the literals'. *)
Definition type_contract (type : N) (zeroed : bool) : Prop :=
  type = 0 ∨ (is_Some (descriptor type) ∧ type ≠ string_literal_type ∧ zero_or_untraced type zeroed).

Lemma retry_allocate_ok `{RuntimeHost} `{LawfulHost} w hs ly heap total zeroed :
  world_ok w hs ly → w_states w !! w_active w = Some heap → sizeof_header ≤ total →
  ends (eq PANIC_OUT_OF_MEMORY) ('(object, w') ← storage_allocate total zeroed w;
        match object with
        | Some _ => Ok (object, w')
        | None => w' ← collect_impl w'; storage_allocate total zeroed w'
        end) (λ '(r, w'), match r with
    | None => True
    | Some o => ∃ wb heapb m' st', world_ok wb hs ly ∧ retains w wb ly heap heapb ∧
        w' = store_state (w_active wb) (set_storage st' heapb) (with_memory m' wb) ∧
        memory_ok m' ∧ storage_ok m' (w_active wb) st' ∧ only_owner (w_memory wb) m' (w_active wb) ∧
        keeps_statics (w_memory wb) m' ∧ placed (w_memory wb) m' (w_active wb) o total zeroed
    end).
Proof.
  intros Hw Hheap Htotal. destruct (storage_allocate_ok w hs ly total zeroed heap Hw Hheap Htotal) as ([r w1] & -> & Hr).
  rewrite bind_Ok. destruct r as [o|].
  - destruct Hr as (m' & st' & Hrest). apply ends_Ok. exists w, heap, m', st'. split; [done|].
    split; [by apply retains_refl|done].
  - subst w1. eapply ends_bind.
    { apply ends_yields; [done|]. eapply yields_weaken; [by apply collect_ok|]. intros w' [Hw' Hc].
      pose proof (collected_retains _ _ _ _ Hheap Hc) as Hret. exact (conj Hw' Hret). }
    intros w2 (Hw2 & heap2 & Hret2). left. destruct (rt_states _ _ _ _ _ Hret2) as [_ Hheap2].
    rewrite <-(rt_active _ _ _ _ _ Hret2) in Hheap2.
    destruct (storage_allocate_ok w2 hs ly total zeroed heap2 Hw2 Hheap2 Htotal) as ([r w3] & -> & Hr).
    apply returns_Ok. destruct r as [o|]; [|done]. destruct Hr as (m' & st' & Hrest). exists w2, heap2, m', st'. done.
Qed.

(** Why an allocation may panic: there is no memory for it, or the runtime is not initialized
    or the descriptor does not allow what was asked for. *)
Definition allocation_refused (heap : runtime_state) (type psize palign : N) (code : N) : Prop :=
  code = PANIC_OUT_OF_MEMORY ∨
  code = PANIC_RUNTIME_CONTRACT ∧
    ¬ (rs_phase heap = active ∧ ∃ d, type ≠ 0 ∧ descriptor type = Some d ∧ allocation_contract d psize palign = true).

Lemma allocate_managed_ends `{RuntimeHost} `{LawfulHost} `{!LawfulTrace} w hs ly heap type psize palign zeroed :
  world_ok w hs ly → w_states w !! w_active w = Some heap → type_contract type zeroed →
  ends (allocation_refused heap type psize palign) (allocate_managed type psize palign zeroed w) (λ '(o, w'),
    world_ok w' hs ly ∧ allocated w w' ly heap type psize zeroed o).
Proof.
  intros Hw Hheap Htype. unfold allocate_managed.
  eapply ends_bind; [eapply ends_weaken; [by eapply require_initialized_ends| |done]|].
  { intros code [-> Hno]. right. split; [done|]. by intros [? _]. }
  intros [] Hph.
  assert (current_state w = Ok (w_active w, heap)) as ->
    by (unfold current_state, load_state; rewrite Hheap, load_Some; done).
  rewrite bind_Ok. unfold phase_is at 1. rewrite bool_decide_false by (rewrite Hph; done).
  unfold validate_type. destruct (N.eqb_spec type 0) as [Htz|Htz].
  { right. eexists _, _. split; [right; split; [reflexivity|]|done]. by intros (_ & d & ? & _). }
  destruct Htype as [|([d Hd] & Hlit & Hzu)]; [done|]. rewrite Hd, load_Some, bind_Ok.
  destruct (allocation_contract d psize palign) eqn:Hc.
  2: { right. eexists _, _. split; [right; split; [reflexivity|]|done]. intros (_ & d' & _ & Hd' & Hc'). congruence. }
  rewrite bind_Ok. cbv zeta.
  assert (psize ≤ u64_max - sizeof_header) as Hpsize.
  { unfold allocation_contract in Hc. apply andb_true_iff in Hc as [_ Hc]. by apply N.leb_le in Hc. }
  rewrite u64_small by (unfold u64_max, sizeof_header in *; lia). set (total := sizeof_header + psize).
  match goal with |- ends _ (if ?b then _ else _) _ => destruct b eqn:Heqb end; [apply ends_panic; by left|].
  apply orb_false_iff in Heqb as [Hroom%N.ltb_ge _].
  assert (∀ code, PANIC_OUT_OF_MEMORY = code → allocation_refused heap type psize palign code) as Hmemory by (intros code <-; by left).
  eapply ends_bind; [eapply ends_weaken; [by apply (maybe_collect_ok _ w hs ly heap)|exact Hmemory|done]|]. intros w1 (Hw1 & heap1 & Hret1).
  destruct (rt_states _ _ _ _ _ Hret1) as [_ Hheap1]. rewrite <-(rt_active _ _ _ _ _ Hret1) in Hheap1.
  pose proof (retry_allocate_ok w1 hs ly heap1 total zeroed Hw1 Hheap1 ltac:(unfold total; lia)) as Hretry.
  revert Hretry. destruct (storage_allocate total zeroed w1) as [[r1 w1']|e] eqn:Hsa; intros Hretry;
    [rewrite bind_Ok; rewrite bind_Ok in Hretry|].
  2: { destruct Hretry as [(? & ? & _)|(code & msg & Hcode & Hx)]; [done|]. simpl in Hx. injection Hx as ->. apply ends_panic. by apply Hmemory. }
  eapply ends_bind; [eapply ends_weaken; [exact Hretry|exact Hmemory|intros x Hx; exact Hx]|].
  intros [[o|] w2]; [|intros _; apply ends_panic; by left].
  intros (wb & heapb & m2 & st2 & Hwb & Hretb & -> & Hm2 & Hst2 & Hown & Hkeep & Hpl).
  pose proof (retains_trans _ _ _ _ _ _ _ Hret1 Hretb) as Hret. set (h := w_active wb) in *.
  pose proof (rt_active _ _ _ _ _ Hret) as Hact. fold h in Hact.
  destruct (rt_states _ _ _ _ _ Hret) as [_ Hheapb]. rewrite <-Hact in Hheapb.
  pose proof (retains_bytes _ _ _ _ _ _ Hw Hwb Hret) as Hle.
  destruct (placed_header _ _ _ _ _ _ Hpl) as (ob & Hob & Hlen & Hzero).
  assert (length_N (ob_payload ob) = psize) as Hlen' by (unfold total, sizeof_header in Hlen; lia).
  assert (zeroed = true → ob_payload ob = zeros psize) as Hzero'.
  { intros Hzt. destruct (Hzero Hzt) as [_ ->]. f_equal. unfold total. lia. }
  set (ob' := mk_object type (ob_runtime_word ob) (ob_payload ob)).
  destruct (new_object_ok type d o ob' zeroed psize palign) as [Htr Hnull]; [done..|].
  unfold current_state, load_state. simpl. rewrite lookup_insert_eq. simpl. unfold load_object. rewrite Hob. simpl.
  assert (rs_byte_count heapb + total ≤ u64_max) as Hroom'.
  { unfold total, sizeof_header, u64_max in *. lia. }
  destruct (world_current _ _ _ Hwb) as (anc & heap0 & Hhs & _). fold h in Hhs. rewrite Hhs in *.
  pose proof (finish_world wb ly anc heapb m2 st2 o type total zeroed ob Hwb Hheapb Hm2 Hst2 Hown Hkeep Hpl Hob Htr Hnull
    Hroom') as Hfin. fold h in Hfin.
  match goal with |- ends _ (assert_consistent ?x ≫= _) _ => set (w' := x); assert (world_ok w' (h :: anc) ly) as Hw' end.
  { unfold w', store_state, with_states, with_memory. simpl. rewrite insert_insert_eq. exact Hfin. }
  rewrite (assert_consistent_ok w' _ _ Hw'), bind_Ok. apply ends_Ok. split; [done|].
  pose proof (finish_kept wb m2 o type total zeroed ob Hpl) as Hkept.
  constructor.
  - rewrite <-Hact. by eapply (finish_new wb m2 o type total zeroed ob).
  - exists ob'. split; [|done]. simpl. by rewrite lookup_insert_eq.
  - apply Hpl.
  - intros x o' bytes k Hl Hr. pose proof (rt_keep _ _ _ _ _ Hret _ _ _ _ Hl Hr) as Hlb.
    destruct (Hkept _ _ _ _ Hlb) as (Hne & Hl' & Hobj). split_and!; try done. simpl in Hobj |- *. rewrite Hobj.
    by apply (rt_back _ _ _ _ _ Hret) in Hlb as [_ ?].
  - intros x o' bytes k Hl Hne. apply (finish_live wb m2 o type total zeroed ob Hpl) in Hl. rewrite decide_False in Hl by done.
    destruct (Hkept _ _ _ _ Hl) as (_ & _ & Hobj). apply (rt_back _ _ _ _ _ Hret) in Hl as [Hl Heq].
    split; [done|]. simpl in Hobj |- *. congruence.
  - exact Hact.
  - eexists. simpl. rewrite <-Hact, lookup_insert_eq. split; [done|]. fold w'.
    rewrite <-(rt_roots _ _ _ _ _ Hret). unfold active_roots. simpl.
    by apply (root_refs_kept wb w' ly ly h heapb); [apply chains_kept_refl|].
  - eapply keeps_trans; [apply Hret|]. by eapply (finish_statics wb m2 o type total zeroed ob).
Qed.

Lemma allocate_managed_ok `{RuntimeHost} `{LawfulHost} `{!LawfulTrace} w hs ly heap type psize palign zeroed :
  world_ok w hs ly → w_states w !! w_active w = Some heap → type_contract type zeroed →
  safe (allocate_managed type psize palign zeroed w) (λ '(o, w'),
    world_ok w' hs ly ∧ allocated w w' ly heap type psize zeroed o).
Proof. intros Hw Hheap Htype. eapply ends_safe. by eapply allocate_managed_ends. Qed.
End allocation.
