(* ===== verification/NativeSafety.v ===== *)
(** * Native memory

    The runtime's native allocations: a doubly linked list per context whose nodes
    carry the sizes, so that the context can account for and release what the program
    forgot.  Allocation, resizing and release keep the list and the contents. *)

From S2P Require Import Prelude Chains Storage Slabs Memory StorageSafety Sweep.
From S2P Require Import Heap Marking Collector HeapInvariant Collection RuntimeApi.
From S2P Require Import Payloads ApiSafety.

Local Open Scope string_scope.
Local Open Scope list_scope.
Local Open Scope N_scope.

(** What [new], [platform::allocate] and [malloc] promise: a non-null result is fresh. *)
Class LawfulRuntimeHost `{RuntimeHost} := {
  new_state_ok : ∀ w, new_state w ≠ 0 → w_states w !! new_state w = None;
  native_allocate_ok : ∀ w n alignment, native_allocate w n alignment ≠ 0 →
    w_bytes w !! native_allocate w n alignment = None;
  native_node_ok : ∀ w, native_node w ≠ 0 → w_natives w !! native_node w = None;
  native_residue_length : ∀ w a n, length_N (native_residue w a n) = n;
}.

(** ** The list *)

Definition set_na_next (a : N) (n : native_allocation) : native_allocation :=
  mk_native (na_previous n) a (na_pointer n) (na_byte_count n) (na_alignment n).
Definition set_na_previous (a : N) (n : native_allocation) : native_allocation :=
  mk_native a (na_next n) (na_pointer n) (na_byte_count n) (na_alignment n).

Lemma linked_head w head previous l : linked w head previous l → head = default 0 (hd_error l).
Proof. destruct l; [done|]. by intros (-> & _). Qed.

Lemma linked_mapped w head previous l a : linked w head previous l → a ∈ l → a ≠ 0 ∧ is_Some (w_natives w !! a).
Proof.
  revert head previous. induction l as [|x l IH]; intros head previous Hl Ha; [by apply elem_of_nil in Ha|].
  destruct Hl as (-> & Hx & n & Hn & _ & Hl). apply elem_of_cons in Ha as [->|Ha]; [by split; [|exists n]|eauto].
Qed.

Lemma linked_fuel w head previous l : linked w head previous l → NoDup l → (length l < list_fuel (w_natives w))%nat.
Proof. intros Hl Hnd. apply list_fuel_ok; [done|]. intros a Ha. by eapply linked_mapped. Qed.

(** A new node in front. *)
Lemma linked_cons w w' head previous l a n :
  linked w head 0 l → a ≠ 0 → a ∉ l → NoDup l → w_natives w' !! a = Some n → na_previous n = previous →
  na_next n = head →
  (∀ x, x ∈ l → w_natives w' !! x = (if decide (x = head) then set_na_previous a else id) <$> w_natives w !! x) →
  linked w' a previous (a :: l).
Proof.
  intros Hl Ha Hal Hnd Hn Hp Hnx Hx. split; [done|]. split; [done|]. exists n. split; [done|]. split; [done|].
  rewrite Hnx. destruct l as [|b l]; [done|]. destruct Hl as (-> & Hb & nb & Hnb & _ & Hl).
  apply NoDup_cons in Hnd as [Hbl Hnd]. split; [done|]. split; [done|]. exists (set_na_previous a nb).
  rewrite Hx, Hnb, decide_True by set_solver. split; [done|]. split; [done|]. simpl.
  eapply linked_ext; [|exact Hl]. intros x Hxl. rewrite Hx by set_solver.
  rewrite decide_False by (intros ->; done). by destruct (w_natives w !! x).
Qed.

(** Unlinking the node [a]. *)
Lemma linked_remove w w' a n l1 l2 head previous :
  linked w head previous (l1 ++ a :: l2) → NoDup (l1 ++ a :: l2) → w_natives w !! a = Some n →
  (∀ x, x ∈ l1 ++ l2 → w_natives w' !! x =
     (λ m, (if decide (x = default previous (last l1)) then set_na_next (na_next n) else id)
             ((if decide (x = na_next n) then set_na_previous (na_previous n) else id) m)) <$> w_natives w !! x) →
  previous ∉ l1 ++ l2 →
  linked w' (match l1 with [] => na_next n | _ => head end) previous (l1 ++ l2) ∧
  na_previous n = default previous (last l1) ∧ na_next n = default 0 (hd_error l2).
Proof.
  revert head previous. induction l1 as [|b l1 IH]; intros head previous Hl Hnd Hn Hx Hprev.
  - destruct Hl as (-> & Ha & n' & Hn' & Hp & Hl). rewrite Hn in Hn'. injection Hn' as <-. simpl in *.
    pose proof (linked_head _ _ _ _ Hl) as Hhead. split; [|done].
    destruct l2 as [|c l2]; [done|]. simpl in Hhead. destruct Hl as (_ & Hc & nc & Hnc & _ & Hl).
    apply NoDup_cons in Hnd as [_ [Hcl Hnd]%NoDup_cons].
    split; [done|]. split; [done|]. exists (set_na_previous (na_previous n) nc).
    rewrite Hx, Hnc, decide_False, decide_True by set_solver. split; [done|]. split; [done|]. simpl.
    eapply linked_ext; [|exact Hl]. intros x Hxl. rewrite Hx by set_solver.
    rewrite !decide_False by (intros ->; set_solver). by destruct (w_natives w !! x).
  - destruct Hl as (-> & Hb & nb & Hnb & Hpb & Hl). apply NoDup_cons in Hnd as [Hbl Hnd].
    assert (b ∉ l1 ++ l2) as Hbl' by set_solver.
    destruct (IH (na_next nb) b Hl Hnd Hn) as (Hl' & Hp' & Hn'); [|done|].
    { intros x Hxl. rewrite Hx by set_solver. rewrite last_cons. destruct (last l1) as [y|] eqn:Hlast; [done|].
      simpl. done. }
    rewrite last_cons. split; [|split; [|done]].
    + split; [done|]. split; [done|]. rewrite Hx, Hnb by set_solver. rewrite last_cons.
      destruct l1 as [|b' l1].
      * simpl in *. rewrite decide_True by done. eexists. split; [done|].
        assert (b ≠ na_next n) as Hbn.
        { rewrite Hn'. destruct l2 as [|c l2]; simpl; [done|]. intros <-. set_solver. }
        rewrite decide_False by done. split; [done|]. exact Hl'.
      * assert (is_Some (last (b' :: l1))) as [y Hy] by (rewrite last_cons; by destruct (last l1); eexists).
        assert (y ∈ b' :: l1) as Hyl by by apply last_Some_elem_of.
        rewrite Hy. simpl. rewrite decide_False by (intros ->; set_solver).
        assert (b ≠ na_next n) as Hbn.
        { rewrite Hn'. destruct l2 as [|c l2]; simpl; [done|]. intros <-. set_solver. }
        rewrite decide_False by done. eexists. split; [done|]. split; [done|]. exact Hl'.
    + rewrite Hp'. by destruct (last l1).
Qed.

(** The links of the node [a]. *)
Lemma linked_split w a n l1 l2 head previous :
  linked w head previous (l1 ++ a :: l2) → w_natives w !! a = Some n →
  na_previous n = default previous (last l1) ∧ na_next n = default 0 (hd_error l2) ∧
  head = default a (hd_error l1).
Proof.
  revert head previous. induction l1 as [|b l1 IH]; intros head previous.
  - intros (-> & _ & n' & Hn' & Hp & Hl) Hn. rewrite Hn in Hn'. injection Hn' as <-. split_and!; [done| |done].
    by apply linked_head in Hl.
  - intros (-> & _ & nb & _ & _ & Hl) Hn. destruct (IH _ _ Hl Hn) as (Hp & Hx & _). split_and!; [|done..].
    rewrite Hp, last_cons. by destruct (last l1).
Qed.

(** The two writes of [unlink_native]. *)
Definition unlinked (n : native_allocation) (natives : gmap N native_allocation) : gmap N native_allocation :=
  let natives := if decide (na_previous n = 0) then natives
                 else alter (set_na_next (na_next n)) (na_previous n) natives in
  if decide (na_next n = 0) then natives else alter (set_na_previous (na_previous n)) (na_next n) natives.

Lemma unlinked_lookup n natives x :
  x ≠ 0 → unlinked n natives !! x =
    (λ m, (if decide (x = na_previous n) then set_na_next (na_next n) else id)
            ((if decide (x = na_next n) then set_na_previous (na_previous n) else id) m)) <$> natives !! x.
Proof.
  intros Hx. unfold unlinked.
  assert (∀ (f : native_allocation → native_allocation) k (mp : gmap N native_allocation),
    (if decide (k = 0) then mp else alter f k mp) !! x = (if decide (x = k) then f else id) <$> mp !! x) as Hal.
  { intros f k mp. case_decide as Hk.
    - rewrite decide_False by congruence. by rewrite option_fmap_id.
    - case_decide as Hxk; [subst; by rewrite lookup_alter_eq|]. by rewrite lookup_alter_ne, option_fmap_id. }
  rewrite !Hal, <-option_fmap_compose. apply option_fmap_ext. intros m. simpl. by repeat case_decide.
Qed.

Lemma alter_insert {A} (f : A → A) (mp : gmap N A) k a : mp !! k = Some a → alter f k mp = <[k := f a]> mp.
Proof.
  intros Hk. apply map_eq. intros x. destruct (decide (x = k)) as [->|].
  - by rewrite lookup_alter_eq, lookup_insert_eq, Hk.
  - by rewrite lookup_alter_ne, lookup_insert_ne by done.
Qed.

(** What the accounting and the contents read of a node. *)
Definition same_storage (w w' : world) (a : N) : Prop :=
  na_pointer (native_at w' a) = na_pointer (native_at w a) ∧ na_byte_count (native_at w' a) = na_byte_count (native_at w a).

Lemma native_bytes_same w w' l : (∀ a, a ∈ l → same_storage w w' a) → native_bytes w' l = native_bytes w l.
Proof.
  induction l as [|a l IH]; intros Hs; [done|]. simpl. rewrite (proj2 (Hs a ltac:(set_solver))), IH by set_solver. done.
Qed.

Lemma native_bytes_app w l1 l2 : native_bytes w (l1 ++ l2) = native_bytes w l1 + native_bytes w l2.
Proof. induction l1 as [|a l1 IH]; [done|]. simpl. rewrite IH. lia. Qed.

Lemma pointers_same w w' (l : list N) :
  (∀ a, a ∈ l → same_storage w w' a) →
  (λ a, na_pointer (native_at w' a)) <$> l = (λ a, na_pointer (native_at w a)) <$> l.
Proof. intros Hs. apply list_fmap_ext. intros i a Ha. apply Hs. by eapply list_elem_of_lookup_2. Qed.

(** ** Storage of the nodes *)

Lemma native_storage_relinked natives natives' bytes :
  (∀ a, na_pointer <$> natives' !! a = na_pointer <$> natives !! a) →
  native_storage natives bytes → native_storage natives' bytes.
Proof.
  intros Heq [H1 H2].
  assert (∀ a n, natives' !! a = Some n → ∃ n0, natives !! a = Some n0 ∧ na_pointer n0 = na_pointer n) as Hback.
  { intros a n Ha. specialize (Heq a). rewrite Ha in Heq. destruct (natives !! a) as [n0|]; [|done].
    injection Heq as Heq. eauto. }
  split.
  - intros a n (n0 & Hn0 & <-)%Hback. eauto.
  - intros a b n n' (n0 & Hn0 & <-)%Hback (n0' & Hn0' & <-)%Hback. eauto.
Qed.

Lemma native_storage_insert natives bytes a n contents :
  native_storage natives bytes → natives !! a = None → bytes !! na_pointer n = None →
  native_storage (<[a := n]> natives) (<[na_pointer n := contents]> bytes).
Proof.
  intros [H1 H2] Ha Hp. split.
  - intros b m. rewrite lookup_insert_Some, lookup_insert_is_Some. intros [[_ ->]|[_ Hb]]; [by left|].
    destruct (decide (na_pointer n = na_pointer m)); [by left|right]. eauto.
  - assert (∀ b m, natives !! b = Some m → na_pointer m ≠ na_pointer n) as Hne.
    { intros b m Hb Heq. apply H1 in Hb as [? ?]. congruence. }
    intros b c m m'. rewrite !lookup_insert_Some.
    intros [[<- <-]|[_ Hb]] [[<- <-]|[_ Hc]] Heq; [done| | |by eauto].
    + by apply Hne in Hc; rewrite Heq in Hc.
    + by apply Hne in Hb; rewrite Heq in Hb.
Qed.

Lemma native_storage_delete natives bytes a n :
  native_storage natives bytes → natives !! a = Some n →
  native_storage (delete a natives) (delete (na_pointer n) bytes).
Proof.
  intros [H1 H2] Ha. split.
  - intros b m [Hb Hm]%lookup_delete_Some. rewrite lookup_delete_ne; [eauto|]. intros Heq. apply Hb. eauto.
  - intros b c m m' [_ Hb]%lookup_delete_Some [_ Hc]%lookup_delete_Some. eauto.
Qed.

Lemma native_storage_contents natives bytes p contents :
  native_storage natives bytes → native_storage natives (<[p := contents]> bytes).
Proof. intros [H1 H2]. split; [|done]. intros a n Ha. rewrite lookup_insert_is_Some'. right. eauto. Qed.

Section natives.
Context `{Program} `{LawfulRuntimeHost}.

(** Nodes and storage of any context are mapped. *)
Lemma natives_mapped w hs ly x a :
  world_ok w hs ly → x ∈ hs → a ∈ ly_natives ly x →
  a ≠ 0 ∧ is_Some (w_natives w !! a) ∧ is_Some (w_bytes w !! na_pointer (native_at w a)).
Proof.
  intros Hw Hx Ha. apply list_elem_of_split in Hx as (pre & anc & ->).
  assert (is_Some (w_states w !! x)) as [heap Hheap] by (apply (wd_states _ _ _ Hw); set_solver).
  pose proof (wd_heaps _ _ _ Hw _ _ _ _ eq_refl Hheap) as Hok.
  destruct (hp_natives _ _ _ _ _ Hok) as [Hl _ _ _ _ Hc]. destruct (linked_mapped _ _ _ _ _ Hl Ha) as [Haz Hmap]. split_and!; [done..|].
  destruct (Hc a Ha) as (_ & bytes & Hb & _). by exists bytes.
Qed.

(** The parts of a world the native operations leave alone. *)
Definition natives_only (w w' : world) : Prop :=
  w_memory w' = w_memory w ∧ w_active w' = w_active w ∧ w_tracing w' = w_tracing w ∧ w_frames w' = w_frames w ∧
  w_borrows w' = w_borrows w ∧ w_entries w' = w_entries w ∧ w_words w' = w_words w.

Lemma world_ok_natives w w' ly h anc heap nl head bytes :
  world_ok w (h :: anc) ly → w_states w !! h = Some heap → rs_phase heap = active → natives_only w w' →
  w_states w' = <[h := set_natives head bytes heap]> (w_states w) →
  (∀ x a, x ∈ anc → a ∈ ly_natives ly x → w_natives w' !! a = w_natives w !! a ∧
     w_bytes w' !! na_pointer (native_at w a) = w_bytes w !! na_pointer (native_at w a)) →
  natives_ok w' (set_natives head bytes heap) nl →
  (∀ a x, a ∈ nl → x ∈ anc → a ∉ ly_natives ly x) →
  native_storage (w_natives w') (w_bytes w') →
  world_ok w' (h :: anc) (with_ly_natives h nl ly).
Proof.
  intros Hw Hheap Hph (E1 & E2 & E3 & E4 & E5 & E6 & E7) Hst Hkept Hnl Hap.
  pose proof (wd_heaps _ _ _ Hw [] _ _ _ eq_refl Hheap) as Hok.
  pose proof (wd_nodup _ _ _ Hw) as Hnd. apply NoDup_cons in Hnd as [Hh _].
  assert (∀ r, r ∈ root_refs w' (set_natives head bytes heap) (ly_frames ly h) (ly_borrows ly h) →
    r ∈ root_refs w heap (ly_frames ly h) (ly_borrows ly h)) as Hroots.
  { intros r. rewrite !elem_of_root_refs. unfold frame_roots, borrow_root, word. by rewrite E4, E5, E7. }
  eapply (world_ok_update w w' ly _ h anc heap (set_natives head bytes heap)); try done.
  - by left.
  - intros x Hx. assert (x ≠ h) as Hxh by (by intros ->).
    constructor; simpl; rewrite ?E4, ?E5, ?E6, ?E7; try done; [by rewrite set_list_ne|]. intros a Ha. by eapply Hkept.
  - pose proof (hp_chains _ _ _ _ _ Hok) as [C1 C2 C3 C4 C5 C6 C7]. simpl. constructor; try done.
    + eapply chain_ext; [|exact C1]. intros a _. unfold frame_previous. by rewrite E4.
    + intros a Ha. unfold frame_ok. rewrite E4, E7. by apply C3.
    + eapply chain_ext; [|exact C4]. intros a _. unfold borrow_previous. by rewrite E5.
    + intros a Ha. unfold borrow_ok. rewrite E5. by apply C6.
    + intros slot Hs. unfold persistent_ok. rewrite E7. by apply C7.
  - simpl. eapply chain_ext; [|apply (hp_entries _ _ _ _ _ Hok)]. intros a _. unfold entry_previous. by rewrite E6.
  - apply (hp_entries_nodup _ _ _ _ _ Hok).
  - simpl. rewrite E6. apply (hp_owning _ _ _ _ _ Hok).
  - simpl. by rewrite set_list_eq.
  - simpl. intros r Hr. by apply (hp_roots _ _ _ _ _ Hok), Hroots.
  - keep_apart Hw.
  - keep_apart Hw.
  - keep_apart Hw.
  - simpl. by rewrite set_list_eq.
Qed.

Lemma allocate_native_memory_ok w hs ly heap byte_count alignment zeroed :
  byte_count ≤ u64_max → world_ok w hs ly → w_states w !! w_active w = Some heap → rs_phase heap = active →
  safe (allocate_native_memory byte_count alignment zeroed w) (λ '(p, w'),
    ∃ node contents, p ≠ 0 ∧ w_bytes w !! p = None ∧ w_bytes w' = <[p := contents]> (w_bytes w) ∧
      length_N contents = N.max 1 byte_count ∧ (zeroed = true → contents = zeros (N.max 1 byte_count)) ∧
      node ∉ ly_natives ly (w_active w) ∧ na_pointer (native_at w' node) = p ∧ na_byte_count (native_at w' node) = byte_count ∧
      (∀ a, a ∈ ly_natives ly (w_active w) → same_storage w w' a) ∧ natives_only w w' ∧
      (∃ heap', w_states w' !! w_active w = Some heap' ∧ rs_phase heap' = active) ∧
      world_ok w' hs (with_ly_natives (w_active w) (node :: ly_natives ly (w_active w)) ly)).
Proof.
  intros Hwidth Hw Hheap Hph. destruct (world_current _ _ _ Hw) as (anc & heap0 & -> & Hheap0 & Hcur & Hok & Hh & Hz).
  rewrite Hheap in Hheap0. injection Hheap0 as <-. set (h := w_active w) in *. set (nl := ly_natives ly h) in *.
  unfold allocate_native_memory. split_guard; [apply safe_contract|].
  set (requested := if byte_count =? 0 then 1 else byte_count). assert (requested = N.max 1 byte_count) as Hreq.
  { unfold requested. case N.eqb_spec; lia. }
  set (p := native_allocate w requested alignment). case N.eqb_spec; intros Hp; [apply safe_memory|].
  pose proof (native_allocate_ok w requested alignment Hp) as Hpf. fold p in Hpf.
  set (contents := if zeroed then zeros requested else native_residue w p requested). rewrite Hcur, bind_Ok.
  assert (length_N contents = requested) as Hlen.
  { unfold contents. destruct zeroed; [|apply native_residue_length]. unfold zeros, length_N. rewrite length_replicate. lia. }
  split_guard; [apply safe_memory|]. apply orb_false_iff in Heqb0 as [Hnode%N.eqb_neq Hroom%N.ltb_ge].
  pose proof (native_node_ok w Hnode) as Hnf. set (node := native_node w) in *.
  destruct (hp_natives _ _ _ _ _ Hok) as [Hl Hnd Hnb Hbound Hptr Hc]. fold nl in Hl, Hnd, Hnb, Hbound, Hptr, Hc.
  assert (node ∉ nl) as Hnn.
  { intros Hin. destruct (linked_mapped _ _ _ _ _ Hl Hin) as [_ [? ?]]. congruence. }
  set (new := mk_native 0 (rs_native_head heap) p byte_count alignment).
  set (natives' := if decide (rs_native_head heap = 0) then w_natives w
                   else alter (set_na_previous node) (rs_native_head heap) (w_natives w)).
  assert (∀ k : gmap N native_allocation → result (N * world),
    ((if rs_native_head heap =? 0 then Ok (w_natives w)
      else first ← load "native_allocation" (w_natives w !! rs_native_head heap);
        Ok (<[rs_native_head heap := mk_native node (na_next first) (na_pointer first)
               (na_byte_count first) (na_alignment first)]> (w_natives w))) ≫= k) = k natives') as Hfirst.
  { intros k. unfold natives'. case N.eqb_spec; intros Hhd; [by rewrite decide_True|]. rewrite decide_False by done.
    destruct nl as [|b nl']; [by simpl in Hl|]. destruct Hl as (-> & _ & nb & Hb & _). rewrite Hb. simpl.
    f_equal. apply map_eq. intros x. destruct (decide (x = b)) as [->|Hx].
    - by rewrite lookup_insert_eq, lookup_alter_eq, Hb.
    - by rewrite lookup_insert_ne, lookup_alter_ne by done. }
  rewrite Hfirst. cbv zeta. set (heap' := set_natives _ _ _). set (w' := store_state _ _ _).
  assert (∀ x, x ≠ node → x ≠ rs_native_head heap → w_natives w' !! x = w_natives w !! x) as Hout.
  { intros x Hxn Hxh. simpl. rewrite lookup_insert_ne by done. unfold natives'.
    destruct (decide _); [done|]. by rewrite lookup_alter_ne. }
  assert (∀ x, x ∈ nl → w_natives w' !! x =
    (if decide (x = rs_native_head heap) then set_na_previous node else id) <$> w_natives w !! x) as Hx.
  { intros x Hxl. assert (x ≠ node) by (by intros ->). destruct (linked_mapped _ _ _ _ _ Hl Hxl) as [Hxz _].
    destruct (decide (x = rs_native_head heap)) as [->|Hxh].
    - simpl. rewrite lookup_insert_ne by done. unfold natives'. rewrite decide_False by done. apply lookup_alter_eq.
    - rewrite Hout by done. by destruct (w_natives w !! x). }
  assert (∀ a, a ∈ nl → same_storage w w' a) as Hsame.
  { intros a Ha. unfold same_storage, native_at. rewrite Hx by done.
    destruct (w_natives w !! a) as [n|]; [|done]. simpl. by case_decide. }
  assert (native_at w' node = new) as Hnew by (unfold native_at; simpl; by rewrite lookup_insert_eq).
  assert (∀ a, a ∈ nl → na_pointer (native_at w a) ≠ p) as Hpn.
  { intros a Ha Heq. destruct (Hc a Ha) as (_ & bytes & Hb & _). congruence. }
  assert (u64 (rs_native_byte_count heap + byte_count) = byte_count + native_bytes w nl) as Hsum.
  { rewrite u64_small by lia. rewrite Hnb. apply N.add_comm. }
  assert (world_ok w' (h :: anc) (with_ly_natives h (node :: nl) ly)) as Hw'.
  { eapply (world_ok_natives w w' ly h anc heap); try done.
    - intros x a Hxa Ha. assert (a ≠ node) as Han.
      { intros ->. destruct (natives_mapped _ _ _ x node Hw ltac:(set_solver) Ha) as (_ & [? ?] & _). congruence. }
      assert (a ∉ nl) as Hanl.
      { intros Hin. by eapply (active_apart ly h anc x a ly_natives (wd_natives _ _ _ Hw) Hh Hxa Hin). }
      split.
      + apply Hout; [done|]. intros ->. apply Hanl. rewrite (linked_head _ _ _ _ Hl) in Ha |- *.
        destruct nl as [|b nl']; [|simpl; set_solver]. simpl in Ha.
        destruct (natives_mapped _ _ _ x 0 Hw ltac:(set_solver) Ha) as (? & _). done.
      + simpl. rewrite lookup_insert_ne; [done|]. intros Heq.
        destruct (natives_mapped _ _ _ x a Hw ltac:(set_solver) Ha) as (_ & _ & [? ?]). congruence.
    - constructor.
      + eapply (linked_cons w w' (rs_native_head heap) 0 nl node new); try done.
        simpl. by rewrite lookup_insert_eq.
      + by apply NoDup_cons.
      + simpl. rewrite Hnew, (native_bytes_same w) by done. exact Hsum.
      + simpl. rewrite Hnew, (native_bytes_same w) by done. simpl. lia.
      + simpl. rewrite Hnew, (pointers_same w) by done. apply NoDup_cons. split; [|done].
        intros (a & Heq & Ha)%list_elem_of_fmap. by eapply Hpn.
      + intros a [->|Ha]%elem_of_cons.
        * rewrite Hnew. split; [done|]. exists contents. simpl. rewrite lookup_insert_eq. split; [done|]. lia.
        * destruct (Hsame a Ha) as [-> ->]. destruct (Hc a Ha) as (Hpz & bytes & Hb & Hbl). split; [done|].
          exists bytes. simpl. rewrite lookup_insert_ne by (intros Heq; by eapply Hpn). done.
    - intros a x [->|Ha]%elem_of_cons Hxa.
      + intros Hin. destruct (natives_mapped _ _ _ x node Hw ltac:(set_solver) Hin) as (_ & [? ?] & _). congruence.
      + by eapply (active_apart ly h anc x a ly_natives (wd_natives _ _ _ Hw) Hh Hxa).
    - apply (native_storage_insert _ _ node new); [|simpl|done].
      + eapply native_storage_relinked; [|exact (wd_native_storage _ _ _ Hw)]. intros a. unfold natives'.
        case_decide; [done|]. destruct (decide (a = rs_native_head heap)) as [->|].
        * rewrite lookup_alter_eq, <-option_fmap_compose. by apply option_fmap_ext.
        * by rewrite lookup_alter_ne.
      + unfold natives'. case_decide; [done|]. rewrite lookup_alter_None. done. }
  rewrite (assert_consistent_ok w' _ _ Hw'), bind_Ok. apply safe_Ok. exists node, contents.
  split_and!; try done.
  - by rewrite Hlen.
  - intros ->. unfold contents. by rewrite Hreq.
  - by rewrite Hnew.
  - by rewrite Hnew.
  - exists heap'. simpl. by rewrite lookup_insert_eq.
Qed.
(** ** Release *)

Lemma find_native_from_ok w fuel head previous l p :
  linked w head previous l → (length l < fuel)%nat →
  returns (find_native_from fuel w head p) (λ r, match r with
    | Some a => a ∈ l ∧ na_pointer (native_at w a) = p
    | None => ∀ a, a ∈ l → na_pointer (native_at w a) ≠ p
    end).
Proof.
  revert fuel head previous. induction l as [|a l IH]; intros [|fuel] head previous Hl Hf; simpl in Hf; try lia.
  - simpl in Hl. subst head. apply returns_Ok. intros a Ha. by apply elem_of_nil in Ha.
  - destruct Hl as (-> & Ha & n & Hn & _ & Hl). cbn [find_native_from].
    rewrite (proj2 (N.eqb_neq _ _) Ha), Hn, load_Some, bind_Ok.
    assert (native_at w a = n) as Hat by (unfold native_at; by rewrite Hn).
    case N.eqb_spec; intros Hp; [apply returns_Ok; split; [set_solver|by rewrite Hat]|].
    eapply returns_weaken; [apply (IH fuel _ _ Hl); lia|]. intros [b|].
    + intros [Hb ?]. split; [set_solver|done].
    + intros Hnone b [->|Hb]%elem_of_cons; [by rewrite Hat|by apply Hnone].
Qed.

Lemma find_native_ok w h heap nl p :
  current_state w = Ok (h, heap) → natives_ok w heap nl →
  returns (find_native w p) (λ r, match r with
    | Some a => a ∈ nl ∧ na_pointer (native_at w a) = p
    | None => ∀ a, a ∈ nl → na_pointer (native_at w a) ≠ p
    end).
Proof.
  intros Hcur Hn. unfold find_native. rewrite Hcur, bind_Ok.
  eapply find_native_from_ok; [apply (nt_linked _ _ _ Hn)|]. eapply linked_fuel; [apply (nt_linked _ _ _ Hn)|].
  apply (nt_nodup _ _ _ Hn).
Qed.

Lemma unlink_native_eq w h heap a n l1 l2 :
  current_state w = Ok (h, heap) → linked w (rs_native_head heap) 0 (l1 ++ a :: l2) → w_natives w !! a = Some n →
  unlink_native a w = Ok (store_state h
    (set_natives (if decide (na_previous n = 0) then na_next n else rs_native_head heap) (rs_native_byte_count heap) heap)
    (with_natives (unlinked n) id w)).
Proof.
  intros Hcur Hl Hn. destruct (linked_split _ _ _ _ _ _ _ Hl Hn) as (Hp & Hx & _).
  assert (w_states w !! h = Some heap) as Hheap.
  { revert Hcur. unfold current_state, load_state. destruct (w_states w !! w_active w) eqn:Hs; [|done].
    by intros [= <- <-]. }
  assert (na_previous n ≠ 0 → is_Some (w_natives w !! na_previous n)) as Hpm.
  { rewrite Hp. destruct (last l1) as [b|] eqn:Hb; [|done]. intros _. eapply linked_mapped; [exact Hl|].
    apply last_Some_elem_of in Hb. set_solver. }
  assert (na_next n ≠ 0 → is_Some (w_natives w !! na_next n)) as Hxm.
  { rewrite Hx. destruct l2 as [|c l2]; [done|]. intros _. eapply linked_mapped; [exact Hl|]. set_solver. }
  unfold unlink_native. rewrite Hcur, bind_Ok, Hn, load_Some, bind_Ok.
  match goal with |- ?first ≫= _ = _ => assert (first = Ok (store_state h
    (set_natives (if decide (na_previous n = 0) then na_next n else rs_native_head heap) (rs_native_byte_count heap) heap)
    (with_natives (if decide (na_previous n = 0) then id else alter (set_na_next (na_next n)) (na_previous n)) id w))) as -> end.
  { destruct (N.eqb_spec (na_previous n) 0) as [Hz|Hz]; cbn [negb].
    - rewrite !decide_True by done. by destruct w.
    - rewrite !decide_False by done. destruct (Hpm Hz) as [b Hb]. rewrite Hb, load_Some, bind_Ok. f_equal.
      unfold store_state, with_states, with_natives. rewrite (alter_insert _ _ _ b) by done. destruct w, heap.
      simpl in *. f_equal. by rewrite insert_id. }
  rewrite bind_Ok. unfold unlinked. destruct (N.eqb_spec (na_next n) 0) as [Hz|Hz]; cbn [negb].
  - f_equal. unfold store_state, with_states, with_natives. simpl. by repeat case_decide.
  - destruct (Hxm Hz) as [c Hc].
    set (natives := (if decide (na_previous n = 0) then id
                     else alter (set_na_next (na_next n)) (na_previous n)) (w_natives w)).
    assert (is_Some (natives !! na_next n)) as [d Hd].
    { unfold natives. case_decide; [by exists c|]. by rewrite lookup_alter_is_Some. }
    simpl. fold natives. rewrite Hd, load_Some, bind_Ok. f_equal. unfold store_state, with_states, with_natives. simpl.
    f_equal. fold natives. transitivity (alter (set_na_previous (na_previous n)) (na_next n) natives);
      [by rewrite (alter_insert _ _ _ d)|]. unfold natives. by repeat case_decide.
Qed.

Lemma current_store w s : current_state (store_state (w_active w) s w) = Ok (w_active w, s).
Proof. unfold current_state, load_state. simpl. by rewrite lookup_insert_eq. Qed.

(** What releasing the node [a] leaves of the list. *)
Definition released (w : world) (h : N) (heap : runtime_state) (a : N) (n : native_allocation) : world :=
  store_state h (set_natives (if decide (na_previous n = 0) then na_next n else rs_native_head heap)
                   (u64_sub (rs_native_byte_count heap) (na_byte_count n)) heap)
    (with_natives (λ natives, delete a (unlinked n natives)) (delete (na_pointer n)) w).

Lemma released_ok w h anc ly heap a n l1 l2 :
  world_ok w (h :: anc) ly → w_states w !! h = Some heap → rs_phase heap = active →
  ly_natives ly h = l1 ++ a :: l2 → w_natives w !! a = Some n →
  (∀ b, b ∈ l1 ++ l2 → same_storage w (released w h heap a n) b) ∧
  world_ok (released w h heap a n) (h :: anc) (with_ly_natives h (l1 ++ l2) ly).
Proof.
  intros Hw Hheap Hph Hnl Hn. pose proof (wd_heaps _ _ _ Hw [] _ _ _ eq_refl Hheap) as Hok.
  pose proof (wd_nodup _ _ _ Hw) as Hndh. apply NoDup_cons in Hndh as [Hh _].
  destruct (hp_natives _ _ _ _ _ Hok) as [Hl Hnd Hnb Hbound Hptr Hc]. rewrite Hnl in *.
  set (w' := released w h heap a n). destruct (linked_split _ _ _ _ _ _ _ Hl Hn) as (Hp & Hx & Hhd).
  assert (∀ x, x ≠ 0 → x ≠ a → w_natives w' !! x = unlinked n (w_natives w) !! x) as Hlook.
  { intros x _ Hxa. simpl. by rewrite lookup_delete_ne. }
  assert (a ∉ l1 ++ l2) as Hal.
  { apply NoDup_app in Hnd as (_ & D1 & [D2 _]%NoDup_cons). set_solver. }
  assert (∀ x, x ∈ l1 ++ l2 → x ∈ l1 ++ a :: l2) as Hsub by set_solver.
  assert (∀ x, x ∈ l1 ++ l2 → x ≠ 0 ∧ x ≠ a) as Hxz.
  { intros x Hxl. split; [by eapply linked_mapped, Hsub|]. by intros ->. }
  assert (∀ b, b ∈ l1 ++ l2 → same_storage w w' b) as Hsame.
  { intros b Hb. destruct (Hxz b Hb) as [Hbz Hba]. unfold same_storage, native_at.
    rewrite Hlook, unlinked_lookup by done. destruct (w_natives w !! b) as [m|]; [|done]. simpl. by repeat case_decide. }
  split; [done|]. assert (native_at w a = n) as Hat by (unfold native_at; by rewrite Hn).
  assert (native_bytes w (l1 ++ a :: l2) = na_byte_count n + native_bytes w (l1 ++ l2)) as Hsum.
  { rewrite !native_bytes_app. simpl. rewrite Hat. lia. }
  assert (∀ x b, x ≠ a → w_natives w !! x = Some b → na_pointer b ≠ na_pointer n) as Hpn.
  { intros x b Hxa Hb Heq. apply Hxa. by eapply (wd_native_storage _ _ _ Hw). }
  eapply (world_ok_natives w w' ly h anc heap); try done.
  - intros x b Hxa Hb. destruct (natives_mapped _ _ _ x b Hw ltac:(set_solver) Hb) as (Hbz & [m Hm] & _).
    assert (∀ c, c ∈ l1 ++ a :: l2 → b ≠ c) as Hbc.
    { intros c Hcl ->. rewrite <-Hnl in Hcl.
      by apply (active_apart ly h anc x c ly_natives (wd_natives _ _ _ Hw) Hh Hxa Hcl). }
    assert (b ≠ a) as Hba by (apply Hbc; set_solver). split.
    + rewrite Hlook, unlinked_lookup by done. rewrite !decide_False; [by rewrite option_fmap_id| |].
      * rewrite Hx. destruct l2 as [|c l2]; [done|]. apply Hbc. simpl. set_solver.
      * rewrite Hp. destruct (last l1) as [c|] eqn:Hlast; [|done]. apply Hbc. apply last_Some_elem_of in Hlast. set_solver.
    + simpl. rewrite lookup_delete_ne; [done|]. unfold native_at. rewrite Hm. simpl. apply not_eq_sym. by eapply Hpn.
  - constructor.
    + destruct (linked_remove w w' a n l1 l2 (rs_native_head heap) 0) as (Hl' & _); try done.
      * intros x Hxl. destruct (Hxz x Hxl). rewrite Hlook, unlinked_lookup by done. by rewrite <-Hp.
      * intros Hz. by destruct (Hxz 0 Hz).
      * cbn [rs_native_head set_natives]. destruct l1 as [|b l1]; [simpl in Hp; by rewrite decide_True|].
        rewrite decide_False; [done|]. rewrite Hp, last_cons. destruct (last l1) as [c|] eqn:Hlast; simpl.
        -- apply last_Some_elem_of in Hlast. apply (Hxz c). set_solver.
        -- apply (Hxz b). set_solver.
    + apply NoDup_app in Hnd as (D1 & D2 & [D3 D4]%NoDup_cons). apply NoDup_app. split_and!; [done| |done]. set_solver.
    + rewrite (native_bytes_same w) by done. simpl. rewrite u64_sub_small by lia. lia.
    + rewrite (native_bytes_same w) by done. lia.
    + rewrite (pointers_same w) by done. rewrite fmap_app in Hptr |- *. simpl in Hptr.
      apply NoDup_app in Hptr as (D1 & D2 & [D3 D4]%NoDup_cons). apply NoDup_app. split_and!; [done| |done]. set_solver.
    + intros b Hb. destruct (Hsame b Hb) as [-> ->]. destruct (Hc b (Hsub b Hb)) as (Hz & bytes & Hbytes & Hlen).
      split; [done|]. exists bytes. split; [|done]. simpl. rewrite lookup_delete_ne; [done|].
      destruct (linked_mapped _ _ _ _ _ Hl (Hsub b Hb)) as [_ [m Hm]]. unfold native_at. rewrite Hm. simpl.
      apply not_eq_sym. eapply (Hpn b); [|done]. by apply Hxz.
  - intros b x Hb Hxa. eapply (active_apart ly h anc x b ly_natives (wd_natives _ _ _ Hw) Hh Hxa). rewrite Hnl. by apply Hsub.
  - simpl. assert (a ≠ 0) as Haz by (eapply linked_mapped; [exact Hl|set_solver]).
    destruct (unlinked n (w_natives w) !! a) as [n'|] eqn:Hn'.
    + assert (na_pointer n' = na_pointer n) as <-.
      { rewrite unlinked_lookup, Hn in Hn' by done. injection Hn' as <-. by repeat case_decide. }
      apply native_storage_delete; [|done].
      eapply native_storage_relinked; [|exact (wd_native_storage _ _ _ Hw)]. intros b. unfold unlinked.
      destruct (decide (b = 0)) as [->|Hbz].
      * repeat case_decide; rewrite ?lookup_alter_ne by done; done.
      * change (na_pointer <$> unlinked n (w_natives w) !! b = na_pointer <$> w_natives w !! b).
        rewrite unlinked_lookup by done. destruct (w_natives w !! b); [|done]. simpl. by repeat case_decide.
    + rewrite unlinked_lookup, Hn in Hn' by done. done.
Qed.

Lemma native_free_ok w hs ly p :
  world_ok w hs ly →
  safe (neri_rt_v1_native_free p w) (λ w',
    p = 0 ∧ w' = w ∨
    ∃ heap a n l1 l2, w_states w !! w_active w = Some heap ∧ ly_natives ly (w_active w) = l1 ++ a :: l2 ∧
      w_natives w !! a = Some n ∧ na_pointer n = p ∧ w' = released w (w_active w) heap a n ∧
      (∀ b, b ∈ l1 ++ l2 → same_storage w w' b) ∧
      world_ok w' hs (with_ly_natives (w_active w) (l1 ++ l2) ly)).
Proof.
  intros Hw. destruct (world_current _ _ _ Hw) as (anc & heap & -> & Hheap & Hcur & Hok & Hh & Hz).
  unfold neri_rt_v1_native_free. eapply safe_bind; [by eapply require_initialized_ok|]. intros [] Hph.
  case N.eqb_spec; intros Hpz; [apply safe_Ok; by left|].
  destruct (find_native_ok _ _ _ _ p Hcur (hp_natives _ _ _ _ _ Hok)) as ([a|] & -> & Hr); rewrite bind_Ok;
    [|apply safe_contract].
  destruct Hr as [Ha Hp]. apply list_elem_of_split in Ha as (l1 & l2 & Hnl).
  pose proof (nt_linked _ _ _ (hp_natives _ _ _ _ _ Hok)) as Hl. rewrite Hnl in Hl.
  destruct (linked_mapped _ _ _ _ a Hl ltac:(set_solver)) as [Haz [n Hn]].
  unfold native_at in Hp. rewrite Hn in Hp. simpl in Hp.
  rewrite (unlink_native_eq _ _ _ _ _ _ _ Hcur Hl Hn), bind_Ok. rewrite (current_store (with_natives _ _ w)), bind_Ok.
  change (w_natives (store_state _ _ _)) with (unlinked n (w_natives w)). rewrite unlinked_lookup, Hn by done.
  cbn [fmap option_fmap option_map]. rewrite load_Some, bind_Ok.
  set (n' := (if decide (a = na_previous n) then _ else _) _).
  assert (na_pointer n' = na_pointer n ∧ na_byte_count n' = na_byte_count n) as [-> ->].
  { unfold n'. by repeat case_decide. }
  destruct (released_ok _ _ _ _ _ _ _ _ _ Hw Hheap Hph Hnl Hn) as [Hsame Hw'].
  match goal with |- safe (assert_consistent ?w1 ≫= _) _ => assert (w1 = released w (w_active w) heap a n) as -> end.
  { unfold released, store_state, with_states, with_natives. simpl. by rewrite insert_insert_eq. }
  rewrite (assert_consistent_ok _ _ _ Hw'), bind_Ok. apply safe_Ok. right. exists heap, a, n, l1, l2. done.
Qed.
(** ** Contents *)

Lemma world_ok_layout w hs ly ly' :
  (∀ x, ly_frames ly' x = ly_frames ly x ∧ ly_borrows ly' x = ly_borrows ly x ∧ ly_entries ly' x = ly_entries ly x ∧
     ly_natives ly' x = ly_natives ly x) →
  world_ok w hs ly → world_ok w hs ly'.
Proof.
  intros Heq Hw. destruct Hw as [W1 W2 W3 W4 W5 W6 W7 W8 W9 W10 W11 W12 W13 W14 W15].
  assert (∀ x, chains_kept w w ly ly' x) as Hck.
  { intros x. destruct (Heq x) as (E1 & E2 & E3 & E4). by constructor. }
  constructor; try done.
  - intros pre h anc heap Hhs Hheap. eapply heap_ok_frame; [apply unchanged_refl|done|apply Hck|eauto].
  - intros x y a. rewrite !(proj1 (Heq _)). apply W11.
  - intros x y a. rewrite !(ck_borrows _ _ _ _ _ (Hck _)). apply W12.
  - intros x y a. rewrite !(ck_entries _ _ _ _ _ (Hck _)). apply W13.
  - intros x y a. rewrite !(ck_natives _ _ _ _ _ (Hck _)). apply W14.
Qed.

(** Writing native storage in place keeps the invariant. *)
Lemma world_ok_contents w hs ly q old new :
  world_ok w hs ly → w_bytes w !! q = Some old → length_N new = length_N old →
  world_ok (with_natives id <[q := new]> w) hs ly.
Proof.
  intros Hw Hq Hlen. destruct Hw as [W1 W2 W3 W4 W5 W6 W7 W8 W9 W10 W11 W12 W13 W14 W15]. constructor; try done.
  - intros pre h anc heap Hhs Hheap. pose proof (W10 pre h anc heap Hhs Hheap) as Hok.
    destruct Hok as [P1 P2 P3 P4 P5 P6 P7 P8 P9 P10 P11 P12 P13]. constructor; try done.
    1: by destruct P6; constructor.
    destruct P9 as [N1 N2 N3 N4 N5 N6]. constructor; try done.
    + eapply linked_ext; [|exact N1]. done.
    + intros a Ha. destruct (N6 a Ha) as (Hz & bytes & Hb & Hl). split; [done|]. simpl.
      change (native_at (with_natives id <[q := new]> w) a) with (native_at w a).
      destruct (decide (na_pointer (native_at w a) = q)) as [Heq|Hne].
      * rewrite Heq in Hb |- *. rewrite Hq in Hb. injection Hb as <-. rewrite lookup_insert_eq. exists new. split; [done|]. lia.
      * rewrite lookup_insert_ne by done. eauto.
  - by apply native_storage_contents.
Qed.

(** [realloc]: fresh storage with the common prefix of the old contents; the old
    storage is gone and no other storage changed. *)
Definition resized (w w' : world) (p q byte_count : N) : Prop :=
  ∃ a n old new, w_natives w !! a = Some n ∧ na_pointer n = p ∧ w_bytes w !! p = Some old ∧
    length_N old = N.max 1 (na_byte_count n) ∧ w_bytes w !! q = None ∧ q ≠ 0 ∧
    w_bytes w' = delete p (<[q := new]> (w_bytes w)) ∧ length_N new = N.max 1 byte_count ∧
    take (N.to_nat (N.min (na_byte_count n) byte_count)) new = take (N.to_nat (N.min (na_byte_count n) byte_count)) old.

Lemma native_realloc_ok w hs ly p byte_count alignment :
  byte_count ≤ u64_max → world_ok w hs ly → p ≠ 0 →
  safe (neri_rt_v1_native_realloc p byte_count alignment w) (λ '(q, w'),
    resized w w' p q byte_count ∧ ∃ nl, world_ok w' hs (with_ly_natives (w_active w) nl ly)).
Proof.
  intros Hwidth Hw Hpz. destruct (world_current _ _ _ Hw) as (anc & heap & Hhs & Hheap & Hcur & Hok & Hh & Hz).
  unfold neri_rt_v1_native_realloc. eapply safe_bind; [by eapply require_initialized_ok|]. intros [] Hph.
  rewrite (proj2 (N.eqb_neq _ _) Hpz).
  destruct (find_native_ok _ _ _ _ p Hcur (hp_natives _ _ _ _ _ Hok)) as ([a|] & -> & Hr); rewrite bind_Ok;
    [|apply safe_contract].
  destruct Hr as [Ha Hp]. pose proof (nt_linked _ _ _ (hp_natives _ _ _ _ _ Hok)) as Hl.
  destruct (linked_mapped _ _ _ _ a Hl Ha) as [Haz [n Hn]]. rewrite Hn, load_Some, bind_Ok.
  destruct (nt_contents _ _ _ (hp_natives _ _ _ _ _ Hok) a Ha) as (_ & old & Hold & Holdl).
  unfold native_at in Hp, Hold, Holdl. rewrite Hn in Hp, Hold, Holdl. simpl in Hp, Hold, Holdl. rewrite Hp in Hold.
  eapply safe_bind; [by eapply allocate_native_memory_ok|]. intros [q w1].
  intros (node & contents & Hq & Hqf & Hbytes & Hlen & _ & Hnode & Hnp & Hnc & Hsame & Hno & Hact & Hw1).
  assert (p ≠ q) as Hpq by (intros ->; congruence).
  rewrite Hbytes, (lookup_insert_ne _ q p) by done. rewrite Hold, load_Some, bind_Ok, lookup_insert_eq, load_Some, bind_Ok.
  set (copied := if na_byte_count n <? byte_count then _ else _).
  assert (copied = N.min (na_byte_count n) byte_count) as Hcop.
  { unfold copied. case N.ltb_spec; lia. }
  assert (N.to_nat copied ≤ length old)%nat as Hfit.
  { rewrite Hcop. unfold length_N in Holdl. lia. }
  set (bytes := take (N.to_nat copied) old ++ drop (N.to_nat copied) contents).
  assert (length_N bytes = N.max 1 byte_count) as Hblen.
  { unfold bytes, length_N in *. rewrite length_app, length_take, length_drop. lia. }
  pose proof (world_ok_contents _ _ _ q contents bytes Hw1) as Hw2. rewrite Hbytes, lookup_insert_eq, Hlen, Hblen in Hw2.
  specialize (Hw2 eq_refl eq_refl). set (w2 := with_natives id <[q := bytes]> w1) in *.
  eapply safe_bind; [by apply native_free_ok|]. intros w3 Hfree. apply safe_Ok.
  destruct Hfree as [[? _]|(heap2 & a2 & n2 & l1 & l2 & Hheap2 & Hnl2 & Hn2 & Hp2 & -> & _ & Hw3)]; [done|].
  split.
  - exists a, n, old, bytes. split_and!; try done.
    + simpl. rewrite Hp2, Hbytes. by rewrite insert_insert_eq.
    + rewrite <-Hcop. unfold bytes. rewrite take_app_le by (rewrite length_take; lia). by rewrite take_take, Nat.min_id.
  - exists (l1 ++ l2). destruct Hno as (_ & E2 & _). change (w_active w2) with (w_active w1) in Hw3 |- *. rewrite E2 in Hw3 |- *.
    eapply world_ok_layout; [|exact Hw3]. intros x. split_and!; try done. simpl. unfold set_list. by repeat case_decide.
Qed.
End natives.
