(* ===== verification/RegionSafety.v ===== *)
(** * The life of a context

    Initialization, shutdown, foreign entries and allocation regions.  A context that
    is released gives back its storage and its native allocations; the contexts below
    it do not notice.  A region is a child context: what its parent holds can be read
    from the child, and the parent is exactly as it was left when the region ends. *)

From S2P Require Import Prelude Chains Storage Slabs Memory StorageSafety Sweep.
From S2P Require Import Heap Marking Collector HeapInvariant Collection RuntimeApi.
From S2P Require Import Payloads ApiSafety NativeSafety.

Local Open Scope string_scope.
Local Open Scope list_scope.
Local Open Scope N_scope.

(** ** Storage without objects *)

Lemma empty_storage_ok m h :
  (∀ b, owned m h b = None) → (∀ a, owned_large m h a = None) → storage_ok m h empty_storage.
Proof.
  intros Hb Ha. constructor; [|exists []|done].
  - exists []. split.
    + constructor; [done|constructor|]. intros b. rewrite Hb. split; [by intros ?%elem_of_nil|by intros [? ?]].
    + intros c Hc. exists 0, []. unfold categories, length_N in Hc. split_and!; [|done|constructor|].
      * apply lookup_replicate_2. lia.
      * intros b. split; [by intros ?%elem_of_nil|by intros [?%elem_of_nil _]].
  - constructor; [done|constructor|]. intros a. rewrite Ha. split; [by intros ?%elem_of_nil|by intros [? ?]].
Qed.

Lemma adopt_empty m : adopt m empty_storage empty_storage 0 = Ok (m, empty_storage, empty_storage).
Proof. reflexivity. Qed.

Lemma dead_storage m h o :
  (∀ b, owned m h b = None) → (∀ a, owned_large m h a = None) → ¬ live_in m h o.
Proof. intros Hb Ha (bytes & k & [(b & s & i & H & _)|(a & g & H & _)]%live_owned); by rewrite ?Hb, ?Ha in H. Qed.

Lemma reclaimed_unchanged m m' h anc : reclaimed_from m m' h → h ∉ anc → unchanged m m' anc.
Proof.
  intros [Ho Hl Hh Hs] Hin. constructor; [| | |done].
  - intros x o bytes k Hx. apply only_owner_live with h; [done|by intros ->].
  - intros x o bytes k Hx Hlive. eapply Hh. apply (only_owner_live m m' h x); [done|by intros ->|exact Hlive].
  - intros x st Hx. eapply storage_ok_frame; [done|by intros ->].
Qed.

Section lives.
Context `{Program} `{LawfulRuntimeHost}.

(** ** Releasing the native allocations *)

Lemma release_natives_ok fuel w head previous l :
  linked w head previous l → NoDup l → native_storage (w_natives w) (w_bytes w) → (length l < fuel)%nat →
  ∃ w', release_natives fuel w head = Ok w' ∧ natives_only w w' ∧ w_states w' = w_states w ∧
    (∀ x, x ∉ l → w_natives w' !! x = w_natives w !! x) ∧ (∀ x, x ∈ l → w_natives w' !! x = None) ∧
    (∀ p, (∀ a, a ∈ l → na_pointer (native_at w a) ≠ p) → w_bytes w' !! p = w_bytes w !! p) ∧
    (∀ a, a ∈ l → w_bytes w' !! na_pointer (native_at w a) = None) ∧
    native_storage (w_natives w') (w_bytes w').
Proof.
  revert w head previous l. induction fuel as [|fuel IH]; intros w head previous l Hl Hnd Hs Hf; [lia|].
  destruct l as [|a l].
  { simpl in Hl. subst head. exists w. split_and!; try done; intros ? ?%elem_of_nil; done. }
  destruct Hl as (-> & Ha & n & Hn & _ & Hl). apply NoDup_cons in Hnd as [Hal Hnd]. simpl in Hf. cbn [release_natives].
  rewrite (proj2 (N.eqb_neq _ _) Ha), Hn, load_Some, bind_Ok.
  set (w1 := with_natives (delete a) (delete (na_pointer n)) w).
  assert (∀ x, x ∈ l → w_natives w1 !! x = w_natives w !! x) as Hw1.
  { intros x Hx. simpl. rewrite lookup_delete_ne; [done|]. by intros ->. }
  assert (∀ x, x ∈ l → native_at w1 x = native_at w x) as Hat by (intros x Hx; unfold native_at; by rewrite Hw1).
  assert (native_at w a = n) as Hata by (unfold native_at; by rewrite Hn).
  destruct (IH w1 (na_next n) a l) as (w' & -> & Hno & Hst & Hout & Hin & Hb & Hbn & Hs'); [|done| |lia|].
  { eapply linked_ext; [|exact Hl]. done. }
  { by apply native_storage_delete. }
  assert (∀ x, x ∈ l → na_pointer (native_at w x) ≠ na_pointer n) as Hpn.
  { intros x Hx Heq. destruct (linked_mapped _ _ _ _ x Hl Hx) as [_ [m Hm]]. unfold native_at in Heq.
    rewrite Hm in Heq. simpl in Heq. apply Hal. by rewrite (proj2 Hs a x n m Hn Hm). }
  exists w'. split_and!; try done.
  - intros x Hx. rewrite Hout by set_solver. simpl. rewrite lookup_delete_ne; [done|]. set_solver.
  - intros x [->|Hx]%elem_of_cons; [|by apply Hin]. rewrite Hout by done. simpl. apply lookup_delete_eq.
  - intros p Hp. rewrite Hb; [simpl; rewrite lookup_delete_ne; [done|]|].
    + rewrite <-Hata. apply Hp. set_solver.
    + intros x Hx. rewrite Hat by done. apply Hp. set_solver.
  - intros x [->|Hx]%elem_of_cons; [|rewrite <-Hat by done; by apply Hbn]. rewrite Hata, Hb; [apply lookup_delete_eq|].
    intros x Hx. rewrite Hat by done. by apply Hpn.
Qed.

(** ** Releasing a context *)

Record emptied (w w' : world) (ly : layout) (h : N) (anc : list N) : Prop := {
  em_lists : ly_frames ly h = [] ∧ ly_borrows ly h = [] ∧ ly_entries ly h = [];
  em_states : w_states w' = <[h := empty_state]> (w_states w);
  em_rest : w_active w' = w_active w ∧ w_tracing w' = w_tracing w ∧ w_frames w' = w_frames w ∧
    w_borrows w' = w_borrows w ∧ w_entries w' = w_entries w ∧ w_words w' = w_words w;
  em_memory : memory_ok (w_memory w');
  em_reclaimed : reclaimed_from (w_memory w) (w_memory w') h;
  em_owned : (∀ b, owned (w_memory w') h b = None) ∧ (∀ a, owned_large (w_memory w') h a = None);
  em_kept : ∀ x a, x ∈ anc → a ∈ ly_natives ly x → w_natives w' !! a = w_natives w !! a ∧
     w_bytes w' !! na_pointer (native_at w a) = w_bytes w !! na_pointer (native_at w a);
  em_released : ∀ a, a ∈ ly_natives ly h → w_natives w' !! a = None ∧ w_bytes w' !! na_pointer (native_at w a) = None;
  em_storage : native_storage (w_natives w') (w_bytes w');
}.

Lemma chain_nil next l : chain next 0 l → l = [].
Proof. destruct l; [done|]. by intros (<- & ? & _). Qed.

Lemma release_heap_ok w h anc ly :
  world_ok w (h :: anc) ly → safe (release_heap w) (λ w', emptied w w' ly h anc).
Proof.
  intros Hw. destruct (world_current _ _ _ Hw) as (anc' & heap & [= -> <-] & Hheap & Hcur & Hok & Hh & Hz).
  set (h := w_active w) in *.
  unfold release_heap. eapply safe_bind; [by eapply require_initialized_ok|]. intros [] Hph.
  rewrite Hcur, bind_Ok. split_guard; [apply safe_contract|].
  apply orb_false_iff in Heqb as [[[[E1 E2]%orb_false_iff _]%orb_false_iff E3]%orb_false_iff _].
  apply negb_false_iff, N.eqb_eq in E1, E2, E3. pose proof (hp_chains _ _ _ _ _ Hok) as Hch.
  pose proof (ch_frames _ _ _ _ Hch) as Hf. rewrite E1 in Hf. apply chain_nil in Hf.
  pose proof (ch_borrows _ _ _ _ Hch) as Hb. rewrite E2 in Hb. apply chain_nil in Hb.
  pose proof (hp_entries _ _ _ _ _ Hok) as He. rewrite E3 in He. apply chain_nil in He.
  unfold release_native_allocations, load_state. rewrite Hheap, load_Some, bind_Ok.
  pose proof (hp_natives _ _ _ _ _ Hok) as [Hl Hnd _ _ _ _].
  destruct (release_natives_ok (list_fuel (w_natives w)) w _ _ _ Hl Hnd (wd_native_storage _ _ _ Hw)) as
    (w1 & -> & (N1 & N2 & N3 & N4 & N5 & N6 & N7) & Hst & Hout & Hin & Hby & Hbn & Hs); [by eapply linked_fuel|].
  rewrite !bind_Ok.
  destruct (clear_ok (w_memory w) h (rs_storage heap)) as (m' & Hclear & Hm' & Hrec & Hob & Hol);
    [apply (wd_memory _ _ _ Hw)|apply (hp_storage _ _ _ _ _ Hok)|].
  change (w_memory (store_state _ _ w1)) with (w_memory w1). rewrite N1, Hclear, bind_Ok, adopt_empty, bind_Ok.
  apply safe_Ok. constructor; simpl; try done.
  - by rewrite Hst, insert_insert_eq.
  - intros x a Hx Ha.
    assert (a ∉ ly_natives ly h) as Hah.
    { intros Hin'. by apply (active_apart ly h anc x a ly_natives (wd_natives _ _ _ Hw) Hh Hx Hin'). }
    split; [by apply Hout|]. apply Hby. intros b Hb' Heq. apply Hah.
    destruct (natives_mapped _ _ _ x a Hw ltac:(set_solver) Ha) as (_ & [na Hna] & _).
    destruct (linked_mapped _ _ _ _ b Hl Hb') as [_ [nb Hnb]]. unfold native_at in Heq. rewrite Hna, Hnb in Heq.
    by rewrite <-(proj2 (wd_native_storage _ _ _ Hw) b a nb na Hnb Hna Heq).
  - intros a Ha. split; [by apply Hin|by apply Hbn].
Qed.
(** The references of a released context are gone: no object of it is left. *)
Lemma emptied_dead w w' ly h anc o : emptied w w' ly h anc → ¬ live_in (w_memory w') h o.
Proof. intros Hem. apply dead_storage; apply (em_owned _ _ _ _ _ Hem). Qed.

Lemma emptied_owners w w' ly h anc :
  world_ok w (h :: anc) ly → emptied w w' ly h anc →
  (∀ b s, m_slabs (w_memory w') !! b = Some s → sl_owner s ∈ anc) ∧
  (∀ a g, m_large (w_memory w') !! a = Some g → lg_owner g ∈ anc).
Proof.
  intros Hw Hem. destruct (em_owned _ _ _ _ _ Hem) as [Hb Ha].
  destruct (owners_kept (w_memory w) (w_memory w') h (h :: anc)) as [H3 H4];
    [set_solver|apply (em_reclaimed _ _ _ _ _ Hem)|apply (wd_owners _ _ _ Hw)|]. split.
  - intros b s Hs. pose proof (H3 b s Hs) as Hin. apply elem_of_cons in Hin as [Heq|Hin]; [|done].
    specialize (Hb b). unfold owned in Hb. rewrite Hs in Hb. simpl in Hb. by rewrite decide_True in Hb.
  - intros a g Hg. pose proof (H4 a g Hg) as Hin. apply elem_of_cons in Hin as [Heq|Hin]; [|done].
    specialize (Ha a). unfold owned_large in Ha. rewrite Hg in Ha. simpl in Ha. by rewrite decide_True in Ha.
Qed.

Lemma emptied_unmarked w w' ly h anc x o bytes k :
  world_ok w (h :: anc) ly → emptied w w' ly h anc → live_object (w_memory w') x o bytes k → k = false.
Proof.
  intros Hw Hem Hl. destruct (decide (x = h)) as [->|Hx].
  - destruct (emptied_dead _ _ _ _ _ o Hem). by exists bytes, k.
  - apply (only_owner_live (w_memory w) _ h) in Hl; [|apply (em_reclaimed _ _ _ _ _ Hem)|done].
    by apply (wd_unmarked _ _ _ Hw) in Hl.
Qed.

Lemma emptied_kept w w' ly ly' h anc x :
  emptied w w' ly h anc → x ∈ anc → ly_frames ly' x = ly_frames ly x → ly_borrows ly' x = ly_borrows ly x →
  ly_entries ly' x = ly_entries ly x → ly_natives ly' x = ly_natives ly x → chains_kept w w' ly ly' x.
Proof.
  intros Hem Hx L1 L2 L3 L4. destruct (em_rest _ _ _ _ _ Hem) as (_ & _ & E1 & E2 & E3 & E4).
  constructor; rewrite ?E1, ?E2, ?E3; try done. intros a Ha. by apply (em_kept _ _ _ _ _ Hem x).
Qed.

(** A context without objects, roots, entries or native allocations. *)
Lemma fresh_heap_ok w ly h anc heap :
  (∀ b, owned (w_memory w) h b = None) → (∀ a, owned_large (w_memory w) h a = None) →
  ancestry (w_states w) (rs_read_parent heap) anc →
  rs_region_parent heap = 0 ∨ rs_region_parent heap = rs_read_parent heap →
  ly_frames ly h = [] → ly_borrows ly h = [] → ly_entries ly h = [] → ly_natives ly h = [] →
  rs_storage heap = empty_storage → rs_object_count heap = 0 → rs_byte_count heap = 0 →
  rs_root_frame heap = 0 → rs_borrow heap = 0 → rs_foreign_entry heap = 0 → rs_persistent_roots heap = [] →
  rs_native_head heap = 0 → rs_native_byte_count heap = 0 → (rs_phase heap = uninitialized → anc = []) →
  heap_ok w ly h anc heap.
Proof.
  intros Hb Ha Hanc Hreg L1 L2 L3 L4 E1 E2 E3 E4 E5 E6 E7 E8 E9 Hph. constructor; try done.
  - rewrite E1. by apply empty_storage_ok.
  - intros calls [_ Hv]. destruct calls as [|[o bytes] calls]; [by rewrite E2, E3|]. exfalso.
    destruct (proj1 (Hv o bytes)) as [k Hk]; [set_solver|]. eapply (dead_storage _ _ o Hb Ha). by exists bytes, k.
  - rewrite E3. lia.
  - rewrite L1, L2. constructor; rewrite ?E4, ?E5, ?E7; [done|apply NoDup_nil_2| |done|apply NoDup_nil_2| |];
      intros a Hin; by apply elem_of_nil in Hin.
  - rewrite L3, E6. done.
  - rewrite L3. constructor.
  - rewrite L4. constructor; rewrite ?E8, ?E9; try done; [apply NoDup_nil_2|apply NoDup_nil_2|].
    intros a Hin. by apply elem_of_nil in Hin.
  - intros r. rewrite L1, L2, elem_of_root_refs, E7. intros [(a & Hin & _)|[(a & Hin & _)|(a & Hin & _)]];
      by apply elem_of_nil in Hin.
  - intros o Ho. by apply dead_storage in Ho.
  - intros t token. rewrite L3. intros Hin. by apply elem_of_nil in Hin.
Qed.

(** The outermost context can be released: the runtime is as before initialization. *)
Lemma emptied_world w w' ly h :
  world_ok w [h] ly → emptied w w' ly h [] → world_ok w' [h] (with_ly_natives h [] ly).
Proof.
  intros Hw Hem. destruct (em_rest _ _ _ _ _ Hem) as (E1 & E2 & E3 & E4 & E5 & E6).
  destruct (em_lists _ _ _ _ _ Hem) as (L1 & L2 & L3). destruct (em_owned _ _ _ _ _ Hem) as [O1 O2].
  constructor; rewrite ?E1, ?E2.
  - apply (em_memory _ _ _ _ _ Hem).
  - intros. by eapply emptied_unmarked.
  - apply (wd_active _ _ _ Hw).
  - apply (wd_nodup _ _ _ Hw).
  - apply (wd_nonnull _ _ _ Hw).
  - intros x. rewrite (em_states _ _ _ _ _ Hem), lookup_insert_is_Some, (wd_states _ _ _ Hw). set_solver.
  - eapply (owners_kept (w_memory w)); [|apply (em_reclaimed _ _ _ _ _ Hem)|apply (wd_owners _ _ _ Hw)]. set_solver.
  - apply (wd_tracing _ _ _ Hw).
  - intros heap. pose proof (wd_active _ _ _ Hw) as [= <-].
    rewrite (em_states _ _ _ _ _ Hem), lookup_insert_eq. intros [= <-]. by right.
  - intros pre x anc heap Hhs. destruct pre as [|? [|??]]; try done. injection Hhs as <- <-.
    rewrite (em_states _ _ _ _ _ Hem), lookup_insert_eq. intros [= <-].
    apply fresh_heap_ok; try done; simpl; [|by left|by rewrite set_list_eq].
    constructor; [done|constructor|]. intros ? ? ?%elem_of_nil. done.
  - intros x y a ->%list_elem_of_singleton ->%list_elem_of_singleton. done.
  - intros x y a ->%list_elem_of_singleton ->%list_elem_of_singleton. done.
  - intros x y a ->%list_elem_of_singleton ->%list_elem_of_singleton. done.
  - intros x y a ->%list_elem_of_singleton ->%list_elem_of_singleton. done.
  - apply (em_storage _ _ _ _ _ Hem).
Qed.

(** Changes to the phase, the arguments and the host error. *)
Lemma world_ok_scalars w ly h anc heap heap' :
  world_ok w (h :: anc) ly → w_states w !! h = Some heap →
  rs_phase heap' = active ∨ rs_phase heap' = uninitialized ∧ rs_phase heap = uninitialized →
  rs_storage heap' = rs_storage heap → rs_object_count heap' = rs_object_count heap →
  rs_byte_count heap' = rs_byte_count heap → rs_read_parent heap' = rs_read_parent heap →
  rs_region_parent heap' = rs_region_parent heap → rs_root_frame heap' = rs_root_frame heap →
  rs_borrow heap' = rs_borrow heap → rs_foreign_entry heap' = rs_foreign_entry heap →
  rs_native_head heap' = rs_native_head heap → rs_native_byte_count heap' = rs_native_byte_count heap →
  rs_persistent_roots heap' = rs_persistent_roots heap →
  world_ok (store_state h heap' w) (h :: anc) ly.
Proof.
  intros Hw Hheap Hph E1 E2 E3 E4 E5 E6 E7 E8 E9 E10 E11.
  pose proof (wd_heaps _ _ _ Hw [] _ _ _ eq_refl Hheap) as Hok.
  pose proof (wd_nodup _ _ _ Hw) as Hnd. apply NoDup_cons in Hnd as [Hh _].
  assert (∀ x, chains_kept w (store_state h heap' w) ly ly x) as Hck by (intros; by apply chains_kept_refl).
  eapply (world_ok_update w _ ly _ h anc heap heap'); try done.
  - eapply (chains_ok_kept w _ ly ly h heap); try done. apply (hp_chains _ _ _ _ _ Hok).
  - rewrite E8. apply (hp_entries _ _ _ _ _ Hok).
  - apply (hp_entries_nodup _ _ _ _ _ Hok).
  - apply (hp_owning _ _ _ _ _ Hok).
  - eapply (natives_ok_same w _ heap); [done..|]. apply (hp_natives _ _ _ _ _ Hok).
  - intros r. rewrite (root_refs_kept w _ ly ly h heap heap') by done. apply (hp_roots _ _ _ _ _ Hok).
  - keep_apart Hw.
  - keep_apart Hw.
  - keep_apart Hw.
  - keep_apart Hw.
  - apply (wd_native_storage _ _ _ Hw).
Qed.
(** ** Regions *)

Lemma heap_ok_phase w ly h anc heap p :
  p ≠ uninitialized → heap_ok w ly h anc heap → heap_ok w ly h anc (set_phase p heap).
Proof.
  intros Hp [P1 P2 P3 P4 P5 P6 P7 P8 P9 P10 P11 P12 P13]. constructor; try done.
  - by destruct P6; constructor.
  - by destruct P9; constructor.
Qed.

(** The lists of a new context are empty. *)
Definition with_ly_new (h : N) (ly : layout) : layout :=
  mk_layout (set_list (ly_frames ly) h []) (set_list (ly_borrows ly) h []) (set_list (ly_entries ly) h [])
    (set_list (ly_natives ly) h []).

Lemma apart_lists_new f h hs : h ∉ hs → apart_lists f hs → apart_lists (set_list f h []) (h :: hs).
Proof.
  intros Hh Hap x y a Hx Hy Hxy. unfold set_list. case_decide; [by intros ?%elem_of_nil|].
  case_decide; [intros _; apply not_elem_of_nil|]. apply Hap; [set_solver|set_solver|done].
Qed.

Lemma apart_lists_tail f h hs : apart_lists f (h :: hs) → apart_lists f hs.
Proof. intros Hap x y a Hx Hy. apply Hap; set_solver. Qed.

Lemma unowned_context w hs ly x :
  world_ok w hs ly → x ∉ hs →
  (∀ b, owned (w_memory w) x b = None) ∧ (∀ a, owned_large (w_memory w) x a = None).
Proof.
  intros Hw Hx. destruct (wd_owners _ _ _ Hw) as [Hs Hl]. split.
  - intros b. unfold owned. destruct (m_slabs (w_memory w) !! b) as [s|] eqn:E; [|done]. simpl.
    rewrite decide_False; [done|]. intros <-. by apply Hx, (Hs b).
  - intros a. unfold owned_large. destruct (m_large (w_memory w) !! a) as [g|] eqn:E; [|done]. simpl.
    rewrite decide_False; [done|]. intros <-. by apply Hx, (Hl a).
Qed.

Lemma region_enter_ok w hs ly :
  world_ok w hs ly →
  safe (neri_rt_v1_region_enter w) (λ '(region, w'), ∃ heap,
    region ∉ hs ∧ w_states w !! w_active w = Some heap ∧ rs_phase heap = active ∧
    w_memory w' = w_memory w ∧ w_active w' = region ∧
    w_states w' !! w_active w = Some (set_phase suspended heap) ∧
    world_ok w' (region :: hs) (with_ly_new region ly)).
Proof.
  intros Hw. destruct (world_current _ _ _ Hw) as (anc & heap & -> & Hheap & Hcur & Hok & Hh & Hz).
  set (h := w_active w) in *. unfold neri_rt_v1_region_enter.
  eapply safe_bind; [by eapply require_initialized_ok|]. intros [] Hph. rewrite Hcur, bind_Ok.
  unfold phase_is. rewrite Hph, (wd_tracing _ _ _ Hw). cbn -[new_state].
  set (child := new_state w). case N.eqb_spec; intros Hc; [apply safe_memory|].
  pose proof (new_state_ok w Hc) as Hfresh. fold child in Hfresh.
  assert (child ∉ h :: anc) as Hch by (rewrite <-(wd_states _ _ _ Hw), Hfresh; by intros [? ?]).
  assert (child ≠ h) as Hne by set_solver.
  apply safe_Ok. exists heap. set (state := set_arguments _ _ _). set (w' := with_active child _).
  destruct (unowned_context _ _ _ child Hw Hch) as [O1 O2].
  assert (w_states w' !! h = Some (set_phase suspended heap)) as Hh' by (simpl; by rewrite lookup_insert_eq).
  assert (w_states w' !! child = Some state) as Hc'.
  { simpl. rewrite lookup_insert_ne, lookup_insert_eq by done. done. }
  assert (∀ x, x ≠ h → x ≠ child → w_states w' !! x = w_states w !! x) as Hx'.
  { intros x Hx1 Hx2. simpl. by rewrite !lookup_insert_ne by done. }
  assert (∀ x, x ∈ h :: anc → chains_kept w w' ly (with_ly_new child ly) x) as Hck.
  { intros x Hx. assert (x ≠ child) by (by intros ->). constructor; simpl; try done; by rewrite set_list_ne. }
  split_and!; try done. constructor; try done.
  - apply (wd_memory _ _ _ Hw).
  - apply (wd_unmarked _ _ _ Hw).
  - apply NoDup_cons. split; [done|]. apply (wd_nodup _ _ _ Hw).
  - apply not_elem_of_cons. split; [done|]. apply (wd_nonnull _ _ _ Hw).
  - intros x. destruct (decide (x = h)) as [->|Hx1]; [rewrite Hh'; split; [set_solver|by eexists]|].
    destruct (decide (x = child)) as [->|Hx2]; [rewrite Hc'; split; [set_solver|by eexists]|].
    rewrite Hx', (wd_states _ _ _ Hw) by done. set_solver.
  - destruct (wd_owners _ _ _ Hw) as [W1 W2]. split; intros; apply elem_of_cons; right; eauto.
  - apply (wd_tracing _ _ _ Hw).
  - intros heap'. change (w_active w') with child. rewrite Hc'. intros [= <-]. by left.
  - intros pre x anc' heap' Hhs Hx. destruct pre as [|y pre].
    + injection Hhs as <- <-. rewrite Hc' in Hx. injection Hx as <-.
      apply fresh_heap_ok; try done; simpl; try by rewrite set_list_eq. 2: by right.
      pose proof (hp_ancestry _ _ _ _ _ Hok) as [A1 A2 A3]. constructor.
      * split; [done|]. split; [done|]. exists (rs_read_parent heap). split.
        -- unfold read_parent_of. change (rs_read_parent <$> w_states w' !! h = Some (rs_read_parent heap)). by rewrite Hh'.
        -- eapply chain_ext; [|exact A1]. intros a Ha. unfold read_parent_of.
           rewrite !lookup_insert_ne; [done|intros <-; set_solver|by intros <-].
      * apply NoDup_cons. by split.
      * intros a s Ha. change (w_states w' !! a = Some s → rs_phase s = suspended).
        apply elem_of_cons in Ha as [->|Ha]; [rewrite Hh'; by intros [= <-]|].
        rewrite Hx' by (intros ->; set_solver). by apply A3.
    + injection Hhs as <- Hhs. assert (x ∈ h :: anc) as Hxin by (rewrite Hhs; set_solver).
      assert (∀ a, a ∈ anc' → w_states w' !! a = w_states w !! a) as Hanc'.
      { intros a Ha. pose proof (wd_nodup _ _ _ Hw) as Hnd. apply Hx'.
        - intros ->. destruct pre as [|z pre]; [injection Hhs as -> ->; set_solver|]. injection Hhs as <- Hhs.
          apply Hh. rewrite Hhs. set_solver.
        - intros ->. apply Hch. rewrite Hhs. set_solver. }
      eapply (heap_ok_frame w); [apply unchanged_refl|done|by apply Hck|].
      destruct (decide (x = h)) as [->|Hxh].
      * rewrite Hh' in Hx. injection Hx as <-. apply heap_ok_phase; [done|]. by apply (wd_heaps _ _ _ Hw pre).
      * rewrite Hx' in Hx; [|done|by intros ->]. by apply (wd_heaps _ _ _ Hw pre).
  - by apply apart_lists_new, (wd_frames _ _ _ Hw).
  - by apply apart_lists_new, (wd_borrows _ _ _ Hw).
  - by apply apart_lists_new, (wd_entries _ _ _ Hw).
  - by apply apart_lists_new, (wd_natives _ _ _ Hw).
  - apply (wd_native_storage _ _ _ Hw).
Qed.

(** What a region leaves behind: the parent as it was suspended. *)
Record region_left (w w' : world) (region : N) (anc : list N) : Prop := {
  lf_states : ∃ parent heap rest, anc = parent :: rest ∧ w_states w !! parent = Some heap ∧ w_active w' = parent ∧
    w_states w' = delete region (<[parent := set_phase active heap]> (w_states w));
  lf_memory : unchanged (w_memory w) (w_memory w') anc;
  lf_dead : ∀ o, ¬ live_in (w_memory w') region o;
}.

Lemma region_leave_ok w hs ly region :
  world_ok w hs ly →
  safe (neri_rt_v1_region_leave region w) (λ w', ∃ anc,
    hs = region :: anc ∧ region_left w w' region anc ∧ world_ok w' anc ly).
Proof.
  intros Hw. destruct (world_current _ _ _ Hw) as (anc & heap & -> & Hheap & Hcur & Hok & Hh & Hz).
  unfold neri_rt_v1_region_leave. eapply safe_bind; [by eapply require_initialized_ok|]. intros [] Hph.
  rewrite Hcur, bind_Ok. split_guard; [apply safe_contract|].
  apply orb_false_iff in Heqb as [Hr Hp%N.eqb_neq]. apply negb_false_iff, N.eqb_eq in Hr. subst region.
  set (h := w_active w) in *. destruct (hp_region _ _ _ _ _ Hok) as [|Hreg]; [done|].
  pose proof (hp_ancestry _ _ _ _ _ Hok) as [A1 A2 A3]. rewrite <-Hreg in A1.
  destruct anc as [|parent anc]; [by simpl in A1|]. destruct A1 as (Heq & _ & _).
  assert (is_Some (w_states w !! parent)) as [state Hstate] by (apply (wd_states _ _ _ Hw); set_solver).
  rewrite Heq. assert (load_state w parent = Ok state) as -> by (unfold load_state; by rewrite Hstate). rewrite bind_Ok. split_guard; [apply safe_contract|].
  eapply safe_bind; [by eapply release_heap_ok|]. intros w1 Hem.
  destruct (em_rest _ _ _ _ _ Hem) as (E1 & E2 & E3 & E4 & E5 & E6).
  assert (h ≠ parent) as Hne by set_solver.
  assert (w_states w1 !! parent = Some state) as Hst1.
  { rewrite (em_states _ _ _ _ _ Hem), lookup_insert_ne by done. done. }
  unfold load_state. rewrite Hst1, load_Some, bind_Ok. apply safe_Ok. exists (parent :: anc).
  set (w' := with_states _ _). split; [done|].
  assert (w_states w' = delete h (<[parent := set_phase active state]> (w_states w))) as Hw's.
  { simpl. rewrite (em_states _ _ _ _ _ Hem). rewrite insert_insert_ne by done. by rewrite delete_insert_eq, !delete_insert_ne. }
  assert (unchanged (w_memory w) (w_memory w') (parent :: anc)) as Hun
    by (eapply reclaimed_unchanged; [apply (em_reclaimed _ _ _ _ _ Hem)|done]).
  assert (∀ x, x ∈ parent :: anc → chains_kept w w' ly ly x) as Hck.
  { intros x Hx. pose proof (emptied_kept w w1 ly ly h _ x Hem Hx eq_refl eq_refl eq_refl eq_refl) as [? ? ? ? ? ? ? ? ?].
    by constructor. }
  split.
  - constructor; [|done|intros o; apply (emptied_dead _ _ _ _ _ o Hem)]. exists parent, state, anc. done.
  - constructor.
    + apply (em_memory _ _ _ _ _ Hem).
    + intros x o bytes k Hl. eapply (emptied_unmarked w w1); [exact Hw|exact Hem|exact Hl].
    + done.
    + pose proof (wd_nodup _ _ _ Hw) as Hnd. by apply NoDup_cons in Hnd as [_ ?].
    + pose proof (wd_nonnull _ _ _ Hw). set_solver.
    + intros x. rewrite Hw's. destruct (decide (x = h)) as [->|Hx].
      * rewrite lookup_delete_eq. split; [by intros [? ?]|done].
      * rewrite lookup_delete_ne, lookup_insert_is_Some, (wd_states _ _ _ Hw), !elem_of_cons by done.
        destruct (decide (parent = x)) as [<-|]; [tauto|]. split; [|tauto]. intros [?|[_ [?|?]]]; done.
    + eapply (emptied_owners w w1); [exact Hw|exact Hem].
    + simpl. rewrite E2. apply (wd_tracing _ _ _ Hw).
    + intros heap'. change (w_active w') with parent. rewrite Hw's, lookup_delete_ne, lookup_insert_eq by done.
      intros [= <-]. by left.
    + intros pre x anc' heap' Hhs Hx. assert (x ∈ parent :: anc) as Hxin by (rewrite Hhs; set_solver).
      rewrite Hw's, lookup_delete_ne in Hx by (intros ->; done).
      assert (∀ a, a ∈ anc' → w_states w' !! a = w_states w !! a) as Hanc'.
      { intros a Ha. rewrite Hw's, lookup_delete_ne, lookup_insert_ne; [done| |].
        - intros ->. apply NoDup_cons in A2 as [A2 _]. destruct pre as [|z pre].
          + injection Hhs as -> ->. done.
          + injection Hhs as -> Hhs. apply A2. rewrite Hhs. set_solver.
        - intros ->. apply Hh. rewrite Hhs. set_solver. }
      eapply (heap_ok_frame w); [|done|by apply Hck|].
      * eapply unchanged_sub; [|exact Hun]. intros a Ha. rewrite Hhs. set_solver.
      * destruct (decide (x = parent)) as [->|Hxp].
        -- rewrite lookup_insert_eq in Hx. injection Hx as <-. apply heap_ok_phase; [done|].
           apply (wd_heaps _ _ _ Hw (h :: pre)); [by rewrite Hhs|done].
        -- rewrite lookup_insert_ne in Hx by done. apply (wd_heaps _ _ _ Hw (h :: pre)); [by rewrite Hhs|done].
    + eapply apart_lists_tail, (wd_frames _ _ _ Hw).
    + eapply apart_lists_tail, (wd_borrows _ _ _ Hw).
    + eapply apart_lists_tail, (wd_entries _ _ _ Hw).
    + eapply apart_lists_tail, (wd_natives _ _ _ Hw).
    + apply (em_storage _ _ _ _ _ Hem).
Qed.
(** ** Foreign entries *)

Lemma token_registered_ok w fuel head l entry :
  chain (entry_previous w) head l → (length l < fuel)%nat →
  token_registered fuel w head entry = Ok (bool_decide (entry ∈ l)).
Proof.
  revert head fuel. induction l as [|a l IH]; intros head [|fuel] Hc Hf; simpl in Hf; try lia.
  - simpl in Hc. subst head. done.
  - destruct Hc as (-> & Ha & n & Hn & Hc). cbn [token_registered]. rewrite (proj2 (N.eqb_neq _ _) Ha).
    destruct (N.eqb_spec a entry) as [->|Hae]; [by rewrite bool_decide_true by set_solver|].
    unfold entry_previous in Hn. destruct (w_entries w !! a) as [t|]; [|done]. injection Hn as <-.
    rewrite load_Some, bind_Ok, IH; [|done|lia]. f_equal. apply bool_decide_ext. set_solver.
Qed.

Lemma entries_fuel w head l : chain (entry_previous w) head l → NoDup l → (length l < list_fuel (w_entries w))%nat.
Proof.
  intros Hc Hnd. apply list_fuel_ok; [done|]. intros a Ha. destruct (chain_mapped _ _ _ _ Hc Ha) as [p Hp].
  unfold entry_previous in Hp. by apply fmap_Some in Hp as (t & -> & _).
Qed.

Lemma entry_active_ok w hs ly fuel pre h anc entry :
  world_ok w hs ly → hs = pre ++ h :: anc → (length (h :: anc) < fuel)%nat →
  returns (entry_active fuel w h entry) (λ b, b = true ↔ ∃ x, x ∈ h :: anc ∧ entry ∈ ly_entries ly x).
Proof.
  intros Hw. revert pre h fuel. induction anc as [|p anc IH]; intros pre h [|fuel] Hhs Hf; simpl in Hf; try lia.
  all: assert (is_Some (w_states w !! h)) as [heap Hheap] by (apply (wd_states _ _ _ Hw); rewrite Hhs; set_solver).
  all: pose proof (wd_heaps _ _ _ Hw _ _ _ _ Hhs Hheap) as Hok.
  all: assert (h ≠ 0) as Hz by (intros ->; apply (wd_nonnull _ _ _ Hw); rewrite Hhs; set_solver).
  all: cbn [entry_active]; rewrite (proj2 (N.eqb_neq _ _) Hz); unfold load_state; rewrite Hheap, load_Some, bind_Ok.
  all: rewrite (token_registered_ok w _ _ (ly_entries ly h)), bind_Ok;
    [|apply (hp_entries _ _ _ _ _ Hok)|eapply entries_fuel; [apply (hp_entries _ _ _ _ _ Hok)|];
        apply (hp_entries_nodup _ _ _ _ _ Hok)].
  all: case_bool_decide as Hin; [apply returns_Ok; split; [|done]; intros _; exists h; split; [set_solver|done]|].
  - pose proof (anc_chain _ _ _ (hp_ancestry _ _ _ _ _ Hok)) as Hp. simpl in Hp. rewrite Hp.
    destruct fuel as [|fuel]; [lia|]. apply returns_Ok. split; [done|].
    intros (x & ->%list_elem_of_singleton & ?). done.
  - pose proof (anc_chain _ _ _ (hp_ancestry _ _ _ _ _ Hok)) as (-> & _ & _).
    eapply returns_weaken; [apply (IH (pre ++ [h]) p fuel)|].
    + by rewrite Hhs, <-app_assoc.
    + simpl. lia.
    + intros b ->. split.
      * intros (x & Hx & Hex). exists x. split; [set_solver|done].
      * intros (x & [->|Hx]%elem_of_cons & Hex); [done|]. by exists x.
Qed.

Lemma states_fuel w hs ly : world_ok w hs ly → (length hs < list_fuel (w_states w))%nat.
Proof. intros Hw. apply list_fuel_ok; [apply (wd_nodup _ _ _ Hw)|]. intros a. by apply (wd_states _ _ _ Hw). Qed.

Lemma foreign_enter_ok w hs ly entry requirements :
  world_ok w hs ly →
  safe (neri_rt_v1_foreign_enter entry requirements w) (λ w',
    w_memory w' = w_memory w ∧ validate_requirements requirements = STATUS_OK ∧
    (∀ x, x ∈ hs → entry ∉ ly_entries ly x) ∧
    world_ok w' hs (with_ly_entries (w_active w) (entry :: ly_entries ly (w_active w)) ly)).
Proof.
  intros Hw. destruct (world_current _ _ _ Hw) as (anc & heap & -> & Hheap & Hcur & Hok & Hh & Hz).
  set (h := w_active w) in *. unfold neri_rt_v1_foreign_enter. rewrite Hcur, bind_Ok.
  split_guard; [apply safe_contract|]. apply orb_false_iff in Heqb as [[He _]%orb_false_iff _].
  apply N.eqb_neq in He.
  destruct (entry_active_ok w _ ly (list_fuel (w_states w)) [] h anc entry Hw eq_refl) as (b & -> & Hb);
    [by eapply states_fuel|]. rewrite bind_Ok. destruct b; [apply safe_contract|].
  destruct (bool_decide (validate_requirements requirements = STATUS_OK)) eqn:Hreq; [|apply safe_panic].
  apply bool_decide_eq_true_1 in Hreq. cbn [negb]. cbv zeta. apply safe_Ok.
  assert (∀ x, x ∈ h :: anc → entry ∉ ly_entries ly x) as Hfresh.
  { intros x Hx Hin. enough (false = true) by done. apply Hb. by exists x. }
  split_and!; [done|done|done|]. set (token := mk_foreign _ _ _ _ _ _).
  eapply (world_ok_update w _ ly _ h anc heap); try done.
  - by left.
  - intros x Hx. assert (x ≠ h) as Hxh by (by intros ->). constructor; simpl; try done.
    + by rewrite set_list_ne.
    + intros a Ha. rewrite lookup_insert_ne; [done|]. intros <-. apply (Hfresh x); set_solver.
  - pose proof (hp_chains _ _ _ _ _ Hok) as Hch. by destruct Hch; constructor.
  - simpl. rewrite set_list_eq. split; [done|]. split; [done|]. exists (rs_foreign_entry heap).
    unfold entry_previous at 1. simpl. rewrite lookup_insert_eq. split; [done|].
    eapply chain_ext; [|apply (hp_entries _ _ _ _ _ Hok)]. intros a Ha. unfold entry_previous. simpl.
    rewrite lookup_insert_ne; [done|]. intros <-. apply (Hfresh h); set_solver.
  - simpl. rewrite set_list_eq. apply NoDup_cons. split; [apply Hfresh; set_solver|]. apply (hp_entries_nodup _ _ _ _ _ Hok).
  - simpl. rewrite set_list_eq. intros t tok [->|Ht]%elem_of_cons.
    + rewrite lookup_insert_eq. intros [= <-]. simpl. unfold phase_is. case_bool_decide as Hu; [|done].
      intros _. by apply (hp_uninitialized _ _ _ _ _ Hok).
    + rewrite lookup_insert_ne; [by apply (hp_owning _ _ _ _ _ Hok)|]. intros <-. apply (Hfresh h); set_solver.
  - eapply (natives_ok_same w _ heap); [done..|]. apply (hp_natives _ _ _ _ _ Hok).
  - simpl. apply (hp_roots _ _ _ _ _ Hok).
  - keep_apart Hw.
  - keep_apart Hw.
  - simpl. rewrite set_list_eq. intros a x [->|Ha]%elem_of_cons Hx; [apply Hfresh; set_solver|].
    eapply (active_apart ly h anc x a ly_entries); try done. apply (wd_entries _ _ _ Hw).
  - keep_apart Hw.
  - apply (wd_native_storage _ _ _ Hw).
Qed.
(** Leaving an entry: the token on top, with the chains as they were entered; an entry
    that initialized the heap releases it. *)
Lemma foreign_leave_ok w hs ly entry :
  world_ok w hs ly →
  safe (neri_rt_v1_foreign_leave entry w) (λ w', ∃ rest token heap,
    ly_entries ly (w_active w) = entry :: rest ∧ w_entries w !! entry = Some token ∧
    w_states w !! w_active w = Some heap ∧ fe_roots token = rs_root_frame heap ∧ fe_borrows token = rs_borrow heap ∧
    (fe_owns_heap token ≠ 0 → rest = [] ∧ ∀ o, ¬ live_in (w_memory w') (w_active w) o) ∧
    (fe_owns_heap token = 0 → w_memory w' = w_memory w) ∧
    ∃ ly', world_ok w' hs ly' ∧ ly_entries ly' (w_active w) = rest).
Proof.
  intros Hw. destruct (world_current _ _ _ Hw) as (anc & heap & -> & Hheap & Hcur & Hok & Hh & Hz).
  set (h := w_active w) in *. unfold neri_rt_v1_foreign_leave.
  eapply safe_bind; [by eapply require_initialized_ok|]. intros [] Hph. rewrite Hcur, bind_Ok.
  split_guard; [apply safe_contract|]. apply orb_false_iff in Heqb as [He%N.eqb_neq Htop].
  apply negb_false_iff, N.eqb_eq in Htop. pose proof (hp_entries _ _ _ _ _ Hok) as Hch. rewrite Htop in Hch.
  destruct (ly_entries ly h) as [|a rest] eqn:Hel; [done|]. destruct Hch as (<- & _ & n & Hn & Hch).
  unfold entry_previous in Hn. destruct (w_entries w !! entry) as [token|] eqn:Htok; [|done]. injection Hn as <-.
  rewrite load_Some, bind_Ok. split_guard; [apply safe_contract|]. clear Heqb.
  split_guard; [apply safe_contract|]. apply orb_false_iff in Heqb as [Hfr Hbr].
  apply negb_false_iff, N.eqb_eq in Hfr, Hbr. pose proof (hp_entries_nodup _ _ _ _ _ Hok) as Hnd. rewrite Hel in Hnd.
  apply NoDup_cons in Hnd as [Hni Hnd].
  set (w1 := store_state h _ _).
  assert (∀ x, x ∈ anc → entry ∉ ly_entries ly x) as Hfresh.
  { intros x Hx. eapply (active_apart ly h anc x entry ly_entries); try done; [apply (wd_entries _ _ _ Hw)|].
    rewrite Hel. set_solver. }
  assert (world_ok w1 (h :: anc) (with_ly_entries h rest ly)) as Hw1.
  { eapply (world_ok_update w _ ly _ h anc heap); try done.
    - by left.
    - intros x Hx. assert (x ≠ h) as Hxh by (by intros ->). constructor; simpl; try done.
      + by rewrite set_list_ne.
      + intros a Ha. rewrite lookup_insert_ne; [done|]. intros <-. by apply (Hfresh x).
    - pose proof (hp_chains _ _ _ _ _ Hok) as Hch'. by destruct Hch'; constructor.
    - simpl. rewrite set_list_eq. eapply chain_ext; [|exact Hch]. intros a Ha. unfold entry_previous. simpl.
      rewrite lookup_insert_ne; [done|]. by intros <-.
    - simpl. by rewrite set_list_eq.
    - simpl. rewrite set_list_eq. intros t tok Ht. rewrite lookup_insert_ne by (by intros <-).
      apply (hp_owning _ _ _ _ _ Hok). rewrite Hel. set_solver.
    - eapply (natives_ok_same w _ heap); [done..|]. apply (hp_natives _ _ _ _ _ Hok).
    - simpl. apply (hp_roots _ _ _ _ _ Hok).
    - keep_apart Hw.
    - keep_apart Hw.
    - simpl. rewrite set_list_eq. intros a x Ha Hx. eapply (active_apart ly h anc x a ly_entries); try done.
      + apply (wd_entries _ _ _ Hw).
      + rewrite Hel. set_solver.
    - keep_apart Hw.
    - apply (wd_native_storage _ _ _ Hw). }
  destruct (N.eqb_spec (fe_owns_heap token) 0) as [Ho|Ho]; cbn [negb].
  - apply safe_Ok. exists rest, token, heap. split_and!; try done. exists (with_ly_entries h rest ly).
    split; [done|]. simpl. by rewrite set_list_eq.
  - assert (anc = []) as -> by (eapply (hp_owning _ _ _ _ _ Hok entry token); [rewrite Hel; set_solver|done..]).
    eapply safe_weaken; [by eapply release_heap_ok|]. intros w' Hem.
    pose proof (em_lists _ _ _ _ _ Hem) as (_ & _ & Hrest). simpl in Hrest. rewrite set_list_eq in Hrest. subst rest.
    exists [], token, heap. split_and!; try done.
    + intros _. split; [done|]. intros o. by eapply emptied_dead.
    + exists (with_ly_natives h [] (with_ly_entries h [] ly)). split; [by eapply emptied_world|].
      simpl. by rewrite set_list_eq.
Qed.

(** ** Initialization and shutdown *)

Lemma initialize_ok w hs ly requirements :
  world_ok w hs ly →
  safe (neri_rt_v1_initialize requirements w) (λ '(status, w'),
    status = validate_requirements requirements ∧ w_memory w' = w_memory w ∧
    (status ≠ STATUS_OK → w' = w) ∧
    (status = STATUS_OK → ∃ heap', w_states w' !! w_active w = Some heap' ∧ rs_phase heap' = active) ∧
    world_ok w' hs ly).
Proof.
  intros Hw. destruct (world_current _ _ _ Hw) as (anc & heap & -> & Hheap & Hcur & Hok & Hh & Hz).
  unfold neri_rt_v1_initialize. rewrite Hcur, bind_Ok. split_guard; [apply safe_contract|].
  destruct (bool_decide_reflect (validate_requirements requirements = STATUS_OK)) as [Hr|Hr]; cbn [negb]; apply safe_Ok.
  - split_and!; [done|done|done| |].
    + intros _. eexists. simpl. rewrite lookup_insert_eq. split; [done|]. simpl.
      destruct (wd_active_phase _ _ _ Hw heap Hheap) as [Hp|Hp]; unfold phase_is; rewrite Hp; done.
    + eapply world_ok_scalars; try done; unfold phase_is; case_bool_decide as Hp; try done; simpl.
      * by left.
      * left. by destruct (wd_active_phase _ _ _ Hw heap Hheap).
  - split_and!; try done.
Qed.

(** Shutdown outside of a region: the runtime holds nothing any more. *)
Lemma shutdown_ok w h ly :
  world_ok w [h] ly →
  safe (neri_rt_v1_shutdown w) (λ w',
    w_states w' !! h = Some empty_state ∧ (∀ o, ¬ live_in (w_memory w') h o) ∧ world_ok w' [h] (with_ly_natives h [] ly)
    ∨ w' = w ∧ ∃ heap, w_states w !! h = Some heap ∧ rs_phase heap = uninitialized).
Proof.
  intros Hw. destruct (world_current _ _ _ Hw) as (anc & heap & [= Hact <-] & Hheap & Hcur & Hok & Hh & Hz).
  rewrite Hact. unfold neri_rt_v1_shutdown. rewrite Hcur, bind_Ok. unfold phase_is. case_bool_decide as Hu.
  { apply safe_Ok. right. eauto. }
  rewrite Hact in Hw. eapply safe_bind; [by eapply release_heap_ok|]. intros w' Hem.
  destruct (flush_console w'); [|apply safe_contract]. apply safe_Ok. left. cbv beta in Hem.
  split_and!; [|intros o; by eapply emptied_dead|by eapply emptied_world].
  by rewrite (em_states _ _ _ _ _ Hem), lookup_insert_eq.
Qed.

Lemma set_process_arguments_ok w hs ly argc argv :
  world_ok w hs ly →
  safe (neri_rt_v1_set_process_arguments argc argv w) (λ w', w_memory w' = w_memory w ∧ world_ok w' hs ly).
Proof.
  intros Hw. destruct (world_current _ _ _ Hw) as (anc & heap & -> & Hheap & Hcur & Hok & Hh & Hz).
  unfold neri_rt_v1_set_process_arguments. eapply safe_bind; [by eapply require_initialized_ok|]. intros [] Hph.
  split_guard; [apply safe_contract|]. rewrite Hcur, bind_Ok. apply safe_Ok. split; [done|].
  eapply world_ok_scalars; try done. by left.
Qed.
End lives.
