(* ===== verification/Isolation.v ===== *)
(** * Runs of a program against the runtime

    The operations compiled code performs: the calls of the runtime's API, and the
    stores it does itself (root slots, new frames and tokens on the stack, scalar
    fields, native memory).  Each has a contract that speaks of the program's side only.
    A run is a sequence of operations that keep their contracts; the invariant of the
    runtime holds in every state of every run, and no call is ever undefined.

    Suspended contexts

    While a region is active, the contexts below it do not change: no operation of the
    API, whatever it allocates, collects or releases, touches an object of theirs.  And
    the pairs of calls that bracket code (frames, borrows, regions) undo each other. *)

From S2P Require Import Prelude Chains Storage Slabs Memory StorageSafety Sweep Heap.
From S2P Require Import Marking Collector HeapInvariant Collection RuntimeApi Payloads.
From S2P Require Import ApiSafety AllocationSafety NativeSafety RegionSafety.

Local Open Scope string_scope.
Local Open Scope list_scope.
Local Open Scope N_scope.

(** ** Arrays of scalars *)

Section arrays.
Context `{Program} `{RuntimeHost} `{LawfulHost} `{!LawfulTrace}.

(** An array's prefix holds at least its length. *)
Lemma array_prefix d psize palign :
  allocation_contract d psize palign = true → td_kind d = TYPE_KIND_ARRAY → 8 ≤ psize.
Proof.
  unfold allocation_contract, valid_array. intros Hc Hk. rewrite Hk, N.eqb_refl in Hc. cbn [negb orb] in Hc.
  rewrite !andb_true_iff in Hc. destruct_and! Hc.
  assert (td_payload_size d = N.ldiff (8 + td_element_alignment d - 1) (td_element_alignment d - 1)) as Hs
    by by apply N.eqb_eq.
  assert (td_element_alignment d ≤ max_align) as Hm by by apply N.leb_le.
  assert (td_payload_size d ≤ psize) as Hle by by apply N.leb_le.
  assert (is_power_of_two (td_element_alignment d) = true) as Hp by done.
  enough (8 ≤ td_payload_size d) by lia. rewrite Hs. clear -Hp Hm. unfold max_align in Hm.
  assert (Forall (λ a, is_power_of_two a = true → 8 ≤ N.ldiff (8 + a - 1) (a - 1)) (indices 17)) as Hall.
  { apply (bool_decide_unpack (Forall (λ a, is_power_of_two a = true → 8 ≤ N.ldiff (8 + a - 1) (a - 1)) (indices 17))).
    by vm_compute. }
  eapply Forall_forall in Hall; [apply Hall, Hp|]. apply elem_of_indices. lia.
Qed.
Lemma allocate_managed_valid type psize palign zeroed w r :
  allocate_managed type psize palign zeroed w = Ok r →
  ∃ d, descriptor type = Some d ∧ allocation_contract d psize palign = true.
Proof.
  unfold allocate_managed, validate_type. destruct (require_initialized w); [|done]. rewrite bind_Ok.
  destruct (current_state w) as [[h heap]|]; [|done]. rewrite bind_Ok. destruct (phase_is _ _); [done|].
  destruct (type =? 0); [done|]. destruct (descriptor type) as [d|]; [|done]. rewrite load_Some, bind_Ok.
  destruct (allocation_contract d psize palign) eqn:Hc; [|done]. intros _. eauto.
Qed.

(** The array's length is zero and no other word of the object is set. *)
Lemma array_alloc_ok w hs ly heap type psize palign :
  world_ok w hs ly → w_states w !! w_active w = Some heap → type_contract type true →
  safe (neri_rt_v1_array_alloc_uninitialized type psize palign w) (λ '(o, w'),
    world_ok w' hs ly ∧ ∃ w1, allocated w w1 ly heap type psize false o ∧ 8 ≤ psize ∧
      ∃ ob, m_objects (w_memory w1) !! o = Some ob ∧
        w' = with_memory (store_object o (set_payload ob (write_word (ob_payload ob) 0 0)) (w_memory w1)) w1).
Proof.
  intros Hw Hheap Htype. unfold neri_rt_v1_array_alloc_uninitialized.
  destruct (N.eqb_spec type 0) as [Hz|Hz]; [apply safe_contract|].
  destruct Htype as [|([d Hd] & Hlit & _)]; [done|]. rewrite Hd, load_Some, bind_Ok.
  destruct (_ || _ || _) eqn:Hg; [apply safe_contract_bind|]. rewrite bind_Ok.
  apply orb_false_iff in Hg as [[Hk Hf]%orb_false_iff Ht]. apply negb_false_iff, N.eqb_eq in Hk, Hf, Ht.
  assert (type_contract type false) as Hcontract.
  { right. split_and!; [by exists d|done|]. right. eauto. }
  destruct (allocate_managed_ok w hs ly heap type psize palign false Hw Hheap Hcontract) as
    [([o w1] & Hr & Hw1 & Hal)|(c & msg & ->)]; [|apply safe_panic].
  rewrite Hr, bind_Ok. destruct (allocate_managed_valid _ _ _ _ _ _ Hr) as (d' & Hd' & Hac).
  rewrite Hd in Hd'. injection Hd' as <-. pose proof (array_prefix _ _ _ Hac Hk) as H8.
  destruct (al_object _ _ _ _ _ _ _ _ Hal) as (ob & Hob & Hty & Hlen & _).
  unfold store_length, load_object. rewrite Hob, load_Some, !bind_Ok, Hlen, (proj2 (N.leb_le _ _) H8), assert_true.
  rewrite !bind_Ok. apply safe_Ok. set (ob' := set_payload ob (write_word (ob_payload ob) 0 0)).
  pose proof (al_active _ _ _ _ _ _ _ _ Hal) as Hact.
  destruct (world_current _ _ _ Hw1) as (anc & heap1 & Hhs & Hheap1 & _). rewrite Hact in Hhs, Hheap1.
  assert (slots_of o ob' = []) as Hno.
  { unfold slots_of. simpl. rewrite Hty, Hd. simpl. rewrite Ht, N.eqb_refl. by destruct (type =? 0). }
  split.
  - eapply (replace_world w1 hs ly (w_active w) o ob ob'); try done.
    + rewrite Hhs. set_solver.
    + exists (sizeof_header + psize), false. apply Hal.
    + simpl. apply length_write_word. lia.
    + split_and!; [|simpl; by rewrite Hty|].
      { right. exists d. simpl. rewrite Hty, length_write_word by lia. split; [done|]. rewrite Hlen.
        unfold allocation_contract in Hac. rewrite !andb_true_iff in Hac. destruct_and! Hac. by apply N.leb_le. } intros slot. rewrite Hno. by intros ?%elem_of_nil.
    + intros r. unfold refs_of. rewrite Hno. by intros ?%elem_of_nil.
  - exists w1. split_and!; [done|done|]. exists ob. done.
Qed.
End arrays.

(** ** What compiled code stores itself *)

Section stores.
Context `{Program}.

(** The slots that hold the roots of context [x]. *)
Definition root_slot (w : world) (x slot : N) : Prop :=
  ∃ s, w_states w !! x = Some s ∧
    (slot ∈ rs_persistent_roots s ∨
     ∃ l a f, chain (frame_previous w) (rs_root_frame s) l ∧ a ∈ l ∧ w_frames w !! a = Some f ∧ slot ∈ frame_slots f).

Lemma chain_functional next head l l' : chain next head l → chain next head l' → l = l'.
Proof.
  revert head l'. induction l as [|a l IH]; intros head [|b l'].
  - done.
  - simpl. intros ? (-> & ? & _). done.
  - simpl. intros (-> & ? & _) ?. done.
  - intros (-> & _ & n & Hn & Hc) (-> & _ & n' & Hn' & Hc'). rewrite Hn in Hn'. injection Hn' as <-.
    f_equal. eauto.
Qed.

(** A native word that holds no root of a suspended context. *)
Lemma write_root_ok w hs ly slot v :
  world_ok w hs ly → valid_ref (w_memory w) hs v → (∀ x, x ∈ tail hs → ¬ root_slot w x slot) →
  world_ok (with_words <[slot := v]> w) hs ly.
Proof.
  intros Hw Hv Hroot. destruct Hw as [W1 W2 W3 W4 W5 W6 W7 W8 W9 W10 W11 W12 W13 W14 W15]. constructor; try done.
  intros pre h anc heap Hhs Hheap. pose proof (W10 pre h anc heap Hhs Hheap) as Hok.
  destruct Hok as [P1 P2 P3 P4 P5 P6 P7 P8 P9 P10 P11 P12 P13].
  assert (∀ a, is_Some (w_words w !! a) → is_Some (<[slot := v]> (w_words w) !! a)) as Hmap.
  { intros a Ha. rewrite lookup_insert_is_Some'. by right. }
  constructor; try done.
  - destruct P6 as [C1 C2 C3 C4 C5 C6 C7]. constructor; try done.
    + intros a Ha. destruct (C3 a Ha) as (f & Hf & Hc & Hs & Hslots). exists f. split_and!; try done.
      intros i Hi. apply Hmap. by apply Hslots.
    + intros a Ha. destruct (C7 a Ha). split; [done|]. by apply Hmap.
  - by eapply (natives_ok_same w _ heap).
  - intros r Hr. rewrite elem_of_root_refs in Hr.
    assert (∀ a, a = slot → pre ≠ [] → ¬ root_slot w h a) as Hsus.
    { intros a -> Hpre. apply Hroot. destruct pre as [|y pre]; [done|]. rewrite Hhs. simpl. set_solver. }
    assert (∀ a, root_slot w h a → word w a ∈ root_refs w heap (ly_frames ly h) (ly_borrows ly h) →
      valid_ref (w_memory w) (h :: anc) (word (with_words <[slot := v]> w) a)) as Hword.
    { intros a Ha Hin. unfold word. simpl. destruct (decide (a = slot)) as [->|Hne].
      - rewrite lookup_insert_eq. simpl. destruct pre as [|y pre]; [by rewrite Hhs in Hv|]. by destruct (Hsus slot eq_refl).
      - rewrite lookup_insert_ne by done. by apply P10. }
    destruct Hr as [(a & Ha & Hr)|[(a & Ha & ->)|(a & Ha & Hr)]].
    + unfold frame_roots in Hr. simpl in Hr. destruct (w_frames w !! a) as [f|] eqn:Hf; [|by apply elem_of_nil in Hr].
      simpl in Hr. apply list_elem_of_fmap in Hr as (s & -> & Hs). apply Hword.
      * exists heap. split; [done|]. right. exists (ly_frames ly h), a, f. split_and!; try done. apply P6.
      * apply elem_of_root_refs. left. exists a. split; [done|]. unfold frame_roots. rewrite Hf. simpl.
        apply list_elem_of_fmap. eauto.
    + apply Hword; [exists heap; split; [done|by left]|]. apply elem_of_root_refs. right. left. eauto.
    + apply P10, elem_of_root_refs. right. right. eauto.
Qed.

(** A frame or a borrow token the runtime does not hold. *)
Lemma new_frame_ok w hs ly a f :
  world_ok w hs ly → (∀ old, w_frames w !! a = Some old → fr_runtime_cookie old = 0) →
  world_ok (with_frames <[a := f]> w) hs ly.
Proof.
  intros Hw Ha.
  assert (∀ x b, x ∈ hs → b ∈ ly_frames ly x → a ≠ b) as Hne.
  { intros x b Hx Hb ->. destruct (in_frames_cookie _ _ _ _ _ Hw Hx Hb) as (old & Hold & Hc).
    rewrite (Ha _ Hold) in Hc. done. }
  assert (∀ x, x ∈ hs → chains_kept w (with_frames <[a := f]> w) ly ly x) as Hck.
  { intros x Hx. constructor; try done. intros b Hb. simpl. rewrite lookup_insert_ne; [done|]. by eapply Hne. }
  destruct Hw as [W1 W2 W3 W4 W5 W6 W7 W8 W9 W10 W11 W12 W13 W14 W15]. constructor; try done.
  intros pre h anc heap Hhs Hheap. eapply (heap_ok_frame w); [apply unchanged_refl|done|apply Hck; rewrite Hhs; set_solver|eauto].
Qed.

Lemma new_borrow_ok w hs ly a b :
  world_ok w hs ly → (∀ old, w_borrows w !! a = Some old → bw_cookie old = 0) →
  world_ok (with_borrows <[a := b]> w) hs ly.
Proof.
  intros Hw Ha.
  assert (∀ x b, x ∈ hs → b ∈ ly_borrows ly x → a ≠ b) as Hne.
  { intros x b' Hx Hb ->. destruct (in_borrows_cookie _ _ _ _ _ Hw Hx Hb) as (old & Hold & Hc).
    rewrite (Ha _ Hold) in Hc. done. }
  assert (∀ x, x ∈ hs → chains_kept w (with_borrows <[a := b]> w) ly ly x) as Hck.
  { intros x Hx. constructor; try done. intros b' Hb. simpl. rewrite lookup_insert_ne; [done|]. by eapply Hne. }
  destruct Hw as [W1 W2 W3 W4 W5 W6 W7 W8 W9 W10 W11 W12 W13 W14 W15]. constructor; try done.
  intros pre h anc heap Hhs Hheap. eapply (heap_ok_frame w); [apply unchanged_refl|done|apply Hck; rewrite Hhs; set_solver|eauto].
Qed.
End stores.

(** ** Operations *)

(** The calls of the API, then the stores of compiled code and of the runtime's own
    functions on strings and arrays. *)
Inductive operation :=
| op_initialize (requirements : option abi_requirements)
| op_shutdown
| op_set_process_arguments (argc : Z) (argv : N)
| op_alloc (type payload_size payload_alignment : N)
| op_array_alloc_uninitialized (type payload_size payload_alignment : N)
| op_collect
| op_root_frame_enter (frame : N)
| op_root_frame_leave (frame : N)
| op_store_ref (owner slot value : N)
| op_keep_alive (object : N)
| op_borrow_begin (owner payload_offset byte_length borrow : N)
| op_borrow_end (borrow : N)
| op_native_alloc (byte_count alignment : N)
| op_native_alloc_zeroed (byte_count alignment : N)
| op_native_realloc (pointer byte_count alignment : N)
| op_native_free (pointer : N)
| op_foreign_enter (entry : N) (requirements : option abi_requirements)
| op_foreign_leave (entry : N)
| op_region_enter
| op_region_leave (region : N)
| op_write_root (slot value : N)
| op_new_frame (frame slots slot_count : N)
| op_new_borrow (borrow : N)
| op_write_fields (object : N) (payload : list byte)
| op_write_native (pointer : N) (contents : list byte)
| op_set_host_error (message : string).

Section runs.
Context `{Program} `{!LawfulTrace} `{RuntimeHost} `{!LawfulRuntimeHost} `{HostMemory} `{!LawfulHost}.

(** The world after the operation; results other than the world are dropped. *)
Definition run (op : operation) (w : world) : result world :=
  match op with
  | op_initialize r => '(_, w) ← neri_rt_v1_initialize r w; Ok w
  | op_shutdown => neri_rt_v1_shutdown w
  | op_set_process_arguments argc argv => neri_rt_v1_set_process_arguments argc argv w
  | op_alloc t n a => '(_, w) ← neri_rt_v1_gc_alloc t n a w; Ok w
  | op_array_alloc_uninitialized t n a => '(_, w) ← neri_rt_v1_array_alloc_uninitialized t n a w; Ok w
  | op_collect => neri_rt_v1_gc_collect w
  | op_root_frame_enter f => neri_rt_v1_gc_root_frame_enter f w
  | op_root_frame_leave f => neri_rt_v1_gc_root_frame_leave f w
  | op_store_ref o s v => neri_rt_v1_gc_store_ref o s v w
  | op_keep_alive o => neri_rt_v1_gc_keep_alive o w;; Ok w
  | op_borrow_begin o f n b => '(_, w) ← neri_rt_v1_gc_borrow_begin o f n b w; Ok w
  | op_borrow_end b => neri_rt_v1_gc_borrow_end b w
  | op_native_alloc n a => '(_, w) ← neri_rt_v1_native_alloc n a w; Ok w
  | op_native_alloc_zeroed n a => '(_, w) ← neri_rt_v1_native_alloc_zeroed n a w; Ok w
  | op_native_realloc p n a => '(_, w) ← neri_rt_v1_native_realloc p n a w; Ok w
  | op_native_free p => neri_rt_v1_native_free p w
  | op_foreign_enter e r => neri_rt_v1_foreign_enter e r w
  | op_foreign_leave e => neri_rt_v1_foreign_leave e w
  | op_region_enter => '(_, w) ← neri_rt_v1_region_enter w; Ok w
  | op_region_leave r => neri_rt_v1_region_leave r w
  | op_write_root s v => Ok (with_words <[s := v]> w)
  | op_new_frame f s n => Ok (with_frames <[f := mk_frame 0 s n 0]> w)
  | op_new_borrow b => Ok (with_borrows <[b := mk_borrow 0 0 0 0]> w)
  | op_write_fields o p =>
      ob ← load_object (w_memory w) o; Ok (with_memory (store_object o (set_payload ob p) (w_memory w)) w)
  | op_write_native p c => Ok (with_natives id <[p := c]> w)
  | op_set_host_error message =>
      '(h, heap) ← current_state w; Ok (store_state h (set_host_error message heap) w)
  end.

(** What the program has to respect; [hs] is the active context and those below it. *)
Definition contract (op : operation) (w : world) (hs : list N) : Prop :=
  match op with
  | op_shutdown => tail hs = []
  | op_alloc t _ _ | op_array_alloc_uninitialized t _ _ => type_contract t true
  | op_root_frame_enter f => frame_contract w hs f
  | op_store_ref o s v => store_contract w hs o s v
  | op_keep_alive o => valid_ref (w_memory w) hs o
  | op_borrow_begin o _ _ b => borrow_contract w hs o b
  | op_native_alloc n _ | op_native_alloc_zeroed n _ | op_native_realloc _ n _ => n ≤ u64_max
  | op_write_root s v => valid_ref (w_memory w) hs v ∧ ∀ x, x ∈ tail hs → ¬ root_slot w x s
  | op_new_frame f _ _ => ∀ old, w_frames w !! f = Some old → fr_runtime_cookie old = 0
  | op_new_borrow b => ∀ old, w_borrows w !! b = Some old → bw_cookie old = 0
  | op_write_fields o p => ∃ ob, m_objects (w_memory w) !! o = Some ob ∧ live_in (w_memory w) (w_active w) o ∧
      length_N p = length_N (ob_payload ob) ∧ traceable o (set_payload ob p) ∧
      ∀ r, r ∈ refs_of o (set_payload ob p) → valid_ref (w_memory w) hs r
  | op_write_native p c => ∃ old, w_bytes w !! p = Some old ∧ length_N c = length_N old
  | _ => True
  end.

(** The contexts after the operation: regions push and pop one. *)
Definition contexts (op : operation) (w' : world) (hs : list N) : list N :=
  match op with
  | op_region_enter => w_active w' :: hs
  | op_region_leave _ => tail hs
  | _ => hs
  end.

(** Native allocation without the node. *)
Lemma native_alloc_ok w hs ly n a zeroed :
  n ≤ u64_max → world_ok w hs ly →
  safe (require_initialized w;; allocate_native_memory n a zeroed w) (λ '(_, w'), ∃ ly', world_ok w' hs ly').
Proof.
  intros Hn Hw. destruct (world_current _ _ _ Hw) as (anc & heap & _ & Hheap & _).
  eapply safe_bind; [by eapply require_initialized_ok|]. intros [] Hph.
  eapply safe_weaken; [by eapply allocate_native_memory_ok|]. intros [p w'] (node & contents & Hrest).
  eexists. apply Hrest.
Qed.

Lemma safe_world {A} (m : result (A * world)) (P : world → Prop) :
  safe m (λ '(_, w'), P w') → safe ('(_, w') ← m; Ok w') P.
Proof. intros Hm. eapply safe_bind; [exact Hm|]. intros [a w']. apply safe_Ok. Qed.

(** ** Every operation is safe *)
Lemma run_safe op w hs ly :
  world_ok w hs ly → contract op w hs → safe (run op w) (λ w', ∃ ly', world_ok w' (contexts op w' hs) ly').
Proof.
  intros Hw. destruct (world_current _ _ _ Hw) as (anc & heap & Hhs & Hheap & _).
  destruct op; simpl run; simpl contract; simpl contexts; intros Hc; try apply safe_world.
  - eapply safe_weaken; [by eapply initialize_ok|]. intros [s w'] Hr. eexists. apply Hr.
  - rewrite Hhs in Hc. simpl in Hc. subst anc. rewrite Hhs in Hw |- *.
    eapply safe_weaken; [by eapply shutdown_ok|]. intros w' [(_ & _ & Hr)|[-> _]]; eauto.
  - eapply safe_weaken; [by eapply set_process_arguments_ok|]. intros w' [_ Hr]. eauto.
  - eapply safe_weaken; [by eapply allocate_managed_ok|]. intros [o w'] [Hr _]. eauto.
  - eapply safe_weaken; [by eapply array_alloc_ok|]. intros [o w'] [Hr _]. eauto.
  - unfold neri_rt_v1_gc_collect. eapply safe_bind; [by eapply require_initialized_ok|]. intros [] Hph.
    apply safe_yields. eapply yields_weaken; [by eapply collect_ok|]. intros w' [Hr _]. eauto.
  - eapply safe_weaken; [by eapply root_frame_enter_ok|]. intros w' Hr. eexists. exact Hr.
  - eapply safe_weaken; [by eapply root_frame_leave_ok|]. intros w' (rest & _ & Hr). eauto.
  - eapply safe_weaken; [by eapply gc_store_ref_ok|]. intros w' [Hr _]. eauto.
  - eapply safe_bind; [by eapply gc_keep_alive_ok|]. intros [] _. apply safe_Ok. eauto.
  - eapply safe_weaken; [by eapply gc_borrow_begin_ok|]. intros [p w'] [_ Hr]. eauto.
  - eapply safe_weaken; [by eapply gc_borrow_end_ok|]. intros w' (rest & _ & Hr). eauto.
  - by eapply native_alloc_ok.
  - by eapply native_alloc_ok.
  - destruct (decide (pointer = 0)) as [->|Hp]; [by eapply native_alloc_ok|].
    eapply safe_weaken; [by eapply native_realloc_ok|]. intros [q w'] (_ & nl & Hr). eauto.
  - eapply safe_weaken; [by eapply native_free_ok|].
    intros w' [[_ ->]|(heap' & a & n & l1 & l2 & _ & _ & _ & _ & _ & _ & Hr)]; eauto.
  - eapply safe_weaken; [by eapply foreign_enter_ok|]. intros w' (_ & _ & _ & Hr). eauto.
  - eapply safe_weaken; [by eapply foreign_leave_ok|].
    intros w' (rest & token & heap' & _ & _ & _ & _ & _ & _ & _ & ly' & Hr & _). eauto.
  - eapply safe_weaken; [by eapply region_enter_ok|]. intros [r w'] (heap' & _ & _ & _ & _ & -> & _ & Hr). eauto.
  - eapply safe_weaken; [by eapply region_leave_ok|]. intros w' (anc' & -> & _ & Hr). eauto.
  - apply safe_Ok. exists ly. destruct Hc. by apply write_root_ok.
  - apply safe_Ok. exists ly. by apply new_frame_ok.
  - apply safe_Ok. exists ly. by apply new_borrow_ok.
  - destruct Hc as (ob & Hob & Hl & Hlen & Htr & Hrefs). unfold load_object. rewrite Hob, load_Some, bind_Ok.
    apply safe_Ok. exists ly. rewrite Hhs in Hrefs.
    eapply (replace_world w hs ly (w_active w) object ob); try done. rewrite Hhs. set_solver.
  - apply safe_Ok. destruct Hc as (old & Hold & Hlen). exists ly. by eapply world_ok_contents.
  - unfold current_state, load_state. rewrite Hheap, load_Some, !bind_Ok. apply safe_Ok. exists ly. rewrite Hhs in Hw |- *.
    eapply world_ok_scalars; try done. simpl. destruct (wd_active_phase _ _ _ Hw heap Hheap); tauto.
Qed.

(** ** Runs *)

(** The runtime of a thread before its first call: one uninitialized context; the only
    objects are the program's literals. *)
Record initial_world (w : world) (h : N) : Prop := {
  in_context : h ≠ 0;
  in_states : w_states w = {[ h := empty_state ]};
  in_active : w_active w = h ∧ w_tracing w = false;
  in_memory : m_slabs (w_memory w) = ∅ ∧ m_large (w_memory w) = ∅;
  in_natives : w_natives w = ∅;
}.

Inductive step : world * list N → world * list N → Prop :=
| step_operation op w w' hs :
    contract op w hs → run op w = Ok w' → step (w, hs) (w', contexts op w' hs).

Definition reaches (w0 : world) (h : N) (w : world) (hs : list N) : Prop :=
  initial_world w0 h ∧ rtc step (w0, [h]) (w, hs).

Lemma initial_ok w h : initial_world w h → world_ok w [h] (mk_layout (λ _, []) (λ _, []) (λ _, []) (λ _, [])).
Proof.
  intros [Hz Hst [Ha Ht] [Hs Hl] Hn].
  assert (∀ x o bytes k, ¬ live_object (w_memory w) x o bytes k) as Hdead.
  { intros x o bytes k Hl'. destruct Hl' as [b s i bytes k Hm _|a g Hm]; [rewrite Hs in Hm|rewrite Hl in Hm];
      by rewrite lookup_empty in Hm. }
  assert (∀ f, apart_lists (λ _ : N, []) f) as Hap by (intros f x y a _ _ _ ?%elem_of_nil; done).
  constructor; try done.
  - constructor; intros *; rewrite ?Hs, ?Hl; by rewrite lookup_empty.
  - intros x o bytes k ?%Hdead. done.
  - simpl. by rewrite Ha.
  - apply NoDup_singleton.
  - by intros ?%list_elem_of_singleton.
  - intros x. rewrite Hst, lookup_singleton_is_Some, list_elem_of_singleton. done.
  - rewrite Hs, Hl. split; intros *; by rewrite lookup_empty.
  - intros heap. rewrite Ha, Hst, lookup_singleton_eq. intros [= <-]. by right.
  - intros pre x anc heap Hhs. destruct pre as [|? [|??]]; try done. injection Hhs as <- <-.
    rewrite Hst, lookup_singleton_eq. intros [= <-]. apply fresh_heap_ok; try done; simpl; try by left.
    + intros b. unfold owned. by rewrite Hs, lookup_empty.
    + intros a. unfold owned_large. by rewrite Hl, lookup_empty.
    + constructor; [done|constructor|]. intros ? ? ?%elem_of_nil. done.
  - rewrite Hn. split; intros *; by rewrite lookup_empty.
Qed.

Lemma step_ok c c' : step c c' → (∃ ly, world_ok c.1 c.2 ly) → ∃ ly, world_ok c'.1 c'.2 ly.
Proof.
  intros [op w w' hs Hc Hr] [ly Hw]. destruct (run_safe op w hs ly Hw Hc) as [(w2 & Hr2 & Hw2)|(c0 & msg & Hp)].
  - rewrite Hr in Hr2. injection Hr2 as <-. done.
  - congruence.
Qed.

Lemma reaches_ok w0 h w hs : reaches w0 h w hs → ∃ ly, world_ok w hs ly.
Proof.
  intros [Hi Hr]. assert (∃ ly, world_ok (w0, [h]).1 (w0, [h]).2 ly) as Hstart by (eexists; by apply initial_ok).
  change (∃ ly, world_ok (w, hs).1 (w, hs).2 ly). revert Hstart.
  induction Hr as [|c1 c2 c3 Hs _ IH]; [done|]. intros Hok. by eapply IH, step_ok.
Qed.
End runs.

Local Open Scope string_scope.
Local Open Scope list_scope.
Local Open Scope N_scope.

(** The objects of the contexts [hs] are the same, with the same contents. *)
Definition frozen (m m' : memory) (hs : list N) : Prop :=
  ∀ x o bytes k, x ∈ hs →
    (live_object m' x o bytes k ↔ live_object m x o bytes k) ∧
    (live_object m x o bytes k → m_objects m' !! o = m_objects m !! o).

Lemma frozen_refl m hs : frozen m m hs.
Proof. by intros x o bytes k Hx. Qed.

Lemma frozen_same m m' hs : m' = m → frozen m m' hs.
Proof. intros ->. apply frozen_refl. Qed.

Lemma frozen_trans m1 m2 m3 hs : frozen m1 m2 hs → frozen m2 m3 hs → frozen m1 m3 hs.
Proof.
  intros H1 H2 x o bytes k Hx. destruct (H1 x o bytes k Hx) as [I1 O1], (H2 x o bytes k Hx) as [I2 O2].
  split; [by rewrite I2|]. intros Hl. rewrite O2; [by apply O1|by apply I1].
Qed.

Lemma frozen_sub m m' hs hs' : (∀ x, x ∈ hs' → x ∈ hs) → frozen m m' hs → frozen m m' hs'.
Proof. intros Hsub Hf x o bytes k Hx. apply Hf. by apply Hsub. Qed.

Lemma unchanged_frozen m m' hs : unchanged m m' hs → frozen m m' hs.
Proof. intros [H1 H2 _ _] x o bytes k Hx. split; [by apply H1|by apply (H2 x o bytes k)]. Qed.

(** A new payload for an object of another context. *)
Lemma frozen_store m hs h o ob :
  memory_ok m → live_in m h o → h ∉ hs → frozen m (store_object o ob m) hs.
Proof.
  intros Hm (bytes' & k' & Hl') Hh x o' bytes k Hx. split; [apply live_store_object|]. intros Hl. simpl.
  rewrite lookup_insert_ne; [done|]. intros <-. by destruct (live_unique _ Hm _ _ _ _ _ _ _ Hl Hl') as (-> & _).
Qed.

(** Case analysis on a call that returned. *)
Ltac invert_call :=
  repeat (inv_ok; try match goal with
  | H : (if ?b then _ else _) = Ok _ |- _ => destruct b eqn:?; simpl in H
  | H : match ?x with _ => _ end = Ok _ |- _ => destruct x eqn:?; simpl in H
  | p : _ * _ |- _ => destruct p
  end; simplify_eq).

Section memory.
Context `{Program} `{RuntimeHost}.

Lemma native_memory n a z w p w' : allocate_native_memory n a z w = Ok (p, w') → w_memory w' = w_memory w.
Proof. unfold allocate_native_memory. intros Hr. invert_call; done. Qed.

Lemma unlink_memory a w w' : unlink_native a w = Ok w' → w_memory w' = w_memory w.
Proof. unfold unlink_native. intros Hr. invert_call; done. Qed.

Lemma free_memory p w w' : neri_rt_v1_native_free p w = Ok w' → w_memory w' = w_memory w.
Proof.
  unfold neri_rt_v1_native_free. intros Hr. invert_call; try done; simpl;
    by match goal with Hu : unlink_native _ _ = Ok _ |- _ => apply unlink_memory in Hu end.
Qed.

Lemma realloc_memory p n a w q w' : neri_rt_v1_native_realloc p n a w = Ok (q, w') → w_memory w' = w_memory w.
Proof.
  unfold neri_rt_v1_native_realloc. intros Hr. invert_call; try (by eapply native_memory).
  all: match goal with Hf : neri_rt_v1_native_free _ _ = Ok _ |- _ => rewrite (free_memory _ _ _ Hf) end; simpl;
    by eapply native_memory.
Qed.
End memory.

Section isolation.
Context `{Program} `{!LawfulTrace} `{RuntimeHost} `{!LawfulRuntimeHost} `{HostMemory} `{!LawfulHost}.

(** A safe call that returned has its result. *)
Lemma safe_returned {A} (m : result A) Q a : safe m Q → m = Ok a → Q a.
Proof. intros [(b & -> & HQ)|(c & s & ->)]; [by intros [= ->]|done]. Qed.

Lemma allocated_frozen w w' hs ly heap type psize zeroed o :
  world_ok w hs ly → world_ok w' hs ly → allocated w w' ly heap type psize zeroed o →
  frozen (w_memory w) (w_memory w') (tail hs).
Proof.
  intros Hw Hw' Hal x o' bytes k Hx. destruct (world_current _ _ _ Hw) as (anc & heap0 & -> & _ & _ & _ & Hh & _).
  simpl in Hx. assert (x ≠ w_active w) as Hxw by (by intros ->). split; [split|].
  - intros Hl. apply (al_back _ _ _ _ _ _ _ _ Hal) in Hl as [? _]; [done|]. intros ->.
    destruct (live_unique _ (wd_memory _ _ _ Hw') _ _ _ _ _ _ _ Hl (al_live _ _ _ _ _ _ _ _ Hal)) as (? & _). done.
  - intros Hl. by apply (al_kept _ _ _ _ _ _ _ _ Hal) in Hl as (_ & ? & _).
  - intros Hl. by apply (al_kept _ _ _ _ _ _ _ _ Hal) in Hl as (_ & _ & ?).
Qed.

(** Whatever the active context does, the contexts below it keep their objects. *)
Lemma run_frozen op w w' hs ly :
  world_ok w hs ly → contract op w hs → run op w = Ok w' → frozen (w_memory w) (w_memory w') (tail hs).
Proof.
  intros Hw. destruct (world_current _ _ _ Hw) as (anc & heap & Hhs & Hheap & _ & Hok & Hh & _).
  destruct op; simpl run; simpl contract; intros Hc Hr.
  - apply bind_Ok_inv in Hr as ([s w1] & Hr & [= <-]). apply frozen_same.
    by apply (safe_returned _ _ _ (initialize_ok _ _ _ _ Hw)) in Hr as (_ & ? & _).
  - rewrite Hc. intros x o bytes k Hx. by apply elem_of_nil in Hx.
  - apply frozen_same. by apply (safe_returned _ _ _ (set_process_arguments_ok _ _ _ _ _ Hw)) in Hr as (? & _).
  - apply bind_Ok_inv in Hr as ([o w1] & Hr & [= <-]).
    unfold neri_rt_v1_gc_alloc in Hr.
    pose proof (safe_returned _ _ _ (allocate_managed_ok w hs ly heap _ _ _ _ Hw Hheap Hc) Hr) as [Hw1 Hal]. by eapply allocated_frozen.
  - apply bind_Ok_inv in Hr as ([o w1] & Hr & [= <-]).
    unfold neri_rt_v1_array_alloc_uninitialized in Hr. apply seq_Ok_iff in Hr as [Hg Hr].
    apply bind_Ok_inv in Hr as ([o1 w2] & Hr & Hs). apply bind_Ok_inv in Hs as (w3 & Hs & [= <- <-]).
    assert (type_contract type false) as Hc'.
    { destruct (N.eqb_spec type 0); [by left|]. destruct Hc as [|([d Hd] & Hlit & _)]; [done|].
      rewrite Hd in Hg. simpl in Hg. right. split_and!; [by exists d|done|]. right. exists d. split; [done|].
      destruct (_ || _ || _) eqn:Hb; [done|]. apply orb_false_iff in Hb as [_ Ht]. by apply negb_false_iff, N.eqb_eq in Ht. }
    pose proof (safe_returned _ _ _ (allocate_managed_ok w hs ly heap _ _ _ _ Hw Hheap Hc') Hr) as [Hw2 Hal].
    eapply frozen_trans; [by eapply allocated_frozen|]. unfold store_length in Hs. inv_ok. subst w3. simpl.
    eapply (frozen_store _ _ (w_active w)); [apply (wd_memory _ _ _ Hw2)| |by rewrite Hhs].
    eexists _, _. apply (al_live _ _ _ _ _ _ _ _ Hal).
  - unfold neri_rt_v1_gc_collect in Hr. apply seq_Ok_iff in Hr as [_ Hr].
    pose proof (safe_returned _ _ _ (safe_yields _ _ (collect_ok _ _ _ _ Hw Hheap)) Hr) as [_ Hcol].
    rewrite Hhs. intros x o bytes k Hx. simpl in Hx. assert (x ≠ w_active w) by (by intros ->). split.
    + rewrite (co_live _ _ _ _ Hcol). naive_solver.
    + intros Hl. eapply (co_objects _ _ _ _ Hcol), (co_live _ _ _ _ Hcol). split; [exact Hl|done].
  - apply frozen_same. unfold neri_rt_v1_gc_root_frame_enter in Hr. invert_call; done.
  - apply frozen_same. unfold neri_rt_v1_gc_root_frame_leave in Hr. invert_call; done.
  - apply (safe_returned _ _ _ (gc_store_ref_ok _ _ _ _ _ _ Hw Hc)) in Hr as (_ & Hl & ob & _ & ->). simpl.
    eapply frozen_store; [apply (wd_memory _ _ _ Hw)|exact Hl|by rewrite Hhs].
  - apply seq_Ok_iff in Hr as [_ [= <-]]. apply frozen_refl.
  - apply frozen_same. unfold neri_rt_v1_gc_borrow_begin in Hr. invert_call; done.
  - apply frozen_same. unfold neri_rt_v1_gc_borrow_end in Hr. invert_call; done.
  - apply bind_Ok_inv in Hr as ([o w1] & Hr & [= <-]). apply seq_Ok_iff in Hr as [_ Hr]. by eapply frozen_same, native_memory.
  - apply bind_Ok_inv in Hr as ([o w1] & Hr & [= <-]). apply seq_Ok_iff in Hr as [_ Hr]. by eapply frozen_same, native_memory.
  - apply bind_Ok_inv in Hr as ([o w1] & Hr & [= <-]). by eapply frozen_same, realloc_memory.
  - by eapply frozen_same, free_memory.
  - apply frozen_same. by apply (safe_returned _ _ _ (foreign_enter_ok _ _ _ _ _ Hw)) in Hr as (? & _).
  - apply (safe_returned _ _ _ (foreign_leave_ok _ _ _ _ Hw)) in Hr as
      (rest & token & heap' & Hel & Htok & _ & _ & _ & _ & Hkeep & _).
    destruct (decide (fe_owns_heap token = 0)) as [Ho|Ho]; [by apply frozen_same, Hkeep|].
    assert (entry ∈ ly_entries ly (w_active w)) as Hin by (rewrite Hel; set_solver).
    rewrite Hhs. rewrite (hp_owning _ _ _ _ _ Hok entry token Hin Htok Ho).
    intros x o bytes k Hx. by apply elem_of_nil in Hx.
  - apply bind_Ok_inv in Hr as ([o w1] & Hr & [= <-]). apply frozen_same.
    by apply (safe_returned _ _ _ (region_enter_ok _ _ _ Hw)) in Hr as (? & _ & _ & _ & ? & _).
  - apply (safe_returned _ _ _ (region_leave_ok _ _ _ _ Hw)) in Hr as (anc' & -> & Hl & _).
    apply unchanged_frozen, (lf_memory _ _ _ _ Hl).
  - injection Hr as <-. apply frozen_refl.
  - injection Hr as <-. apply frozen_refl.
  - injection Hr as <-. apply frozen_refl.
  - destruct Hc as (ob & Hob & Hl & _). unfold load_object in Hr. rewrite Hob in Hr. injection Hr as <-. simpl.
    eapply frozen_store; [apply (wd_memory _ _ _ Hw)|exact Hl|by rewrite Hhs].
  - injection Hr as <-. apply frozen_refl.
  - apply bind_Ok_inv in Hr as ([h0 heap0] & _ & [= <-]). apply frozen_refl.
Qed.

(** Steps taken while the contexts [anc] are suspended. *)
Definition inside (anc : list N) (c c' : world * list N) : Prop :=
  step c c' ∧ ∃ pre, pre ≠ [] ∧ c.2 = pre ++ anc.

Lemma inside_frozen anc c c' :
  (∃ ly, world_ok c.1 c.2 ly) → rtc (inside anc) c c' → frozen (w_memory c.1) (w_memory c'.1) anc.
Proof.
  intros Hok Hr. induction Hr as [c|c1 c2 c3 [Hs (pre & Hpre & Hc)] _ IH]; [apply frozen_refl|].
  eapply frozen_trans; [|apply IH; by eapply step_ok]. destruct Hok as [ly Hw]. destruct Hs as [op w w' hs Hcon Hrun].
  simpl in *. eapply frozen_sub; [|by eapply run_frozen]. intros x Hx. rewrite Hc. destruct pre as [|y pre]; [done|].
  simpl. set_solver.
Qed.

(** ** Bracketing calls *)

Lemma frame_roundtrip w w1 w2 frame :
  neri_rt_v1_gc_root_frame_enter frame w = Ok w1 → neri_rt_v1_gc_root_frame_leave frame w1 = Ok w2 → w2 = w.
Proof.
  unfold neri_rt_v1_gc_root_frame_enter, neri_rt_v1_gc_root_frame_leave. intros H5 H6.
  apply seq_Ok_iff in H5 as [_ H5], H6 as [_ H6]. destruct (frame =? 0) eqn:Hz; [done|].
  apply bind_Ok_inv in H5 as (f & Hf & H5). destruct (_ || _ || _) eqn:Hg; [done|].
  apply bind_Ok_inv in H5 as ([h heap] & Hcur & [= <-]). apply bind_Ok_inv in H6 as ([h' heap'] & Hcur' & H6).
  unfold current_state, load_state in Hcur, Hcur'. destruct (w_states w !! w_active w) as [s|] eqn:Hs; [|done].
  injection Hcur as <- <-. simpl in Hcur'. rewrite lookup_insert_eq in Hcur'. injection Hcur' as <- <-. simpl in H6.
  rewrite ?Hz, N.eqb_refl, lookup_insert_eq in H6. simpl in H6. injection H6 as <-.
  apply orb_false_iff in Hg as [[_ Hp]%orb_false_iff Hck]. apply negb_false_iff, N.eqb_eq in Hp, Hck.
  destruct (w_frames w !! frame) as [f0|] eqn:Hf0; [|done]. injection Hf as ->.
  destruct w, f, s. simpl in *. subst. unfold store_state, with_states, with_frames. simpl. f_equal.
  - rewrite insert_insert_eq. by apply insert_id.
  - rewrite insert_insert_eq. by apply insert_id.
Qed.

Lemma borrow_roundtrip w w1 w2 o offset length borrow p :
  neri_rt_v1_gc_borrow_begin o offset length borrow w = Ok (p, w1) → neri_rt_v1_gc_borrow_end borrow w1 = Ok w2 → w2 = w.
Proof.
  unfold neri_rt_v1_gc_borrow_begin, neri_rt_v1_gc_borrow_end. intros H5 H6.
  apply seq_Ok_iff in H5 as [_ H5], H6 as [_ H6]. apply bind_Ok_inv in H5 as (a & _ & H5).
  apply bind_Ok_inv in H5 as (e & He & H5). destruct (borrow =? 0) eqn:Hz.
  { injection He as <-. by rewrite orb_true_r in H5. }
  apply bind_Ok_inv in He as (b & Hb & [= <-]). destruct (bool_decide (a = None) || _) eqn:Hg; [done|].
  apply bind_Ok_inv in H5 as (payload & _ & H5). destruct ((payload <? offset) || (payload - offset <? length)); [done|].
  apply bind_Ok_inv in H5 as ([h heap] & Hcur & [= _ <-]). apply bind_Ok_inv in H6 as ([h' heap'] & Hcur' & H6).
  unfold current_state, load_state in Hcur, Hcur'. destruct (w_states w !! w_active w) as [s|] eqn:Hs; [|done].
  injection Hcur as <- <-. simpl in Hcur'. rewrite lookup_insert_eq in Hcur'. injection Hcur' as <- <-. simpl in H6.
  rewrite N.eqb_refl, lookup_insert_eq in H6. simpl in H6. injection H6 as <-.
  apply orb_false_iff in Hg as [_ Hg]. apply negb_false_iff in Hg. rewrite !andb_true_iff, !N.eqb_eq in Hg.
  destruct (w_borrows w !! borrow) as [b0|] eqn:Hb0; [|done]. injection Hb as ->.
  destruct Hg as [[[G1 G2] G3] G4]. destruct w, b, s. simpl in *. subst. unfold store_state, with_states, with_borrows.
  simpl. f_equal.
  - rewrite insert_insert_eq. by apply insert_id.
  - rewrite insert_insert_eq. by apply insert_id.
Qed.
End isolation.
