(* ===== verification/StringSafety.v ===== *)
(** * Managed strings are what their bytes say

    What it means that an object is a string with given bytes, and that the functions of
    Strings.v read and build exactly such objects.  Every state change of theirs is a
    sequence of the operations of Isolation.v, so the invariant and the isolation of suspended
    contexts carry over to them. *)

From S2P Require Import Prelude Chains Storage Slabs Memory StorageSafety Sweep.
From S2P Require Import Heap Text TextSpec Marking Collector HeapInvariant Collection.
From S2P Require Import RuntimeApi Strings Payloads ApiSafety AllocationSafety NativeSafety.
From S2P Require Import RegionSafety Isolation.

Local Open Scope string_scope.
Local Open Scope list_scope.
Local Open Scope N_scope.

(** ** Bytes *)

Lemma length_N_le_split n v : length_N (le_split n v) = N.of_nat n.
Proof. unfold length_N. by rewrite length_le_split. Qed.

Lemma splice_mid a b b' c offset :
  offset = length_N a → length b' = length b → splice (a ++ b ++ c) offset b' = a ++ b' ++ c.
Proof.
  intros -> Hlen. unfold splice, length_N. rewrite Nat2N.id.
  rewrite take_app_length, Hlen, (assoc_L (++) a b), drop_app_length' by (by rewrite length_app). done.
Qed.

Lemma length_splice p offset bytes : offset + length_N bytes ≤ length_N p → length_N (splice p offset bytes) = length_N p.
Proof. unfold splice, length_N. rewrite !length_app, length_take, length_drop. lia. Qed.

Lemma zeros_app a b : zeros (a + b) = zeros a ++ zeros b.
Proof. unfold zeros. rewrite N2Nat.inj_add. apply replicate_add. Qed.

Lemma write_word_zeros n v : write_word (zeros (8 + n)) 0 v = le_split 8 v ++ zeros n.
Proof.
  unfold write_word. rewrite zeros_app. change (N.to_nat 0) with 0%nat. rewrite take_0.
  rewrite drop_app_length' by (unfold zeros; by rewrite length_replicate). done.
Qed.

Lemma read_word_prefix v rest : v ≤ u64_max → read_word (le_split 8 v ++ rest) 0 = v.
Proof.
  intros Hv. unfold read_word. change (N.to_nat 0) with 0%nat. rewrite drop_0, take_app_length' by (by rewrite length_le_split).
  apply le_combine_split. change (256 ^ N.of_nat 8) with (u64_max + 1). lia.
Qed.

Lemma read_payload_mid m o ob a b c :
  m_objects m !! o = Some ob → ob_payload ob = a ++ b ++ c → read_payload m o (length_N a) (length_N b) = Ok b.
Proof.
  intros Hob Hp. unfold read_payload, load_object. rewrite Hob, load_Some, bind_Ok, Hp.
  rewrite (proj2 (N.leb_le _ _)), assert_true, bind_Ok by (rewrite !length_N_app; lia).
  unfold length_N. by rewrite !Nat2N.id, drop_app_length, take_app_length.
Qed.

(** ** Strings *)

(** The payload of a string with the bytes [bs]. *)
Definition string_payload (bs : list byte) (payload : list byte) : Prop :=
  length_N bs ≤ u64_max ∧ ∃ rest, payload = le_split 8 (length_N bs) ++ bs ++ x00 :: rest.

Lemma string_payload_unique bs bs' p : string_payload bs p → string_payload bs' p → bs = bs'.
Proof.
  intros [H1 [r ->]] [H2 [r' Heq]]. apply app_inj_1 in Heq as [Hl Heq]; [|by rewrite !length_le_split].
  assert (length_N bs = length_N bs') as Hlen.
  { apply (f_equal le_combine) in Hl. rewrite !le_combine_split in Hl; [done|..];
      change (256 ^ N.of_nat 8) with (u64_max + 1); lia. }
  apply app_inj_1 in Heq as [? _]; [done|]. unfold length_N in Hlen. lia.
Qed.

Section strings.
Context `{Program}.

(** A reference the contexts [hs] may hold to a string with the bytes [bs]. *)
Definition string_at (m : memory) (hs : list N) (o : N) (bs : list byte) : Prop :=
  ∃ ob, m_objects m !! o = Some ob ∧ string_payload bs (ob_payload ob) ∧
    (literal m o ∨ ob_type ob = dynamic_string_type ∧ ob_type ob ≠ string_literal_type ∧ ∃ x, x ∈ hs ∧ live_in m x o).

Lemma string_at_unique m hs hs' o bs bs' : string_at m hs o bs → string_at m hs' o bs' → bs = bs'.
Proof. intros (ob & Hob & Hp & _) (ob' & Hob' & Hp' & _). simplify_eq. by eapply string_payload_unique. Qed.

Lemma string_at_valid m hs o bs : string_at m hs o bs → valid_ref m hs o.
Proof. intros (ob & Hob & _ & [Hl|(_ & _ & x & Hx & Hl)]); right; [by left|right; eauto]. Qed.

(** What the runtime relies on: a reference handed to a string function is one the caller
    may hold, and the program's literals are strings. *)
Definition string_contract (w : world) (hs : list N) (o : N) : Prop :=
  valid_ref (w_memory w) hs o ∧ (literal (w_memory w) o → ∃ bs, string_at (w_memory w) hs o bs).

Lemma string_at_contract w hs o bs : string_at (w_memory w) hs o bs → string_contract w hs o.
Proof. intros Hs. split; [by eapply string_at_valid|eauto]. Qed.

Lemma string_prefix_ok m hs o bs : string_at m hs o bs → read_prefix m o = Ok (length_N bs).
Proof.
  intros (ob & Hob & [Hlen [rest Hp]] & _). unfold read_prefix, load_object. rewrite Hob, load_Some, bind_Ok, Hp.
  rewrite (proj2 (N.leb_le _ _)), assert_true, bind_Ok by (rewrite !length_N_app, length_N_le_split; lia).
  by rewrite read_word_prefix.
Qed.

Lemma string_terminator_ok m hs o bs : string_at m hs o bs → read_payload m o (8 + length_N bs) 1 = Ok [x00].
Proof.
  intros (ob & Hob & [Hlen [rest Hp]] & _).
  replace (8 + length_N bs) with (length_N (le_split 8 (length_N bs) ++ bs)) by (by rewrite length_N_app, length_N_le_split).
  eapply (read_payload_mid m o ob (le_split 8 (length_N bs) ++ bs) [x00] rest); [done|]. by rewrite Hp, <-app_assoc.
Qed.

Lemma view_bytes_ok w hs o bs : string_at (w_memory w) hs o bs → view_bytes w (mk_view o (length_N bs)) = Ok bs.
Proof.
  intros (ob & Hob & [Hlen [rest Hp]] & _). unfold view_bytes, view_source, source_bytes. simpl.
  replace 8 with (length_N (le_split 8 (length_N bs))) by (by rewrite length_N_le_split).
  by eapply read_payload_mid.
Qed.

(** A string is inspected as what it is. *)
Lemma inspect_string_at w hs ly o bs :
  world_ok w hs ly → string_at (w_memory w) hs o bs → o ≠ 0 → inspect_string w o = Ok (mk_view o (length_N bs)).
Proof.
  intros Hw Hs Hz. pose proof (string_at_valid _ _ _ _ Hs) as Hv. unfold inspect_string.
  rewrite (proj2 (N.eqb_neq _ _) Hz). unfold is_string_literal. rewrite (proj2 (N.eqb_neq _ _) Hz).
  pose proof Hs as (ob & Hob & [Hlen [rest Hp]] & Hkind). unfold load_object. rewrite Hob, load_Some, !bind_Ok.
  destruct Hkind as [(_ & ob' & Hob' & Ht & _)|(Ht & Hnl & x & Hx & bytes & k & Hl)].
  - rewrite Hob in Hob'. injection Hob' as <-. rewrite Ht, N.eqb_refl.
    rewrite (string_prefix_ok _ _ _ _ Hs), bind_Ok, (string_terminator_ok _ _ _ _ Hs), bind_Ok. by rewrite bool_decide_true.
  - rewrite (proj2 (N.eqb_neq _ _) Hnl). destruct (find_readable_ok w hs ly o Hw Hv) as (r & -> & Hr). rewrite bind_Ok.
    destruct r as [o'|]; [|exfalso; eapply (Hr x Hx); by exists bytes, k]. rewrite Ht, N.eqb_refl. cbn [negb].
    unfold payload_size. rewrite (size_live _ (wd_memory _ _ _ Hw) _ _ _ _ Hl), !bind_Ok.
    destruct (live_header _ (wd_memory _ _ _ Hw) _ _ _ _ Hl) as (ob' & Hob' & Hsize). rewrite Hob in Hob'. injection Hob' as <-.
    assert (length_N (ob_payload ob) = 8 + length_N bs + 1 + length_N rest) as Hpl.
    { rewrite Hp, !length_N_app, length_N_le_split. change (x00 :: rest) with ([x00] ++ rest). rewrite length_N_app.
      change (length_N [x00]) with 1. lia. }
    rewrite (proj2 (N.ltb_ge _ (8 + 1))) by (unfold sizeof_header in *; lia).
    rewrite (string_prefix_ok _ _ _ _ Hs), bind_Ok. rewrite (proj2 (N.ltb_ge _ _)) by (unfold sizeof_header in *; lia).
    by rewrite (string_terminator_ok _ _ _ _ Hs), bind_Ok, bool_decide_true.
Qed.

(** Whatever the caller passes, inspection is defined, and what it accepts is a string. *)
Lemma inspect_string_ok w hs ly o :
  world_ok w hs ly → string_contract w hs o →
  safe (inspect_string w o) (λ v, o ≠ 0 ∧ ∃ bs, string_at (w_memory w) hs o bs ∧ v = mk_view o (length_N bs)).
Proof.
  intros Hw [Hv Hlit]. destruct (N.eq_dec o 0) as [->|Hz]; [apply safe_contract|].
  destruct Hv as [|[Hl|(x & Hx & bytes & k & Hl)]]; [done|..].
  { destruct (Hlit Hl) as [bs Hs]. rewrite (inspect_string_at w hs ly o bs) by done. apply safe_Ok. eauto. }
  assert (valid_ref (w_memory w) hs o) as Hv by (right; right; exists x; split; [done|]; by exists bytes, k).
  pose proof (wd_memory _ _ _ Hw) as Hm. destruct (live_header _ Hm _ _ _ _ Hl) as (ob & Hob & Hsize).
  unfold inspect_string. rewrite (proj2 (N.eqb_neq _ _) Hz). unfold is_string_literal. rewrite (proj2 (N.eqb_neq _ _) Hz).
  unfold load_object. rewrite Hob, load_Some, !bind_Ok. destruct (N.eqb_spec (ob_type ob) string_literal_type) as [Ht|Hnl].
  { destruct (list_elem_of_split _ _ Hx) as (pre & anc & Hhs).
    assert (is_Some (w_states w !! x)) as [heap Hheap] by (apply (wd_states _ _ _ Hw); done).
    destruct (hp_closed _ _ _ _ _ (wd_heaps _ _ _ Hw _ _ _ _ Hhs Hheap) o) as (ob' & Hob' & (_ & Hne & _) & _); [by exists bytes, k|].
    rewrite Hob in Hob'. injection Hob' as <-. done. }
  destruct (find_readable_ok w hs ly o Hw Hv) as (r & -> & Hr). rewrite bind_Ok. destruct r as [o'|]; [|apply safe_contract].
  destruct (N.eqb_spec (ob_type ob) dynamic_string_type) as [Ht|]; [|apply safe_contract]. cbn [negb].
  unfold payload_size. rewrite (size_live _ Hm _ _ _ _ Hl), !bind_Ok.
  destruct (N.ltb_spec (bytes - sizeof_header) (8 + 1)) as [|Hpay]; [apply safe_contract|].
  unfold read_prefix, load_object. rewrite Hob, load_Some, !bind_Ok.
  assert (length_N (ob_payload ob) = bytes - sizeof_header) as Hpl by (unfold sizeof_header in *; lia).
  rewrite (proj2 (N.leb_le _ _)), assert_true, !bind_Ok by lia. set (n := read_word (ob_payload ob) 0).
  destruct (N.ltb_spec (bytes - sizeof_header - 8 - 1) n) as [|Hn]; [apply safe_contract|].
  unfold read_payload, load_object. rewrite Hob, load_Some, !bind_Ok.
  rewrite (proj2 (N.leb_le _ _)), assert_true, !bind_Ok by lia.
  case_bool_decide as Hterm; cbn [negb]; [|apply safe_contract]. apply safe_Ok. split; [done|].
  set (bs := take (N.to_nat n) (drop 8 (ob_payload ob))).
  assert (length_N bs = n) as Hbs by (unfold bs, length_N in *; rewrite length_take, length_drop; lia).
  exists bs. rewrite Hbs. split; [|done]. exists ob. split; [done|]. split.
  - assert (length (take 8 (ob_payload ob)) = 8%nat) as H8 by (rewrite length_take; unfold length_N in *; lia). split.
    { rewrite Hbs. unfold n, read_word. change (N.to_nat 0) with 0%nat. rewrite drop_0.
      pose proof (le_combine_lt (take 8 (ob_payload ob))) as Hbound. unfold length_N in Hbound. rewrite H8 in Hbound.
      change (256 ^ N.of_nat 8) with (u64_max + 1) in Hbound. lia. }
    exists (drop (N.to_nat (8 + n) + 1) (ob_payload ob)). rewrite Hbs. unfold n at 1, read_word. change (N.to_nat 0) with 0%nat.
    rewrite drop_0. rewrite <-(take_drop 8 (ob_payload ob)) at 1. f_equal.
    { pose proof (le_split_combine (take 8 (ob_payload ob))) as Hsp. by rewrite H8 in Hsp. }
    unfold bs. rewrite <-(take_drop (N.to_nat n) (drop 8 (ob_payload ob))) at 1. f_equal.
    rewrite drop_drop. replace (8 + N.to_nat n)%nat with (N.to_nat (8 + n)) by lia.
    rewrite <-(take_drop 1 (drop (N.to_nat (8 + n)) (ob_payload ob))). change (N.to_nat 1) with 1%nat in Hterm.
    rewrite Hterm, drop_drop. done.
  - right. split_and!; [done|done|]. exists x. split; [done|]. by exists bytes, k.
Qed.
End strings.

(** ** Steps *)

(** What the runtime's own static data promise. *)
Class LawfulStrings `{Program} := {
  string_descriptor : descriptor dynamic_string_type = Some dynamic_string_descriptor;
  string_type_set : dynamic_string_type ≠ 0;
  string_type_literal : dynamic_string_type ≠ string_literal_type;
}.

(** Automatic storage is not storage the runtime holds at that moment. *)
Class LawfulLocals `{LocalStorage} := {
  local_frame_set : ∀ w, local_frame w ≠ 0;
  local_frame_free : ∀ w old, w_frames w !! local_frame w = Some old → fr_runtime_cookie old = 0;
  local_slots_set : ∀ w n, local_slots w n ≠ 0;
  local_slots_free : ∀ w n i x, i < n → ¬ root_slot w x (local_slots w n + 8 * i);
}.

Section building.
Context `{Program} `{!LawfulTrace} `{RuntimeHost} `{!LawfulRuntimeHost} `{HostMemory} `{!LawfulHost}.
Context `{LocalStorage} `{!LawfulLocals} `{!LawfulStrings}.

(** Steps that keep the chain of contexts. *)
Definition steps (hs : list N) (w w' : world) : Prop := rtc step (w, hs) (w', hs).

Lemma steps_refl hs w : steps hs w w.
Proof. apply rtc_refl. Qed.

Lemma steps_trans hs w1 w2 w3 : steps hs w1 w2 → steps hs w2 w3 → steps hs w1 w3.
Proof. intros E1 E2. unfold steps in *. by etransitivity. Qed.

Lemma steps_run op w w' hs : contract op w hs → run op w = Ok w' → contexts op w' hs = hs → steps hs w w'.
Proof. intros Hc Hr Heq. unfold steps. rewrite <-Heq at 2. apply rtc_once. by constructor. Qed.

(** Strings have no reference slots. *)
Lemma string_slots o ob : ob_type ob = dynamic_string_type → slots_of o ob = [].
Proof. intros Ht. unfold slots_of. rewrite Ht, string_descriptor. simpl. by destruct (_ =? 0). Qed.

Lemma string_traceable o ob :
  ob_type ob = dynamic_string_type → 8 ≤ length_N (ob_payload ob) → traceable o ob ∧ refs_of o ob = [].
Proof.
  intros Ht Hlen. split.
  - split_and!; [right; rewrite Ht, string_descriptor; by eexists|rewrite Ht; apply string_type_literal|].
    intros slot. rewrite string_slots by done. by intros ?%elem_of_nil.
  - unfold refs_of. by rewrite string_slots.
Qed.

Lemma string_type_contract : type_contract dynamic_string_type true.
Proof. right. rewrite string_descriptor. split_and!; [by eexists|apply string_type_literal|by left]. Qed.

(** New contents for an object of the active context. *)
Lemma write_object_ok w hs ly o ob p :
  world_ok w hs ly → m_objects (w_memory w) !! o = Some ob → live_in (w_memory w) (w_active w) o →
  length_N p = length_N (ob_payload ob) → traceable o (set_payload ob p) →
  (∀ r, r ∈ refs_of o (set_payload ob p) → valid_ref (w_memory w) hs r) →
  let w' := with_memory (store_object o (set_payload ob p) (w_memory w)) w in
  steps hs w w' ∧ world_ok w' hs ly.
Proof.
  intros Hw Hob Hl Hlen Htr Hrefs w'. destruct (world_current _ _ _ Hw) as (anc & heap & Hhs & Hheap & _). split.
  - apply (steps_run (op_write_fields o p)); [|simpl; unfold load_object; by rewrite Hob, load_Some, bind_Ok|done].
    exists ob. split_and!; done.
  - eapply (replace_world w hs ly (w_active w) o ob); try done.
    + rewrite Hhs. set_solver.
    + by rewrite <-Hhs.
Qed.

Lemma write_string_ok w hs ly o ob p :
  world_ok w hs ly → m_objects (w_memory w) !! o = Some ob → live_in (w_memory w) (w_active w) o →
  ob_type ob = dynamic_string_type → length_N p = length_N (ob_payload ob) →
  let w' := with_memory (store_object o (set_payload ob p) (w_memory w)) w in
  steps hs w w' ∧ world_ok w' hs ly.
Proof.
  intros Hw Hob Hl Ht Hlen w'. destruct (world_current _ _ _ Hw) as (anc & heap & Hhs & Hheap & _ & Hok & _).
  assert (8 ≤ length_N (ob_payload ob)) as H8.
  { destruct (hp_closed _ _ _ _ _ Hok o Hl) as (ob' & Hob' & ([Hz|(d & Hd & Hsize)] & _) & _); rewrite Hob in Hob'; injection Hob' as <-.
    - rewrite Ht in Hz. by destruct string_type_set.
    - rewrite Ht, string_descriptor in Hd. by injection Hd as <-. }
  destruct (string_traceable o (set_payload ob p) Ht) as [Htr Hrefs]; [simpl; by rewrite Hlen|].
  apply write_object_ok; try done. intros r. rewrite Hrefs. by intros ?%elem_of_nil.
Qed.

(** Strings other than the one written stay. *)
Lemma string_at_store m hs h o ob r bs :
  memory_ok m → live_in m h o → r ≠ o → string_at m hs r bs → string_at (store_object o ob m) hs r bs.
Proof.
  intros Hm (bytes & k & Hl) Hne (ob' & Hob' & Hp & Hkind). exists ob'. simpl. rewrite lookup_insert_ne by done.
  split_and!; [done|done|]. destruct Hkind as [Hlit|(Ht & Hnl & x & Hx & b & k' & Hl')]; [left|right].
  - eapply literal_keeps; [|done]. by eapply store_object_statics.
  - split_and!; [done|done|]. exists x. split; [done|]. exists b, k'. by apply live_store_object.
Qed.

(** ** Allocation *)

(** The roots on stacks are no concern of the allocator. *)
Lemma collect_rest w w' : collect_impl w = Ok w' → w_words w' = w_words w ∧ w_frames w' = w_frames w ∧ w_active w' = w_active w.
Proof. unfold collect_impl. intros Hr. invert_call; done. Qed.

Lemma storage_allocate_rest n z w o w' :
  storage_allocate n z w = Ok (o, w') → w_words w' = w_words w ∧ w_frames w' = w_frames w ∧ w_active w' = w_active w.
Proof. unfold storage_allocate. intros Hr. invert_call; done. Qed.

Lemma allocate_managed_rest t n a z w o w' :
  allocate_managed t n a z w = Ok (o, w') → w_words w' = w_words w ∧ w_frames w' = w_frames w ∧ w_active w' = w_active w.
Proof.
  unfold allocate_managed. intros Hr. invert_call; simpl;
    repeat match goal with
    | Hc : collect_impl _ = Ok _ |- _ => apply collect_rest in Hc as (? & ? & ?)
    | Hc : storage_allocate _ _ _ = Ok _ |- _ => apply storage_allocate_rest in Hc as (? & ? & ?)
    end; split_and!; congruence.
Qed.

(** What was allocated fits in the address space behind its header. *)
Lemma allocate_managed_bound t n a z w o w' :
  allocate_managed t n a z w = Ok (o, w') → sizeof_header + n ≤ u64_max.
Proof.
  unfold allocate_managed. intros Hr. apply bind_Ok_inv in Hr as ([] & _ & Hr). apply bind_Ok_inv in Hr as ([h heap] & _ & Hr).
  destruct (phase_is collecting heap); [done|]. apply bind_Ok_inv in Hr as ([] & Hv & _). unfold validate_type in Hv.
  destruct (t =? 0); [done|]. apply bind_Ok_inv in Hv as (d & _ & Hv).
  destruct (allocation_contract d n a) eqn:Hc; [|done]. unfold allocation_contract in Hc.
  apply andb_true_iff in Hc as [_ Hc%N.leb_le]. unfold sizeof_header, u64_max in *. lia.
Qed.

(** The phase of the active context. *)
Definition phase_of (w : world) : option heap_phase := rs_phase <$> w_states w !! w_active w.

Lemma collect_phase w w' : collect_impl w = Ok w' → phase_of w' = Some active.
Proof.
  unfold collect_impl, phase_of. intros Hr. unfold current_state, load_state in Hr.
  destruct (w_states w !! w_active w) as [heap|]; [|done]. rewrite load_Some, !bind_Ok in Hr. invert_call.
  simpl. by rewrite lookup_insert_eq.
Qed.

Lemma storage_allocate_phase n z w o w' : storage_allocate n z w = Ok (o, w') → phase_of w' = phase_of w.
Proof.
  unfold storage_allocate, phase_of. intros Hr. unfold current_state, load_state in Hr.
  destruct (w_states w !! w_active w) as [heap|]; [|done]. rewrite load_Some, !bind_Ok in Hr. invert_call.
  simpl. by rewrite lookup_insert_eq.
Qed.

Lemma allocate_managed_phase t n a z w o w' :
  phase_of w = Some active → allocate_managed t n a z w = Ok (o, w') → phase_of w' = Some active.
Proof.
  intros Hph. unfold allocate_managed. intros Hr. apply seq_Ok_iff in Hr as [_ Hr].
  apply bind_Ok_inv in Hr as ([h0 heap0] & _ & Hr). destruct (phase_is collecting heap0); [done|].
  apply seq_Ok_iff in Hr as [_ Hr]. cbv zeta in Hr. destruct (_ || _); [done|].
  apply bind_Ok_inv in Hr as (w1 & H1' & Hr). apply bind_Ok_inv in Hr as ([r1 w2] & H2' & Hr).
  apply bind_Ok_inv in Hr as ([r2 w3] & H3' & Hr).
  assert (phase_of w1 = Some active) as P1 by (destruct (_ || _); [by eapply collect_phase|by injection H1' as <-]).
  assert (phase_of w2 = Some active) as P2 by (by rewrite (storage_allocate_phase _ _ _ _ _ H2')).
  assert (phase_of w3 = Some active) as P3.
  { destruct r1; [by injection H3' as _ <-|]. apply bind_Ok_inv in H3' as (w4 & H4' & H5').
    rewrite (storage_allocate_phase _ _ _ _ _ H5'). by eapply collect_phase. }
  destruct r2 as [o2|]; [|done]. unfold phase_of, current_state, load_state in *.
  destruct (w_states w3 !! w_active w3) as [heap3|]; [|done]. rewrite load_Some, !bind_Ok in Hr.
  invert_call; simpl; by rewrite lookup_insert_eq.
Qed.

(** A string the active context reaches, a suspended context owns, or the program provides
    survives an allocation. *)
Definition held (w : world) (ly : layout) (heap : runtime_state) (r : N) : Prop :=
  live_in (w_memory w) (w_active w) r → r ∈ active_roots w ly heap.

Lemma string_at_allocated w w' hs ly heap t n z o r bs :
  world_ok w hs ly → world_ok w' hs ly → allocated w w' ly heap t n z o → string_at (w_memory w) hs r bs → held w ly heap r →
  r ≠ o ∧ string_at (w_memory w') hs r bs.
Proof.
  intros Hw Hw' Hal (ob & Hob & Hp & Hkind) Hheld. destruct Hkind as [Hlit|(Ht & Hnl & x & Hx & bytes & k & Hl)].
  - pose proof (literal_keeps _ _ _ (al_statics _ _ _ _ _ _ _ _ Hal) Hlit) as Hlit'. split.
    + intros ->. destruct Hlit' as (Hout & _). eapply live_not_outside; [apply (wd_memory _ _ _ Hw')| |exact Hout].
      apply (al_live _ _ _ _ _ _ _ _ Hal).
    + exists ob. split_and!; [|done|by left]. destruct (al_statics _ _ _ _ _ _ _ _ Hal r ob) as [_ ->]; [apply Hlit|done|done].
  - destruct (al_kept _ _ _ _ _ _ _ _ Hal x r bytes k Hl) as (Hne & Hl' & Hobj).
    { intros ->. assert (live_in (w_memory w) (w_active w) r) as Hlive by by exists bytes, k. apply reach_root; auto. }
    split; [done|]. exists ob. rewrite Hobj. split_and!; [done|done|]. right. split_and!; [done|done|].
    exists x. split; [done|]. by exists bytes, k.
Qed.

(** What building a string of [n] bytes in the active context gives. *)
Record built (w w' : world) (hs : list N) (ly : layout) (heap : runtime_state) (o : N) (payload : list byte) : Prop := {
  bt_steps : steps hs w w';
  bt_world : world_ok w' hs ly;
  bt_object : ∃ ob, m_objects (w_memory w') !! o = Some ob ∧ ob_type ob = dynamic_string_type ∧ ob_payload ob = payload;
  bt_live : live_in (w_memory w') (w_active w') o;
  bt_rest : w_words w' = w_words w ∧ w_frames w' = w_frames w ∧ w_active w' = w_active w;
  bt_fresh : o ≠ 0;
  bt_phase : phase_of w = Some active → phase_of w' = Some active;
  bt_others : ∀ x r bytes k, live_object (w_memory w) x r bytes k → held w ly heap r →
    r ≠ o ∧ m_objects (w_memory w') !! r = m_objects (w_memory w) !! r;
  bt_kept : ∀ r bs, string_at (w_memory w) hs r bs → held w ly heap r → r ≠ o ∧ string_at (w_memory w') hs r bs;
}.

(** What makes the allocation of a string of [n] bytes panic in the active context. *)
Definition string_refused (heap : runtime_state) (n : N) (code : N) : Prop :=
  code = PANIC_OUT_OF_MEMORY ∨
  code = PANIC_RUNTIME_CONTRACT ∧ ¬ (rs_phase heap = active ∧ 8 + n + 1 ≤ u64_max - sizeof_header).

Lemma string_allocation_contract n :
  8 + n + 1 ≤ u64_max - sizeof_header → allocation_contract dynamic_string_descriptor (8 + n + 1) 8 = true.
Proof.
  intros Hn. unfold allocation_contract. apply andb_true_intro. split; [|by apply N.leb_le]. cbn [td_payload_size dynamic_string_descriptor].
  rewrite (proj2 (N.leb_le 8 (8 + n + 1))) by lia. by vm_compute.
Qed.

Lemma allocate_string_ends w hs ly heap n :
  world_ok w hs ly → w_states w !! w_active w = Some heap →
  ends (string_refused heap n) (allocate_string n w)
    (λ '(o, w'), built w w' hs ly heap o (le_split 8 n ++ zeros (n + 1)) ∧ n ≤ u64_max).
Proof.
  intros Hw Hheap. unfold allocate_string. destruct (N.ltb_spec (u64_max - 8 - 1) n) as [|Hn]; [apply ends_panic; by left|].
  unfold neri_rt_v1_gc_alloc.
  pose proof (allocate_managed_ends w hs ly heap dynamic_string_type (8 + n + 1) 8 true Hw Hheap string_type_contract) as Hends.
  destruct (allocate_managed _ _ _ _ w) as [[o w1]|e] eqn:Hr.
  2: { destruct Hends as [(? & ? & _)|(c & msg & Hc & Hp)]; [done|]. injection Hp as ->. apply ends_panic.
    destruct Hc as [->|[-> Hno]]; [by left|right]. split; [done|]. intros [Hph Hfit]. apply Hno. split; [done|].
    exists dynamic_string_descriptor. split_and!; [apply string_type_set|apply string_descriptor|by apply string_allocation_contract]. }
  pose proof (ends_safe _ _ _ Hends) as Hsafe.
  pose proof (safe_returned _ _ _ Hsafe eq_refl) as [Hw1 Hal]. clear Hsafe. rewrite bind_Ok.
  apply allocate_managed_rest in Hr as Hrest. destruct Hrest as (R1 & R2 & R3).
  destruct (al_object _ _ _ _ _ _ _ _ Hal) as (ob & Hob & Ht & Hlen & Hzero). specialize (Hzero eq_refl).
  unfold store_length, load_object. rewrite Hob, load_Some, !bind_Ok.
  rewrite (proj2 (N.leb_le _ _)), assert_true, !bind_Ok by lia. apply ends_Ok.
  assert (live_in (w_memory w1) (w_active w1) o) as Hlive by (rewrite R3; eexists _, _; apply Hal).
  rewrite Hzero. replace (8 + n + 1) with (8 + (n + 1)) by lia. rewrite write_word_zeros.
  destruct (write_string_ok w1 hs ly o ob (le_split 8 n ++ zeros (n + 1)) Hw1 Hob Hlive Ht) as [Hs2 Hw2].
  { rewrite Hzero, length_N_app, length_N_le_split. unfold zeros, length_N. rewrite !length_replicate. lia. }
  split; [|unfold u64_max in *; lia]. constructor; try done.
  - eapply steps_trans; [|exact Hs2]. apply (steps_run (op_alloc dynamic_string_type (8 + n + 1) 8)); [apply string_type_contract| |done].
    simpl. unfold neri_rt_v1_gc_alloc. by rewrite Hr.
  - eexists. split; [simpl; by rewrite lookup_insert_eq|]. done.
  - destruct Hlive as (b & k & Hl). exists b, k. by apply live_store_object.
  - destruct Hlive as (b & k & Hl). by eapply live_nonnull; [apply (wd_memory _ _ _ Hw1)|].
  - intros Hph. change (phase_of w1 = Some active). by eapply allocate_managed_phase.
  - intros x r bytes k Hl Hheld. destruct (al_kept _ _ _ _ _ _ _ _ Hal x r bytes k Hl) as (Hne & _ & Hobj).
    { intros ->. assert (live_in (w_memory w) (w_active w) r) as Hlr by by exists bytes, k. apply reach_root; auto. }
    split; [done|]. simpl. by rewrite lookup_insert_ne.
  - intros r bs Hs Hheld. destruct (string_at_allocated _ _ _ _ _ _ _ _ _ _ _ Hw Hw1 Hal Hs Hheld) as [Hne Hs'].
    split; [done|]. simpl. by eapply string_at_store; [apply (wd_memory _ _ _ Hw1)|..].
Qed.

Lemma allocate_string_ok w hs ly heap n :
  world_ok w hs ly → w_states w !! w_active w = Some heap →
  safe (allocate_string n w) (λ '(o, w'), built w w' hs ly heap o (le_split 8 n ++ zeros (n + 1)) ∧ n ≤ u64_max).
Proof. intros Hw Hheap. eapply ends_safe. by apply allocate_string_ends. Qed.

(** [memcpy] into the new string. *)
Lemma write_payload_ok w0 w hs ly heap o payload offset bytes :
  built w0 w hs ly heap o payload → offset + length_N bytes ≤ length_N payload →
  ∃ w', write_payload o offset bytes w = Ok w' ∧ built w0 w' hs ly heap o (splice payload offset bytes).
Proof.
  intros Hb Hlen. destruct (bt_object _ _ _ _ _ _ _ Hb) as (ob & Hob & Ht & Hp). unfold write_payload, load_object.
  rewrite Hob, load_Some, bind_Ok. rewrite Hp, (proj2 (N.leb_le _ _)), assert_true, bind_Ok by done.
  pose proof (bt_world _ _ _ _ _ _ _ Hb) as Hw. pose proof (bt_live _ _ _ _ _ _ _ Hb) as Hlive.
  destruct (write_string_ok w hs ly o ob (splice payload offset bytes) Hw Hob Hlive Ht) as [Hs Hw'];
    [by rewrite length_splice, Hp|].
  eexists. split; [reflexivity|]. constructor; try done.
  - eapply steps_trans; [apply Hb|exact Hs].
  - eexists. split; [simpl; by rewrite lookup_insert_eq|]. done.
  - destruct Hlive as (b & k & Hl). exists b, k. by apply live_store_object.
  - apply (bt_rest _ _ _ _ _ _ _ Hb).
  - apply (bt_fresh _ _ _ _ _ _ _ Hb).
  - apply (bt_phase _ _ _ _ _ _ _ Hb).
  - intros x r b k Hl Hheld. destruct (bt_others _ _ _ _ _ _ _ Hb x r b k Hl Hheld) as [Hne Hobj].
    split; [done|]. simpl. by rewrite lookup_insert_ne.
  - intros r bs Hr Hheld. destruct (bt_kept _ _ _ _ _ _ _ Hb r bs Hr Hheld) as [Hne Hr']. split; [done|]. simpl.
    by eapply string_at_store; [apply (wd_memory _ _ _ Hw)|..].
Qed.

(** A built payload that is a string's. *)
Lemma built_string w w' hs ly heap o bs :
  built w w' hs ly heap o (le_split 8 (length_N bs) ++ bs ++ [x00]) → length_N bs ≤ u64_max →
  string_at (w_memory w') hs o bs.
Proof.
  intros Hb Hn. destruct (bt_object _ _ _ _ _ _ _ Hb) as (ob & Hob & Ht & Hp). exists ob. split; [done|]. split.
  - split; [done|]. exists []. exact Hp.
  - right. rewrite Ht. split_and!; [done|apply string_type_literal|]. exists (w_active w').
    destruct (world_current _ _ _ (bt_world _ _ _ _ _ _ _ Hb)) as (anc & heap' & -> & _). split; [set_solver|]. apply Hb.
Qed.

(** ** Root frames on the stack *)

Lemma store_roots_before slot roots w a : a < slot → w_words (store_roots slot roots w) !! a = w_words w !! a.
Proof.
  revert slot w. induction roots as [|r roots IH]; intros slot w Ha; [done|]. simpl. rewrite IH by lia. simpl.
  rewrite lookup_insert_ne by lia. done.
Qed.

Lemma store_roots_rest slot roots w :
  w_memory (store_roots slot roots w) = w_memory w ∧ w_frames (store_roots slot roots w) = w_frames w ∧
  w_states (store_roots slot roots w) = w_states w ∧ w_active (store_roots slot roots w) = w_active w.
Proof.
  revert slot w. induction roots as [|r roots IH]; intros slot w; [done|]. simpl.
  destruct (IH (slot + 8) (with_words <[slot := r]> w)) as (-> & -> & -> & ->). done.
Qed.

Lemma store_roots_ok slot roots w hs ly :
  world_ok w hs ly → Forall (valid_ref (w_memory w) hs) roots →
  (∀ i x, i < length_N roots → ¬ root_slot w x (slot + 8 * i)) →
  steps hs w (store_roots slot roots w) ∧ world_ok (store_roots slot roots w) hs ly ∧
  ∀ i r, roots !! i = Some r → w_words (store_roots slot roots w) !! (slot + 8 * N.of_nat i) = Some r.
Proof.
  revert slot w. induction roots as [|r roots IH]; intros slot w Hw Hv Hfree; simpl.
  { split_and!; [apply steps_refl|done|done]. }
  apply Forall_cons in Hv as [Hr Hv].
  assert (∀ x, x ∈ tail hs → ¬ root_slot w x slot) as Hslot.
  { intros x _. specialize (Hfree 0 x). rewrite N.mul_0_r, N.add_0_r in Hfree. apply Hfree. unfold length_N. simpl. lia. }
  destruct (IH (slot + 8) (with_words <[slot := r]> w)) as (Hs & Hw' & Hwords).
  - by apply write_root_ok.
  - done.
  - intros i x Hi. replace (slot + 8 + 8 * i) with (slot + 8 * (1 + i)) by lia.
    apply Hfree. unfold length_N in *. simpl. lia.
  - split_and!; [|done|].
    + eapply steps_trans; [|exact Hs]. by apply (steps_run (op_write_root slot r)).
    + intros [|i] v Hi; simpl in Hi.
      * injection Hi as ->. rewrite N.mul_0_r, N.add_0_r, store_roots_before by lia. simpl. by rewrite lookup_insert_eq.
      * specialize (Hwords i v Hi). by replace (slot + 8 * N.of_nat (S i)) with (slot + 8 + 8 * N.of_nat i) by lia.
Qed.

(** The frame is the innermost one and keeps the roots. *)
Record rooted (w w' : world) (hs : list N) (ly : layout) (frame slots : N) (roots : list N) : Prop := {
  ro_steps : steps hs w w';
  ro_world : world_ok w' hs (with_ly_frames (w_active w) (frame :: ly_frames ly (w_active w)) ly);
  ro_memory : w_memory w' = w_memory w;
  ro_active : w_active w' = w_active w;
  ro_phase : phase_of w = Some active → phase_of w' = Some active;
  ro_words : ∀ i r, roots !! i = Some r → w_words w' !! (slots + 8 * N.of_nat i) = Some r;
  ro_held : ∀ heap' r, w_states w' !! w_active w' = Some heap' → r ∈ roots →
    r ∈ active_roots w' (with_ly_frames (w_active w) (frame :: ly_frames ly (w_active w)) ly) heap';
}.

Lemma enter_roots_ok roots w hs ly :
  world_ok w hs ly → Forall (valid_ref (w_memory w) hs) roots →
  safe (enter_roots roots w) (λ '(frame, slots, w'), rooted w w' hs ly frame slots roots).
Proof.
  intros Hw Hv. unfold enter_roots. cbv zeta. set (slots := local_slots w (length_N roots)). set (frame := local_frame w).
  destruct (store_roots_ok slots roots w hs ly Hw Hv) as (Hs1 & Hw1 & Hwords).
  { intros i x Hi. by apply local_slots_free. }
  destruct (store_roots_rest slots roots w) as (M1 & F1 & S1 & A1). set (w1 := store_roots slots roots w) in *.
  set (f := mk_frame 0 slots (length_N roots) 0). set (w2 := with_frames <[frame := f]> w1).
  assert (∀ old, w_frames w1 !! frame = Some old → fr_runtime_cookie old = 0) as Hfree
    by (intros old; rewrite F1; apply local_frame_free).
  assert (world_ok w2 hs ly) as Hw2 by by apply new_frame_ok.
  assert (frame_contract w2 hs frame) as Hfc.
  { right. exists f. split; [simpl; by rewrite lookup_insert_eq|]. intros _ i Hi _. simpl in Hi |- *.
    destruct (lookup_lt_is_Some_2 roots (N.to_nat i)) as [r Hr]; [unfold length_N in Hi; lia|].
    exists r. specialize (Hwords _ _ Hr). rewrite N2Nat.id in Hwords. split; [done|]. rewrite M1.
    by eapply Forall_lookup in Hv. }
  pose proof (root_frame_enter_ok w2 hs ly frame Hw2 Hfc) as Hsafe.
  destruct (neri_rt_v1_gc_root_frame_enter frame w2) as [w3|e] eqn:Hr.
  2: { destruct Hsafe as [(? & ? & _)|(c & msg & Hp)]; [done|]. injection Hp as ->. apply safe_panic. }
  pose proof (safe_returned _ _ _ Hsafe eq_refl) as Hw3. rewrite bind_Ok. apply safe_Ok.
  assert (∃ prev heap, w_states w !! w_active w = Some heap ∧ w3 = store_state (w_active w2) (set_chains frame (rs_borrow heap) (rs_foreign_entry heap) heap)
    (with_frames <[frame := mk_frame prev slots (length_N roots) root_frame_cookie]> w2)) as (prev & heap & Hheap & Heq).
  { unfold neri_rt_v1_gc_root_frame_enter, current_state, load_state in Hr. simpl in Hr. rewrite lookup_insert_eq, S1, A1 in Hr.
    destruct (w_states w !! w_active w) as [heap|]; [|by invert_call]. invert_call. simpl. rewrite A1. eauto. }
  constructor.
  - eapply steps_trans; [exact Hs1|]. eapply (steps_trans _ _ w2).
    + by apply (steps_run (op_new_frame frame slots (length_N roots))).
    + by apply (steps_run (op_root_frame_enter frame)).
  - simpl in Hw3. by rewrite A1 in Hw3.
  - subst w3. simpl. exact M1.
  - subst w3. simpl. exact A1.
  - unfold phase_of. rewrite Hheap. intros [= Hph]. subst w3. simpl. rewrite lookup_insert_eq. simpl. by rewrite Hph.
  - intros i r Hi. subst w3. simpl. by apply Hwords.
  - intros heap' r Hheap' Hin. unfold active_roots. apply elem_of_root_refs. left. exists frame.
    assert (w_active w3 = w_active w) as Hact by (subst w3; simpl; exact A1).
    split; [simpl; rewrite Hact, set_list_eq; set_solver|].
    unfold frame_roots. rewrite Heq. simpl. rewrite lookup_insert_eq. simpl. apply list_elem_of_fmap.
    apply list_elem_of_lookup in Hin as [i Hi]. exists (slots + 8 * N.of_nat i). split.
    + unfold word. simpl. by rewrite (Hwords _ _ Hi).
    + apply list_elem_of_fmap. exists (N.of_nat i). split; [done|]. apply elem_of_indices. unfold length_N.
      apply lookup_lt_Some in Hi. simpl. lia.
Qed.

Lemma require_initialized_active w : phase_of w = Some active → require_initialized w = Ok tt.
Proof.
  unfold phase_of, require_initialized, current_state, load_state. destruct (w_states w !! w_active w) as [heap|]; [|done].
  intros [= Hph]. rewrite load_Some, !bind_Ok. unfold phase_is. by rewrite Hph.
Qed.

(** Entering never fails between initialization and shutdown. *)
Lemma enter_roots_active roots w : phase_of w = Some active → returns (enter_roots roots w) (λ _, True).
Proof.
  intros Hph. unfold enter_roots. cbv zeta. set (slots := local_slots w (length_N roots)). set (frame := local_frame w).
  destruct (store_roots_rest slots roots w) as (_ & _ & S1 & A1). set (w1 := store_roots slots roots w) in *.
  set (w2 := with_frames _ w1). unfold neri_rt_v1_gc_root_frame_enter.
  assert (phase_of w2 = Some active) as Hph2 by (unfold phase_of, w2; simpl; by rewrite S1, A1).
  rewrite require_initialized_active, bind_Ok by done. assert (frame =? 0 = false) as -> by (apply N.eqb_neq, local_frame_set).
  unfold w2 at 1. simpl. rewrite lookup_insert_eq, load_Some, bind_Ok. simpl.
  assert (slots =? 0 = false) as -> by (apply N.eqb_neq, local_slots_set). rewrite andb_false_r. simpl.
  unfold current_state, load_state. unfold phase_of in Hph2. change (w_states w2) with (w_states w1) in *. change (w_active w2) with (w_active w1) in *.
  destruct (w_states w1 !! w_active w1) as [heap|]; [|done]. by eexists.
Qed.

Lemma root_at_ok w0 w hs ly frame slots roots i r :
  rooted w0 w hs ly frame slots roots → roots !! i = Some r → root_at w slots (N.of_nat i) = Ok r.
Proof. intros Hr Hi. unfold root_at. by rewrite (ro_words _ _ _ _ _ _ _ Hr i r Hi). Qed.

(** Leaving the innermost frame never fails between initialization and shutdown. *)
Lemma leave_roots_active w hs ly frame rest :
  world_ok w hs ly → phase_of w = Some active → ly_frames ly (w_active w) = frame :: rest →
  returns (neri_rt_v1_gc_root_frame_leave frame w) (λ _, True).
Proof.
  intros Hw Hph Hfl. destruct (world_current _ _ _ Hw) as (anc & heap & _ & Hheap & Hcur & Hok & _).
  unfold neri_rt_v1_gc_root_frame_leave. rewrite require_initialized_active, bind_Ok, Hcur, bind_Ok by done.
  pose proof (hp_chains _ _ _ _ _ Hok) as [C1 _ C3 _ _ _ _]. rewrite Hfl in C1, C3.
  destruct C1 as (Htop & Hnz & _). destruct (C3 frame) as (f & Hf & Hc & _); [set_solver|].
  rewrite Htop, N.eqb_refl, (proj2 (N.eqb_neq _ _) Hnz). simpl. rewrite Hf, load_Some, bind_Ok, Hc. by eexists.
Qed.

(** Leaving the frame. *)
Lemma leave_roots_ok w hs ly frame :
  world_ok w hs ly →
  safe (neri_rt_v1_gc_root_frame_leave frame w) (λ w', steps hs w w' ∧ w_memory w' = w_memory w ∧
    (phase_of w = Some active → phase_of w' = Some active) ∧ ∃ ly', world_ok w' hs ly').
Proof.
  intros Hw. pose proof (root_frame_leave_ok w hs ly frame Hw) as Hsafe.
  destruct (neri_rt_v1_gc_root_frame_leave frame w) as [w'|e] eqn:Hr.
  2: { destruct Hsafe as [(? & ? & _)|(c & msg & Hp)]; [done|]. injection Hp as ->. apply safe_panic. }
  apply safe_Ok. split_and!.
  - by apply (steps_run (op_root_frame_leave frame)).
  - unfold neri_rt_v1_gc_root_frame_leave in Hr. invert_call; done.
  - unfold neri_rt_v1_gc_root_frame_leave, current_state, load_state in Hr. unfold phase_of.
    destruct (w_states w !! w_active w) as [heap0|] eqn:Hs0; [|done]. intros [= Hph]. simpl in Hr.
    invert_call; simpl; rewrite lookup_insert_eq; simpl; congruence.
  - pose proof (safe_returned _ _ _ Hsafe eq_refl) as (rest & _ & Hw'). eauto.
Qed.
End building.
