(* ===== verification/StringSpec.v ===== *)
(** * The string functions

    Concatenation, comparison, slicing, conversion: what each returns, for all strings a
    program may pass, and that the objects it was given are untouched. *)

From S2P Require Import Prelude Chains Reader Utf8 Storage Slabs Memory StorageSafety Sweep.
From S2P Require Import Heap Text TextSpec Marking Collector HeapInvariant.
From S2P Require Import Collection RuntimeApi Strings Payloads ApiSafety AllocationSafety.
From S2P Require Import NativeSafety RegionSafety Isolation StringSafety.

Local Open Scope string_scope.
Local Open Scope list_scope.
Local Open Scope N_scope.

Section functions.
Context `{Program} `{!LawfulTrace} `{RuntimeHost} `{!LawfulRuntimeHost} `{HostMemory} `{!LawfulHost}.
Context `{LocalStorage} `{!LawfulLocals} `{!LawfulStrings}.

(** A new string of the active context, reached by the runtime's own operations. *)
Record made (w w' : world) (hs : list N) (o : N) (bs : list byte) : Prop := {
  md_steps : steps hs w w';
  md_world : ∃ ly', world_ok w' hs ly';
  md_string : string_at (w_memory w') hs o bs;
  md_live : live_in (w_memory w') (w_active w') o;
  md_phase : phase_of w = Some active → phase_of w' = Some active;
}.

(** The payload after one and after two copies. *)
Lemma filled_payload bs :
  splice (le_split 8 (length_N bs) ++ zeros (length_N bs + 1)) 8 bs = le_split 8 (length_N bs) ++ bs ++ [x00].
Proof.
  rewrite zeros_app. apply splice_mid; [by rewrite length_N_le_split|].
  unfold zeros, length_N. by rewrite length_replicate, Nat2N.id.
Qed.

Lemma filled_twice a b :
  splice (splice (le_split 8 (length_N a + length_N b) ++ zeros (length_N a + length_N b + 1)) 8 a) (8 + length_N a) b =
  le_split 8 (length_N (a ++ b)) ++ (a ++ b) ++ [x00].
Proof.
  rewrite !zeros_app, <-(assoc_L (++) (zeros (length_N a))).
  assert (∀ l : list byte, length l = length (zeros (length_N l))) as Hz
    by (intros l; unfold zeros, length_N; by rewrite length_replicate, Nat2N.id).
  rewrite (splice_mid _ (zeros (length_N a)) a) by (by rewrite ?length_N_le_split).
  rewrite (assoc_L (++) _ a), (splice_mid _ (zeros (length_N b)) b); [|by rewrite length_N_app, length_N_le_split|done].
  by rewrite length_N_app, <-!(assoc_L (++)).
Qed.

Lemma length_zeros_payload n m : length_N (le_split 8 n ++ zeros m) = 8 + m.
Proof. rewrite length_N_app, length_N_le_split. unfold zeros, length_N. rewrite length_replicate. lia. Qed.

Lemma built_made w0 w w' hs ly heap o bs :
  steps hs w0 w → (phase_of w0 = Some active → phase_of w = Some active) → built w w' hs ly heap o (le_split 8 (length_N bs) ++ bs ++ [x00]) → length_N bs ≤ u64_max →
  made w0 w' hs o bs.
Proof.
  intros Hs Hph Hb Hn. constructor.
  - eapply steps_trans; [exact Hs|apply Hb].
  - eexists. apply Hb.
  - by eapply built_string.
  - apply Hb.
  - intros Hp. apply Hb. by apply Hph.
Qed.

(** A string made while a frame was entered, after leaving it. *)
Lemma made_leave w0 w hs ly frame o bs :
  world_ok w hs ly → steps hs w0 w → (phase_of w0 = Some active → phase_of w = Some active) → string_at (w_memory w) hs o bs → live_in (w_memory w) (w_active w) o →
  safe (w ← neri_rt_v1_gc_root_frame_leave frame w; Ok (o, w)) (λ '(o, w'), made w0 w' hs o bs).
Proof.
  intros Hw Hs Hph Hstr Hl. pose proof (leave_roots_ok w hs ly frame Hw) as Hsafe.
  eapply safe_bind; [exact Hsafe|]. intros w' (Hs' & Hm & Hph' & ly' & Hw'). apply safe_Ok. constructor.
  - by eapply steps_trans.
  - eauto.
  - by rewrite Hm.
  - rewrite Hm. destruct (world_current _ _ _ Hw) as (anc & heap & Hhs & _), (world_current _ _ _ Hw') as (anc' & heap' & Hhs' & _).
    rewrite Hhs in Hhs'. injection Hhs' as <- _. done.
  - auto.
Qed.

Lemma create_ascii_string_ok w hs ly bs :
  world_ok w hs ly → safe (create_ascii_string bs w) (λ '(o, w'), made w w' hs o bs).
Proof.
  intros Hw. destruct (world_current _ _ _ Hw) as (anc & heap & _ & Hheap & _). unfold create_ascii_string.
  eapply safe_bind; [by apply (allocate_string_ok w hs ly heap)|]. intros [o w1] [Hb Hn].
  destruct (write_payload_ok _ _ _ _ _ _ _ 8 bs Hb) as (w2 & -> & Hb2); [rewrite length_zeros_payload; lia|].
  rewrite bind_Ok. apply safe_Ok. rewrite filled_payload in Hb2. eapply built_made; [apply steps_refl|done|exact Hb2|done].
Qed.

(** ** Concatenation *)

Lemma string_concat_ok w hs ly l r :
  world_ok w hs ly → string_contract w hs l → string_contract w hs r →
  safe (neri_rt_v1_string_concat l r w) (λ '(o, w'), ∃ bl br,
    string_at (w_memory w) hs l bl ∧ string_at (w_memory w) hs r br ∧ made w w' hs o (bl ++ br)).
Proof.
  intros Hw Hl Hr. destruct (world_current _ _ _ Hw) as (anc & heap & _ & Hheap & _). unfold neri_rt_v1_string_concat.
  eapply safe_bind; [by eapply require_initialized_ok|]. intros [] _.
  eapply safe_bind; [by apply (inspect_string_ok w hs ly)|]. intros v1 (Hlz & bl & Hbl & ->).
  eapply safe_bind; [by apply (inspect_string_ok w hs ly)|]. intros v2 (Hrz & br & Hbr & ->). cbn [sv_byte_length].
  destruct (_ <? length_N bl) eqn:Hov; [apply safe_memory|]. apply N.ltb_ge in Hov. cbv zeta.
  eapply safe_bind; [apply (enter_roots_ok [l; r] w hs ly Hw)|].
  { by constructor; [eapply string_at_valid|constructor; [eapply string_at_valid|constructor]]. }
  intros [[frame slots] w1] Hro. pose proof (ro_world _ _ _ _ _ _ _ Hro) as Hw1. set (ly1 := with_ly_frames _ _ _) in Hw1.
  destruct (world_current _ _ _ Hw1) as (anc1 & heap1 & _ & Hheap1 & _).
  rewrite <-(ro_memory _ _ _ _ _ _ _ Hro) in Hbl, Hbr.
  assert (held w1 ly1 heap1 l ∧ held w1 ly1 heap1 r) as [Hhl Hhr]
    by (split; intros _; apply (ro_held _ _ _ _ _ _ _ Hro heap1 _ Hheap1); set_solver).
  eapply safe_bind; [by apply (allocate_string_ok w1 hs ly1 heap1)|]. intros [o w2] [Hb Hn].
  destruct (bt_kept _ _ _ _ _ _ _ Hb l bl Hbl Hhl) as [_ Hbl2], (bt_kept _ _ _ _ _ _ _ Hb r br Hbr Hhr) as [_ Hbr2].
  pose proof (bt_world _ _ _ _ _ _ _ Hb) as Hw2. unfold root_at. rewrite (proj1 (bt_rest _ _ _ _ _ _ _ Hb)).
  pose proof (ro_words _ _ _ _ _ _ _ Hro 0 l eq_refl) as E1. pose proof (ro_words _ _ _ _ _ _ _ Hro 1 r eq_refl) as E2.
  change (N.of_nat 0) with 0 in E1. change (N.of_nat 1) with 1 in E2. rewrite E1, load_Some, bind_Ok.
  rewrite (inspect_string_at w2 hs ly1 l bl), bind_Ok by done. rewrite E2, load_Some, bind_Ok.
  rewrite (inspect_string_at w2 hs ly1 r br), bind_Ok by done. rewrite (view_bytes_ok w2 hs l bl), bind_Ok by done.
  destruct (write_payload_ok _ _ _ _ _ _ _ 8 bl Hb) as (w3 & -> & Hb3); [rewrite length_zeros_payload; lia|]. rewrite bind_Ok.
  destruct (bt_kept _ _ _ _ _ _ _ Hb3 r br Hbr Hhr) as [_ Hbr3]. rewrite (view_bytes_ok w3 hs r br), bind_Ok by done.
  cbn [sv_byte_length]. destruct (write_payload_ok _ _ _ _ _ _ _ (8 + length_N bl) br Hb3) as (w4 & -> & Hb4).
  { rewrite length_splice; rewrite length_zeros_payload; lia. }
  rewrite bind_Ok. rewrite filled_twice in Hb4. pose proof (built_string _ _ _ _ _ _ _ Hb4) as Hstr.
  eapply safe_weaken; [apply (made_leave w w4 hs ly1 frame o (bl ++ br))|].
  - apply Hb4.
  - eapply steps_trans; [apply Hro|apply Hb4].
  - intros Hph. by apply Hb4, Hro.
  - apply Hstr. rewrite length_N_app. lia.
  - apply Hb4.
  - intros [o' w'] Hm. exists bl, br. rewrite (ro_memory _ _ _ _ _ _ _ Hro) in Hbl, Hbr. done.
Qed.

(** ** Reading *)

(** A part of a string's bytes. *)
Lemma read_string_part m hs o bs start n :
  string_at m hs o bs → start + n ≤ length_N bs →
  read_payload m o (8 + start) n = Ok (take (N.to_nat n) (drop (N.to_nat start) bs)).
Proof.
  intros (ob & Hob & [Hlen [rest Hp]] & _) Hr. set (a := take (N.to_nat start) bs). set (b := take (N.to_nat n) (drop (N.to_nat start) bs)).
  set (c := drop (N.to_nat n) (drop (N.to_nat start) bs)).
  assert (bs = a ++ b ++ c) as Hbs by (unfold a, b, c; by rewrite !take_drop).
  replace (8 + start) with (length_N (le_split 8 (length_N bs) ++ a))
    by (rewrite length_N_app, length_N_le_split; unfold a, length_N in *; rewrite length_take; lia).
  replace n with (length_N b) at 1 by (unfold b, length_N in *; rewrite length_take, length_drop; lia).
  eapply (read_payload_mid m o ob _ _ (c ++ x00 :: rest)); [done|]. rewrite Hp. rewrite Hbs at 2. by rewrite <-!app_assoc.
Qed.

Lemma string_equal_ok w hs ly l r :
  world_ok w hs ly → string_contract w hs l → string_contract w hs r →
  safe (neri_rt_v1_string_equal l r w) (λ b,
    if decide (l = r) then b = true
    else if decide (l = 0 ∨ r = 0) then b = false
    else ∃ bl br, string_at (w_memory w) hs l bl ∧ string_at (w_memory w) hs r br ∧ b = bool_decide (bl = br)).
Proof.
  intros Hw Hl Hr. destruct (world_current _ _ _ Hw) as (anc & heap & _ & Hheap & _). unfold neri_rt_v1_string_equal.
  eapply safe_bind; [by eapply require_initialized_ok|]. intros [] _.
  destruct (N.eqb_spec l r) as [Heq|Hne]; [apply safe_Ok; by rewrite decide_True|].
  destruct (N.eqb_spec l 0) as [Hlz|Hlz]; [apply safe_Ok; by rewrite decide_False, decide_True by (done || by left)|].
  destruct (N.eqb_spec r 0) as [Hrz|Hrz]; [apply safe_Ok; by rewrite decide_False, decide_True by (done || by right)|]. cbn [orb].
  eapply (safe_weaken _ (λ b, ∃ bl br, string_at (w_memory w) hs l bl ∧ string_at (w_memory w) hs r br ∧ b = bool_decide (bl = br)));
    [|intros b Hb; rewrite !decide_False by tauto; exact Hb].
  eapply safe_bind; [by apply (inspect_string_ok w hs ly)|]. intros v1 (_ & bl & Hbl & ->).
  eapply safe_bind; [by apply (inspect_string_ok w hs ly)|]. intros v2 (_ & br & Hbr & ->). cbn [sv_byte_length sv_object].
  destruct (N.eqb_spec (length_N bl) (length_N br)) as [Hlen|Hlen]; cbn [negb].
  - rewrite (view_bytes_ok w hs l bl), bind_Ok by done. rewrite Hlen.
    pose proof (view_bytes_ok w hs r br Hbr) as Hv. unfold view_bytes, view_source in Hv. simpl sv_object in Hv. simpl sv_byte_length in Hv.
    rewrite Hv, bind_Ok. apply safe_Ok. eauto.
  - apply safe_Ok. exists bl, br. split_and!; try done. rewrite bool_decide_false; [done|]. by intros ->.
Qed.

Lemma byte_length_ok w hs ly o :
  world_ok w hs ly → string_contract w hs o →
  safe (neri_rt_v1_host_string_byte_length o w) (λ n, ∃ bs, string_at (w_memory w) hs o bs ∧ n = Z.of_N (length_N bs)).
Proof.
  intros Hw Ho. destruct (world_current _ _ _ Hw) as (anc & heap & _ & Hheap & _). unfold neri_rt_v1_host_string_byte_length.
  eapply safe_bind; [by eapply require_initialized_ok|]. intros [] _.
  eapply safe_bind; [by apply (inspect_string_ok w hs ly)|]. intros v (_ & bs & Hbs & ->). simpl.
  destruct (_ <? _)%Z; [apply safe_contract|]. apply safe_Ok. eauto.
Qed.

(** In bounds the byte, otherwise a bounds panic. *)
Lemma byte_at_exact w hs ly o bs index :
  world_ok w hs ly → phase_of w = Some active → string_at (w_memory w) hs o bs → o ≠ 0 →
  neri_rt_v1_host_string_byte_at o index w =
  match (if (index <? 0)%Z then None else bs !! Z.to_nat index) with
  | Some b => Ok [b]
  | None => bounds_panic "String byte index is out of bounds."
  end.
Proof.
  intros Hw Hph Hs Hz. unfold neri_rt_v1_host_string_byte_at. rewrite require_initialized_active, bind_Ok by done.
  rewrite (inspect_string_at w hs ly o bs), bind_Ok by done. cbn [sv_byte_length sv_object].
  destruct (Z.ltb_spec index 0); [done|]. cbn [orb]. destruct (N.leb_spec (length_N bs) (Z.to_N index)) as [Hi|Hi].
  - rewrite lookup_ge_None_2; [done|]. unfold length_N in Hi. lia.
  - rewrite (read_string_part _ hs o bs) by (done || lia).
    destruct (lookup_lt_is_Some_2 bs (Z.to_nat index)) as [b Hb]; [unfold length_N in Hi; lia|]. rewrite Hb.
    replace (N.to_nat (Z.to_N index)) with (Z.to_nat index) by lia. by rewrite (drop_S bs b _ Hb).
Qed.

(** ** Conversions *)

Lemma string_from_int_ok w hs ly z :
  world_ok w hs ly → (int64_min ≤ z ≤ int64_max)%Z →
  safe (neri_rt_v1_string_from_int z w) (λ '(o, w'), made w w' hs o (decimal_text z)).
Proof.
  intros Hw Hz. destruct (world_current _ _ _ Hw) as (anc & heap & _ & Hheap & _). unfold neri_rt_v1_string_from_int, integer_string.
  eapply safe_bind; [by eapply require_initialized_ok|]. intros [] _.
  rewrite (proj1 (integer_text_ok z Hz)), bind_Ok. by eapply create_ascii_string_ok.
Qed.

Lemma parse_int_at w hs ly o bs :
  world_ok w hs ly → phase_of w = Some active → string_at (w_memory w) hs o bs → o ≠ 0 →
  ∀ destination, destination ≠ 0 → neri_rt_v1_host_parse_int destination o w = Ok (parse_int_text bs).
Proof.
  intros Hw Hph Hs Hz destination Hd. unfold neri_rt_v1_host_parse_int. rewrite require_initialized_active, bind_Ok by done.
  rewrite (proj2 (N.eqb_neq _ _) Hd).
  rewrite (inspect_string_at w hs ly o bs), bind_Ok by done. by rewrite (view_bytes_ok w hs o bs), bind_Ok.
Qed.

Lemma made_nonnull w w' hs o bs : made w w' hs o bs → o ≠ 0.
Proof.
  intros Hm ->. destruct (md_world _ _ _ _ _ Hm) as [ly Hw]. destruct (md_live _ _ _ _ _ Hm) as (b & k & Hl).
  by eapply live_nonnull; [apply (wd_memory _ _ _ Hw)|exact Hl|].
Qed.

Lemma string_from_float_ok `{LawfulFloats} w hs ly value :
  world_ok w hs ly → isfinite value = true →
  safe (neri_rt_v1_string_from_float value w) (λ '(o, w'), ∃ text,
    made w w' hs o text ∧ parse_float_text text = Some value).
Proof.
  intros Hw Hv. destruct (world_current _ _ _ Hw) as (anc & heap & _ & Hheap & _). unfold neri_rt_v1_string_from_float.
  eapply safe_bind; [by eapply require_initialized_ok|]. intros [] _.
  destruct (float_roundtrip value Hv) as (text & -> & Hp). rewrite bind_Ok.
  eapply safe_weaken; [by eapply create_ascii_string_ok|]. intros [o w'] Hm. eauto.
Qed.

Lemma parse_float_at `{FloatLibrary} w hs ly o bs :
  world_ok w hs ly → phase_of w = Some active → string_at (w_memory w) hs o bs → o ≠ 0 →
  ∀ destination, destination ≠ 0 → neri_rt_v1_host_parse_float destination o w = Ok (parse_float_text bs).
Proof.
  intros Hw Hph Hs Hz destination Hd. unfold neri_rt_v1_host_parse_float. rewrite require_initialized_active, bind_Ok by done.
  rewrite (proj2 (N.eqb_neq _ _) Hd).
  rewrite (inspect_string_at w hs ly o bs), bind_Ok by done. by rewrite (view_bytes_ok w hs o bs), bind_Ok.
Qed.

(** ** Slices *)

(** Strings are made of well-formed text only; the source is read twice. *)
Lemma create_utf8_string_ends w hs ly heap source bs :
  world_ok w hs ly → w_states w !! w_active w = Some heap →
  source_bytes (w_memory w) source = Ok bs → source_size source = length_N bs →
  (∀ w' o payload, built w w' hs ly heap o payload → source_bytes (w_memory w') source = Ok bs) →
  ends (λ code, string_refused heap (length_N bs) code ∨ ¬ well_formed_utf8 bs) (create_utf8_string source w) (λ '(o, w'), well_formed_utf8 bs ∧ length_N bs ≤ u64_max ∧
    built w w' hs ly heap o (le_split 8 (length_N bs) ++ bs ++ [x00])).
Proof.
  intros Hw Hheap Hread Hsize Hkept. unfold create_utf8_string. rewrite Hread, bind_Ok.
  destruct (is_strict_utf8_spec bs) as (valid & -> & Hvalid). rewrite bind_Ok. destruct valid; [|apply ends_panic; right; intros Hwf; by apply Hvalid in Hwf].
  cbn [negb]. rewrite Hsize. eapply ends_bind; [eapply ends_weaken; [by apply (allocate_string_ends w hs ly heap)|by left|intros x Hx; exact Hx]|]. intros [o w1] [Hb Hn].
  rewrite (Hkept _ _ _ Hb), bind_Ok. destruct (N.eqb_spec (length_N bs) 0) as [Hz|Hz].
  - rewrite bind_Ok. apply ends_Ok. split_and!; [by apply Hvalid|done|].
    assert (bs = []) as -> by (destruct bs; [done|unfold length_N in Hz; simpl in Hz; lia]). exact Hb.
  - destruct (write_payload_ok _ _ _ _ _ _ _ 8 bs Hb) as (w2 & -> & Hb2); [rewrite length_zeros_payload; lia|].
    rewrite bind_Ok. apply ends_Ok. rewrite filled_payload in Hb2. split_and!; [by apply Hvalid|done|done].
Qed.

Lemma create_utf8_string_ok w hs ly heap source bs :
  world_ok w hs ly → w_states w !! w_active w = Some heap →
  source_bytes (w_memory w) source = Ok bs → source_size source = length_N bs →
  (∀ w' o payload, built w w' hs ly heap o payload → source_bytes (w_memory w') source = Ok bs) →
  safe (create_utf8_string source w) (λ '(o, w'), well_formed_utf8 bs ∧ length_N bs ≤ u64_max ∧
    built w w' hs ly heap o (le_split 8 (length_N bs) ++ bs ++ [x00])).
Proof. intros. eapply ends_safe. by apply create_utf8_string_ends. Qed.

(** Only what lies in the string and splits no scalar is copied, and only memory may be missing
    then. *)
Lemma string_slice_cases w hs ly o bs start n (part := take (Z.to_nat n) (drop (Z.to_nat start) bs)) :
  world_ok w hs ly → phase_of w = Some active → string_at (w_memory w) hs o bs → o ≠ 0 →
  (¬ (0 ≤ start ∧ 0 ≤ n ∧ start + n ≤ Z.of_N (length_N bs))%Z →
    neri_rt_v1_host_string_slice o start n w = bounds_panic "String byte slice is out of bounds.") ∧
  ((0 ≤ start ∧ 0 ≤ n ∧ start + n ≤ Z.of_N (length_N bs))%Z → ¬ well_formed_utf8 part →
    neri_rt_v1_host_string_slice o start n w = bounds_panic "String byte slice splits a UTF-8 scalar.") ∧
  ((0 ≤ start ∧ 0 ≤ n ∧ start + n ≤ Z.of_N (length_N bs))%Z → well_formed_utf8 part →
    ends (λ code, code = PANIC_OUT_OF_MEMORY ∨
            code = PANIC_RUNTIME_CONTRACT ∧ u64_max - sizeof_header < 8 + length_N part + 1)
      (neri_rt_v1_host_string_slice o start n w) (λ '(o', w'), made w w' hs o' part)).
Proof.
  intros Hw Hph Hs Hz. destruct (world_current _ _ _ Hw) as (anc & heap & _ & Hheap & _). unfold neri_rt_v1_host_string_slice.
  rewrite require_initialized_active, bind_Ok by done.
  rewrite (inspect_string_at w hs ly o bs), bind_Ok by done. cbn [sv_byte_length sv_object].
  destruct (_ || _ || _ || _) eqn:Hg.
  { rewrite !orb_true_iff, !Z.ltb_lt, !N.ltb_lt in Hg. split_and!; [done|lia..]. }
  rewrite !orb_false_iff, !Z.ltb_ge, !N.ltb_ge in Hg.
  destruct Hg as [[[H1' H2'] H3'] H4']. split; [lia|]. rewrite (read_string_part _ hs o bs), bind_Ok by (done || lia).
  assert (take (N.to_nat (Z.to_N n)) (drop (N.to_nat (Z.to_N start)) bs) = part) as Hpart by (unfold part; do 2 f_equal; lia).
  rewrite Hpart. assert (length_N part = Z.to_N n) as Hlen by (unfold part, length_N in *; rewrite length_take, length_drop; lia).
  clearbody part. destruct (is_strict_utf8_spec part) as (valid & -> & Hvalid). rewrite bind_Ok.
  split; [intros _ Hno; destruct valid; [by destruct Hno; apply Hvalid|done]|]. intros _ Hwf.
  rewrite (proj2 Hvalid Hwf). cbn [negb].
  eapply ends_bind; [left; eapply safe_returns; [apply (enter_roots_ok [o] w hs ly Hw)|by apply enter_roots_active]|].
  { constructor; [by eapply string_at_valid|constructor]. }
  intros [[frame slots] w1] Hro. pose proof (ro_world _ _ _ _ _ _ _ Hro) as Hw1. set (ly1 := with_ly_frames _ _ _) in Hw1.
  destruct (world_current _ _ _ Hw1) as (anc1 & heap1 & _ & Hheap1 & _).
  pose proof Hs as Hs1. rewrite <-(ro_memory _ _ _ _ _ _ _ Hro) in Hs1.
  assert (held w1 ly1 heap1 o) as Hheld by (intros _; apply (ro_held _ _ _ _ _ _ _ Hro heap1 _ Hheap1); set_solver).
  pose proof (root_at_ok _ _ _ _ _ _ _ 0 o Hro eq_refl) as E1. change (N.of_nat 0) with 0 in E1. rewrite E1, bind_Ok.
  rewrite (inspect_string_at w1 hs ly1 o bs), bind_Ok by done. cbn [sv_object].
  pose proof (ro_phase _ _ _ _ _ _ _ Hro Hph) as Hph1.
  eapply ends_bind; [eapply ends_weaken; [apply (create_utf8_string_ends w1 hs ly1 heap1 _ part); try done| |intros x Hx; exact Hx]|].
  - rewrite <-Hpart. apply (read_string_part _ hs o bs); [done|lia].
  - intros w' o' payload Hb. simpl. rewrite <-Hpart. apply (read_string_part _ hs o bs); [|lia]. by apply (bt_kept _ _ _ _ _ _ _ Hb o bs).
  - intros code [[->|[-> Hno]]|Hno]; [by left|right|done]. split; [done|]. apply N.nle_gt. intros Hfit. apply Hno.
    unfold phase_of in Hph1. rewrite Hheap1 in Hph1. injection Hph1 as ->. done.
  - intros [o' w2] (_ & Hn & Hb). pose proof (bt_world _ _ _ _ _ _ _ Hb) as Hw2.
    destruct (leave_roots_active w2 hs ly1 frame (ly_frames ly (w_active w)) Hw2) as (w3 & Hr & _).
    { by apply (bt_phase _ _ _ _ _ _ _ Hb). }
    { destruct (bt_rest _ _ _ _ _ _ _ Hb) as (_ & _ & ->). rewrite (ro_active _ _ _ _ _ _ _ Hro). unfold ly1. simpl. by rewrite set_list_eq. }
    left. eapply safe_returns; [|rewrite Hr; by eexists]. apply (made_leave w w2 hs ly1 frame o' part).
    + done.
    + eapply steps_trans; [apply Hro|apply Hb].
    + intros _. by apply (bt_phase _ _ _ _ _ _ _ Hb).
    + by eapply built_string.
    + apply Hb.
Qed.

Lemma string_slice_ok w hs ly o bs start n :
  world_ok w hs ly → string_at (w_memory w) hs o bs → o ≠ 0 →
  safe (neri_rt_v1_host_string_slice o start n w) (λ '(o', w'),
    (0 ≤ start ∧ 0 ≤ n ∧ start + n ≤ Z.of_N (length_N bs))%Z ∧
    well_formed_utf8 (take (Z.to_nat n) (drop (Z.to_nat start) bs)) ∧
    made w w' hs o' (take (Z.to_nat n) (drop (Z.to_nat start) bs))).
Proof.
  intros Hw Hs Hz. destruct (world_current _ _ _ Hw) as (anc & heap & _ & Hheap & _).
  destruct (require_initialized_ok w hs ly heap Hw Hheap) as [([] & Hi & Hph)|(c & msg & Hi)].
  2: { unfold neri_rt_v1_host_string_slice. rewrite Hi. apply safe_panic. }
  assert (phase_of w = Some active) as Hpw by (unfold phase_of; rewrite Hheap; simpl in *; congruence).
  destruct (string_slice_cases w hs ly o bs start n Hw Hpw Hs Hz) as (Hout & Hsplit & Hin).
  destruct (decide (0 ≤ start ∧ 0 ≤ n ∧ start + n ≤ Z.of_N (length_N bs))%Z) as [Hr|Hr]; [|rewrite Hout by done; apply safe_panic].
  destruct (is_strict_utf8_spec (take (Z.to_nat n) (drop (Z.to_nat start) bs))) as (valid & _ & Hvalid). destruct valid.
  - eapply safe_weaken; [eapply ends_safe, Hin; [done|by apply Hvalid]|]. intros [o' w'] Hm. split_and!; try apply Hr; [by apply Hvalid|done].
  - rewrite Hsplit; [apply safe_panic|done|]. intros Hwf. by apply Hvalid in Hwf.
Qed.
End functions.
