(* ===== verification/HostSafety.v ===== *)
(** * Arrays and host functions keep the invariant

    Appending to an array yields a new array with the old elements and the new one; every
    host function is defined on whatever a program may pass, changes the state only by the
    operations of Isolation.v, and hands out well-formed strings only. *)

From S2P Require Import Prelude Chains Reader Utf8 Storage Slabs Memory StorageSafety Sweep.
From S2P Require Import Heap Text TextSpec Marking Collector HeapInvariant.
From S2P Require Import Collection RuntimeApi Strings HostApi Payloads ApiSafety AllocationSafety.
From S2P Require Import NativeSafety RegionSafety Isolation StringSafety StringSpec.

Local Open Scope string_scope.
Local Open Scope list_scope.
Local Open Scope N_scope.

(** ** Arrays *)

Section views.
Context `{Program}.

(** A reference to an array of the type at [t] with [n] elements, and its object. *)
Record array_at (m : memory) (hs : list N) (o t : N) (d : type_descriptor) (n : N) (ob : object) : Prop := {
  ar_object : m_objects m !! o = Some ob;
  ar_type : ob_type ob = t ∧ t ≠ 0 ∧ t ≠ string_literal_type;
  ar_descriptor : descriptor t = Some d;
  ar_kind : td_kind d = TYPE_KIND_ARRAY ∧ td_element_size d ≠ 0 ∧ 8 ≤ td_payload_size d;
  ar_length : n = read_word (ob_payload ob) 0 ∧ n ≤ int64_max_N;
  ar_room : td_payload_size d + n * td_element_size d ≤ length_N (ob_payload ob);
  ar_live : ∃ x, x ∈ hs ∧ live_in m x o;
}.

(** Objects of the contexts are typed and traceable. *)
Lemma live_object_ok w hs ly x o :
  world_ok w hs ly → x ∈ hs → live_in (w_memory w) x o →
  ∃ ob, m_objects (w_memory w) !! o = Some ob ∧ traceable o ob ∧ ∀ r, r ∈ refs_of o ob → valid_ref (w_memory w) hs r.
Proof.
  intros Hw Hx Hl. destruct (list_elem_of_split _ _ Hx) as (pre & anc & Hhs).
  assert (is_Some (w_states w !! x)) as [heap Hheap] by (by apply (wd_states _ _ _ Hw)).
  destruct (hp_closed _ _ _ _ _ (wd_heaps _ _ _ Hw _ _ _ _ Hhs Hheap) o Hl) as (ob & Hob & Htr & Hr).
  exists ob. split_and!; [done|done|]. intros r Hin. destruct (Hr r Hin) as [->|[Hlit|(y & Hy & Hly)]]; [by left|right; by left|].
  right. right. exists y. split; [|done]. rewrite Hhs. set_solver.
Qed.

(** Objects of the contexts fit in the address space: their bytes are accounted for. *)
Lemma live_object_bound w hs ly x o ob :
  world_ok w hs ly → x ∈ hs → live_in (w_memory w) x o → m_objects (w_memory w) !! o = Some ob →
  sizeof_header + length_N (ob_payload ob) ≤ u64_max.
Proof.
  intros Hw Hx (bytes & k & Hl) Hob. destruct (list_elem_of_split _ _ Hx) as (pre & anc & Hhs).
  assert (is_Some (w_states w !! x)) as [heap Hheap] by (by apply (wd_states _ _ _ Hw)).
  pose proof (wd_heaps _ _ _ Hw _ _ _ _ Hhs Hheap) as Hok.
  destruct (visit_visits _ _ _ (wd_memory _ _ _ Hw) (hp_storage _ _ _ _ _ Hok)) as (calls & _ & Hv).
  destruct (hp_account _ _ _ _ _ Hok calls Hv) as [_ Hbytes]. pose proof (hp_bytes _ _ _ _ _ Hok) as Hmax.
  destruct (live_header _ (wd_memory _ _ _ Hw) _ _ _ _ Hl) as (ob' & Hob' & Hlen).
  rewrite Hob in Hob'. injection Hob' as <-. rewrite Hlen.
  assert ((o, bytes) ∈ calls) as Hin by (apply (vs_live _ _ _ Hv); by exists k).
  rewrite Hbytes in Hmax. clear -Hin Hmax. revert Hin Hmax.
  induction calls as [|[o' n] calls IH]; [by intros ?%elem_of_nil|]. simpl. intros [[= <- <-]|Hin]%elem_of_cons Hmax; [lia|].
  apply IH; [done|lia].
Qed.

Lemma inspect_array_ok w hs ly o :
  world_ok w hs ly → valid_ref (w_memory w) hs o →
  safe (inspect_array w o) (λ v, ∃ t d n ob, array_at (w_memory w) hs o t d n ob ∧ v = mk_array_view o t d n).
Proof.
  intros Hw Hv. destruct (world_current _ _ _ Hw) as (anc & heap & _ & Hheap & _). unfold inspect_array.
  eapply safe_bind; [by eapply require_initialized_ok|]. intros [] _.
  destruct (find_readable_ok w hs ly o Hw Hv) as (r & -> & Hr). rewrite bind_Ok.
  destruct (N.eqb_spec o 0) as [Hz|Hz]; [apply safe_contract|]. destruct r as [o'|]; [|apply safe_contract].
  destruct Hr as (-> & x & Hx & bytes & k & Hl).
  destruct (live_object_ok w hs ly x o Hw Hx) as (ob & Hob & (Htyped & Hnl & _) & _); [by exists bytes, k|].
  unfold load_object. rewrite Hob, load_Some, bind_Ok. destruct (N.eqb_spec (ob_type ob) 0) as [Ht|Ht]; [apply safe_contract|].
  destruct Htyped as [|(d & Hd & Hsize)]; [done|]. rewrite Hd, load_Some, bind_Ok.
  destruct (_ || _ || _) eqn:Hg; [apply safe_contract|]. apply orb_false_iff in Hg as [[Hk He]%orb_false_iff Hp].
  apply negb_false_iff, N.eqb_eq in Hk. apply N.eqb_neq in He. apply N.ltb_ge in Hp.
  unfold read_prefix, load_object. rewrite Hob, load_Some, !bind_Ok.
  rewrite (proj2 (N.leb_le _ _)), assert_true, !bind_Ok by lia. set (n := read_word (ob_payload ob) 0).
  destruct (_ || _) eqn:Hn; [apply safe_contract|]. apply orb_false_iff in Hn as [Hn%N.ltb_ge _].
  unfold payload_size. rewrite (size_live _ (wd_memory _ _ _ Hw) _ _ _ _ Hl), !bind_Ok.
  destruct (live_header _ (wd_memory _ _ _ Hw) _ _ _ _ Hl) as (ob' & Hob' & Hbytes). rewrite Hob in Hob'. injection Hob' as <-.
  destruct (N.ltb_spec (bytes - sizeof_header) (td_payload_size d + n * td_element_size d)); [apply safe_contract|].
  apply safe_Ok. exists (ob_type ob), d, n, ob. split; [|done]. constructor; try done.
  - unfold sizeof_header in *. lia.
  - exists x. split; [done|]. by exists bytes, k.
Qed.

(** Views of one object agree. *)
Lemma array_at_same m m' hs o t d n ob t' d' n' ob' :
  array_at m hs o t d n ob → array_at m' hs o t' d' n' ob' → ob' = ob → t' = t ∧ d' = d ∧ n' = n.
Proof.
  intros H1 H2 ->. destruct (ar_type _ _ _ _ _ _ _ H1) as [E1 _], (ar_type _ _ _ _ _ _ _ H2) as [E2 _].
  pose proof (ar_descriptor _ _ _ _ _ _ _ H1) as D1. pose proof (ar_descriptor _ _ _ _ _ _ _ H2) as D2.
  destruct (ar_length _ _ _ _ _ _ _ H1) as [L1 _], (ar_length _ _ _ _ _ _ _ H2) as [L2 _].
  subst. rewrite D1 in D2. by injection D2 as <-.
Qed.

Lemma read_payload_ok m o ob offset n :
  m_objects m !! o = Some ob → offset + n ≤ length_N (ob_payload ob) →
  read_payload m o offset n = Ok (take (N.to_nat n) (drop (N.to_nat offset) (ob_payload ob))).
Proof.
  intros Hob Hn. unfold read_payload, load_object. rewrite Hob, load_Some, bind_Ok, (proj2 (N.leb_le _ _) Hn), assert_true. done.
Qed.
End views.

(** ** Elements *)

(** What the compiler promises about arrays: element types have descriptors, and the trace
    callbacks report the same slots of every element, none for scalar elements, the
    element itself for strings. *)
Class LawfulArrays `{Program} := {
  element_slots : type_descriptor → list N;
  array_slots : ∀ o ob d, descriptor (ob_type ob) = Some d → td_kind d = TYPE_KIND_ARRAY → shaped d (ob_payload ob) →
    ∀ slot, slot ∈ slots_of o ob ↔ ∃ i k, i < read_word (ob_payload ob) 0 ∧ k ∈ element_slots d ∧
      slot = o + sizeof_header + (td_payload_size d + i * td_element_size d + k);
  element_type_known : ∀ t d, descriptor t = Some d → td_kind d = TYPE_KIND_ARRAY →
    td_element_type d = 0 ∨ is_Some (descriptor (td_element_type d));
  element_inside : ∀ t d k, descriptor t = Some d → k ∈ element_slots d → k + 8 ≤ td_element_size d;
  scalar_element_slots : ∀ t d e, descriptor t = Some d → descriptor (td_element_type d) = Some e →
    td_scalar_kind e ≠ SCALAR_KIND_NONE → element_slots d = [];
  string_element_slots : ∀ t d e, descriptor t = Some d → descriptor (td_element_type d) = Some e →
    td_kind e = TYPE_KIND_STRING → element_slots d = [0];
}.

Section elements.
Context `{Program} `{!LawfulTrace} `{!LawfulArrays}.

(** A payload of the array's shape is traceable, and these are its references. *)
Lemma array_traceable o t word d p :
  descriptor t = Some d → t ≠ string_literal_type → td_kind d = TYPE_KIND_ARRAY → shaped d p →
  traceable o (mk_object t word p) ∧
  ∀ r, r ∈ refs_of o (mk_object t word p) ↔
    ∃ i k, i < read_word p 0 ∧ k ∈ element_slots d ∧ r = read_word p (td_payload_size d + i * td_element_size d + k).
Proof.
  intros Hd Hnl Hk Hsh. split.
  - split_and!; [right; exists d; split; [done|apply Hsh]|done|]. intros slot Hs. by eapply trace_inside.
  - intros r. unfold refs_of. rewrite list_elem_of_fmap. setoid_rewrite (array_slots o (mk_object t word p) d Hd Hk Hsh). simpl.
    assert (∀ x, slot_value o (mk_object t word p) (o + sizeof_header + x) = read_word p x) as Hval.
    { intros x. unfold slot_value, slot_offset_of. simpl. f_equal. lia. }
    split.
    + intros (slot & -> & i & k & Hi & Hk' & ->). exists i, k. by rewrite Hval.
    + intros (i & k & Hi & Hk' & ->). eexists. rewrite <-(Hval (_ + _)). split; [done|]. eauto 6.
Qed.

(** Reading words where two payloads agree. *)
Lemma read_word_agree (p q : list byte) (a b offset : N) :
  take (N.to_nat (b - a)) (drop (N.to_nat a) p) = take (N.to_nat (b - a)) (drop (N.to_nat a) q) →
  a ≤ offset → offset + 8 ≤ b → read_word p offset = read_word q offset.
Proof.
  intros Heq Ha Hb. unfold read_word. f_equal.
  assert (∀ l : list byte, take 8 (drop (N.to_nat offset) l) =
    take 8 (drop (N.to_nat (offset - a)) (take (N.to_nat (b - a)) (drop (N.to_nat a) l)))) as Hsub.
  { intros l. rewrite skipn_firstn_comm, take_take, drop_drop. f_equal; [lia|f_equal; lia]. }
  by rewrite (Hsub p), (Hsub q), Heq.
Qed.

Lemma splice_inside p offset bytes :
  offset + length_N bytes ≤ length_N p →
  take (length bytes) (drop (N.to_nat offset) (splice p offset bytes)) = bytes.
Proof.
  intros Hlen. unfold splice, length_N in *. rewrite drop_app_length' by (rewrite length_take; lia). apply take_app_length.
Qed.

Lemma splice_before p offset bytes k :
  (k ≤ N.to_nat offset)%nat → offset ≤ length_N p → take k (splice p offset bytes) = take k p.
Proof.
  intros Hk Hlen. unfold splice, length_N in *. rewrite take_app_le by (rewrite length_take; lia). rewrite take_take. f_equal. lia.
Qed.

Lemma splice_after p offset bytes k :
  offset + length_N bytes ≤ length_N p → (N.to_nat offset + length bytes ≤ k)%nat →
  drop k (splice p offset bytes) = drop k p.
Proof.
  intros Hlen Hk. unfold splice, length_N in *. rewrite (assoc_L (++)), drop_app_ge by (rewrite length_app, length_take; lia).
  rewrite drop_drop, length_app, length_take. f_equal. lia.
Qed.
End elements.

(** ** Appending *)

Section payloads.
Context (d : type_descriptor) (n : N).
Context (Hp8 : 8 ≤ td_payload_size d).
Let psize := td_payload_size d.
Let esize := td_element_size d.
Let total := psize + (n + 1) * esize.

(** The new payload with its length, then with the old elements. *)
Definition sized_payload : list byte := write_word (zeros total) 0 (n + 1).
Definition copied_payload (pv : list byte) : list byte :=
  if n * esize =? 0 then sized_payload
  else splice sized_payload psize (take (N.to_nat (n * esize)) (drop (N.to_nat psize) pv)).

Lemma length_sized : length_N sized_payload = total.
Proof.
  unfold sized_payload. rewrite length_write_word; unfold zeros, length_N; rewrite length_replicate; unfold total, psize, esize; lia.
Qed.

Lemma sized_length : n ≤ int64_max_N → read_word sized_payload 0 = n + 1.
Proof.
  intros Hn. apply read_write_same; [|unfold int64_max_N, u64_max in *; lia].
  unfold zeros, length_N. rewrite length_replicate. unfold total, psize, esize. lia.
Qed.

Lemma sized_word offset : 8 ≤ offset → read_word sized_payload offset = 0.
Proof.
  intros Ho. unfold sized_payload. rewrite read_write_other; [apply read_word_zeros| |by right].
  unfold zeros, length_N. rewrite length_replicate. unfold total, psize, esize. lia.
Qed.

Context (pv : list byte) (Hn : n ≤ int64_max_N) (Hroom : td_payload_size d + n * td_element_size d ≤ length_N pv).

Lemma length_elements : length_N (take (N.to_nat (n * esize)) (drop (N.to_nat psize) pv)) = n * esize.
Proof. unfold length_N, psize, esize in *. rewrite length_take, length_drop. lia. Qed.

Lemma length_copied : length_N (copied_payload pv) = total.
Proof.
  unfold copied_payload. destruct (n * esize =? 0); [apply length_sized|].
  rewrite length_splice; [apply length_sized|]. rewrite length_sized, length_elements. unfold total. lia.
Qed.

Lemma copied_length : read_word (copied_payload pv) 0 = n + 1.
Proof.
  unfold copied_payload. destruct (n * esize =? 0); [by apply sized_length|]. rewrite <-sized_length by done.
  unfold read_word. change (N.to_nat 0) with 0%nat. rewrite !drop_0. f_equal. apply splice_before; [unfold psize; lia|].
  rewrite length_sized. unfold total. lia.
Qed.

(** The words of the old elements, and nulls for the new one. *)
Lemma copied_word offset :
  psize ≤ offset →
  (offset + 8 ≤ psize + n * esize → read_word (copied_payload pv) offset = read_word pv offset) ∧
  (psize + n * esize ≤ offset → read_word (copied_payload pv) offset = 0).
Proof.
  intros Ho. unfold copied_payload. destruct (N.eqb_spec (n * esize) 0) as [Hz|Hz].
  { split; [lia|]. intros _. apply sized_word. unfold psize in Ho. lia. }
  set (old := take _ (drop _ pv)). pose proof length_elements as Hlen. fold old in Hlen.
  assert (psize + length_N old ≤ length_N sized_payload) as Hfit by (rewrite length_sized, Hlen; unfold total; lia).
  split.
  - intros Hb. apply (read_word_agree _ _ psize (psize + n * esize)); [|done|done].
    replace (psize + n * esize - psize) with (n * esize) by lia. fold old.
    replace (N.to_nat (n * esize)) with (length old) by (unfold length_N in Hlen; lia). by apply splice_inside.
  - intros Hb. rewrite <-(sized_word offset) by (unfold psize in Ho; lia). unfold read_word. f_equal. f_equal.
    apply splice_after; [done|]. unfold length_N in Hlen. lia.
Qed.

Lemma copied_elements :
  take (N.to_nat (n * esize)) (drop (N.to_nat psize) (copied_payload pv)) = take (N.to_nat (n * esize)) (drop (N.to_nat psize) pv).
Proof.
  unfold copied_payload. destruct (N.eqb_spec (n * esize) 0) as [Hz|Hz]; [by rewrite Hz|].
  set (old := take _ (drop _ pv)). pose proof length_elements as Hlen. fold old in Hlen.
  replace (N.to_nat (n * esize)) with (length old) by (unfold length_N in Hlen; lia). apply splice_inside.
  rewrite length_sized, Hlen. unfold total. lia.
Qed.
End payloads.

Section append.
Context `{Program} `{!LawfulTrace} `{RuntimeHost} `{!LawfulRuntimeHost} `{HostMemory} `{!LawfulHost}.
Context `{LocalStorage} `{!LawfulLocals} `{!LawfulStrings} `{!LawfulArrays}.

Lemma array_at_allocated w w' hs ly heap t0 psize z o r t d n ob :
  allocated w w' ly heap t0 psize z o → array_at (w_memory w) hs r t d n ob → held w ly heap r →
  r ≠ o ∧ array_at (w_memory w') hs r t d n ob.
Proof.
  intros Hal [A1 A2 A3 A4 A5 A6 (x & Hx & bytes & k & Hl)] Hheld.
  destruct (al_kept _ _ _ _ _ _ _ _ Hal x r bytes k Hl) as (Hne & Hl' & Hobj).
  { intros ->. assert (live_in (w_memory w) (w_active w) r) as Hlive by by exists bytes, k. apply reach_root; auto. }
  split; [done|]. constructor; try done.
  - by rewrite Hobj.
  - exists x. split; [done|]. by exists bytes, k.
Qed.

Lemma valid_ref_store m hs h o ob r :
  memory_ok m → live_in m h o → valid_ref m hs r → valid_ref (store_object o ob m) hs r.
Proof.
  intros Hm (b0 & k0 & Hl0) [->|[Hlit|(x & Hx & b & k & Hl)]]; [by left|right; left|right; right].
  - eapply literal_keeps; [|exact Hlit]. by eapply store_object_statics.
  - exists x. split; [done|]. exists b, k. by apply live_store_object.
Qed.

Lemma valid_ref_allocated w w' hs ly heap t n z o r :
  allocated w w' ly heap t n z o → valid_ref (w_memory w) hs r → held w ly heap r → valid_ref (w_memory w') hs r.
Proof.
  intros Hal [->|[Hlit|(x & Hx & b & k & Hl)]] Hh; [by left|right; left; by eapply literal_keeps; [apply Hal|]|].
  right. right. exists x. split; [done|]. exists b, k. apply (al_kept _ _ _ _ _ _ _ _ Hal x r b k Hl).
  intros ->. assert (live_in (w_memory w) (w_active w) r) as Hlive by by exists b, k. apply reach_root; auto.
Qed.

(** The new array [o] with payload [p], while the old one at [values] is still there and
    [extra] may still be stored. *)
Record growing (w0 w : world) (hs : list N) (ly : layout) (o t : N) (p : list byte) (values : N) (obv : object) (extra : N) : Prop := {
  gw_steps : steps hs w0 w;
  gw_world : world_ok w hs ly;
  gw_object : ∃ word, m_objects (w_memory w) !! o = Some (mk_object t word p);
  gw_live : live_in (w_memory w) (w_active w) o;
  gw_old : values ≠ o ∧ m_objects (w_memory w) !! values = Some obv ∧ ∃ x, x ∈ hs ∧ live_in (w_memory w) x values;
  gw_extra : valid_ref (w_memory w) hs extra;
  gw_rest : w_words w = w_words w0 ∧ w_active w = w_active w0;
  gw_bound : sizeof_header + length_N p ≤ u64_max;
}.

Lemma growing_store w0 w hs ly o t p values obv extra d p' word :
  growing w0 w hs ly o t p values obv extra → m_objects (w_memory w) !! o = Some (mk_object t word p) →
  descriptor t = Some d → t ≠ string_literal_type → td_kind d = TYPE_KIND_ARRAY →
  td_payload_size d + read_word p' 0 * td_element_size d ≤ length_N p' → length_N p' = length_N p →
  (∀ i k, i < read_word p' 0 → k ∈ element_slots d →
     valid_ref (w_memory w) hs (read_word p' (td_payload_size d + i * td_element_size d + k))) →
  growing w0 (with_memory (store_object o (mk_object t word p') (w_memory w)) w) hs ly o t p' values obv extra.
Proof.
  intros [G1 G2 G3 G4 (G5 & G6 & x & Hx & Hlx) G7 G8 G9] Hob Hd Hnl Hk Hfit Hlen Hrefs.
  assert (shaped d p') as Hsh by (split; [lia|]; intros _; rewrite <-Hlen in G9; lia).
  destruct (array_traceable o t word d p' Hd Hnl Hk Hsh) as [Htr Hiff].
  destruct (write_object_ok w hs ly o _ p' G2 Hob G4 Hlen Htr) as [Hs Hw'].
  { intros r (i & k & Hi & Hk' & ->)%Hiff. by apply Hrefs. }
  constructor.
  - by eapply steps_trans.
  - exact Hw'.
  - exists word. simpl. by rewrite lookup_insert_eq.
  - destruct G4 as (b & k & Hl). exists b, k. by apply live_store_object.
  - split; [done|]. simpl. rewrite lookup_insert_ne by done. split; [done|]. exists x. split; [done|].
    destruct Hlx as (b & k & Hl). exists b, k. by apply live_store_object.
  - by eapply valid_ref_store; [apply (wd_memory _ _ _ G2)|..].
  - done.
  - by rewrite Hlen.
Qed.

(** The value that is appended fits the elements of the array. *)
Definition fits (m : memory) (hs : list N) (d : type_descriptor) (value : appended) : Prop :=
  match value with
  | append_bytes bytes => element_slots d = [] ∧ length_N bytes = td_element_size d
  | append_ref r => valid_ref m hs r ∧ r ≤ u64_max ∧ element_slots d = [0] ∧ td_element_size d = 8
  end.

Definition appended_bytes (value : appended) : list byte :=
  match value with append_bytes bytes => bytes | append_ref r => le_split 8 r end.

Definition elements (d : type_descriptor) (n : N) (p : list byte) : list byte :=
  take (N.to_nat (n * td_element_size d)) (drop (N.to_nat (td_payload_size d)) p).

(** Writing the last element leaves the others. *)
Lemma elements_splice d n p bytes :
  td_payload_size d + (n + 1) * td_element_size d ≤ length_N p → length_N bytes = td_element_size d →
  elements d (n + 1) (splice p (td_payload_size d + n * td_element_size d) bytes) = elements d n p ++ bytes.
Proof.
  intros Hlen Hb. unfold elements. set (q := splice _ _ _). set (a := N.to_nat (td_payload_size d)).
  replace (N.to_nat ((n + 1) * td_element_size d)) with (N.to_nat (n * td_element_size d) + length bytes)%nat
    by (unfold length_N in Hb; lia).
  rewrite <-(take_drop (N.to_nat (n * td_element_size d)) (drop a q)) at 1.
  assert (take (N.to_nat (n * td_element_size d)) (drop a q) = take (N.to_nat (n * td_element_size d)) (drop a p)) as Hold.
  { rewrite !take_drop_commute. f_equal. apply splice_before; unfold a, length_N in *; lia. }
  rewrite take_app_ge; [|rewrite length_take; lia]. rewrite Hold. f_equal.
  assert (length (take (N.to_nat (n * td_element_size d)) (drop a p)) = N.to_nat (n * td_element_size d)) as ->
    by (rewrite length_take, length_drop; unfold a, length_N in *; lia).
  rewrite drop_drop. replace (a + N.to_nat (n * td_element_size d))%nat with (N.to_nat (td_payload_size d + n * td_element_size d))
    by (unfold a; lia).
  replace (N.to_nat (n * td_element_size d) + length bytes - N.to_nat (n * td_element_size d))%nat with (length bytes) by lia.
  apply splice_inside. unfold length_N in *. lia.
Qed.

Lemma write_word_splice p offset v : write_word p offset v = splice p offset (le_split 8 v).
Proof. unfold write_word, splice. by rewrite length_le_split. Qed.

(** The stages of [append_array], for an array that is rooted. *)
Section stages.
Context (w : world) (hs : list N) (ly : layout) (values t : N) (d : type_descriptor) (n : N) (obv : object) (extra : N).
Context (Har : array_at (w_memory w) hs values t d n obv).
Let psize := td_payload_size d.
Let esize := td_element_size d.

Lemma append_allocate_ok heap :
  world_ok w hs ly → w_states w !! w_active w = Some heap → held w ly heap values →
  valid_ref (w_memory w) hs extra → held w ly heap extra →
  safe (neri_rt_v1_gc_alloc t (psize + (n + 1) * esize) (td_payload_alignment d) w) (λ '(o, w1),
    growing w w1 hs ly o t (zeros (psize + (n + 1) * esize)) values obv extra).
Proof.
  intros Hw Hheap Hheld Hextra Hheld2. destruct (ar_type _ _ _ _ _ _ _ Har) as (Ht & Htz & Hnl).
  pose proof (ar_descriptor _ _ _ _ _ _ _ Har) as Hd.
  assert (type_contract t true) as Hc by (right; split_and!; [by rewrite Hd; eexists|done|by left]).
  set (total := psize + (n + 1) * esize).
  pose proof (allocate_managed_ok w hs ly heap t total (td_payload_alignment d) true Hw Hheap Hc) as Hsafe.
  unfold neri_rt_v1_gc_alloc. destruct (allocate_managed _ _ _ _ w) as [[o w1]|e] eqn:Hr.
  2: { destruct Hsafe as [(? & ? & _)|(c & msg & Hp)]; [done|]. injection Hp as ->. apply safe_panic. }
  pose proof (safe_returned _ _ _ Hsafe eq_refl) as [Hw1 Hal]. clear Hsafe. apply safe_Ok.
  destruct (allocate_managed_rest _ _ _ _ _ _ _ Hr) as (R1 & _ & R3).
  destruct (array_at_allocated _ _ _ _ _ _ _ _ _ _ _ _ _ _ Hal Har Hheld) as [Hne Har1].
  destruct (al_object _ _ _ _ _ _ _ _ Hal) as ([t' word p0] & Hob & Hty & Hl0 & Hz). simpl in Hty, Hl0, Hz. subst t'.
  specialize (Hz eq_refl). subst p0. apply allocate_managed_bound in Hr as Hbound. constructor; try done.
  - apply (steps_run (op_alloc t total (td_payload_alignment d))); [done| |done]. simpl. unfold neri_rt_v1_gc_alloc. by rewrite Hr.
  - by exists word.
  - rewrite R3. eexists _, _. apply Hal.
  - split_and!; [done|apply Har1|apply Har1].
  - by eapply valid_ref_allocated.
  - by rewrite Hl0.
Qed.

Lemma append_length_ok w1 o :
  growing w w1 hs ly o t (zeros (psize + (n + 1) * esize)) values obv extra →
  ∃ w2, store_length o (n + 1) w1 = Ok w2 ∧ growing w w2 hs ly o t (sized_payload d n) values obv extra.
Proof.
  intros G. destruct (ar_kind _ _ _ _ _ _ _ Har) as (Hk & He & Hp8). destruct (ar_length _ _ _ _ _ _ _ Har) as [Hlen Hn].
  destruct (gw_object _ _ _ _ _ _ _ _ _ _ G) as [word Hob].
  assert (length_N (zeros (psize + (n + 1) * esize)) = psize + (n + 1) * esize) as Hlz
    by (unfold zeros, length_N; rewrite length_replicate; lia).
  pose proof (growing_store _ _ _ _ _ _ _ _ _ _ d (sized_payload d n) word G Hob (ar_descriptor _ _ _ _ _ _ _ Har)) as G2.
  eexists. split.
  - unfold store_length, load_object. rewrite Hob, load_Some, bind_Ok. simpl ob_payload.
    rewrite Hlz, (proj2 (N.leb_le _ _)), assert_true; [done|]. unfold psize. lia.
  - apply G2; [apply Har|done| |by rewrite length_sized, Hlz|].
    + rewrite sized_length, length_sized by done. done.
    + intros i k _ _. rewrite sized_word by (done || lia). by left.
Qed.

Lemma append_copy_ok w2 o :
  growing w w2 hs ly o t (sized_payload d n) values obv extra →
  ∃ w3, (if n * esize =? 0 then Ok w2
         else bytes ← read_payload (w_memory w2) values psize (n * esize); write_payload o psize bytes w2) = Ok w3 ∧
    growing w w3 hs ly o t (copied_payload d n (ob_payload obv)) values obv extra.
Proof.
  intros G. destruct (ar_kind _ _ _ _ _ _ _ Har) as (Hk & He & Hp8). destruct (ar_length _ _ _ _ _ _ _ Har) as [Hlen Hn].
  pose proof (ar_room _ _ _ _ _ _ _ Har) as Hroom. destruct (ar_type _ _ _ _ _ _ _ Har) as (Ht & Htz & Hnl).
  pose proof (ar_descriptor _ _ _ _ _ _ _ Har) as Hd.
  destruct (gw_object _ _ _ _ _ _ _ _ _ _ G) as [word Hob]. destruct (gw_old _ _ _ _ _ _ _ _ _ _ G) as (Hne & Hobv & x & Hx & Hlx).
  pose proof (length_copied d n Hp8 _ Hn Hroom) as Hlc. pose proof (copied_length d n Hp8 _ Hn Hroom) as Hcl.
  pose proof (growing_store _ _ _ _ _ _ _ _ _ _ d (copied_payload d n (ob_payload obv)) word G Hob Hd Hnl Hk) as G3.
  assert (growing w (with_memory (store_object o (mk_object t word (copied_payload d n (ob_payload obv))) (w_memory w2)) w2)
    hs ly o t (copied_payload d n (ob_payload obv)) values obv extra) as G3'.
  { apply G3; [|by rewrite Hlc, length_sized|].
    - rewrite Hcl, Hlc. done.
    - intros i k Hi Hk'. rewrite Hcl in Hi. pose proof (element_inside t d k Hd Hk') as Hin.
      destruct (copied_word d n Hp8 _ Hn Hroom (td_payload_size d + i * td_element_size d + k)) as [Hold Hnew]; [lia|].
      destruct (decide (i < n)) as [Hlt|Hge].
      + rewrite Hold by nia. destruct (live_object_ok w2 hs ly x values (gw_world _ _ _ _ _ _ _ _ _ _ G) Hx Hlx) as (ob' & Hob' & _ & Hr).
        rewrite Hobv in Hob'. injection Hob' as <-. apply Hr. destruct obv as [t' word' pv]. simpl in *. subst t'.
        apply (array_traceable values t word' d pv Hd Hnl Hk); [|exists i, k; by rewrite <-Hlen].
        split; [lia|]. intros _. rewrite <-Hlen. split; [done|]. pose proof (gw_bound _ _ _ _ _ _ _ _ _ _ G) as Hb.
        rewrite length_sized in Hb by done. nia.
      + rewrite Hnew; [by left|]. assert (i = n) as -> by lia. lia. }
  unfold copied_payload in G3' at 1 2 |- * . destruct (N.eqb_spec (n * td_element_size d) 0) as [Hz|Hz]; fold esize in Hz.
  { exists w2. rewrite (proj2 (N.eqb_eq _ _) Hz). split; [done|]. exact G. }
  rewrite (proj2 (N.eqb_neq _ _) Hz). rewrite (read_payload_ok _ _ obv) by done. rewrite bind_Ok.
  eexists. split; [|exact G3']. unfold write_payload, load_object. rewrite Hob, load_Some, bind_Ok. simpl ob_payload.
  rewrite (proj2 (N.leb_le _ _)), assert_true; [done|]. rewrite length_sized by done.
  unfold psize, esize. rewrite (length_elements d n Hp8 _ Hn Hroom). lia.
Qed.
(** A payload with the new element: the array has one element more. *)
Lemma grown_array w4 o bytes :
  growing w w4 hs ly o t (splice (copied_payload d n (ob_payload obv)) (psize + n * esize) bytes) values obv extra →
  length_N bytes = esize → n + 1 ≤ int64_max_N →
  ∃ ob, array_at (w_memory w4) hs o t d (n + 1) ob ∧ elements d (n + 1) (ob_payload ob) = elements d n (ob_payload obv) ++ bytes.
Proof.
  intros G Hb Hn1. destruct (ar_kind _ _ _ _ _ _ _ Har) as (Hk & He & Hp8). destruct (ar_length _ _ _ _ _ _ _ Har) as [Hlen Hn].
  pose proof (ar_room _ _ _ _ _ _ _ Har) as Hroom. destruct (ar_type _ _ _ _ _ _ _ Har) as (Ht & Htz & Hnl).
  pose proof (length_copied d n Hp8 _ Hn Hroom) as Hlc. destruct (gw_object _ _ _ _ _ _ _ _ _ _ G) as [word Hob].
  assert (psize + n * esize + length_N bytes ≤ length_N (copied_payload d n (ob_payload obv))) as Hfit
    by (rewrite Hlc, Hb; unfold psize, esize; lia).
  eexists. split; [constructor; [exact Hob|..]; simpl|].
  - done.
  - apply Har.
  - done.
  - split; [|done]. rewrite <-(copied_length d n Hp8 _ Hn Hroom). unfold read_word. change (N.to_nat 0) with 0%nat. rewrite !drop_0. f_equal.
    symmetry. apply splice_before; [unfold psize; lia|]. lia.
  - rewrite length_splice by done. by rewrite Hlc.
  - exists (w_active w4). destruct (world_current _ _ _ (gw_world _ _ _ _ _ _ _ _ _ _ G)) as (anc & heap & -> & _).
    split; [set_solver|]. apply G.
  - simpl. unfold psize, esize in *. rewrite elements_splice by (done || by rewrite Hlc). f_equal.
    unfold elements. apply (copied_elements d n Hp8 _ Hn Hroom).
Qed.

Lemma append_bytes_ok w3 o bytes :
  growing w w3 hs ly o t (copied_payload d n (ob_payload obv)) values obv extra →
  element_slots d = [] → length_N bytes = esize →
  ∃ w4, write_payload o (psize + n * esize) bytes w3 = Ok w4 ∧
    growing w w4 hs ly o t (splice (copied_payload d n (ob_payload obv)) (psize + n * esize) bytes) values obv extra.
Proof.
  intros G Hno Hb. destruct (ar_kind _ _ _ _ _ _ _ Har) as (Hk & He & Hp8). destruct (ar_length _ _ _ _ _ _ _ Har) as [Hlen Hn].
  pose proof (ar_room _ _ _ _ _ _ _ Har) as Hroom. destruct (ar_type _ _ _ _ _ _ _ Har) as (Ht & Htz & Hnl).
  pose proof (length_copied d n Hp8 _ Hn Hroom) as Hlc. destruct (gw_object _ _ _ _ _ _ _ _ _ _ G) as [word Hob].
  assert (psize + n * esize + length_N bytes ≤ length_N (copied_payload d n (ob_payload obv))) as Hfit
    by (rewrite Hlc, Hb; unfold psize, esize; lia).
  pose proof (growing_store _ _ _ _ _ _ _ _ _ _ d (splice (copied_payload d n (ob_payload obv)) (psize + n * esize) bytes)
    word G Hob (ar_descriptor _ _ _ _ _ _ _ Har) Hnl Hk) as G4.
  eexists. split; [|apply G4].
  - unfold write_payload, load_object. rewrite Hob, load_Some, bind_Ok. simpl ob_payload.
    by rewrite (proj2 (N.leb_le _ _)), assert_true by done.
  - rewrite length_splice by done. rewrite Hlc.
    assert (read_word (splice (copied_payload d n (ob_payload obv)) (psize + n * esize) bytes) 0 = n + 1) as ->; [|done].
    rewrite <-(copied_length d n Hp8 _ Hn Hroom). unfold read_word. change (N.to_nat 0) with 0%nat. rewrite !drop_0. f_equal.
    apply splice_before; [unfold psize; lia|lia].
  - by rewrite length_splice.
  - intros i k _. rewrite Hno. by intros ?%elem_of_nil.
Qed.

Lemma append_ref_ok w3 o :
  growing w w3 hs ly o t (copied_payload d n (ob_payload obv)) values obv extra →
  element_slots d = [0] → esize = 8 → extra ≤ u64_max →
  safe (neri_rt_v1_gc_store_ref o (o + sizeof_header + psize + n * esize) extra w3) (λ w4,
    growing w w4 hs ly o t (splice (copied_payload d n (ob_payload obv)) (psize + n * esize) (le_split 8 extra)) values obv extra).
Proof.
  intros G Hone H8' Hmax. destruct (ar_kind _ _ _ _ _ _ _ Har) as (Hk & He & Hp8). destruct (ar_length _ _ _ _ _ _ _ Har) as [Hlen Hn].
  pose proof (ar_room _ _ _ _ _ _ _ Har) as Hroom. destruct (ar_type _ _ _ _ _ _ _ Har) as (Ht & Htz & Hnl).
  pose proof (length_copied d n Hp8 _ Hn Hroom) as Hlc. pose proof (copied_length d n Hp8 _ Hn Hroom) as Hcl.
  destruct (gw_object _ _ _ _ _ _ _ _ _ _ G) as [word Hob]. pose proof (gw_world _ _ _ _ _ _ _ _ _ _ G) as Hw3.
  set (slot := o + sizeof_header + psize + n * esize).
  assert (store_contract w3 hs o slot extra) as Hc.
  { split_and!; [|apply G|done|].
    - right. right. exists (w_active w3). destruct (world_current _ _ _ Hw3) as (anc & heap & -> & _). split; [set_solver|]. apply G.
    - intros ob _ Hob'. rewrite Hob in Hob'. injection Hob' as <-.
      apply (array_slots o (mk_object t word (copied_payload d n (ob_payload obv))) d (ar_descriptor _ _ _ _ _ _ _ Har) Hk).
      + pose proof (gw_bound _ _ _ _ _ _ _ _ _ _ G) as Hb. rewrite Hlc in Hb.
        split; simpl; [rewrite Hlc; lia|]. intros _. rewrite Hcl, Hlc. split; [done|lia].
      + exists n, 0. simpl. rewrite Hcl, Hone. split_and!; [lia|set_solver|]. unfold slot, psize, esize. lia. }
  pose proof (gc_store_ref_ok w3 hs ly o slot extra Hw3 Hc) as Hsafe.
  destruct (neri_rt_v1_gc_store_ref o slot extra w3) as [w4|e] eqn:Hr.
  2: { destruct Hsafe as [(? & ? & _)|(c & msg & Hp)]; [done|]. injection Hp as ->. apply safe_panic. }
  pose proof (safe_returned _ _ _ Hsafe eq_refl) as (Hw4 & _ & ob & Hob' & Heq). apply safe_Ok.
  rewrite Hob in Hob'. injection Hob' as <-. simpl in Heq.
  assert (slot_offset_of o slot = psize + n * esize) as Hoff by (unfold slot_offset_of, slot; lia).
  rewrite Hoff, write_word_splice in Heq.
  destruct (gw_old _ _ _ _ _ _ _ _ _ _ G) as (Hne & Hobv & x & Hx & Hlx). constructor.
  - eapply steps_trans; [apply G|]. by apply (steps_run (op_store_ref o slot extra)).
  - done.
  - exists word. subst w4. simpl. by rewrite lookup_insert_eq.
  - destruct (gw_live _ _ _ _ _ _ _ _ _ _ G) as (b & k & Hl). exists b, k. subst w4. simpl. by apply live_store_object.
  - subst w4. simpl. rewrite lookup_insert_ne by done. split_and!; [done|done|]. exists x. split; [done|].
    destruct Hlx as (b & k & Hl). exists b, k. by apply live_store_object.
  - subst w4. simpl. eapply valid_ref_store; [apply (wd_memory _ _ _ Hw3)|apply G|apply G].
  - subst w4. apply G.
  - rewrite length_splice; [apply (gw_bound _ _ _ _ _ _ _ _ _ _ G)|].
    rewrite Hlc. unfold length_N. rewrite length_le_split. unfold psize, esize in *. lia.
Qed.
End stages.

(** ** The whole function *)

Lemma append_array_ok w hs ly values value t d n obv :
  world_ok w hs ly → array_at (w_memory w) hs values t d n obv → fits (w_memory w) hs d value →
  safe (append_array values value w) (λ '(o, w'), steps hs w w' ∧ (∃ ly', world_ok w' hs ly') ∧
    ∃ ob, array_at (w_memory w') hs o t d (n + 1) ob ∧
      elements d (n + 1) (ob_payload ob) = elements d n (ob_payload obv) ++ appended_bytes value).
Proof.
  intros Hw Har Hfit. unfold append_array.
  assert (valid_ref (w_memory w) hs values) as Hvalues by (destruct (ar_live _ _ _ _ _ _ _ Har) as (x & Hx & Hl); right; right; eauto).
  eapply safe_bind; [by apply (inspect_array_ok w hs ly)|]. intros v (t' & d' & n' & ob' & Har' & ->).
  destruct (array_at_same _ _ _ _ _ _ _ _ _ _ _ _ Har Har') as (-> & -> & ->).
  { pose proof (ar_object _ _ _ _ _ _ _ Har) as E1. pose proof (ar_object _ _ _ _ _ _ _ Har') as E2. congruence. }
  cbn [av_descriptor av_length av_type]. destruct (_ || _) eqn:Hg; [apply safe_memory|].
  apply orb_false_iff in Hg as [Hmax%N.eqb_neq _]. destruct (ar_length _ _ _ _ _ _ _ Har) as [_ Hn].
  assert (valid_ref (w_memory w) hs (appended_root value)) as Hextra by (destruct value; [by left|by destruct Hfit]).
  eapply safe_bind; [apply (enter_roots_ok [values; appended_root value] w hs ly Hw)|].
  { apply Forall_cons_2; [done|]. apply Forall_cons_2; [done|apply Forall_nil_2]. }
  intros [[frame slots] w1] Hro. pose proof (ro_world _ _ _ _ _ _ _ Hro) as Hw1. set (ly1 := with_ly_frames _ _ _) in Hw1.
  destruct (world_current _ _ _ Hw1) as (anc1 & heap1 & _ & Hheap1 & _).
  assert (∀ r, r ∈ [values; appended_root value] → held w1 ly1 heap1 r) as Hheld
    by (intros r Hr _; by apply (ro_held _ _ _ _ _ _ _ Hro heap1 _ Hheap1)).
  rewrite <-(ro_memory _ _ _ _ _ _ _ Hro) in Har, Hextra.
  eapply safe_bind; [apply (append_allocate_ok w1 hs ly1 values t d n obv (appended_root value) Har heap1); try done;
    apply Hheld; set_solver|]. intros [o w2] G1.
  pose proof (root_at_ok _ _ _ _ _ _ _ 0 values Hro eq_refl) as E1. change (N.of_nat 0) with 0 in E1.
  pose proof (root_at_ok _ _ _ _ _ _ _ 1 (appended_root value) Hro eq_refl) as E2. change (N.of_nat 1) with 1 in E2.
  unfold root_at in E1, E2 |- *. rewrite (proj1 (gw_rest _ _ _ _ _ _ _ _ _ _ G1)), E1, bind_Ok.
  destruct (gw_old _ _ _ _ _ _ _ _ _ _ G1) as (_ & Hobv & x & Hx & Hlx).
  eapply safe_bind; [apply (inspect_array_ok w2 hs ly1); [apply G1|right; right; eauto]|]. intros v (t2 & d2 & n2 & ob2 & Har2 & ->).
  destruct (array_at_same _ _ _ _ _ _ _ _ _ _ _ _ Har Har2) as (-> & -> & ->).
  { pose proof (ar_object _ _ _ _ _ _ _ Har2) as E. congruence. }
  cbn [av_descriptor av_length].
  destruct (append_length_ok w1 hs ly1 values t d n obv _ Har w2 o G1) as (w3 & -> & G2). rewrite bind_Ok.
  destruct (append_copy_ok w1 hs ly1 values t d n obv _ Har w3 o G2) as (w4 & -> & G3). rewrite bind_Ok.
  eapply (safe_bind _ _ (λ w5, ∃ bytes, bytes = appended_bytes value ∧ length_N bytes = td_element_size d ∧
    growing w1 w5 hs ly1 o t (splice (copied_payload d n (ob_payload obv)) (td_payload_size d + n * td_element_size d) bytes)
      values obv (appended_root value))).
  - destruct value as [bytes|r]; simpl in Hfit.
    + destruct Hfit as [Hno Hb]. rewrite Hb, (proj2 (N.leb_le _ _)), assert_true, bind_Ok by lia.
      rewrite take_ge by (unfold length_N in Hb; lia).
      destruct (append_bytes_ok w1 hs ly1 values t d n obv _ Har w4 o bytes G3 Hno Hb) as (w5 & -> & G4).
      apply safe_Ok. by exists bytes.
    + destruct Hfit as (_ & Hr & Hone & H8'). rewrite (proj1 (gw_rest _ _ _ _ _ _ _ _ _ _ G3)). simpl appended_root in E2. rewrite E2, bind_Ok.
      eapply safe_weaken; [apply (append_ref_ok w1 hs ly1 values t d n obv r Har w4 o G3 Hone H8' Hr)|].
      intros w5 G4. exists (le_split 8 r). split_and!; [done|by rewrite length_N_le_split, H8'|exact G4].
  - intros w5 (bytes & -> & Hb & G4).
    destruct (grown_array w1 hs ly1 values t d n obv _ Har w5 o _ G4 Hb ltac:(lia)) as (ob & Hnew & Helems).
    eapply safe_bind; [apply (leave_roots_ok w5 hs ly1 frame); apply G4|]. intros w6 (Hs6 & Hm6 & _ & ly6 & Hw6). apply safe_Ok.
    split_and!.
    + eapply steps_trans; [apply Hro|]. eapply steps_trans; [apply G4|done].
    + eauto.
    + exists ob. by rewrite Hm6.
Qed.
End append.
