(* ===== verification/HostCalls.v ===== *)
(** * Every call of the standard library's host functions

    The functions of Strings.v and HostApi.v as one family of calls: whatever a program
    passes, the call returns or panics, its changes of state are operations of Isolation.v, the
    invariant holds afterwards, and a reference it returns is null or one the program may
    hold. *)

From S2P Require Import Prelude Chains Reader Utf8 Storage Slabs Memory StorageSafety Sweep.
From S2P Require Import Heap Text TextSpec Marking Collector HeapInvariant.
From S2P Require Import Collection RuntimeApi Strings HostApi Payloads ApiSafety AllocationSafety.
From S2P Require Import NativeSafety RegionSafety Isolation StringSafety StringSpec HostSafety.

Local Open Scope string_scope.
Local Open Scope list_scope.
Local Open Scope N_scope.

Section calls.
Context `{Program} `{!LawfulTrace} `{RuntimeHost} `{!LawfulRuntimeHost} `{HostMemory} `{!LawfulHost}.
Context `{LocalStorage} `{!LawfulLocals} `{!LawfulStrings} `{!LawfulArrays} `{HostSystem}.

(** The runtime went from [w] to [w'] by its own operations and is consistent. *)
Definition goes (hs : list N) (w w' : world) : Prop := steps hs w w' ∧ ∃ ly, world_ok w' hs ly.

Lemma goes_refl hs w ly : world_ok w hs ly → goes hs w w.
Proof. intros Hw. split; [apply steps_refl|eauto]. Qed.

Lemma goes_trans hs w1 w2 w3 : steps hs w1 w2 → goes hs w2 w3 → goes hs w1 w3.
Proof. intros Hs [Hs' Hw]. split; [by eapply steps_trans|done]. Qed.

Lemma made_goes w w' hs o bs : made w w' hs o bs → goes hs w w' ∧ valid_ref (w_memory w') hs o.
Proof. intros Hm. split; [split; apply Hm|]. eapply string_at_valid. apply Hm. Qed.

(** ** Building blocks *)

Lemma set_error_ok w hs ly message :
  world_ok w hs ly → ∃ w', set_error message w = Ok w' ∧ steps hs w w' ∧ world_ok w' hs ly ∧ w_memory w' = w_memory w.
Proof.
  intros Hw. destruct (world_current _ _ _ Hw) as (anc & heap & Hhs & Hheap & Hcur & _).
  unfold set_error. rewrite Hcur, bind_Ok. eexists. split; [reflexivity|]. split_and!; [| |done].
  - apply (steps_run (op_set_host_error message)); [done| |done]. simpl. by rewrite Hcur, bind_Ok.
  - rewrite Hhs in Hw |- *. eapply world_ok_scalars; try done. simpl. destruct (wd_active_phase _ _ _ Hw heap Hheap); tauto.
Qed.

(** An error is set and null is returned. *)
Lemma refuse_ok {A} (x : A) w hs ly message (P : A → world → Prop) :
  world_ok w hs ly → (∀ w', goes hs w w' → P x w') →
  safe (w ← set_error message w; Ok (x, w)) (λ '(x, w'), P x w').
Proof.
  intros Hw HP. destruct (set_error_ok w hs ly message Hw) as (w' & -> & Hs & Hw' & _). rewrite bind_Ok. apply safe_Ok.
  apply HP. split; [done|eauto].
Qed.

Lemma host_string_ok w hs ly value description :
  world_ok w hs ly → string_contract w hs value →
  safe (host_string value description w) (λ '(_, w'), steps hs w w' ∧ world_ok w' hs ly ∧ w_memory w' = w_memory w).
Proof.
  intros Hw Hv. unfold host_string. eapply safe_bind; [by apply (inspect_string_ok w hs ly)|].
  intros v (_ & bs & Hbs & ->). rewrite (view_bytes_ok w hs value bs), bind_Ok by done.
  destruct (string_has_nul bs).
  - destruct (set_error_ok w hs ly (description +:+ " contains a null byte.") Hw) as (w' & -> & Hs & Hw' & Hm). by apply safe_Ok.
  - apply safe_Ok. split_and!; [apply steps_refl|done|done].
Qed.

Lemma create_native_ok w hs ly bs :
  world_ok w hs ly → safe (create_utf8_string (native_source bs) w) (λ '(o, w'), well_formed_utf8 bs ∧ made w w' hs o bs).
Proof.
  intros Hw. destruct (world_current _ _ _ Hw) as (anc & heap & _ & Hheap & _).
  eapply safe_weaken; [apply (create_utf8_string_ok w hs ly heap (native_source bs) bs); try done|].
  intros [o w'] (Hutf & Hn & Hb). split; [done|]. eapply built_made; [apply steps_refl|done|exact Hb|done].
Qed.

(** Outside text becomes a string if it is well formed, and an error otherwise. *)
Lemma host_text_ok w hs ly bs message :
  world_ok w hs ly →
  safe (host_text bs message w) (λ '(o, w'), goes hs w w' ∧
    (o = 0 ∧ ¬ well_formed_utf8 bs ∨ well_formed_utf8 bs ∧ string_at (w_memory w') hs o bs)).
Proof.
  intros Hw. unfold host_text. destruct (is_strict_utf8_spec bs) as (valid & -> & Hvalid). rewrite bind_Ok. destruct valid; cbn [negb].
  - destruct (set_error_ok w hs ly "" Hw) as (w1 & -> & Hs & Hw1 & _). rewrite bind_Ok.
    eapply safe_weaken; [by apply (create_native_ok w1 hs ly)|]. intros [o w'] [Hutf Hm].
    split; [eapply goes_trans; [exact Hs|by eapply made_goes]|]. right. split; [done|]. apply Hm.
  - apply (refuse_ok 0 w hs ly message (λ o w', goes hs w w' ∧ (o = 0 ∧ ¬ well_formed_utf8 bs ∨ _))); [done|].
    intros w' Hg. split; [done|]. left. split; [done|]. intros Hutf. by apply Hvalid in Hutf.
Qed.

Definition null_or_valid (hs : list N) (w : world) (o : N) : Prop := o = 0 ∨ valid_ref (w_memory w) hs o.

(** What every call establishes for the reference it returns. *)
Definition answered (hs : list N) (w : world) (r : N * world) : Prop := goes hs w r.2 ∧ null_or_valid hs r.2 r.1.

Lemma host_text_answered w hs ly bs message : world_ok w hs ly → safe (host_text bs message w) (answered hs w).
Proof.
  intros Hw. eapply safe_weaken; [by apply (host_text_ok w hs ly)|]. intros [o w'] [Hg [[-> _]|[_ Hs]]]; (split; [done|]).
  - by left.
  - right. by eapply string_at_valid.
Qed.

Lemma answered_after hs w w1 (m : result (N * world)) :
  steps hs w w1 → safe m (answered hs w1) → safe m (answered hs w).
Proof. intros Hs Hm. eapply safe_weaken; [exact Hm|]. intros r [Hg Hv]. split; [by eapply goes_trans|done]. Qed.

Lemma refuse_answered w hs ly message : world_ok w hs ly → safe (w ← set_error message w; Ok (0, w)) (answered hs w).
Proof.
  intros Hw. eapply safe_weaken; [apply (refuse_ok 0 w hs ly message (λ o w', answered hs w (o, w'))); [done|]|by intros []].
  intros w' Hg. split; [done|by left].
Qed.

Lemma null_answered w hs ly : world_ok w hs ly → safe (Ok (0, w)) (answered hs w).
Proof. intros Hw. apply safe_Ok. split; [by eapply goes_refl|by left]. Qed.

Lemma made_answered w hs o w' bs : made w w' hs o bs → answered hs w (o, w').
Proof. intros Hm. destruct (made_goes _ _ _ _ _ Hm). split; [done|by right]. Qed.

Lemma string_contract_memory w w' hs o : w_memory w' = w_memory w → string_contract w hs o → string_contract w' hs o.
Proof. unfold string_contract. by intros ->. Qed.

(** A path is taken over, then the continuation answers. *)
Lemma with_path_ok w hs ly path description (k : option (list byte) → world → result (N * world)) :
  world_ok w hs ly → string_contract w hs path →
  (∀ p w', steps hs w w' → world_ok w' hs ly → w_memory w' = w_memory w → safe (k p w') (answered hs w')) →
  safe (require_initialized w;; '(p, w) ← host_string path description w; k p w) (answered hs w).
Proof.
  intros Hw Hp Hk. destruct (world_current _ _ _ Hw) as (anc & heap & _ & Hheap & _).
  eapply safe_bind; [by eapply require_initialized_ok|]. intros [] _.
  eapply safe_bind; [by apply (host_string_ok w hs ly)|]. intros [p w1] (Hs & Hw1 & Hm).
  eapply answered_after; [exact Hs|]. by apply Hk.
Qed.

(** ** Functions that return a reference *)

Lemma read_text_ok w hs ly path :
  world_ok w hs ly → string_contract w hs path → safe (neri_rt_v1_host_read_text path w) (answered hs w).
Proof.
  intros Hw Hp. unfold neri_rt_v1_host_read_text. eapply with_path_ok; [done|done|].
  intros p w1 _ Hw1 Hm. destruct p as [p|]; [|by eapply null_answered].
  destruct (open_file w1 p) as [|size contents]; [by eapply refuse_answered|].
  destruct (_ || _)%Z; [by eapply refuse_answered|].
  destruct (if (size =? 0)%Z then Some [] else contents) as [bytes|]; [by eapply host_text_answered|by eapply refuse_answered].
Qed.

Lemma path_join_ok w hs ly l r :
  world_ok w hs ly → string_contract w hs l → string_contract w hs r → safe (neri_rt_v1_host_path_join l r w) (answered hs w).
Proof.
  intros Hw Hl Hr. unfold neri_rt_v1_host_path_join. eapply with_path_ok; [done|done|].
  intros p w1 _ Hw1 Hm. destruct p as [p|]; [|by eapply null_answered].
  eapply safe_bind; [apply (host_string_ok w1 hs ly); [done|by eapply string_contract_memory]|]. intros [q w2] (Hs2 & Hw2 & _).
  eapply answered_after; [exact Hs2|]. destruct q as [q|]; [by eapply host_text_answered|by eapply null_answered].
Qed.

Lemma path_absolute_ok w hs ly path :
  world_ok w hs ly → string_contract w hs path → safe (neri_rt_v1_host_path_absolute path w) (answered hs w).
Proof.
  intros Hw Hp. unfold neri_rt_v1_host_path_absolute. eapply with_path_ok; [done|done|].
  intros p w1 _ Hw1 Hm. destruct p as [p|]; [|by eapply null_answered].
  destruct (absolute_path w1 p) as [error|normalized]; [by eapply refuse_answered|].
  destruct (set_error_ok w1 hs ly "" Hw1) as (w2 & -> & Hs2 & Hw2 & _). rewrite bind_Ok.
  eapply answered_after; [exact Hs2|]. eapply safe_weaken; [by apply (create_native_ok w2 hs ly)|].
  intros [o w'] [_ Hmade]. by eapply made_answered.
Qed.

Lemma path_file_name_ok w hs ly path :
  world_ok w hs ly → string_contract w hs path → safe (neri_rt_v1_host_path_file_name path w) (answered hs w).
Proof.
  intros Hw Hp. unfold neri_rt_v1_host_path_file_name. eapply with_path_ok; [done|done|].
  intros p w1 _ Hw1 Hm. destruct p as [p|]; [by eapply host_text_answered|by eapply null_answered].
Qed.

Lemma environment_ok w hs ly name :
  world_ok w hs ly → string_contract w hs name → safe (neri_rt_v1_host_environment name w) (answered hs w).
Proof.
  intros Hw Hp. unfold neri_rt_v1_host_environment. eapply with_path_ok; [done|done|].
  intros p w1 _ Hw1 Hm. destruct p as [p|]; [|by eapply null_answered].
  destruct (environment w1 p); [by eapply host_text_answered|by eapply refuse_answered].
Qed.

Lemma argument_at_ok w hs ly index : world_ok w hs ly → safe (neri_rt_v1_host_argument_at index w) (answered hs w).
Proof.
  intros Hw. destruct (world_current _ _ _ Hw) as (anc & heap & _ & Hheap & Hcur & _). unfold neri_rt_v1_host_argument_at.
  eapply safe_bind; [by eapply require_initialized_ok|]. intros [] _. rewrite Hcur, bind_Ok.
  destruct (_ || _)%Z; [by eapply refuse_answered|by eapply host_text_answered].
Qed.

Lemma error_message_ok w hs ly : world_ok w hs ly → safe (neri_rt_v1_host_error_message w) (answered hs w).
Proof.
  intros Hw. destruct (world_current _ _ _ Hw) as (anc & heap & _ & Hheap & Hcur & _). unfold neri_rt_v1_host_error_message.
  eapply safe_bind; [by eapply require_initialized_ok|]. intros [] _. rewrite Hcur, bind_Ok.
  eapply safe_weaken; [by apply (create_native_ok w hs ly)|]. intros [o w'] [_ Hm]. by eapply made_answered.
Qed.

(** ** Element types *)

Lemma scalar_elements_ok m hs o t d n ob kind size :
  array_at m hs o t d n ob → kind ≠ SCALAR_KIND_NONE →
  ∃ b, scalar_elements d kind size = Ok b ∧ (b = true → element_slots d = [] ∧ td_element_size d = size).
Proof.
  intros Har Hkind. unfold scalar_elements. destruct (N.eqb_spec (td_element_type d) 0) as [|Hz]; [by exists false|].
  destruct (element_type_known t d (ar_descriptor _ _ _ _ _ _ _ Har)) as [|[e He]]; [apply Har|done|].
  rewrite He, load_Some, bind_Ok. eexists. split; [done|]. intros [Hk%N.eqb_eq Hs%N.eqb_eq]%andb_true_iff.
  split; [|done]. apply (scalar_element_slots t d e); [apply Har|done|by rewrite Hk].
Qed.

Lemma string_elements_ok m hs o t d n ob :
  array_at m hs o t d n ob →
  ∃ b, string_elements d = Ok b ∧ (b = true → element_slots d = [0] ∧ td_element_size d = 8).
Proof.
  intros Har. unfold string_elements. destruct (N.eqb_spec (td_element_type d) 0) as [|Hz]; [by exists false|].
  destruct (element_type_known t d (ar_descriptor _ _ _ _ _ _ _ Har)) as [|[e He]]; [apply Har|done|].
  rewrite He, load_Some, bind_Ok. eexists. split; [done|]. intros [Hk%N.eqb_eq Hs%N.eqb_eq]%andb_true_iff.
  split; [|done]. apply (string_element_slots t d e); [apply Har|done|done].
Qed.

Lemma append_answered w hs ly values value t d n obv :
  world_ok w hs ly → array_at (w_memory w) hs values t d n obv → fits (w_memory w) hs d value →
  safe (append_array values value w) (answered hs w).
Proof.
  intros Hw Har Hf. eapply safe_weaken; [by apply (append_array_ok w hs ly values value t d n obv)|].
  intros [o w'] (Hs & Hw' & ob & Har' & _). split; [by split|]. right. right. right. apply (ar_live _ _ _ _ _ _ _ Har').
Qed.

Lemma append_byte_ok w hs ly values value :
  world_ok w hs ly → valid_ref (w_memory w) hs values → safe (neri_rt_v1_host_append_byte values value w) (answered hs w).
Proof.
  intros Hw Hv. unfold neri_rt_v1_host_append_byte. eapply safe_bind; [by apply (inspect_array_ok w hs ly)|].
  intros v (t & d & n & ob & Har & ->). cbn [av_descriptor].
  destruct (scalar_elements_ok _ _ _ _ _ _ _ SCALAR_KIND_BYTE 1 Har) as (b & -> & Hb); [done|]. rewrite bind_Ok.
  destruct b; [|apply safe_contract]. destruct (Hb eq_refl) as [Hno Hs]. by eapply append_answered.
Qed.

Lemma append_int_ok w hs ly values value :
  world_ok w hs ly → valid_ref (w_memory w) hs values → safe (neri_rt_v1_host_append_int values value w) (answered hs w).
Proof.
  intros Hw Hv. unfold neri_rt_v1_host_append_int. eapply safe_bind; [by apply (inspect_array_ok w hs ly)|].
  intros v (t & d & n & ob & Har & ->). cbn [av_descriptor].
  destruct (scalar_elements_ok _ _ _ _ _ _ _ SCALAR_KIND_INT 8 Har) as (b & -> & Hb); [done|]. rewrite bind_Ok.
  destruct b; [|apply safe_contract]. destruct (Hb eq_refl) as [Hno Hs]. eapply append_answered; [done|done|].
  split; [done|]. by rewrite length_N_le_split, Hs.
Qed.

Lemma append_string_ok w hs ly values value :
  world_ok w hs ly → valid_ref (w_memory w) hs values → string_contract w hs value → value ≤ u64_max →
  safe (neri_rt_v1_host_append_string values value w) (answered hs w).
Proof.
  intros Hw Hv Hs Hmax. unfold neri_rt_v1_host_append_string. eapply safe_bind; [by apply (inspect_array_ok w hs ly)|].
  intros v (t & d & n & ob & Har & ->). eapply safe_bind; [by apply (inspect_string_ok w hs ly)|]. intros v _. cbn [av_descriptor].
  destruct (string_elements_ok _ _ _ _ _ _ _ Har) as (b & -> & Hb). rewrite bind_Ok.
  destruct b; [|apply safe_contract]. destruct (Hb eq_refl) as [Hone Hsize]. eapply append_answered; [done|done|].
  split_and!; [apply Hs|done..].
Qed.

(** The bytes of an array, as long as it is held. *)
Lemma read_array_ok w hs o t d n ob :
  array_at (w_memory w) hs o t d n ob → td_element_size d = 1 →
  read_payload (w_memory w) o (td_payload_size d) n = Ok (elements d n (ob_payload ob)).
Proof.
  intros Har H1'. rewrite (read_payload_ok _ _ ob) by (apply Har || (pose proof (ar_room _ _ _ _ _ _ _ Har); rewrite H1' in *; lia)).
  unfold elements. by rewrite H1', N.mul_1_r.
Qed.

Lemma string_from_bytes_ok w hs ly bytes :
  world_ok w hs ly → valid_ref (w_memory w) hs bytes →
  safe (neri_rt_v1_host_string_from_bytes bytes w) (λ '(o, w'), goes hs w w' ∧ ∃ t d n ob,
    array_at (w_memory w) hs bytes t d n ob ∧
    (o = 0 ∧ ¬ well_formed_utf8 (elements d n (ob_payload ob)) ∨ string_at (w_memory w') hs o (elements d n (ob_payload ob)))).
Proof.
  intros Hw Hv. destruct (world_current _ _ _ Hw) as (anc & heap & _ & Hheap & _). unfold neri_rt_v1_host_string_from_bytes.
  eapply safe_bind; [by eapply require_initialized_ok|]. intros [] _.
  eapply safe_bind; [by apply (inspect_array_ok w hs ly)|]. intros v (t & d & n & ob & Har & ->). cbn [av_descriptor av_object av_length].
  destruct (scalar_elements_ok _ _ _ _ _ _ _ SCALAR_KIND_BYTE 1 Har) as (b & -> & Hb); [done|]. rewrite bind_Ok.
  destruct b; [|apply safe_contract]. destruct (Hb eq_refl) as [_ Hsize]. cbn [negb].
  rewrite (read_array_ok w hs bytes t d n ob), bind_Ok by done. set (bs := elements d n (ob_payload ob)).
  destruct (is_strict_utf8_spec bs) as (valid & -> & Hvalid). rewrite bind_Ok. destruct valid; cbn [negb].
  2: { apply (refuse_ok 0 w hs ly _ (λ o w', goes hs w w' ∧ ∃ t d n ob, array_at (w_memory w) hs bytes t d n ob ∧
         (o = 0 ∧ ¬ well_formed_utf8 (elements d n (ob_payload ob)) ∨ _))); [done|]. intros w' Hg. split; [done|].
       exists t, d, n, ob. split; [done|]. left. split; [done|]. intros Hutf. by apply Hvalid in Hutf. }
  eapply safe_bind; [apply (enter_roots_ok [bytes] w hs ly Hw); by apply Forall_cons_2; [|apply Forall_nil_2]|].
  intros [[frame slots] w1] Hro. pose proof (ro_world _ _ _ _ _ _ _ Hro) as Hw1. set (ly1 := with_ly_frames _ _ _) in Hw1.
  destruct (world_current _ _ _ Hw1) as (anc1 & heap1 & _ & Hheap1 & _).
  pose proof (root_at_ok _ _ _ _ _ _ _ 0 bytes Hro eq_refl) as E1. change (N.of_nat 0) with 0 in E1. rewrite E1, bind_Ok.
  pose proof Har as Har1. rewrite <-(ro_memory _ _ _ _ _ _ _ Hro) in Har1, Hv.
  eapply safe_bind; [by apply (inspect_array_ok w1 hs ly1)|]. intros v (t2 & d2 & n2 & ob2 & Har2 & ->).
  destruct (array_at_same _ _ _ _ _ _ _ _ _ _ _ _ Har1 Har2) as (-> & -> & ->).
  { pose proof (ar_object _ _ _ _ _ _ _ Har1) as E. pose proof (ar_object _ _ _ _ _ _ _ Har2) as E'. congruence. }
  cbn [av_descriptor av_object av_length].
  assert (n = length_N bs) as Hn.
  { unfold bs, elements, length_N. rewrite Hsize, length_take, length_drop. pose proof (ar_room _ _ _ _ _ _ _ Har) as Hroom.
    rewrite Hsize in Hroom. unfold length_N in Hroom. lia. }
  eapply safe_bind; [apply (create_utf8_string_ok w1 hs ly1 heap1 _ bs); try done|].
  - by apply (read_array_ok w1 hs bytes t d n ob).
  - intros w' o' payload Hbt. simpl. destruct (ar_live _ _ _ _ _ _ _ Har1) as (x & Hx & b & k & Hl).
    destruct (bt_others _ _ _ _ _ _ _ Hbt x bytes b k Hl) as [_ Hobj].
    { intros _. apply (ro_held _ _ _ _ _ _ _ Hro heap1 _ Hheap1). set_solver. }
    rewrite (read_payload_ok _ _ ob).
    + unfold bs, elements. by rewrite Hsize, N.mul_1_r.
    + rewrite Hobj. apply Har1.
    + pose proof (ar_room _ _ _ _ _ _ _ Har) as Hroom. rewrite Hsize in Hroom. lia.
  - intros [o w2] (_ & Hlen & Hbt). pose proof (built_string _ _ _ _ _ _ _ Hbt Hlen) as Hstr.
    eapply safe_bind; [apply (leave_roots_ok w2 hs ly1 frame); apply Hbt|]. intros w3 (Hs3 & Hm3 & _ & ly3 & Hw3).
    destruct (set_error_ok w3 hs ly3 "" Hw3) as (w4 & -> & Hs4 & Hw4 & Hm4). rewrite bind_Ok. apply safe_Ok. split.
    + split; [|eauto]. eapply steps_trans; [apply Hro|]. eapply steps_trans; [apply Hbt|]. by eapply steps_trans.
    + exists t, d, n, ob. split; [done|]. right. by rewrite Hm4, Hm3.
Qed.

(** ** Functions that return a flag or a number *)

Lemma message_ok {A} (x : A) w hs ly message :
  world_ok w hs ly → safe (w ← set_error message w; Ok (x, w)) (λ '(_, w'), goes hs w w').
Proof. intros Hw. by apply (refuse_ok x w hs ly message (λ _ w', goes hs w w')). Qed.

Lemma goes_after {A} hs w w1 (m : result (A * world)) :
  steps hs w w1 → safe m (λ '(_, w'), goes hs w1 w') → safe m (λ '(_, w'), goes hs w w').
Proof. intros Hs Hm. eapply safe_weaken; [exact Hm|]. intros [x w'] Hg. by eapply goes_trans. Qed.

Lemma write_text_ok w hs ly path contents :
  world_ok w hs ly → string_contract w hs path → string_contract w hs contents →
  safe (neri_rt_v1_host_write_text path contents w) (λ '(_, w'), goes hs w w').
Proof.
  intros Hw Hp Hc. destruct (world_current _ _ _ Hw) as (anc & heap & _ & Hheap & _). unfold neri_rt_v1_host_write_text.
  eapply safe_bind; [by eapply require_initialized_ok|]. intros [] _.
  eapply safe_bind; [by apply (host_string_ok w hs ly)|]. intros [p w1] (Hs & Hw1 & Hm). eapply goes_after; [exact Hs|].
  destruct p as [p|]; [|apply safe_Ok; by eapply goes_refl].
  eapply safe_bind; [apply (inspect_string_ok w1 hs ly); [done|by eapply string_contract_memory]|].
  intros v (_ & bs & Hbs & ->). rewrite (view_bytes_ok w1 hs contents bs), bind_Ok by done.
  destruct (write_atomic w1 p bs) as [written message]. by eapply message_ok.
Qed.

Lemma write_bytes_ok w hs ly path contents :
  world_ok w hs ly → string_contract w hs path → valid_ref (w_memory w) hs contents →
  safe (neri_rt_v1_host_write_bytes path contents w) (λ '(_, w'), goes hs w w').
Proof.
  intros Hw Hp Hc. destruct (world_current _ _ _ Hw) as (anc & heap & _ & Hheap & _). unfold neri_rt_v1_host_write_bytes.
  eapply safe_bind; [by eapply require_initialized_ok|]. intros [] _.
  eapply safe_bind; [by apply (host_string_ok w hs ly)|]. intros [p w1] (Hs & Hw1 & Hm). eapply goes_after; [exact Hs|].
  destruct p as [p|]; [|apply safe_Ok; by eapply goes_refl].
  eapply safe_bind; [apply (inspect_array_ok w1 hs ly); [done|by rewrite Hm]|].
  intros v (t & d & n & ob & Har & ->). cbn [av_descriptor av_object av_length].
  destruct (scalar_elements_ok _ _ _ _ _ _ _ SCALAR_KIND_BYTE 1 Har) as (b & -> & Hb); [done|]. rewrite bind_Ok.
  destruct b; [|apply safe_contract]. destruct (Hb eq_refl) as [_ Hsize]. cbn [negb].
  rewrite (read_array_ok w1 hs contents t d n ob), bind_Ok by done.
  destruct (write_atomic w1 p _) as [written message]. by eapply message_ok.
Qed.

Lemma remove_file_ok w hs ly path :
  world_ok w hs ly → string_contract w hs path → safe (neri_rt_v1_host_remove_file path w) (λ '(_, w'), goes hs w w').
Proof.
  intros Hw Hp. destruct (world_current _ _ _ Hw) as (anc & heap & _ & Hheap & _). unfold neri_rt_v1_host_remove_file.
  eapply safe_bind; [by eapply require_initialized_ok|]. intros [] _.
  eapply safe_bind; [by apply (host_string_ok w hs ly)|]. intros [p w1] (Hs & Hw1 & Hm). eapply goes_after; [exact Hs|].
  destruct p as [p|]; [|apply safe_Ok; by eapply goes_refl].
  destruct (remove_file w1 p) as [removed message]. by eapply message_ok.
Qed.

(** The references in an array of strings. *)
Lemma array_item_ok w hs ly o t d n ob i :
  world_ok w hs ly → array_at (w_memory w) hs o t d n ob → element_slots d = [0] → td_element_size d = 8 → i < n →
  ∃ r, load_slot (w_memory w) o (o + sizeof_header + (td_payload_size d + 8 * i)) = Ok r ∧ valid_ref (w_memory w) hs r.
Proof.
  intros Hw Har Hone H8' Hi. destruct (ar_live _ _ _ _ _ _ _ Har) as (x & Hx & Hlx).
  destruct (live_object_ok w hs ly x o Hw Hx Hlx) as (ob' & Hob' & Htr & Hr).
  rewrite (ar_object _ _ _ _ _ _ _ Har) in Hob'. injection Hob' as <-.
  destruct (ar_length _ _ _ _ _ _ _ Har) as [Hlen _]. destruct (ar_type _ _ _ _ _ _ _ Har) as (Ht & _).
  assert (o + sizeof_header + (td_payload_size d + 8 * i) ∈ slots_of o ob) as Hslot.
  { apply (array_slots o ob d); [rewrite Ht; apply Har|apply Har| |].
    - pose proof (ar_room _ _ _ _ _ _ _ Har) as Hroom.
      pose proof (live_object_bound w hs ly x o ob Hw Hx Hlx (ar_object _ _ _ _ _ _ _ Har)) as Hbound.
      split; [lia|]. intros _. rewrite <-Hlen. split; [done|lia].
    - exists i, 0. rewrite <-Hlen, Hone, H8'. split_and!; [done|set_solver|lia]. }
  eexists. split; [apply (load_slot_ok _ _ ob); [apply Har|by apply Htr]|]. apply Hr. apply list_elem_of_fmap. eauto.
Qed.

(** The program's literals are strings; it may then pass any reference. *)
Definition literals_ok (w : world) (hs : list N) : Prop :=
  ∀ o, literal (w_memory w) o → ∃ bs, string_at (w_memory w) hs o bs.

Lemma host_arguments_ok ws hs ly o t d n ob offsets storage w :
  w_memory w = w_memory ws → world_ok w hs ly → literals_ok ws hs → array_at (w_memory ws) hs o t d n ob →
  element_slots d = [0] → td_element_size d = 8 →
  Forall (λ offset, ∃ i, i < n ∧ offset = td_payload_size d + 8 * i) offsets →
  safe (host_arguments o offsets storage w) (λ '(_, w'), steps hs w w' ∧ world_ok w' hs ly).
Proof.
  intros Hm Hw Hlit Har Hone H8' Hoff. revert w storage Hm Hw.
  induction Hoff as [|offset offsets (i & Hi & ->) _ IH]; intros w storage Hm Hw; cbn [host_arguments].
  { apply safe_Ok. split; [apply steps_refl|done]. }
  pose proof Har as Har'. rewrite <-Hm in Har'. destruct (array_item_ok w hs ly o t d n ob i Hw Har' Hone H8' Hi) as (r & -> & Hr).
  rewrite bind_Ok. eapply safe_bind.
  { apply (host_string_ok w hs ly r "Process argument" Hw). split; [done|]. unfold literals_ok in Hlit. rewrite <-Hm in Hlit. apply Hlit. }
  intros [argument w1] (Hs & Hw1 & Hm1). destruct argument as [argument|]; [|by apply safe_Ok].
  eapply safe_weaken; [apply IH; [congruence|done]|]. intros [x w'] [Hs' Hw']. split; [by eapply steps_trans|done].
Qed.

Lemma run_ok w hs ly destination executable arguments :
  world_ok w hs ly → literals_ok w hs → string_contract w hs executable → valid_ref (w_memory w) hs arguments →
  safe (neri_rt_v1_host_run destination executable arguments w) (λ '(_, w'), goes hs w w').
Proof.
  intros Hw Hlit He Ha. destruct (world_current _ _ _ Hw) as (anc & heap & _ & Hheap & _). unfold neri_rt_v1_host_run.
  eapply safe_bind; [by eapply require_initialized_ok|]. intros [] _. destruct (destination =? 0); [apply safe_contract|].
  eapply safe_bind; [by apply (host_string_ok w hs ly)|]. intros [p w1] (Hs & Hw1 & Hm). eapply goes_after; [exact Hs|].
  destruct p as [p|]; [|apply safe_Ok; by eapply goes_refl].
  eapply safe_bind; [apply (inspect_array_ok w1 hs ly); [done|by rewrite Hm]|].
  intros v (t & d & n & ob & Har & ->). cbn [av_descriptor av_object av_length].
  destruct (string_elements_ok _ _ _ _ _ _ _ Har) as (b & -> & Hb). rewrite bind_Ok.
  destruct b; [|apply safe_contract]. destruct (Hb eq_refl) as [Hone Hsize]. cbn [negb orb].
  destruct (_ <? _)%Z; [apply safe_contract|].
  eapply safe_bind; [apply (host_arguments_ok w1 hs ly arguments t d n ob); try done|].
  - unfold literals_ok. rewrite Hm. done.
  - apply Forall_forall. intros offset (i & -> & Hi%elem_of_indices)%list_elem_of_fmap. eauto.
  - intros [storage w2] [Hs2 Hw2]. eapply goes_after; [exact Hs2|]. destruct storage as [storage|]; [|apply safe_Ok; by eapply goes_refl].
    destruct (run_process w2 storage) as [status message]. by eapply message_ok.
Qed.

(** ** Console input *)

(** A line ends at the first newline, which is consumed, or with the input. *)
Lemma read_line_ok input line rest eof :
  read_line input = (line, rest, eof) →
  x0a ∉ line ∧ (if eof : bool then input = line ∧ rest = [] else input = line ++ x0a :: rest).
Proof.
  revert line rest eof. induction input as [|b input IH]; intros line rest eof; simpl.
  - intros [= <- <- <-]. split; [set_solver|done].
  - destruct (Byte.eqb b x0a) eqn:Hb.
    + apply Byte.byte_dec_bl in Hb as ->. intros [= <- <- <-]. split; [set_solver|done].
    + destruct (read_line input) as [[l r] e]. destruct (IH l r e eq_refl) as [Hno Heq]. intros [= <- <- <-]. split.
      * intros [<-|?]%elem_of_cons; done.
      * destruct e; [destruct Heq as [-> ->]; done|by rewrite Heq].
Qed.

Lemma read_console_line_ok w hs ly distinguish input broken :
  world_ok w hs ly →
  safe (read_console_line distinguish input broken w) (λ '(o, rest, w'), goes hs w w' ∧ null_or_valid hs w' o ∧
    ∃ line eof, read_line input = (line, rest, eof) ∧ well_formed_utf8 (drop_return line) ∧
      (o = 0 ∧ distinguish = true ∧ eof = true ∧ drop_return line = [] ∨ string_at (w_memory w') hs o (drop_return line))).
Proof.
  intros Hw. destruct (world_current _ _ _ Hw) as (anc & heap & _ & Hheap & _). unfold read_console_line.
  eapply safe_bind; [by eapply require_initialized_ok|]. intros [] _.
  destruct (read_line input) as [[line rest] eof] eqn:Hline. destruct (eof && broken); [apply safe_contract|].
  set (bs := drop_return line). destruct (is_strict_utf8_spec bs) as (valid & -> & Hvalid). rewrite bind_Ok.
  destruct valid; [|apply safe_contract]. cbn [negb]. destruct (distinguish && eof && bool_decide (bs = [])) eqn:Hg.
  - rewrite !andb_true_iff, bool_decide_eq_true in Hg. destruct Hg as [[-> ->] Hnil]. apply safe_Ok. split_and!; [by eapply goes_refl|by left|].
    exists line, true. split_and!; [done|by apply Hvalid|]. left. done.
  - eapply safe_bind; [by apply (create_ascii_string_ok w hs ly)|]. intros [o w'] Hm. apply safe_Ok.
    destruct (made_goes _ _ _ _ _ Hm). split_and!; [done|by right|]. exists line, eof. split_and!; [done|by apply Hvalid|].
    right. apply Hm.
Qed.

Lemma write_console_ok w hs ly accepts value newline failure :
  world_ok w hs ly → string_contract w hs value →
  safe (write_console accepts value newline failure w) (λ written, ∃ bs, string_at (w_memory w) hs value bs ∧
    written = bs ++ (if newline then [x0a] else [])).
Proof.
  intros Hw Hv. destruct (world_current _ _ _ Hw) as (anc & heap & _ & Hheap & _). unfold write_console.
  eapply safe_bind; [by eapply require_initialized_ok|]. intros [] _.
  eapply safe_bind; [by apply (inspect_string_ok w hs ly)|]. intros v (_ & bs & Hbs & ->).
  rewrite (view_bytes_ok w hs value bs), bind_Ok by done. cbv zeta. destruct (accepts _ _); [|apply safe_contract].
  apply safe_Ok. eauto.
Qed.

(** ** Functions that change nothing *)

Lemma byte_at_ok w hs ly o index :
  world_ok w hs ly → string_contract w hs o →
  safe (neri_rt_v1_host_string_byte_at o index w) (λ b, ∃ bs, string_at (w_memory w) hs o bs ∧
    (0 ≤ index < Z.of_N (length_N bs))%Z ∧ b = take 1 (drop (Z.to_nat index) bs)).
Proof.
  intros Hw Ho. destruct (world_current _ _ _ Hw) as (anc & heap & _ & Hheap & _). unfold neri_rt_v1_host_string_byte_at.
  eapply safe_bind; [by eapply require_initialized_ok|]. intros [] _.
  eapply safe_bind; [by apply (inspect_string_ok w hs ly)|]. intros v (_ & bs & Hbs & ->). cbn [sv_byte_length sv_object].
  destruct (_ || _) eqn:Hg; [apply safe_panic|]. apply orb_false_iff in Hg as [Hneg%Z.ltb_ge Hlt%N.leb_gt].
  rewrite (read_string_part _ hs o bs) by (done || lia). apply safe_Ok. exists bs. split_and!; [done|lia|lia|].
  by replace (N.to_nat (Z.to_N index)) with (Z.to_nat index) by lia.
Qed.

Lemma parse_int_ok w hs ly destination o :
  world_ok w hs ly → string_contract w hs o →
  safe (neri_rt_v1_host_parse_int destination o w) (λ r, ∃ bs, string_at (w_memory w) hs o bs ∧ r = parse_int_text bs).
Proof.
  intros Hw Ho. destruct (world_current _ _ _ Hw) as (anc & heap & _ & Hheap & _). unfold neri_rt_v1_host_parse_int.
  eapply safe_bind; [by eapply require_initialized_ok|]. intros [] _. destruct (destination =? 0); [apply safe_contract|].
  eapply safe_bind; [by apply (inspect_string_ok w hs ly)|]. intros v (_ & bs & Hbs & ->).
  rewrite (view_bytes_ok w hs o bs), bind_Ok by done. apply safe_Ok. eauto.
Qed.

Lemma parse_float_ok `{FloatLibrary} w hs ly destination o :
  world_ok w hs ly → string_contract w hs o →
  safe (neri_rt_v1_host_parse_float destination o w) (λ r, ∃ bs, string_at (w_memory w) hs o bs ∧ r = parse_float_text bs).
Proof.
  intros Hw Ho. destruct (world_current _ _ _ Hw) as (anc & heap & _ & Hheap & _). unfold neri_rt_v1_host_parse_float.
  eapply safe_bind; [by eapply require_initialized_ok|]. intros [] _. destruct (destination =? 0); [apply safe_contract|].
  eapply safe_bind; [by apply (inspect_string_ok w hs ly)|]. intros v (_ & bs & Hbs & ->).
  rewrite (view_bytes_ok w hs o bs), bind_Ok by done. apply safe_Ok. eauto.
Qed.

(** Any value has a text, also one that is not finite. *)
Lemma float_string_total `{LawfulFloats} value : ∃ text, float_string value = Ok text.
Proof.
  destruct (isfinite value) eqn:Hf; [destruct (float_roundtrip value Hf) as (text & Ht & _); by exists text|].
  unfold float_string. destruct (isnan value) eqn:Hn; [by eexists|]. destruct (isinf value) eqn:Hi; [by eexists|].
  unfold isfinite in Hf. by rewrite Hn, Hi in Hf.
Qed.

Lemma from_float_ok `{LawfulFloats} w hs ly value :
  world_ok w hs ly → safe (neri_rt_v1_string_from_float value w) (answered hs w).
Proof.
  intros Hw. destruct (world_current _ _ _ Hw) as (anc & heap & _ & Hheap & _). unfold neri_rt_v1_string_from_float.
  eapply safe_bind; [by eapply require_initialized_ok|]. intros [] _.
  destruct (float_string_total value) as [text ->]. rewrite bind_Ok.
  eapply safe_weaken; [by eapply create_ascii_string_ok|]. intros [o w'] Hm. by eapply made_answered.
Qed.

Lemma argument_count_ok w hs ly : world_ok w hs ly → safe (neri_rt_v1_host_argument_count w) (λ _, True).
Proof.
  intros Hw. destruct (world_current _ _ _ Hw) as (anc & heap & _ & Hheap & Hcur & _). unfold neri_rt_v1_host_argument_count.
  eapply safe_bind; [by eapply require_initialized_ok|]. intros [] _. rewrite Hcur, bind_Ok. by apply safe_Ok.
Qed.

Lemma exit_ok w hs ly status : world_ok w hs ly → safe (neri_rt_v1_host_exit status w) (λ s, s = status ∧ (0 ≤ status ≤ 125)%Z).
Proof.
  intros Hw. destruct (world_current _ _ _ Hw) as (anc & heap & _ & Hheap & _). unfold neri_rt_v1_host_exit.
  eapply safe_bind; [by eapply require_initialized_ok|]. intros [] _. destruct (_ || _) eqn:Hg; [apply safe_contract|].
  apply orb_false_iff in Hg as [H1'%Z.ltb_ge H2'%Z.ltb_ge]. by apply safe_Ok.
Qed.

Lemma canonical_path_ok w hs ly path output capacity :
  world_ok w hs ly → safe (neri_rt_v1_host_canonical_path path output capacity w) (λ _, True).
Proof.
  intros Hw. destruct (world_current _ _ _ Hw) as (anc & heap & _ & Hheap & _). unfold neri_rt_v1_host_canonical_path.
  eapply safe_bind; [by eapply require_initialized_ok|]. intros [] _. destruct path as [path|]; [|by apply safe_Ok].
  destruct (_ || _); [by apply safe_Ok|]. destruct (canonical_path w path) as [[|b text]|]; [by apply safe_Ok| |by apply safe_Ok].
  destruct (is_strict_utf8_spec (b :: text)) as (valid & -> & _). rewrite bind_Ok. destruct (_ || _); by apply safe_Ok.
Qed.

Lemma executable_path_ok w hs ly output capacity :
  world_ok w hs ly → safe (neri_rt_v1_host_executable_path output capacity w) (λ _, True).
Proof.
  intros Hw. destruct (world_current _ _ _ Hw) as (anc & heap & _ & Hheap & _). unfold neri_rt_v1_host_executable_path.
  eapply safe_bind; [by eapply require_initialized_ok|]. intros [] _. destruct (_ || _); [by apply safe_Ok|].
  destruct (executable_path w) as [text|]; [|by apply safe_Ok].
  destruct (is_strict_utf8_spec text) as (valid & -> & _). rewrite bind_Ok. destruct valid; by apply safe_Ok.
Qed.

(** ** The calls *)

Context `{!FloatLibrary}.

Inductive host_call :=
| call_concat (left right : N)
| call_equal (left right : N)
| call_byte_length (value : N)
| call_byte_at (value : N) (index : Z)
| call_parse_int (destination value : N)
| call_parse_float (destination value : N)
| call_from_float (value : float)
| call_write_error (value : N)
| call_write_error_bytes (bytes : option (list byte)) (length : Z)
| call_canonical_path (path : option (list byte)) (output : bool) (capacity : Z)
| call_executable_path (output : bool) (capacity : Z)
| call_argument_count
| call_exit (status : Z)
| call_slice (value : N) (start length : Z)
| call_from_int (value : Z)
| call_from_byte (value : byte)
| call_from_bytes (bytes : N)
| call_append_byte (values : N) (value : byte)
| call_append_int (values : N) (value : Z)
| call_append_string (values value : N)
| call_error_message
| call_read_line (distinguish_eof : bool) (input : list byte) (broken : bool)
| call_write (newline : bool) (value : N)
| call_read_text (path : N)
| call_write_text (path contents : N)
| call_write_bytes (path contents : N)
| call_remove_file (path : N)
| call_path_join (left right : N)
| call_path_absolute (path : N)
| call_path_file_name (path : N)
| call_argument_at (index : Z)
| call_environment (name : N)
| call_run (destination executable arguments : N).

(** The reference the call returns (null if it returns something else), and the state. *)
Definition run_call (c : host_call) (w : world) : result (N * world) :=
  match c with
  | call_concat l r => neri_rt_v1_string_concat l r w
  | call_equal l r => _ ← neri_rt_v1_string_equal l r w; Ok (0, w)
  | call_byte_length v => _ ← neri_rt_v1_host_string_byte_length v w; Ok (0, w)
  | call_byte_at v i => _ ← neri_rt_v1_host_string_byte_at v i w; Ok (0, w)
  | call_parse_int d v => _ ← neri_rt_v1_host_parse_int d v w; Ok (0, w)
  | call_parse_float d v => _ ← neri_rt_v1_host_parse_float d v w; Ok (0, w)
  | call_from_float x => neri_rt_v1_string_from_float x w
  | call_write_error v => _ ← neri_rt_v1_stderr_write v w; Ok (0, w)
  | call_write_error_bytes b n => _ ← Ok (neri_rt_v1_stderr_write_bytes b n w); Ok (0, w)
  | call_canonical_path p o n => _ ← neri_rt_v1_host_canonical_path p o n w; Ok (0, w)
  | call_executable_path o n => _ ← neri_rt_v1_host_executable_path o n w; Ok (0, w)
  | call_argument_count => _ ← neri_rt_v1_host_argument_count w; Ok (0, w)
  | call_exit status => _ ← neri_rt_v1_host_exit status w; Ok (0, w)
  | call_slice v s n => neri_rt_v1_host_string_slice v s n w
  | call_from_int z => neri_rt_v1_string_from_int z w
  | call_from_byte b => neri_rt_v1_string_from_byte b w
  | call_from_bytes b => neri_rt_v1_host_string_from_bytes b w
  | call_append_byte a v => neri_rt_v1_host_append_byte a v w
  | call_append_int a v => neri_rt_v1_host_append_int a v w
  | call_append_string a v => neri_rt_v1_host_append_string a v w
  | call_error_message => neri_rt_v1_host_error_message w
  | call_read_line d input broken => '(o, _, w) ← read_console_line d input broken w; Ok (o, w)
  | call_write newline v => _ ← (if newline then neri_rt_v1_stdout_write_line v w else neri_rt_v1_stdout_write v w); Ok (0, w)
  | call_read_text p => neri_rt_v1_host_read_text p w
  | call_write_text p c => '(_, w) ← neri_rt_v1_host_write_text p c w; Ok (0, w)
  | call_write_bytes p c => '(_, w) ← neri_rt_v1_host_write_bytes p c w; Ok (0, w)
  | call_remove_file p => '(_, w) ← neri_rt_v1_host_remove_file p w; Ok (0, w)
  | call_path_join l r => neri_rt_v1_host_path_join l r w
  | call_path_absolute p => neri_rt_v1_host_path_absolute p w
  | call_path_file_name p => neri_rt_v1_host_path_file_name p w
  | call_argument_at i => neri_rt_v1_host_argument_at i w
  | call_environment n => neri_rt_v1_host_environment n w
  | call_run d e a => '(_, w) ← neri_rt_v1_host_run d e a w; Ok (0, w)
  end.

(** Arguments are references the program may hold, integers are in range. *)
Definition call_contract (c : host_call) (w : world) (hs : list N) : Prop :=
  literals_ok w hs ∧
  match c with
  | call_concat l r | call_equal l r | call_write_text l r | call_write_bytes l r | call_path_join l r | call_run _ l r =>
      valid_ref (w_memory w) hs l ∧ valid_ref (w_memory w) hs r
  | call_append_string l r => valid_ref (w_memory w) hs l ∧ valid_ref (w_memory w) hs r ∧ r ≤ u64_max
  | call_byte_length v | call_byte_at v _ | call_parse_int _ v | call_parse_float _ v | call_write_error v
  | call_slice v _ _ | call_write _ v | call_from_bytes v | call_append_byte v _ | call_append_int v _ | call_read_text v
  | call_remove_file v | call_path_absolute v | call_path_file_name v | call_environment v => valid_ref (w_memory w) hs v
  | call_from_int z => (int64_min ≤ z ≤ int64_max)%Z
  | call_from_byte _ | call_from_float _ | call_write_error_bytes _ _ | call_canonical_path _ _ _ | call_executable_path _ _
  | call_argument_count | call_exit _ | call_error_message | call_read_line _ _ _ | call_argument_at _ => True
  end.

Lemma flag_answered {A} hs w ly (m : result (A * world)) :
  world_ok w hs ly → safe m (λ '(_, w'), goes hs w w') → safe ('(_, w) ← m; Ok (0, w)) (answered hs w).
Proof. intros Hw Hm. eapply safe_bind; [exact Hm|]. intros [x w'] Hg. apply safe_Ok. split; [done|by left]. Qed.

Lemma reading_answered {A} hs w ly (m : result A) (Q : A → Prop) :
  world_ok w hs ly → safe m Q → safe (_ ← m; Ok (0, w)) (answered hs w).
Proof. intros Hw Hm. eapply safe_bind; [exact Hm|]. intros x _. by eapply null_answered. Qed.

Lemma run_call_ok `{!LawfulFloats} c w hs ly :
  world_ok w hs ly → call_contract c w hs → safe (run_call c w) (answered hs w).
Proof.
  intros Hw [Hlit Hc]. assert (∀ o, valid_ref (w_memory w) hs o → string_contract w hs o) as Hstr by (intros o Ho; split; [done|apply Hlit]).
  destruct c; simpl in Hc |- *; try destruct Hc as [Hc1 Hc2].
  - eapply safe_weaken; [apply (string_concat_ok w hs ly); auto|]. intros [o w'] (bl & br & _ & _ & Hm). by eapply made_answered.
  - eapply reading_answered; [done|]. eapply string_equal_ok; eauto.
  - eapply reading_answered; [done|]. eapply byte_length_ok; eauto.
  - eapply reading_answered; [done|]. eapply byte_at_ok; eauto.
  - eapply reading_answered; [done|]. eapply parse_int_ok; eauto.
  - eapply reading_answered; [done|]. eapply parse_float_ok; eauto.
  - by eapply from_float_ok.
  - eapply reading_answered; [done|]. eapply write_console_ok; eauto.
  - by eapply null_answered.
  - eapply reading_answered; [done|]. by eapply canonical_path_ok.
  - eapply reading_answered; [done|]. by eapply executable_path_ok.
  - eapply reading_answered; [done|]. by eapply argument_count_ok.
  - eapply reading_answered; [done|]. by eapply exit_ok.
  - destruct (decide (value = 0)) as [->|Hz].
    + destruct (world_current _ _ _ Hw) as (anc & heap & _ & Hheap & _). unfold neri_rt_v1_host_string_slice.
      eapply safe_bind; [by eapply require_initialized_ok|]. intros [] _. apply safe_contract.
    + assert (safe (inspect_string w value) (λ _, ∃ bs, string_at (w_memory w) hs value bs)) as [(v & _ & bs & Hbs)|(c & msg & Hp)].
      { eapply safe_weaken; [by apply (inspect_string_ok w hs ly value Hw), Hstr|]. intros v (_ & bs & Hbs & _). eauto. }
      * eapply safe_weaken; [by apply (string_slice_ok w hs ly value bs)|]. intros [o w'] (_ & _ & Hm). by eapply made_answered.
      * destruct (world_current _ _ _ Hw) as (anc & heap & _ & Hheap & _). unfold neri_rt_v1_host_string_slice.
        eapply safe_bind; [by eapply require_initialized_ok|]. intros [] _. rewrite Hp. apply safe_panic.
  - eapply safe_weaken; [by apply (string_from_int_ok w hs ly)|]. intros [o w'] Hm. by eapply made_answered.
  - pose proof (to_N_lt value) as Hb. change (safe (neri_rt_v1_string_from_int (Z.of_N (Byte.to_N value)) w) (answered hs w)).
    assert (int64_min ≤ Z.of_N (Byte.to_N value) ≤ int64_max)%Z as Hz by (unfold int64_min, int64_max; lia).
    eapply safe_weaken; [exact (string_from_int_ok w hs ly _ Hw Hz)|].
    intros [o w'] Hm. by eapply made_answered.
  - eapply safe_weaken; [by apply (string_from_bytes_ok w hs ly)|]. intros [o w'] [Hg (t & d & n & ob & _ & Hr)]. split; [done|].
    destruct Hr as [[-> _]|Hs]; [by left|right; by eapply string_at_valid].
  - by eapply append_byte_ok.
  - by eapply append_int_ok.
  - destruct Hc2. eapply append_string_ok; eauto.
  - by eapply error_message_ok.
  - eapply safe_bind; [by apply (read_console_line_ok w hs ly)|]. intros [[o rest] w'] (Hg & Hv & _). apply safe_Ok. by split.
  - eapply reading_answered; [done|]. destruct newline; eapply write_console_ok; eauto.
  - eapply read_text_ok; eauto.
  - eapply flag_answered; [done|eapply write_text_ok; eauto].
  - eapply flag_answered; [done|eapply write_bytes_ok; eauto].
  - eapply flag_answered; [done|eapply remove_file_ok; eauto].
  - eapply path_join_ok; eauto.
  - eapply path_absolute_ok; eauto.
  - eapply path_file_name_ok; eauto.
  - by eapply argument_at_ok.
  - eapply environment_ok; eauto.
  - eapply flag_answered; [done|eapply run_ok; eauto].
Qed.
End calls.
