(* ===== verification/Descriptors.v ===== *)
(** * Type descriptors of the compiled program ([native/codegen/llvm_lowering.cpp])

    What the code generator tells the runtime about types: a descriptor for every class and
    array type, and the callbacks through which the collector finds the references of an
    object.  [compiled_program] is the [Program] the runtime then works with. *)

From S2P Require Import Prelude Domains IR Samples Reader Types Layout Index Instructions.
From S2P Require Import Functions Roots Mangling ClassLayout Storage Heap Strings.

Local Open Scope string_scope.
Local Open Scope list_scope.
Local Open Scope N_scope.

(** ** The image *)

(** Where the linker and the loader put a global, and where the runtime's own string type
    lies, which has no external name. *)
Class LinkedImage := {
  global_address : string → N;
  dynamic_string_address : N;
}.

(** The code of a trace callback: visit fields, or visit the elements of an array. *)
Inductive trace_function :=
| TraceFields (offsets : list N)
| TraceElements (offset size : N).

(** The slots a callback visits, in order.  The loop over elements reads the length behind
    the header and computes on 64-bit words. *)
Definition run_trace (trace : trace_function) (object : N) (ob : Storage.object) : list N :=
  match trace with
  | TraceFields offsets => map (λ offset, object + offset) offsets
  | TraceElements offset size =>
      map (λ index, object + Layout.u64_add offset (u64_mul index size)) (indices (read_word (ob_payload ob) 0))
  end.

(** The globals of the output module that are descriptors, by name, with their initializers,
    and the maps of the lowering, whose pointers are names. *)
Record descriptor_tables := mk_tables {
  descriptor_globals : gmap string (option type_descriptor);
  class_descriptors_ : gmap symbol_id string;
  type_descriptors_ : gmap string string;
  array_trace_functions_ : gmap string trace_function;
  class_trace_functions_ : gmap string trace_function;
}.

Definition no_tables : descriptor_tables := mk_tables ∅ ∅ ∅ ∅ ∅.

Definition set_global (name : string) (initializer : option type_descriptor) (t : descriptor_tables) : descriptor_tables :=
  mk_tables (<[name := initializer]> (descriptor_globals t)) (class_descriptors_ t) (type_descriptors_ t)
    (array_trace_functions_ t) (class_trace_functions_ t).

Definition emplace_type (key name : string) (t : descriptor_tables) : descriptor_tables :=
  mk_tables (descriptor_globals t) (class_descriptors_ t) (try_emplace key name (type_descriptors_ t))
    (array_trace_functions_ t) (class_trace_functions_ t).

Definition sizeof_type_descriptor : N := 112.
Definition TYPE_KIND_INLINE_AGGREGATE : N := 4.
Definition TYPE_KIND_SCALAR : N := 5.

Definition string_literal_name : string := "neri_rt_v1_string_literal_type".

Section descriptors.
Context `{DataLayout} `{LinkedImage}.
Variable index : module_verification_index.
(** [retained_modules_] and the layouts of the classes. *)
Variable retained_modules : bool.
Variable classes : lowered_classes.

(** ** Classes *)

Definition class_key (id : symbol_id) : result string := type_code (mk_type NERI_IR_TYPE_CLASS_V1 (Some id) [] 0).

Definition class_global (key : string) : string := (if retained_modules then "hk1_t_" else ".hk.type.") +:+ key.

Definition declare_class (declaration : class_declaration) (t : descriptor_tables) : result descriptor_tables :=
  key ← class_key (cls_id declaration);
  let t := set_global (class_global key) None t in
  let t := mk_tables (descriptor_globals t) (try_emplace (cls_id declaration) (class_global key) (class_descriptors_ t))
             (type_descriptors_ t) (array_trace_functions_ t) (class_trace_functions_ t) in
  Ok (emplace_type key (class_global key) t).

Definition class_descriptor (t : descriptor_tables) (id : symbol_id) : result string := at_symbol (class_descriptors_ t) id.

Definition trace_field (item : lowered_field) (offsets : list N) : result (list N) :=
  managed ← managed_reference (fld_value_type (lf_value item));
  Ok (if (managed : bool) then offsets ++ [lf_offset item] else offsets).

Definition class_trace_name (key : string) : string := ".hk.trace.class." +:+ key.

Definition class_trace_function (layout : lowered_class) (t : descriptor_tables) : result (string * descriptor_tables) :=
  key ← class_key (cls_id (lc_value layout));
  match class_trace_functions_ t !! key with
  | Some _ => Ok (class_trace_name key, t)
  | None =>
      offsets ← for_state (lc_fields layout) [] trace_field;
      Ok (class_trace_name key,
          mk_tables (descriptor_globals t) (class_descriptors_ t) (type_descriptors_ t) (array_trace_functions_ t)
            (<[key := TraceFields offsets]> (class_trace_functions_ t)))
  end.

(** [any_of], which stops at the first. *)
Fixpoint has_references (fields : list lowered_field) : result bool :=
  match fields with
  | [] => Ok false
  | item :: fields =>
      managed ← managed_reference (fld_value_type (lf_value item));
      if (managed : bool) then Ok true else has_references fields
  end.

Definition class_initializer (key : string) (layout : lowered_class) (references : bool) (trace : N) : type_descriptor :=
  mk_type_descriptor sizeof_type_descriptor ABI_MAJOR ABI_MINOR TYPE_KIND_CLASS
    (if references then TYPE_FLAG_CONTAINS_REFS else 0) (lc_payload_size layout) (lc_payload_alignment layout) 0 0
    trace (Some ("hk1_t_" +:+ key)) 0 0 0 SCALAR_KIND_NONE 0.

Definition define_class (declaration : class_declaration) (t : descriptor_tables) : result descriptor_tables :=
  if cls_retained declaration then Ok t
  else
    layout ← layout_for_class classes (cls_id declaration);
    key ← class_key (cls_id declaration);
    references ← has_references (lc_fields layout);
    '(trace, t) ← (if (references : bool)
                   then '(name, t) ← class_trace_function layout t; Ok (global_address name, t)
                   else Ok (0, t));
    name ← class_descriptor t (cls_id declaration);
    (match cls_base declaration with
     | Some base => base ← class_descriptor t base; Ok tt
     | None => Ok tt
     end);;
    Ok (set_global name (Some (class_initializer key layout references trace)) t).

Definition declare_class_metadata (t : descriptor_tables) : result descriptor_tables :=
  t ← for_state (mod_classes (idx_module index)) t declare_class;
  for_state (mod_classes (idx_module index)) t define_class.

(** ** Arrays *)

Definition type_global (key : string) : string := ".hk.type." +:+ key.

Definition array_trace_name (key : string) : string := ".hk.trace.array." +:+ key.

Definition array_trace_function (element : type) (t : descriptor_tables) : result (string * descriptor_tables) :=
  key ← type_code element;
  match array_trace_functions_ t !! key with
  | Some _ => Ok (array_trace_name key, t)
  | None =>
      offset ← array_elements_offset index element;
      size ← storage_size index element;
      Ok (array_trace_name key,
          mk_tables (descriptor_globals t) (class_descriptors_ t) (type_descriptors_ t)
            (<[key := TraceElements offset size]> (array_trace_functions_ t)) (class_trace_functions_ t))
  end.

Definition scalar_descriptor (value : type) (t : descriptor_tables) : result (string * descriptor_tables) :=
  key ← type_code value;
  match type_descriptors_ t !! key with
  | Some found => Ok (found, t)
  | None =>
      indirect ← is_indirect_optional value;
      scalar_kind ← (if (indirect : bool) then Ok SCALAR_KIND_NONE
                     else if runtime_kind (scalar_properties (ty_tag value)) =? SCALAR_KIND_NONE
                     then Throw (lowering_error "Array element has no scalar ABI descriptor.")
                     else Ok (runtime_kind (scalar_properties (ty_tag value))));
      size ← storage_size index value;
      alignment ← storage_alignment index value;
      let d := mk_type_descriptor sizeof_type_descriptor ABI_MAJOR ABI_MINOR
                 (if (indirect : bool) then TYPE_KIND_INLINE_AGGREGATE else TYPE_KIND_SCALAR) 0 size alignment 0 0 0
                 (Some ("hk1_t_" +:+ key)) 0 0 0 scalar_kind 0 in
      Ok (type_global key, set_global (type_global key) (Some d) (emplace_type key (type_global key) t))
  end.

Definition array_initializer (key : string) (prefix alignment size element_alignment : N) (managed : bool)
    (trace element_type : N) : type_descriptor :=
  mk_type_descriptor sizeof_type_descriptor ABI_MAJOR ABI_MINOR TYPE_KIND_ARRAY
    (if managed then TYPE_FLAG_CONTAINS_REFS else 0) prefix alignment size element_alignment trace
    (Some ("hk1_t_" +:+ key)) 0 element_type 0 SCALAR_KIND_NONE 0.

(** [array_descriptor]; [element_descriptor] is the recursive call on the element type. *)
Definition array_descriptor_with (element_descriptor : descriptor_tables → result (string * descriptor_tables))
    (element : type) (t : descriptor_tables) : result (string * descriptor_tables) :=
  code ← type_code element;
  let key := "a" +:+ code +:+ "e" in
  match type_descriptors_ t !! key with
  | Some found => Ok (found, t)
  | None =>
      let t := emplace_type key (type_global key) (set_global (type_global key) None t) in
      managed ← managed_reference element;
      '(trace, t) ← (if (managed : bool)
                     then '(name, t) ← array_trace_function element t; Ok (global_address name, t)
                     else Ok (0, t));
      prefix ← array_payload_element_offset index element;
      alignment ← array_payload_alignment index element;
      size ← storage_size index element;
      element_alignment ← storage_alignment index element;
      '(element_name, t) ← element_descriptor t;
      Ok (type_global key,
          set_global (type_global key)
            (Some (array_initializer key prefix alignment size element_alignment managed trace
                     (global_address element_name))) t)
  end.

Fixpoint element_descriptor (value : type) (t : descriptor_tables) : result (string * descriptor_tables) :=
  match value with
  | mk_type tag symbol arguments _ =>
      managed ← managed_reference value;
      match tag, arguments with
      | NERI_IR_TYPE_OPTIONAL_V1, argument :: _ =>
          if (managed : bool) then element_descriptor argument t else scalar_descriptor value t
      | NERI_IR_TYPE_STRING_V1, _ => Ok (string_literal_name, t)
      | NERI_IR_TYPE_ARRAY_V1, argument :: _ => array_descriptor_with (element_descriptor argument) argument t
      | NERI_IR_TYPE_ARRAY_V1, [] => Throw (undefined "front() of an empty vector")
      | NERI_IR_TYPE_CLASS_V1, _ => symbol ← deref symbol; name ← class_descriptor t symbol; Ok (name, t)
      | _, _ => scalar_descriptor value t
      end
  end.

Definition array_descriptor (element : type) (t : descriptor_tables) : result (string * descriptor_tables) :=
  array_descriptor_with (element_descriptor element) element t.

(** The descriptors of a module whose instructions build arrays of [elements]. *)
Definition emit_descriptors (elements : list type) : result descriptor_tables :=
  t ← declare_class_metadata no_tables;
  for_state elements t (λ element t, '(_, t) ← array_descriptor element t; Ok t).
End descriptors.

(** ** The program in memory *)

(** [neri_rt_v1_string_literal_type] of runtime.cpp. *)
Definition string_literal_descriptor : type_descriptor :=
  mk_type_descriptor sizeof_type_descriptor ABI_MAJOR ABI_MINOR TYPE_KIND_STRING TYPE_FLAG_IMMUTABLE 8 8 0 0 0
    (Some "hk1_t_q1_n14_537472696e674c69746572616c") 0 0 0 SCALAR_KIND_NONE 0.

Section program.
Context `{LinkedImage}.
Variable t : descriptor_tables.

(** The global at an address. *)
Definition global_at (a : N) : option type_descriptor :=
  '(_, initializer) ← find (λ g, global_address g.1 =? a) (map_to_list (descriptor_globals t));
  initializer.

Definition trace_at (a : N) : option trace_function :=
  snd <$> find (λ g, global_address g.1 =? a)
            (map (λ g, (array_trace_name g.1, g.2)) (map_to_list (array_trace_functions_ t)) ++
             map (λ g, (class_trace_name g.1, g.2)) (map_to_list (class_trace_functions_ t))).

Definition compiled_program : Program := {|
  descriptor a :=
    if a =? global_address string_literal_name then Some string_literal_descriptor
    else if a =? dynamic_string_address then Some dynamic_string_descriptor
    else global_at a;
  trace_callback a object ob :=
    match trace_at a with Some trace => run_trace trace object ob | None => [] end;
  string_literal_type := global_address string_literal_name;
  dynamic_string_type := dynamic_string_address;
|}.
End program.
