(* ===== verification/DescriptorSpec.v ===== *)
(** * The descriptors of compiled programs keep the runtime's laws

    What the theorems about the runtime assume of a program, [LawfulTrace], [LawfulArrays]
    and [LawfulStrings], holds of the program the code generator describes: the callbacks
    report the reference fields and elements, at the places the layouts give them.

    The runtime works with what the compiler emits

    The laws the runtime's theorems assume of a program are theorems about the compiled
    program, and the allocations compiled code makes satisfy the runtime's checks. *)

From Stdlib Require Import Ascii.
From S2P Require Import Prelude Domains IR Samples Reader Types Layout Index Instructions.
From S2P Require Import Functions Roots RootSpec Modules ModuleSafety Regions Mangling.
From S2P Require Import ManglingSpec ClassLayout ClassSafety ClassSpec Storage Slabs Heap.
From S2P Require Import Marking RuntimeApi Strings Payloads StringSafety HostSafety.
From S2P Require Import Descriptors.

Local Open Scope string_scope.
Local Open Scope list_scope.
Local Open Scope N_scope.

(** Distinct globals lie at distinct addresses, none at the null pointer. *)
Class LawfulImage `{LinkedImage} : Prop := {
  address_inj : Inj (=) (=) global_address;
  address_nonzero name : global_address name ≠ 0;
  dynamic_string_nonzero : dynamic_string_address ≠ 0;
  dynamic_string_apart name : global_address name ≠ dynamic_string_address;
}.
#[export] Existing Instance address_inj.

(** ** Lookups by address *)

Section lookup.
Context `{LawfulImage}.

Lemma find_global {V} (l : list (string * V)) name :
  NoDup l.*1 → find (λ g, global_address g.1 =? global_address name) l = (name,.) <$> (list_to_map l : gmap string V) !! name.
Proof.
  induction l as [|[n v] l IH]; [done|]. cbn. intros [Hn Hl]%NoDup_cons.
  destruct (N.eqb_spec (global_address n) (global_address name)) as [He|He].
  - apply (inj global_address) in He as ->. by rewrite lookup_insert_eq.
  - rewrite lookup_insert_ne by congruence. by apply IH.
Qed.

Lemma find_no_global {V} (l : list (string * V)) a g : find (λ g, global_address g.1 =? a) l = Some g → a = global_address g.1.
Proof. intros [_ Hf%N.eqb_eq]%find_some. done. Qed.

Lemma global_at_name t name : global_at t (global_address name) = mjoin (descriptor_globals t !! name).
Proof.
  unfold global_at. rewrite find_global by apply NoDup_fst_map_to_list. rewrite list_to_map_to_list.
  by destruct (descriptor_globals t !! name).
Qed.

Lemma global_at_Some t a d : global_at t a = Some d → ∃ name, a = global_address name ∧ descriptor_globals t !! name = Some (Some d).
Proof.
  intros Hg. pose proof Hg as Hg'. unfold global_at in Hg. destruct (find _ _) as [[name i]|] eqn:Hf; [|done].
  apply find_no_global in Hf. cbn in Hf. subst a. exists name. split; [done|]. rewrite global_at_name in Hg'.
  by destruct (descriptor_globals t !! name) as [[d'|]|]; simplify_eq/=.
Qed.

Definition traces (t : descriptor_tables) : list (string * trace_function) :=
  map (λ g, (array_trace_name g.1, g.2)) (map_to_list (array_trace_functions_ t)) ++
  map (λ g, (class_trace_name g.1, g.2)) (map_to_list (class_trace_functions_ t)).

Lemma append_inj a b c : (a +:+ b) = (a +:+ c) → b = c.
Proof. induction a as [|x a IH]; [done|]. cbn. intros [=He]. by apply IH. Qed.

Lemma traces_NoDup t : NoDup (traces t).*1.
Proof.
  unfold traces. rewrite fmap_app. change (fmap fst (map ?f ?l)) with (map fst (map f l)). rewrite !map_map. cbn.
  assert (∀ (prefix : string) (m : gmap string trace_function), NoDup (map (λ g, prefix +:+ g.1) (map_to_list m))) as Hn.
  { intros prefix m. rewrite <-(map_map fst (λ n, prefix +:+ n)). apply NoDup_fmap_2; [|apply NoDup_fst_map_to_list].
    intros x y. apply append_inj. }
  apply NoDup_app. split_and!; [apply Hn| |apply Hn].
  intros x (g & -> & _)%list_elem_of_fmap (g' & He & _)%list_elem_of_fmap. discriminate He.
Qed.

Lemma trace_at_array t key f : array_trace_functions_ t !! key = Some f → trace_at t (global_address (array_trace_name key)) = Some f.
Proof.
  intros Hf. unfold trace_at. fold (traces t). rewrite find_global by apply traces_NoDup.
  rewrite (elem_of_list_to_map_1 _ _ f); [done|apply traces_NoDup|]. unfold traces. apply elem_of_app. left.
  apply list_elem_of_fmap. exists (key, f). split; [done|]. by apply elem_of_map_to_list.
Qed.

Lemma trace_at_class t key f : class_trace_functions_ t !! key = Some f → trace_at t (global_address (class_trace_name key)) = Some f.
Proof.
  intros Hf. unfold trace_at. fold (traces t). rewrite find_global by apply traces_NoDup.
  rewrite (elem_of_list_to_map_1 _ _ f); [done|apply traces_NoDup|]. unfold traces. apply elem_of_app. right.
  apply list_elem_of_fmap. exists (key, f). split; [done|]. by apply elem_of_map_to_list.
Qed.
End lookup.

(** ** The invariant of the tables *)

Definition class_code (id : symbol_id) : string := "c" +:+ qualified_name id +:+ "e".
Definition array_code (code : string) : string := "a" +:+ code +:+ "e".

Lemma class_key_eq id : class_key id = Ok (class_code id).
Proof. done. Qed.

(** Neither the code of a class nor of an array. *)
Definition scalar_code (key : string) : Prop :=
  match key with String x _ => x ≠ "a"%char ∧ x ≠ "c"%char | EmptyString => False end.

Definition holds_reference (item : lowered_field) : bool :=
  match managed_reference (fld_value_type (lf_value item)) with Ok true => true | _ => false end.
Definition reference_fields (lc : lowered_class) : list lowered_field := List.filter holds_reference (lc_fields lc).

(** ** Element types *)

(** The types an array may hold, whether they are references, and how they are stored. *)
Inductive element_shape : type → bool → llvm_type → Prop :=
| shape_string symbol arguments count :
    element_shape (mk_type NERI_IR_TYPE_STRING_V1 symbol arguments count) true PointerType
| shape_class id arguments count :
    element_shape (mk_type NERI_IR_TYPE_CLASS_V1 (Some id) arguments count) true PointerType
| shape_array symbol a arguments count :
    element_shape (mk_type NERI_IR_TYPE_ARRAY_V1 symbol (a :: arguments) count) true PointerType
| shape_optional symbol a count :
    array_element a = true → element_shape a true PointerType →
    element_shape (mk_type NERI_IR_TYPE_OPTIONAL_V1 symbol [a] count) true PointerType
| shape_scalar tag symbol arguments count pt :
    semantic_bits (scalar_properties tag) ≠ 0 →
    (∀ m, physical_scalar_type m (mk_type tag symbol arguments count) = Ok pt) → takes_room pt = true →
    element_shape (mk_type tag symbol arguments count) false pt
| shape_optional_scalar symbol a count pt :
    semantic_bits (scalar_properties (ty_tag a)) ≠ 0 →
    (∀ m, physical_scalar_type m (mk_type NERI_IR_TYPE_OPTIONAL_V1 symbol [a] count) = Ok pt) → takes_room pt = true →
    element_shape (mk_type NERI_IR_TYPE_OPTIONAL_V1 symbol [a] count) false pt.

Lemma scalar_shape t : is_scalar t = true → ∃ pt, element_shape t false pt.
Proof.
  destruct t as [tag symbol arguments count]. intros Hs.
  destruct tag; try (exfalso; by destruct symbol, arguments); eexists; by apply shape_scalar.
Qed.

Lemma optional_scalar_shape symbol a count :
  is_scalar a = true → ∃ pt, element_shape (mk_type NERI_IR_TYPE_OPTIONAL_V1 symbol [a] count) false pt.
Proof.
  destruct a as [tag s args n]. intros Hs.
  destruct tag; try (exfalso; by destruct s, args); eexists; by apply shape_optional_scalar.
Qed.

Lemma managed_shape t : is_supported_value t = true → Types.is_managed_reference t = true → element_shape t true PointerType.
Proof.
  induction t as [tag symbol arguments count IH] using type_nested_ind. intros Hs Hm.
  destruct tag; try (exfalso; by destruct symbol, arguments).
  - constructor.
  - destruct arguments as [|a l]; [by destruct symbol|]. constructor.
  - destruct symbol; [|by destruct arguments]. constructor.
  - destruct (supported_optional _ _ _ Hs) as (a & -> & _). apply Forall_cons in IH as [IH _].
    cbn in Hm. assert (Types.is_managed_reference a = true) as Hma by by destruct symbol.
    assert (is_supported_value a = true) as Hsa.
    { cbn in Hs. destruct symbol; [done|]. cbn in Hs. rewrite !andb_true_iff in Hs. tauto. }
    constructor; [|by apply IH]. unfold array_element. rewrite Hma. by rewrite orb_true_r.
Qed.

Lemma element_shaped t : is_supported_value t = true → array_element t = true → ∃ managed pt, element_shape t managed pt.
Proof.
  intros Hs He. unfold array_element in He. apply orb_true_iff in He as [He|He]; [apply orb_true_iff in He as [He|He]|].
  - apply scalar_shape in He as [pt ?]. by exists false, pt.
  - apply andb_true_iff in He as [Ht He]. destruct t as [tag symbol arguments count]. cbn in Ht. apply tag_eqb_eq in Ht as ->.
    cbn in He. destruct arguments as [|a [|]]; try done. apply (optional_scalar_shape symbol a count) in He as [pt ?]. by exists false, pt.
  - exists true, PointerType. by apply managed_shape.
Qed.

Lemma shape_reference t managed pt : element_shape t managed pt → managed_reference t = Ok managed.
Proof.
  induction 1 as [| | | ? ? ? _ _ IH|tag ? ? ? ? Hb _ _|? a ? ? Hb _ _]; try done.
  - by destruct tag.
  - destruct a as [[] ? ? ?]; done.
Qed.

Lemma shape_room t managed pt : element_shape t managed pt → takes_room pt = true ∧ (managed = true → pt = PointerType).
Proof. by destruct 1. Qed.

Lemma shape_physical m t managed pt : element_shape t managed pt → physical_scalar_type m t = Ok pt.
Proof.
  intros Hsh. pose proof (shape_reference _ _ _ Hsh) as Hr. destruct Hsh as [| | |symbol a count Ha Hsh|tag symbol arguments count pt Hb Hp Ht|symbol a count pt Hb Hp Ht]; try done.
  unfold physical_scalar_type. cbn -[managed_reference semantic_type]. cbn [semantic_type]. unfold uses_null_representation. rewrite Hr. done.
Qed.

Section tables.
Context `{LawfulDataLayout} `{LawfulImage}.
Variable legal : list byte → bool.
Variable module : ir_module.
Hypothesis supported : verify_supported_module legal module = Ok tt.
Notation index := (module_index module).
Hypothesis room : module_extent index module + 80 ≤ 2 ^ 64.
Variable st : lowered_classes.
Hypothesis built : build_class_layouts index = Ok st.
Variable retained_modules : bool.
Hypothesis whole : Forall (λ c, cls_retained c = false) (mod_classes module).
Notation class_name id := (class_global retained_modules (class_code id)).
Notation array_name code := (type_global (array_code code)).

Definition reference_name (name : string) : Prop :=
  (∃ id, name = class_name id) ∨ ∃ code, name = array_name code.

(** What an array descriptor says of its elements. *)
Definition element_name (t : descriptor_tables) (managed : bool) (name : string) : Prop :=
  name = string_literal_name ∧ managed = true ∨
  is_Some (descriptor_globals t !! name) ∧ (managed = true → reference_name name).

Inductive good_descriptor (t : descriptor_tables) : string → type_descriptor → Prop :=
| good_class c lc :
    c ∈ mod_classes module → layout_for_class st (cls_id c) = Ok lc →
    (reference_fields lc ≠ [] → class_trace_functions_ t !! class_code (cls_id c) =
       Some (TraceFields (map lf_offset (reference_fields lc)))) →
    good_descriptor t (class_name (cls_id c))
      (class_initializer (class_code (cls_id c)) lc (negb (empty (reference_fields lc)))
         (if empty (reference_fields lc) then 0 else global_address (class_trace_name (class_code (cls_id c)))))
| good_array code pt managed trace name :
    takes_room pt = true → (managed = true → pt = PointerType) →
    (if managed then ∃ k, trace = global_address (array_trace_name k) ∧ array_trace_functions_ t !! k = Some (TraceElements 24 8)
     else trace = 0) →
    element_name t managed name →
    good_descriptor t (array_name code)
      (array_initializer (array_code code) (align_up 8 (abi_type_align pt)) (N.max 8 (abi_type_align pt)) (type_alloc_size pt)
         (abi_type_align pt) managed trace (global_address name))
| good_scalar key d :
    scalar_code key → td_kind d ∈ [TYPE_KIND_INLINE_AGGREGATE; TYPE_KIND_SCALAR] → td_trace d = 0 →
    td_element_type d = 0 → good_descriptor t (type_global key) d.

Record tables_ok (t : descriptor_tables) : Prop := {
  tb_globals name d : descriptor_globals t !! name = Some (Some d) → good_descriptor t name d;
  tb_classes id name : class_descriptors_ t !! id = Some name → name = class_name id ∧ is_Some (descriptor_globals t !! name);
  tb_types key name : type_descriptors_ t !! key = Some name → is_Some (descriptor_globals t !! name) ∧
    match key with String "c"%char _ => True | _ => name = type_global key end;
  tb_arrays key f : array_trace_functions_ t !! key = Some f → f = TraceElements 24 8;
  tb_traces key f : class_trace_functions_ t !! key = Some f → ∃ c lc, c ∈ mod_classes module ∧ key = class_code (cls_id c) ∧
    layout_for_class st (cls_id c) = Ok lc ∧ f = TraceFields (map lf_offset (reference_fields lc));
}.

(** Nothing that was there is lost. *)
Record extends (t t' : descriptor_tables) : Prop := {
  ex_globals name : is_Some (descriptor_globals t !! name) → is_Some (descriptor_globals t' !! name);
  ex_classes : class_descriptors_ t ⊆ class_descriptors_ t';
  ex_arrays : array_trace_functions_ t ⊆ array_trace_functions_ t';
  ex_traces : class_trace_functions_ t ⊆ class_trace_functions_ t';
}.

Lemma tables_extend_refl t : extends t t.
Proof. by constructor. Qed.

Lemma extends_trans t1 t2 t3 : extends t1 t2 → extends t2 t3 → extends t1 t3.
Proof. intros [G1 C1 A1 T1] [G2 C2 A2 T2]. constructor; [naive_solver|by etrans..]. Qed.

Lemma good_extends t t' name d : extends t t' → good_descriptor t name d → good_descriptor t' name d.
Proof.
  intros He [c lc Hc Hl Ht|code pt managed trace en Hr Hp Ht Hn|key d' Hx1 Hx2 Hx3 Hx4].
  - constructor; [done..|]. intros Hne. eapply lookup_weaken; [by apply Ht|apply (ex_traces _ _ He)].
  - constructor; [done|done| |].
    + destruct managed; [|done]. destruct Ht as (k & -> & Hk). exists k. split; [done|]. eapply lookup_weaken; [done|apply (ex_arrays _ _ He)].
    + destruct Hn as [Hn|[Hs Hn]]; [by left|right]. split; [|done]. by apply (ex_globals _ _ He).
  - by constructor.
Qed.

(** Setting a global, to nothing yet or to a good descriptor. *)
Lemma extends_set_global name initializer t : extends t (set_global name initializer t).
Proof. constructor; cbn; try done. intros n Hn. by apply lookup_insert_is_Some'; right. Qed.

Lemma tables_ok_set_global name initializer t :
  tables_ok t → (∀ d, initializer = Some d → good_descriptor t name d) → tables_ok (set_global name initializer t).
Proof.
  intros Ht Hd. pose proof (extends_set_global name initializer t) as He. constructor.
  - intros n d. cbn. rewrite lookup_insert_Some. intros [[<- Hi]|[_ Hn]]; eapply good_extends; eauto. by apply (tb_globals _ Ht).
  - intros id n Hn. destruct (tb_classes _ Ht id n Hn). split; [done|]. by apply (ex_globals _ _ He).
  - intros key n Hn. destruct (tb_types _ Ht key n Hn). split; [|done]. by apply (ex_globals _ _ He).
  - apply (tb_arrays _ Ht).
  - apply (tb_traces _ Ht).
Qed.

Lemma extends_emplace_type key name t : extends t (emplace_type key name t).
Proof. by constructor. Qed.

Lemma tables_ok_emplace_type key name t :
  tables_ok t → is_Some (descriptor_globals t !! name) → match key with String "c"%char _ => True | _ => name = type_global key end →
  tables_ok (emplace_type key name t).
Proof.
  intros Ht Hs Hk. constructor; try apply Ht.
  - intros n d Hn. eapply good_extends; [apply extends_emplace_type|by apply (tb_globals _ Ht)].
  - intros k n. cbn. unfold try_emplace. destruct (type_descriptors_ t !! key) eqn:E; [apply (tb_types _ Ht)|].
    rewrite lookup_insert_Some. intros [[<- <-]|[_ Hn]]; [done|by apply (tb_types _ Ht)].
Qed.

(** ** Class metadata *)

Lemma declare_class_ok c t :
  tables_ok t → returns (declare_class retained_modules c t) (λ t', tables_ok t' ∧ extends t t' ∧
    is_Some (class_descriptors_ t' !! cls_id c) ∧
    ∀ name, descriptor_globals t' !! name = Some None → descriptor_globals t !! name = Some None ∨ name = class_name (cls_id c)).
Proof.
  intros Ht. unfold declare_class. rewrite class_key_eq, bind_Ok. apply returns_Ok. set (name := class_name (cls_id c)).
  set (t1 := set_global name None t). assert (tables_ok t1) as Hb1 by by apply tables_ok_set_global.
  set (t2 := mk_tables _ _ _ _ _).
  assert (extends t1 t2) as He.
  { constructor; cbn; try done. unfold try_emplace. destruct (class_descriptors_ t !! cls_id c) eqn:E; [done|by apply insert_subseteq]. }
  assert (is_Some (descriptor_globals t1 !! name)) as Hname by (cbn; rewrite lookup_insert_eq; by eexists).
  assert (tables_ok t2) as Hb2.
  { constructor; try apply Hb1.
    - intros n d Hn. eapply good_extends; [exact He|by apply (tb_globals _ Hb1)].
    - intros id n. cbn. unfold try_emplace. destruct (class_descriptors_ t !! cls_id c) eqn:E; [apply (tb_classes _ Hb1)|].
      rewrite lookup_insert_Some. intros [[<- <-]|[_ Hn]]; [done|by apply (tb_classes _ Hb1)]. }
  split_and!.
  - by apply tables_ok_emplace_type.
  - eapply extends_trans; [apply extends_set_global|]. eapply extends_trans; [exact He|apply extends_emplace_type].
  - cbn. unfold try_emplace. destruct (class_descriptors_ t !! cls_id c) eqn:E; [by eexists|]. rewrite lookup_insert_eq. by eexists.
  - intros n. cbn. rewrite lookup_insert_Some. intros [[<- _]|[_ Hn]]; [by right|by left].
Qed.

Lemma class_code_inj c c' :
  c ∈ mod_classes module → c' ∈ mod_classes module → class_code (cls_id c) = class_code (cls_id c') → c = c'.
Proof.
  intros Hc Hc' He. unfold class_code in He. cbn in He. injection He as He. apply qualified_cancel in He as [He _].
  apply (NoDup_map_eq cls_id (mod_classes module)); [exact (class_ids_unique legal module supported)|done..|].
  pose proof (sup_classes _ _ (module_ok legal module supported)) as Hall. rewrite Forall_forall in Hall.
  destruct (Hall c Hc) as [Hm1 Hk1 _ _ _ _], (Hall c' Hc') as [Hm2 Hk2 _ _ _ _].
  destruct (cls_id c), (cls_id c'). cbn in *. congruence.
Qed.

Definition decided (item : lowered_field) : Prop :=
  managed_reference (fld_value_type (lf_value item)) = Ok (holds_reference item).

Lemma layout_field_declared c lc :
  c ∈ mod_classes module → layout_for_class st (cls_id c) = Ok lc → ∀ item, item ∈ lc_fields lc →
  ∃ d, require_declared_type (C:=module_verification_index) index (fld_value_type (lf_value item)) d = Ok tt.
Proof.
  intros Hc Hlc item Hin. destruct (built_ok legal module supported room st built) as [_ Hall].
  destruct (Hall c Hc) as (lc' & l & Hlc' & Hv & Hl & Ho). unfold layout_for_class, at_symbol in Hlc. rewrite Hlc' in Hlc.
  injection Hlc as ->. assert (lf_value item ∈ all_fields l) as Hf.
  { rewrite <-(place_fields_values index 0), <-(lo_fields _ _ _ Ho). by apply list_elem_of_fmap_2. }
  apply list_elem_of_In, in_concat in Hf as (fs & Hfs & Hf). apply in_map_iff in Hfs as (x & <- & Hx). apply list_elem_of_In in Hx, Hf.
  pose proof (lineage_members module c l Hl Hc x Hx) as Hxc.
  pose proof (sup_classes _ _ (module_ok legal module supported)) as Hcs. rewrite Forall_forall in Hcs.
  pose proof (class_fields _ _ (Hcs x Hxc)) as Hfo. rewrite Forall_forall in Hfo. destruct (Hfo _ Hf) as (_ & _ & Ht). by eexists.
Qed.

Lemma layout_value c lc : c ∈ mod_classes module → layout_for_class st (cls_id c) = Ok lc → lc_value lc = c.
Proof.
  intros Hc Hlc. destruct (built_ok legal module supported room st built) as [_ Hall].
  destruct (Hall c Hc) as (lc' & l & Hlc' & Hv & _). unfold layout_for_class, at_symbol in Hlc. rewrite Hlc' in Hlc. congruence.
Qed.

Lemma layout_decided c lc :
  c ∈ mod_classes module → layout_for_class st (cls_id c) = Ok lc → lc_value lc = c ∧ Forall decided (lc_fields lc).
Proof.
  intros Hc Hlc. split; [by apply layout_value|]. apply Forall_forall. intros item Hin.
  destruct (layout_field_declared c lc Hc Hlc item Hin) as [d Ht].
  apply declared_supported, managed_reference_returns in Ht as [b Hb]. unfold decided, holds_reference. rewrite Hb. by destruct b.
Qed.

Lemma has_references_ok fields : Forall decided fields → has_references fields = Ok (negb (empty (List.filter holds_reference fields))).
Proof.
  induction 1 as [|item fields Hi _ IH]; [done|]. cbn [has_references List.filter]. rewrite Hi, bind_Ok. by destruct (holds_reference item).
Qed.

Lemma trace_fields_ok fields offsets :
  Forall decided fields →
  for_state fields offsets trace_field = Ok (offsets ++ map lf_offset (List.filter holds_reference fields)).
Proof.
  intros Hf. revert offsets. induction Hf as [|item fields Hi _ IH]; intros offsets; [by rewrite app_nil_r|].
  cbn [for_state List.filter].
  assert (trace_field item offsets = Ok (if holds_reference item then offsets ++ [lf_offset item] else offsets)) as ->
    by (unfold trace_field; by rewrite Hi).
  rewrite bind_Ok, IH. destruct (holds_reference item); [|done]. cbn [map].
  by rewrite <-app_assoc.
Qed.

Lemma class_trace_ok c lc t :
  tables_ok t → c ∈ mod_classes module → layout_for_class st (cls_id c) = Ok lc →
  returns (class_trace_function lc t) (λ p, p.1 = class_trace_name (class_code (cls_id c)) ∧ tables_ok p.2 ∧ extends t p.2 ∧
    class_trace_functions_ p.2 !! class_code (cls_id c) = Some (TraceFields (map lf_offset (reference_fields lc))) ∧
    descriptor_globals p.2 = descriptor_globals t ∧ class_descriptors_ p.2 = class_descriptors_ t).
Proof.
  intros Ht Hc Hlc. destruct (layout_decided c lc Hc Hlc) as [Hv Hd]. unfold class_trace_function. rewrite Hv, class_key_eq, bind_Ok.
  destruct (class_trace_functions_ t !! class_code (cls_id c)) as [f|] eqn:Hf.
  - apply returns_Ok. split_and!; [done|done|apply tables_extend_refl| |done|done]. cbn.
    destruct (tb_traces _ Ht _ _ Hf) as (c' & lc' & Hc' & He & Hlc' & ->). apply class_code_inj in He as <-; [|done..].
    rewrite Hlc in Hlc'. by injection Hlc' as <-.
  - rewrite trace_fields_ok, bind_Ok by done. apply returns_Ok. cbn [app fst snd].
    set (t' := mk_tables _ _ _ _ _). assert (extends t t') as He by (constructor; cbn; try done; by apply insert_subseteq).
    split_and!; [done| |done|cbn; by rewrite lookup_insert_eq|done|done].
    constructor; try apply Ht.
    + intros n d Hn. eapply good_extends; [exact He|by apply (tb_globals _ Ht)].
    + intros key g. cbn. rewrite lookup_insert_Some. intros [[<- <-]|[_ Hg]]; [by exists c, lc|by apply (tb_traces _ Ht)].
Qed.

Definition classes_declared (t : descriptor_tables) : Prop :=
  ∀ c, c ∈ mod_classes module → is_Some (class_descriptors_ t !! cls_id c).

Lemma class_descriptor_declared t c :
  tables_ok t → classes_declared t → c ∈ mod_classes module → class_descriptor t (cls_id c) = Ok (class_name (cls_id c)).
Proof.
  intros Ht Hd Hc. destruct (Hd c Hc) as [name Hn]. unfold class_descriptor, at_symbol. rewrite Hn.
  by destruct (tb_classes _ Ht _ _ Hn) as [-> _].
Qed.

Lemma base_declared t c base :
  classes_declared t → c ∈ mod_classes module → cls_base c = Some base → ∃ name, class_descriptor t base = Ok name.
Proof.
  intros Hd Hc Hb. pose proof (sup_classes _ _ (module_ok legal module supported)) as Hall. rewrite Forall_forall in Hall.
  destruct (class_base _ _ (Hall c Hc) base Hb) as [b Hf]. apply found_class in Hf as [Hbin <-]. destruct (Hd b Hbin) as [name Hn].
  exists name. unfold class_descriptor, at_symbol. by rewrite Hn.
Qed.

Lemma define_class_ok c t :
  tables_ok t → classes_declared t → c ∈ mod_classes module →
  returns (define_class st c t) (λ t', tables_ok t' ∧ extends t t' ∧
    ∀ name, descriptor_globals t' !! name = Some None → descriptor_globals t !! name = Some None ∧ name ≠ class_name (cls_id c)).
Proof.
  intros Ht Hdecl Hc. unfold define_class.
  assert (cls_retained c = false) as -> by (rewrite Forall_forall in whole; by apply whole).
  destruct (built_ok legal module supported room st built) as [_ Hall].
  destruct (Hall c Hc) as (lc & l & Hlc' & _). assert (layout_for_class st (cls_id c) = Ok lc) as Hlc by (unfold layout_for_class, at_symbol; by rewrite Hlc').
  destruct (layout_decided c lc Hc Hlc) as [Hv Hd]. rewrite Hlc, bind_Ok, class_key_eq, bind_Ok, has_references_ok, bind_Ok by done.
  change (List.filter holds_reference (lc_fields lc)) with (reference_fields lc).
  eapply (returns_bind _ _ (λ p, p.1 = (if empty (reference_fields lc) then 0 else global_address (class_trace_name (class_code (cls_id c)))) ∧
    tables_ok p.2 ∧ extends t p.2 ∧ descriptor_globals p.2 = descriptor_globals t ∧ class_descriptors_ p.2 = class_descriptors_ t ∧
    (reference_fields lc ≠ [] → class_trace_functions_ p.2 !! class_code (cls_id c) = Some (TraceFields (map lf_offset (reference_fields lc)))))).
  { destruct (reference_fields lc) as [|x xs] eqn:Hr; cbn [negb empty].
    - apply returns_Ok. split_and!; try done.
    - eapply returns_bind; [by apply (class_trace_ok c lc t)|]. intros [n t'] (Hp1 & Hp2 & Hp3 & Hp4 & Hp5 & Hp6). apply returns_Ok.
      cbn [fst snd] in *. subst n. rewrite Hr in Hp4. by split_and!. }
  intros [trace t1] (Htrace & Ht1 & He1 & Hg1 & Hc1 & Htr). cbn [fst snd] in *. subst trace.
  assert (classes_declared t1) as Hdecl1 by (intros x Hx; rewrite Hc1; by apply Hdecl).
  rewrite (class_descriptor_declared t1 c), bind_Ok by done.
  assert (∀ m : result unit, m = match cls_base c with Some base => base ← class_descriptor t1 base; Ok tt | None => Ok tt end → m = Ok tt) as Hbase.
  { intros m ->. destruct (cls_base c) as [base|] eqn:Hb; [|done]. destruct (base_declared t1 c base Hdecl1 Hc Hb) as [name Hn]. by rewrite Hn. }
  rewrite (Hbase _ eq_refl), bind_Ok. apply returns_Ok. split_and!.
  - apply tables_ok_set_global; [done|]. intros d [= <-]. by apply good_class.
  - eapply extends_trans; [exact He1|apply extends_set_global].
  - intros name. cbn. rewrite lookup_insert_Some, Hg1. intros [[_ ?]|[Hne Hn]]; [done|]. by split; [|congruence].
Qed.

(** After the class metadata: every class has its descriptor, and none is missing. *)
Lemma declare_classes_ok cs t :
  tables_ok t → returns (for_state cs t (declare_class retained_modules)) (λ t', tables_ok t' ∧ extends t t' ∧
    (∀ c, c ∈ cs → is_Some (class_descriptors_ t' !! cls_id c)) ∧
    ∀ name, descriptor_globals t' !! name = Some None → descriptor_globals t !! name = Some None ∨ ∃ c, c ∈ cs ∧ name = class_name (cls_id c)).
Proof.
  revert t. induction cs as [|c cs IH]; intros t Ht; cbn [for_state].
  - apply returns_Ok. split_and!; [done|apply tables_extend_refl|by intros c ?%elem_of_nil|by left].
  - eapply returns_bind; [by apply declare_class_ok|]. intros t1 (Ht1 & He1 & Hc1 & Hn1).
    eapply returns_weaken; [by apply IH|]. intros t2 (Ht2 & He2 & Hc2 & Hn2). split_and!; [done|by eapply extends_trans| |].
    + intros x [->|Hx]%elem_of_cons; [|by apply Hc2]. destruct Hc1 as [n Hn]. exists n. eapply lookup_weaken; [exact Hn|apply (ex_classes _ _ He2)].
    + intros name Hn. destruct (Hn2 name Hn) as [Hn'|(x & Hx & ->)]; [|right; exists x; split; [by right|done]].
      destruct (Hn1 name Hn') as [Hn''| ->]; [by left|right; exists c; split; [by left|done]].
Qed.

Lemma define_classes_ok cs t :
  tables_ok t → classes_declared t → (∀ c, c ∈ cs → c ∈ mod_classes module) →
  returns (for_state cs t (define_class st)) (λ t', tables_ok t' ∧ extends t t' ∧
    ∀ name, descriptor_globals t' !! name = Some None → descriptor_globals t !! name = Some None ∧ ∀ c, c ∈ cs → name ≠ class_name (cls_id c)).
Proof.
  revert t. induction cs as [|c cs IH]; intros t Ht Hdecl Hin; cbn [for_state].
  - apply returns_Ok. split_and!; [done|apply tables_extend_refl|]. intros name Hn. split; [done|]. by intros c ?%elem_of_nil.
  - eapply returns_bind; [apply define_class_ok; [done|done|apply Hin; by left]|]. intros t1 (Ht1 & He1 & Hn1).
    eapply returns_weaken; [apply IH; [done| |intros x Hx; apply Hin; by right]|].
    + intros x Hx. destruct (Hdecl x Hx) as [n Hn]. exists n. eapply lookup_weaken; [exact Hn|apply (ex_classes _ _ He1)].
    + intros t2 (Ht2 & He2 & Hn2). split_and!; [done|by eapply extends_trans|]. intros name Hn. destruct (Hn2 name Hn) as [Hn' Hcs].
      destruct (Hn1 name Hn') as [Hn'' Hne]. split; [done|]. intros x [->|Hx]%elem_of_cons; [done|by apply Hcs].
Qed.

Definition complete (t : descriptor_tables) (pending : string → Prop) : Prop :=
  ∀ name, descriptor_globals t !! name = Some None → pending name.

Lemma class_metadata_ok :
  returns (declare_class_metadata index retained_modules st no_tables) (λ t, tables_ok t ∧ classes_declared t ∧ complete t (λ _, False)).
Proof.
  unfold declare_class_metadata. cbn [module_index idx_module].
  eapply returns_bind; [apply declare_classes_ok; by constructor|]. intros t1 (Ht1 & _ & Hc1 & Hn1).
  eapply returns_weaken; [apply define_classes_ok; done|]. intros t2 (Ht2 & He2 & Hn2). split_and!; [done| |].
  - intros x Hx. destruct (Hc1 x Hx) as [n Hn]. exists n. eapply lookup_weaken; [exact Hn|apply (ex_classes _ _ He2)].
  - intros name Hn. destruct (Hn2 name Hn) as [Hn' Hne]. destruct (Hn1 name Hn') as [?|(c & Hc & ->)]; [done|by apply (Hne c)].
Qed.

(** ** Array metadata *)

Lemma element_storage e managed pt :
  element_shape e managed pt →
  storage_size index e = Ok (type_alloc_size pt) ∧ storage_alignment index e = Ok (abi_type_align pt) ∧
  array_payload_element_offset index e = Ok (align_up 8 (abi_type_align pt)) ∧
  array_payload_alignment index e = Ok (N.max 8 (abi_type_align pt)) ∧
  (managed = true → array_elements_offset index e = Ok 24).
Proof.
  intros Hsh. pose proof (shape_physical (idx_module index) _ _ _ Hsh) as Hp.
  unfold array_elements_offset, array_payload_element_offset, array_payload_alignment, storage_size, storage_alignment.
  rewrite Hp. split_and!; try done. intros ->. destruct (shape_room _ _ _ Hsh) as [_ Hpt]. rewrite (Hpt eq_refl) in *.
  cbn. by rewrite pointer_align.
Qed.

(** A step that adds descriptors and leaves none behind that has no initializer. *)
Definition added (t : descriptor_tables) (managed : bool) (p : string * descriptor_tables) : Prop :=
  tables_ok p.2 ∧ extends t p.2 ∧ class_descriptors_ p.2 = class_descriptors_ t ∧ element_name p.2 managed p.1 ∧
  ∀ name, descriptor_globals p.2 !! name = Some None → descriptor_globals t !! name = Some None.

Lemma array_trace_ok e pt t :
  tables_ok t → element_shape e true pt → (∃ code, type_code e = Ok code) →
  returns (array_trace_function index e t) (λ p, tables_ok p.2 ∧ extends t p.2 ∧ class_descriptors_ p.2 = class_descriptors_ t ∧
    descriptor_globals p.2 = descriptor_globals t ∧
    ∃ k, p.1 = array_trace_name k ∧ array_trace_functions_ p.2 !! k = Some (TraceElements 24 8)).
Proof.
  intros Ht Hsh [code Hcode]. destruct (element_storage _ _ _ Hsh) as (Hsize & _ & _ & _ & Hoff).
  unfold array_trace_function. rewrite Hcode, bind_Ok. destruct (array_trace_functions_ t !! code) as [f|] eqn:Hf.
  - apply returns_Ok. split_and!; [done|apply tables_extend_refl|done|done|]. exists code. split; [done|]. cbn. rewrite Hf.
    by rewrite (tb_arrays _ Ht _ _ Hf).
  - rewrite Hoff, bind_Ok, Hsize, bind_Ok by done. apply returns_Ok. destruct (shape_room _ _ _ Hsh) as [_ Hpt].
    rewrite (Hpt eq_refl), pointer_size. cbn [fst snd]. set (t' := mk_tables _ _ _ _ _).
    assert (extends t t') as He by (constructor; cbn; try done; by apply insert_subseteq).
    split_and!; [|done|done|done|exists code; split; [done|cbn; by rewrite lookup_insert_eq]].
    constructor; try apply Ht.
    + intros n d Hn. eapply good_extends; [exact He|by apply (tb_globals _ Ht)].
    + intros key g. cbn. rewrite lookup_insert_Some. intros [[_ <-]|[_ Hg]]; [done|by apply (tb_arrays _ Ht _ _ Hg)].
Qed.

Lemma array_descriptor_ok e managed pt t element_descriptor :
  tables_ok t → element_shape e managed pt → (∃ code, type_code e = Ok code) →
  (∀ t', tables_ok t' → class_descriptors_ t' = class_descriptors_ t → returns (element_descriptor t') (added t' managed)) →
  returns (array_descriptor_with index element_descriptor e t) (added t true).
Proof.
  intros Ht Hsh Hcoded Hel. pose proof Hcoded as [code Hcode]. unfold array_descriptor_with. rewrite Hcode, bind_Ok.
  fold (array_code code). destruct (type_descriptors_ t !! array_code code) as [found|] eqn:Hfound.
  { apply returns_Ok. destruct (tb_types _ Ht _ _ Hfound) as [Hs Hn]. cbn in Hn. split_and!; [done|apply tables_extend_refl|done| |done].
    right. split; [done|]. intros _. right. by exists code. }
  set (name := array_name code). set (t1 := emplace_type (array_code code) name (set_global name None t)).
  assert (tables_ok t1) as Ht1.
  { apply tables_ok_emplace_type; [by apply tables_ok_set_global| |done]. cbn. rewrite lookup_insert_eq. by eexists. }
  assert (extends t t1) as He1 by (eapply extends_trans; [apply extends_set_global|apply extends_emplace_type]).
  rewrite (shape_reference _ _ _ Hsh), bind_Ok.
  eapply (returns_bind _ _ (λ p, tables_ok p.2 ∧ extends t1 p.2 ∧ class_descriptors_ p.2 = class_descriptors_ t1 ∧
    descriptor_globals p.2 = descriptor_globals t1 ∧
    if managed then ∃ k, p.1 = global_address (array_trace_name k) ∧ array_trace_functions_ p.2 !! k = Some (TraceElements 24 8) else p.1 = 0)).
  { destruct managed.
    - eapply returns_bind; [by eapply array_trace_ok|]. intros [n t2] (Ht2 & He2 & Hc2 & Hg2 & k & Hn & Hk). apply returns_Ok.
      cbn [fst snd] in *. subst n. split_and!; [done..|]. by exists k.
    - apply returns_Ok. split_and!; try done. }
  intros [trace t2] (Ht2 & He2 & Hc2 & Hg2 & Htrace). cbn [fst snd] in *.
  destruct (element_storage _ _ _ Hsh) as (Hsize & Hal & Hoff & Hpal & _).
  rewrite Hoff, bind_Ok, Hpal, bind_Ok, Hsize, bind_Ok, Hal, bind_Ok.
  eapply returns_bind; [by apply Hel|]. intros [en t3] (Ht3 & He3 & Hc3 & Hn3 & Hp3). cbn [fst snd] in *. apply returns_Ok.
  destruct (shape_room _ _ _ Hsh) as [Hroom Hpt].
  assert (good_descriptor t3 name (array_initializer (array_code code) (align_up 8 (abi_type_align pt)) (N.max 8 (abi_type_align pt))
    (type_alloc_size pt) (abi_type_align pt) managed trace (global_address en))) as Hgood.
  { constructor; [done|done| |done]. destruct managed; [|done]. destruct Htrace as (k & -> & Hk). exists k. split; [done|].
    eapply lookup_weaken; [done|apply (ex_arrays _ _ He3)]. }
  split_and!.
  - apply tables_ok_set_global; [done|]. by intros d [= <-].
  - eapply extends_trans; [exact He1|]. eapply extends_trans; [exact He2|]. eapply extends_trans; [exact He3|apply extends_set_global].
  - cbn. by rewrite Hc3, Hc2.
  - right. cbn. rewrite lookup_insert_eq. split; [by eexists|]. intros _. right. by exists code.
  - intros n. cbn. rewrite lookup_insert_Some. intros [[_ ?]|[Hne Hn]]; [done|]. apply Hp3 in Hn. rewrite Hg2 in Hn.
    cbn in Hn. by rewrite lookup_insert_ne in Hn.
Qed.

Lemma scalar_descriptor_ok e pt t :
  tables_ok t → element_shape e false pt → (∃ code, type_code e = Ok code) →
  returns (scalar_descriptor index e t) (added t false).
Proof.
  intros Ht Hsh [code Hcode]. unfold scalar_descriptor. rewrite Hcode, bind_Ok.
  destruct (type_descriptors_ t !! code) as [found|] eqn:Hfound.
  { apply returns_Ok. destruct (tb_types _ Ht _ _ Hfound) as [Hs _]. split_and!; [done|apply tables_extend_refl|done| |done].
    by right. }
  destruct (element_storage _ _ _ Hsh) as (Hsize & Hal & _).
  assert (scalar_code code ∧ match code with String "c"%char _ => True | _ => type_global code = type_global code end) as [Hsc Hnm].
  { pose proof (type_code_coded _ _ Hcode) as Hcd.
    assert (scalar_code code) as Hsc.
    { inversion Hsh as [| | | |tag symbol arguments count pt' Hb _ _|symbol a count pt' Hb _ _]; subst.
      - destruct tag; try done; cbn in Hcode; injection Hcode as <-; by split.
      - cbn in Hcode. apply bind_Ok_inv in Hcode as (c & _ & [= <-]). by split. }
    split; [done|]. destruct code as [|x k]; [done|]. destruct Hsc as [_ Hne]. by repeat case_match. }
  assert (∃ indirect, is_indirect_optional e = Ok indirect ∧
    (indirect = false → runtime_kind (scalar_properties (ty_tag e)) ≠ SCALAR_KIND_NONE)) as (indirect & Hind & Hkind).
  { pose proof (shape_reference _ _ _ Hsh) as Hr. unfold is_indirect_optional, uses_null_representation. rewrite Hr.
    inversion Hsh as [| | | |tag symbol arguments count pt' Hb _ _|symbol a count pt' Hb _ _]; subst.
    - destruct tag; try done; by exists false.
    - exists true. destruct a as [[] ? ? ?]; done. }
  rewrite Hind, bind_Ok.
  eapply (returns_bind _ _ (λ _, True)).
  { destruct indirect; [by apply returns_Ok|]. by rewrite (proj2 (N.eqb_neq _ _) (Hkind eq_refl)); apply returns_Ok. }
  intros kind _. rewrite Hsize, bind_Ok, Hal, bind_Ok. apply returns_Ok. set (d := mk_type_descriptor _ _ _ _ _ _ _ _ _ _ _ _ _ _ _ _).
  set (name := type_global code). set (t1 := set_global name (Some d) t).
  assert (tables_ok t1) as Ht1.
  { apply tables_ok_set_global; [done|]. intros d' [= <-]. apply good_scalar; [done| |done|done]. destruct indirect; vm_compute; find_pair. }
  assert (set_global name (Some d) (emplace_type code name t) = emplace_type code name t1) as -> by done. cbn [fst snd].
  split_and!; cbn [fst snd].
  - apply tables_ok_emplace_type; [done| |by destruct code as [|x k]; repeat case_match]. cbn. rewrite lookup_insert_eq. by eexists.
  - eapply extends_trans; [apply extends_set_global|apply extends_emplace_type].
  - done.
  - right. split; [cbn; rewrite lookup_insert_eq; by eexists|done].
  - intros n. cbn. rewrite lookup_insert_Some. by intros [[_ ?]|[_ ?]].
Qed.

(** ** Elements *)

(** The verifier declares the type. *)
Definition declared_type (e : type) : Prop := ∃ d, require_declared_type (C:=module_verification_index) index e d = Ok tt.

Lemma declared_front tag symbol a l count d :
  require_declared_type (C:=module_verification_index) index (mk_type tag symbol (a :: l) count) d = Ok tt →
  tag ≠ NERI_IR_TYPE_POINTER_V1 → tag ≠ NERI_IR_TYPE_C_FUNCTION_V1 → declared_type a.
Proof.
  intros Hd Hp Hc. destruct (declared_parts _ _ _ Hd) as (_ & _ & Hargs). exists d. apply (Hargs 0%nat); [done|]. by apply not_exempt.
Qed.

Lemma declared_array_element symbol a l count d :
  require_declared_type (C:=module_verification_index) index (mk_type NERI_IR_TYPE_ARRAY_V1 symbol (a :: l) count) d = Ok tt →
  declared_type a ∧ array_element a = true.
Proof.
  intros Hd. split; [by eapply declared_front|]. apply declared_supported in Hd. destruct symbol; [done|]. destruct l; [|done].
  change (negb (is_void a) && array_element a && is_supported_value a || false = true) in Hd.
  rewrite orb_false_r, !andb_true_iff in Hd. tauto.
Qed.

Lemma declared_class id arguments count d :
  require_declared_type (C:=module_verification_index) index (mk_type NERI_IR_TYPE_CLASS_V1 (Some id) arguments count) d = Ok tt →
  ∃ c, c ∈ mod_classes module ∧ cls_id c = id.
Proof.
  intros Hd. destruct (declared_parts _ _ _ Hd) as (Hh & Hs & _). assert (arguments = []) as -> by by destruct arguments.
  unfold require_declared_head in Hh. rewrite !seq_Ok_iff in Hh. destruct Hh as (_ & _ & _ & _ & _ & Hh).
  cbn -[find_class] in Hh. destruct (find_class index id) as [c|] eqn:Hf; [|done]. exists c. by apply found_class.
Qed.

Lemma element_descriptor_ok e :
  ∀ managed pt t, declared_type e → element_shape e managed pt → tables_ok t → classes_declared t →
  returns (element_descriptor index e t) (added t managed).
Proof.
  induction e as [tag symbol arguments count IH] using type_nested_ind. intros managed pt t [d Hd] Hsh Ht Hc.
  pose proof (declared_code _ _ _ Hd) as Hcode. pose proof (shape_reference _ _ _ Hsh) as Href.
  cbn -[managed_reference scalar_descriptor array_descriptor_with]. cbn [element_descriptor]. rewrite Href, bind_Ok.
  inversion Hsh as [|id|symbol' a l|symbol' a count' Hae Ha|tag' symbol' arguments' count' pt' Hb Hp Hr|symbol' a count' pt' Hb Hp Hr]; subst.
  - apply returns_Ok. split_and!; [done|apply tables_extend_refl|done|by left|done].
  - cbn [deref]. rewrite bind_Ok. destruct (declared_class _ _ _ _ Hd) as (c & Hcin & <-).
    rewrite class_descriptor_declared, bind_Ok by done. apply returns_Ok. split_and!; [done|apply tables_extend_refl|done| |done].
    right. destruct (Hc c Hcin) as [n Hn]. destruct (tb_classes _ Ht _ _ Hn) as [-> Hs]. split; [done|]. intros _. left. by eexists.
  - apply Forall_cons in IH as [IH _]. destruct (declared_array_element _ _ _ _ _ Hd) as [Hda Hea].
    destruct Hda as [d' Hd']. destruct (element_shaped a (declared_supported _ _ _ Hd') Hea) as (m & pt & Hsa).
    eapply array_descriptor_ok; [done|exact Hsa|by eapply declared_code|]. intros t' Ht' Hct. eapply IH; [by exists d'|exact Hsa|done|].
    intros c Hcin. rewrite Hct. by apply Hc.
  - apply Forall_cons in IH as [IH _]. eapply IH; [by eapply declared_front|done..].
  - assert (returns (scalar_descriptor index (mk_type tag symbol arguments count) t) (added t false)) as Hscalar
      by by eapply scalar_descriptor_ok.
    by destruct tag.
  - by eapply scalar_descriptor_ok.
Qed.

Lemma array_descriptors_ok elements t :
  Forall (λ e, declared_type e ∧ array_element e = true) elements → tables_ok t → classes_declared t → complete t (λ _, False) →
  returns (for_state elements t (λ element t, '(_, t) ← array_descriptor index element t; Ok t))
    (λ t', tables_ok t' ∧ classes_declared t' ∧ complete t' (λ _, False) ∧ extends t t').
Proof.
  intros He. revert t. induction He as [|e elements [[d Hd] Hae] _ IH]; intros t Ht Hc Hn; cbn [for_state].
  - apply returns_Ok. split_and!; [done..|apply tables_extend_refl].
  - destruct (element_shaped e (declared_supported _ _ _ Hd) Hae) as (m & pt & Hsh).
    eapply (returns_bind _ _ (λ t', tables_ok t' ∧ classes_declared t' ∧ complete t' (λ _, False) ∧ extends t t')).
    + eapply returns_bind.
      { eapply array_descriptor_ok; [done|exact Hsh|by eapply declared_code|]. intros t' Ht' Hct.
        eapply element_descriptor_ok; [by exists d|exact Hsh|done|]. intros c Hcin. rewrite Hct. by apply Hc. }
      intros [name t1] (Ht1 & He1 & Hc1 & _ & Hn1). apply returns_Ok. cbn [fst snd] in *. split_and!; [done| | |done].
      * intros c Hcin. rewrite Hc1. by apply Hc.
      * intros n Hno. by apply (Hn n), Hn1.
    + intros t1 (Ht1 & Hc1 & Hn1 & He1). eapply returns_weaken; [by apply IH|]. intros t2 (? & ? & ? & ?). split_and!; [done..|].
      by eapply extends_trans.
Qed.

(** Emission returns, with every descriptor good and none without initializer. *)
Lemma emit_descriptors_ok elements :
  Forall (λ e, declared_type e ∧ array_element e = true) elements →
  returns (emit_descriptors index retained_modules st elements) (λ t, tables_ok t ∧ classes_declared t ∧ complete t (λ _, False)).
Proof.
  intros He. unfold emit_descriptors. eapply returns_bind; [apply class_metadata_ok|]. intros t (Ht & Hc & Hn).
  eapply returns_weaken; [by apply array_descriptors_ok|]. intros t' (? & ? & ? & _). done.
Qed.
End tables.

Local Open Scope string_scope.
Local Open Scope list_scope.
Local Open Scope N_scope.

Lemma managed_agrees t b : is_supported_value t = true → managed_reference t = Ok b → Types.is_managed_reference t = b.
Proof.
  revert b. induction t as [tag symbol arguments count IH] using type_nested_ind. intros b Hs Hb.
  destruct tag; try (cbn in Hb; injection Hb as <-; by destruct symbol, arguments).
  destruct (supported_optional _ _ _ Hs) as (a & -> & _). apply Forall_cons in IH as [IH _].
  assert (symbol = None ∧ is_supported_value a = true) as [-> Hsa].
  { cbn in Hs. destruct symbol; [done|]. cbn in Hs. rewrite !andb_true_iff in Hs. tauto. }
  cbn in Hb |- *. by apply IH.
Qed.

(** ** 64-bit offsets *)

Lemma element_offset_small i : 24 + i * 8 < 2 ^ 64 → Layout.u64_add 24 (u64_mul i 8) = 24 + i * 8.
Proof. intros Hi. unfold Layout.u64_add, u64_mul, u64_wrap. rewrite (N.mod_small (i * 8)), N.mod_small by lia. done. Qed.

Lemma element_offset_aligned o i : slot_offset_of o (o + Layout.u64_add 24 (u64_mul i 8)) mod 8 = 0.
Proof.
  unfold slot_offset_of, sizeof_header. replace (o + Layout.u64_add 24 (u64_mul i 8) - (o + 16)) with (Layout.u64_add 24 (u64_mul i 8) - 16) by lia.
  unfold Layout.u64_add, u64_mul, u64_wrap. rewrite N.Div0.add_mod_idemp_r. set (x := 24 + i * 8).
  assert (x mod 2 ^ 64 mod 8 = 0) as Hx.
  { change (2 ^ 64) with (8 * 2 ^ 61). replace x with (8 * (3 + i)) by (unfold x; lia).
    rewrite N.Div0.mul_mod_distr_l, (N.mul_comm 8). apply N.Div0.mod_mul. }
  revert Hx. generalize (x mod 2 ^ 64). clear. intros y Hy. apply N.Div0.mod_divides in Hy as [q ->].
  destruct (N.le_gt_cases 2 q) as [Hq|Hq].
  - replace (8 * q - 16) with ((q - 2) * 8) by lia. apply N.Div0.mod_mul.
  - by replace (8 * q - 16) with 0 by lia.
Qed.

Section laws.
Context `{LawfulDataLayout} `{LawfulImage}.
Variable legal : list byte → bool.
Variable module : ir_module.
Hypothesis supported : verify_supported_module legal module = Ok tt.
Notation index := (module_index module).
Hypothesis room : module_extent index module + 80 ≤ 2 ^ 64.
Variable st : lowered_classes.
Hypothesis built : build_class_layouts index = Ok st.
Variable retained_modules : bool.
Variable t : descriptor_tables.
Hypothesis tables : tables_ok module st retained_modules t.
Hypothesis finished : complete t (λ _, False).
Notation good := (good_descriptor module st retained_modules t).
Notation program := (compiled_program t).

Lemma compiled_descriptor a d :
  descriptor (Program := program) a = Some d →
  a = global_address string_literal_name ∧ d = string_literal_descriptor ∨
  a = dynamic_string_address ∧ d = dynamic_string_descriptor ∨
  ∃ name, a = global_address name ∧ good name d.
Proof.
  cbn. case N.eqb_spec; [intros -> [= <-]; by left|]. intros _. case N.eqb_spec; [intros -> [= <-]; right; by left|]. intros _ Hd.
  apply global_at_Some in Hd as (name & -> & Hn). right. right. exists name. split; [done|]. by apply (tb_globals _ _ _ _ tables).
Qed.

(** A declared global is a descriptor of the program. *)
Lemma compiled_global name :
  name ≠ string_literal_name → is_Some (descriptor_globals t !! name) →
  ∃ d, descriptor (Program := program) (global_address name) = Some d ∧ descriptor_globals t !! name = Some (Some d) ∧ good name d.
Proof.
  intros Hne [[d|] Hn]; [|by destruct (finished name Hn)]. exists d. split_and!; [|done|by apply (tb_globals _ _ _ _ tables)].
  cbn. case N.eqb_spec; [by intros ?%(inj global_address)|]. intros _.
  case N.eqb_spec; [by intros ?%dynamic_string_apart|]. intros _. by rewrite global_at_name, Hn.
Qed.

Lemma reference_field_stored c lc item :
  c ∈ mod_classes module → layout_for_class st (cls_id c) = Ok lc → item ∈ reference_fields lc →
  sizeof_header ≤ lf_offset item ∧ lf_offset item + 8 ≤ sizeof_header + lc_payload_size lc ∧ (8 | lf_offset item).
Proof.
  intros Hc Hlc Hin. unfold reference_fields in Hin. apply list_elem_of_In, filter_In in Hin as [Hin Href]. apply list_elem_of_In in Hin.
  destruct (class_places legal module supported room st built c lc Hc Hlc) as (_ & _ & Hall & _).
  destruct (Hall item Hin) as (size & alignment & Hsize & Hal & Hdiv & _ & Hge & Hle).
  destruct (layout_field_declared legal module supported room st built c lc Hc Hlc item Hin) as [d Hd].
  pose proof (declared_supported _ _ _ Hd) as Hs. unfold holds_reference in Href.
  destruct (managed_reference (fld_value_type (lf_value item))) as [[]|] eqn:Hm; try done.
  apply (managed_agrees _ _ Hs) in Hm. apply (managed_shape _ Hs) in Hm.
  destruct (element_storage module _ _ _ Hm) as (Hsize' & Hal' & _). rewrite pointer_size in Hsize'. rewrite pointer_align in Hal'.
  rewrite Hsize in Hsize'. rewrite Hal in Hal'. injection Hsize' as ->. injection Hal' as ->. done.
Qed.

(** ** Slots *)

Lemma compiled_nonzero a d : descriptor (Program := program) a = Some d → a ≠ 0.
Proof.
  intros [[-> _]|[[-> _]|(name & -> & _)]]%compiled_descriptor; [apply address_nonzero|apply dynamic_string_nonzero|apply address_nonzero].
Qed.

(** The slots of an object of a class: its reference fields, at their offsets. *)
Lemma class_slots c lc o ob d :
  c ∈ mod_classes module → layout_for_class st (cls_id c) = Ok lc →
  (reference_fields lc ≠ [] → class_trace_functions_ t !! class_code (cls_id c) =
     Some (TraceFields (map lf_offset (reference_fields lc)))) →
  descriptor (Program := program) (ob_type ob) = Some d →
  d = class_initializer (class_code (cls_id c)) lc (negb (empty (reference_fields lc)))
        (if empty (reference_fields lc) then 0 else global_address (class_trace_name (class_code (cls_id c)))) →
  slots_of (H := program) o ob = map (λ item, o + lf_offset item) (reference_fields lc).
Proof.
  intros Hc Hlc Ht Hd ->. unfold slots_of. rewrite (proj2 (N.eqb_neq _ _) (compiled_nonzero _ _ Hd)), Hd. cbn [from_option td_trace class_initializer].
  destruct (reference_fields lc) as [|x xs] eqn:Hr; [done|]. cbn [empty].
  rewrite (proj2 (N.eqb_neq _ _) (address_nonzero _)). cbn [trace_callback compiled_program].
  rewrite (trace_at_class _ _ _ (Ht ltac:(done))). unfold run_trace. by rewrite map_map.
Qed.

(** The slots of the objects of a type, a function of the object and its first word: none,
    fields of a class, or elements of an array. *)
Inductive slot_shape (d : type_descriptor) : (N → N → list N) → Prop :=
| no_slots : td_trace d = 0 → slot_shape d (λ _ _, [])
| field_slots c lc : c ∈ mod_classes module → layout_for_class st (cls_id c) = Ok lc →
    td_kind d = TYPE_KIND_CLASS → td_payload_size d = lc_payload_size lc →
    slot_shape d (λ o _, map (λ item, o + lf_offset item) (reference_fields lc))
| array_element_slots : td_kind d = TYPE_KIND_ARRAY → td_payload_size d = 8 → td_element_size d = 8 → td_trace d ≠ 0 →
    slot_shape d (λ o count, map (λ i, o + Layout.u64_add 24 (u64_mul i 8)) (indices count)).

Lemma compiled_slots a d :
  descriptor (Program := program) a = Some d →
  ∃ slots, slot_shape d slots ∧ ∀ o ob, ob_type ob = a → slots_of (H := program) o ob = slots o (read_word (ob_payload ob) 0).
Proof.
  intros Hd. pose proof (compiled_nonzero _ _ Hd) as Hne.
  assert (td_trace d = 0 → ∃ slots, slot_shape d slots ∧
    ∀ o ob, ob_type ob = a → slots_of (H := program) o ob = slots o (read_word (ob_payload ob) 0)) as Hnone.
  { intros Hz. eexists. split; [by apply no_slots|]. intros o ob <-. unfold slots_of.
    rewrite (proj2 (N.eqb_neq _ _) Hne), Hd. cbn [from_option]. by rewrite Hz. }
  destruct (compiled_descriptor _ _ Hd) as [[_ ->]|[[_ ->]|(name & Ha & Hg)]]; [by apply Hnone..|].
  destruct Hg as [c lc Hc Hlc Ht|code pt managed trace en Hr Hp Ht Hn|key d' _ _ Hz _]; [| |by apply Hnone].
  - eexists. split; [by eapply field_slots|]. intros o ob <-. exact (class_slots c lc o ob _ Hc Hlc Ht Hd eq_refl).
  - destruct managed; [|by apply Hnone]. destruct Ht as (k & -> & Hk). rewrite (Hp eq_refl) in *. eexists. split.
    + apply array_element_slots; cbn; [done|by rewrite pointer_align|by rewrite pointer_size|apply address_nonzero].
    + intros o ob <-. unfold slots_of. rewrite (proj2 (N.eqb_neq _ _) Hne), Hd. cbn [from_option td_trace array_initializer].
      rewrite (proj2 (N.eqb_neq _ _) (address_nonzero _)). cbn [trace_callback compiled_program]. by rewrite (trace_at_array _ _ _ Hk).
Qed.

Lemma shape_of_slots o ob slot : slot ∈ slots_of (H := program) o ob →
  ∃ d slots, descriptor (Program := program) (ob_type ob) = Some d ∧ slot_shape d slots ∧
    ∀ o' ob', ob_type ob' = ob_type ob → slots_of (H := program) o' ob' = slots o' (read_word (ob_payload ob') 0).
Proof.
  intros Hin. destruct (descriptor (ob_type ob)) as [d|] eqn:Hd.
  - destruct (compiled_slots _ _ Hd) as (slots & ? & ?). by exists d, slots.
  - unfold slots_of in Hin. rewrite Hd in Hin. case_match; by apply elem_of_nil in Hin.
Qed.

(** ** The laws of trace callbacks *)

Lemma compiled_trace_inside o ob d slot :
  descriptor (Program := program) (ob_type ob) = Some d → shaped d (ob_payload ob) →
  slot ∈ slots_of (H := program) o ob → in_payload o ob slot = true.
Proof.
  intros Hd [Hsize Harray] Hin. apply in_payload_spec. destruct (compiled_slots _ d Hd) as (slots & Hs & He). rewrite He in Hin by done.
  destruct Hs as [_|c lc Hc Hlc Hk Hp|Hk Hp Hes _]; [by apply elem_of_nil in Hin| |].
  - apply list_elem_of_fmap in Hin as (item & -> & Hitem). destruct (reference_field_stored c lc item Hc Hlc Hitem) as (H3 & H4 & _).
    unfold slot_offset_of, sizeof_header in *. lia.
  - apply list_elem_of_fmap in Hin as (i & -> & Hi%elem_of_indices). destruct (Harray Hk) as [Hin Hmax].
    rewrite Hp, Hes in *. unfold slot_offset_of, sizeof_header, u64_max in *. rewrite element_offset_small by lia. lia.
Qed.

Lemma compiled_trace_aligned o ob slot : slot ∈ slots_of (H := program) o ob → slot_offset_of o slot mod 8 = 0.
Proof.
  intros Hin. destruct (shape_of_slots o ob slot Hin) as (d & slots & Hd & Hs & He). rewrite He in Hin by done.
  destruct Hs as [_|c lc Hc Hlc Hk Hp|Hk Hp _ _]; [by apply elem_of_nil in Hin| |].
  - apply list_elem_of_fmap in Hin as (item & -> & Hitem). destruct (reference_field_stored c lc item Hc Hlc Hitem) as (H3 & _ & [q Hq]).
    unfold slot_offset_of, sizeof_header in *. replace (o + lf_offset item - (o + 16)) with ((q - 2) * 8) by lia.
    apply N.Div0.mod_mul.
  - apply list_elem_of_fmap in Hin as (i & -> & _). apply element_offset_aligned.
Qed.

(** Slots inside the payload do not overlap the length of an array: an index whose offset wraps
    around comes after one that lies before the payload. *)
Lemma element_slot_behind o ob i :
  (∀ i', i' < read_word (ob_payload ob) 0 → in_payload o ob (o + Layout.u64_add 24 (u64_mul i' 8)) = true) →
  i < read_word (ob_payload ob) 0 → 8 ≤ slot_offset_of o (o + Layout.u64_add 24 (u64_mul i 8)).
Proof.
  intros Hall Hi. destruct (N.lt_ge_cases (24 + i * 8) (2 ^ 64)) as [Hsmall|Hbig].
  - rewrite element_offset_small by done. unfold slot_offset_of, sizeof_header. lia.
  - assert (2305843009213693949 < read_word (ob_payload ob) 0) as Hj by lia. apply Hall, in_payload_spec in Hj as [Hj _].
    change (Layout.u64_add 24 (u64_mul 2305843009213693949 8)) with 0 in Hj. unfold sizeof_header in Hj. lia.
Qed.

Lemma compiled_trace_stable o ob slot v :
  (∀ slot', slot' ∈ slots_of (H := program) o ob → in_payload o ob slot' = true) →
  slot ∈ slots_of (H := program) o ob →
  slots_of (H := program) o (set_payload ob (write_word (ob_payload ob) (slot_offset_of o slot) v)) = slots_of (H := program) o ob.
Proof.
  intros Hall Hin. destruct (shape_of_slots o ob slot Hin) as (d & slots & Hd & Hs & He).
  rewrite !He in * by done. destruct Hs as [_|c lc _ _ _ _|_ _ _ _]; [done..|].
  pose proof (Hall slot Hin) as [_ Hle]%in_payload_spec. apply list_elem_of_fmap in Hin as (i & -> & Hi%elem_of_indices).
  cbn [set_payload ob_payload]. rewrite read_write_other; [done|done|]. left. apply (element_slot_behind o ob i); [|done].
  intros i' Hi'. apply Hall. apply list_elem_of_fmap. exists i'. split; [done|]. by apply elem_of_indices.
Qed.

Lemma compiled_trace_lawful : @LawfulTrace program.
Proof.
  constructor.
  - intros d o ob slot. apply compiled_trace_inside.
  - exact compiled_trace_aligned.
  - exact compiled_trace_stable.
Qed.

(** ** Strings and elements *)

Lemma compiled_strings_lawful : @LawfulStrings program.
Proof.
  constructor; cbn; [|apply dynamic_string_nonzero|by intros ?%eq_sym%dynamic_string_apart].
  case N.eqb_spec; [by intros ?%eq_sym%dynamic_string_apart|]. intros _. by rewrite N.eqb_refl.
Qed.

Lemma good_name_apart d : ¬ good string_literal_name d.
Proof.
  intros Hg. remember string_literal_name as name eqn:Hn. destruct Hg; [destruct retained_modules|..]; discriminate Hn.
Qed.

(** The descriptor of the elements of an array of references is none of a scalar. *)
Lemma reference_descriptor name d : good name d → reference_name retained_modules name → td_scalar_kind d = SCALAR_KIND_NONE.
Proof.
  intros [| |key d' Hk _ _ _] Hr; [done..|]. exfalso. unfold type_global in Hr.
  destruct Hr as [[id Hr]|[code Hr]].
  - unfold class_global in Hr. destruct retained_modules; [discriminate Hr|]. apply append_inj in Hr as ->. by destruct Hk.
  - apply append_inj in Hr as ->. by destruct Hk.
Qed.

Definition compiled_element_slots (d : type_descriptor) : list N :=
  if (td_kind d =? TYPE_KIND_ARRAY) && negb (td_trace d =? 0) then [0] else [].

(** The element type of an array descriptor. *)
Lemma compiled_element a d :
  descriptor (Program := program) a = Some d → td_kind d = TYPE_KIND_ARRAY →
  ∃ name, td_element_type d = global_address name ∧ element_name retained_modules t (negb (td_trace d =? 0)) name.
Proof.
  intros Hd Hk. destruct (compiled_descriptor _ _ Hd) as [[_ ->]|[[_ ->]|(name & Ha & Hg)]]; [done..|].
  destruct Hg as [|code pt managed trace en Hr Hp Ht Hn|key d' _ Hk' _ _]; [done| |].
  - exists en. split; [done|]. cbn. destruct managed; [|by subst]. destruct Ht as (k & -> & _).
    by rewrite (proj2 (N.eqb_neq _ _) (address_nonzero _)).
  - rewrite Hk in Hk'. by apply elem_of_cons in Hk' as [Hk'|Hk'%list_elem_of_singleton].
Qed.

(** What lies at the element type of an array. *)
Lemma compiled_element_descriptor a d :
  descriptor (Program := program) a = Some d → td_kind d = TYPE_KIND_ARRAY →
  ∃ e, descriptor (Program := program) (td_element_type d) = Some e ∧
    (td_trace d ≠ 0 → td_scalar_kind e = SCALAR_KIND_NONE) ∧ (td_kind e = TYPE_KIND_STRING → td_trace d ≠ 0).
Proof.
  intros Hd Hk. destruct (compiled_element a d Hd Hk) as (name & -> & [[-> Hm]|[Hs Hm]]).
  - exists string_literal_descriptor. cbn. rewrite N.eqb_refl. split_and!; [done|done|]. intros _ Hz. by rewrite Hz in Hm.
  - destruct (decide (name = string_literal_name)) as [->|Hne].
    { destruct Hs as [[e|] Hs]; [|by destruct (finished _ Hs)]. by destruct (good_name_apart e (tb_globals _ _ _ _ tables _ _ Hs)). }
    destruct (compiled_global name Hne Hs) as (e & He & _ & Hg). exists e. split_and!; [done| |].
    + intros Hz. apply (reference_descriptor name e Hg), Hm. by rewrite (proj2 (N.eqb_neq _ _) Hz).
    + intros Hstr. exfalso. destruct Hg as [| |key e _ Hk' _ _]; [done..|].
      rewrite Hstr in Hk'. by apply elem_of_cons in Hk' as [Hk'|Hk'%list_elem_of_singleton].
Qed.

Lemma compiled_element_slots_spec d k :
  k ∈ compiled_element_slots d ↔ k = 0 ∧ td_kind d = TYPE_KIND_ARRAY ∧ td_trace d ≠ 0.
Proof.
  unfold compiled_element_slots. case (N.eqb_spec (td_kind d) TYPE_KIND_ARRAY), (N.eqb_spec (td_trace d) 0); cbn;
    rewrite ?elem_of_nil, ?list_elem_of_singleton; naive_solver.
Qed.

Lemma compiled_array_slots o ob d slot :
  descriptor (Program := program) (ob_type ob) = Some d → td_kind d = TYPE_KIND_ARRAY → shaped d (ob_payload ob) →
  slot ∈ slots_of (H := program) o ob ↔ ∃ i k, i < read_word (ob_payload ob) 0 ∧ k ∈ compiled_element_slots d ∧
    slot = o + sizeof_header + (td_payload_size d + i * td_element_size d + k).
Proof.
  intros Hd Hk [_ Hroom]. destruct (Hroom Hk) as [_ Hmax]. destruct (compiled_slots _ d Hd) as (slots & Hs & He). rewrite He by done.
  setoid_rewrite compiled_element_slots_spec. destruct Hs as [Hz|c lc _ _ Hk' _|_ Hp Hes Ht].
  - split; [by intros ?%elem_of_nil|]. by intros (i & k & _ & (_ & _ & ?) & _).
  - by rewrite Hk in Hk'.
  - rewrite Hp, Hes in *. unfold sizeof_header, u64_max in *. rewrite list_elem_of_fmap. setoid_rewrite elem_of_indices. split.
    + intros (i & -> & Hi). exists i, 0. rewrite element_offset_small by lia. split_and!; [done..|lia].
    + intros (i & k & Hi & (-> & _) & ->). exists i. rewrite element_offset_small by lia. split; [lia|done].
Qed.

Lemma compiled_arrays_lawful : inhabited (@LawfulArrays program).
Proof.
  constructor. refine {| element_slots := compiled_element_slots |}.
  - intros o ob d Hd Hk Hsh slot. by apply compiled_array_slots.
  - intros a d Hd Hk. right. destruct (compiled_element_descriptor a d Hd Hk) as (e & He & _). by exists e.
  - intros a d k Hd (-> & Hk & Ht)%compiled_element_slots_spec. destruct (compiled_slots a d Hd) as (slots & Hs & _).
    destruct Hs as [|c lc _ _ Hk' _|_ _ -> _]; [done|by rewrite Hk in Hk'|done].
  - intros a d e Hd He Hn. destruct (compiled_element_slots d) as [|k ks] eqn:Hks; [done|].
    assert (k ∈ compiled_element_slots d) as (_ & Hk & Ht)%compiled_element_slots_spec by (rewrite Hks; by left).
    destruct (compiled_element_descriptor a d Hd Hk) as (e' & He' & Hs & _). rewrite He in He'. injection He' as <-. by destruct Hn; apply Hs.
  - intros a d e Hd He Hs. assert (td_kind d = TYPE_KIND_ARRAY) as Hk.
    { destruct (compiled_descriptor a d Hd) as [[_ ->]|[[_ ->]|(name & _ & Hg)]]; [by apply compiled_nonzero in He..|].
      destruct Hg as [|code pt managed trace en _ _ _ _|key d Hk Hkd Hz Hnone]; [by apply compiled_nonzero in He|done|].
      rewrite Hnone in He. by apply compiled_nonzero in He. }
    destruct (compiled_element_descriptor a d Hd Hk) as (e' & He' & _ & Hs'). rewrite He in He'. injection He' as <-.
    unfold compiled_element_slots. by rewrite Hk, (proj2 (N.eqb_neq _ _) (Hs' Hs)).
Qed.

(** ** Allocation *)

Lemma class_size_bound c lc :
  c ∈ mod_classes module → layout_for_class st (cls_id c) = Ok lc → lc_payload_size lc ≤ u64_max - sizeof_header.
Proof.
  intros Hc Hlc. destruct (built_ok legal module supported room st built) as [_ Hall].
  destruct (Hall c Hc) as (lc' & l & Hlc' & _ & Hl & Ho). unfold layout_for_class, at_symbol in Hlc. rewrite Hlc' in Hlc. injection Hlc as ->.
  pose proof (lineage_storable legal module supported c l Hl Hc) as Hs.
  destruct (alignment_power index (all_fields l) 1 0 Hs eq_refl) as (k & Hk & Ha); [done|].
  rewrite (lo_size _ _ _ Ho). unfold alignment_of. rewrite Ha.
  assert (0 < 2 ^ k ∧ 2 ^ k ≤ 16) as [Hp Hle] by by apply small_power in Hk as [->|[->|[->|[->| ->]]]].
  pose proof (align_to_spec (content_of index (all_fields l)) (2 ^ k) Hp) as (_ & H4 & _).
  pose proof (content_bound index (all_fields l) 0 Hs) as Hcb. fold (content_of index (all_fields l)) in Hcb.
  pose proof (lineage_room legal module supported room c l Hl Hc). unfold u64_max, sizeof_header. lia.
Qed.

(** The descriptor is one of an object, and an object of this size is allowed. *)
Definition allocatable (d : type_descriptor) (payload_size : N) : Prop :=
  td_kind d ∈ [TYPE_KIND_CLASS; TYPE_KIND_ARRAY] ∧ td_payload_size d ≤ payload_size ∧ payload_size ≤ u64_max - sizeof_header ∧
  (td_kind d = TYPE_KIND_CLASS → payload_size = td_payload_size d).

Lemma alignment_accepted a : a ∈ [1; 2; 4; 8; 16] → is_power_of_two a = true ∧ (a <=? max_align) = true.
Proof. intros Ha. repeat (apply elem_of_cons in Ha as [->|Ha]; [done|]). by apply not_elem_of_nil in Ha. Qed.

Lemma class_contract key lc references trace :
  lc_payload_alignment lc ∈ [1; 2; 4; 8; 16] → lc_payload_size lc ≤ u64_max - sizeof_header → (references = true → trace ≠ 0) →
  allocation_contract (class_initializer key lc references trace) (lc_payload_size lc) (lc_payload_alignment lc) = true.
Proof.
  intros [Hp Ha]%alignment_accepted Hmax%N.leb_le Ht. unfold allocation_contract.
  cbn -[is_power_of_two max_align u64_max sizeof_header]. rewrite Hp, Ha, !N.eqb_refl, N.leb_refl, Hmax.
  destruct references; [|done]. by rewrite (proj2 (N.eqb_neq _ _) (Ht eq_refl)).
Qed.

Lemma array_contract key pt managed trace element payload_size :
  takes_room pt = true → (managed = true → trace ≠ 0) → element ≠ 0 →
  align_up 8 (abi_type_align pt) ≤ payload_size → payload_size ≤ u64_max - sizeof_header →
  allocation_contract
    (array_initializer key (align_up 8 (abi_type_align pt)) (N.max 8 (abi_type_align pt)) (type_alloc_size pt)
       (abi_type_align pt) managed trace element) payload_size (N.max 8 (abi_type_align pt)) = true.
Proof.
  intros Hr Ht He Hle%N.leb_le Hmax%N.leb_le. apply size_positive in Hr. destruct (size_multiple pt) as [q Hq].
  assert (type_alloc_size pt mod abi_type_align pt = 0) as Hmod by (rewrite Hq; apply N.Div0.mod_mul).
  assert (abi_type_align pt ∈ [1; 2; 4; 8; 16]) as Ha.
  { destruct (align_power pt) as (k & Hk & ->). apply small_power in Hk as [->|[->|[->|[->| ->]]]]; vm_compute; find_pair. }
  unfold allocation_contract, valid_v1_4_fields, valid_array. cbn -[is_power_of_two max_align u64_max sizeof_header].
  rewrite Hle, Hmax, Hmod, !N.eqb_refl, (proj2 (N.eqb_neq _ _) He), (proj2 (N.eqb_neq (type_alloc_size pt) 0)) by lia.
  assert ((N.land (if managed then TYPE_FLAG_CONTAINS_REFS else 0) TYPE_FLAG_CONTAINS_REFS =? 0) || negb (trace =? 0) = true) as Hf.
  { destruct managed; [|done]. by rewrite (proj2 (N.eqb_neq _ _) (Ht eq_refl)). }
  revert Hf. generalize (trace =? 0) (abi_type_align pt) Ha. clear. intros b a Ha Hf.
  destruct managed; repeat (apply elem_of_cons in Ha as [->|Ha]; [by destruct b|]); by apply not_elem_of_nil in Ha.
Qed.

Lemma good_contract name d payload_size :
  good name d → allocatable d payload_size → allocation_contract d payload_size (td_payload_alignment d) = true.
Proof.
  intros Hg (Hk & Hle & Hmax & Hex). destruct Hg as [c lc Hc Hlc _|code pt managed trace en Hr Hp Ht _|key d _ Hk' _ _].
  - rewrite (Hex eq_refl) in *. destruct (class_places legal module supported room st built c lc Hc Hlc) as (_ & Hal & _).
    apply class_contract; [done..|]. destruct (empty (reference_fields lc)); [done|]. intros _. apply address_nonzero.
  - apply array_contract; [done| |apply address_nonzero|done..]. intros ->. destruct Ht as (k & -> & _). apply address_nonzero.
  - exfalso. apply elem_of_cons in Hk' as [Hk'|Hk'%list_elem_of_singleton]; rewrite Hk' in Hk; vm_compute in Hk;
      by apply elem_of_cons in Hk as [Hk|Hk%list_elem_of_singleton].
Qed.

Lemma compiled_validated name d payload_size :
  name ≠ string_literal_name → descriptor_globals t !! name = Some (Some d) → allocatable d payload_size →
  validate_type (H := program) (global_address name) payload_size (td_payload_alignment d) = Ok tt.
Proof.
  intros Hne Hn Ha. destruct (compiled_global name Hne ltac:(by eexists)) as (d' & Hd & Hn' & Hg).
  rewrite Hn in Hn'. injection Hn' as <-. unfold validate_type. rewrite (proj2 (N.eqb_neq _ _) (address_nonzero _)), Hd.
  cbn [load]. rewrite bind_Ok. by rewrite (good_contract name d payload_size Hg Ha).
Qed.

(** The class of a declaration has its descriptor, with its reference fields. *)
Lemma compiled_class c :
  classes_declared module t → c ∈ mod_classes module →
  ∃ lc name d, layout_for_class st (cls_id c) = Ok lc ∧ class_descriptor t (cls_id c) = Ok name ∧
    descriptor (Program := program) (global_address name) = Some d ∧ td_kind d = TYPE_KIND_CLASS ∧
    td_payload_size d = lc_payload_size lc ∧ td_payload_alignment d = lc_payload_alignment lc ∧
    (∀ o ob, ob_type ob = global_address name → slots_of (H := program) o ob = map (λ item, o + lf_offset item) (reference_fields lc)) ∧
    validate_type (H := program) (global_address name) (lc_payload_size lc) (lc_payload_alignment lc) = Ok tt.
Proof.
  intros Hdecl Hc. destruct (built_ok legal module supported room st built) as [_ Hall]. destruct (Hall c Hc) as (lc & l & Hlc' & _).
  assert (layout_for_class st (cls_id c) = Ok lc) as Hlc by (unfold layout_for_class, at_symbol; by rewrite Hlc'). clear Hall Hlc' l.
  set (name := class_global retained_modules (class_code (cls_id c))).
  assert (class_descriptor t (cls_id c) = Ok name ∧ is_Some (descriptor_globals t !! name)) as [Hname Hs].
  { destruct (Hdecl c Hc) as [n Hn]. destruct (tb_classes _ _ _ _ tables _ _ Hn) as [-> Hs]. split; [|done].
    unfold class_descriptor, at_symbol. by rewrite Hn. }
  assert (name ≠ string_literal_name) as Hne by (unfold name, class_global; by destruct retained_modules).
  destruct (compiled_global name Hne Hs) as (d & Hd & Hg' & Hg). exists lc, name, d.
  assert (∃ references trace, d = class_initializer (class_code (cls_id c)) lc references trace ∧
    ∀ o ob, ob_type ob = global_address name → slots_of (H := program) o ob = map (λ item, o + lf_offset item) (reference_fields lc))
    as (references & trace & -> & Hslots).
  { remember name as n eqn:Hn. destruct Hg as [c' lc' Hc' Hlc'' Ht|code pt managed trace en _ _ _ _|key d Hk _ _ _].
    - unfold name, class_global in Hn. apply append_inj, (class_code_inj legal module supported) in Hn as <-; [|done..].
      rewrite Hlc in Hlc''. injection Hlc'' as <-. eexists _, _. split; [done|]. intros o ob Ho.
      eapply class_slots; [done..|by rewrite Ho|done].
    - exfalso. unfold name, class_global in Hn. destruct retained_modules; [discriminate Hn|]. by apply append_inj in Hn.
    - exfalso. unfold name, class_global in Hn. destruct retained_modules; [discriminate Hn|]. apply append_inj in Hn as ->. by destruct Hk. }
  split_and!; [done..|].
  eapply (compiled_validated name _ (lc_payload_size lc) Hne Hg'). split_and!; [by left|done|by eapply class_size_bound|done].
Qed.
End laws.

(** ** Properties *)

(** C10: The descriptors and trace callbacks of a compiled program are what the runtime relies
    on: for an accepted module whose class layouts were built, whose objects fit the address
    space and whose classes are not retained from an earlier compilation, emission succeeds,
    the callbacks stay inside objects of the descriptor's shape and do not depend on the references they find, strings and array
    elements are described as the runtime assumes, and the collector finds in an object of a
    class exactly its fields of managed type, at their offsets. *)
Theorem compiled_program_lawful `{LawfulDataLayout} `{LawfulImage} legal module retained elements st :
  verify_supported_module legal module = Ok tt → module_extent (module_index module) module + 80 ≤ 2 ^ 64 →
  build_class_layouts (module_index module) = Ok st → Forall (λ c, cls_retained c = false) (mod_classes module) →
  Forall (λ e, declared_type module e ∧ array_element e = true) elements →
  ∃ t, emit_descriptors (module_index module) retained st elements = Ok t ∧
    @LawfulTrace (compiled_program t) ∧ @LawfulStrings (compiled_program t) ∧ inhabited (@LawfulArrays (compiled_program t)) ∧
    ∀ c, c ∈ mod_classes module → ∃ lc name, layout_for_class st (cls_id c) = Ok lc ∧ class_descriptor t (cls_id c) = Ok name ∧
      ∀ o ob, ob_type ob = global_address name →
        slots_of (H := compiled_program t) o ob = map (λ item, o + lf_offset item) (reference_fields lc).
Proof.
  intros Hm Hroom Hst Hw He. destruct (emit_descriptors_ok legal module Hm Hroom st Hst retained Hw elements He) as (t & Ht & Htb & Hc & Hn).
  exists t. split_and!; [done| | | |].
  - by eapply compiled_trace_lawful.
  - apply compiled_strings_lawful.
  - by eapply compiled_arrays_lawful.
  - intros c Hcin. destruct (compiled_class legal module Hm Hroom st Hst retained t Htb Hn c Hc Hcin)
      as (lc & name & d & H1' & H2' & _ & _ & _ & _ & H3' & _). by exists lc, name.
Qed.

(** C11: The runtime accepts the allocations of compiled code (for an accepted module whose class
    layouts were built, with room in the address space and no retained classes): the size and
    alignment the layout of a class gives pass the checks against the descriptor of the class, and an array
    descriptor passes them for every payload that begins with the length and fits. *)
Theorem compiled_allocations_accepted `{LawfulDataLayout} `{LawfulImage} legal module retained elements st :
  verify_supported_module legal module = Ok tt → module_extent (module_index module) module + 80 ≤ 2 ^ 64 →
  build_class_layouts (module_index module) = Ok st → Forall (λ c, cls_retained c = false) (mod_classes module) →
  Forall (λ e, declared_type module e ∧ array_element e = true) elements →
  ∃ t, emit_descriptors (module_index module) retained st elements = Ok t ∧
    (∀ c, c ∈ mod_classes module → ∃ lc name, layout_for_class st (cls_id c) = Ok lc ∧ class_descriptor t (cls_id c) = Ok name ∧
       validate_type (H := compiled_program t) (global_address name) (lc_payload_size lc) (lc_payload_alignment lc) = Ok tt) ∧
    ∀ name d payload_size, descriptor_globals t !! name = Some (Some d) → td_kind d = TYPE_KIND_ARRAY →
      td_payload_size d ≤ payload_size → payload_size ≤ u64_max - sizeof_header →
      validate_type (H := compiled_program t) (global_address name) payload_size (td_payload_alignment d) = Ok tt.
Proof.
  intros Hm Hroom Hst Hw He. destruct (emit_descriptors_ok legal module Hm Hroom st Hst retained Hw elements He) as (t & Ht & Htb & Hc & Hn).
  exists t. split_and!; [done| |].
  - intros c Hcin. destruct (compiled_class legal module Hm Hroom st Hst retained t Htb Hn c Hc Hcin)
      as (lc & name & d & H1' & H2' & _ & _ & _ & _ & _ & H3'). by exists lc, name.
  - intros name d payload_size Hd Hk Hle Hmax. apply (compiled_validated legal module Hm Hroom st Hst retained t Htb Hn name d).
    + intros ->. by eapply good_name_apart, (tb_globals _ _ _ _ Htb).
    + done.
    + split_and!; [rewrite Hk; by right; left|done..|by rewrite Hk].
Qed.

(** ** The sample program *)

#[local] Instance sample_image : LinkedImage := {|
  global_address name := N.pos (encode name)~0;
  dynamic_string_address := 1;
|}.

#[local] Instance sample_image_lawful : LawfulImage.
Proof.
  constructor; [|done..]. intros a b Hab. injection Hab as Hab. by apply (inj encode) in Hab.
Defined.

#[local] Existing Instance natural_layout.
#[local] Existing Instance natural_lawful.

Definition sample_elements : list type :=
  [Sample.int; mk_type NERI_IR_TYPE_STRING_V1 None [] 0; mk_type NERI_IR_TYPE_CLASS_V1 (Some Sample.derived_class) [] 0].

Lemma sample_elements_declared :
  Forall (λ e, declared_type Sample.app e ∧ array_element e = true) sample_elements.
Proof. repeat (constructor; [split; [exists ""; vm_compute; reflexivity|vm_compute; reflexivity]|]). constructor. Qed.

Lemma compiled_program_lawful_witness :
  ∃ t, emit_descriptors (module_index Sample.app) false sample_layouts sample_elements = Ok t ∧ @LawfulTrace (compiled_program t).
Proof.
  destruct (compiled_program_lawful (λ _, true) Sample.app false sample_elements sample_layouts)
    as (t & Ht & Hl & _);
    [vm_compute; reflexivity|vm_compute; discriminate|vm_compute; reflexivity|repeat constructor|exact sample_elements_declared|].
  exists t. split; [exact Ht|exact Hl].
Defined.

Lemma compiled_allocations_accepted_witness :
  ∃ t lc name, emit_descriptors (module_index Sample.app) false sample_layouts sample_elements = Ok t ∧
    layout_for_class sample_layouts Sample.derived_class = Ok lc ∧
    validate_type (H := compiled_program t) (global_address name) (lc_payload_size lc) (lc_payload_alignment lc) = Ok tt.
Proof.
  destruct (compiled_allocations_accepted (λ _, true) Sample.app false sample_elements sample_layouts)
    as (t & Ht & Hc & _);
    [vm_compute; reflexivity|vm_compute; discriminate|vm_compute; reflexivity|repeat constructor|exact sample_elements_declared|].
  destruct (Hc sample_derived ltac:(vm_compute; find_pair)) as (lc & name & H1 & _ & H3). exists t, lc, name.
  split; [exact Ht|split; [exact H1|exact H3]].
Defined.
