(* ===== verification/RuntimeSamples.v ===== *)
(** * A host and a program for the runtime's theorems

    A host whose allocators hand out addresses above everything in use, and a program
    with one class of two reference fields and one array type: they satisfy what the
    theorems assume of the C library and of the compiler, and let them be applied. *)

From S2P Require Import Prelude Chains Storage Slabs Memory StorageSafety Sweep.
From S2P Require Import Heap Marking Collector HeapInvariant Collection RuntimeApi.
From S2P Require Import Payloads ApiSafety AllocationSafety NativeSafety RegionSafety Isolation.
From S2P Require Import Strings HostApi StringSafety StringSpec HostSafety HostCalls.

Local Open Scope string_scope.
Local Open Scope list_scope.
Local Open Scope N_scope.

(** ** The host *)

(** The least upper bound of [f] over a map. *)
Definition top {A} (f : N → A → N) (mp : gmap N A) : N := foldr (λ p n, N.max (f p.1 p.2) n) 0 (map_to_list mp).

Lemma top_bound {A} (f : N → A → N) (mp : gmap N A) a x : mp !! a = Some x → f a x ≤ top f mp.
Proof.
  intros Ha. apply elem_of_map_to_list in Ha. unfold top. revert Ha.
  induction (map_to_list mp) as [|p l IH]; [by intros ?%elem_of_nil|].
  intros [<-|Hin]%elem_of_cons; simpl; [lia|]. specialize (IH Hin). lia.
Qed.

Definition memory_top (m : memory) : N :=
  N.max (top (λ b _, b + block_bytes) (m_slabs m))
    (N.max (top (λ a g, a + sizeof_large + lg_bytes g) (m_large m)) (top (λ o _, o + 1) (m_objects m))).

Definition above (step n : N) : N := step * (n / step + 1).

Lemma above_ok step n : 0 < step → n < above step n ∧ above step n mod step = 0.
Proof.
  intros Hs. unfold above. split.
  - pose proof (N.div_mod n step ltac:(lia)). pose proof (N.mod_lt n step ltac:(lia)). lia.
  - rewrite N.mul_comm. apply N.Div0.mod_mul.
Qed.

#[local] Instance sample_host : HostMemory := {
  allocate_block m := above block_bytes (memory_top m);
  malloc m _ := above 16 (memory_top m);
  residue _ _ n := zeros n;
}.

Lemma above_free m step n : 0 < step → free_region m (above step (memory_top m)) n.
Proof.
  intros Hs. pose proof (above_ok step (memory_top m) Hs) as [Hlt _].
  assert (∀ x, x ≤ memory_top m → x ≤ above step (memory_top m)) as Hle by lia. split_and!.
  - intros b s Hb. right. apply Hle. unfold memory_top.
    pose proof (top_bound (λ b _, b + block_bytes) _ _ _ Hb). simpl in *. lia.
  - intros a g Ha. right. apply Hle. unfold memory_top.
    pose proof (top_bound (λ a g, a + sizeof_large + lg_bytes g) _ _ _ Ha). simpl in *. lia.
  - intros o [ob Ho]. left. enough (o + 1 ≤ memory_top m) by lia. unfold memory_top.
    pose proof (top_bound (λ o _, o + 1) _ _ _ Ho). simpl in *. lia.
Qed.

Lemma length_zeros n : length_N (zeros n) = n.
Proof. unfold zeros, length_N. rewrite length_replicate. lia. Qed.

#[local] Instance sample_host_lawful : LawfulHost.
Proof.
  constructor.
  - intros m _. split; [by apply above_ok|by apply above_free].
  - intros m n _. split; [by apply above_ok|by apply above_free].
  - intros m a n. apply length_zeros.
Qed.

Definition fresh_key {A} (mp : gmap N A) : N := above 16 (top (λ a _, a) mp).

Lemma fresh_key_ok {A} (mp : gmap N A) : mp !! fresh_key mp = None.
Proof.
  destruct (mp !! fresh_key mp) as [x|] eqn:E; [|done]. pose proof (top_bound (λ a _, a) _ _ _ E) as Hle. simpl in Hle.
  pose proof (above_ok 16 (top (λ a _, a) mp) ltac:(done)) as [Hlt _]. unfold fresh_key in Hle. lia.
Qed.

#[local] Instance sample_runtime_host : RuntimeHost := {
  grow_worklist _ := true;
  new_state w := fresh_key (w_states w);
  native_allocate w _ _ := fresh_key (w_bytes w);
  native_node w := fresh_key (w_natives w);
  native_residue _ _ n := zeros n;
  flush_console _ := true;
}.

#[local] Instance sample_runtime_host_lawful : LawfulRuntimeHost.
Proof. constructor; intros; simpl; [apply fresh_key_ok..|apply length_zeros]. Qed.

(** ** The program *)

Definition pair_type : N := 4096.
Definition integers_type : N := 4352.
Definition int_type : N := 5120.
Definition byte_type : N := 5376.
Definition bytes_type : N := 5632.
Definition strings_type : N := 5888.

Definition pair_descriptor : type_descriptor :=
  mk_type_descriptor 112 1 36 TYPE_KIND_CLASS TYPE_FLAG_CONTAINS_REFS 16 8 0 0 1 (Some "Pair") 0 0 0 SCALAR_KIND_NONE 0.
Definition integers_descriptor : type_descriptor :=
  mk_type_descriptor 112 1 36 TYPE_KIND_ARRAY 0 8 8 8 8 0 (Some "Array<Int>") 0 int_type 0 SCALAR_KIND_NONE 0.
Definition bytes_descriptor : type_descriptor :=
  mk_type_descriptor 112 1 36 TYPE_KIND_ARRAY 0 8 8 1 1 0 (Some "Array<Byte>") 0 byte_type 0 SCALAR_KIND_NONE 0.
Definition strings_descriptor : type_descriptor :=
  mk_type_descriptor 112 1 36 TYPE_KIND_ARRAY TYPE_FLAG_CONTAINS_REFS 8 8 8 8 2 (Some "Array<String>") 0 4864 0
    SCALAR_KIND_NONE 0.
Definition int_descriptor : type_descriptor :=
  mk_type_descriptor 112 1 36 4 0 8 8 0 0 0 (Some "Int") 0 0 0 SCALAR_KIND_INT 0.
Definition byte_descriptor : type_descriptor :=
  mk_type_descriptor 112 1 36 4 0 1 1 0 0 0 (Some "Byte") 0 0 0 SCALAR_KIND_BYTE 0.

Definition sample_types : list (N * type_descriptor) :=
  [(pair_type, pair_descriptor); (integers_type, integers_descriptor); (bytes_type, bytes_descriptor);
   (strings_type, strings_descriptor); (int_type, int_descriptor); (byte_type, byte_descriptor);
   (4864, dynamic_string_descriptor)].

Fixpoint find_type (t : N) (types : list (N * type_descriptor)) : option type_descriptor :=
  match types with
  | [] => None
  | (t', d) :: types => if t =? t' then Some d else find_type t types
  end.

(** Both fields of a pair and every element of an array of strings are references. *)
#[local] Instance sample_program : Program := {
  descriptor t := find_type t sample_types;
  trace_callback t o ob :=
    if t =? 1 then [o + 16; o + 24]
    else if length_N (ob_payload ob) <? 8 + read_word (ob_payload ob) 0 * 8 then []
    else (λ i, o + 24 + 8 * i) <$> indices (read_word (ob_payload ob) 0);
  string_literal_type := 4608;
  dynamic_string_type := 4864;
}.

Lemma sample_descriptor t d : descriptor t = Some d → (t, d) ∈ sample_types.
Proof.
  simpl. repeat (case N.eqb_spec; [intros -> [= <-]; set_solver|intros _]). done.
Qed.

Lemma sample_slots o ob slot :
  slot ∈ slots_of o ob →
  ob_type ob = pair_type ∧ (slot = o + 16 ∨ slot = o + 24) ∨
  ob_type ob = strings_type ∧ 8 + read_word (ob_payload ob) 0 * 8 ≤ length_N (ob_payload ob) ∧
    ∃ i, i < read_word (ob_payload ob) 0 ∧ slot = o + 24 + 8 * i.
Proof.
  unfold slots_of. destruct (ob_type ob =? 0); [by intros ?%elem_of_nil|].
  destruct (descriptor (ob_type ob)) as [d|] eqn:Hd; simpl; [|by intros ?%elem_of_nil].
  apply sample_descriptor in Hd. unfold sample_types in Hd. rewrite !elem_of_cons, elem_of_nil in Hd.
  destruct Hd as [Hd|[Hd|[Hd|[Hd|[Hd|[Hd|[Hd|[]]]]]]]]; injection Hd as Ht ->; simpl; try by intros ?%elem_of_nil.
  - intros [->|[->|?%elem_of_nil]%elem_of_cons]%elem_of_cons; eauto; done.
  - case N.ltb_spec; [by intros _ ?%elem_of_nil|]. intros Hle (i & -> & Hi%elem_of_indices)%list_elem_of_fmap. eauto 6.
Qed.

#[local] Instance sample_trace : LawfulTrace.
Proof.
  constructor.
  - intros d o ob slot Hd [Hs _] [[Ht Hslot]|(Ht & Hle & i & Hi & ->)]%sample_slots; rewrite Ht in Hd; injection Hd as <-;
      simpl in Hs; apply in_payload_spec; unfold slot_offset_of, sizeof_header; lia.
  - intros o ob slot [[Ht [->| ->]]|(Ht & _ & i & _ & ->)]%sample_slots; unfold slot_offset_of, sizeof_header.
    + by replace (o + 16 - (o + 16)) with 0 by lia.
    + by replace (o + 24 - (o + 16)) with 8 by lia.
    + replace (o + 24 + 8 * i - (o + 16)) with ((i + 1) * 8) by lia. apply N.Div0.mod_mul.
  - intros o ob slot v Hin Hslot. pose proof (Hin slot Hslot) as [Hge Hlen]%in_payload_spec. unfold slots_of. cbn [set_payload ob_type].
    apply sample_slots in Hslot as [[Ht _]|(Ht & _ & i & Hi & ->)]; rewrite Ht; simpl; [done|].
    rewrite length_write_word by done. rewrite read_write_other by (try done; left; unfold slot_offset_of, sizeof_header; lia). done.
Qed.

#[local] Instance sample_strings : LawfulStrings.
Proof. by constructor. Qed.

Lemma sample_array t d : descriptor t = Some d → td_kind d = TYPE_KIND_ARRAY →
  (t, d) ∈ [(integers_type, integers_descriptor); (bytes_type, bytes_descriptor); (strings_type, strings_descriptor)].
Proof.
  intros Hd%sample_descriptor Hk. unfold sample_types in Hd. rewrite !elem_of_cons, elem_of_nil in Hd.
  destruct Hd as [Hd|[Hd|[Hd|[Hd|[Hd|[Hd|[Hd|[]]]]]]]]; injection Hd as -> ->; try done; set_solver.
Qed.

Definition sample_element_slots (d : type_descriptor) : list N := if td_element_type d =? 4864 then [0] else [].

#[local] Instance sample_arrays : LawfulArrays.
Proof.
  refine {| element_slots := sample_element_slots |}.
  - intros o [t word p] d Hd Hk Hsh slot. simpl in *. pose proof (sample_array t d Hd Hk) as Hin. rewrite !elem_of_cons, elem_of_nil in Hin.
    destruct Hin as [Hin|[Hin|[Hin|[]]]]; injection Hin as -> ->; unfold slots_of; simpl.
    + split; [by intros ?%elem_of_nil|]. by intros (i & k & _ & ?%elem_of_nil & _).
    + split; [by intros ?%elem_of_nil|]. by intros (i & k & _ & ?%elem_of_nil & _).
    + destruct Hsh as [_ Hsh]. destruct (Hsh eq_refl) as [Hsh' _]. clear Hsh. rename Hsh' into Hsh. simpl in Hsh. rewrite (proj2 (N.ltb_ge _ _) Hsh), list_elem_of_fmap.
      unfold sizeof_header. split.
      * intros (i & -> & Hi%elem_of_indices). exists i, 0. split_and!; [done|by left|lia].
      * intros (i & k & Hi & ->%list_elem_of_singleton & ->). exists i. split; [lia|by apply elem_of_indices].
  - intros t d Hd Hk. pose proof (sample_array t d Hd Hk) as Hin. rewrite !elem_of_cons, elem_of_nil in Hin.
    destruct Hin as [Hin|[Hin|[Hin|[]]]]; injection Hin as -> ->; right; by eexists.
  - intros t d k Hd%sample_descriptor. unfold sample_types in Hd. rewrite !elem_of_cons, elem_of_nil in Hd.
    destruct Hd as [Hd|[Hd|[Hd|[Hd|[Hd|[Hd|[Hd|[]]]]]]]]; injection Hd as -> ->; unfold sample_element_slots; simpl;
      try by intros ?%elem_of_nil. by intros ->%list_elem_of_singleton.
  - intros t d e Hd%sample_descriptor. unfold sample_types in Hd. rewrite !elem_of_cons, elem_of_nil in Hd.
    destruct Hd as [Hd|[Hd|[Hd|[Hd|[Hd|[Hd|[Hd|[]]]]]]]]; injection Hd as -> ->; try done; by intros [= <-].
  - intros t d e Hd%sample_descriptor. unfold sample_types in Hd. rewrite !elem_of_cons, elem_of_nil in Hd.
    destruct Hd as [Hd|[Hd|[Hd|[Hd|[Hd|[Hd|[Hd|[]]]]]]]]; injection Hd as -> ->; try done; by intros [= <-].
Defined.

(** Automatic storage above every frame and every root. *)
Definition frames_top (w : world) : N :=
  N.max (top (λ a f, N.max a (fr_slots f + 8 * fr_slot_count f)) (w_frames w))
    (top (λ _ s, foldr N.max 0 (rs_persistent_roots s)) (w_states w)).

#[local] Instance sample_locals : LocalStorage := {
  local_frame w := above 16 (frames_top w);
  local_slots w _ := above 16 (frames_top w) + 32;
}.

Lemma foldr_max_bound (l : list N) x : x ∈ l → x ≤ foldr N.max 0 l.
Proof.
  induction l as [|y l IH]; [by intros ?%elem_of_nil|]. intros [->|Hx]%elem_of_cons; simpl; [lia|]. specialize (IH Hx). lia.
Qed.

#[local] Instance sample_locals_lawful : LawfulLocals.
Proof.
  constructor; intros w; cbn [local_frame local_slots sample_locals]; pose proof (above_ok 16 (frames_top w) ltac:(done)) as [Hlt _];
    set (a0 := above 16 (frames_top w)) in *; clearbody a0.
  - lia.
  - intros old Hold. pose proof (top_bound (λ a f, N.max a (fr_slots f + 8 * fr_slot_count f)) _ _ _ Hold) as Hle.
    simpl in Hle. unfold frames_top in *. lia.
  - intros _. lia.
  - intros n i x Hi (s & Hs & Hroot). destruct Hroot as [Hp|(l & a & f & _ & _ & Hf & Hslot)].
    + pose proof (top_bound (λ _ s, foldr N.max 0 (rs_persistent_roots s)) _ _ _ Hs) as Hle. simpl in Hle.
      apply foldr_max_bound in Hp. unfold frames_top in *. lia.
    + pose proof (top_bound (λ a f, N.max a (fr_slots f + 8 * fr_slot_count f)) _ _ _ Hf) as Hle. simpl in Hle.
      unfold frame_slots in Hslot. apply list_elem_of_fmap in Hslot as (j & Hj & Hjl%elem_of_indices). unfold frames_top in *. lia.
Qed.

(** ** A run *)

Definition sample_context : N := 64.
Definition sample_requirements : option abi_requirements := Some (mk_requirements 16 1 36 0).

Definition sample_start : world :=
  mk_world (mk_memory ∅ ∅ ∅) {[ sample_context := empty_state ]} sample_context false ∅ ∅ ∅ ∅ ∅ ∅.

Lemma sample_initial : initial_world sample_start sample_context.
Proof. by constructor. Qed.

Definition after (op : operation) (w : world) : world := match run op w with Ok w' => w' | Throw _ => w end.

(** A frame with one slot holds [sample_first], whose first field is [sample_second];
    [sample_garbage] is held by nothing. *)
Definition sample_slot : N := 1000.
Definition sample_frame : N := 2000.
Definition sample_first : N := 18256.
Definition sample_second : N := 18288.
Definition sample_garbage : N := 18320.

Definition sample_rooted : world := Eval vm_compute in
  after (op_root_frame_enter sample_frame) (after (op_new_frame sample_frame sample_slot 1)
    (after (op_write_root sample_slot 0) (after (op_initialize sample_requirements) sample_start))).
Definition sample_allocated : world := Eval vm_compute in after (op_alloc pair_type 16 8) sample_rooted.
Definition sample_held : world := Eval vm_compute in
  after (op_alloc pair_type 16 8) (after (op_write_root sample_slot sample_first) sample_allocated).
Definition sample_linked : world := Eval vm_compute in
  after (op_store_ref sample_first (sample_first + 16) sample_second) sample_held.
Definition sample_heap : world := Eval vm_compute in after (op_alloc pair_type 16 8) sample_linked.

(** An object in a slab, found by computation. *)
Definition slab_holds (m : memory) (h o b i : N) : bool :=
  match m_slabs m !! b with
  | Some s => (sl_owner s =? h) && (object_at b s i =? o) && bool_decide (is_Some (slot s i))
  | None => false
  end.

Lemma slab_holds_live m h o b i : slab_holds m h o b i = true → live_in m h o.
Proof.
  unfold slab_holds. destruct (m_slabs m !! b) as [s|] eqn:E; [|done]. rewrite !andb_true_iff, bool_decide_eq_true.
  intros [[<-%N.eqb_eq <-%N.eqb_eq] [[bytes k] Hs]]. exists bytes, k. by eapply live_small.
Qed.

Lemma slab_holds_valid m h hs o b i : h ∈ hs → slab_holds m h o b i = true → valid_ref m hs o.
Proof. intros Hh Ho. right. right. exists h. split; [done|]. by eapply slab_holds_live. Qed.

Lemma one_step op w w' hs hs' c :
  contract op w hs → run op w = Ok w' → contexts op w' hs = hs' → rtc step (w', hs') c → rtc step (w, hs) c.
Proof. intros Hc Hr <- Hs. eapply rtc_l; [by eapply step_operation|done]. Qed.

Lemma sample_pair_contract : type_contract pair_type true.
Proof. right. split_and!; [by eexists|done|by left]. Qed.

Lemma sample_held_reached : rtc step (sample_start, [sample_context]) (sample_held, [sample_context]).
Proof.
  eapply (one_step (op_initialize sample_requirements)); [done|by vm_compute|done|].
  eapply (one_step (op_write_root sample_slot 0)); [split; [by left|intros x Hx; by apply elem_of_nil in Hx]|by vm_compute|done|].
  eapply (one_step (op_new_frame sample_frame sample_slot 1)); [by intros old Hold|by vm_compute|done|].
  eapply (one_step (op_root_frame_enter sample_frame)); [|by vm_compute|done|].
  { right. eexists. split; [by vm_compute|]. intros _ i Hi _. replace i with 0 by (simpl in Hi; lia).
    exists 0. split; [by vm_compute|by left]. }
  eapply (one_step (op_alloc pair_type 16 8)); [|by vm_compute|done|].
  { apply sample_pair_contract. }
  eapply (one_step (op_write_root sample_slot sample_first)); [|by vm_compute|done|].
  { split; [|intros x Hx; by apply elem_of_nil in Hx].
    apply (slab_holds_valid _ sample_context _ _ 16384 0); [set_solver|by vm_compute]. }
  eapply (one_step (op_alloc pair_type 16 8)); [|by vm_compute|done|apply rtc_refl].
  apply sample_pair_contract.
Qed.

Lemma sample_store_contract :
  store_contract sample_held [sample_context] sample_first (sample_first + 16) sample_second.
Proof.
  split_and!.
  - apply (slab_holds_valid _ sample_context _ _ 16384 0); [set_solver|by vm_compute].
  - apply (slab_holds_valid _ sample_context _ _ 16384 1); [set_solver|by vm_compute].
  - by vm_compute.
  - intros ob _ Hob. vm_compute in Hob. injection Hob as <-. vm_compute. by left.
Qed.

Lemma sample_heap_reached : reaches sample_start sample_context sample_heap [sample_context].
Proof.
  split; [apply sample_initial|]. etransitivity; [apply sample_held_reached|].
  eapply (one_step (op_store_ref sample_first (sample_first + 16) sample_second));
    [apply sample_store_contract|by vm_compute|done|].
  eapply (one_step (op_alloc pair_type 16 8)); [apply sample_pair_contract|by vm_compute|done|apply rtc_refl].
Qed.

Definition sample_state (w : world) : runtime_state := default empty_state (w_states w !! sample_context).

(** A world reached by one more operation. *)
Lemma reached_next op w w' :
  reaches sample_start sample_context w [sample_context] → contract op w [sample_context] →
  run op w = Ok w' → contexts op w' [sample_context] = [sample_context] →
  reaches sample_start sample_context w' [sample_context].
Proof. intros [Hi Hs] Hc Hr Hx. split; [done|]. etransitivity; [exact Hs|]. by eapply one_step; [..|apply rtc_refl]. Qed.

Lemma sample_start_reached : reaches sample_start sample_context sample_start [sample_context].
Proof. split; [apply sample_initial|apply rtc_refl]. Qed.

Definition sample_ready : world := Eval vm_compute in after (op_initialize sample_requirements) sample_start.

Lemma sample_ready_reached : reaches sample_start sample_context sample_ready [sample_context].
Proof. by eapply (reached_next (op_initialize sample_requirements)); [apply sample_start_reached|..]. Qed.
