(* ===== verification/Negotiation.v ===== *)
(** * The compiler's demand and the runtime's answer

    A program states the runtime version and features it needs in the record that
    [emit_program_requirements] computes; the runtime checks it in
    [validate_requirements] when the program starts.  Both are modelled, so that the
    answer can be derived: a program starts unless an import asks for more itself. *)

From S2P Require Import Prelude Domains IR Samples Reader Types Layout Index Instructions.
From S2P Require Import InstructionSafety InstructionTyping Catalog Functions Dominance Cfg.
From S2P Require Import Ssa Modules ModuleSafety Requirements Storage Heap RuntimeApi.

Local Open Scope string_scope.
Local Open Scope list_scope.
Local Open Scope N_scope.

Lemma validate_requirements_ok requirements :
  validate_requirements requirements = STATUS_OK ↔
  ∃ r, requirements = Some r ∧ sizeof_requirements ≤ rq_struct_size r ∧ rq_major r = ABI_MAJOR ∧
    rq_minimum_minor r ≤ ABI_MINOR ∧ N.land (rq_required_features r) runtime_features = rq_required_features r.
Proof.
  unfold validate_requirements. destruct requirements as [r|]; [|split; [done|by intros (? & ? & _)]].
  split.
  - intros Hv. exists r. destruct (N.ltb_spec (rq_struct_size r) sizeof_requirements); [done|].
    destruct (N.eqb_spec (rq_major r) ABI_MAJOR); [|done]. cbn [negb] in Hv.
    destruct (N.ltb_spec ABI_MINOR (rq_minimum_minor r)); [done|].
    by destruct (N.eqb_spec (N.land (rq_required_features r) runtime_features) (rq_required_features r)).
  - intros (r' & [= <-] & H1 & H2 & H3 & H4). rewrite (proj2 (N.ltb_ge _ _) H1), H2, N.eqb_refl. cbn [negb].
    by rewrite (proj2 (N.ltb_ge _ _) H3), H4, N.eqb_refl.
Qed.

(** A demand that this runtime meets. *)
Definition met (d : demand) : Prop := demand_le d (ABI_MINOR, runtime_features).

Lemma met_raise minor features d : met (minor, features) → met d → met (raise_demand minor features d).
Proof.
  unfold met, demand_le, raise_demand. simpl. intros [H1 H2] [H3 H4]. split; [lia|].
  rewrite effects_within_bits in *. intros n. rewrite N.lor_spec, orb_true_iff. intros [?|?]; auto.
Qed.

Lemma met_if c minor d : minor ≤ ABI_MINOR → met d → met (demand_if c minor d).
Proof. destruct c; [|done]. intros Hm [H1 H2]. split; [simpl in *; lia|done]. Qed.

Lemma met_fold {A} (f : demand → A → demand) l d :
  (∀ d x, x ∈ l → met d → met (f d x)) → met d → met (fold_left f l d).
Proof.
  revert d. induction l as [|x l IH]; intros d Hf Hd; [done|]. simpl. apply IH; [set_solver|]. apply Hf; [set_solver|done].
Qed.

(** The largest demand the symbol rules can make. *)
Lemma symbol_minor_met link : neri_abi_symbol_minimum_minor link ≤ ABI_MINOR.
Proof.
  unfold neri_abi_symbol_minimum_minor.
  assert (Forall (λ r : symbol_rule * N, r.2 ≤ ABI_MINOR) minimum_minor_rules) as Hall.
  { apply (bool_decide_unpack (Forall (λ r : symbol_rule * N, r.2 ≤ ABI_MINOR) minimum_minor_rules)). by vm_compute. }
  assert (0 ≤ ABI_MINOR) as H0 by done. revert H0. generalize 0. induction Hall as [|[rule minor] l Hr _ IH]; intros n Hn; [done|].
  simpl. apply IH. destruct (rule_matches link rule && (n <? minor)); [exact Hr|done].
Qed.

Lemma symbol_features_met link : effects_within (neri_abi_symbol_features link) runtime_features.
Proof.
  unfold neri_abi_symbol_features.
  assert (Forall (λ r : symbol_rule * N, N.ldiff r.2 runtime_features = 0) feature_rules) as Hall.
  { apply (bool_decide_unpack (Forall (λ r : symbol_rule * N, N.ldiff r.2 runtime_features = 0) feature_rules)). by vm_compute. }
  assert (effects_within 0 runtime_features) as H0 by done. revert H0. generalize 0.
  induction Hall as [|[rule features] l Hr _ IH]; intros n Hn; [done|]. simpl. apply IH.
  destruct (rule_matches link rule); [|done]. rewrite effects_within_bits in Hn |- *.
  intros i. rewrite N.lor_spec, orb_true_iff. intros [?|Hi]; [auto|]. by apply (proj1 (effects_within_bits _ _) Hr).
Qed.

Lemma feature_met feature :
  met (fc_runtime_minor (ir_feature_metadata feature), fc_runtime_features (ir_feature_metadata feature)).
Proof. destruct feature; split; by vm_compute. Qed.

(** The record that the program passes to [neri_rt_v1_initialize]. *)
Definition requirements_record (d : demand) : abi_requirements := mk_requirements sizeof_requirements ABI_MAJOR d.1 d.2.

(** What the imports state themselves is within this runtime. *)
Definition imports_met (m : ir_module) : Prop :=
  ∀ import minimum, import ∈ mod_imports m → imp_minimum_runtime import = Some minimum →
    met (rr_abi_minor minimum, rr_feature_bits minimum).

Lemma program_met aot m d private : imports_met m → program_requirements aot m = Some (d, private) → met d.
Proof.
  intros Himp. unfold program_requirements. destruct (_ && _ && _); [done|]. intros [= <- _].
  apply met_fold.
  - intros d0 import Hin Hd. unfold demand_import. set (d1 := raise_demand _ _ d0). assert (met d1) as Hd1
      by (apply met_raise; [split; [apply symbol_minor_met|apply symbol_features_met]|done]).
    destruct (imp_kind import); [|done]. destruct (imp_minimum_runtime import) as [minimum|] eqn:Hmin; [|done].
    apply met_raise; [by apply (Himp import)|done].
  - apply met_if; [done|]. apply met_if; [done|]. apply met_fold.
    + intros d0 feature _ Hd. apply met_raise; [apply feature_met|done].
    + apply met_if; [done|]. apply met_if; [done|]. by split.
Qed.

(** C37: A compiled program negotiates successfully with the runtime of the same release: when
    no import demands more by itself than this runtime provides, the version and the
    features that the compiler collects from the required language features, from the
    link names and from the shapes of the program pass [validate_requirements]. *)
Theorem compiled_program_negotiates aot m d private :
  imports_met m → program_requirements aot m = Some (d, private) →
  validate_requirements (Some (requirements_record d)) = STATUS_OK.
Proof.
  intros Himp Hd. destruct (program_met _ _ _ _ Himp Hd) as [H1 H2]. apply validate_requirements_ok.
  eexists. split_and!; [done|done|done|done|]. simpl. simpl in H2. rewrite effects_within_bits in H2.
  apply N.bits_inj. intros n. rewrite N.land_spec. destruct (N.testbit d.2 n) eqn:E; [|done]. by rewrite (H2 n E).
Qed.

Lemma compiled_program_negotiates_witness :
  validate_requirements (Some (requirements_record (4, 96))) = STATUS_OK.
Proof.
  apply (compiled_program_negotiates false Sample.app (4, 96) false); [|vm_compute; reflexivity].
  intros import minimum Hin Hmin. unfold met, demand_le.
  apply list_elem_of_In in Hin. vm_compute in Hin.
  repeat (destruct Hin as [<-|Hin]; [vm_compute in Hmin; try discriminate Hmin; injection Hmin as <-; by vm_compute|]).
  destruct Hin.
Defined.
