(* ===== verification/RuntimeSpec.v ===== *)
(** * What the runtime promises

    The theorems about the managed runtime: the storage allocator, the collector, the
    operations on references, regions, foreign entries and native memory, and the
    invariant of whole runs; then their use on the sample heap. *)

From S2P Require Import Prelude Chains Storage Slabs Memory StorageSafety Sweep.
From S2P Require Import Heap Marking Collector HeapInvariant Collection RuntimeApi.
From S2P Require Import Payloads ApiSafety AllocationSafety NativeSafety RegionSafety.
From S2P Require Import Isolation RuntimeSamples.

Local Open Scope string_scope.
Local Open Scope list_scope.
Local Open Scope N_scope.

(** ** Storage *)

(** Allocation from a managed storage is total and leaves it consistent: it returns null with
    nothing changed, or an address that is 16-aligned, was not in use, is in use now with
    the requested size, belongs to the requesting context, and holds zeros if they were
    asked for, while every other object is where it was with the contents it had. *)
Theorem storage_allocation_sound `{LawfulHost} bytes h zeroed m st :
  memory_ok m → storage_ok m h st → h ≠ 0 → sizeof_header ≤ bytes →
  ∃ r m' st', allocate bytes h zeroed m st = Ok (r, m', st') ∧ memory_ok m' ∧ storage_ok m' h st' ∧
    match r with
    | None => m' = m ∧ st' = st
    | Some o => placed m m' h o bytes zeroed
    end.
Proof.
  intros Hm Hst Hh Hb. destruct (allocate_ok bytes h zeroed m st Hm Hst Hh Hb) as ([[r m'] st'] & Hr & Hm' & Hst' & _ & _ & Hp).
  eauto 8.
Qed.

(** A sweep terminates and is exact: it frees precisely the objects of the context that are
    not marked and reports each of them once with its size, keeps precisely the marked
    ones, clears their marks, and touches no object of another context. *)
Theorem sweep_exact m h st :
  memory_ok m → storage_ok m h st →
  ∃ m' st' reclaimed, sweep m st = Ok (m', st', reclaimed) ∧ memory_ok m' ∧ storage_ok m' h st' ∧
    (∀ o bytes k, live_object m' h o bytes k ↔ k = false ∧ live_object m h o bytes true) ∧
    (∀ h' o bytes k, h' ≠ h → live_object m' h' o bytes k ↔ live_object m h' o bytes k) ∧
    (∀ h' o bytes k, live_object m' h' o bytes k → m_objects m' !! o = m_objects m !! o) ∧
    (∀ o bytes, (o, bytes) ∈ reclaimed ↔ live_object m h o bytes false) ∧
    (∀ calls calls', visits m h calls → visits m' h calls' → calls ≡ₚ reclaimed ++ calls').
Proof.
  intros Hm Hst. destruct (sweep_spec m h st Hm Hst) as ([[m' st'] reclaimed] & Hr & [S1 S2 S3 S4 S5 S6]).
  exists m', st', reclaimed. split_and!; try done.
  - intros o bytes k. rewrite S4. by rewrite decide_True.
  - intros h' o bytes k Hne. rewrite S4. by rewrite decide_False.
  - apply S3.
Qed.

(** Adopting the storage of another context moves every object of it, with its address, size
    and contents, to the adopting context, which keeps its own; the adopted storage is
    empty afterwards and no other context changes. *)
Theorem adoption_moves_everything m h h2 st other :
  h ≠ 0 → h ≠ h2 → memory_ok m → storage_ok m h st → storage_ok m h2 other →
  ∃ m' st', adopt m st other h = Ok (m', st', empty_storage) ∧ memory_ok m' ∧ storage_ok m' h st' ∧
    m_objects m' = m_objects m ∧
    (∀ h' o bytes k, live_object m' h' o bytes k ↔
       ∃ h0, live_object m h0 o bytes k ∧ h' = (if decide (h0 = h2) then h else h0)).
Proof.
  intros Hh Hne Hm Hst Hst2. destruct (adopt_ok m h h2 st other Hh Hne Hm Hst Hst2) as (m' & st' & Hr & Had & Hst').
  exists m', st'. split_and!; try done.
  - by eapply adopted_memory.
  - by eapply ad_objects.
  - intros h' o bytes k. by apply (adopted_live h h2).
Qed.

Section runtime.
Context `{Program} `{!LawfulTrace} `{RuntimeHost} `{!LawfulRuntimeHost} `{HostMemory} `{!LawfulHost}.

(** ** Runs *)

(** C8: The invariant of the runtime holds after every run of a program that keeps its side of
    the contract, however calls, stores, collections, regions and foreign entries are
    interleaved: storage, counters, chains and native lists are consistent, and every
    reference in a root or an object of a context is null, a literal, or an object in use
    of that context or of one it was entered from. *)
Theorem runtime_invariant w0 h w hs : reaches w0 h w hs → ∃ ly, world_ok w hs ly.
Proof. apply reaches_ok. Qed.

(** C20: In every state a program can reach, every call that keeps its contract either returns or
    stops the program with a reported panic: the runtime never reads or writes storage it
    does not own, follows no dangling pointer, and no loop of it runs forever. *)
Theorem runtime_calls_never_undefined w0 h w hs op :
  reaches w0 h w hs → contract op w hs →
  (∃ w', run op w = Ok w') ∨ ∃ code message, run op w = Throw (panic code message).
Proof.
  intros [ly Hw]%reaches_ok Hc. destruct (run_safe op w hs ly Hw Hc) as [(w' & Hr & _)|Hp]; [left; eauto|by right].
Qed.

(** ** Collection *)

(** C19: A collection returns, unless the host refuses memory for the worklist, and is exact: an
    object of the active context survives if and only if it can be reached from the root
    frames, persistent roots and borrows of that context; survivors keep address, size
    and contents; the contexts it was entered from, their roots and all native memory are
    untouched; and the invariant holds again. *)
Theorem collection_exact w hs ly heap :
  (∀ n, grow_worklist n = true) → world_ok w hs ly → w_states w !! w_active w = Some heap → rs_phase heap = active →
  ∃ w', neri_rt_v1_gc_collect w = Ok w' ∧ world_ok w' hs ly ∧
    (∀ o, live_in (w_memory w') (w_active w) o ↔ reachable (w_memory w) (w_active w) (active_roots w ly heap) o) ∧
    (∀ x o bytes k, live_object (w_memory w') x o bytes k →
       live_object (w_memory w) x o bytes k ∧ m_objects (w_memory w') !! o = m_objects (w_memory w) !! o) ∧
    frozen (w_memory w) (w_memory w') (tail hs) ∧
    w_words w' = w_words w ∧ w_natives w' = w_natives w ∧ w_bytes w' = w_bytes w.
Proof.
  intros Hgrow Hw Hheap Hph. unfold neri_rt_v1_gc_collect, require_initialized, current_state, load_state, phase_is.
  rewrite Hheap, load_Some. simpl. rewrite Hph. simpl.
  destruct (collect_ok w hs ly heap Hw Hheap) as [(w' & Hr & Hw' & Hc)|[_ [n Hn]]]; [|by rewrite Hgrow in Hn].
  exists w'. destruct (co_rest _ _ _ _ Hc) as (_ & _ & _ & _ & _ & E1 & E2 & E3). split_and!; try done.
  - intros o. split.
    + by intros (bytes & k & [_ Hl]%(co_live _ _ _ _ Hc)); apply Hl.
    + intros Ho. destruct (reachable_live _ _ _ _ Ho) as (bytes & k & Hl). exists bytes, k. by apply (co_live _ _ _ _ Hc).
  - intros x o bytes k Hl. split; [by apply (co_live _ _ _ _ Hc) in Hl as [? _]|]. by eapply co_objects.
  - eapply (run_frozen op_collect); [done|done|]. simpl. unfold neri_rt_v1_gc_collect, require_initialized, current_state, load_state, phase_is.
    rewrite Hheap, load_Some. simpl. by rewrite Hph.
Qed.

(** C22: A managed allocation, which may collect first and again when the host has no memory,
    returns or stops with a panic.  It returns a zeroed object of the requested type and size
    at an aligned address that is none of the objects in use: every object of the active
    context that could be reached before, and every object of another context, is another
    one, is still in use and has its contents.  It panics only for lack of memory, if the
    runtime is not initialized, or if the descriptor of the type refuses the size or the
    alignment. *)
Theorem allocation_keeps_reachable w hs ly heap type psize palign :
  world_ok w hs ly → w_states w !! w_active w = Some heap → type_contract type true →
  (∃ o w', neri_rt_v1_gc_alloc type psize palign w = Ok (o, w') ∧
     world_ok w' hs ly ∧ live_object (w_memory w') (w_active w) o (sizeof_header + psize) false ∧ o mod 16 = 0 ∧
     (∃ ob, m_objects (w_memory w') !! o = Some ob ∧ ob_type ob = type ∧ ob_payload ob = zeros psize) ∧
     (∀ h o', live_in (w_memory w) h o' → (h = w_active w → reachable (w_memory w) h (active_roots w ly heap) o') →
        o' ≠ o ∧ live_in (w_memory w') h o' ∧ m_objects (w_memory w') !! o' = m_objects (w_memory w) !! o') ∧
     frozen (w_memory w) (w_memory w') (tail hs)) ∨
  (∃ code message, neri_rt_v1_gc_alloc type psize palign w = Throw (panic code message) ∧
     (code = PANIC_OUT_OF_MEMORY ∨
      code = PANIC_RUNTIME_CONTRACT ∧
        ¬ (rs_phase heap = active ∧ ∃ d, type ≠ 0 ∧ descriptor type = Some d ∧ allocation_contract d psize palign = true))).
Proof.
  intros Hw Hheap Ht. destruct (allocate_managed_ends w hs ly heap type psize palign true Hw Hheap Ht)
    as [([o w'] & Hr & Hw' & Hal)|(code & message & Hcode & Hr)]; [left|by right; exists code, message].
  exists o, w'. split; [exact Hr|]. split_and!; [done|apply Hal|apply Hal| | |by eapply allocated_frozen].
  - destruct (al_object _ _ _ _ _ _ _ _ Hal) as (ob & Hob & Hty & _ & Hz). exists ob. split_and!; auto.
  - intros h o' (bytes & k & Hl) Ho'.
    destruct (al_kept _ _ _ _ _ _ _ _ Hal _ _ _ _ Hl Ho') as (Hne & Hl' & Hobj). split_and!; try done. by exists bytes, k.
Qed.

(** ** References *)

Lemma load_slot_value m o ob slot :
  m_objects m !! o = Some ob → in_payload o ob slot = true → load_slot m o slot = Ok (slot_value o ob slot).
Proof. intros Hob Hin. unfold load_slot, load_object. rewrite Hob, load_Some, bind_Ok, Hin, assert_true. done. Qed.

(** C23: A reference store that keeps its contract returns or stops with a contract panic.  It
    returns only if the owner belongs to the active context, and then changes exactly the
    addressed slot: the slot reads back the stored value, every other reference of the
    object and every other object is unchanged, and the invariant holds.  An owner of
    another context is refused with a panic; a store is accepted if the runtime is
    initialized, the owner is the active context's and lies in the address space, and the
    slot is aligned. *)
Theorem reference_store_exact w hs ly heap o slot value :
  world_ok w hs ly → w_states w !! w_active w = Some heap → store_contract w hs o slot value →
  ((∃ w', neri_rt_v1_gc_store_ref o slot value w = Ok w' ∧
      world_ok w' hs ly ∧ live_in (w_memory w) (w_active w) o ∧ load_slot (w_memory w') o slot = Ok value ∧
      (∀ o', o' ≠ o → m_objects (w_memory w') !! o' = m_objects (w_memory w) !! o') ∧
      (∀ slot', slot' ∈ (from_option (slots_of o) [] (m_objects (w_memory w) !! o)) → slot' ≠ slot →
         load_slot (w_memory w') o slot' = load_slot (w_memory w) o slot')) ∨
   (∃ message, neri_rt_v1_gc_store_ref o slot value w = contract_panic message)) ∧
  (¬ live_in (w_memory w) (w_active w) o → ∃ message, neri_rt_v1_gc_store_ref o slot value w = contract_panic message) ∧
  (store_accepted w heap o slot → ∃ w', neri_rt_v1_gc_store_ref o slot value w = Ok w').
Proof.
  intros Hw Hheap Hc. destruct (gc_store_ref_ends w hs ly heap o slot value Hw Hheap Hc)
    as [(w' & Hr & Hw' & Hl & ob & Hob & ->)|(code & message & [-> Hno] & Hr)]; rewrite Hr.
  2: { split_and!; [right; by exists message|intros _; by exists message|done]. }
  split_and!; [left|done|by eexists]. eexists. split; [done|].
  destruct Hc as (_ & _ & Hmax & Hslot). specialize (Hslot ob Hl Hob).
  destruct (world_current _ _ _ Hw) as (anc & heap' & -> & _ & _ & Hok & _).
  destruct (hp_closed _ _ _ _ _ Hok o Hl) as (ob0 & Hob0 & (_ & _ & Hin) & _). rewrite Hob in Hob0. injection Hob0 as <-.
  destruct (hp_closed _ _ _ _ _ Hok o Hl) as (ob1 & Hob1 & Htr & _). rewrite Hob in Hob1. injection Hob1 as <-.
  destruct (store_refs o ob slot value Htr Hslot Hmax) as ((_ & _ & Hin') & Hv & Hother & Hslots & _).
  split_and!; [done|done| | |].
  - rewrite (load_slot_value _ _ (set_payload ob (write_word (ob_payload ob) (slot_offset_of o slot) value))).
    + by rewrite Hv.
    + simpl. by rewrite lookup_insert_eq.
    + apply Hin'. by rewrite Hslots.
  - intros o' Hne. simpl. by rewrite lookup_insert_ne.
  - intros slot' Hs' Hne. rewrite Hob in Hs'. simpl in Hs'. rewrite (load_slot_value (w_memory w) _ ob) by auto.
    rewrite (load_slot_value _ _ (set_payload ob (write_word (ob_payload ob) (slot_offset_of o slot) value))).
    + by rewrite Hother.
    + simpl. by rewrite lookup_insert_eq.
    + apply Hin'. by rewrite Hslots.
Qed.
(** Bracketing calls undo each other exactly: leaving a root frame right after entering it, and
    ending a borrow right after beginning it, give back the very state before, the
    caller's frame and token included. *)
Theorem brackets_undo w w1 w2 frame o offset length borrow p :
  (neri_rt_v1_gc_root_frame_enter frame w = Ok w1 → neri_rt_v1_gc_root_frame_leave frame w1 = Ok w2 → w2 = w) ∧
  (neri_rt_v1_gc_borrow_begin o offset length borrow w = Ok (p, w1) → neri_rt_v1_gc_borrow_end borrow w1 = Ok w2 → w2 = w).
Proof. split; [apply frame_roundtrip|apply borrow_roundtrip]. Qed.

(** ** Regions *)

(** C21: An allocation region cannot be observed from the contexts it was entered from: between
    entering it and leaving it again, whatever is allocated, stored, collected, or nested
    inside, every object of those contexts stays in use with the same contents; when the
    region is left none of its own objects is left, its parent is active again, and the
    invariant holds. *)
Theorem regions_isolated w hs ly region w1 w2 w3 :
  world_ok w hs ly → neri_rt_v1_region_enter w = Ok (region, w1) →
  rtc (inside hs) (w1, region :: hs) (w2, region :: hs) → neri_rt_v1_region_leave region w2 = Ok w3 →
  frozen (w_memory w) (w_memory w3) hs ∧ (∀ o, ¬ live_in (w_memory w3) region o) ∧
  w_active w3 = w_active w ∧ ∃ ly', world_ok w3 hs ly'.
Proof.
  intros Hw He Hin Hl.
  pose proof (safe_returned _ _ _ (region_enter_ok w hs ly Hw) He) as (heap & _ & _ & _ & Hmem & _ & _ & Hw1).
  assert (∃ ly', world_ok (w2, region :: hs).1 (w2, region :: hs).2 ly') as [ly2 Hw2].
  { assert (∃ ly', world_ok (w1, region :: hs).1 (w1, region :: hs).2 ly') as Hstart by (eexists; exact Hw1).
    revert Hstart. induction Hin as [|c1 c2 c3 [Hs _] _ IH]; [done|]. intros Hok. by eapply IH, step_ok. }
  pose proof (inside_frozen hs (w1, region :: hs) (w2, region :: hs) (ex_intro _ (with_ly_new region ly) Hw1) Hin) as Hf. simpl in Hw2, Hf.
  pose proof (safe_returned _ _ _ (region_leave_ok w2 _ ly2 region Hw2) Hl) as (anc & [= <-] & Hleft & Hw3).
  split_and!; [|apply (lf_dead _ _ _ _ Hleft)| |by eexists].
  - rewrite <-Hmem. eapply frozen_trans; [exact Hf|]. apply unchanged_frozen, (lf_memory _ _ _ _ Hleft).
  - destruct (world_current _ _ _ Hw) as (anc & heap0 & -> & _).
    destruct (lf_states _ _ _ _ Hleft) as (parent & heap' & rest & [= <- _] & _ & -> & _). done.
Qed.

(** ** Foreign entries and shutdown *)

(** A foreign entry can be left only as the innermost one and with the root and borrow chains
    it was entered with; the entry that initialized the heap releases it on leaving, so
    that no object of it is left, and any other entry leaves the objects alone. *)
Theorem foreign_entries_nest w hs ly entry w' :
  world_ok w hs ly → neri_rt_v1_foreign_leave entry w = Ok w' →
  ∃ rest token heap, ly_entries ly (w_active w) = entry :: rest ∧ w_entries w !! entry = Some token ∧
    w_states w !! w_active w = Some heap ∧ fe_roots token = rs_root_frame heap ∧ fe_borrows token = rs_borrow heap ∧
    (fe_owns_heap token ≠ 0 → rest = [] ∧ ∀ o, ¬ live_in (w_memory w') (w_active w) o) ∧
    (fe_owns_heap token = 0 → w_memory w' = w_memory w) ∧ ∃ ly', world_ok w' hs ly'.
Proof.
  intros Hw Hr. pose proof (safe_returned _ _ _ (foreign_leave_ok w hs ly entry Hw) Hr)
    as (rest & token & heap & E1 & E2 & E3 & E4 & E5 & E6 & E7 & ly' & Hw' & _).
  exists rest, token, heap. split_and!; try done. by exists ly'.
Qed.

(** Shutdown is refused while roots, borrows, foreign entries or persistent roots are live;
    otherwise it leaves the runtime as it was before initialization: the state is the
    initial one, no object is in use, and every native allocation of the context is
    released. *)
Theorem shutdown_releases w h ly heap w' :
  world_ok w [h] ly → w_states w !! h = Some heap → rs_phase heap = active → neri_rt_v1_shutdown w = Ok w' →
  ly_frames ly h = [] ∧ ly_borrows ly h = [] ∧ ly_entries ly h = [] ∧
  w_states w' !! h = Some empty_state ∧ (∀ o, ¬ live_in (w_memory w') h o) ∧
  (∀ a, a ∈ ly_natives ly h → w_natives w' !! a = None ∧ w_bytes w' !! na_pointer (native_at w a) = None) ∧
  ∃ ly', world_ok w' [h] ly'.
Proof.
  intros Hw Hheap Hph Hr. pose proof (wd_active _ _ _ Hw) as Hact. injection Hact as Hact.
  unfold neri_rt_v1_shutdown, current_state, load_state, phase_is in Hr. rewrite <-Hact, Hheap, load_Some in Hr.
  simpl in Hr. rewrite Hph in Hr. simpl in Hr. apply bind_Ok_inv in Hr as (w1 & Hr & Hflush).
  destruct (flush_console w1); [|done]. injection Hflush as ->.
  pose proof (safe_returned _ _ _ (release_heap_ok w h [] ly Hw) Hr) as Hem.
  destruct (em_lists _ _ _ _ _ Hem) as (L1 & L2 & L3). split_and!; try done.
  - by rewrite (em_states _ _ _ _ _ Hem), lookup_insert_eq.
  - intros o. eapply emptied_dead; exact Hem.
  - apply (em_released _ _ _ _ _ Hem).
  - eexists. eapply emptied_world; [exact Hw|exact Hem].
Qed.

(** ** Native memory *)

(** Resizing native memory gives fresh storage of the new size that starts with the old
    contents, as far as both reach; the old storage is released, no other storage changes,
    and a pointer the runtime did not allocate is refused. *)
Theorem native_realloc_keeps_prefix w hs ly p byte_count alignment q w' :
  byte_count ≤ u64_max → world_ok w hs ly → p ≠ 0 → neri_rt_v1_native_realloc p byte_count alignment w = Ok (q, w') →
  (∃ n old new, n ∈ (snd <$> map_to_list (w_natives w)) ∧ na_pointer n = p ∧ w_bytes w !! p = Some old ∧
     length_N old = N.max 1 (na_byte_count n) ∧ length_N new = N.max 1 byte_count ∧
     take (N.to_nat (N.min (na_byte_count n) byte_count)) new = take (N.to_nat (N.min (na_byte_count n) byte_count)) old ∧
     w_bytes w !! q = None ∧ w_bytes w' !! q = Some new ∧ w_bytes w' !! p = None ∧
     (∀ r, r ≠ p → r ≠ q → w_bytes w' !! r = w_bytes w !! r)) ∧
  w_memory w' = w_memory w ∧ ∃ ly', world_ok w' hs ly'.
Proof.
  intros Hn Hw Hp Hr.
  pose proof (safe_returned _ _ _ (native_realloc_ok w hs ly p byte_count alignment Hn Hw Hp) Hr) as [Hres [nl Hw']].
  split_and!; [|by eapply realloc_memory|by eexists].
  destruct Hres as (a & n & old & new & Ha & Hnp & Hold & Hol & Hq & _ & Hb & Hnl & Htake).
  exists n, old, new. assert (p ≠ q) as Hpq by (intros ->; congruence). split_and!; try done.
  - apply list_elem_of_fmap. exists (a, n). split; [done|]. by apply elem_of_map_to_list.
  - rewrite Hb, lookup_delete_ne by done. apply lookup_insert_eq.
  - rewrite Hb. apply lookup_delete_eq.
  - intros r Hrp Hrq. by rewrite Hb, lookup_delete_ne, lookup_insert_ne by done.
Qed.
End runtime.

(** ** The sample heap *)

#[local] Existing Instances sample_host sample_host_lawful sample_runtime_host sample_runtime_host_lawful.
#[local] Existing Instances sample_program sample_trace.

Lemma sample_held_reaches : reaches sample_start sample_context sample_held [sample_context].
Proof. split; [apply sample_initial|apply sample_held_reached]. Qed.

(** The roots of the sample heap are the one slot of its one frame. *)
Lemma sample_roots ly :
  world_ok sample_heap [sample_context] ly → sample_first ∈ active_roots sample_heap ly (sample_state sample_heap).
Proof.
  intros Hw. pose proof (wd_heaps _ _ _ Hw [] sample_context [] (sample_state sample_heap) eq_refl eq_refl) as Hok.
  pose proof (ch_frames _ _ _ _ (hp_chains _ _ _ _ _ Hok)) as Hc.
  assert (ly_frames ly sample_context = [sample_frame]) as Hl.
  { eapply chain_functional; [exact Hc|]. split; [done|]. split; [done|]. exists 0. by split; vm_compute. }
  unfold active_roots. change (w_active sample_heap) with sample_context. rewrite Hl.
  apply elem_of_root_refs. left. exists sample_frame. split; [set_solver|]. vm_compute. by left.
Qed.

Lemma sample_reachable ly :
  world_ok sample_heap [sample_context] ly →
  reachable (w_memory sample_heap) sample_context (active_roots sample_heap ly (sample_state sample_heap)) sample_first ∧
  reachable (w_memory sample_heap) sample_context (active_roots sample_heap ly (sample_state sample_heap)) sample_second.
Proof.
  intros Hw. assert (live_in (w_memory sample_heap) sample_context sample_first) as H1
    by (apply (slab_holds_live _ _ _ 16384 0); by vm_compute).
  assert (live_in (w_memory sample_heap) sample_context sample_second) as H2
    by (apply (slab_holds_live _ _ _ 16384 1); by vm_compute).
  split; [by apply reach_root; [apply sample_roots|]|].
  apply (reach_ref _ _ _ sample_first); [by apply reach_root; [apply sample_roots|]| |done]. vm_compute. by left.
Qed.

Lemma storage_allocation_sound_witness :
  ∃ r m' st', allocate 32 sample_context true (w_memory sample_start) empty_storage = Ok (r, m', st') ∧
    storage_ok m' sample_context st'.
Proof.
  destruct (storage_allocation_sound 32 sample_context true (w_memory sample_start) empty_storage)
    as (r & m' & st' & Hr & _ & Hst & _).
  - apply (wd_memory _ _ _ (initial_ok _ _ sample_initial)).
  - apply empty_storage_ok; intros; reflexivity.
  - discriminate.
  - vm_compute. discriminate.
  - exists r, m', st'. split; [exact Hr|exact Hst].
Defined.

Lemma sweep_exact_witness :
  ∃ m' st' reclaimed, sweep (w_memory sample_heap) (rs_storage (sample_state sample_heap)) = Ok (m', st', reclaimed) ∧
    ((sample_first, 32) ∈ reclaimed ↔ live_object (w_memory sample_heap) sample_context sample_first 32 false).
Proof.
  destruct (reaches_ok _ _ _ _ sample_heap_reached) as [ly Hw].
  pose proof (wd_heaps _ _ _ Hw [] sample_context [] (sample_state sample_heap) eq_refl eq_refl) as Hok.
  destruct (sweep_exact (w_memory sample_heap) sample_context (rs_storage (sample_state sample_heap))
    (wd_memory _ _ _ Hw) (hp_storage _ _ _ _ _ Hok)) as (m' & st' & reclaimed & Hr & _ & _ & _ & _ & _ & Hc & _).
  exists m', st', reclaimed. split; [exact Hr|apply Hc].
Defined.

Lemma adoption_moves_everything_witness :
  ∃ m' st', adopt (w_memory sample_heap) empty_storage (rs_storage (sample_state sample_heap)) 128 = Ok (m', st', empty_storage) ∧
    storage_ok m' 128 st'.
Proof.
  destruct (reaches_ok _ _ _ _ sample_heap_reached) as [ly Hw].
  pose proof (wd_heaps _ _ _ Hw [] sample_context [] (sample_state sample_heap) eq_refl eq_refl) as Hok.
  assert (128 ∉ [sample_context]) as Hx by (rewrite list_elem_of_singleton; discriminate).
  destruct (unowned_context _ _ _ 128 Hw Hx) as [O1 O2].
  destruct (adoption_moves_everything (w_memory sample_heap) 128 sample_context empty_storage
    (rs_storage (sample_state sample_heap))) as (m' & st' & Hr & _ & Hst & _).
  - discriminate.
  - discriminate.
  - exact (wd_memory _ _ _ Hw).
  - apply empty_storage_ok; [exact O1|exact O2].
  - exact (hp_storage _ _ _ _ _ Hok).
  - exists m', st'. split; [exact Hr|exact Hst].
Defined.

Lemma runtime_invariant_witness : ∃ ly, world_ok sample_heap [sample_context] ly.
Proof. exact (runtime_invariant _ _ _ _ sample_heap_reached). Defined.

Lemma runtime_calls_never_undefined_witness :
  (∃ w', run op_collect sample_heap = Ok w') ∨ ∃ code message, run op_collect sample_heap = Throw (panic code message).
Proof. exact (runtime_calls_never_undefined _ _ _ _ op_collect sample_heap_reached I). Defined.

Lemma collection_exact_witness :
  ∃ w', neri_rt_v1_gc_collect sample_heap = Ok w' ∧
    live_in (w_memory w') sample_context sample_first ∧ live_in (w_memory w') sample_context sample_second ∧
    rs_object_count (sample_state w') = 2.
Proof.
  destruct (reaches_ok _ _ _ _ sample_heap_reached) as [ly Hw].
  destruct (collection_exact sample_heap [sample_context] ly (sample_state sample_heap)) as (w' & Hr & _ & Hlive & _).
  - reflexivity.
  - exact Hw.
  - reflexivity.
  - reflexivity.
  - exists w'. destruct (sample_reachable ly Hw) as [H1 H2]. split; [exact Hr|].
    split; [apply Hlive, H1|]. split; [apply Hlive, H2|].
    vm_compute in Hr. injection Hr as <-. reflexivity.
Defined.

Lemma allocation_keeps_reachable_witness :
  ∃ o w', neri_rt_v1_gc_alloc pair_type 16 8 sample_heap = Ok (o, w') ∧ o mod 16 = 0 ∧
    live_in (w_memory w') sample_context sample_first.
Proof.
  destruct (reaches_ok _ _ _ _ sample_heap_reached) as [ly Hw].
  destruct (allocation_keeps_reachable sample_heap [sample_context] ly (sample_state sample_heap) pair_type 16 8
    Hw eq_refl sample_pair_contract) as [(o & w' & Hr & _ & _ & Ha & _ & Hk & _)|(code & message & Hr & _)].
  - exists o, w'. split; [exact Hr|]. split; [exact Ha|]. pose proof (sample_reachable ly Hw) as [Hf _].
    destruct (reachable_live _ _ _ _ Hf) as (bytes & k & Hl). apply (Hk sample_context sample_first); [by exists bytes, k|].
    intros _. exact Hf.
  - vm_compute in Hr. discriminate Hr.
Defined.

Lemma reference_store_exact_witness :
  ∃ w', neri_rt_v1_gc_store_ref sample_first (sample_first + 16) sample_second sample_held = Ok w' ∧
    load_slot (w_memory w') sample_first (sample_first + 16) = Ok sample_second.
Proof.
  destruct (reaches_ok _ _ _ _ sample_held_reaches) as [ly Hw].
  destruct (reference_store_exact sample_held _ ly (sample_state sample_held) _ _ _ Hw eq_refl sample_store_contract)
    as [[(w' & Hr & _ & _ & Hl & _)|(message & Hr)] _].
  - exists w'. split; [exact Hr|exact Hl].
  - vm_compute in Hr. discriminate Hr.
Defined.

Definition sample_framed : world := Eval vm_compute in
  after (op_new_frame sample_frame sample_slot 1) (after (op_write_root sample_slot 0) sample_ready).

Lemma brackets_undo_witness : after (op_root_frame_leave sample_frame) sample_rooted = sample_framed.
Proof.
  apply (proj1 (brackets_undo sample_framed sample_rooted _ sample_frame 0 0 0 0 0)); vm_compute; reflexivity.
Defined.

(** A region in which an object is allocated. *)
Definition sample_region : N := 80.
Definition sample_inside : world := Eval vm_compute in after op_region_enter sample_heap.
Definition sample_worked : world := Eval vm_compute in after (op_alloc pair_type 16 8) sample_inside.
Definition sample_left : world := Eval vm_compute in after (op_region_leave sample_region) sample_worked.

Lemma regions_isolated_witness : frozen (w_memory sample_heap) (w_memory sample_left) [sample_context].
Proof.
  destruct (reaches_ok _ _ _ _ sample_heap_reached) as [ly Hw].
  apply (regions_isolated sample_heap [sample_context] ly sample_region sample_inside sample_worked sample_left Hw).
  - vm_compute. reflexivity.
  - eapply rtc_l; [|apply rtc_refl]. split.
    + apply (step_operation (op_alloc pair_type 16 8)); [exact sample_pair_contract|vm_compute; reflexivity].
    + exists [sample_region]. split; [discriminate|reflexivity].
  - vm_compute. reflexivity.
Defined.

Definition sample_entry : N := 3000.
Definition sample_entered : world := Eval vm_compute in after (op_foreign_enter sample_entry sample_requirements) sample_start.

Lemma foreign_entries_nest_witness :
  ∃ w', neri_rt_v1_foreign_leave sample_entry sample_entered = Ok w' ∧ ∃ ly', world_ok w' [sample_context] ly'.
Proof.
  assert (reaches sample_start sample_context sample_entered [sample_context]) as Hreach.
  { apply (reached_next (op_foreign_enter sample_entry sample_requirements) sample_start); [apply sample_start_reached|..];
      [exact I|vm_compute; reflexivity..]. }
  destruct (reaches_ok _ _ _ _ Hreach) as [ly Hw].
  destruct (neri_rt_v1_foreign_leave sample_entry sample_entered) as [w'|e] eqn:Hr; [|vm_compute in Hr; discriminate Hr].
  destruct (foreign_entries_nest _ _ ly _ _ Hw Hr) as (rest & token & heap & _ & _ & _ & _ & _ & _ & _ & Hok).
  exists w'. split; [reflexivity|exact Hok].
Defined.

Definition sample_native : world := Eval vm_compute in after (op_native_alloc_zeroed 8 8) sample_ready.

Lemma sample_native_reached : reaches sample_start sample_context sample_native [sample_context].
Proof.
  eapply (reached_next (op_native_alloc_zeroed 8 8)); [apply sample_ready_reached|by vm_compute|by vm_compute|done].
Qed.

Lemma shutdown_releases_witness :
  ∃ w', neri_rt_v1_shutdown sample_native = Ok w' ∧ w_states w' !! sample_context = Some empty_state.
Proof.
  destruct (reaches_ok _ _ _ _ sample_native_reached) as [ly Hw].
  destruct (neri_rt_v1_shutdown sample_native) as [w'|e] eqn:Hr; [|vm_compute in Hr; discriminate Hr].
  destruct (shutdown_releases sample_native sample_context ly (sample_state sample_native) w' Hw eq_refl eq_refl Hr)
    as (_ & _ & _ & Hs & _).
  exists w'. split; [reflexivity|exact Hs].
Defined.

Lemma native_realloc_keeps_prefix_witness :
  ∃ w', neri_rt_v1_native_realloc 16 24 8 sample_native = Ok (32, w') ∧ w_bytes w' !! 16 = None.
Proof.
  destruct (reaches_ok _ _ _ _ sample_native_reached) as [ly Hw].
  destruct (neri_rt_v1_native_realloc 16 24 8 sample_native) as [[q w']|e] eqn:Hr; [|vm_compute in Hr; discriminate Hr].
  assert (q = 32) as -> by (vm_compute in Hr; congruence).
  destruct (native_realloc_keeps_prefix sample_native [sample_context] ly 16 24 8 32 w') as
    [(n & old & new & _ & _ & _ & _ & _ & _ & _ & _ & Hgone & _) _].
  - vm_compute. discriminate.
  - exact Hw.
  - discriminate.
  - exact Hr.
  - exists w'. split; [reflexivity|exact Hgone].
Defined.
