(* ===== verification/HostSpec.v ===== *)
(** * What strings, text and the host functions promise

    The theorems about the runtime's strings and arrays, the text they are built from,
    and the functions behind the standard library; then their use on sample objects. *)

From S2P Require Import Prelude Utf8 Storage Memory Heap Marking HeapInvariant RuntimeApi.
From S2P Require Import StorageSafety Payloads NativeSafety ApiSafety Isolation.
From S2P Require Import Text TextSpec Strings HostApi.
From S2P Require Import StringSafety StringSpec HostSafety HostCalls RuntimeSamples.

Local Open Scope string_scope.
Local Open Scope list_scope.
Local Open Scope N_scope.

(** ** Text *)

(** C32: The runtime's UTF-8 check is total and exact: it reads inside the text, ends, and accepts
    exactly the texts that are encodings of Unicode scalar values in their shortest
    form. *)
Theorem strict_utf8_exact bytes :
  ∃ b, is_strict_utf8 bytes = Ok b ∧ (b = true ↔ well_formed_utf8 bytes).
Proof. apply is_strict_utf8_spec. Qed.

(** Formatting a finite number keeps the number: given the general notation of the C++
    library, fixed or scientific, [format_finite_float] returns without touching memory
    outside its 768 bytes, and the text is the shorter of the fixed and the scientific
    notation of the significant digits, belongs to the grammar of float literals, and
    denotes the same number. *)
Theorem format_float_exact raw d :
  general_text raw d →
  ∃ sig position d', format_finite_float raw = Ok (shorter_notation (dc_negative d) sig position) ∧
    (length (shorter_notation (dc_negative d) sig position) ≤ 768)%nat ∧
    float_text (shorter_notation (dc_negative d) sig position) d' ∧ same_number d d'.
Proof. apply format_general. Qed.

Section strings.
Context `{Program} `{!LawfulTrace} `{RuntimeHost} `{!LawfulRuntimeHost} `{HostMemory} `{!LawfulHost}.
Context `{LocalStorage} `{!LawfulLocals} `{!LawfulStrings}.

(** ** Strings *)

(** C31: Concatenation is exact although its allocation may collect: it panics, or the result is a
    new string of the active context with the bytes of the left operand followed by those
    of the right one, both as they were before the call; it is valid UTF-8 if the operands
    are, and the state is one the runtime's operations reach, so that the invariant holds
    again. *)
Theorem string_concat_exact w hs ly l r bl br :
  world_ok w hs ly → string_at (w_memory w) hs l bl → string_at (w_memory w) hs r br →
  (∃ o w' ly', neri_rt_v1_string_concat l r w = Ok (o, w') ∧ string_at (w_memory w') hs o (bl ++ br) ∧
     live_in (w_memory w') (w_active w') o ∧ rtc step (w, hs) (w', hs) ∧ world_ok w' hs ly' ∧
     (well_formed_utf8 bl → well_formed_utf8 br → well_formed_utf8 (bl ++ br))) ∨
  ∃ code message, neri_rt_v1_string_concat l r w = Throw (panic code message).
Proof.
  intros Hw Hl Hr. destruct (string_concat_ok w hs ly l r Hw (string_at_contract _ _ _ _ Hl) (string_at_contract _ _ _ _ Hr))
    as [([o w'] & Hrun & bl' & br' & Hl' & Hr' & [M1 [ly' M2] M3 M4 _])|Hp]; [left|by right].
  rewrite (string_at_unique _ _ _ _ _ _ Hl' Hl), (string_at_unique _ _ _ _ _ _ Hr' Hr) in M3.
  exists o, w', ly'. split_and!; try done. by apply well_formed_app.
Qed.

(** C33: Integers survive the trip through text: the string made of a 64-bit integer parses to that
    integer in the state after; and a string parses to an integer exactly when its bytes
    are an optional minus sign and decimal digits whose value is in range. *)
Theorem integer_string_roundtrip w hs ly z destination :
  destination ≠ 0 → world_ok w hs ly → phase_of w = Some active → (int64_min ≤ z ≤ int64_max)%Z →
  (∀ o w', neri_rt_v1_string_from_int z w = Ok (o, w') → neri_rt_v1_host_parse_int destination o w' = Ok (Some z)) ∧
  ∀ o bs, string_at (w_memory w) hs o bs → o ≠ 0 →
    neri_rt_v1_host_parse_int destination o w = Ok (Some z) ↔
    ∃ negative ds, bs = minus negative ++ ds ∧ ds ≠ [] ∧ digit_text ds ∧ z = signed negative (digits_value ds).
Proof.
  intros Hd Hw Hph Hz. split.
  - intros o w' Hr. pose proof (safe_returned _ _ _ (string_from_int_ok w hs ly z Hw Hz) Hr) as Hm.
    destruct (md_world _ _ _ _ _ Hm) as [ly' Hw'].
    rewrite (parse_int_at w' hs ly' o (decimal_text z)); [|done|by apply Hm|apply Hm|exact (made_nonnull _ _ _ _ _ Hm)|done].
    by rewrite (proj2 (integer_text_ok z Hz)).
  - intros o bs Hs Ho. rewrite (parse_int_at w hs ly o bs) by done.
    split; [intros [= Hp]|intros (negative & ds & Hb & Hne & Hds & Hv); f_equal].
    + apply parse_int_text_iff in Hp as (negative & ds & ? & ? & ? & ? & _). eauto 6.
    + apply parse_int_text_iff. eauto 7.
Qed.

(** Finite floats survive the trip through text: under the documented behaviour of the C++
    conversions, the string made of a finite value parses to that value. *)
Theorem float_string_roundtrip `{LawfulFloats} w hs ly value o w' destination :
  destination ≠ 0 → world_ok w hs ly → phase_of w = Some active → isfinite value = true →
  neri_rt_v1_string_from_float value w = Ok (o, w') → neri_rt_v1_host_parse_float destination o w' = Ok (Some value).
Proof.
  intros Hd Hw Hph Hfin Hr. pose proof (safe_returned _ _ _ (string_from_float_ok w hs ly value Hw Hfin) Hr) as (text & Hm & Hp).
  destruct (md_world _ _ _ _ _ Hm) as [ly' Hw'].
  rewrite (parse_float_at w' hs ly' o text); [by rewrite Hp|done|by apply Hm|apply Hm|exact (made_nonnull _ _ _ _ _ Hm)|done].
Qed.

(** C34: A slice copies exactly the requested bytes: if start or length is negative or they
    reach past the end of the string, it stops with the bounds panic that says so; if they lie
    in the string but the bytes are not well-formed UTF-8, because a scalar is split, with the
    bounds panic that says that; otherwise it returns a string with exactly those bytes, in a
    state that keeps the invariant, even if the allocation collects, or memory is exhausted
    (or the copy is longer than the largest object can be). *)
Theorem string_slice_exact w hs ly o bs start n (part := take (Z.to_nat n) (drop (Z.to_nat start) bs)) :
  world_ok w hs ly → phase_of w = Some active → string_at (w_memory w) hs o bs → o ≠ 0 →
  (¬ (0 ≤ start ∧ 0 ≤ n ∧ start + n ≤ Z.of_N (length_N bs))%Z →
     neri_rt_v1_host_string_slice o start n w = Throw (panic PANIC_BOUNDS "String byte slice is out of bounds.")) ∧
  ((0 ≤ start ∧ 0 ≤ n ∧ start + n ≤ Z.of_N (length_N bs))%Z → ¬ well_formed_utf8 part →
     neri_rt_v1_host_string_slice o start n w = Throw (panic PANIC_BOUNDS "String byte slice splits a UTF-8 scalar.")) ∧
  ((0 ≤ start ∧ 0 ≤ n ∧ start + n ≤ Z.of_N (length_N bs))%Z → well_formed_utf8 part →
     (∃ o' w', neri_rt_v1_host_string_slice o start n w = Ok (o', w') ∧ o' ≠ 0 ∧
        string_at (w_memory w') hs o' part ∧ ∃ ly', world_ok w' hs ly') ∨
     ∃ code message, neri_rt_v1_host_string_slice o start n w = Throw (panic code message) ∧
       (code = PANIC_OUT_OF_MEMORY ∨ code = PANIC_RUNTIME_CONTRACT ∧ u64_max - sizeof_header < 8 + length_N part + 1)).
Proof.
  intros Hw Hph Hs Ho. destruct (string_slice_cases w hs ly o bs start n Hw Hph Hs Ho) as (Hout & Hsplit & Hin).
  split_and!; [exact Hout|exact Hsplit|]. intros Hr Hwf. destruct (Hin Hr Hwf) as [([o' w'] & Hres & Hm)|(code & message & Hc & Hres)].
  - left. exists o', w'. split_and!; [done|by eapply made_nonnull|apply Hm|apply Hm].
  - right. by exists code, message.
Qed.
End strings.

(** ** Arrays and host functions *)

Section host.
Context `{Program} `{!LawfulTrace} `{RuntimeHost} `{!LawfulRuntimeHost} `{HostMemory} `{!LawfulHost}.
Context `{LocalStorage} `{!LawfulLocals} `{!LawfulStrings} `{!LawfulArrays} `{HostSystem}.

(** Appending builds a new array of the same type with one element more: its elements are
    those of the old array followed by the value, even if the allocation collects; the
    invariant holds again, or the program stops with a panic. *)
Theorem array_append_exact w hs ly values value t d n obv :
  world_ok w hs ly → array_at (w_memory w) hs values t d n obv → fits (w_memory w) hs d value →
  (∃ o w' ob ly', append_array values value w = Ok (o, w') ∧ array_at (w_memory w') hs o t d (n + 1) ob ∧
     elements d (n + 1) (ob_payload ob) = elements d n (ob_payload obv) ++ appended_bytes value ∧ world_ok w' hs ly') ∨
  ∃ code message, append_array values value w = Throw (panic code message).
Proof.
  intros Hw Ha Hf. destruct (append_array_ok w hs ly values value t d n obv Hw Ha Hf)
    as [([o w'] & Hr & _ & [ly' Hw'] & ob & Hob & He)|Hp]; [left; eauto 10|by right].
Qed.

(** C30: The functions behind the standard library's strings, arrays, console, files, paths and
    processes are safe whatever the operating system answers: in every state a program can
    reach, a call with references the program may hold either stops with a panic or returns,
    null or a reference the program may hold if it returns one, in a state that is again one
    the program can reach; so no text is read outside its object. *)
Theorem host_calls_safe `{!FloatLibrary} `{!LawfulFloats} w0 h w hs c :
  reaches w0 h w hs → call_contract c w hs →
  (∃ o w', run_call c w = Ok (o, w') ∧ (o = 0 ∨ valid_ref (w_memory w') hs o) ∧ reaches w0 h w' hs) ∨
  ∃ code message, run_call c w = Throw (panic code message).
Proof.
  intros Hreach Hc. destruct (reaches_ok _ _ _ _ Hreach) as [ly Hw].
  destruct (run_call_ok c w hs ly Hw Hc) as [([o w'] & Hr & [Hs _] & Hv)|Hp]; [left|by right].
  exists o, w'. split_and!; [done|exact Hv|]. destruct Hreach as [Hi Hrtc]. split; [done|]. etransitivity; [exact Hrtc|exact Hs].
Qed.

(** A line of console input is the text up to the next newline or the end of the input, without
    a final carriage return; the newline is consumed and nothing behind it, the result is
    null only for an end of input that is asked for, and input that is not UTF-8 is
    refused. *)
Theorem console_line_exact w hs ly distinguish input broken o rest w' :
  world_ok w hs ly → read_console_line distinguish input broken w = Ok (o, rest, w') →
  ∃ line eof, x0a ∉ line ∧ (if eof : bool then input = line ∧ rest = [] ∧ broken = false else input = line ++ x0a :: rest) ∧
    well_formed_utf8 (drop_return line) ∧ (∃ ly', world_ok w' hs ly') ∧
    (o = 0 ∧ distinguish = true ∧ eof = true ∧ drop_return line = [] ∨ string_at (w_memory w') hs o (drop_return line)).
Proof.
  intros Hw Hr. pose proof (safe_returned _ _ _ (read_console_line_ok w hs ly distinguish input broken Hw) Hr)
    as ([_ Hw'] & _ & line & eof & Hline & Hu & Hres).
  destruct (read_line_ok _ _ _ _ Hline) as [Hno Hin]. exists line, eof. split_and!; try done.
  destruct eof; [|done]. destruct Hin as [-> ->]. split_and!; try done.
  destruct broken; [|done]. exfalso. unfold read_console_line in Hr. rewrite Hline in Hr.
  destruct (require_initialized w) as [[]|]; done.
Qed.

(** The one path function that does not check what the operating system answers: if the
    absolute path is not UTF-8 (the current directory need not be), the program stops,
    while [neri_rt_v1_host_path_file_name] and its siblings return null and set the
    error message. *)
Lemma path_absolute_panics w hs ly path bs normalized :
  world_ok w hs ly → phase_of w = Some active → string_at (w_memory w) hs path bs → path ≠ 0 → string_has_nul bs = false →
  absolute_path w bs = inr normalized → ¬ well_formed_utf8 normalized →
  neri_rt_v1_host_path_absolute path w = contract_panic "string creation requires valid UTF-8".
Proof.
  intros Hw Hph Hs Hp Hnul Habs Hbad. unfold neri_rt_v1_host_path_absolute, host_string.
  rewrite (require_initialized_active _ Hph), bind_Ok, (inspect_string_at w hs ly path bs), !bind_Ok by done.
  rewrite (view_bytes_ok w hs path bs), bind_Ok, Hnul, bind_Ok, Habs by done. unfold set_error.
  destruct (world_current _ _ _ Hw) as (anc & heap & _ & Hheap & _).
  unfold current_state, load_state. rewrite Hheap, load_Some, !bind_Ok. unfold create_utf8_string. simpl.
  destruct (is_strict_utf8_spec normalized) as (b & -> & Hb). destruct b; [|done]. by destruct Hbad; apply Hb.
Qed.
End host.

(** ** Sample objects *)

#[local] Existing Instances sample_host sample_host_lawful sample_runtime_host sample_runtime_host_lawful.
#[local] Existing Instances sample_program sample_trace sample_strings sample_arrays.
#[local] Existing Instances sample_locals sample_locals_lawful integer_floats integer_floats_lawful.

(** A system that accepts output, has no files, one directory and one variable. *)
#[local] Instance sample_system : HostSystem := {
  stdout_accepts _ _ := true;
  stderr_accepts _ _ := true;
  open_file _ _ := open_failed;
  write_atomic _ _ _ := (false, "read-only");
  remove_file _ _ := (false, "read-only");
  absolute_path _ path := inr (x2f :: path);
  canonical_path _ path := Some path;
  executable_path _ := None;
  process_argument _ _ _ := [x61];
  environment _ _ := None;
  run_process _ _ := (None, "not supported");
}.

Lemma sample_format : format_finite_float [x31; x2e; x35] = Ok [x31; x2e; x35].
Proof. by vm_compute. Qed.

Lemma format_float_exact_witness : ∃ d', float_text [x31; x2e; x35] d'.
Proof.
  destruct (format_float_exact [x31; x2e; x35] (mk_decimal false 15 (-1))) as (sig & position & d' & Hr & _ & Ht & _).
  - refine (general_fixed false [x31] [x2e; x35] [x35] _ _ _ _).
    + repeat constructor.
    + discriminate.
    + exact (fraction_some [x35] ltac:(repeat constructor)).
    + simpl. lia.
  - exists d'. rewrite sample_format in Hr. injection Hr as Hr. cbn [dc_negative] in Ht. rewrite <-Hr in Ht. exact Ht.
Defined.

(** The string "42", and an array of two bytes. *)
Definition sample_string : N := 18256.
Definition sample_text : world := Eval vm_compute in
  match neri_rt_v1_string_from_int 42 sample_ready with Ok (_, w) => w | Throw _ => sample_ready end.

Lemma sample_text_made : made sample_ready sample_text [sample_context] sample_string [x34; x32].
Proof.
  destruct (reaches_ok _ _ _ _ sample_ready_reached) as [ly Hw].
  refine (safe_returned _ _ (sample_string, sample_text) (string_from_int_ok sample_ready _ ly 42 Hw _) _);
    [by vm_compute|by vm_compute].
Qed.

Lemma sample_text_reached : reaches sample_start sample_context sample_text [sample_context].
Proof.
  destruct sample_ready_reached as [Hi Hs]. split; [done|]. etransitivity; [exact Hs|apply (md_steps _ _ _ _ _ sample_text_made)].
Qed.

Lemma string_concat_exact_witness :
  ∃ o w', neri_rt_v1_string_concat sample_string sample_string sample_text = Ok (o, w') ∧
    string_at (w_memory w') [sample_context] o [x34; x32; x34; x32].
Proof.
  destruct (reaches_ok _ _ _ _ sample_text_reached) as [ly Hw].
  destruct (string_concat_exact sample_text [sample_context] ly sample_string sample_string [x34; x32] [x34; x32])
    as [(o & w' & ly' & Hr & Hs & _)|(code & message & Hr)].
  - exact Hw.
  - exact (md_string _ _ _ _ _ sample_text_made).
  - exact (md_string _ _ _ _ _ sample_text_made).
  - exists o, w'. split; [exact Hr|exact Hs].
  - exfalso. vm_compute in Hr. discriminate Hr.
Defined.

Lemma integer_string_roundtrip_witness : neri_rt_v1_host_parse_int 8 sample_string sample_text = Ok (Some 42%Z).
Proof.
  destruct (reaches_ok _ _ _ _ sample_ready_reached) as [ly Hw].
  apply (proj1 (integer_string_roundtrip sample_ready [sample_context] ly 42 8 ltac:(discriminate) Hw eq_refl ltac:(vm_compute; split; discriminate))).
  vm_compute. reflexivity.
Defined.

Lemma float_string_roundtrip_witness : neri_rt_v1_host_parse_float 8 sample_string sample_text = Ok (Some 42%Z).
Proof.
  destruct (reaches_ok _ _ _ _ sample_ready_reached) as [ly Hw].
  apply (float_string_roundtrip sample_ready [sample_context] ly (42%Z : @float integer_floats) _ _ 8); [discriminate|exact Hw|vm_compute; reflexivity..].
Defined.

Lemma string_slice_exact_witness :
  (∃ o w', neri_rt_v1_host_string_slice sample_string 1 1 sample_text = Ok (o, w') ∧
    string_at (w_memory w') [sample_context] o [x32]) ∧
  neri_rt_v1_host_string_slice sample_string 1 2 sample_text = Throw (panic PANIC_BOUNDS "String byte slice is out of bounds.").
Proof.
  destruct (reaches_ok _ _ _ _ sample_text_reached) as [ly Hw].
  pose proof (λ n, string_slice_exact sample_text [sample_context] ly sample_string [x34; x32] 1 n Hw eq_refl
    (md_string _ _ _ _ _ sample_text_made) ltac:(discriminate)) as Hslice.
  split.
  - destruct (Hslice 1%Z) as (_ & _ & Hin). destruct Hin as [(o & w' & Hr & _ & Hs & _)|(code & message & Hr & _)].
    + by vm_compute.
    + apply is_strict_utf8_true. by vm_compute.
    + exists o, w'. split; [exact Hr|exact Hs].
    + exfalso. vm_compute in Hr. discriminate Hr.
  - apply (Hslice 2%Z). vm_compute. intros (_ & _ & Hle). by apply Hle.
Defined.

Definition sample_bytes : world := Eval vm_compute in after (op_alloc bytes_type 8 8) sample_ready.

Lemma sample_bytes_reached : reaches sample_start sample_context sample_bytes [sample_context].
Proof.
  eapply (reached_next (op_alloc bytes_type 8 8)); [apply sample_ready_reached| |by vm_compute|done].
  right. split_and!; [by eexists|done|by left].
Qed.

Definition sample_bytes_object : object := Eval vm_compute in
  default (mk_object 0 0 []) (m_objects (w_memory sample_bytes) !! 18256).

Lemma sample_bytes_array :
  array_at (w_memory sample_bytes) [sample_context] 18256 bytes_type bytes_descriptor 0 sample_bytes_object.
Proof.
  split; try by vm_compute.
  - exists sample_context. split; [set_solver|]. apply (slab_holds_live _ _ _ 16384 0). by vm_compute.
Qed.

Lemma array_append_exact_witness :
  ∃ o w' ob, append_array 18256 (append_bytes [x41]) sample_bytes = Ok (o, w') ∧
    array_at (w_memory w') [sample_context] o bytes_type bytes_descriptor 1 ob ∧
    elements bytes_descriptor 1 (ob_payload ob) = [x41].
Proof.
  destruct (reaches_ok _ _ _ _ sample_bytes_reached) as [ly Hw].
  destruct (array_append_exact sample_bytes [sample_context] ly 18256 (append_bytes [x41]) bytes_type bytes_descriptor 0
    sample_bytes_object) as [(o & w' & ob & ly' & Hr & Ha & He & _)|(code & message & Hr)].
  - exact Hw.
  - exact sample_bytes_array.
  - split; vm_compute; reflexivity.
  - exists o, w', ob. split; [exact Hr|]. split; [exact Ha|exact He].
  - exfalso. vm_compute in Hr. discriminate Hr.
Defined.

Lemma sample_literals r : literal (w_memory sample_text) r → False.
Proof.
  intros (_ & ob & Hob & Ht & _).
  assert (map_Forall (λ _ ob, ob_type ob ≠ string_literal_type) (m_objects (w_memory sample_text))) as Hall
    by (apply (bool_decide_unpack _); by vm_compute).
  exact (Hall _ _ Hob Ht).
Qed.

Lemma host_calls_safe_witness :
  ∃ o w', run_call (call_path_join sample_string sample_string) sample_text = Ok (o, w') ∧
    reaches sample_start sample_context w' [sample_context].
Proof.
  destruct (host_calls_safe sample_start sample_context sample_text [sample_context]
    (call_path_join sample_string sample_string)) as [(o & w' & Hr & _ & Hreach)|(code & message & Hr)].
  - exact sample_text_reached.
  - split.
    + intros o Ho. exact (False_rect _ (sample_literals o Ho)).
    + split; exact (string_at_valid _ _ _ _ (md_string _ _ _ _ _ sample_text_made)).
  - exists o, w'. split; [exact Hr|exact Hreach].
  - exfalso. vm_compute in Hr. discriminate Hr.
Defined.

Lemma console_line_exact_witness :
  ∃ o w', read_console_line false [x68; x69; x0d; x0a; x61] false sample_ready = Ok (o, [x61], w') ∧
    ∃ line, x0a ∉ line ∧ well_formed_utf8 (drop_return line).
Proof.
  destruct (reaches_ok _ _ _ _ sample_ready_reached) as [ly Hw].
  destruct (read_console_line false [x68; x69; x0d; x0a; x61] false sample_ready) as [[[o rest] w']|e] eqn:Hr;
    [|vm_compute in Hr; discriminate Hr].
  assert (rest = [x61]) as -> by (vm_compute in Hr; congruence).
  destruct (console_line_exact sample_ready [sample_context] ly false _ false o [x61] w' Hw Hr) as (line & eof & Hno & _ & Hu & _).
  exists o, w'. split; [reflexivity|]. exists line. split; [exact Hno|exact Hu].
Defined.
