(* ===== verification/WorkerPool.v ===== *)
(** * Isolated workers ([native/runtime/worker_pool.cpp])

    A pool of worker threads with a bounded mailbox: jobs wait in a queue, are received by
    workers, and wait in a second queue until their results are taken.  Both queues are
    intrusive lists through the jobs, which a map owns.  Every operation holds the mutex of
    the pool, so that it is one step of the pool; an operation that waits on the condition
    variable is the step that follows the wait, and its guard is a definition of its own.
    A job is addressed by its identity, and a worker by its index. *)

From stdpp Require Import sorting.
From S2P Require Import Prelude Storage Heap.

Local Open Scope string_scope.
Local Open Scope list_scope.
Local Open Scope N_scope.

(** ** Data *)

Definition WORKER_OK : N := 0.
Definition WORKER_EMPTY : N := 1.
Definition WORKER_STOPPED : N := 2.
Definition WORKER_FULL : N := 3.
Definition WORKER_INVALID : N := 4.
Definition WORKER_LIMIT : N := 5.
Definition WORKER_STARTUP_FAILED : N := 6.
Definition WORKER_NO_MEMORY : N := 7.
Definition WORKER_SUCCESS : N := 0.
Definition WORKER_FAILED : N := 1.
Definition WORKER_CANCELLED : N := 2.

Definition mib : N := 1024 * 1024.

(** [uint32_t] subtraction. *)
Definition u32_sub (a b : N) : N := (a + (2 ^ 32 - b mod 2 ^ 32)) mod 2 ^ 32.

Record job := mk_job {
  jb_id : N;
  jb_reservation : N;
  jb_previous : N;
  jb_next : N;
  jb_kind : N;
  jb_active : bool;
  jb_cancelled : bool;
  jb_done : bool;
  jb_input : list byte;
  jb_output : list byte;
}.

Record worker := mk_worker {
  wk_heap : N;
  wk_current : N;
  wk_ready : bool;
  wk_exited : bool;
  wk_failed : bool;
  wk_error : list byte;
}.

Record worker_options := mk_worker_options {
  wo_struct_size : N;
  wo_worker_count : N;
  wo_max_outstanding : N;
  wo_max_input_bytes : N;
  wo_max_output_bytes : N;
  wo_max_reserved_bytes : N;
}.

(** [po_threads] is the length of the vector of threads, [po_readiness] what the readiness
    channel was last set to. *)
Record pool := mk_pool {
  po_readiness : bool;
  po_heap : N;
  po_options : worker_options;
  po_config : list byte;
  po_workers : list worker;
  po_threads : N;
  po_jobs : gmap N job;
  po_next_job : N;
  po_queued_head : N;
  po_queued_tail : N;
  po_completed_head : N;
  po_completed_tail : N;
  po_reserved : N;
  po_alive : N;
  po_stopping : bool;
}.

(** ** Fields *)

Definition set_previous (a : N) (j : job) : job :=
  mk_job (jb_id j) (jb_reservation j) a (jb_next j) (jb_kind j) (jb_active j) (jb_cancelled j) (jb_done j) (jb_input j) (jb_output j).
Definition set_next (a : N) (j : job) : job :=
  mk_job (jb_id j) (jb_reservation j) (jb_previous j) a (jb_kind j) (jb_active j) (jb_cancelled j) (jb_done j) (jb_input j) (jb_output j).
Definition set_done (kind : N) (j : job) : job :=
  mk_job (jb_id j) (jb_reservation j) (jb_previous j) (jb_next j) kind (jb_active j) (jb_cancelled j) true (jb_input j) (jb_output j).
Definition set_job_active (j : job) : job :=
  mk_job (jb_id j) (jb_reservation j) (jb_previous j) (jb_next j) (jb_kind j) true (jb_cancelled j) (jb_done j) (jb_input j) (jb_output j).
Definition set_cancelled (j : job) : job :=
  mk_job (jb_id j) (jb_reservation j) (jb_previous j) (jb_next j) (jb_kind j) (jb_active j) true (jb_done j) (jb_input j) (jb_output j).
Definition set_output (output : list byte) (j : job) : job :=
  mk_job (jb_id j) (jb_reservation j) (jb_previous j) (jb_next j) (jb_kind j) (jb_active j) (jb_cancelled j) (jb_done j) (jb_input j) output.

Definition set_heap (heap : N) (w : worker) : worker :=
  mk_worker heap (wk_current w) (wk_ready w) (wk_exited w) (wk_failed w) (wk_error w).
Definition set_current (id : N) (w : worker) : worker :=
  mk_worker (wk_heap w) id (wk_ready w) (wk_exited w) (wk_failed w) (wk_error w).
Definition set_ready (w : worker) : worker :=
  mk_worker (wk_heap w) (wk_current w) true (wk_exited w) (wk_failed w) (wk_error w).
Definition set_exited (w : worker) : worker :=
  mk_worker (wk_heap w) (wk_current w) (wk_ready w) true (wk_failed w) (wk_error w).
Definition set_failed (error : list byte) (w : worker) : worker :=
  mk_worker (wk_heap w) (wk_current w) (wk_ready w) (wk_exited w) true error.

Definition with_readiness (b : bool) (p : pool) : pool :=
  mk_pool b (po_heap p) (po_options p) (po_config p) (po_workers p) (po_threads p) (po_jobs p) (po_next_job p)
    (po_queued_head p) (po_queued_tail p) (po_completed_head p) (po_completed_tail p) (po_reserved p) (po_alive p) (po_stopping p).
Definition with_workers (ws : list worker) (p : pool) : pool :=
  mk_pool (po_readiness p) (po_heap p) (po_options p) (po_config p) ws (po_threads p) (po_jobs p) (po_next_job p)
    (po_queued_head p) (po_queued_tail p) (po_completed_head p) (po_completed_tail p) (po_reserved p) (po_alive p) (po_stopping p).
Definition with_jobs (jobs : gmap N job) (p : pool) : pool :=
  mk_pool (po_readiness p) (po_heap p) (po_options p) (po_config p) (po_workers p) (po_threads p) jobs (po_next_job p)
    (po_queued_head p) (po_queued_tail p) (po_completed_head p) (po_completed_tail p) (po_reserved p) (po_alive p) (po_stopping p).
Definition with_counts (next_job reserved : N) (p : pool) : pool :=
  mk_pool (po_readiness p) (po_heap p) (po_options p) (po_config p) (po_workers p) (po_threads p) (po_jobs p) next_job
    (po_queued_head p) (po_queued_tail p) (po_completed_head p) (po_completed_tail p) reserved (po_alive p) (po_stopping p).
Definition with_alive (threads alive : N) (p : pool) : pool :=
  mk_pool (po_readiness p) (po_heap p) (po_options p) (po_config p) (po_workers p) threads (po_jobs p) (po_next_job p)
    (po_queued_head p) (po_queued_tail p) (po_completed_head p) (po_completed_tail p) (po_reserved p) alive (po_stopping p).
Definition with_stopping (p : pool) : pool :=
  mk_pool (po_readiness p) (po_heap p) (po_options p) (po_config p) (po_workers p) (po_threads p) (po_jobs p) (po_next_job p)
    (po_queued_head p) (po_queued_tail p) (po_completed_head p) (po_completed_tail p) (po_reserved p) (po_alive p) true.

(** ** Queues *)

(** The two pairs of references that [append] and [unlink] take. *)
Inductive queue := queued | completed.

Definition head_of (q : queue) (p : pool) : N := match q with queued => po_queued_head p | completed => po_completed_head p end.
Definition tail_of (q : queue) (p : pool) : N := match q with queued => po_queued_tail p | completed => po_completed_tail p end.

Definition with_ends (q : queue) (h t : N) (p : pool) : pool :=
  match q with
  | queued =>
      mk_pool (po_readiness p) (po_heap p) (po_options p) (po_config p) (po_workers p) (po_threads p) (po_jobs p) (po_next_job p)
        h t (po_completed_head p) (po_completed_tail p) (po_reserved p) (po_alive p) (po_stopping p)
  | completed =>
      mk_pool (po_readiness p) (po_heap p) (po_options p) (po_config p) (po_workers p) (po_threads p) (po_jobs p) (po_next_job p)
        (po_queued_head p) (po_queued_tail p) h t (po_reserved p) (po_alive p) (po_stopping p)
  end.
Definition set_head (q : queue) (h : N) (p : pool) : pool := with_ends q h (tail_of q p) p.
Definition set_tail (q : queue) (t : N) (p : pool) : pool := with_ends q (head_of q p) t p.

Definition load_job (p : pool) (id : N) : result job := load "job" (po_jobs p !! id).
Definition update_job (id : N) (f : job → job) (p : pool) : result pool :=
  j ← load_job p id; Ok (with_jobs (<[id := f j]> (po_jobs p)) p).

Definition append (q : queue) (id : N) (p : pool) : result pool :=
  p ← update_job id (λ j, set_next 0 (set_previous (tail_of q p) j)) p;
  p ← (if tail_of q p =? 0 then Ok (set_head q id p) else update_job (tail_of q p) (set_next id) p);
  Ok (set_tail q id p).

Definition unlink (q : queue) (id : N) (p : pool) : result pool :=
  j ← load_job p id;
  p ← (if jb_previous j =? 0 then Ok (set_head q (jb_next j) p)
       else update_job (jb_previous j) (set_next (jb_next j)) p);
  j ← load_job p id;
  p ← (if jb_next j =? 0 then Ok (set_tail q (jb_previous j) p)
       else update_job (jb_next j) (set_previous (jb_previous j)) p);
  update_job id (λ j, set_next 0 (set_previous 0 j)) p.

(** ** Completion *)

Definition poll_ready (p : pool) : bool :=
  negb (po_completed_head p =? 0) || (bool_decide (po_jobs p = ∅) && (po_stopping p || (po_alive p =? 0))).

Definition notify (p : pool) : pool := with_readiness (poll_ready p) p.

Definition finish (id kind : N) (p : pool) : result pool :=
  j ← load_job p id;
  p ← (if jb_active j then Ok p else unlink queued id p);
  p ← update_job id (set_done kind) p;
  p ← append completed id p;
  p ← (if kind =? WORKER_SUCCESS then Ok p else update_job id (set_output []) p);
  Ok (notify p).

(** [while (p.queued_head != nullptr) finish(p, *p.queued_head, kind);] *)
Fixpoint finish_queued (fuel : nat) (kind : N) (p : pool) : result pool :=
  if po_queued_head p =? 0 then Ok p
  else
    match fuel with
    | O => Throw (undefined "the queue does not end")
    | S fuel => p ← finish (po_queued_head p) kind p; finish_queued fuel kind p
    end.

Definition available (w : worker) : bool := negb (wk_failed w) && negb (wk_exited w).

Definition stop_if_unavailable (p : pool) : result pool :=
  if existsb available (po_workers p) then Ok p
  else
    p ← finish_queued (base.size (po_jobs p)) WORKER_FAILED (with_stopping p);
    Ok (notify p).

Definition load_worker (p : pool) (i : nat) : result worker := load "worker" (po_workers p !! i).
Definition update_worker (i : nat) (f : worker → worker) (p : pool) : result pool :=
  w ← load_worker p i; Ok (with_workers (<[i := f w]> (po_workers p)) p).

Definition error_capacity : nat := 4096.

Definition failure (i : nat) (text : list byte) (p : pool) : result pool :=
  w ← load_worker p i;
  p ← (if wk_failed w then Ok p else update_worker i (set_failed (take error_capacity text)) p);
  p ← (if wk_current w =? 0 then Ok p
       else
         p ← finish (wk_current w) WORKER_FAILED p;
         update_worker i (set_current 0) p);
  stop_if_unavailable p.

(** [std::map] is visited in the order of the identities. *)
Definition job_ids (p : pool) : list N := merge_sort N.le ((map_to_list (po_jobs p)).*1).

Definition cancel_job (id : N) (p : pool) : result pool :=
  j ← load_job p id;
  if jb_done j then Ok p
  else
    p ← update_job id set_cancelled p;
    if jb_active j then Ok p else finish id WORKER_CANCELLED p.

Definition stop (p : pool) : result pool :=
  let p := with_stopping p in
  p ← for_state (job_ids p) p cancel_job;
  Ok (notify p).

(** ** Reports *)

Record close_report := mk_report { cr_failures : N; cr_first_error : list byte }.
Definition empty_report : close_report := mk_report 0 [].

(** The report of [join], made when every thread has been joined. *)
Definition report_worker (report : close_report) (w : worker) : close_report :=
  if negb (wk_failed w) then report
  else mk_report (cr_failures report + 1) (if cr_failures report =? 0 then wk_error w else cr_first_error report).
Definition join_report (p : pool) : close_report := foldl report_worker empty_report (po_workers p).

(** [join]; [threads] is what the pool's threads do until the last of them has ended. *)
Definition join (threads : pool → result pool) (p : pool) : result close_report :=
  p ← stop p;
  p ← threads p;
  Ok (join_report p).

(** What [open] reports when an exception ends it; there is no pool if it could not be made. *)
Definition open_failure (threads : pool → result pool) (p : option pool) (message : list byte) : result close_report :=
  report ← match p with Some p => join threads p | None => Ok empty_report end;
  Ok (mk_report (cr_failures report + 1) (take error_capacity message)).

(** ** Opening *)

Definition new_worker : worker := mk_worker 0 0 false false false [].

Definition sizeof_options : N := 40.

(** The checks of [neri_rt_v1_worker_pool_open], and the pool before its threads start. *)
Definition open_pool (heap : N) (options : option worker_options) (entry : bool) (config : option (list byte)) (length : N)
    : N + pool :=
  match options with
  | None => inl WORKER_INVALID
  | Some o =>
      if (heap =? 0) || negb (wo_struct_size o =? sizeof_options) || negb entry ||
         (negb (length =? 0) && bool_decide (config = None)) then inl WORKER_INVALID
      else if (wo_worker_count o =? 0) || (64 <? wo_worker_count o) || (wo_max_outstanding o =? 0) ||
              (65536 <? wo_max_outstanding o) || (128 * mib <? wo_max_input_bytes o) ||
              (128 * mib <? wo_max_output_bytes o) || (1024 * mib <? wo_max_reserved_bytes o) || (mib <? length) then
        inl WORKER_LIMIT
      else inr (mk_pool false heap o (take (N.to_nat length) (default [] config))
                  (replicate (N.to_nat (wo_worker_count o)) new_worker) 0 ∅ 1 0 0 0 0 0 0 false)
  end.

(** One round of the loop that starts the threads; [started] is false if the thread could
    not be created. *)
Definition start_thread (started : bool) (p : pool) : pool :=
  let p := with_alive (po_threads p) (po_alive p + 1) p in
  if started then with_alive (po_threads p + 1) (po_alive p) p
  else with_alive (po_threads p) (u32_sub (po_alive p) 1) p.

(** What [open] waits for, and what it finds then. *)
Definition startup_settled (p : pool) : bool :=
  existsb (λ w, wk_failed w || wk_exited w) (po_workers p) || forallb wk_ready (po_workers p).
Definition startup_failed (p : pool) : bool := existsb (λ w, wk_failed w || wk_exited w) (po_workers p).

(** ** Jobs: the owner's side *)

(** [memory] is false if an allocation fails. *)
Definition submit (memory : bool) (bytes : list byte) (p : pool) : result (N * N * pool) :=
  if po_stopping p || (po_alive p =? 0) then Ok (WORKER_STOPPED, 0, p)
  else if wo_max_input_bytes (po_options p) <? length_N bytes then Ok (WORKER_LIMIT, 0, p)
  else
    let reservation := u64 (length_N bytes + wo_max_output_bytes (po_options p)) in
    if (wo_max_outstanding (po_options p) <=? N.of_nat (base.size (po_jobs p))) ||
       (wo_max_reserved_bytes (po_options p) <? reservation) ||
       (wo_max_reserved_bytes (po_options p) - reservation <? po_reserved p) then Ok (WORKER_FULL, 0, p)
    else if po_next_job p =? u64_max then Ok (WORKER_LIMIT, 0, p)
    else if negb memory then Ok (WORKER_NO_MEMORY, 0, p)
    else
      let id := po_next_job p in
      let p := with_jobs (<[id := mk_job id reservation 0 0 WORKER_SUCCESS false false false bytes []]> (po_jobs p)) p in
      p ← append queued id p;
      Ok (WORKER_OK, id, with_counts (u64 (po_next_job p + 1)) (u64 (po_reserved p + reservation)) p).

Record completion := mk_completion { cp_job_id : N; cp_payload_length : N; cp_kind : N }.

(** After the wait, which ends when [poll_ready] holds or the time is over. *)
Definition poll (p : pool) : result (N * option completion * pool) :=
  let p := notify p in
  if po_completed_head p =? 0 then Ok (if poll_ready p then WORKER_STOPPED else WORKER_EMPTY, None, p)
  else
    j ← load_job p (po_completed_head p);
    Ok (WORKER_OK, Some (mk_completion (jb_id j) (length_N (jb_output j)) (jb_kind j)), p).

(** [output] is whether the caller's buffer is not null; the bytes are what it receives. *)
Definition take_job (ticket : N) (output : bool) (capacity : N) (p : pool) : result (N * list byte * pool) :=
  match po_jobs p !! ticket with
  | None => Ok (WORKER_INVALID, [], p)
  | Some j =>
      if negb (jb_done j) then Ok (WORKER_EMPTY, [], p)
      else if capacity <? length_N (jb_output j) then Ok (WORKER_LIMIT, [], p)
      else if negb (bool_decide (jb_output j = [])) && negb output then Ok (WORKER_INVALID, [], p)
      else
        p ← unlink completed ticket p;
        let p := with_counts (po_next_job p) (u64_sub (po_reserved p) (jb_reservation j)) p in
        let p := with_jobs (delete ticket (po_jobs p)) p in
        Ok (WORKER_OK, jb_output j, notify p)
  end.

Definition cancel (ticket : N) (p : pool) : result (N * pool) :=
  match po_jobs p !! ticket with
  | None => Ok (WORKER_INVALID, p)
  | Some _ => p ← cancel_job ticket p; Ok (WORKER_OK, p)
  end.

(** ** Jobs: the worker's side *)

Definition worker_ready (i : nat) (p : pool) : result (N * pool) :=
  w ← load_worker p i;
  if wk_failed w || wk_ready w then Ok (WORKER_INVALID, p)
  else if po_stopping p then Ok (WORKER_STOPPED, p)
  else p ← update_worker i set_ready p; Ok (WORKER_OK, p).

(** What [receive] waits for once its checks have passed. *)
Definition receive_ready (p : pool) : bool := po_stopping p || negb (po_queued_head p =? 0).

Definition worker_receive (i : nat) (p : pool) : result (N * N * pool) :=
  w ← load_worker p i;
  if negb (wk_ready w) || wk_failed w || negb (wk_current w =? 0) then Ok (WORKER_INVALID, 0, p)
  else if po_stopping p then Ok (WORKER_STOPPED, 0, p)
  else
    let id := po_queued_head p in
    p ← update_worker i (set_current id) p;
    p ← unlink queued id p;
    p ← update_job id set_job_active p;
    j ← load_job p id;
    Ok (WORKER_OK, length_N (jb_input j), p).

Definition worker_read (i : nat) (output : bool) (capacity : N) (p : pool) : result (N * list byte) :=
  w ← load_worker p i;
  if (wk_current w =? 0) || wk_failed w then Ok (WORKER_INVALID, [])
  else
    j ← load_job p (wk_current w);
    if capacity <? length_N (jb_input j) then Ok (WORKER_LIMIT, [])
    else if negb (bool_decide (jb_input j = [])) && negb output then Ok (WORKER_INVALID, [])
    else Ok (WORKER_OK, jb_input j).

Definition worker_reply (i : nat) (memory : bool) (bytes : list byte) (p : pool) : result (N * pool) :=
  w ← load_worker p i;
  if (wk_current w =? 0) || wk_failed w then Ok (WORKER_INVALID, p)
  else if wo_max_output_bytes (po_options p) <? length_N bytes then Ok (WORKER_LIMIT, p)
  else
    let id := wk_current w in
    j ← load_job p id;
    if negb (jb_cancelled j) && negb (length_N bytes =? 0) && negb memory then Ok (WORKER_NO_MEMORY, p)
    else
      p ← (if negb (jb_cancelled j) && negb (length_N bytes =? 0) then update_job id (set_output bytes) p else Ok p);
      p ← finish id (if jb_cancelled j then WORKER_CANCELLED else WORKER_SUCCESS) p;
      p ← update_worker i (set_current 0) p;
      Ok (WORKER_OK, p).

Definition worker_cancelled (i : nat) (p : pool) : result bool :=
  w ← load_worker p i;
  if po_stopping p || wk_failed w then Ok true
  else if wk_current w =? 0 then Ok false
  else j ← load_job p (wk_current w); Ok (jb_cancelled j).

Definition worker_fail (i : nat) (detail : list byte) (p : pool) : result (N * pool) :=
  p ← failure i detail p; Ok (WORKER_OK, p).

Definition text (s : string) : list byte := list_byte_of_string s.

(** The end of [run], after the entry has returned. *)
Definition worker_exit (i : nat) (initialized : bool) (p : pool) : result pool :=
  w ← load_worker p i;
  p ← (if negb initialized then failure i (text "worker runtime initialization failed") p
       else if negb (wk_ready w) && negb (po_stopping p) then failure i (text "worker exited before ready") p
       else if negb (wk_current w =? 0) then
         j ← load_job p (wk_current w);
         if jb_cancelled j then
           p ← finish (wk_current w) WORKER_CANCELLED p;
           update_worker i (set_current 0) p
         else failure i (text "worker exited with an active job") p
       else if negb (po_stopping p) && negb (wk_failed w) then failure i (text "worker exited before stop") p
       else Ok p);
  p ← update_worker i set_exited p;
  stop_if_unavailable (with_alive (po_threads p) (u32_sub (po_alive p) 1) p).

(** ** Handles *)

(** The pools a thread owns, and the next handle.  [identity] is the heap the caller runs
    in ([neri_worker_heap_identity]), null outside one. *)
Record registry := mk_registry { rg_owned : gmap Z pool; rg_next_handle : Z }.

Definition lookup_pool (identity : N) (handle : Z) (r : registry) : option pool :=
  match rg_owned r !! handle with
  | Some p => if po_heap p =? identity then Some p else None
  | None => None
  end.

Definition store_pool (handle : Z) (p : pool) (r : registry) : registry :=
  mk_registry (<[handle := p]> (rg_owned r)) (rg_next_handle r).

(** A pointer and a length: the bytes, or null and what was claimed. *)
Inductive span := null_span (length : N) | byte_span (bytes : list byte).
Definition invalid_span (s : span) : bool := match s with null_span n => negb (n =? 0) | byte_span _ => false end.
Definition span_bytes (s : span) : list byte := match s with null_span _ => [] | byte_span bytes => bytes end.

(** The end of [open], when startup has settled: the pool is joined if a worker failed or
    has ended, and gets its handle otherwise. *)
Definition publish (threads : pool → result pool) (p : pool) (r : registry) : result (N * Z * close_report * registry) :=
  if startup_failed p then
    report ← join threads p;
    Ok (WORKER_STARTUP_FAILED, 0%Z, report, r)
  else if (rg_next_handle r =? 9223372036854775807)%Z then
    _ ← join threads p;
    Ok (WORKER_LIMIT, 0%Z, empty_report, r)
  else
    Ok (WORKER_OK, rg_next_handle r, empty_report, mk_registry (<[rg_next_handle r := p]> (rg_owned r)) (rg_next_handle r + 1)).

(** [neri_worker_close_owned]: a heap that shuts down closes the pools it opened. *)
Definition close_entry (threads : pool → result pool) (heap : N) (entry : Z * pool) (owned : gmap Z pool) : result (gmap Z pool) :=
  if negb (po_heap entry.2 =? heap) then Ok owned
  else
    _ ← join threads entry.2;
    Ok (delete entry.1 owned).
Definition neri_worker_close_owned (threads : pool → result pool) (heap : N) (r : registry) : result registry :=
  owned ← for_state (map_to_list (rg_owned r)) (rg_owned r) (close_entry threads heap);
  Ok (mk_registry owned (rg_next_handle r)).

Definition neri_rt_v1_worker_pool_submit (identity : N) (handle : Z) (memory : bool) (bytes : span) (out : bool) (r : registry)
    : result (N * N * registry) :=
  match lookup_pool identity handle r with
  | None => Ok (WORKER_INVALID, 0, r)
  | Some p =>
      if negb out || invalid_span bytes then Ok (WORKER_INVALID, 0, r)
      else '(status, id, p) ← submit memory (span_bytes bytes) p; Ok (status, id, store_pool handle p r)
  end.

Definition neri_rt_v1_worker_pool_poll (identity : N) (handle : Z) (out : bool) (r : registry)
    : result (N * option completion * registry) :=
  match lookup_pool identity handle r with
  | None => Ok (WORKER_INVALID, None, r)
  | Some p =>
      if negb out then Ok (WORKER_INVALID, None, r)
      else '(status, c, p) ← poll p; Ok (status, c, store_pool handle p r)
  end.

Definition neri_rt_v1_worker_pool_take (identity : N) (handle : Z) (ticket : N) (output : bool) (capacity : N) (r : registry)
    : result (N * list byte * registry) :=
  match lookup_pool identity handle r with
  | None => Ok (WORKER_INVALID, [], r)
  | Some p => '(status, bytes, p) ← take_job ticket output capacity p; Ok (status, bytes, store_pool handle p r)
  end.

Definition neri_rt_v1_worker_pool_cancel (identity : N) (handle : Z) (ticket : N) (r : registry) : result (N * registry) :=
  match lookup_pool identity handle r with
  | None => Ok (WORKER_INVALID, r)
  | Some p => '(status, p) ← cancel ticket p; Ok (status, store_pool handle p r)
  end.

Definition neri_rt_v1_worker_pool_stop (identity : N) (handle : Z) (r : registry) : result (N * registry) :=
  match lookup_pool identity handle r with
  | None => Ok (WORKER_INVALID, r)
  | Some p => p ← stop p; Ok (WORKER_OK, store_pool handle p r)
  end.

Definition neri_rt_v1_worker_pool_close (threads : pool → result pool) (identity : N) (handle : Z) (report : bool) (r : registry)
    : result (N * option close_report * registry) :=
  match lookup_pool identity handle r with
  | None => Ok (WORKER_INVALID, None, r)
  | Some p =>
      if negb report then Ok (WORKER_INVALID, None, r)
      else
        joined ← join threads p;
        Ok (WORKER_OK, Some joined, mk_registry (delete handle (rg_owned r)) (rg_next_handle r))
  end.

(** The descriptor of the pool's readiness channel; -1 is written on errors. *)
Definition neri_rt_v1_worker_pool_readiness (identity : N) (handle : Z) (out : bool) (descriptor : pool → Z) (r : registry) : N * Z :=
  if negb out then (WORKER_INVALID, (-1)%Z)
  else match lookup_pool identity handle r with None => (WORKER_INVALID, (-1)%Z) | Some p => (WORKER_OK, descriptor p) end.

(** The worker a thread runs, if the caller is in the heap of that worker. *)
Definition active_worker (identity : N) (current : option nat) (p : pool) : option nat :=
  i ← current; w ← po_workers p !! i;
  if negb (wk_heap w =? 0) && (wk_heap w =? identity) then Some i else None.

Definition neri_rt_v1_worker_ready (identity : N) (current : option nat) (p : pool) : result (N * pool) :=
  match active_worker identity current p with None => Ok (WORKER_INVALID, p) | Some i => worker_ready i p end.

Definition neri_rt_v1_worker_receive (identity : N) (current : option nat) (length : bool) (p : pool) : result (N * N * pool) :=
  match active_worker identity current p with
  | None => Ok (WORKER_INVALID, 0, p)
  | Some i => if negb length then Ok (WORKER_INVALID, 0, p) else worker_receive i p
  end.

Definition neri_rt_v1_worker_read (identity : N) (current : option nat) (output : bool) (capacity : N) (p : pool)
    : result (N * list byte) :=
  match active_worker identity current p with None => Ok (WORKER_INVALID, []) | Some i => worker_read i output capacity p end.

Definition neri_rt_v1_worker_reply (identity : N) (current : option nat) (memory : bool) (bytes : span) (p : pool)
    : result (N * pool) :=
  match active_worker identity current p with
  | None => Ok (WORKER_INVALID, p)
  | Some i => if invalid_span bytes then Ok (WORKER_INVALID, p) else worker_reply i memory (span_bytes bytes) p
  end.

Definition neri_rt_v1_worker_cancelled (identity : N) (current : option nat) (p : pool) : result bool :=
  match active_worker identity current p with None => Ok false | Some i => worker_cancelled i p end.

Definition neri_rt_v1_worker_fail (identity : N) (current : option nat) (detail : span) (p : pool) : result (N * pool) :=
  match active_worker identity current p with
  | None => Ok (WORKER_INVALID, p)
  | Some i => if invalid_span detail then Ok (WORKER_INVALID, p) else worker_fail i (span_bytes detail) p
  end.
