(* ===== verification/WorkerInvariant.v ===== *)
(** * The queues of a worker pool

    The two intrusive lists of [worker_pool.cpp]: [append] and [unlink] keep them well
    linked, do to the lists what their names say, and touch nothing but the links.

    The invariant of a worker pool

    What holds of the jobs of a pool whenever its mutex is free, and [finish], which moves
    a job to the completed queue. *)

From S2P Require Import Prelude Storage Heap WorkerPool.

Local Open Scope list_scope.
Local Open Scope N_scope.

(** ** Links *)

Definition first (next : N) (l : list N) : N := default next (head l).
Definition final (prev : N) (l : list N) : N := default prev (last l).

Lemma final_snoc prev l a : final prev (l ++ [a]) = a.
Proof. unfold final. by rewrite last_snoc. Qed.

Lemma final_cons prev a l : final prev (a :: l) = final a l.
Proof. unfold final. rewrite last_cons. by destruct (last l). Qed.

(** A part of a list between the elements [prev] and [next]. *)
Fixpoint segment (jobs : gmap N job) (prev : N) (l : list N) (next : N) : Prop :=
  match l with
  | [] => True
  | a :: l => (∃ j, jobs !! a = Some j ∧ jb_previous j = prev ∧ jb_next j = first next l) ∧ segment jobs a l next
  end.

Lemma segment_app jobs prev l1 l2 next :
  segment jobs prev (l1 ++ l2) next ↔ segment jobs prev l1 (first next l2) ∧ segment jobs (final prev l1) l2 next.
Proof.
  revert prev. induction l1 as [|a l1 IH]; intros prev; simpl; [by intuition|].
  rewrite IH, final_cons. assert (first next (l1 ++ l2) = first (first next l2) l1) as -> by (by destruct l1). tauto.
Qed.

Lemma segment_frame jobs jobs' prev l next :
  (∀ a, a ∈ l → jobs' !! a = jobs !! a) → segment jobs prev l next → segment jobs' prev l next.
Proof.
  revert prev. induction l as [|a l IH]; intros prev Heq; simpl; [done|].
  rewrite Heq by set_solver. intros [Hj Hl]. split; [done|]. apply IH; [|done]. intros b Hb. apply Heq. set_solver.
Qed.

Lemma segment_insert jobs prev l next a j : a ∉ l → segment jobs prev l next → segment (<[a := j]> jobs) prev l next.
Proof. intros Ha. apply segment_frame. intros b Hb. rewrite lookup_insert_ne; [done|set_solver]. Qed.

Lemma segment_mapped jobs prev l next a : segment jobs prev l next → a ∈ l → is_Some (jobs !! a).
Proof.
  revert prev. induction l as [|b l IH]; intros prev; simpl; [by intros _ ?%elem_of_nil|].
  intros [(j & Hj & _) Hl] [->|Ha]%elem_of_cons; eauto.
Qed.

(** The last element points to something else, the first element back to something else. *)
Lemma segment_set_next jobs prev l b next next' jb :
  NoDup (l ++ [b]) → segment jobs prev (l ++ [b]) next → jobs !! b = Some jb →
  segment (<[b := set_next next' jb]> jobs) prev (l ++ [b]) next'.
Proof.
  intros Hnd Hs Hb. apply NoDup_app in Hnd as (_ & Hnot & _). rewrite segment_app in Hs. destruct Hs as [Hl [(j & Hj & Hp & _) _]].
  rewrite segment_app. split; [apply segment_insert; [intros Hin; apply (Hnot b Hin); set_solver|done]|].
  split; [|done]. exists (set_next next' jb). rewrite lookup_insert_eq. simplify_eq. done.
Qed.

Lemma segment_set_previous jobs prev prev' c l next jc :
  NoDup (c :: l) → segment jobs prev (c :: l) next → jobs !! c = Some jc →
  segment (<[c := set_previous prev' jc]> jobs) prev' (c :: l) next.
Proof.
  intros [Hc _]%NoDup_cons [(j & Hj & _ & Hn) Hl] Hc'. split; [|by apply segment_insert].
  exists (set_previous prev' jc). rewrite lookup_insert_eq. simplify_eq. done.
Qed.

Record linked (jobs : gmap N job) (h t : N) (l : list N) : Prop := {
  lk_nodup : NoDup l;
  lk_nonnull : 0 ∉ l;
  lk_head : h = first 0 l;
  lk_tail : t = final 0 l;
  lk_segment : segment jobs 0 l 0;
}.

Lemma linked_frame jobs jobs' h t l : (∀ a, a ∈ l → jobs' !! a = jobs !! a) → linked jobs h t l → linked jobs' h t l.
Proof. intros Heq [? ? ? ? ?]. constructor; try done. by eapply segment_frame. Qed.

Lemma linked_insert jobs h t l a j : a ∉ l → linked jobs h t l → linked (<[a := j]> jobs) h t l.
Proof. intros Ha. apply linked_frame. intros b Hb. rewrite lookup_insert_ne; [done|set_solver]. Qed.

(** ** What queue operations keep *)

(** A job without its links. *)
Definition core (j : job) : job := set_next 0 (set_previous 0 j).

Definition cores (p : pool) : gmap N job := core <$> po_jobs p.

(** Everything but the queues and their links is as before. *)
Record relinked (p p' : pool) : Prop := {
  rl_cores : cores p' = cores p;
  rl_readiness : po_readiness p' = po_readiness p;
  rl_heap : po_heap p' = po_heap p;
  rl_options : po_options p' = po_options p;
  rl_config : po_config p' = po_config p;
  rl_workers : po_workers p' = po_workers p;
  rl_threads : po_threads p' = po_threads p;
  rl_next_job : po_next_job p' = po_next_job p;
  rl_reserved : po_reserved p' = po_reserved p;
  rl_alive : po_alive p' = po_alive p;
  rl_stopping : po_stopping p' = po_stopping p;
}.

Lemma relinked_refl p : relinked p p.
Proof. by constructor. Qed.

Lemma relinked_through p p' p'' : relinked p p' → relinked p' p'' → relinked p p''.
Proof. intros [] []. constructor; congruence. Qed.

Lemma cores_insert (jobs : gmap N job) id j j' : jobs !! id = Some j → core j' = core j → core <$> <[id := j']> jobs = core <$> jobs.
Proof. intros Hj Hc. rewrite fmap_insert, Hc. apply insert_id. by rewrite lookup_fmap, Hj. Qed.

(** Updating the links of a job, and the ends of a queue. *)
Lemma relinked_job p id j f :
  po_jobs p !! id = Some j → core (f j) = core j → relinked p (with_jobs (<[id := f j]> (po_jobs p)) p).
Proof. intros Hj Hf. constructor; try done. unfold cores. simpl. by eapply cores_insert. Qed.

Lemma relinked_ends q h t p : relinked p (with_ends q h t p).
Proof. by destruct q; constructor. Qed.

Lemma update_job_ok p id f j :
  po_jobs p !! id = Some j → update_job id f p = Ok (with_jobs (<[id := f j]> (po_jobs p)) p).
Proof. intros Hj. unfold update_job, load_job. by rewrite Hj, load_Some. Qed.

Lemma cores_lookup p id j : po_jobs p !! id = Some j → cores p !! id = Some (core j).
Proof. intros Hj. unfold cores. by rewrite lookup_fmap, Hj. Qed.

Lemma cores_lookup_inv p p' id j :
  cores p' = cores p → po_jobs p !! id = Some j → ∃ j', po_jobs p' !! id = Some j' ∧ core j' = core j.
Proof.
  intros Hc Hj. pose proof (cores_lookup p id j Hj) as H. rewrite <-Hc in H. unfold cores in H. rewrite lookup_fmap in H.
  destruct (po_jobs p' !! id) as [j'|]; [|done]. apply (inj Some) in H. eauto.
Qed.

(** ** Both queues *)

Definition lists (lq lc : list N) (q : queue) : list N := match q with queued => lq | completed => lc end.

Definition other (q : queue) : queue := match q with queued => completed | completed => queued end.

Record queues (p : pool) (ls : queue → list N) : Prop := {
  qs_linked : ∀ q, linked (po_jobs p) (head_of q p) (tail_of q p) (ls q);
  qs_apart : ∀ q a, a ∈ ls q → a ∉ ls (other q);
}.

Lemma queues_mapped p ls q a : queues p ls → a ∈ ls q → is_Some (po_jobs p !! a).
Proof. intros [Hl _] Ha. eapply segment_mapped; [apply (lk_segment _ _ _ _ (Hl q))|done]. Qed.

Lemma queues_ext p ls ls' : (∀ q, ls q = ls' q) → queues p ls → queues p ls'.
Proof. intros Heq [Hl Ha]. split; intros q; rewrite <-!Heq; auto. Qed.

(** Giving the one queue a list and leaving the other alone. *)
Lemma queues_set q h t p ls ls' jobs' :
  queues p ls → ls' (other q) = ls (other q) → linked jobs' h t (ls' q) → (∀ a, a ∈ ls' q → a ∉ ls (other q)) →
  (∀ a, a ∈ ls (other q) → jobs' !! a = po_jobs p !! a) → queues (with_ends q h t (with_jobs jobs' p)) ls'.
Proof.
  intros [Hl Hap] Hother Hlinked Hnot Hsame.
  assert (linked jobs' (head_of (other q) p) (tail_of (other q) p) (ls' (other q))) as Ho.
  { rewrite Hother. eapply linked_frame; [exact Hsame|apply Hl]. }
  split.
  - intros q'. destruct q, q'; simpl in *; done.
  - intros q' a. destruct q, q'; simpl in *; rewrite ?Hother; try apply Hnot; intros Ha Hb; by apply (Hnot a).
Qed.

(** ** Appending *)

Definition appended_lists (q : queue) (id : N) (ls : queue → list N) (q' : queue) : list N :=
  match q, q' with
  | queued, queued => ls queued ++ [id]
  | completed, completed => ls completed ++ [id]
  | _, _ => ls q'
  end.

Lemma appended_at q id ls : appended_lists q id ls q = ls q ++ [id].
Proof. by destruct q. Qed.
Lemma appended_other q id ls : appended_lists q id ls (other q) = ls (other q).
Proof. by destruct q. Qed.

Lemma with_ends_twice q h t h' t' p jobs : with_ends q h t (with_ends q h' t' (with_jobs jobs p)) = with_ends q h t (with_jobs jobs p).
Proof. by destruct q. Qed.

Lemma append_ok q id p ls :
  queues p ls → is_Some (po_jobs p !! id) → id ≠ 0 → (∀ q', id ∉ ls q') →
  returns (append q id p) (λ p', relinked p p' ∧ queues p' (appended_lists q id ls)).
Proof.
  intros Hq [j Hj] Hid Hnot. pose proof (qs_linked _ _ Hq q) as [Hnd Hz Hh Ht Hs].
  unfold append. rewrite (update_job_ok p id _ j Hj), bind_Ok.
  set (j1 := set_next 0 (set_previous (tail_of q p) j)). set (jobs1 := <[id := j1]> (po_jobs p)).
  assert (tail_of q (with_jobs jobs1 p) = tail_of q p) as Htail by by destruct q.
  assert (NoDup (ls q ++ [id]) ∧ 0 ∉ ls q ++ [id]) as [Hnd' Hz'].
  { split; [|set_solver]. apply NoDup_app. split_and!; [done| |apply NoDup_singleton]. intros a Ha ->%list_elem_of_singleton. by apply (Hnot q). }
  assert (∀ a, a ∈ appended_lists q id ls q → a ∉ ls (other q)) as Hap.
  { intros a. rewrite appended_at, elem_of_app, list_elem_of_singleton. intros [Ha| ->]; [by apply (qs_apart _ _ Hq)|apply Hnot]. }
  rewrite Htail. destruct (N.eqb_spec (tail_of q p) 0) as [Ht0|Ht0].
  - assert (ls q = []) as Hnil.
    { destruct (ls q) as [|a l _] eqn:E using rev_ind; [done|]. rewrite Ht, final_snoc in Ht0. subst a. set_solver. }
    rewrite bind_Ok. apply returns_Ok. unfold set_tail, set_head. rewrite with_ends_twice.
    assert (head_of q (with_ends q id (tail_of q (with_jobs jobs1 p)) (with_jobs jobs1 p)) = id) as -> by by destruct q.
    split; [eapply relinked_through; [by eapply (relinked_job p id j (λ j, set_next 0 (set_previous (tail_of q p) j)))|apply relinked_ends]|].
    eapply queues_set; [done|apply appended_other| |done|].
    + rewrite appended_at, Hnil in *. split; try done. simpl. split; [|done]. exists j1. unfold jobs1. rewrite lookup_insert_eq.
      split_and!; [done|exact Ht0|done].
    + intros a Ha. unfold jobs1. rewrite lookup_insert_ne; [done|]. intros ->. by apply (Hnot (other q)).
  - destruct (ls q) as [|b l _] eqn:E using rev_ind; [done|]. rewrite final_snoc in Ht. rewrite Ht in *.
    assert (b ≠ id) as Hbid by (intros ->; apply (Hnot q); rewrite E; set_solver).
    destruct (segment_mapped _ _ _ _ b Hs ltac:(set_solver)) as [jb Hjb].
    assert (jobs1 !! b = Some jb) as Hjb1 by (unfold jobs1; by rewrite lookup_insert_ne).
    rewrite (update_job_ok (with_jobs jobs1 p) b _ jb) by done. rewrite bind_Ok. apply returns_Ok. unfold set_tail.
    change (with_jobs (<[b:=set_next id jb]> (po_jobs (with_jobs jobs1 p))) (with_jobs jobs1 p)) with (with_jobs (<[b:=set_next id jb]> jobs1) p).
    assert (head_of q (with_jobs (<[b:=set_next id jb]> jobs1) p) = head_of q p) as -> by by destruct q.
    split.
    { eapply relinked_through; [by eapply (relinked_job p id j (λ j, set_next 0 (set_previous (tail_of q p) j)))|].
      eapply relinked_through; [by eapply (relinked_job (with_jobs jobs1 p) b jb (set_next id))|]. simpl. apply relinked_ends. }
    eapply queues_set; [done|apply appended_other| |done|].
    + rewrite appended_at, E in *. split; [done|done|rewrite Hh; by destruct l|by rewrite final_snoc|].
      rewrite segment_app. simpl. rewrite final_snoc. split.
      * apply (segment_set_next jobs1 0 l b 0 id jb); [by apply NoDup_app in Hnd'|apply segment_insert; [by rewrite <-E|done]|done].
      * split; [|done]. exists j1. rewrite lookup_insert_ne by done. unfold jobs1. rewrite lookup_insert_eq. by split_and!.
    + intros a Ha. assert (a ≠ id ∧ a ≠ b) as [Ha1 Ha2].
      { split; intros ->; [by apply (Hnot (other q))|]. apply (qs_apart _ _ Hq q b); [rewrite E; set_solver|done]. }
      rewrite lookup_insert_ne by done. unfold jobs1. by rewrite lookup_insert_ne.
Qed.

(** ** Unlinking *)

Definition without (id : N) (l : list N) : list N := filter (λ a, a ≠ id) l.

Lemma without_none id l : id ∉ l → without id l = l.
Proof.
  intros Hid. unfold without. induction l as [|a l IH]; [done|]. rewrite filter_cons_True by (intros ->; set_solver).
  rewrite IH; [done|set_solver].
Qed.

Lemma without_split id l1 l2 : NoDup (l1 ++ id :: l2) → without id (l1 ++ id :: l2) = l1 ++ l2.
Proof.
  intros (_ & H1 & [H2 _]%NoDup_cons)%NoDup_app. unfold without. rewrite filter_app, filter_cons_False by auto.
  fold (without id l1) (without id l2). rewrite !without_none; [done|done|]. intros Hid. apply (H1 id Hid). by left.
Qed.

Lemma elem_of_without id l a : a ∈ without id l ↔ a ≠ id ∧ a ∈ l.
Proof. unfold without. by rewrite list_elem_of_filter. Qed.

Definition removed_lists (q : queue) (id : N) (ls : queue → list N) (q' : queue) : list N :=
  match q, q' with
  | queued, queued => without id (ls queued)
  | completed, completed => without id (ls completed)
  | _, _ => ls q'
  end.

Lemma removed_at q id ls : removed_lists q id ls q = without id (ls q).
Proof. by destruct q. Qed.
Lemma removed_other q id ls : removed_lists q id ls (other q) = ls (other q).
Proof. by destruct q. Qed.

(** The two halves of [unlink]: the link from the left, and the link from the right. *)
Lemma bypass_left q id p l1 l2 j :
  NoDup (l1 ++ id :: l2) → 0 ∉ l1 → head_of q p = first 0 (l1 ++ id :: l2) → segment (po_jobs p) 0 l1 id →
  jb_previous j = final 0 l1 → jb_next j = first 0 l2 →
  ∃ jobs1, (if jb_previous j =? 0 then Ok (set_head q (jb_next j) p) else update_job (jb_previous j) (set_next (jb_next j)) p) =
    Ok (with_ends q (first 0 (l1 ++ l2)) (tail_of q p) (with_jobs jobs1 p)) ∧
    core <$> jobs1 = core <$> po_jobs p ∧ segment jobs1 0 l1 (first 0 l2) ∧ (∀ a, a ∉ l1 → jobs1 !! a = po_jobs p !! a).
Proof.
  intros Hnd Hz Hh Hs Hp Hn. rewrite Hp, Hn. destruct l1 as [|b l1 _] using rev_ind.
  - exists (po_jobs p). simpl. split_and!; try done; by destruct q, p.
  - rewrite final_snoc. assert (b ≠ 0) as Hb by (intros ->; set_solver). rewrite (proj2 (N.eqb_neq _ _) Hb).
    destruct (segment_mapped _ _ _ _ b Hs ltac:(set_solver)) as [jb Hjb]. rewrite (update_job_ok p b _ jb Hjb).
    exists (<[b := set_next (first 0 l2) jb]> (po_jobs p)). split_and!.
    + assert (head_of q p = first 0 ((l1 ++ [b]) ++ l2)) as <- by (rewrite Hh; by destruct l1). by destruct q, p.
    + by eapply cores_insert.
    + eapply segment_set_next; [|done|done]. by apply NoDup_app in Hnd as [? _].
    + intros a Ha. rewrite lookup_insert_ne; [done|set_solver].
Qed.

Lemma bypass_right q p l1 l2 id j :
  NoDup (l1 ++ id :: l2) → 0 ∉ l2 → tail_of q p = final 0 (l1 ++ id :: l2) → segment (po_jobs p) id l2 0 →
  jb_previous j = final 0 l1 → jb_next j = first 0 l2 →
  ∃ jobs1, (if jb_next j =? 0 then Ok (set_tail q (jb_previous j) p) else update_job (jb_next j) (set_previous (jb_previous j)) p) =
    Ok (with_ends q (head_of q p) (final 0 (l1 ++ l2)) (with_jobs jobs1 p)) ∧
    core <$> jobs1 = core <$> po_jobs p ∧ segment jobs1 (final 0 l1) l2 0 ∧ (∀ a, a ∉ l2 → jobs1 !! a = po_jobs p !! a).
Proof.
  intros Hnd Hz Ht Hs Hp Hn. rewrite Hp, Hn. destruct l2 as [|c l2].
  - exists (po_jobs p). simpl. rewrite app_nil_r. split_and!; try done; by destruct q, p.
  - unfold first at 1. simpl. assert (c ≠ 0) as Hc by (intros ->; set_solver). rewrite (proj2 (N.eqb_neq _ _) Hc).
    destruct (segment_mapped _ _ _ _ c Hs ltac:(set_solver)) as [jc Hjc]. change (first 0 (c :: l2)) with c.
    rewrite (update_job_ok p c _ jc Hjc). exists (<[c := set_previous (final 0 l1) jc]> (po_jobs p)).
    split; [|split; [|split]].
    + assert (tail_of q p = final 0 (l1 ++ c :: l2)) as <-.
      { rewrite Ht. unfold final. by rewrite !last_app, !last_cons_cons. }
      by destruct q, p.
    + by eapply cores_insert.
    + eapply segment_set_previous; [|done|done]. apply NoDup_app in Hnd as (_ & _ & Hnd). by apply NoDup_cons in Hnd as [_ ?].
    + intros a Ha. rewrite lookup_insert_ne; [done|set_solver].
Qed.

Lemma unlink_ok q id p ls :
  queues p ls → id ∈ ls q → returns (unlink q id p) (λ p', relinked p p' ∧ queues p' (removed_lists q id ls)).
Proof.
  intros Hq (l1 & l2 & E)%list_elem_of_split. pose proof (qs_linked _ _ Hq q) as [Hnd Hz Hh Ht Hs]. rewrite E in *.
  pose proof Hs as [Hs1 [(j & Hj & Hp & Hn) Hs2]]%segment_app.
  pose proof Hnd as (Hnd1 & Hap1 & [Hid2 Hnd2]%NoDup_cons)%NoDup_app.
  assert (id ∉ l1) as Hid1 by (intros Hin; apply (Hap1 id Hin); by left).
  unfold unlink, load_job. rewrite Hj, load_Some, bind_Ok.
  destruct (bypass_left q id p l1 l2 j) as (jobs1 & -> & Hc1 & Hseg1 & Hsame1); [done|set_solver|done..|]. rewrite bind_Ok.
  set (p1 := with_ends q _ _ _). assert (po_jobs p1 = jobs1) as Hjobs1 by by destruct q.
  rewrite Hjobs1, (Hsame1 id Hid1), Hj, load_Some, bind_Ok.
  assert (∀ a, a ∈ l2 → a ∉ l1) as Hap2 by (intros a Ha Hb; apply (Hap1 a Hb); by right).
  destruct (bypass_right q p1 l1 l2 id j) as (jobs2 & -> & Hc2 & Hseg2 & Hsame2); [done|set_solver| | |done|done|].
  { unfold p1. rewrite <-Ht. by destruct q. }
  { rewrite Hjobs1. eapply segment_frame; [|done]. intros a Ha. by apply Hsame1, Hap2. }
  rewrite bind_Ok. rewrite Hjobs1 in *.
  set (p2 := with_ends q _ _ _). assert (po_jobs p2 = jobs2) as Hjobs2 by by destruct q.
  rewrite (update_job_ok p2 id _ j) by (rewrite Hjobs2, (Hsame2 id Hid2), (Hsame1 id Hid1); done).
  apply returns_Ok. rewrite Hjobs2. set (jobs3 := <[id := _]> jobs2).
  assert (with_jobs jobs3 p2 = with_ends q (first 0 (l1 ++ l2)) (final 0 (l1 ++ l2)) (with_jobs jobs3 p)) as ->.
  { unfold p2, p1. by destruct q. }
  assert (jobs2 !! id = Some j) as Hj2 by (by rewrite (Hsame2 id Hid2), (Hsame1 id Hid1)).
  split.
  - assert (core <$> jobs3 = core <$> po_jobs p) as Hc3 by (rewrite <-Hc1, <-Hc2; by eapply cores_insert).
    by destruct q; constructor.
  - eapply queues_set; [done|apply removed_other| |intros a; rewrite removed_at, elem_of_without|].
    + rewrite removed_at, E, without_split by done. split.
      * apply NoDup_app. split_and!; [done| |done]. intros a Ha Hb. by apply (Hap2 a).
      * set_solver.
      * done.
      * done.
      * apply segment_insert; [set_solver|]. rewrite segment_app. split; [|done].
        eapply segment_frame; [|exact Hseg1]. intros a Ha. apply Hsame2. intros Hb. by apply (Hap2 a).
    + intros [_ Ha]. by apply (qs_apart _ _ Hq q).
    + intros a Ha. assert (a ∉ ls q) as Hna by (intros Hb; by apply (qs_apart _ _ Hq q a)). rewrite E in Hna.
      unfold jobs3. rewrite lookup_insert_ne by (intros ->; set_solver). rewrite Hsame2, Hsame1; [done|set_solver..].
Qed.

Local Open Scope list_scope.
Local Open Scope N_scope.

(** ** Fields of jobs *)

(** An update of a job that leaves its links alone. *)
Definition keeps_links (f : job → job) : Prop :=
  ∀ j, jb_previous (f j) = jb_previous j ∧ jb_next (f j) = jb_next j ∧ core (f j) = f (core j).

Lemma keeps_done kind : keeps_links (set_done kind).
Proof. by intros []. Qed.
Lemma keeps_output output : keeps_links (set_output output).
Proof. by intros []. Qed.
Lemma keeps_cancelled : keeps_links set_cancelled.
Proof. by intros []. Qed.
Lemma keeps_active : keeps_links set_job_active.
Proof. by intros []. Qed.
Create HintDb workers.
#[export] Hint Resolve keeps_done keeps_output keeps_cancelled keeps_active : workers.

Lemma segment_fields jobs prev l next id j j' :
  jobs !! id = Some j → jb_previous j' = jb_previous j → jb_next j' = jb_next j →
  segment jobs prev l next → segment (<[id := j']> jobs) prev l next.
Proof.
  intros Hj Hp Hn. revert prev. induction l as [|a l IH]; intros prev; simpl; [done|].
  intros [(ja & Hja & Hpa & Hna) Hl]. split; [|by apply IH]. destruct (decide (a = id)) as [->|Hne].
  - exists j'. rewrite lookup_insert_eq. simplify_eq. split_and!; [done|congruence..].
  - exists ja. by rewrite lookup_insert_ne.
Qed.

(** Everything but the jobs, the queues and the readiness channel. *)
Record same_rest (p p' : pool) : Prop := {
  sr_heap : po_heap p' = po_heap p;
  sr_options : po_options p' = po_options p;
  sr_config : po_config p' = po_config p;
  sr_workers : po_workers p' = po_workers p;
  sr_threads : po_threads p' = po_threads p;
  sr_next_job : po_next_job p' = po_next_job p;
  sr_reserved : po_reserved p' = po_reserved p;
  sr_alive : po_alive p' = po_alive p;
  sr_stopping : po_stopping p' = po_stopping p;
}.

Lemma same_rest_refl p : same_rest p p.
Proof. by constructor. Qed.
Lemma same_rest_trans p p' p'' : same_rest p p' → same_rest p' p'' → same_rest p p''.
Proof. intros [] []. constructor; congruence. Qed.
Lemma relinked_rest p p' : relinked p p' → same_rest p p'.
Proof. intros []. by constructor. Qed.
#[export] Hint Resolve same_rest_refl relinked_rest : workers.

Lemma update_fields_ok id f p ls c :
  keeps_links f → queues p ls → cores p !! id = Some c →
  returns (update_job id f p) (λ p', queues p' ls ∧ cores p' = <[id := f c]> (cores p) ∧ same_rest p p' ∧
    po_readiness p' = po_readiness p ∧ ∀ q, head_of q p' = head_of q p).
Proof.
  intros Hf [Hl Hap] Hc. unfold cores in Hc. rewrite lookup_fmap in Hc. destruct (po_jobs p !! id) as [j|] eqn:Hj; [|done].
  apply (inj Some) in Hc as <-. destruct (Hf j) as (Hp & Hn & Hcore). rewrite (update_job_ok p id f j Hj). apply returns_Ok. split_and!.
  - split; [|done]. intros q. destruct (Hl q) as [? ? ? ? ?]. assert (linked (<[id := f j]> (po_jobs p)) (head_of q p) (tail_of q p) (ls q)).
    { constructor; try done. by eapply segment_fields. }
    by destruct q.
  - unfold cores. simpl. by rewrite fmap_insert, Hcore.
  - by constructor.
  - done.
  - by intros [].
Qed.

(** ** Jobs *)

Definition options_ok (o : worker_options) : Prop :=
  0 < wo_worker_count o ≤ 64 ∧ 0 < wo_max_outstanding o ≤ 65536 ∧ wo_max_input_bytes o ≤ 128 * mib ∧
  wo_max_output_bytes o ≤ 128 * mib ∧ wo_max_reserved_bytes o ≤ 1024 * mib.

(** A job is in the queue of waiting jobs until a worker receives it, and in the queue of
    completed jobs from its completion on. *)
Record job_ok (o : worker_options) (next : N) (lq lc : list N) (id : N) (j : job) : Prop := {
  jk_id : jb_id j = id ∧ 0 < id < next;
  jk_reservation : jb_reservation j = length_N (jb_input j) + wo_max_output_bytes o;
  jk_input : length_N (jb_input j) ≤ wo_max_input_bytes o;
  jk_output : length_N (jb_output j) ≤ wo_max_output_bytes o;
  jk_failed : jb_done j = true → jb_kind j ≠ WORKER_SUCCESS → jb_output j = [];
  jk_queued : id ∈ lq ↔ jb_done j = false ∧ jb_active j = false;
  jk_completed : id ∈ lc ↔ jb_done j = true;
}.

Definition total (jobs : gmap N job) : N := map_fold (λ _ j n, jb_reservation j + n) 0 jobs.

Lemma total_insert jobs id j : jobs !! id = None → total (<[id := j]> jobs) = jb_reservation j + total jobs.
Proof. intros Hid. unfold total. rewrite map_fold_insert_L; [done| |done]. intros. lia. Qed.

Lemma total_delete jobs id j : jobs !! id = Some j → total jobs = jb_reservation j + total (delete id jobs).
Proof. intros Hj. rewrite <-(insert_delete_id jobs id j Hj) at 1. by rewrite total_insert by apply lookup_delete_eq. Qed.

(** Replacing a job by one with the same reservation. *)
Lemma total_replace jobs id j j' :
  jobs !! id = Some j → jb_reservation j' = jb_reservation j → total (<[id := j']> jobs) = total jobs.
Proof.
  intros Hj Hr. rewrite <-(insert_delete_eq jobs id j'). rewrite total_insert by apply lookup_delete_eq.
  by rewrite Hr, (total_delete jobs id j Hj).
Qed.

Record jobs_ok (p : pool) (lq lc : list N) : Prop := {
  jo_queues : queues p (lists lq lc);
  jo_job : ∀ id j, cores p !! id = Some j → job_ok (po_options p) (po_next_job p) lq lc id j;
  jo_next : 0 < po_next_job p ≤ u64_max;
  jo_reserved : po_reserved p = total (cores p) ∧ po_reserved p ≤ wo_max_reserved_bytes (po_options p);
  jo_size : N.of_nat (base.size (po_jobs p)) ≤ wo_max_outstanding (po_options p);
  jo_options : options_ok (po_options p);
}.

Lemma cores_size p p' : dom (cores p') = dom (cores p) → base.size (po_jobs p') = base.size (po_jobs p).
Proof.
  intros Hd. assert (base.size (cores p') = base.size (cores p)) as Hs by (rewrite <-!size_dom; by rewrite Hd).
  unfold cores in Hs. by rewrite !map_size_fmap in Hs.
Qed.

Lemma listed p lq lc q id : queues p (lists lq lc) → id ∈ lists lq lc q → is_Some (cores p !! id).
Proof.
  intros Hq Hid. destruct (queues_mapped _ _ _ _ Hq Hid) as [j Hj]. unfold cores. rewrite lookup_fmap, Hj. eauto.
Qed.

Lemma not_listed p lq lc id : jobs_ok p lq lc → cores p !! id = None → id ∉ lq ∧ id ∉ lc.
Proof.
  intros Hj Hn. split; intros Hid; [destruct (listed p lq lc queued id (jo_queues _ _ _ Hj) Hid) as [c Hc]
    |destruct (listed p lq lc completed id (jo_queues _ _ _ Hj) Hid) as [c Hc]]; congruence.
Qed.

(** The readiness channel and the stop flag are not part of it. *)
Lemma jobs_ok_same p p' lq lc :
  jobs_ok p lq lc → queues p' (lists lq lc) → cores p' = cores p → po_options p' = po_options p →
  po_next_job p' = po_next_job p → po_reserved p' = po_reserved p → jobs_ok p' lq lc.
Proof.
  intros [J1 J2 J3 J4 J5 J6] Hq Hc Ho Hn Hr. constructor; rewrite ?Hc, ?Ho, ?Hn, ?Hr; try done.
  by rewrite (cores_size p p') by (by rewrite Hc).
Qed.

Lemma queues_same p p' ls : po_jobs p' = po_jobs p → (∀ q, head_of q p' = head_of q p ∧ tail_of q p' = tail_of q p) → queues p ls → queues p' ls.
Proof. intros Hj He [Hl Hap]. split; [|done]. intros q. destruct (He q) as [-> ->]. by rewrite Hj. Qed.

Lemma notify_ok p lq lc : jobs_ok p lq lc → jobs_ok (notify p) lq lc.
Proof. intros Hj. eapply jobs_ok_same; [done|eapply queues_same, Hj; [done|by intros []]|done..]. Qed.

Lemma with_stopping_ok p lq lc : jobs_ok p lq lc → jobs_ok (with_stopping p) lq lc.
Proof. intros Hj. eapply jobs_ok_same; [done|eapply queues_same, Hj; [done|by intros []]|done..]. Qed.

Lemma with_workers_ok ws p lq lc : jobs_ok p lq lc → jobs_ok (with_workers ws p) lq lc.
Proof. intros Hj. eapply jobs_ok_same; [done|eapply queues_same, Hj; [done|by intros []]|done..]. Qed.

Lemma with_alive_ok t a p lq lc : jobs_ok p lq lc → jobs_ok (with_alive t a p) lq lc.
Proof. intros Hj. eapply jobs_ok_same; [done|eapply queues_same, Hj; [done|by intros []]|done..]. Qed.
#[export] Hint Resolve notify_ok with_stopping_ok with_workers_ok with_alive_ok : workers.

(** ** Finishing a job *)

(** What becomes of a job. *)
Definition finished_job (kind : N) (j : job) : job :=
  set_output (if kind =? WORKER_SUCCESS then jb_output j else []) (set_done kind j).

Record finished (p p' : pool) (id kind : N) (j : job) : Prop := {
  fi_cores : cores p' = <[id := finished_job kind j]> (cores p);
  fi_rest : same_rest p p';
  fi_readiness : po_readiness p' = poll_ready p';
}.

(** The job leaves the queue of waiting jobs if it is there. *)
Lemma leave_queue_ok id p lq lc j :
  jobs_ok p lq lc → cores p !! id = Some j → jb_done j = false →
  returns (j ← load_job p id; if jb_active j then Ok p else unlink queued id p)
    (λ p', relinked p p' ∧ queues p' (lists (without id lq) lc) ∧ id ∉ lc).
Proof.
  intros Hok Hc Hd. pose proof (jo_job _ _ _ Hok id j Hc) as Hjob. destruct (jo_queues _ _ _ Hok) as [Hl Hap].
  assert (id ∉ lc) as Hnc by (rewrite (jk_completed _ _ _ _ _ _ Hjob), Hd; done).
  pose proof Hc as Hc0. unfold cores in Hc0. rewrite lookup_fmap in Hc0. destruct (po_jobs p !! id) as [j0|] eqn:Hj0; [|done].
  apply (inj Some) in Hc0. unfold load_job. rewrite Hj0, load_Some, bind_Ok.
  assert (jb_active j0 = jb_active j) as -> by (by rewrite <-Hc0; destruct j0).
  destruct (jb_active j) eqn:Ha.
  - apply returns_Ok. split_and!; [apply relinked_refl| |done]. rewrite without_none; [apply Hok|].
    rewrite (jk_queued _ _ _ _ _ _ Hjob). intros [_ ?]. congruence.
  - assert (id ∈ lq) as Hq by (by apply (jk_queued _ _ _ _ _ _ Hjob)).
    eapply returns_weaken; [apply (unlink_ok queued id p _ (jo_queues _ _ _ Hok) Hq)|]. intros p' [Hr Hq']. split_and!; [done| |done].
    eapply queues_ext; [|done]. by intros [].
Qed.

Lemma length_nil {A} (n : N) : length_N ([] : list A) ≤ n.
Proof. unfold length_N. simpl. lia. Qed.

Lemma finished_job_ok o next lq lc id kind j :
  job_ok o next lq lc id j → jb_done j = false → job_ok o next (without id lq) (lc ++ [id]) id (finished_job kind j).
Proof.
  intros [K1 K2 K3 K4 K5 K6 K7] Hd. constructor; simpl; try done.
  - case_match; [done|apply length_nil].
  - intros _ Hk. by rewrite (proj2 (N.eqb_neq _ _) Hk).
  - rewrite elem_of_without. by split; [intros [? _]|intros [? _]].
  - split; [done|]. intros _. set_solver.
Qed.

Lemma other_job_ok o next lq lc id id' j :
  job_ok o next lq lc id' j → id' ≠ id → job_ok o next (without id lq) (lc ++ [id]) id' j.
Proof.
  intros [K1 K2 K3 K4 K5 K6 K7] Hne. constructor; try done.
  - rewrite elem_of_without, K6. tauto.
  - rewrite elem_of_app, list_elem_of_singleton, K7. tauto.
Qed.

Lemma finish_ok id kind p lq lc j :
  jobs_ok p lq lc → cores p !! id = Some j → jb_done j = false →
  returns (finish id kind p) (λ p', jobs_ok p' (without id lq) (lc ++ [id]) ∧ finished p p' id kind j).
Proof.
  intros Hok Hc Hd. pose proof (jo_job _ _ _ Hok id j Hc) as Hjob. destruct (jk_id _ _ _ _ _ _ Hjob) as [_ [Hid _]].
  destruct (leave_queue_ok id p lq lc j Hok Hc Hd) as (p1 & H1 & Hr1 & Hq1 & Hnc). unfold finish.
  destruct (load_job p id) as [j0|]; [|done]. rewrite bind_Ok in H1 |- *. rewrite H1, bind_Ok.
  assert (cores p1 !! id = Some j) as Hc1 by (by rewrite (rl_cores _ _ Hr1)).
  destruct (update_fields_ok id (set_done kind) p1 _ j (keeps_done kind) Hq1 Hc1) as (p2 & -> & Hq2 & Hc2 & Hs2 & _). rewrite bind_Ok.
  destruct (append_ok completed id p2 _ Hq2) as (p3 & -> & Hr3 & Hq3).
  { unfold cores in Hc2. apply (f_equal (λ m, m !! id)) in Hc2. rewrite lookup_insert_eq, lookup_fmap in Hc2.
    by destruct (po_jobs p2 !! id) as [j2|]; [eexists|]. }
  { lia. }
  { intros []; simpl; [rewrite elem_of_without; by intros [? _]|done]. }
  rewrite bind_Ok. assert (cores p3 !! id = Some (set_done kind j)) as Hc3 by (by rewrite (rl_cores _ _ Hr3), Hc2, lookup_insert_eq).
  assert (returns (if kind =? WORKER_SUCCESS then Ok p3 else update_job id (set_output []) p3) (λ p4,
    queues p4 (lists (without id lq) (lc ++ [id])) ∧ cores p4 = <[id := finished_job kind j]> (cores p) ∧ same_rest p3 p4)) as (p4 & -> & Hq4 & Hc4 & Hs4).
  { assert (queues p3 (lists (without id lq) (lc ++ [id]))) as Hq3' by (eapply queues_ext; [|done]; by intros []).
    unfold finished_job. destruct (kind =? WORKER_SUCCESS) eqn:Hk.
    - apply returns_Ok. split_and!; [done| |apply same_rest_refl]. rewrite (rl_cores _ _ Hr3), Hc2, (rl_cores _ _ Hr1). by destruct j.
    - eapply returns_weaken; [apply (update_fields_ok id _ p3 _ _ (keeps_output []) Hq3' Hc3)|]. intros p4 (? & Hc4 & ? & _).
      split_and!; [done| |done]. rewrite Hc4, (rl_cores _ _ Hr3), Hc2, (rl_cores _ _ Hr1). by rewrite insert_insert_eq. }
  rewrite bind_Ok. apply returns_Ok.
  assert (same_rest p p4) as Hrest.
  { eapply same_rest_trans; [by apply relinked_rest|]. eapply same_rest_trans; [done|].
    eapply same_rest_trans; [by apply relinked_rest|done]. }
  split; [apply notify_ok|].
  - destruct Hrest as [R1 R2 R3 R4 R5 R6 R7 R8 R9]. constructor; rewrite ?R2, ?R6, ?R7, ?Hc4; try apply Hok; [done| | |].
    + intros id' c. destruct (decide (id' = id)) as [->|Hne].
      * rewrite lookup_insert_eq. intros [= <-]. by apply finished_job_ok.
      * rewrite lookup_insert_ne by done. intros Hc'. eapply other_job_ok; [by apply Hok|done].
    + rewrite (total_replace _ _ j) by done. apply Hok.
    + rewrite (cores_size p p4); [apply Hok|]. rewrite Hc4, dom_insert_L. apply (elem_of_dom_2 (D:=gset N)) in Hc. set_solver.
  - constructor; [done| |done]. destruct Hrest. by constructor.
Qed.
