(* ===== verification/WorkerSafety.v ===== *)
(** * The mailbox a worker pool implements

    The abstract view of a pool: jobs that wait, in order, jobs that workers hold, and
    outcomes that wait to be taken, in order.  Each rule moves one job; nothing else ever
    happens to one.  The lemmas relate [finish] and what is built from it to these rules.

    Operations on a worker pool

    The invariant of a pool, and that each operation, whatever the interleaving, returns,
    keeps it, and moves the jobs of the mailbox by the rules of the specification. *)

From stdpp Require Import sorting.
From S2P Require Import Prelude Storage Heap WorkerPool WorkerInvariant.

Local Open Scope list_scope.
Local Open Scope N_scope.

(** ** The specification *)

(** The next identity; a waiting job is its identity and input; a worker holds nothing or a
    job with its input and whether its cancellation was asked for; an outcome is an
    identity, how the job ended, and its output. *)
Record mailbox := mk_mailbox {
  mb_next : N;
  mb_waiting : list (N * list byte);
  mb_running : list (option (N * list byte * bool));
  mb_finished : list (N * N * list byte);
}.

(** How a job may end: a cancelled job does not succeed, and only success has an output. *)
Definition outcome_ok (cancelled : bool) (kind : N) (output : list byte) : Prop :=
  (kind = WORKER_SUCCESS → cancelled = false) ∧ (kind ≠ WORKER_SUCCESS → output = []).

Definition mailbox_ids (m : mailbox) : list N :=
  (mb_waiting m).*1 ++ omap (λ r, x ← r; Some x.1.1) (mb_running m) ++ ((λ x, x.1.1) <$> mb_finished m).

(** What can happen to a job: it is submitted; worker [i] receives it; its cancellation is
    asked for while a worker holds it; worker [i] completes it; it ends while it waits; its
    outcome is taken. *)
Inductive mailbox_action :=
| act_submit (input : list byte)
| act_receive (i : nat)
| act_request (id : N)
| act_complete (i : nat) (kind : N) (output : list byte)
| act_retire (id kind : N)
| act_take (id kind : N) (output : list byte).

(** A submitted job gets an identity that was never used; the oldest waiting job is
    received; outcomes are ordered by when they came. *)
Inductive mailbox_step : mailbox_action → mailbox → mailbox → Prop :=
| step_submit next input waiting running finished :
    mailbox_step (act_submit input) (mk_mailbox next waiting running finished)
      (mk_mailbox (next + 1) (waiting ++ [(next, input)]) running finished)
| step_receive i id input next waiting running finished :
    running !! i = Some None →
    mailbox_step (act_receive i) (mk_mailbox next ((id, input) :: waiting) running finished)
      (mk_mailbox next waiting (<[i := Some (id, input, false)]> running) finished)
| step_request i id input c next waiting running finished :
    running !! i = Some (Some (id, input, c)) →
    mailbox_step (act_request id) (mk_mailbox next waiting running finished)
      (mk_mailbox next waiting (<[i := Some (id, input, true)]> running) finished)
| step_complete i id input c kind output next waiting running finished :
    running !! i = Some (Some (id, input, c)) → outcome_ok c kind output →
    mailbox_step (act_complete i kind output) (mk_mailbox next waiting running finished)
      (mk_mailbox next waiting (<[i := None]> running) (finished ++ [(id, kind, output)]))
| step_retire id input kind next l1 l2 running finished :
    kind ≠ WORKER_SUCCESS →
    mailbox_step (act_retire id kind) (mk_mailbox next (l1 ++ (id, input) :: l2) running finished)
      (mk_mailbox next (l1 ++ l2) running (finished ++ [(id, kind, [])]))
| step_take id kind output next l1 l2 waiting running :
    mailbox_step (act_take id kind output) (mk_mailbox next waiting running (l1 ++ (id, kind, output) :: l2))
      (mk_mailbox next waiting running (l1 ++ l2)).

(** Several actions, in order. *)
Inductive mailbox_run : list mailbox_action → mailbox → mailbox → Prop :=
| run_nil m : mailbox_run [] m m
| run_cons a l m m1 m2 : mailbox_step a m m1 → mailbox_run l m1 m2 → mailbox_run (a :: l) m m2.

Lemma run_one a m m' : mailbox_step a m m' → mailbox_run [a] m m'.
Proof. intros Hs. eapply run_cons; [done|apply run_nil]. Qed.

Lemma run_app l1 l2 m m1 m2 : mailbox_run l1 m m1 → mailbox_run l2 m1 m2 → mailbox_run (l1 ++ l2) m m2.
Proof. induction 1 as [|a l m m' m'' Hs _ IH]; [done|]. intros H2. eapply run_cons; [done|by apply IH]. Qed.

(** ** The view of a pool *)

Definition input_of (cs : gmap N job) (id : N) : list byte := from_option jb_input [] (cs !! id).
Definition waiting_of (cs : gmap N job) (id : N) : N * list byte := (id, input_of cs id).
Definition outcome_of (cs : gmap N job) (id : N) : N * N * list byte :=
  (id, from_option jb_kind 0 (cs !! id), from_option jb_output [] (cs !! id)).
Definition held_by (cs : gmap N job) (w : worker) : option (N * list byte * bool) :=
  if wk_current w =? 0 then None
  else Some (wk_current w, input_of cs (wk_current w), from_option jb_cancelled false (cs !! wk_current w)).

Definition view (next : N) (cs : gmap N job) (ws : list worker) (lq lc : list N) : mailbox :=
  mk_mailbox next (waiting_of cs <$> lq) (held_by cs <$> ws) (outcome_of cs <$> lc).

Lemma waiting_frame cs cs' (l : list N) : (∀ a, a ∈ l → input_of cs' a = input_of cs a) → waiting_of cs' <$> l = waiting_of cs <$> l.
Proof. intros H. apply list_fmap_ext. intros i a Ha%list_elem_of_lookup_2. unfold waiting_of. by rewrite H. Qed.

Lemma outcome_frame cs cs' (l : list N) : (∀ a, a ∈ l → cs' !! a = cs !! a) → outcome_of cs' <$> l = outcome_of cs <$> l.
Proof. intros H. apply list_fmap_ext. intros i a Ha%list_elem_of_lookup_2. unfold outcome_of. by rewrite H. Qed.

Lemma held_frame cs cs' (ws : list worker) :
  (∀ w, w ∈ ws → wk_current w ≠ 0 → cs' !! wk_current w = cs !! wk_current w) → held_by cs' <$> ws = held_by cs <$> ws.
Proof.
  intros H. apply list_fmap_ext. intros i w Hw%list_elem_of_lookup_2. unfold held_by, input_of.
  destruct (N.eqb_spec (wk_current w) 0) as [|Hne]; [done|]. by rewrite (H w Hw Hne).
Qed.

(** ** Workers *)

Record workers_ok (p : pool) : Prop := {
  wp_current : ∀ i w, po_workers p !! i = Some w → wk_current w ≠ 0 →
    wk_exited w = false ∧ ∃ j, cores p !! wk_current w = Some j ∧ jb_done j = false ∧ jb_active j = true;
  wp_unique : ∀ i i' w w', po_workers p !! i = Some w → po_workers p !! i' = Some w' →
    wk_current w ≠ 0 → wk_current w = wk_current w' → i = i';
  wp_held : ∀ id j, cores p !! id = Some j → jb_done j = false → jb_active j = true →
    ∃ i w, po_workers p !! i = Some w ∧ wk_current w = id;
}.

Lemma workers_ok_same p p' : cores p' = cores p → po_workers p' = po_workers p → workers_ok p → workers_ok p'.
Proof. intros Hc Hw [W1 W2 W3]. constructor; rewrite ?Hc, ?Hw; done. Qed.

Lemma workers_notify p : workers_ok p → workers_ok (notify p).
Proof. by apply workers_ok_same. Qed.
Lemma workers_stopping p : workers_ok p → workers_ok (with_stopping p).
Proof. by apply workers_ok_same. Qed.
Lemma workers_alive t a p : workers_ok p → workers_ok (with_alive t a p).
Proof. by apply workers_ok_same. Qed.
#[export] Hint Resolve workers_notify workers_stopping workers_alive : workers.

(** The jobs and the workers between two operations, and their abstract view. *)
Record running (p : pool) (lq lc : list N) : Prop := {
  rn_jobs : jobs_ok p lq lc;
  rn_workers : workers_ok p;
  rn_fresh : ∀ id j, cores p !! id = Some j → jb_done j = false → jb_output j = [];
}.

Definition view_of (p : pool) (lq lc : list N) : mailbox :=
  view (po_next_job p) (cores p) (po_workers p) lq lc.

(** An operation that moves the jobs of the mailbox by some actions. *)
Definition moved (l : list mailbox_action) (p : pool) (lq lc : list N) (p' : pool) (lq' lc' : list N) : Prop :=
  mailbox_run l (view_of p lq lc) (view_of p' lq' lc').

Lemma moved_refl p lq lc p' :
  cores p' = cores p → po_workers p' = po_workers p → po_next_job p' = po_next_job p → moved [] p lq lc p' lq lc.
Proof. intros Hc Hw Hn. unfold moved, view_of. rewrite Hc, Hw, Hn. apply run_nil. Qed.

Lemma moved_app l1 l2 p lq lc p1 lq1 lc1 p2 lq2 lc2 :
  moved l1 p lq lc p1 lq1 lc1 → moved l2 p1 lq1 lc1 p2 lq2 lc2 → moved (l1 ++ l2) p lq lc p2 lq2 lc2.
Proof. apply run_app. Qed.

Lemma moved_nil_l l p lq lc p1 p2 lq2 lc2 :
  moved [] p lq lc p1 lq lc → moved l p1 lq lc p2 lq2 lc2 → moved l p lq lc p2 lq2 lc2.
Proof. intros H1 H2. exact (moved_app [] l _ _ _ _ _ _ _ _ _ H1 H2). Qed.

(** ** Retiring a waiting job *)

Lemma retire_view p p' id kind j lq lc :
  running p lq lc → id ∈ lq → cores p !! id = Some j → kind ≠ WORKER_SUCCESS → finished p p' id kind j →
  mailbox_step (act_retire id kind) (view_of p lq lc) (view_of p' (without id lq) (lc ++ [id])).
Proof.
  intros [Hj Hw _] Hid Hc Hk [Hc' Hs _]. unfold view_of. rewrite Hc', (sr_workers _ _ Hs), (sr_next_job _ _ Hs). unfold view.
  pose proof (jo_job _ _ _ Hj id j Hc) as Hjob. pose proof (proj1 (jk_queued _ _ _ _ _ _ Hjob) Hid) as [Hd Ha].
  pose proof (lk_nodup _ _ _ _ (qs_linked _ _ (jo_queues _ _ _ Hj) queued)) as Hnd. simpl in Hnd.
  apply list_elem_of_split in Hid as (l1 & l2 & ->). rewrite without_split by done.
  set (cs' := <[id := finished_job kind j]> (cores p)).
  assert (∀ a, input_of cs' a = input_of (cores p) a) as Hin.
  { intros a. unfold input_of, cs'. destruct (decide (a = id)) as [->|Hne]; [by rewrite lookup_insert_eq, Hc|by rewrite lookup_insert_ne]. }
  rewrite (waiting_frame (cores p) cs') by auto. rewrite !fmap_app, fmap_cons.
  assert (outcome_of cs' <$> lc = outcome_of (cores p) <$> lc) as ->.
  { apply outcome_frame. intros a Hal. unfold cs'. rewrite lookup_insert_ne; [done|]. intros <-.
    apply (jk_completed _ _ _ _ _ _ Hjob) in Hal. congruence. }
  assert (held_by cs' <$> po_workers p = held_by (cores p) <$> po_workers p) as ->.
  { apply held_frame. intros w [i Hi]%list_elem_of_lookup_1 Hne. unfold cs'. rewrite lookup_insert_ne; [done|]. intros Heq.
    destruct (wp_current _ Hw i w Hi Hne) as (_ & j' & Hj' & _ & Ha'). rewrite <-Heq in Hj'. congruence. }
  simpl. assert (outcome_of cs' id = (id, kind, [])) as ->.
  { unfold outcome_of, cs'. rewrite lookup_insert_eq. simpl. by rewrite (proj2 (N.eqb_neq _ _) Hk). }
  by apply step_retire.
Qed.

Lemma retire_ok id kind p lq lc :
  running p lq lc → id ∈ lq → kind ≠ WORKER_SUCCESS →
  returns (finish id kind p) (λ p', running p' (without id lq) (lc ++ [id]) ∧ same_rest p p' ∧
    moved [act_retire id kind] p lq lc p' (without id lq) (lc ++ [id]) ∧ dom (cores p') = dom (cores p) ∧
    ∀ a, a ≠ id → cores p' !! a = cores p !! a).
Proof.
  intros Hr Hid Hk. pose proof Hr as [Hj Hw Hf]. destruct (listed p lq lc queued id (jo_queues _ _ _ Hj) Hid) as [j Hc].
  pose proof (jo_job _ _ _ Hj id j Hc) as Hjob. pose proof (proj1 (jk_queued _ _ _ _ _ _ Hjob) Hid) as [Hd Ha].
  eapply returns_weaken; [by apply (finish_ok id kind p lq lc j)|]. intros p' [Hj' Hfin]. pose proof Hfin as [Hc' Hs _].
  split_and!; [|done|by eapply run_one, retire_view|..].
  - split; [done| |].
    + constructor; rewrite ?(sr_workers _ _ Hs), ?Hc'.
      * intros i w Hi Hne. destruct (wp_current _ Hw i w Hi Hne) as (E1 & j' & Hj0 & E3 & E4). split_and!; try done. exists j'.
        rewrite lookup_insert_ne; [done|]. intros Heq. rewrite <-Heq in Hj0. congruence.
      * apply Hw.
      * intros id' j'. destruct (decide (id' = id)) as [->|Hne]; [rewrite lookup_insert_eq; by intros [= <-]|].
        rewrite lookup_insert_ne by done. apply Hw.
    + intros id' j'. rewrite Hc'. destruct (decide (id' = id)) as [->|Hne]; [rewrite lookup_insert_eq; by intros [= <-]|].
      rewrite lookup_insert_ne by done. apply Hf.
  - rewrite Hc', dom_insert_L. apply (elem_of_dom_2 (D:=gset N)) in Hc. set_solver.
  - intros a Hne. by rewrite Hc', lookup_insert_ne.
Qed.

(** [while (p.queued_head != nullptr) finish(p, *p.queued_head, kind);] *)
Lemma finish_queued_ok fuel kind p lq lc :
  running p lq lc → kind ≠ WORKER_SUCCESS → (length lq ≤ fuel)%nat →
  returns (finish_queued fuel kind p) (λ p', running p' [] (lc ++ lq) ∧ same_rest p p' ∧
    moved ((λ id, act_retire id kind) <$> lq) p lq lc p' [] (lc ++ lq)).
Proof.
  revert p lq lc. induction fuel as [|fuel IH]; intros p lq lc Hr Hk Hlen.
  all: pose proof (lk_head _ _ _ _ (qs_linked _ _ (jo_queues _ _ _ (rn_jobs _ _ _ Hr)) queued)) as Hh; simpl in Hh; simpl; rewrite Hh.
  all: pose proof (lk_nonnull _ _ _ _ (qs_linked _ _ (jo_queues _ _ _ (rn_jobs _ _ _ Hr)) queued)) as Hz; simpl in Hz.
  all: pose proof (lk_nodup _ _ _ _ (qs_linked _ _ (jo_queues _ _ _ (rn_jobs _ _ _ Hr)) queued)) as Hnd; simpl in Hnd.
  all: destruct lq as [|a lq]; simpl in *; try lia.
  1,2: rewrite app_nil_r; apply returns_Ok; split_and!; [done|apply same_rest_refl|by apply moved_refl].
  unfold first. simpl. rewrite (proj2 (N.eqb_neq a 0)) by (intros ->; set_solver).
  destruct (retire_ok a kind p (a :: lq) lc Hr) as (p1 & -> & Hr1 & Hs1 & Hm1 & _); [set_solver|done|]. rewrite bind_Ok.
  pose proof (without_split a [] lq Hnd) as Hwithout. simpl in Hwithout. rewrite Hwithout in *.
  eapply returns_weaken; [apply (IH p1 lq (lc ++ [a])); [done|done|lia]|]. intros p' (Hr' & Hs' & Hm'). rewrite <-app_assoc in *. simpl in *.
  split_and!; [done|by eapply same_rest_trans|]. exact (moved_app [_] _ _ _ _ _ _ _ _ _ _ Hm1 Hm').
Qed.

(** At most as many jobs wait as there are. *)
Lemma queue_size p lq lc : jobs_ok p lq lc → (length lq ≤ base.size (po_jobs p))%nat.
Proof.
  intros Hj. pose proof (lk_nodup _ _ _ _ (qs_linked _ _ (jo_queues _ _ _ Hj) queued)) as Hnd. simpl in Hnd.
  rewrite <-(size_list_to_set (C:=gset N) lq Hnd), <-size_dom. apply subseteq_size. intros a Ha%elem_of_list_to_set.
  apply elem_of_dom. exact (queues_mapped _ _ queued _ (jo_queues _ _ _ Hj) Ha).
Qed.

(** ** Completing a job that a worker holds *)

Lemma complete_view p p1 i w kind j lq lc :
  jobs_ok p lq lc → workers_ok p → po_workers p !! i = Some w → wk_current w ≠ 0 → cores p !! wk_current w = Some j →
  (kind = WORKER_SUCCESS → jb_cancelled j = false) → finished p p1 (wk_current w) kind j →
  mailbox_step (act_complete i kind (if kind =? WORKER_SUCCESS then jb_output j else [])) (view_of p lq lc)
    (view (po_next_job p1) (cores p1) (<[i := set_current 0 w]> (po_workers p1)) lq (lc ++ [wk_current w])).
Proof.
  intros Hj Hw Hi Hne Hc Hk [Hc' Hs _]. unfold view_of. rewrite Hc', (sr_workers _ _ Hs), (sr_next_job _ _ Hs). unfold view.
  destruct (wp_current _ Hw i w Hi Hne) as (_ & j' & Hj' & Hd & Ha). rewrite Hc in Hj'. injection Hj' as <-.
  pose proof (jo_job _ _ _ Hj _ j Hc) as Hjob. set (id := wk_current w) in *. set (cs' := <[id := finished_job kind j]> (cores p)).
  assert (∀ a, input_of cs' a = input_of (cores p) a) as Hin.
  { intros a. unfold input_of, cs'. destruct (decide (a = id)) as [->|Hn]; [by rewrite lookup_insert_eq, Hc|by rewrite lookup_insert_ne]. }
  rewrite (waiting_frame (cores p) cs') by auto. rewrite fmap_app.
  assert (outcome_of cs' <$> lc = outcome_of (cores p) <$> lc) as ->.
  { apply outcome_frame. intros a Hal. unfold cs'. rewrite lookup_insert_ne; [done|]. intros <-.
    apply (jk_completed _ _ _ _ _ _ Hjob) in Hal. congruence. }
  assert (held_by cs' <$> <[i := set_current 0 w]> (po_workers p) = <[i := None]> (held_by (cores p) <$> po_workers p)) as ->.
  { apply list_eq. intros k. rewrite list_lookup_fmap. destruct (decide (k = i)) as [->|Hki].
    - rewrite !list_lookup_insert_eq; [done|rewrite length_fmap|]; by eapply lookup_lt_Some.
    - rewrite !list_lookup_insert_ne by done. rewrite list_lookup_fmap. destruct (po_workers p !! k) as [w'|] eqn:Hk'; [|done]. simpl.
      f_equal. unfold held_by. destruct (N.eqb_spec (wk_current w') 0) as [|Hne']; [done|]. rewrite Hin. unfold cs'.
      rewrite lookup_insert_ne; [done|]. intros Heq. by apply Hki, (wp_unique _ Hw k i w' w). }
  simpl. assert (outcome_of cs' id = (id, kind, if kind =? WORKER_SUCCESS then jb_output j else [])) as ->
    by (unfold outcome_of, cs'; by rewrite lookup_insert_eq).
  eapply (step_complete i id (jb_input j) (jb_cancelled j) kind).
  - rewrite list_lookup_fmap, Hi. simpl. unfold held_by, input_of. fold id. by rewrite (proj2 (N.eqb_neq _ _) Hne), Hc.
  - split; [done|]. intros Hne'. by rewrite (proj2 (N.eqb_neq _ _) Hne').
Qed.

Lemma complete_ok i w kind p lq lc j :
  jobs_ok p lq lc → workers_ok p →
  (∀ id' j', id' ≠ wk_current w → cores p !! id' = Some j' → jb_done j' = false → jb_output j' = []) →
  po_workers p !! i = Some w → wk_current w ≠ 0 → cores p !! wk_current w = Some j →
  (kind = WORKER_SUCCESS → jb_cancelled j = false) →
  returns (p' ← finish (wk_current w) kind p; update_worker i (set_current 0) p') (λ p',
    running p' lq (lc ++ [wk_current w]) ∧
    moved [act_complete i kind (if kind =? WORKER_SUCCESS then jb_output j else [])] p lq lc p' lq (lc ++ [wk_current w]) ∧
    ∃ p1, same_rest p p1 ∧ po_readiness p1 = poll_ready p1 ∧ cores p1 = <[wk_current w := finished_job kind j]> (cores p) ∧
      p' = with_workers (<[i := set_current 0 w]> (po_workers p)) p1).
Proof.
  intros Hj Hw Hf Hi Hne Hc Hk. destruct (wp_current _ Hw i w Hi Hne) as (He & j' & Hj' & Hd & Ha). rewrite Hc in Hj'. injection Hj' as <-.
  pose proof (jo_job _ _ _ Hj _ j Hc) as Hjob. set (id := wk_current w) in *.
  assert (without id lq = lq) as Hq by (apply without_none; rewrite (jk_queued _ _ _ _ _ _ Hjob); intros [_ ?]; congruence).
  destruct (finish_ok id kind p lq lc j Hj Hc Hd) as (p1 & -> & Hj1 & Hfin). rewrite bind_Ok. rewrite Hq in Hj1.
  pose proof Hfin as [Hc1 Hs Hready]. unfold update_worker, load_worker. rewrite (sr_workers _ _ Hs), Hi, load_Some. simpl. apply returns_Ok.
  assert (i < length (po_workers p))%nat as Hlt by by eapply lookup_lt_Some. split_and!.
  - split; [by apply with_workers_ok| |].
    + set (ws := <[i := set_current 0 w]> (po_workers p)). constructor; change (po_workers (with_workers ws p1)) with ws;
        change (cores (with_workers ws p1)) with (cores p1); rewrite ?Hc1; unfold ws; clear ws.
      * intros k w'. destruct (decide (k = i)) as [->|Hki]; [rewrite list_lookup_insert_eq by done; by intros [= <-]|].
        rewrite list_lookup_insert_ne by done. intros Hk' Hne'. destruct (wp_current _ Hw k w' Hk' Hne') as (? & jw & Hjw & ?).
        split; [done|]. exists jw. rewrite lookup_insert_ne; [done|]. intros Heq. by apply Hki, (wp_unique _ Hw k i w' w).
      * intros k k' w1 w2. destruct (decide (k = i)) as [->|Hki]; [rewrite list_lookup_insert_eq by done; by intros [= <-]|].
        destruct (decide (k' = i)) as [->|Hki']; [rewrite (list_lookup_insert_eq (po_workers p) i) by done; intros _ [= <-]; simpl; congruence|].
        rewrite !list_lookup_insert_ne by done. apply (wp_unique _ Hw).
      * intros id' j'. destruct (decide (id' = id)) as [->|Hid]; [rewrite lookup_insert_eq; by intros [= <-]|].
        rewrite lookup_insert_ne by done. intros Hj' Hd' Ha'. destruct (wp_held _ Hw id' j' Hj' Hd' Ha') as (k & w' & Hk' & Hcur).
        exists k, w'. rewrite list_lookup_insert_ne; [done|]. intros <-. rewrite Hi in Hk'. injection Hk' as <-. done.
    + intros id' j'. change (cores (with_workers _ p1)) with (cores p1). rewrite Hc1. destruct (decide (id' = id)) as [->|Hid].
      * rewrite lookup_insert_eq. by intros [= <-].
      * rewrite lookup_insert_ne by done. by apply Hf.
  - apply run_one. pose proof (complete_view p p1 i w kind j lq lc Hj Hw Hi Hne Hc Hk Hfin) as Hv. rewrite (sr_workers _ _ Hs) in Hv. exact Hv.
  - exists p1. by split_and!.
Qed.

Local Open Scope list_scope.
Local Open Scope N_scope.

(** ** Threads *)

Definition alive_count (ws : list worker) : nat := length (filter (λ w, wk_exited w = false) ws).

Lemma alive_count_insert ws i w w' :
  ws !! i = Some w →
  (alive_count (<[i := w']> ws) + (if wk_exited w then 0 else 1) = alive_count ws + (if wk_exited w' then 0 else 1))%nat.
Proof.
  intros Hi. rewrite <-(take_drop_middle ws i w Hi) at 2. rewrite insert_take_drop by by eapply lookup_lt_Some.
  unfold alive_count. rewrite !filter_app, !length_app. rewrite !(filter_cons _ _ (drop _ _)).
  destruct (wk_exited w), (wk_exited w'); repeat case_decide; simpl; try done; lia.
Qed.

(** The first [threads] workers have a thread; the others are as they were made. *)
Record threads_ok (ws : list worker) (threads alive count : N) : Prop := {
  th_count : length_N ws = count;
  th_threads : threads ≤ length_N ws;
  th_unstarted : ∀ i w, ws !! i = Some w → threads ≤ N.of_nat i → w = new_worker;
  th_alive : alive = N.of_nat (alive_count (take (N.to_nat threads) ws));
}.

Lemma threads_insert ws threads alive count i w w' :
  threads_ok ws threads alive count → ws !! i = Some w → N.of_nat i < threads → wk_exited w' = wk_exited w →
  threads_ok (<[i := w']> ws) threads alive count.
Proof.
  intros [T1 T2 T3 T4] Hi Hlt He. constructor.
  - unfold length_N in *. by rewrite length_insert.
  - unfold length_N in *. by rewrite length_insert.
  - intros k w0. destruct (decide (k = i)) as [->|]; [lia|]. rewrite list_lookup_insert_ne by done. apply T3.
  - rewrite take_insert_lt by lia. rewrite T4. f_equal.
    pose proof (alive_count_insert (take (N.to_nat threads) ws) i w w') as Hc. rewrite lookup_take_lt in Hc by lia. specialize (Hc Hi).
    rewrite He in Hc. lia.
Qed.

Lemma threads_exit ws threads alive count i w w' :
  threads_ok ws threads alive count → ws !! i = Some w → N.of_nat i < threads → wk_exited w = false → wk_exited w' = true →
  0 < alive ∧ threads_ok (<[i := w']> ws) threads (alive - 1) count.
Proof.
  intros [T1 T2 T3 T4] Hi Hlt He He'.
  pose proof (alive_count_insert (take (N.to_nat threads) ws) i w w') as Hc. rewrite lookup_take_lt in Hc by lia. specialize (Hc Hi).
  rewrite He, He' in Hc. split; [lia|]. constructor.
  - unfold length_N in *. by rewrite length_insert.
  - unfold length_N in *. by rewrite length_insert.
  - intros k w0. destruct (decide (k = i)) as [->|]; [lia|]. rewrite list_lookup_insert_ne by done. apply T3.
  - rewrite take_insert_lt by lia. lia.
Qed.

(** Someone is alive if all threads were started and some worker is available. *)
Lemma threads_available ws threads alive count :
  threads_ok ws threads alive count → threads = length_N ws → existsb available ws = true → alive ≠ 0.
Proof.
  intros [_ _ _ ->] Hall (w & Hin & [_ He%negb_true_iff]%andb_true_iff)%existsb_exists. apply list_elem_of_In in Hin.
  rewrite take_ge by (unfold length_N in Hall; lia). unfold alive_count.
  assert (w ∈ filter (λ w, wk_exited w = false) ws) as Hw by (by apply list_elem_of_filter).
  destruct (filter _ ws); [by apply elem_of_nil in Hw|simpl; lia].
Qed.

Lemma threads_all ws threads alive count :
  threads_ok ws threads alive count → existsb available ws = false → threads = length_N ws.
Proof.
  intros [_ T2 T3 _] Hno. destruct (decide (threads = length_N ws)) as [|Hne]; [done|]. unfold length_N in *.
  destruct (lookup_lt_is_Some_2 ws (N.to_nat threads)) as [w Hw]; [lia|].
  assert (existsb available ws = true); [|congruence]. apply existsb_exists. exists w.
  split; [apply list_elem_of_In; by eapply list_elem_of_lookup_2|]. by rewrite (T3 _ w Hw ltac:(lia)).
Qed.

(** ** The invariant *)

(** The readiness channel is set exactly when [poll] has something to say, once the pool
    is complete; before that there are no jobs. *)
Definition ready_ok (p : pool) : Prop :=
  if decide (po_threads p = length_N (po_workers p)) then po_readiness p = poll_ready p
  else po_jobs p = ∅ ∧ (po_stopping p = false → po_readiness p = false).

Definition failed_idle (p : pool) : Prop := ∀ i w, po_workers p !! i = Some w → wk_failed w = true → wk_current w = 0.

Definition pool_threads (p : pool) : Prop :=
  threads_ok (po_workers p) (po_threads p) (po_alive p) (wo_worker_count (po_options p)).

(** Nobody asked for the cancellation of a job that waits. *)
Definition waiting_ok (p : pool) (lq : list N) : Prop := ∀ id j, id ∈ lq → cores p !! id = Some j → jb_cancelled j = false.

Record pool_ok (p : pool) (lq lc : list N) : Prop := {
  pk_running : running p lq lc;
  pk_threads : pool_threads p;
  pk_failed : failed_idle p;
  pk_waiting : waiting_ok p lq;
  pk_stopping : po_stopping p = true → lq = [];
  pk_unavailable : existsb available (po_workers p) = false → po_stopping p = true;
  pk_ready : ready_ok p;
}.

(** The pool is consistent again, and the mailbox moved by actions that satisfy [P]. *)
Definition settles (P : list mailbox_action → Prop) (p : pool) (lq lc : list N) (p' : pool) : Prop :=
  ∃ l lq' lc', P l ∧ pool_ok p' lq' lc' ∧ moved l p lq lc p' lq' lc'.

Definition quiet (l : list mailbox_action) : Prop := l = [].

Lemma settles_moved (P1 P : list mailbox_action → Prop) l1 p lq lc p1 lq1 lc1 p' :
  moved l1 p lq lc p1 lq1 lc1 → settles P1 p1 lq1 lc1 p' → (∀ l, P1 l → P (l1 ++ l)) → settles P p lq lc p'.
Proof.
  intros Hm (l & lq' & lc' & Hl & Hok & Hm') HP. exists (l1 ++ l), lq', lc'. split_and!; [by apply HP|done|by eapply moved_app].
Qed.

Lemma settles_weaken (P1 P : list mailbox_action → Prop) p lq lc p' :
  settles P1 p lq lc p' → (∀ l, P1 l → P l) → settles P p lq lc p'.
Proof. intros (l & lq' & lc' & Hl & H) HP. exists l, lq', lc'. split; [by apply HP|done]. Qed.

(** ** Flags of workers *)

Lemma update_worker_ok i f p w : po_workers p !! i = Some w → update_worker i f p = Ok (with_workers (<[i := f w]> (po_workers p)) p).
Proof. intros Hi. unfold update_worker, load_worker. by rewrite Hi, load_Some. Qed.

Lemma flags_ok i w w' p lq lc :
  running p lq lc → po_workers p !! i = Some w → wk_current w' = wk_current w → (wk_current w ≠ 0 → wk_exited w' = false) →
  running (with_workers (<[i := w']> (po_workers p)) p) lq lc ∧
  moved [] p lq lc (with_workers (<[i := w']> (po_workers p)) p) lq lc.
Proof.
  intros [Hj Hw Hf] Hi Hc He. assert (i < length (po_workers p))%nat as Hlt by by eapply lookup_lt_Some. split.
  - split; [by apply with_workers_ok| |done]. set (ws := <[i := w']> (po_workers p)).
    assert (∀ k v, ws !! k = Some v → ∃ u, po_workers p !! k = Some u ∧ wk_current v = wk_current u ∧
      (wk_current u ≠ 0 → wk_exited u = false → wk_exited v = false)) as Hws.
    { intros k v. unfold ws. destruct (decide (k = i)) as [->|Hk]; [rewrite list_lookup_insert_eq by done; intros [= <-]; eauto|].
      rewrite list_lookup_insert_ne by done. eauto. }
    constructor; change (po_workers (with_workers ws p)) with ws; change (cores (with_workers ws p)) with (cores p).
    + intros k v Hk. destruct (Hws k v Hk) as (u & Hu & -> & Hx). intros Hne. destruct (wp_current _ Hw k u Hu Hne) as [? ?]. split; auto.
    + intros k k' v v' Hk Hk'. destruct (Hws k v Hk) as (u & Hu & -> & _), (Hws k' v' Hk') as (u' & Hu' & -> & _). by apply (wp_unique _ Hw).
    + intros id j Hj' Hd Ha. destruct (wp_held _ Hw id j Hj' Hd Ha) as (k & u & Hk & Hid). unfold ws. destruct (decide (k = i)) as [->|Hne].
      * exists i, w'. rewrite list_lookup_insert_eq by done. split; [done|]. rewrite Hc. congruence.
      * exists k, u. by rewrite list_lookup_insert_ne.
  - unfold moved, view_of, view. simpl. change (cores (with_workers _ p)) with (cores p).
    assert (held_by (cores p) <$> <[i := w']> (po_workers p) = held_by (cores p) <$> po_workers p) as ->; [|apply run_nil].
    rewrite list_fmap_insert. apply list_insert_id. rewrite list_lookup_fmap, Hi. simpl. unfold held_by. by rewrite Hc.
Qed.

(** ** Stopping *)

Lemma moved_notify l p lq lc p' lq' lc' : moved l p lq lc p' lq' lc' → moved l p lq lc (notify p') lq' lc'.
Proof. done. Qed.

Lemma running_notify p lq lc : running p lq lc → running (notify p) lq lc.
Proof. intros [? ? ?]. split; auto with workers. Qed.
Lemma running_stopping p lq lc : running p lq lc → running (with_stopping p) lq lc.
Proof. intros [? ? ?]. split; auto with workers. Qed.

Lemma notify_ready p : ready_ok (notify p) ∨ po_threads p ≠ length_N (po_workers p).
Proof. unfold ready_ok. destruct (decide (po_threads p = length_N (po_workers p))); [left|by right]. simpl. by case_decide. Qed.

(** A job that waits ends. *)
Definition retired (kind : N) (a : mailbox_action) : Prop := ∃ id, a = act_retire id kind.

Lemma stop_if_unavailable_ok p lq lc :
  running p lq lc → pool_threads p → failed_idle p → waiting_ok p lq → (po_stopping p = true → lq = []) →
  (existsb available (po_workers p) = true → ready_ok p) →
  returns (stop_if_unavailable p) (λ p', settles (Forall (retired WORKER_FAILED)) p lq lc p' ∧ po_workers p' = po_workers p ∧ po_threads p' = po_threads p).
Proof.
  intros Hr Ht Hf Hwait Hstop Hready. unfold stop_if_unavailable. destruct (existsb available (po_workers p)) eqn:Hav.
  - apply returns_Ok. split; [|done]. exists [], lq, lc. split_and!; [by apply Forall_nil|constructor; auto; congruence|by apply moved_refl].
  - pose proof (queue_size _ _ _ (rn_jobs _ _ _ Hr)) as Hsize.
    destruct (finish_queued_ok (base.size (po_jobs p)) WORKER_FAILED (with_stopping p) lq lc) as (p1 & -> & Hr1 & Hs1 & Hm1);
      [by apply running_stopping|done|done|]. rewrite bind_Ok. apply returns_Ok.
    split; [|split; apply Hs1]. exists ((λ id, act_retire id WORKER_FAILED) <$> lq), [], (lc ++ lq).
    split_and!; [apply Forall_fmap, Forall_true; by eexists| |done]. destruct Hs1 as [S1 S2 S3 S4 S5 S6 S7 S8 S9]. simpl in *. constructor.
    + by apply running_notify.
    + unfold pool_threads. simpl. by rewrite S4, S5, S8, S2.
    + unfold failed_idle. simpl. by rewrite S4.
    + by intros id j ?%elem_of_nil.
    + done.
    + simpl. by rewrite S9.
    + destruct (notify_ready p1) as [|Hne]; [done|]. rewrite S4, S5 in Hne. by destruct Hne; eapply threads_all.
Qed.

(** ** Failing *)

Definition failed_worker (text : list byte) (w : worker) : worker :=
  set_current 0 (if wk_failed w then w else set_failed (take error_capacity text) w).

Lemma set_current_same w : wk_current w = 0 → set_current 0 w = w.
Proof. destruct w. simpl. by intros ->. Qed.

Lemma poll_ready_workers ws p : poll_ready (with_workers ws p) = poll_ready p.
Proof. done. Qed.

(** Before the pool is complete, nobody holds a job. *)
Lemma incomplete_idle p lq lc i w :
  running p lq lc → po_jobs p = ∅ → po_workers p !! i = Some w → wk_current w = 0.
Proof.
  intros Hr Hj Hi. destruct (decide (wk_current w = 0)) as [|Hne]; [done|].
  destruct (wp_current _ (rn_workers _ _ _ Hr) i w Hi Hne) as (_ & j & Hc & _). unfold cores in Hc. rewrite Hj in Hc. done.
Qed.

Lemma failed_idle_insert p i w' ws :
  failed_idle p → ws = <[i := w']> (po_workers p) → wk_current w' = 0 → ∀ k v, ws !! k = Some v → wk_failed v = true → wk_current v = 0.
Proof.
  intros Hf -> Hc k v Hk Hv. destruct (decide (k = i)) as [->|Hne].
  - apply list_lookup_insert_Some in Hk as [(_ & <- & _)|[? _]]; done.
  - rewrite list_lookup_insert_ne in Hk by done. by eapply Hf.
Qed.

(** A worker lets go of its job, if it has one. *)
Lemma release_ok i w kind p lq lc :
  running p lq lc → po_workers p !! i = Some w → kind ≠ WORKER_SUCCESS →
  returns (if wk_current w =? 0 then Ok p else p' ← finish (wk_current w) kind p; update_worker i (set_current 0) p') (λ p',
    ∃ lc', running p' lq lc' ∧ moved (if wk_current w =? 0 then [] else [act_complete i kind []]) p lq lc p' lq lc' ∧
      po_workers p' = <[i := set_current 0 w]> (po_workers p) ∧
      po_threads p' = po_threads p ∧ po_alive p' = po_alive p ∧ po_options p' = po_options p ∧ po_stopping p' = po_stopping p ∧
      (ready_ok p → ready_ok p') ∧ (waiting_ok p lq → waiting_ok p' lq)).
Proof.
  intros Hr Hi Hk. destruct (N.eqb_spec (wk_current w) 0) as [Hz|Hne].
  - apply returns_Ok. exists lc. split_and!; try done; [by apply moved_refl|].
    rewrite set_current_same by done. symmetry. by apply list_insert_id.
  - pose proof Hr as [Hj Hw Hf]. destruct (wp_current _ Hw i w Hi Hne) as (_ & j & Hc & Hd & Ha).
    eapply returns_weaken; [apply (complete_ok i w kind p lq lc j); eauto; done|].
    intros p' (Hr' & Hm & p1 & [S1 S2 S3 S4 S5 S6 S7 S8 S9] & Hready & Hcores & ->). exists (lc ++ [wk_current w]). simpl.
    rewrite (proj2 (N.eqb_neq _ _) Hk) in Hm. split_and!; try done.
    + unfold ready_ok. simpl. unfold length_N. rewrite length_insert, S5. intros Hro.
      case_decide; [done|]. destruct Hro as [Hno _]. destruct Hne. exact (incomplete_idle p lq lc i w Hr Hno Hi).
    + intros Hwait id j' Hid. change (cores (with_workers _ p1)) with (cores p1). rewrite Hcores, lookup_insert_ne; [by apply Hwait|].
      intros Heq. subst id. apply (jk_queued _ _ _ _ _ _ (jo_job _ _ _ Hj _ _ Hc)) in Hid as [_ ?]. congruence.
Qed.

(** Worker [i] lets go of the job it holds, if any, and then waiting jobs may end. *)
Definition lets_go (held : bool) (i : nat) (kind : N) (l : list mailbox_action) : Prop :=
  ∃ l', l = (if held then [act_complete i kind []] else []) ++ l' ∧ Forall (retired WORKER_FAILED) l'.

Lemma failure_ok i w text p lq lc :
  pool_ok p lq lc → po_workers p !! i = Some w → N.of_nat i < po_threads p → wk_exited w = false →
  returns (failure i text p) (λ p',
    settles (lets_go (negb (wk_current w =? 0)) i WORKER_FAILED) p lq lc p' ∧ po_workers p' = <[i := failed_worker text w]> (po_workers p) ∧
    po_threads p' = po_threads p).
Proof.
  intros Hok Hi Hlt He. unfold failure, load_worker. rewrite Hi, load_Some, bind_Ok.
  assert (i < length (po_workers p))%nat as Hlen by by eapply lookup_lt_Some.
  set (w1 := if wk_failed w then w else set_failed (take error_capacity text) w).
  set (p1 := with_workers (<[i := w1]> (po_workers p)) p).
  assert ((if wk_failed w then Ok p else update_worker i (set_failed (take error_capacity text)) p) = Ok p1) as ->.
  { unfold p1, w1. destruct (wk_failed w); [rewrite list_insert_id by done; by destruct p|by rewrite (update_worker_ok _ _ _ w)]. }
  rewrite bind_Ok. assert (wk_current w1 = wk_current w ∧ wk_exited w1 = wk_exited w) as [Hc1 He1] by (unfold w1; by destruct (wk_failed w)).
  destruct (flags_ok i w w1 p lq lc (pk_running _ _ _ Hok) Hi Hc1) as [Hr1 Hm1]; [congruence|].
  assert (po_workers p1 !! i = Some w1) as Hi1 by (unfold p1; simpl; by rewrite list_lookup_insert_eq). rewrite <-Hc1.
  destruct (release_ok i w1 WORKER_FAILED p1 lq lc Hr1 Hi1) as (p2 & -> & lc2 & Hr2 & Hm2 & Hw2 & Ht2 & Ha2 & Ho2 & Hst2 & Hre2 & Hwt2); [done|].
  rewrite bind_Ok. assert (po_workers p2 = <[i := failed_worker text w]> (po_workers p)) as Hws.
  { rewrite Hw2. unfold p1. simpl. by rewrite list_insert_insert_eq. }
  assert (ready_ok p1) as Hready1.
  { pose proof (pk_ready _ _ _ Hok) as H. unfold ready_ok in *. simpl. unfold length_N in *. by rewrite length_insert. }
  eapply returns_weaken; [apply (stop_if_unavailable_ok p2 lq lc2)|].
  - done.
  - unfold pool_threads. rewrite Hws, Ht2, Ha2, Ho2. eapply threads_insert; [apply Hok|done|done|].
    unfold failed_worker. simpl. fold w1. congruence.
  - unfold failed_idle. by eapply (failed_idle_insert p i (failed_worker text w)); [apply Hok|done|].
  - apply Hwt2, Hok.
  - rewrite Hst2. apply Hok.
  - auto.
  - intros p' (Hs & Hw' & Ht'). rewrite Hw', Ht', Hws, Ht2. split_and!; try done.
    eapply settles_moved; [exact (moved_nil_l _ _ _ _ _ _ _ _ Hm1 Hm2)|exact Hs|]. intros l Hl. exists l. rewrite Hc1. by destruct (wk_current w =? 0).
Qed.

(** ** Cancelling *)

Lemma job_ok_cancelled o next lq lc id j : job_ok o next lq lc id j → job_ok o next lq lc id (set_cancelled j).
Proof. by intros []. Qed.

Lemma dom_insert_same (cs : gmap N job) id j j' : cs !! id = Some j → dom (<[id := j']> cs) = dom cs.
Proof. intros H%(elem_of_dom_2 (D:=gset N)). rewrite dom_insert_L. set_solver. Qed.

(** Asking for the cancellation of a job that is not done. *)
Lemma request_view p p' id j lq lc :
  running p lq lc → cores p !! id = Some j → jb_done j = false → cores p' = <[id := set_cancelled j]> (cores p) →
  po_workers p' = po_workers p → po_next_job p' = po_next_job p →
  moved (if jb_active j then [act_request id] else []) p lq lc p' lq lc.
Proof.
  intros [Hj Hw _] Hc Hd Hc' Hw' Hn'. unfold moved, view_of. rewrite Hc', Hw', Hn'. set (cs' := <[id := set_cancelled j]> (cores p)).
  pose proof (jo_job _ _ _ Hj id j Hc) as Hjob.
  assert (∀ a, input_of cs' a = input_of (cores p) a) as Hin.
  { intros a. unfold input_of, cs'. destruct (decide (a = id)) as [->|Hn]; [by rewrite lookup_insert_eq, Hc|by rewrite lookup_insert_ne]. }
  unfold view. rewrite (waiting_frame (cores p) cs') by auto.
  rewrite (outcome_frame (cores p) cs').
  2: { intros a Ha. unfold cs'. rewrite lookup_insert_ne; [done|]. intros <-. apply (jk_completed _ _ _ _ _ _ Hjob) in Ha. congruence. }
  destruct (jb_active j) eqn:Ha.
  - destruct (wp_held _ Hw id j Hc Hd Ha) as (i & w & Hi & Hcur).
    assert (wk_current w ≠ 0) as Hne by (destruct (jk_id _ _ _ _ _ _ Hjob); rewrite Hcur; lia).
    assert (held_by cs' <$> po_workers p = <[i := Some (id, jb_input j, true)]> (held_by (cores p) <$> po_workers p)) as ->.
    { apply list_eq. intros k. rewrite list_lookup_fmap. destruct (decide (k = i)) as [->|Hki].
      - rewrite list_lookup_insert_eq by (rewrite length_fmap; by eapply lookup_lt_Some). rewrite Hi. simpl. unfold held_by.
        rewrite (proj2 (N.eqb_neq _ _) Hne), Hin, Hcur. unfold input_of, cs'. by rewrite lookup_insert_eq, Hc.
      - rewrite list_lookup_insert_ne, list_lookup_fmap by done. destruct (po_workers p !! k) as [v|] eqn:Hk; [|done]. simpl. f_equal.
        unfold held_by. rewrite Hin. destruct (N.eqb_spec (wk_current v) 0) as [|Hnev]; [done|]. unfold cs'. rewrite lookup_insert_ne; [done|].
        intros Heq. apply Hki, (wp_unique _ Hw k i v w); congruence. }
    apply run_one. eapply (step_request i id (jb_input j) (jb_cancelled j)). rewrite list_lookup_fmap, Hi. simpl. unfold held_by, input_of.
    by rewrite (proj2 (N.eqb_neq _ _) Hne), Hcur, Hc.
  - rewrite (held_frame (cores p) cs'); [apply run_nil|]. intros w [i Hi]%list_elem_of_lookup_1 Hne. unfold cs'. rewrite lookup_insert_ne; [done|].
    intros Heq. destruct (wp_current _ Hw i w Hi Hne) as (_ & j' & Hj' & _ & Ha'). rewrite <-Heq in Hj'. congruence.
Qed.

Lemma request_ok id p lq lc j :
  running p lq lc → cores p !! id = Some j → jb_done j = false →
  returns (update_job id set_cancelled p) (λ p', running p' lq lc ∧
    moved (if jb_active j then [act_request id] else []) p lq lc p' lq lc ∧ same_rest p p' ∧
    cores p' = <[id := set_cancelled j]> (cores p) ∧ po_readiness p' = po_readiness p ∧ ∀ q, head_of q p' = head_of q p).
Proof.
  intros Hr Hc Hd. pose proof Hr as [Hj Hw Hf].
  eapply returns_weaken; [apply (update_fields_ok id set_cancelled p _ j keeps_cancelled (jo_queues _ _ _ Hj) Hc)|].
  intros p' (Hq & Hc' & Hs & Hrd & Hh). split_and!; [|eapply request_view; [done|done|done|done|apply Hs|apply Hs]|done..].
  pose proof Hs as [S1 S2 S3 S4 S5 S6 S7 S8 S9]. split.
  - constructor; rewrite ?S2, ?S6, ?S7, ?Hc'; try apply Hj; [done| | |].
    + intros id' j'. destruct (decide (id' = id)) as [->|Hne].
      * rewrite lookup_insert_eq. intros [= <-]. by apply job_ok_cancelled, Hj.
      * rewrite lookup_insert_ne by done. apply Hj.
    + rewrite (total_replace _ _ j) by done. apply Hj.
    + rewrite (cores_size p p'); [apply Hj|]. by rewrite Hc', (dom_insert_same _ _ j).
  - constructor; rewrite ?S4, ?Hc'.
    + intros i w Hi Hne. destruct (wp_current _ Hw i w Hi Hne) as (He & j' & Hj' & Hd' & Ha'). split; [done|].
      destruct (decide (wk_current w = id)) as [Heq|Hn].
      * exists (set_cancelled j). rewrite Heq, lookup_insert_eq. rewrite Heq, Hc in Hj'. injection Hj' as <-. by split_and!.
      * exists j'. by rewrite lookup_insert_ne.
    + apply Hw.
    + intros id' j'. destruct (decide (id' = id)) as [->|Hn].
      * rewrite lookup_insert_eq. intros [= <-] Hd' Ha'. by apply (wp_held _ Hw id j).
      * rewrite lookup_insert_ne by done. apply Hw.
  - intros id' j'. rewrite Hc'. destruct (decide (id' = id)) as [->|Hn].
    + rewrite lookup_insert_eq. intros [= <-] _. by apply (Hf id j).
    + rewrite lookup_insert_ne by done. apply Hf.
Qed.

Lemma poll_ready_same p p' :
  head_of completed p' = head_of completed p → dom (cores p') = dom (cores p) → po_stopping p' = po_stopping p →
  po_alive p' = po_alive p → poll_ready p' = poll_ready p.
Proof.
  intros Hh Hd Hs Ha. unfold poll_ready. simpl in Hh. rewrite Hh, Hs, Ha.
  assert (po_jobs p' = ∅ ↔ po_jobs p = ∅) as Hiff.
  { unfold cores in Hd. rewrite !dom_fmap_L in Hd. by rewrite <-!(dom_empty_iff_L (D:=gset N)), Hd. }
  by rewrite (bool_decide_ext _ _ Hiff).
Qed.

(** What cancelling job [j] does: a job that a worker holds is told, a job that waits ends. *)
Definition cancels (id : N) (j : job) : list mailbox_action :=
  if jb_done j then [] else if jb_active j then [act_request id] else [act_retire id WORKER_CANCELLED].

Lemma cancel_job_ok id p lq lc j :
  running p lq lc → cores p !! id = Some j →
  returns (cancel_job id p) (λ p', ∃ lc', running p' (without id lq) lc' ∧
    moved (cancels id j) p lq lc p' (without id lq) lc' ∧ same_rest p p' ∧
    (∃ j', cores p' !! id = Some j' ∧ (jb_done j' = true ∨ jb_cancelled j' = true)) ∧
    dom (cores p') = dom (cores p) ∧ (po_readiness p = poll_ready p → po_readiness p' = poll_ready p') ∧
    ∀ a, a ≠ id → cores p' !! a = cores p !! a).
Proof.
  intros Hr Hc. pose proof (jo_job _ _ _ (rn_jobs _ _ _ Hr) id j Hc) as Hjob.
  pose proof Hc as Hc0. unfold cores in Hc0. rewrite lookup_fmap in Hc0. destruct (po_jobs p !! id) as [j0|] eqn:Hj0; [|done].
  apply (inj Some) in Hc0. unfold cancel_job, load_job. rewrite Hj0, load_Some, bind_Ok.
  assert (jb_done j0 = jb_done j ∧ jb_active j0 = jb_active j) as [-> ->] by (by rewrite <-Hc0; destruct j0).
  unfold cancels. destruct (jb_done j) eqn:Hd.
  - apply returns_Ok. exists lc. rewrite without_none by (rewrite (jk_queued _ _ _ _ _ _ Hjob); intros [? _]; congruence).
    split_and!; first [done|by apply moved_refl|apply same_rest_refl|exists j; by split; [|left]].
  - destruct (request_ok id p lq lc j Hr Hc Hd) as (p1 & -> & Hr1 & Hm1 & Hs1 & Hc1 & Hrd1 & Hh1). rewrite bind_Ok.
    assert (dom (cores p1) = dom (cores p)) as Hdom1 by (by rewrite Hc1, (dom_insert_same _ _ j)).
    destruct (jb_active j) eqn:Ha.
    + apply returns_Ok. exists lc. rewrite without_none by (rewrite (jk_queued _ _ _ _ _ _ Hjob); intros [_ ?]; congruence).
      split_and!; try done; [exists (set_cancelled j); rewrite Hc1, lookup_insert_eq; by split; [|right]
        |rewrite Hrd1; intros ->; symmetry; apply poll_ready_same; [apply Hh1|done|apply Hs1..]|].
      intros a Hne. by rewrite Hc1, lookup_insert_ne.
    + assert (id ∈ lq) as Hq by (by apply (jk_queued _ _ _ _ _ _ Hjob)).
      destruct (finish_ok id WORKER_CANCELLED p1 lq lc (set_cancelled j)) as (p2 & Hf2 & _ & [Hc2 _ Hready]);
        [apply Hr1|by rewrite Hc1, lookup_insert_eq|done|].
      destruct (retire_ok id WORKER_CANCELLED p1 lq lc Hr1 Hq) as (p3 & Hf3 & Hr3 & Hs3 & Hm3 & Hd3 & Ho3); [done|].
      rewrite Hf2 in Hf3. injection Hf3 as <-. rewrite Hf2. apply returns_Ok. exists (lc ++ [id]).
      split_and!; [done|exact (moved_nil_l _ _ _ _ _ _ _ _ Hm1 Hm3)|by eapply same_rest_trans| |congruence|done|].
      { exists (finished_job WORKER_CANCELLED (set_cancelled j)). rewrite Hc2, lookup_insert_eq. by split; [|left]. }
      intros a Hne. rewrite Ho3 by done. by rewrite Hc1, lookup_insert_ne.
Qed.

Lemma elem_of_job_ids p id : id ∈ job_ids p ↔ is_Some (cores p !! id).
Proof.
  unfold job_ids. rewrite merge_sort_Permutation, list_elem_of_fmap. unfold cores. rewrite lookup_fmap, fmap_is_Some. split.
  - intros ([k j] & -> & Hin%elem_of_map_to_list). by eexists.
  - intros [j Hj]. exists (id, j). split; [done|by apply elem_of_map_to_list].
Qed.

(** Every action of a stop asks for a cancellation or cancels a waiting job. *)
Definition stopped (a : mailbox_action) : Prop := ∃ id, a = act_request id ∨ a = act_retire id WORKER_CANCELLED.

Lemma cancels_stopped id j : Forall stopped (cancels id j).
Proof. unfold cancels. repeat case_match; repeat constructor; eexists; eauto. Qed.

Lemma stop_ok p lq lc :
  pool_ok p lq lc →
  returns (stop p) (λ p', settles (Forall stopped) p lq lc p' ∧
    po_stopping p' = true ∧ ∀ id j, cores p' !! id = Some j → jb_done j = true ∨ jb_cancelled j = true).
Proof.
  intros Hok. unfold stop. set (p0 := with_stopping p).
  destruct (returns_loop (λ done p', ∃ l lq' lc', Forall stopped l ∧ running p' lq' lc' ∧ moved l p lq lc p' lq' lc' ∧ same_rest p0 p' ∧
    dom (cores p') = dom (cores p0) ∧ (∀ a, a ∈ lq' → a ∈ lq ∧ a ∉ done) ∧
    ∀ a j, a ∈ done → cores p' !! a = Some j → jb_done j = true ∨ jb_cancelled j = true) (job_ids p0) cancel_job p0)
    as (p1 & -> & l1 & lq1 & lc1 & Hl1 & Hr1 & Hm1 & Hs1 & Hd1 & Hq1 & Hall1).
  - intros done id p' Hid (l & lq' & lc' & Hl & Hr' & Hm' & Hs' & Hd' & Hq' & Hall').
    assert (is_Some (cores p' !! id)) as [j Hj].
    { apply elem_of_job_ids in Hid. rewrite <-(elem_of_dom (D:=gset N)) in Hid |- *. by rewrite Hd'. }
    eapply returns_weaken; [apply (cancel_job_ok id p' lq' lc' j Hr' Hj)|].
    intros p'' (lc'' & Hr'' & Hm'' & Hs'' & (j' & Hj' & Hend) & Hd'' & _ & Hsame). exists (l ++ cancels id j), (without id lq'), lc''.
    split_and!; [apply Forall_app; split; [done|apply cancels_stopped]|done|by eapply moved_app|by eapply same_rest_trans|congruence| |].
    + intros a [Hne Ha]%elem_of_without. destruct (Hq' a Ha). split; [done|]. set_solver.
    + intros a ja Ha Hja. destruct (decide (a = id)) as [->|Hne]; [congruence|]. rewrite Hsame in Hja by done. apply (Hall' a); [set_solver|done].
  - exists [], lq, lc. split_and!; [by apply Forall_nil|apply running_stopping, Hok|by apply moved_refl|apply same_rest_refl|done|set_solver|].
    by intros a j ?%elem_of_nil.
  - rewrite bind_Ok. apply returns_Ok. assert (lq1 = []) as ->.
    { destruct lq1 as [|a lq1]; [done|]. destruct (Hq1 a ltac:(by left)) as [Ha Hno]. destruct Hno. apply elem_of_job_ids.
      exact (listed p lq lc queued a (jo_queues _ _ _ (rn_jobs _ _ _ (pk_running _ _ _ Hok))) Ha). }
    assert (∀ id j, cores p1 !! id = Some j → jb_done j = true ∨ jb_cancelled j = true) as Hend.
    { intros id j Hj. apply (Hall1 id); [|done]. apply elem_of_job_ids, (elem_of_dom (D:=gset N)). rewrite <-Hd1. by eapply elem_of_dom_2. }
    split_and!; [|by apply (sr_stopping _ _ Hs1)|exact Hend].
    exists l1, [], lc1. split_and!; [done| |exact Hm1]. destruct Hs1 as [S1 S2 S3 S4 S5 S6 S7 S8 S9]. simpl in *. constructor.
    + by apply running_notify.
    + unfold pool_threads. simpl. rewrite S4, S5, S8, S2. apply Hok.
    + unfold failed_idle. simpl. rewrite S4. apply Hok.
    + by intros id j ?%elem_of_nil.
    + done.
    + simpl. by rewrite S9.
    + destruct (notify_ready p1) as [|Hne]; [done|]. rewrite S4, S5 in Hne. unfold ready_ok. simpl. rewrite S4, S5.
      case_decide; [done|]. pose proof (pk_ready _ _ _ Hok) as Hrd. unfold ready_ok in Hrd. case_decide; [done|]. split; [|congruence].
      destruct Hrd as [Hno _]. unfold cores in Hd1. rewrite !dom_fmap_L in Hd1. simpl in Hd1.
      apply (dom_empty_iff_L (D:=gset N)). rewrite Hd1. by apply (dom_empty_iff_L (D:=gset N)).
Qed.
