(* ===== verification/WorkerSteps.v ===== *)
(** * Steps of a worker pool

    Submitting, receiving, replying, taking and the end of a thread, each with the rule of
    the mailbox it implements; then the runs of a pool as a transition system. *)

From S2P Require Import Prelude Storage Heap Slabs WorkerPool WorkerInvariant.
From S2P Require Import WorkerSafety.

Local Open Scope list_scope.
Local Open Scope N_scope.

(** ** Submitting *)

Lemma fresh_job p lq lc : jobs_ok p lq lc → cores p !! po_next_job p = None.
Proof.
  intros Hj. destruct (cores p !! po_next_job p) as [j|] eqn:Hc; [|done]. destruct (jk_id _ _ _ _ _ _ (jo_job _ _ _ Hj _ _ Hc)). lia.
Qed.

Lemma view_ids p lq lc id :
  running p lq lc → id ∈ mailbox_ids (view_of p lq lc) → is_Some (cores p !! id).
Proof.
  intros [Hj Hw _]. unfold mailbox_ids, view_of, view. simpl. rewrite !elem_of_app, list_elem_of_omap.
  intros [Hq|[(r & Hr & Hid)|Hc]].
  - rewrite <-list_fmap_compose in Hq. apply list_elem_of_fmap in Hq as (a & -> & Ha). exact (listed p lq lc queued a (jo_queues _ _ _ Hj) Ha).
  - apply list_elem_of_fmap in Hr as (w & -> & [i Hi]%list_elem_of_lookup_1). unfold held_by in Hid.
    destruct (N.eqb_spec (wk_current w) 0) as [|Hne]; [done|]. injection Hid as <-.
    destruct (wp_current _ Hw i w Hi Hne) as (_ & j & Hcj & _). by eexists.
  - rewrite <-list_fmap_compose in Hc. apply list_elem_of_fmap in Hc as (a & -> & Ha). exact (listed p lq lc completed a (jo_queues _ _ _ Hj) Ha).
Qed.

Definition new_job (p : pool) (bytes : list byte) : job :=
  mk_job (po_next_job p) (length_N bytes + wo_max_output_bytes (po_options p)) 0 0 WORKER_SUCCESS false false false bytes [].

(** The pool after an admitted submission. *)
Record admitted (p p' : pool) (bytes : list byte) : Prop := {
  ad_cores : cores p' = <[po_next_job p := new_job p bytes]> (cores p);
  ad_next : po_next_job p' = po_next_job p + 1;
  ad_reserved : po_reserved p' = po_reserved p + (length_N bytes + wo_max_output_bytes (po_options p));
  ad_readiness : po_readiness p' = po_readiness p;
  ad_options : po_options p' = po_options p;
  ad_workers : po_workers p' = po_workers p;
  ad_threads : po_threads p' = po_threads p;
  ad_alive : po_alive p' = po_alive p;
  ad_stopping : po_stopping p' = po_stopping p;
}.

Lemma admit_running p p' bytes lq lc :
  running p lq lc → admitted p p' bytes → queues p' (lists (lq ++ [po_next_job p]) lc) →
  length_N bytes ≤ wo_max_input_bytes (po_options p) → po_next_job p < u64_max →
  N.of_nat (base.size (po_jobs p)) < wo_max_outstanding (po_options p) →
  po_reserved p + (length_N bytes + wo_max_output_bytes (po_options p)) ≤ wo_max_reserved_bytes (po_options p) →
  running p' (lq ++ [po_next_job p]) lc.
Proof.
  intros [Hj Hw Hf] [A1 A2 A3 A4 A5 A6 A7 A8 A9] Hq Hin Hnext Hsize Hres. pose proof (fresh_job p lq lc Hj) as Hfresh.
  destruct (not_listed p lq lc _ Hj Hfresh) as [Hnq Hnc]. split.
  - constructor; rewrite ?A2, ?A3, ?A5, ?A1; try apply Hj; [done| |split; [|lia]|split; [|done]|].
    + intros id j. destruct (decide (id = po_next_job p)) as [->|Hne].
      * rewrite lookup_insert_eq. intros [= <-]. destruct (jo_next _ _ _ Hj). constructor; simpl; try done.
        -- split; [done|lia].
        -- apply length_nil.
        -- split; [done|]. intros _. set_solver.
      * rewrite lookup_insert_ne by done. intros Hc. destruct (jo_job _ _ _ Hj id j Hc) as [[K1 K1'] K2 K3 K4 K5 K6 K7]. constructor; try done.
        -- split; [done|lia].
        -- rewrite elem_of_app, list_elem_of_singleton, K6. tauto.
    + destruct (jo_next _ _ _ Hj). lia.
    + rewrite total_insert by done. simpl. destruct (jo_reserved _ _ _ Hj) as [-> _]. lia.
    + assert (base.size (po_jobs p') = S (base.size (po_jobs p))) as ->; [|lia].
      rewrite <-(map_size_fmap core (po_jobs p')), <-(map_size_fmap core (po_jobs p)). fold (cores p') (cores p).
      by rewrite A1, map_size_insert_None.
  - constructor; rewrite ?A6, ?A1.
    + intros i w Hi Hne. destruct (wp_current _ Hw i w Hi Hne) as (He & j & Hc & Hd & Ha). split; [done|]. exists j.
      rewrite lookup_insert_ne; [done|]. intros Heq. congruence.
    + apply Hw.
    + intros id j. destruct (decide (id = po_next_job p)) as [->|Hne]; [rewrite lookup_insert_eq; by intros [= <-]|].
      rewrite lookup_insert_ne by done. apply Hw.
  - intros id j. rewrite A1. destruct (decide (id = po_next_job p)) as [->|Hne]; [rewrite lookup_insert_eq; by intros [= <-]|].
    rewrite lookup_insert_ne by done. apply Hf.
Qed.

Lemma admit_view p p' bytes lq lc :
  running p lq lc → admitted p p' bytes → mailbox_step (act_submit bytes) (view_of p lq lc) (view_of p' (lq ++ [po_next_job p]) lc).
Proof.
  intros Hr [A1 A2 _ _ _ A6 _ _ _]. pose proof Hr as [Hj Hw Hf]. pose proof (fresh_job p lq lc Hj) as Hfresh.
  destruct (not_listed p lq lc _ Hj Hfresh) as [Hnq Hnc]. unfold view_of. rewrite A1, A2, A6. set (id := po_next_job p) in *.
  set (cs' := <[id := new_job p bytes]> (cores p)).
  assert (∀ a, a ≠ id → cs' !! a = cores p !! a) as Hsame by (intros a Hne; unfold cs'; by rewrite lookup_insert_ne).
  unfold view. rewrite fmap_app, (waiting_frame (cores p) cs' lq), (outcome_frame (cores p) cs' lc), (held_frame (cores p) cs').
  - simpl. assert (waiting_of cs' id = (id, bytes)) as -> by (unfold waiting_of, input_of, cs'; by rewrite lookup_insert_eq).
    apply step_submit.
  - intros w [i Hi]%list_elem_of_lookup_1 Hne. apply Hsame. intros Heq. destruct (wp_current _ Hw i w Hi Hne) as (_ & j & Hc & _). congruence.
  - intros a Ha. apply Hsame. by intros ->.
  - intros a Ha. unfold input_of. rewrite Hsame; [done|]. by intros ->.
Qed.

(** The last two statements of an admitted submission. *)
Lemma admit_ok p lq lc bytes :
  jobs_ok p lq lc → length_N bytes ≤ wo_max_input_bytes (po_options p) → po_next_job p < u64_max →
  po_reserved p + (length_N bytes + wo_max_output_bytes (po_options p)) ≤ wo_max_reserved_bytes (po_options p) →
  returns (p1 ← append queued (po_next_job p) (with_jobs (<[po_next_job p := new_job p bytes]> (po_jobs p)) p);
           Ok (with_counts (u64 (po_next_job p1 + 1)) (u64 (po_reserved p1 + (length_N bytes + wo_max_output_bytes (po_options p)))) p1))
    (λ p', admitted p p' bytes ∧ queues p' (lists (lq ++ [po_next_job p]) lc) ∧ head_of completed p' = head_of completed p).
Proof.
  intros Hj Hin Hnext Hres. pose proof (fresh_job p lq lc Hj) as Hfresh. destruct (not_listed p lq lc _ Hj Hfresh) as [Hnq Hnc].
  destruct (jo_next _ _ _ Hj) as [Hpos _]. set (id := po_next_job p) in *. set (p0 := with_jobs _ p).
  assert (queues p0 (lists lq lc)) as Hq0.
  { destruct (jo_queues _ _ _ Hj) as [Hl Hap]. split; [|done]. intros q.
    assert (linked (<[id := new_job p bytes]> (po_jobs p)) (head_of q p) (tail_of q p) (lists lq lc q)) as Hlk
      by (apply linked_insert; [by destruct q|apply Hl]). by destruct q. }
  destruct (append_ok queued id p0 _ Hq0) as (p1 & Hrun & Hr1 & Hq1).
  { unfold p0. simpl. rewrite lookup_insert_eq. by eexists. }
  { lia. }
  { by intros []. }
  rewrite Hrun, bind_Ok. apply returns_Ok. destruct Hr1 as [R1 R2 R3 R4 R5 R6 R7 R8 R9 R10 R11]. simpl in *.
  destruct (jo_options _ _ _ Hj) as (_ & _ & _ & _ & Hmax). assert (1024 * mib ≤ u64_max) as Hmib by done. split_and!.
  - constructor; simpl; try done.
    + unfold p0 in R1. unfold cores in *. simpl in *. rewrite R1. by rewrite fmap_insert.
    + rewrite R8. apply u64_small. lia.
    + rewrite R9. apply u64_small. lia.
  - eapply queues_ext; [|eapply queues_same, Hq1; [done|by intros []]]. by intros [].
  - simpl. destruct (qs_linked _ _ Hq1 completed) as [_ _ Hh1 _ _], (qs_linked _ _ (jo_queues _ _ _ Hj) completed) as [_ _ Hh _ _].
    simpl in *. congruence.
Qed.

(** The pool is complete: every worker has its thread. *)
Definition complete (p : pool) : Prop := po_threads p = length_N (po_workers p).

Lemma complete_ready p : complete p → ready_ok p ↔ po_readiness p = poll_ready p.
Proof. intros Hc. unfold ready_ok. by rewrite decide_True. Qed.

Lemma settles_refl (P : list mailbox_action → Prop) p lq lc : pool_ok p lq lc → P [] → settles P p lq lc p.
Proof. intros Hok HP. exists [], lq, lc. split_and!; [done|done|by apply moved_refl]. Qed.

(** What a call does to the mailbox if it succeeds; every other call does nothing to it. *)
Definition accepted (status : N) (l : list mailbox_action) : list mailbox_action := if status =? WORKER_OK then l else [].

Lemma accepted_refused status l : status ≠ WORKER_OK → [] = accepted status l.
Proof. intros Hs. unfold accepted. by rewrite (proj2 (N.eqb_neq _ _) Hs). Qed.

Lemma settles_refused status l p lq lc : pool_ok p lq lc → status ≠ WORKER_OK → settles (λ l', l' = accepted status l) p lq lc p.
Proof. intros Hok Hs. apply settles_refl; [done|by apply accepted_refused]. Qed.

Lemma submit_ok memory bytes p lq lc :
  pool_ok p lq lc → complete p →
  returns (submit memory bytes p) (λ '(status, id, p'),
    settles (λ l, l = accepted status [act_submit bytes]) p lq lc p' ∧
    (status = WORKER_OK → id = po_next_job p ∧ pool_ok p' (lq ++ [id]) lc ∧ cores p' !! id = Some (new_job p bytes)) ∧
    (status ≠ WORKER_OK → p' = p)).
Proof.
  intros Hok Hall. unfold submit.
  assert (∀ status, status ≠ WORKER_OK → returns (Ok (status, 0, p)) (λ '(status, id, p'),
    settles (λ l, l = accepted status [act_submit bytes]) p lq lc p' ∧
    (status = WORKER_OK → id = po_next_job p ∧ pool_ok p' (lq ++ [id]) lc ∧ cores p' !! id = Some (new_job p bytes)) ∧
    (status ≠ WORKER_OK → p' = p))) as Hrefuse.
  { intros status Hs. apply returns_Ok. split_and!; [by apply settles_refused|done|done]. }
  destruct (po_stopping p || (po_alive p =? 0)) eqn:Hst; [by apply Hrefuse|].
  destruct (N.ltb_spec (wo_max_input_bytes (po_options p)) (length_N bytes)) as [|Hin]; [by apply Hrefuse|]. cbv zeta.
  pose proof (pk_running _ _ _ Hok) as Hr. pose proof (rn_jobs _ _ _ Hr) as Hj.
  assert (u64 (length_N bytes + wo_max_output_bytes (po_options p)) = length_N bytes + wo_max_output_bytes (po_options p)) as ->.
  { apply u64_small. destruct (jo_options _ _ _ Hj) as (_ & _ & Hi & Ho & _). assert (128 * mib + 128 * mib ≤ u64_max) by done. lia. }
  match goal with |- context [if ?b then Ok (WORKER_FULL, _, _) else _] => destruct b eqn:Hfull end; [by apply Hrefuse|]. rewrite !orb_false_iff, N.leb_gt, !N.ltb_ge in Hfull. destruct Hfull as [[Hsize Hr1] Hr2].
  destruct (N.eqb_spec (po_next_job p) u64_max) as [|Hlast]; [by apply Hrefuse|]. destruct memory; cbn [negb]; [|by apply Hrefuse].
  destruct (jo_next _ _ _ Hj) as [_ Hnext]. change (mk_job _ _ 0 0 _ _ _ _ bytes []) with (new_job p bytes).
  destruct (admit_ok p lq lc bytes Hj Hin) as (p' & Hrun & Hadm & Hq & Hhead); [lia|lia|].
  apply bind_Ok_inv in Hrun as (p1 & Happ & Hrun). rewrite Happ, bind_Ok. injection Hrun as Hrun. rewrite Hrun. apply returns_Ok.
  assert (running p' (lq ++ [po_next_job p]) lc) as Hr' by (eapply admit_running; eauto; lia).
  apply orb_false_iff in Hst as [Hst Halive]. pose proof Hadm as [A1 A2 A3 A4 A5 A6 A7 A8 A9].
  assert (pool_ok p' (lq ++ [po_next_job p]) lc) as Hok'.
  { constructor; [done|..].
    - unfold pool_threads. rewrite A6, A7, A8, A5. apply Hok.
    - unfold failed_idle. rewrite A6. apply Hok.
    - intros id j Hid. rewrite A1. destruct (decide (id = po_next_job p)) as [->|Hne]; [rewrite lookup_insert_eq; by intros [= <-]|].
      rewrite lookup_insert_ne by done. apply (pk_waiting _ _ _ Hok). set_solver.
    - rewrite A9, Hst. done.
    - rewrite A6, A9. apply Hok.
    - apply complete_ready; [unfold complete; by rewrite A6, A7|]. rewrite A4. pose proof (proj1 (complete_ready p Hall) (pk_ready _ _ _ Hok)) as ->.
      unfold poll_ready. simpl in Hhead. rewrite Hhead, A9, A8, Hst, Halive, !andb_false_r. done. }
  split; [|split; [intros _; split_and!; [done|done|by rewrite A1, lookup_insert_eq]|done]].
  exists [act_submit bytes], (lq ++ [po_next_job p]), lc. split_and!; [done|done|]. by eapply run_one, admit_view.
Qed.

(** ** Polling and taking *)

Lemma notify_settles p lq lc : pool_ok p lq lc → complete p → notify p = p.
Proof.
  intros Hok Hall. unfold notify. rewrite <-(proj1 (complete_ready p Hall) (pk_ready _ _ _ Hok)). by destruct p.
Qed.

(** What [poll] says: the oldest outcome, or that there is none, now or for good. *)
Lemma poll_ok p lq lc :
  pool_ok p lq lc → complete p →
  poll p = Ok (match lc with
               | [] => (if bool_decide (po_jobs p = ∅) && (po_stopping p || (po_alive p =? 0)) then WORKER_STOPPED else WORKER_EMPTY, None)
               | id :: _ => let '(_, kind, output) := outcome_of (cores p) id in
                            (WORKER_OK, Some (mk_completion id (length_N output) kind))
               end, p).
Proof.
  intros Hok Hall. unfold poll. cbv zeta. rewrite (notify_settles p lq lc Hok Hall).
  pose proof (jo_queues _ _ _ (rn_jobs _ _ _ (pk_running _ _ _ Hok))) as Hq. destruct (qs_linked _ _ Hq completed) as [_ Hz Hh _ _]. simpl in *.
  destruct lc as [|id lc]; rewrite Hh.
  - simpl. unfold poll_ready. rewrite Hh. done.
  - unfold first. simpl. assert (id ≠ 0) as Hne by (intros ->; set_solver). rewrite (proj2 (N.eqb_neq _ _) Hne).
    destruct (queues_mapped _ _ completed id Hq ltac:(by left)) as [j Hj]. unfold load_job. rewrite Hj, load_Some. simpl.
    unfold outcome_of, cores. rewrite lookup_fmap, Hj. simpl.
    destruct (jk_id _ _ _ _ _ _ (jo_job _ _ _ (rn_jobs _ _ _ (pk_running _ _ _ Hok)) id (core j) (cores_lookup p id j Hj))) as [Hid _].
    simpl in Hid. by rewrite Hid.
Qed.

(** The pool after an outcome was taken. *)
Lemma taken_running p p' id j lq lc :
  running p lq lc → cores p !! id = Some j → jb_done j = true → cores p' = delete id (cores p) →
  queues p' (lists lq (without id lc)) → po_options p' = po_options p → po_next_job p' = po_next_job p →
  po_workers p' = po_workers p → po_reserved p' = po_reserved p - jb_reservation j → running p' lq (without id lc).
Proof.
  intros [Hj Hw Hf] Hc Hd Hc' Hq Ho Hn Hws Hres. split.
  - constructor; rewrite ?Ho, ?Hn, ?Hc'; try apply Hj; [done| | |].
    + intros id' j'. rewrite lookup_delete_Some. intros [Hne Hc'']. destruct (jo_job _ _ _ Hj id' j' Hc'') as [K1 K2 K3 K4 K5 K6 K7].
      constructor; try done. rewrite elem_of_without, K7. split; [by intros [_ ?]|by intros ?].
    + destruct (jo_reserved _ _ _ Hj) as [Hr Hle]. pose proof (total_delete _ _ _ Hc) as Ht. lia.
    + assert (base.size (po_jobs p') ≤ base.size (po_jobs p))%nat as Hs; [|pose proof (jo_size _ _ _ Hj); lia].
      rewrite <-(map_size_fmap core (po_jobs p')), <-(map_size_fmap core (po_jobs p)). fold (cores p') (cores p).
      rewrite Hc', map_size_delete, Hc. simpl. lia.
  - constructor; rewrite ?Hws, ?Hc'.
    + intros i w Hi Hne. destruct (wp_current _ Hw i w Hi Hne) as (He & j' & Hcj & Hd' & Ha). split; [done|]. exists j'.
      rewrite lookup_delete_ne; [done|]. intros ->. congruence.
    + apply Hw.
    + intros id' j' [_ Hc'']%lookup_delete_Some. by apply Hw.
  - intros id' j'. rewrite Hc'. intros [_ Hc'']%lookup_delete_Some. by apply (Hf id').
Qed.

Lemma taken_view p p' id j lq lc :
  running p lq lc → cores p !! id = Some j → jb_done j = true → cores p' = delete id (cores p) → po_workers p' = po_workers p →
  po_next_job p' = po_next_job p →
  mailbox_step (act_take id (jb_kind j) (jb_output j)) (view_of p lq lc) (view_of p' lq (without id lc)).
Proof.
  intros [Hj Hw _] Hc Hd Hc' Hws Hn. pose proof (jo_job _ _ _ Hj id j Hc) as Hjob. unfold view_of. rewrite Hc', Hws, Hn.
  pose proof (proj2 (jk_completed _ _ _ _ _ _ Hjob) Hd) as Hin.
  pose proof (lk_nodup _ _ _ _ (qs_linked _ _ (jo_queues _ _ _ Hj) completed)) as Hnd. simpl in Hnd.
  apply list_elem_of_split in Hin as (l1 & l2 & ->). rewrite without_split by done. pose proof Hnd as (_ & Hx & [Hy _]%NoDup_cons)%NoDup_app.
  unfold view. rewrite (waiting_frame (cores p) (delete id (cores p)) lq), (outcome_frame (cores p) (delete id (cores p)) (l1 ++ l2)),
    (held_frame (cores p) (delete id (cores p))).
  - rewrite !fmap_app. simpl. unfold outcome_of at 2. rewrite Hc. apply step_take.
  - intros w [i Hi]%list_elem_of_lookup_1 Hne. rewrite lookup_delete_ne; [done|]. intros ->.
    destruct (wp_current _ Hw i w Hi Hne) as (_ & j' & Hcj & Hd' & _). congruence.
  - intros a Ha. rewrite lookup_delete_ne; [done|]. intros ->. apply elem_of_app in Ha as [Ha|Ha]; [apply (Hx a Ha); by left|done].
  - intros a Ha. unfold input_of. rewrite lookup_delete_ne; [done|]. intros <-. apply (jk_queued _ _ _ _ _ _ Hjob) in Ha as [? _]. congruence.
Qed.

(** What [take] does: it hands out the output and removes the job, or changes nothing. *)
Lemma take_job_ok ticket output capacity p lq lc :
  pool_ok p lq lc → complete p →
  returns (take_job ticket output capacity p) (λ '(status, bytes, p'),
    settles (λ l, ∃ kind, l = accepted status [act_take ticket kind bytes]) p lq lc p' ∧
    (status = WORKER_OK → ∃ j, cores p !! ticket = Some j ∧ jb_done j = true ∧ bytes = jb_output j ∧
       cores p' = delete ticket (cores p) ∧ pool_ok p' lq (without ticket lc) ∧ complete p' ∧ po_stopping p' = po_stopping p) ∧
    (status ≠ WORKER_OK → p' = p)).
Proof.
  intros Hok Hall. unfold take_job. pose proof (pk_running _ _ _ Hok) as Hr. pose proof (rn_jobs _ _ _ Hr) as Hj.
  assert (∀ status, status ≠ WORKER_OK → returns (Ok (status, [], p)) (λ '(status, bytes, p'),
    settles (λ l, ∃ kind, l = accepted status [act_take ticket kind bytes]) p lq lc p' ∧
    (status = WORKER_OK → ∃ j, cores p !! ticket = Some j ∧ jb_done j = true ∧ bytes = jb_output j ∧
       cores p' = delete ticket (cores p) ∧ pool_ok p' lq (without ticket lc) ∧ complete p' ∧ po_stopping p' = po_stopping p) ∧
    (status ≠ WORKER_OK → p' = p))) as Hrefuse.
  { intros status Hs. apply returns_Ok. split_and!; [apply settles_refl; [done|exists 0; by apply accepted_refused]|done|done]. }
  destruct (po_jobs p !! ticket) as [j|] eqn:Hlookup; [|by apply Hrefuse].
  destruct (jb_done j) eqn:Hd; [|by apply Hrefuse]. cbn [negb]. destruct (_ <? _); [by apply Hrefuse|].
  destruct (_ && _); [by apply Hrefuse|]. pose proof (cores_lookup p ticket j Hlookup) as Hc.
  assert (ticket ∈ lc) as Hin by (by apply (jk_completed _ _ _ _ _ _ (jo_job _ _ _ Hj _ _ Hc))).
  assert (ticket ∉ lq) as Hnq by (intros Hq; apply (jk_queued _ _ _ _ _ _ (jo_job _ _ _ Hj _ _ Hc)) in Hq as [? _]; simpl in *; congruence).
  destruct (unlink_ok completed ticket p _ (jo_queues _ _ _ Hj) Hin) as (p1 & -> & [R1 R2 R3 R4 R5 R6 R7 R8 R9 R10 R11] & Hq1).
  rewrite bind_Ok. cbv zeta. apply returns_Ok. set (p2 := with_jobs _ _).
  assert (jb_reservation j ≤ po_reserved p) as Hle.
  { destruct (jo_reserved _ _ _ Hj) as [-> _]. rewrite (total_delete _ _ _ Hc). simpl. lia. }
  assert (po_reserved p ≤ u64_max) as Hmax.
  { destruct (jo_reserved _ _ _ Hj) as [_ Hres], (jo_options _ _ _ Hj) as (_ & _ & _ & _ & Hm).
    assert (1024 * mib ≤ u64_max) by done. lia. }
  assert (cores p2 = delete ticket (cores p)) as Hc2 by (unfold cores at 1, p2; simpl; by rewrite fmap_delete, <-R1).
  assert (queues p2 (lists lq (without ticket lc))) as Hq2.
  { destruct Hq1 as [Hl1 Hap1]. split; [|intros [] a; [exact (Hap1 queued a)|exact (Hap1 completed a)]].
    intros q. assert (linked (delete ticket (po_jobs p1)) (head_of q p1) (tail_of q p1) (removed_lists completed ticket (lists lq lc) q)) as Hlk.
    { eapply linked_frame; [|apply Hl1]. intros a Ha. rewrite lookup_delete_ne; [done|]. intros <-.
      destruct q; simpl in Ha; [done|]. by apply elem_of_without in Ha as [? _]. }
    by destruct q. }
  assert (po_reserved p2 = po_reserved p - jb_reservation j) as Hr2 by (unfold p2; simpl; by rewrite R9, u64_sub_small).
  assert (running p2 lq (without ticket lc)) as Hrun2.
  { eapply (taken_running p p2 ticket (core j)); try done; unfold p2; simpl; congruence. }
  assert (pool_ok (notify p2) lq (without ticket lc)) as Hok'.
  { constructor.
    - by apply running_notify.
    - unfold pool_threads. simpl. rewrite R6, R7, R10, R4. apply Hok.
    - unfold failed_idle. simpl. rewrite R6. apply Hok.
    - intros id j' Hid. change (cores (notify p2)) with (cores p2). rewrite Hc2. intros [_ Hc']%lookup_delete_Some.
      by apply (pk_waiting _ _ _ Hok id).
    - simpl. rewrite R11. apply Hok.
    - simpl. rewrite R6, R11. apply Hok.
    - apply complete_ready; [|done]. unfold complete in *. simpl. by rewrite R6, R7. }
  assert (complete (notify p2) ∧ po_stopping (notify p2) = po_stopping p) as [Hall' Hst'] by (unfold complete in *; simpl; by rewrite R6, R7, R11).
  split_and!; [|intros _; exists (core j); by split_and!|done].
  exists [act_take ticket (jb_kind j) (jb_output j)], lq, (without ticket lc). split_and!; [by exists (jb_kind j)|done|].
  apply run_one. by eapply (taken_view p (notify p2) ticket (core j)).
Qed.

Lemma cancel_ok ticket p lq lc :
  pool_ok p lq lc → complete p → returns (cancel ticket p) (λ '(_, p'),
    settles (λ l, l = from_option (cancels ticket) [] (cores p !! ticket)) p lq lc p').
Proof.
  intros Hok Hall. unfold cancel. destruct (po_jobs p !! ticket) as [j|] eqn:Hj.
  2: { apply returns_Ok. apply settles_refl; [done|]. unfold cores. by rewrite lookup_fmap, Hj. }
  pose proof (cores_lookup p ticket j Hj) as Hc. rewrite Hc. cbn [from_option].
  destruct (cancel_job_ok ticket p lq lc _ (pk_running _ _ _ Hok) Hc) as (p' & -> & lc' & Hr' & Hm' & Hs' & _ & Hd' & Hrd' & Hsame').
  rewrite bind_Ok. apply returns_Ok. exists (cancels ticket (core j)), (without ticket lq), lc'. split_and!; [done| |done]. destruct Hs' as [S1 S2 S3 S4 S5 S6 S7 S8 S9]. constructor.
  - done.
  - unfold pool_threads. rewrite S4, S5, S8, S2. apply Hok.
  - unfold failed_idle. rewrite S4. apply Hok.
  - intros id j' [Hne Hid]%elem_of_without. rewrite Hsame' by done. by apply Hok.
  - rewrite S9. intros Hst. by rewrite (pk_stopping _ _ _ Hok Hst).
  - rewrite S4, S9. apply Hok.
  - apply complete_ready; [unfold complete in *; by rewrite S4, S5|]. apply Hrd'. by apply complete_ready, Hok.
Qed.

(** ** The worker's side *)

(** The thread of worker [i] is running. *)
Definition in_thread (p : pool) (i : nat) (w : worker) : Prop :=
  po_workers p !! i = Some w ∧ N.of_nat i < po_threads p ∧ wk_exited w = false.

(** Setting a flag that makes no worker unavailable. *)
Lemma set_flag_ok i w w' p lq lc :
  pool_ok p lq lc → in_thread p i w → wk_current w' = wk_current w → wk_exited w' = false → wk_failed w' = wk_failed w →
  settles quiet p lq lc (with_workers (<[i := w']> (po_workers p)) p).
Proof.
  intros Hok (Hi & Hlt & He) Hc He' Hf'. assert (i < length (po_workers p))%nat as Hlen by by eapply lookup_lt_Some.
  destruct (flags_ok i w w' p lq lc (pk_running _ _ _ Hok) Hi Hc ltac:(done)) as [Hr Hm].
  exists [], lq, lc. split_and!; [done| |done]. constructor; try apply Hok.
  - done.
  - unfold pool_threads. simpl. eapply threads_insert; [apply Hok|done|done|congruence].
  - intros k v. simpl. destruct (decide (k = i)) as [->|Hne].
    + rewrite list_lookup_insert_eq by done. intros [= <-]. rewrite Hf', Hc. by apply (pk_failed _ _ _ Hok i).
    + rewrite list_lookup_insert_ne by done. apply Hok.
  - simpl. intros Hno. apply (pk_unavailable _ _ _ Hok). rewrite <-not_true_iff_false in Hno |- *. intros Hex. apply Hno.
    apply existsb_exists in Hex as (v & [k Hk]%list_elem_of_In%list_elem_of_lookup_1 & Hv). apply existsb_exists.
    destruct (decide (k = i)) as [->|Hne].
    + exists w'. split; [apply list_elem_of_In; eapply list_elem_of_lookup_2; by rewrite list_lookup_insert_eq|].
      rewrite Hi in Hk. injection Hk as <-. unfold available in *. by rewrite He', Hf', <-He.
    + exists v. split; [|done]. apply list_elem_of_In. eapply (list_elem_of_lookup_2 _ k). by rewrite list_lookup_insert_ne.
  - pose proof (pk_ready _ _ _ Hok) as H. unfold ready_ok in *. simpl. unfold length_N in *. by rewrite length_insert.
Qed.

Lemma worker_ready_ok i w p lq lc :
  pool_ok p lq lc → in_thread p i w → returns (worker_ready i p) (λ '(_, p'), settles quiet p lq lc p').
Proof.
  intros Hok Hth. pose proof Hth as (Hi & Hlt & He). unfold worker_ready, load_worker. rewrite Hi, load_Some, bind_Ok.
  destruct (_ || _); [apply returns_Ok; by apply settles_refl|]. destruct (po_stopping p); [apply returns_Ok; by apply settles_refl|].
  rewrite (update_worker_ok i _ p w Hi), bind_Ok. apply returns_Ok. by eapply set_flag_ok.
Qed.

(** *** Receiving *)

Lemma received_running p p' i w id j lq lc :
  running p (id :: lq) lc → cores p !! id = Some j → po_workers p !! i = Some w → wk_current w = 0 → wk_exited w = false →
  cores p' = <[id := set_job_active j]> (cores p) → queues p' (lists lq lc) → po_options p' = po_options p →
  po_next_job p' = po_next_job p → po_workers p' = <[i := set_current id w]> (po_workers p) → po_reserved p' = po_reserved p →
  running p' lq lc.
Proof.
  intros [Hj Hw Hf] Hc Hi Hcur He Hc' Hq Ho Hn Hws Hres. assert (i < length (po_workers p))%nat as Hlen by by eapply lookup_lt_Some.
  pose proof (jo_job _ _ _ Hj id j Hc) as Hjob. destruct (proj1 (jk_queued _ _ _ _ _ _ Hjob) ltac:(by left)) as [Hd Ha].
  pose proof (lk_nodup _ _ _ _ (qs_linked _ _ (jo_queues _ _ _ Hj) queued)) as [Hnot _]%NoDup_cons.
  destruct (jk_id _ _ _ _ _ _ Hjob) as [Hid Hpos]. split.
  - constructor; rewrite ?Ho, ?Hn, ?Hres, ?Hc'; try apply Hj; [done| | |].
    + intros id' j'. destruct (decide (id' = id)) as [->|Hne].
      * rewrite lookup_insert_eq. intros [= <-]. destruct Hjob as [K1 K2 K3 K4 K5 K6 K7]. constructor; try done. simpl. split; [done|by intros [_ ?]].
      * rewrite lookup_insert_ne by done. intros Hc''. destruct (jo_job _ _ _ Hj id' j' Hc'') as [K1 K2 K3 K4 K5 K6 K7]. constructor; try done.
        rewrite <-K6. set_solver.
    + rewrite (total_replace _ _ j) by done. apply Hj.
    + rewrite (cores_size p p'); [apply Hj|]. by rewrite Hc', (dom_insert_same _ _ j).
  - assert (∀ k v, po_workers p !! k = Some v → wk_current v ≠ id) as Hfree.
    { intros k v Hk Heq. destruct (wp_current _ Hw k v Hk ltac:(lia)) as (_ & j' & Hc'' & _ & Ha'). rewrite Heq in Hc''. congruence. }
    constructor; rewrite ?Hws, ?Hc'.
    + intros k v. destruct (decide (k = i)) as [->|Hk].
      * rewrite list_lookup_insert_eq by done. intros [= <-] _. simpl. split; [done|]. exists (set_job_active j). by rewrite lookup_insert_eq.
      * rewrite list_lookup_insert_ne by done. intros Hv Hne. destruct (wp_current _ Hw k v Hv Hne) as (He' & j' & Hc'' & ?).
        split; [done|]. exists j'. rewrite lookup_insert_ne; [done|]. intros ->. by eapply Hfree.
    + intros k k' v v'. destruct (decide (k = i)) as [->|Hk], (decide (k' = i)) as [->|Hk']; [done|..].
      * rewrite list_lookup_insert_eq, list_lookup_insert_ne by done. intros [= <-] Hv' _ Heq. simpl in Heq. by destruct (Hfree k' v').
      * rewrite list_lookup_insert_ne, list_lookup_insert_eq by done. intros Hv [= <-] _ Heq. simpl in Heq. by destruct (Hfree k v).
      * rewrite !list_lookup_insert_ne by done. apply (wp_unique _ Hw).
    + intros id' j'. destruct (decide (id' = id)) as [->|Hne].
      * intros _ _ _. exists i, (set_current id w). by rewrite list_lookup_insert_eq.
      * rewrite lookup_insert_ne by done. intros Hc'' Hd' Ha'. destruct (wp_held _ Hw id' j' Hc'' Hd' Ha') as (k & v & Hk & Hv).
        exists k, v. rewrite list_lookup_insert_ne; [done|]. intros <-. rewrite Hi in Hk. injection Hk as <-.
        rewrite Hcur in Hv. destruct (jk_id _ _ _ _ _ _ (jo_job _ _ _ Hj id' j' Hc'')). lia.
  - intros id' j'. rewrite Hc'. destruct (decide (id' = id)) as [->|Hne].
    + rewrite lookup_insert_eq. intros [= <-] _. by apply (Hf id j).
    + rewrite lookup_insert_ne by done. apply Hf.
Qed.

Lemma received_view p p' i w id j lq lc :
  running p (id :: lq) lc → cores p !! id = Some j → jb_cancelled j = false → po_workers p !! i = Some w → wk_current w = 0 →
  cores p' = <[id := set_job_active j]> (cores p) → po_workers p' = <[i := set_current id w]> (po_workers p) → po_next_job p' = po_next_job p →
  mailbox_step (act_receive i) (view_of p (id :: lq) lc) (view_of p' lq lc).
Proof.
  intros [Hj Hw _] Hc Hcan Hi Hcur Hc' Hws Hnx. assert (i < length (po_workers p))%nat as Hlen by by eapply lookup_lt_Some.
  pose proof (jo_job _ _ _ Hj id j Hc) as Hjob. destruct (proj1 (jk_queued _ _ _ _ _ _ Hjob) ltac:(by left)) as [Hd Ha].
  destruct (jk_id _ _ _ _ _ _ Hjob) as [Hid Hpos].
  unfold view_of. rewrite Hc', Hws, Hnx. set (cs' := <[id := set_job_active j]> (cores p)).
  assert (∀ a, input_of cs' a = input_of (cores p) a) as Hin.
  { intros a. unfold input_of, cs'. destruct (decide (a = id)) as [->|Hn]; [by rewrite lookup_insert_eq, Hc|by rewrite lookup_insert_ne]. }
  unfold view. rewrite (waiting_frame (cores p) cs' lq) by auto. rewrite (outcome_frame (cores p) cs' lc).
  2: { intros a Hal. unfold cs'. rewrite lookup_insert_ne; [done|]. intros <-. apply (jk_completed _ _ _ _ _ _ Hjob) in Hal. congruence. }
  assert (held_by cs' <$> <[i := set_current id w]> (po_workers p) = <[i := Some (id, input_of (cores p) id, false)]> (held_by (cores p) <$> po_workers p)) as ->.
  { apply list_eq. intros k. rewrite list_lookup_fmap. destruct (decide (k = i)) as [->|Hk].
    - rewrite !list_lookup_insert_eq by (rewrite ?length_fmap; done). simpl. unfold held_by. simpl.
      rewrite (proj2 (N.eqb_neq id 0)) by lia. rewrite Hin. unfold cs'. rewrite lookup_insert_eq. simpl. by rewrite Hcan.
    - rewrite !list_lookup_insert_ne, list_lookup_fmap by done. destruct (po_workers p !! k) as [v|] eqn:Hv; [|done]. simpl. f_equal.
      unfold held_by. destruct (N.eqb_spec (wk_current v) 0) as [|Hne]; [done|]. rewrite Hin. unfold cs'. rewrite lookup_insert_ne; [done|].
      intros Heq. destruct (wp_current _ Hw k v Hv Hne) as (_ & j' & Hc'' & _ & Ha'). rewrite <-Heq in Hc''. congruence. }
  simpl. apply (step_receive i). rewrite list_lookup_fmap, Hi. simpl. unfold held_by. by rewrite Hcur.
Qed.

(** [receive] waits only if its checks pass. *)
Definition may_wait (w : worker) : bool := wk_ready w && negb (wk_failed w) && (wk_current w =? 0).

Lemma worker_receive_ok i w p lq lc :
  pool_ok p lq lc → in_thread p i w → (may_wait w = true → receive_ready p = true) →
  returns (worker_receive i p) (λ '(status, n, p'), settles (λ l, l = accepted status [act_receive i]) p lq lc p' ∧
    (status = WORKER_OK → ∃ id lq' j, lq = id :: lq' ∧ cores p !! id = Some j ∧ n = length_N (jb_input j) ∧
       jb_cancelled j = false ∧ po_workers p' !! i = Some (set_current id w) ∧ cores p' !! id = Some (set_job_active j))).
Proof.
  intros Hok (Hi & Hlt & He) Hready. unfold worker_receive, load_worker. rewrite Hi, load_Some, bind_Ok.
  assert (∀ status, status ≠ WORKER_OK → returns (Ok (status, 0, p)) (λ '(status, n, p'),
    settles (λ l, l = accepted status [act_receive i]) p lq lc p' ∧
    (status = WORKER_OK → ∃ id lq' j, lq = id :: lq' ∧ cores p !! id = Some j ∧ n = length_N (jb_input j) ∧
       jb_cancelled j = false ∧ po_workers p' !! i = Some (set_current id w) ∧ cores p' !! id = Some (set_job_active j)))) as Hrefuse.
  { intros status Hs. apply returns_Ok. split; [by apply settles_refused|done]. }
  match goal with |- context [if ?b then Ok (WORKER_INVALID, _, _) else _] => destruct b eqn:Hchecks end; [by apply Hrefuse|].
  rewrite !orb_false_iff, !negb_false_iff, N.eqb_eq in Hchecks. destruct Hchecks as [[Hrdy Hfail] Hcur].
  assert (receive_ready p = true) as Hready' by (apply Hready; unfold may_wait; by rewrite Hrdy, Hfail, Hcur). clear Hready. rename Hready' into Hready.
  destruct (po_stopping p) eqn:Hst; [by apply Hrefuse|]. cbv zeta.
  pose proof (pk_running _ _ _ Hok) as Hr. pose proof (jo_queues _ _ _ (rn_jobs _ _ _ Hr)) as Hq.
  pose proof (lk_head _ _ _ _ (qs_linked _ _ Hq queued)) as Hh. simpl in Hh.
  unfold receive_ready in Hready. rewrite Hst, Hh in Hready. simpl in Hready. destruct lq as [|id lq]; [done|].
  rewrite Hh. change (first 0 (id :: lq)) with id in *.
  rewrite (update_worker_ok i _ p w Hi), bind_Ok. set (p0 := with_workers _ p).
  assert (queues p0 (lists (id :: lq) lc)) as Hq0 by (eapply queues_same, Hq; [done|by intros []]).
  destruct (unlink_ok queued id p0 _ Hq0 ltac:(by left)) as (p1 & -> & [R1 R2 R3 R4 R5 R6 R7 R8 R9 R10 R11] & Hq1). rewrite bind_Ok.
  pose proof (lk_nodup _ _ _ _ (qs_linked _ _ Hq queued)) as Hnd. simpl in Hnd. pose proof (without_split id [] lq Hnd) as Hwo. simpl in Hwo.
  assert (queues p1 (lists lq lc)) as Hq1' by (eapply queues_ext; [|exact Hq1]; intros []; [exact Hwo|done]).
  destruct (listed p (id :: lq) lc queued id Hq ltac:(by left)) as [j Hc]. assert (cores p1 !! id = Some j) as Hc1 by (by rewrite R1).
  destruct (update_fields_ok id set_job_active p1 _ j keeps_active Hq1' Hc1) as (p2 & -> & Hq2 & Hc2 & [S1 S2 S3 S4 S5 S6 S7 S8 S9] & Hrd2 & Hhead2).
  rewrite bind_Ok. assert (cores p2 = <[id := set_job_active j]> (cores p)) as Hc2' by (by rewrite Hc2, R1).
  assert (po_workers p2 = <[i := set_current id w]> (po_workers p)) as Hws by (rewrite S4, R6; done).
  assert (∃ j2, po_jobs p2 !! id = Some j2 ∧ jb_input j2 = jb_input j) as (j2 & Hj2 & Hinput).
  { pose proof (f_equal (λ m, m !! id) Hc2') as Hl. unfold cores at 1 in Hl. simpl in Hl. rewrite lookup_insert_eq, lookup_fmap in Hl.
    destruct (po_jobs p2 !! id) as [j2|]; [|done]. apply (inj Some) in Hl. exists j2. split; [done|]. by apply (f_equal jb_input) in Hl. }
  unfold load_job. rewrite Hj2, load_Some, bind_Ok. apply returns_Ok. simpl in R1, R4, R6, R7, R8, R9, R10, R11.
  assert (pool_ok p2 lq lc) as Hok2.
  { assert (i < length (po_workers p))%nat as Hlen by by eapply lookup_lt_Some. constructor.
    - eapply (received_running p p2 i w id j); try done; congruence.
    - unfold pool_threads. rewrite Hws, S5, R7, S8, R10, S2, R4. eapply threads_insert; [apply Hok|done|done|done].
    - intros k v. rewrite Hws. destruct (decide (k = i)) as [->|Hne]; [rewrite list_lookup_insert_eq by done; intros [= <-]; simpl; congruence|].
      rewrite list_lookup_insert_ne by done. apply Hok.
    - intros a ja Ha. rewrite Hc2', lookup_insert_ne; [apply (pk_waiting _ _ _ Hok); by right|]. intros <-. by apply NoDup_cons in Hnd as [? _].
    - rewrite S9, R11, Hst. done.
    - intros Hno. exfalso. rewrite Hws in Hno. assert (existsb available (<[i := set_current id w]> (po_workers p)) = true); [|congruence].
      apply existsb_exists. exists (set_current id w). split; [apply list_elem_of_In; eapply list_elem_of_lookup_2; by rewrite list_lookup_insert_eq|].
      unfold available. simpl. by rewrite Hfail, He.
    - pose proof (pk_ready _ _ _ Hok) as Hrd. unfold ready_ok in *. rewrite Hws, S5, R7. unfold length_N in *. rewrite length_insert. case_decide.
      + rewrite Hrd2, R2. simpl. rewrite Hrd. symmetry. apply poll_ready_same; [|by rewrite Hc2', (dom_insert_same _ _ j)|congruence|congruence].
        pose proof (lk_head _ _ _ _ (qs_linked _ _ Hq2 completed)) as E1. pose proof (lk_head _ _ _ _ (qs_linked _ _ Hq completed)) as E2.
        simpl in *. congruence.
      + destruct Hrd as [Hno _]. unfold cores in Hc. rewrite Hno in Hc. done. }
  split.
  - exists [act_receive i], lq, lc. split_and!; [done|done|].
    eapply run_one, (received_view p p2 i w id j); try done; [|congruence]. apply (pk_waiting _ _ _ Hok id); [by left|done].
  - intros _. exists id, lq, j. split_and!; [done|done|by rewrite Hinput|apply (pk_waiting _ _ _ Hok id); [by left|done]| |].
    + rewrite Hws, list_lookup_insert_eq; [done|]. by eapply lookup_lt_Some.
    + by rewrite Hc2', lookup_insert_eq.
Qed.

(** *** Replying *)

Lemma set_output_ok id bytes p lq lc j :
  running p lq lc → cores p !! id = Some j → jb_done j = false → length_N bytes ≤ wo_max_output_bytes (po_options p) →
  returns (update_job id (set_output bytes) p) (λ p1, jobs_ok p1 lq lc ∧ workers_ok p1 ∧ view_of p1 lq lc = view_of p lq lc ∧
    same_rest p p1 ∧ cores p1 = <[id := set_output bytes j]> (cores p)).
Proof.
  intros [Hj Hw Hf] Hc Hd Hlen. pose proof (jo_job _ _ _ Hj id j Hc) as Hjob.
  eapply returns_weaken; [apply (update_fields_ok id (set_output bytes) p _ j (keeps_output bytes) (jo_queues _ _ _ Hj) Hc)|].
  intros p1 (Hq & Hc1 & Hs & _ & _). pose proof Hs as [S1 S2 S3 S4 S5 S6 S7 S8 S9]. split_and!; [| | |done|done].
  - constructor; rewrite ?S2, ?S6, ?S7, ?Hc1; try apply Hj; [done| | |].
    + intros id' j'. destruct (decide (id' = id)) as [->|Hne].
      * rewrite lookup_insert_eq. intros [= <-]. destruct Hjob. constructor; try done. simpl. congruence.
      * rewrite lookup_insert_ne by done. apply Hj.
    + rewrite (total_replace _ _ j) by done. apply Hj.
    + rewrite (cores_size p p1); [apply Hj|]. by rewrite Hc1, (dom_insert_same _ _ j).
  - constructor; rewrite ?S4, ?Hc1.
    + intros i w Hi Hne. destruct (wp_current _ Hw i w Hi Hne) as (He & j' & Hj' & Hd' & Ha'). split; [done|].
      destruct (decide (wk_current w = id)) as [Heq|Hn].
      * exists (set_output bytes j). rewrite Heq, lookup_insert_eq. rewrite Heq, Hc in Hj'. injection Hj' as <-. by split_and!.
      * exists j'. by rewrite lookup_insert_ne.
    + apply Hw.
    + intros id' j'. destruct (decide (id' = id)) as [->|Hn].
      * rewrite lookup_insert_eq. intros [= <-] Hd' Ha'. by apply (wp_held _ Hw id j).
      * rewrite lookup_insert_ne by done. apply Hw.
  - unfold view_of. rewrite Hc1, S4, S6. set (cs' := <[id := set_output bytes j]> (cores p)).
    assert (∀ a, input_of cs' a = input_of (cores p) a ∧ from_option jb_cancelled false (cs' !! a) = from_option jb_cancelled false (cores p !! a)) as Hin.
    { intros a. unfold input_of, cs'. destruct (decide (a = id)) as [->|Hn]; [by rewrite lookup_insert_eq, Hc|by rewrite lookup_insert_ne]. }
    unfold view. rewrite (waiting_frame (cores p) cs') by (intros; apply Hin). f_equal.
    + apply list_fmap_ext. intros i w _. unfold held_by. destruct (Hin (wk_current w)) as [-> ->]. done.
    + apply outcome_frame. intros a Ha. unfold cs'. rewrite lookup_insert_ne; [done|]. intros <-.
      apply (jk_completed _ _ _ _ _ _ Hjob) in Ha. congruence.
Qed.

(** The pool after worker [i] let go of its job. *)
Lemma released_pool p p' i w lq lc lc' :
  pool_ok p lq lc → in_thread p i w → running p' lq lc' → po_workers p' = <[i := set_current 0 w]> (po_workers p) →
  po_threads p' = po_threads p → po_alive p' = po_alive p → po_options p' = po_options p → po_stopping p' = po_stopping p →
  waiting_ok p' lq → ready_ok p' → pool_ok p' lq lc'.
Proof.
  intros Hok (Hi & Hlt & He) Hr Hws Ht Ha Ho Hst Hwait Hready. assert (i < length (po_workers p))%nat as Hlen by by eapply lookup_lt_Some.
  constructor; try done.
  - unfold pool_threads. rewrite Hws, Ht, Ha, Ho. by eapply threads_insert; [apply Hok|..].
  - intros k v Hk. rewrite Hws in Hk. destruct (decide (k = i)) as [->|Hne].
    + rewrite list_lookup_insert_eq in Hk by done. by injection Hk as <-.
    + rewrite list_lookup_insert_ne in Hk by done. by apply (pk_failed _ _ _ Hok k).
  - rewrite Hst. apply Hok.
  - rewrite Hst. intros Hno. apply (pk_unavailable _ _ _ Hok). rewrite <-not_true_iff_false in Hno |- *. intros Hex. apply Hno.
    apply existsb_exists in Hex as (v & [k Hk]%list_elem_of_In%list_elem_of_lookup_1 & Hv). rewrite Hws. apply existsb_exists.
    destruct (decide (k = i)) as [->|Hne].
    + exists (set_current 0 w). split; [apply list_elem_of_In; eapply list_elem_of_lookup_2; by rewrite list_lookup_insert_eq|].
      rewrite Hi in Hk. by injection Hk as <-.
    + exists v. split; [|done]. apply list_elem_of_In. eapply (list_elem_of_lookup_2 _ k). by rewrite list_lookup_insert_ne.
Qed.

(** The kind and the output a reply gives to the job. *)
Definition reply_outcome (j : job) (bytes : list byte) : N * list byte :=
  if jb_cancelled j then (WORKER_CANCELLED, []) else (WORKER_SUCCESS, bytes).

Lemma busy_complete p lq lc i w : pool_ok p lq lc → po_workers p !! i = Some w → wk_current w ≠ 0 → complete p.
Proof.
  intros Hok Hi Hne. unfold complete. pose proof (pk_ready _ _ _ Hok) as Hrd. unfold ready_ok in Hrd. case_decide; [done|].
  destruct Hrd as [Hno _]. destruct Hne. exact (incomplete_idle p lq lc i w (pk_running _ _ _ Hok) Hno Hi).
Qed.

(** The end of a reply: the job gets its output and is finished. *)
Lemma reply_end i w bytes p lq lc j :
  pool_ok p lq lc → in_thread p i w → wk_current w ≠ 0 → cores p !! wk_current w = Some j →
  length_N bytes ≤ wo_max_output_bytes (po_options p) →
  returns (p1 ← (if negb (jb_cancelled j) && negb (length_N bytes =? 0) then update_job (wk_current w) (set_output bytes) p else Ok p);
           p2 ← finish (wk_current w) (if jb_cancelled j then WORKER_CANCELLED else WORKER_SUCCESS) p1;
           update_worker i (set_current 0) p2)
    (λ p', pool_ok p' lq (lc ++ [wk_current w]) ∧
       moved [act_complete i (reply_outcome j bytes).1 (reply_outcome j bytes).2] p lq lc p' lq (lc ++ [wk_current w]) ∧
       outcome_of (cores p') (wk_current w) = (wk_current w, (reply_outcome j bytes).1, (reply_outcome j bytes).2)).
Proof.
  intros Hok Hth Hne Hc Hlen. pose proof Hth as (Hi & Hlt & He). pose proof (pk_running _ _ _ Hok) as Hr. set (id := wk_current w) in *.
  destruct (wp_current _ (rn_workers _ _ _ Hr) i w Hi Hne) as (_ & j' & Hj' & Hd & Ha). fold id in Hj'. rewrite Hc in Hj'. injection Hj' as <-.
  pose proof (rn_fresh _ _ _ Hr id j Hc Hd) as Hout.
  assert (returns (if negb (jb_cancelled j) && negb (length_N bytes =? 0) then update_job id (set_output bytes) p else Ok p) (λ p1,
    jobs_ok p1 lq lc ∧ workers_ok p1 ∧ view_of p1 lq lc = view_of p lq lc ∧ same_rest p p1 ∧
    ∃ j1, cores p1 = <[id := j1]> (cores p) ∧ jb_cancelled j1 = jb_cancelled j ∧ (jb_cancelled j = false → jb_output j1 = bytes)))
    as (p1 & -> & Hj1 & Hw1 & Hv1 & Hs1 & j1 & Hc1 & Hcan1 & Hout1).
  { destruct (negb (jb_cancelled j) && negb (length_N bytes =? 0)) eqn:Hg.
    - eapply returns_weaken; [by apply (set_output_ok id bytes p lq lc j)|]. intros p1 (? & ? & ? & ? & Hc1). split_and!; try done.
      exists (set_output bytes j). by split_and!.
    - apply returns_Ok. split_and!; [apply Hr|apply Hr|done|apply same_rest_refl|]. exists j. split_and!; [by rewrite insert_id|done|].
      intros Hcan. rewrite Hcan in Hg. simpl in Hg. apply negb_false_iff, N.eqb_eq in Hg. rewrite Hout. unfold length_N in Hg.
      destruct bytes; simpl in Hg; [done|lia]. }
  rewrite bind_Ok. pose proof (sr_workers _ _ Hs1) as Hws1.
  destruct (complete_ok i w (if jb_cancelled j then WORKER_CANCELLED else WORKER_SUCCESS) p1 lq lc j1) as (p' & Hrun & Hr' & Hm' & p2 & Hs2 & Hrd2 & Hc2 & ->).
  - done.
  - done.
  - intros a ja Hna. rewrite Hc1, lookup_insert_ne by done. apply Hr.
  - by rewrite Hws1.
  - done.
  - fold id. by rewrite Hc1, lookup_insert_eq.
  - rewrite Hcan1. by destruct (jb_cancelled j).
  - fold id in Hrun, Hr', Hm', Hc2. rewrite Hrun. apply returns_Ok. pose proof (busy_complete p lq lc i w Hok Hi Hne) as Hall.
    destruct Hs1 as [T1 T2 T3 T4 T5 T6 T7 T8 T9], Hs2 as [S1 S2 S3 S4 S5 S6 S7 S8 S9]. split_and!.
    + eapply (released_pool p _ i w lq lc); try done; simpl; try congruence.
      * intros a ja Hal. change (cores (with_workers _ p2)) with (cores p2). rewrite Hc2, Hc1, !lookup_insert_ne; [by apply Hok|..];
          intros <-; apply (jk_queued _ _ _ _ _ _ (jo_job _ _ _ (rn_jobs _ _ _ Hr) _ _ Hc)) in Hal as [_ ?]; congruence.
      * unfold ready_ok. simpl. unfold complete, length_N in *. rewrite length_insert, Hws1, S5, T5. by case_decide.
    + unfold moved in *. rewrite Hv1 in Hm'. unfold reply_outcome. destruct (jb_cancelled j); [done|]. by rewrite Hout1 in Hm'.
    + change (cores (with_workers _ p2)) with (cores p2). unfold outcome_of. rewrite Hc2, lookup_insert_eq. unfold reply_outcome. simpl.
      destruct (jb_cancelled j); [done|]. simpl. by rewrite Hout1.
Qed.

(** The outcome of the job that worker [w] holds, if it replies. *)
Definition answer (p : pool) (w : worker) (bytes : list byte) : N * list byte :=
  from_option (λ j, reply_outcome j bytes) (0, []) (cores p !! wk_current w).

Lemma worker_reply_ok i w memory bytes p lq lc :
  pool_ok p lq lc → in_thread p i w →
  returns (worker_reply i memory bytes p) (λ '(status, p'),
    settles (λ l, l = accepted status [act_complete i (answer p w bytes).1 (answer p w bytes).2]) p lq lc p' ∧
    (status = WORKER_OK → ∃ j, wk_current w ≠ 0 ∧ cores p !! wk_current w = Some j ∧ pool_ok p' lq (lc ++ [wk_current w]) ∧
       outcome_of (cores p') (wk_current w) = (wk_current w, (reply_outcome j bytes).1, (reply_outcome j bytes).2)) ∧
    (status ≠ WORKER_OK → p' = p)).
Proof.
  intros Hok Hth. pose proof Hth as (Hi & Hlt & He). unfold worker_reply, load_worker. rewrite Hi, load_Some, bind_Ok.
  destruct ((wk_current w =? 0) || wk_failed w) eqn:Hchecks; [apply returns_Ok; split_and!; [by apply settles_refused|done|done]|].
  apply orb_false_iff in Hchecks as [Hne%N.eqb_neq Hfail].
  destruct (N.ltb_spec (wo_max_output_bytes (po_options p)) (length_N bytes)) as [|Hlen]; [apply returns_Ok; split_and!; [by apply settles_refused|done|done]|].
  cbv zeta. destruct (wp_current _ (rn_workers _ _ _ (pk_running _ _ _ Hok)) i w Hi Hne) as (_ & j & Hc & Hd & Ha).
  pose proof Hc as Hc0. unfold cores in Hc0. rewrite lookup_fmap in Hc0. destruct (po_jobs p !! wk_current w) as [j0|] eqn:Hj0; [|done].
  apply (inj Some) in Hc0. unfold load_job. rewrite Hj0, load_Some, bind_Ok.
  assert (jb_cancelled j0 = jb_cancelled j) as -> by (by rewrite <-Hc0; destruct j0).
  destruct (_ && negb memory); [apply returns_Ok; split_and!; [by apply settles_refused|done|done]|].
  destruct (reply_end i w bytes p lq lc j Hok Hth Hne Hc Hlen) as (p' & Hrun & Hok' & Hm & Hout).
  apply bind_Ok_inv in Hrun as (p1 & -> & Hrun). rewrite bind_Ok. apply bind_Ok_inv in Hrun as (p2 & -> & Hrun). rewrite bind_Ok, Hrun, bind_Ok.
  apply returns_Ok. split_and!; [|intros _; by exists j|done].
  eexists _, lq, (lc ++ [wk_current w]). split_and!; [done|done|]. unfold answer. by rewrite Hc.
Qed.

(** *** The end of a thread *)

Lemma u32_sub_small a b : b ≤ a → a < 2 ^ 32 → u32_sub a b = a - b.
Proof.
  intros Hba Ha. unfold u32_sub. rewrite (N.mod_small b) by lia. replace (a + (2 ^ 32 - b)) with (a - b + 1 * 2 ^ 32) by lia.
  rewrite N.Div0.mod_add. apply N.mod_small. lia.
Qed.

Lemma alive_small p lq lc : pool_ok p lq lc → po_alive p ≤ 64.
Proof.
  intros Hok. destruct (pk_threads _ _ _ Hok) as [T1 T2 T3 T4]. destruct (jo_options _ _ _ (rn_jobs _ _ _ (pk_running _ _ _ Hok))) as [Hw _].
  assert (alive_count (take (N.to_nat (po_threads p)) (po_workers p)) ≤ length (po_workers p))%nat as Hle.
  { unfold alive_count. etransitivity; [apply length_filter|]. rewrite length_take. lia. }
  unfold length_N in T1. lia.
Qed.

Lemma leave_ok i w p lq lc :
  pool_ok p lq lc → in_thread p i w → wk_current w = 0 →
  returns (p1 ← update_worker i set_exited p; stop_if_unavailable (with_alive (po_threads p1) (u32_sub (po_alive p1) 1) p1)) (λ p',
    settles (Forall (retired WORKER_FAILED)) p lq lc p' ∧ po_workers p' = <[i := set_exited w]> (po_workers p)).
Proof.
  intros Hok (Hi & Hlt & He) Hcur. rewrite (update_worker_ok i _ p w Hi), bind_Ok. cbn [with_workers po_threads po_alive].
  pose proof (alive_small p lq lc Hok) as H64. destruct (threads_exit _ _ _ _ i w (set_exited w) (pk_threads _ _ _ Hok) Hi Hlt He eq_refl) as [Hpos Hth].
  rewrite u32_sub_small by lia. set (p1 := with_workers _ p). set (p2 := with_alive _ _ p1).
  destruct (flags_ok i w (set_exited w) p lq lc (pk_running _ _ _ Hok) Hi eq_refl) as [Hr1 Hm1]; [done|].
  assert (running p2 lq lc) as Hr2 by (destruct Hr1; split; unfold p2; auto with workers).
  eapply returns_weaken; [apply (stop_if_unavailable_ok p2 lq lc)|].
  - done.
  - exact Hth.
  - intros k v. unfold p2, p1. simpl. destruct (decide (k = i)) as [->|Hne].
    + rewrite list_lookup_insert_eq by by eapply lookup_lt_Some. by intros [= <-].
    + rewrite list_lookup_insert_ne by done. apply Hok.
  - exact (pk_waiting _ _ _ Hok).
  - apply Hok.
  - intros Hav. pose proof (pk_ready _ _ _ Hok) as Hrd. unfold ready_ok in *. unfold p2, p1. simpl. unfold length_N in *. rewrite length_insert.
    case_decide as Hall; [|done]. rewrite Hrd. unfold poll_ready. simpl.
    assert (po_alive p - 1 ≠ 0) as Hne.
    { eapply (threads_available (po_workers p2)); [exact Hth| |exact Hav]. unfold p2, p1, length_N. simpl. by rewrite length_insert. }
    rewrite (proj2 (N.eqb_neq (po_alive p) 0)) by lia. by rewrite (proj2 (N.eqb_neq (po_alive p - 1) 0) Hne).
  - intros p' (Hs & Hw & _). split; [|exact Hw]. eapply settles_moved; [exact Hm1|exact Hs|done].
Qed.

(** The job of worker [w], if any, fails or was cancelled. *)
Definition ends_job (w : worker) (i : nat) (l : list mailbox_action) : Prop :=
  ∃ kind, (kind = WORKER_FAILED ∨ kind = WORKER_CANCELLED) ∧ lets_go (negb (wk_current w =? 0)) i kind l.

Lemma ends_nothing w i : wk_current w = 0 → ends_job w i [].
Proof. intros Hz. exists WORKER_FAILED. split; [by left|]. exists []. rewrite Hz. split; [done|by apply Forall_nil]. Qed.

(** The first part of [worker_exit]: the job of the worker, if it has one, is finished. *)
Lemma exit_job_ok i w initialized p lq lc :
  pool_ok p lq lc → in_thread p i w →
  returns (if negb initialized then failure i (text "worker runtime initialization failed") p
           else if negb (wk_ready w) && negb (po_stopping p) then failure i (text "worker exited before ready") p
           else if negb (wk_current w =? 0) then
             j ← load_job p (wk_current w);
             if jb_cancelled j then p ← finish (wk_current w) WORKER_CANCELLED p; update_worker i (set_current 0) p
             else failure i (text "worker exited with an active job") p
           else if negb (po_stopping p) && negb (wk_failed w) then failure i (text "worker exited before stop") p
           else Ok p)
    (λ p', settles (ends_job w i) p lq lc p' ∧ ∃ w', in_thread p' i w' ∧ wk_current w' = 0).
Proof.
  intros Hok Hth. pose proof Hth as (Hi & Hlt & He). assert (i < length (po_workers p))%nat as Hlen by by eapply lookup_lt_Some.
  assert (∀ s, returns (failure i s p) (λ p', settles (ends_job w i) p lq lc p' ∧ ∃ w', in_thread p' i w' ∧ wk_current w' = 0)) as Hfail.
  { intros s. eapply returns_weaken; [by apply (failure_ok i w s p lq lc)|]. intros p' (Hs & Hw & Ht).
    split; [eapply settles_weaken; [exact Hs|]; intros l Hl; exists WORKER_FAILED; split; [by left|done]|].
    exists (failed_worker s w). unfold in_thread. rewrite Hw, Ht, list_lookup_insert_eq by done. split_and!; try done.
    unfold failed_worker. simpl. by destruct (wk_failed w). }
  destruct (negb initialized); [apply Hfail|]. destruct (_ && _); [apply Hfail|]. destruct (N.eqb_spec (wk_current w) 0) as [Hz|Hne]; cbn [negb].
  - destruct (_ && _); [apply Hfail|]. apply returns_Ok. split; [apply settles_refl; [done|by apply ends_nothing]|]. by exists w.
  - destruct (wp_current _ (rn_workers _ _ _ (pk_running _ _ _ Hok)) i w Hi Hne) as (_ & j & Hc & _).
    unfold cores in Hc. rewrite lookup_fmap in Hc. destruct (po_jobs p !! wk_current w) as [j0|] eqn:Hj0; [|done].
    unfold load_job. rewrite Hj0, load_Some, bind_Ok. destruct (jb_cancelled j0); [|apply Hfail].
    destruct (release_ok i w WORKER_CANCELLED p lq lc (pk_running _ _ _ Hok) Hi) as (p' & Hrun & lc' & Hr' & Hm' & Hw' & Ht' & Ha' & Ho' & Hst' & Hrd' & Hwt'); [done|].
    rewrite (proj2 (N.eqb_neq _ _) Hne) in Hrun. rewrite Hrun. apply returns_Ok. split.
    + rewrite (proj2 (N.eqb_neq _ _) Hne) in Hm'. exists [act_complete i WORKER_CANCELLED []], lq, lc'. split_and!; [| |done].
      { exists WORKER_CANCELLED. split; [by right|]. exists []. rewrite (proj2 (N.eqb_neq _ _) Hne). split; [done|by apply Forall_nil]. }
      eapply (released_pool p p' i w lq lc lc'); try done; [apply Hwt', Hok|apply Hrd', Hok].
    + exists (set_current 0 w). unfold in_thread. by rewrite Hw', Ht', list_lookup_insert_eq.
Qed.

Lemma worker_exit_ok i w initialized p lq lc :
  pool_ok p lq lc → in_thread p i w → returns (worker_exit i initialized p) (λ p', settles (ends_job w i) p lq lc p').
Proof.
  intros Hok Hth. pose proof Hth as (Hi & _). unfold worker_exit, load_worker. rewrite Hi, load_Some, bind_Ok.
  eapply returns_bind; [by apply (exit_job_ok i w initialized p lq lc)|]. intros p1 ((l1 & lq1 & lc1 & (kind & Hk & l1' & -> & Hl1) & Hok1 & Hm1) & w1 & Hth1 & Hcur1).
  eapply returns_weaken; [by apply (leave_ok i w1 p1 lq1 lc1)|]. intros p' [Hs _]. eapply settles_moved; [exact Hm1|exact Hs|]. intros l Hl. exists kind. split; [done|].
  exists (l1' ++ l). rewrite <-app_assoc. split; [done|by apply Forall_app].
Qed.

Lemma worker_fail_ok i w detail p lq lc :
  pool_ok p lq lc → in_thread p i w → returns (worker_fail i detail p) (λ '(_, p'),
    settles (lets_go (negb (wk_current w =? 0)) i WORKER_FAILED) p lq lc p').
Proof.
  intros Hok (Hi & Hlt & He). unfold worker_fail. eapply returns_bind; [by apply (failure_ok i w detail p lq lc)|].
  intros p' (Hs & _). by apply returns_Ok.
Qed.

(** ** Starting *)

Lemma start_thread_ok started p lq lc :
  pool_ok p lq lc → po_threads p < length_N (po_workers p) → po_stopping p = false → pool_ok (start_thread started p) lq lc.
Proof.
  intros Hok Hlt Hst. pose proof (alive_small p lq lc Hok) as H64. unfold start_thread. cbv zeta. cbn [with_alive po_threads po_alive].
  pose proof (pk_ready _ _ _ Hok) as Hrd. unfold ready_ok in Hrd. rewrite decide_False in Hrd by lia. destruct Hrd as [Hno Hrd]. specialize (Hrd Hst).
  destruct started.
  - pose proof (pk_threads _ _ _ Hok) as [T1 T2 T3 T4]. destruct Hok as [K1 K2 K3 K4 K5 K6 K7]. constructor; try done.
    + destruct K1. split; auto with workers.
    + constructor; simpl; [done|lia|intros k v Hk Hle; apply (T3 k v Hk); lia|].
      destruct (lookup_lt_is_Some_2 (po_workers p) (N.to_nat (po_threads p))) as [v Hv]; [unfold length_N in Hlt; lia|].
      replace (N.to_nat (po_threads p + 1)) with (S (N.to_nat (po_threads p))) by lia. rewrite (take_S_r _ _ v Hv). unfold alive_count in *.
      rewrite filter_app, length_app. rewrite (T3 _ v Hv ltac:(lia)). simpl. lia.
    + unfold ready_ok. simpl. case_decide; [|done]. rewrite Hrd. unfold poll_ready. simpl.
      assert (po_completed_head p = 0) as ->.
      { pose proof (lk_head _ _ _ _ (qs_linked _ _ (jo_queues _ _ _ (rn_jobs _ _ _ K1)) completed)) as Hh. simpl in Hh. rewrite Hh.
        destruct lc as [|a lc']; [done|]. destruct (queues_mapped _ _ completed a (jo_queues _ _ _ (rn_jobs _ _ _ K1)) ltac:(by left)) as [j Hj].
        by rewrite Hno in Hj. }
      rewrite Hst, (proj2 (N.eqb_neq (po_alive p + 1) 0)) by lia. by rewrite andb_false_r.
  - rewrite u32_sub_small by lia. replace (po_alive p + 1 - 1) with (po_alive p) by lia.
    assert (with_alive (po_threads p) (po_alive p) (with_alive (po_threads p) (po_alive p + 1) p) = p) as ->; [by destruct p|done].
Qed.

Lemma open_pool_ok heap options entry config length p :
  open_pool heap options entry config length = inr p → pool_ok p [] [] ∧ po_heap p ≠ 0 ∧ po_threads p = 0.
Proof.
  unfold open_pool. destruct options as [o|]; [|done].
  match goal with |- context [if ?b then inl WORKER_INVALID else _] => destruct b eqn:Hinvalid end; [done|].
  match goal with |- context [if ?b then inl WORKER_LIMIT else _] => destruct b eqn:Hlimit end; [done|]. intros [= <-].
  rewrite !orb_false_iff, !N.eqb_neq in Hinvalid. destruct Hinvalid as [[[Hheap _] _] _].
  rewrite !orb_false_iff, !N.eqb_neq, !N.ltb_ge in Hlimit. destruct Hlimit as [[[[[[[L1 L2] L3] L4] L5] L6] L7] L8].
  assert (∀ i w, replicate (N.to_nat (wo_worker_count o)) new_worker !! i = Some w → w = new_worker) as Hnew
    by (intros i w Hi; by apply lookup_replicate in Hi as [-> _]).
  split; [|done]. constructor.
  - split.
    + constructor; simpl; try done.
      * split; [|intros [] a Ha; simpl in Ha; by apply elem_of_nil in Ha]. intros []; constructor; simpl; try done; first [by apply NoDup_nil|by intros ?%elem_of_nil].
      * split; [done|lia].
      * rewrite map_size_empty. lia.
      * unfold options_ok. lia.
    + constructor; simpl; [intros i w Hi%Hnew; by subst|intros i i' w w' Hi%Hnew; by subst|done].
    + done.
  - constructor; simpl; try done.
    + unfold length_N. rewrite length_replicate. lia.
    + unfold length_N. lia.
    + by intros i w Hi%Hnew _.
  - intros i w Hi%Hnew. by subst.
  - by intros id j ?%elem_of_nil.
  - done.
  - simpl. destruct (N.to_nat (wo_worker_count o)) eqn:Hn; [lia|done].
  - unfold ready_ok. simpl. unfold length_N. rewrite length_replicate. by rewrite decide_False by lia.
Qed.

(** ** Reading *)

Lemma held_job p lq lc i w :
  pool_ok p lq lc → po_workers p !! i = Some w → wk_current w ≠ 0 →
  ∃ j, po_jobs p !! wk_current w = Some j ∧ jb_done j = false ∧ jb_active j = true ∧
    mb_running (view_of p lq lc) !! i = Some (Some (wk_current w, jb_input j, jb_cancelled j)).
Proof.
  intros Hok Hi Hne. destruct (wp_current _ (rn_workers _ _ _ (pk_running _ _ _ Hok)) i w Hi Hne) as (_ & c & Hc & Hd & Ha).
  pose proof Hc as Hc0. unfold cores in Hc0. rewrite lookup_fmap in Hc0. destruct (po_jobs p !! wk_current w) as [j|] eqn:Hj; [|done].
  apply (inj Some) in Hc0 as <-. exists j. split_and!; [done|done|done|]. simpl. rewrite list_lookup_fmap, Hi. simpl.
  unfold held_by, input_of. by rewrite (proj2 (N.eqb_neq _ _) Hne), Hc.
Qed.

Lemma idle_view p lq lc i w :
  po_workers p !! i = Some w → wk_current w = 0 → mb_running (view_of p lq lc) !! i = Some None.
Proof. intros Hi Hz. simpl. rewrite list_lookup_fmap, Hi. simpl. unfold held_by. by rewrite Hz. Qed.

Lemma worker_read_ok i w output capacity p lq lc :
  pool_ok p lq lc → in_thread p i w →
  returns (worker_read i output capacity p) (λ '(status, bytes), status = WORKER_OK →
    ∃ id c, mb_running (view_of p lq lc) !! i = Some (Some (id, bytes, c))).
Proof.
  intros Hok (Hi & _). unfold worker_read, load_worker. rewrite Hi, load_Some, bind_Ok.
  destruct (_ || _) eqn:Hg; [by apply returns_Ok|]. apply orb_false_iff in Hg as [Hne%N.eqb_neq _].
  destruct (held_job p lq lc i w Hok Hi Hne) as (j & Hj & _ & _ & Hview). unfold load_job. rewrite Hj, load_Some, bind_Ok.
  destruct (_ <? _); [by apply returns_Ok|]. destruct (_ && _); apply returns_Ok; [done|]. intros _. by eexists _, _.
Qed.

Lemma worker_cancelled_ok i w p lq lc :
  pool_ok p lq lc → in_thread p i w →
  returns (worker_cancelled i p) (λ b, ∀ id input c, mb_running (view_of p lq lc) !! i = Some (Some (id, input, c)) →
    b = po_stopping p || c).
Proof.
  intros Hok (Hi & _). unfold worker_cancelled, load_worker. rewrite Hi, load_Some, bind_Ok.
  destruct (N.eqb_spec (wk_current w) 0) as [Hz|Hne].
  - assert (∀ b, returns (Ok b) (λ b, ∀ id input c, mb_running (view_of p lq lc) !! i = Some (Some (id, input, c)) → b = po_stopping p || c)) as Hany.
    { intros b. apply returns_Ok. intros id input c Hv. pose proof (idle_view p lq lc i w Hi Hz). congruence. }
    destruct (_ || _); apply Hany.
  - destruct (held_job p lq lc i w Hok Hi Hne) as (j & Hj & _ & _ & Hview).
    destruct (wk_failed w) eqn:Hf; [by pose proof (pk_failed _ _ _ Hok i w Hi Hf)|].
    destruct (po_stopping p) eqn:Hst; cbn [orb]; [by apply returns_Ok|].
    unfold load_job. rewrite Hj, load_Some, bind_Ok. apply returns_Ok. intros id input c Hv. rewrite Hview in Hv. by injection Hv as <- <- <-.
Qed.

(** ** Runs *)

(** What the owner and the threads of a pool do, in any order.  [event_start] is a round of
    the loop in [open], [event_heap] the assignment of a worker's heap. *)
Inductive pool_event :=
| event_start (started : bool)
| event_heap (i : nat) (heap : N)
| event_submit (memory : bool) (bytes : list byte)
| event_poll
| event_take (ticket : N) (output : bool) (capacity : N)
| event_cancel (ticket : N)
| event_stop
| event_ready (i : nat)
| event_receive (i : nat)
| event_read (i : nat) (output : bool) (capacity : N)
| event_cancelled (i : nat)
| event_reply (i : nat) (memory : bool) (bytes : list byte)
| event_fail (i : nat) (detail : list byte)
| event_exit (i : nat) (initialized : bool).

(** What a call hands back: its status, a number (a ticket, a length, or whether a job was
    cancelled), and bytes. *)
Record response := mk_response { rs_status : N; rs_number : N; rs_bytes : list byte }.

Definition done_with : response := mk_response WORKER_OK 0 [].

Definition run_event (e : pool_event) (p : pool) : result (response * pool) :=
  match e with
  | event_start started => Ok (done_with, start_thread started p)
  | event_heap i heap => p ← update_worker i (set_heap heap) p; Ok (done_with, p)
  | event_submit memory bytes => '(status, id, p) ← submit memory bytes p; Ok (mk_response status id [], p)
  | event_poll => '(status, c, p) ← poll p; Ok (mk_response status (from_option cp_job_id 0 c) [], p)
  | event_take ticket output capacity =>
      '(status, bytes, p) ← take_job ticket output capacity p; Ok (mk_response status 0 bytes, p)
  | event_cancel ticket => '(status, p) ← cancel ticket p; Ok (mk_response status 0 [], p)
  | event_stop => p ← stop p; Ok (done_with, p)
  | event_ready i => '(status, p) ← worker_ready i p; Ok (mk_response status 0 [], p)
  | event_receive i => '(status, n, p) ← worker_receive i p; Ok (mk_response status n [], p)
  | event_read i output capacity => '(status, bytes) ← worker_read i output capacity p; Ok (mk_response status 0 bytes, p)
  | event_cancelled i => b ← worker_cancelled i p; Ok (mk_response WORKER_OK (if (b : bool) then 1 else 0) [], p)
  | event_reply i memory bytes => '(status, p) ← worker_reply i memory bytes p; Ok (mk_response status 0 [], p)
  | event_fail i detail => '(status, p) ← worker_fail i detail p; Ok (mk_response status 0 [], p)
  | event_exit i initialized => p ← worker_exit i initialized p; Ok (done_with, p)
  end.

(** When an event can happen: threads start while the pool is being opened, the owner has
    its handle once all have, a worker acts from its own thread, and [receive] goes on
    when its wait ends, if it waits. *)
Definition event_ok (e : pool_event) (p : pool) : Prop :=
  match e with
  | event_start _ => po_threads p < length_N (po_workers p) ∧ po_stopping p = false
  | event_submit _ _ | event_poll | event_take _ _ _ | event_cancel _ => complete p
  | event_stop => True
  | event_heap i _ | event_ready i | event_read i _ _ | event_cancelled i | event_reply i _ _ | event_fail i _ | event_exit i _ =>
      ∃ w, in_thread p i w
  | event_receive i => ∃ w, in_thread p i w ∧ (may_wait w = true → receive_ready p = true)
  end.

(** ** What each event does to the mailbox *)

(** A job that waits is cancelled at once, a job that a worker holds is told. *)
Definition cancel_actions (m : mailbox) (id : N) : list mailbox_action :=
  if bool_decide (id ∈ (mb_waiting m).*1) then [act_retire id WORKER_CANCELLED]
  else if bool_decide (id ∈ omap (λ r, x ← r; Some x.1.1) (mb_running m)) then [act_request id]
  else [].

(** A reply succeeds with the bytes given, unless the job was cancelled. *)
Definition reply_of (m : mailbox) (i : nat) (bytes : list byte) : N * list byte :=
  match mb_running m !! i with Some (Some (_, _, false)) => (WORKER_SUCCESS, bytes) | _ => (WORKER_CANCELLED, []) end.

Definition holds (m : mailbox) (i : nat) : bool := match mb_running m !! i with Some (Some _) => true | _ => false end.

(** The actions [l] of an event that answers [r], from mailbox [m] to [m']. *)
Definition event_effect (e : pool_event) (r : response) (m : mailbox) (l : list mailbox_action) (m' : mailbox) : Prop :=
  match e with
  | event_start _ | event_heap _ _ | event_poll | event_ready _ => l = []
  | event_submit _ input => l = accepted (rs_status r) [act_submit input] ∧ (rs_status r = WORKER_OK → rs_number r = mb_next m)
  | event_take ticket _ _ => ∃ kind, l = accepted (rs_status r) [act_take ticket kind (rs_bytes r)]
  | event_cancel ticket => l = cancel_actions m ticket
  | event_stop =>
      Forall stopped l ∧ mb_waiting m' = [] ∧ ∀ i id input c, mb_running m' !! i = Some (Some (id, input, c)) → c = true
  | event_receive i =>
      l = accepted (rs_status r) [act_receive i] ∧
      (rs_status r = WORKER_OK → ∃ id input, mb_running m' !! i = Some (Some (id, input, false)) ∧ rs_number r = length_N input)
  | event_read i _ _ =>
      l = [] ∧ (rs_status r = WORKER_OK → ∃ id c, mb_running m !! i = Some (Some (id, rs_bytes r, c)))
  | event_cancelled i =>
      l = [] ∧ ∀ id input, mb_running m !! i = Some (Some (id, input, true)) → rs_number r = 1
  | event_reply i _ bytes => l = accepted (rs_status r) [act_complete i (reply_of m i bytes).1 (reply_of m i bytes).2]
  | event_fail i _ => lets_go (holds m i) i WORKER_FAILED l
  | event_exit i _ => ∃ kind, (kind = WORKER_FAILED ∨ kind = WORKER_CANCELLED) ∧ lets_go (holds m i) i kind l
  end.

Lemma holds_view p lq lc i w :
  pool_ok p lq lc → po_workers p !! i = Some w → holds (view_of p lq lc) i = negb (wk_current w =? 0).
Proof.
  intros Hok Hi. unfold holds. destruct (N.eqb_spec (wk_current w) 0) as [Hz|Hne].
  - by rewrite (idle_view p lq lc i w Hi Hz).
  - by destruct (held_job p lq lc i w Hok Hi Hne) as (j & _ & _ & _ & ->).
Qed.

Lemma answer_view p lq lc i w bytes :
  pool_ok p lq lc → po_workers p !! i = Some w → wk_current w ≠ 0 → answer p w bytes = reply_of (view_of p lq lc) i bytes.
Proof.
  intros Hok Hi Hne. destruct (held_job p lq lc i w Hok Hi Hne) as (j & Hj & _ & _ & Hv). unfold answer, reply_of, reply_outcome.
  rewrite Hv, (cores_lookup p _ j Hj). simpl. by destruct (jb_cancelled j).
Qed.

Lemma waiting_view p lq lc : (mb_waiting (view_of p lq lc)).*1 = lq.
Proof. simpl. rewrite <-list_fmap_compose. by rewrite (list_fmap_ext _ id lq), list_fmap_id by done. Qed.

Lemma held_ids_view p lq lc id :
  pool_ok p lq lc → id ∈ omap (λ r, x ← r; Some x.1.1) (mb_running (view_of p lq lc)) ↔
  ∃ j, cores p !! id = Some j ∧ jb_done j = false ∧ jb_active j = true.
Proof.
  intros Hok. rewrite list_elem_of_omap. split.
  - intros (r & Hr & Hid). simpl in Hr. apply list_elem_of_fmap in Hr as (w & -> & [i Hi]%list_elem_of_lookup_1). unfold held_by in Hid.
    destruct (N.eqb_spec (wk_current w) 0) as [|Hne]; [done|]. simpl in Hid. injection Hid as <-.
    destruct (wp_current _ (rn_workers _ _ _ (pk_running _ _ _ Hok)) i w Hi Hne) as (_ & j & ?). by exists j.
  - intros (j & Hc & Hd & Ha). destruct (wp_held _ (rn_workers _ _ _ (pk_running _ _ _ Hok)) id j Hc Hd Ha) as (i & w & Hi & Hcur).
    assert (wk_current w ≠ 0) as Hne.
    { destruct (jk_id _ _ _ _ _ _ (jo_job _ _ _ (rn_jobs _ _ _ (pk_running _ _ _ Hok)) id j Hc)). rewrite Hcur. lia. }
    destruct (held_job p lq lc i w Hok Hi Hne) as (j' & _ & _ & _ & Hv). rewrite Hcur in Hv. eexists. split; [by eapply list_elem_of_lookup_2|done].
Qed.

Lemma cancels_view p lq lc id : pool_ok p lq lc → from_option (cancels id) [] (cores p !! id) = cancel_actions (view_of p lq lc) id.
Proof.
  intros Hok. unfold cancel_actions. rewrite waiting_view. pose proof (held_ids_view p lq lc id Hok) as Hheld. revert Hheld.
  generalize (omap (λ r, x ← r; Some x.1.1) (mb_running (view_of p lq lc))). intros held Hheld.
  pose proof (rn_jobs _ _ _ (pk_running _ _ _ Hok)) as Hj. destruct (cores p !! id) as [j|] eqn:Hc; simpl.
  - pose proof (jk_queued _ _ _ _ _ _ (jo_job _ _ _ Hj id j Hc)) as Hq. unfold cancels.
    destruct (jb_done j) eqn:Hd; [|destruct (jb_active j) eqn:Ha].
    + rewrite !bool_decide_false; [done|rewrite Hheld; intros (j' & [= <-] & ? & _); congruence|by intros [? _]%Hq].
    + rewrite bool_decide_false by (by intros [_ ?]%Hq). rewrite bool_decide_true; [done|]. apply Hheld. by exists j.
    + rewrite bool_decide_true; [done|]. by apply Hq.
  - rewrite !bool_decide_false; [done|rewrite Hheld; by intros (j' & ? & _)|]. by destruct (not_listed p lq lc id Hj Hc).
Qed.

(** An event, with what it answers and does to the mailbox. *)
Definition follows (e : pool_event) (p : pool) (lq lc : list N) (r : response) (p' : pool) : Prop :=
  ∃ l lq' lc', pool_ok p' lq' lc' ∧ moved l p lq lc p' lq' lc' ∧ event_effect e r (view_of p lq lc) l (view_of p' lq' lc').

Lemma follows_settles e p lq lc r p' P :
  settles P p lq lc p' → (∀ l lq' lc', P l → pool_ok p' lq' lc' → event_effect e r (view_of p lq lc) l (view_of p' lq' lc')) →
  follows e p lq lc r p'.
Proof. intros (l & lq' & lc' & Hl & Hok & Hm) H. exists l, lq', lc'. split_and!; auto. Qed.

Lemma follows_here e p lq lc r : pool_ok p lq lc → event_effect e r (view_of p lq lc) [] (view_of p lq lc) → follows e p lq lc r p.
Proof. intros Hok He. exists [], lq, lc. split_and!; [done|by apply moved_refl|done]. Qed.

Lemma start_follows started p lq lc :
  pool_ok p lq lc → event_ok (event_start started) p → follows (event_start started) p lq lc done_with (start_thread started p).
Proof.
  intros Hok [Hlt Hst]. exists [], lq, lc. split_and!; [by apply start_thread_ok| |done]. unfold start_thread. destruct started; by apply moved_refl.
Qed.

Lemma stop_follows p lq lc : pool_ok p lq lc → returns (stop p) (λ p', follows event_stop p lq lc done_with p').
Proof.
  intros Hok. eapply returns_weaken; [by apply stop_ok|]. intros p' (Hs & Hst & Hend). eapply follows_settles; [exact Hs|].
  intros l lq' lc' Hl Hok'. pose proof (pk_stopping _ _ _ Hok' Hst) as ->. split_and!; [done|done|]. intros i id input c Hi.
  pose proof Hi as Hi0. simpl in Hi0. rewrite list_lookup_fmap in Hi0. destruct (po_workers p' !! i) as [w|] eqn:Hw; [|done].
  destruct (decide (wk_current w = 0)) as [Hz|Hne]; [rewrite (idle_view p' [] lc' i w Hw Hz) in Hi; done|].
  destruct (held_job p' [] lc' i w Hok' Hw Hne) as (j & Hj & Hd & _ & Hv). rewrite Hv in Hi. injection Hi as <- <- <-.
  destruct (Hend _ _ (cores_lookup p' _ j Hj)) as [Hc|Hc]; simpl in Hc; congruence.
Qed.

Lemma receive_follows i w p lq lc :
  pool_ok p lq lc → in_thread p i w → (may_wait w = true → receive_ready p = true) →
  returns ('(status, n, p) ← worker_receive i p; Ok (mk_response status n [], p)) (λ '(r, p'), follows (event_receive i) p lq lc r p').
Proof.
  intros Hok Hth Hwait. eapply returns_bind; [by apply (worker_receive_ok i w p lq lc)|]. intros [[status n] p'] [Hs Hgot]. apply returns_Ok.
  eapply follows_settles; [exact Hs|]. intros l lq' lc' -> Hok'. split; [done|]. intros Hst. cbn [rs_status] in Hst.
  destruct (Hgot Hst) as (id & lq0 & j & -> & Hc & -> & Hcan & Hi' & Hc').
  destruct (jk_id _ _ _ _ _ _ (jo_job _ _ _ (rn_jobs _ _ _ (pk_running _ _ _ Hok)) id j Hc)) as [_ Hpos].
  destruct (held_job p' lq' lc' i _ Hok' Hi') as (j' & Hj' & _ & _ & Hv); [simpl; lia|]. cbn [set_current wk_current] in Hj', Hv.
  exists id, (jb_input j). rewrite Hv, (cores_lookup p' id j' Hj') in *. apply (inj Some) in Hc' as Hcore.
  apply (f_equal jb_input) in Hcore as Hin. apply (f_equal jb_cancelled) in Hcore as Hca. simpl in Hin, Hca. rewrite Hin, Hca, Hcan. by split.
Qed.

Lemma reply_follows i w memory bytes p lq lc :
  pool_ok p lq lc → in_thread p i w →
  returns ('(status, p) ← worker_reply i memory bytes p; Ok (mk_response status 0 [], p))
    (λ '(r, p'), follows (event_reply i memory bytes) p lq lc r p').
Proof.
  intros Hok Hth. eapply returns_bind; [by apply (worker_reply_ok i w memory bytes p lq lc)|]. intros [status p'] (Hs & Hgot & _). apply returns_Ok.
  eapply follows_settles; [exact Hs|]. intros l lq' lc' -> _. cbn [event_effect rs_status]. unfold accepted.
  destruct (N.eqb_spec status WORKER_OK) as [Hst|]; [|done]. destruct (Hgot Hst) as (j & Hne & _).
  by rewrite (answer_view p lq lc i w bytes Hok (proj1 Hth) Hne).
Qed.

Lemma run_event_ok e p lq lc :
  pool_ok p lq lc → event_ok e p → returns (run_event e p) (λ '(r, p'), follows e p lq lc r p').
Proof.
  intros Hok He. destruct e; cbn [run_event event_ok] in *.
  - apply returns_Ok. by apply start_follows.
  - destruct He as [w Hth]. pose proof Hth as (Hi & _ & Hex). rewrite (update_worker_ok i _ p w Hi), bind_Ok. apply returns_Ok.
    eapply follows_settles; [by eapply set_flag_ok|]. by intros l lq' lc' ->.
  - eapply returns_bind; [by apply (submit_ok memory bytes p lq lc)|]. intros [[s n] p'] (Hs & Hgot & _). apply returns_Ok.
    eapply follows_settles; [exact Hs|]. intros l lq' lc' -> _. split; [done|]. intros Hst. by destruct (Hgot Hst) as [-> _].
  - rewrite (poll_ok p lq lc) by done. rewrite bind_Ok. destruct lc as [|id lc]; [|destruct (outcome_of _ _) as [[? ?] ?]]; apply returns_Ok; by apply follows_here.
  - eapply returns_bind; [by apply (take_job_ok ticket output capacity p lq lc)|]. intros [[s n] p'] (Hs & _). apply returns_Ok.
    by eapply follows_settles.
  - eapply returns_bind; [by apply (cancel_ok ticket p lq lc)|]. intros [s p'] Hs. apply returns_Ok.
    eapply follows_settles; [exact Hs|]. intros l lq' lc' -> _. by apply cancels_view.
  - eapply returns_bind; [by apply stop_follows|]. intros p' Hf. by apply returns_Ok.
  - destruct He as [w Hth]. eapply returns_bind; [by apply (worker_ready_ok i w p lq lc)|]. intros [s p'] Hs. apply returns_Ok.
    eapply follows_settles; [exact Hs|]. by intros l lq' lc' ->.
  - destruct He as (w & Hth & Hr). by apply (receive_follows i w).
  - destruct He as [w Hth]. eapply returns_bind; [by apply (worker_read_ok i w output capacity p lq lc)|]. intros [s bytes] Hread. apply returns_Ok.
    by apply follows_here.
  - destruct He as [w Hth]. eapply returns_bind; [by apply (worker_cancelled_ok i w p lq lc)|]. intros b Hb. apply returns_Ok.
    apply follows_here; [done|]. split; [done|]. intros id input Hv. by rewrite (Hb id input true Hv), orb_true_r.
  - destruct He as [w Hth]. by apply (reply_follows i w).
  - destruct He as [w Hth]. eapply returns_bind; [by apply (worker_fail_ok i w detail p lq lc)|]. intros [s p'] Hs. apply returns_Ok.
    eapply follows_settles; [exact Hs|]. intros l lq' lc' Hl _. cbn [event_effect]. by rewrite (holds_view p lq lc i w Hok (proj1 Hth)).
  - destruct He as [w Hth]. eapply returns_bind; [by apply (worker_exit_ok i w)|]. intros p' Hs. apply returns_Ok.
    eapply follows_settles; [exact Hs|]. intros l lq' lc' Hl _. cbn [event_effect]. by rewrite (holds_view p lq lc i w Hok (proj1 Hth)).
Qed.

Inductive pool_step : pool → pool → Prop :=
| pool_step_event e p r p' : event_ok e p → run_event e p = Ok (r, p') → pool_step p p'.

(** A pool that [open] made, after some events. *)
Inductive pool_reached : pool → Prop :=
| reached_open heap options entry config length p : open_pool heap options entry config length = inr p → pool_reached p
| reached_step p p' : pool_reached p → pool_step p p' → pool_reached p'.

Lemma pool_reached_ok p : pool_reached p → ∃ lq lc, pool_ok p lq lc.
Proof.
  induction 1 as [heap options entry config length p Ho|p p' _ (lq & lc & Hok) Hs].
  - destruct (open_pool_ok _ _ _ _ _ _ Ho). eauto.
  - destruct Hs as [e p r p' He Hrun]. destruct (run_event_ok e p lq lc Hok He) as ([r' p1] & Hrun' & l & lq' & lc' & Hok' & _).
    rewrite Hrun in Hrun'. injection Hrun' as <- <-. by exists lq', lc'.
Qed.
