(* ===== verification/WorkerSpec.v ===== *)
(** * What worker pools promise

    The theorems about [worker_pool.cpp]: in every interleaving of the owner and the
    workers the pool is consistent and implements its mailbox, its readiness channel is
    exact, and no job is lost; then their use on a small pool. *)

From S2P Require Import Prelude Storage Heap WorkerPool WorkerInvariant.
From S2P Require Import WorkerSafety WorkerSteps.

Local Open Scope list_scope.
Local Open Scope N_scope.

(** ** Where jobs are *)

Lemma ids_of_view p lq lc :
  mailbox_ids (view_of p lq lc) = lq ++ filter (λ id, id ≠ 0) (wk_current <$> po_workers p) ++ lc.
Proof.
  unfold mailbox_ids, view_of, view. simpl. rewrite <-!list_fmap_compose. f_equal; [|f_equal].
  - by rewrite (list_fmap_ext _ id lq), list_fmap_id by done.
  - induction (po_workers p) as [|w ws IH]; [done|]. rewrite !fmap_cons, filter_cons.
    change (held_by (cores p) w :: (held_by (cores p) <$> ws)) with ([held_by (cores p) w] ++ (held_by (cores p) <$> ws)).
    rewrite omap_app, IH. unfold held_by at 1. destruct (N.eqb_spec (wk_current w) 0) as [Hz|Hne]; simpl; case_decide; done.
  - by rewrite (list_fmap_ext _ id lc), list_fmap_id by done.
Qed.

Lemma NoDup_filter_unique (l : list N) :
  (∀ i i' a, l !! i = Some a → l !! i' = Some a → a ≠ 0 → i = i') → NoDup (filter (λ a, a ≠ 0) l).
Proof.
  induction l as [|b l IH]; intros Hu; [apply NoDup_nil_2|].
  assert (NoDup (filter (λ a, a ≠ 0) l)) as Hnd.
  { apply IH. intros i i' a Hi Hi' Hne. by apply (inj S), (Hu (S i) (S i') a). }
  rewrite filter_cons. case_decide as Hb; [|done]. apply NoDup_cons. split; [|done].
  rewrite list_elem_of_filter. intros [_ [i Hi]%list_elem_of_lookup_1]. by specialize (Hu 0%nat (S i) b eq_refl Hi Hb).
Qed.

(** Every job of the pool is in exactly one place of the mailbox. *)
Lemma view_exact p lq lc :
  running p lq lc →
  NoDup (mailbox_ids (view_of p lq lc)) ∧ ∀ id, id ∈ mailbox_ids (view_of p lq lc) ↔ is_Some (po_jobs p !! id).
Proof.
  intros Hr. pose proof Hr as [Hj Hw _]. pose proof (jo_queues _ _ _ Hj) as Hq.
  assert (∀ id, id ∈ filter (λ id, id ≠ 0) (wk_current <$> po_workers p) → ∃ j, cores p !! id = Some j ∧ jb_done j = false ∧ jb_active j = true) as Hcur.
  { intros id. rewrite list_elem_of_filter, list_elem_of_fmap. intros [Hne (w & -> & [i Hi]%list_elem_of_lookup_1)].
    destruct (wp_current _ Hw i w Hi Hne) as (_ & j & ?). eauto. }
  split.
  - rewrite ids_of_view. apply NoDup_app. split_and!; [apply (lk_nodup _ _ _ _ (qs_linked _ _ Hq queued))| |].
    + intros id Hid [Ha|Ha]%elem_of_app.
      * destruct (Hcur id Ha) as (j & Hc & _ & Hact). apply (jk_queued _ _ _ _ _ _ (jo_job _ _ _ Hj id j Hc)) in Hid as [_ ?]. congruence.
      * exact (qs_apart _ _ Hq queued id Hid Ha).
    + apply NoDup_app. split_and!; [| |apply (lk_nodup _ _ _ _ (qs_linked _ _ Hq completed))].
      * apply NoDup_filter_unique. intros i i' a Hi Hi' Hne. rewrite list_lookup_fmap in Hi, Hi'.
        destruct (po_workers p !! i) as [w|] eqn:E1, (po_workers p !! i') as [w'|] eqn:E2; try done. simpl in *. injection Hi as <-. injection Hi' as Heq.
        apply (wp_unique _ Hw i i' w w'); congruence.
      * intros id Ha Hid. destruct (Hcur id Ha) as (j & Hc & Hd & _). apply (jk_completed _ _ _ _ _ _ (jo_job _ _ _ Hj id j Hc)) in Hid. congruence.
  - intros id. split.
    + intros Hid%(view_ids p lq lc id Hr). unfold cores in Hid. rewrite lookup_fmap, fmap_is_Some in Hid. done.
    + intros [j0 Hj0]. pose proof (cores_lookup p id j0 Hj0) as Hc. pose proof (jo_job _ _ _ Hj id _ Hc) as Hjob. rewrite ids_of_view, !elem_of_app.
      destruct (jb_done (core j0)) eqn:Hd; [right; right; by apply (jk_completed _ _ _ _ _ _ Hjob)|].
      destruct (jb_active (core j0)) eqn:Ha; [|left; by apply (jk_queued _ _ _ _ _ _ Hjob)]. right; left.
      destruct (wp_held _ Hw id _ Hc Hd Ha) as (i & w & Hi & Hcurr). apply list_elem_of_filter. split; [destruct (jk_id _ _ _ _ _ _ Hjob); lia|].
      apply list_elem_of_fmap. exists w. split; [done|by eapply list_elem_of_lookup_2].
Qed.

(** The mailbox a pool implements: its queues in their order, and what its workers hold. *)
Definition implements (p : pool) (m : mailbox) : Prop := ∃ lq lc, pool_ok p lq lc ∧ m = view_of p lq lc.

Lemma step_reached e p r p' : pool_reached p → event_ok e p → run_event e p = Ok (r, p') → pool_reached p'.
Proof. intros Hp He Hrun. eapply reached_step; [done|by eapply pool_step_event]. Qed.

Lemma steps_reached p p' : pool_reached p → rtc pool_step p p' → pool_reached p'.
Proof. intros Hp Hs. induction Hs as [|p1 p2 p3 Hs _ IH]; [done|]. apply IH. by eapply reached_step. Qed.

(** Stopping and joining, whatever pool the threads leave. *)
Lemma join_returns threads p (Q : pool → Prop) :
  pool_reached p → (∀ q, pool_reached q → returns (threads q) Q) → ∃ p', join threads p = Ok (join_report p') ∧ Q p'.
Proof.
  intros Hp Ht. destruct (pool_reached_ok p Hp) as (lq & lc & Hok).
  destruct (run_event_ok event_stop p lq lc Hok I) as ([r p1] & Hrun & _).
  pose proof (step_reached event_stop p r p1 Hp I Hrun) as Hp1. unfold join. cbn [run_event] in Hrun.
  apply bind_Ok_inv in Hrun as (p2 & -> & [= <- <-]). rewrite bind_Ok. destruct (Ht p2 Hp1) as (p' & -> & HQ). by exists p'.
Qed.

Lemma new_workers_idle cs n : held_by cs <$> replicate n new_worker = replicate n None.
Proof. by rewrite fmap_replicate. Qed.

Lemma opened_implements heap options entry config len p :
  open_pool heap options entry config len = inr p →
  implements p (mk_mailbox 1 [] (replicate (length (po_workers p)) None) []).
Proof.
  intros Ho. destruct (open_pool_ok _ _ _ _ _ _ Ho) as [Hok _]. exists [], []. split; [done|].
  unfold open_pool in Ho. destruct options as [o|]; [|done]. repeat (case_match; [done|]). injection Ho as <-.
  unfold view_of, view. cbn [po_next_job po_workers]. by rewrite length_replicate, new_workers_idle.
Qed.

(** *** When a call is granted *)

(** What a call needs: the owner a pool that takes jobs and room for one more, an outcome that is
    there and a buffer for it; a worker a job, or none when it asks for one, and a buffer.
    [memory] tells whether the call's allocation succeeds. *)
Definition granted (e : pool_event) (p : pool) (m : mailbox) : Prop :=
  match e with
  | event_submit memory input =>
      po_stopping p = false ∧ po_alive p ≠ 0 ∧ length_N input ≤ wo_max_input_bytes (po_options p) ∧
      length_N (mailbox_ids m) < wo_max_outstanding (po_options p) ∧
      po_reserved p + (length_N input + wo_max_output_bytes (po_options p)) ≤ wo_max_reserved_bytes (po_options p) ∧
      mb_next m ≠ u64_max ∧ memory = true
  | event_poll => mb_finished m ≠ []
  | event_take ticket output capacity =>
      ∃ kind bytes, (ticket, kind, bytes) ∈ mb_finished m ∧ length_N bytes ≤ capacity ∧ (bytes = [] ∨ output = true)
  | event_cancel ticket => ticket ∈ mailbox_ids m
  | event_ready i => ∃ w, po_workers p !! i = Some w ∧ wk_ready w = false ∧ wk_failed w = false ∧ po_stopping p = false
  | event_receive i =>
      ∃ w, po_workers p !! i = Some w ∧ wk_ready w = true ∧ wk_failed w = false ∧ holds m i = false ∧ po_stopping p = false
  | event_read i output capacity =>
      ∃ id input c, mb_running m !! i = Some (Some (id, input, c)) ∧ length_N input ≤ capacity ∧ (input = [] ∨ output = true)
  | event_reply i memory bytes =>
      ∃ id input c, mb_running m !! i = Some (Some (id, input, c)) ∧ length_N bytes ≤ wo_max_output_bytes (po_options p) ∧
        (c = true ∨ bytes = [] ∨ memory = true)
  | _ => True
  end.

Lemma mailbox_size p lq lc : running p lq lc → length_N (mailbox_ids (view_of p lq lc)) = N.of_nat (base.size (po_jobs p)).
Proof.
  intros Hr. destruct (view_exact p lq lc Hr) as [Hnd Hids]. unfold length_N. f_equal. rewrite <-size_dom, <-(size_list_to_set (C:=gset N)) by done.
  f_equal. apply set_eq. intros id. by rewrite elem_of_list_to_set, Hids, elem_of_dom.
Qed.

Lemma finished_iff p lq lc id kind bytes :
  pool_ok p lq lc →
  (id, kind, bytes) ∈ mb_finished (view_of p lq lc) ↔
  ∃ j, po_jobs p !! id = Some j ∧ jb_done j = true ∧ jb_kind j = kind ∧ jb_output j = bytes.
Proof.
  intros Hok. pose proof (rn_jobs _ _ _ (pk_running _ _ _ Hok)) as Hj. simpl. rewrite list_elem_of_fmap. split.
  - intros (id' & Heq & Hid). pose proof (f_equal (λ x, x.1.1) Heq) as E. simpl in E. subst id'.
    destruct (listed p lq lc completed id (jo_queues _ _ _ Hj) Hid) as [c Hc]. pose proof Hc as Hc0. unfold cores in Hc0. rewrite lookup_fmap in Hc0.
    destruct (po_jobs p !! id) as [j|] eqn:Hjob; [|done]. apply (inj Some) in Hc0. unfold outcome_of in Heq. rewrite Hc in Heq. simpl in Heq.
    exists j. split; [done|]. rewrite <-Hc0 in *. injection Heq as -> ->. split_and!; [|done..].
    by apply (jk_completed _ _ _ _ _ _ (jo_job _ _ _ Hj id _ Hc)).
  - intros (j & Hjob & Hd & <- & <-). pose proof (cores_lookup p id j Hjob) as Hc. exists id. split; [unfold outcome_of; by rewrite Hc|].
    by apply (jk_completed _ _ _ _ _ _ (jo_job _ _ _ Hj id _ Hc)).
Qed.

Lemma running_iff p lq lc i w id input c :
  pool_ok p lq lc → po_workers p !! i = Some w →
  mb_running (view_of p lq lc) !! i = Some (Some (id, input, c)) ↔
  wk_current w ≠ 0 ∧ ∃ j, po_jobs p !! wk_current w = Some j ∧ id = wk_current w ∧ input = jb_input j ∧ c = jb_cancelled j.
Proof.
  intros Hok Hi. destruct (decide (wk_current w = 0)) as [Hz|Hne].
  - rewrite (idle_view p lq lc i w Hi Hz). split; [done|by intros [? _]].
  - destruct (held_job p lq lc i w Hok Hi Hne) as (j & Hj & _ & _ & ->). split.
    + intros [= <- <- <-]. split; [done|]. by exists j.
    + intros (_ & j' & Hj' & -> & -> & ->). by simplify_eq.
Qed.

(** A call that is refused, and what it lacked. *)
Ltac refused Hrun := cbn in Hrun; injection Hrun as <- _; split; [done|intros Hg; exfalso].

Lemma submit_granted memory input p lq lc r p' :
  pool_ok p lq lc → run_event (event_submit memory input) p = Ok (r, p') →
  rs_status r = WORKER_OK ↔ granted (event_submit memory input) p (view_of p lq lc).
Proof.
  intros Hok Hrun. pose proof (rn_jobs _ _ _ (pk_running _ _ _ Hok)) as Hj. cbn [run_event granted] in *.
  rewrite (mailbox_size _ _ _ (pk_running _ _ _ Hok)). unfold submit in Hrun.
  destruct (po_stopping p); [refused Hrun; by destruct Hg|]. destruct (N.eqb_spec (po_alive p) 0) as [|Ha]; [refused Hrun; by destruct Hg as (_ & ? & _)|].
  cbn [orb] in Hrun. destruct (N.ltb_spec (wo_max_input_bytes (po_options p)) (length_N input)) as [|Hin]; [refused Hrun; lia|]. cbv zeta in Hrun.
  rewrite u64_small in Hrun.
  2: { destruct (jo_options _ _ _ Hj) as (_ & _ & Hi & Ho & _). assert (128 * mib + 128 * mib ≤ u64_max) by done. lia. }
  match type of Hrun with context [if ?b then Ok (WORKER_FULL, _, _) else _] => destruct b eqn:Hfull end.
  { refused Hrun. rewrite !orb_true_iff, N.leb_le, !N.ltb_lt in Hfull. lia. }
  rewrite !orb_false_iff, N.leb_gt, !N.ltb_ge in Hfull.
  destruct (N.eqb_spec (po_next_job p) u64_max) as [|Hlast]; [refused Hrun; by destruct Hg as (_ & _ & _ & _ & _ & ? & _)|].
  destruct memory; cbn [negb] in Hrun; [|refused Hrun; by destruct Hg as (_ & _ & _ & _ & _ & _ & ?)].
  apply bind_Ok_inv in Hrun as ([[st n] q] & Hrun & Hdone). apply bind_Ok_inv in Hrun as (q0 & _ & Hrun). injection Hrun as <- _ _.
  injection Hdone as <- _. split; [intros _|done]. split_and!; try done; lia.
Qed.

Lemma take_granted ticket output capacity p lq lc r p' :
  pool_ok p lq lc → run_event (event_take ticket output capacity) p = Ok (r, p') →
  rs_status r = WORKER_OK ↔ granted (event_take ticket output capacity) p (view_of p lq lc).
Proof.
  intros Hok Hrun. cbn [run_event granted] in *.
  assert ((∃ kind bytes, (ticket, kind, bytes) ∈ mb_finished (view_of p lq lc) ∧ length_N bytes ≤ capacity ∧ (bytes = [] ∨ output = true)) ↔
    ∃ j, po_jobs p !! ticket = Some j ∧ jb_done j = true ∧ length_N (jb_output j) ≤ capacity ∧ (jb_output j = [] ∨ output = true)) as ->.
  { split.
    - intros (kind & bytes & (j & Hj & Hd & _ & <-)%(finished_iff p lq lc _ _ _ Hok) & ?). by exists j.
    - intros (j & Hj & Hd & ?). exists (jb_kind j), (jb_output j). split; [|done]. apply finished_iff; [done|]. by exists j. }
  unfold take_job in Hrun. destruct (po_jobs p !! ticket) as [j|]; [|refused Hrun; by destruct Hg as (? & ? & _)].
  destruct (jb_done j) eqn:Hd; cbn [negb] in Hrun; [|refused Hrun; destruct Hg as (? & [= <-] & ? & _); congruence].
  destruct (N.ltb_spec capacity (length_N (jb_output j))) as [|Hlen]; [refused Hrun; destruct Hg as (? & [= <-] & _ & ? & _); lia|].
  destruct (negb (bool_decide (jb_output j = [])) && negb output) eqn:Hb.
  - refused Hrun. apply andb_true_iff in Hb as [Hb%negb_true_iff%bool_decide_eq_false Ho%negb_true_iff].
    destruct Hg as (? & [= <-] & _ & _ & [?|?]); congruence.
  - apply bind_Ok_inv in Hrun as ([[st n] q] & Hrun & Hdone). apply bind_Ok_inv in Hrun as (q0 & _ & Hrun). injection Hrun as <- _ _.
    injection Hdone as <- _. split; [intros _|done]. exists j. split_and!; try done.
    apply andb_false_iff in Hb as [Hb%negb_false_iff%bool_decide_eq_true|Ho%negb_false_iff]; auto.
Qed.

Lemma receive_granted i p lq lc r p' :
  pool_ok p lq lc → event_ok (event_receive i) p → run_event (event_receive i) p = Ok (r, p') →
  rs_status r = WORKER_OK ↔ granted (event_receive i) p (view_of p lq lc).
Proof.
  intros Hok (w & (Hi & _) & _) Hrun. cbn [run_event granted] in *. unfold worker_receive, load_worker in Hrun. rewrite Hi, load_Some, bind_Ok in Hrun.
  pose proof (holds_view p lq lc i w Hok Hi) as ->.
  destruct (wk_ready w) eqn:Hr; cbn [negb orb] in Hrun; [|refused Hrun; destruct Hg as (? & [= <-]%(eq_trans (eq_sym Hi)) & ? & _); congruence].
  destruct (wk_failed w) eqn:Hf; cbn [orb] in Hrun; [refused Hrun; destruct Hg as (? & [= <-]%(eq_trans (eq_sym Hi)) & _ & ? & _); congruence|].
  destruct (wk_current w =? 0) eqn:Hc; cbn [negb] in Hrun |- *; [|refused Hrun; by destruct Hg as (? & _ & _ & _ & ? & _)].
  destruct (po_stopping p) eqn:Hs; [refused Hrun; by destruct Hg as (? & _ & _ & _ & _ & ?)|].
  apply bind_Ok_inv in Hrun as ([[st n] q] & Hrun & Hdone). repeat apply bind_Ok_inv in Hrun as (? & _ & Hrun). injection Hrun as <- _ _.
  injection Hdone as <- _. split; [intros _|done]. by exists w.
Qed.

Lemma read_granted i output capacity p lq lc r p' :
  pool_ok p lq lc → event_ok (event_read i output capacity) p → run_event (event_read i output capacity) p = Ok (r, p') →
  rs_status r = WORKER_OK ↔ granted (event_read i output capacity) p (view_of p lq lc).
Proof.
  intros Hok (w & (Hi & _)) Hrun. cbn [run_event granted] in *. unfold worker_read, load_worker in Hrun. rewrite Hi, load_Some, bind_Ok in Hrun.
  pose proof (λ id input c, running_iff p lq lc i w id input c Hok Hi) as Hiff.
  destruct (N.eqb_spec (wk_current w) 0) as [Hz|Hne]; cbn [orb] in Hrun;
    [refused Hrun; by destruct Hg as (? & ? & ? & [? _]%Hiff & _)|].
  destruct (wk_failed w) eqn:Hf; [by destruct Hne; apply (pk_failed _ _ _ Hok i)|].
  destruct (held_job p lq lc i w Hok Hi Hne) as (j & Hj & _). unfold load_job in Hrun. rewrite Hj, load_Some, bind_Ok in Hrun.
  assert (∀ P : list byte → Prop, (∃ id input c, mb_running (view_of p lq lc) !! i = Some (Some (id, input, c)) ∧ P input) ↔ P (jb_input j)) as Hin.
  { intros P. split; [intros (id & input & c & (_ & j' & Hj' & _ & -> & _)%Hiff & HP); by simplify_eq|].
    intros HP. eexists _, _, _. split; [apply Hiff; split; [done|by exists j]|done]. }
  rewrite (Hin (λ input, length_N input ≤ capacity ∧ (input = [] ∨ output = true))).
  destruct (N.ltb_spec capacity (length_N (jb_input j))); [refused Hrun; lia|].
  destruct (negb (bool_decide (jb_input j = [])) && negb output) eqn:Hb.
  - refused Hrun. apply andb_true_iff in Hb as [Hb%negb_true_iff%bool_decide_eq_false Ho%negb_true_iff]. destruct Hg as (_ & [?|?]); congruence.
  - cbn in Hrun. injection Hrun as <- _. split; [intros _|done]. split; [done|].
    apply andb_false_iff in Hb as [Hb%negb_false_iff%bool_decide_eq_true|Ho%negb_false_iff]; auto.
Qed.

Lemma reply_granted i memory bytes p lq lc r p' :
  pool_ok p lq lc → event_ok (event_reply i memory bytes) p → run_event (event_reply i memory bytes) p = Ok (r, p') →
  rs_status r = WORKER_OK ↔ granted (event_reply i memory bytes) p (view_of p lq lc).
Proof.
  intros Hok (w & (Hi & _)) Hrun. cbn [run_event granted] in *. unfold worker_reply, load_worker in Hrun. rewrite Hi, load_Some, bind_Ok in Hrun.
  pose proof (λ id input c, running_iff p lq lc i w id input c Hok Hi) as Hiff.
  destruct (N.eqb_spec (wk_current w) 0) as [Hz|Hne]; cbn [orb] in Hrun;
    [refused Hrun; by destruct Hg as (? & ? & ? & [? _]%Hiff & _)|].
  destruct (wk_failed w) eqn:Hf; [by destruct Hne; apply (pk_failed _ _ _ Hok i)|].
  destruct (N.ltb_spec (wo_max_output_bytes (po_options p)) (length_N bytes)) as [|Hlen]; [refused Hrun; by destruct Hg as (? & ? & ? & _ & ? & _); lia|].
  destruct (held_job p lq lc i w Hok Hi Hne) as (j & Hj & _). unfold load_job in Hrun. rewrite Hj, load_Some in Hrun. cbv zeta in Hrun. rewrite bind_Ok in Hrun.
  destruct (negb (jb_cancelled j) && negb (length_N bytes =? 0) && negb memory) eqn:Hb.
  - refused Hrun. rewrite !andb_true_iff, !negb_true_iff, N.eqb_neq in Hb. destruct Hb as [[Hc Hn] Hm].
    destruct Hg as (? & ? & ? & (_ & j' & Hj' & _ & _ & ->)%Hiff & _ & [?|[->|?]]); simplify_eq; congruence.
  - apply bind_Ok_inv in Hrun as ([st q] & Hrun & Hdone). repeat apply bind_Ok_inv in Hrun as (? & _ & Hrun). injection Hrun as <- _.
    injection Hdone as <- _. split; [intros _|done]. eexists _, _, _. split; [apply Hiff; split; [done|by exists j]|]. split; [done|].
    rewrite !andb_false_iff, !negb_false_iff, N.eqb_eq in Hb. destruct Hb as [[?|Hn]|?]; [by left| |by right; right].
    right. left. by apply length_zero_iff_nil; unfold length_N in Hn; lia.
Qed.

Lemma granted_iff e p lq lc r p' :
  pool_ok p lq lc → event_ok e p → run_event e p = Ok (r, p') → rs_status r = WORKER_OK ↔ granted e p (view_of p lq lc).
Proof.
  intros Hok He Hrun. destruct e; try (cbn in Hrun; by simplify_eq).
  - cbn [run_event granted] in *. apply bind_Ok_inv in Hrun as (? & _ & [= <- _]). done.
  - by eapply submit_granted.
  - cbn [run_event event_ok granted] in *. rewrite (poll_ok p lq lc Hok He), bind_Ok in Hrun. cbn [view_of view mb_finished].
    destruct lc as [|id lc]; cbn [fmap list_fmap].
    + injection Hrun as <- _. cbn [rs_status]. split; [|done]. by destruct (_ && _).
    + destruct (outcome_of (cores p) id) as [[? ?] ?]. by injection Hrun as <- _.
  - by eapply take_granted.
  - cbn [run_event granted] in *. destruct (view_exact p lq lc (pk_running _ _ _ Hok)) as [_ ->]. unfold cancel in Hrun.
    destruct (po_jobs p !! ticket) as [j|]; [|by refused Hrun; destruct Hg].
    apply bind_Ok_inv in Hrun as ([st q] & Hrun & [= <- _]). apply bind_Ok_inv in Hrun as (? & _ & [= <- _]). split; [by eexists|done].
  - cbn [run_event granted] in *. apply bind_Ok_inv in Hrun as (? & _ & [= <- _]). done.
  - destruct He as (w & Hi & _). cbn [run_event granted] in *. unfold worker_ready, load_worker in Hrun. rewrite Hi, load_Some, bind_Ok in Hrun.
    destruct (wk_failed w) eqn:Hf; cbn [orb] in Hrun; [refused Hrun; destruct Hg as (? & [= <-]%(eq_trans (eq_sym Hi)) & _ & ? & _); congruence|].
    destruct (wk_ready w) eqn:Hr; [refused Hrun; destruct Hg as (? & [= <-]%(eq_trans (eq_sym Hi)) & ? & _); congruence|].
    destruct (po_stopping p); [refused Hrun; by destruct Hg as (? & _ & _ & _ & ?)|].
    apply bind_Ok_inv in Hrun as ([st q] & Hrun & [= <- _]). apply bind_Ok_inv in Hrun as (? & _ & [= <- _]). split; [by exists w|done].
  - by eapply receive_granted.
  - by eapply read_granted.
  - cbn [run_event granted] in *. apply bind_Ok_inv in Hrun as (? & _ & [= <- _]). done.
  - by eapply reply_granted.
  - cbn [run_event granted] in *. apply bind_Ok_inv in Hrun as ([st q] & Hrun & [= <- _]). apply bind_Ok_inv in Hrun as (? & _ & [= <- _]). done.
  - cbn [run_event granted] in *. apply bind_Ok_inv in Hrun as (? & _ & [= <- _]). done.
Qed.


(** C24: A worker pool implements its mailbox.  In every reached state each job is in exactly one
    place, waiting, held by one worker, or finished, and its identity was given once.  Each
    call then does to the mailbox what the call is for and nothing else: an accepted job
    waits last; a worker receives the oldest waiting job; a reply ends the job that the
    worker holds, with the bytes of the reply unless the job was cancelled; a taken job was
    finished and hands out its output; cancelling ends a job that waits and only marks one
    that is held; a call that is refused does nothing. *)
Theorem worker_pool_refines_mailbox p :
  pool_reached p →
  (∃ m, implements p m) ∧
  (∀ heap options entry config len, open_pool heap options entry config len = inr p →
     implements p (mk_mailbox 1 [] (replicate (length (po_workers p)) None) [])) ∧
  ∀ m, implements p m →
    NoDup (mailbox_ids m) ∧ (∀ id, id ∈ mailbox_ids m ↔ is_Some (po_jobs p !! id)) ∧
    (∀ id, id ∈ mailbox_ids m → 0 < id < mb_next m) ∧
    ∀ e r p', event_ok e p → run_event e p = Ok (r, p') →
      (rs_status r = WORKER_OK ↔ granted e p m) ∧
      ∃ l m', mailbox_run l m m' ∧ event_effect e r m l m' ∧ implements p' m'.
Proof.
  intros Hp. split_and!.
  - destruct (pool_reached_ok p Hp) as (lq & lc & Hok). exists (view_of p lq lc). by exists lq, lc.
  - intros heap options entry config len. apply opened_implements.
  - intros m (lq & lc & Hok & ->). destruct (view_exact p lq lc (pk_running _ _ _ Hok)) as [Hnd Hids]. split_and!; [done|done| |].
    + intros id [j Hj]%Hids. exact (proj2 (jk_id _ _ _ _ _ _ (jo_job _ _ _ (rn_jobs _ _ _ (pk_running _ _ _ Hok)) id _ (cores_lookup p id j Hj)))).
    + intros e r p' He Hrun. split; [by eapply granted_iff|]. destruct (run_event_ok e p lq lc Hok He) as ([r1 p1] & Hrun' & l & lq' & lc' & Hok' & Hm & Heff).
      rewrite Hrun in Hrun'. injection Hrun' as <- <-. exists l, (view_of p' lq' lc'). split_and!; [done|done|by exists lq', lc'].
Qed.

(** The owner is told exactly what there is: once a pool is open, its readiness channel is set if
    and only if polling would report something, and polling reports the oldest outcome, or
    that none will ever come, or that there is none yet, and changes nothing. *)
Theorem worker_poll_exact p :
  pool_reached p → complete p →
  ∃ m, implements p m ∧
    poll p = Ok (match mb_finished m with
                 | [] => (if bool_decide (po_jobs p = ∅) && (po_stopping p || (po_alive p =? 0)) then WORKER_STOPPED else WORKER_EMPTY, None)
                 | (id, kind, output) :: _ => (WORKER_OK, Some (mk_completion id (length_N output) kind))
                 end, p) ∧
    (po_readiness p = true ↔ ∃ c p', poll p = Ok (c, p') ∧ c.1 ≠ WORKER_EMPTY).
Proof.
  intros Hp Hall. destruct (pool_reached_ok p Hp) as (lq & lc & Hok). exists (view_of p lq lc). split; [by exists lq, lc|].
  pose proof (poll_ok p lq lc Hok Hall) as Hpoll. rewrite (proj1 (complete_ready p Hall) (pk_ready _ _ _ Hok)).
  pose proof (lk_head _ _ _ _ (qs_linked _ _ (jo_queues _ _ _ (rn_jobs _ _ _ (pk_running _ _ _ Hok))) completed)) as Hh.
  pose proof (lk_nonnull _ _ _ _ (qs_linked _ _ (jo_queues _ _ _ (rn_jobs _ _ _ (pk_running _ _ _ Hok))) completed)) as Hz.
  simpl in Hh, Hz. unfold poll_ready. rewrite Hpoll, Hh. destruct lc as [|id lc]; cbn [view_of view mb_finished fmap list_fmap].
  - split; [done|]. simpl. destruct (_ && _); split; try done; [intros _; by eexists _, _|by intros (c & p' & [= <- _] & ?)].
  - change (first 0 (id :: lc)) with id. rewrite (proj2 (N.eqb_neq id 0)) by (intros ->; set_solver).
    unfold outcome_of. cbn [negb orb]. split; [done|]. split; [intros _; by eexists _, _|done].
Qed.

(** *** Draining a stopped pool *)

(** An owner that polls and takes until nothing is left. *)
Fixpoint drain (fuel : nat) (p : pool) : result (list (N * N * list byte) * pool) :=
  '(status, c, p) ← poll p;
  match c, fuel with
  | Some c, S fuel =>
      '(_, bytes, p) ← take_job (cp_job_id c) true (cp_payload_length c) p;
      '(rest, p) ← drain fuel p;
      Ok ((cp_job_id c, cp_kind c, bytes) :: rest, p)
  | _, _ => Ok ([], p)
  end.

Lemma take_finished p lq id lc :
  pool_ok p lq (id :: lc) → complete p →
  ∃ p' j, take_job id true (length_N (from_option jb_output [] (cores p !! id))) p = Ok (WORKER_OK, jb_output j, p') ∧
    cores p !! id = Some j ∧ pool_ok p' lq lc ∧ cores p' = delete id (cores p) ∧ complete p' ∧ po_stopping p' = po_stopping p.
Proof.
  intros Hok Hall. pose proof (rn_jobs _ _ _ (pk_running _ _ _ Hok)) as Hj.
  destruct (take_job_ok id true (length_N (from_option jb_output [] (cores p !! id))) p lq (id :: lc) Hok Hall) as ([[s bytes] p'] & Hrun & _ & Htake & _).
  destruct (listed p lq (id :: lc) completed id (jo_queues _ _ _ Hj) ltac:(by left)) as [j Hc].
  assert (s = WORKER_OK) as ->.
  { unfold take_job in Hrun. rewrite Hc in Hrun. unfold cores in Hc. rewrite lookup_fmap in Hc.
    destruct (po_jobs p !! id) as [j0|] eqn:Hj0; [|done]. apply (inj Some) in Hc. pose proof (cores_lookup p id j0 Hj0) as Hc0.
    assert (jb_done j0 = true) as Hd by (apply (jk_completed _ _ _ _ _ _ (jo_job _ _ _ Hj id _ Hc0)); by left).
    assert (jb_output j = jb_output j0) as Ho by by rewrite <-Hc. simpl in Hrun. rewrite Hd, Ho, N.ltb_irrefl, andb_false_r in Hrun. cbn [negb] in Hrun.
    apply bind_Ok_inv in Hrun as (p1 & _ & Hrun). by injection Hrun as <-. }
  destruct (Htake eq_refl) as (j' & Hc' & _ & -> & Hc'' & Hok' & Hall' & Hst'). exists p', j'. split; [done|]. split; [done|].
  pose proof (lk_nodup _ _ _ _ (qs_linked _ _ (jo_queues _ _ _ Hj) completed)) as Hnd. simpl in Hnd. pose proof (without_split id [] lc Hnd) as Hwo.
  simpl in Hwo. rewrite Hwo in Hok'. by split_and!.
Qed.

Lemma drained_ok p lc :
  pool_ok p [] lc → complete p → po_stopping p = true → (∀ id, is_Some (cores p !! id) → id ∈ lc) →
  ∃ p', drain (length lc) p = Ok (outcome_of (cores p) <$> lc, p') ∧ po_jobs p' = ∅ ∧ poll p' = Ok (WORKER_STOPPED, None, p').
Proof.
  revert p. induction lc as [|id lc IH]; intros p Hok Hall Hst Hdone; simpl; rewrite (poll_ok p _ _ Hok Hall), bind_Ok.
  - assert (po_jobs p = ∅) as Hempty.
    { apply map_empty. intros id. destruct (po_jobs p !! id) as [j|] eqn:Hj; [|done].
      exfalso. apply (elem_of_nil (A:=N) id), Hdone. rewrite (cores_lookup p id j Hj). by eexists. }
    exists p. split_and!; [done|done|].
    rewrite (poll_ok p _ _ Hok Hall). by rewrite bool_decide_true, Hst by done.
  - destruct (take_finished p [] id lc Hok Hall) as (p1 & j & Htake & Hc & Hok1 & Hc1 & Hall1 & Hst1). simpl. rewrite Htake, bind_Ok.
    pose proof (lk_nodup _ _ _ _ (qs_linked _ _ (jo_queues _ _ _ (rn_jobs _ _ _ (pk_running _ _ _ Hok))) completed)) as [Hnot _]%NoDup_cons.
    destruct (IH p1 Hok1 Hall1) as (p' & Hdrain & Hempty & Hpoll); [congruence| |].
    { intros id' [j' Hj']. rewrite Hc1 in Hj'. apply lookup_delete_Some in Hj' as [Hne Hj']. specialize (Hdone id' ltac:(by eexists)). set_solver. }
    rewrite Hdrain, bind_Ok. exists p'. split_and!; [|done|done]. f_equal. f_equal. f_equal.
    + unfold outcome_of. by rewrite Hc.
    + rewrite Hc1. apply outcome_frame. intros a Ha. rewrite lookup_delete_ne; [done|]. by intros <-.
Qed.

(** C25: No outcome is lost by stopping a pool: while a stopped pool is not closed, once every
    worker thread has ended, no job waits or runs any more, and an owner that polls and
    takes receives the outcome of every job that is left, in the order they finished, after
    which the pool is empty and polling says so. *)
Theorem worker_jobs_all_end p :
  pool_reached p → complete p → po_stopping p = true → (∀ i w, po_workers p !! i = Some w → wk_exited w = true) →
  ∃ m p', implements p m ∧ mb_waiting m = [] ∧ (∀ r, r ∈ mb_running m → r = None) ∧
    (∀ id, is_Some (po_jobs p !! id) ↔ id ∈ (λ x, x.1.1) <$> mb_finished m) ∧
    drain (length (mb_finished m)) p = Ok (mb_finished m, p') ∧ po_jobs p' = ∅ ∧ poll p' = Ok (WORKER_STOPPED, None, p').
Proof.
  intros Hp Hall Hst Hexit. destruct (pool_reached_ok p Hp) as (lq & lc & Hok). pose proof (pk_stopping _ _ _ Hok Hst) as ->.
  assert (∀ i w, po_workers p !! i = Some w → wk_current w = 0) as Hidle.
  { intros i w Hi. destruct (decide (wk_current w = 0)) as [|Hne]; [done|].
    destruct (wp_current _ (rn_workers _ _ _ (pk_running _ _ _ Hok)) i w Hi Hne) as [He _]. by rewrite (Hexit i w Hi) in He. }
  assert (∀ id, is_Some (cores p !! id) ↔ id ∈ lc) as Hids.
  { intros id. split.
    - intros [j Hc]. pose proof (jo_job _ _ _ (rn_jobs _ _ _ (pk_running _ _ _ Hok)) id j Hc) as Hjob. apply (jk_completed _ _ _ _ _ _ Hjob).
      destruct (jb_done j) eqn:Hd; [done|]. destruct (jb_active j) eqn:Ha.
      + destruct (wp_held _ (rn_workers _ _ _ (pk_running _ _ _ Hok)) id j Hc Hd Ha) as (i & w & Hi & Hcur). rewrite (Hidle i w Hi) in Hcur.
        destruct (jk_id _ _ _ _ _ _ Hjob). lia.
      + exfalso. by apply (elem_of_nil (A:=N) id), (jk_queued _ _ _ _ _ _ Hjob).
    - intros Hid. exact (listed p [] lc completed id (jo_queues _ _ _ (rn_jobs _ _ _ (pk_running _ _ _ Hok))) Hid). }
  destruct (drained_ok p lc Hok Hall Hst) as (p' & Hdrain & Hempty & Hpoll); [intros id; apply Hids|].
  exists (view_of p [] lc), p'. unfold view_of, view. simpl. rewrite length_fmap. split_and!; try done.
  - by exists [], lc.
  - intros r (w & -> & [i Hi]%list_elem_of_lookup_1)%list_elem_of_fmap. unfold held_by. by rewrite (Hidle i w Hi).
  - intros id. rewrite <-list_fmap_compose, (list_fmap_ext _ (λ x, x) lc), list_fmap_id by done. rewrite <-Hids. unfold cores. by rewrite lookup_fmap, fmap_is_Some.
Qed.

(** ** A pool *)

Definition sample_options : worker_options := mk_worker_options 40 1 2 16 16 64.

Definition sample_opened : pool := Eval vm_compute in
  match open_pool 64 (Some sample_options) true None 0 with inr p => p | inl _ => mk_pool false 0 sample_options [] [] 0 ∅ 1 0 0 0 0 0 0 true end.

Lemma sample_opened_reached : pool_reached sample_opened.
Proof. by apply (reached_open 64 (Some sample_options) true None 0). Qed.

Definition after_event (e : pool_event) (p : pool) : pool := match run_event e p with Ok (_, p') => p' | Throw _ => p end.

(** One worker received and answered one of two jobs; then the pool was stopped. *)
Definition sample_started : pool := Eval vm_compute in
  after_event (event_submit true [x62]) (after_event (event_submit true [x61]) (after_event (event_ready 0) (after_event (event_start true) sample_opened))).
Definition sample_received : pool := Eval vm_compute in after_event (event_receive 0) sample_started.
Definition sample_stopped : pool := Eval vm_compute in
  after_event event_stop (after_event (event_reply 0 true [x7a]) sample_received).
Definition sample_exited : pool := Eval vm_compute in after_event (event_exit 0 true) sample_stopped.

Lemma reached_after e p : pool_reached p → event_ok e p → is_ok (run_event e p) = true → pool_reached (after_event e p).
Proof.
  intros Hp He Hr. unfold after_event. destruct (run_event e p) as [[r p']|] eqn:Hrun; [|done]. by eapply step_reached.
Qed.

Lemma sample_started_reached : pool_reached sample_started.
Proof.
  change sample_started with (after_event (event_submit true [x62]) (after_event (event_submit true [x61])
    (after_event (event_ready 0) (after_event (event_start true) sample_opened)))).
  apply reached_after; [|by vm_compute|by vm_compute]. apply reached_after; [|by vm_compute|by vm_compute].
  apply reached_after; [|eexists; split_and!; by vm_compute|by vm_compute].
  apply reached_after; [apply sample_opened_reached|by vm_compute|by vm_compute].
Qed.

Lemma sample_exited_reached : pool_reached sample_exited.
Proof.
  change sample_exited with (after_event (event_exit 0 true) (after_event event_stop (after_event (event_reply 0 true [x7a])
    (after_event (event_receive 0) sample_started)))).
  apply reached_after; [|eexists; split_and!; by vm_compute|by vm_compute]. apply reached_after; [|done|by vm_compute].
  apply reached_after; [|eexists; split_and!; by vm_compute|by vm_compute].
  apply reached_after; [apply sample_started_reached|eexists; split_and!; by vm_compute|by vm_compute].
Qed.


Lemma worker_pool_refines_mailbox_witness : ∃ m, implements sample_started m ∧ NoDup (mailbox_ids m).
Proof.
  destruct (worker_pool_refines_mailbox sample_started sample_started_reached) as ((m & Hm) & _ & Hall).
  exists m. split; [exact Hm|]. exact (proj1 (Hall m Hm)).
Defined.

Lemma worker_poll_exact_witness : ∃ c p', poll sample_exited = Ok (c, p') ∧ c.1 ≠ WORKER_EMPTY.
Proof.
  destruct (worker_poll_exact sample_exited sample_exited_reached ltac:(vm_compute; reflexivity)) as (m & _ & _ & Hiff).
  apply (proj1 Hiff). vm_compute. reflexivity.
Defined.

Lemma worker_jobs_all_end_witness : ∃ m p', implements sample_exited m ∧ drain (length (mb_finished m)) sample_exited = Ok (mb_finished m, p').
Proof.
  destruct (worker_jobs_all_end sample_exited) as (m & p' & Hm & _ & _ & _ & Hd & _).
  - exact sample_exited_reached.
  - vm_compute. reflexivity.
  - vm_compute. reflexivity.
  - intros i w Hi. destruct i as [|i]; [|discriminate Hi]. injection Hi as <-. reflexivity.
  - exists m, p'. split; [exact Hm|exact Hd].
Defined.

(** The job that was answered succeeded with its output, the other one was cancelled. *)
Lemma sample_drained :
  ∃ p', drain 2 sample_exited = Ok ([(1, WORKER_SUCCESS, [x7a]); (2, WORKER_CANCELLED, [])], p').
Proof. eexists. by vm_compute. Qed.
