(* ===== verification/WorkerHandles.v ===== *)
(** * Handles of worker pools

    The pools a thread owns, by handle: a handle is given once, names its pool to the heap
    that opened it and to no other, and closing removes exactly the pools it says. *)

From S2P Require Import Prelude Storage Heap WorkerPool WorkerSafety WorkerSteps WorkerSpec.

Local Open Scope list_scope.
Local Open Scope N_scope.

Definition max_handle : Z := 9223372036854775807.

Record registry_ok (r : registry) : Prop := {
  rk_pool : ∀ h p, rg_owned r !! h = Some p → pool_reached p ∧ (0 < h < rg_next_handle r)%Z;
  rk_next : (0 < rg_next_handle r ≤ max_handle)%Z;
}.

Section handles.
(** [threads] is what the threads of a stopped pool do until they have been joined: calls of
    theirs on the pool, after which it is a pool they reached. *)
Context (threads : pool → result pool) (Hthreads : ∀ p, pool_reached p → returns (threads p) pool_reached).

Lemma join_reached p : pool_reached p → ∃ report, join threads p = Ok report.
Proof. intros Hp. destruct (join_returns threads p pool_reached Hp Hthreads) as (p' & -> & _). by eexists. Qed.

Lemma lookup_pool_owned identity h r : lookup_pool identity h r = p ← rg_owned r !! h; if po_heap p =? identity then Some p else None.
Proof. unfold lookup_pool. by destruct (rg_owned r !! h). Qed.

(** A published pool gets a handle nobody has had. *)
Lemma publish_fresh p r :
  registry_ok r → pool_reached p → startup_failed p = false → (rg_next_handle r < max_handle)%Z →
  let h := rg_next_handle r in
  ∃ r', publish threads p r = Ok (WORKER_OK, h, empty_report, r') ∧ registry_ok r' ∧
    rg_owned r !! h = None ∧ rg_owned r' = <[h := p]> (rg_owned r) ∧ (rg_next_handle r' = h + 1)%Z.
Proof.
  intros Hr Hp Hs Hlt h. unfold publish. rewrite Hs, (proj2 (Z.eqb_neq _ _)) by (unfold max_handle in Hlt; lia).
  eexists. split; [done|]. split_and!; [|destruct (rg_owned r !! h) eqn:Ho; [|done]; apply (rk_pool _ Hr) in Ho as [_ ?]; lia|done|done].
  pose proof (rk_next _ Hr) as Hn. constructor; simpl; [|lia]. intros h' p'. destruct (decide (h' = h)) as [->|Hne].
  - rewrite lookup_insert_eq. intros [= <-]. split; [done|unfold h; lia].
  - rewrite lookup_insert_ne by done. intros Ho%(rk_pool _ Hr). split; [apply Ho|lia].
Qed.

Lemma close_removes h p r :
  registry_ok r → rg_owned r !! h = Some p →
  ∃ report r', neri_rt_v1_worker_pool_close threads (po_heap p) h true r = Ok (WORKER_OK, Some report, r') ∧
    registry_ok r' ∧ rg_owned r' = delete h (rg_owned r) ∧ rg_next_handle r' = rg_next_handle r.
Proof.
  intros Hr Ho. unfold neri_rt_v1_worker_pool_close, lookup_pool. rewrite Ho, N.eqb_refl. simpl negb. cbv iota.
  destruct (rk_pool _ Hr h p Ho) as [Hp _]. destruct (join_reached p Hp) as [report ->]. rewrite bind_Ok.
  exists report. eexists. split; [done|]. split_and!; [|done|done].
  constructor; simpl; [|apply Hr]. intros h' p' [_ Ho']%lookup_delete_Some. by apply (rk_pool _ Hr).
Qed.

Lemma close_owned_exact heap r :
  registry_ok r →
  ∃ r', neri_worker_close_owned threads heap r = Ok r' ∧ registry_ok r' ∧ rg_next_handle r' = rg_next_handle r ∧
    ∀ h p, rg_owned r' !! h = Some p ↔ rg_owned r !! h = Some p ∧ po_heap p ≠ heap.
Proof.
  intros Hr. unfold neri_worker_close_owned.
  assert (∀ (l : list (Z * pool)) (owned : gmap Z pool), (∀ x, x ∈ l → pool_reached x.2) →
    ∃ owned', for_state l owned (close_entry threads heap) = Ok owned' ∧
      ∀ h p, owned' !! h = Some p ↔ owned !! h = Some p ∧ ∀ q, (h, q) ∈ l → po_heap q ≠ heap) as Hloop.
  { intros l. induction l as [|[h0 q0] l IH]; intros owned Hl.
    - exists owned. split; [done|]. intros h p. split; [intros ?; split; [done|by intros q ?%elem_of_nil]|by intros [? _]].
    - cbn [for_state]. change (close_entry threads heap (h0, q0) owned) with (if negb (po_heap q0 =? heap) then Ok owned else _ ← join threads q0; Ok (delete h0 owned)). destruct (N.eqb_spec (po_heap q0) heap) as [Heq|Hne]; cbn [negb].
      + destruct (join_reached q0 (Hl (h0, q0) ltac:(by left))) as [report ->]. rewrite !bind_Ok.
        destruct (IH (delete h0 owned)) as (o' & Ho & Hiff); [intros x Hx; apply Hl; by right|]. exists o'. split; [done|].
        intros h p. rewrite Hiff, lookup_delete_Some. split.
        * intros [[Hn Ho'] Hall]. split; [done|]. intros q [[= -> ->]|Hq]%elem_of_cons; [done|by apply Hall].
        * intros [Ho' Hall]. split; [split; [|done]|intros q Hq; apply Hall; by right]. intros ->. by apply (Hall q0); [left|].
      + rewrite bind_Ok. destruct (IH owned) as (o' & Ho & Hiff); [intros x Hx; apply Hl; by right|]. exists o'. split; [done|].
        intros h p. rewrite Hiff. split; intros [Ho' Hall]; (split; [done|]).
        * intros q [[= -> ->]|Hq]%elem_of_cons; [done|by apply Hall].
        * intros q Hq. apply Hall. by right. }
  destruct (Hloop (map_to_list (rg_owned r)) (rg_owned r)) as (owned & Hrun & Hiff).
  { intros [h p] Hx%elem_of_map_to_list. by apply (rk_pool _ Hr) in Hx as [? _]. }
  rewrite Hrun, bind_Ok. eexists. split; [done|]. simpl.
  assert (∀ h p, owned !! h = Some p ↔ rg_owned r !! h = Some p ∧ po_heap p ≠ heap) as Hexact.
  { intros h p. rewrite Hiff. split; intros [Ho Hall]; (split; [done|]).
    - apply Hall. by apply elem_of_map_to_list.
    - intros q Hq%elem_of_map_to_list. congruence. }
  split_and!; [|done|exact Hexact]. constructor; simpl; [|apply Hr]. intros h p [Ho _]%Hexact. by apply (rk_pool _ Hr).
Qed.

(** A pool that started gets a handle no pool has had before; under it the heap that opened
    the pool, and no other heap, finds the pool until it closes it, which always comes to an
    end and gives a report; opening and closing change nothing for any other handle, and a
    heap that shuts down closes exactly the pools it opened. *)
Theorem worker_handles_exact p r :
  registry_ok r → pool_reached p → startup_failed p = false → (rg_next_handle r < max_handle)%Z →
  let h := rg_next_handle r in
  (∀ identity, lookup_pool identity h r = None) ∧
  ∃ r', publish threads p r = Ok (WORKER_OK, h, empty_report, r') ∧ registry_ok r' ∧ (h < rg_next_handle r')%Z ∧
    (∀ identity, lookup_pool identity h r' = if po_heap p =? identity then Some p else None) ∧
    (∀ identity h', h' ≠ h → lookup_pool identity h' r' = lookup_pool identity h' r) ∧
    (∃ report r'', neri_rt_v1_worker_pool_close threads (po_heap p) h true r' = Ok (WORKER_OK, Some report, r'') ∧ registry_ok r'' ∧
      rg_next_handle r'' = rg_next_handle r' ∧ ∀ identity h', lookup_pool identity h' r'' = lookup_pool identity h' r) ∧
    (∃ r'', neri_worker_close_owned threads (po_heap p) r' = Ok r'' ∧ registry_ok r'' ∧
      ∀ h' q, rg_owned r'' !! h' = Some q ↔ rg_owned r !! h' = Some q ∧ po_heap q ≠ po_heap p).
Proof.
  intros Hr Hp Hs Hlt h. destruct (publish_fresh p r Hr Hp Hs Hlt) as (r' & Hpub & Hr' & Hnone & Hown & Hnext).
  fold h in Hpub, Hnone, Hown, Hnext.
  split; [intros identity; by rewrite lookup_pool_owned, Hnone|]. exists r'. split_and!; [done|done|lia| | | |].
  - intros identity. by rewrite lookup_pool_owned, Hown, lookup_insert_eq.
  - intros identity h' Hne. by rewrite !lookup_pool_owned, Hown, lookup_insert_ne.
  - destruct (close_removes h p r' Hr') as (report & r'' & Hclose & Hr'' & Hown'' & Hnext''); [by rewrite Hown, lookup_insert_eq|].
    exists report, r''. split_and!; [done|done|done|]. intros identity h'. by rewrite !lookup_pool_owned, Hown'', Hown, delete_insert_id.
  - destruct (close_owned_exact (po_heap p) r' Hr') as (r'' & Hclose & Hr'' & _ & Hiff). exists r''. split_and!; [done|done|].
    intros h' q. rewrite Hiff, Hown. destruct (decide (h' = h)) as [->|Hne].
    + rewrite lookup_insert_eq, Hnone. split; [by intros [[= <-] ?]|by intros [? _]].
    + by rewrite lookup_insert_ne.
Qed.
End handles.

Lemma worker_handles_exact_witness :
  ∃ r', publish Ok sample_started (mk_registry ∅ 7) = Ok (WORKER_OK, 7%Z, empty_report, r') ∧ lookup_pool 64 7 r' = Some sample_started.
Proof.
  destruct (worker_handles_exact Ok (λ p Hp, returns_Ok p pool_reached Hp) sample_started (mk_registry ∅ 7)) as (_ & r' & Hpub & _ & _ & Hfind & _).
  - constructor; [|vm_compute; split; [reflexivity|discriminate]]. intros h p Ho. cbn [rg_owned] in Ho. rewrite lookup_empty in Ho. discriminate Ho.
  - exact sample_started_reached.
  - vm_compute. reflexivity.
  - vm_compute. reflexivity.
  - exists r'. split; [exact Hpub|]. exact (Hfind 64).
Defined.
