(* ===== verification/TaskExecutor.v ===== *)
(** * Parallel ranges ([native/runtime/task_executor.cpp])

    A range of tasks is cut into chunks that the threads of a pool execute; a thread that
    coordinates a group helps with queued work, of any group, while it waits, and the code
    it executes may start groups of its own.  A thread is the stack of what it is doing.
    Each critical section of the pool's mutex is one step; so is the return of the code a
    chunk runs.  [stamp]s and the clock are not in the source: they number the events, so
    that the theorems can speak of what started first; [ex_log] records the chunks whose
    code has returned. *)

From S2P Require Import Prelude Storage Heap WorkerPool.

Local Open Scope string_scope.
Local Open Scope list_scope.
Local Open Scope N_scope.

(** ** Chunks *)

(** The loop of [coordinate], from [index] and [begin] on. *)
Fixpoint chunk_loop (n : nat) (index begin width remainder : N) : list (N * N) :=
  match n with
  | O => []
  | S n =>
      let end_ := begin + width + (if index <? remainder then 1 else 0) in
      (begin, end_) :: chunk_loop n (index + 1) end_ width remainder
  end.

Definition chunk_count (count limit : N) : N := N.min count (u64 (limit * 4)).

Definition chunk_ranges (count limit : N) : list (N * N) :=
  if count =? 0 then []
  else
    let chunks := chunk_count count limit in
    chunk_loop (N.to_nat chunks) 0 0 (count / chunks) (count mod chunks).

(** The result slots of a chunk: where they start and how many there are. *)
Definition chunk_slots (results references_per_item : N) (range : N * N) : N * N :=
  (if references_per_item =? 0 then 0 else u64 (results + 8 * u64 (range.1 * references_per_item)),
   u64 (u64_sub range.2 range.1 * references_per_item)).

(** ** The pool *)

Record task_job := mk_task_job { tj_owner : N; tj_range : N * N }.

Record group := mk_group {
  gr_count : N;
  gr_limit : N;
  gr_pending : N;
  gr_active : N;
}.

(** A group being coordinated, with the chunks not yet published, or a job being executed. *)
Inductive activity :=
| coordinating (g : N) (unpublished : list (N * N))
| executing (j : task_job) (stamp : N).

Record executor := mk_executor {
  ex_limit : N;
  ex_ready : list task_job;
  ex_groups : gmap N group;
  ex_threads : list (list activity);
  ex_stopping : bool;
  ex_clock : N;
  ex_log : list (N * (N * N));
}.

Definition load_group (e : executor) (g : N) : result group := load "group" (ex_groups e !! g).

(** [take]: the first job whose group may run another one, and the jobs left. *)
Fixpoint take_ready (groups : gmap N group) (ready : list task_job) : result (option (task_job * list task_job)) :=
  match ready with
  | [] => Ok None
  | item :: rest =>
      owner ← load "group" (groups !! tj_owner item);
      if gr_active owner <? gr_limit owner then Ok (Some (item, rest))
      else
        taken ← take_ready groups rest;
        Ok (match taken with Some (j, rest) => Some (j, item :: rest) | None => None end)
  end.

Definition set_active (n : N) (g : group) : group := mk_group (gr_count g) (gr_limit g) (gr_pending g) n.
Definition set_pending (n : N) (g : group) : group := mk_group (gr_count g) (gr_limit g) n (gr_active g).

Definition with_ready (ready : list task_job) (e : executor) : executor :=
  mk_executor (ex_limit e) ready (ex_groups e) (ex_threads e) (ex_stopping e) (ex_clock e) (ex_log e).
Definition with_groups (groups : gmap N group) (e : executor) : executor :=
  mk_executor (ex_limit e) (ex_ready e) groups (ex_threads e) (ex_stopping e) (ex_clock e) (ex_log e).
Definition with_thread (t : nat) (stack : list activity) (e : executor) : executor :=
  mk_executor (ex_limit e) (ex_ready e) (ex_groups e) (<[t := stack]> (ex_threads e)) (ex_stopping e) (ex_clock e) (ex_log e).
Definition with_stop (e : executor) : executor :=
  mk_executor (ex_limit e) (ex_ready e) (ex_groups e) (ex_threads e) true (ex_clock e) (ex_log e).
Definition tick (e : executor) : executor :=
  mk_executor (ex_limit e) (ex_ready e) (ex_groups e) (ex_threads e) (ex_stopping e) (ex_clock e + 1) (ex_log e).
Definition log_range (entry : N * (N * N)) (e : executor) : executor :=
  mk_executor (ex_limit e) (ex_ready e) (ex_groups e) (ex_threads e) (ex_stopping e) (ex_clock e) (ex_log e ++ [entry]).

(** [take] and the start of [execute] on a thread that looks for work. *)
Definition take_item (t : nat) (stack : list activity) (e : executor) : result (option executor) :=
  taken ← take_ready (ex_groups e) (ex_ready e);
  match taken with
  | None => Ok None
  | Some (item, rest) =>
      owner ← load_group e (tj_owner item);
      Ok (Some (tick (with_thread t (executing item (ex_clock e) :: stack)
                  (with_ready rest (with_groups (<[tj_owner item := set_active (gr_active owner + 1) owner]> (ex_groups e)) e)))))
  end.

(** The end of [execute]: the code has returned. *)
Definition finish_job (t : nat) (item : task_job) (stack : list activity) (e : executor) : result executor :=
  owner ← load_group e (tj_owner item);
  let owner := set_active (u32_sub (gr_active owner) 1) owner in
  let owner := set_pending (u64_sub (gr_pending owner) 1) owner in
  Ok (log_range (tj_owner item, tj_range item) (with_thread t stack (with_groups (<[tj_owner item := owner]> (ex_groups e)) e))).

(** [run_group] up to the first chunk: the group gets a number, and its chunks are made.
    A group without items is over at once. *)
Definition run_group (t : nat) (count parallelism : N) (stack : list activity) (e : executor) : executor :=
  let limit := N.min (ex_limit e) parallelism in
  if count =? 0 then e
  else
    let g := ex_clock e in
    tick (with_thread t (coordinating g (chunk_ranges count limit) :: stack)
      (with_groups (<[g := mk_group count limit (chunk_count count limit) 0]> (ex_groups e)) e)).

(** One round of the publishing loop. *)
Definition publish_chunk (t : nat) (g : N) (range : N * N) (rest : list (N * N)) (stack : list activity) (e : executor) : executor :=
  with_thread t (coordinating g rest :: stack) (with_ready (mk_task_job g range :: ex_ready e) e).

(** ** Steps *)

(** What the threads of the pool do. *)
Inductive thread_step : executor → executor → Prop :=
| step_publish e t g range rest stack :
    ex_threads e !! t = Some (coordinating g (range :: rest) :: stack) →
    thread_step e (publish_chunk t g range rest stack e)
| step_help e e' t g stack owner :
    ex_threads e !! t = Some (coordinating g [] :: stack) → ex_groups e !! g = Some owner → gr_pending owner ≠ 0 →
    take_item t (coordinating g [] :: stack) e = Ok (Some e') → thread_step e e'
| step_worker e e' t :
    ex_threads e !! t = Some [] → (0 < t)%nat → ex_stopping e = false → take_item t [] e = Ok (Some e') → thread_step e e'
| step_return e e' t item stamp stack :
    ex_threads e !! t = Some (executing item stamp :: stack) → finish_job t item stack e = Ok e' → thread_step e e'
| step_join e t g stack owner :
    ex_threads e !! t = Some (coordinating g [] :: stack) → ex_groups e !! g = Some owner → gr_pending owner = 0 →
    thread_step e (with_thread t stack (with_groups (delete g (ex_groups e)) e)).

(** The code a chunk runs may call [neri_task_parallel_for] again, and the outer call stops
    the workers when its group is over. *)
Inductive executor_step : executor → executor → Prop :=
| step_pool e e' : thread_step e e' → executor_step e e'
| step_nested e t item stamp stack count parallelism :
    ex_threads e !! t = Some (executing item stamp :: stack) → 0 < parallelism ≤ u32_max → count ≤ u64_max →
    executor_step e (run_group t count parallelism (executing item stamp :: stack) e)
| step_stop e :
    ex_threads e !! 0%nat = Some [] → executor_step e (with_stop e).

(** ** The outer call *)

(** The checks of [neri_task_parallel_for]. *)
Definition check_parallel_for (count parallelism : N) (body : bool) (results references_per_item : N) : result unit :=
  if (parallelism =? 0) || negb body ||
     (negb (references_per_item =? 0) && negb (count =? 0) &&
      ((results =? 0) || (u64_max / 8 / references_per_item <? count))) then
    contract_panic "invalid parallel range or result span"
  else Ok tt.

Definition outer_limit (count parallelism hardware : N) : N :=
  N.min (N.min parallelism (N.max 1 hardware)) (N.max 1 count).

(** The pool of an outer call, when its threads have started and its group is made. *)
Definition start_pool (count parallelism hardware : N) : executor :=
  let limit := outer_limit count parallelism hardware in
  run_group 0 count parallelism []
    (mk_executor limit [] ∅ (replicate (N.to_nat limit) []) false 1 []).
