(* ===== verification/TaskSafety.v ===== *)
(** * The invariant of parallel ranges

    Chunks partition the range they are made from; the pool accounts for every chunk of
    every group, and threads only wait for what started after they did. *)

From S2P Require Import Prelude Storage Heap WorkerPool WorkerSteps TaskExecutor.

Local Open Scope list_scope.
Local Open Scope N_scope.

(** ** Chunks *)

(** The [n] numbers from [a] on. *)
Definition seqN (a n : N) : list N := N.of_nat <$> seq (N.to_nat a) (N.to_nat n).

(** The indices of a half-open range. *)
Definition range_indices (range : N * N) : list N := seqN range.1 (range.2 - range.1).

Lemma seqN_app a n m : seqN a (n + m) = seqN a n ++ seqN (a + n) m.
Proof.
  unfold seqN. rewrite N2Nat.inj_add, seq_app, fmap_app. f_equal. rewrite N2Nat.inj_add. done.
Qed.

Lemma chunk_loop_ok n index begin width remainder :
  remainder ≤ index + N.of_nat n → 
  concat (range_indices <$> chunk_loop n index begin width remainder) =
    seqN begin (N.of_nat n * width + (remainder - index)) ∧
  Forall (λ r, r.1 + width ≤ r.2 ≤ r.1 + width + 1) (chunk_loop n index begin width remainder) ∧
  length (chunk_loop n index begin width remainder) = n.
Proof.
  revert index begin. induction n as [|n IH]; intros index begin Hr; cbn [chunk_loop].
  - split_and!; [|constructor|done]. by replace (N.of_nat 0 * width + (remainder - index)) with 0 by lia.
  - cbv zeta. destruct (IH (index + 1) (begin + width + (if index <? remainder then 1 else 0))) as (IH1 & IH2 & IH3); [lia|].
    rewrite fmap_cons. simpl concat. rewrite IH1. split_and!.
    + unfold range_indices. simpl. destruct (N.ltb_spec index remainder).
      * replace (begin + width + 1 - begin) with (width + 1) by lia.
        replace (N.of_nat (S n) * width + (remainder - index)) with (width + 1 + (N.of_nat n * width + (remainder - (index + 1)))) by lia.
        rewrite (seqN_app begin (width + 1)). by rewrite N.add_assoc.
      * replace (begin + width + 0 - begin) with width by lia.
        replace (N.of_nat (S n) * width + (remainder - index)) with (width + (N.of_nat n * width + (remainder - (index + 1)))) by lia.
        rewrite (seqN_app begin width). by rewrite N.add_0_r.
    + constructor; [|done]. simpl. destruct (index <? remainder); lia.
    + simpl. by rewrite IH3.
Qed.

Lemma chunk_count_pos count limit : 0 < count → 0 < limit ≤ u32_max → 0 < chunk_count count limit ≤ count ∧ chunk_count count limit ≤ limit * 4.
Proof. intros Hc Hl. unfold chunk_count. rewrite u64_small by (unfold u32_max, u64_max in *; lia). lia. Qed.

(** The chunks are the range: in order, nothing twice, nothing left out, none empty, all of
    the same size up to one, and at most four for each thread of the group. *)
Lemma chunk_ranges_ok count limit :
  0 < limit ≤ u32_max →
  concat (range_indices <$> chunk_ranges count limit) = seqN 0 count ∧
  length_N (chunk_ranges count limit) = (if count =? 0 then 0 else chunk_count count limit) ∧
  length_N (chunk_ranges count limit) ≤ limit * 4 ∧
  Forall (λ r, r.1 < r.2 ∧ count / chunk_count count limit ≤ r.2 - r.1 ≤ count / chunk_count count limit + 1) (chunk_ranges count limit).
Proof.
  intros Hl. unfold chunk_ranges. destruct (N.eqb_spec count 0) as [->|Hne]; [split_and!; [done|done|unfold length_N; simpl; lia|constructor]|].
  cbv zeta. destruct (chunk_count_pos count limit) as [[Hpos Hle] H4]; [lia|done|]. set (chunks := chunk_count count limit) in *.
  pose proof (N.mod_lt count chunks ltac:(lia)) as Hmod. pose proof (N.div_mod count chunks ltac:(lia)) as Hdm.
  destruct (chunk_loop_ok (N.to_nat chunks) 0 0 (count / chunks) (count mod chunks)) as (H1 & H2 & H3); [lia|].
  unfold length_N. rewrite H1, H3. split_and!.
  - f_equal. rewrite N2Nat.id. lia.
  - lia.
  - lia.
  - assert (1 ≤ count / chunks) as Hw by (apply N.div_le_lower_bound; lia).
    eapply Forall_impl; [exact H2|]. intros r Hr. simpl in Hr. lia.
Qed.

(** ** Accounting *)

Definition entries (e : executor) : list activity := concat (ex_threads e).

Definition unpublished_of (g : N) (es : list activity) : list (N * N) :=
  es ≫= λ a, match a with coordinating g' rest => if decide (g' = g) then rest else [] | executing _ _ => [] end.
Definition running_of (g : N) (es : list activity) : list (N * N) :=
  es ≫= λ a, match a with executing j _ => if decide (tj_owner j = g) then [tj_range j] else [] | coordinating _ _ => [] end.
Definition coordinated (es : list activity) : list N :=
  es ≫= λ a, match a with coordinating g _ => [g] | executing _ _ => [] end.
Definition ready_of (g : N) (ready : list task_job) : list (N * N) :=
  ready ≫= λ j, if decide (tj_owner j = g) then [tj_range j] else [].
Definition logged_of (g : N) (log : list (N * (N * N))) : list (N * N) :=
  log ≫= λ x, if decide (x.1 = g) then [x.2] else [].

(** Where the chunks of a group are: to be published, ready, being executed. *)
Definition outstanding (g : N) (e : executor) : list (N * N) :=
  unpublished_of g (entries e) ++ ready_of g (ex_ready e) ++ running_of g (entries e).

Record group_ok (e : executor) (g : N) (gr : group) : Prop := {
  go_count : 0 < gr_count gr ≤ u64_max;
  go_chunks : chunk_ranges (gr_count gr) (gr_limit gr) ≡ₚ outstanding g e ++ logged_of g (ex_log e);
  go_pending : gr_pending gr = length_N (outstanding g e);
  go_active : gr_active gr = length_N (running_of g (entries e)) ∧ gr_active gr ≤ gr_limit gr;
  go_limit : 0 < gr_limit gr ≤ u32_max;
}.

(** When an activity began. *)
Definition stamp_of (a : activity) : N := match a with coordinating g _ => g | executing _ stamp => stamp end.

(** What a worker does first is to execute a job. *)
Definition bottom_ok (t : nat) (stack : list activity) : Prop :=
  (0 < t)%nat → ∀ g rest, last stack ≠ Some (coordinating g rest).

Record executor_ok (e : executor) : Prop := {
  ek_group : ∀ g gr, ex_groups e !! g = Some gr → group_ok e g gr ∧ g < ex_clock e;
  ek_coordinated : NoDup (coordinated (entries e)) ∧ ∀ g, g ∈ coordinated (entries e) ↔ is_Some (ex_groups e !! g);
  ek_ready : ∀ j, j ∈ ex_ready e → is_Some (ex_groups e !! tj_owner j);
  ek_running : ∀ j stamp, executing j stamp ∈ entries e → is_Some (ex_groups e !! tj_owner j) ∧ tj_owner j < stamp < ex_clock e;
  ek_stacks : ∀ t stack, ex_threads e !! t = Some stack → StronglySorted N.gt (stamp_of <$> stack);
  ek_bottom : ∀ t stack, ex_threads e !! t = Some stack → bottom_ok t stack;
  ek_log : ∀ g r, (g, r) ∈ ex_log e → g < ex_clock e;
  ek_limit : 0 < ex_limit e ≤ u32_max;
}.

(** ** Changing one thread *)

Definition others (t : nat) (threads : list (list activity)) : list activity :=
  concat (take t threads) ++ concat (drop (S t) threads).

Lemma entries_split e t stack : ex_threads e !! t = Some stack → entries e ≡ₚ stack ++ others t (ex_threads e).
Proof.
  intros Ht. unfold entries, others. rewrite <-(take_drop_middle _ _ _ Ht) at 1. rewrite concat_app. simpl.
  rewrite !app_assoc. apply Permutation_app_tail, Permutation_app_comm.
Qed.

Lemma entries_with e t stack stack' :
  ex_threads e !! t = Some stack → concat (<[t := stack']> (ex_threads e)) ≡ₚ stack' ++ others t (ex_threads e).
Proof.
  intros Ht. assert (t < length (ex_threads e))%nat as Hlt by by eapply lookup_lt_Some. unfold others.
  rewrite insert_take_drop by done. rewrite concat_app. simpl. rewrite !app_assoc. apply Permutation_app_tail, Permutation_app_comm.
Qed.

#[export] Instance unpublished_proper g : Proper (Permutation ==> Permutation) (unpublished_of g).
Proof. intros l k H. unfold unpublished_of. by rewrite H. Qed.
#[export] Instance running_proper g : Proper (Permutation ==> Permutation) (running_of g).
Proof. intros l k H. unfold running_of. by rewrite H. Qed.
#[export] Instance coordinated_proper : Proper (Permutation ==> Permutation) coordinated.
Proof. intros l k H. unfold coordinated. by rewrite H. Qed.
#[export] Instance ready_proper g : Proper (Permutation ==> Permutation) (ready_of g).
Proof. intros l k H. unfold ready_of. by rewrite H. Qed.
#[export] Instance length_N_proper {A} : Proper (Permutation ==> eq) (@length_N A).
Proof. intros l k H. unfold length_N. by rewrite H. Qed.

Lemma unpublished_app g l k : unpublished_of g (l ++ k) = unpublished_of g l ++ unpublished_of g k.
Proof. apply bind_app. Qed.
Lemma running_app g l k : running_of g (l ++ k) = running_of g l ++ running_of g k.
Proof. apply bind_app. Qed.
Lemma coordinated_app l k : coordinated (l ++ k) = coordinated l ++ coordinated k.
Proof. apply bind_app. Qed.
Lemma ready_app g l k : ready_of g (l ++ k) = ready_of g l ++ ready_of g k.
Proof. apply bind_app. Qed.
Lemma logged_app g l k : logged_of g (l ++ k) = logged_of g l ++ logged_of g k.
Proof. apply bind_app. Qed.

(** A group is accounted for by what its lists are, in any order. *)
Lemma group_ok_equiv e e' g gr gr' :
  group_ok e g gr → gr_count gr' = gr_count gr → gr_limit gr' = gr_limit gr →
  outstanding g e' ++ logged_of g (ex_log e') ≡ₚ outstanding g e ++ logged_of g (ex_log e) →
  gr_pending gr' = length_N (outstanding g e') → gr_active gr' = length_N (running_of g (entries e')) → gr_active gr' ≤ gr_limit gr →
  group_ok e' g gr'.
Proof.
  intros [G1 G2 G3 G4 G5] Hr Hl Hp Hpend Ha Hle. constructor; rewrite ?Hr, ?Hl; try done. by rewrite Hp.
Qed.

(** *** Taking *)

Lemma take_ready_ok groups ready :
  (∀ j, j ∈ ready → is_Some (groups !! tj_owner j)) →
  returns (take_ready groups ready) (λ r, match r with
    | Some (j, rest) => ∃ gr, j ∈ ready ∧ ready ≡ₚ j :: rest ∧ groups !! tj_owner j = Some gr ∧ gr_active gr < gr_limit gr
    | None => ∀ j gr, j ∈ ready → groups !! tj_owner j = Some gr → gr_limit gr ≤ gr_active gr
    end).
Proof.
  induction ready as [|item rest IH]; intros Hr; simpl; [apply returns_Ok; by intros j gr ?%elem_of_nil|].
  destruct (Hr item ltac:(by left)) as [owner Hown]. rewrite Hown, load_Some, bind_Ok.
  destruct (N.ltb_spec (gr_active owner) (gr_limit owner)) as [Hlt|Hge].
  - apply returns_Ok. exists owner. split_and!; [by left|done|done|done].
  - eapply returns_bind; [apply IH; intros j Hj; apply Hr; by right|]. intros r Hres. apply returns_Ok. destruct r as [[j rest']|].
    + destruct Hres as (gr & Hin & Hp & Hg & Hlt). exists gr. split_and!; [by right| |done|done].
      rewrite Hp. apply perm_swap.
    + intros j gr [->|Hj]%elem_of_cons Hg; [congruence|by eapply Hres].
Qed.

(** ** Steps keep the invariant *)

Lemma bottom_executing t j stamp s : bottom_ok t s → bottom_ok t (executing j stamp :: s).
Proof. intros Hb Ht g rest. rewrite last_cons. destruct (last s) eqn:Hl; [|done]. rewrite <-Hl. by apply Hb. Qed.

Lemma bottom_replace t g r r' s : bottom_ok t (coordinating g r :: s) → bottom_ok t (coordinating g r' :: s).
Proof.
  intros Hb Ht g' rest Hl. rewrite last_cons in Hl. destruct (last s) eqn:Hs.
  - apply (Hb Ht g' rest). by rewrite last_cons, Hs.
  - apply (Hb Ht g r). by rewrite last_cons, Hs.
Qed.

Lemma bottom_pop t a s : bottom_ok t (a :: s) → bottom_ok t s.
Proof. intros Hb Ht g rest Hl. apply (Hb Ht g rest). by rewrite last_cons, Hl. Qed.

Lemma bottom_push t a b s : bottom_ok t (b :: s) → bottom_ok t (a :: b :: s).
Proof. intros Hb Ht g rest. rewrite last_cons. destruct (last (b :: s)) eqn:Hl; [rewrite <-Hl; by apply Hb|by apply last_None in Hl]. Qed.

Lemma coordinated_keep e e' :
  executor_ok e → coordinated (entries e') ≡ₚ coordinated (entries e) →
  (∀ g, is_Some (ex_groups e' !! g) ↔ is_Some (ex_groups e !! g)) →
  NoDup (coordinated (entries e')) ∧ ∀ g, g ∈ coordinated (entries e') ↔ is_Some (ex_groups e' !! g).
Proof.
  intros Hok Hp Hg. destruct (ek_coordinated _ Hok) as [Hnd Hiff]. split; [by rewrite Hp|]. intros g. by rewrite Hp, Hg.
Qed.

Lemma insert_is_Some {A} (m : gmap N A) (k i : N) (x y : A) : m !! k = Some x → is_Some (<[k := y]> m !! i) ↔ is_Some (m !! i).
Proof.
  intros Hk. destruct (decide (i = k)) as [->|Hne]; [rewrite lookup_insert_eq, Hk; split; by eexists|by rewrite lookup_insert_ne].
Qed.

Section thread.
Context (e : executor) (Hok : executor_ok e) (t : nat) (stack : list activity) (Ht : ex_threads e !! t = Some stack).
Local Notation o := (others t (ex_threads e)).

Lemma entries_at : entries e ≡ₚ stack ++ o.
Proof. by apply entries_split. Qed.

(** The entries after thread [t] got another stack. *)
Lemma entries_after e' stack' : ex_threads e' = <[t := stack']> (ex_threads e) → entries e' ≡ₚ stack' ++ o.
Proof. intros He. unfold entries. rewrite He. by eapply entries_with. Qed.

Lemma stacks_after e' stack' :
  ex_threads e' = <[t := stack']> (ex_threads e) → StronglySorted N.gt (stamp_of <$> stack') →
  ∀ k s, ex_threads e' !! k = Some s → StronglySorted N.gt (stamp_of <$> s).
Proof.
  intros He Hs k s Hk. rewrite He in Hk. destruct (decide (k = t)) as [->|Hne].
  - rewrite list_lookup_insert_eq in Hk by by eapply lookup_lt_Some. by injection Hk as <-.
  - rewrite list_lookup_insert_ne in Hk by done. by eapply (ek_stacks _ Hok).
Qed.

Lemma bottoms_after e' stack' :
  ex_threads e' = <[t := stack']> (ex_threads e) → bottom_ok t stack' →
  ∀ k s, ex_threads e' !! k = Some s → bottom_ok k s.
Proof.
  intros He Hs k s Hk. rewrite He in Hk. destruct (decide (k = t)) as [->|Hne].
  - rewrite list_lookup_insert_eq in Hk by by eapply lookup_lt_Some. by injection Hk as <-.
  - rewrite list_lookup_insert_ne in Hk by done. by eapply (ek_bottom _ Hok).
Qed.

Lemma elem_at a : a ∈ entries e ↔ a ∈ stack ∨ a ∈ o.
Proof. by rewrite entries_at, elem_of_app. Qed.

Lemma elem_after e' stack' a : ex_threads e' = <[t := stack']> (ex_threads e) → a ∈ entries e' ↔ a ∈ stack' ∨ a ∈ o.
Proof. intros He. by rewrite (entries_after e' stack' He), elem_of_app. Qed.

(** Every activity began before now. *)
Lemma stamp_past a : a ∈ entries e → stamp_of a < ex_clock e.
Proof.
  destruct a as [g rest|j stamp]; intros Ha; simpl; [|by apply (ek_running _ Hok) in Ha as [_ [_ ?]]].
  assert (g ∈ coordinated (entries e)) as Hg by (apply list_elem_of_bind; eexists; split; [|exact Ha]; simpl; by left).
  apply (ek_coordinated _ Hok) in Hg as [gr Hgr]. by apply (ek_group _ Hok) in Hgr as [_ ?].
Qed.

Lemma push_sorted a : stamp_of a = ex_clock e → StronglySorted N.gt (stamp_of <$> (a :: stack)).
Proof.
  intros Ha. simpl. constructor; [by eapply (ek_stacks _ Hok)|]. apply Forall_forall. intros s (b & -> & Hb)%list_elem_of_fmap.
  rewrite Ha. apply N.lt_gt, stamp_past, elem_at. by left.
Qed.

(** *** Taking *)

Lemma take_item_ok :
  returns (take_item t stack e) (λ r, match r with
    | Some e' => executor_ok e'
    | None => ∀ j gr, j ∈ ex_ready e → ex_groups e !! tj_owner j = Some gr → gr_limit gr ≤ gr_active gr
    end).
Proof.
  unfold take_item. eapply returns_bind; [apply (take_ready_ok (ex_groups e) (ex_ready e)), (ek_ready _ Hok)|].
  intros [[j rest]|]; [|intros Hnone; by apply returns_Ok]. intros (owner & Hin & Hp & Hown & Hlt). unfold load_group.
  rewrite Hown, load_Some, bind_Ok. apply returns_Ok. set (e' := tick _).
  assert (entries e' ≡ₚ (executing j (ex_clock e) :: stack) ++ o) as Hent by by apply entries_after.
  assert (∀ g, running_of g (entries e') ≡ₚ (if decide (tj_owner j = g) then [tj_range j] else []) ++ running_of g (entries e)) as Hrun.
  { intros g. rewrite Hent, entries_at, !running_app. simpl. by rewrite <-app_assoc. }
  assert (∀ g, outstanding g e' ≡ₚ outstanding g e) as Hout.
  { intros g. unfold outstanding. rewrite Hrun. rewrite Hent, entries_at, !unpublished_app. simpl. rewrite Hp. simpl.
    rewrite <-!app_assoc. do 2 apply Permutation_app_head. rewrite !app_assoc. apply Permutation_app_tail, Permutation_app_comm. }
  constructor.
  - intros g gr. unfold e'. simpl. destruct (decide (g = tj_owner j)) as [->|Hne].
    + rewrite lookup_insert_eq. intros [= <-]. destruct (ek_group _ Hok _ owner Hown) as [Hg Hc]. split; [|lia].
      eapply (group_ok_equiv e e'); [exact Hg|done|done|by rewrite Hout|rewrite Hout; apply Hg| |simpl; lia].
      rewrite Hrun, decide_True by done. destruct (go_active _ _ _ Hg) as [Ha _]. simpl. rewrite Ha. unfold length_N. simpl. lia.
    + rewrite lookup_insert_ne by done. intros Hgr. destruct (ek_group _ Hok g gr Hgr) as [Hg Hc]. split; [|lia].
      eapply (group_ok_equiv e e'); [exact Hg|done|done|by rewrite Hout|rewrite Hout; apply Hg| |apply Hg].
      rewrite Hrun, decide_False by done. apply Hg.
  - apply (coordinated_keep e); [done|rewrite Hent, entries_at, !coordinated_app; done|]. intros g. by apply (insert_is_Some _ _ _ owner).
  - intros j' Hj'. apply (insert_is_Some _ _ _ owner); [done|]. apply (ek_ready _ Hok). rewrite Hp. by right.
  - intros j' st. rewrite Hent, elem_of_app, elem_of_cons. intros Hcase.
    assert (is_Some (ex_groups e !! tj_owner j') ∧ tj_owner j' < st < ex_clock e + 1) as [Hs Hc].
    { destruct Hcase as [[[= -> ->]|Hj']|Hj'].
      - rewrite Hown. split; [by eexists|]. destruct (ek_group _ Hok _ owner Hown) as [_ ?]. lia.
      - destruct (ek_running _ Hok j' st) as [? ?]; [apply elem_at; by left|]. split; [done|lia].
      - destruct (ek_running _ Hok j' st) as [? ?]; [apply elem_at; by right|]. split; [done|lia]. }
    split; [|exact Hc]. by apply (insert_is_Some _ _ _ owner).
  - eapply (stacks_after e' (executing j (ex_clock e) :: stack)); [done|]. by apply push_sorted.
  - eapply (bottoms_after e' (executing j (ex_clock e) :: stack)); [done|]. apply bottom_executing. by apply (ek_bottom _ Hok t).
  - intros g r Hl. apply (ek_log _ Hok) in Hl. unfold e'. simpl. lia.
  - apply Hok.
Qed.
End thread.

(** *** Publishing *)

Lemma publish_ok e t g range rest s :
  executor_ok e → ex_threads e !! t = Some (coordinating g (range :: rest) :: s) → executor_ok (publish_chunk t g range rest s e).
Proof.
  intros Hok Ht. pose proof (entries_at e t _ Ht) as Hat. set (o := others t (ex_threads e)) in *. set (e' := publish_chunk t g range rest s e).
  assert (entries e' ≡ₚ (coordinating g rest :: s) ++ o) as Hent by by eapply entries_after.
  assert (∀ g', running_of g' (entries e') ≡ₚ running_of g' (entries e)) as Hrun.
  { intros g'. rewrite Hent, Hat, !running_app. done. }
  assert (∀ g', outstanding g' e' ≡ₚ outstanding g' e) as Hout.
  { intros g'. unfold outstanding. rewrite Hrun. rewrite Hent, Hat, !unpublished_app. simpl. case_decide as Hg; [|done]. simpl.
    rewrite <-!app_assoc. simpl. by rewrite <-!Permutation_middle. }
  assert (is_Some (ex_groups e !! g)) as Hsome.
  { apply (ek_coordinated _ Hok). rewrite Hat, coordinated_app. simpl. by left. }
  constructor.
  - intros g' gr Hgr. destruct (ek_group _ Hok g' gr Hgr) as [Hg Hlt]. split; [|done].
    eapply (group_ok_equiv e e'); [exact Hg|done|done|by rewrite Hout|rewrite Hout; apply Hg|rewrite Hrun; apply Hg|apply Hg].
  - apply (coordinated_keep e); [done|rewrite Hent, Hat, !coordinated_app; done|done].
  - intros j [->|Hj]%elem_of_cons; [done|by apply (ek_ready _ Hok)].
  - intros j st. rewrite Hent, elem_of_app. intros Hj. apply (ek_running _ Hok). rewrite Hat, elem_of_app. set_solver.
  - eapply (stacks_after e Hok t _ Ht e' (coordinating g rest :: s)); [done|]. exact (ek_stacks _ Hok t _ Ht).
  - eapply (bottoms_after e Hok t _ Ht e' (coordinating g rest :: s)); [done|]. eapply bottom_replace, (ek_bottom _ Hok t _ Ht).
  - apply Hok.
  - apply Hok.
Qed.

(** *** Finishing *)

Lemma outstanding_bound e g gr : group_ok e g gr → length_N (outstanding g e) ≤ u64_max.
Proof.
  intros [Hc Hp _ _ Hl]. destruct (chunk_ranges_ok (gr_count gr) (gr_limit gr) Hl) as (_ & _ & H4 & _).
  rewrite Hp in H4. unfold length_N in *. rewrite length_app in H4. unfold u64_max, u32_max in *. lia.
Qed.

Lemma finish_job_ok e t item stamp s :
  executor_ok e → ex_threads e !! t = Some (executing item stamp :: s) → returns (finish_job t item s e) executor_ok.
Proof.
  intros Hok Ht. pose proof (entries_at e t _ Ht) as Hat. set (o := others t (ex_threads e)) in *.
  assert (executing item stamp ∈ entries e) as Hin by (rewrite Hat; by left).
  destruct (ek_running _ Hok _ _ Hin) as [[owner Hown] _]. unfold finish_job, load_group. rewrite Hown, load_Some, bind_Ok. cbv zeta.
  apply returns_Ok. set (e' := log_range _ _).
  assert (entries e' ≡ₚ s ++ o) as Hent by by eapply entries_after.
  set (one := λ g : N, if decide (tj_owner item = g) then [tj_range item] else []).
  assert (∀ g, running_of g (entries e) ≡ₚ one g ++ running_of g (entries e')) as Hrun.
  { intros g. rewrite Hent, Hat, !running_app. simpl. by rewrite <-app_assoc. }
  assert (∀ g, outstanding g e ≡ₚ one g ++ outstanding g e') as Hout.
  { intros g. unfold outstanding. rewrite Hrun. rewrite Hent, Hat, !unpublished_app. simpl.
    rewrite (Permutation_app_comm (one g) (running_of _ _)), !app_assoc. rewrite (Permutation_app_comm _ (one g)). by rewrite !app_assoc. }
  assert (∀ g, logged_of g (ex_log e') = logged_of g (ex_log e) ++ one g) as Hlog.
  { intros g. unfold e'. simpl. rewrite logged_app. simpl. by rewrite app_nil_r. }
  assert (∀ g, outstanding g e' ++ logged_of g (ex_log e') ≡ₚ outstanding g e ++ logged_of g (ex_log e)) as Hall.
  { intros g. rewrite Hlog, Hout. rewrite (Permutation_app_comm (logged_of _ _)), !app_assoc.
    by rewrite (Permutation_app_comm (outstanding _ _) (one g)). }
  constructor.
  - intros g gr. unfold e'. simpl. destruct (decide (g = tj_owner item)) as [->|Hne].
    + rewrite lookup_insert_eq. intros [= <-]. destruct (ek_group _ Hok _ owner Hown) as [Hg Hc]. split; [|done].
      pose proof (outstanding_bound _ _ _ Hg) as Hb. destruct (go_active _ _ _ Hg) as [Ha Hle]. pose proof (go_pending _ _ _ Hg) as Hp.
      pose proof (go_limit _ _ _ Hg) as Hlim. specialize (Hout (tj_owner item)). specialize (Hrun (tj_owner item)).
      rewrite Hout in Hp, Hb. rewrite Hrun in Ha. unfold one in Hp, Hb, Ha. rewrite decide_True in Hp, Hb, Ha by done.
      unfold length_N in Hp, Hb, Ha. simpl in Hp, Hb, Ha.
      assert (u32_sub (gr_active owner) 1 = gr_active owner - 1) as Hs by (apply u32_sub_small; unfold u32_max in *; lia).
      assert (u64_sub (gr_pending owner) 1 = gr_pending owner - 1) as Hs' by (apply u64_sub_small; lia).
      eapply (group_ok_equiv e e'); [exact Hg|done|done|by apply Hall|..]; simpl; rewrite ?Hs, ?Hs'; unfold length_N; lia.
    + rewrite lookup_insert_ne by done. intros Hgr. destruct (ek_group _ Hok g gr Hgr) as [Hg Hc]. split; [|done].
      specialize (Hout g). specialize (Hrun g). unfold one in Hout, Hrun. rewrite decide_False in Hout, Hrun by done. simpl in Hout, Hrun.
      eapply (group_ok_equiv e e'); [exact Hg|done|done|by apply Hall|rewrite <-Hout; apply Hg|rewrite <-Hrun; apply Hg|apply Hg].
  - apply (coordinated_keep e); [done|rewrite Hent, Hat, !coordinated_app; done|]. intros g. by apply (insert_is_Some _ _ _ owner).
  - intros j Hj. apply (insert_is_Some _ _ _ owner); [done|]. by apply (ek_ready _ Hok).
  - intros j st Hj. rewrite Hent in Hj. destruct (ek_running _ Hok j st) as [Hs Hc]; [rewrite Hat; by right|].
    split; [|exact Hc]. by apply (insert_is_Some _ _ _ owner).
  - eapply (stacks_after e Hok t _ Ht e' s); [done|]. pose proof (ek_stacks _ Hok t _ Ht) as Hs. by inversion Hs.
  - eapply (bottoms_after e Hok t _ Ht e' s); [done|]. eapply bottom_pop, (ek_bottom _ Hok t _ Ht).
  - intros g r. unfold e'. simpl. rewrite elem_of_app, list_elem_of_singleton. intros [Hl|[= -> ->]]; [by eapply (ek_log _ Hok)|].
    by apply (ek_group _ Hok _ _ Hown).
  - apply Hok.
Qed.

(** *** Starting a group *)

Lemma coordinated_elem g rest (es : list activity) : coordinating g rest ∈ es → g ∈ coordinated es.
Proof. intros Ha. apply list_elem_of_bind. eexists. split; [|exact Ha]. simpl. by left. Qed.

(** A number not given yet has no chunks. *)
Lemma fresh_empty e : executor_ok e → outstanding (ex_clock e) e = [] ∧ running_of (ex_clock e) (entries e) = [] ∧ logged_of (ex_clock e) (ex_log e) = [].
Proof.
  intros Hok.
  assert (∀ g, is_Some (ex_groups e !! g) → g ≠ ex_clock e) as Hno by (intros g [gr Hgr] ->; apply (ek_group _ Hok) in Hgr as [_ ?]; lia).
  assert (running_of (ex_clock e) (entries e) = []) as Hrun.
  { apply elem_of_nil_inv. intros r (a & Hr & Ha)%list_elem_of_bind. destruct a as [|j st]; [by apply elem_of_nil in Hr|].
    apply (ek_running _ Hok) in Ha as [Ha _]. case_decide as Hd; [|by apply elem_of_nil in Hr]. by apply Hno in Ha. }
  unfold outstanding. rewrite Hrun. split_and!; [|done|].
  - rewrite app_nil_r. apply app_nil. split; apply elem_of_nil_inv.
    + intros r (a & Hr & Ha)%list_elem_of_bind. destruct a as [g rest|]; [|by apply elem_of_nil in Hr].
      apply coordinated_elem, (ek_coordinated _ Hok) in Ha. case_decide as Hd; [|by apply elem_of_nil in Hr]. by apply Hno in Ha.
    + intros r (j & Hr & Hj)%list_elem_of_bind. apply (ek_ready _ Hok) in Hj. case_decide; [|by apply elem_of_nil in Hr]. by apply Hno in Hj.
  - apply elem_of_nil_inv. intros r ([g r'] & Hr & Hl)%list_elem_of_bind. apply (ek_log _ Hok) in Hl. simpl in Hr.
    case_decide; [subst; lia|by apply elem_of_nil in Hr].
Qed.

Lemma run_group_ok e t count parallelism s :
  executor_ok e → ex_threads e !! t = Some s → 0 < parallelism ≤ u32_max → count ≤ u64_max →
  (∀ g rest, bottom_ok t (coordinating g rest :: s)) →
  executor_ok (run_group t count parallelism s e).
Proof.
  intros Hok Ht Hpar Hcount Hbot. unfold run_group. cbv zeta. destruct (N.eqb_spec count 0) as [->|Hne]; [done|].
  pose proof (entries_at e t _ Ht) as Hat. set (o := others t (ex_threads e)) in *. destruct (fresh_empty e Hok) as (Fo & Fr & Fl).
  set (limit := N.min (ex_limit e) parallelism). assert (0 < limit ≤ u32_max) as Hlim by (pose proof (ek_limit _ Hok); unfold limit; lia).
  destruct (chunk_ranges_ok count limit Hlim) as (_ & Hlen & _). rewrite (proj2 (N.eqb_neq count 0) Hne) in Hlen.
  set (ranges := chunk_ranges count limit) in *. set (e' := tick _).
  assert (entries e' ≡ₚ (coordinating (ex_clock e) ranges :: s) ++ o) as Hent by by eapply entries_after.
  assert (∀ g, running_of g (entries e') ≡ₚ running_of g (entries e)) as Hrun by (intros g; by rewrite Hent, Hat, !running_app).
  assert (∀ g, outstanding g e' ≡ₚ (if decide (ex_clock e = g) then ranges else []) ++ outstanding g e) as Hout.
  { intros g. unfold outstanding. rewrite Hrun. rewrite Hent, Hat, !unpublished_app. simpl. by rewrite !app_assoc. }
  assert (∀ gr, ex_groups e !! ex_clock e = Some gr → False) as Hnone by (intros gr Hgr; apply (ek_group _ Hok) in Hgr as [_ ?]; lia).
  constructor.
  - intros g gr. unfold e'. simpl. destruct (decide (g = ex_clock e)) as [->|Hg].
    + rewrite lookup_insert_eq. intros [= <-]. specialize (Hout (ex_clock e)). rewrite decide_True, Fo, app_nil_r in Hout by done. fold e'.
      split; [|lia]. constructor; simpl; [lia|by rewrite Fl, Hout, app_nil_r|by rewrite Hout, Hlen| |done].
      rewrite Hrun, Fr. split; [done|lia].
    + rewrite lookup_insert_ne by done. intros Hgr. destruct (ek_group _ Hok g gr Hgr) as [Hgo Hc]. split; [|lia]. specialize (Hout g).
      rewrite decide_False in Hout by done. simpl in Hout. fold e'.
      eapply (group_ok_equiv e e'); [exact Hgo|done|done|by rewrite Hout|rewrite Hout; apply Hgo|rewrite Hrun; apply Hgo|apply Hgo].
  - assert (coordinated (entries e') ≡ₚ ex_clock e :: coordinated (entries e)) as Hco by (rewrite Hent, Hat, !coordinated_app; done).
    destruct (ek_coordinated _ Hok) as [Hnd Hiff]. split.
    + rewrite Hco. constructor; [|done]. intros [gr Hgr]%Hiff. by apply Hnone in Hgr.
    + intros g. rewrite Hco, elem_of_cons, Hiff. unfold e'. simpl. destruct (decide (g = ex_clock e)) as [->|Hg].
      * rewrite lookup_insert_eq. split; [by eexists|by left].
      * rewrite lookup_insert_ne by done. split; [by intros [?|?]|by right].
  - intros j Hj. apply (ek_ready _ Hok) in Hj as [gr Hgr]. apply lookup_insert_is_Some'. right. by eexists.
  - intros j st Hj. rewrite Hent in Hj. destruct (ek_running _ Hok j st) as [Hs Hc]; [rewrite Hat; set_solver|].
    split; [apply lookup_insert_is_Some'; by right|unfold e'; simpl; lia].
  - eapply (stacks_after e Hok t _ Ht e' (coordinating (ex_clock e) ranges :: s)); [done|]. by eapply (push_sorted e Hok t s Ht).
  - eapply (bottoms_after e Hok t _ Ht e' (coordinating (ex_clock e) ranges :: s)); [done|]. apply Hbot.
  - intros g r Hl. apply (ek_log _ Hok) in Hl. unfold e'. simpl. lia.
  - apply Hok.
Qed.

(** *** Joining *)

Lemma coordinating_top e t g rest s : executor_ok e → ex_threads e !! t = Some (coordinating g rest :: s) → ∃ gr, ex_groups e !! g = Some gr.
Proof.
  intros Hok Ht. apply (ek_coordinated _ Hok), (coordinated_elem g rest), (elem_at e t _ Ht). left. by left.
Qed.

(** A group with nothing pending has no chunk anywhere but in the log. *)
Lemma settled_group e g gr :
  executor_ok e → ex_groups e !! g = Some gr → gr_pending gr = 0 →
  outstanding g e = [] ∧ chunk_ranges (gr_count gr) (gr_limit gr) ≡ₚ logged_of g (ex_log e).
Proof.
  intros Hok Hgr Hp. destruct (ek_group _ Hok g gr Hgr) as [Hg _]. pose proof (go_pending _ _ _ Hg) as Hlen. rewrite Hp in Hlen.
  assert (outstanding g e = []) as Hnil by (apply nil_length_inv; unfold length_N in Hlen; lia).
  split; [done|]. pose proof (go_chunks _ _ _ Hg) as Hc. by rewrite Hnil in Hc.
Qed.

Lemma ready_elem j (ready : list task_job) : j ∈ ready → tj_range j ∈ ready_of (tj_owner j) ready.
Proof. intros Hj. apply list_elem_of_bind. exists j. split; [|done]. rewrite decide_True by done. by left. Qed.

Lemma running_elem j st (es : list activity) : executing j st ∈ es → tj_range j ∈ running_of (tj_owner j) es.
Proof. intros Hj. apply list_elem_of_bind. exists (executing j st). split; [|done]. rewrite decide_True by done. by left. Qed.

Lemma join_ok e t g s gr :
  executor_ok e → ex_threads e !! t = Some (coordinating g [] :: s) → ex_groups e !! g = Some gr → gr_pending gr = 0 →
  executor_ok (with_thread t s (with_groups (delete g (ex_groups e)) e)).
Proof.
  intros Hok Ht Hgr Hp. pose proof (entries_at e t _ Ht) as Hat. set (o := others t (ex_threads e)) in *. set (e' := with_thread _ _ _).
  destruct (settled_group e g gr Hok Hgr Hp) as [Hnil _]. apply app_nil in Hnil as [_ [Hready Hrunning]%app_nil].
  assert (entries e' ≡ₚ s ++ o) as Hent by by eapply entries_after.
  assert (∀ g, running_of g (entries e') ≡ₚ running_of g (entries e)) as Hrun by (intros g'; by rewrite Hent, Hat, !running_app).
  assert (∀ g, outstanding g e' ≡ₚ outstanding g e) as Hout.
  { intros g'. unfold outstanding. rewrite Hrun. rewrite Hent, Hat, !unpublished_app. simpl. by case_decide. }
  constructor.
  - intros g' gr'. unfold e'. simpl. intros [_ Hgr']%lookup_delete_Some. destruct (ek_group _ Hok g' gr' Hgr') as [Hgo Hc].
    split; [|done]. eapply (group_ok_equiv e e'); [exact Hgo|done|done|by rewrite Hout|rewrite Hout; apply Hgo|rewrite Hrun; apply Hgo|apply Hgo].
  - assert (g :: coordinated (entries e') ≡ₚ coordinated (entries e)) as Hco by (rewrite Hent, Hat, !coordinated_app; done).
    destruct (ek_coordinated _ Hok) as [Hnd Hiff]. rewrite <-Hco in Hnd. apply NoDup_cons in Hnd as [Hout' Hnd]. split; [done|].
    intros g'. unfold e'. simpl. specialize (Hiff g'). rewrite <-Hco, elem_of_cons in Hiff. destruct (decide (g' = g)) as [->|Hne].
    + rewrite lookup_delete_eq. split; [done|by intros [? ?]].
    + rewrite lookup_delete_ne by done. rewrite <-Hiff. split; [by right|by intros [?|?]].
  - intros j Hj. unfold e'. simpl. rewrite lookup_delete_ne; [by apply (ek_ready _ Hok)|]. intros Heq.
    change (ex_ready e') with (ex_ready e) in Hj. apply ready_elem in Hj. rewrite <-Heq, Hready in Hj. by apply elem_of_nil in Hj.
  - intros j st Hj. assert (executing j st ∈ entries e) as Hin by (rewrite Hat; rewrite Hent in Hj; by right).
    destruct (ek_running _ Hok j st Hin) as [Hs Hc]. split; [|exact Hc]. unfold e'. simpl. rewrite lookup_delete_ne; [done|]. intros Heq.
    apply running_elem in Hin. rewrite <-Heq, Hrunning in Hin. by apply elem_of_nil in Hin.
  - eapply (stacks_after e Hok t _ Ht e' s); [done|]. pose proof (ek_stacks _ Hok t _ Ht) as Hs. by inversion Hs.
  - eapply (bottoms_after e Hok t _ Ht e' s); [done|]. eapply bottom_pop, (ek_bottom _ Hok t _ Ht).
  - apply Hok.
  - apply Hok.
Qed.

(** ** Every step *)

Lemma executor_stop_ok e : executor_ok e → executor_ok (with_stop e).
Proof. intros Hok. constructor; try apply Hok. intros g gr Hgr. destruct (ek_group _ Hok g gr Hgr) as [[] ?]. split; [by constructor|done]. Qed.

Lemma take_item_some e t s e' : executor_ok e → ex_threads e !! t = Some s → take_item t s e = Ok (Some e') → executor_ok e'.
Proof. intros Hok Ht He. pose proof (take_item_ok e Hok t s Ht) as Hr. rewrite He in Hr. destruct Hr as (? & [= <-] & Hr). exact Hr. Qed.

Lemma thread_step_ok e e' : executor_ok e → thread_step e e' → executor_ok e'.
Proof.
  intros Hok Hstep. destruct Hstep as [e t g range rest s Ht|e e' t g s owner Ht _ _ He|e e' t Ht _ _ He|e e' t item st s Ht He|e t g s owner Ht Hg Hp].
  - by apply publish_ok.
  - by eapply take_item_some.
  - by eapply take_item_some.
  - pose proof (finish_job_ok e t item st s Hok Ht) as Hr. rewrite He in Hr. destruct Hr as (? & [= <-] & Hr). exact Hr.
  - by eapply join_ok.
Qed.

Lemma executor_step_ok e e' : executor_ok e → executor_step e e' → executor_ok e'.
Proof.
  intros Hok Hstep. destruct Hstep as [e e' Hp|e t item st s count par Ht Hpar Hc|e Ht].
  - by eapply thread_step_ok.
  - apply run_group_ok; try done. intros g rest. by apply bottom_push, (ek_bottom _ Hok t).
  - by apply executor_stop_ok.
Qed.

Lemma start_pool_ok count parallelism hardware : 0 < parallelism ≤ u32_max → count ≤ u64_max → executor_ok (start_pool count parallelism hardware).
Proof.
  intros Hpar Hcount. unfold start_pool. cbv zeta. set (limit := outer_limit _ _ _).
  assert (0 < limit ≤ u32_max) as Hlim by (unfold limit, outer_limit; lia).
  assert (entries (mk_executor limit [] ∅ (replicate (N.to_nat limit) []) false 1 []) = []) as Hent.
  { unfold entries. simpl. induction (N.to_nat limit); simpl; congruence. }
  apply run_group_ok; [|apply lookup_replicate_2; lia|done|done|by intros g rest Hlt; lia].
  constructor; rewrite ?Hent; simpl; try done; try (by intros ? ?%elem_of_nil); try (by intros ? ? ?%elem_of_nil).
  - split; [constructor|]. intros g. rewrite lookup_empty. split; [by intros ?%elem_of_nil|by intros [? ?]].
  - intros t stack [-> _]%lookup_replicate. constructor.
  - intros t stack [-> _]%lookup_replicate Hlt g rest. done.
Qed.

(** The states of a pool, from the start of an outer call on. *)
Definition executor_reached (count parallelism hardware : N) (e : executor) : Prop :=
  rtc executor_step (start_pool count parallelism hardware) e.

Lemma executor_reached_ok count parallelism hardware e :
  0 < parallelism ≤ u32_max → count ≤ u64_max → executor_reached count parallelism hardware e → executor_ok e.
Proof.
  intros Hpar Hcount Hr. assert (executor_ok (start_pool count parallelism hardware)) as Hok by by apply start_pool_ok.
  clear Hpar Hcount. induction Hr as [|e1 e2 e3 Hstep _ IH]; [done|]. apply IH. by eapply executor_step_ok.
Qed.
