(* ===== verification/TaskSpec.v ===== *)
(** * Parallel ranges are executed exactly once

    What [neri_task_parallel_for] promises: its chunks are the range, every index is
    executed once however the threads interleave, the threads cannot block each other, and
    nothing is left when the call returns. *)

From S2P Require Import Prelude Storage Heap WorkerPool WorkerSteps TaskExecutor TaskSafety.

Local Open Scope list_scope.
Local Open Scope N_scope.

(** ** Indices *)

Lemma seqN_NoDup a n : NoDup (seqN a n).
Proof. apply NoDup_fmap_2; [apply _|]. apply NoDup_seq. Qed.

#[export] Instance indices_proper : Proper (Permutation ==> Permutation) (λ rs : list (N * N), concat (range_indices <$> rs)).
Proof.
  intros l k H. induction H as [|x l k _ IH|x y l|l k m _ IH1 _ IH2]; simpl; [done|by apply Permutation_app_head| |by etrans].
  rewrite !app_assoc. apply Permutation_app_tail, Permutation_app_comm.
Qed.

(** The indices of a group are those outstanding and those executed. *)
Lemma group_indices e g gr :
  executor_ok e → ex_groups e !! g = Some gr →
  concat (range_indices <$> (outstanding g e ++ logged_of g (ex_log e))) ≡ₚ seqN 0 (gr_count gr).
Proof.
  intros Hok Hgr. destruct (ek_group _ Hok g gr Hgr) as [[_ Hc _ _ Hl] _]. pose proof (indices_proper _ _ Hc) as Hi. cbv beta in Hi.
  rewrite <-Hi. destruct (chunk_ranges_ok (gr_count gr) (gr_limit gr) Hl) as (-> & _). done.
Qed.

(** ** Threads do not wait for each other *)

(** The top of a stack began last. *)
Lemma top_latest e t a s b : executor_ok e → ex_threads e !! t = Some (a :: s) → b ∈ a :: s → stamp_of b ≤ stamp_of a.
Proof.
  intros Hok Ht Hb. pose proof (ek_stacks _ Hok t _ Ht) as Hs. simpl in Hs. apply elem_of_cons in Hb as [->|Hb]; [lia|].
  inversion Hs as [|? ? _ Hall]; subst. rewrite Forall_forall in Hall. specialize (Hall (stamp_of b) (list_elem_of_fmap_2 _ _ _ Hb)). lia.
Qed.

Lemma entry_thread e a : a ∈ entries e → ∃ t top s, ex_threads e !! t = Some (top :: s) ∧ a ∈ top :: s.
Proof.
  unfold entries. rewrite list_elem_of_In, in_concat. intros (s & Hs%list_elem_of_In & Ha%list_elem_of_In).
  apply list_elem_of_lookup_1 in Hs as [t Ht]. destruct s as [|top s]; [by apply elem_of_nil in Ha|]. by exists t, top, s.
Qed.

(** A group is coordinated once. *)
Lemma coordinated_once e g r1 r2 : executor_ok e → coordinating g r1 ∈ entries e → coordinating g r2 ∈ entries e → r1 = r2.
Proof.
  intros Hok H1 H2. apply list_elem_of_split in H1 as (l1 & l2 & Heq). destruct (ek_coordinated _ Hok) as [Hnd _].
  rewrite Heq in Hnd, H2. rewrite coordinated_app in Hnd. simpl in Hnd. apply NoDup_app in Hnd as (_ & Hd & [Hn _]%NoDup_cons).
  apply elem_of_app in H2 as [H2|[[= ->]|H2]%elem_of_cons]; [|done|by apply coordinated_elem in H2].
  apply coordinated_elem in H2. destruct (Hd g H2). by left.
Qed.

Lemma nonempty_elem {A} (l : list A) : l ≠ [] → ∃ x, x ∈ l.
Proof. destruct l as [|x l]; [done|]. exists x. by left. Qed.

(** Where a coordinator waits for a chunk that another thread executes, that thread is
    further: it started what it does now after the group. *)
Lemma waiting_progress e t g s :
  executor_ok e → ex_threads e !! t = Some (coordinating g [] :: s) → 
  (∃ e', thread_step e e') ∨ ∃ t' top s', ex_threads e !! t' = Some (top :: s') ∧ g < stamp_of top.
Proof.
  intros Hok Ht. destruct (coordinating_top e t g [] s Hok Ht) as [gr Hgr]. destruct (decide (gr_pending gr = 0)) as [Hp|Hp].
  { left. eexists. by eapply step_join. }
  destruct (ek_group _ Hok g gr Hgr) as [Hg _].
  assert (coordinating g [] ∈ entries e) as Hin by (apply (elem_at e t _ Ht); left; by left).
  destruct (running_of g (entries e)) as [|r rs] eqn:Hrun.
  - left. assert (∃ j, j ∈ ex_ready e ∧ tj_owner j = g) as (j & Hj & Hown).
    { assert (outstanding g e ≠ []) as Hne by (intros Hnil; pose proof (go_pending _ _ _ Hg) as Hlen; rewrite Hnil in Hlen; done).
      apply nonempty_elem in Hne as [r Hr]. unfold outstanding in Hr. rewrite Hrun, app_nil_r in Hr. apply elem_of_app in Hr as [Hr|Hr].
      - apply list_elem_of_bind in Hr as (a & Hr & Ha). destruct a as [g' rest|]; [|by apply elem_of_nil in Hr].
        case_decide as Hd; [subst g'|by apply elem_of_nil in Hr].
        rewrite (coordinated_once e g rest [] Hok Ha Hin) in Hr. by apply elem_of_nil in Hr.
      - apply list_elem_of_bind in Hr as (j & Hr & Hj). case_decide as Hd; [|by apply elem_of_nil in Hr]. by exists j. }
    destruct (take_item_ok e Hok t _ Ht) as ([e'|] & Htake & Hres).
    + exists e'. by eapply step_help.
    + specialize (Hres j gr Hj). rewrite Hown in Hres. specialize (Hres Hgr). destruct (go_active _ _ _ Hg) as [Ha _].
      rewrite Hrun in Ha. destruct (go_limit _ _ _ Hg). unfold length_N in Ha. simpl in Ha. lia.
  - right. assert (r ∈ running_of g (entries e)) as Hr by (rewrite Hrun; by left).
    apply list_elem_of_bind in Hr as (a & Hr & Ha). destruct a as [|j st]; [by apply elem_of_nil in Hr|].
    case_decide as Hd; [|by apply elem_of_nil in Hr]. destruct (ek_running _ Hok j st Ha) as [_ Hst].
    destruct (entry_thread e _ Ha) as (t' & top & s' & Ht' & Hin'). exists t', top, s'. split; [done|].
    pose proof (top_latest e t' top s' _ Hok Ht' Hin') as Hle. simpl in Hle. lia.
Qed.

Lemma busy_progress e t top s : executor_ok e → ex_threads e !! t = Some (top :: s) → ∃ e', thread_step e e'.
Proof.
  intros Hok. remember (N.to_nat (ex_clock e - stamp_of top)) as n eqn:Hn. revert t top s Hn.
  induction n as [n IH] using lt_wf_ind. intros t top s -> Ht. destruct top as [g [|range rest]|j st].
  - destruct (waiting_progress e t g s Hok Ht) as [?|(t' & top' & s' & Ht' & Hlt)]; [done|].
    eapply (IH (N.to_nat (ex_clock e - stamp_of top'))); [|done|exact Ht'].
    assert (stamp_of top' < ex_clock e) as Hc. { apply (stamp_past e Hok). apply (elem_at e t' _ Ht'). left. by left. }
    simpl. lia.
  - eexists. by eapply step_publish.
  - destruct (finish_job_ok e t j st s Hok Ht) as (e' & He & _). exists e'. by eapply step_return.
Qed.

(** ** Work *)

Definition weight (a : activity) : nat := match a with coordinating _ rest => S (3 * length rest) | executing _ _ => 1 end.

(** How many steps the threads may still take. *)
Definition work (e : executor) : nat := (sum_list_with weight (entries e) + 2 * length (ex_ready e))%nat.

Lemma work_after e t s e' s' :
  ex_threads e !! t = Some s → ex_threads e' = <[t := s']> (ex_threads e) →
  (work e' + sum_list_with weight s + 2 * length (ex_ready e) = work e + sum_list_with weight s' + 2 * length (ex_ready e'))%nat.
Proof.
  intros Ht He. unfold work. rewrite (entries_after e t s Ht e' s' He), (entries_at e t s Ht), !sum_list_with_app. lia.
Qed.

Lemma take_work e t s e' : executor_ok e → ex_threads e !! t = Some s → take_item t s e = Ok (Some e') → (work e' < work e)%nat.
Proof.
  intros Hok Ht. unfold take_item, load_group.
  destruct (take_ready_ok (ex_groups e) (ex_ready e) (ek_ready _ Hok)) as (r & Htake & Hr). rewrite Htake, bind_Ok.
  destruct r as [[j rest]|]; [|done]. destruct Hr as (gr & _ & Hp & Hown & _). rewrite Hown, load_Some, bind_Ok. intros [= <-].
  match goal with |- (work ?e' < _)%nat => pose proof (work_after e t s e' (executing j (ex_clock e) :: s) Ht eq_refl) as Hw end.
  apply Permutation_length in Hp. simpl in *. lia.
Qed.

Lemma thread_step_work e e' : executor_ok e → thread_step e e' → (work e' < work e)%nat.
Proof.
  intros Hok Hstep. destruct Hstep as [e t g range rest s Ht|e e' t g s owner Ht _ _ He|e e' t Ht _ _ He|e e' t item st s Ht He|e t g s owner Ht Hg Hp].
  - pose proof (work_after e t _ (publish_chunk t g range rest s e) (coordinating g rest :: s) Ht eq_refl) as Hw. simpl in Hw. simpl. lia.
  - by eapply take_work.
  - by eapply take_work.
  - unfold finish_job in He. destruct (load_group e (tj_owner item)) as [owner|]; [|done]. rewrite bind_Ok in He. injection He as <-.
    match goal with |- (work ?e' < _)%nat => pose proof (work_after e t _ e' s Ht eq_refl) as Hw end. simpl in *. lia.
  - match goal with |- (work ?e' < _)%nat => pose proof (work_after e t _ e' s Ht eq_refl) as Hw end. simpl in *. lia.
Qed.

(** ** The outer call *)

(** The bottom of a worker's stack is a job whose group began before. *)
Lemma coordinator_below e t s g rest :
  executor_ok e → (0 < t)%nat → ex_threads e !! t = Some s → coordinating g rest ∈ s → ∃ j st, executing j st ∈ s ∧ st < g.
Proof.
  intros Hok Hpos Ht Hin. pose proof (ek_stacks _ Hok t s Ht) as Hs. pose proof (ek_bottom _ Hok t s Ht Hpos) as Hb. clear Ht.
  induction s as [|a s IH]; [by apply elem_of_nil in Hin|]. simpl in Hs. inversion Hs as [|? ? Hs' Hall]; subst.
  assert (s ≠ [] → ∀ g rest, last s ≠ Some (coordinating g rest)) as Hb'.
  { intros Hne g' rest' Hl. apply (Hb g' rest'). rewrite last_cons. by rewrite Hl. }
  apply elem_of_cons in Hin as [<-|Hin].
  - destruct (last s) as [[g' rest'|j st]|] eqn:Hl.
    + destruct (Hb g' rest'). by rewrite last_cons, Hl.
    + apply last_Some in Hl as [l Hl]. exists j, st. split; [rewrite Hl; set_solver|].
      rewrite Forall_forall in Hall. specialize (Hall st). simpl in Hall. apply N.gt_lt, Hall.
      apply list_elem_of_fmap. exists (executing j st). split; [done|]. rewrite Hl. set_solver.
    + destruct (Hb g rest). by rewrite last_cons, Hl.
  - assert (s ≠ []) as Hne by by intros ->; apply elem_of_nil in Hin.
    destruct (IH Hin Hs' (Hb' Hne)) as (j & st & Hj & Hlt). exists j, st. split; [by right|done].
Qed.

(** When the outer call has no activity left, neither have the workers. *)
Lemma idle_outer e : executor_ok e → ex_threads e !! 0%nat = Some [] → ex_groups e = ∅.
Proof.
  intros Hok H0. assert (∀ n g, N.to_nat g = n → ¬ is_Some (ex_groups e !! g)) as Hno.
  { intros n. induction n as [n IH] using lt_wf_ind. intros g <- Hg. apply (ek_coordinated _ Hok) in Hg.
    apply list_elem_of_bind in Hg as (a & Hg & Ha). destruct a as [g' rest|]; [|by apply elem_of_nil in Hg].
    apply list_elem_of_singleton in Hg as ->. destruct (entry_thread e _ Ha) as (t & top & s & Ht & Hin).
    destruct (decide (t = 0%nat)) as [->|Hne]; [congruence|].
    destruct (coordinator_below e t _ g' rest Hok ltac:(lia) Ht Hin) as (j & st & Hj & Hlt).
    assert (executing j st ∈ entries e) as Hj' by (apply (elem_at e t _ Ht); by left).
    destruct (ek_running _ Hok j st Hj') as [Hs Hst]. eapply (IH (N.to_nat (tj_owner j))); [|done|done]. lia. }
  apply map_empty. intros g. destruct (ex_groups e !! g) eqn:Hg; [|done]. destruct (Hno _ g eq_refl). by eexists.
Qed.

Lemma no_groups_idle e : executor_ok e → ex_groups e = ∅ → entries e = [] ∧ ex_ready e = [].
Proof.
  intros Hok Hg. split; apply elem_of_nil_inv.
  - intros [g rest|j st] Ha.
    + apply coordinated_elem, (ek_coordinated _ Hok) in Ha. rewrite Hg, lookup_empty in Ha. by destruct Ha.
    + apply (ek_running _ Hok) in Ha as [Ha _]. rewrite Hg, lookup_empty in Ha. by destruct Ha.
  - intros j Hj. apply (ek_ready _ Hok) in Hj. rewrite Hg, lookup_empty in Hj. by destruct Hj.
Qed.

(** The group of the outer call is still coordinated, or all of its indices were executed. *)
Definition outer_ok (count : N) (e : executor) : Prop :=
  (∃ gr, ex_groups e !! 1 = Some gr ∧ gr_count gr = count) ∨
  (ex_groups e !! 1 = None ∧ concat (range_indices <$> logged_of 1 (ex_log e)) ≡ₚ seqN 0 count ∧ 1 < ex_clock e).

(** Steps that change the group of the outer call keep its count. *)
Lemma outer_insert count e e' g gr gr' :
  outer_ok count e → ex_groups e !! g = Some gr → gr_count gr' = gr_count gr → ex_groups e' = <[g := gr']> (ex_groups e) →
  (g ≠ 1 → logged_of 1 (ex_log e') = logged_of 1 (ex_log e)) → ex_clock e ≤ ex_clock e' → outer_ok count e'.
Proof.
  intros Hout Hg Hc He Hlog Hle. unfold outer_ok. rewrite He. destruct (decide (g = 1)) as [->|Hne].
  - left. exists gr'. rewrite lookup_insert_eq. split; [done|]. destruct Hout as [(gr0 & Hgr0 & <-)|(Hnone & _)]; congruence.
  - rewrite lookup_insert_ne by done. destruct Hout as [?|(Hnone & Hidx & Hck)]; [by left|right]. rewrite Hlog by done. split_and!; [done|done|lia].
Qed.

Lemma take_outer count e t s e' :
  executor_ok e → outer_ok count e → take_item t s e = Ok (Some e') → outer_ok count e'.
Proof.
  intros Hok Hout. unfold take_item, load_group.
  destruct (take_ready_ok (ex_groups e) (ex_ready e) (ek_ready _ Hok)) as (r & Htake & Hr). rewrite Htake, bind_Ok.
  destruct r as [[j rest]|]; [|done]. destruct Hr as (gr & _ & Hp & Hown & _). rewrite Hown, load_Some, bind_Ok. intros [= <-].
  eapply outer_insert; [done|exact Hown| |reflexivity|done|simpl; lia]. done.
Qed.

Lemma thread_step_outer count e e' : executor_ok e → outer_ok count e → thread_step e e' → outer_ok count e'.
Proof.
  intros Hok Hout Hstep. destruct Hstep as [e t g range rest s Ht|e e' t g s owner Ht _ _ He|e e' t Ht _ _ He|e e' t item st s Ht He|e t g s owner Ht Hg Hp].
  - done.
  - by eapply take_outer.
  - by eapply take_outer.
  - assert (executing item st ∈ entries e) as Hin by (apply (elem_at e t _ Ht); left; by left).
    destruct (ek_running _ Hok item st Hin) as [[owner Hown] _]. unfold finish_job, load_group in He. rewrite Hown, load_Some, bind_Ok in He.
    injection He as <-. eapply outer_insert; [done|exact Hown| |reflexivity| |done]; [done|]. intros Hne. simpl. rewrite logged_app. simpl.
    by rewrite decide_False, app_nil_r.
  - unfold outer_ok. simpl. destruct (decide (g = 1)) as [->|Hne].
    + right. rewrite lookup_delete_eq. destruct (settled_group e 1 owner Hok Hg Hp) as [Hnil _].
      pose proof (group_indices e 1 owner Hok Hg) as Hi. rewrite Hnil in Hi. destruct (ek_group _ Hok 1 owner Hg) as [_ Hlt]. split_and!; [done| |done].
      destruct Hout as [(gr0 & Hgr0 & <-)|(Hnone & _)]; [|congruence]. by simplify_eq.
    + by rewrite lookup_delete_ne.
Qed.

Lemma executor_step_outer count e e' : executor_ok e → outer_ok count e → executor_step e e' → outer_ok count e'.
Proof.
  intros Hok Hout Hstep. destruct Hstep as [e e' Hp|e t item st s c par Ht Hpar Hc|e Ht]; [by eapply thread_step_outer| |done].
  unfold run_group. cbv zeta. destruct (c =? 0); [done|]. unfold outer_ok. simpl.
  assert (1 < ex_clock e) as Hck by (destruct Hout as [(gr & Hgr & _)|(_ & _ & ?)]; [by apply (ek_group _ Hok) in Hgr as [_ ?]|done]).
  rewrite lookup_insert_ne by lia. destruct Hout as [?|(? & ? & ?)]; [by left|right]. split_and!; [done|done|lia].
Qed.

Lemma executor_reached_outer count parallelism hardware e :
  0 < parallelism ≤ u32_max → 0 < count ≤ u64_max → executor_reached count parallelism hardware e → executor_ok e ∧ outer_ok count e.
Proof.
  intros Hpar Hcount Hr. assert (executor_ok (start_pool count parallelism hardware)) as Hok by (apply start_pool_ok; [done|lia]).
  assert (outer_ok count (start_pool count parallelism hardware)) as Hout.
  { left. unfold start_pool, run_group. cbv zeta. rewrite (proj2 (N.eqb_neq count 0)) by lia. simpl. rewrite lookup_insert_eq. by eexists. }
  clear Hpar Hcount. induction Hr as [|e1 e2 e3 Hstep _ IH]; [done|]. apply IH; [by eapply executor_step_ok|by eapply executor_step_outer].
Qed.

(** ** Result slots *)

(** Ranges that follow each other. *)
Fixpoint chained (begin : N) (ranges : list (N * N)) (end_ : N) : Prop :=
  match ranges with [] => begin = end_ | r :: ranges => r.1 = begin ∧ r.1 ≤ r.2 ∧ chained r.2 ranges end_ end.

Lemma chained_loop n index begin width remainder :
  remainder ≤ index + N.of_nat n →
  chained begin (chunk_loop n index begin width remainder) (begin + N.of_nat n * width + (remainder - index)).
Proof.
  revert index begin. induction n as [|n IH]; intros index begin Hr; cbn [chunk_loop chained]; [lia|]. cbv zeta. simpl.
  split_and!; [done|lia|]. destruct (N.ltb_spec index remainder).
  - replace (begin + N.of_nat (S n) * width + (remainder - index)) with (begin + width + 1 + N.of_nat n * width + (remainder - (index + 1))) by lia.
    apply IH. lia.
  - replace (begin + N.of_nat (S n) * width + (remainder - index)) with (begin + width + 0 + N.of_nat n * width + (remainder - (index + 1))) by lia.
    apply IH. lia.
Qed.

Lemma chained_chunks count limit : 0 < limit ≤ u32_max → chained 0 (chunk_ranges count limit) count.
Proof.
  intros Hl. unfold chunk_ranges. destruct (N.eqb_spec count 0) as [->|Hne]; [done|]. cbv zeta.
  destruct (chunk_count_pos count limit) as [[Hpos Hle] _]; [lia|done|]. set (chunks := chunk_count count limit) in *.
  pose proof (N.mod_lt count chunks ltac:(lia)). pose proof (N.div_mod count chunks ltac:(lia)) as Hdm.
  pose proof (chained_loop (N.to_nat chunks) 0 0 (count / chunks) (count mod chunks) ltac:(lia)) as Hch.
  by replace (0 + N.of_nat (N.to_nat chunks) * (count / chunks) + (count mod chunks - 0)) with count in Hch by lia.
Qed.

Lemma chained_end begin ranges end_ : chained begin ranges end_ → begin ≤ end_.
Proof. revert begin. induction ranges as [|r rs IH]; intros begin; simpl; [lia|]. intros (<- & Hle & ?%IH). lia. Qed.

Lemma chained_slots k results begin ranges end_ :
  k ≠ 0 → results + 8 * (end_ * k) ≤ u64_max → chained begin ranges end_ →
  concat ((λ r, seqN (((chunk_slots results k r).1 - results) / 8) (chunk_slots results k r).2) <$> ranges) =
  seqN (begin * k) ((end_ - begin) * k).
Proof.
  intros Hk Hb. revert begin. induction ranges as [|r rs IH]; intros begin.
  - intros ->. by rewrite N.sub_diag.
  - intros (<- & Hle & Hch). rewrite fmap_cons. cbn [concat]. rewrite (IH _ Hch). pose proof (chained_end _ _ _ Hch) as Hend. unfold chunk_slots. simpl.
    rewrite (proj2 (N.eqb_neq k 0) Hk).
    assert (r.1 * k ≤ end_ * k) by (apply N.mul_le_mono_r; lia). assert ((r.2 - r.1) * k ≤ end_ * k) by (apply N.mul_le_mono_r; lia).
    assert (r.2 ≤ end_ * k) by nia. rewrite (u64_small (r.1 * k)), (u64_sub_small r.2 r.1), (u64_small (results + _)), (u64_small ((r.2 - r.1) * k)) by lia.
    replace (results + 8 * (r.1 * k) - results) with (r.1 * k * 8) by lia. rewrite N.div_mul by done.
    replace ((end_ - r.1) * k) with ((r.2 - r.1) * k + (end_ - r.2) * k) by nia. rewrite (seqN_app (r.1 * k)). repeat f_equal; nia.
Qed.

(** The call makes sense and its result span, if it has one, has an address and a size. *)
Definition sensible (count parallelism : N) (body : bool) (results references : N) : Prop :=
  parallelism ≠ 0 ∧ body = true ∧ (references = 0 ∨ count = 0 ∨ results ≠ 0 ∧ 8 * (count * references) ≤ u64_max).

(** The division of the check, against the size it stands for. *)
Lemma span_fits count references :
  references ≠ 0 → (u64_max / 8 / references <? count) = false ↔ 8 * (count * references) ≤ u64_max.
Proof.
  intros Hr. rewrite N.ltb_ge, N.Div0.div_div. split.
  - intros Hc. pose proof (N.Div0.mul_div_le u64_max (8 * references)). nia.
  - intros Hc. apply N.div_le_lower_bound; nia.
Qed.

Lemma check_parallel_iff count parallelism body results references :
  (check_parallel_for count parallelism body results references = Ok tt ∧ sensible count parallelism body results references) ∨
  (check_parallel_for count parallelism body results references = contract_panic "invalid parallel range or result span" ∧
   ¬ sensible count parallelism body results references).
Proof.
  unfold check_parallel_for, sensible. destruct (N.eqb_spec parallelism 0); simpl; [right; split; [done|by intros []]|].
  destruct body; simpl; [|right; split; [done|by intros (_ & ? & _)]].
  destruct (N.eqb_spec references 0); simpl; [left; split_and!; auto|]. destruct (N.eqb_spec count 0); simpl; [left; split_and!; auto|].
  destruct (N.eqb_spec results 0); simpl; [right; split; [done|by intros (_ & _ & [?|[?|[? _]]])]|].
  destruct (u64_max / 8 / references <? count) eqn:Hlt.
  - right. split; [done|]. intros (_ & _ & [?|[?|[_ Hc]]]); [done|done|]. apply span_fits in Hc; [congruence|done].
  - left. split; [done|]. split_and!; [done|done|]. right. right. split; [done|]. by apply span_fits.
Qed.

Lemma chained_within begin ranges end_ r : chained begin ranges end_ → r ∈ ranges → r.1 ≤ r.2 ≤ end_.
Proof.
  revert begin. induction ranges as [|r' rs IH]; intros begin; simpl; [by intros _ ?%elem_of_nil|].
  intros (_ & Hle & Hch) [->|Hin]%elem_of_cons; [|by eapply IH]. split; [done|]. by eapply chained_end.
Qed.

(** The products of an accepted call do not wrap around. *)
Lemma accepted_slots count parallelism body limit results references r :
  0 < limit ≤ u32_max → sensible count parallelism body results references → references ≠ 0 → r ∈ chunk_ranges count limit →
  chunk_slots results references r = (u64 (results + 8 * (r.1 * references)), (r.2 - r.1) * references).
Proof.
  intros Hl (_ & _ & Hs) Hr Hin. pose proof (chained_within _ _ _ r (chained_chunks count limit Hl) Hin) as [Hle Hend].
  assert (8 * (count * references) ≤ u64_max) as Hfit by (destruct Hs as [?|[->|[_ ?]]]; [done|lia|done]).
  assert (r.1 * references ≤ count * references) by (apply N.mul_le_mono_r; lia).
  assert ((r.2 - r.1) * references ≤ count * references) by (apply N.mul_le_mono_r; lia).
  assert (r.2 ≤ count * references) by nia.
  unfold chunk_slots. rewrite (proj2 (N.eqb_neq _ _) Hr), (u64_small (r.1 * _)), (u64_sub_small r.2 r.1), (u64_small ((r.2 - r.1) * _)) by lia. done.
Qed.

(** ** Properties *)

(** C29: The chunks a parallel range is cut into are the range: put one after the other their
    indices are 0 up to the count, in order and each once; there are at most four chunks for
    each thread, none is empty and no two sizes differ by more than one.  The call is
    accepted exactly when its parallelism is not zero, it has code to run, and its result
    span, if it has one, has an address and a size in bytes that fits 64 bits; otherwise it
    stops with a contract panic.  The slots of the chunks of an accepted call are computed
    without overflow of their numbers, and if the span lies in the address space they are the
    slots of the span, in order. *)
Theorem parallel_chunks_partition count parallelism body limit results references :
  0 < limit ≤ u32_max →
  (concat (range_indices <$> chunk_ranges count limit) = seqN 0 count ∧
   length_N (chunk_ranges count limit) ≤ limit * 4 ∧
   Forall (λ r, r.1 < r.2 ∧ count / chunk_count count limit ≤ r.2 - r.1 ≤ count / chunk_count count limit + 1) (chunk_ranges count limit)) ∧
  ((check_parallel_for count parallelism body results references = Ok tt ∧ sensible count parallelism body results references) ∨
   (check_parallel_for count parallelism body results references = contract_panic "invalid parallel range or result span" ∧
    ¬ sensible count parallelism body results references)) ∧
  (check_parallel_for count parallelism body results references = Ok tt → references ≠ 0 →
   (∀ r, r ∈ chunk_ranges count limit →
      chunk_slots results references r = (u64 (results + 8 * (r.1 * references)), (r.2 - r.1) * references)) ∧
   (results + 8 * (count * references) ≤ u64_max →
    concat ((λ r, seqN (((chunk_slots results references r).1 - results) / 8) (chunk_slots results references r).2) <$> chunk_ranges count limit) =
    seqN 0 (count * references))).
Proof.
  intros Hl. destruct (chunk_ranges_ok count limit Hl) as (H1 & _ & H3 & H4).
  pose proof (check_parallel_iff count parallelism body results references) as Hcheck. split_and!; [done|done|done|done|].
  intros Hok Hr. destruct Hcheck as [[_ Hs]|[Hno _]]; [|by rewrite Hno in Hok]. split.
  - intros r Hin. by eapply accepted_slots.
  - intros Hspan. rewrite (chained_slots references results 0 _ count Hr Hspan (chained_chunks count limit Hl)). by rewrite N.sub_0_r.
Qed.

(** C27: However the threads interleave, and whatever further ranges the executed code starts:
    at every moment no index of a group has been handed out twice, the group has as many
    chunks being executed as its counter says, which is never more than its limit, and as
    many unfinished ones as its pending counter says.  A group with nothing pending, which is
    what its coordinator waits for, has executed every index below its count exactly once. *)
Theorem parallel_tasks_exactly_once count parallelism hardware e g gr :
  0 < parallelism ≤ u32_max → count ≤ u64_max → executor_reached count parallelism hardware e → ex_groups e !! g = Some gr →
  NoDup (concat (range_indices <$> (outstanding g e ++ logged_of g (ex_log e)))) ∧
  length_N (running_of g (entries e)) = gr_active gr ∧ gr_active gr ≤ gr_limit gr ∧
  gr_pending gr = length_N (outstanding g e) ∧
  (gr_pending gr = 0 → outstanding g e = [] ∧ concat (range_indices <$> logged_of g (ex_log e)) ≡ₚ seqN 0 (gr_count gr)).
Proof.
  intros Hpar Hc Hr Hgr. pose proof (executor_reached_ok _ _ _ _ Hpar Hc Hr) as Hok. destruct (ek_group _ Hok g gr Hgr) as [Hg _].
  pose proof (group_indices e g gr Hok Hgr) as Hi. split_and!; [rewrite Hi; apply seqN_NoDup|symmetry; apply Hg|apply Hg|apply Hg|].
  intros Hp. destruct (settled_group e g gr Hok Hgr Hp) as [Hnil _]. by rewrite Hnil in Hi.
Qed.

(** C28: The threads of a pool never block each other: while any of them has something to do,
    one of them can go on, although a coordinator helps with the chunks of other groups and
    cannot leave them before they end.  Every such step uses up work, so that unless the
    executed code starts further ranges all the threads are idle after at most [work] steps;
    then nothing is queued and no group is left. *)
Theorem parallel_tasks_all_finish count parallelism hardware e :
  0 < parallelism ≤ u32_max → count ≤ u64_max → executor_reached count parallelism hardware e →
  (∀ e', thread_step e e' → (work e' < work e)%nat) ∧
  (entries e ≠ [] → ∃ e', thread_step e e' ∧ executor_reached count parallelism hardware e') ∧
  (entries e = [] → ex_ready e = [] ∧ ex_groups e = ∅).
Proof.
  intros Hpar Hc Hr. pose proof (executor_reached_ok _ _ _ _ Hpar Hc Hr) as Hok. split_and!.
  - intros e'. by apply thread_step_work.
  - intros [a (t & top & s & Ht & _)%entry_thread]%nonempty_elem. destruct (busy_progress e t top s Hok Ht) as [e' He'].
    exists e'. split; [done|]. eapply rtc_r; [exact Hr|]. by apply step_pool.
  - intros Hnil. assert (ex_groups e = ∅) as Hg.
    { apply map_empty. intros g. destruct (ex_groups e !! g) eqn:Hg; [|done].
      assert (g ∈ coordinated (entries e)) as Hin by (apply (ek_coordinated _ Hok); by eexists). rewrite Hnil in Hin. by apply elem_of_nil in Hin. }
    split; [|done]. by apply no_groups_idle.
Qed.

(** When the outer call has joined its group every index below its count was executed
    exactly once, no worker is executing anything, nothing is queued and no group started by
    the executed code is left: the workers it then stops are idle, and the pool it destroys
    is not referred to. *)
Theorem parallel_for_returns_clean count parallelism hardware e :
  0 < parallelism ≤ u32_max → 0 < count ≤ u64_max → executor_reached count parallelism hardware e → ex_threads e !! 0%nat = Some [] →
  concat (range_indices <$> logged_of 1 (ex_log e)) ≡ₚ seqN 0 count ∧ entries e = [] ∧ ex_ready e = [] ∧ ex_groups e = ∅.
Proof.
  intros Hpar Hc Hr H0. destruct (executor_reached_outer _ _ _ _ Hpar Hc Hr) as [Hok Hout]. pose proof (idle_outer e Hok H0) as Hg.
  destruct (no_groups_idle e Hok Hg) as [He Hready]. split_and!; [|done|done|done].
  destruct Hout as [(gr & Hgr & _)|(_ & Hi & _)]; [|done]. by rewrite Hg, lookup_empty in Hgr.
Qed.

(** ** A range of two items on two threads *)

Definition taken (t : nat) (e : executor) : executor :=
  match ex_threads e !! t with
  | Some stack => match take_item t stack e with Ok (Some e') => e' | _ => e end
  | None => e
  end.

Definition returned (t : nat) (e : executor) : executor :=
  match ex_threads e !! t with
  | Some (executing item _ :: stack) => match finish_job t item stack e with Ok e' => e' | Throw _ => e end
  | _ => e
  end.

Definition sample_begun : executor := start_pool 2 2 4.
Definition sample_published : executor := Eval vm_compute in
  publish_chunk 0 1 (1, 2) [] [] (publish_chunk 0 1 (0, 1) [(1, 2)] [] sample_begun).
Definition sample_shared : executor := Eval vm_compute in taken 1 (taken 0 sample_published).
Definition sample_settled : executor := Eval vm_compute in returned 0 (returned 1 sample_shared).
Definition sample_joined : executor := Eval vm_compute in
  with_thread 0 [] (with_groups (delete 1 (ex_groups sample_settled)) sample_settled).

Lemma sample_shared_reached : executor_reached 2 2 4 sample_shared.
Proof.
  assert (executor_reached 2 2 4 sample_published) as Hp.
  { change sample_published with (publish_chunk 0 1 (1, 2) [] [] (publish_chunk 0 1 (0, 1) [(1, 2)] [] sample_begun)).
    eapply rtc_l; [apply step_pool, (step_publish _ 0%nat 1 (0, 1) [(1, 2)] []); by vm_compute|].
    eapply rtc_once, step_pool, (step_publish _ 0%nat 1 (1, 2) [] []). by vm_compute. }
  eapply rtc_r; [eapply rtc_r; [exact Hp|]|].
  - apply step_pool, (step_help _ (taken 0 sample_published) 0%nat 1 [] (mk_group 2 2 2 0)); by vm_compute.
  - apply step_pool, (step_worker _ _ 1%nat); by vm_compute.
Qed.

Lemma sample_settled_reached : executor_reached 2 2 4 sample_settled.
Proof.
  eapply rtc_r; [eapply rtc_r; [exact sample_shared_reached|]|].
  - apply step_pool, (step_return _ (returned 1 sample_shared) 1%nat (mk_task_job 1 (0, 1)) 3 []); by vm_compute.
  - apply step_pool, (step_return _ _ 0%nat (mk_task_job 1 (1, 2)) 2 [coordinating 1 []]); by vm_compute.
Qed.

Lemma sample_joined_reached : executor_reached 2 2 4 sample_joined.
Proof.
  eapply rtc_r; [exact sample_settled_reached|].
  apply step_pool, (step_join sample_settled 0%nat 1 [] (mk_group 2 2 0 0)); by vm_compute.
Qed.

Lemma parallel_chunks_partition_witness :
  concat (range_indices <$> chunk_ranges 10 1) = [0; 1; 2; 3; 4; 5; 6; 7; 8; 9] ∧ chunk_ranges 10 1 = [(0, 3); (3, 6); (6, 8); (8, 10)].
Proof.
  split; [|vm_compute; reflexivity].
  destruct (parallel_chunks_partition 10 3 true 1 4096 2) as ((Hi & _ & _) & _ & _).
  - vm_compute. split; [reflexivity|discriminate].
  - rewrite Hi. vm_compute. reflexivity.
Defined.

Lemma parallel_tasks_exactly_once_witness :
  length_N (running_of 1 (entries sample_shared)) = 2 ∧ concat (range_indices <$> logged_of 1 (ex_log sample_settled)) ≡ₚ seqN 0 2.
Proof.
  destruct (parallel_tasks_exactly_once 2 2 4 sample_shared 1 (mk_group 2 2 2 2)) as (_ & Hrun & _);
    [vm_compute; split; [reflexivity|discriminate]|vm_compute; discriminate|exact sample_shared_reached|vm_compute; reflexivity|].
  destruct (parallel_tasks_exactly_once 2 2 4 sample_settled 1 (mk_group 2 2 0 0)) as (_ & _ & _ & _ & Hend);
    [vm_compute; split; [reflexivity|discriminate]|vm_compute; discriminate|exact sample_settled_reached|vm_compute; reflexivity|].
  split; [exact Hrun|]. exact (proj2 (Hend eq_refl)).
Defined.

Lemma parallel_tasks_all_finish_witness : ∃ e', thread_step sample_shared e' ∧ executor_reached 2 2 4 e'.
Proof.
  destruct (parallel_tasks_all_finish 2 2 4 sample_shared) as (_ & Hgo & _);
    [vm_compute; split; [reflexivity|discriminate]|vm_compute; discriminate|exact sample_shared_reached|].
  apply Hgo. vm_compute. discriminate.
Defined.

Lemma parallel_for_returns_clean_witness : concat (range_indices <$> logged_of 1 (ex_log sample_joined)) ≡ₚ seqN 0 2.
Proof.
  destruct (parallel_for_returns_clean 2 2 4 sample_joined) as (Hall & _);
    [vm_compute; split; [reflexivity|discriminate]|vm_compute; split; [reflexivity|discriminate]|exact sample_joined_reached|reflexivity|].
  exact Hall.
Defined.
