(* ===== verification/Llvm.v ===== *)
(** * Values of LLVM code

    The interface of LLVM the code generator drives for computations on values: what the
    instructions [llvm::IRBuilder] appends compute.  LLVM is a library; its operations are
    fields of a class, and what the language reference says of them are laws. *)

From Stdlib Require Import SpecFloat.
From S2P Require Import Prelude Types.

Local Open Scope string_scope.
Local Open Scope list_scope.
Local Open Scope N_scope.

(** ** Values *)

(** An integer of [bits] bits, a floating-point number of 32 or 64 bits, an address, a
    structure or an array. *)
Inductive llvm_value :=
| IntValue (bits value : N)
| FloatValue (bits : N) (value : spec_float)
| PointerValue (address : N)
| AggregateValue (elements : list llvm_value).

Definition truth (b : bool) : llvm_value := IntValue 1 (N.b2n b).

(** What an integer denotes, read as unsigned or in two's complement, and back. *)
Definition denote (signed : bool) (bits value : N) : Z :=
  if signed && (2 ^ (bits - 1) <=? value) then (Z.of_N value - 2 ^ Z.of_N bits)%Z else Z.of_N value.

Definition wrap (bits : N) (z : Z) : N := Z.to_N (z mod 2 ^ Z.of_N bits).

Definition minimum (signed : bool) (bits : N) : Z := if signed then (- 2 ^ (Z.of_N bits - 1))%Z else 0%Z.
Definition limit (signed : bool) (bits : N) : Z := if signed then (2 ^ (Z.of_N bits - 1))%Z else (2 ^ Z.of_N bits)%Z.

Definition in_range (signed : bool) (bits : N) (z : Z) : bool :=
  (minimum signed bits <=? z)%Z && (z <? limit signed bits)%Z.

(** ** Predicates *)

Inductive icmp_predicate :=
| ICMP_EQ | ICMP_NE | ICMP_ULT | ICMP_ULE | ICMP_UGT | ICMP_UGE | ICMP_SLT | ICMP_SLE | ICMP_SGT | ICMP_SGE.

Inductive fcmp_predicate := FCMP_OEQ | FCMP_OLT | FCMP_OLE | FCMP_OGT | FCMP_OGE | FCMP_UNO.

Inductive overflow_operation := add_with_overflow | sub_with_overflow | mul_with_overflow.

(** The language reference's tables. *)
Definition icmp_holds (predicate : icmp_predicate) (bits a b : N) : bool :=
  let sa := denote true bits a in
  let sb := denote true bits b in
  match predicate with
  | ICMP_EQ => a =? b
  | ICMP_NE => negb (a =? b)
  | ICMP_ULT => a <? b
  | ICMP_ULE => a <=? b
  | ICMP_UGT => b <? a
  | ICMP_UGE => b <=? a
  | ICMP_SLT => (sa <? sb)%Z
  | ICMP_SLE => (sa <=? sb)%Z
  | ICMP_SGT => (sb <? sa)%Z
  | ICMP_SGE => (sb <=? sa)%Z
  end.

Definition fcmp_holds (predicate : fcmp_predicate) (a b : spec_float) : bool :=
  match predicate, SFcompare a b with
  | FCMP_OEQ, Some Eq | FCMP_OLT, Some Lt | FCMP_OGT, Some Gt => true
  | FCMP_OLE, Some (Lt | Eq) | FCMP_OGE, Some (Gt | Eq) => true
  | FCMP_UNO, None => true
  | _, _ => false
  end.

Definition overflow_result (operation : overflow_operation) (a b : Z) : Z :=
  match operation with
  | add_with_overflow => a + b
  | sub_with_overflow => a - b
  | mul_with_overflow => a * b
  end%Z.

(** The integer part of a number, rounded towards zero. *)
Definition truncate (f : spec_float) : option Z :=
  match f with
  | S754_zero _ => Some 0%Z
  | S754_finite s m e =>
      let z := if s then Z.neg m else Z.pos m in
      Some (if (0 <=? e)%Z then (z * 2 ^ e)%Z else Z.quot z (2 ^ (- e)))
  | _ => None
  end.

(** Precision and exponent range of the formats. *)
Definition precision (bits : N) : Z := if bits =? 32 then 24 else 53.
Definition maximum_exponent (bits : N) : Z := if bits =? 32 then 128 else 1024.
Definition valid_float (bits : N) (f : spec_float) : bool :=
  valid_binary (precision bits) (maximum_exponent bits) f.

(** [llvm::ConstantFP::get] of a power of two with a sign, and of the other constants. *)
Definition power_constant (bits : N) (negative : bool) (exponent : N) : llvm_value :=
  FloatValue bits (S754_finite negative (Z.to_pos (2 ^ (precision bits - 1))) (Z.of_N exponent - (precision bits - 1))).

(** ** The operations *)

(** Operations that may be undefined return a [result]. *)
Class IRBuilder := {
  CreateICmp : icmp_predicate → llvm_value → llvm_value → llvm_value;
  CreateFCmp : fcmp_predicate → llvm_value → llvm_value → llvm_value;
  CreateAnd : llvm_value → llvm_value → llvm_value;
  CreateOr : llvm_value → llvm_value → llvm_value;
  CreateNot : llvm_value → llvm_value;
  CreateAdd : llvm_value → llvm_value → llvm_value;
  CreateSub : llvm_value → llvm_value → llvm_value;
  CreateMul : llvm_value → llvm_value → llvm_value;
  CreateUDiv : llvm_value → llvm_value → result llvm_value;
  CreateSDiv : llvm_value → llvm_value → result llvm_value;
  CreateOverflow : overflow_operation → bool → llvm_value → llvm_value → llvm_value;
  CreateFNeg : llvm_value → llvm_value;
  CreateFAdd : llvm_value → llvm_value → llvm_value;
  CreateFSub : llvm_value → llvm_value → llvm_value;
  CreateFMul : llvm_value → llvm_value → llvm_value;
  CreateFDiv : llvm_value → llvm_value → llvm_value;
  CreateIntCast : llvm_value → N → bool → llvm_value;
  CreateUIToFP : llvm_value → N → llvm_value;
  CreateSIToFP : llvm_value → N → llvm_value;
  CreateFPToUI : llvm_value → N → result llvm_value;
  CreateFPToSI : llvm_value → N → result llvm_value;
  CreateFPCast : llvm_value → N → llvm_value;
  CreateExtractValue : llvm_value → N → result llvm_value;
  CreateInsertValue : llvm_value → llvm_value → N → result llvm_value;
  CreateGEP : llvm_value → llvm_value → llvm_value;
  CreateInBoundsGEP : llvm_value → llvm_value → result llvm_value;
}.

(** [CreateZExt], [CreateTrunc]: the conversion between widths, unsigned. *)
Definition CreateZExt `{IRBuilder} (value : llvm_value) (bits : N) : llvm_value := CreateIntCast value bits false.
Definition CreateTrunc `{IRBuilder} (value : llvm_value) (bits : N) : llvm_value := CreateIntCast value bits false.

Definition is_int (bits : N) (v : llvm_value) : Prop := ∃ n, v = IntValue bits n ∧ n < 2 ^ bits.
Definition is_float (bits : N) (v : llvm_value) : Prop := ∃ f, v = FloatValue bits f ∧ valid_float bits f = true.

Class LawfulIRBuilder `{IRBuilder} : Prop := {
  icmp_int predicate bits a b :
    CreateICmp predicate (IntValue bits a) (IntValue bits b) = truth (icmp_holds predicate bits a b);
  icmp_pointer predicate a b :
    CreateICmp predicate (PointerValue a) (PointerValue b) = truth (icmp_holds predicate 64 a b);
  fcmp_float predicate bits a b :
    CreateFCmp predicate (FloatValue bits a) (FloatValue bits b) = truth (fcmp_holds predicate a b);
  and_truth a b : CreateAnd (truth a) (truth b) = truth (a && b);
  or_truth a b : CreateOr (truth a) (truth b) = truth (a || b);
  not_truth a : CreateNot (truth a) = truth (negb a);
  add_int bits a b : CreateAdd (IntValue bits a) (IntValue bits b) = IntValue bits ((a + b) mod 2 ^ bits);
  sub_int bits a b : CreateSub (IntValue bits a) (IntValue bits b) = IntValue bits ((a + (2 ^ bits - b mod 2 ^ bits)) mod 2 ^ bits);
  mul_int bits a b : CreateMul (IntValue bits a) (IntValue bits b) = IntValue bits ((a * b) mod 2 ^ bits);
  udiv_int bits a b : b ≠ 0 → CreateUDiv (IntValue bits a) (IntValue bits b) = Ok (IntValue bits (a / b));
  sdiv_int bits a b :
    denote true bits b ≠ 0%Z → in_range true bits (denote true bits a ÷ denote true bits b) = true →
    CreateSDiv (IntValue bits a) (IntValue bits b) =
      Ok (IntValue bits (wrap bits (denote true bits a ÷ denote true bits b)));
  overflow_int operation signed bits a b :
    let r := overflow_result operation (denote signed bits a) (denote signed bits b) in
    CreateOverflow operation signed (IntValue bits a) (IntValue bits b) =
      AggregateValue [IntValue bits (wrap bits r); truth (negb (in_range signed bits r))];
  fneg_float bits a : valid_float bits a = true → is_float bits (CreateFNeg (FloatValue bits a));
  fadd_float bits a b : valid_float bits a = true → valid_float bits b = true →
    is_float bits (CreateFAdd (FloatValue bits a) (FloatValue bits b));
  fsub_float bits a b : valid_float bits a = true → valid_float bits b = true →
    is_float bits (CreateFSub (FloatValue bits a) (FloatValue bits b));
  fmul_float bits a b : valid_float bits a = true → valid_float bits b = true →
    is_float bits (CreateFMul (FloatValue bits a) (FloatValue bits b));
  fdiv_float bits a b : valid_float bits a = true → valid_float bits b = true →
    is_float bits (CreateFDiv (FloatValue bits a) (FloatValue bits b));
  int_cast bits a bits' signed :
    CreateIntCast (IntValue bits a) bits' signed = IntValue bits' (wrap bits' (denote signed bits a));
  ui_to_fp bits a bits' : bits' ∈ [32; 64] → is_float bits' (CreateUIToFP (IntValue bits a) bits');
  si_to_fp bits a bits' : bits' ∈ [32; 64] → is_float bits' (CreateSIToFP (IntValue bits a) bits');
  fp_to_ui bits a bits' z : truncate a = Some z → in_range false bits' z = true →
    CreateFPToUI (FloatValue bits a) bits' = Ok (IntValue bits' (wrap bits' z));
  fp_to_si bits a bits' z : truncate a = Some z → in_range true bits' z = true →
    CreateFPToSI (FloatValue bits a) bits' = Ok (IntValue bits' (wrap bits' z));
  fp_cast bits a bits' : valid_float bits a = true → bits' ∈ [32; 64] → is_float bits' (CreateFPCast (FloatValue bits a) bits');
  extract_value elements i v :
    elements !! N.to_nat i = Some v → CreateExtractValue (AggregateValue elements) i = Ok v;
  insert_value elements i old v :
    elements !! N.to_nat i = Some old →
    CreateInsertValue (AggregateValue elements) v i = Ok (AggregateValue (<[N.to_nat i := v]> elements));
  gep a offset : CreateGEP (PointerValue a) (IntValue 64 offset) = PointerValue ((a + offset) mod 2 ^ 64);
  in_bounds_gep a offset : a + offset < 2 ^ 64 → offset < 2 ^ 63 →
    CreateInBoundsGEP (PointerValue a) (IntValue 64 offset) = Ok (PointerValue (a + offset));
}.

(** ** Denotation *)

Lemma denote_range signed bits v : 0 < bits → v < 2 ^ bits → in_range signed bits (denote signed bits v) = true.
Proof.
  intros Hb Hv. unfold in_range, denote, minimum, limit.
  assert (2 ^ Z.of_N bits = 2 * 2 ^ (Z.of_N bits - 1))%Z as Hp by (rewrite <-Z.pow_succ_r by lia; f_equal; lia).
  assert (Z.of_N (2 ^ (bits - 1)) = 2 ^ (Z.of_N bits - 1))%Z as Hh by (rewrite N2Z.inj_pow, N2Z.inj_sub by lia; done).
  assert (Z.of_N v < 2 ^ Z.of_N bits)%Z as Hz by (change 2%Z with (Z.of_N 2); rewrite <-N2Z.inj_pow; lia).
  rewrite andb_true_iff, Z.leb_le, Z.ltb_lt. destruct signed; cbn [andb]; [|lia].
  destruct (N.leb_spec (2 ^ (bits - 1)) v); lia.
Qed.

Lemma in_range_spec signed bits z : in_range signed bits z = true ↔ (minimum signed bits ≤ z < limit signed bits)%Z.
Proof. unfold in_range. by rewrite andb_true_iff, Z.leb_le, Z.ltb_lt. Qed.

Lemma wrap_bound bits z : wrap bits z < 2 ^ bits.
Proof.
  unfold wrap. pose proof (Z.mod_pos_bound z (2 ^ Z.of_N bits) ltac:(lia)) as Hb.
  apply N2Z.inj_lt. rewrite Z2N.id, N2Z.inj_pow by lia. lia.
Qed.

(** Wrapping a number in range keeps what it denotes. *)
Lemma denote_wrap signed bits z : 0 < bits → in_range signed bits z = true → denote signed bits (wrap bits z) = z.
Proof.
  intros Hb Hz%in_range_spec. unfold minimum, limit, denote, wrap in *.
  assert (2 ^ Z.of_N bits = 2 * 2 ^ (Z.of_N bits - 1))%Z as Hp by (rewrite <-Z.pow_succ_r by lia; f_equal; lia).
  assert (Z.of_N (2 ^ (bits - 1)) = 2 ^ (Z.of_N bits - 1))%Z as Hh by (rewrite N2Z.inj_pow, N2Z.inj_sub by lia; done).
  assert (0 < 2 ^ (Z.of_N bits - 1))%Z as Hpos by lia.
  destruct (decide (0 ≤ z)%Z) as [Hn|Hn].
  - rewrite Z.mod_small by (destruct signed; lia). rewrite Z2N.id by lia. destruct signed; cbn [andb]; [|done].
    destruct (N.leb_spec (2 ^ (bits - 1)) (Z.to_N z)); [lia|done].
  - destruct signed; [|lia]. replace (z mod 2 ^ Z.of_N bits)%Z with (z + 2 ^ Z.of_N bits)%Z.
    + rewrite Z2N.id by lia. cbn [andb]. destruct (N.leb_spec (2 ^ (bits - 1)) (Z.to_N (z + 2 ^ Z.of_N bits))); lia.
    + symmetry. rewrite <-(Z.mod_add z 1 (2 ^ Z.of_N bits)) by lia. rewrite Z.mod_small by lia. lia.
Qed.

Lemma wrap_denote signed bits v : 0 < bits → v < 2 ^ bits → wrap bits (denote signed bits v) = v.
Proof.
  intros Hb Hv. unfold wrap, denote. assert (Z.of_N v < 2 ^ Z.of_N bits)%Z as Hz by (change 2%Z with (Z.of_N 2); rewrite <-N2Z.inj_pow; lia).
  destruct (_ && _).
  - replace (Z.of_N v - 2 ^ Z.of_N bits)%Z with (Z.of_N v + (-1) * 2 ^ Z.of_N bits)%Z by lia.
    rewrite Z.mod_add, Z.mod_small by lia. lia.
  - rewrite Z.mod_small by lia. lia.
Qed.

Lemma denote_inj signed bits a b : 0 < bits → a < 2 ^ bits → b < 2 ^ bits → denote signed bits a = denote signed bits b → a = b.
Proof. intros Hb Ha Hb' He. rewrite <-(wrap_denote signed bits a), <-(wrap_denote signed bits b), He by done. done. Qed.

Lemma denote_small signed bits v : 0 < bits → v < 2 ^ (bits - 1) → denote signed bits v = Z.of_N v.
Proof. intros Hb Hv. unfold denote. by rewrite (proj2 (N.leb_gt _ _) Hv), andb_false_r. Qed.

(** ** A builder

    The laws hold of a concrete builder.  Where they leave the result open, the rounding of
    floating-point operations, it gives a number that is not a number. *)

Definition undefined_operation {A} : result A := Throw (undefined "undefined operation").

Definition on_integers (f : N → N → N → N) (a b : llvm_value) : llvm_value :=
  match a, b with IntValue bits x, IntValue _ y => IntValue bits (f bits x y) | _, _ => a end.

Definition on_floats (a : llvm_value) : llvm_value :=
  match a with FloatValue bits _ => FloatValue bits S754_nan | _ => a end.

Definition build_icmp (predicate : icmp_predicate) (a b : llvm_value) : llvm_value :=
  match a, b with
  | IntValue bits x, IntValue _ y => truth (icmp_holds predicate bits x y)
  | PointerValue x, PointerValue y => truth (icmp_holds predicate 64 x y)
  | _, _ => a
  end.

Definition build_fcmp (predicate : fcmp_predicate) (a b : llvm_value) : llvm_value :=
  match a, b with FloatValue _ x, FloatValue _ y => truth (fcmp_holds predicate x y) | _, _ => a end.

Definition build_udiv (a b : llvm_value) : result llvm_value :=
  match a, b with
  | IntValue bits x, IntValue _ y => if y =? 0 then undefined_operation else Ok (IntValue bits (x / y))
  | _, _ => undefined_operation
  end.

Definition build_sdiv (a b : llvm_value) : result llvm_value :=
  match a, b with
  | IntValue bits x, IntValue _ y =>
      let q := (denote true bits x ÷ denote true bits y)%Z in
      if (denote true bits y =? 0)%Z || negb (in_range true bits q) then undefined_operation else Ok (IntValue bits (wrap bits q))
  | _, _ => undefined_operation
  end.

Definition build_overflow (operation : overflow_operation) (signed : bool) (a b : llvm_value) : llvm_value :=
  match a, b with
  | IntValue bits x, IntValue _ y =>
      let r := overflow_result operation (denote signed bits x) (denote signed bits y) in
      AggregateValue [IntValue bits (wrap bits r); truth (negb (in_range signed bits r))]
  | _, _ => a
  end.

Definition build_float_to_int (signed : bool) (a : llvm_value) (bits : N) : result llvm_value :=
  match a with
  | FloatValue _ f => match truncate f with
                      | Some z => if in_range signed bits z then Ok (IntValue bits (wrap bits z)) else undefined_operation
                      | None => undefined_operation
                      end
  | _ => undefined_operation
  end.

Definition build_extract (a : llvm_value) (i : N) : result llvm_value :=
  match a with
  | AggregateValue elements => match elements !! N.to_nat i with Some v => Ok v | None => undefined_operation end
  | _ => undefined_operation
  end.

Definition build_insert (a v : llvm_value) (i : N) : result llvm_value :=
  match a with
  | AggregateValue elements =>
      if (N.to_nat i <? length elements)%nat then Ok (AggregateValue (<[N.to_nat i := v]> elements)) else undefined_operation
  | _ => undefined_operation
  end.

Definition build_gep (a offset : llvm_value) : llvm_value :=
  match a, offset with PointerValue p, IntValue _ o => PointerValue ((p + o) mod 2 ^ 64) | _, _ => a end.

Definition build_in_bounds_gep (a offset : llvm_value) : result llvm_value :=
  match a, offset with
  | PointerValue p, IntValue _ o => if p + o <? 2 ^ 64 then Ok (PointerValue (p + o)) else undefined_operation
  | _, _ => undefined_operation
  end.

Definition plain_builder : IRBuilder := {|
  CreateICmp := build_icmp;
  CreateFCmp := build_fcmp;
  CreateAnd := on_integers (λ _, N.land);
  CreateOr := on_integers (λ _, N.lor);
  CreateNot a := match a with IntValue bits x => IntValue bits (2 ^ bits - 1 - x) | _ => a end;
  CreateAdd := on_integers (λ bits x y, (x + y) mod 2 ^ bits);
  CreateSub := on_integers (λ bits x y, (x + (2 ^ bits - y mod 2 ^ bits)) mod 2 ^ bits);
  CreateMul := on_integers (λ bits x y, (x * y) mod 2 ^ bits);
  CreateUDiv := build_udiv;
  CreateSDiv := build_sdiv;
  CreateOverflow := build_overflow;
  CreateFNeg a := match a with FloatValue bits f => FloatValue bits (SFopp f) | _ => a end;
  CreateFAdd a _ := on_floats a;
  CreateFSub a _ := on_floats a;
  CreateFMul a _ := on_floats a;
  CreateFDiv a _ := on_floats a;
  CreateIntCast a bits signed := match a with IntValue bits' x => IntValue bits (wrap bits (denote signed bits' x)) | _ => a end;
  CreateUIToFP _ bits := FloatValue bits S754_nan;
  CreateSIToFP _ bits := FloatValue bits S754_nan;
  CreateFPToUI := build_float_to_int false;
  CreateFPToSI := build_float_to_int true;
  CreateFPCast _ bits := FloatValue bits S754_nan;
  CreateExtractValue := build_extract;
  CreateInsertValue := build_insert;
  CreateGEP := build_gep;
  CreateInBoundsGEP := build_in_bounds_gep;
|}.

Lemma plain_builder_lawful : @LawfulIRBuilder plain_builder.
Proof.
  assert (∀ bits, is_float bits (FloatValue bits S754_nan)) as Hnan by (intros bits; by eexists).
  split; cbn -[Nat.ltb]; try done; try (intros [] []; done); try (intros []; done); try (intros; apply Hnan).
  - intros bits a b Hb. unfold build_udiv. by apply N.eqb_neq in Hb as ->.
  - intros bits a b Hb Hr. unfold build_sdiv. apply Z.eqb_neq in Hb as ->. by rewrite Hr.
  - intros bits [s|s| |s m e] Ha; (eexists; split; [done|exact Ha]).
  - intros bits a bits' z Hz Hr. unfold build_float_to_int. by rewrite Hz, Hr.
  - intros bits a bits' z Hz Hr. unfold build_float_to_int. by rewrite Hz, Hr.
  - intros elements i v Hv. unfold build_extract. by rewrite Hv.
  - intros elements i old v Hv. unfold build_insert. apply lookup_lt_Some, Nat.ltb_lt in Hv. by rewrite Hv.
  - intros a offset Ha _. unfold build_in_bounds_gep. by apply N.ltb_lt in Ha as ->.
Qed.
