(* ===== verification/Lowered.v ===== *)
(** * Instructions that compute values ([native/codegen/llvm_lowering.cpp], [llvm_numeric.h])

    The cases of [lower_instruction] whose code computes a value from values: arithmetic,
    comparisons, conversions, optionals and pointers, and the checks of array accesses and
    allocations.  A call of the builder stands for what the appended instruction computes
    when the code runs, so that the model of the code generator is the meaning of the code it
    generates. *)

From Stdlib Require Import SpecFloat.
From S2P Require Import Prelude Domains IR Types Layout Index Roots ClassLayout Heap Llvm.

Local Open Scope string_scope.
Local Open Scope list_scope.
Local Open Scope N_scope.

Definition PANIC_ARITHMETIC : N := 2.

Definition is_unsigned_tag (value : type) : bool := unsigned_scalar (ty_tag value).

(** [getIntegerBitWidth] of a value's type. *)
Definition integer_bits (value : llvm_value) : N := match value with IntValue bits _ => bits | _ => 0 end.

Definition float_bits (value : llvm_value) : N := match value with FloatValue bits _ => bits | _ => 0 end.

(** [llvm::ConstantInt::get]. *)
Definition constant_int (bits value : N) : llvm_value := IntValue bits (value mod 2 ^ bits).
Definition constant_signed (bits : N) (value : Z) : llvm_value := IntValue bits (wrap bits value).

(** [llvm::ConstantAggregateZero::get] and the zero of the other types. *)
Fixpoint zero_value (t : llvm_type) : llvm_value :=
  match t with
  | IntegerType bits => IntValue bits 0
  | FloatType => FloatValue 32 (S754_zero false)
  | DoubleType => FloatValue 64 (S754_zero false)
  | PointerType => PointerValue 0
  | ArrayType element count => AggregateValue (replicate (N.to_nat count) (zero_value element))
  | StructType elements => AggregateValue (map zero_value elements)
  end.

Definition null_pointer : llvm_value := PointerValue 0.

(** Decoding of binary64, [llvm::APFloat(IEEEdouble(), bits)]. *)
Class FloatBits := { double_of_bits : N → spec_float }.

Section lowering.
Context `{IRBuilder} `{DataLayout} `{FloatBits}.
(** The module, with [input_] in its index. *)
Variable index : module_verification_index.
Notation module := (idx_module index).
(** [globals_], and the call of [neri_rt_v1_string_equal]. *)
Variable globals : gmap symbol_id N.
Variable string_equal : N → N → result N.

(** ** Guards *)

(** The block that fails calls the runtime's panic function, which does not return. *)
Definition emit_guard (condition : llvm_value) (code : N) (message : string) : result unit :=
  match condition with
  | IntValue 1 value => if value =? 1 then Ok tt else Throw (panic code message)
  | _ => Throw (undefined "branch on a value that is no boolean")
  end.

Definition checked_overflow (operation : overflow_operation) (signed : bool) (left right : llvm_value)
    (message : string) : result llvm_value :=
  let pair := CreateOverflow operation signed left right in
  value ← CreateExtractValue pair 0;
  overflow ← CreateExtractValue pair 1;
  emit_guard (CreateNot overflow) PANIC_ARITHMETIC message;;
  Ok value.

(** ** Physical scalars *)

Definition to_physical_scalar (input : llvm_value) (semantic : type) : llvm_value :=
  if tag_eqb (ty_tag semantic) NERI_IR_TYPE_BOOL_V1 then CreateZExt input 8 else input.

Definition from_physical_scalar (input : llvm_value) (semantic : type) : llvm_value :=
  if tag_eqb (ty_tag semantic) NERI_IR_TYPE_BOOL_V1 then CreateICmp ICMP_NE input (constant_int 8 0) else input.

(** ** Comparisons *)

Definition float_predicate (predicate : neri_ir_comparison_v1) : result fcmp_predicate :=
  match predicate with
  | NERI_IR_COMPARISON_LESS_V1 => Ok FCMP_OLT
  | NERI_IR_COMPARISON_LESS_OR_EQUAL_V1 => Ok FCMP_OLE
  | NERI_IR_COMPARISON_GREATER_V1 => Ok FCMP_OGT
  | NERI_IR_COMPARISON_GREATER_OR_EQUAL_V1 => Ok FCMP_OGE
  | _ => Throw (lowering_error "Invalid floating comparison predicate.")
  end.

Definition integer_predicate (unsigned : bool) (predicate : neri_ir_comparison_v1) : icmp_predicate :=
  match predicate with
  | NERI_IR_COMPARISON_EQUAL_V1 => ICMP_EQ
  | NERI_IR_COMPARISON_NOT_EQUAL_V1 => ICMP_NE
  | NERI_IR_COMPARISON_LESS_V1 => if unsigned then ICMP_ULT else ICMP_SLT
  | NERI_IR_COMPARISON_LESS_OR_EQUAL_V1 => if unsigned then ICMP_ULE else ICMP_SLE
  | NERI_IR_COMPARISON_GREATER_V1 => if unsigned then ICMP_UGT else ICMP_SGT
  | NERI_IR_COMPARISON_GREATER_OR_EQUAL_V1 => if unsigned then ICMP_UGE else ICMP_SGE
  end.

(** Numbers that are not a number are equal to each other. *)
Definition float_equal (left right : llvm_value) : llvm_value :=
  CreateOr (CreateFCmp FCMP_OEQ left right) (CreateAnd (CreateFCmp FCMP_UNO left left) (CreateFCmp FCMP_UNO right right)).

Definition compare_scalar (left right : llvm_value) (operand_type : type) (predicate : neri_ir_comparison_v1)
    : result llvm_value :=
  managed ← managed_reference operand_type;
  if (managed : bool) then
    match predicate with
    | NERI_IR_COMPARISON_EQUAL_V1 => Ok (CreateICmp ICMP_EQ left right)
    | NERI_IR_COMPARISON_NOT_EQUAL_V1 => Ok (CreateICmp ICMP_NE left right)
    | _ => Throw (lowering_error "Managed references support only equality comparisons.")
    end
  else if floating_scalar (ty_tag operand_type) then
    match predicate with
    | NERI_IR_COMPARISON_EQUAL_V1 => Ok (float_equal left right)
    | NERI_IR_COMPARISON_NOT_EQUAL_V1 => Ok (CreateNot (float_equal left right))
    | _ => predicate ← float_predicate predicate; Ok (CreateFCmp predicate left right)
    end
  else Ok (CreateICmp (integer_predicate (is_unsigned_tag operand_type) predicate) left right).

Definition compare_pointer (left right : llvm_value) (predicate : neri_ir_comparison_v1) : llvm_value :=
  CreateICmp (integer_predicate true predicate) left right.

(** The payload of an optional with a tag: behind the padding, where there is any. *)
Definition payload_index (argument : type) : N :=
  if tag_eqb (ty_tag argument) NERI_IR_TYPE_BOOL_V1 || tag_eqb (ty_tag argument) NERI_IR_TYPE_BYTE_V1 then 1 else 2.

Definition call_string_equal (first second : llvm_value) : result llvm_value :=
  match first, second with
  | PointerValue a, PointerValue b => equal ← string_equal a b; Ok (IntValue 8 equal)
  | _, _ => Throw (undefined "call with an argument that is no pointer")
  end.

Definition compare_optional (left right : llvm_value) (operand_type : type) (predicate : neri_ir_comparison_v1)
    : result llvm_value :=
  null ← uses_null_representation operand_type;
  argument ← front (ty_arguments operand_type);
  equal ← (if (null : bool) then
             if is_string argument then
               call ← call_string_equal left right;
               Ok (CreateICmp ICMP_NE call (constant_int 8 0))
             else Ok (CreateICmp ICMP_EQ left right)
           else
             left_tag ← CreateExtractValue left 0;
             right_tag ← CreateExtractValue right 0;
             let tags_equal := CreateICmp ICMP_EQ left_tag right_tag in
             let both_none := CreateICmp ICMP_EQ left_tag (constant_int 8 0) in
             left_value ← CreateExtractValue left (payload_index argument);
             right_value ← CreateExtractValue right (payload_index argument);
             payload_equal ← compare_scalar (from_physical_scalar left_value argument)
                               (from_physical_scalar right_value argument) argument NERI_IR_COMPARISON_EQUAL_V1;
             Ok (CreateAnd tags_equal (CreateOr both_none payload_equal)));
  Ok (match predicate with NERI_IR_COMPARISON_EQUAL_V1 => equal | _ => CreateNot equal end).

(** ** Constants *)

Definition physical_scalar_constant (value : constant) (expected : type) : result llvm_value :=
  match ty_tag expected with
  | NERI_IR_TYPE_BOOL_V1 | NERI_IR_TYPE_BYTE_V1 => Ok (constant_int 8 (c_value_bits value))
  | NERI_IR_TYPE_INT_V1 => Ok (constant_int 64 (c_value_bits value))
  | NERI_IR_TYPE_FLOAT_V1 => Ok (FloatValue 64 (double_of_bits (c_value_bits value)))
  | _ => Throw (lowering_error "Verified scalar constant has no LLVM mapping.")
  end.

Fixpoint semantic_constant (value : constant) (expected : type) : result llvm_value :=
  match value with
  | mk_constant tag bits types nested symbol text =>
      match tag with
      | NERI_IR_CONSTANT_BOOL_V1 => Ok (constant_int 1 bits)
      | NERI_IR_CONSTANT_BYTE_V1 => Ok (constant_int 8 bits)
      | NERI_IR_CONSTANT_INT_V1 => Ok (constant_int 64 bits)
      | NERI_IR_CONSTANT_FLOAT_V1 => Ok (FloatValue 64 (double_of_bits bits))
      | NERI_IR_CONSTANT_STRING_GLOBAL_V1 =>
          symbol ← deref symbol;
          match globals !! symbol with
          | Some address => Ok (PointerValue address)
          | None => Throw (out_of_range "map::at")
          end
      | NERI_IR_CONSTANT_OPTIONAL_NONE_V1 =>
          null ← uses_null_representation expected;
          if (null : bool) then Ok null_pointer else t ← semantic_type module expected; Ok (zero_value t)
      | NERI_IR_CONSTANT_OPTIONAL_SOME_V1 =>
          null ← uses_null_representation expected;
          argument ← front (ty_arguments expected);
          match nested with
          | [] => Throw (undefined "front() of an empty vector")
          | inner :: _ =>
              if (null : bool) then semantic_constant inner argument
              else
                payload ← physical_scalar_constant inner argument;
                let tag := constant_int 8 1 in
                Ok (AggregateValue (if payload_index argument =? 1 then [tag; payload]
                                    else [tag; zero_value (ArrayType (IntegerType 8) 7); payload]))
          end
      | _ => Throw (lowering_error "Verified constant has no LLVM mapping.")
      end
  end.

(** ** Conversions *)

Definition float_zero (bits : N) : llvm_value := FloatValue bits (S754_zero false).
Definition float_infinity (bits : N) (negative : bool) : llvm_value := FloatValue bits (S754_infinity negative).

(** [std::numeric_limits<float>::max()], as a [double]. *)
Definition single_maximum (negative : bool) : llvm_value := FloatValue 64 (S754_finite negative 9007198717870080 75).

(** [is_unsigned ? 0.0 : -limit], and [limit], for a target of [bits] bits. *)
Definition float_minimum (source_bits bits : N) (unsigned : bool) : llvm_value :=
  if unsigned then float_zero source_bits else power_constant source_bits true (bits - 1).
Definition float_limit (source_bits bits : N) (unsigned : bool) : llvm_value :=
  power_constant source_bits false (if unsigned then bits else bits - 1).

Definition numeric_cast (source : llvm_value) (source_tag target_tag : neri_ir_type_tag_v1) : result llvm_value :=
  let guard condition := emit_guard condition PANIC_ARITHMETIC "Numeric conversion is outside the target range." in
  let from_float := floating_scalar source_tag in
  let to_float := floating_scalar target_tag in
  let width := scalar_width target_tag in
  let unsigned := unsigned_scalar target_tag in
  if negb from_float && negb to_float then
    let wide := CreateIntCast source 128 (negb (unsigned_scalar source_tag)) in
    guard (CreateAnd (CreateICmp ICMP_SGE wide (constant_signed 128 (minimum (negb unsigned) width)))
                     (CreateICmp ICMP_SLE wide (constant_signed 128 (limit (negb unsigned) width - 1)%Z)));;
    Ok (CreateIntCast source width (negb (unsigned_scalar source_tag)))
  else if from_float && negb to_float then
    guard (CreateAnd (CreateFCmp FCMP_OGE source (float_minimum (float_bits source) width unsigned))
                     (CreateFCmp FCMP_OLT source (float_limit (float_bits source) width unsigned)));;
    if unsigned then CreateFPToUI source width else CreateFPToSI source width
  else if negb from_float && to_float then
    Ok (if unsigned_scalar source_tag then CreateUIToFP source width else CreateSIToFP source width)
  else if width <? scalar_width source_tag then
    let in_range := CreateAnd (CreateFCmp FCMP_OGE source (single_maximum true))
                              (CreateFCmp FCMP_OLE source (single_maximum false)) in
    let special := CreateOr (CreateFCmp FCMP_UNO source source)
                     (CreateOr (CreateFCmp FCMP_OEQ source (float_infinity (float_bits source) false))
                               (CreateFCmp FCMP_OEQ source (float_infinity (float_bits source) true))) in
    guard (CreateOr in_range special);;
    Ok (CreateFPCast source width)
  else Ok (CreateFPCast source width).

(** [CAST_FLOAT_TO_INT_CHECKED]. *)
Definition float_to_int (operand : llvm_value) : result llvm_value :=
  emit_guard (CreateAnd (CreateFCmp FCMP_OGE operand (power_constant 64 true 63))
                        (CreateFCmp FCMP_OLT operand (power_constant 64 false 63)))
    PANIC_ARITHMETIC "Float value cannot be represented as Int.";;
  CreateFPToSI operand 64.

(** [CAST_INT_TO_BYTE_CHECKED]. *)
Definition int_to_byte (operand : llvm_value) : result llvm_value :=
  emit_guard (CreateAnd (CreateICmp ICMP_SGE operand (constant_int 64 0)) (CreateICmp ICMP_SLE operand (constant_int 64 255)))
    PANIC_ARITHMETIC "Integer value is outside the Byte range 0..255.";;
  Ok (CreateTrunc operand 8).

(** ** Arithmetic *)

Definition negate (operand : llvm_value) (unsigned : bool) : result llvm_value :=
  checked_overflow sub_with_overflow (negb unsigned) (constant_int (integer_bits operand) 0) operand
    "Integer negation overflow.".

Definition overflow_message (operation : overflow_operation) : string :=
  match operation with
  | add_with_overflow => "Integer addition overflow."
  | sub_with_overflow => "Integer subtraction overflow."
  | mul_with_overflow => "Integer multiplication overflow."
  end.

Definition divide (left right : llvm_value) (unsigned : bool) : result llvm_value :=
  let bits := integer_bits left in
  let nonzero := CreateICmp ICMP_NE right (constant_int (integer_bits right) 0) in
  let overflow := CreateAnd (CreateICmp ICMP_EQ left (constant_signed bits (minimum true bits)))
                            (CreateICmp ICMP_EQ right (constant_signed bits (-1))) in
  emit_guard (if unsigned then nonzero else CreateAnd nonzero (CreateNot overflow)) PANIC_ARITHMETIC
    "Invalid integer division.";;
  if unsigned then CreateUDiv left right else CreateSDiv left right.

(** ** Optionals *)

Definition missing_optional : string := "Cannot read a missing optional value.".

Definition optional_none (result_type : type) : result llvm_value :=
  null ← uses_null_representation result_type;
  if (null : bool) then Ok null_pointer else t ← semantic_type module result_type; Ok (zero_value t).

Definition optional_some (operand : llvm_value) (result_type : type) : result llvm_value :=
  null ← uses_null_representation result_type;
  if (null : bool) then Ok operand
  else
    t ← semantic_type module result_type;
    argument ← front (ty_arguments result_type);
    tagged ← CreateInsertValue (zero_value t) (constant_int 8 1) 0;
    CreateInsertValue tagged (to_physical_scalar operand argument) (payload_index argument).

Definition optional_is_some (operand : llvm_value) (operand_type : type) : result llvm_value :=
  null ← uses_null_representation operand_type;
  if (null : bool) then Ok (CreateICmp ICMP_NE operand null_pointer)
  else tag ← CreateExtractValue operand 0; Ok (CreateICmp ICMP_EQ tag (constant_int 8 1)).

Definition optional_get (optional : llvm_value) (operand_type result_type : type) : result llvm_value :=
  null ← uses_null_representation operand_type;
  if (null : bool) then
    emit_guard (CreateICmp ICMP_NE optional null_pointer) PANIC_RUNTIME_CONTRACT missing_optional;;
    Ok optional
  else
    tag ← CreateExtractValue optional 0;
    emit_guard (CreateICmp ICMP_EQ tag (constant_int 8 1)) PANIC_RUNTIME_CONTRACT missing_optional;;
    payload ← CreateExtractValue optional (payload_index result_type);
    Ok (from_physical_scalar payload result_type).

(** ** Instructions *)

(** [values_] and [value_types_]. *)
Variable values : gmap N llvm_value.
Variable types : gmap N type.

(** [value(id)]. *)
Definition lookup_value (id : N) : result llvm_value :=
  match values !! id with Some value => Ok value | None => Throw (out_of_range "map::at") end.

(** [value(instruction.operands[index])]. *)
Definition operand_value (i : instruction) (index : nat) : result llvm_value :=
  id ← element (ins_operands i) index; lookup_value id.

Definition operand_value_type (i : instruction) (index : nat) : result type :=
  id ← element (ins_operands i) index; value_type types id.

Definition result_value_type (i : instruction) : result type :=
  r ← front (ins_results i); Ok (val_value_type r).

Definition lower_overflow (operation : overflow_operation) (i : instruction) : result llvm_value :=
  left ← operand_value i 0;
  right ← operand_value i 1;
  t ← result_value_type i;
  checked_overflow operation (negb (is_unsigned_tag t)) left right (overflow_message operation).

Definition lower_binary (build : llvm_value → llvm_value → llvm_value) (i : instruction) : result llvm_value :=
  left ← operand_value i 0; right ← operand_value i 1; Ok (build left right).

Definition lower_compare (i : instruction) : result llvm_value :=
  operand_type ← operand_value_type i 0;
  left ← operand_value i 0;
  right ← operand_value i 1;
  predicate ← deref (ins_predicate i);
  if tag_eqb (ty_tag operand_type) NERI_IR_TYPE_OPTIONAL_V1 then compare_optional left right operand_type predicate
  else compare_scalar left right operand_type predicate.

(** The rest of the switch: memory, calls and the array and pointer instructions that use them. *)
Variable lower_effect : instruction → result llvm_value.

Definition lower_instruction (i : instruction) : result llvm_value :=
  match ins_opcode i with
  | NERI_IR_OPCODE_CONSTANT_V1 =>
      value ← deref (ins_constant_value i); t ← result_value_type i; semantic_constant value t
  | NERI_IR_OPCODE_INT_NEG_CHECKED_V1 =>
      operand ← operand_value i 0; t ← result_value_type i; negate operand (is_unsigned_tag t)
  | NERI_IR_OPCODE_INT_ADD_CHECKED_V1 => lower_overflow add_with_overflow i
  | NERI_IR_OPCODE_INT_SUB_CHECKED_V1 => lower_overflow sub_with_overflow i
  | NERI_IR_OPCODE_INT_MUL_CHECKED_V1 => lower_overflow mul_with_overflow i
  | NERI_IR_OPCODE_INT_DIV_CHECKED_V1 =>
      left ← operand_value i 0; right ← operand_value i 1; t ← result_value_type i; divide left right (is_unsigned_tag t)
  | NERI_IR_OPCODE_FLOAT_NEG_V1 => operand ← operand_value i 0; Ok (CreateFNeg operand)
  | NERI_IR_OPCODE_FLOAT_ADD_V1 => lower_binary CreateFAdd i
  | NERI_IR_OPCODE_FLOAT_SUB_V1 => lower_binary CreateFSub i
  | NERI_IR_OPCODE_FLOAT_MUL_V1 => lower_binary CreateFMul i
  | NERI_IR_OPCODE_FLOAT_DIV_V1 => lower_binary CreateFDiv i
  | NERI_IR_OPCODE_BOOL_NOT_V1 => operand ← operand_value i 0; Ok (CreateNot operand)
  | NERI_IR_OPCODE_BOOL_AND_V1 => lower_binary CreateAnd i
  | NERI_IR_OPCODE_BOOL_OR_V1 => lower_binary CreateOr i
  | NERI_IR_OPCODE_COMPARE_V1 => lower_compare i
  | NERI_IR_OPCODE_CAST_INT_TO_FLOAT_V1 => operand ← operand_value i 0; Ok (CreateSIToFP operand 64)
  | NERI_IR_OPCODE_NUMERIC_CAST_CHECKED_V1 =>
      source_type ← operand_value_type i 0;
      target_type ← result_value_type i;
      operand ← operand_value i 0;
      numeric_cast operand (ty_tag source_type) (ty_tag target_type)
  | NERI_IR_OPCODE_CAST_FLOAT_TO_INT_CHECKED_V1 => operand ← operand_value i 0; float_to_int operand
  | NERI_IR_OPCODE_CAST_INT_TO_BYTE_CHECKED_V1 => operand ← operand_value i 0; int_to_byte operand
  | NERI_IR_OPCODE_CAST_BYTE_TO_INT_V1 => operand ← operand_value i 0; Ok (CreateZExt operand 64)
  | NERI_IR_OPCODE_CLASS_UPCAST_V1 => operand_value i 0
  | NERI_IR_OPCODE_OPTIONAL_NONE_V1 => t ← result_value_type i; optional_none t
  | NERI_IR_OPCODE_OPTIONAL_SOME_V1 =>
      operand ← operand_value i 0; t ← result_value_type i; optional_some operand t
  | NERI_IR_OPCODE_OPTIONAL_IS_SOME_V1 =>
      operand_type ← operand_value_type i 0; operand ← operand_value i 0; optional_is_some operand operand_type
  | NERI_IR_OPCODE_OPTIONAL_GET_CHECKED_V1 =>
      operand ← operand_value i 0; result_type ← result_value_type i; operand_type ← operand_value_type i 0;
      optional_get operand operand_type result_type
  | NERI_IR_OPCODE_UNSAFE_BEGIN_V1 => Ok (PointerValue 1)
  | NERI_IR_OPCODE_POINTER_COMPARE_V1 =>
      left ← operand_value i 1; right ← operand_value i 2; predicate ← deref (ins_predicate i);
      Ok (compare_pointer left right predicate)
  | NERI_IR_OPCODE_POINTER_CAST_V1 => operand_value i 1
  | NERI_IR_OPCODE_POINTER_OFFSET_V1 =>
      element_type ← front (ins_type_arguments i);
      offset ← operand_value i 2;
      size ← storage_size index element_type;
      pointer ← operand_value i 1;
      Ok (CreateGEP pointer (CreateMul offset (constant_int 64 size)))
  | _ => lower_effect i
  end.

(** ** Terminators *)

(** The values after an edge is taken: its arguments become the parameters of the target. *)
Definition add_edge_arguments (e : edge) (target : block) : result (gmap N llvm_value) :=
  for_state (imap pair (edge_arguments e)) values (λ '(index, argument) phis,
    parameter ← element (blk_parameters target) index;
    value ← lookup_value argument;
    Ok (<[par_id parameter := value]> phis)).

(** What control does next. *)
Inductive transfer :=
| Branch (taken : edge)
| Return (value : option llvm_value).

Definition lower_terminator (f : function) (t : terminator) : result transfer :=
  match trm_tag t with
  | NERI_IR_TERMINATOR_BRANCH_V1 => e ← front (trm_edges t); Ok (Branch e)
  | NERI_IR_TERMINATOR_CONDITIONAL_BRANCH_V1 =>
      true_target ← element (trm_edges t) 0;
      false_target ← element (trm_edges t) 1;
      condition ← deref (trm_condition t);
      value ← lookup_value condition;
      match value with
      | IntValue 1 value => Ok (Branch (if value =? 1 then true_target else false_target))
      | _ => Throw (undefined "branch on a value that is no boolean")
      end
  | NERI_IR_TERMINATOR_RETURN_V1 =>
      if is_void (fn_result_type f) then Ok (Return None)
      else
        indirect ← is_indirect_optional (fn_result_type f);
        returned ← deref (trm_return_value t);
        value ← lookup_value returned;
        Ok (Return (Some (if indirect : bool then value else to_physical_scalar value (fn_result_type f))))
  | NERI_IR_TERMINATOR_PANIC_V1 =>
      Throw (panic PANIC_RUNTIME_CONTRACT (trm_panic_code t +:+ ": " +:+ trm_panic_message t))
  end.
End lowering.
