(* ===== verification/LoweredSafety.v ===== *)
(** * What the operations of compiled code compute

    Powers of two and floating-point numbers, the values that represent the types, and the
    results of checked arithmetic and of conversions. *)

From Stdlib Require Import SpecFloat.
From S2P Require Import Prelude Domains IR Samples Reader Types Layout Index Instructions.
From S2P Require Import InstructionSafety InstructionTyping Functions Dominance Cfg Ssa Execution.
From S2P Require Import Roots RootSpec Modules ModuleSafety Regions ClassLayout ClassSafety ClassSpec.
From S2P Require Import Heap Llvm Lowered.

Local Open Scope string_scope.
Local Open Scope list_scope.
Local Open Scope N_scope.

(** ** Floating-point numbers and integers *)

Lemma digits_bounds m : (2 ^ (Z.pos (digits2_pos m) - 1) ≤ Z.pos m < 2 ^ Z.pos (digits2_pos m))%Z.
Proof.
  induction m as [m IH|m IH|]; cbn [digits2_pos]; [| |done]; rewrite Pos2Z.inj_succ;
    replace (Z.succ (Z.pos (digits2_pos m)) - 1)%Z with (Z.succ (Z.pos (digits2_pos m) - 1)) by lia;
    rewrite !Z.pow_succ_r by lia; lia.
Qed.

(** The number rounded down. *)
Definition floor (f : spec_float) : option Z :=
  match f with
  | S754_zero _ => Some 0%Z
  | S754_finite s m e =>
      let z := if s then Z.neg m else Z.pos m in
      Some (if (0 <=? e)%Z then (z * 2 ^ e)%Z else (z / 2 ^ (- e))%Z)
  | _ => None
  end.

(** [m * 2^e < 2^k] for a mantissa of a format, where [2^k] has the exponent [c]. *)
Definition below (m : positive) (e : Z) (k : N) : bool :=
  if (0 <=? e)%Z then (Z.pos m * 2 ^ e <? 2 ^ Z.of_N k)%Z else (Z.pos m / 2 ^ (- e) <? 2 ^ Z.of_N k)%Z.

Definition above (m : positive) (e : Z) (k : N) : bool :=
  if (0 <=? e)%Z then (2 ^ Z.of_N k <? Z.pos m * 2 ^ e)%Z else (Z.neg m / 2 ^ (- e) <? - 2 ^ Z.of_N k)%Z.

Definition compare_power (prec : Z) (m : positive) (e : Z) (k : N) : comparison :=
  match Z.compare e (Z.of_N k - (prec - 1)) with
  | Eq => Pos.compare_cont Eq m (Z.to_pos (2 ^ (prec - 1)))
  | c => c
  end.

Lemma compare_power_ok prec emax m e k :
  (1 < prec)%Z → (prec < emax)%Z → bounded prec emax m e = true →
  match compare_power prec m e k with
  | Lt => below m e k = true ∧ above m e k = false
  | Eq => below m e k = false ∧ above m e k = false
  | Gt => below m e k = false ∧ above m e k = true
  end.
Proof.
  intros Hp Hx [Hc%Z.eqb_eq _]%andb_true_iff. unfold fexp, SpecFloat.emin in Hc. pose proof (digits_bounds m) as Hd.
  unfold compare_power, below, above. set (c := (Z.of_N k - (prec - 1))%Z) in *.
  assert (∀ d, (e ≤ 0)%Z → (Z.pos m < 2 ^ d)%Z → (0 ≤ d)%Z → (d + e ≤ Z.of_N k)%Z → (Z.pos m < 2 ^ Z.of_N k * 2 ^ (- e))%Z) as Hsmall.
  { intros d He Hm Hd0 Hk. rewrite <-Z.pow_add_r by lia. eapply Z.lt_le_trans; [exact Hm|]. apply Z.pow_le_mono_r; lia. }
  destruct (Z.compare_spec e c) as [Hec|Hec|Hec].
  - change (Pos.compare_cont Eq) with Pos.compare. rewrite Pos2Z.inj_compare, Z2Pos.id by lia.
    destruct (Z.leb_spec 0 e) as [He|He].
    + assert (2 ^ Z.of_N k = 2 ^ (prec - 1) * 2 ^ e)%Z as -> by (rewrite <-Z.pow_add_r by lia; f_equal; lia).
      assert (0 < 2 ^ e)%Z by lia. destruct (Z.compare_spec (Z.pos m) (2 ^ (prec - 1))); rewrite ?Z.ltb_lt, ?Z.ltb_ge; nia.
    + assert (2 ^ (prec - 1) = 2 ^ Z.of_N k * 2 ^ (- e))%Z as -> by (rewrite <-Z.pow_add_r by lia; f_equal; lia).
      assert (0 < 2 ^ (- e))%Z as Hpos by lia.
      destruct (Z.compare_spec (Z.pos m) (2 ^ Z.of_N k * 2 ^ (- e))) as [Hm|Hm|Hm].
      * change (Z.neg m) with (- Z.pos m)%Z. rewrite Hm, Z.div_mul, <-Z.mul_opp_l, Z.div_mul, !Z.ltb_ge by lia. lia.
      * rewrite Z.ltb_lt, Z.ltb_ge. split; [apply Z.div_lt_upper_bound; lia|apply Z.div_le_lower_bound; lia].
      * rewrite Z.ltb_lt, Z.ltb_ge. split; [apply Z.div_le_lower_bound; lia|]. apply Z.div_lt_upper_bound; lia.
  - assert (Z.pos m < 2 ^ prec)%Z as Hm.
    { eapply Z.lt_le_trans; [apply Hd|]. apply Z.pow_le_mono_r; lia. }
    destruct (Z.leb_spec 0 e) as [He|He].
    + assert (Z.pos m * 2 ^ e < 2 ^ Z.of_N k)%Z.
      { eapply (Z.lt_le_trans _ (2 ^ prec * 2 ^ e)); [apply Z.mul_lt_mono_pos_r; lia|]. rewrite <-Z.pow_add_r by lia.
        apply Z.pow_le_mono_r; lia. }
      rewrite Z.ltb_lt, Z.ltb_ge. lia.
    + specialize (Hsmall prec ltac:(lia) Hm ltac:(lia) ltac:(lia)). assert (0 < 2 ^ (- e))%Z as Hpos by lia.
      rewrite Z.ltb_lt, Z.ltb_ge. split; [apply Z.div_lt_upper_bound; lia|apply Z.div_le_lower_bound; lia].
  - assert (2 ^ (prec - 1) ≤ Z.pos m)%Z as Hm.
    { eapply Z.le_trans; [|apply Hd]. apply Z.pow_le_mono_r; lia. }
    destruct (Z.leb_spec 0 e) as [He|He].
    + assert (2 ^ Z.of_N k < Z.pos m * 2 ^ e)%Z.
      { eapply (Z.lt_le_trans _ (2 ^ (prec - 1) * 2 ^ e)); [|apply Z.mul_le_mono_nonneg_r; lia]. rewrite <-Z.pow_add_r by lia.
        apply Z.pow_lt_mono_r; lia. }
      rewrite Z.ltb_lt, Z.ltb_ge. lia.
    + assert (2 ^ Z.of_N k * 2 ^ (- e) < Z.pos m)%Z as Hbig.
      { eapply Z.lt_le_trans; [|exact Hm]. rewrite <-Z.pow_add_r by lia. apply Z.pow_lt_mono_r; lia. }
      assert (0 < 2 ^ (- e))%Z as Hpos by lia. rewrite Z.ltb_lt, Z.ltb_ge.
      split; [apply Z.div_le_lower_bound; lia|]. apply Z.div_lt_upper_bound; lia.
Qed.

Lemma floor_below s m e k :
  floor (S754_finite s m e) = Some (if (0 <=? e)%Z then ((if s then Z.neg m else Z.pos m) * 2 ^ e)%Z
                                    else ((if s then Z.neg m else Z.pos m) / 2 ^ (- e))%Z) ∧
  (s = false → from_option (λ z, (z <? 2 ^ Z.of_N k)%Z) false (floor (S754_finite s m e)) = below m e k) ∧
  (s = true → from_option (λ z, (- 2 ^ Z.of_N k <=? z)%Z) false (floor (S754_finite s m e)) = negb (above m e k)).
Proof.
  split; [done|]. unfold below, above. split; intros ->; cbn [floor from_option]; [by destruct (0 <=? e)%Z|].
  change (Z.neg m) with (- Z.pos m)%Z. destruct (Z.leb_spec 0 e).
  - destruct (Z.ltb_spec (2 ^ Z.of_N k) (Z.pos m * 2 ^ e)); cbn [negb]; [apply Z.leb_gt|apply Z.leb_le]; lia.
  - destruct (Z.ltb_spec (- Z.pos m / 2 ^ (- e)) (- 2 ^ Z.of_N k)); cbn [negb]; [apply Z.leb_gt|apply Z.leb_le]; lia.
Qed.

Lemma precision_bounds bits : (1 < precision bits)%Z ∧ (precision bits < maximum_exponent bits)%Z.
Proof. unfold precision, maximum_exponent. destruct (bits =? 32); lia. Qed.

Lemma floor_sign s m e : from_option (λ z, (0 <=? z)%Z) false (floor (S754_finite s m e)) = negb s.
Proof.
  cbn [floor from_option]. destruct s; cbn [negb]; destruct (Z.leb_spec 0 e).
  - apply Z.leb_gt. change (Z.neg m) with (- Z.pos m)%Z. nia.
  - apply Z.leb_gt. apply Z.div_lt_upper_bound; lia.
  - apply Z.leb_le. nia.
  - apply Z.leb_le. apply Z.div_pos; lia.
Qed.

(** Comparisons with powers of two compare the number rounded down. *)
Lemma power_less bits f k :
  valid_float bits f = true → floor f ≠ None →
  fcmp_holds FCMP_OLT f (S754_finite false (Z.to_pos (2 ^ (precision bits - 1))) (Z.of_N k - (precision bits - 1))) =
    from_option (λ z, (z <? 2 ^ Z.of_N k)%Z) false (floor f).
Proof.
  intros Hv Hf. destruct (precision_bounds bits) as [Hp Hx]. destruct f as [s|s| |s m e]; try done.
  - cbn [floor from_option]. symmetry. apply Z.ltb_lt. lia.
  - unfold fcmp_holds. cbn [SFcompare]. destruct s.
    + pose proof (floor_sign true m e) as Hs. cbn [floor from_option negb] in Hs |- *. apply Z.leb_gt in Hs. symmetry. apply Z.ltb_lt. lia.
    + destruct (floor_below false m e k) as (_ & -> & _); [|done].
      pose proof (compare_power_ok _ _ m e k Hp Hx Hv) as Hc. unfold compare_power in Hc.
      destruct (Z.compare _ _); [destruct (Pos.compare_cont _ _ _)|..]; by destruct Hc as [-> _].
Qed.

Lemma power_greater bits f k :
  valid_float bits f = true → floor f ≠ None →
  fcmp_holds FCMP_OGE f (S754_finite true (Z.to_pos (2 ^ (precision bits - 1))) (Z.of_N k - (precision bits - 1))) =
    from_option (λ z, (- 2 ^ Z.of_N k <=? z)%Z) false (floor f).
Proof.
  intros Hv Hf. destruct (precision_bounds bits) as [Hp Hx]. destruct f as [s|s| |s m e]; try done.
  - cbn [floor from_option]. symmetry. apply Z.leb_le. lia.
  - unfold fcmp_holds. cbn [SFcompare]. destruct s.
    + destruct (floor_below true m e k) as (_ & _ & ->); [|done].
      pose proof (compare_power_ok _ _ m e k Hp Hx Hv) as Hc. unfold compare_power in Hc.
      destruct (Z.compare _ _); [destruct (Pos.compare_cont _ _ _)|..]; by destruct Hc as [_ ->].
    + pose proof (floor_sign false m e) as Hs. cbn [floor from_option negb] in Hs |- *. apply Z.leb_le in Hs. symmetry. apply Z.leb_le. lia.
Qed.

Lemma zero_greater f : floor f ≠ None →
  fcmp_holds FCMP_OGE f (S754_zero false) = from_option (λ z, (0 <=? z)%Z) false (floor f).
Proof.
  intros Hf. destruct f as [s|s| |s m e]; try done. rewrite floor_sign. unfold fcmp_holds. cbn [SFcompare]. by destruct s.
Qed.

(** Rounded towards zero, a number stays in the range it is in rounded down. *)
Lemma truncate_floor signed bits f z :
  0 < bits → floor f = Some z → in_range signed bits z = true →
  ∃ z', truncate f = Some z' ∧ in_range signed bits z' = true.
Proof.
  intros Hb Hf Hz%in_range_spec. destruct f as [s|s| |s m e]; try done; [injection Hf as <-; exists 0%Z; by rewrite in_range_spec|].
  cbn [floor truncate] in *. injection Hf as Hf. destruct (Z.leb_spec 0 e); [eexists; split; [done|]; rewrite Hf; by apply in_range_spec|].
  eexists. split; [done|]. apply in_range_spec. assert (0 < 2 ^ (- e))%Z as Hpos by lia. destruct s.
  - assert (0 < limit signed bits)%Z as Hl by (unfold limit; destruct signed; lia).
    change (Z.neg m) with (- Z.pos m)%Z in *. rewrite Z.quot_opp_l by lia. rewrite Z.quot_div_nonneg by lia.
    assert (z ≤ - (Z.pos m / 2 ^ (- e)))%Z as Hle.
    { rewrite <-Hf. assert (Z.pos m / 2 ^ (- e) * 2 ^ (- e) ≤ Z.pos m)%Z by (rewrite Z.mul_comm; apply Z.mul_div_le; lia).
      assert (- Z.pos m / 2 ^ (- e) * 2 ^ (- e) ≤ - Z.pos m)%Z by (rewrite Z.mul_comm; apply Z.mul_div_le; lia). nia. }
    pose proof (Z.div_pos (Z.pos m) (2 ^ (- e))). lia.
  - rewrite Z.quot_div_nonneg by lia. by rewrite Hf.
Qed.

(** ** Values of types *)

Definition is_address (v : llvm_value) : Prop := ∃ a, v = PointerValue a.

(** Values of types that are no optionals. *)
Definition plain_value (t : type) (v : llvm_value) : Prop :=
  let scalar := scalar_properties (ty_tag t) in
  if semantic_bits scalar =? 0 then
    match ty_tag t with
    | NERI_IR_TYPE_NATIVE_RECORD_V1 | NERI_IR_TYPE_FIXED_ARRAY_V1 => ∃ vs, v = AggregateValue vs
    | _ => is_address v
    end
  else if floating scalar then is_float (semantic_bits scalar) v else is_int (semantic_bits scalar) v.

(** As they are stored: a boolean is a byte. *)
Definition physical_value (t : type) (v : llvm_value) : Prop :=
  if tag_eqb (ty_tag t) NERI_IR_TYPE_BOOL_V1 then ∃ b, v = IntValue 8 (N.b2n b) else plain_value t v.

(** An optional with a tag and a payload. *)
Definition tagged (argument : type) (tag : N) (payload v : llvm_value) : Prop :=
  if payload_index argument =? 1 then v = AggregateValue [IntValue 8 tag; payload]
  else ∃ padding, v = AggregateValue [IntValue 8 tag; padding; payload].

Definition represents (t : type) (v : llvm_value) : Prop :=
  if tag_eqb (ty_tag t) NERI_IR_TYPE_OPTIONAL_V1 then
    match uses_null_representation t, ty_arguments t with
    | Ok true, _ => is_address v
    | Ok false, argument :: _ => ∃ b payload, physical_value argument payload ∧ tagged argument (N.b2n b) payload v
    | _, _ => False
    end
  else plain_value t v.

Lemma bool_value v : is_int 1 v ↔ ∃ b, v = truth b.
Proof.
  split.
  - intros (n & -> & Hn). assert (n = 0 ∨ n = 1) as [->| ->] by (change (2 ^ 1) with 2 in Hn; lia); [by exists false|by exists true].
  - intros [[] ->]; eexists; (split; [done|]); vm_compute; reflexivity.
Qed.

Lemma tagged_lookup argument tag payload v :
  tagged argument tag payload v →
  ∃ elements, v = AggregateValue elements ∧ elements !! 0%nat = Some (IntValue 8 tag) ∧
    elements !! N.to_nat (payload_index argument) = Some payload.
Proof.
  unfold tagged, payload_index. destruct (_ || _); cbn.
  - intros ->. by eexists.
  - intros [padding ->]. by eexists.
Qed.

(** The optionals the verifier accepts. *)
Lemma optional_types t :
  is_supported_value t = true → ty_tag t = NERI_IR_TYPE_OPTIONAL_V1 →
  ∃ a, ty_arguments t = [a] ∧ ty_symbol t = None ∧ is_supported_value a = true ∧ ty_tag a ≠ NERI_IR_TYPE_OPTIONAL_V1 ∧
    ty_tag a ≠ NERI_IR_TYPE_VOID_V1 ∧
    ty_tag a ≠ NERI_IR_TYPE_NATIVE_RECORD_V1 ∧ ty_tag a ≠ NERI_IR_TYPE_FIXED_ARRAY_V1 ∧
    ∃ b, uses_null_representation t = Ok b ∧
      (b = true → plain_value a = is_address) ∧
      (b = false → managed_reference a = Ok false ∧ ∀ m, ∃ pt, semantic_type m t = Ok (optional_payload a pt) ∧
         physical_value a (zero_value pt)).
Proof.
  destruct t as [tag symbol arguments count]. cbn [ty_tag ty_arguments ty_symbol]. intros Hs ->.
  destruct symbol; [by destruct arguments|]. destruct arguments as [|a [|]]; [done| |done].
  assert (is_supported_value a = true ∧ is_void a = false ∧ ty_tag a ≠ NERI_IR_TYPE_OPTIONAL_V1 ∧
    ty_tag a ≠ NERI_IR_TYPE_NATIVE_RECORD_V1 ∧ ty_tag a ≠ NERI_IR_TYPE_FIXED_ARRAY_V1) as (Ha & Hv & H1 & H2 & H3).
  { cbn in Hs. rewrite !andb_true_iff, !negb_true_iff in Hs. destruct Hs as ((((? & ?) & ?) & ?) & ?).
    split_and!; [done|done|..]; intros E; by rewrite E in *. }
  assert (ty_tag a ≠ NERI_IR_TYPE_VOID_V1) as H4.
  { intros E. destruct a as [tag s l c]. cbn in E. subst tag. by destruct s, l. }
  exists a. split_and!; [done..|].
  destruct a as [tag s l c]. cbn [ty_tag] in *. unfold uses_null_representation. cbn [managed_reference].
  destruct tag; try done; cbn [managed_reference];
    first [solve [exists true; split; [reflexivity|]; split; [reflexivity|discriminate]]
          |exists false; split; [reflexivity|]; split; [discriminate|]; intros _; split; [done|]; intros m; eexists;
           split; [reflexivity|]; cbn].
  all: first [by exists false | by eexists | by (eexists; split; [reflexivity|]; vm_compute)].
Qed.

(** ** Operations *)

Class LawfulFloatBits `{FloatBits} : Prop := { double_valid n : valid_float 64 (double_of_bits n) = true }.

(** The decoding of the standard: sign, exponent and fraction. *)
Definition decode_double (n : N) : spec_float :=
  let sign := N.testbit n 63 in
  let exponent := N.shiftr n 52 mod 2048 in
  let fraction := n mod 2 ^ 52 in
  if exponent =? 2047 then if fraction =? 0 then S754_infinity sign else S754_nan
  else if exponent =? 0 then match fraction with 0 => S754_zero sign | N.pos m => S754_finite sign m (-1074) end
  else S754_finite sign (N.succ_pos (2 ^ 52 + fraction - 1)) (Z.of_N exponent - 1075).

Definition ieee_double : FloatBits := {| double_of_bits := decode_double |}.

(** A mantissa of at most 53 digits with the least exponent, or of 53 digits with any. *)
Lemma bounded_mantissa m e :
  (Z.pos m < 2 ^ 53)%Z → (e = -1074 ∨ 2 ^ 52 ≤ Z.pos m)%Z → (-1074 ≤ e ≤ 971)%Z → bounded 53 1024 m e = true.
Proof.
  intros Hm Hd He. unfold bounded, canonical_mantissa, fexp, SpecFloat.emin. pose proof (digits_bounds m) as [Hlow Hhigh].
  assert (Z.pos (digits2_pos m) ≤ 53)%Z as Hle.
  { apply Z.lt_succ_r. assert (2 ^ (Z.pos (digits2_pos m) - 1) < 2 ^ 53)%Z as Hp%Z.pow_lt_mono_r_iff by lia; lia. }
  assert (e = -1074 ∨ Z.pos (digits2_pos m) = 53)%Z as Hcase.
  { destruct Hd as [?|Hd]; [by left|right]. assert (2 ^ 52 < 2 ^ Z.pos (digits2_pos m))%Z as Hp%Z.pow_lt_mono_r_iff by lia; lia. }
  apply andb_true_iff. split; [apply Z.eqb_eq|apply Z.leb_le]; lia.
Qed.

Lemma ieee_double_lawful : @LawfulFloatBits ieee_double.
Proof.
  split. intros n. cbn [double_of_bits ieee_double]. unfold decode_double.
  pose proof (N.mod_lt n (2 ^ 52) ltac:(done)) as Hf. pose proof (N.mod_lt (N.shiftr n 52) 2048 ltac:(done)) as He.
  revert Hf He. generalize (n mod 2 ^ 52), (N.shiftr n 52 mod 2048). intros fraction exponent Hf He.
  destruct (N.eqb_spec exponent 2047); [by destruct (fraction =? 0)|].
  destruct (N.eqb_spec exponent 0).
  - destruct fraction as [|m]; [done|]. apply bounded_mantissa; lia.
  - cbn [valid_float valid_binary]. apply bounded_mantissa; [|right|]; try lia; change (Z.pos (N.succ_pos ?x)) with (Z.of_N (N.pos (N.succ_pos x)));
      rewrite N.succ_pos_spec; lia.
Qed.

Section operations.
Context `{LawfulIRBuilder} `{DataLayout} `{LawfulFloatBits}.

Lemma guard_truth b code message : emit_guard (truth b) code message = if b then Ok tt else Throw (panic code message).
Proof. by destruct b. Qed.

Lemma constant_int_small bits n : n < 2 ^ bits → constant_int bits n = IntValue bits n.
Proof. intros Hn. unfold constant_int. by rewrite N.mod_small. Qed.

(** Checked operations: the exact result, or a panic. *)
Lemma checked_overflow_ok operation signed bits a b message :
  let r := overflow_result operation (denote signed bits a) (denote signed bits b) in
  checked_overflow operation signed (IntValue bits a) (IntValue bits b) message =
    if in_range signed bits r then Ok (IntValue bits (wrap bits r)) else Throw (panic PANIC_ARITHMETIC message).
Proof.
  intros r. unfold checked_overflow. rewrite overflow_int. fold r.
  rewrite (extract_value _ 0 (IntValue bits (wrap bits r))), bind_Ok by done.
  rewrite (extract_value _ 1 (truth (negb (in_range signed bits r)))), bind_Ok by done.
  rewrite not_truth, negb_involutive, guard_truth. by destruct (in_range signed bits r).
Qed.

(** Quotients leave the range in one case only. *)
Lemma quotient_range bits x y :
  0 < bits → in_range true bits x = true → in_range true bits y = true → y ≠ 0%Z →
  in_range true bits (x ÷ y) = negb ((x =? minimum true bits)%Z && (y =? -1)%Z).
Proof.
  intros Hb Hx%in_range_spec Hy%in_range_spec Hne. unfold in_range. unfold minimum, limit in *.
  set (h := (2 ^ (Z.of_N bits - 1))%Z) in *. assert (0 < h)%Z as Hh by (unfold h; lia).
  destruct (Z.eqb_spec y (-1)) as [->|Hm].
  - change (-1)%Z with (Z.opp 1). rewrite Z.quot_opp_r, Z.quot_1_r by lia. rewrite andb_true_r.
    destruct (Z.eqb_spec x (- h)) as [->|Hxm]; cbn [negb]; rewrite ?andb_false_iff, ?andb_true_iff, ?Z.leb_le, ?Z.ltb_lt, ?Z.ltb_ge; [right|]; lia.
  - rewrite andb_false_r. cbn [negb]. rewrite andb_true_iff, Z.leb_le, Z.ltb_lt.
    destruct (decide (y = 1)%Z) as [->|Hy1]; [rewrite Z.quot_1_r; lia|].
    assert (Z.abs (x ÷ y) * 2 ≤ Z.abs x)%Z as Hq.
    { rewrite <-Z.quot_abs by done. assert (2 ≤ Z.abs y)%Z by lia.
      pose proof (Z.mul_quot_le (Z.abs x) (Z.abs y)) as Hle. pose proof (Z.quot_pos (Z.abs x) (Z.abs y)). nia. }
    lia.
Qed.

Lemma divide_ok (signed : bool) bits a b :
  1 < bits → a < 2 ^ bits → b < 2 ^ bits →
  let x := denote signed bits a in
  let y := denote signed bits b in
  divide (IntValue bits a) (IntValue bits b) (negb signed) =
    if negb (y =? 0)%Z && in_range signed bits (x ÷ y) then Ok (IntValue bits (wrap bits (x ÷ y)))
    else Throw (panic PANIC_ARITHMETIC "Invalid integer division.").
Proof.
  intros Hb Ha Hb' x y. unfold divide. cbn [integer_bits]. rewrite constant_int_small by lia. unfold constant_signed.
  rewrite !icmp_int, and_truth, not_truth, and_truth. cbn [icmp_holds].
  assert (b = 0 ↔ y = 0%Z) as Hzero.
  { split; [intros ->; unfold y; by rewrite denote_small by lia|]. intros Hy. apply (denote_inj signed bits); [lia|lia|lia|].
    fold y. rewrite Hy. by rewrite denote_small by lia. }
  assert ((b =? 0) = (y =? 0)%Z) as -> by (apply eq_bool_prop_intro; rewrite !Is_true_true, N.eqb_eq, Z.eqb_eq; done).
  destruct signed; cbn [negb].
  - pose proof (denote_range true bits a ltac:(lia) Ha) as Hx. pose proof (denote_range true bits b ltac:(lia) Hb') as Hy.
    fold x in Hx. fold y in Hy.
    assert (∀ z n, n < 2 ^ bits → in_range true bits z = true → (n =? wrap bits z) = (denote true bits n =? z)%Z) as Heq.
    { intros z n Hn Hz. apply eq_bool_prop_intro. rewrite !Is_true_true, N.eqb_eq, Z.eqb_eq. split.
      - intros ->. by apply denote_wrap; [lia|].
      - intros <-. by rewrite wrap_denote by lia. }
    assert (0 < 2 ^ (Z.of_N bits - 1))%Z as Hp by lia.
    rewrite !Heq; [|done|apply in_range_spec; unfold minimum, limit; lia|done|apply in_range_spec; unfold minimum, limit; lia].
    fold x y. rewrite guard_truth. destruct (Z.eqb_spec y 0) as [Hy0|Hy0]; [done|]. cbn [negb andb].
    rewrite quotient_range by (done || lia). destruct (negb _) eqn:Hcase; [|done]. rewrite bind_Ok. apply sdiv_int; [done|].
    fold x y. rewrite quotient_range by (done || lia). done.
  - rewrite guard_truth. destruct (Z.eqb_spec y 0) as [Hy0|Hy0]; [done|]. cbn [negb andb]. rewrite bind_Ok.
    assert (b ≠ 0) as Hb0 by (by rewrite Hzero). rewrite udiv_int by done.
    assert (x ÷ y = Z.of_N (a / b))%Z as ->.
    { unfold x, y, denote. cbn [andb]. rewrite Z.quot_div_nonneg, N2Z.inj_div by lia. done. }
    assert (a / b < 2 ^ bits) as Hq by (assert (a ≤ b * a) as Hm by nia; apply N.Div0.div_le_upper_bound in Hm; lia).
    revert Hq. generalize (a / b). intros q Hq. apply N2Z.inj_lt in Hq. rewrite N2Z.inj_pow in Hq. change (Z.of_N 2) with 2%Z in Hq.
    rewrite (proj2 (in_range_spec _ _ _)).
    + unfold wrap. rewrite Z.mod_small, N2Z.id; [done|]. lia.
    + unfold minimum, limit. lia.
Qed.

(** ** Conversions to integers *)

(** The number a value denotes, rounded down and rounded towards zero. *)
Definition rounded_down (tag : neri_ir_type_tag_v1) (v : llvm_value) : option Z :=
  match v with
  | IntValue bits n => Some (denote (negb (unsigned_scalar tag)) bits n)
  | FloatValue _ f => floor f
  | _ => None
  end.

Definition integer_part (tag : neri_ir_type_tag_v1) (v : llvm_value) : option Z :=
  match v with
  | IntValue bits n => Some (denote (negb (unsigned_scalar tag)) bits n)
  | FloatValue _ f => truncate f
  | _ => None
  end.

Lemma in_range_wide signed bits z : bits ≤ 64 → in_range signed bits z = true → (- 2 ^ 64 ≤ z < 2 ^ 64)%Z.
Proof.
  intros Hb Hz%in_range_spec. unfold minimum, limit in Hz.
  assert (2 ^ (Z.of_N bits - 1) ≤ 2 ^ 64)%Z by (apply Z.pow_le_mono_r; lia).
  assert (2 ^ Z.of_N bits ≤ 2 ^ 64)%Z by (apply Z.pow_le_mono_r; lia). destruct signed; lia.
Qed.

(** The check in 128 bits. *)
Lemma wide_check signed bits z :
  bits ≤ 64 → (- 2 ^ 64 ≤ z < 2 ^ 64)%Z →
  icmp_holds ICMP_SGE 128 (wrap 128 z) (wrap 128 (minimum signed bits)) &&
  icmp_holds ICMP_SLE 128 (wrap 128 z) (wrap 128 (limit signed bits - 1)) = in_range signed bits z.
Proof.
  intros Hb Hz. unfold icmp_holds.
  assert (2 ^ (Z.of_N bits - 1) ≤ 2 ^ 64)%Z by (apply Z.pow_le_mono_r; lia).
  assert (2 ^ Z.of_N bits ≤ 2 ^ 64)%Z by (apply Z.pow_le_mono_r; lia).
  assert (0 < 2 ^ Z.of_N bits)%Z by lia. assert (0 ≤ 2 ^ (Z.of_N bits - 1))%Z by lia.
  assert (∀ x, (- 2 ^ 64 ≤ x < 2 ^ 64)%Z → denote true 128 (wrap 128 x) = x) as Hwide.
  { intros x Hx. apply denote_wrap; [lia|]. apply in_range_spec.
    change (minimum true 128) with (- 2 ^ 127)%Z. change (limit true 128) with (2 ^ 127)%Z. lia. }
  rewrite !Hwide by (try done; unfold minimum, limit; destruct signed; lia).
  unfold in_range. f_equal. apply eq_bool_prop_intro. rewrite !Is_true_true, Z.leb_le, Z.ltb_lt. lia.
Qed.

Lemma float_check bits f (unsigned : bool) width :
  1 < width → valid_float bits f = true →
  CreateAnd (CreateFCmp FCMP_OGE (FloatValue bits f) (float_minimum bits width unsigned))
            (CreateFCmp FCMP_OLT (FloatValue bits f) (float_limit bits width unsigned)) =
    truth (from_option (in_range (negb unsigned) width) false (floor f)).
Proof.
  intros Hw Hv. unfold float_minimum, float_limit, float_zero, power_constant.
  assert (Z.of_N (width - 1) = Z.of_N width - 1)%Z as Hz by lia.
  destruct (floor f) as [z|] eqn:Hf.
  - assert (floor f ≠ None) as Hne by congruence. destruct unsigned; cbn [negb]; rewrite !fcmp_float, and_truth.
    + rewrite zero_greater, power_less, Hf by done. done.
    + rewrite power_greater, power_less, Hf by done. cbn [from_option]. rewrite Hz. done.
  - destruct unsigned; rewrite !fcmp_float, and_truth; destruct f as [s|[]| |s m e]; done.
Qed.

Lemma cast_to_integer v source target :
  numeric_tag source = true → integer_scalar target = true → plain_value (plain_type source []) v →
  numeric_cast v source target =
    match rounded_down source v, integer_part source v with
    | Some down, Some z =>
        if in_range (negb (unsigned_scalar target)) (scalar_width target) down
        then Ok (IntValue (scalar_width target) (wrap (scalar_width target) z))
        else Throw (panic PANIC_ARITHMETIC "Numeric conversion is outside the target range.")
    | _, _ => Throw (panic PANIC_ARITHMETIC "Numeric conversion is outside the target range.")
    end.
Proof.
  intros Hs Ht Hv. assert (floating_scalar target = false ∧ 1 < scalar_width target ≤ 64) as (Htf & Hw).
  { destruct target; try discriminate Ht; split_and!; vm_compute; congruence. }
  unfold numeric_cast. rewrite Htf. cbn [negb]. rewrite andb_true_r.
  destruct (floating_scalar source) eqn:Hsf; cbn [negb andb].
  - assert (∃ bits f, v = FloatValue bits f ∧ valid_float bits f = true) as (bits & f & -> & Hvalid).
    { destruct source; try discriminate Hsf; cbn in Hv; destruct Hv as (f & -> & ?); by eexists _, f. }
    cbn [float_bits rounded_down integer_part]. rewrite float_check by (done || lia). rewrite guard_truth.
    destruct (floor f) as [down|] eqn:Hf; cbn [from_option]; [|done].
    destruct (in_range _ _ down) eqn:Hr.
    + assert (0 < scalar_width target) as Hw0 by lia. destruct (truncate_floor _ _ f down Hw0 Hf Hr) as (z & Hz & Hrz). rewrite Hz, bind_Ok.
      destruct (unsigned_scalar target); [by apply fp_to_ui|by apply fp_to_si].
    + by destruct (truncate f).
  - assert (∃ bits n, v = IntValue bits n ∧ n < 2 ^ bits ∧ 0 < bits ≤ 64) as (bits & n & -> & Hn & Hb).
    { destruct source; try discriminate Hs; try discriminate Hsf; cbn in Hv; destruct Hv as (n & -> & ?); (eexists _, n; split_and!; [done|done|lia..]). }
    cbn [rounded_down integer_part]. unfold constant_signed. rewrite !int_cast, !icmp_int, and_truth.
    pose proof (denote_range (negb (unsigned_scalar source)) bits n ltac:(lia) Hn) as Hd.
    rewrite wide_check; [|lia|exact (in_range_wide _ _ _ (proj2 Hb) Hd)]. rewrite guard_truth.
    by case_match.
Qed.

(** ** Results of the types *)

(** A result of a kind, or a panic where the operation may panic. *)
Definition yields (panics : bool) (P : llvm_value → Prop) (m : result llvm_value) : Prop :=
  match m with Ok x => P x | Throw e => panics = true ∧ ∃ code message, e = panic code message end.

Lemma yields_guard (b : bool) code message m P : yields true P m → yields true P (emit_guard (truth b) code message;; m).
Proof. intros Hm. rewrite guard_truth. destruct b; [done|]. split; [done|]. by eexists _, _. Qed.

Lemma truth_int b : is_int 1 (truth b).
Proof. apply bool_value. by exists b. Qed.

Lemma in_range_yields signed bits z m message :
  m = (if in_range signed bits z then Ok (IntValue bits (wrap bits z)) else Throw (panic PANIC_ARITHMETIC message)) →
  yields true (is_int bits) m.
Proof.
  intros ->. destruct (in_range signed bits z); [|split; [done|]; by eexists _, _]. eexists. split; [done|]. apply wrap_bound.
Qed.

Lemma integer_value tag v :
  integer_scalar tag = true → plain_value (plain_type tag []) v →
  ∃ n, v = IntValue (scalar_width tag) n ∧ n < 2 ^ scalar_width tag ∧ 1 < scalar_width tag ≤ 64.
Proof.
  intros Ht Hv. destruct tag; try discriminate Ht; destruct Hv as (n & -> & Hn); exists n; (split_and!; [done|done|vm_compute; congruence..]).
Qed.

Lemma float_value tag v :
  floating_scalar tag = true → plain_value (plain_type tag []) v →
  ∃ f, v = FloatValue (scalar_width tag) f ∧ valid_float (scalar_width tag) f = true ∧ scalar_width tag ∈ [32; 64].
Proof.
  intros Ht Hv. destruct tag; try discriminate Ht; destruct Hv as (f & -> & Hf); exists f; (split_and!; [done|done|set_solver]).
Qed.

Lemma plain_integer tag v : integer_scalar tag = true → is_int (scalar_width tag) v → plain_value (plain_type tag []) v.
Proof. destruct tag; try discriminate; done. Qed.

Lemma plain_float tag v : floating_scalar tag = true → is_float (scalar_width tag) v → plain_value (plain_type tag []) v.
Proof. destruct tag; try discriminate; done. Qed.

(** *** Comparisons *)

Lemma float_equal_truth bits a b : ∃ r, float_equal (FloatValue bits a) (FloatValue bits b) = truth r.
Proof. unfold float_equal. rewrite !fcmp_float, and_truth, or_truth. by eexists. Qed.

Definition equality (predicate : neri_ir_comparison_v1) : bool :=
  tag_eqb predicate NERI_IR_COMPARISON_EQUAL_V1 || tag_eqb predicate NERI_IR_COMPARISON_NOT_EQUAL_V1.

(** Values that are no optionals and no aggregates. *)
Definition comparable (t : type) : Prop :=
  ty_tag t ≠ NERI_IR_TYPE_OPTIONAL_V1 ∧ ty_tag t ≠ NERI_IR_TYPE_NATIVE_RECORD_V1 ∧ ty_tag t ≠ NERI_IR_TYPE_FIXED_ARRAY_V1.

Lemma comparable_value t v :
  comparable t → plain_value t v →
  if floating_scalar (ty_tag t) then ∃ f, v = FloatValue (scalar_width (ty_tag t)) f
  else if integer_scalar (ty_tag t) || tag_eqb (ty_tag t) NERI_IR_TYPE_BOOL_V1
  then ∃ n, v = IntValue (semantic_bits (scalar_properties (ty_tag t))) n else is_address v.
Proof.
  unfold comparable, plain_value. intros (Ho & Hn & Hx) Hv. destruct (ty_tag t); try done; cbn in Hv |- *; destruct Hv as (n & -> & _); by exists n.
Qed.

Lemma compare_plain t l r predicate m :
  comparable t → managed_reference t = Ok m → (m = true → equality predicate = true) →
  plain_value t l → plain_value t r → ∃ b, compare_scalar l r t predicate = Ok (truth b).
Proof.
  intros Ht Hm He Hl%comparable_value Hr%comparable_value; [|done..].
  unfold compare_scalar. rewrite Hm, bind_Ok. destruct m.
  - assert (floating_scalar (ty_tag t) = false ∧ integer_scalar (ty_tag t) || tag_eqb (ty_tag t) NERI_IR_TYPE_BOOL_V1 = false) as [E1 E2].
    { destruct Ht as [Ht _]. destruct t as [tag symbol arguments count]. by destruct tag. }
    rewrite E1, E2 in Hl, Hr. destruct Hl as [a ->], Hr as [b ->].
    specialize (He eq_refl). destruct predicate; try discriminate He; rewrite icmp_pointer; by eexists.
  - destruct (floating_scalar _).
    + destruct Hl as [a ->], Hr as [b ->]. destruct (float_equal_truth (scalar_width (ty_tag t)) a b) as [r He'].
      rewrite He', not_truth. destruct predicate; cbn [float_predicate mbind result_bind]; rewrite ?fcmp_float; by eexists.
    + destruct (_ || _); destruct Hl as [a ->], Hr as [b ->]; rewrite ?icmp_int, ?icmp_pointer; by eexists.
Qed.

(** *** Physical scalars *)

Lemma from_physical_ok t v : physical_value t v → plain_value t (from_physical_scalar v t).
Proof.
  unfold physical_value, from_physical_scalar. destruct (tag_eqb _ _) eqn:E; [|done]. apply tag_eqb_eq in E.
  intros [b ->]. rewrite constant_int_small, icmp_int by done. unfold plain_value. rewrite E. cbn. apply truth_int.
Qed.

Lemma to_physical_ok t v : plain_value t v → physical_value t (to_physical_scalar v t).
Proof.
  unfold physical_value, to_physical_scalar. destruct (tag_eqb _ _) eqn:E; [|done]. apply tag_eqb_eq in E.
  unfold plain_value. rewrite E. cbn. intros [b ->]%bool_value. exists b. unfold CreateZExt, truth. rewrite int_cast. by destruct b.
Qed.

(** Storing a value and loading it gives it back. *)
Lemma physical_roundtrip t v : plain_value t v → from_physical_scalar (to_physical_scalar v t) t = v.
Proof.
  unfold to_physical_scalar, from_physical_scalar. destruct (tag_eqb _ _) eqn:E; [|done]. apply tag_eqb_eq in E.
  unfold plain_value. rewrite E. cbn. intros [b ->]%bool_value. unfold CreateZExt, truth. rewrite int_cast, constant_int_small, icmp_int by done.
  by destruct b.
Qed.
End operations.
