(* ===== verification/LoweredTyping.v ===== *)
(** * Instructions compute values of their types

    Every value instruction the verifier accepts gives, on operands of their types, a
    result of its type, or panics where its effects say that it may. *)

From Stdlib Require Import SpecFloat.
From S2P Require Import Prelude Domains IR Samples Reader Types Layout Index Instructions.
From S2P Require Import InstructionSafety InstructionTyping Functions Dominance Cfg Ssa Execution.
From S2P Require Import Roots RootSpec ClassLayout Heap Llvm Lowered LoweredSafety.

Local Open Scope string_scope.
Local Open Scope list_scope.
Local Open Scope N_scope.

(** ** Optionals *)

Definition optional_type (t : type) : Prop := is_supported_value t = true ∧ ty_tag t = NERI_IR_TYPE_OPTIONAL_V1.

(** What an optional is represented by: a pointer, or a tag with a payload. *)
Lemma optional_cases t :
  optional_type t →
  ∃ a, ty_arguments t = [a] ∧ comparable a ∧ is_supported_value a = true ∧
    (uses_null_representation t = Ok true ∧ plain_value a = is_address ∧ represents t = is_address ∨
     uses_null_representation t = Ok false ∧ managed_reference a = Ok false ∧
     (∀ v, represents t v ↔ ∃ b payload, physical_value a payload ∧ tagged a (N.b2n b) payload v) ∧
     ∀ m, ∃ pt, semantic_type m t = Ok (optional_payload a pt) ∧ physical_value a (zero_value pt)).
Proof.
  intros [Hs Ht]. destruct (optional_types t Hs Ht) as (a & Ha & _ & Hsa & Ho & _ & Hn & Hx & b & Hb & Htrue & Hfalse).
  exists a. split; [done|]. split; [done|]. split; [done|]. unfold represents. rewrite Ht, Hb, Ha. cbn [tag_eqb].
  destruct b; [left; auto|right]. destruct (Hfalse eq_refl) as [Hm Hp]. done.
Qed.

Section optionals.
Context `{LawfulIRBuilder} `{DataLayout}.
Variable index : module_verification_index.

Lemma tagged_parts a tag payload v :
  tagged a tag payload v →
  CreateExtractValue v 0 = Ok (IntValue 8 tag) ∧ CreateExtractValue v (payload_index a) = Ok payload.
Proof. intros (elements & -> & Ht & Hp)%tagged_lookup. split; by apply extract_value. Qed.

Lemma tag_set b : CreateICmp ICMP_EQ (IntValue 8 (N.b2n b)) (constant_int 8 1) = truth b.
Proof. rewrite constant_int_small, icmp_int by done. by destruct b. Qed.

Lemma pointer_set p : CreateICmp ICMP_NE (PointerValue p) null_pointer = truth (negb (p =? 0)).
Proof. apply icmp_pointer. Qed.

(** The zero of a tagged optional has no payload set. *)
Lemma zero_tagged a pt : ∃ payload, tagged a 0 payload (zero_value (optional_payload a pt)) ∧ payload = zero_value pt.
Proof. unfold tagged, optional_payload, payload_index. destruct (_ || _); cbn [zero_value map]; eexists; (split; [|done]); by try eexists. Qed.

Lemma set_tagged a old tag payload v :
  tagged a tag payload v →
  ∃ v1, CreateInsertValue v (constant_int 8 1) 0 = Ok v1 ∧
    ∃ v2, CreateInsertValue v1 old (payload_index a) = Ok v2 ∧ tagged a 1 old v2.
Proof.
  rewrite constant_int_small by done. unfold tagged, payload_index. destruct (_ || _); cbn -[CreateInsertValue].
  - intros ->. eexists. split; [by eapply insert_value|]. eexists. split; [by eapply insert_value|]. done.
  - intros [padding ->]. eexists. split; [by eapply insert_value|]. eexists. split; [by eapply insert_value|]. by exists padding.
Qed.

Lemma optional_none_ok t a :
  optional_type t → ty_arguments t = [a] →
  ∃ v, optional_none index t = Ok v ∧ represents t v ∧ optional_is_some v t = Ok (truth false) ∧
    optional_get v t a = Throw (panic PANIC_RUNTIME_CONTRACT missing_optional).
Proof.
  intros Ht Ha. destruct (optional_cases t Ht) as (a' & Ha' & _ & _ & Hc). assert (a' = a) as -> by congruence.
  unfold optional_none, optional_is_some, optional_get. destruct Hc as [(-> & _ & Hr)|(-> & _ & Hr & Hz)]; rewrite !bind_Ok.
  - exists null_pointer. unfold null_pointer. rewrite Hr, icmp_pointer, guard_truth. split_and!; [done|by eexists|done..].
  - destruct (Hz (idx_module index)) as (pt & -> & Hp). rewrite bind_Ok. eexists. split; [done|].
    destruct (zero_tagged a pt) as (payload & Htag & ->). rewrite Hr. split; [by exists false, (zero_value pt)|].
    apply tagged_parts in Htag as [-> ->]. rewrite !bind_Ok, (tag_set false : CreateICmp ICMP_EQ (IntValue 8 0) _ = _), guard_truth. done.
Qed.

Lemma optional_some_ok t a x :
  optional_type t → ty_arguments t = [a] → plain_value a x →
  ∃ v, optional_some index x t = Ok v ∧ represents t v ∧
    (x ≠ null_pointer → optional_is_some v t = Ok (truth true) ∧ optional_get v t a = Ok x).
Proof.
  intros Ht Ha Hx. destruct (optional_cases t Ht) as (a' & Ha' & _ & _ & Hc). assert (a' = a) as -> by congruence.
  unfold optional_some, optional_is_some, optional_get. rewrite Ha. destruct Hc as [(-> & Hp & Hr)|(-> & _ & Hr & Hz)]; rewrite !bind_Ok.
  - rewrite Hp in Hx. exists x. rewrite Hr. split_and!; [done..|]. intros Hne. destruct Hx as [p ->].
    rewrite pointer_set, guard_truth. assert (p ≠ 0) as ->%N.eqb_neq by (by intros ->). done.
  - destruct (Hz (idx_module index)) as (pt & -> & Hp). cbn [front]. rewrite !bind_Ok.
    destruct (zero_tagged a pt) as (payload & Htag & _).
    destruct (set_tagged a (to_physical_scalar x a) _ _ _ Htag) as (v1 & -> & v2 & Hv & Hv2). rewrite bind_Ok, Hv.
    exists v2. split; [done|]. rewrite Hr. split; [exists true; eexists; split; [by apply to_physical_ok|done]|].
    intros _. apply tagged_parts in Hv2 as [-> ->]. rewrite !bind_Ok, (tag_set true : CreateICmp ICMP_EQ (IntValue 8 1) _ = _), guard_truth, bind_Ok.
    by rewrite physical_roundtrip.
Qed.

Lemma optional_is_some_ok t v : optional_type t → represents t v → ∃ b, optional_is_some v t = Ok (truth b).
Proof.
  intros Ht Hv. destruct (optional_cases t Ht) as (a & Ha & Hcm & Hsa & Hc). unfold optional_is_some.
  destruct Hc as [(-> & _ & Hr)|(-> & _ & Hr & _)]; rewrite bind_Ok.
  - rewrite Hr in Hv. destruct Hv as [p ->]. rewrite pointer_set. by eexists.
  - destruct (proj1 (Hr v) Hv) as (b & payload & Hpay & Htag). apply tagged_parts in Htag as [-> _]. rewrite bind_Ok, tag_set. by eexists.
Qed.

Lemma optional_get_ok t a v :
  optional_type t → ty_arguments t = [a] → represents t v → yields true (plain_value a) (optional_get v t a).
Proof.
  intros Ht Ha Hv. destruct (optional_cases t Ht) as (a' & Ha' & _ & _ & Hc). assert (a' = a) as -> by congruence.
  unfold optional_get. destruct Hc as [(-> & Hp & Hr)|(-> & _ & Hr & _)]; rewrite bind_Ok.
  - rewrite Hr in Hv. destruct Hv as [p ->]. rewrite pointer_set. apply yields_guard. cbn. rewrite Hp. by eexists.
  - destruct (proj1 (Hr v) Hv) as (b & payload & Hpay & Htag). apply tagged_parts in Htag as [-> ->]. rewrite !bind_Ok, tag_set. apply yields_guard.
    cbn. by apply from_physical_ok.
Qed.

(** The runtime compares strings without panicking. *)
Definition compares_strings (string_equal : N → N → result N) : Prop := ∀ a b, ∃ equal, string_equal a b = Ok equal.

Lemma compare_optional_ok string_equal t l r predicate :
  compares_strings string_equal → optional_type t → represents t l → represents t r →
  ∃ b, compare_optional string_equal l r t predicate = Ok (truth b).
Proof.
  intros Hstr Ht Hl Hr. destruct (optional_cases t Ht) as (a & Ha & Hcmp & _ & Hc). unfold compare_optional. rewrite Ha.
  assert (∀ m, (∃ b, m = Ok (truth b)) →
    ∃ b, (equal ← m; Ok (match predicate with NERI_IR_COMPARISON_EQUAL_V1 => equal | _ => CreateNot equal end)) = Ok (truth b)) as Hlast.
  { intros m [b ->]. rewrite bind_Ok, not_truth. destruct predicate; by eexists. }
  destruct Hc as [(-> & _ & Hrep)|(-> & Hm & Hrep & _)]; cbn [front]; rewrite !bind_Ok; apply Hlast.
  - rewrite Hrep in Hl, Hr. destruct Hl as [x ->], Hr as [y ->]. rewrite icmp_pointer. destruct (is_string a); [|by eexists].
    destruct (Hstr x y) as [e He]. cbn [call_string_equal]. rewrite He, !bind_Ok. unfold constant_int. rewrite icmp_int. by eexists.
  - destruct (proj1 (Hrep l) Hl) as (bl & pl & Hpl & Htl). destruct (proj1 (Hrep r) Hr) as (br & pr & Hpr & Htr).
    apply tagged_parts in Htl as [-> ->], Htr as [-> ->]. rewrite !bind_Ok.
    destruct (compare_plain a _ _ NERI_IR_COMPARISON_EQUAL_V1 false Hcmp Hm ltac:(done) (from_physical_ok a pl Hpl) (from_physical_ok a pr Hpr)) as [b ->].
    rewrite bind_Ok. unfold constant_int. rewrite !icmp_int, or_truth, and_truth. by eexists.
Qed.

End optionals.

(** ** Instructions *)

(** The constants whose value needs no global. *)
Fixpoint plain_constant (c : constant) : bool :=
  match c with
  | mk_constant tag _ _ nested _ _ =>
      negb (tag_eqb tag NERI_IR_CONSTANT_STRING_GLOBAL_V1) && negb (tag_eqb tag NERI_IR_CONSTANT_STRING_UTF8_V1) &&
      forallb plain_constant nested
  end.

(** The instructions that compute their result from their operands. *)
Definition value_instruction (i : instruction) : bool :=
  match ins_opcode i with
  | NERI_IR_OPCODE_CONSTANT_V1 => match ins_constant_value i with Some c => plain_constant c | None => false end
  | NERI_IR_OPCODE_INT_NEG_CHECKED_V1 | NERI_IR_OPCODE_INT_ADD_CHECKED_V1 | NERI_IR_OPCODE_INT_SUB_CHECKED_V1
  | NERI_IR_OPCODE_INT_MUL_CHECKED_V1 | NERI_IR_OPCODE_INT_DIV_CHECKED_V1
  | NERI_IR_OPCODE_FLOAT_NEG_V1 | NERI_IR_OPCODE_FLOAT_ADD_V1 | NERI_IR_OPCODE_FLOAT_SUB_V1
  | NERI_IR_OPCODE_FLOAT_MUL_V1 | NERI_IR_OPCODE_FLOAT_DIV_V1
  | NERI_IR_OPCODE_BOOL_NOT_V1 | NERI_IR_OPCODE_BOOL_AND_V1 | NERI_IR_OPCODE_BOOL_OR_V1 | NERI_IR_OPCODE_COMPARE_V1
  | NERI_IR_OPCODE_CAST_INT_TO_FLOAT_V1 | NERI_IR_OPCODE_NUMERIC_CAST_CHECKED_V1
  | NERI_IR_OPCODE_CAST_FLOAT_TO_INT_CHECKED_V1 | NERI_IR_OPCODE_CAST_INT_TO_BYTE_CHECKED_V1
  | NERI_IR_OPCODE_CAST_BYTE_TO_INT_V1 | NERI_IR_OPCODE_CLASS_UPCAST_V1
  | NERI_IR_OPCODE_OPTIONAL_NONE_V1 | NERI_IR_OPCODE_OPTIONAL_SOME_V1 | NERI_IR_OPCODE_OPTIONAL_IS_SOME_V1
  | NERI_IR_OPCODE_OPTIONAL_GET_CHECKED_V1 | NERI_IR_OPCODE_UNSAFE_BEGIN_V1
  | NERI_IR_OPCODE_POINTER_COMPARE_V1 | NERI_IR_OPCODE_POINTER_CAST_V1 => true
  | _ => false
  end.

Section typing.
Context `{LawfulIRBuilder} `{DataLayout} `{LawfulFloatBits}.
Variable legal : list byte → bool.
Variable context : function_context.
Variable globals : gmap symbol_id N.
Variable string_equal : N → N → result N.
Variable lower_effect : instruction → result llvm_value.
Hypothesis strings : compares_strings string_equal.
Hypothesis supported : supported_definitions context.

(** The types the code generator recorded, and the values computed so far. *)
Variable types : gmap N type.
Variable values : gmap N llvm_value.
Hypothesis types_recorded : ∀ v d, ctx_definitions context !! v = Some d → types !! v = Some (def_value_type d).
Hypothesis values_typed : ∀ v t x, types !! v = Some t → values !! v = Some x → represents t x.

Variable i : instruction.
Hypothesis computed : ∀ v, v ∈ ins_operands i → is_Some (values !! v).
Hypothesis results_supported : ∀ k t, result_has_type i k t → is_supported_value t = true.

Notation lower := (lower_instruction (ctx_index context) globals string_equal values types lower_effect i).

(** The result is of its type, or the code panics and the effects say so. *)
Definition lowers (e : N) (m : result llvm_value) : Prop :=
  ∃ panics t, result_has_type i 0 t ∧ yields panics (represents t) m ∧
    (panics = true → effects_within NERI_IR_EFFECT_MAY_PANIC_V1 e).

Lemma operand_ok k t :
  operand_has_type context i k t →
  ∃ x, operand_value values i k = Ok x ∧ operand_value_type types i k = Ok t ∧ represents t x ∧ is_supported_value t = true.
Proof.
  intros (v & d & Hv & Hd & <-). destruct (computed v) as [x Hx]; [by eapply list_elem_of_lookup_2|]. exists x.
  unfold operand_value, operand_value_type, lookup_value, value_type, element. rewrite Hv, !bind_Ok, Hx, (types_recorded v d Hd).
  split_and!; [done..|by eapply values_typed; [apply types_recorded|]|by eapply supported].
Qed.

Lemma result_ok t : result_has_type i 0 t → result_value_type i = Ok t.
Proof. intros (r & Hr & <-). unfold result_value_type. destruct (ins_results i) as [|r' rs]; [done|]. by injection Hr as ->. Qed.

Lemma lowers_Ok e t x : result_has_type i 0 t → represents t x → lowers e (Ok x).
Proof. intros Ht Hx. by exists false, t. Qed.

Lemma lowers_panic t m : result_has_type i 0 t → yields true (represents t) m → lowers NERI_IR_EFFECT_MAY_PANIC_V1 m.
Proof. intros Ht Hm. exists true, t. split_and!; [done..|]. intros _. reflexivity. Qed.

Lemma yields_impl panics (P Q : llvm_value → Prop) m : (∀ x, P x → Q x) → yields panics P m → yields panics Q m.
Proof. intros HPQ. destruct m; [apply HPQ|done]. Qed.

Lemma represents_plain t x : ty_tag t ≠ NERI_IR_TYPE_OPTIONAL_V1 → represents t x ↔ plain_value t x.
Proof. intros Ht. unfold represents. destruct (tag_eqb _ _) eqn:E; [by apply tag_eqb_eq in E|done]. Qed.

(** *** Arithmetic *)

Lemma scalar_operand_ok k tag :
  operand_has_type context i k (plain_type tag []) → ty_tag (plain_type tag []) ≠ NERI_IR_TYPE_OPTIONAL_V1 →
  ∃ x, operand_value values i k = Ok x ∧ plain_value (plain_type tag []) x.
Proof. intros (x & Hx & _ & Hr & _)%operand_ok Ht. exists x. split; [done|]. by apply represents_plain in Hr. Qed.

Lemma integer_operand_ok k tag :
  operand_has_type context i k (plain_type tag []) → integer_scalar tag = true →
  ∃ n, operand_value values i k = Ok (IntValue (scalar_width tag) n) ∧ n < 2 ^ scalar_width tag ∧ 1 < scalar_width tag ≤ 64.
Proof.
  intros Hop Ht. destruct (scalar_operand_ok k tag Hop) as (x & Hx & Hp); [by destruct tag|].
  apply integer_value in Hp as (n & -> & ? & ?); eauto.
Qed.

Lemma float_operand_ok k tag :
  operand_has_type context i k (plain_type tag []) → floating_scalar tag = true →
  ∃ f, operand_value values i k = Ok (FloatValue (scalar_width tag) f) ∧ valid_float (scalar_width tag) f = true ∧
    scalar_width tag ∈ [32; 64].
Proof.
  intros Hop Ht. destruct (scalar_operand_ok k tag Hop) as (x & Hx & Hp); [by destruct tag|].
  apply float_value in Hp as (n & -> & ? & ?); eauto.
Qed.

Lemma represents_integer tag x : integer_scalar tag = true → is_int (scalar_width tag) x → represents (plain_type tag []) x.
Proof. intros Ht Hx. apply represents_plain; [by destruct tag|]. by apply plain_integer. Qed.

Lemma represents_float tag x : floating_scalar tag = true → is_float (scalar_width tag) x → represents (plain_type tag []) x.
Proof. intros Ht Hx. apply represents_plain; [by destruct tag|]. by apply plain_float. Qed.

Lemma represents_bool b : represents bool_type (truth b).
Proof. apply truth_int. Qed.

Lemma arithmetic_integer tag : arithmetic_integer_tag tag = true → integer_scalar tag = true.
Proof. by intros [? _]%andb_true_iff. Qed.

Lemma integer_result tag m :
  integer_scalar tag = true → result_has_type i 0 (plain_type tag []) → yields true (is_int (scalar_width tag)) m →
  lowers NERI_IR_EFFECT_MAY_PANIC_V1 m.
Proof. intros Ht Hr Hm. eapply lowers_panic; [done|]. eapply yields_impl; [|done]. intros x. by apply represents_integer. Qed.

Lemma negate_lowers tag :
  arithmetic_integer_tag tag = true → arithmetic_typed context i 1 tag →
  lowers NERI_IR_EFFECT_MAY_PANIC_V1
    (operand ← operand_value values i 0; t ← result_value_type i; negate operand (is_unsigned_tag t)).
Proof.
  intros Ht%arithmetic_integer (_ & Hr & Hops). rewrite (result_ok _ Hr).
  destruct (integer_operand_ok 0 tag) as (n & -> & Hn & Hw); [by apply Hops; lia|done|]. rewrite !bind_Ok.
  eapply integer_result; [done..|]. unfold negate. cbn [integer_bits]. rewrite constant_int_small by lia.
  eapply in_range_yields, checked_overflow_ok.
Qed.

Lemma overflow_lowers operation tag :
  arithmetic_integer_tag tag = true → arithmetic_typed context i 2 tag →
  lowers NERI_IR_EFFECT_MAY_PANIC_V1 (lower_overflow values operation i).
Proof.
  intros Ht%arithmetic_integer (_ & Hr & Hops). unfold lower_overflow. rewrite (result_ok _ Hr).
  destruct (integer_operand_ok 0 tag) as (a & -> & Ha & Hw); [by apply Hops; lia|done|].
  destruct (integer_operand_ok 1 tag) as (b & -> & Hb & _); [by apply Hops; lia|done|]. rewrite !bind_Ok.
  eapply integer_result; [done..|]. eapply in_range_yields, checked_overflow_ok.
Qed.

Lemma divide_lowers tag :
  arithmetic_integer_tag tag = true → arithmetic_typed context i 2 tag →
  lowers NERI_IR_EFFECT_MAY_PANIC_V1
    (left ← operand_value values i 0; right ← operand_value values i 1; t ← result_value_type i;
     divide left right (is_unsigned_tag t)).
Proof.
  intros Ht%arithmetic_integer (_ & Hr & Hops). rewrite (result_ok _ Hr).
  destruct (integer_operand_ok 0 tag) as (a & -> & Ha & Hw); [by apply Hops; lia|done|].
  destruct (integer_operand_ok 1 tag) as (b & -> & Hb & _); [by apply Hops; lia|done|]. rewrite !bind_Ok.
  eapply integer_result; [done..|]. rewrite <-(negb_involutive (is_unsigned_tag _)), divide_ok by lia.
  destruct (negb _) eqn:Hz; [eapply in_range_yields; reflexivity|]. split; [done|]. by eexists _, _.
Qed.

Lemma float_lowers build tag :
  floating_scalar tag = true → arithmetic_typed context i 2 tag →
  (∀ bits a b, valid_float bits a = true → valid_float bits b = true → is_float bits (build (FloatValue bits a) (FloatValue bits b))) →
  lowers 0 (lower_binary values build i).
Proof.
  intros Ht (_ & Hr & Hops) Hbuild. unfold lower_binary.
  destruct (float_operand_ok 0 tag) as (a & -> & Ha & Hw); [by apply Hops; lia|done|].
  destruct (float_operand_ok 1 tag) as (b & -> & Hb & _); [by apply Hops; lia|done|]. rewrite !bind_Ok.
  eapply lowers_Ok; [done|]. apply represents_float; [done|]. by apply Hbuild.
Qed.

Lemma bool_operand_ok k :
  operand_has_type context i k bool_type → ∃ b, operand_value values i k = Ok (truth b).
Proof. intros (x & -> & Hx)%scalar_operand_ok; [|done]. apply bool_value in Hx as [b ->]. by exists b. Qed.

Lemma bool_lowers e m : result_has_type i 0 bool_type → (∃ b, m = Ok (truth b)) → lowers e m.
Proof. intros Hr [b ->]. eapply lowers_Ok; [done|]. apply represents_bool. Qed.

(** *** Comparisons *)

Lemma managed_supported t b :
  is_supported_value t = true → ty_tag t ≠ NERI_IR_TYPE_OPTIONAL_V1 → managed_reference t = Ok b → is_managed_reference t = b.
Proof.
  destruct t as [tag symbol arguments count]. intros Hs Ht Hb. destruct tag; try done; cbn in Hb; injection Hb as <-; try done.
  - destruct symbol, arguments; done.
  - destruct symbol as [symbol|], arguments; done.
Qed.

Lemma compared_type t :
  is_supported_value t = true → ty_tag t ≠ NERI_IR_TYPE_OPTIONAL_V1 →
  is_scalar t = true ∨ is_managed_reference t = true → comparable t.
Proof.
  destruct t as [tag symbol arguments count]. intros _ Ht Hc. split; [done|].
  split; intros E; cbn in E; subst tag; destruct symbol, arguments; destruct Hc; done.
Qed.

Lemma compare_lowers e : verify_compare context i = Ok e → lowers e (lower_compare string_equal values types i).
Proof.
  unfold verify_compare. rewrite !seq_Ok_iff, require_instruction_result_Ok. intros (_ & Hr & Hv).
  apply bind_Ok_inv in Hv as (left & Hl%operand_type_Ok & Hv). apply bind_Ok_inv in Hv as (right & Hright%operand_type_Ok & Hv).
  apply seq_Ok_iff in Hv as (<-%fail_when_Ok%negb_false_iff%same_type_Ok & Hv).
  apply bind_Ok_inv in Hv as (predicate & Hp & Hv). apply seq_Ok_iff in Hv as (Hc%fail_when_Ok & _).
  destruct (operand_ok _ _ Hl) as (x & Hx & Ht & Hrx & Hs). destruct (operand_ok _ _ Hright) as (y & Hy & _ & Hry & _).
  apply bool_lowers; [done|]. unfold lower_compare. rewrite Ht, Hx, Hy, Hp, !bind_Ok.
  destruct (tag_eqb (ty_tag left) NERI_IR_TYPE_OPTIONAL_V1) eqn:Eo.
  - apply tag_eqb_eq in Eo. by apply compare_optional_ok.
  - assert (ty_tag left ≠ NERI_IR_TYPE_OPTIONAL_V1) as Hne by (intros E; by rewrite E in Eo).
    destruct (managed_reference_returns left Hs) as [b Hb]. pose proof (managed_supported _ _ Hs Hne Hb) as Hm.
    rewrite Hm in Hc. cbn [negb andb orb] in Hc. apply orb_false_iff in Hc as [Hkind Hpred].
    eapply compare_plain; [|done| |by apply represents_plain..].
    + apply compared_type; [done..|]. rewrite Hm. destruct (is_scalar left), b; auto.
    + intros ->. unfold equality. rewrite orb_true_r in Hpred. cbn in Hpred. by apply negb_false_iff in Hpred.
Qed.

(** *** Conversions *)

Lemma numeric_cast_yields v source target :
  numeric_tag source = true → numeric_tag target = true → plain_value (plain_type source []) v →
  yields true (plain_value (plain_type target [])) (numeric_cast v source target).
Proof.
  intros Hs Ht Hv. destruct (integer_scalar target) eqn:Hti.
  - rewrite cast_to_integer by done.
    destruct (rounded_down source v), (integer_part source v); try (split; [done|by eexists _, _]).
    destruct (in_range _ _ _); [|split; [done|by eexists _, _]]. cbn -[plain_value]. apply plain_integer; [done|].
    eexists. split; [done|]. apply wrap_bound.
  - unfold numeric_tag in *. rewrite Hti in Ht. cbn [orb] in Ht.
    assert (scalar_width target ∈ [32; 64]) as Hw by (destruct target; try discriminate Ht; set_solver).
    unfold numeric_cast. rewrite Ht. cbn [negb]. rewrite !andb_false_r. destruct (floating_scalar source) eqn:Hsf; cbn [negb andb].
    + apply float_value in Hv as (f & -> & Hf & Hsw); [|done].
      assert (is_float (scalar_width target) (CreateFPCast (FloatValue (scalar_width source) f) (scalar_width target))) as Hcast by by apply fp_cast.
      case_match; [|by apply plain_float]. unfold single_maximum, float_infinity. cbn [float_bits].
      assert (scalar_width source = 64) as Hsource.
      { destruct source; try discriminate Hsf; [done|]. destruct target; try discriminate Ht; done. }
      rewrite Hsource in *. rewrite !fcmp_float, !and_truth, !or_truth. apply yields_guard. by apply plain_float.
    + rewrite orb_false_r in Hs. apply integer_value in Hv as (n & -> & _); [|done]. cbn -[plain_value]. apply plain_float; [done|].
      destruct (unsigned_scalar source); [by apply ui_to_fp|by apply si_to_fp].
Qed.

Lemma numeric_type t :
  is_supported_value t = true → numeric_tag (ty_tag t) = true → ty_tag t ≠ NERI_IR_TYPE_OPTIONAL_V1.
Proof. intros _ Ht E. by rewrite E in Ht. Qed.

Lemma numeric_cast_lowers e :
  verify_numeric_cast context i = Ok e →
  lowers e (source_type ← operand_value_type types i 0; target_type ← result_value_type i; operand ← operand_value values i 0;
            numeric_cast operand (ty_tag source_type) (ty_tag target_type)).
Proof.
  unfold verify_numeric_cast. rewrite seq_Ok_iff. intros (_ & Hv).
  apply bind_Ok_inv in Hv as (source & Hop%operand_type_Ok & Hv). apply bind_Ok_inv in Hv as (r & Hr & Hv).
  apply seq_Ok_iff in Hv as (Hc%fail_when_Ok & [= <-]). apply orb_false_iff in Hc as [Hs%negb_false_iff Ht%negb_false_iff].
  assert (result_has_type i 0 (val_value_type r)) as Hres.
  { exists r. split; [|done]. by destruct (ins_results i); [|injection Hr as ->]. }
  destruct (operand_ok _ _ Hop) as (x & -> & -> & Hx & Hsup). rewrite (result_ok _ Hres), !bind_Ok.
  apply represents_plain in Hx; [|by apply numeric_type].
  eapply lowers_panic; [done|]. eapply yields_impl; [|by apply numeric_cast_yields]. intros y Hy.
  apply represents_plain; [|done]. intros E. by rewrite E in Ht.
Qed.

Lemma float_to_int_yields f : valid_float 64 f = true → yields true (is_int 64) (float_to_int (FloatValue 64 f)).
Proof.
  intros Hf. unfold float_to_int. pose proof (float_check 64 f false 64 ltac:(lia) Hf) as Hc.
  unfold float_minimum, float_limit in Hc. change (64 - 1) with 63 in Hc. rewrite Hc, guard_truth.
  destruct (floor f) as [z|] eqn:Hz; [|split; [done|by eexists _, _]]. cbn [from_option negb].
  destruct (in_range true 64 z) eqn:Hin; [|split; [done|by eexists _, _]].
  destruct (truncate_floor true 64 f z ltac:(lia) Hz Hin) as (z' & Hz' & Hin'). rewrite bind_Ok, (fp_to_si _ _ _ z') by done.
  eexists. split; [done|]. apply wrap_bound.
Qed.

Lemma int_to_byte_yields n : yields true (is_int 8) (int_to_byte (IntValue 64 n)).
Proof.
  unfold int_to_byte, constant_int. rewrite !icmp_int, and_truth. apply yields_guard. unfold CreateTrunc. rewrite int_cast.
  eexists. split; [done|]. apply wrap_bound.
Qed.

(** One operand of a scalar type, one result of another. *)
Lemma unary_lowers a b e e' (panics : bool) (k : llvm_value → result llvm_value) :
  unary context i a b e = Ok e' → ty_tag (plain_type a []) ≠ NERI_IR_TYPE_OPTIONAL_V1 →
  (∀ x, plain_value (plain_type a []) x → yields panics (represents (plain_type b [])) (k x)) →
  (panics = true → e = NERI_IR_EFFECT_MAY_PANIC_V1) →
  lowers e' (operand ← operand_value values i 0; k operand).
Proof.
  unfold unary. rewrite seq_Ok_iff, require_unary_iff. intros ((_ & Hop & Hr) & [= <-]) Ha Hk Hp.
  destruct (scalar_operand_ok _ _ Hop Ha) as (x & -> & Hx). rewrite bind_Ok.
  exists panics, (plain_type b []). split_and!; [done|by apply Hk|]. intros Hpanics. by rewrite Hp.
Qed.

Lemma binary_bool_lowers build e e' :
  binary context i NERI_IR_TYPE_BOOL_V1 NERI_IR_TYPE_BOOL_V1 e = Ok e' →
  (∀ a b, ∃ c, build (truth a) (truth b) = truth c) → lowers e' (lower_binary values build i).
Proof.
  unfold binary. rewrite seq_Ok_iff, require_binary_iff. intros ((_ & Hl & Hr & Hres) & _) Hbuild.
  destruct (bool_operand_ok 0 Hl) as [a Ha], (bool_operand_ok 1 Hr) as [b Hb]. apply bool_lowers; [done|].
  unfold lower_binary. rewrite Ha, Hb, !bind_Ok. destruct (Hbuild a b) as [c ->]. by exists c.
Qed.

(** *** References, optionals and pointers *)

Lemma class_value t x : is_class t = true → represents t x ↔ is_address x.
Proof.
  unfold is_class. rewrite !andb_true_iff. intros [[Ht%tag_eqb_eq _] _]. rewrite represents_plain by (by rewrite Ht).
  unfold plain_value. by rewrite Ht.
Qed.

Lemma front_result r : front (ins_results i) = Ok r → result_has_type i 0 (val_value_type r).
Proof. intros Hr. exists r. split; [|done]. by destruct (ins_results i); [|injection Hr as ->]. Qed.

Lemma upcast_lowers e : verify_class_upcast context i = Ok e → lowers e (operand_value values i 0).
Proof.
  unfold verify_class_upcast. rewrite seq_Ok_iff. intros (_ & Hv).
  apply bind_Ok_inv in Hv as (source & Hop%operand_type_Ok & Hv). apply bind_Ok_inv in Hv as (r & Hr%front_result & Hv).
  apply seq_Ok_iff in Hv as (Hc%fail_when_Ok & _). rewrite !orb_false_iff, !negb_false_iff in Hc. destruct Hc as [[Hs Ht] _].
  destruct (operand_ok _ _ Hop) as (x & -> & _ & Hx & _). eapply lowers_Ok; [done|]. apply class_value; [done|]. by apply class_value in Hx.
Qed.

Lemma optional_of_iff t inner : optional_of t inner = true ↔ ty_tag t = NERI_IR_TYPE_OPTIONAL_V1 ∧ ty_arguments t = [inner].
Proof.
  unfold optional_of. rewrite andb_true_iff, tag_eqb_eq. destruct (ty_arguments t) as [|a [|]]; [naive_solver| |naive_solver].
  rewrite same_type_Ok. naive_solver.
Qed.

Lemma optional_none_lowers e :
  verify_optional_none i = Ok e → lowers e (t ← result_value_type i; optional_none (ctx_index context) t).
Proof.
  unfold verify_optional_none. rewrite seq_Ok_iff. intros (_ & Hv).
  apply bind_Ok_inv in Hv as (r & Hr%front_result & Hv). apply bind_Ok_inv in Hv as (inner & _ & Hv).
  apply seq_Ok_iff in Hv as (Hc%fail_when_Ok%negb_false_iff & _). apply optional_of_iff in Hc as [Ht Ha].
  rewrite (result_ok _ Hr), bind_Ok. destruct (optional_none_ok (ctx_index context) (val_value_type r) inner) as (v & -> & Hv' & _).
  - split; [by eapply results_supported|done].
  - done.
  - by eapply lowers_Ok.
Qed.

Lemma optional_some_lowers e :
  verify_optional_some context i = Ok e →
  lowers e (operand ← operand_value values i 0; t ← result_value_type i; optional_some (ctx_index context) operand t).
Proof.
  unfold verify_optional_some. rewrite seq_Ok_iff. intros (_ & Hv).
  apply bind_Ok_inv in Hv as (r & Hr%front_result & Hv). apply bind_Ok_inv in Hv as (bad & Hbad & Hv).
  apply seq_Ok_iff in Hv as (->%fail_when_Ok & _). destruct (negb _) eqn:Ho; [done|]. apply negb_false_iff, tag_eqb_eq in Ho.
  destruct (ty_arguments (val_value_type r)) as [|a [|]] eqn:Ha; [done| |done].
  apply bind_Ok_inv in Hbad as (inner & Hop%operand_type_Ok & Hbad). injection Hbad as <-%negb_false_iff%same_type_Ok.
  assert (optional_type (val_value_type r)) as Hopt by (split; [by eapply results_supported|done]).
  destruct (optional_cases _ Hopt) as (a' & Ha' & [Hne _] & _). assert (a' = a) as -> by congruence.
  destruct (operand_ok _ _ Hop) as (x & -> & _ & Hx%represents_plain & _); [|done]. rewrite (result_ok _ Hr), !bind_Ok.
  destruct (optional_some_ok (ctx_index context) _ a x Hopt Ha Hx) as (v & -> & Hv' & _). by eapply lowers_Ok.
Qed.

Lemma optional_is_some_lowers e :
  verify_optional_is_some context i = Ok e →
  lowers e (operand_type ← operand_value_type types i 0; operand ← operand_value values i 0; optional_is_some operand operand_type).
Proof.
  unfold verify_optional_is_some. rewrite !seq_Ok_iff, require_instruction_result_Ok. intros (_ & Hr & Hv).
  apply bind_Ok_inv in Hv as (t & Hop%operand_type_Ok & Hv). apply seq_Ok_iff in Hv as (Ht%fail_when_Ok%negb_false_iff%tag_eqb_eq & _).
  destruct (operand_ok _ _ Hop) as (x & -> & -> & Hx & Hs). rewrite !bind_Ok. apply bool_lowers; [done|]. by apply optional_is_some_ok.
Qed.

Lemma optional_get_lowers e :
  verify_optional_get context i = Ok e →
  lowers e (operand ← operand_value values i 0; result_type ← result_value_type i; operand_type ← operand_value_type types i 0;
            optional_get operand operand_type result_type).
Proof.
  unfold verify_optional_get. rewrite seq_Ok_iff. intros (_ & Hv).
  apply bind_Ok_inv in Hv as (t & Hop%operand_type_Ok & Hv). apply bind_Ok_inv in Hv as (r & Hr%front_result & Hv).
  apply seq_Ok_iff in Hv as (Hc%fail_when_Ok%negb_false_iff & [= <-]). apply optional_of_iff in Hc as [Ht Ha].
  destruct (operand_ok _ _ Hop) as (x & -> & -> & Hx & Hs). rewrite (result_ok _ Hr), !bind_Ok.
  assert (optional_type t) as Hopt by done. destruct (optional_cases _ Hopt) as (a' & Ha' & [Hne _] & _).
  assert (a' = val_value_type r) as -> by congruence.
  eapply lowers_panic; [done|]. eapply yields_impl; [|by apply optional_get_ok]. intros y. by apply represents_plain.
Qed.

Lemma pointer_operand_ok k t :
  operand_has_type context i k (plain_type NERI_IR_TYPE_POINTER_V1 [t]) → ∃ p, operand_value values i k = Ok (PointerValue p).
Proof. intros (x & Hx & _ & [p ->]%represents_plain & _)%operand_ok; [by exists p|done]. Qed.

Lemma unsafe_begin_lowers e : verify_unsafe_begin i = Ok e → lowers e (Ok (PointerValue 1)).
Proof.
  unfold verify_unsafe_begin. rewrite !seq_Ok_iff, require_instruction_result_Ok. intros (_ & Hr & _).
  eapply lowers_Ok; [done|]. by eexists.
Qed.

(** The two pointer instructions that touch no memory. *)
Lemma pointer_instruction_inv e :
  verify_pointer_instruction context i = Ok e → ins_opcode i ≠ NERI_IR_OPCODE_BORROW_END_V1 →
  ∃ t, verify_pointer_types context i t = Ok tt.
Proof.
  unfold verify_pointer_instruction. rewrite !seq_Ok_iff. intros (_ & _ & Hv) Hne. destruct (tag_eqb _ _) eqn:E.
  - by apply tag_eqb_eq in E.
  - apply bind_Ok_inv in Hv as (t & _ & Hv). rewrite !seq_Ok_iff in Hv. destruct Hv as (_ & _ & Hv & _). by exists t.
Qed.

Lemma pointer_compare_lowers e :
  verify_pointer_instruction context i = Ok e → ins_opcode i = NERI_IR_OPCODE_POINTER_COMPARE_V1 →
  lowers e (left ← operand_value values i 1; right ← operand_value values i 2; predicate ← deref (ins_predicate i);
            Ok (compare_pointer left right predicate)).
Proof.
  intros Hv Hop. destruct (pointer_instruction_inv e Hv) as [t Ht]; [by rewrite Hop|].
  unfold verify_pointer_types in Ht. rewrite Hop in Ht. cbn -[require_operand_type require_instruction_result plain_type mbind] in Ht. rewrite !seq_Ok_iff in Ht.
  rewrite !require_operand_type_Ok, require_instruction_result_Ok in Ht. destruct Ht as (Hl & Hr & Hres & Hp).
  apply bind_Ok_inv in Hp as (predicate & -> & _). destruct (pointer_operand_ok _ _ Hl) as [a ->], (pointer_operand_ok _ _ Hr) as [b ->].
  rewrite !bind_Ok. apply bool_lowers; [done|]. unfold compare_pointer. rewrite icmp_pointer. by eexists.
Qed.

Lemma pointer_cast_lowers e :
  verify_pointer_instruction context i = Ok e → ins_opcode i = NERI_IR_OPCODE_POINTER_CAST_V1 →
  lowers e (operand_value values i 1).
Proof.
  intros Hv Hop. destruct (pointer_instruction_inv e Hv) as [t Ht]; [by rewrite Hop|].
  unfold verify_pointer_types in Ht. rewrite Hop in Ht. cbn -[require_operand_type require_instruction_result plain_type mbind] in Ht.
  apply bind_Ok_inv in Ht as (target & _ & Ht). rewrite !seq_Ok_iff, require_operand_type_Ok, require_instruction_result_Ok in Ht.
  destruct Ht as (_ & Hl & Hres). destruct (pointer_operand_ok _ _ Hl) as [a ->]. eapply lowers_Ok; [done|]. by exists a.
Qed.

(** *** Constants *)

Lemma verify_constant_eq c t depth u :
  verify_constant legal c t depth = Ok u → plain_constant c = true →
  match c_tag c with
  | NERI_IR_CONSTANT_BOOL_V1 => ty_tag t = NERI_IR_TYPE_BOOL_V1 ∧ c_value_bits c ≤ 1
  | NERI_IR_CONSTANT_BYTE_V1 => ty_tag t = NERI_IR_TYPE_BYTE_V1
  | NERI_IR_CONSTANT_INT_V1 => ty_tag t = NERI_IR_TYPE_INT_V1
  | NERI_IR_CONSTANT_FLOAT_V1 => ty_tag t = NERI_IR_TYPE_FLOAT_V1
  | NERI_IR_CONSTANT_OPTIONAL_NONE_V1 => ty_tag t = NERI_IR_TYPE_OPTIONAL_V1
  | NERI_IR_CONSTANT_OPTIONAL_SOME_V1 => ty_tag t = NERI_IR_TYPE_OPTIONAL_V1 ∧
      ∃ a inner, ty_arguments t = [a] ∧ c_nested c = [inner] ∧ verify_constant legal inner a (depth + 1) = Ok tt ∧ plain_constant inner = true
  | _ => False
  end.
Proof.
  destruct c as [tag bits cts nested symbol text]. intros Hv Hp. cbn [verify_constant] in Hv. apply seq_Ok_iff in Hv as [_ Hv].
  cbn [plain_constant] in Hp. apply andb_true_iff in Hp as [Hp Hn]. cbn [c_tag c_value_bits c_nested].
  destruct tag; try discriminate Hp.
  5: apply fail_when_Ok in Hv; rewrite !orb_false_iff, !negb_false_iff in Hv; by apply tag_eqb_eq; destruct Hv as [[[[? _] _] _] _].
  5: { apply seq_Ok_iff in Hv as [Hc Hv]. apply fail_when_Ok in Hc. rewrite !orb_false_iff, !negb_false_iff in Hc.
    destruct Hc as [[[[[Ht%tag_eqb_eq Ha%Nat.eqb_eq] _] Hl%Nat.eqb_eq] _] _]. split; [done|].
    destruct (ty_arguments t) as [|a [|]]; try discriminate Ha. destruct nested as [|inner [|]]; try discriminate Hl.
    exists a, inner. cbn in Hn. rewrite andb_true_r in Hn. cbn [front] in Hv. rewrite bind_Ok in Hv. destruct u. done. }
  all: apply fail_when_Ok in Hv; rewrite !orb_false_iff, !negb_false_iff in Hv.
  - destruct Hv as [[Ht%tag_eqb_eq Hb%N.ltb_ge] _]. done.
  - by destruct Hv as [[Ht%tag_eqb_eq _] _].
  - by destruct Hv as [Ht%tag_eqb_eq _].
  - by destruct Hv as [Ht%tag_eqb_eq _].
Qed.

Lemma constant_int_ok bits n : is_int bits (constant_int bits n).
Proof. eexists. split; [done|]. apply N.mod_lt, N.pow_nonzero. done. Qed.

Lemma constant_bool_ok n : is_int 1 (constant_int 1 n).
Proof. apply constant_int_ok. Qed.

Lemma plain_tagged t tag x : ty_tag t = tag → plain_value (plain_type tag []) x → plain_value t x.
Proof. intros <-. done. Qed.

Lemma double_ok n : is_float 64 (FloatValue 64 (double_of_bits n)).
Proof. eexists. split; [done|]. apply double_valid. Qed.

Lemma physical_constant_ok c a depth u :
  verify_constant legal c a depth = Ok u → plain_constant c = true → ty_tag a ≠ NERI_IR_TYPE_OPTIONAL_V1 →
  ∃ v, physical_scalar_constant c a = Ok v ∧ physical_value a v.
Proof.
  intros Hv Hp Ht. pose proof (verify_constant_eq c a depth u Hv Hp) as Hc. unfold physical_scalar_constant, physical_value.
  destruct (c_tag c); try done.
  - destruct Hc as [E Hb]. rewrite E. cbn [tag_eqb]. eexists. split; [done|]. rewrite constant_int_small by lia.
    assert (c_value_bits c = 0 ∨ c_value_bits c = 1) as [-> | ->] by lia; [by exists false|by exists true].
  - rewrite Hc. eexists. split; [done|]. cbn [tag_eqb]. eapply plain_tagged; [done|]. apply constant_int_ok.
  - rewrite Hc. eexists. split; [done|]. cbn [tag_eqb]. eapply plain_tagged; [done|]. apply constant_int_ok.
  - rewrite Hc. eexists. split; [done|]. cbn [tag_eqb]. eapply plain_tagged; [done|]. apply double_ok.
  - by destruct Hc.
Qed.

Lemma semantic_constant_ok index c : ∀ t depth u,
  verify_constant legal c t depth = Ok u → plain_constant c = true → is_supported_value t = true →
  ∃ v, semantic_constant index globals c t = Ok v ∧ represents t v.
Proof.
  induction c as [tag bits cts nested symbol text IH] using constant_nested_ind. intros t depth u Hv Hp Hs.
  pose proof (verify_constant_eq _ t depth u Hv Hp) as Hc. cbn [c_tag c_value_bits c_nested] in Hc.
  destruct tag; try done; cbn [semantic_constant].
  - destruct Hc as [E _]. eexists. split; [done|]. apply represents_plain; [by rewrite E|]. eapply plain_tagged; [done|]. apply constant_int_ok.
  - eexists. split; [done|]. apply represents_plain; [by rewrite Hc|]. eapply plain_tagged; [done|]. apply constant_int_ok.
  - eexists. split; [done|]. apply represents_plain; [by rewrite Hc|]. eapply plain_tagged; [done|]. apply constant_int_ok.
  - eexists. split; [done|]. apply represents_plain; [by rewrite Hc|]. eapply plain_tagged; [done|]. apply double_ok.
  - assert (optional_type t) as Ht by done. destruct (optional_cases t Ht) as (a & Ha & _).
    destruct (optional_none_ok index t a Ht Ha) as (v & Hn & Hr & _). by exists v.
  - destruct Hc as (Ho & a & inner & Ha & -> & Hinner & Hpi). assert (optional_type t) as Ht by done.
    destruct (optional_cases t Ht) as (a' & Ha' & [Hne _] & Hsa & Hcase). assert (a' = a) as -> by congruence. rewrite Ha.
    destruct Hcase as [(-> & Hpa & Hr)|(-> & _ & Hr & _)]; cbn [front]; rewrite !bind_Ok.
    + inversion IH as [|? ? Hi _]; subst. destruct (Hi a _ _ Hinner Hpi Hsa) as (v & -> & Hv'). exists v. split; [done|].
      apply represents_plain in Hv'; [|done]. by rewrite Hr, <-Hpa.
    + destruct (physical_constant_ok _ _ _ _ Hinner Hpi Hne) as (v & -> & Hv'). rewrite bind_Ok. eexists. split; [done|].
      apply Hr. exists true, v. split; [done|]. unfold tagged. rewrite constant_int_small by done.
      destruct (_ =? 1); [done|by eexists].
Qed.

Lemma constant_lowers e :
  verify_constant_instruction legal context i = Ok e →
  match ins_constant_value i with Some c => plain_constant c | None => false end = true →
  lowers e (value ← deref (ins_constant_value i); t ← result_value_type i; semantic_constant (ctx_index context) globals value t).
Proof.
  unfold verify_constant_instruction. rewrite seq_Ok_iff. intros (_ & Hv) Hp. destruct (ins_constant_value i) as [c|]; [|done].
  apply bind_Ok_inv in Hv as (? & [= <-] & Hv). cbn [deref]. rewrite bind_Ok. apply bind_Ok_inv in Hv as (r & Hr%front_result & Hv). apply seq_Ok_iff in Hv as [Hc _].
  rewrite (result_ok _ Hr), bind_Ok.
  destruct (semantic_constant_ok (ctx_index context) c _ _ _ Hc Hp) as (v & -> & Hv'); [by eapply results_supported|].
  by eapply lowers_Ok.
Qed.

Lemma arithmetic_lowers e count ok effects :
  arithmetic_signature (ins_opcode i) = Some (count, ok, effects) → verify_opcode legal context i = Ok e → lowers e lower.
Proof.
  intros Hs (-> & tag & Htag & Ht)%(arithmetic_opcode_iff _ _ _ _ _ _ _ Hs). unfold lower_instruction.
  destruct (ins_opcode i); try discriminate Hs; injection Hs as <- <- <-; try by eapply overflow_lowers.
  - by eapply negate_lowers.
  - by eapply divide_lowers.
  - destruct Ht as (_ & Hr & Hops). destruct (float_operand_ok 0 tag) as (f & -> & Hf & _); [by apply Hops; lia|done|].
    rewrite bind_Ok. eapply lowers_Ok; [done|]. apply represents_float; [done|]. by apply fneg_float.
  - eapply float_lowers; [done..|]. apply fadd_float.
  - eapply float_lowers; [done..|]. apply fsub_float.
  - eapply float_lowers; [done..|]. apply fmul_float.
  - eapply float_lowers; [done..|]. apply fdiv_float.
Qed.

(** The conversions with fixed types, and the negation of booleans. *)
Definition conversion_opcodes : list neri_ir_opcode_v1 :=
  [NERI_IR_OPCODE_BOOL_NOT_V1; NERI_IR_OPCODE_CAST_INT_TO_FLOAT_V1; NERI_IR_OPCODE_CAST_FLOAT_TO_INT_CHECKED_V1;
   NERI_IR_OPCODE_CAST_INT_TO_BYTE_CHECKED_V1; NERI_IR_OPCODE_CAST_BYTE_TO_INT_V1].

Lemma conversion_lowers e :
  verify_opcode legal context i = Ok e →
  opcode_in (ins_opcode i) conversion_opcodes = true →
  lowers e lower.
Proof.
  unfold verify_opcode, lower_instruction. destruct (ins_opcode i); try discriminate; intros Hv _.
  - eapply (unary_lowers _ _ _ _ false (λ x, Ok (CreateNot x)) Hv); [done| |done].
    intros x [b ->]%bool_value. cbn. rewrite not_truth. apply represents_bool.
  - eapply (unary_lowers _ _ _ _ false (λ x, Ok (CreateSIToFP x 64)) Hv); [done| |done].
    intros x (n & -> & _). apply (represents_float NERI_IR_TYPE_FLOAT_V1); [done|]. apply si_to_fp. set_solver.
  - eapply (unary_lowers _ _ _ _ true float_to_int Hv); [done| |done].
    intros x (f & -> & Hf). eapply yields_impl; [|exact (float_to_int_yields f Hf)]. intros y. by apply (represents_integer NERI_IR_TYPE_INT_V1).
  - eapply (unary_lowers _ _ _ _ true int_to_byte Hv); [done| |done].
    intros x (n & -> & _). eapply yields_impl; [|exact (int_to_byte_yields n)]. intros y. by apply (represents_integer NERI_IR_TYPE_BYTE_V1).
  - eapply (unary_lowers _ _ _ _ false (λ x, Ok (CreateZExt x 64)) Hv); [done| |done].
    intros x (n & -> & _). apply (represents_integer NERI_IR_TYPE_INT_V1); [done|]. unfold CreateZExt. rewrite int_cast. eexists. split; [done|]. apply wrap_bound.
Qed.

(** They have one result. *)
Lemma pointer_result e :
  verify_pointer_instruction context i = Ok e →
  opcode_in (ins_opcode i) [NERI_IR_OPCODE_POINTER_COMPARE_V1; NERI_IR_OPCODE_POINTER_CAST_V1] = true →
  length (ins_results i) = 1%nat.
Proof.
  unfold verify_pointer_instruction. rewrite seq_Ok_iff, fail_when_Ok, negb_false_iff. intros [Hs _] Hop.
  unfold pointer_shape_ok, size_is in Hs. rewrite negb_true_iff, !orb_false_iff, negb_false_iff, Nat.eqb_eq in Hs.
  destruct Hs as [[[[[[-> _] _] _] _] _] _]. by destruct (ins_opcode i).
Qed.

Lemma value_instruction_result e :
  verify_opcode legal context i = Ok e → value_instruction i = true → length (ins_results i) = 1%nat.
Proof.
  intros Hv Hi. destruct (arithmetic_signature (ins_opcode i)) as [[[count ok] effects]|] eqn:Hs.
  { apply (arithmetic_opcode_iff _ _ _ _ _ _ _ Hs) in Hv as (_ & tag & _ & Ht & _). apply Ht. }
  unfold verify_opcode, value_instruction in *.
  destruct (ins_opcode i) eqn:Hop; try discriminate Hi; try discriminate Hs;
    try (eapply pointer_result; [exact Hv|by rewrite Hop]);
    unfold unary, binary, require_unary, require_binary, verify_constant_instruction, verify_compare, verify_numeric_cast,
      verify_class_upcast, verify_optional_none, verify_optional_some, verify_optional_is_some, verify_optional_get,
      verify_unsafe_begin in Hv; rewrite ?seq_Ok_iff in Hv; apply proj1 in Hv; try apply proj1 in Hv;
    apply verify_instruction_shape_Ok in Hv; apply Hv.
Qed.

(** Every instruction that computes a value. *)
Lemma lower_instruction_ok e :
  verify_opcode legal context i = Ok e → value_instruction i = true → lowers e lower.
Proof.
  intros Hv Hi. destruct (arithmetic_signature (ins_opcode i)) as [[[count ok] effects]|] eqn:Hs; [by eapply arithmetic_lowers|].
  destruct (opcode_in (ins_opcode i) conversion_opcodes) eqn:Hc; [by eapply conversion_lowers|].
  unfold verify_opcode, value_instruction, lower_instruction in *.
  destruct (ins_opcode i) eqn:Hop; try discriminate Hi; try discriminate Hs; try discriminate Hc;
    first [by apply constant_lowers|by apply compare_lowers|by apply numeric_cast_lowers|by eapply upcast_lowers
      |by apply optional_none_lowers|by apply optional_some_lowers|by apply optional_is_some_lowers|by apply optional_get_lowers
      |by eapply unsafe_begin_lowers|by eapply pointer_compare_lowers|by eapply pointer_cast_lowers
      |eapply binary_bool_lowers; [exact Hv|]; intros a b; rewrite ?and_truth, ?or_truth; by eexists].
Qed.

End typing.
