(* ===== verification/LoweredSpec.v ===== *)
(** * Compiled code computes what the instructions say

    Executions of the code of a function: values stay within their types, no execution
    reads a value that is missing or reaches an undefined operation, and the code panics
    only where the function's effects say that it may.  Checked arithmetic is exact,
    conversions keep numbers, optionals give back what was put into them. *)

From Stdlib Require Import SpecFloat.
From S2P Require Import Prelude Heap Domains IR Samples Reader Types Layout Index Instructions.
From S2P Require Import InstructionSafety InstructionTyping Functions Dominance Cfg Ssa Execution.
From S2P Require Import Roots RootSpec ClassLayout ClassSpec Llvm Lowered LoweredSafety LoweredTyping.

Local Open Scope string_scope.
Local Open Scope list_scope.
Local Open Scope N_scope.

(** ** Executions *)

(** Where the code of a function is, and what has been computed. *)
Record machine := mk_machine {
  mc_block : block;
  mc_next : nat;
  mc_values : gmap N llvm_value;
}.

Section run.
Context `{LawfulIRBuilder} `{DataLayout} `{LawfulFloatBits}.
Variable legal : list byte → bool.
Variable index : module_verification_index.
Variable f : function.
Variable globals : gmap symbol_id N.
Variable string_equal : N → N → result N.
Variable lower_effect : instruction → result llvm_value.

Notation types := (function_value_types f).
Notation lower values i := (lower_instruction index globals string_equal values types lower_effect i).

Definition values_typed (values : gmap N llvm_value) : Prop :=
  ∀ v t x, types !! v = Some t → values !! v = Some x → represents t x.

(** A call passes values of the parameter types. *)
Inductive machine_starts : machine → Prop :=
| machine_entry b values :
    b ∈ fn_blocks f → blk_id b = fn_entry_block f →
    (∀ v, v ∈ root_values f ∪ parameter_values b → is_Some (values !! v)) → values_typed values →
    machine_starts (mk_machine b 0 values).

(** Value instructions run their code; what memory, the runtime and callees give back is
    of the type of the result. *)
Inductive machine_step : machine → machine → Prop :=
| machine_value b k values i r x :
    blk_instructions b !! k = Some i → value_instruction i = true → lower values i = Ok x → front (ins_results i) = Ok r →
    machine_step (mk_machine b k values) (mk_machine b (S k) (<[val_id r := x]> values))
| machine_effect b k values i results :
    blk_instructions b !! k = Some i → value_instruction i = false →
    (∀ v, v ∈ result_values i → is_Some (results !! v)) → values_typed results →
    machine_step (mk_machine b k values) (mk_machine b (S k) (results ∪ values))
| machine_branch b values e target values' :
    lower_terminator values f (blk_ending b) = Ok (Branch e) →
    target ∈ fn_blocks f → blk_id target = edge_target e → add_edge_arguments values e target = Ok values' →
    machine_step (mk_machine b (length (blk_instructions b)) values) (mk_machine target 0 values').

Definition machine_runs (m : machine) : Prop := ∃ m0, machine_starts m0 ∧ rtc machine_step m0 m.

(** The function may panic, and the error is a panic. *)
Definition declared_panic (e : exn) : Prop :=
  (∃ code message, e = panic code message) ∧ effects_within NERI_IR_EFFECT_MAY_PANIC_V1 (fn_effects f).

(** What a function returns, as its callers see it. *)
Definition returned (v : option llvm_value) : Prop :=
  match v with
  | None => is_void (fn_result_type f) = true
  | Some v => if tag_eqb (ty_tag (fn_result_type f)) NERI_IR_TYPE_BOOL_V1 then ∃ b, v = IntValue 8 (N.b2n b)
              else represents (fn_result_type f) v
  end.

(** The machine is in its types and its next step is defined. *)
Definition machine_safe (m : machine) : Prop :=
  values_typed (mc_values m) ∧
  match blk_instructions (mc_block m) !! mc_next m with
  | Some i =>
      (∀ v, v ∈ ins_operands i → is_Some (mc_values m !! v)) ∧
      (value_instruction i = true →
       match lower (mc_values m) i with
       | Ok x => ∃ r, ins_results i = [r] ∧ represents (val_value_type r) x
       | Throw e => declared_panic e
       end)
  | None =>
      match lower_terminator (mc_values m) f (blk_ending (mc_block m)) with
      | Ok (Branch e) => ∃ target values', target ∈ fn_blocks f ∧ blk_id target = edge_target e ∧
          add_edge_arguments (mc_values m) e target = Ok values'
      | Ok (Return v) => returned v
      | Throw e => declared_panic e
      end
  end.

Hypothesis body : well_formed_body legal index f.
Hypothesis strings : compares_strings string_equal.

Lemma parameter_type b p : b ∈ fn_blocks f → p ∈ blk_parameters b → types !! par_id p = Some (par_value_type p).
Proof.
  intros Hb Hp. apply (types_exact legal index f body). exists (mk_definition (par_value_type p) (blk_id b) (-1)). split; [|done].
  unfold function_definitions. apply elem_of_app. right. eapply elem_of_concat_map; [exact Hb|].
  unfold block_definitions. apply elem_of_app. left. apply list_elem_of_fmap. by exists p.
Qed.

Lemma result_type b k i r :
  b ∈ fn_blocks f → blk_instructions b !! k = Some i → r ∈ ins_results i → types !! val_id r = Some (val_value_type r).
Proof.
  intros Hb Hi Hr. apply (types_exact legal index f body). exists (mk_definition (val_value_type r) (blk_id b) (Z.of_nat k)). split; [|done].
  unfold function_definitions. apply elem_of_app. right. eapply elem_of_concat_map; [exact Hb|].
  unfold block_definitions. apply elem_of_app. right. eapply (elem_of_concat_map _ _ (k, i)); [by apply elem_of_lookup_imap_2|].
  unfold instruction_definitions. apply list_elem_of_fmap. by exists r.
Qed.

Lemma type_supported v t : types !! v = Some t → is_supported_value t = true.
Proof.
  intros (d & Hd & <-)%(types_exact legal index f body). pose proof (wfb_supported _ _ _ body) as Hall.
  rewrite Forall_forall in Hall. apply (Hall _ Hd).
Qed.

Lemma typed_type v t : value_typed f v t → types !! v = Some t.
Proof. intros (d & Hd%elem_of_list_to_map_2 & <-). apply (types_exact legal index f body). by exists d. Qed.

(** *** Instructions *)

Lemma value_instruction_safe b k i values :
  b ∈ fn_blocks f → blk_instructions b !! k = Some i → value_instruction i = true →
  values_typed values → (∀ v, v ∈ ins_operands i → is_Some (values !! v)) →
  match lower values i with
  | Ok x => ∃ r, ins_results i = [r] ∧ represents (val_value_type r) x
  | Throw e => declared_panic e
  end.
Proof.
  intros Hb Hi Hval Hty Hops. destruct (wfb_instructions _ _ _ body b i Hb) as (e & He & Heff & _); [by eapply list_elem_of_lookup_2|].
  apply verify_instruction_iff in He as (_ & _ & He).
  pose proof (value_instruction_result legal _ i e He Hval) as Hlen.
  destruct (ins_results i) as [|r [|]] eqn:Hr; try discriminate Hlen.
  edestruct (lower_instruction_ok legal (core_context index f) globals string_equal lower_effect strings) as (panics & t & Ht & Hm & Hp);
    [..|exact He|exact Hval|].
  - intros v d Hd%elem_of_list_to_map_2. apply (type_supported v), (types_exact legal index f body). by exists d.
  - intros v d Hd%elem_of_list_to_map_2. apply (types_exact legal index f body). by exists d.
  - exact Hty.
  - exact Hops.
  - intros j t (r' & Hr' & <-). apply (type_supported (val_id r')). eapply result_type; [done..|]. by eapply list_elem_of_lookup_2.
  - change (ctx_index (core_context index f)) with index in Hm. destruct (lower values i) as [x|err].
    + exists r. split; [done|]. destruct Ht as (r' & Hr' & <-). rewrite Hr in Hr'. by injection Hr' as <-.
    + destruct Hm as [-> ?]. split; [done|]. etransitivity; [by apply Hp|done].
Qed.

(** *** Edges *)

Lemma typed_insert values v t x : types !! v = Some t → represents t x → values_typed values → values_typed (<[v := x]> values).
Proof.
  intros Ht Hx Hty w t' y Hw. destruct (decide (w = v)) as [->|Hne].
  - rewrite lookup_insert_eq. intros [= <-]. congruence.
  - rewrite lookup_insert_ne by done. by apply Hty.
Qed.

Lemma add_edge_arguments_ok values e target :
  target ∈ fn_blocks f → arguments_typed f e target → values_typed values →
  (∀ v, v ∈ edge_arguments e → is_Some (values !! v)) →
  returns (add_edge_arguments values e target) (λ values', values_typed values' ∧
    ∀ v, is_Some (values !! v) ∨ v ∈ parameter_values target → is_Some (values' !! v)).
Proof.
  intros Ht Hargs Hty Hpresent. unfold arguments_typed in Hargs. unfold add_edge_arguments. eapply returns_weaken.
  - apply (returns_loop (λ done values', values_typed values' ∧ (∀ v, is_Some (values !! v) → is_Some (values' !! v)) ∧
      ∀ j v p, (j, v) ∈ done → blk_parameters target !! j = Some p → is_Some (values' !! par_id p))); [|split_and!; [done|done|set_solver]].
    intros finished [j v] values' (j' & v' & [= <- <-] & Hv)%elem_of_lookup_imap (Hty' & Hkeep & Hdone).
    destruct (Forall2_lookup_l _ _ _ _ _ Hargs Hv) as (p & Hp & Hpt%typed_type).
    destruct (Hpresent v) as [x Hx]; [by eapply list_elem_of_lookup_2|].
    unfold element, lookup_value. rewrite Hp, Hx, !bind_Ok. apply returns_Ok. split_and!.
    + eapply typed_insert; [|by eapply Hty|done]. eapply parameter_type; [done|]. by eapply list_elem_of_lookup_2.
    + intros w Hw. apply lookup_insert_is_Some'. right. by apply Hkeep.
    + intros j' w p' [Hin| [= -> ->]%list_elem_of_singleton]%elem_of_app Hp'; apply lookup_insert_is_Some'; [right; by eapply Hdone|].
      left. congruence.
  - intros values' (Hty' & Hkeep & Hdone). split; [done|]. intros v [Hv|Hv]; [by apply Hkeep|].
    unfold parameter_values in Hv. apply elem_of_list_to_set, list_elem_of_fmap in Hv as (p & -> & [j Hj]%list_elem_of_lookup).
    destruct (Forall2_lookup_r _ _ _ _ _ Hargs Hj) as (a & Ha & _). eapply Hdone; [|exact Hj]. by apply elem_of_lookup_imap_2.
Qed.

(** *** Terminators *)

(** What a terminator reads has been computed. *)
Definition ready (b : block) (values : gmap N llvm_value) : Prop :=
  ∀ v, v ∈ reads_at b (length (blk_instructions b)) → is_Some (values !! v).

Lemma branch_taken values b e :
  b ∈ fn_blocks f → lower_terminator values f (blk_ending b) = Ok (Branch e) → e ∈ trm_edges (blk_ending b).
Proof.
  intros Hb. pose proof (wfb_ending _ _ _ body b Hb) as Hshape. unfold terminator_shaped in Hshape. unfold lower_terminator.
  destruct (trm_tag (blk_ending b)).
  - destruct Hshape as [e' ->]. intros [= <-]. left.
  - destruct Hshape as (c & e1 & e2 & -> & ->). unfold element, lookup_value. cbn.
    destruct (values !! c) as [x|]; [|done]. cbn. destruct x as [[|[]] n| | |]; try done.
    intros [= <-]. destruct (n =? 1); set_solver.
  - destruct (is_void _); [done|]. intros (? & _ & Hr)%bind_Ok_inv. apply bind_Ok_inv in Hr as (? & _ & Hr).
    by apply bind_Ok_inv in Hr as (? & _ & Hr).
  - done.
Qed.

Lemma branch_safe values b e :
  b ∈ fn_blocks f → e ∈ trm_edges (blk_ending b) → values_typed values → ready b values →
  ∃ target values', target ∈ fn_blocks f ∧ blk_id target = edge_target e ∧ add_edge_arguments values e target = Ok values'.
Proof.
  intros Hb He Hty Hready. destruct (edge_block legal index f body b e Hb He) as (target & Ht & Hid).
  destruct (add_edge_arguments_ok values e target) as (values' & Hv & _); [done|by apply (wfb_arguments _ _ _ body b)|done| |].
  - intros v Hv. apply Hready, (proj2 (reads_at_end legal index f body b v)). right. right. by exists e.
  - by exists target, values'.
Qed.

Lemma indirect_returns t : is_supported_value t = true → ∃ b, is_indirect_optional t = Ok b.
Proof.
  intros Hs. unfold is_indirect_optional. destruct (tag_eqb _ _) eqn:E; [|by eexists]. apply tag_eqb_eq in E.
  destruct (optional_cases t) as (a & _ & _ & _ & [(-> & _)|(-> & _)]); [done|by eexists..].
Qed.

Lemma return_safe t x :
  is_supported_value t = true → represents t x →
  ∃ indirect, is_indirect_optional t = Ok indirect ∧
    let v := if indirect : bool then x else to_physical_scalar x t in
    if tag_eqb (ty_tag t) NERI_IR_TYPE_BOOL_V1 then ∃ b, v = IntValue 8 (N.b2n b) else represents t v.
Proof.
  intros Hs Hx. destruct (indirect_returns t Hs) as [indirect Hi]. exists indirect. split; [done|].
  unfold is_indirect_optional in Hi. destruct (tag_eqb (ty_tag t) NERI_IR_TYPE_BOOL_V1) eqn:E.
  - apply tag_eqb_eq in E. rewrite E in Hi. injection Hi as <-.
    apply represents_plain in Hx; [|by rewrite E]. apply to_physical_ok in Hx. unfold physical_value in Hx.
    by rewrite E in Hx.
  - unfold to_physical_scalar. rewrite E. by destruct indirect.
Qed.

Lemma terminator_safe b values :
  b ∈ fn_blocks f → values_typed values → ready b values →
  match lower_terminator values f (blk_ending b) with
  | Ok (Branch e) => ∃ target values', target ∈ fn_blocks f ∧ blk_id target = edge_target e ∧
      add_edge_arguments values e target = Ok values'
  | Ok (Return v) => returned v
  | Throw e => declared_panic e
  end.
Proof.
  intros Hb Hty Hready. pose proof (branch_taken values b) as Hbranch. pose proof (wfb_ending _ _ _ body b Hb) as Hshape.
  unfold terminator_shaped in Hshape.
  assert (∀ e, lower_terminator values f (blk_ending b) = Ok (Branch e) → ∃ target values',
    target ∈ fn_blocks f ∧ blk_id target = edge_target e ∧ add_edge_arguments values e target = Ok values') as Hedge.
  { intros e He. eapply branch_safe; [done|by apply Hbranch|done..]. }
  unfold lower_terminator in *. destruct (trm_tag (blk_ending b)) eqn:Htag.
  - destruct Hshape as [e He]. rewrite He in *. by apply Hedge.
  - destruct Hshape as (c & e1 & e2 & Hc & He). rewrite Hc, He in *. unfold element, lookup_value in *.
    destruct (Hready c) as [x Hx]; [apply (proj2 (reads_at_end legal index f body b c)); by left|].
    assert (represents bool_type x) as Hbool by (eapply Hty; [|exact Hx]; by eapply typed_type, (wfb_condition _ _ _ body)).
    apply bool_value in Hbool as [t ->]. cbn in Hedge |- *. rewrite Hx in Hedge |- *. cbn in Hedge |- *. destruct t; by apply Hedge.
  - unfold returned. destruct (is_void (fn_result_type f)) eqn:Hvoid; [done|].
    destruct (trm_return_value (blk_ending b)) as [v|] eqn:Hv; [|done].
    destruct (Hready v) as [x Hx]; [apply (proj2 (reads_at_end legal index f body b v)); right; by left|].
    pose proof (typed_type _ _ (wfb_return _ _ _ body b v Hb Hv)) as Ht.
    destruct (return_safe _ x (type_supported _ _ Ht) (Hty _ _ _ Ht Hx)) as (indirect & -> & Hret).
    unfold lookup_value. cbn [deref]. rewrite !bind_Ok, Hx, bind_Ok. exact Hret.
  - split; [by eexists _, _|]. by apply (wfb_panics _ _ _ body b).
Qed.

(** *** Every reachable state *)

(** The execution of the function the machine follows. *)
Record machine_ok (m : machine) : Prop := {
  mok_block : mc_block m ∈ fn_blocks f;
  mok_typed : values_typed (mc_values m);
  mok_frame : ∃ computed, executes f (mk_frame (mc_block m) (mc_next m) computed) ∧
    ∀ v, v ∈ computed → is_Some (mc_values m !! v);
}.

Lemma machine_reads m v : machine_ok m → v ∈ reads_at (mc_block m) (mc_next m) → is_Some (mc_values m !! v).
Proof.
  intros [_ _ (computed & Hexec & Hc)] Hv. apply Hc.
  apply (reads_are_computed legal index f body _ v Hexec). exact Hv.
Qed.

Lemma execution_step s s' : executes f s → steps f s s' → executes f s'.
Proof. intros (s0 & Hs & Hr) Hstep. exists s0. split; [done|]. by eapply rtc_r. Qed.

Lemma starts_ok m : machine_starts m → machine_ok m.
Proof.
  intros [b values Hb Hid Hv Hty]. split; [done..|]. exists (root_values f ∪ parameter_values b). split; [|done].
  exists (mk_frame b 0 (root_values f ∪ parameter_values b)). split; [by constructor|reflexivity].
Qed.

Lemma machine_step_ok m m' : machine_ok m → machine_step m m' → machine_ok m'.
Proof.
  intros Hok Hstep. pose proof (machine_reads m) as Hreads. destruct Hok as [Hb Hty (computed & Hexec & Hc)].
  assert (∀ v, v ∈ reads_at (mc_block m) (mc_next m) → is_Some (mc_values m !! v)) as Hready
    by (intros v; apply Hreads; split; eauto).
  destruct Hstep as [b k values i r x Hi Hval Hx Hr|b k values i results Hi Hval Hres Hrt|b values e target values' Ht Htarget Hid Hargs];
    cbn [mc_block mc_next mc_values] in *.
  - pose proof (value_instruction_safe b k i values Hb Hi Hval Hty) as Hsafe. rewrite Hx in Hsafe.
    destruct Hsafe as (r' & Hrs & Hrep).
    { intros v Hv. apply Hready. unfold reads_at, reads_next. cbn. by rewrite Hi. }
    assert (r' = r) as -> by (rewrite Hrs in Hr; by injection Hr). split; [done| |].
    + eapply typed_insert; [|done..]. eapply result_type; [done..|]. rewrite Hrs. left.
    + eexists. split; [eapply execution_step; [exact Hexec|by constructor]|].
      intros v [Hv|Hv]%elem_of_union; apply lookup_insert_is_Some'; [left|right; by apply Hc].
      unfold result_values in Hv. rewrite Hrs in Hv. set_solver.
  - split; [done| |].
    + intros v t x Ht Hx. apply lookup_union_Some_raw in Hx as [Hx|[_ Hx]]; [by eapply Hrt|by eapply Hty].
    + eexists. split; [eapply execution_step; [exact Hexec|by constructor]|].
      intros v [Hv|Hv]%elem_of_union; apply lookup_union_is_Some; [left; by apply Hres|right; by apply Hc].
  - assert (e ∈ trm_edges (blk_ending b)) as He by by eapply branch_taken.
    destruct (add_edge_arguments_ok values e target) as (values'' & Hv & Hty' & Hkeep); [done|by apply (wfb_arguments _ _ _ body b)|done| |].
    { intros v Hv. apply Hready, (proj2 (reads_at_end legal index f body b v)). right. right. by exists e. }
    assert (values'' = values') as -> by congruence. split; [done..|].
    eexists. split; [eapply execution_step; [exact Hexec|by eapply step_edge]|].
    intros v [Hv'|Hv']%elem_of_union; apply Hkeep; [by right|left; by apply Hc].
Qed.

Lemma machine_ok_safe m : machine_ok m → machine_safe m.
Proof.
  intros Hok. split; [apply Hok|]. pose proof (λ v, machine_reads m v Hok) as Hready.
  destruct Hok as [Hb Hty (computed & Hexec & _)]. pose proof (next_in_range f _ Hexec) as Hnext. cbn in Hnext.
  destruct (blk_instructions (mc_block m) !! mc_next m) as [i|] eqn:Hi.
  - assert (∀ v, v ∈ ins_operands i → is_Some (mc_values m !! v)) as Hops.
    { intros v Hv. apply Hready. unfold reads_at, reads_next. cbn. by rewrite Hi. }
    split; [done|]. intros Hval. by eapply value_instruction_safe.
  - apply lookup_ge_None in Hi. assert (mc_next m = length (blk_instructions (mc_block m))) as Hend by lia.
    apply terminator_safe; [done..|]. unfold ready. by rewrite <-Hend.
Qed.

Lemma runs_safe m : machine_runs m → machine_safe m.
Proof.
  intros (m0 & Hstart%starts_ok & Hrun). apply machine_ok_safe. induction Hrun as [|m0 m1 m2 Hstep _ IH]; [done|].
  by apply IH, (machine_step_ok m0).
Qed.
End run.

(** ** Properties *)

(** C6: The code the compiler generates for an accepted function is type safe.  Whatever the
    memory, the runtime and the callees give back within their types, in every state an
    execution can reach every value is of the type the module declares, and the operands of
    the next instruction are there.  An instruction that computes a value from values
    (arithmetic, comparisons, conversions, optionals, pointer casts and comparisons, constants
    that name no global) gives one of its result type or panics, and reaches no operation
    that LLVM leaves undefined; a branch goes to a block of the function with values for all its
    parameters; what the function returns is of its declared type; and panics happen only in
    functions that declare them. *)
Theorem compiled_code_type_safe `{LawfulIRBuilder} `{DataLayout} `{LawfulFloatBits}
    legal index f globals string_equal lower_effect m :
  fn_retained f = false → verify_function legal index f = Ok tt → compares_strings string_equal →
  machine_runs index f globals string_equal lower_effect m → machine_safe index f globals string_equal lower_effect m.
Proof.
  intros Hr Hv Hs Hm. eapply runs_safe; [|done..]. by apply (proj2 (verify_function_ok legal index f) tt).
Qed.

(** What checked arithmetic computes on numbers: nothing where the divisor is zero. *)
Definition exact_result (opcode : neri_ir_opcode_v1) (arguments : list Z) : option Z :=
  match opcode, arguments with
  | NERI_IR_OPCODE_INT_NEG_CHECKED_V1, [a] => Some (- a)
  | NERI_IR_OPCODE_INT_ADD_CHECKED_V1, [a; b] => Some (a + b)
  | NERI_IR_OPCODE_INT_SUB_CHECKED_V1, [a; b] => Some (a - b)
  | NERI_IR_OPCODE_INT_MUL_CHECKED_V1, [a; b] => Some (a * b)
  | NERI_IR_OPCODE_INT_DIV_CHECKED_V1, [a; b] => if b =? 0 then None else Some (a ÷ b)
  | _, _ => None
  end%Z.

Definition arithmetic_message (opcode : neri_ir_opcode_v1) : string :=
  match opcode with
  | NERI_IR_OPCODE_INT_NEG_CHECKED_V1 => "Integer negation overflow."
  | NERI_IR_OPCODE_INT_ADD_CHECKED_V1 => overflow_message add_with_overflow
  | NERI_IR_OPCODE_INT_SUB_CHECKED_V1 => overflow_message sub_with_overflow
  | NERI_IR_OPCODE_INT_MUL_CHECKED_V1 => overflow_message mul_with_overflow
  | _ => "Invalid integer division."
  end.

Definition checked_arithmetic : list neri_ir_opcode_v1 :=
  [NERI_IR_OPCODE_INT_NEG_CHECKED_V1; NERI_IR_OPCODE_INT_ADD_CHECKED_V1; NERI_IR_OPCODE_INT_SUB_CHECKED_V1;
   NERI_IR_OPCODE_INT_MUL_CHECKED_V1; NERI_IR_OPCODE_INT_DIV_CHECKED_V1].

(** A number in range is what the bits of the result denote; the code panics for any other. *)
Definition computes (signed : bool) (bits : N) (z : option Z) (message : string) (m : result llvm_value) : Prop :=
  if from_option (in_range signed bits) false z
  then ∃ n, m = Ok (IntValue bits n) ∧ n < 2 ^ bits ∧ Some (denote signed bits n) = z
  else m = Throw (panic PANIC_ARITHMETIC message).

Lemma computes_if signed bits z message m :
  0 < bits → m = (if in_range signed bits z then Ok (IntValue bits (wrap bits z)) else Throw (panic PANIC_ARITHMETIC message)) →
  computes signed bits (Some z) message m.
Proof.
  intros Hb ->. unfold computes. cbn [from_option]. destruct (in_range signed bits z) eqn:Hr; [|done].
  eexists. split_and!; [done|apply wrap_bound|]. by rewrite denote_wrap.
Qed.

(** The arguments of an instruction. *)
Definition arguments_are (values : gmap N llvm_value) (i : instruction) (bits : N) (ns : list N) : Prop :=
  Forall2 (λ v n, values !! v = Some (IntValue bits n) ∧ n < 2 ^ bits) (ins_operands i) ns.

Lemma operand_of values i bits ns k n :
  arguments_are values i bits ns → ns !! k = Some n → operand_value values i k = Ok (IntValue bits n) ∧ n < 2 ^ bits.
Proof.
  intros Ha Hn. destruct (Forall2_lookup_r _ _ _ _ _ Ha Hn) as (v & Hv & Hx & Hb).
  unfold operand_value, element, lookup_value. by rewrite Hv, bind_Ok, Hx.
Qed.

(** C15: Checked integer arithmetic of compiled code is exact: for an accepted negation,
    addition, subtraction, multiplication or division on integers of any width and
    signedness, the result denotes the exact mathematical result where that is in the range of
    the type, and otherwise, and on division by zero, the code panics; the division is
    reached only where LLVM defines it. *)
Theorem checked_arithmetic_exact `{LawfulIRBuilder} `{DataLayout} `{FloatBits}
    legal context i e tag values types globals string_equal lower_effect ns :
  verify_instruction legal context i = Ok e → opcode_in (ins_opcode i) checked_arithmetic = true →
  result_has_type i 0 (plain_type tag []) → arguments_are values i (scalar_width tag) ns →
  let signed := negb (unsigned_scalar tag) in
  computes signed (scalar_width tag) (exact_result (ins_opcode i) (map (denote signed (scalar_width tag)) ns))
    (arithmetic_message (ins_opcode i))
    (lower_instruction (ctx_index context) globals string_equal values types lower_effect i).
Proof.
  intros (_ & _ & He)%verify_instruction_iff Hop Hres Hargs signed.
  pose proof (result_ok i _ Hres) as Ht. pose proof (Forall2_length _ _ _ Hargs) as Hlen.
  pose proof (λ k n, operand_of values i _ ns k n Hargs) as Hget.
  assert (∀ count ok effects, arithmetic_signature (ins_opcode i) = Some (count, ok, effects) →
    count = length ns ∧ ok tag = true) as Hsig.
  { intros count ok effects Hs. apply (arithmetic_opcode_iff _ _ _ _ _ _ _ Hs) in He as (_ & tag' & Hok & Hshape & (r' & Hr' & Ht') & _).
    destruct Hres as (r & Hr & Hrt). assert (tag' = tag) as -> by (unfold plain_type in *; congruence). split; [|done].
    destruct Hshape as (_ & Hl & _). congruence. }
  assert (integer_scalar tag = true ∧ 1 < scalar_width tag ≤ 64) as [_ Hw].
  { assert (arithmetic_integer_tag tag = true) as Hok%arithmetic_integer by (destruct (ins_opcode i); try discriminate Hop; by eapply Hsig).
    split; [done|]. destruct tag; try discriminate Hok; vm_compute; split; congruence. }
  unfold lower_instruction, lower_overflow.
  destruct (ins_opcode i); try discriminate Hop; destruct (Hsig _ _ _ eq_refl) as [Hcount _];
    destruct ns as [|a [|b [|]]]; try discriminate Hcount; destruct (Hget 0%nat a eq_refl) as [-> Ha];
    try destruct (Hget 1%nat b eq_refl) as [-> Hb]; rewrite Ht, !bind_Ok; cbn [map exact_result].
  - apply computes_if; [lia|]. unfold negate. cbn [integer_bits]. rewrite constant_int_small by lia.
    rewrite checked_overflow_ok. cbn [overflow_result]. rewrite (denote_small _ _ 0), Z.sub_0_l by lia. done.
  - apply computes_if; [lia|]. apply checked_overflow_ok.
  - apply computes_if; [lia|]. apply checked_overflow_ok.
  - apply computes_if; [lia|]. apply checked_overflow_ok.
  - pose proof (divide_ok signed (scalar_width tag) a b ltac:(lia) Ha Hb) as Hd. assert (negb signed = unsigned_scalar tag) as Hs by apply negb_involutive.
    rewrite Hs in Hd. cbv zeta in Hd.
    unfold is_unsigned_tag. cbn [plain_type ty_tag]. rewrite Hd. destruct (_ =? 0)%Z; [done|]. by apply computes_if; [lia|].
Qed.

(** Conversions round towards zero, and panic where the number rounded down leaves the
    target. *)
Definition converts (signed : bool) (bits : N) (down z : option Z) (message : string) (m : result llvm_value) : Prop :=
  if from_option (in_range signed bits) false down
  then ∃ n, m = Ok (IntValue bits n) ∧ n < 2 ^ bits ∧ Some (denote signed bits n) = z
  else m = Throw (panic PANIC_ARITHMETIC message).

Definition cast_message (opcode : neri_ir_opcode_v1) : string :=
  match opcode with
  | NERI_IR_OPCODE_CAST_FLOAT_TO_INT_CHECKED_V1 => "Float value cannot be represented as Int."
  | NERI_IR_OPCODE_CAST_INT_TO_BYTE_CHECKED_V1 => "Integer value is outside the Byte range 0..255."
  | _ => "Numeric conversion is outside the target range."
  end.

Section casts.
Context `{LawfulIRBuilder} `{DataLayout} `{FloatBits}.

(** Rounded towards zero, a value stays in a range it is in rounded down. *)
Lemma part_in_range signed bits tag x down :
  0 < bits → rounded_down tag x = Some down → in_range signed bits down = true →
  ∃ z, integer_part tag x = Some z ∧ in_range signed bits z = true.
Proof. intros Hb Hd Hr. destruct x; try done; [by exists down|]. by apply (truncate_floor signed bits _ down). Qed.

Lemma converts_if signed bits tag x message m :
  0 < bits →
  m = match rounded_down tag x, integer_part tag x with
      | Some down, Some z => if in_range signed bits down then Ok (IntValue bits (wrap bits z)) else Throw (panic PANIC_ARITHMETIC message)
      | _, _ => Throw (panic PANIC_ARITHMETIC message)
      end →
  converts signed bits (rounded_down tag x) (integer_part tag x) message m.
Proof.
  intros Hb ->. unfold converts. destruct (rounded_down tag x) as [down|] eqn:Hd; [|done]. cbn [from_option].
  destruct (in_range signed bits down) eqn:Hr.
  - destruct (part_in_range _ _ _ _ _ Hb Hd Hr) as (z & -> & Hz). eexists. split_and!; [done|apply wrap_bound|]. by rewrite denote_wrap.
  - by destruct (integer_part tag x).
Qed.

Lemma float_to_int_exact f :
  valid_float 64 f = true →
  float_to_int (FloatValue 64 f) =
    match rounded_down NERI_IR_TYPE_FLOAT_V1 (FloatValue 64 f), integer_part NERI_IR_TYPE_FLOAT_V1 (FloatValue 64 f) with
    | Some down, Some z => if in_range true 64 down then Ok (IntValue 64 (wrap 64 z))
                           else Throw (panic PANIC_ARITHMETIC "Float value cannot be represented as Int.")
    | _, _ => Throw (panic PANIC_ARITHMETIC "Float value cannot be represented as Int.")
    end.
Proof.
  intros Hf. cbn [rounded_down integer_part]. unfold float_to_int. pose proof (float_check 64 f false 64 ltac:(lia) Hf) as Hc.
  unfold float_minimum, float_limit in Hc. change (64 - 1) with 63 in Hc. rewrite Hc, guard_truth. cbn [negb].
  destruct (floor f) as [down|] eqn:Hz; cbn [from_option]; [|done].
  destruct (in_range true 64 down) eqn:Hr; [|by destruct (truncate f)].
  destruct (truncate_floor true 64 f down ltac:(lia) Hz Hr) as (z & Ht & Hrz). rewrite Ht, bind_Ok. by apply fp_to_si.
Qed.

Lemma int_to_byte_exact n :
  n < 2 ^ 64 →
  int_to_byte (IntValue 64 n) =
    if in_range false 8 (denote true 64 n) then Ok (IntValue 8 (wrap 8 (denote true 64 n)))
    else Throw (panic PANIC_ARITHMETIC "Integer value is outside the Byte range 0..255.").
Proof.
  intros Hn. unfold int_to_byte, CreateTrunc. rewrite !constant_int_small by done. rewrite !icmp_int, and_truth, guard_truth, int_cast.
  unfold icmp_holds. rewrite !(denote_small true 64) with (v := 0) by done. rewrite !(denote_small true 64) with (v := 255) by done.
  assert ((denote true 64 n <=? Z.of_N 255)%Z = (denote true 64 n <? limit false 8)%Z) as ->
    by (apply eq_bool_prop_intro; rewrite !Is_true_true, Z.leb_le, Z.ltb_lt; change (limit false 8) with 256%Z; lia).
  change (_ && _) with (in_range false 8 (denote true 64 n)). destruct (in_range false 8 (denote true 64 n)) eqn:Hr; [|done].
  rewrite bind_Ok. do 2 f_equal. unfold denote in *. cbn [andb] in *. destruct (2 ^ (64 - 1) <=? n) eqn:Hb; [|done].
  apply in_range_spec in Hr. unfold minimum in Hr. apply N.leb_le in Hb. lia.
Qed.
End casts.

(** Conversions to integers keep the number: an accepted conversion of an integer or
    floating-point value to an integer type gives the value that denotes the number
    rounded towards zero where the number rounded down is in the range of the target, and panics otherwise,
    on infinities and on what is not a number; LLVM's conversions are reached only on
    numbers for which they are defined. *)
Theorem numeric_casts_exact `{LawfulIRBuilder} `{DataLayout} `{FloatBits}
    legal context i e source target x values types globals string_equal lower_effect :
  verify_instruction legal context i = Ok e →
  opcode_in (ins_opcode i) [NERI_IR_OPCODE_NUMERIC_CAST_CHECKED_V1; NERI_IR_OPCODE_CAST_FLOAT_TO_INT_CHECKED_V1;
    NERI_IR_OPCODE_CAST_INT_TO_BYTE_CHECKED_V1] = true →
  operand_has_type context i 0 source → operand_value_type types i 0 = Ok source →
  result_has_type i 0 target → integer_scalar (ty_tag target) = true →
  operand_value values i 0 = Ok x → represents source x →
  let signed := negb (unsigned_scalar (ty_tag target)) in
  let bits := scalar_width (ty_tag target) in
  converts signed bits (rounded_down (ty_tag source) x) (integer_part (ty_tag source) x) (cast_message (ins_opcode i))
    (lower_instruction (ctx_index context) globals string_equal values types lower_effect i).
Proof.
  intros (_ & _ & He)%verify_instruction_iff Hop Hsource Htype Hres Ht Hx Hrep signed bits.
  assert (0 < bits) as Hb by (unfold bits; by destruct (ty_tag target)).
  pose proof (result_ok i _ Hres) as Hrt. unfold verify_opcode in He. unfold lower_instruction.
  assert (∀ a b, operand_has_type context i 0 a ∧ result_has_type i 0 b → source = a ∧ target = b) as Hsame.
  { intros a b ((v & d & Hv & Hd & Hda) & r & Hr & Hrb). destruct Hsource as (v' & d' & Hv' & Hd' & Hds), Hres as (r' & Hr' & Hrs).
    split; congruence. }
  destruct (ins_opcode i); try discriminate Hop; cbn [cast_message]; rewrite ?Htype, ?Hrt, Hx, !bind_Ok.
  - unfold unary in He. rewrite seq_Ok_iff, require_unary_iff in He. destruct He as [(_ & Hs & Hr) _].
    destruct (Hsame _ _ (conj Hs Hr)) as [-> ->]. apply represents_plain in Hrep as (f & -> & Hf); [|done].
    apply converts_if; [done|]. by apply float_to_int_exact.
  - unfold unary in He. rewrite seq_Ok_iff, require_unary_iff in He. destruct He as [(_ & Hs & Hr) _].
    destruct (Hsame _ _ (conj Hs Hr)) as [-> ->]. apply represents_plain in Hrep as (n & -> & Hn); [|done].
    apply converts_if; [done|]. by apply int_to_byte_exact.
  - unfold verify_numeric_cast in He. apply seq_Ok_iff in He as [_ He]. apply bind_Ok_inv in He as (s & Hs%operand_type_Ok & He).
    destruct (Hsame s target) as [-> _]; [done|].
    apply bind_Ok_inv in He as (r & _ & He). apply seq_Ok_iff in He as [Hc%fail_when_Ok _]. apply orb_false_iff in Hc as [Hn%negb_false_iff _].
    apply converts_if; [done|]. apply cast_to_integer; [done..|]. apply represents_plain in Hrep; [done|]. intros E. by rewrite E in Hn.
Qed.

(** C16: Optionals give back what was put into them: building a present optional from a
    value of its argument type, other than the null reference, gives a value of the
    optional type that tests as present and from which the checked read returns that very value,
    while the missing optional tests as missing and the checked read panics, for each of the
    representations the compiler chooses: a null pointer, a tag next to a byte, or a tag with padding. *)
Theorem optional_roundtrip `{LawfulIRBuilder} `{DataLayout} index t a x :
  optional_type t → ty_arguments t = [a] → plain_value a x → x ≠ null_pointer →
  (∃ some, optional_some index x t = Ok some ∧ represents t some ∧
     optional_is_some some t = Ok (truth true) ∧ optional_get some t a = Ok x) ∧
  (∃ none, optional_none index t = Ok none ∧ represents t none ∧
     optional_is_some none t = Ok (truth false) ∧
     optional_get none t a = Throw (panic PANIC_RUNTIME_CONTRACT missing_optional)).
Proof.
  intros Ht Ha Hx Hne. split.
  - destruct (optional_some_ok index t a x Ht Ha Hx) as (v & Hv & Hr & Hget). destruct (Hget Hne). by exists v.
  - by apply optional_none_ok.
Qed.

(** ** Witnesses *)

#[local] Existing Instance plain_builder.
#[local] Existing Instance plain_builder_lawful.
#[local] Existing Instance ClassSpec.natural_layout.
#[local] Existing Instance ieee_double.
#[local] Existing Instance ieee_double_lawful.

Definition no_effect (i : instruction) : result llvm_value := undefined_operation.

(** The main function of the sample after its test: the object at 64 and the number 7. *)
Definition entry_values : gmap N llvm_value := {[1 := PointerValue 64; 2 := IntValue 64 7]}.

Definition main_machine : machine :=
  mk_machine (mk_block 1 [] [Sample.call_add] (Sample.branch 3 [11])) 0 (<[10 := truth true]> entry_values).

Definition equal_addresses (a b : N) : result N := Ok (N.b2n (a =? b)).

Definition main_entry : block :=
  mk_block 0 [mk_parameter 1 (Sample.class Sample.base_class) None; mk_parameter 2 Sample.int None] [Sample.constant_true]
    (mk_terminator NERI_IR_TERMINATOR_CONDITIONAL_BRANCH_V1 (Some 10) [mk_edge 1 []; mk_edge 2 []] None "" "" None 0).

Lemma main_machine_runs :
  machine_runs (module_index Sample.app) Sample.main_function ∅ equal_addresses no_effect main_machine.
Proof.
  exists (mk_machine main_entry 0 entry_values). split.
  - constructor; [left|reflexivity| |].
    + intros v Hv. assert (v = 1 ∨ v = 2) as [->| ->] by (unfold root_values, parameter_values in Hv; cbn in Hv; set_solver); by eexists.
    + intros v t x Ht Hx. unfold entry_values in Hx.
      apply lookup_insert_Some in Hx as [[<- <-]|[_ [<- <-]%lookup_singleton_Some]]; vm_compute in Ht; injection Ht as <-; by eexists.
  - apply (rtc_l _ _ (mk_machine main_entry 1 (<[10 := truth true]> entry_values))).
    + by apply (machine_value _ _ _ _ _ main_entry 0 entry_values Sample.constant_true (mk_value 10 Sample.bool)).
    + apply rtc_once. apply (machine_branch _ _ _ _ _ main_entry _ (mk_edge 1 [])); [reflexivity|right; left|reflexivity|reflexivity].
Qed.

Lemma compiled_code_type_safe_witness :
  machine_safe (module_index Sample.app) Sample.main_function ∅ equal_addresses no_effect main_machine.
Proof.
  apply (compiled_code_type_safe (λ _, true)); [reflexivity|vm_compute; reflexivity| |apply main_machine_runs].
  intros a b. by eexists.
Defined.

Notation add_context := (core_context (module_index Sample.app) Sample.add_function).

(** The largest integer plus one. *)
Lemma checked_arithmetic_exact_witness :
  computes true 64 (Some (2 ^ 63)%Z) "Integer addition overflow."
    (lower_instruction (module_index Sample.app) ∅ equal_addresses {[1 := IntValue 64 (2 ^ 63 - 1); 2 := IntValue 64 1]}
       (function_value_types Sample.add_function) no_effect Sample.add_instruction).
Proof.
  apply (checked_arithmetic_exact (λ _, true) add_context Sample.add_instruction NERI_IR_EFFECT_MAY_PANIC_V1 NERI_IR_TYPE_INT_V1
    {[1 := IntValue 64 (2 ^ 63 - 1); 2 := IntValue 64 1]} (function_value_types Sample.add_function) ∅ equal_addresses no_effect
    [2 ^ 63 - 1; 1]).
  - vm_compute. reflexivity.
  - reflexivity.
  - by eexists.
  - repeat constructor.
Defined.

(** [(byte) -1]: the number is outside the target. *)
Definition narrow : instruction := Sample.instr NERI_IR_OPCODE_NUMERIC_CAST_CHECKED_V1 [mk_value 3 byte_type] [1] None.

Lemma numeric_casts_exact_witness :
  converts false 8 (Some (-1)%Z) (Some (-1)%Z) "Numeric conversion is outside the target range."
    (lower_instruction (module_index Sample.app) ∅ equal_addresses {[1 := IntValue 64 (2 ^ 64 - 1)]}
       (function_value_types Sample.add_function) no_effect narrow).
Proof.
  apply (numeric_casts_exact (λ _, true) add_context narrow NERI_IR_EFFECT_MAY_PANIC_V1 Sample.int byte_type (IntValue 64 (2 ^ 64 - 1))
    {[1 := IntValue 64 (2 ^ 64 - 1)]} (function_value_types Sample.add_function) ∅ equal_addresses no_effect).
  - vm_compute. reflexivity.
  - reflexivity.
  - by eexists 1, _.
  - reflexivity.
  - by eexists.
  - reflexivity.
  - reflexivity.
  - by eexists.
Defined.

(** [Some(true)]. *)
Lemma optional_roundtrip_witness :
  (∃ some, optional_some (module_index Sample.app) (truth true) (plain_type NERI_IR_TYPE_OPTIONAL_V1 [bool_type]) = Ok some ∧
     represents (plain_type NERI_IR_TYPE_OPTIONAL_V1 [bool_type]) some ∧
     optional_is_some some (plain_type NERI_IR_TYPE_OPTIONAL_V1 [bool_type]) = Ok (truth true) ∧
     optional_get some (plain_type NERI_IR_TYPE_OPTIONAL_V1 [bool_type]) bool_type = Ok (truth true)) ∧
  (∃ none, optional_none (module_index Sample.app) (plain_type NERI_IR_TYPE_OPTIONAL_V1 [bool_type]) = Ok none ∧
     represents (plain_type NERI_IR_TYPE_OPTIONAL_V1 [bool_type]) none ∧
     optional_is_some none (plain_type NERI_IR_TYPE_OPTIONAL_V1 [bool_type]) = Ok (truth false) ∧
     optional_get none (plain_type NERI_IR_TYPE_OPTIONAL_V1 [bool_type]) bool_type =
       Throw (panic PANIC_RUNTIME_CONTRACT missing_optional)).
Proof.
  apply optional_roundtrip; [by split|done|by eexists|done].
Defined.

(** ** Constants the verifier accepts and the code generator does not *)

Definition constant_instruction (t : type) (c : constant) : instruction :=
  mk_instruction NERI_IR_OPCODE_CONSTANT_V1 [mk_value 3 t] [] [] None (Some c) None false None 0.

Definition literal : constant := mk_constant NERI_IR_CONSTANT_STRING_UTF8_V1 0 [] [] None "hi".
Definition missing_global : constant :=
  mk_constant NERI_IR_CONSTANT_STRING_GLOBAL_V1 0 [] [] (Some (Sample.symbol NERI_IR_SYMBOL_GLOBAL_V1 "missing")) "".
Definition optional_text : type := plain_type NERI_IR_TYPE_OPTIONAL_V1 [Sample.text].

(** A string literal as the constant of an instruction passes the checks, and has no code. *)
Lemma literal_constant_unmapped :
  verify_instruction (λ _, true) add_context (constant_instruction Sample.text literal) = Ok 0 ∧
  lower_instruction (module_index Sample.app) ∅ equal_addresses ∅ ∅ no_effect (constant_instruction Sample.text literal) =
    Throw (lowering_error "Verified constant has no LLVM mapping.").
Proof. split; vm_compute; reflexivity. Qed.

(** So does an optional that holds a global which is not in the module: the check looks at
    the outermost constant only. *)
Lemma nested_global_unchecked :
  let c := mk_constant NERI_IR_CONSTANT_OPTIONAL_SOME_V1 0 [optional_text] [missing_global] None "" in
  verify_instruction (λ _, true) add_context (constant_instruction optional_text c) = Ok 0 ∧
  lower_instruction (module_index Sample.app) ∅ equal_addresses ∅ ∅ no_effect (constant_instruction optional_text c) =
    Throw (out_of_range "map::at").
Proof. split; vm_compute; reflexivity. Qed.
